(* ===== verification/_CoqProject ===== *)
-Q . S2P
Prelude.v
RecStack.v
SearchGraph.v
FixedPoint.v
FixedPointInv.v
FixedPointSpec.v
FixedPointThm.v
Ir.v
Fold.v
FoldLaws.v
InPlace.v
Shift.v
ShiftThm.v
Flags.v
Ena.v
Infer.v
Canonicalize.v
CanonThm.v
Visit.v
VisitLaws.v
UCanonicalize.v
UCanonThm.v
Zip.v
Unify.v
Valuation.v
UnifySound.v
UnifyThm.v
OccursThm.v
FirstOrder.v
UnifyComplete.v
CouldMatchThm.v
IrCountable.v
RustIr.v
Solve.v
Truncate.v
Fulfill.v
FixedPointSafe.v
RecSolve.v
RecSolveThm.v
ClauseOrder.v
Aggregate.v
InvalidateThm.v
ExClause.v
Resolvent.v
Forest.v
Logic.v
SlgSolve.v
LogicInv.v
SlgThm.v
Builder.v
SuperTraits.v
ProgramClauses.v
BuiltinTraits.v
Unsize.v
Clauses.v
GoalClauses.v
Coherence.v
Wf.v
Programs.v
Scoped.v
BuilderScopes.v
DeclScopes.v
SuperTraitsThm.v
DeclThm.v
Framed.v
EnvThm.v
CoherenceThm.v
Ast.v
LowerEnv.v
Lowering.v
Program.v
ProgramLowerer.v
LoweringScopes.v
LoweringItems.v
LoweringThm.v
Queries.v
LoggingDb.v
Display.v
DisplayThm.v
Debug.v
