(* ===== verification/Prelude.v ===== *)
(** * A verification of chalk

    chalk decides goals about the traits of Rust programs.  A program is parsed and
    lowered to declarations (the Rust IR), declarations are translated to logical rules
    (program clauses), and a solver answers goals from these rules: one of two solvers, the
    recursive one, which iterates to fixed points over a cache, or the SLG one, which
    tables answers.  Both work on terms with de Bruijn indices and on a table of inference
    variables.  Before a program is used, coherence and well-formedness checks ask a solver
    about its impls and declarations.

    This development has a definition for every operation on that path, from syntax
    trees to answers, and theorems about what each part promises the next.  Paths below
    are those of the crates of the repository ([chalk-ir/src/..] and so on).

    ** Conventions

    - [outcome E A] (this file) is the result of Rust code: a value, an [Err], a panic
      with its cause, or, in the model only, the end of the fuel that bounds a recursion.
      [Fallible] is [outcome NoSolution] where the code has [Fallible], and
      also stands for code that only panics; [unwrap], [expect], [assert!], slices and
      indices panic as they do in the code.  Debug assertions are checked.
    - Code that changes a table, a forest, a builder or a stack is a state monad over a
      record with the fields of the struct: [SE] (the state survives an error: zipping and
      unification), [CB] (clause builder), [SolveState] and the forest of the SLG solver, and
      [solve_iteration] as a tree of calls back into the engine.
    - Interned data is the data itself; ids are [N]; vectors are lists, [BTreeMap], [HashMap]
      and [FxHashMap] are [gmap]s.  An iteration whose order is that of a hash set is given the
      order by an argument ([hash_order], [constraint_order]), a [BTreeMap] iterates by key.
      [usize] is [nat] or [N] with explicit bounds where the code can overflow.  De Bruijn depths
      are unbounded; [Shift] also has shifting with the [u32] depths of the code, and
      [shifted_in_from_spec] says when the two differ.  Counters that only go up by one (universes,
      variables) are unbounded.
    - Third-party code is an interface, a class with its documented laws as a second class,
      and a concrete instance for the examples: [EnaOps] and [EnaLaws] for the unification
      table of ena ([UnionFind]), [DiGraph] and [DiGraphLaws] for petgraph ([ListGraph]),
      [TupleCombinations] for itertools.  The parser, which LALRPOP generates, is an argument of the
      queries.  [RustIrDatabase] is the interface between the solvers and programs;
      [program_rust_ir] is the instance for lowered programs.
    - Recursive functions that Rust does not bound have [fuel].  A theorem says how much is
      enough: [size traits] for super traits ([super_traits_reachable]), the rank of the
      variables for canonicalization ([canonicalize_returns]), the height of the goal for the
      matching check ([could_match_exact]), a bound on the goals and the answers for the fixed
      point ([solve_root_goal_least]), the number of impls for priorities
      ([specialization_priorities_order]), the size of a closed set of clauses for
      environments ([env_elaboration_least]), the number of subgoals for their selection
      ([select_subgoal_terminates]), and for unification [unify_fuel], exponential in the number of
      unbound type variables because every binding may double the heights ([relate_complete]).
      The other theorems about unification and those about whole solver runs hold of every
      run that returns.

    ** Terms (chalk-ir)

    - [Ir]: types, lifetimes, constants, goals, clauses, canonical values ([lib.rs]).
      [IrCountable]: they are countable, as keys of maps.
    - [Fold]: folders as records of callbacks, and the traversal ([fold.rs]); [FoldLaws]: the
      relation of a fold to the leaves of a term, an induction principle that the laws of all
      folders share.  [InPlace]: the unsafe code that maps a vector or a box in its own
      allocation ([fold/in_place.rs]), with its memory safety ([fallible_map_safe]).
    - [Shift], [ShiftThm]: shifting and substitution, as partial inverses of one another,
      and the overflow of depths.
    - [Flags]: the cached flags of a type are those of its leaves.
    - [Visit], [VisitLaws]: visitors; what a visit sees.
    - [Zip]: zipping, and the check that a clause could match a goal ([could_match.rs]);
      [CouldMatchThm]: the check is exact, and never drops a clause that resolution can use.

    ** Inference (chalk-solve/src/infer)

    - [Ena], [Infer]: the table of variables, with snapshots.
    - [Canonicalize], [CanonThm]: canonicalization returns on acyclic tables, and the canonical value
      is the resolved value with its variables numbered.
    - [UCanonicalize], [UCanonThm]: universe maps are order embeddings that can be undone, up to
      the overflow of a counter; also the extension traits of [ext.rs].
    - [Unify], with [Valuation], [UnifySound], [UnifyThm], [OccursThm]: a successful [relate]
      is sound for every valuation, under the binders of [fn] and [dyn] types too, a failed one
      rolls back, and the occurs check keeps bindings acyclic and in their universes.
    - [FirstOrder], [UnifyComplete]: on types without binders and aliases, invariantly, which is
      how goals are unified with clauses, [relate] returns, and keeps every solution when there
      is one ([relate_complete]).  Variances that leave subtype goals, binders and aliases are not
      covered: there a solution need not make the terms equal.
    - [Truncate]: truncation of deep types; its measure is exact.

    ** The recursive solver (chalk-recursive)

    - [RecStack], [SearchGraph], [FixedPoint]: the stack, the search graph with its cache, and the
      engine, generic in goals and answers.  [FixedPointInv] and [FixedPointSpec] give its
      invariant, a specification by triples; [FixedPointThm] the least solution, and what a
      mixed cycle does to the cache; [FixedPointSafe] answers that satisfy a specification.
    - [Solve]: solutions and their combination.  [Fulfill], [RecSolve]: one iteration of a goal.
      [RecSolveThm]: every answer is well kinded.  [ClauseOrder]: when the order of the
      clauses matters, for attempts that call the solver.

    ** The SLG solver (chalk-engine)

    - [ExClause], [Resolvent], [Forest], [Logic], [Aggregate], [SlgSolve]: strands, tables, the forest,
      the search with every handler of its loop, the aggregation of answers, and the entry points.
    - [LogicInv]: the forest stays well formed; [SlgThm]: answers are cached, a search that is dropped
      loses no strand, the selection of a subgoal ends; [InvalidateThm]: when a guidance is sound.

    ** Clauses (chalk-solve/src/clauses and the files beside it)

    - [RustIr]: declarations, [RustIrDatabase] and [split.rs].  [Builder]: the clause builder, [Generalize], the
      goal builder.  [SuperTraits], [ProgramClauses], [BuiltinTraits], [Unsize], [Clauses], [GoalClauses]: the
      rules of declarations, of built-in traits, of goals and of environments.
    - [Scoped] (terms in scope and of the kinds of their binders, a class with an instance per
      type), [BuilderScopes] (triples for the builder), [DeclScopes], [SuperTraitsThm], [DeclThm]:
      well-kinded declarations give clauses without a panic, and well-kinded ones.
      [Framed], [EnvThm]: the elaboration of an environment is a least fixed point.
    - [Coherence], [Wf]: the checks; [CoherenceThm]: what priorities mean.
    - [Programs]: small programs, and clauses that confuse the variables of the goal.

    ** Lowering and queries (chalk-parse/src/ast.rs, chalk-integration)

    - [Ast]: syntax trees.  [LowerEnv], [Lowering]: names and binders; types, bounds, goals, clauses
      and items.  [ProgramLowerer], [Program]: the three passes over a program, and its maps as
      a database.  [Queries]: from a text to a checked program, with a choice of solver; the clauses
      of the environment of a program that lowers, and what happens without the checks that
      lowering leaves out.
    - [LoweringScopes], [LoweringItems], [LoweringThm]: a program that lowers meets the condition of
      [DeclThm], so the two theorems compose: what lowering accepts can be translated to
      clauses, but for the two checks that [unchecked_ok] names.

    ** Logging and printing programs (chalk-solve/src/logging_db.rs, display)

    - [LoggingDb]: the queries of [RustIrDatabase] as a type, databases as handlers of queries, and
      the database that records which declarations it gave away: what is recorded is enough to
      repeat a client's run ([recording_sufficient]), up to queries that have no subject, and the
      collector finds what the terms of the recorded declarations mention, and no more
      ([collect_unrecorded_ids_exact]).
    - [Display]: the printers of declarations, types and bounds, stubs, and the text of a recorded
      program.  [DisplayThm]: names of bound variables are not captured, items of one name are
      told apart, and the names printed are those of printed items ([printed_names_resolve]);
      [printing_gaps]: what the text loses.

    ** The text of terms and answers (chalk-ir/src/debug.rs, tls.rs, program.rs)

    - [Debug]: the text of every term, answer and error, with the names of the current
      program or without it.  The text of an answer determines it up to the kinds of its
      variables ([answer_text_exact]), where names, opaque aliases and generators are
      not confused ([texts_shared]).

    ** What modelling showed

    The solver caches a wrong answer after a mixed cycle (fixed_point.rs).  A guidance with a
    repeated variable is called definite too early (slg.rs).  A suggestion of the recursive
    solver is always trivial (fulfill.rs).  A floundered negative subgoal panics (logic.rs).  Clauses for [Copy],
    [dyn] types, projections of projections and constants mix variables of the goal with
    generalized ones (builtin_traits/copy.rs, dyn_ty.rs, clauses.rs, generalize.rs).  Chains of
    specializing impls panic (coherence.rs), and so do higher-ranked bounds in the check of data
    types; the check of [Drop] does not see lifetimes (wf.rs).  A constant placeholder is not
    mapped back (ucanonicalize.rs).  Lowering panics on undeclared values and applied
    traits, and accepts values and fundamental types that panic later
    (lowering.rs, program_lowerer.rs); the query for all clauses panics on generic types next to auto
    traits (query.rs).  The printed text of a logged program can name undeclared items, loses
    where clauses of opaque types, and can give two items one name (id_collector.rs, display).
    Opaque aliases are shown without their arguments (program.rs), and a nested use of
    [set_current_program] loses the outer program (tls.rs).

    ** Not modelled

    Formatters that fail, and the alternate form of [Debug]: the text of a term is a value here.
    The write of a logged program when its database is dropped and the setup of tracing
    ([logging.rs]): output.
    The parser and the derive macros: generated code.  [interner.rs]: accessors of interned data.
    The REPL and test macros: input and output.  Threads: a cache is owned by the solver
    that runs.  Memoization by salsa, a library. *)

From stdpp Require Export base tactics list gmap strings.
From stdpp Require Import numbers.

(** * Outcomes of Rust code

    A Rust function returns a value, returns [Err e], panics, or (in the model
    only) runs out of the fuel that bounds a recursion or a loop. *)

Inductive panic :=
  | PAssert          (* a failed [assert!], [assert_eq!] *)
  | PIndex           (* an index or a slice out of range *)
  | PUnwrap          (* [unwrap] / [expect] on [None] or [Err] *)
  | PUnreachable     (* [unreachable!] *)
  | PExplicit        (* [panic!] with a message *)
  | PCapacity        (* a vector that would exceed [isize::MAX] elements *)
  | POverflowDepth   (* [panic!("overflow depth reached")] *)
  | POverflow.       (* an addition or a subtraction that overflows *)

#[global] Instance panic_eq_dec : EqDecision panic.
Proof. solve_decision. Defined.

Inductive outcome (E A : Type) :=
  | Val (a : A)
  | Exn (e : E)
  | Panic (p : panic)
  | OutOfFuel.
Arguments Val {E A} a.
Arguments Exn {E A} e.
Arguments Panic {E A} p.
Arguments OutOfFuel {E A}.

#[global] Instance outcome_ret E : MRet (outcome E) := fun A a => Val a.
#[global] Instance outcome_bind E : MBind (outcome E) := fun A B f m =>
  match m with
  | Val a => f a
  | Exn e => Exn e
  | Panic p => Panic p
  | OutOfFuel => OutOfFuel
  end.
#[global] Instance outcome_fmap E : FMap (outcome E) := fun A B f m =>
  match m with
  | Val a => Val (f a)
  | Exn e => Exn e
  | Panic p => Panic p
  | OutOfFuel => OutOfFuel
  end.

#[global] Instance outcome_eq_dec {E A} `{EqDecision E, EqDecision A} :
  EqDecision (outcome E A).
Proof. solve_decision. Defined.

(** [assert!(b)]. *)
Definition assert {E} (b : bool) : outcome E unit :=
  if b then Val tt else Panic PAssert.

(** [opt.unwrap()]. *)
Definition unwrap {E A} (o : option A) : outcome E A :=
  match o with Some a => Val a | None => Panic PUnwrap end.

Lemma bind_Val {E A B} (m : outcome E A) (f : A → outcome E B) b :
  (m ≫= f) = Val b ↔ ∃ a, m = Val a ∧ f a = Val b.
Proof.
  split.
  - destruct m; simpl; intros; simplify_eq; eauto.
  - intros (a & -> & ?). done.
Qed.

Lemma assert_Val {E} b u : assert (E:=E) b = Val u ↔ b = true.
Proof. destruct b, u; simpl; naive_solver. Qed.

Lemma unwrap_Val {E A} (o : option A) a : unwrap (E:=E) o = Val a ↔ o = Some a.
Proof. destruct o; simpl; naive_solver. Qed.

(** * Machine-size indices and vectors

    A [usize] is an [N]; a [Vec] is a list.  Elements are pushed at the end. *)

Definition u32_MAX : N := 4294967295.
Definition usize_MAX : N := 18446744073709551615.
Definition isize_MAX : N := 9223372036854775807.

Definition vec_len {A} (l : list A) : N := N.of_nat (length l).

Definition vec_get {E A} (l : list A) (i : N) : outcome E A :=
  match l !! N.to_nat i with Some x => Val x | None => Panic PIndex end.

Definition vec_set {E A} (l : list A) (i : N) (x : A) : outcome E (list A) :=
  match l !! N.to_nat i with
  | Some _ => Val (<[N.to_nat i := x]> l)
  | None => Panic PIndex
  end.

Definition vec_push {E A} (l : list A) (x : A) : outcome E (list A) :=
  if (vec_len l <? isize_MAX)%N then Val (l ++ [x]) else Panic PCapacity.

(** The slice [l[i..]]. *)
Definition vec_from {E A} (l : list A) (i : N) : outcome E (list A) :=
  if (i <=? vec_len l)%N then Val (drop (N.to_nat i) l) else Panic PIndex.

Lemma vec_get_Val {E A} (l : list A) i x :
  vec_get (E:=E) l i = Val x ↔ l !! N.to_nat i = Some x.
Proof. unfold vec_get. case_match; naive_solver. Qed.

Lemma vec_set_Val {E A} (l : list A) i x l' :
  vec_set (E:=E) l i x = Val l' ↔
  l' = <[N.to_nat i := x]> l ∧ is_Some (l !! N.to_nat i).
Proof.
  unfold vec_set. case_match; split.
  - intros [= <-]. eauto.
  - intros [-> _]. done.
  - done.
  - intros [_ [? ?]]. congruence.
Qed.

Lemma vec_push_Val {E A} (l : list A) x l' :
  vec_push (E:=E) l x = Val l' ↔ l' = l ++ [x] ∧ (vec_len l < isize_MAX)%N.
Proof.
  unfold vec_push. destruct (N.ltb_spec (vec_len l) isize_MAX); split.
  - intros [= <-]. done.
  - intros [-> _]. done.
  - done.
  - lia.
Qed.

Lemma vec_from_Val {E A} (l : list A) i l' :
  vec_from (E:=E) l i = Val l' ↔ l' = drop (N.to_nat i) l ∧ (i <= vec_len l)%N.
Proof.
  unfold vec_from. destruct (N.leb_spec i (vec_len l)); split.
  - intros [= <-]. done.
  - intros [-> _]. done.
  - done.
  - lia.
Qed.

Lemma vec_len_app {A} (l k : list A) : vec_len (l ++ k) = (vec_len l + vec_len k)%N.
Proof. unfold vec_len. rewrite length_app. lia. Qed.

Lemma to_nat_vec_len {A} (l : list A) : N.to_nat (vec_len l) = length l.
Proof. unfold vec_len. lia. Qed.

Create HintDb chalk discriminated.
Create Rewrite HintDb outcome.
#[export] Hint Rewrite @bind_Val @assert_Val @unwrap_Val @vec_get_Val @vec_set_Val
  @vec_push_Val @vec_from_Val : outcome.

(** [inv_outcome H] takes a computation [H : m ≫= f = Val b] apart into the
    results of its steps. *)
Ltac inv_outcome H :=
  lazymatch type of H with
  | (_ ≫= _) = Val _ =>
      let x := fresh "x" in let Hx := fresh "Hx" in
      apply bind_Val in H as (x & Hx & H); inv_outcome Hx; inv_outcome H
  | assert _ = Val _ => apply assert_Val in H
  | unwrap _ = Val _ => apply unwrap_Val in H
  | vec_get _ _ = Val _ => apply vec_get_Val in H
  | vec_set _ _ _ = Val _ => apply vec_set_Val in H
  | vec_push _ _ = Val _ => apply vec_push_Val in H
  | vec_from _ _ = Val _ => apply vec_from_Val in H
  | Val _ = Val _ => injection H as H
  | mret _ = Val _ => injection H as H
  | _ => idtac
  end.

(** * Lists *)

Lemma take_app_le {A} (l k : list A) n : n ≤ length l → take n (l ++ k) = take n l.
Proof. intros. rewrite take_app. replace (n - length l) with 0 by lia. by rewrite take_0, app_nil_r. Qed.

Lemma drop_app_le {A} (l k : list A) n : n ≤ length l → drop n (l ++ k) = drop n l ++ k.
Proof. intros. rewrite drop_app. by replace (n - length l) with 0 by lia. Qed.

Lemma insert_middle {A} (l k : list A) x y i :
  i = length l → <[i := y]> (l ++ x :: k) = l ++ y :: k.
Proof. intros ->. induction l as [|z l IH]; simpl; [done|]. by rewrite IH. Qed.

Lemma lookup_middle_cases {A} (l k : list A) x i y :
  (l ++ x :: k) !! i = Some y →
  (i < length l ∧ l !! i = Some y) ∨ (i = length l ∧ y = x) ∨
  (length l < i ∧ k !! (i - length l - 1) = Some y).
Proof.
  intros Hi. apply lookup_app_Some in Hi as [Hi|[Hge Hi]].
  { left. split; [by eapply lookup_lt_Some|done]. }
  destruct (i - length l) as [|j] eqn:Hj; simpl in Hi.
  - injection Hi as <-. right; left. split; [lia|done].
  - right; right. split; [lia|]. by replace (S j - 1) with j by lia.
Qed.

Lemma lookup_middle_gt {A} (l k : list A) x i :
  length l < i → (l ++ x :: k) !! i = k !! (i - length l - 1).
Proof.
  intros Hi.
  rewrite lookup_app_r by lia.
  destruct (i - length l) as [|j] eqn:Hj; [lia|]. simpl. by rewrite Nat.sub_0_r.
Qed.

(** [sort_by_key]: a stable sort. *)
Section SortByKey.
Context {A : Type} (key : A → N).

Fixpoint insert_by_key (x : A) (l : list A) : list A :=
  match l with
  | [] => [x]
  | y :: l => if (key x <=? key y)%N then x :: y :: l else y :: insert_by_key x l
  end.
Definition sort_by_key (l : list A) : list A := foldr insert_by_key [] l.

Lemma insert_by_key_Permutation x l : insert_by_key x l ≡ₚ x :: l.
Proof. induction l as [|y l IH]; simpl; [done|]. case_match; [done|]. rewrite IH. apply Permutation_swap. Qed.

Lemma sort_by_key_Permutation l : sort_by_key l ≡ₚ l.
Proof. induction l as [|x l IH]; simpl; [done|]. by rewrite insert_by_key_Permutation, IH. Qed.
End SortByKey.
