(* ===== verification/RecStack.v ===== *)
(** The stack of goals the recursive solver is currently working on
    (chalk-recursive/src/fixed_point/stack.rs). *)

From S2P Require Import Prelude.

(** [StackDepth { depth: usize }]. *)
Abbreviation StackDepth := N (only parsing).

Module Stack.

Record StackEntry := MkStackEntry {
  coinductive_goal : bool;
  cycle : bool;
}.

#[global] Instance StackEntry_eq_dec : EqDecision StackEntry.
Proof. solve_decision. Defined.

Record Stack := MkStack {
  entries : list StackEntry;
  overflow_depth : N;
}.

Definition new (overflow_depth : N) : Stack :=
  MkStack [] overflow_depth.

Definition is_empty (s : Stack) : bool :=
  match entries s with [] => true | _ => false end.

Definition push {E} (s : Stack) (coinductive_goal : bool) : outcome E (StackDepth * Stack) :=
  let depth := vec_len (entries s) in
  if (overflow_depth s <=? depth)%N then Panic POverflowDepth
  else
    entries' ← vec_push (entries s) (MkStackEntry coinductive_goal false);
    Val (depth, MkStack entries' (overflow_depth s)).

(** [Vec::pop] drops the last element. *)
Definition pop {E} (s : Stack) (depth : StackDepth) : outcome E Stack :=
  _ ← assert (depth + 1 =? vec_len (entries s))%N;
  Val (MkStack (take (length (entries s) - 1) (entries s)) (overflow_depth s)).

Definition mixed_inductive_coinductive_cycle_from {E} (s : Stack) (depth : StackDepth) :
    outcome E bool :=
  tail ← vec_from (entries s) depth;
  let coinductive_count := vec_len (filter (λ e, coinductive_goal e = true) tail) in
  let total_count := (vec_len (entries s) - depth)%N in
  let any_coinductive := negb (coinductive_count =? 0)%N in
  let any_inductive := negb (coinductive_count =? total_count)%N in
  Val (any_coinductive && any_inductive).

(** [StackEntry::flag_cycle] through [IndexMut]. *)
Definition flag_cycle {E} (s : Stack) (depth : StackDepth) : outcome E Stack :=
  e ← vec_get (entries s) depth;
  entries' ← vec_set (entries s) depth (MkStackEntry (coinductive_goal e) true);
  Val (MkStack entries' (overflow_depth s)).

(** [StackEntry::read_and_reset_cycle_flag] through [IndexMut]. *)
Definition read_and_reset_cycle_flag {E} (s : Stack) (depth : StackDepth) :
    outcome E (bool * Stack) :=
  e ← vec_get (entries s) depth;
  entries' ← vec_set (entries s) depth (MkStackEntry (coinductive_goal e) false);
  Val (cycle e, MkStack entries' (overflow_depth s)).

(** * What the mixed-cycle test decides *)

Lemma filter_length_all {A} (P : A → Prop) `{∀ x, Decision (P x)} (l : list A) :
  length (filter P l) = length l ↔ Forall P l.
Proof.
  induction l as [|x l IH]; [split; [constructor | done]|].
  rewrite filter_cons. case_decide as Hx; simpl.
  - rewrite Forall_cons, <- IH. split; [intros [=]; auto | intros [_ ->]; done].
  - rewrite Forall_cons. pose proof (length_filter P l). split; [lia | tauto].
Qed.

Lemma filter_length_none {A} (P : A → Prop) `{∀ x, Decision (P x)} (l : list A) :
  length (filter P l) = 0 ↔ Forall (λ x, ¬ P x) l.
Proof.
  induction l as [|x l IH]; [split; [constructor | done]|].
  rewrite filter_cons, Forall_cons, <- IH. case_decide; simpl; [split; [done|tauto] | tauto].
Qed.

Lemma mixed_cycle_true {E} s d :
  mixed_inductive_coinductive_cycle_from (E:=E) s d = Val true ↔
  (d ≤ vec_len (entries s))%N ∧
  (∃ e, e ∈ drop (N.to_nat d) (entries s) ∧ coinductive_goal e = true) ∧
  (∃ e, e ∈ drop (N.to_nat d) (entries s) ∧ coinductive_goal e = false).
Proof.
  unfold mixed_inductive_coinductive_cycle_from, vec_from.
  destruct (N.leb_spec d (vec_len (entries s))) as [Hd|Hd]; simpl; [|split; [done|lia]].
  set (t := drop _ _).
  assert (Ht : (vec_len (entries s) - d)%N = vec_len t)
    by (unfold t, vec_len; rewrite length_drop; unfold vec_len in *; lia).
  rewrite Ht. unfold vec_len.
  transitivity (length (filter (λ e, coinductive_goal e = true) t) ≠ 0 ∧
    length (filter (λ e, coinductive_goal e = true) t) ≠ length t).
  { destruct (N.eqb_spec (N.of_nat (length (filter (λ e, coinductive_goal e = true) t))) 0);
      destruct (N.eqb_spec (N.of_nat (length (filter (λ e, coinductive_goal e = true) t)))
        (N.of_nat (length t))); simpl; split; intros; try done; try lia;
      destruct_and?; try lia; split; lia. }
  rewrite filter_length_none, filter_length_all, !Forall_forall. split.
  - intros [H1 H2]. split; [done|].
    rewrite <- !Exists_exists. split; apply dec_stable; intros Hn.
    + apply H1. intros e He Hc. apply Hn, Exists_exists. eauto.
    + apply H2. intros e He. destruct (coinductive_goal e) eqn:?; [done|].
      destruct Hn. apply Exists_exists. eauto.
  - intros (_ & (e & He & Hc) & (e' & He' & Hc')). split.
    + intros H. by apply (H e).
    + intros H. specialize (H e' He'). congruence.
Qed.

End Stack.
