(* ===== verification/SearchGraph.v ===== *)
(** The search graph and the cache of the recursive solver
    (chalk-recursive/src/fixed_point/{search_graph,cache}.rs). *)

From S2P Require Import Prelude.
From S2P Require Import RecStack.

(** [DepthFirstNumber { index: usize }] with [MAX = usize::MAX]. *)
Abbreviation DepthFirstNumber := N (only parsing).
Definition DepthFirstNumber_MAX : DepthFirstNumber := usize_MAX.

(** [Add<usize>]; the sum overflows for no index of a vector. *)
Definition DepthFirstNumber_add (d : DepthFirstNumber) (v : N) : DepthFirstNumber := (d + v)%N.

Record Minimums := MkMinimums { positive : DepthFirstNumber }.

Module Minimums.
Definition new : Minimums := MkMinimums DepthFirstNumber_MAX.
Definition update_from (self minimums : Minimums) : Minimums :=
  MkMinimums (N.min (positive self) (positive minimums)).
End Minimums.

(** The cache: a map behind [Arc<Mutex<_>>], here owned by the one solver that
    is running. *)
Module Cache.
Section Cache.
Context {K V : Type} `{Countable K}.

Definition new : gmap K V := ∅.
Definition insert (cache : gmap K V) (goal : K) (result : V) : gmap K V :=
  <[goal := result]> cache.
Definition get (cache : gmap K V) (goal : K) : option V := cache !! goal.

End Cache.
End Cache.

Module SearchGraph.
Section SearchGraph.
Context {K V : Type} `{Countable K}.

Record Node := MkNode {
  goal : K;
  solution : V;
  stack_depth : option StackDepth;
  links : Minimums;
}.

Record SearchGraph := MkSearchGraph {
  indices : gmap K DepthFirstNumber;
  nodes : list Node;
}.

Definition new : SearchGraph := MkSearchGraph ∅ [].

Definition lookup (self : SearchGraph) (g : K) : option DepthFirstNumber :=
  indices self !! g.

Definition insert {E} (self : SearchGraph) (g : K) (depth : StackDepth) (sol : V) :
    outcome E (DepthFirstNumber * SearchGraph) :=
  let dfn := vec_len (nodes self) in
  let node := MkNode g sol (Some depth) (MkMinimums dfn) in
  nodes' ← vec_push (nodes self) node;
  let previous_index := indices self !! g in
  _ ← assert (bool_decide (previous_index = None));
  Val (dfn, MkSearchGraph (<[g := dfn]> (indices self)) nodes').

(** [indices.retain(|_key, value| *value < dfn)]. *)
Definition retain_below (idx : gmap K DepthFirstNumber) (dfn : DepthFirstNumber) :
    gmap K DepthFirstNumber :=
  filter (λ kv, (kv.2 < dfn)%N) idx.

Definition rollback_to (self : SearchGraph) (dfn : DepthFirstNumber) : SearchGraph :=
  MkSearchGraph (retain_below (indices self) dfn) (take (N.to_nat dfn) (nodes self)).

(** The loop body of [move_to_cache] over the drained nodes. *)
Fixpoint cache_nodes {E} (dfn : DepthFirstNumber) (drained : list Node) (cache : gmap K V) :
    outcome E (gmap K V) :=
  match drained with
  | [] => Val cache
  | node :: rest =>
      _ ← assert (bool_decide (stack_depth node = None));
      _ ← assert (dfn <=? positive (links node))%N;
      cache_nodes dfn rest (Cache.insert cache (goal node) (solution node))
  end.

Definition move_to_cache {E} (self : SearchGraph) (dfn : DepthFirstNumber) (cache : gmap K V) :
    outcome E (SearchGraph * gmap K V) :=
  drained ← vec_from (nodes self) dfn;
  cache' ← cache_nodes dfn drained cache;
  Val (MkSearchGraph (retain_below (indices self) dfn) (take (N.to_nat dfn) (nodes self)), cache').

(** [Index] and [IndexMut] by a depth-first number. *)
Definition index {E} (self : SearchGraph) (dfn : DepthFirstNumber) : outcome E Node :=
  vec_get (nodes self) dfn.

Definition index_mut {E} (self : SearchGraph) (dfn : DepthFirstNumber) (f : Node → Node) :
    outcome E SearchGraph :=
  n ← vec_get (nodes self) dfn;
  nodes' ← vec_set (nodes self) dfn (f n);
  Val (MkSearchGraph (indices self) nodes').

(** The field updates the solver makes through [IndexMut]. *)
Definition set_solution (v : V) (n : Node) : Node :=
  MkNode (goal n) v (stack_depth n) (links n).
Definition set_links (m : Minimums) (n : Node) : Node :=
  MkNode (goal n) (solution n) (stack_depth n) m.
Definition set_stack_depth (d : option StackDepth) (n : Node) : Node :=
  MkNode (goal n) (solution n) d (links n).

(** * Well-formed graphs

    [indices] is exactly the inverse of the goals of [nodes]. *)
Definition wf (self : SearchGraph) : Prop :=
  ∀ g d, indices self !! g = Some d ↔ ∃ n, nodes self !! N.to_nat d = Some n ∧ goal n = g.

Lemma wf_new : wf new.
Proof. intros g d. simpl. rewrite lookup_empty. split; [done|]. by intros (n & ? & _). Qed.

Lemma wf_NoDup self i j n m :
  wf self → nodes self !! i = Some n → nodes self !! j = Some m → goal n = goal m → i = j.
Proof.
  intros Hwf Hi Hj Hg.
  assert (indices self !! goal n = Some (N.of_nat i)) as H1
    by (apply Hwf; rewrite Nat2N.id; eauto).
  assert (indices self !! goal n = Some (N.of_nat j)) as H2
    by (apply Hwf; rewrite Nat2N.id; eauto).
  rewrite H1 in H2. injection H2. lia.
Qed.

Lemma lookup_Some_wf self g d :
  wf self → lookup self g = Some d → ∃ n, nodes self !! N.to_nat d = Some n ∧ goal n = g.
Proof. intros Hwf. apply Hwf. Qed.

Lemma lookup_None_wf self g i n :
  wf self → lookup self g = None → nodes self !! i = Some n → goal n ≠ g.
Proof.
  intros Hwf Hl Hi <-. unfold lookup in Hl.
  assert (indices self !! goal n = Some (N.of_nat i)) by (apply Hwf; rewrite Nat2N.id; eauto).
  congruence.
Qed.

Lemma retain_wf (self : SearchGraph) dfn :
  wf self → wf (MkSearchGraph (retain_below (indices self) dfn) (take (N.to_nat dfn) (nodes self))).
Proof.
  intros Hwf g d. simpl. unfold retain_below. rewrite map_lookup_filter_Some. simpl. split.
  - intros [H1 H2]. apply Hwf in H1 as (n & Hn & Hg). exists n. split; [|done].
    rewrite lookup_take_lt; [done|lia].
  - intros (n & Hn & Hg). apply lookup_take_Some in Hn as [Hn Hlt]. split; [|lia].
    apply Hwf. eauto.
Qed.

Lemma rollback_wf self dfn : wf self → wf (rollback_to self dfn).
Proof. apply retain_wf. Qed.

Lemma update_wf self dfn n n' :
  wf self → nodes self !! N.to_nat dfn = Some n → goal n' = goal n →
  wf (MkSearchGraph (indices self) (<[N.to_nat dfn := n']> (nodes self))).
Proof.
  intros Hwf Hn Hg g d. rewrite (Hwf g d). simpl. split.
  - intros (m & Hm & <-). destruct (decide (N.to_nat d = N.to_nat dfn)) as [He|Hne].
    + rewrite He in *. exists n'. rewrite list_lookup_insert_eq by (by eapply lookup_lt_Some).
      split; [done|]. by simplify_eq.
    + exists m. by rewrite list_lookup_insert_ne by congruence.
  - intros (m & Hm & <-). destruct (decide (N.to_nat d = N.to_nat dfn)) as [He|Hne].
    + rewrite He, list_lookup_insert_eq in Hm by (by eapply lookup_lt_Some).
      injection Hm as <-. exists n. by rewrite He.
    + rewrite list_lookup_insert_ne in Hm by congruence. eauto.
Qed.

Lemma push_wf self g d v l :
  wf self → lookup self g = None →
  wf (MkSearchGraph (<[g := vec_len (nodes self)]> (indices self))
        (nodes self ++ [MkNode g v d l])).
Proof.
  intros Hwf Hl g' d'. unfold lookup, vec_len in *. simpl. split.
  - intros Hi. destruct (decide (g = g')) as [<-|Hne].
    + rewrite lookup_insert_eq in Hi. injection Hi as <-.
      eexists. rewrite Nat2N.id, list_lookup_middle by done. eauto.
    + rewrite lookup_insert_ne in Hi by done. apply Hwf in Hi as (n & Hn & Hg).
      exists n. split; [|done]. apply lookup_app_l_Some. done.
  - intros (n & Hn & <-). apply lookup_app_Some in Hn as [Hn|[Hge Hn]].
    + rewrite lookup_insert_ne; [apply Hwf; eauto|]. intros Heq.
      eapply lookup_None_wf in Hn; [|done..]. by symmetry in Heq.
    + apply list_lookup_singleton_Some in Hn as [Hz <-]. simpl.
      rewrite lookup_insert_eq. f_equal. lia.
Qed.

Lemma insert_Val {E} self g depth sol d self' :
  insert (E:=E) self g depth sol = Val (d, self') ↔
  d = vec_len (nodes self) ∧ (d < isize_MAX)%N ∧ lookup self g = None ∧
  self' = MkSearchGraph (<[g := d]> (indices self))
            (nodes self ++ [MkNode g sol (Some depth) (MkMinimums d)]).
Proof.
  unfold insert, lookup. split.
  - intros Hi. inv_outcome Hi. destruct Hx as [-> Hlt]. apply bool_decide_eq_true in Hx0.
    simplify_eq. done.
  - intros (-> & Hlt & Hl & ->). unfold vec_push.
    apply N.ltb_lt in Hlt. rewrite Hlt. simpl. rewrite Hl. done.
Qed.

(** What [move_to_cache] writes: the drained nodes, the last one of a goal
    winning. *)
Definition solutions (ns : list Node) : list (K * V) := (λ n, (goal n, solution n)) <$> ns.

Lemma cache_nodes_Val {E} dfn drained cache cache' :
  cache_nodes (E:=E) dfn drained cache = Val cache' ↔
  Forall (λ n, stack_depth n = None ∧ (dfn ≤ positive (links n))%N) drained ∧
  cache' = foldl (λ c n, <[goal n := solution n]> c) cache drained.
Proof.
  revert cache. induction drained as [|n ns IH]; intros cache; simpl.
  - split; [intros [= <-]; auto | intros [_ ->]; done].
  - rewrite Forall_cons. unfold assert. destruct (bool_decide_reflect (stack_depth n = None)); simpl.
    2: { split; [done | tauto]. }
    destruct (N.leb_spec dfn (positive (links n))); simpl.
    2: { split; [done | intros [[[_ ?] _] _]; lia]. }
    unfold Cache.insert. rewrite IH. tauto.
Qed.

End SearchGraph.
Arguments Node K V : clear implicits.
Arguments SearchGraph K V {_ _}.
End SearchGraph.
