(* ===== verification/FixedPoint.v ===== *)
(** The tabled fixed-point engine of the recursive solver
    (chalk-recursive/src/fixed_point.rs), generic in the goals [K] and the
    answers [V]. *)

From S2P Require Import Prelude.
From S2P Require Import RecStack.
From S2P Require Import SearchGraph.

(** One run of [SolverStuff::solve_iteration], seen from the engine: it gets the
    context only to call [solve_goal] again, so it is a tree of such calls, which
    may end in a panic.  [tracked = false] is a call that passes fresh [Minimums]
    which the caller drops (chalk-recursive/src/fulfill.rs does so in [refute]).
    [IterFuel] is not an end of the code: the model of the iteration ran out. *)
Inductive IterationOf (K V A : Type) :=
  | IterRet (a : A)
  | IterPanic (p : panic)
  | IterFuel
  | IterSolve (tracked : bool) (g : K) (k : V → IterationOf K V A).
Arguments IterRet {K V A} a.
Arguments IterPanic {K V A} p.
Arguments IterFuel {K V A}.
Arguments IterSolve {K V A} tracked g k.
Abbreviation Iteration K V := (IterationOf K V V).

Class SolverStuff (K V : Type) := {
  is_coinductive_goal : K → bool;
  initial_value : K → bool → V;
  solve_iteration : K → Iteration K V;
  reached_fixed_point : V → V → bool;
  error_value : V;
}.

Module FixedPoint.
Section FixedPoint.
Context {K V : Type} `{Countable K} `{SolverStuff K V}.

(** The engine never returns [Err]: failure is one of the answers [V]. *)
Abbreviation result := (outcome Empty_set).

Record RecursiveContext := MkContext {
  stack : Stack.Stack;
  search_graph : SearchGraph.SearchGraph K V;
  cache : option (gmap K V);
  max_size : N;
}.

Definition new (overflow_depth max_size : N) (cache : option (gmap K V)) : RecursiveContext :=
  MkContext (Stack.new overflow_depth) SearchGraph.new cache max_size.

Definition with_stack (c : RecursiveContext) (s : Stack.Stack) : RecursiveContext :=
  MkContext s (search_graph c) (cache c) (max_size c).
Definition with_graph (c : RecursiveContext) (g : SearchGraph.SearchGraph K V) : RecursiveContext :=
  MkContext (stack c) g (cache c) (max_size c).
Definition with_cache (c : RecursiveContext) (m : option (gmap K V)) : RecursiveContext :=
  MkContext (stack c) (search_graph c) m (max_size c).

(** Running an iteration, given the engine's [solve_goal]. *)
Fixpoint run_iteration
    (solve_goal : K → Minimums → RecursiveContext → result (V * Minimums * RecursiveContext))
    (t : Iteration K V) (minimums : Minimums) (self : RecursiveContext) :
    result (V * Minimums * RecursiveContext) :=
  match t with
  | IterRet v => Val (v, minimums, self)
  | IterPanic p => Panic p
  | IterFuel => OutOfFuel
  | IterSolve tracked g k =>
      let passed := if tracked then minimums else Minimums.new in
      '(v, passed', self) ← solve_goal g passed self;
      run_iteration solve_goal (k v) (if tracked then passed' else minimums) self
  end.

(** The part of [solve_goal] that runs when the goal is in the search graph. *)
Definition solve_in_graph (dfn : DepthFirstNumber) (minimums : Minimums)
    (self : RecursiveContext) : result (V * Minimums * RecursiveContext) :=
  node ← SearchGraph.index (search_graph self) dfn;
  '(mixed, self) ←
    match SearchGraph.stack_depth node with
    | Some depth =>
        stack' ← Stack.flag_cycle (stack self) depth;
        mixed ← Stack.mixed_inductive_coinductive_cycle_from stack' depth;
        Val (mixed, with_stack self stack')
    | None => Val (false, self)
    end;
  if (mixed : bool) then Val (error_value, minimums, self)
  else
    node ← SearchGraph.index (search_graph self) dfn;
    let minimums := Minimums.update_from minimums (SearchGraph.links node) in
    Val (SearchGraph.solution node, minimums, self).

(** The part of [solve_goal] that runs once [solve_new_subgoal] returned. *)
Definition finish_subgoal (dfn : DepthFirstNumber) (depth : StackDepth)
    (subgoal_minimums minimums : Minimums) (self : RecursiveContext) :
    result (V * Minimums * RecursiveContext) :=
  graph ← SearchGraph.index_mut (search_graph self) dfn
            (λ n, SearchGraph.set_stack_depth None (SearchGraph.set_links subgoal_minimums n));
  stack' ← Stack.pop (stack self) depth;
  let minimums := Minimums.update_from minimums subgoal_minimums in
  node ← SearchGraph.index graph dfn;
  let value := SearchGraph.solution node in
  let self := with_graph (with_stack self stack') graph in
  if (dfn <=? positive subgoal_minimums)%N then
    match cache self with
    | Some c =>
        '(graph, c) ← SearchGraph.move_to_cache (search_graph self) dfn c;
        Val (value, minimums, with_cache (with_graph self graph) (Some c))
    | None =>
        Val (value, minimums, with_graph self (SearchGraph.rollback_to (search_graph self) dfn))
    end
  else Val (value, minimums, self).

(** [solve_goal] and the loop of [solve_new_subgoal].  Each call and each turn
    of the loop takes one unit of fuel. *)
Fixpoint solve_goal (fuel : nat) (goal : K) (minimums : Minimums) (self : RecursiveContext)
    {struct fuel} : result (V * Minimums * RecursiveContext) :=
  match fuel with
  | O => OutOfFuel
  | S fuel =>
      match cache self ≫= λ c, Cache.get c goal with
      | Some value => Val (value, minimums, self)
      | None =>
          match SearchGraph.lookup (search_graph self) goal with
          | Some dfn => solve_in_graph dfn minimums self
          | None =>
              let coinductive_goal := is_coinductive_goal goal in
              let initial_solution := initial_value goal coinductive_goal in
              '(depth, stack') ← Stack.push (stack self) coinductive_goal;
              '(dfn, graph) ← SearchGraph.insert (search_graph self) goal depth initial_solution;
              '(subgoal_minimums, self) ←
                solve_new_subgoal fuel goal depth dfn (with_graph (with_stack self stack') graph);
              finish_subgoal dfn depth subgoal_minimums minimums self
          end
      end
  end
with solve_new_subgoal (fuel : nat) (canonical_goal : K) (depth : StackDepth)
    (dfn : DepthFirstNumber) (self : RecursiveContext) {struct fuel} :
    result (Minimums * RecursiveContext) :=
  match fuel with
  | O => OutOfFuel
  | S fuel =>
      '(current_answer, minimums, self) ←
        run_iteration (solve_goal fuel) (solve_iteration canonical_goal) Minimums.new self;
      '(cycle, stack') ← Stack.read_and_reset_cycle_flag (stack self) depth;
      let self := with_stack self stack' in
      old ← SearchGraph.index (search_graph self) dfn;
      graph ← SearchGraph.index_mut (search_graph self) dfn
                (SearchGraph.set_solution current_answer);
      let self := with_graph self graph in
      if negb cycle then Val (minimums, self)
      else if reached_fixed_point (SearchGraph.solution old) current_answer then
        Val (minimums, self)
      else
        solve_new_subgoal fuel canonical_goal depth dfn
          (with_graph self (SearchGraph.rollback_to (search_graph self)
                              (DepthFirstNumber_add dfn 1)))
  end.

Definition solve_root_goal (fuel : nat) (canonical_goal : K) (self : RecursiveContext) :
    result (V * RecursiveContext) :=
  _ ← assert (Stack.is_empty (stack self));
  '(v, _, self) ← solve_goal fuel canonical_goal Minimums.new self;
  Val (v, self).

End FixedPoint.
Arguments RecursiveContext K V {_ _}.
End FixedPoint.
