(* ===== verification/FixedPointInv.v ===== *)
(** Invariants of the recursive solver's engine: which answers a computation may
    read, what the search graph and the cache promise, and how one state extends
    another. *)

From S2P Require Import Prelude.
From S2P Require Import RecStack.
From S2P Require Import SearchGraph.
From S2P Require Import FixedPoint.

Import FixedPoint.

(** * Iterations as functions of the answers of their sub-goals *)
Section Eval.
Context {K V : Type} `{SolverStuff K V}.

(** The value of an iteration when every goal [g] is answered by [ρ g]; an
    iteration that panics has none. *)
Fixpoint eval (ρ : K → V) (t : Iteration K V) : V :=
  match t with
  | IterRet v => v
  | IterPanic _ | IterFuel => error_value
  | IterSolve _ g k => eval ρ (k (ρ g))
  end.

(** The same as a relation to the answers [R g v] that are available. *)
Inductive Eval (R : K → V → Prop) : Iteration K V → V → Prop :=
  | Eval_ret v : Eval R (IterRet v) v
  | Eval_solve b g k x v : R g x → Eval R (k x) v → Eval R (IterSolve b g k) v.

Lemma Eval_mono (R R' : K → V → Prop) t v :
  (∀ g x, R g x → R' g x) → Eval R t v → Eval R' t v.
Proof. intros HR. induction 1; econstructor; eauto. Qed.

Lemma Eval_eval (R : K → V → Prop) ρ t v :
  (∀ g x, R g x → ρ g = x) → Eval R t v → eval ρ t = v.
Proof. intros HR. induction 1 as [|b g k x v Hx _ IH]; simpl; [done|]. by rewrite (HR g x Hx). Qed.

(** Every call of the iteration passes the caller's [Minimums], and it returns. *)
Fixpoint all_tracked (t : Iteration K V) : Prop :=
  match t with
  | IterRet _ => True
  | IterPanic _ | IterFuel => False
  | IterSolve b _ k => b = true ∧ ∀ v, all_tracked (k v)
  end.

End Eval.
#[export] Hint Constructors Eval : chalk.

Section Inv.
Context {K V : Type} `{Countable K} `{SolverStuff K V}.

Abbreviation Node := (SearchGraph.Node K V).
Abbreviation ctx := (RecursiveContext K V).

Definition ns (c : ctx) : list Node := SearchGraph.nodes (search_graph c).
Definition es (c : ctx) : list Stack.StackEntry := Stack.entries (stack c).
Definition cmap (c : ctx) : gmap K V := default ∅ (cache c).

(** The cycle flag of the stack entry at a depth. *)
Definition flag (l : list Stack.StackEntry) (d : StackDepth) : bool :=
  match l !! N.to_nat d with Some e => Stack.cycle e | None => false end.

(** A node whose solution later answers may have used: one that is complete, or
    one on the stack that is flagged as the head of a cycle. *)
Definition readable (l : list Stack.StackEntry) (n : Node) : Prop :=
  match SearchGraph.stack_depth n with None => True | Some d => flag l d = true end.

(** The answers that are available in a state, from the cache or from nodes
    numbered at least [m]. *)
Definition Reads (c : gmap K V) (nodes : list Node) (l : list Stack.StackEntry)
    (m : DepthFirstNumber) (g : K) (v : V) : Prop :=
  c !! g = Some v ∨
  ∃ i n, nodes !! i = Some n ∧ SearchGraph.goal n = g ∧ SearchGraph.solution n = v ∧
    (m ≤ N.of_nat i)%N ∧ readable l n.

(** A cache whose every answer follows from other answers of the cache. *)
Definition closed (c : gmap K V) : Prop :=
  ∀ g v, c !! g = Some v → Eval (λ h x, c !! h = Some x) (solve_iteration g) v.

(** [x] is the index of the one node, if any, whose links may point past it. *)
Record Inv (x : option nat) (coind : bool) (c : ctx) : Prop := {
  inv_graph : SearchGraph.wf (search_graph c);
  inv_cached : is_Some (cache c);
  inv_disjoint : ∀ i n, ns c !! i = Some n → cmap c !! SearchGraph.goal n = None;
  inv_depth : ∀ i n d, ns c !! i = Some n → SearchGraph.stack_depth n = Some d →
    (d < vec_len (es c))%N ∧ SearchGraph.links n = MkMinimums (N.of_nat i);
  inv_depth_inj : ∀ i j n m d, ns c !! i = Some n → ns c !! j = Some m →
    SearchGraph.stack_depth n = Some d → SearchGraph.stack_depth m = Some d → i = j;
  inv_links : ∀ i n, x ≠ Some i → ns c !! i = Some n → SearchGraph.stack_depth n = None →
    (positive (SearchGraph.links n) < N.of_nat i)%N;
  inv_consistent : ∀ i n, ns c !! i = Some n → SearchGraph.stack_depth n = None →
    Eval (Reads (cmap c) (ns c) (es c) (positive (SearchGraph.links n)))
      (solve_iteration (SearchGraph.goal n)) (SearchGraph.solution n);
  inv_closed : closed (cmap c);
  inv_kind : Forall (λ e, Stack.coinductive_goal e = coind) (es c);
}.

(** * Extension of one state by another *)

(** The stack keeps its entries; cycle flags are only ever raised. *)
Definition entry_ext (e e' : Stack.StackEntry) : Prop :=
  Stack.coinductive_goal e = Stack.coinductive_goal e' ∧
  (Stack.cycle e = true → Stack.cycle e' = true).

Definition completed_from (m : DepthFirstNumber) (n : Node) : Prop :=
  SearchGraph.stack_depth n = None ∧ (m ≤ positive (SearchGraph.links n))%N.

Record Ext (m : Minimums) (c c' : ctx) : Prop := {
  ext_entries : Forall2 entry_ext (es c) (es c');
  ext_overflow : Stack.overflow_depth (stack c) = Stack.overflow_depth (stack c');
  ext_nodes : ∃ new, ns c' = ns c ++ new ∧ Forall (completed_from (positive m)) new;
  ext_cache : cmap c ⊆ cmap c';
}.

#[export] Instance entry_ext_refl : Reflexive entry_ext.
Proof. by intros e. Qed.
#[export] Instance entry_ext_trans : Transitive entry_ext.
Proof. intros e1 e2 e3 [H1 H2] [H3 H4]. split; [congruence|auto]. Qed.

Lemma entries_ext_length l l' : Forall2 entry_ext l l' → vec_len l = vec_len l'.
Proof. intros Hl. unfold vec_len. by erewrite Forall2_length. Qed.

Lemma flag_ext l l' d : Forall2 entry_ext l l' → flag l d = true → flag l' d = true.
Proof.
  intros Hl. unfold flag. destruct (l !! N.to_nat d) as [e|] eqn:He; [|done].
  destruct (Forall2_lookup_l _ _ _ _ _ Hl He) as (e' & -> & Hx). apply Hx.
Qed.

Lemma readable_ext l l' n : Forall2 entry_ext l l' → readable l n → readable l' n.
Proof. unfold readable. intros Hl. case_match; [by apply flag_ext | done]. Qed.

Lemma Ext_refl m c : Ext m c c.
Proof. split; [done..| |done]. exists []. by rewrite app_nil_r. Qed.

Lemma completed_from_weaken m m' n : (m' ≤ m)%N → completed_from m n → completed_from m' n.
Proof. intros ? [? ?]. split; [done|lia]. Qed.

Lemma Ext_trans m1 m2 c1 c2 c3 :
  (positive m2 ≤ positive m1)%N → Ext m1 c1 c2 → Ext m2 c2 c3 → Ext m2 c1 c3.
Proof.
  intros Hm [He1 Ho1 (n1 & Hn1 & Hf1) Hc1] [He2 Ho2 (n2 & Hn2 & Hf2) Hc2]. split.
  - by etrans.
  - congruence.
  - exists (n1 ++ n2). rewrite Hn2, Hn1, <- app_assoc. split; [done|].
    apply Forall_app_2; [|done]. eapply Forall_impl; [done|]. intros. by eapply completed_from_weaken.
  - by etrans.
Qed.

(** Available answers stay available. *)
Lemma Reads_ext m m' c c' g v l :
  Ext m c c' → (m' ≤ l)%N →
  Reads (cmap c) (ns c) (es c) l g v → Reads (cmap c') (ns c') (es c') m' g v.
Proof.
  intros [He _ (new & Hn & _) Hc] Hm [Hr|(i & n & Hi & Hg & Hv & Hl & Hr)].
  - left. by eapply lookup_weaken.
  - right. exists i, n. rewrite Hn. split_and!; eauto using readable_ext, lookup_app_l_Some. lia.
Qed.

Lemma Reads_weaken c nodes l m m' g v :
  (m' ≤ m)%N → Reads c nodes l m g v → Reads c nodes l m' g v.
Proof.
  intros Hm [?|(i & n & ? & ? & ? & ? & ?)]; [by left|right]. exists i, n. split_and!; auto. lia.
Qed.

(** The table of a state: the cache, then the nodes, then [ρ]. *)
Definition table (ρ : K → V) (c : ctx) (g : K) : V :=
  match cmap c !! g with
  | Some v => v
  | None =>
      match SearchGraph.lookup (search_graph c) g with
      | Some d => from_option SearchGraph.solution (ρ g) (ns c !! N.to_nat d)
      | None => ρ g
      end
  end.

Lemma table_node ρ x coind c i n :
  Inv x coind c → ns c !! i = Some n → table ρ c (SearchGraph.goal n) = SearchGraph.solution n.
Proof.
  intros HI Hi. unfold table. rewrite (inv_disjoint _ _ _ HI i n Hi).
  unfold SearchGraph.lookup.
  assert (SearchGraph.indices (search_graph c) !! SearchGraph.goal n = Some (N.of_nat i)) as ->.
  { apply (inv_graph _ _ _ HI). rewrite Nat2N.id. eauto. }
  rewrite Nat2N.id, Hi. done.
Qed.

Lemma table_Reads ρ x coind c m g v :
  Inv x coind c → Reads (cmap c) (ns c) (es c) m g v → table ρ c g = v.
Proof.
  intros HI [Hr|(i & n & Hi & <- & <- & _ & _)].
  - unfold table. by rewrite Hr.
  - by eapply table_node.
Qed.

Lemma table_other ρ x coind c g :
  Inv x coind c → cmap c !! g = None →
  (∀ i n, ns c !! i = Some n → SearchGraph.goal n ≠ g) → table ρ c g = ρ g.
Proof.
  intros HI Hc Hn. unfold table. rewrite Hc.
  destruct (SearchGraph.lookup _ g) as [d|] eqn:Hl; [|done].
  apply SearchGraph.lookup_Some_wf in Hl as (n & Hd & Hg); [|apply HI].
  destruct (Hn _ _ Hd Hg).
Qed.

(** The value of a goal is either in the cache, in a node, or elsewhere. *)
Lemma table_cases ρ x coind c g :
  Inv x coind c →
  (∃ v, cmap c !! g = Some v ∧ table ρ c g = v) ∨
  (∃ i n, ns c !! i = Some n ∧ SearchGraph.goal n = g ∧ table ρ c g = SearchGraph.solution n) ∨
  (cmap c !! g = None ∧ (∀ i n, ns c !! i = Some n → SearchGraph.goal n ≠ g) ∧ table ρ c g = ρ g).
Proof.
  intros HI. destruct (cmap c !! g) as [v|] eqn:Hc.
  { left. exists v. unfold table. by rewrite Hc. }
  destruct (SearchGraph.lookup (search_graph c) g) as [d|] eqn:Hl.
  - apply SearchGraph.lookup_Some_wf in Hl as (n & Hd & <-); [|apply HI].
    right; left. exists (N.to_nat d), n. split_and!; [done..|]. by eapply table_node.
  - right; right. split_and!; [done| |].
    + intros i n Hi. eapply SearchGraph.lookup_None_wf; [apply HI|done|done].
    + eapply table_other; [done..|]. intros i n Hi.
      eapply SearchGraph.lookup_None_wf; [apply HI|done|done].
Qed.

(** * The engine's contract with the goals it solves *)

(** All goals of one kind, tracked calls, and monotone iterations over a partial
    order whose least answers are the initial ones. *)
Class SolverLaws `{SqSubsetEq V} (coind : bool) := {
  law_order :: PartialOrder (⊑@{V});
  law_kind g : is_coinductive_goal g = coind;
  law_tracked g : all_tracked (solve_iteration g);
  law_mono (ρ ρ' : K → V) g :
    (∀ h, ρ h ⊑ ρ' h) → eval ρ (solve_iteration g) ⊑ eval ρ' (solve_iteration g);
  law_initial (ρ : K → V) g : initial_value g coind ⊑ eval ρ (solve_iteration g);
  law_fixed a b : reached_fixed_point a b = true ↔ a = b;
}.

(** Chains of answers to a goal have at most [height] strict steps. *)
Class FiniteHeight `{SqSubsetEq V} (top : K → V) (rank : V → nat) (height : nat) := {
  law_top (ρ : K → V) g : eval ρ (solve_iteration g) ⊑ top g;
  law_rank a b : a ⊑ b → a ≠ b → rank a < rank b;
  law_height (ρ : K → V) g : rank (eval ρ (solve_iteration g)) ≤ height;
}.

(** [ρ] bounds the answers of a state, and is closed under the iterations of the
    goals the state has no node for. *)
Record Below `{SqSubsetEq V} (ρ : K → V) (c : ctx) : Prop := {
  below_cache g v : cmap c !! g = Some v → v ⊑ ρ g;
  below_nodes i n : ns c !! i = Some n → SearchGraph.solution n ⊑ ρ (SearchGraph.goal n);
  below_pre h : (∀ i n, ns c !! i = Some n → SearchGraph.goal n ≠ h) →
    eval ρ (solve_iteration h) ⊑ ρ h;
}.

Section Order.
Context `{SqSubsetEq V} {coind : bool} `{!SolverLaws coind}.

Lemma table_below ρ x c g : Inv x coind c → Below ρ c → table ρ c g ⊑ ρ g.
Proof.
  intros HI HB. destruct (table_cases ρ x coind c g HI)
    as [(v & Hc & ->)|[(i & n & Hi & <- & ->)|(_ & _ & ->)]]; [..|done].
  - by apply (below_cache _ _ HB).
  - by eapply below_nodes.
Qed.

(** An answer computed from available answers is below what [ρ] gives. *)
Lemma Eval_below ρ x c m g v :
  Inv x coind c → Below ρ c →
  Eval (Reads (cmap c) (ns c) (es c) m) (solve_iteration g) v →
  v ⊑ eval ρ (solve_iteration g).
Proof.
  intros HI HB HE. erewrite <- (Eval_eval _ (table ρ c) _ v); [|intros; by eapply table_Reads|done].
  apply law_mono. intros h. by eapply table_below.
Qed.

(** The table of a state whose nodes past [ns c] are complete is itself such a
    bound for [c], once the rest of it is at the top. *)
Lemma table_bounds (top : K → V) m c c1 :
  (∀ ρ g, eval ρ (solve_iteration g) ⊑ top g) →
  Inv None coind c1 → Ext m c c1 → Below (table top c1) c.
Proof.
  intros Htop HI [_ _ (new & Hns & Hnew) Hc]. split.
  - intros g v Hg. assert (cmap c1 !! g = Some v) as Hg1 by (by eapply lookup_weaken).
    unfold table. by rewrite Hg1.
  - intros i n Hi. erewrite table_node; [done|done|]. rewrite Hns. by apply lookup_app_l_Some.
  - intros h Hh. destruct (table_cases top None coind c1 h HI)
      as [(v & Hv & ->)|[(i & n & Hi & <- & ->)|(_ & _ & ->)]]; [..|done].
    + apply (inv_closed _ _ _ HI) in Hv. erewrite Eval_eval; [done| |done].
      intros g x Hx. unfold table. by rewrite Hx.
    + assert (SearchGraph.stack_depth n = None) as Hd.
      { rewrite Hns in Hi. apply lookup_app_Some in Hi as [Hi|[_ Hi]].
        - by destruct (Hh i n Hi).
        - eapply Forall_lookup_1 in Hi; [|done]. apply Hi. }
      erewrite Eval_eval; [done| |by eapply inv_consistent].
      intros g x Hx. by eapply table_Reads.
Qed.

Lemma Below_weaken ρ c c' :
  (∀ g v, cmap c' !! g = Some v → cmap c !! g = Some v ∨
     ∃ i n, ns c !! i = Some n ∧ SearchGraph.goal n = g ∧ SearchGraph.solution n = v) →
  (∀ i n, ns c' !! i = Some n → SearchGraph.solution n ⊑ ρ (SearchGraph.goal n)) →
  (∀ h, (∀ i n, ns c' !! i = Some n → SearchGraph.goal n ≠ h) →
     eval ρ (solve_iteration h) ⊑ ρ h) →
  Below ρ c → Below ρ c'.
Proof.
  intros Hc Hn Hp HB. split; [|done..].
  intros g v Hg. destruct (Hc g v Hg) as [?|(i & n & Hi & <- & <-)].
  - by apply (below_cache _ _ HB).
  - by eapply below_nodes.
Qed.

End Order.
End Inv.
