(* ===== verification/FixedPointSpec.v ===== *)
(** Proof that the engine of the recursive solver keeps its invariants, never
    fails an assertion, and terminates. *)

From S2P Require Import Prelude.
From S2P Require Import RecStack.
From S2P Require Import SearchGraph.
From S2P Require Import FixedPoint.
From S2P Require Import FixedPointInv.

Import FixedPoint.

Section Spec.
Context {K V : Type} `{Countable K} `{SolverStuff K V} `{SqSubsetEq V}.
Context {coind : bool} `{!SolverLaws coind}.
Context {top : K → V} {rank : V → nat} {height : nat} `{!FiniteHeight top rank height}.

Abbreviation Node := (SearchGraph.Node K V).
Abbreviation ctx := (RecursiveContext K V).
Implicit Types (c : ctx) (g : K) (v : V) (m : Minimums).

(** Fuel that is enough to solve a goal in a state. *)
Definition needed c : nat :=
  1 + (height + 2) * (N.to_nat (Stack.overflow_depth (stack c)) - length (es c)).

(** The panics the engine can end in: the stack or a vector is full. *)
Definition resource_panic (p : panic) : Prop := p = POverflowDepth ∨ p = PCapacity.

(** The outcome of a computation is a value with [Q], or a resource ran out. *)
Definition outcome_spec {A} (r : outcome Empty_set A) (fuel bound : nat) (Q : A → Prop) : Prop :=
  match r with
  | Val a => Q a
  | Exn _ => False
  | Panic p => resource_panic p
  | OutOfFuel => fuel < bound
  end.

Lemma outcome_spec_bind {A B} (r : outcome Empty_set A) (k : A → outcome Empty_set B)
    fuel bound Q Q' :
  outcome_spec r fuel bound Q → (∀ a, Q a → outcome_spec (k a) fuel bound Q') →
  outcome_spec (r ≫= k) fuel bound Q'.
Proof. destruct r; simpl; auto. Qed.

Lemma outcome_spec_weaken {A} (r : outcome Empty_set A) fuel fuel' bound bound' (Q Q' : A → Prop) :
  outcome_spec r fuel bound Q → (fuel < bound → fuel' < bound') → (∀ a, Q a → Q' a) →
  outcome_spec r fuel' bound' Q'.
Proof. destruct r; simpl; auto. Qed.

(** What a call that returns [(v, m', c')] from [(m, c)] guarantees; [E] says how
    the value was obtained. *)
Record Post (m : Minimums) (c : ctx) (E : V → Minimums → ctx → Prop)
    (r : V * Minimums * ctx) : Prop := {
  post_ext : Ext r.1.2 c r.2;
  post_inv : Inv None coind r.2;
  post_min : (positive r.1.2 ≤ positive m)%N;
  post_value : E r.1.1 r.1.2 r.2;
  post_below ρ : Below ρ c → Below ρ r.2;
}.

Definition reads_goal g : V → Minimums → ctx → Prop :=
  λ v m c, Reads (cmap c) (ns c) (es c) (positive m) g v.
Definition evals (t : Iteration K V) : V → Minimums → ctx → Prop :=
  λ v m c, Eval (Reads (cmap c) (ns c) (es c) (positive m)) t v.

Lemma needed_ext m c c' : Ext m c c' → needed c = needed c'.
Proof.
  intros [He Ho _ _]. unfold needed. by rewrite Ho, (Forall2_length _ _ _ He).
Qed.

(** * Iterations *)
Lemma run_iteration_spec fuel solve t m c :
  (∀ g m c, Inv None coind c →
     outcome_spec (solve g m c) fuel (needed c) (Post m c (reads_goal g))) →
  all_tracked t → Inv None coind c →
  outcome_spec (run_iteration solve t m c) fuel (needed c) (Post m c (evals t)).
Proof.
  intros Hsolve. revert m c. induction t as [v|p| |b g k IH]; intros m c Ht HI; simpl; [|done..|].
  - split; simpl; [apply Ext_refl|done|lia|constructor|done].
  - destruct Ht as [-> Ht]. eapply outcome_spec_bind; [by apply Hsolve|].
    intros [[v m1] c1] [HE HI1 Hm Hv HB]; simpl in *.
    rewrite (needed_ext _ _ _ HE).
    eapply outcome_spec_weaken; [by apply (IH v m1 c1)|done|].
    intros [[w m2] c2] [HE2 HI2 Hm2 Hv2 HB2]; simpl in *. split; simpl; auto.
    + by eapply Ext_trans.
    + lia.
    + unfold evals, reads_goal in *. econstructor; [|done]. by eapply Reads_ext.
Qed.

(** * Goals that are cached or in the graph *)
Lemma solve_cached_spec fuel bound g v m c :
  Inv None coind c → cmap c !! g = Some v →
  outcome_spec (Val (v, m, c)) fuel bound (Post m c (reads_goal g)).
Proof. intros HI Hv. split; simpl; [apply Ext_refl|done|lia|by left|done]. Qed.

Lemma all_of_kind_not_mixed (l : list Stack.StackEntry) d s :
  Stack.entries s = l → Forall (λ e, Stack.coinductive_goal e = coind) l →
  (d <= vec_len l)%N →
  Stack.mixed_inductive_coinductive_cycle_from (E:=Empty_set) s d = Val false.
Proof.
  intros <- Hl Hd.
  assert (∃ b, Stack.mixed_inductive_coinductive_cycle_from (E:=Empty_set) s d = Val b) as [[] Hm].
  { unfold Stack.mixed_inductive_coinductive_cycle_from, vec_from.
    apply N.leb_le in Hd. rewrite Hd. simpl. eauto. }
  - apply Stack.mixed_cycle_true in Hm as (_ & (e & He & Hc) & (e' & He' & Hc')).
    rewrite Forall_forall in Hl.
    rewrite (Hl e) in Hc by by eapply subseteq_drop.
    rewrite (Hl e') in Hc' by by eapply subseteq_drop. congruence.
  - done.
Qed.

(** Raising the cycle flag of an entry. *)
Definition flag_entries (l : list Stack.StackEntry) (d : StackDepth) : list Stack.StackEntry :=
  alter (λ e, Stack.MkStackEntry (Stack.coinductive_goal e) true) (N.to_nat d) l.

Lemma flag_entries_ext l d : Forall2 entry_ext l (flag_entries l d).
Proof.
  unfold flag_entries. apply Forall2_same_length_lookup_2; [by rewrite length_alter|].
  intros i e e' He He'.
  destruct (decide (i = N.to_nat d)) as [->|Hne].
  - rewrite list_lookup_alter, He in He'. simpl in He'. case_decide; [|done].
    injection He' as <-. done.
  - rewrite list_lookup_alter_ne in He' by done. by simplify_eq.
Qed.

Lemma flag_cycle_ok (s : Stack.Stack) d :
  (d < vec_len (Stack.entries s))%N →
  Stack.flag_cycle (E:=Empty_set) s d =
    Val (Stack.MkStack (flag_entries (Stack.entries s) d) (Stack.overflow_depth s)).
Proof.
  intros Hd. unfold Stack.flag_cycle, vec_get, vec_set, flag_entries.
  destruct (lookup_lt_is_Some_2 (Stack.entries s) (N.to_nat d)) as [e He];
    [unfold vec_len in Hd; lia|].
  rewrite He. simpl. rewrite ?He. simpl. do 2 f_equal.
  apply list_eq. intros i. destruct (decide (i = N.to_nat d)) as [->|Hne].
  - rewrite list_lookup_insert_eq by (by eapply lookup_lt_Some).
    rewrite list_lookup_alter, He. simpl. by case_decide.
  - by rewrite list_lookup_insert_ne, list_lookup_alter_ne by done.
Qed.

Lemma solve_in_graph_spec fuel bound g dfn m c :
  Inv None coind c → SearchGraph.lookup (search_graph c) g = Some dfn →
  outcome_spec (solve_in_graph dfn m c) fuel bound (Post m c (reads_goal g)).
Proof.
  intros HI Hl. apply SearchGraph.lookup_Some_wf in Hl as (n & Hn & Hg); [|apply HI].
  unfold solve_in_graph, SearchGraph.index.
  assert (vec_get (E:=Empty_set) (SearchGraph.nodes (search_graph c)) dfn = Val n) as Hget
    by by apply vec_get_Val.
  assert (positive (SearchGraph.links n) ≤ dfn)%N as Hlinks.
  { destruct (SearchGraph.stack_depth n) as [d|] eqn:Hd.
    - apply (inv_depth _ _ _ HI) with (d := d) in Hn as [_ ->]; [simpl; lia|done].
    - pose proof (inv_links _ _ _ HI (N.to_nat dfn) n) as Hi. rewrite N2Nat.id in Hi.
      by apply N.lt_le_incl, Hi. }
  rewrite Hget. simpl. destruct (SearchGraph.stack_depth n) as [d|] eqn:Hd; simpl.
  - destruct (inv_depth _ _ _ HI _ _ _ Hn Hd) as [Hlt _].
    rewrite flag_cycle_ok by done. simpl.
    assert (Forall2 entry_ext (es c) (flag_entries (es c) d)) as Hext by apply flag_entries_ext.
    assert (Forall (λ e, Stack.coinductive_goal e = coind) (flag_entries (es c) d)) as Hkind.
    { apply Forall_forall. intros e He. apply list_elem_of_lookup in He as [i He].
      destruct (Forall2_lookup_r _ _ _ _ _ Hext He) as (e0 & He0 & <- & _).
      by eapply Forall_lookup_1 in He0; [|apply (inv_kind _ _ _ HI)]. }
    rewrite (all_of_kind_not_mixed (flag_entries (es c) d));
      [|done|done|pose proof (entries_ext_length _ _ Hext); unfold es in *; lia].
    simpl. rewrite Hget. simpl.
    set (c' := with_stack _ _).
    assert (Ext (Minimums.update_from m (SearchGraph.links n)) c c') as HE.
    { split; [done..| |done]. exists []. by rewrite app_nil_r. }
    split; simpl; [done| |lia| |].
    + destruct HI as [? ? ? Hdep ? ? Hcons ? Hk]. split; try done.
      * intros i n' d' Hi Hd'. rewrite <- (entries_ext_length _ _ (ext_entries _ _ _ HE)). eauto.
      * intros i n' Hi Hd'. eapply Eval_mono; [|by apply (Hcons i)].
        intros h x. by apply (Reads_ext _ _ _ _ _ _ _ HE).
    + right. exists (N.to_nat dfn), n. split_and!; [done..|simpl; lia|].
      unfold readable. rewrite Hd. unfold flag, es. simpl.
      unfold flag_entries. rewrite list_lookup_alter. case_decide; [|done].
      destruct (lookup_lt_is_Some_2 (Stack.entries (stack c)) (N.to_nat d)) as [e He];
        [unfold vec_len, es in Hlt; lia|]. by rewrite He.
    + intros ρ [? ? ?]. by split.
  - rewrite Hget. simpl. split; simpl; [apply Ext_refl|done|lia| |done].
    right. exists (N.to_nat dfn), n. split_and!; [done..|simpl; lia|].
    unfold readable. by rewrite Hd.
Qed.

(** * The loop of [solve_new_subgoal] *)

(** The node and the stack entry of the goal being solved. *)
Definition own_node c0 g v : Node :=
  SearchGraph.MkNode g v (Some (vec_len (es c0))) (MkMinimums (vec_len (ns c0))).
Definition own_entry (b : bool) : Stack.StackEntry := Stack.MkStackEntry coind b.

(** The state [c] with its entries and nodes replaced. *)
Definition rebuilt c (l : list Stack.StackEntry) (nodes : list Node) : ctx :=
  MkContext (Stack.MkStack l (Stack.overflow_depth (stack c)))
    (SearchGraph.MkSearchGraph (SearchGraph.indices (search_graph c)) nodes)
    (cache c) (max_size c).

(** The state at the head of the loop for [g], entered from [c0], when the node
    of [g] holds [s]: [s] is bounded by what the next turn will compute. *)
Record LoopState c0 g (s : V) c : Prop := {
  loop_entries : ∃ e0, es c = e0 ++ [own_entry false] ∧ Forall2 entry_ext (es c0) e0;
  loop_overflow : Stack.overflow_depth (stack c0) = Stack.overflow_depth (stack c);
  loop_nodes : ns c = ns c0 ++ [own_node c0 g s];
  loop_cache : cmap c0 ⊆ cmap c;
  loop_inv : Inv None coind c;
  loop_below ρ : Below ρ c → s ⊑ eval ρ (solve_iteration g);
}.

(** What one turn of the loop leaves behind. *)
Record Turn c0 g (s v : V) (m : Minimums) c c1 (e1 : list Stack.StackEntry) (b : bool)
    (new : list Node) : Prop := {
  turn_state : LoopState c0 g s c;
  turn_inv : Inv None coind c1;
  turn_eval : Eval (Reads (cmap c1) (ns c1) (es c1) (positive m)) (solve_iteration g) v;
  turn_ext : Ext m c c1;
  turn_below ρ : Below ρ c → Below ρ c1;
  turn_entries : es c1 = e1 ++ [own_entry b];
  turn_entries_ext : Forall2 entry_ext (es c0) e1;
  turn_nodes : ns c1 = ns c0 ++ own_node c0 g s :: new;
  turn_new : Forall (completed_from (positive m)) new;
}.

(** The loop ends in a state that only waits for its node to be completed. *)
Record LoopDone c0 g c (r : Minimums * ctx) : Prop := {
  done_ex : ∃ e1 v new,
    es r.2 = e1 ++ [own_entry false] ∧ Forall2 entry_ext (es c0) e1 ∧
    ns r.2 = ns c0 ++ own_node c0 g v :: new ∧
    Forall (completed_from (positive r.1)) new ∧
    (let cf := rebuilt r.2 e1 (ns c0 ++ SearchGraph.MkNode g v None r.1 :: new) in
     Inv (Some (length (ns c0))) coind cf ∧
     ∀ ρ, Below ρ c → eval ρ (solve_iteration g) ⊑ ρ g → Below ρ cf);
  done_overflow : Stack.overflow_depth (stack c0) = Stack.overflow_depth (stack r.2);
  done_cache : cmap c0 ⊆ cmap r.2;
}.

Lemma turn_intro c0 g s c v m c1 :
  LoopState c0 g s c →
  Post Minimums.new c (evals (solve_iteration g)) (v, m, c1) →
  ∃ e1 b new, Turn c0 g s v m c c1 e1 b new.
Proof.
  intros HL [HE HI Hm Hv HB]; simpl in *.
  destruct (loop_entries _ _ _ _ HL) as (e0 & He0 & Hext0).
  pose proof (ext_entries _ _ _ HE) as Hent. rewrite He0 in Hent.
  apply Forall2_app_inv_l in Hent as (e1 & tl & He1 & Htl & Hes).
  apply Forall2_cons_inv_l in Htl as ([k b] & ? & [Hk _] & Hnil & ->).
  apply Forall2_nil_inv_l in Hnil as ->. simpl in Hk. subst k.
  destruct (ext_nodes _ _ _ HE) as (new & Hns & Hnew).
  rewrite (loop_nodes _ _ _ _ HL), <- app_assoc in Hns.
  exists e1, b, new. split; try done. by etrans.
Qed.

Lemma own_flag (e0 : list Stack.StackEntry) c0 b :
  Forall2 entry_ext (es c0) e0 → flag (e0 ++ [own_entry b]) (vec_len (es c0)) = b.
Proof.
  intros Hl. unfold flag. apply entries_ext_length in Hl.
  rewrite list_lookup_middle; [done|]. unfold vec_len in *. lia.
Qed.

Lemma flag_lt (e0 : list Stack.StackEntry) e d :
  (d < vec_len e0)%N → flag (e0 ++ [e]) d = flag e0 d.
Proof. intros Hd. unfold flag, vec_len in *. rewrite lookup_app_l by lia. done. Qed.

(** Replacing the goal's own node keeps the other lookups. *)
Lemma replace_own_cases c0 g (x y : Node) new i n :
  (ns c0 ++ y :: new) !! i = Some n →
  (i = length (ns c0) ∧ n = y) ∨ (i ≠ length (ns c0) ∧ (ns c0 ++ x :: new) !! i = Some n).
Proof.
  intros Hi. apply lookup_middle_cases in Hi as [[Hl Hi]|[?|[Hl Hi]]]; [right|by left|right].
  - split; [lia|]. by apply lookup_app_l_Some.
  - split; [lia|]. by rewrite lookup_middle_gt.
Qed.

Section Turn.
Context {c0 c c1 : ctx} {g : K} {s v : V} {m : Minimums} {e1 : list Stack.StackEntry}
  {b : bool} {new : list Node}.
Context (T : Turn c0 g s v m c c1 e1 b new).
#[local] Abbreviation final_node := (SearchGraph.MkNode g v None m).

(** Every node but the goal's own is at another depth of the stack. *)
Lemma turn_depth i n d :
  ns c1 !! i = Some n → i ≠ length (ns c0) → SearchGraph.stack_depth n = Some d →
  (d < vec_len e1)%N.
Proof.
  intros Hi Hne Hd. destruct (inv_depth _ _ _ (turn_inv _ _ _ _ _ _ _ _ _ _ T) _ _ _ Hi Hd) as [Hlt _].
  rewrite (turn_entries _ _ _ _ _ _ _ _ _ _ T), vec_len_app in Hlt.
  pose proof (entries_ext_length _ _ (turn_entries_ext _ _ _ _ _ _ _ _ _ _ T)) as Hlen.
  destruct (decide (d = vec_len (es c0))) as [->|]; [|change (vec_len [own_entry b]) with 1%N in Hlt; lia].
  destruct Hne. eapply (inv_depth_inj _ _ _ (turn_inv _ _ _ _ _ _ _ _ _ _ T)); [done| |done|].
  - rewrite (turn_nodes _ _ _ _ _ _ _ _ _ _ T). by apply list_lookup_middle.
  - done.
Qed.

Lemma turn_reads l h x :
  (b = true → v = s) →
  Reads (cmap c1) (ns c1) (es c1) l h x →
  Reads (cmap c1) (ns c0 ++ final_node :: new) e1 l h x.
Proof.
  intros Hb [Hr|(i & n & Hi & Hg & Hv & Hl & Hr)]; [by left|right].
  pose proof Hi as Hi'. rewrite (turn_nodes _ _ _ _ _ _ _ _ _ _ T) in Hi'.
  apply (replace_own_cases c0 g final_node) in Hi' as [[-> ->]|[Hne Hi']].
  - simpl in *. subst h x. unfold readable in Hr. simpl in Hr.
    rewrite (turn_entries _ _ _ _ _ _ _ _ _ _ T), own_flag in Hr
      by apply (turn_entries_ext _ _ _ _ _ _ _ _ _ _ T).
    exists (length (ns c0)), final_node. rewrite list_lookup_middle by done.
    split_and!; [done..| |done|done]. by apply Hb.
  - exists i, n. split_and!; try done. unfold readable in *.
    destruct (SearchGraph.stack_depth n) as [d|] eqn:Hd; [|done].
    rewrite (turn_entries _ _ _ _ _ _ _ _ _ _ T), flag_lt in Hr; [done|]. by eapply turn_depth.
Qed.

Lemma replaced_wf y :
  SearchGraph.goal y = g →
  SearchGraph.wf (SearchGraph.MkSearchGraph (SearchGraph.indices (search_graph c1))
    (ns c0 ++ y :: new)).
Proof.
  intros Hg. pose proof (turn_nodes _ _ _ _ _ _ _ _ _ _ T) as Hns. unfold ns in Hns at 1.
  erewrite <- (insert_middle _ _ _ y (N.to_nat (vec_len (ns c0)))); [|unfold vec_len; lia].
  rewrite <- Hns. eapply SearchGraph.update_wf.
  - apply (inv_graph _ _ _ (turn_inv _ _ _ _ _ _ _ _ _ _ T)).
  - rewrite Hns. apply list_lookup_middle. unfold vec_len. lia.
  - done.
Qed.

Lemma turn_final_inv :
  (b = true → v = s) →
  Inv (Some (length (ns c0))) coind (rebuilt c1 e1 (ns c0 ++ final_node :: new)).
Proof.
  intros Hb. pose proof (turn_inv _ _ _ _ _ _ _ _ _ _ T) as HI.
  pose proof (turn_nodes _ _ _ _ _ _ _ _ _ _ T) as Hns.
  assert (∀ i n, (ns c0 ++ final_node :: new) !! i = Some n →
    (i = length (ns c0) ∧ n = final_node) ∨ (i ≠ length (ns c0) ∧ ns c1 !! i = Some n)) as Hcases.
  { rewrite Hns. intros i n. by apply replace_own_cases. }
  assert (ns c1 !! length (ns c0) = Some (own_node c0 g s)) as Hown
    by (rewrite Hns; by apply list_lookup_middle).
  split; unfold ns, es, cmap; simpl.
  - by apply replaced_wf.
  - apply HI.
  - intros i n Hi. apply Hcases in Hi as [[-> ->]|[_ Hi]]; [|by eapply (inv_disjoint _ _ _ HI)].
    by apply (inv_disjoint _ _ _ HI) in Hown.
  - intros i n d Hi Hd. apply Hcases in Hi as [[-> ->]|[Hne Hi]]; [done|].
    split; [by eapply turn_depth|]. by eapply (inv_depth _ _ _ HI).
  - intros i j n n' d Hi Hj Hd Hd'.
    apply Hcases in Hi as [[-> ->]|[_ Hi]]; [done|].
    apply Hcases in Hj as [[-> ->]|[_ Hj]]; [done|]. by eapply (inv_depth_inj _ _ _ HI).
  - intros i n Hne Hi. apply Hcases in Hi as [[-> _]|[_ Hi]]; [done|].
    by eapply (inv_links _ _ _ HI).
  - intros i n Hi Hd. apply Hcases in Hi as [[-> ->]|[_ Hi]]; simpl.
    + eapply Eval_mono; [|apply (turn_eval _ _ _ _ _ _ _ _ _ _ T)]. intros. by apply turn_reads.
    + eapply Eval_mono; [|by eapply (inv_consistent _ _ _ HI)]. intros. by apply turn_reads.
  - apply HI.
  - pose proof (inv_kind _ _ _ HI) as Hk. rewrite (turn_entries _ _ _ _ _ _ _ _ _ _ T) in Hk.
    by apply Forall_app in Hk as [? _].
Qed.

Lemma turn_value_below ρ : Below ρ c → v ⊑ eval ρ (solve_iteration g).
Proof.
  intros HB. eapply Eval_below.
  - apply (turn_inv _ _ _ _ _ _ _ _ _ _ T).
  - by apply (turn_below _ _ _ _ _ _ _ _ _ _ T).
  - apply (turn_eval _ _ _ _ _ _ _ _ _ _ T).
Qed.

(** The answers to a goal grow from turn to turn. *)
Lemma turn_grows : s ⊑ v.
Proof.
  pose proof (turn_inv _ _ _ _ _ _ _ _ _ _ T) as HI.
  assert (Below (table top c1) c) as HB.
  { eapply table_bounds; [apply law_top|done|apply (turn_ext _ _ _ _ _ _ _ _ _ _ T)]. }
  apply (loop_below _ _ _ _ (turn_state _ _ _ _ _ _ _ _ _ _ T)) in HB.
  erewrite Eval_eval in HB; [done| |apply (turn_eval _ _ _ _ _ _ _ _ _ _ T)].
  intros h x. by apply table_Reads with (x := None) (coind := coind).
Qed.

Lemma turn_rank : rank v ≤ height.
Proof.
  erewrite <- (Eval_eval _ (table top c1) _ v); [apply law_height| |apply (turn_eval _ _ _ _ _ _ _ _ _ _ T)].
  intros h x. apply table_Reads with (x := None) (coind := coind).
  apply (turn_inv _ _ _ _ _ _ _ _ _ _ T).
Qed.

#[local] Abbreviation turned :=
  (rebuilt c1 (e1 ++ [own_entry false]) (ns c0 ++ own_node c0 g v :: new)).

Lemma turn_cache : cmap c0 ⊆ cmap c1.
Proof.
  etrans; [apply (loop_cache _ _ _ _ (turn_state _ _ _ _ _ _ _ _ _ _ T))|].
  apply (turn_ext _ _ _ _ _ _ _ _ _ _ T).
Qed.

Lemma turn_overflow : Stack.overflow_depth (stack c0) = Stack.overflow_depth (stack c1).
Proof.
  etrans; [apply (loop_overflow _ _ _ _ (turn_state _ _ _ _ _ _ _ _ _ _ T))|].
  apply (turn_ext _ _ _ _ _ _ _ _ _ _ T).
Qed.

Lemma turn_done : (b = true → v = s) → LoopDone c0 g c (m, turned).
Proof.
  intros Hb. split; simpl; [|apply turn_overflow|apply turn_cache].
  exists e1, v, new. split_and!; try done; try apply T.
  - by apply turn_final_inv.
  - intros ρ HB Hρ. pose proof (turn_below _ _ _ _ _ _ _ _ _ _ T ρ HB) as HB1.
    pose proof (turn_nodes _ _ _ _ _ _ _ _ _ _ T) as Hns.
    split; unfold ns, cmap; simpl.
    + apply (below_cache _ _ HB1).
    + intros i n Hi. apply (replace_own_cases c0 g (own_node c0 g s)) in Hi as [[_ ->]|[_ Hi]]; simpl.
      * etrans; [by apply turn_value_below|done].
      * rewrite <- Hns in Hi. by apply (below_nodes _ _ HB1 i).
    + intros h Hh. apply (below_pre _ _ HB1). intros i n Hi. rewrite Hns in Hi.
      apply (replace_own_cases c0 g final_node) in Hi as [[-> ->]|[_ Hi]].
      * simpl. by apply (Hh (length (ns c0)) final_node), list_lookup_middle.
      * by eapply Hh.
Qed.

(** Rolling back to the goal's own node. *)
#[local] Abbreviation rolled_back :=
  (with_graph turned (SearchGraph.rollback_to (search_graph turned)
    (DepthFirstNumber_add (vec_len (ns c0)) 1))).

Lemma rolled_back_nodes : ns rolled_back = ns c0 ++ [own_node c0 g v].
Proof.
  unfold ns. simpl. unfold DepthFirstNumber_add, vec_len.
  rewrite N2Nat.inj_add, Nat2N.id, take_app_add. by simpl.
Qed.

Lemma rolled_back_reads l h x :
  Reads (cmap c) (ns c) (es c) l h x →
  Reads (cmap rolled_back) (ns rolled_back) (es rolled_back) l h x.
Proof.
  destruct (turn_state _ _ _ _ _ _ _ _ _ _ T) as [(e0 & He0 & Hx0) _ Hns _ HI _].
  rewrite rolled_back_nodes. intros [Hr|(i & n & Hi & Hg & Hv & Hl & Hr)].
  - left. eapply lookup_weaken; [done|]. apply (turn_ext _ _ _ _ _ _ _ _ _ _ T).
  - rewrite Hns in Hi. apply (replace_own_cases c0 g (own_node c0 g v)) in Hi as [[-> ->]|[Hne Hi]].
    + exfalso. unfold readable in Hr. simpl in Hr. by rewrite He0, own_flag in Hr.
    + right. exists i, n. split_and!; try done. unfold es. simpl. eapply readable_ext; [|done].
      pose proof (ext_entries _ _ _ (turn_ext _ _ _ _ _ _ _ _ _ _ T)) as Hext.
      rewrite He0, (turn_entries _ _ _ _ _ _ _ _ _ _ T) in *.
      apply Forall2_app_inv in Hext as [Hext _]; [by apply Forall2_app; [|constructor]|].
      pose proof (entries_ext_length _ _ Hx0).
      pose proof (entries_ext_length _ _ (turn_entries_ext _ _ _ _ _ _ _ _ _ _ T)).
      unfold vec_len in *. lia.
Qed.

Lemma rolled_back_inv : Inv None coind rolled_back.
Proof.
  pose proof (turn_inv _ _ _ _ _ _ _ _ _ _ T) as HI1.
  destruct (turn_state _ _ _ _ _ _ _ _ _ _ T) as [(e0 & He0 & Hx0) _ Hns _ HI _].
  pose proof (turn_nodes _ _ _ _ _ _ _ _ _ _ T) as Hns1.
  assert (vec_len (es rolled_back) = vec_len (es c)) as Hlen.
  { unfold es. simpl. fold (es c). rewrite He0, !vec_len_app.
    by rewrite <- (entries_ext_length _ _ (turn_entries_ext _ _ _ _ _ _ _ _ _ _ T)),
      <- (entries_ext_length _ _ Hx0). }
  assert (∀ i n, ns rolled_back !! i = Some n →
    (i = length (ns c0) ∧ n = own_node c0 g v) ∨ (i ≠ length (ns c0) ∧ ns c !! i = Some n)) as Hcases.
  { rewrite rolled_back_nodes, Hns. intros i n. by apply replace_own_cases. }
  assert (ns c !! length (ns c0) = Some (own_node c0 g s)) as Hown
    by (rewrite Hns; by apply list_lookup_middle).
  assert (ns c1 !! length (ns c0) = Some (own_node c0 g s)) as Hown1
    by (rewrite Hns1; by apply list_lookup_middle).
  split.
  - apply SearchGraph.rollback_wf. by apply replaced_wf.
  - apply HI1.
  - intros i n Hi. apply Hcases in Hi as [[-> ->]|[Hne Hi]].
    + by apply (inv_disjoint _ _ _ HI1) in Hown1.
    + apply (inv_disjoint _ _ _ HI1 i). rewrite Hns in Hi. rewrite Hns1.
      apply lookup_middle_cases in Hi as [[_ Hi]|[[]|[_ ?]]]; [|done..].
      by apply lookup_app_l_Some.
  - intros i n d Hi Hd. rewrite Hlen. apply Hcases in Hi as [[-> ->]|[Hne Hi]];
      [|by eapply (inv_depth _ _ _ HI)].
    by apply (inv_depth _ _ _ HI _ _ d) in Hown.
  - intros i j n n' d Hi Hj Hd Hd'.
    apply Hcases in Hi as [[-> ->]|[_ Hi]]; apply Hcases in Hj as [[-> ->]|[_ Hj]]; [done|..];
      by eapply (inv_depth_inj _ _ _ HI).
  - intros i n _ Hi Hd. apply Hcases in Hi as [[-> ->]|[_ Hi]]; [done|]. revert Hd.
    by apply (inv_links _ _ _ HI).
  - intros i n Hi Hd. apply Hcases in Hi as [[-> ->]|[_ Hi]]; [done|].
    eapply Eval_mono; [|by eapply (inv_consistent _ _ _ HI)]. intros h x. apply rolled_back_reads.
  - apply HI1.
  - pose proof (inv_kind _ _ _ HI1) as Hk. rewrite (turn_entries _ _ _ _ _ _ _ _ _ _ T) in Hk.
    unfold es. simpl. apply Forall_app in Hk as [? _]. by apply Forall_app_2; [|constructor].
Qed.

Lemma turn_again : LoopState c0 g v rolled_back.
Proof.
  destruct (turn_state _ _ _ _ _ _ _ _ _ _ T) as [(e0 & He0 & Hx0) _ Hns _ HI Hs].
  split.
  - exists e1. split; [done|]. apply T.
  - apply turn_overflow.
  - apply rolled_back_nodes.
  - apply turn_cache.
  - apply rolled_back_inv.
  - intros ρ [HBc HBn HBp]. rewrite rolled_back_nodes in *. apply turn_value_below. split.
    + intros h x Hx. apply HBc. eapply lookup_weaken; [done|]. apply (turn_ext _ _ _ _ _ _ _ _ _ _ T).
    + intros i n Hi. rewrite Hns in Hi.
      apply (replace_own_cases c0 g (own_node c0 g v)) in Hi as [[-> ->]|[_ Hi]]; [|by eapply HBn].
      simpl. etrans; [apply turn_grows|].
      by apply (HBn (length (ns c0)) (own_node c0 g v)), list_lookup_middle.
    + intros h Hh. apply HBp. intros i n Hi.
      apply (replace_own_cases c0 g (own_node c0 g s)) in Hi as [[-> ->]|[_ Hi]].
      * simpl. apply (Hh (length (ns c0)) (own_node c0 g s)). rewrite Hns. by apply list_lookup_middle.
      * rewrite <- Hns in Hi. by eapply Hh.
Qed.

Lemma turn_again_below ρ :
  Below ρ c → eval ρ (solve_iteration g) ⊑ ρ g → Below ρ rolled_back.
Proof.
  intros HB Hρ. pose proof (turn_below _ _ _ _ _ _ _ _ _ _ T ρ HB) as [HBc _ _].
  destruct HB as [_ HBn HBp]. rewrite (loop_nodes _ _ _ _ (turn_state _ _ _ _ _ _ _ _ _ _ T)) in *.
  split; rewrite ?rolled_back_nodes; [done|..].
  - intros i n Hi. apply (replace_own_cases c0 g (own_node c0 g s)) in Hi as [[-> ->]|[_ Hi]].
    + simpl. etrans; [|done]. apply turn_value_below.
      split; [|by rewrite (loop_nodes _ _ _ _ (turn_state _ _ _ _ _ _ _ _ _ _ T))..].
      intros h x Hx. apply HBc. eapply lookup_weaken; [done|]. apply (turn_ext _ _ _ _ _ _ _ _ _ _ T).
    + by eapply HBn.
  - intros h Hh. apply HBp. intros i n Hi.
    apply (replace_own_cases c0 g (own_node c0 g v)) in Hi as [[-> ->]|[_ Hi]].
    + simpl. by apply (Hh (length (ns c0)) (own_node c0 g v)), list_lookup_middle.
    + by eapply Hh.
Qed.

End Turn.

Lemma LoopDone_below c0 g c c' r :
  (∀ ρ, Below ρ c → eval ρ (solve_iteration g) ⊑ ρ g → Below ρ c') →
  LoopDone c0 g c' r → LoopDone c0 g c r.
Proof.
  intros HB [(e1 & v & new & ? & ? & ? & ? & ? & ?) ? ?]. split; [|done..].
  exists e1, v, new. split_and!; auto.
Qed.

Lemma read_flag_ok c (e1 : list Stack.StackEntry) b d :
  es c = e1 ++ [own_entry b] → d = vec_len e1 →
  Stack.read_and_reset_cycle_flag (E:=Empty_set) (stack c) d =
    Val (b, Stack.MkStack (e1 ++ [own_entry false]) (Stack.overflow_depth (stack c))).
Proof.
  unfold es. intros He ->. unfold Stack.read_and_reset_cycle_flag, vec_get, vec_set.
  rewrite He, list_lookup_middle by (unfold vec_len; lia). simpl.
  by rewrite insert_middle by (unfold vec_len; lia).
Qed.

Lemma index_middle (sg : SearchGraph.SearchGraph K V) l n new d :
  SearchGraph.nodes sg = l ++ n :: new → d = vec_len l →
  SearchGraph.index (E:=Empty_set) sg d = Val n.
Proof.
  intros Hn ->. unfold SearchGraph.index. apply vec_get_Val. rewrite Hn.
  apply list_lookup_middle. unfold vec_len. lia.
Qed.

Lemma index_mut_middle (sg : SearchGraph.SearchGraph K V) l n new d f :
  SearchGraph.nodes sg = l ++ n :: new → d = vec_len l →
  SearchGraph.index_mut (E:=Empty_set) sg d f =
    Val (SearchGraph.MkSearchGraph (SearchGraph.indices sg) (l ++ f n :: new)).
Proof.
  intros Hn ->. unfold SearchGraph.index_mut, vec_get, vec_set.
  rewrite Hn, list_lookup_middle by (unfold vec_len; lia). simpl.
  by rewrite insert_middle by (unfold vec_len; lia).
Qed.

(** * The whole engine *)

Definition goal_ok fuel : Prop := ∀ g m c,
  Inv None coind c →
  outcome_spec (solve_goal fuel g m c) fuel (needed c) (Post m c (reads_goal g)).

Definition loop_ok fuel : Prop := ∀ c0 g s c,
  LoopState c0 g s c →
  outcome_spec (solve_new_subgoal fuel g (vec_len (es c0)) (vec_len (ns c0)) c)
    fuel (1 + (height - rank s) + needed c) (LoopDone c0 g c).

Lemma loop_step fuel : goal_ok fuel → loop_ok fuel → loop_ok (S fuel).
Proof.
  intros Hgoal Hloop c0 g s c HL. simpl solve_new_subgoal.
  eapply outcome_spec_bind.
  { eapply outcome_spec_weaken;
      [apply run_iteration_spec; [exact Hgoal|apply law_tracked|apply HL]|lia|].
    intros r Hr. exact Hr. }
  intros [[v m] c1] HP. destruct (turn_intro _ _ _ _ _ _ _ HL HP) as (e1 & b & new & T).
  erewrite read_flag_ok;
    [|apply T|symmetry; rewrite (entries_ext_length _ _ (turn_entries_ext _ _ _ _ _ _ _ _ _ _ T)); done].
  simpl. erewrite index_middle; [|apply (turn_nodes _ _ _ _ _ _ _ _ _ _ T)|done].
  simpl. erewrite index_mut_middle; [|apply (turn_nodes _ _ _ _ _ _ _ _ _ _ T)|done].
  simpl. destruct b; simpl; [|by apply (turn_done T)].
  destruct (reached_fixed_point s v) eqn:Hfix.
  { apply law_fixed in Hfix. by apply (turn_done T). }
  assert (s ≠ v) as Hne by (intros ->; by rewrite (proj2 (law_fixed v v) eq_refl) in Hfix).
  assert (rank s < rank v) as Hrank by (apply law_rank; [apply (turn_grows T)|done]).
  pose proof (turn_rank T) as Hheight.
  eapply outcome_spec_weaken; [apply (Hloop c0 g v), (turn_again T)| |].
  - unfold needed. simpl. rewrite <- (turn_overflow T), (loop_overflow _ _ _ _ HL).
    unfold es. simpl. fold (es c).
    destruct (loop_entries _ _ _ _ HL) as (e0 & -> & Hx0).
    pose proof (Forall2_length _ _ _ Hx0).
    pose proof (Forall2_length _ _ _ (turn_entries_ext _ _ _ _ _ _ _ _ _ _ T)).
    rewrite !length_app. simpl.
    replace (length e1) with (length e0) by congruence. lia.
  - intros r. apply LoopDone_below. intros ρ. apply (turn_again_below T).
Qed.

(** Pushing the goal's entry and node. *)
Definition entered c0 g v : ctx :=
  MkContext (Stack.MkStack (es c0 ++ [own_entry false]) (Stack.overflow_depth (stack c0)))
    (SearchGraph.MkSearchGraph (<[g := vec_len (ns c0)]> (SearchGraph.indices (search_graph c0)))
       (ns c0 ++ [own_node c0 g v]))
    (cache c0) (max_size c0).

Lemma entered_inv c0 g v :
  Inv None coind c0 → cmap c0 !! g = None → SearchGraph.lookup (search_graph c0) g = None →
  Inv None coind (entered c0 g v).
Proof.
  intros HI Hc Hl. assert (∀ i n, (ns c0 ++ [own_node c0 g v]) !! i = Some n →
    (i = length (ns c0) ∧ n = own_node c0 g v) ∨ (i < length (ns c0) ∧ ns c0 !! i = Some n)) as Hcases.
  { intros i n Hi. apply lookup_middle_cases in Hi as [?|[?|[_ ?]]]; [by right|by left|done]. }
  split; unfold ns, es, cmap; simpl.
  - apply SearchGraph.push_wf; [apply HI|done].
  - apply HI.
  - intros i n Hi. apply Hcases in Hi as [[-> ->]|[_ Hi]]; [done|by eapply (inv_disjoint _ _ _ HI)].
  - intros i n d Hi Hd. rewrite vec_len_app. change (vec_len [own_entry false]) with 1%N.
    apply Hcases in Hi as [[-> ->]|[_ Hi]].
    + simpl in Hd. injection Hd as <-. split; [lia|done].
    + destruct (inv_depth _ _ _ HI _ _ _ Hi Hd). split; [lia|done].
  - intros i j n n' d Hi Hj Hd Hd'.
    apply Hcases in Hi as [[-> ->]|[_ Hi]]; apply Hcases in Hj as [[-> ->]|[_ Hj]]; [done|..|].
    + apply (inv_depth _ _ _ HI _ _ d) in Hj as [? _]; [|done]. simpl in Hd. simplify_eq. lia.
    + apply (inv_depth _ _ _ HI _ _ d) in Hi as [? _]; [|done]. simpl in Hd'. simplify_eq. lia.
    + by eapply (inv_depth_inj _ _ _ HI).
  - intros i n _ Hi Hd. apply Hcases in Hi as [[-> ->]|[_ Hi]]; [done|]. revert Hd.
    by apply (inv_links _ _ _ HI).
  - intros i n Hi Hd. apply Hcases in Hi as [[-> ->]|[_ Hi]]; [done|].
    eapply Eval_mono; [|by eapply (inv_consistent _ _ _ HI)].
    intros h x [?|(j & n' & Hj & Hg & Hv & Hle & Hr)]; [by left|right].
    exists j, n'. split_and!; [by apply lookup_app_l_Some|done..|].
    unfold readable in *. destruct (SearchGraph.stack_depth n') as [d|] eqn:Hd'; [|done].
    rewrite flag_lt; [done|]. by eapply (inv_depth _ _ _ HI).
  - apply HI.
  - apply Forall_app_2; [apply HI|by constructor].
Qed.

Lemma entered_loop c0 g :
  Inv None coind c0 → cmap c0 !! g = None → SearchGraph.lookup (search_graph c0) g = None →
  LoopState c0 g (initial_value g coind) (entered c0 g (initial_value g coind)).
Proof.
  intros HI Hc Hl. split; try done; [by eexists| |].
  - by apply entered_inv.
  - intros ρ _. apply law_initial.
Qed.

Lemma entered_below c0 g ρ :
  Inv None coind c0 → SearchGraph.lookup (search_graph c0) g = None →
  Below ρ c0 → eval ρ (solve_iteration g) ⊑ ρ g ∧ Below ρ (entered c0 g (initial_value g coind)).
Proof.
  intros HI Hl HB. assert (eval ρ (solve_iteration g) ⊑ ρ g) as Hρ.
  { apply (below_pre _ _ HB). intros i n Hi.
    eapply SearchGraph.lookup_None_wf; [apply HI|done|done]. }
  split; [done|]. destruct HB as [HBc HBn HBp]. split; [done|..].
  - intros i n Hi. apply lookup_middle_cases in Hi as [[_ Hi]|[[_ ->]|[_ ?]]]; [by eapply HBn| |done].
    simpl. etrans; [apply law_initial|done].
  - intros h Hh. apply HBp. intros i n Hi. eapply Hh. by apply lookup_app_l_Some.
Qed.

(** Writing a list of nodes to a cache. *)
Definition cached (c : gmap K V) (l : list Node) : gmap K V :=
  foldl (λ (c : gmap K V) n, <[SearchGraph.goal n := SearchGraph.solution n]> c) c l.

Lemma cached_lookup (c : gmap K V) l h x :
  NoDup (SearchGraph.goal <$> l) →
  cached c l !! h = Some x ↔
  (∃ n, n ∈ l ∧ SearchGraph.goal n = h ∧ SearchGraph.solution n = x) ∨
  (h ∉ SearchGraph.goal <$> l ∧ c !! h = Some x).
Proof.
  revert c. induction l as [|n l IH]; intros c Hnd; simpl.
  { set_solver. }
  apply NoDup_cons in Hnd as [Hn Hnd]. unfold cached in *. rewrite IH by done.
  rewrite lookup_insert_Some. split.
  - intros [(n' & ? & ? & ?)|[Hh [[<- <-]|[Hne Hc]]]].
    + left. exists n'. by rewrite elem_of_cons; auto.
    + left. exists n. by rewrite elem_of_cons; auto.
    + right. rewrite not_elem_of_cons. auto.
  - intros [(n' & [->|?]%elem_of_cons & ? & ?)|[[Hne Hh]%not_elem_of_cons Hc]].
    + subst. right. split; [done|]. auto.
    + left. eauto.
    + right. auto.
Qed.

(** * Completing a goal *)
Section Finish.
Context {c0 : ctx} {g : K} {v : V} {m : Minimums} {cf : ctx} {new : list Node}.
Context (HI : Inv (Some (length (ns c0))) coind cf).
Context (Hns : ns cf = ns c0 ++ SearchGraph.MkNode g v None m :: new).
Context (Hnew : Forall (completed_from (positive m)) new).

(** A node that depends on an older one stays in the graph. *)
Lemma finish_keep_inv : (positive m < vec_len (ns c0))%N → Inv None coind cf.
Proof.
  intros Hm. destruct HI as [? ? ? ? ? Hlinks ? ? ?]. split; try done.
  intros i n _ Hi Hd. destruct (decide (i = length (ns c0))) as [->|Hne]; [|apply Hlinks; congruence].
  rewrite Hns, list_lookup_middle in Hi by done. injection Hi as <-. done.
Qed.

(** Otherwise its component moves to the cache. *)
#[local] Abbreviation moved := (SearchGraph.MkNode g v None m :: new).
Lemma moved_NoDup : NoDup (SearchGraph.goal <$> moved).
Proof.
  apply NoDup_alt. intros i j h Hi Hj.
  apply list_lookup_fmap_Some in Hi as (n & -> & Hi).
  apply list_lookup_fmap_Some in Hj as (n' & Hg & Hj).
  assert (length (ns c0) + i = length (ns c0) + j) as Heq; [|lia].
  eapply (SearchGraph.wf_NoDup (search_graph cf) _ _ n n'); [apply HI|..|done];
    change (SearchGraph.nodes (search_graph cf)) with (ns cf); rewrite Hns;
    by rewrite lookup_app_r, Nat.add_comm, Nat.add_sub by lia.
Qed.

Lemma moved_fresh h : h ∈ SearchGraph.goal <$> moved → cmap cf !! h = None.
Proof.
  intros (n & -> & Hn)%list_elem_of_fmap. apply list_elem_of_lookup in Hn as [i Hi].
  apply (inv_disjoint _ _ _ HI (length (ns c0) + i)). rewrite Hns.
  by rewrite lookup_app_r, Nat.add_comm, Nat.add_sub by lia.
Qed.

Lemma cached_weaken : cmap cf ⊆ cached (cmap cf) moved.
Proof.
  apply map_subseteq_spec. intros h x Hx. apply cached_lookup; [apply moved_NoDup|].
  right. split; [|done]. intros Hh. apply moved_fresh in Hh. congruence.
Qed.

Context (Hm : (vec_len (ns c0) ≤ positive m)%N).

Lemma moved_completed : Forall (completed_from (vec_len (ns c0))) moved.
Proof.
  constructor; [by split|]. eapply Forall_impl; [done|].
  intros n. by apply completed_from_weaken.
Qed.

Definition emptied : ctx :=
  MkContext (stack cf)
    (SearchGraph.MkSearchGraph
       (SearchGraph.retain_below (SearchGraph.indices (search_graph cf)) (vec_len (ns c0)))
       (ns c0))
    (Some (cached (cmap cf) moved)) (max_size cf).

Lemma emptied_reads l h x :
  Reads (cmap cf) (ns cf) (es cf) l h x →
  Reads (cmap emptied) (ns emptied) (es emptied) l h x.
Proof.
  intros [Hx|(i & n & Hi & <- & <- & Hl & Hr)].
  { left. by eapply lookup_weaken, cached_weaken. }
  rewrite Hns in Hi. apply lookup_app_Some in Hi as [Hi|[_ Hi]].
  - right. exists i, n. split_and!; done.
  - left. apply cached_lookup; [apply moved_NoDup|]. left. exists n.
    split; [|done]. by eapply list_elem_of_lookup_2.
Qed.

Lemma emptied_closed : closed (cmap emptied).
Proof.
  intros h x Hx. apply cached_lookup in Hx as [(n & Hn & <- & <-)|[_ Hx]]; [..|apply moved_NoDup].
  - pose proof moved_completed as Hc. rewrite Forall_forall in Hc. destruct (Hc n Hn) as [Hd Hlinks].
    apply list_elem_of_lookup in Hn as [i Hi].
    eapply Eval_mono; [|eapply (inv_consistent _ _ _ HI (length (ns c0) + i) n)]; [|..|done].
    2: { rewrite Hns. by rewrite lookup_app_r, Nat.add_comm, Nat.add_sub by lia. }
    intros h' x' Hr. pose proof Hr as Hr'. apply emptied_reads in Hr as [?|(j & n' & Hj & _ & _ & Hl & _)];
      [done|]. exfalso. apply lookup_lt_Some in Hj. change (ns emptied) with (ns c0) in Hj. unfold vec_len in *. lia.
  - eapply Eval_mono; [|by eapply (inv_closed _ _ _ HI)].
    intros h' x' Hx'. by eapply lookup_weaken, cached_weaken.
Qed.

Lemma emptied_inv : Inv None coind emptied.
Proof.
  assert (∀ i n, ns emptied !! i = Some n → ns cf !! i = Some n) as Hsub.
  { intros i n Hi. rewrite Hns. by apply lookup_app_l_Some. }
  split.
  - pose proof (SearchGraph.retain_wf (search_graph cf) (vec_len (ns c0)) (inv_graph _ _ _ HI)) as Hwf.
    change (SearchGraph.nodes (search_graph cf)) with (ns cf) in Hwf. rewrite Hns in Hwf.
    unfold vec_len in Hwf at 2. by rewrite Nat2N.id, take_app_length in Hwf.
  - simpl. eauto.
  - intros i n Hi. destruct (cmap emptied !! _) as [x|] eqn:Hx; [|done].
    pose proof (Hsub _ _ Hi) as Hi'.
    apply cached_lookup in Hx as [(n' & Hn' & Hg & _)|[_ Hx]]; [..|apply moved_NoDup].
    + apply list_elem_of_lookup in Hn' as [j Hj]. exfalso.
      assert (i = length (ns c0) + j); [|apply lookup_lt_Some in Hi; change (ns emptied) with (ns c0) in Hi; lia].
      eapply (SearchGraph.wf_NoDup (search_graph cf)); [apply HI|exact Hi'| |done].
      change (SearchGraph.nodes (search_graph cf)) with (ns cf). rewrite Hns.
      by rewrite lookup_app_r, Nat.add_comm, Nat.add_sub by lia.
    + by rewrite (inv_disjoint _ _ _ HI _ _ Hi') in Hx.
  - intros i n d Hi. by apply (inv_depth _ _ _ HI), Hsub.
  - intros i j n n' d Hi Hj. apply (inv_depth_inj _ _ _ HI); by apply Hsub.
  - intros i n _ Hi. apply (inv_links _ _ _ HI); [|by apply Hsub].
    intros [= Hlen]. apply lookup_lt_Some in Hi. change (ns emptied) with (ns c0) in Hi. lia.
  - intros i n Hi Hd. eapply Eval_mono; [|eapply (inv_consistent _ _ _ HI); [by apply Hsub|done]].
    intros h x. apply emptied_reads.
  - apply emptied_closed.
  - apply HI.
Qed.

Lemma emptied_below ρ :
  Below ρ cf → Below ρ c0 → Below ρ emptied.
Proof.
  intros [HBc HBn HBp] [_ HBn0 HBp0]. split; [|done..].
  intros h x Hx. apply cached_lookup in Hx as [(n & Hn & <- & <-)|[_ Hx]]; [..|apply moved_NoDup].
  - apply list_elem_of_lookup in Hn as [i Hi]. apply (HBn (length (ns c0) + i)). rewrite Hns.
    by rewrite lookup_app_r, Nat.add_comm, Nat.add_sub by lia.
  - by apply HBc.
Qed.

End Finish.

Lemma pop_ok (e1 : list Stack.StackEntry) e d od :
  d = vec_len e1 →
  Stack.pop (E:=Empty_set) (Stack.MkStack (e1 ++ [e]) od) d = Val (Stack.MkStack e1 od).
Proof.
  intros ->. unfold Stack.pop. simpl. rewrite vec_len_app.
  change (vec_len [e]) with 1%N. rewrite N.eqb_refl. simpl.
  do 2 f_equal. rewrite length_app. simpl. by rewrite Nat.add_sub, take_app_length.
Qed.

Lemma move_to_cache_ok (cf : ctx) (l moved : list Node) (c : gmap K V) :
  ns cf = l ++ moved → Forall (completed_from (vec_len l)) moved →
  SearchGraph.move_to_cache (E:=Empty_set) (search_graph cf) (vec_len l) c =
    Val (SearchGraph.MkSearchGraph
           (SearchGraph.retain_below (SearchGraph.indices (search_graph cf)) (vec_len l)) l,
         cached c moved).
Proof.
  intros Hns Hmoved. unfold SearchGraph.move_to_cache, vec_from.
  change (SearchGraph.nodes (search_graph cf)) with (ns cf). rewrite Hns, vec_len_app.
  replace (vec_len l <=? vec_len l + vec_len moved)%N with true by (symmetry; apply N.leb_le; lia).
  simpl. rewrite to_nat_vec_len, drop_app_length, take_app_length.
  assert (SearchGraph.cache_nodes (E:=Empty_set) (vec_len l) moved c = Val (cached c moved)) as ->
    by by apply SearchGraph.cache_nodes_Val.
  done.
Qed.

Lemma finish_subgoal_spec c0 g c m m' c' fuel bound :
  Inv None coind c0 →
  (∀ ρ, Below ρ c0 → eval ρ (solve_iteration g) ⊑ ρ g ∧ Below ρ c) →
  LoopDone c0 g c (m', c') →
  outcome_spec (finish_subgoal (vec_len (ns c0)) (vec_len (es c0)) m' m c') fuel bound
    (Post m c0 (reads_goal g)).
Proof.
  intros HI0 HB0 [(e1 & v & new & He & Hx & Hns & Hnew & HI & HB) Hod Hc]. simpl in *.
  unfold finish_subgoal.
  erewrite index_mut_middle; [|exact Hns|done]. simpl.
  destruct (stack c') as [ent od] eqn:Hst. unfold es in He. rewrite Hst in He. simpl in He. subst ent.
  rewrite pop_ok by by apply entries_ext_length. simpl.
  erewrite index_middle; [|simpl; reflexivity|done]. simpl.
  unfold rebuilt in HI, HB. rewrite Hst in HI, HB. simpl in HI, HB.
  unfold SearchGraph.set_stack_depth, SearchGraph.set_links. simpl.
  match type of HI with Inv _ _ ?cf0 => set (cf := cf0) in * end.
  assert (ns cf = ns c0 ++ SearchGraph.MkNode g v None m' :: new) as Hnf by done.
  destruct (N.leb_spec (vec_len (ns c0)) (positive m')) as [Hm|Hm].
  - destruct (inv_cached _ _ _ HI) as [k Hk]. change (cache cf) with (cache c') in Hk. rewrite Hk.
    erewrite (move_to_cache_ok cf); [|done|by apply moved_completed]. simpl.
    assert (k = cmap cf) as -> by (unfold cmap; change (cache cf) with (cache c'); by rewrite Hk).
    pose proof (emptied_inv HI Hnf Hnew Hm) as HIe.
    split; simpl; [|exact HIe|lia| |].
    + split; [done|done| |].
      * exists []. rewrite app_nil_r. split; [done|constructor].
      * etrans; [exact Hc|]. by apply (cached_weaken HI Hnf).
    + left. enough (cached (cmap cf) (SearchGraph.MkNode g v None m' :: new) !! g = Some v) as Hin
        by exact Hin.
      apply cached_lookup; [by apply (moved_NoDup HI Hnf)|]. left.
      exists (SearchGraph.MkNode g v None m'). split; [left|done].
    + intros ρ HBρ. destruct (HB0 ρ HBρ) as [Hρ HBc].
      enough (Below ρ (emptied (cf:=cf) (c0:=c0) (g:=g) (v:=v) (m:=m') (new:=new))) by done.
      apply emptied_below; auto.
  - split; simpl; [|by eapply finish_keep_inv|lia| |].
    + split; [done|done| |done]. eexists. split; [exact Hnf|].
      constructor; [split; simpl; [done|lia]|]. eapply Forall_impl; [exact Hnew|].
      intros n. apply completed_from_weaken. simpl. lia.
    + right. exists (length (ns c0)), (SearchGraph.MkNode g v None m').
      change (ns (with_graph _ _)) with (ns cf). rewrite Hnf, list_lookup_middle by done.
      split_and!; try done. simpl. unfold vec_len in Hm. lia.
    + intros ρ HBρ. destruct (HB0 ρ HBρ) as [Hρ HBc]. by apply HB.
Qed.

Lemma goal_step fuel : loop_ok fuel → goal_ok (S fuel).
Proof.
  intros Hloop g m c HI. simpl solve_goal.
  destruct (inv_cached _ _ _ HI) as [k Hk]. rewrite Hk. simpl. unfold Cache.get.
  destruct (k !! g) as [v|] eqn:Hc.
  { apply solve_cached_spec; [done|]. unfold cmap. by rewrite Hk. }
  destruct (SearchGraph.lookup (search_graph c) g) as [d|] eqn:Hl; [by apply solve_in_graph_spec|].
  unfold Stack.push. fold (es c).
  destruct (N.leb_spec (Stack.overflow_depth (stack c)) (vec_len (es c))) as [|Hod]; [by left|].
  unfold vec_push. destruct (vec_len (es c) <? isize_MAX)%N eqn:Hcap; [|by right]. simpl.
  unfold SearchGraph.insert, vec_push. fold (ns c).
  destruct (vec_len (ns c) <? isize_MAX)%N eqn:Hcap'; [|by right]. simpl.
  unfold SearchGraph.lookup in Hl. rewrite Hl. simpl.
  rewrite (law_kind g).
  assert (cmap c !! g = None) as Hcm by (unfold cmap; by rewrite Hk).
  eapply outcome_spec_bind.
  { eapply outcome_spec_weaken.
    - exact (Hloop c g _ _ (entered_loop c g HI Hcm Hl)).
    - unfold needed, entered, es. simpl. rewrite length_app. simpl. fold (es c).
      unfold vec_len in Hod. intros Hlt.
      destruct (N.to_nat (Stack.overflow_depth (stack c)) - length (es c)) as [|n] eqn:Hn; [lia|].
      replace (N.to_nat (Stack.overflow_depth (stack c)) - (length (es c) + 1)) with n in Hlt by lia.
      lia.
    - intros r Hr. exact Hr. }
  intros [m' c'] Hdone. eapply finish_subgoal_spec; [done| |exact Hdone].
  intros ρ HB. by apply entered_below.
Qed.

Lemma engine_ok fuel : goal_ok fuel ∧ loop_ok fuel.
Proof.
  induction fuel as [|fuel [IHg IHl]].
  - split.
    + intros g m c _. apply Nat.lt_0_succ.
    + intros c0 g s c _. apply Nat.lt_0_succ.
  - split; [by apply goal_step | by apply loop_step].
Qed.

End Spec.
