(* ===== verification/FixedPointThm.v ===== *)
(** What the recursive solver's engine computes: the least solution of the
    goals, in every state it leaves behind; and what mixed cycles do to it. *)

From S2P Require Import Prelude.
From S2P Require Import RecStack.
From S2P Require Import SearchGraph.
From S2P Require Import FixedPoint.
From S2P Require Import FixedPointInv.
From S2P Require Import FixedPointSpec.

Import FixedPoint.

Section Least.
Context {K V : Type} `{Countable K} `{SolverStuff K V} `{SqSubsetEq V}.

(** [μ] is the least assignment closed under the iterations. *)
Definition least_solution (μ : K → V) : Prop :=
  (∀ g, eval μ (solve_iteration g) ⊑ μ g) ∧
  (∀ ρ, (∀ g, eval ρ (solve_iteration g) ⊑ ρ g) → ∀ g, μ g ⊑ ρ g).

(** A solver between two queries: nothing on the stack or in the graph, and a
    cache of answers that are final. *)
Record idle (μ : K → V) (c : RecursiveContext K V) : Prop := {
  idle_stack : es c = [];
  idle_graph : search_graph c = SearchGraph.new;
  idle_cached : is_Some (cache c);
  idle_closed : closed (cmap c);
  idle_least g v : cmap c !! g = Some v → v = μ g;
}.

Lemma idle_new μ depth size : idle μ (new depth size (Some ∅)).
Proof. split; simpl; [done..| |]; intros g v Hg; unfold cmap in Hg; simpl in Hg; set_solver. Qed.

Context {coind : bool} `{!SolverLaws coind}.

Lemma idle_inv μ c : idle μ c → Inv None coind c.
Proof.
  intros [Hs Hg Hc Hcl _]. split; unfold ns; rewrite ?Hs, ?Hg; simpl; try done.
  apply SearchGraph.wf_new.
Qed.

(** A closed cache below the least solution holds only its values. *)
Lemma closed_least μ (c : gmap K V) g v :
  least_solution μ → closed c → (∀ h x, c !! h = Some x → x ⊑ μ h) →
  c !! g = Some v → v = μ g.
Proof.
  intros [Hpre Hleast] Hc Hbelow Hg. apply (anti_symm (⊑)); [by apply Hbelow|].
  set (ρ h := default (μ h) (c !! h)).
  assert (∀ h, ρ h ⊑ μ h) as Hρ.
  { intros h. unfold ρ. destruct (c !! h) eqn:Hh; simpl; [by apply Hbelow|done]. }
  assert (ρ g = v) as <- by (unfold ρ; by rewrite Hg).
  apply Hleast. intros h. destruct (c !! h) as [x|] eqn:Hh.
  - pose proof (Hc h x Hh) as HE. erewrite Eval_eval; [|clear HE|exact HE].
    + unfold ρ. by rewrite Hh.
    + intros h' x' Hx'. unfold ρ. by rewrite Hx'.
  - unfold ρ at 2. rewrite Hh. simpl. etrans; [|apply Hpre]. by apply law_mono.
Qed.

(** A state reached from an idle one by a completed query is idle. *)
Lemma idle_after μ c c' m :
  least_solution μ → idle μ c → Ext m c c' → Inv None coind c' →
  (∀ ρ, Below ρ c → Below ρ c') → idle μ c'.
Proof.
  intros Hμ Hidle [He _ (new & Hns & Hnew) _] HI HB.
  rewrite (idle_stack _ _ Hidle) in He. apply Forall2_nil_inv_l in He.
  unfold ns in Hns at 2. rewrite (idle_graph _ _ Hidle) in Hns. simpl in Hns.
  assert (ns c' = []) as Hnil.
  { destruct (ns c') as [|n l] eqn:Hn; [done|]. subst new. apply Forall_cons in Hnew as [[Hd _] _].
    assert (ns c' !! 0 = Some n) as H0n by (by rewrite Hn).
    by apply (inv_links _ _ _ HI) in H0n; [lia| |]. }
  split; [done| |apply HI|apply HI|].
  - pose proof (inv_graph _ _ _ HI) as Hwf. unfold ns in Hnil.
    destruct (search_graph c') as [idx l]. simpl in Hnil. subst l. unfold SearchGraph.new. f_equal.
    apply map_empty. intros g. destruct (idx !! g) as [d|] eqn:Hg; [|done].
    apply Hwf in Hg as (n & Hn & _). done.
  - intros g v Hg. eapply closed_least; [done|apply (inv_closed _ _ _ HI)| |done].
    apply below_cache, HB. destruct Hμ as [Hpre _]. split.
    + intros h x Hx. by rewrite (idle_least _ _ Hidle _ _ Hx).
    + intros i n Hi. unfold ns in Hi. by rewrite (idle_graph _ _ Hidle) in Hi.
    + intros h _. apply Hpre.
Qed.

Context {top : K → V} {rank : V → nat} {height : nat} `{!FiniteHeight top rank height}.

(** C1. Queries to an idle solver with a cache return the least solution of
    their goal, and leave the solver idle: with enough fuel the engine neither
    diverges nor fails an assertion, an index or an [unwrap], and stops short of
    an answer only when its stack or a vector is full.  The solver follows
    [SolverLaws] and [FiniteHeight]: its goals are all inductive or all coinductive
    (for mixed cycles see [Mixed]), its iterations make tracked calls only and are
    monotone for a partial order, with the initial value of a goal below what its
    iteration returns, [reached_fixed_point] is equality, and the answers have bounded
    height. *)
Theorem solve_root_goal_least μ g c fuel :
  least_solution μ → idle μ c →
  needed (height := height) c ≤ fuel →
  match solve_root_goal fuel g c with
  | Val (v, c') => v = μ g ∧ idle μ c' ∧ cmap c ⊆ cmap c' ∧ cmap c' !! g = Some v
  | Panic p => resource_panic p
  | Exn _ | OutOfFuel => False
  end.
Proof.
  intros Hμ Hidle Hfuel. unfold solve_root_goal, Stack.is_empty.
  fold (es c). rewrite (idle_stack _ _ Hidle). simpl.
  pose proof (proj1 (engine_ok fuel) g Minimums.new c (idle_inv _ _ Hidle)) as Hok.
  destruct (solve_goal fuel g Minimums.new c) as [[[v m] c']| | |]; simpl in *; [|done..|lia].
  destruct Hok as [HE HI _ Hv HB]; simpl in *.
  assert (idle μ c') as Hidle' by by eapply idle_after.
  split_and!; [|done|apply HE|].
  - destruct Hv as [Hv|(i & n & Hi & _)]; [by eapply idle_least|].
    unfold ns in Hi. by rewrite (idle_graph _ _ Hidle') in Hi.
  - destruct Hv as [Hv|(i & n & Hi & _)]; [done|].
    unfold ns in Hi. by rewrite (idle_graph _ _ Hidle') in Hi.
Qed.

End Least.

(** * Propositional Horn programs as an instance

    The goals of a program are numbers, the answers are booleans, and an
    iteration tries the clauses of its goal in turn. *)
Module Horn.

Fixpoint all_of (body : list nat) (ok : Iteration nat bool) (fail : Iteration nat bool) :
    Iteration nat bool :=
  match body with
  | [] => ok
  | g :: body => IterSolve true g (λ v, if (v : bool) then all_of body ok fail else fail)
  end.

Fixpoint any_of (clauses : list (list nat)) : Iteration nat bool :=
  match clauses with
  | [] => IterRet false
  | body :: rest => all_of body (IterRet true) (any_of rest)
  end.

Definition stuff (program : nat → list (list nat)) (coinductive : nat → bool) :
    SolverStuff nat bool := {|
  is_coinductive_goal := coinductive;
  initial_value _ coinductive_goal := coinductive_goal;
  solve_iteration g := any_of (program g);
  reached_fixed_point := Bool.eqb;
  error_value := false;
|}.

Lemma eval_all_of `{SolverStuff nat bool} ρ body ok fail :
  eval ρ (all_of body ok fail) =
    if forallb ρ body then eval ρ ok else eval ρ fail.
Proof. induction body as [|g body IH]; simpl; [done|]. by destruct (ρ g). Qed.

Lemma eval_any_of `{SolverStuff nat bool} ρ clauses : eval ρ (any_of clauses) = existsb (forallb ρ) clauses.
Proof.
  induction clauses as [|body rest IH]; simpl; [done|]. rewrite eval_all_of, IH.
  by destruct (forallb ρ body).
Qed.

Lemma tracked_all_of body ok fail :
  all_tracked ok → all_tracked fail → all_tracked (all_of body ok fail).
Proof. intros. induction body as [|g body IH]; simpl; [done|]. split; [done|]. by intros []. Qed.

Lemma tracked_any_of clauses : all_tracked (any_of clauses).
Proof. induction clauses; simpl; [done|]. by apply tracked_all_of. Qed.

(** [false] below [true]. *)
#[local] Instance bool_sqsubseteq : SqSubsetEq bool := λ a b, a = true → b = true.

Lemma forallb_mono (ρ ρ' : nat → bool) body :
  (∀ h, ρ h ⊑ ρ' h) → forallb ρ body = true → forallb ρ' body = true.
Proof.
  intros Hρ. rewrite !List.forallb_forall. intros Hb g Hg. by apply Hρ, Hb.
Qed.

#[local] Instance horn_laws program :
  SolverLaws (H0 := stuff program (λ _, false)) false.
Proof.
  split; simpl.
  - split; [split|].
    + intros b Hb. exact Hb.
    + intros a b c Hab Hbc Ha. exact (Hbc (Hab Ha)).
    + intros [] [] Hab Hba; try done; [symmetry; by apply Hab | by apply Hba].
  - done.
  - intros g. apply tracked_any_of.
  - intros ρ ρ' g Hρ. unfold sqsubseteq, bool_sqsubseteq. rewrite !eval_any_of.
    rewrite !existsb_exists. intros (body & Hin & Hb). exists body. split; [done|].
    by eapply forallb_mono.
  - intros ρ g. intros [=].
  - intros a b. apply Bool.eqb_true_iff.
Qed.

#[local] Instance horn_height program :
  FiniteHeight (H0 := stuff program (λ _, false)) (λ _, true) (λ b : bool, if b then 1 else 0) 1.
Proof.
  split; simpl.
  - done.
  - intros [] [] Hab Hne; try done; [by specialize (Hab eq_refl)|]. lia.
  - intros ρ g. case_match; lia.
Qed.

(** [0 :- 1.  1 :- 0.  1 :- 2, 0.  2.  3 :- 4.  4 :- 3.] with a cycle through
    [0] and [1] that has no base, and [2] true. *)
Definition program (g : nat) : list (list nat) :=
  match g with
  | 0 => [[1]]
  | 1 => [[0]; [2; 5]]
  | 2 => [[]]
  | 3 => [[4]]
  | 4 => [[3]]
  | 5 => [[0]; [2]]
  | _ => []
  end.

Definition model (g : nat) : bool :=
  match g with 0 | 1 | 2 | 5 => true | _ => false end.

Lemma model_least : least_solution (H0 := stuff program (λ _, false)) model.
Proof.
  split.
  - intros g. simpl. rewrite eval_any_of.
    destruct g as [|[|[|[|[|[|g]]]]]]; simpl; done.
  - intros ρ Hρ g. simpl in Hρ.
    assert (ρ 2 = true) as H2 by (by apply (Hρ 2)).
    assert (ρ 5 = true) as H5
      by (apply (Hρ 5); rewrite eval_any_of; simpl; rewrite H2; by destruct (ρ 0)).
    assert (ρ 1 = true) as H1
      by (apply (Hρ 1); rewrite eval_any_of; simpl; rewrite H2, H5; by destruct (ρ 0)).
    assert (ρ 0 = true) as H0 by (apply (Hρ 0); rewrite eval_any_of; simpl; by rewrite H1).
    intros Hg. destruct g as [|[|[|[|[|[|g]]]]]]; done.
Qed.

#[local] Instance example_stuff : SolverStuff nat bool := stuff program (λ _, false).
Definition fresh : RecursiveContext nat bool := new 20 1000 (Some ∅).

(** The cyclic program is solved: goal [0] holds. *)
Lemma solve_root_goal_least_witness :
  match solve_root_goal 200 0 fresh with
  | Val (v, c') => v = true ∧ cmap c' !! 0 = Some true
  | _ => False
  end.
Proof.
  pose proof (@solve_root_goal_least nat bool _ _ example_stuff _ false
    (horn_laws program) _ _ 1 (horn_height program) model 0 fresh 200
    model_least (idle_new _ 20 1000)) as Hok.
  specialize (Hok ltac:(apply Nat.leb_le; vm_compute; reflexivity)).
  assert (match solve_root_goal 200 0 fresh with
    | Val _ => true | _ => false end = true) as Hval by (vm_compute; reflexivity).
  destruct (solve_root_goal 200 0 fresh) as [[v c']| | |]; [|done..].
  destruct Hok as (-> & _ & _ & Hc). split; [done|exact Hc].
Defined.

End Horn.

(** * Mixed cycles

    Goal [0] is coinductive: [0 :- 1] or [2].  Goal [1] is inductive: [1 :- 0].
    Goal [2] holds. *)
Module Mixed.

Definition program (g : nat) : list (list nat) :=
  match g with
  | 0 => [[1]; [2]]
  | 1 => [[0]]
  | 2 => [[]]
  | _ => []
  end.

Definition stuff : SolverStuff nat bool := Horn.stuff program (λ g, g =? 0).
#[local] Existing Instance stuff.

Definition fresh : RecursiveContext nat bool := new 20 1000 (Some ∅).

Definition answer (r : outcome Empty_set (bool * RecursiveContext nat bool)) : option bool :=
  match r with Val (v, _) => Some v | _ => None end.

(** The answer to a goal on a mixed inductive and coinductive cycle depends
    on what was asked before: [1] holds when it is the first query, and not when
    [0] was solved first, since the error that ends the mixed cycle below [0]
    leaves no trace in the [Minimums] of [1], which is then cached as final. *)
Theorem mixed_cycle_answer_depends_on_history :
  answer (solve_root_goal 100 1 fresh) = Some true ∧
  answer ('(_, c) ← solve_root_goal 100 0 fresh; solve_root_goal 100 1 c) = Some false.
Proof. vm_compute. done. Qed.

End Mixed.
