(* ===== verification/Ir.v ===== *)
(** * The intermediate representation ([chalk-ir/src/lib.rs])

    The data types of the logic (types, lifetimes, constants, generic
    arguments, where clauses, goals, program clauses) and the operations on
    variables, universes and variances.  The interner is [ChalkIr], whose
    identifiers are numbers; interned values are their data.  De Bruijn depths,
    indices, universe counters and inference variables are [nat]. *)

From stdpp Require Import base list numbers.
From S2P Require Import Prelude.

(** [Err(NoSolution)] is the only error of [Fallible]. *)
Inductive NoSolution := mkNoSolution.
#[global] Instance NoSolution_eq_dec : EqDecision NoSolution.
Proof. solve_decision. Defined.

Abbreviation Fallible := (outcome NoSolution).

(** ** Variance *)

Inductive Variance := Covariant | Invariant | Contravariant.
#[global] Instance Variance_eq_dec : EqDecision Variance.
Proof. solve_decision. Defined.

Definition xform (self other : Variance) : Variance :=
  match self, other with
  | Invariant, _ => Invariant
  | _, Invariant => Invariant
  | _, Covariant => self
  | Covariant, Contravariant => Contravariant
  | Contravariant, Contravariant => Covariant
  end.

Definition invert_variance (self : Variance) : Variance :=
  match self with
  | Invariant => Invariant
  | Covariant => Contravariant
  | Contravariant => Covariant
  end.

(** ** Scalars and the other leaves of types *)

Inductive IntTy := Isize | I8 | I16 | I32 | I64 | I128.
Inductive UintTy := Usize | U8 | U16 | U32 | U64 | U128.
Inductive FloatTy := F32 | F64.
Inductive Scalar := ScBool | ScChar | ScInt (i : IntTy) | ScUint (u : UintTy) | ScFloat (f : FloatTy).
Inductive Safety := Safe | Unsafe.
Inductive Mutability := Mut | Not.
Inductive TyVariableKind := General | Integer | Float.
Inductive QuantifierKind := ForAll | Exists.
Inductive ClausePriority := High | Low.

#[global] Instance IntTy_eq_dec : EqDecision IntTy. Proof. solve_decision. Defined.
#[global] Instance UintTy_eq_dec : EqDecision UintTy. Proof. solve_decision. Defined.
#[global] Instance FloatTy_eq_dec : EqDecision FloatTy. Proof. solve_decision. Defined.
#[global] Instance Scalar_eq_dec : EqDecision Scalar. Proof. solve_decision. Defined.
#[global] Instance Safety_eq_dec : EqDecision Safety. Proof. solve_decision. Defined.
#[global] Instance Mutability_eq_dec : EqDecision Mutability. Proof. solve_decision. Defined.
#[global] Instance TyVariableKind_eq_dec : EqDecision TyVariableKind. Proof. solve_decision. Defined.
#[global] Instance QuantifierKind_eq_dec : EqDecision QuantifierKind. Proof. solve_decision. Defined.
#[global] Instance ClausePriority_eq_dec : EqDecision ClausePriority. Proof. solve_decision. Defined.

Definition priority_bitand (self rhs : ClausePriority) : ClausePriority :=
  match self, rhs with
  | High, High => High
  | _, _ => Low
  end.

(** Identifiers of [ChalkIr]: [RawId { index: u32 }]. *)
Abbreviation AdtId := N (only parsing).
Abbreviation TraitId := N (only parsing).
Abbreviation AssocTypeId := N (only parsing).
Abbreviation OpaqueTyId := N (only parsing).
Abbreviation FnDefId := N (only parsing).
Abbreviation ClosureId := N (only parsing).
Abbreviation GeneratorId := N (only parsing).
Abbreviation ForeignDefId := N (only parsing).

Inductive ChalkFnAbi := AbiRust | AbiC.
#[global] Instance ChalkFnAbi_eq_dec : EqDecision ChalkFnAbi. Proof. solve_decision. Defined.

Record FnSig := mkFnSig { abi : ChalkFnAbi; safety : Safety; variadic : bool }.
#[global] Instance FnSig_eq_dec : EqDecision FnSig. Proof. solve_decision. Defined.

(** ** Universes *)

Record UniverseIndex := mkUniverse { counter : nat }.
#[global] Instance UniverseIndex_eq_dec : EqDecision UniverseIndex. Proof. solve_decision. Defined.

Definition universe_root : UniverseIndex := mkUniverse 0.
Definition can_see (self ui : UniverseIndex) : bool := ui.(counter) <=? self.(counter).
Definition universe_next (self : UniverseIndex) : UniverseIndex := mkUniverse (self.(counter) + 1).
Definition universe_lt (a b : UniverseIndex) : bool := a.(counter) <? b.(counter).
Definition universe_min (a b : UniverseIndex) : UniverseIndex := mkUniverse (Nat.min a.(counter) b.(counter)).
Definition universe_max (a b : UniverseIndex) : UniverseIndex := mkUniverse (Nat.max a.(counter) b.(counter)).

(** ** Bound variables *)

Abbreviation DebruijnIndex := nat (only parsing).
Definition INNERMOST : DebruijnIndex := 0.
Definition ONE : DebruijnIndex := 1.

Definition within (self outer_binder : DebruijnIndex) : bool := self <? outer_binder.
Definition debruijn_shifted_in_from (self outer_binder : DebruijnIndex) : DebruijnIndex :=
  self + outer_binder.
Definition debruijn_shifted_in (self : DebruijnIndex) : DebruijnIndex :=
  debruijn_shifted_in_from self ONE.
Definition debruijn_shifted_out_to (self outer_binder : DebruijnIndex) : option DebruijnIndex :=
  if within self outer_binder then None else Some (self - outer_binder).
Definition debruijn_shifted_out (self : DebruijnIndex) : option DebruijnIndex :=
  debruijn_shifted_out_to self ONE.

Record BoundVar := mkBoundVar { debruijn : DebruijnIndex; index : nat }.
#[global] Instance BoundVar_eq_dec : EqDecision BoundVar. Proof. solve_decision. Defined.

Definition bound_within (self : BoundVar) (outer_binder : DebruijnIndex) : bool :=
  within self.(debruijn) outer_binder.
Definition shifted_in_from (self : BoundVar) (outer_binder : DebruijnIndex) : BoundVar :=
  mkBoundVar (debruijn_shifted_in_from self.(debruijn) outer_binder) self.(index).
Definition shifted_in (self : BoundVar) : BoundVar :=
  mkBoundVar (debruijn_shifted_in self.(debruijn)) self.(index).
Definition shifted_out_to (self : BoundVar) (outer_binder : DebruijnIndex) : option BoundVar :=
  (λ db, mkBoundVar db self.(index)) <$> debruijn_shifted_out_to self.(debruijn) outer_binder.
Definition shifted_out (self : BoundVar) : option BoundVar :=
  (λ db, mkBoundVar db self.(index)) <$> debruijn_shifted_out self.(debruijn).
Definition index_if_bound_at (self : BoundVar) (d : DebruijnIndex) : option nat :=
  if decide (self.(debruijn) = d) then Some self.(index) else None.
Definition index_if_innermost (self : BoundVar) : option nat :=
  index_if_bound_at self INNERMOST.

(** ** Placeholders, inference variables, lifetimes *)

Abbreviation InferenceVar := nat (only parsing).

Record PlaceholderIndex := mkPlaceholder { ui : UniverseIndex; idx : nat }.
#[global] Instance PlaceholderIndex_eq_dec : EqDecision PlaceholderIndex. Proof. solve_decision. Defined.

Inductive Lifetime :=
  | LtBoundVar (bv : BoundVar)
  | LtInferenceVar (v : InferenceVar)
  | LtPlaceholder (p : PlaceholderIndex)
  | LtStatic
  | LtEmpty (u : UniverseIndex)
  | LtErased.
#[global] Instance Lifetime_eq_dec : EqDecision Lifetime. Proof. solve_decision. Defined.

Inductive ConstValue :=
  | CvBoundVar (bv : BoundVar)
  | CvInferenceVar (v : InferenceVar)
  | CvPlaceholder (p : PlaceholderIndex)
  | CvConcrete (c : N).
#[global] Instance ConstValue_eq_dec : EqDecision ConstValue. Proof. solve_decision. Defined.

(** ** Types

    The structs that occur inside the mutual definition are records over the
    types of their fields. *)

Record BindersOf (V T : Type) := mkBinders { binders : list V; value : T }.
Arguments mkBinders {V T} _ _.
Arguments binders {V T} _.
Arguments value {V T} _.

Record TraitRefOf (A : Type) := mkTraitRef { trait_id : TraitId; substitution : list A }.
Arguments mkTraitRef {A} _ _.
Arguments trait_id {A} _.
Arguments substitution {A} _.

Inductive Ty :=
  | TyAdt (id : AdtId) (s : list GenericArg)
  | TyAssociatedType (id : AssocTypeId) (s : list GenericArg)
  | TyScalar (s : Scalar)
  | TyTuple (arity : nat) (s : list GenericArg)
  | TyArray (ty : Ty) (c : Const)
  | TySlice (ty : Ty)
  | TyRaw (m : Mutability) (ty : Ty)
  | TyRef (m : Mutability) (l : Lifetime) (ty : Ty)
  | TyOpaqueType (id : OpaqueTyId) (s : list GenericArg)
  | TyFnDef (id : FnDefId) (s : list GenericArg)
  | TyStr
  | TyNever
  | TyClosure (id : ClosureId) (s : list GenericArg)
  | TyGenerator (id : GeneratorId) (s : list GenericArg)
  | TyGeneratorWitness (id : GeneratorId) (s : list GenericArg)
  | TyForeign (id : ForeignDefId)
  | TyError
  | TyPlaceholder (p : PlaceholderIndex)
  | TyDyn (bounds : BindersOf VariableKind (list (BindersOf VariableKind WhereClause)))
          (lifetime : Lifetime)
  | TyAlias (a : AliasTy)
  | TyFunction (num_binders : nat) (sig : FnSig) (s : list GenericArg)
  | TyBoundVar (bv : BoundVar)
  | TyInferenceVar (v : InferenceVar) (k : TyVariableKind)
with Const := mkConst (ty : Ty) (value : ConstValue)
with GenericArg :=
  | ArgTy (ty : Ty)
  | ArgLifetime (l : Lifetime)
  | ArgConst (c : Const)
with VariableKind :=
  | VkTy (k : TyVariableKind)
  | VkLifetime
  | VkConst (ty : Ty)
with AliasTy :=
  | AliasProjection (associated_ty_id : AssocTypeId) (s : list GenericArg)
  | AliasOpaque (opaque_ty_id : OpaqueTyId) (s : list GenericArg)
with WhereClause :=
  | WcImplemented (tr : TraitRefOf GenericArg)
  | WcAliasEq (alias : AliasTy) (ty : Ty)
  | WcLifetimeOutlives (a b : Lifetime)
  | WcTypeOutlives (ty : Ty) (lifetime : Lifetime).

Abbreviation Substitution := (list GenericArg).
Abbreviation VariableKinds := (list VariableKind).
Abbreviation Binders := (BindersOf VariableKind).
Abbreviation TraitRef := (TraitRefOf GenericArg).
Abbreviation QuantifiedWhereClause := (Binders WhereClause).

Definition const_ty (c : Const) : Ty := let 'mkConst ty _ := c in ty.
Definition const_value (c : Const) : ConstValue := let 'mkConst _ v := c in v.

(** Equality of terms: [#[derive(PartialEq)]]. *)

#[global] Instance BindersOf_eq_dec {V T} `{EqDecision V, EqDecision T} : EqDecision (BindersOf V T).
Proof. solve_decision. Defined.
#[global] Instance TraitRefOf_eq_dec {A} `{EqDecision A} : EqDecision (TraitRefOf A).
Proof. solve_decision. Defined.

Fixpoint Ty_eq (x y : Ty) {struct x} : Decision (x = y)
with Const_eq (x y : Const) {struct x} : Decision (x = y)
with GenericArg_eq (x y : GenericArg) {struct x} : Decision (x = y)
with VariableKind_eq (x y : VariableKind) {struct x} : Decision (x = y)
with AliasTy_eq (x y : AliasTy) {struct x} : Decision (x = y)
with WhereClause_eq (x y : WhereClause) {struct x} : Decision (x = y).
Proof.
  all: pose proof (@list_eq_dec _ GenericArg_eq) as subst_eq.
  all: pose proof (@TraitRefOf_eq_dec _ GenericArg_eq) as trait_ref_eq.
  all: pose proof (@BindersOf_eq_dec _ _ VariableKind_eq WhereClause_eq) as qwc_eq.
  all: pose proof (@BindersOf_eq_dec _ _ VariableKind_eq (@list_eq_dec _ qwc_eq)) as bounds_eq.
  all: unfold Decision, EqDecision in *.
  all: decide equality; solve [auto | apply (decide (_ = _))].
Defined.
#[global] Instance Ty_eq_dec : EqDecision Ty := Ty_eq.
#[global] Instance Const_eq_dec : EqDecision Const := Const_eq.
#[global] Instance GenericArg_eq_dec : EqDecision GenericArg := GenericArg_eq.
#[global] Instance VariableKind_eq_dec : EqDecision VariableKind := VariableKind_eq.
#[global] Instance AliasTy_eq_dec : EqDecision AliasTy := AliasTy_eq.
#[global] Instance WhereClause_eq_dec : EqDecision WhereClause := WhereClause_eq.

(** ** Goals and clauses *)

Inductive WellFormed := WfTrait (tr : TraitRef) | WfTy (ty : Ty).
#[global] Instance WellFormed_eq_dec : EqDecision WellFormed. Proof. solve_decision. Defined.
Inductive FromEnv := FeTrait (tr : TraitRef) | FeTy (ty : Ty).
#[global] Instance FromEnv_eq_dec : EqDecision FromEnv. Proof. solve_decision. Defined.

Inductive DomainGoal :=
  | DgHolds (wc : WhereClause)
  | DgWellFormed (wf : WellFormed)
  | DgFromEnv (fe : FromEnv)
  | DgNormalize (alias : AliasTy) (ty : Ty)
  | DgIsLocal (ty : Ty)
  | DgIsUpstream (ty : Ty)
  | DgIsFullyVisible (ty : Ty)
  | DgLocalImplAllowed (tr : TraitRef)
  | DgCompatible
  | DgDownstreamType (ty : Ty)
  | DgReveal
  | DgObjectSafe (id : TraitId).
#[global] Instance DomainGoal_eq_dec : EqDecision DomainGoal. Proof. solve_decision. Defined.

Inductive Constraint :=
  | CtLifetimeOutlives (a b : Lifetime)
  | CtTypeOutlives (ty : Ty) (lifetime : Lifetime).
#[global] Instance Constraint_eq_dec : EqDecision Constraint. Proof. solve_decision. Defined.

(** [InEnvironment { environment: Environment { clauses }, goal }]. *)
Record InEnvironmentOf (C G : Type) := mkInEnvironment { environment : list C; env_goal : G }.
Arguments mkInEnvironment {C G} _ _.
Arguments environment {C G} _.
Arguments env_goal {C G} _.
#[global] Instance InEnvironmentOf_eq_dec {C G} `{EqDecision C, EqDecision G} :
  EqDecision (InEnvironmentOf C G).
Proof. solve_decision. Defined.

(** [ProgramClauseImplication], over the types of clauses and goals. *)
Record ImplicationOf (C G : Type) := mkImplication {
  consequence : DomainGoal;
  conditions : list G;
  constraints : list (InEnvironmentOf C Constraint);
  priority : ClausePriority }.
Arguments mkImplication {C G} _ _ _ _.
Arguments consequence {C G} _.
Arguments conditions {C G} _.
Arguments constraints {C G} _.
Arguments priority {C G} _.
#[global] Instance ImplicationOf_eq_dec {C G} `{EqDecision C, EqDecision G} :
  EqDecision (ImplicationOf C G).
Proof. solve_decision. Defined.

Inductive Goal :=
  | GQuantified (k : QuantifierKind) (subgoal : Binders Goal)
  | GImplies (hypotheses : list ProgramClause) (g : Goal)
  | GAll (gs : list Goal)
  | GNot (g : Goal)
  | GEqGoal (a b : GenericArg)
  | GSubtypeGoal (a b : Ty)
  | GDomainGoal (dg : DomainGoal)
  | GCannotProve
with ProgramClause := mkProgramClause (data : Binders (ImplicationOf ProgramClause Goal)).

Abbreviation ProgramClauses := (list ProgramClause).
Abbreviation Environment := (list ProgramClause) (only parsing).
Abbreviation InEnvironment := (InEnvironmentOf ProgramClause).
Abbreviation ProgramClauseImplication := (ImplicationOf ProgramClause Goal).
Abbreviation Constraints := (list (InEnvironment Constraint)).

Definition clause_data (c : ProgramClause) : Binders ProgramClauseImplication :=
  let 'mkProgramClause d := c in d.

Fixpoint Goal_eq (x y : Goal) {struct x} : Decision (x = y)
with ProgramClause_eq (x y : ProgramClause) {struct x} : Decision (x = y).
Proof.
  all: pose proof (@list_eq_dec _ Goal_eq) as goals_eq.
  all: pose proof (@list_eq_dec _ ProgramClause_eq) as clauses_eq.
  all: pose proof (@BindersOf_eq_dec _ _ VariableKind_eq Goal_eq) as bgoal_eq.
  all: pose proof (@BindersOf_eq_dec _ _ VariableKind_eq
         (@ImplicationOf_eq_dec _ _ ProgramClause_eq Goal_eq)) as data_eq.
  all: unfold Decision, EqDecision in *.
  all: decide equality; solve [auto | apply (decide (_ = _))].
Defined.
#[global] Instance Goal_eq_dec : EqDecision Goal := Goal_eq.
#[global] Instance ProgramClause_eq_dec : EqDecision ProgramClause := ProgramClause_eq.

(** ** Canonical values and answers *)

Record WithKind (T : Type) := mkWithKind { kind : VariableKind; kvalue : T }.
Arguments mkWithKind {T} _ _.
Arguments kind {T} _.
Arguments kvalue {T} _.
#[global] Instance WithKind_eq_dec {T} `{EqDecision T} : EqDecision (WithKind T).
Proof. solve_decision. Defined.

Abbreviation CanonicalVarKind := (WithKind UniverseIndex).

Record Canonical (T : Type) := mkCanonical { cvalue : T; cbinders : list CanonicalVarKind }.
Arguments mkCanonical {T} _ _.
Arguments cvalue {T} _.
Arguments cbinders {T} _.
#[global] Instance Canonical_eq_dec {T} `{EqDecision T} : EqDecision (Canonical T).
Proof. solve_decision. Defined.

Record UCanonical (T : Type) := mkUCanonical { canonical : Canonical T; universes : nat }.
Arguments mkUCanonical {T} _ _.
Arguments canonical {T} _.
Arguments universes {T} _.
#[global] Instance UCanonical_eq_dec {T} `{EqDecision T} : EqDecision (UCanonical T).
Proof. solve_decision. Defined.

Record ConstrainedSubst := mkConstrainedSubst { csubst : Substitution; cconstraints : Constraints }.
#[global] Instance ConstrainedSubst_eq_dec : EqDecision ConstrainedSubst. Proof. solve_decision. Defined.

Record AnswerSubst := mkAnswerSubst {
  asubst : Substitution; aconstraints : Constraints; delayed_subgoals : list (InEnvironment Goal) }.
#[global] Instance AnswerSubst_eq_dec : EqDecision AnswerSubst. Proof. solve_decision. Defined.

(** ** Induction on terms

    The kinds of bound variables ([VariableKind]) are not traversed by folds
    and visits, so the principle has no case for them. *)

Section TermInd.
Context (PT : Ty → Prop) (PC : Const → Prop) (PA : GenericArg → Prop)
  (PL : AliasTy → Prop) (PW : WhereClause → Prop).

Record TermCases : Prop := {
  case_Adt id s : Forall PA s → PT (TyAdt id s);
  case_AssociatedType id s : Forall PA s → PT (TyAssociatedType id s);
  case_Scalar s : PT (TyScalar s);
  case_Tuple n s : Forall PA s → PT (TyTuple n s);
  case_Array t c : PT t → PC c → PT (TyArray t c);
  case_Slice t : PT t → PT (TySlice t);
  case_Raw m t : PT t → PT (TyRaw m t);
  case_Ref m l t : PT t → PT (TyRef m l t);
  case_OpaqueType id s : Forall PA s → PT (TyOpaqueType id s);
  case_FnDef id s : Forall PA s → PT (TyFnDef id s);
  case_Str : PT TyStr;
  case_Never : PT TyNever;
  case_Closure id s : Forall PA s → PT (TyClosure id s);
  case_Generator id s : Forall PA s → PT (TyGenerator id s);
  case_GeneratorWitness id s : Forall PA s → PT (TyGeneratorWitness id s);
  case_Foreign id : PT (TyForeign id);
  case_Error : PT TyError;
  case_Placeholder p : PT (TyPlaceholder p);
  case_Dyn k bs l :
    Forall (λ b : QuantifiedWhereClause, PW b.(value)) bs → PT (TyDyn (mkBinders k bs) l);
  case_Alias a : PL a → PT (TyAlias a);
  case_Function n f s : Forall PA s → PT (TyFunction n f s);
  case_BoundVar bv : PT (TyBoundVar bv);
  case_InferenceVar v k : PT (TyInferenceVar v k);
  case_Const t v : PT t → PC (mkConst t v);
  case_ArgTy t : PT t → PA (ArgTy t);
  case_ArgLifetime l : PA (ArgLifetime l);
  case_ArgConst c : PC c → PA (ArgConst c);
  case_Projection id s : Forall PA s → PL (AliasProjection id s);
  case_Opaque id s : Forall PA s → PL (AliasOpaque id s);
  case_Implemented id s : Forall PA s → PW (WcImplemented (mkTraitRef id s));
  case_AliasEq a t : PL a → PT t → PW (WcAliasEq a t);
  case_LifetimeOutlives a b : PW (WcLifetimeOutlives a b);
  case_TypeOutlives t l : PT t → PW (WcTypeOutlives t l)
}.

Context (H : TermCases).

Ltac term_case := first [ apply (case_Adt H)
  | apply (case_AssociatedType H)
  | apply (case_Scalar H)
  | apply (case_Tuple H)
  | apply (case_Array H)
  | apply (case_Slice H)
  | apply (case_Raw H)
  | apply (case_Ref H)
  | apply (case_OpaqueType H)
  | apply (case_FnDef H)
  | apply (case_Str H)
  | apply (case_Never H)
  | apply (case_Closure H)
  | apply (case_Generator H)
  | apply (case_GeneratorWitness H)
  | apply (case_Foreign H)
  | apply (case_Error H)
  | apply (case_Placeholder H)
  | apply (case_Dyn H)
  | apply (case_Alias H)
  | apply (case_Function H)
  | apply (case_BoundVar H)
  | apply (case_InferenceVar H)
  | apply (case_Const H)
  | apply (case_ArgTy H)
  | apply (case_ArgLifetime H)
  | apply (case_ArgConst H)
  | apply (case_Projection H)
  | apply (case_Opaque H)
  | apply (case_Implemented H)
  | apply (case_AliasEq H)
  | apply (case_LifetimeOutlives H)
  | apply (case_TypeOutlives H) ].

Fixpoint term_ty_ind (t : Ty) : PT t
with term_const_ind (c : Const) : PC c
with term_arg_ind (a : GenericArg) : PA a
with term_alias_ind (a : AliasTy) : PL a
with term_where_ind (w : WhereClause) : PW w.
Proof.
  all: pose (fix go (s : list GenericArg) : Forall PA s :=
    match s with
    | [] => Forall_nil_2 _
    | x :: s => Forall_cons_2 _ x s (term_arg_ind x) (go s)
    end) as subst_ind.
  all: pose (fix go (bs : list QuantifiedWhereClause) : Forall (λ b, PW b.(value)) bs :=
    match bs with
    | [] => Forall_nil_2 _
    | mkBinders k w :: bs => Forall_cons_2 _ (mkBinders k w) bs (term_where_ind w) (go bs)
    end) as bounds_ind.
  - destruct t as [| | | | | | | | | | | | | | | | | |[k bs] l| | | |]; term_case;
      first [apply subst_ind|apply bounds_ind|apply term_ty_ind|apply term_const_ind|apply term_alias_ind].
  - destruct c; term_case; apply term_ty_ind.
  - destruct a; term_case; first [apply term_ty_ind|apply term_const_ind].
  - destruct a; term_case; apply subst_ind.
  - destruct w as [[]| | |]; term_case;
      first [apply subst_ind|apply term_alias_ind|apply term_ty_ind].
Qed.

Lemma term_ind :
  (∀ t, PT t) ∧ (∀ c, PC c) ∧ (∀ a, PA a) ∧ (∀ a, PL a) ∧ (∀ w, PW w).
Proof.
  split_and!; [apply term_ty_ind|apply term_const_ind|apply term_arg_ind|
    apply term_alias_ind|apply term_where_ind].
Qed.
End TermInd.

Section GoalInd.
Context (PG : Goal → Prop) (PP : ProgramClause → Prop).
Abbreviation PE := (λ e : InEnvironment Constraint, Forall PP e.(environment)).

Record GoalCases : Prop := {
  case_Quantified q k g : PG g → PG (GQuantified q (mkBinders k g));
  case_Implies h g : Forall PP h → PG g → PG (GImplies h g);
  case_All gs : Forall PG gs → PG (GAll gs);
  case_Not g : PG g → PG (GNot g);
  case_EqGoal a b : PG (GEqGoal a b);
  case_SubtypeGoal a b : PG (GSubtypeGoal a b);
  case_DomainGoal dg : PG (GDomainGoal dg);
  case_CannotProve : PG GCannotProve;
  case_ProgramClause k dg gs cs p :
    Forall PG gs → Forall PE cs →
    PP (mkProgramClause (mkBinders k (mkImplication dg gs cs p)))
}.

Context (H : GoalCases).

Fixpoint goal_ind_ (g : Goal) : PG g
with clause_ind_ (c : ProgramClause) : PP c.
Proof.
  all: pose (fix go (s : list Goal) : Forall PG s :=
    match s with
    | [] => Forall_nil_2 _
    | x :: s => Forall_cons_2 _ x s (goal_ind_ x) (go s)
    end) as goals_ind.
  all: pose (fix go (s : list ProgramClause) : Forall PP s :=
    match s with
    | [] => Forall_nil_2 _
    | x :: s => Forall_cons_2 _ x s (clause_ind_ x) (go s)
    end) as clauses_ind.
  all: pose (fix go (cs : Constraints) : Forall PE cs :=
    match cs with
    | [] => Forall_nil_2 _
    | mkInEnvironment e c :: cs =>
        Forall_cons_2 _ (mkInEnvironment e c) cs (clauses_ind e) (go cs)
    end) as constraints_ind.
  - destruct g as [q [k g]| | | | | | |].
    + apply (case_Quantified H), goal_ind_.
    + apply (case_Implies H); [apply clauses_ind|apply goal_ind_].
    + apply (case_All H), goals_ind.
    + apply (case_Not H), goal_ind_.
    + apply (case_EqGoal H).
    + apply (case_SubtypeGoal H).
    + apply (case_DomainGoal H).
    + apply (case_CannotProve H).
  - destruct c as [[k [dg gs cs p]]].
    apply (case_ProgramClause H); [apply goals_ind|apply constraints_ind].
Qed.

Lemma goal_ind : (∀ g, PG g) ∧ (∀ c, PP c).
Proof. split; [apply goal_ind_|apply clause_ind_]. Qed.
End GoalInd.
