(* ===== verification/Fold.v ===== *)
(** * Folding ([chalk-ir/src/fold.rs], [fold/binder_impls.rs], [fold/boring_impls.rs])

    A [Folder] is the record of the callbacks of the trait; [fold_ty] and the
    other functions are the [super_fold_with] traversals, in any monad.  A
    callback for a constant receives the type of the constant and the fold of
    that type ([ty.fold_with(self, outer_binder)]), which the default callbacks
    run and which most implementations leave out. *)

From stdpp Require Import base list numbers.
From S2P Require Import Prelude Ir.

(** ** The monads of the folders *)

Class MPanic (M : Type → Type) := mpanic : ∀ {A}, panic → M A.
#[global] Hint Mode MPanic ! : typeclass_instances.
#[global] Instance outcome_panic E : MPanic (outcome E) := λ A p, Panic p.

(** A folder with a mutable state [S]: the state after an [Err] is not
    observed by the code. *)
Definition ST (S : Type) (A : Type) : Type := S → Fallible (A * S).
#[global] Instance ST_ret S : MRet (ST S) := λ A a s, Val (a, s).
#[global] Instance ST_bind S : MBind (ST S) := λ A B f m s,
  match m s with
  | Val (a, s') => f a s'
  | Exn e => Exn e
  | Panic p => Panic p
  | OutOfFuel => OutOfFuel
  end.
#[global] Instance ST_panic S : MPanic (ST S) := λ A p s, Panic p.
Definition st_lift {S A} (m : Fallible A) : ST S A := λ s, a ← m; Val (a, s).
Definition st_err {S A} : ST S A := λ s, Exn mkNoSolution.
Definition st_get {S} : ST S S := λ s, Val (s, s).
Definition st_set {S} (s : S) : ST S unit := λ _, Val (tt, s).

Lemma ST_bind_Val {S A B} (m : ST S A) (f : A → ST S B) s r :
  (m ≫= f) s = Val r ↔ ∃ a s', m s = Val (a, s') ∧ f a s' = Val r.
Proof.
  unfold mbind, ST_bind. split.
  - destruct (m s) as [[a s']| | |]; naive_solver.
  - intros (a & s' & -> & ?). done.
Qed.

(** ** Folders *)

Section Folder.
Context {M : Type → Type} `{MRet M, MBind M, MPanic M}.

Record Folder := {
  fold_free_var_ty : BoundVar → DebruijnIndex → M Ty;
  fold_free_var_lifetime : BoundVar → DebruijnIndex → M Lifetime;
  fold_free_var_const : Ty → M Ty → BoundVar → DebruijnIndex → M Const;
  fold_free_placeholder_ty : PlaceholderIndex → DebruijnIndex → M Ty;
  fold_free_placeholder_lifetime : PlaceholderIndex → DebruijnIndex → M Lifetime;
  fold_free_placeholder_const : Ty → M Ty → PlaceholderIndex → DebruijnIndex → M Const;
  fold_inference_ty : InferenceVar → TyVariableKind → DebruijnIndex → M Ty;
  fold_inference_lifetime : InferenceVar → DebruijnIndex → M Lifetime;
  fold_inference_const : Ty → M Ty → InferenceVar → DebruijnIndex → M Const;
  (** The override of [fold_lifetime], given [super_fold_with]. *)
  override_fold_lifetime :
    (Lifetime → DebruijnIndex → M Lifetime) → Lifetime → DebruijnIndex → M Lifetime
}.

(** *** The default methods of the trait *)

Definition default_fold_free_var_ty (forbid_free_vars : bool)
    (bound_var : BoundVar) (outer_binder : DebruijnIndex) : M Ty :=
  if forbid_free_vars then mpanic PExplicit
  else mret (TyBoundVar (shifted_in_from bound_var outer_binder)).

Definition default_fold_free_var_lifetime (forbid_free_vars : bool)
    (bound_var : BoundVar) (outer_binder : DebruijnIndex) : M Lifetime :=
  if forbid_free_vars then mpanic PExplicit
  else mret (LtBoundVar (shifted_in_from bound_var outer_binder)).

Definition default_fold_free_var_const (forbid_free_vars : bool)
    (ty : Ty) (fold_ty : M Ty) (bound_var : BoundVar) (outer_binder : DebruijnIndex) : M Const :=
  if forbid_free_vars then mpanic PExplicit
  else
    ty ← fold_ty;
    mret (mkConst ty (CvBoundVar (shifted_in_from bound_var outer_binder))).

Definition default_fold_free_placeholder_ty (forbid_free_placeholders : bool)
    (universe : PlaceholderIndex) (outer_binder : DebruijnIndex) : M Ty :=
  if forbid_free_placeholders then mpanic PExplicit else mret (TyPlaceholder universe).

Definition default_fold_free_placeholder_lifetime (forbid_free_placeholders : bool)
    (universe : PlaceholderIndex) (outer_binder : DebruijnIndex) : M Lifetime :=
  if forbid_free_placeholders then mpanic PExplicit else mret (LtPlaceholder universe).

Definition default_fold_free_placeholder_const (forbid_free_placeholders : bool)
    (ty : Ty) (fold_ty : M Ty) (universe : PlaceholderIndex) (outer_binder : DebruijnIndex) : M Const :=
  if forbid_free_placeholders then mpanic PExplicit
  else
    ty ← fold_ty;
    mret (mkConst ty (CvPlaceholder universe)).

Definition default_fold_inference_ty (forbid_inference_vars : bool)
    (var : InferenceVar) (kind : TyVariableKind) (outer_binder : DebruijnIndex) : M Ty :=
  if forbid_inference_vars then mpanic PExplicit else mret (TyInferenceVar var kind).

Definition default_fold_inference_lifetime (forbid_inference_vars : bool)
    (var : InferenceVar) (outer_binder : DebruijnIndex) : M Lifetime :=
  if forbid_inference_vars then mpanic PExplicit else mret (LtInferenceVar var).

Definition default_fold_inference_const (forbid_inference_vars : bool)
    (ty : Ty) (fold_ty : M Ty) (var : InferenceVar) (outer_binder : DebruijnIndex) : M Const :=
  if forbid_inference_vars then mpanic PExplicit
  else
    ty ← fold_ty;
    mret (mkConst ty (CvInferenceVar var)).

Definition default_fold_lifetime (super : Lifetime → DebruijnIndex → M Lifetime) :
  Lifetime → DebruijnIndex → M Lifetime := super.

(** *** [super_fold_with] *)

Context (folder : Folder).

Definition super_fold_lifetime (lifetime : Lifetime) (outer_binder : DebruijnIndex) : M Lifetime :=
  match lifetime with
  | LtBoundVar bound_var =>
      match shifted_out_to bound_var outer_binder with
      | Some bound_var1 => folder.(fold_free_var_lifetime) bound_var1 outer_binder
      | None => mret lifetime
      end
  | LtInferenceVar var => folder.(fold_inference_lifetime) var outer_binder
  | LtPlaceholder universe => folder.(fold_free_placeholder_lifetime) universe outer_binder
  | LtStatic => mret LtStatic
  | LtEmpty ui => mret (LtEmpty ui)
  | LtErased => mret LtErased
  end.

Definition fold_lifetime : Lifetime → DebruijnIndex → M Lifetime :=
  folder.(override_fold_lifetime) super_fold_lifetime.

Fixpoint fold_ty (ty : Ty) (outer_binder : DebruijnIndex) : M Ty :=
  let fold_subst s d := mapM (λ p, fold_arg p d) s in
  match ty with
  | TyBoundVar bound_var =>
      match shifted_out_to bound_var outer_binder with
      | Some bound_var1 => folder.(fold_free_var_ty) bound_var1 outer_binder
      | None => mret ty
      end
  | TyDyn bounds lifetime =>
      let d1 := debruijn_shifted_in outer_binder in
      qwcs ← mapM (λ qwc : QuantifiedWhereClause,
                wc ← fold_where qwc.(value) (debruijn_shifted_in d1);
                mret (mkBinders qwc.(binders) wc)) bounds.(value);
      l ← fold_lifetime lifetime outer_binder;
      mret (TyDyn (mkBinders bounds.(binders) qwcs) l)
  | TyInferenceVar var kind => folder.(fold_inference_ty) var kind outer_binder
  | TyPlaceholder ui => folder.(fold_free_placeholder_ty) ui outer_binder
  | TyAlias proj => a ← fold_alias proj outer_binder; mret (TyAlias a)
  | TyFunction num_binders sig s =>
      s ← fold_subst s (debruijn_shifted_in outer_binder);
      mret (TyFunction num_binders sig s)
  | TyAdt id s => s ← fold_subst s outer_binder; mret (TyAdt id s)
  | TyAssociatedType id s => s ← fold_subst s outer_binder; mret (TyAssociatedType id s)
  | TyScalar s => mret (TyScalar s)
  | TyStr => mret TyStr
  | TyTuple arity s => s ← fold_subst s outer_binder; mret (TyTuple arity s)
  | TyOpaqueType id s => s ← fold_subst s outer_binder; mret (TyOpaqueType id s)
  | TySlice t => t ← fold_ty t outer_binder; mret (TySlice t)
  | TyFnDef id s => s ← fold_subst s outer_binder; mret (TyFnDef id s)
  | TyRef m l t =>
      l ← fold_lifetime l outer_binder;
      t ← fold_ty t outer_binder;
      mret (TyRef m l t)
  | TyRaw m t => t ← fold_ty t outer_binder; mret (TyRaw m t)
  | TyNever => mret TyNever
  | TyArray t c =>
      t ← fold_ty t outer_binder;
      c ← fold_const c outer_binder;
      mret (TyArray t c)
  | TyClosure id s => s ← fold_subst s outer_binder; mret (TyClosure id s)
  | TyGenerator id s => s ← fold_subst s outer_binder; mret (TyGenerator id s)
  | TyGeneratorWitness id s => s ← fold_subst s outer_binder; mret (TyGeneratorWitness id s)
  | TyForeign id => mret (TyForeign id)
  | TyError => mret TyError
  end
with fold_const (constant : Const) (outer_binder : DebruijnIndex) : M Const :=
  let 'mkConst ty value := constant in
  match value with
  | CvBoundVar bound_var =>
      match shifted_out_to bound_var outer_binder with
      | Some bound_var1 =>
          folder.(fold_free_var_const) ty (fold_ty ty outer_binder) bound_var1 outer_binder
      | None => mret (mkConst ty value)
      end
  | CvInferenceVar var =>
      folder.(fold_inference_const) ty (fold_ty ty outer_binder) var outer_binder
  | CvPlaceholder universe =>
      folder.(fold_free_placeholder_const) ty (fold_ty ty outer_binder) universe outer_binder
  | CvConcrete ev => t ← fold_ty ty outer_binder; mret (mkConst t (CvConcrete ev))
  end
with fold_arg (arg : GenericArg) (outer_binder : DebruijnIndex) : M GenericArg :=
  match arg with
  | ArgTy t => t ← fold_ty t outer_binder; mret (ArgTy t)
  | ArgLifetime l => l ← fold_lifetime l outer_binder; mret (ArgLifetime l)
  | ArgConst c => c ← fold_const c outer_binder; mret (ArgConst c)
  end
with fold_alias (alias : AliasTy) (outer_binder : DebruijnIndex) : M AliasTy :=
  match alias with
  | AliasProjection id s =>
      s ← mapM (λ p, fold_arg p outer_binder) s; mret (AliasProjection id s)
  | AliasOpaque id s =>
      s ← mapM (λ p, fold_arg p outer_binder) s; mret (AliasOpaque id s)
  end
with fold_where (wc : WhereClause) (outer_binder : DebruijnIndex) : M WhereClause :=
  match wc with
  | WcImplemented tr =>
      s ← mapM (λ p, fold_arg p outer_binder) tr.(substitution);
      mret (WcImplemented (mkTraitRef tr.(trait_id) s))
  | WcAliasEq alias ty =>
      a ← fold_alias alias outer_binder;
      t ← fold_ty ty outer_binder;
      mret (WcAliasEq a t)
  | WcLifetimeOutlives a b =>
      a ← fold_lifetime a outer_binder;
      b ← fold_lifetime b outer_binder;
      mret (WcLifetimeOutlives a b)
  | WcTypeOutlives ty lifetime =>
      t ← fold_ty ty outer_binder;
      l ← fold_lifetime lifetime outer_binder;
      mret (WcTypeOutlives t l)
  end.

Definition fold_trait_ref (tr : TraitRef) (outer_binder : DebruijnIndex) : M TraitRef :=
  s ← mapM (λ p, fold_arg p outer_binder) tr.(substitution);
  mret (mkTraitRef tr.(trait_id) s).

Definition fold_binders {T} (fold : T → DebruijnIndex → M T) (b : Binders T)
    (outer_binder : DebruijnIndex) : M (Binders T) :=
  v ← fold b.(value) (debruijn_shifted_in outer_binder);
  mret (mkBinders b.(binders) v).

Definition fold_canonical {T} (fold : T → DebruijnIndex → M T) (c : Canonical T)
    (outer_binder : DebruijnIndex) : M (Canonical T) :=
  v ← fold c.(cvalue) (debruijn_shifted_in outer_binder);
  mret (mkCanonical v c.(cbinders)).

Definition fold_domain_goal (dg : DomainGoal) (outer_binder : DebruijnIndex) : M DomainGoal :=
  match dg with
  | DgHolds wc => wc ← fold_where wc outer_binder; mret (DgHolds wc)
  | DgWellFormed (WfTrait tr) =>
      tr ← fold_trait_ref tr outer_binder; mret (DgWellFormed (WfTrait tr))
  | DgWellFormed (WfTy t) => t ← fold_ty t outer_binder; mret (DgWellFormed (WfTy t))
  | DgFromEnv (FeTrait tr) =>
      tr ← fold_trait_ref tr outer_binder; mret (DgFromEnv (FeTrait tr))
  | DgFromEnv (FeTy t) => t ← fold_ty t outer_binder; mret (DgFromEnv (FeTy t))
  | DgNormalize alias ty =>
      a ← fold_alias alias outer_binder;
      t ← fold_ty ty outer_binder;
      mret (DgNormalize a t)
  | DgIsLocal t => t ← fold_ty t outer_binder; mret (DgIsLocal t)
  | DgIsUpstream t => t ← fold_ty t outer_binder; mret (DgIsUpstream t)
  | DgIsFullyVisible t => t ← fold_ty t outer_binder; mret (DgIsFullyVisible t)
  | DgLocalImplAllowed tr => tr ← fold_trait_ref tr outer_binder; mret (DgLocalImplAllowed tr)
  | DgCompatible => mret DgCompatible
  | DgDownstreamType t => t ← fold_ty t outer_binder; mret (DgDownstreamType t)
  | DgReveal => mret DgReveal
  | DgObjectSafe id => mret (DgObjectSafe id)
  end.

Definition fold_constraint (c : Constraint) (outer_binder : DebruijnIndex) : M Constraint :=
  match c with
  | CtLifetimeOutlives a b =>
      a ← fold_lifetime a outer_binder;
      b ← fold_lifetime b outer_binder;
      mret (CtLifetimeOutlives a b)
  | CtTypeOutlives ty lifetime =>
      t ← fold_ty ty outer_binder;
      l ← fold_lifetime lifetime outer_binder;
      mret (CtTypeOutlives t l)
  end.

Fixpoint fold_goal (goal : Goal) (outer_binder : DebruijnIndex) : M Goal :=
  match goal with
  | GQuantified kind subgoal =>
      g ← fold_goal subgoal.(value) (debruijn_shifted_in outer_binder);
      mret (GQuantified kind (mkBinders subgoal.(binders) g))
  | GImplies hypotheses g =>
      h ← mapM (λ c, fold_program_clause c outer_binder) hypotheses;
      g ← fold_goal g outer_binder;
      mret (GImplies h g)
  | GAll gs => gs ← mapM (λ g, fold_goal g outer_binder) gs; mret (GAll gs)
  | GNot g => g ← fold_goal g outer_binder; mret (GNot g)
  | GEqGoal a b =>
      a ← fold_arg a outer_binder;
      b ← fold_arg b outer_binder;
      mret (GEqGoal a b)
  | GSubtypeGoal a b =>
      a ← fold_ty a outer_binder;
      b ← fold_ty b outer_binder;
      mret (GSubtypeGoal a b)
  | GDomainGoal dg => dg ← fold_domain_goal dg outer_binder; mret (GDomainGoal dg)
  | GCannotProve => mret GCannotProve
  end
with fold_program_clause (clause : ProgramClause) (outer_binder : DebruijnIndex) : M ProgramClause :=
  let 'mkProgramClause b := clause in
  let d := debruijn_shifted_in outer_binder in
  dg ← fold_domain_goal b.(value).(consequence) d;
  gs ← mapM (λ g, fold_goal g d) b.(value).(conditions);
  cs ← mapM (λ c : InEnvironment Constraint,
          e ← mapM (λ c, fold_program_clause c d) c.(environment);
          g ← fold_constraint c.(env_goal) d;
          mret (mkInEnvironment e g)) b.(value).(constraints);
  mret (mkProgramClause (mkBinders b.(binders) (mkImplication dg gs cs b.(value).(priority)))).

Definition fold_in_environment {T} (fold : T → DebruijnIndex → M T) (c : InEnvironment T)
    (outer_binder : DebruijnIndex) : M (InEnvironment T) :=
  e ← mapM (λ c, fold_program_clause c outer_binder) c.(environment);
  g ← fold c.(env_goal) outer_binder;
  mret (mkInEnvironment e g).
End Folder.
#[global] Arguments Folder M : clear implicits.

(** ** The trait [Fold] *)

Class Fold (T : Type) := fold_with :
  ∀ {M : Type → Type} `{MRet M, MBind M}, Folder M → T → DebruijnIndex → M T.
#[global] Hint Mode Fold ! : typeclass_instances.

#[global] Instance Fold_Ty : Fold Ty := λ _ _ _, fold_ty.
#[global] Instance Fold_Lifetime : Fold Lifetime := λ _ _ _, fold_lifetime.
#[global] Instance Fold_Const : Fold Const := λ _ _ _, fold_const.
#[global] Instance Fold_GenericArg : Fold GenericArg := λ _ _ _, fold_arg.
#[global] Instance Fold_AliasTy : Fold AliasTy := λ _ _ _, fold_alias.
#[global] Instance Fold_WhereClause : Fold WhereClause := λ _ _ _, fold_where.
#[global] Instance Fold_TraitRef : Fold TraitRef := λ _ _ _, fold_trait_ref.
#[global] Instance Fold_DomainGoal : Fold DomainGoal := λ _ _ _, fold_domain_goal.
#[global] Instance Fold_Constraint : Fold Constraint := λ _ _ _, fold_constraint.
#[global] Instance Fold_Goal : Fold Goal := λ _ _ _, fold_goal.
#[global] Instance Fold_ProgramClause : Fold ProgramClause := λ _ _ _, fold_program_clause.
#[global] Instance Fold_list {T} `{Fold T} : Fold (list T) :=
  λ _ _ _ F l d, mapM (λ x, fold_with F x d) l.
#[global] Instance Fold_Binders {T} `{Fold T} : Fold (Binders T) :=
  λ _ _ _ F, fold_binders (fold_with F).
#[global] Instance Fold_Canonical {T} `{Fold T} : Fold (Canonical T) :=
  λ _ _ _ F, fold_canonical (fold_with F).
#[global] Instance Fold_InEnvironment {T} `{Fold T} : Fold (InEnvironment T) :=
  λ _ _ _ F, fold_in_environment F (fold_with F).
#[global] Instance Fold_prod {A B} `{Fold A, Fold B} : Fold (A * B) :=
  λ _ _ _ F p d, a ← fold_with F p.1 d; b ← fold_with F p.2 d; mret (a, b).
#[global] Instance Fold_ProgramClauseImplication : Fold ProgramClauseImplication :=
  λ _ _ _ F i d,
    dg ← fold_domain_goal F i.(consequence) d;
    gs ← fold_with F i.(conditions) d;
    cs ← fold_with F i.(constraints) d;
    mret (mkImplication dg gs cs i.(priority)).
#[global] Instance Fold_ConstrainedSubst : Fold ConstrainedSubst :=
  λ _ _ _ F c d,
    s ← fold_with F c.(csubst) d;
    cs ← fold_with F c.(cconstraints) d;
    mret (mkConstrainedSubst s cs).
#[global] Instance Fold_AnswerSubst : Fold AnswerSubst :=
  λ _ _ _ F c d,
    s ← fold_with F c.(asubst) d;
    cs ← fold_with F c.(aconstraints) d;
    ds ← fold_with F c.(delayed_subgoals) d;
    mret (mkAnswerSubst s cs ds).
