(* ===== verification/FoldLaws.v ===== *)
(** * A relational principle for folds

    The traversals of [Fold.v] run a folder's callbacks on the leaves of a
    term (variables, placeholders, lifetimes, constants) and rebuild the term.
    [FoldLaws] states once what this gives: if every callback relates its leaf
    to its result by a family of relations that the constructors of terms
    preserve, then so does the fold.  The program logic of the monad is a
    weakest precondition [wp], so that the principle covers pure and stateful
    folders, and both partial and total correctness. *)

From stdpp Require Import base list numbers.
From S2P Require Import Prelude Ir Fold.

(** ** Leaves *)

Inductive Leaf :=
  | LeafTyVar (bv : BoundVar) (d : nat)
  | LeafLtVar (bv : BoundVar) (d : nat)
  | LeafCtVar (ty : Ty) (bv : BoundVar) (d : nat)
  | LeafTyInfer (v : InferenceVar) (k : TyVariableKind)
  | LeafLtInfer (v : InferenceVar)
  | LeafCtInfer (ty : Ty) (v : InferenceVar)
  | LeafTyPlaceholder (p : PlaceholderIndex)
  | LeafLtPlaceholder (p : PlaceholderIndex)
  | LeafCtPlaceholder (ty : Ty) (p : PlaceholderIndex)
  | LeafEmpty (u : UniverseIndex).

Definition leaves_lifetime (l : Lifetime) (d : nat) : list Leaf :=
  match l with
  | LtBoundVar bv => [LeafLtVar bv d]
  | LtInferenceVar v => [LeafLtInfer v]
  | LtPlaceholder p => [LeafLtPlaceholder p]
  | LtEmpty u => [LeafEmpty u]
  | LtStatic | LtErased => []
  end.

Definition leaves_const_value (ty : Ty) (v : ConstValue) (d : nat) : list Leaf :=
  match v with
  | CvBoundVar bv => [LeafCtVar ty bv d]
  | CvInferenceVar v => [LeafCtInfer ty v]
  | CvPlaceholder p => [LeafCtPlaceholder ty p]
  | CvConcrete _ => []
  end.

Fixpoint leaves_ty (t : Ty) (d : nat) : list Leaf :=
  match t with
  | TyBoundVar bv => [LeafTyVar bv d]
  | TyInferenceVar v k => [LeafTyInfer v k]
  | TyPlaceholder p => [LeafTyPlaceholder p]
  | TyAdt _ s | TyAssociatedType _ s | TyTuple _ s | TyOpaqueType _ s | TyFnDef _ s
  | TyClosure _ s | TyGenerator _ s | TyGeneratorWitness _ s => s ≫= λ a, leaves_arg a d
  | TyFunction _ _ s => s ≫= λ a, leaves_arg a (S d)
  | TyArray t c => leaves_ty t d ++ leaves_const c d
  | TySlice t | TyRaw _ t => leaves_ty t d
  | TyRef _ l t => leaves_lifetime l d ++ leaves_ty t d
  | TyDyn bs l =>
      (bs.(value) ≫= λ b : QuantifiedWhereClause, leaves_where b.(value) (S (S d)))
        ++ leaves_lifetime l d
  | TyAlias a => leaves_alias a d
  | TyScalar _ | TyStr | TyNever | TyForeign _ | TyError => []
  end
with leaves_const (c : Const) (d : nat) : list Leaf :=
  let 'mkConst t v := c in leaves_ty t d ++ leaves_const_value t v d
with leaves_arg (a : GenericArg) (d : nat) : list Leaf :=
  match a with
  | ArgTy t => leaves_ty t d
  | ArgLifetime l => leaves_lifetime l d
  | ArgConst c => leaves_const c d
  end
with leaves_alias (a : AliasTy) (d : nat) : list Leaf :=
  match a with
  | AliasProjection _ s | AliasOpaque _ s => s ≫= λ a, leaves_arg a d
  end
with leaves_where (w : WhereClause) (d : nat) : list Leaf :=
  match w with
  | WcImplemented tr => tr.(substitution) ≫= λ a, leaves_arg a d
  | WcAliasEq a t => leaves_alias a d ++ leaves_ty t d
  | WcLifetimeOutlives a b => leaves_lifetime a d ++ leaves_lifetime b d
  | WcTypeOutlives t l => leaves_ty t d ++ leaves_lifetime l d
  end.

Definition leaves_domain_goal (dg : DomainGoal) (d : nat) : list Leaf :=
  match dg with
  | DgHolds wc => leaves_where wc d
  | DgWellFormed (WfTrait tr) | DgFromEnv (FeTrait tr) | DgLocalImplAllowed tr =>
      tr.(substitution) ≫= λ a, leaves_arg a d
  | DgWellFormed (WfTy t) | DgFromEnv (FeTy t) | DgIsLocal t | DgIsUpstream t
  | DgIsFullyVisible t | DgDownstreamType t => leaves_ty t d
  | DgNormalize a t => leaves_alias a d ++ leaves_ty t d
  | DgCompatible | DgReveal | DgObjectSafe _ => []
  end.

Definition leaves_constraint (c : Constraint) (d : nat) : list Leaf :=
  match c with
  | CtLifetimeOutlives a b => leaves_lifetime a d ++ leaves_lifetime b d
  | CtTypeOutlives t l => leaves_ty t d ++ leaves_lifetime l d
  end.

Fixpoint leaves_goal (g : Goal) (d : nat) : list Leaf :=
  match g with
  | GQuantified _ b => leaves_goal b.(value) (S d)
  | GImplies h g => (h ≫= λ c, leaves_clause c d) ++ leaves_goal g d
  | GAll gs => gs ≫= λ g, leaves_goal g d
  | GNot g => leaves_goal g d
  | GEqGoal a b => leaves_arg a d ++ leaves_arg b d
  | GSubtypeGoal a b => leaves_ty a d ++ leaves_ty b d
  | GDomainGoal dg => leaves_domain_goal dg d
  | GCannotProve => []
  end
with leaves_clause (c : ProgramClause) (d : nat) : list Leaf :=
  let 'mkProgramClause b := c in
  leaves_domain_goal b.(value).(consequence) (S d)
    ++ (b.(value).(conditions) ≫= λ g, leaves_goal g (S d))
    ++ (b.(value).(constraints) ≫= λ e : InEnvironment Constraint,
          (e.(environment) ≫= λ c, leaves_clause c (S d)) ++ leaves_constraint e.(env_goal) (S d)).

(** ** Families of relations *)

Record Family := {
  RT : nat → Ty → Ty → Prop;
  RL : nat → Lifetime → Lifetime → Prop;
  RC : nat → Const → Const → Prop;
  RA : nat → GenericArg → GenericArg → Prop;
  RP : nat → AliasTy → AliasTy → Prop;
  RW : nat → WhereClause → WhereClause → Prop;
  RG : nat → Goal → Goal → Prop;
  RPC : nat → ProgramClause → ProgramClause → Prop
}.

Definition RTr (R : Family) d (a b : TraitRef) : Prop :=
  a.(trait_id) = b.(trait_id) ∧ Forall2 (R.(RA) d) a.(substitution) b.(substitution).

Definition RDG (R : Family) d (a b : DomainGoal) : Prop :=
  match a, b with
  | DgHolds a, DgHolds b => R.(RW) d a b
  | DgWellFormed (WfTrait a), DgWellFormed (WfTrait b) => RTr R d a b
  | DgWellFormed (WfTy a), DgWellFormed (WfTy b) => R.(RT) d a b
  | DgFromEnv (FeTrait a), DgFromEnv (FeTrait b) => RTr R d a b
  | DgFromEnv (FeTy a), DgFromEnv (FeTy b) => R.(RT) d a b
  | DgNormalize a t, DgNormalize b u => R.(RP) d a b ∧ R.(RT) d t u
  | DgIsLocal a, DgIsLocal b => R.(RT) d a b
  | DgIsUpstream a, DgIsUpstream b => R.(RT) d a b
  | DgIsFullyVisible a, DgIsFullyVisible b => R.(RT) d a b
  | DgLocalImplAllowed a, DgLocalImplAllowed b => RTr R d a b
  | DgCompatible, DgCompatible => True
  | DgDownstreamType a, DgDownstreamType b => R.(RT) d a b
  | DgReveal, DgReveal => True
  | DgObjectSafe a, DgObjectSafe b => a = b
  | _, _ => False
  end.

Definition RCt (R : Family) d (a b : Constraint) : Prop :=
  match a, b with
  | CtLifetimeOutlives a b, CtLifetimeOutlives a' b' => R.(RL) d a a' ∧ R.(RL) d b b'
  | CtTypeOutlives t l, CtTypeOutlives t' l' => R.(RT) d t t' ∧ R.(RL) d l l'
  | _, _ => False
  end.

Definition RBinders {V T} (r : nat → T → T → Prop) d (a b : BindersOf V T) : Prop :=
  a.(binders) = b.(binders) ∧ r (S d) a.(value) b.(value).

Definition REnv (R : Family) {T} (r : nat → T → T → Prop) d (a b : InEnvironment T) : Prop :=
  Forall2 (R.(RPC) d) a.(environment) b.(environment) ∧ r d a.(env_goal) b.(env_goal).

(** The constructors preserve the relations of the family. *)
Record Cong (R : Family) : Prop := {
  cong_Adt d id s s' : Forall2 (R.(RA) d) s s' → R.(RT) d (TyAdt id s) (TyAdt id s');
  cong_AssociatedType d id s s' :
    Forall2 (R.(RA) d) s s' → R.(RT) d (TyAssociatedType id s) (TyAssociatedType id s');
  cong_Scalar d s : R.(RT) d (TyScalar s) (TyScalar s);
  cong_Tuple d n s s' : Forall2 (R.(RA) d) s s' → R.(RT) d (TyTuple n s) (TyTuple n s');
  cong_Array d t t' c c' :
    R.(RT) d t t' → R.(RC) d c c' → R.(RT) d (TyArray t c) (TyArray t' c');
  cong_Slice d t t' : R.(RT) d t t' → R.(RT) d (TySlice t) (TySlice t');
  cong_Raw d m t t' : R.(RT) d t t' → R.(RT) d (TyRaw m t) (TyRaw m t');
  cong_Ref d m l l' t t' :
    R.(RL) d l l' → R.(RT) d t t' → R.(RT) d (TyRef m l t) (TyRef m l' t');
  cong_OpaqueType d id s s' :
    Forall2 (R.(RA) d) s s' → R.(RT) d (TyOpaqueType id s) (TyOpaqueType id s');
  cong_FnDef d id s s' : Forall2 (R.(RA) d) s s' → R.(RT) d (TyFnDef id s) (TyFnDef id s');
  cong_Str d : R.(RT) d TyStr TyStr;
  cong_Never d : R.(RT) d TyNever TyNever;
  cong_Closure d id s s' : Forall2 (R.(RA) d) s s' → R.(RT) d (TyClosure id s) (TyClosure id s');
  cong_Generator d id s s' :
    Forall2 (R.(RA) d) s s' → R.(RT) d (TyGenerator id s) (TyGenerator id s');
  cong_GeneratorWitness d id s s' :
    Forall2 (R.(RA) d) s s' → R.(RT) d (TyGeneratorWitness id s) (TyGeneratorWitness id s');
  cong_Foreign d id : R.(RT) d (TyForeign id) (TyForeign id);
  cong_Error d : R.(RT) d TyError TyError;
  cong_Dyn d k bs bs' l l' :
    Forall2 (RBinders R.(RW) (S d)) bs bs' → R.(RL) d l l' →
    R.(RT) d (TyDyn (mkBinders k bs) l) (TyDyn (mkBinders k bs') l');
  cong_Alias d a a' : R.(RP) d a a' → R.(RT) d (TyAlias a) (TyAlias a');
  cong_Function d n f s s' :
    Forall2 (R.(RA) (S d)) s s' → R.(RT) d (TyFunction n f s) (TyFunction n f s');
  cong_Concrete d t t' c :
    R.(RT) d t t' → R.(RC) d (mkConst t (CvConcrete c)) (mkConst t' (CvConcrete c));
  cong_ArgTy d t t' : R.(RT) d t t' → R.(RA) d (ArgTy t) (ArgTy t');
  cong_ArgLifetime d l l' : R.(RL) d l l' → R.(RA) d (ArgLifetime l) (ArgLifetime l');
  cong_ArgConst d c c' : R.(RC) d c c' → R.(RA) d (ArgConst c) (ArgConst c');
  cong_Projection d id s s' :
    Forall2 (R.(RA) d) s s' → R.(RP) d (AliasProjection id s) (AliasProjection id s');
  cong_Opaque d id s s' :
    Forall2 (R.(RA) d) s s' → R.(RP) d (AliasOpaque id s) (AliasOpaque id s');
  cong_Implemented d tr tr' : RTr R d tr tr' → R.(RW) d (WcImplemented tr) (WcImplemented tr');
  cong_AliasEq d a a' t t' :
    R.(RP) d a a' → R.(RT) d t t' → R.(RW) d (WcAliasEq a t) (WcAliasEq a' t');
  cong_LifetimeOutlives d a a' b b' :
    R.(RL) d a a' → R.(RL) d b b' → R.(RW) d (WcLifetimeOutlives a b) (WcLifetimeOutlives a' b');
  cong_TypeOutlives d t t' l l' :
    R.(RT) d t t' → R.(RL) d l l' → R.(RW) d (WcTypeOutlives t l) (WcTypeOutlives t' l');
  cong_Quantified d q k g g' :
    R.(RG) (S d) g g' →
    R.(RG) d (GQuantified q (mkBinders k g)) (GQuantified q (mkBinders k g'));
  cong_Implies d h h' g g' :
    Forall2 (R.(RPC) d) h h' → R.(RG) d g g' → R.(RG) d (GImplies h g) (GImplies h' g');
  cong_All d gs gs' : Forall2 (R.(RG) d) gs gs' → R.(RG) d (GAll gs) (GAll gs');
  cong_Not d g g' : R.(RG) d g g' → R.(RG) d (GNot g) (GNot g');
  cong_EqGoal d a a' b b' :
    R.(RA) d a a' → R.(RA) d b b' → R.(RG) d (GEqGoal a b) (GEqGoal a' b');
  cong_SubtypeGoal d a a' b b' :
    R.(RT) d a a' → R.(RT) d b b' → R.(RG) d (GSubtypeGoal a b) (GSubtypeGoal a' b');
  cong_DomainGoal d g g' : RDG R d g g' → R.(RG) d (GDomainGoal g) (GDomainGoal g');
  cong_CannotProve d : R.(RG) d GCannotProve GCannotProve;
  cong_ProgramClause d k dg dg' gs gs' cs cs' p :
    RDG R (S d) dg dg' → Forall2 (R.(RG) (S d)) gs gs' →
    Forall2 (REnv R (RCt R) (S d)) cs cs' →
    R.(RPC) d (mkProgramClause (mkBinders k (mkImplication dg gs cs p)))
              (mkProgramClause (mkBinders k (mkImplication dg' gs' cs' p)))
}.

(** Use the constructor's case of [Cong]. *)
Ltac cong H :=
  first [ eapply (cong_Adt _ H)
  | eapply (cong_AssociatedType _ H)
  | eapply (cong_Scalar _ H)
  | eapply (cong_Tuple _ H)
  | eapply (cong_Array _ H)
  | eapply (cong_Slice _ H)
  | eapply (cong_Raw _ H)
  | eapply (cong_Ref _ H)
  | eapply (cong_OpaqueType _ H)
  | eapply (cong_FnDef _ H)
  | eapply (cong_Str _ H)
  | eapply (cong_Never _ H)
  | eapply (cong_Closure _ H)
  | eapply (cong_Generator _ H)
  | eapply (cong_GeneratorWitness _ H)
  | eapply (cong_Foreign _ H)
  | eapply (cong_Error _ H)
  | eapply (cong_Dyn _ H)
  | eapply (cong_Alias _ H)
  | eapply (cong_Function _ H)
  | eapply (cong_Concrete _ H)
  | eapply (cong_ArgTy _ H)
  | eapply (cong_ArgLifetime _ H)
  | eapply (cong_ArgConst _ H)
  | eapply (cong_Projection _ H)
  | eapply (cong_Opaque _ H)
  | eapply (cong_Implemented _ H)
  | eapply (cong_AliasEq _ H)
  | eapply (cong_LifetimeOutlives _ H)
  | eapply (cong_TypeOutlives _ H)
  | eapply (cong_Quantified _ H)
  | eapply (cong_Implies _ H)
  | eapply (cong_All _ H)
  | eapply (cong_Not _ H)
  | eapply (cong_EqGoal _ H)
  | eapply (cong_SubtypeGoal _ H)
  | eapply (cong_DomainGoal _ H)
  | eapply (cong_CannotProve _ H)
  | eapply (cong_ProgramClause _ H) ].

(** Inclusion of families. *)
Record FamSub (R R' : Family) : Prop := {
  subT d x y : R.(RT) d x y → R'.(RT) d x y;
  subL d x y : R.(RL) d x y → R'.(RL) d x y;
  subC d x y : R.(RC) d x y → R'.(RC) d x y;
  subA d x y : R.(RA) d x y → R'.(RA) d x y;
  subP d x y : R.(RP) d x y → R'.(RP) d x y;
  subW d x y : R.(RW) d x y → R'.(RW) d x y;
  subG d x y : R.(RG) d x y → R'.(RG) d x y;
  subPC d x y : R.(RPC) d x y → R'.(RPC) d x y
}.

Lemma RTr_sub R R' d a b : FamSub R R' → RTr R d a b → RTr R' d a b.
Proof.
  intros Hs [Hid HF]. split; [done|]. eapply Forall2_impl; [done|]. apply Hs.
Qed.

Lemma RDG_sub R R' d a b : FamSub R R' → RDG R d a b → RDG R' d a b.
Proof.
  intros Hs. destruct a as [|[]|[]| | | | | | | | |], b as [|[]|[]| | | | | | | | |]; simpl;
    try done; try apply Hs; try (by apply RTr_sub).
  intros []. split; by apply Hs.
Qed.

Lemma RCt_sub R R' d a b : FamSub R R' → RCt R d a b → RCt R' d a b.
Proof.
  intros Hs. destruct a, b; simpl; try done; intros []; split; by apply Hs.
Qed.

Lemma debruijn_shifted_in_S d : debruijn_shifted_in d = S d.
Proof. unfold debruijn_shifted_in, debruijn_shifted_in_from, ONE. lia. Qed.

(** ** The principle *)

(** The laws of a weakest precondition for the monad [M] with states [S]. *)
Record WpLaws {M : Type → Type} `{MRet M, MBind M} {S : Type}
    (wp : ∀ A, M A → S → (A → S → Prop) → Prop) : Prop := {
  wp_ret A (a : A) s (Q : A → S → Prop) : Q a s → wp A (mret a) s Q;
  wp_bind A B (m : M A) (f : A → M B) s Q :
    wp A m s (λ a s', wp B (f a) s' Q) → wp B (m ≫= f) s Q;
  wp_mono A (m : M A) s (Q Q' : A → S → Prop) :
    (∀ a s', Q a s' → Q' a s') → wp A m s Q → wp A m s Q'
}.

Section Principle.
Context {M : Type → Type} `{MRet M, MBind M} {S : Type}.
Context (wp : ∀ A, M A → S → (A → S → Prop) → Prop) (Hwp : WpLaws wp).
Context (F : Folder M) (I : S → Prop) (le : relation S) `{!PreOrder le}.
Context (R : S → Family).
Context (R_cong : ∀ s, I s → Cong (R s)).
Context (R_mono : ∀ s s', I s → I s' → le s s' → FamSub (R s) (R s')).
Context (P : Leaf → Prop).

(** [m], run in [s], gives a result related to [x]. *)
Definition gives {A B} (m : M B) (s : S) (r : S → A → B → Prop) (x : A) : Prop :=
  wp B m s (λ y s', I s' ∧ le s s' ∧ r s' x y).

Context (leaf_lifetime : ∀ s l d, I s → Forall P (leaves_lifetime l d) →
  gives (fold_lifetime F l d) s (λ s, (R s).(RL) d) l).
Context (leaf_ty : ∀ s t d, I s → Forall P (leaves_ty t d) →
  match t with TyBoundVar _ | TyInferenceVar _ _ | TyPlaceholder _ => True | _ => False end →
  gives (fold_ty F t d) s (λ s, (R s).(RT) d) t).
Context (leaf_const : ∀ s t v d, I s → Forall P (leaves_const_value t v d) →
  (∀ s, I s → gives (fold_ty F t d) s (λ s, (R s).(RT) d) t) →
  match v with CvConcrete _ => False | _ => True end →
  gives (fold_const F (mkConst t v) d) s (λ s, (R s).(RC) d) (mkConst t v)).

Lemma gives_ret {A B} (y : B) s (r : S → A → B → Prop) x :
  I s → r s x y → gives (mret y) s r x.
Proof. intros. unfold gives. by apply Hwp. Qed.

Lemma gives_bind {A B A' B'} (m : M B) (f : B → M B') s (r : S → A → B → Prop) x
    (r' : S → A' → B' → Prop) x' :
  gives m s r x →
  (∀ y s', I s' → le s s' → r s' x y → gives (f y) s' r' x') →
  gives (m ≫= f) s r' x'.
Proof.
  intros Hm Hf. unfold gives in *. apply (wp_bind wp Hwp).
  eapply (wp_mono wp Hwp); [|exact Hm]. intros y s' (HI & Hle & Hr).
  eapply (wp_mono wp Hwp); [|by apply Hf]. intros y' s'' (? & ? & ?). split_and!; [done| |done].
  by etrans.
Qed.

Lemma gives_mapM {A} (f : A → M A) (r : S → A → A → Prop) l s :
  (∀ s s' x y, I s → I s' → le s s' → r s x y → r s' x y) →
  Forall (λ x, ∀ s, I s → gives (f x) s r x) l → I s →
  gives (mapM f l) s (λ s, Forall2 (r s)) l.
Proof.
  intros Hmono Hl. revert s. induction Hl as [|x l Hx Hl IH]; intros s HI; simpl.
  { apply gives_ret; [done|constructor]. }
  eapply gives_bind; [by apply Hx|]. intros y s' HI' Hle Hr.
  eapply gives_bind; [by apply IH|]. intros ys s'' HI'' Hle' Hrs.
  apply gives_ret; [done|]. constructor; [by eapply (Hmono s')|done].
Qed.

Abbreviation GT t := (∀ d, Forall P (leaves_ty t d) → ∀ s, I s →
  gives (fold_ty F t d) s (λ s, (R s).(RT) d) t).
Abbreviation GC c := (∀ d, Forall P (leaves_const c d) → ∀ s, I s →
  gives (fold_const F c d) s (λ s, (R s).(RC) d) c).
Abbreviation GA a := (∀ d, Forall P (leaves_arg a d) → ∀ s, I s →
  gives (fold_arg F a d) s (λ s, (R s).(RA) d) a).
Abbreviation GP a := (∀ d, Forall P (leaves_alias a d) → ∀ s, I s →
  gives (fold_alias F a d) s (λ s, (R s).(RP) d) a).
Abbreviation GW w := (∀ d, Forall P (leaves_where w d) → ∀ s, I s →
  gives (fold_where F w d) s (λ s, (R s).(RW) d) w).

Lemma gives_subst u d s :
  Forall (λ a, GA a) u → Forall P (u ≫= λ a, leaves_arg a d) → I s →
  gives (mapM (λ a, fold_arg F a d) u) s (λ s, Forall2 ((R s).(RA) d)) u.
Proof.
  intros HG HP. apply gives_mapM.
  - intros s1 s2 x y ? ? Hle. by apply (R_mono s1 s2).
  - apply Forall_bind in HP.
    induction HG as [|x u Hx HG IH]; inversion HP; subst; constructor; auto.
Qed.

Lemma gives_bounds (u : list QuantifiedWhereClause) d s :
  Forall (λ b, GW b.(value)) u →
  Forall P (u ≫= λ b, leaves_where b.(value) (Datatypes.S d)) → I s →
  gives (mapM (λ b : QuantifiedWhereClause,
           wc ← fold_where F b.(value) (Datatypes.S d); mret (mkBinders b.(binders) wc)) u)
    s (λ s, Forall2 (RBinders (R s).(RW) d)) u.
Proof.
  intros HG HP. apply gives_mapM.
  - intros s1 s2 x y ? ? Hle [? ?]. split; [done|]. by apply (R_mono s1 s2).
  - apply Forall_bind in HP.
    induction HG as [|x u Hx HG IH]; inversion HP; subst; constructor; auto.
    intros s' HI. eapply gives_bind; [by apply Hx|]. intros y s'' ? ? ?.
    apply gives_ret; done.
Qed.

Ltac step :=
  first
    [ eapply gives_bind;
        [ first [ by apply gives_subst | by apply leaf_lifetime
                | match goal with IH : ∀ d, _ → _ |- _ => by apply IH end ]
        | let y := fresh "y" in let s' := fresh "s" in
          let HI := fresh "HI" in let Hle := fresh "Hle" in let Hr := fresh "Hr" in
          intros y s' HI Hle Hr; cbv beta in Hr ]
    | apply gives_ret; [done|]; cbv beta ].

(** Relations reached in an earlier state hold in the current one. *)
Ltac now_rel :=
  first [ eassumption
        | match goal with
          | Hle : le ?s ?s', Hr : RT (R ?s) ?d ?x ?y |- RT (R ?s') ?d ?x ?y =>
              apply (subT _ _ (R_mono s s' ltac:(done) ltac:(done) Hle)); exact Hr
          | Hle : le ?s ?s', Hr : RL (R ?s) ?d ?x ?y |- RL (R ?s') ?d ?x ?y =>
              apply (subL _ _ (R_mono s s' ltac:(done) ltac:(done) Hle)); exact Hr
          | Hle : le ?s ?s', Hr : RP (R ?s) ?d ?x ?y |- RP (R ?s') ?d ?x ?y =>
              apply (subP _ _ (R_mono s s' ltac:(done) ltac:(done) Hle)); exact Hr
          | Hle : le ?s ?s', Hr : RA (R ?s) ?d ?x ?y |- RA (R ?s') ?d ?x ?y =>
              apply (subA _ _ (R_mono s s' ltac:(done) ltac:(done) Hle)); exact Hr
          end ].

Ltac finish := cbv beta in *; match goal with HI : I ?s |- _ (R ?s) _ _ _ => cong (R_cong s HI) end; now_rel.

Lemma fold_term_gives :
  (∀ t, GT t) ∧ (∀ c, GC c) ∧ (∀ a, GA a) ∧ (∀ a, GP a) ∧ (∀ w, GW w).
Proof.
  apply term_ind. constructor; intros; simpl in *; rewrite ?debruijn_shifted_in_S;
    repeat match goal with H : Forall P (_ ++ _) |- _ => apply Forall_app in H as [? ?] end.
  all: try (repeat step; finish; fail).
  - by apply (leaf_ty _ (TyPlaceholder p)).
  - eapply gives_bind; [by apply gives_bounds|]. intros qwcs s' HI Hle Hr.
    eapply gives_bind; [by apply leaf_lifetime|]. intros l' s'' HI' Hle' Hl.
    apply gives_ret; [done|]. cong (R_cong _ HI'); [|done].
    eapply Forall2_impl; [exact Hr|]. intros b b' [? ?]. split; [done|].
    by apply (R_mono s' s'').
  - by apply (leaf_ty _ (TyBoundVar bv)).
  - by apply (leaf_ty _ (TyInferenceVar v k)).
  - destruct v as [| | |ev].
    + apply (leaf_const s t (CvBoundVar bv) d); eauto.
    + apply (leaf_const s t (CvInferenceVar v) d); eauto.
    + apply (leaf_const s t (CvPlaceholder p) d); eauto.
    + repeat step; finish.
  - repeat step. cong (R_cong _ HI). by split.
Qed.

Lemma gives_trait_ref (tr : TraitRef) d s :
  Forall P (tr.(substitution) ≫= λ a, leaves_arg a d) → I s →
  gives (fold_trait_ref F tr d) s (λ s, RTr (R s) d) tr.
Proof.
  intros HP HI. unfold fold_trait_ref. eapply gives_bind.
  - apply gives_subst; [|done..]. apply Forall_true. intros. by apply fold_term_gives.
  - intros u s' HI' Hle Hr. by apply gives_ret.
Qed.

Lemma gives_domain_goal dg d s :
  Forall P (leaves_domain_goal dg d) → I s →
  gives (fold_domain_goal F dg d) s (λ s, RDG (R s) d) dg.
Proof.
  destruct fold_term_gives as (GT' & _ & _ & GP' & GW').
  intros HP HI. destruct dg as [|[]|[]| | | | | | | | |]; simpl in *;
    repeat match goal with H : Forall P (_ ++ _) |- _ => apply Forall_app in H as [? ?] end.
  all: try (eapply gives_bind;
    [first [by apply GT'|by apply GW'|by apply gives_trait_ref]
    |intros y s' HI' Hle Hr; by apply gives_ret]; fail).
  all: try (by apply gives_ret).
  eapply gives_bind; [by apply GP'|]. intros a s' HI' Hle Hr.
  eapply gives_bind; [by apply GT'|]. intros t s'' HI'' Hle' Hr'.
  apply gives_ret; [done|]. split; [|done]. by apply (R_mono s' s'').
Qed.

Lemma gives_constraint c d s :
  Forall P (leaves_constraint c d) → I s →
  gives (fold_constraint F c d) s (λ s, RCt (R s) d) c.
Proof.
  destruct fold_term_gives as (GT' & _).
  intros HP HI. destruct c; simpl in *; apply Forall_app in HP as [? ?].
  - eapply gives_bind; [by apply leaf_lifetime|]. intros x s' HI' Hle Hr.
    eapply gives_bind; [by apply leaf_lifetime|]. intros y s'' HI'' Hle' Hr'.
    apply gives_ret; [done|]. split; [|done]. by apply (R_mono s' s'').
  - eapply gives_bind; [by apply GT'|]. intros x s' HI' Hle Hr.
    eapply gives_bind; [by apply leaf_lifetime|]. intros y s'' HI'' Hle' Hr'.
    apply gives_ret; [done|]. split; [|done]. by apply (R_mono s' s'').
Qed.

Abbreviation GG g := (∀ d, Forall P (leaves_goal g d) → ∀ s, I s →
  gives (fold_goal F g d) s (λ s, (R s).(RG) d) g).
Abbreviation GPC c := (∀ d, Forall P (leaves_clause c d) → ∀ s, I s →
  gives (fold_program_clause F c d) s (λ s, (R s).(RPC) d) c).

Lemma gives_clauses cs d s :
  Forall (λ c, GPC c) cs → Forall P (cs ≫= λ c, leaves_clause c d) → I s →
  gives (mapM (λ c, fold_program_clause F c d) cs) s (λ s, Forall2 ((R s).(RPC) d)) cs.
Proof.
  intros HG HP. apply gives_mapM.
  - intros s1 s2 x y ? ? Hle. by apply (R_mono s1 s2).
  - apply Forall_bind in HP.
    induction HG as [|x u Hx HG IH]; inversion HP; subst; constructor; auto.
Qed.

Lemma gives_goals gs d s :
  Forall (λ c, GG c) gs → Forall P (gs ≫= λ c, leaves_goal c d) → I s →
  gives (mapM (λ c, fold_goal F c d) gs) s (λ s, Forall2 ((R s).(RG) d)) gs.
Proof.
  intros HG HP. apply gives_mapM.
  - intros s1 s2 x y ? ? Hle. by apply (R_mono s1 s2).
  - apply Forall_bind in HP.
    induction HG as [|x u Hx HG IH]; inversion HP; subst; constructor; auto.
Qed.

Lemma gives_in_environment {T} (fold : T → nat → M T) (r : S → nat → T → T → Prop)
    (leaves : T → nat → list Leaf) (c : InEnvironment T) d s :
  (∀ s s' x y, I s → I s' → le s s' → r s d x y → r s' d x y) →
  Forall (λ c, GPC c) c.(environment) →
  (∀ x, Forall P (leaves x d) → ∀ s, I s → gives (fold x d) s (λ s, r s d) x) →
  Forall P ((c.(environment) ≫= λ c, leaves_clause c d) ++ leaves c.(env_goal) d) → I s →
  gives (fold_in_environment F fold c d) s (λ s, REnv (R s) (r s) d) c.
Proof.
  intros Hmono Hc Hx HP HI. apply Forall_app in HP as [? ?].
  eapply gives_bind; [by apply gives_clauses|]. intros e s' HI' Hle Hr.
  eapply gives_bind; [by apply Hx|]. intros x s'' HI'' Hle' Hr'.
  apply gives_ret; [done|]. split; [|done]. simpl.
  eapply Forall2_impl; [exact Hr|]. intros. by apply (R_mono s' s'').
Qed.

Lemma gives_constraints (cs : Constraints) d s :
  Forall (λ e : InEnvironment Constraint, Forall (λ c, GPC c) e.(environment)) cs →
  Forall P (cs ≫= λ e : InEnvironment Constraint,
    (e.(environment) ≫= λ c, leaves_clause c d) ++ leaves_constraint e.(env_goal) d) → I s →
  gives (mapM (λ c, fold_in_environment F (fold_constraint F) c d) cs) s
    (λ s, Forall2 (REnv (R s) (RCt (R s)) d)) cs.
Proof.
  intros HG HP HI. apply gives_mapM; [| |done].
  - intros s1 s2 x y HI1 HI2 Hle [Hxy Hct]. split.
    + eapply Forall2_impl; [exact Hxy|]. intros. by apply (R_mono s1 s2).
    + eapply RCt_sub; [|exact Hct]. by apply R_mono.
  - apply Forall_bind in HP. clear s HI.
    induction HG as [|x u Hx HG IH]; inversion HP; subst; constructor; auto.
    intros s HI. apply (gives_in_environment _ (λ s, RCt (R s)) leaves_constraint); try done.
    + intros s1 s2 y z ? ? ?. apply RCt_sub. by apply R_mono.
    + intros. by apply gives_constraint.
Qed.

Lemma fold_goal_gives : (∀ g, GG g) ∧ (∀ c, GPC c).
Proof.
  destruct fold_term_gives as (GT' & _ & GA' & _ & _).
  apply goal_ind. constructor; intros; simpl in *; rewrite ?debruijn_shifted_in_S;
    repeat match goal with H : Forall P (_ ++ _) |- _ => apply Forall_app in H as [? ?] end.
  - repeat step. finish.
  - eapply gives_bind; [by apply gives_clauses|]. intros h' s' HI Hle Hr.
    eapply gives_bind; [match goal with IH : ∀ d, _ → _ |- _ => by apply IH end|].
    intros g' s'' HI' Hle' Hr'.
    apply gives_ret; [done|]. cong (R_cong _ HI'); [|done].
    eapply Forall2_impl; [exact Hr|]. intros. by apply (R_mono s' s'').
  - eapply gives_bind; [by apply gives_goals|]. intros h' s' HI Hle Hr.
    apply gives_ret; [done|]. by cong (R_cong _ HI).
  - repeat step. finish.
  - eapply gives_bind; [by apply GA'|]. intros ? ? ? ? ?.
    eapply gives_bind; [by apply GA'|]. intros ? ? ? ? ?.
    apply gives_ret; [done|]. finish.
  - eapply gives_bind; [by apply GT'|]. intros ? ? ? ? ?.
    eapply gives_bind; [by apply GT'|]. intros ? ? ? ? ?.
    apply gives_ret; [done|]. finish.
  - eapply gives_bind; [by apply gives_domain_goal|]. intros ? ? HI ? ?.
    apply gives_ret; [done|]. by cong (R_cong _ HI).
  - apply gives_ret; [done|]. finish.
  - eapply gives_bind; [by apply gives_domain_goal|]. intros dg' s1 HI1 Hle1 Hr1.
    eapply gives_bind; [by apply gives_goals|]. intros gs' s2 HI2 Hle2 Hr2.
    eapply (gives_bind _ _ _ (λ s, Forall2 (REnv (R s) (RCt (R s)) (Datatypes.S d)))).
    + by apply gives_constraints.
    + intros cs' s3 HI3 Hle3 Hr3. apply gives_ret; [done|].
      cong (R_cong _ HI3); [| |done].
      * eapply RDG_sub; [|exact Hr1]. apply R_mono; [done..|]. by etrans.
      * eapply Forall2_impl; [exact Hr2|]. intros. by apply (R_mono s2 s3).
Qed.
End Principle.

(** ** Two families *)

(** [t] folded by [F] is [t'] folded by [G], the second fold [k] binders deeper. *)
Definition eq_family {M : Type → Type} `{MRet M, MBind M} (k : nat) (F G : Folder M) : Family := {|
  RT d t t' := fold_ty F t d = fold_ty G t' (k + d);
  RL d t t' := fold_lifetime F t d = fold_lifetime G t' (k + d);
  RC d t t' := fold_const F t d = fold_const G t' (k + d);
  RA d t t' := fold_arg F t d = fold_arg G t' (k + d);
  RP d t t' := fold_alias F t d = fold_alias G t' (k + d);
  RW d t t' := fold_where F t d = fold_where G t' (k + d);
  RG d t t' := fold_goal F t d = fold_goal G t' (k + d);
  RPC d t t' := fold_program_clause F t d = fold_program_clause G t' (k + d)
|}.

(** [t'] is [t]. *)
Definition id_family : Family := {|
  RT _ t t' := t = t'; RL _ t t' := t = t'; RC _ t t' := t = t'; RA _ t t' := t = t';
  RP _ t t' := t = t'; RW _ t t' := t = t'; RG _ t t' := t = t'; RPC _ t t' := t = t'
|}.

(** The leaves of [t'], [k] binders deeper, satisfy [Q]. *)
Definition leaf_family (k : nat) (Q : Leaf → Prop) : Family := {|
  RT d _ t' := Forall Q (leaves_ty t' (k + d));
  RL d _ t' := Forall Q (leaves_lifetime t' (k + d));
  RC d _ t' := Forall Q (leaves_const t' (k + d));
  RA d _ t' := Forall Q (leaves_arg t' (k + d));
  RP d _ t' := Forall Q (leaves_alias t' (k + d));
  RW d _ t' := Forall Q (leaves_where t' (k + d));
  RG d _ t' := Forall Q (leaves_goal t' (k + d));
  RPC d _ t' := Forall Q (leaves_clause t' (k + d))
|}.

(** All the relations of a collection of families. *)
Definition all_family {X} (R : X → Family) : Family := {|
  RT d t t' := ∀ x, (R x).(RT) d t t';
  RL d t t' := ∀ x, (R x).(RL) d t t';
  RC d t t' := ∀ x, (R x).(RC) d t t';
  RA d t t' := ∀ x, (R x).(RA) d t t';
  RP d t t' := ∀ x, (R x).(RP) d t t';
  RW d t t' := ∀ x, (R x).(RW) d t t';
  RG d t t' := ∀ x, (R x).(RG) d t t';
  RPC d t t' := ∀ x, (R x).(RPC) d t t'
|}.

Lemma all_family_sub {X} (R : X → Family) x : FamSub (all_family R) (R x).
Proof. constructor; simpl; auto. Qed.

Lemma all_family_cong {X} (R : X → Family) : (∀ x, Cong (R x)) → Cong (all_family R).
Proof.
  intros HR. constructor; simpl; intros; specialize (HR x);
    pose proof (all_family_sub R x) as Hsub;
    repeat match goal with
    | H : RTr _ _ _ _ |- _ => apply (RTr_sub _ _ _ _ _ Hsub) in H
    | H : RDG _ _ _ _ |- _ => apply (RDG_sub _ _ _ _ _ Hsub) in H
    end; cong HR; auto; (eapply Forall2_impl; [eassumption|]); try (intros ? ? Hxy; exact (Hxy x)).
  - intros ? ? [? ?]. split; auto.
  - intros ? ? [He Hc]. split.
    + eapply Forall2_impl; [exact He|]. intros ? ? Hxy. exact (Hxy x).
    + by eapply RCt_sub.
Qed.

Lemma mapM_eq {M : Type → Type} `{MRet M, MBind M} {A B} (f g : A → M B) l l' :
  Forall2 (λ x y, f x = g y) l l' → mapM f l = mapM g l'.
Proof. induction 1 as [|x y l l' Hxy Hl IH]; simpl; [done|]. by rewrite Hxy, IH. Qed.

Lemma Forall_bind_2 {A B} (Q : B → Prop) (f : A → list B) (r : A → A → Prop) l l' :
  (∀ x y, r x y → Forall Q (f y)) → Forall2 r l l' → Forall Q (l' ≫= f).
Proof.
  intros Hr Hl. apply Forall_bind. induction Hl; constructor; eauto.
Qed.

Lemma eq_family_TraitRef {M : Type → Type} `{MRet M, MBind M} k (F G : Folder M) d a b :
  RTr (eq_family k F G) d a b → fold_trait_ref F a d = fold_trait_ref G b (k + d).
Proof.
  destruct a, b. intros [? Hs]; simpl in *; subst. unfold fold_trait_ref. simpl.
  by rewrite (mapM_eq _ _ _ _ Hs).
Qed.

Lemma eq_family_DomainGoal {M : Type → Type} `{MRet M, MBind M} k (F G : Folder M) d a b :
  RDG (eq_family k F G) d a b → fold_domain_goal F a d = fold_domain_goal G b (k + d).
Proof.
  destruct a as [|[]|[]| | | | | | | | |], b as [|[]|[]| | | | | | | | |]; simpl; intros HR;
    try done; try (by rewrite HR); try (by rewrite (eq_family_TraitRef k F G d _ _ HR)).
  destruct HR as [H1 H2]. by rewrite H1, H2.
Qed.

Lemma eq_family_Constraint {M : Type → Type} `{MRet M, MBind M} k (F G : Folder M) d a b :
  RCt (eq_family k F G) d a b → fold_constraint F a d = fold_constraint G b (k + d).
Proof.
  destruct a, b; simpl; intros HR; try done; destruct HR as [H1 H2]; by rewrite H1, H2.
Qed.

Lemma eq_family_bounds {M : Type → Type} `{MRet M, MBind M} k (F G : Folder M) d
    (bs bs' : list QuantifiedWhereClause) :
  Forall2 (RBinders (RW (eq_family k F G)) d) bs bs' →
  mapM (λ b : QuantifiedWhereClause,
    wc ← fold_where F b.(value) (S d); mret (mkBinders b.(binders) wc)) bs =
  mapM (λ b : QuantifiedWhereClause,
    wc ← fold_where G b.(value) (k + S d); mret (mkBinders b.(binders) wc)) bs'.
Proof.
  intros HR. apply mapM_eq. eapply Forall2_impl; [exact HR|].
  intros [vs w] [vs' w'] [Hk Hw]; simpl in *. subst. by rewrite Hw.
Qed.

Lemma eq_family_constraints {M : Type → Type} `{MRet M, MBind M} k (F G : Folder M) d
    (cs cs' : Constraints) :
  Forall2 (REnv (eq_family k F G) (RCt (eq_family k F G)) d) cs cs' →
  mapM (λ c, fold_in_environment F (fold_constraint F) c d) cs =
  mapM (λ c, fold_in_environment G (fold_constraint G) c (k + d)) cs'.
Proof.
  intros HR. apply mapM_eq. eapply Forall2_impl; [exact HR|].
  intros [e c] [e' c'] [He Hc]; simpl in *. unfold fold_in_environment; simpl.
  rewrite (mapM_eq _ _ _ _ He). by rewrite (eq_family_Constraint k F G d _ _ Hc).
Qed.

Lemma eq_family_cong {M : Type → Type} `{MRet M, MBind M} k (F G : Folder M) : Cong (eq_family k F G).
Proof.
  constructor; intros; simpl in *; rewrite ?debruijn_shifted_in_S, <- ?Nat.add_succ_r.
  all: try (repeat match goal with
    | Hs : Forall2 _ _ _ |- _ => rewrite (mapM_eq _ _ _ _ Hs); clear Hs
    | Hs : ?f ?F _ _ = ?f ?G _ _ |- _ => rewrite Hs; clear Hs
    end; done).
  - rewrite (eq_family_bounds k F G (S d) _ _ H1). by rewrite H2.
  - destruct tr, tr', H1 as [? Hs]; simpl in *; subst. by rewrite (mapM_eq _ _ _ _ Hs).
  - by rewrite (eq_family_DomainGoal k F G d _ _ H1).
  - rewrite (eq_family_DomainGoal k F G (S d) _ _ H1), (mapM_eq _ _ _ _ H2).
    pose proof (eq_family_constraints k F G (S d) _ _ H3) as Hc.
    unfold fold_in_environment in Hc. by rewrite Hc.
Qed.

Lemma id_family_TraitRef d a b : RTr id_family d a b → a = b.
Proof. destruct a, b. intros [? Hs%list_eq_Forall2]; simpl in *. by subst. Qed.

Lemma id_family_DomainGoal d a b : RDG id_family d a b → a = b.
Proof.
  destruct a as [|[]|[]| | | | | | | | |], b as [|[]|[]| | | | | | | | |]; simpl; intros HR;
    try done; try (by rewrite HR); try (by rewrite (id_family_TraitRef d _ _ HR)).
  destruct HR. by subst.
Qed.

Lemma id_family_Constraint d a b : RCt id_family d a b → a = b.
Proof. destruct a, b; simpl; intros HR; try done; destruct HR; by subst. Qed.

Lemma list_rel_eq {A} (r : A → A → Prop) l l' :
  (∀ x y, r x y → x = y) → Forall2 r l l' → l = l'.
Proof. intros Hr Hl. apply list_eq_Forall2. by eapply Forall2_impl. Qed.

Lemma id_family_cong : Cong id_family.
Proof.
  constructor; intros; simpl in *;
    repeat match goal with
    | Hs : Forall2 (λ _ _, _ = _) _ _ |- _ => apply list_eq_Forall2 in Hs
    | Hs : RTr _ _ _ _ |- _ => apply id_family_TraitRef in Hs
    | Hs : RDG _ _ _ _ |- _ => apply id_family_DomainGoal in Hs
    end; subst; try done.
  - apply list_rel_eq in H as ->; [done|]. by intros [] [] [? ?]; simpl in *; subst.
  - apply list_rel_eq in H1 as ->; [done|].
    intros [e c] [e' c'] [He%list_eq_Forall2 Hc%id_family_Constraint]; simpl in *. by subst.
Qed.

Lemma leaf_family_TraitRef k Q d a b :
  RTr (leaf_family k Q) d a b → Forall Q (b.(substitution) ≫= λ a, leaves_arg a (k + d)).
Proof. intros [_ Hs]. by eapply Forall_bind_2; [|exact Hs]. Qed.

Lemma leaf_family_DomainGoal k Q d a b :
  RDG (leaf_family k Q) d a b → Forall Q (leaves_domain_goal b (k + d)).
Proof.
  destruct a as [|[]|[]| | | | | | | | |], b as [|[]|[]| | | | | | | | |]; simpl; intros HR;
    try done; try (by apply (leaf_family_TraitRef k Q d _ _ HR)).
  destruct HR. by apply Forall_app.
Qed.

Lemma leaf_family_Constraint k Q d a b :
  RCt (leaf_family k Q) d a b → Forall Q (leaves_constraint b (k + d)).
Proof. destruct a, b; simpl; intros HR; try done; destruct HR; by apply Forall_app. Qed.

Lemma leaf_family_cong k Q : Cong (leaf_family k Q).
Proof.
  constructor; intros; simpl in *; rewrite <- ?Nat.add_succ_r; try done.
  all: try (by repeat apply Forall_app_2).
  all: try (by eapply Forall_bind_2; [|eassumption]).
  - apply Forall_app_2; [|done]. eapply Forall_bind_2; [|exact H]. by intros b b' [_ ?].
  - by eapply leaf_family_TraitRef.
  - apply Forall_app_2; [|done]. by eapply Forall_bind_2; [|eassumption].
  - by eapply leaf_family_DomainGoal.
  - repeat apply Forall_app_2.
    + by eapply leaf_family_DomainGoal.
    + by eapply Forall_bind_2; [|eassumption].
    + eapply Forall_bind_2; [|eassumption]. intros b b' [He Hc]. apply Forall_app_2.
      * by eapply Forall_bind_2; [|exact He].
      * by eapply leaf_family_Constraint.
Qed.

(** ** The interface: a foldable type and its laws *)

(** The callbacks of [F], run in states that satisfy [I] and grow along [le],
    relate the leaves that satisfy [P] to their results by [R]. *)
Record LeafSpec {M : Type → Type} `{MRet M, MBind M} {S : Type}
    (wp : ∀ A, M A → S → (A → S → Prop) → Prop) (F : Folder M)
    (I : S → Prop) (le : relation S) (R : S → Family) (P : Leaf → Prop) : Prop := {
  spec_wp : WpLaws wp;
  spec_le : PreOrder le;
  spec_cong : ∀ s, I s → Cong (R s);
  spec_mono : ∀ s s', I s → I s' → le s s' → FamSub (R s) (R s');
  spec_lifetime : ∀ s l d, I s → Forall P (leaves_lifetime l d) →
    gives wp I le (fold_lifetime F l d) s (λ s, (R s).(RL) d) l;
  spec_ty : ∀ s t d, I s → Forall P (leaves_ty t d) →
    match t with TyBoundVar _ | TyInferenceVar _ _ | TyPlaceholder _ => True | _ => False end →
    gives wp I le (fold_ty F t d) s (λ s, (R s).(RT) d) t;
  spec_const : ∀ s t v d, I s → Forall P (leaves_const_value t v d) →
    (∀ s, I s → gives wp I le (fold_ty F t d) s (λ s, (R s).(RT) d) t) →
    match v with CvConcrete _ => False | _ => True end →
    gives wp I le (fold_const F (mkConst t v) d) s (λ s, (R s).(RC) d) (mkConst t v)
}.

Class FoldLaws (T : Type) `{Fold T} := {
  leaves_of : T → nat → list Leaf;
  lift : Family → nat → T → T → Prop;
  lift_sub R R' d x y : FamSub R R' → lift R d x y → lift R' d x y;
  fold_gives {M : Type → Type} `{MRet M, MBind M} {S : Type}
    (wp : ∀ A, M A → S → (A → S → Prop) → Prop) F I le R P :
    LeafSpec wp F I le R P → ∀ t d s, Forall P (leaves_of t d) → I s →
    gives wp I le (fold_with F t d) s (λ s, lift (R s) d) t;
  lift_eq {M : Type → Type} `{MRet M, MBind M} k (F G : Folder M) d x y :
    lift (eq_family k F G) d x y → fold_with F x d = fold_with G y (k + d);
  lift_leaves k Q d x y : lift (leaf_family k Q) d x y → Forall Q (leaves_of y (k + d));
  lift_id d x y : lift id_family d x y → x = y
}.
#[global] Hint Mode FoldLaws ! - : typeclass_instances.

Section Instances.
Context {M : Type → Type} `{MRet M, MBind M} {S : Type}
  (wp : ∀ A, M A → S → (A → S → Prop) → Prop) (F : Folder M)
  (I : S → Prop) (le : relation S) (R : S → Family) (P : Leaf → Prop)
  (spec : LeafSpec wp F I le R P).

Lemma term_gives :
  (∀ t d, Forall P (leaves_ty t d) → ∀ s, I s →
    gives wp I le (fold_ty F t d) s (λ s, (R s).(RT) d) t) ∧
  (∀ c d, Forall P (leaves_const c d) → ∀ s, I s →
    gives wp I le (fold_const F c d) s (λ s, (R s).(RC) d) c) ∧
  (∀ a d, Forall P (leaves_arg a d) → ∀ s, I s →
    gives wp I le (fold_arg F a d) s (λ s, (R s).(RA) d) a) ∧
  (∀ a d, Forall P (leaves_alias a d) → ∀ s, I s →
    gives wp I le (fold_alias F a d) s (λ s, (R s).(RP) d) a) ∧
  (∀ w d, Forall P (leaves_where w d) → ∀ s, I s →
    gives wp I le (fold_where F w d) s (λ s, (R s).(RW) d) w).
Proof. destruct spec. by apply fold_term_gives. Qed.

Lemma goal_gives :
  (∀ g d, Forall P (leaves_goal g d) → ∀ s, I s →
    gives wp I le (fold_goal F g d) s (λ s, (R s).(RG) d) g) ∧
  (∀ c d, Forall P (leaves_clause c d) → ∀ s, I s →
    gives wp I le (fold_program_clause F c d) s (λ s, (R s).(RPC) d) c).
Proof. destruct spec. by apply fold_goal_gives. Qed.
End Instances.

Ltac solve_laws :=
  first
    [ by eauto
    | by (intros ? ? ? ? ? Hs; apply Hs)
    | (intros; match goal with
       | Hs : LeafSpec ?wp ?F ?I ?le ?R ?P |- _ =>
           pose proof (term_gives wp F I le R P Hs) as (?&?&?&?&?);
           pose proof (goal_gives wp F I le R P Hs) as (?&?); by eauto
       end) ].

#[global, program] Instance FoldLaws_Ty : FoldLaws Ty := {| leaves_of := leaves_ty; lift := RT |}.
Solve All Obligations with solve_laws.
#[global, program] Instance FoldLaws_Lifetime : FoldLaws Lifetime :=
  {| leaves_of := leaves_lifetime; lift := RL |}.
Next Obligation. solve_laws. Qed.
Next Obligation. intros. by eapply spec_lifetime. Qed.
Next Obligation. done. Qed.
Next Obligation. done. Qed.
Next Obligation. done. Qed.
#[global, program] Instance FoldLaws_Const : FoldLaws Const :=
  {| leaves_of := leaves_const; lift := RC |}.
Solve All Obligations with solve_laws.
#[global, program] Instance FoldLaws_GenericArg : FoldLaws GenericArg :=
  {| leaves_of := leaves_arg; lift := RA |}.
Solve All Obligations with solve_laws.
#[global, program] Instance FoldLaws_AliasTy : FoldLaws AliasTy :=
  {| leaves_of := leaves_alias; lift := RP |}.
Solve All Obligations with solve_laws.
#[global, program] Instance FoldLaws_WhereClause : FoldLaws WhereClause :=
  {| leaves_of := leaves_where; lift := RW |}.
Solve All Obligations with solve_laws.
#[global, program] Instance FoldLaws_Goal : FoldLaws Goal :=
  {| leaves_of := leaves_goal; lift := RG |}.
Solve All Obligations with solve_laws.
#[global, program] Instance FoldLaws_ProgramClause : FoldLaws ProgramClause :=
  {| leaves_of := leaves_clause; lift := RPC |}.
Solve All Obligations with solve_laws.

#[global, program] Instance FoldLaws_TraitRef : FoldLaws TraitRef :=
  {| leaves_of tr d := tr.(substitution) ≫= λ a, leaves_arg a d; lift := RTr |}.
Next Obligation. intros *. apply RTr_sub. Qed.
Next Obligation. intros * []. intros. by eapply gives_trait_ref. Qed.
Next Obligation. intros *. apply eq_family_TraitRef. Qed.
Next Obligation. intros *. apply leaf_family_TraitRef. Qed.
Next Obligation. intros *. apply id_family_TraitRef. Qed.
#[global, program] Instance FoldLaws_DomainGoal : FoldLaws DomainGoal :=
  {| leaves_of := leaves_domain_goal; lift := RDG |}.
Next Obligation. intros *. apply RDG_sub. Qed.
Next Obligation. intros * []. intros. by eapply gives_domain_goal. Qed.
Next Obligation. intros *. apply eq_family_DomainGoal. Qed.
Next Obligation. intros *. apply leaf_family_DomainGoal. Qed.
Next Obligation. intros *. apply id_family_DomainGoal. Qed.
#[global, program] Instance FoldLaws_Constraint : FoldLaws Constraint :=
  {| leaves_of := leaves_constraint; lift := RCt |}.
Next Obligation. intros *. apply RCt_sub. Qed.
Next Obligation. intros * []. intros. by eapply gives_constraint. Qed.
Next Obligation. intros *. apply eq_family_Constraint. Qed.
Next Obligation. intros *. apply leaf_family_Constraint. Qed.
Next Obligation. intros *. apply id_family_Constraint. Qed.

Ltac use_spec Hs :=
  pose proof (spec_wp _ _ _ _ _ _ Hs) as Hwp; pose proof (spec_le _ _ _ _ _ _ Hs) as Hle0.

#[global, program] Instance FoldLaws_list {T} `{FoldLaws T} : FoldLaws (list T) :=
  {| leaves_of l d := l ≫= λ x, leaves_of x d; lift R d := Forall2 (lift R d) |}.
Next Obligation.
  intros T ? ? R R' d x y Hs Hl. eapply Forall2_impl; [exact Hl|]. intros ? ?. by apply lift_sub.
Qed.
Next Obligation.
  intros T ? ? M ? ? S wp F I le R P Hs l d s HP HI.
  use_spec Hs. apply gives_mapM; [done..| | |done].
  - intros s1 s2 x y ? ? ?. apply lift_sub. by apply (spec_mono _ _ _ _ _ _ Hs).
  - apply Forall_bind in HP. eapply Forall_impl; [exact HP|]. intros x Hx s' HI'.
    by eapply fold_gives.
Qed.
Next Obligation.
  intros T ? ? M ? ? k F G d l l' Hl. apply mapM_eq.
  eapply Forall2_impl; [exact Hl|]. intros ? ?. apply lift_eq.
Qed.
Next Obligation.
  intros T ? ? k Q d l l' Hl. eapply Forall_bind_2; [|exact Hl]. intros ? ?. apply lift_leaves.
Qed.
Next Obligation. intros T ? ? d l l' Hl. eapply list_rel_eq; [|exact Hl]. intros ? ?. apply lift_id. Qed.

#[global, program] Instance FoldLaws_Binders {T} `{FoldLaws T} : FoldLaws (Binders T) :=
  {| leaves_of b d := leaves_of b.(value) (S d); lift R := RBinders (lift R) |}.
Next Obligation. intros T ? ? R R' d x y Hs [? ?]. split; [done|]. by eapply lift_sub. Qed.
Next Obligation.
  intros T ? ? M ? ? S wp F I le R P Hs b d s HP HI. use_spec Hs.
  unfold fold_with, Fold_Binders, fold_binders. rewrite debruijn_shifted_in_S.
  eapply gives_bind; [done..|by eapply fold_gives|]. intros y s' ? ? ?.
  by apply gives_ret.
Qed.
Next Obligation.
  intros T ? ? M ? ? k F G d [kinds x] [kinds' x'] [Hk Hx%lift_eq]; simpl in *. subst.
  unfold fold_with at 1 2, Fold_Binders, fold_binders; simpl. rewrite !debruijn_shifted_in_S, <- Nat.add_succ_r.
  by rewrite Hx.
Qed.
Next Obligation.
  intros T ? ? k Q d b b' [? ?]. rewrite <- Nat.add_succ_r. by eapply lift_leaves.
Qed.
Next Obligation. intros T ? ? d [] [] [? ?%lift_id]; simpl in *. by subst. Qed.

#[global, program] Instance FoldLaws_Canonical {T} `{FoldLaws T} : FoldLaws (Canonical T) :=
  {| leaves_of b d := leaves_of b.(cvalue) (S d);
     lift R d a b := a.(cbinders) = b.(cbinders) ∧ lift R (S d) a.(cvalue) b.(cvalue) |}.
Next Obligation. intros T ? ? R R' d x y Hs [? ?]. split; [done|]. by eapply lift_sub. Qed.
Next Obligation.
  intros T ? ? M ? ? S wp F I le R P Hs b d s HP HI. use_spec Hs.
  unfold fold_with, Fold_Canonical, fold_canonical. rewrite debruijn_shifted_in_S.
  eapply gives_bind; [done..|by eapply fold_gives|]. intros y s' ? ? ?.
  by apply gives_ret.
Qed.
Next Obligation.
  intros T ? ? M ? ? k F G d [x kinds] [x' kinds'] [Hk Hx%lift_eq]; simpl in *. subst.
  unfold fold_with at 1 2, Fold_Canonical, fold_canonical; simpl. rewrite !debruijn_shifted_in_S, <- Nat.add_succ_r.
  by rewrite Hx.
Qed.
Next Obligation.
  intros T ? ? k Q d b b' [? ?]. rewrite <- Nat.add_succ_r. by eapply lift_leaves.
Qed.
Next Obligation. intros T ? ? d [] [] [? ?%lift_id]; simpl in *. by subst. Qed.

#[global, program] Instance FoldLaws_InEnvironment {T} `{FoldLaws T} : FoldLaws (InEnvironment T) :=
  {| leaves_of e d := (e.(environment) ≫= λ c, leaves_clause c d) ++ leaves_of e.(env_goal) d;
     lift R := REnv R (lift R) |}.
Next Obligation.
  intros T ? ? R R' d x y Hs [He ?]. split; [|by eapply lift_sub].
  eapply Forall2_impl; [exact He|]. intros. by apply Hs.
Qed.
Next Obligation.
  intros T ? ? M ? ? S wp F I le R P Hs b d s HP HI. apply Forall_app in HP as [? ?]. use_spec Hs.
  eapply (gives_bind wp Hwp I le _ _ s (λ s, lift (R s) d) b.(environment)).
  - by refine (fold_gives (T := list ProgramClause) wp F I le R P Hs b.(environment) d s _ HI).
  - intros e s' HI' Hle He. eapply gives_bind; [done..|by eapply fold_gives|].
    intros y s'' HI'' Hle' Hy. apply gives_ret; [done..|]. split; [|done].
    eapply Forall2_impl; [exact He|]. intros. by apply (spec_mono _ _ _ _ _ _ Hs s').
Qed.
Next Obligation.
  intros T ? ? M ? ? k F G d [e x] [e' x'] [He Hx]; simpl in *.
  unfold fold_with, Fold_InEnvironment, fold_in_environment; simpl.
  rewrite (mapM_eq _ _ _ _ He). by rewrite (lift_eq _ _ _ _ _ _ Hx).
Qed.
Next Obligation.
  intros T ? ? k Q d [e x] [e' x'] [He Hx]; simpl in *. apply Forall_app_2.
  - by eapply Forall_bind_2; [|exact He].
  - by eapply lift_leaves.
Qed.
Next Obligation.
  intros T ? ? d [e x] [e' x'] [He%list_eq_Forall2 ?%lift_id]; simpl in *. by subst.
Qed.

#[global, program] Instance FoldLaws_prod {A B} `{FoldLaws A, FoldLaws B} : FoldLaws (A * B) :=
  {| leaves_of p d := leaves_of p.1 d ++ leaves_of p.2 d;
     lift R d p q := lift R d p.1 q.1 ∧ lift R d p.2 q.2 |}.
Next Obligation. intros A B ???? R R' d x y Hs [? ?]. split; by eapply lift_sub. Qed.
Next Obligation.
  intros A B ???? M ? ? S wp F I le R P Hs b d s HP HI. apply Forall_app in HP as [? ?]. use_spec Hs.
  eapply gives_bind; [done..|by eapply fold_gives|]. intros x s' HI' Hle' Hx.
  eapply gives_bind; [done..|by eapply fold_gives|]. intros y s'' HI'' Hle'' Hy.
  apply gives_ret; [done..|]. split; [|done].
  eapply lift_sub; [|exact Hx]. by apply (spec_mono _ _ _ _ _ _ Hs).
Qed.
Next Obligation.
  intros A B ???? M ? ? k F G d [x y] [x' y'] [Hx Hy]; simpl in *.
  unfold fold_with, Fold_prod; simpl. by rewrite (lift_eq _ _ _ _ _ _ Hx), (lift_eq _ _ _ _ _ _ Hy).
Qed.
Next Obligation.
  intros A B ???? k Q d b b' [? ?]. apply Forall_app_2; by eapply lift_leaves.
Qed.
Next Obligation. intros A B ???? d [] [] [?%lift_id ?%lift_id]; simpl in *. by subst. Qed.

#[global, program] Instance FoldLaws_ConstrainedSubst : FoldLaws ConstrainedSubst :=
  {| leaves_of c d := leaves_of c.(csubst) d ++ leaves_of c.(cconstraints) d;
     lift R d p q := lift R d p.(csubst) q.(csubst) ∧ lift R d p.(cconstraints) q.(cconstraints) |}.
Next Obligation. intros R R' d x y Hs [? ?]. split; by eapply lift_sub. Qed.
Next Obligation.
  intros M ? ? S wp F I le R P Hs b d s HP HI. apply Forall_app in HP as [? ?]. use_spec Hs.
  eapply gives_bind; [done..|by eapply fold_gives|]. intros x s' HI' Hle' Hx.
  eapply gives_bind; [done..|by eapply fold_gives|]. intros y s'' HI'' Hle'' Hy.
  apply gives_ret; [done..|]. split; [|done].
  eapply lift_sub; [|exact Hx]. by apply (spec_mono _ _ _ _ _ _ Hs).
Qed.
Next Obligation.
  intros M ? ? k F G d [x y] [x' y'] [Hx%lift_eq Hy%lift_eq].
  unfold fold_with at 1 2, Fold_ConstrainedSubst. cbn [csubst cconstraints] in *.
  by rewrite Hx, Hy.
Qed.
Next Obligation.
  intros k Q d b b' [? ?]. apply Forall_app_2; by eapply lift_leaves.
Qed.
Next Obligation. intros d [] [] [?%lift_id ?%lift_id]; simpl in *. by subst. Qed.

(** ** Pure folders *)

Definition wp_partial {E} A (m : outcome E A) (s : unit) (Q : A → unit → Prop) : Prop :=
  ∀ a, m = Val a → Q a s.
Definition wp_total {E} A (m : outcome E A) (s : unit) (Q : A → unit → Prop) : Prop :=
  ∃ a, m = Val a ∧ Q a s.

Lemma wp_partial_laws {E} : WpLaws (@wp_partial E).
Proof.
  constructor; unfold wp_partial.
  - by intros * ? ? [= <-].
  - intros * Hm b (a & Ha & Hb)%bind_Val. by eapply Hm.
  - eauto.
Qed.

Lemma wp_total_laws {E} : WpLaws (@wp_total E).
Proof.
  constructor; unfold wp_total.
  - intros * ?. by eexists.
  - intros * (a & -> & b & Hb & ?). by exists b.
  - intros * ? (a & -> & ?). eauto.
Qed.

(** A predicate of leaves for which nothing is required. *)
Lemma Forall_leaves_true (l : list Leaf) : Forall (λ _, True) l.
Proof. by apply Forall_true. Qed.

Section Pure.
Context (F : Folder Fallible) (R : Family) (HR : Cong R) (P : Leaf → Prop).

(** If the callbacks that return relate their leaves to their results, so
    does a fold that returns. *)
Lemma fold_partial {T} `{FoldLaws T} :
  (∀ l d l', Forall P (leaves_lifetime l d) → fold_lifetime F l d = Val l' → R.(RL) d l l') →
  (∀ t d t', Forall P (leaves_ty t d) →
    match t with TyBoundVar _ | TyInferenceVar _ _ | TyPlaceholder _ => True | _ => False end →
    fold_ty F t d = Val t' → R.(RT) d t t') →
  (∀ t v d c', Forall P (leaves_const_value t v d) →
    (∀ t', fold_ty F t d = Val t' → R.(RT) d t t') →
    match v with CvConcrete _ => False | _ => True end →
    fold_const F (mkConst t v) d = Val c' → R.(RC) d (mkConst t v) c') →
  ∀ (x : T) d y, Forall P (leaves_of x d) → fold_with F x d = Val y → lift R d x y.
Proof.
  intros Hl Ht Hc x d y Hx Hy.
  assert (LeafSpec wp_partial F (λ _, True) (λ _ _, True) (λ _, R) P) as Hs.
  { constructor; try done.
    - apply wp_partial_laws.
    - intros s l d' _ ? ? ?. split_and!; eauto.
    - intros s t d' _ ? ? ? ?. split_and!; eauto.
    - intros s t v d' _ ? IH ? ? ?. split_and!; [done..|]. eapply Hc; eauto.
      intros t' Ht'. by destruct (IH tt I t' Ht') as (_ & _ & ?). }
  by destruct (fold_gives _ _ _ _ _ _ Hs x d tt Hx I y Hy) as (_ & _ & ?).
Qed.

(** If the callbacks return on the leaves of a term, so does the fold. *)
Lemma fold_total {T} `{FoldLaws T} :
  (∀ l d, Forall P (leaves_lifetime l d) → ∃ l', fold_lifetime F l d = Val l' ∧ R.(RL) d l l') →
  (∀ t d, Forall P (leaves_ty t d) →
    match t with TyBoundVar _ | TyInferenceVar _ _ | TyPlaceholder _ => True | _ => False end →
    ∃ t', fold_ty F t d = Val t' ∧ R.(RT) d t t') →
  (∀ t v d, Forall P (leaves_const_value t v d) →
    (∃ t', fold_ty F t d = Val t' ∧ R.(RT) d t t') →
    match v with CvConcrete _ => False | _ => True end →
    ∃ c', fold_const F (mkConst t v) d = Val c' ∧ R.(RC) d (mkConst t v) c') →
  ∀ (x : T) d, Forall P (leaves_of x d) → ∃ y, fold_with F x d = Val y ∧ lift R d x y.
Proof.
  intros Hl Ht Hc x d Hx.
  assert (LeafSpec wp_total F (λ _, True) (λ _ _, True) (λ _, R) P) as Hs.
  { constructor; try done.
    - apply wp_total_laws.
    - intros s l d' _ ?. destruct (Hl l d') as (? & ? & ?); [done|]. by eexists.
    - intros s t d' _ ? ?. destruct (Ht t d') as (? & ? & ?); [done..|]. by eexists.
    - intros s t v d' _ ? IH ?. destruct (Hc t v d') as (? & ? & ?); [done| |done|by eexists].
      destruct (IH tt I) as (t' & ? & _ & _ & ?). by eexists. }
  destruct (fold_gives _ _ _ _ _ _ Hs x d tt Hx I) as (y & ? & _ & _ & ?). by eexists.
Qed.
End Pure.
