(* ===== verification/InPlace.v ===== *)
(** * Maps that reuse an allocation ([chalk-ir/src/fold/in_place.rs])

    [fallible_map_vec] and [fallible_map_box] write the results of a map where the
    mapped values were.  The model has the memory that the unsafe code works on: the
    elements of one allocation, which hold a value of the old or of the new type or have
    been moved out, and the values that were dropped.  What the language leaves
    undefined (reading a value that was moved out or that has the other type, dropping it, freeing
    the allocation twice or with another capacity) has no result.  The second part proves
    that this never happens, and that the maps return what a plain map returns. *)

From stdpp Require Import base list numbers.
From S2P Require Import Prelude Ir Fold.

Section InPlace.
Context {E T U S : Type}.
(** The closure: it takes a value over, changes its captured state and may panic. *)
Context (map : S → T → outcome E U * S).

(** ** Memory *)

Inductive cell := CellT (t : T) | CellU (u : U) | Moved.
Inductive dropped_value := DroppedT (t : T) | DroppedU (u : U).
Record memory := mkMemory {
  cells : list cell;
  cap : nat;
  allocated : bool;
  dropped : list dropped_value
}.

(** [None] is undefined behaviour. *)
Definition Unsafe (A : Type) : Type := memory → option (A * memory).
#[local] Instance Unsafe_ret : MRet Unsafe := λ A a h, Some (a, h).
#[local] Instance Unsafe_bind : MBind Unsafe := λ A B f m h,
  match m h with Some (a, h) => f a h | None => None end.

Definition undefined {A} : Unsafe A := λ _, None.

Definition set_cell (i : nat) (c : cell) (h : memory) : memory :=
  mkMemory (<[i := c]> h.(cells)) h.(cap) h.(allocated) h.(dropped).
Definition record_drop (v : dropped_value) (h : memory) : memory :=
  mkMemory h.(cells) h.(cap) h.(allocated) (h.(dropped) ++ [v]).

(** [ptr::read(ptr.add(i))] of a [T], which is moved out. *)
Definition ptr_read (i : nat) : Unsafe T := λ h,
  match h.(allocated), h.(cells) !! i with
  | true, Some (CellT t) => Some (t, set_cell i Moved h)
  | _, _ => None
  end.

(** [ptr::write(ptr.add(i), u)]: what was there is not dropped. *)
Definition ptr_write (i : nat) (u : U) : Unsafe unit := λ h,
  match h.(allocated), h.(cells) !! i with
  | true, Some _ => Some (tt, set_cell i (CellU u) h)
  | _, _ => None
  end.

(** [ptr::drop_in_place(ptr.add(i))] at either type. *)
Definition drop_in_place_T (i : nat) : Unsafe unit := λ h,
  match h.(allocated), h.(cells) !! i with
  | true, Some (CellT t) => Some (tt, record_drop (DroppedT t) (set_cell i Moved h))
  | _, _ => None
  end.
Definition drop_in_place_U (i : nat) : Unsafe unit := λ h,
  match h.(allocated), h.(cells) !! i with
  | true, Some (CellU u) => Some (tt, record_drop (DroppedU u) (set_cell i Moved h))
  | _, _ => None
  end.

(** [Vec::from_raw_parts(ptr, 0, cap)], dropped at once: the allocation is freed. *)
Definition free (cap' : nat) : Unsafe unit := λ h,
  if h.(allocated) && (cap' =? h.(cap)) then Some (tt, mkMemory h.(cells) h.(cap) false h.(dropped)) else None.

(** [Vec::from_raw_parts(ptr as *mut U, len, cap)]: all the elements must be there. *)
Definition cell_value (c : cell) : option U := match c with CellU u => Some u | _ => None end.
Definition vec_from_raw_parts (len cap' : nat) : Unsafe (list U) := λ h,
  if h.(allocated) && (cap' =? h.(cap)) then
    ys ← mapM (M := option) cell_value (take len h.(cells));
    if length ys =? len then Some (ys, h) else None
  else None.

(** A [for] loop over indices. *)
Fixpoint for_indices (f : nat → Unsafe unit) (indices : list nat) : Unsafe unit :=
  match indices with
  | [] => mret tt
  | i :: indices => _ ← f i; for_indices f indices
  end.

(** ** Vectors *)

Record VecMappedInPlace := mkVecMappedInPlace { vm_len : nat; vm_cap : nat; map_in_progress : nat }.

(** [Drop for VecMappedInPlace]. *)
Definition drop_VecMappedInPlace (self : VecMappedInPlace) : Unsafe unit :=
  _ ← for_indices drop_in_place_U (seq 0 self.(map_in_progress));
  _ ← for_indices drop_in_place_T
        (seq (self.(map_in_progress) + 1) (self.(vm_len) - (self.(map_in_progress) + 1)));
  free self.(vm_cap).

Definition finish (self : VecMappedInPlace) : Unsafe (list U) := vec_from_raw_parts self.(vm_len) self.(vm_cap).

(** The loop: an error or a panic of [map] leaves it, and drops the vector. *)
Fixpoint map_elements (vec : VecMappedInPlace) (indices : list nat) (s : S) : Unsafe (outcome E (list U) * S) :=
  match indices with
  | [] => ys ← finish vec; mret (Val ys, s)
  | i :: indices =>
      val ← ptr_read i;
      let vec := mkVecMappedInPlace vec.(vm_len) vec.(vm_cap) i in
      match map s val with
      | (Val mapped_val, s) => _ ← ptr_write i mapped_val; map_elements vec indices s
      | (Exn e, s) => _ ← drop_VecMappedInPlace vec; mret (Exn e, s)
      | (Panic p, s) => _ ← drop_VecMappedInPlace vec; mret (Panic p, s)
      | (OutOfFuel, s) => _ ← drop_VecMappedInPlace vec; mret (OutOfFuel, s)
      end
  end.

(** [vec.into_iter().map(map).collect()], with the values that are dropped when it stops
    early: those that were not yet mapped and those that were collected. *)
Fixpoint into_iter_map_collect (xs : list T) (s : S) (collected : list U) :
    outcome E (list U) * S * list dropped_value :=
  match xs with
  | [] => (Val collected, s, [])
  | x :: xs =>
      let stop := (DroppedT <$> xs) ++ (DroppedU <$> collected) in
      match map s x with
      | (Val y, s) => into_iter_map_collect xs s (collected ++ [y])
      | (Exn e, s) => (Exn e, s, stop)
      | (Panic p, s) => (Panic p, s, stop)
      | (OutOfFuel, s) => (OutOfFuel, s, stop)
      end
  end.

(** A vector in memory. *)
Definition vec_memory (xs : list T) (cap : nat) : memory := mkMemory (CellT <$> xs) cap true [].

(** The vector is in the allocation of the memory.  Where the allocation is not reused it
    is freed, and a vector that is returned has another one. *)
Definition fallible_map_vec (is_layout_identical is_zst : bool) (xs : list T) (cap : nat) (s : S) :
    option (outcome E (list U) * S * memory) :=
  if negb is_layout_identical || is_zst then
    let '(r, s, drops) := into_iter_map_collect xs s [] in
    Some (r, s, mkMemory (replicate (length xs) Moved) cap false drops)
  else map_elements (mkVecMappedInPlace (length xs) cap 0) (seq 0 (length xs)) s (vec_memory xs cap).

(** ** Boxes *)

(** [map] takes the element over whatever it returns; a [Box<MaybeUninit<U>>] that is
    dropped frees the allocation only. *)
Definition map_boxed (s : S) : Unsafe (outcome E U * S) :=
  val ← ptr_read 0;
  match map s val with
  | (Val mapped_val, s) =>
      _ ← ptr_write 0 mapped_val;
      ys ← vec_from_raw_parts 1 1;
      match ys with [y] => mret (Val y, s) | _ => undefined end
  | (Exn e, s) => _ ← free 1; mret (Exn e, s)
  | (Panic p, s) => _ ← free 1; mret (Panic p, s)
  | (OutOfFuel, s) => _ ← free 1; mret (OutOfFuel, s)
  end.

(** The box is an allocation of one element. *)
Definition fallible_map_box (is_layout_identical is_zst : bool) (x : T) (s : S) :
    option (outcome E U * S * memory) :=
  if negb is_layout_identical || is_zst then
    let '(r, s) := map s x in Some (r, s, mkMemory [Moved] 1 false [])
  else map_boxed s (vec_memory [x] 1).

(** ** The specification *)

(** The elements are mapped in their order; the first error or panic is the result. *)
Fixpoint map_all (xs : list T) (s : S) : outcome E (list U) * S :=
  match xs with
  | [] => (Val [], s)
  | x :: xs =>
      match map s x with
      | (Val y, s) => let '(ys, s) := map_all xs s in (cons y <$> ys, s)
      | (Exn e, s) => (Exn e, s)
      | (Panic p, s) => (Panic p, s)
      | (OutOfFuel, s) => (OutOfFuel, s)
      end
  end.
End InPlace.
Arguments memory : clear implicits.
Arguments cell : clear implicits.
Arguments dropped_value : clear implicits.

(** * Memory safety *)

Section InPlaceThm.
Context {E T U S : Type} (map : S → T → outcome E U * S).
Implicit Types xs : list T.
Implicit Types ys : list U.

Abbreviation mem := (memory T U).
Definition moved_memory (n cap : nat) (drops : list (dropped_value T U)) : mem :=
  mkMemory (replicate n Moved) cap false drops.

(** ** Loops over the cells *)

(** The cells [inner], between others, are dropped one by one. *)
Lemma drop_range_U (l : list (cell T U)) ys k cap drops :
  for_indices drop_in_place_U (seq (length l) (length ys)) (mkMemory (l ++ (CellU <$> ys) ++ k) cap true drops) =
  Some (tt, mkMemory (l ++ replicate (length ys) Moved ++ k) cap true (drops ++ (DroppedU <$> ys))).
Proof.
  revert l drops. induction ys as [|y ys IH]; intros l drops; simpl; [by rewrite app_nil_r|].
  unfold mbind, Unsafe_bind, drop_in_place_U at 1. cbn [allocated cells].
  rewrite lookup_app_r, Nat.sub_diag by done. simpl. unfold set_cell, record_drop. cbn [cells allocated InPlace.cap dropped].
  rewrite insert_app_r_alt, Nat.sub_diag by done. simpl. rewrite !(cons_middle Moved), !app_assoc.
  specialize (IH (l ++ [Moved]) (drops ++ [DroppedU y])). rewrite length_app, Nat.add_1_r in IH.
  rewrite <- !app_assoc in *. exact IH.
Qed.

Lemma drop_range_T (l : list (cell T U)) xs k cap drops :
  for_indices drop_in_place_T (seq (length l) (length xs)) (mkMemory (l ++ (CellT <$> xs) ++ k) cap true drops) =
  Some (tt, mkMemory (l ++ replicate (length xs) Moved ++ k) cap true (drops ++ (DroppedT <$> xs))).
Proof.
  revert l drops. induction xs as [|x xs IH]; intros l drops; simpl; [by rewrite app_nil_r|].
  unfold mbind, Unsafe_bind, drop_in_place_T at 1. cbn [allocated cells].
  rewrite lookup_app_r, Nat.sub_diag by done. simpl. unfold set_cell, record_drop. cbn [cells allocated InPlace.cap dropped].
  rewrite insert_app_r_alt, Nat.sub_diag by done. simpl. rewrite !(cons_middle Moved), !app_assoc.
  specialize (IH (l ++ [Moved]) (drops ++ [DroppedT x])). rewrite length_app, Nat.add_1_r in IH.
  rewrite <- !app_assoc in *. exact IH.
Qed.

(** An element is in [map], those before it are mapped, those after it are not. *)
Lemma drop_vec ys xs cap n :
  n = length ys + Datatypes.S (length xs) →
  drop_VecMappedInPlace (mkVecMappedInPlace n cap (length ys))
    (mkMemory ((CellU <$> ys) ++ Moved :: (CellT <$> xs)) cap true []) =
  Some (tt, moved_memory n cap ((DroppedU <$> ys) ++ (DroppedT <$> xs))).
Proof.
  intros ->. unfold drop_VecMappedInPlace, mbind, Unsafe_bind. cbn [map_in_progress vm_len vm_cap].
  pose proof (drop_range_U [] ys (Moved :: (CellT <$> xs)) cap []) as HU. simpl in HU. rewrite HU.
  replace (_ + Datatypes.S _ - _) with (length xs) by lia.
  pose proof (drop_range_T (replicate (length ys) Moved ++ [Moved]) xs [] cap (DroppedU <$> ys)) as HT.
  rewrite length_app, length_replicate, !app_nil_r, <- !app_assoc in HT. simpl in HT. rewrite HT.
  unfold free. cbn [allocated InPlace.cap]. rewrite Nat.eqb_refl. simpl. do 2 f_equal. unfold moved_memory. f_equal.
  by rewrite replicate_add.
Qed.

(** ** Vectors *)

(** The map of [xs] stops at [x], after the elements [pre] were mapped to [ys]. *)
Definition stops_at xs (s : S) (pre : list T) (x : T) (post : list T) ys (r : outcome E U) (s' : S) : Prop :=
  xs = pre ++ x :: post ∧ ∃ s1, map_all map pre s = (Val ys, s1) ∧ map s1 x = (r, s') ∧ ∀ y, r ≠ Val y.

(** What stopped a map, as its result. *)
Definition stopped (r : outcome E U) : outcome E (list U) := (λ y, [y]) <$> r.

Lemma map_all_cases xs s :
  (∃ ys s', map_all map xs s = (Val ys, s') ∧ length ys = length xs) ∨
  ∃ pre x post ys r s', stops_at xs s pre x post ys r s' ∧ map_all map xs s = (stopped r, s').
Proof.
  revert s. induction xs as [|x xs IH]; intros s; simpl; [left; by exists [], s|].
  destruct (map s x) as [r s1] eqn:Hx. destruct r as [y|e|p|];
    [|right; exists [], x, xs, []; eexists _, s1; (split; [split; [done|]; exists s; split_and!; [done|exact Hx|done]|done])..].
  destruct (IH s1) as [(ys & s' & Hys & Hl)|(pre & x' & post & ys & r & s' & (-> & s2 & Hpre & Hr & Hne) & Hall)].
  - left. exists (y :: ys), s'. rewrite Hys. simpl. by rewrite Hl.
  - right. exists (x :: pre), x', post, (y :: ys), r, s'. rewrite Hall. split.
    + split; [done|]. exists s2. simpl. by rewrite Hx, Hpre.
    + destruct r as [y0|e|p|]; [by destruct (Hne y0)|done..].
Qed.

(** One step of the loop. *)
Lemma ptr_read_here ys x xs cap :
  ptr_read (length ys) (mkMemory ((CellU <$> ys) ++ (CellT <$> x :: xs)) cap true [] : mem) =
  Some (x, mkMemory ((CellU <$> ys) ++ Moved :: (CellT <$> xs)) cap true []).
Proof.
  unfold ptr_read. cbn [allocated cells]. rewrite lookup_app_r, length_fmap, Nat.sub_diag by by rewrite length_fmap.
  simpl. unfold set_cell. cbn [cells allocated InPlace.cap dropped]. do 3 f_equal.
  rewrite insert_app_r_alt by by rewrite length_fmap. by rewrite length_fmap, Nat.sub_diag.
Qed.

Lemma ptr_write_here ys y xs cap :
  ptr_write (length ys) y (mkMemory ((CellU <$> ys) ++ Moved :: (CellT <$> xs)) cap true [] : mem) =
  Some (tt, mkMemory ((CellU <$> (ys ++ [y])) ++ (CellT <$> xs)) cap true []).
Proof.
  unfold ptr_write. cbn [allocated cells]. rewrite lookup_app_r, length_fmap, Nat.sub_diag by by rewrite length_fmap.
  simpl. unfold set_cell. cbn [cells allocated InPlace.cap dropped]. do 3 f_equal.
  rewrite insert_app_r_alt by by rewrite length_fmap. rewrite length_fmap, Nat.sub_diag, fmap_app. simpl.
  by rewrite <- app_assoc.
Qed.

Lemma mapM_cells ys : mapM (M := option) (cell_value (T := T)) (fmap (M := list) CellU ys) = Some ys.
Proof. induction ys as [|y ys IH]; [done|]. rewrite fmap_cons. simpl. by rewrite IH. Qed.

Lemma finish_all ys cap m :
  finish (mkVecMappedInPlace (length ys) cap m) (mkMemory (CellU <$> ys) cap true [] : mem) =
  Some (ys, mkMemory (CellU <$> ys) cap true []).
Proof.
  unfold finish, vec_from_raw_parts. cbn [vm_len vm_cap allocated cells InPlace.cap]. rewrite Nat.eqb_refl. simpl.
  rewrite firstn_all2 by by rewrite length_fmap.
  rewrite mapM_cells.
  simpl. by rewrite Nat.eqb_refl.
Qed.

Lemma map_elements_Val ys xs zs s s' cap m :
  map_all map xs s = (Val zs, s') →
  map_elements map (mkVecMappedInPlace (length ys + length xs) cap m) (seq (length ys) (length xs)) s
    (mkMemory ((CellU <$> ys) ++ (CellT <$> xs)) cap true []) =
  Some ((Val (ys ++ zs), s'), mkMemory (CellU <$> (ys ++ zs)) cap true []).
Proof.
  revert ys zs s m. induction xs as [|x xs IH]; intros ys zs s m; cbn [map_all].
  - intros [= <- <-]. simpl. rewrite !app_nil_r, Nat.add_0_r. unfold mbind, Unsafe_bind. by rewrite finish_all.
  - destruct (map s x) as [r s1] eqn:Hx. destruct r as [y|e|p|]; try done.
    destruct (map_all map xs s1) as [r s2] eqn:Hall. destruct r as [ys'|e|p|]; try done. intros [= <- <-].
    cbn [length seq map_elements]. unfold mbind, Unsafe_bind. rewrite ptr_read_here, Hx, ptr_write_here.
    cbn [vm_len vm_cap]. specialize (IH (ys ++ [y]) ys' s1 (length ys) Hall).
    rewrite length_app, Nat.add_1_r, <- app_assoc in IH. simpl in IH. by rewrite Nat.add_succ_r.
Qed.

Lemma map_elements_stops ys xs pre x post zs r s s' cap m :
  stops_at xs s pre x post zs r s' →
  map_elements map (mkVecMappedInPlace (length ys + length xs) cap m) (seq (length ys) (length xs)) s
    (mkMemory ((CellU <$> ys) ++ (CellT <$> xs)) cap true []) =
  Some ((stopped r, s'), moved_memory (length ys + length xs) cap ((DroppedU <$> (ys ++ zs)) ++ (DroppedT <$> post))).
Proof.
  intros (-> & s1 & Hpre & Hr & Hne). revert ys zs s m Hpre. induction pre as [|x0 pre IH]; intros ys zs s m; cbn [map_all].
  - intros [= <- <-]. cbn [app length seq map_elements]. unfold mbind, Unsafe_bind. rewrite ptr_read_here, Hr, app_nil_r.
    cbn [vm_len vm_cap]. destruct r as [y|e|p|]; [by destruct (Hne y)|by rewrite drop_vec..].
  - destruct (map s x0) as [r0 s2] eqn:Hx. destruct r0 as [y|e|p|]; try done.
    destruct (map_all map pre s2) as [r0 s3] eqn:Hall. destruct r0 as [ys'|e|p|]; try done. intros [= <- <-].
    cbn [app length seq map_elements]. unfold mbind, Unsafe_bind. rewrite ptr_read_here, Hx, ptr_write_here.
    cbn [vm_len vm_cap]. specialize (IH (ys ++ [y]) ys' s2 (length ys) Hall).
    rewrite length_app, Nat.add_1_r, <- app_assoc in IH. simpl in IH. by rewrite Nat.add_succ_r.
Qed.

(** The iterator, where the allocation is not reused. *)
Lemma collect_Val xs s ys s' acc :
  map_all map xs s = (Val ys, s') → into_iter_map_collect map xs s acc = (Val (acc ++ ys), s', []).
Proof.
  revert s acc ys. induction xs as [|x xs IH]; intros s acc ys; simpl; [intros [= <- <-]; by rewrite app_nil_r|].
  destruct (map s x) as [r s1]. destruct r as [y|e|p|]; try done.
  destruct (map_all map xs s1) as [r s2] eqn:Hall. destruct r as [ys'|e|p|]; try done. intros [= <- <-].
  rewrite (IH s1 (acc ++ [y]) ys' Hall). by rewrite <- app_assoc.
Qed.

Lemma collect_stops xs s pre x post ys r s' acc :
  stops_at xs s pre x post ys r s' →
  into_iter_map_collect map xs s acc = (stopped r, s', (DroppedT <$> post) ++ (DroppedU <$> (acc ++ ys))).
Proof.
  intros (-> & s1 & Hpre & Hr & Hne). revert s acc ys Hpre. induction pre as [|x0 pre IH]; intros s acc ys; simpl.
  - intros [= <- <-]. rewrite Hr, app_nil_r. destruct r as [y|e|p|]; [by destruct (Hne y)|done..].
  - destruct (map s x0) as [r0 s2]. destruct r0 as [y|e|p|]; try done.
    destruct (map_all map pre s2) as [r0 s3] eqn:Hall. destruct r0 as [ys'|e|p|]; try done. intros [= <- <-].
    rewrite (IH s2 (acc ++ [y]) ys' Hall). by rewrite <- app_assoc.
Qed.

(** What the memory holds after a map with result [r]. *)
Definition vec_outcome (in_place : bool) xs (cap : nat) (s : S) (r : outcome E (list U)) (h : mem) : Prop :=
  match r with
  | Val ys =>
      h.(dropped) = [] ∧ if in_place then h = mkMemory (CellU <$> ys) cap true [] else h.(allocated) = false
  | _ =>
      h.(allocated) = false ∧
      ∃ pre x post ys r' s', stops_at xs s pre x post ys r' s' ∧ r = stopped r' ∧
        h.(dropped) ≡ₚ (DroppedU <$> ys) ++ (DroppedT <$> post)
  end.

(** C36. The maps that reuse an allocation have no undefined behaviour, whatever the
    closure does and whatever the layouts are, and return what mapping the elements one
    by one returns.  When the map of a vector succeeds nothing is dropped and the results are in the
    allocation, if it can be reused.  When the closure fails or panics on an
    element, the allocation is freed and every value but this element, which the closure has taken, is
    dropped once: those before it as results, those after it as they were.  A box
    behaves like a vector of one element. *)
Theorem fallible_map_safe (is_layout_identical is_zst : bool) :
  (∀ xs cap s, ∃ h,
    fallible_map_vec map is_layout_identical is_zst xs cap s = Some (map_all map xs s, h) ∧
    vec_outcome (is_layout_identical && negb is_zst) xs cap s (map_all map xs s).1 h) ∧
  (∀ x s, ∃ h,
    fallible_map_box map is_layout_identical is_zst x s = Some (map s x, h) ∧ h.(dropped) = [] ∧
    match (map s x).1 with
    | Val y => if is_layout_identical && negb is_zst then h = mkMemory [CellU y] 1 true [] else h.(allocated) = false
    | _ => h.(allocated) = false
    end).
Proof.
  split.
  - intros xs cap s. unfold fallible_map_vec. destruct (map_all_cases xs s)
      as [(ys & s' & Hall & Hl)|(pre & x & post & ys & r & s' & Hstop & Hall)]; rewrite Hall; cbn [fst].
    + pose proof (collect_Val xs s ys s' [] Hall) as Hc. pose proof (map_elements_Val [] xs ys s s' cap 0 Hall) as He.
      simpl in He. destruct is_layout_identical, is_zst; simpl; rewrite ?Hc; eexists; split; try done; exact He.
    + pose proof (collect_stops _ _ _ _ _ _ _ _ [] Hstop) as Hc.
      pose proof (map_elements_stops [] _ _ _ _ _ _ s s' cap 0 Hstop) as He. simpl in He.
      assert (∀ h drops, h.(allocated) = false → h.(dropped) = drops → drops ≡ₚ (DroppedU <$> ys) ++ (DroppedT <$> post) →
        vec_outcome (is_layout_identical && negb is_zst) xs cap s (stopped r) h) as Hout.
      { intros h drops Ha <- Hd. assert (∃ pre x post ys r' s', stops_at xs s pre x post ys r' s' ∧ stopped r = stopped r' ∧
          h.(dropped) ≡ₚ (DroppedU <$> ys) ++ (DroppedT <$> post)) as Hex by (do 6 eexists; split; [exact Hstop|done]).
        destruct Hstop as (_ & _ & _ & _ & Hne). destruct r as [y|e|p|]; [by destruct (Hne y)|by split..]. }
      destruct is_layout_identical, is_zst; simpl; rewrite ?Hc; eexists; (split; [first [done|exact He]|]);
        (eapply Hout; [done|done|]; simpl; first [done|apply Permutation_app_comm]).
  - intros x s. unfold fallible_map_box, map_boxed, mbind, Unsafe_bind. simpl.
    destruct (map s x) as [r s'] eqn:Hr. destruct is_layout_identical, is_zst; simpl;
      try (eexists; split; [done|]; split; [done|]; by destruct r).
    destruct r as [y|e|p|]; simpl; eexists; by split_and!.
Qed.
End InPlaceThm.
