(* ===== verification/Shift.v ===== *)
(** * Shifting and substitution
    ([chalk-ir/src/fold/shift.rs], [fold/subst.rs], [SubstFolder] of [lib.rs])

    The folders that move terms across binders and that replace the variables
    of the innermost binder, with the laws that relate them. *)

From stdpp Require Import base list numbers.
From S2P Require Import Prelude Ir Fold FoldLaws.

(** [result.unwrap()]. *)
Definition unwrap_result {E E' A} (m : outcome E A) : outcome E' A :=
  match m with
  | Val a => Val a
  | Exn _ => Panic PUnwrap
  | Panic p => Panic p
  | OutOfFuel => OutOfFuel
  end.

Lemma unwrap_result_Val {E E' A} (m : outcome E A) (a : A) :
  unwrap_result (E' := E') m = Val a ↔ m = Val a.
Proof. by destruct m; simpl; split; intros; simplify_eq. Qed.

(** ** Shifting in *)

Definition Shifter_adjust (source_binder : DebruijnIndex)
    (bound_var : BoundVar) (outer_binder : DebruijnIndex) : BoundVar :=
  shifted_in_from (shifted_in_from bound_var source_binder) outer_binder.

Definition Shifter (source_binder : DebruijnIndex) : Folder Fallible := {|
  fold_free_var_ty bv d := Val (TyBoundVar (Shifter_adjust source_binder bv d));
  fold_free_var_lifetime bv d := Val (LtBoundVar (Shifter_adjust source_binder bv d));
  fold_free_var_const ty _ bv d := Val (mkConst ty (CvBoundVar (Shifter_adjust source_binder bv d)));
  fold_free_placeholder_ty := default_fold_free_placeholder_ty false;
  fold_free_placeholder_lifetime := default_fold_free_placeholder_lifetime false;
  fold_free_placeholder_const := default_fold_free_placeholder_const false;
  fold_inference_ty := default_fold_inference_ty false;
  fold_inference_lifetime := default_fold_inference_lifetime false;
  fold_inference_const := default_fold_inference_const false;
  override_fold_lifetime := default_fold_lifetime
|}.

(** [Shift::shifted_in_from] and [Shift::shifted_in] (of the trait on terms). *)
Definition term_shifted_in_from {T} `{Fold T} (t : T) (source_binder : DebruijnIndex) : Fallible T :=
  unwrap_result (fold_with (Shifter source_binder) t INNERMOST).
Definition term_shifted_in {T} `{Fold T} (t : T) : Fallible T := term_shifted_in_from t ONE.

(** *** On machine integers

    A [DebruijnIndex] is a [u32], whose additions panic when they overflow.  Depths are
    unbounded in the rest of the development; [ShiftThm.shifted_in_from_spec] says when
    the two differ. *)

Definition debruijn_shifted_in_from_u32 (self outer_binder : DebruijnIndex) : Fallible DebruijnIndex :=
  if (N.of_nat (self + outer_binder) <=? u32_MAX)%N then Val (debruijn_shifted_in_from self outer_binder)
  else Panic POverflow.
Definition shifted_in_from_u32 (self : BoundVar) (outer_binder : DebruijnIndex) : Fallible BoundVar :=
  db ← debruijn_shifted_in_from_u32 self.(debruijn) outer_binder; Val (mkBoundVar db self.(index)).
Definition Shifter_adjust_u32 (source_binder : DebruijnIndex)
    (bound_var : BoundVar) (outer_binder : DebruijnIndex) : Fallible BoundVar :=
  bv ← shifted_in_from_u32 bound_var source_binder; shifted_in_from_u32 bv outer_binder.

Definition Shifter_u32 (source_binder : DebruijnIndex) : Folder Fallible := {|
  fold_free_var_ty bv d := bv ← Shifter_adjust_u32 source_binder bv d; Val (TyBoundVar bv);
  fold_free_var_lifetime bv d := bv ← Shifter_adjust_u32 source_binder bv d; Val (LtBoundVar bv);
  fold_free_var_const ty _ bv d := bv ← Shifter_adjust_u32 source_binder bv d; Val (mkConst ty (CvBoundVar bv));
  fold_free_placeholder_ty := default_fold_free_placeholder_ty false;
  fold_free_placeholder_lifetime := default_fold_free_placeholder_lifetime false;
  fold_free_placeholder_const := default_fold_free_placeholder_const false;
  fold_inference_ty := default_fold_inference_ty false;
  fold_inference_lifetime := default_fold_inference_lifetime false;
  fold_inference_const := default_fold_inference_const false;
  override_fold_lifetime := default_fold_lifetime
|}.

Definition term_shifted_in_from_u32 {T} `{Fold T} (t : T) (source_binder : DebruijnIndex) : Fallible T :=
  unwrap_result (fold_with (Shifter_u32 source_binder) t INNERMOST).

(** ** Shifting out *)

Definition DownShifter_adjust (target_binder : DebruijnIndex)
    (bound_var : BoundVar) (outer_binder : DebruijnIndex) : Fallible BoundVar :=
  match shifted_out_to bound_var target_binder with
  | Some bound_var1 => Val (shifted_in_from bound_var1 outer_binder)
  | None => Exn mkNoSolution
  end.

Definition DownShifter (target_binder : DebruijnIndex) : Folder Fallible := {|
  fold_free_var_ty bv d :=
    bv ← DownShifter_adjust target_binder bv d; Val (TyBoundVar bv);
  fold_free_var_lifetime bv d :=
    bv ← DownShifter_adjust target_binder bv d; Val (LtBoundVar bv);
  fold_free_var_const ty _ bv d :=
    bv ← DownShifter_adjust target_binder bv d; Val (mkConst ty (CvBoundVar bv));
  fold_free_placeholder_ty := default_fold_free_placeholder_ty false;
  fold_free_placeholder_lifetime := default_fold_free_placeholder_lifetime false;
  fold_free_placeholder_const := default_fold_free_placeholder_const false;
  fold_inference_ty := default_fold_inference_ty false;
  fold_inference_lifetime := default_fold_inference_lifetime false;
  fold_inference_const := default_fold_inference_const false;
  override_fold_lifetime := default_fold_lifetime
|}.

(** [Shift::shifted_out_to] and [Shift::shifted_out]. *)
Definition term_shifted_out_to {T} `{Fold T} (t : T) (target_binder : DebruijnIndex) : Fallible T :=
  fold_with (DownShifter target_binder) t INNERMOST.
Definition term_shifted_out {T} `{Fold T} (t : T) : Fallible T := term_shifted_out_to t ONE.

(** ** Substitution *)

(** [slice[index]]. *)
Definition param_at (parameters : Substitution) (index : nat) : Fallible GenericArg :=
  match parameters !! index with Some p => Val p | None => Panic PIndex end.

Definition Subst_free_var {A} (parameters : Substitution) (select : GenericArg → Fallible A)
    `{Fold A} (var : BoundVar → A) (bound_var : BoundVar) (outer_binder : DebruijnIndex) : Fallible A :=
  match index_if_innermost bound_var with
  | Some index =>
      p ← param_at parameters index;
      a ← select p;
      term_shifted_in_from a outer_binder
  | None =>
      bv ← unwrap (shifted_out bound_var);
      Val (var (shifted_in_from bv outer_binder))
  end.

Definition arg_ty_or_panic (p : GenericArg) : Fallible Ty :=
  match p with ArgTy t => Val t | _ => Panic PExplicit end.
Definition arg_lifetime_or_panic (p : GenericArg) : Fallible Lifetime :=
  match p with ArgLifetime t => Val t | _ => Panic PExplicit end.
Definition arg_const_or_panic (p : GenericArg) : Fallible Const :=
  match p with ArgConst t => Val t | _ => Panic PExplicit end.

Definition Subst (parameters : Substitution) : Folder Fallible := {|
  fold_free_var_ty := Subst_free_var parameters arg_ty_or_panic TyBoundVar;
  fold_free_var_lifetime := Subst_free_var parameters arg_lifetime_or_panic LtBoundVar;
  fold_free_var_const ty _ :=
    Subst_free_var parameters arg_const_or_panic (λ bv, mkConst ty (CvBoundVar bv));
  fold_free_placeholder_ty := default_fold_free_placeholder_ty false;
  fold_free_placeholder_lifetime := default_fold_free_placeholder_lifetime false;
  fold_free_placeholder_const := default_fold_free_placeholder_const false;
  fold_inference_ty := default_fold_inference_ty false;
  fold_inference_lifetime := default_fold_inference_lifetime false;
  fold_inference_const := default_fold_inference_const false;
  override_fold_lifetime := default_fold_lifetime
|}.

Definition Subst_apply {T} `{Fold T} (parameters : Substitution) (value : T) : Fallible T :=
  unwrap_result (fold_with (Subst parameters) value INNERMOST).

(** [Binders::substitute]. *)
Definition substitute {T} `{Fold T} (self : Binders T) (parameters : Substitution) : Fallible T :=
  _ ← assert (length self.(binders) =? length parameters);
  Subst_apply parameters self.(value).

(** *** [SubstFolder], behind [Substitution::apply] *)

Definition assert_ty_ref (p : GenericArg) : Fallible Ty :=
  unwrap (match p with ArgTy t => Some t | _ => None end).
Definition assert_lifetime_ref (p : GenericArg) : Fallible Lifetime :=
  unwrap (match p with ArgLifetime t => Some t | _ => None end).
Definition assert_const_ref (p : GenericArg) : Fallible Const :=
  unwrap (match p with ArgConst t => Some t | _ => None end).

Definition SubstFolder_free_var {A} (subst : Substitution) (select : GenericArg → Fallible A)
    `{Fold A} (bound_var : BoundVar) (outer_binder : DebruijnIndex) : Fallible A :=
  _ ← assert (bool_decide (bound_var.(debruijn) = INNERMOST));
  p ← param_at subst bound_var.(index);
  a ← select p;
  term_shifted_in_from a outer_binder.

Definition SubstFolder (subst : Substitution) : Folder Fallible := {|
  fold_free_var_ty := SubstFolder_free_var subst assert_ty_ref;
  fold_free_var_lifetime := SubstFolder_free_var subst assert_lifetime_ref;
  fold_free_var_const _ _ := SubstFolder_free_var subst assert_const_ref;
  fold_free_placeholder_ty := default_fold_free_placeholder_ty false;
  fold_free_placeholder_lifetime := default_fold_free_placeholder_lifetime false;
  fold_free_placeholder_const := default_fold_free_placeholder_const false;
  fold_inference_ty := default_fold_inference_ty false;
  fold_inference_lifetime := default_fold_inference_lifetime false;
  fold_inference_const := default_fold_inference_const false;
  override_fold_lifetime := default_fold_lifetime
|}.

(** [Substitute::apply]. *)
Definition subst_apply {T} `{Fold T} (subst : Substitution) (value : T) : Fallible T :=
  unwrap_result (fold_with (SubstFolder subst) value INNERMOST).

(** [VariableKind::to_bound_variable], [ToGenericArg] and [identity_substitution]. *)
Definition to_bound_variable (k : VariableKind) (bound_var : BoundVar) : GenericArg :=
  match k with
  | VkTy _ => ArgTy (TyBoundVar bound_var)
  | VkLifetime => ArgLifetime (LtBoundVar bound_var)
  | VkConst ty => ArgConst (mkConst ty (CvBoundVar bound_var))
  end.

Definition identity_substitution {T} (self : Binders T) : Substitution :=
  imap (λ i k, to_bound_variable k (mkBoundVar INNERMOST i)) self.(binders).

(** [FnPointer::into_binders]. *)
Definition fn_into_binders (num_binders : nat) (s : Substitution) : Binders Substitution :=
  mkBinders (repeat VkLifetime num_binders) s.

(** [Binders<Binders<T>>::fuse_binders]. *)
Definition fuse_binders {T} `{Fold T} (self : Binders (Binders T)) : Fallible (Binders T) :=
  let num_binders := length self.(binders) in
  let subst := imap (λ i k, to_bound_variable k (mkBoundVar INNERMOST (i + num_binders)))
                 self.(value).(binders) in
  v ← substitute self.(value) subst;
  Val (mkBinders (self.(binders) ++ self.(value).(binders)) v).

(** [Substitution::is_identity_subst]. *)
Definition is_identity_arg (i : nat) (arg : GenericArg) : bool :=
  let index_db := mkBoundVar INNERMOST i in
  match arg with
  | ArgTy (TyBoundVar bv) => bool_decide (index_db = bv)
  | ArgLifetime (LtBoundVar bv) => bool_decide (index_db = bv)
  | ArgConst (mkConst _ (CvBoundVar bv)) => bool_decide (index_db = bv)
  | _ => false
  end.
Definition is_identity_subst (self : Substitution) : bool :=
  forallb id (imap is_identity_arg self).

(** ** Leaves that only a variable callback changes *)

Definition is_bound_leaf (l : Leaf) : bool :=
  match l with
  | LeafTyVar bv d | LeafLtVar bv d | LeafCtVar _ bv d => bound_within bv d
  | _ => true
  end.

(** No variable is bound outside the term. *)
Definition closed {T} `{FoldLaws T} (t : T) (d : nat) : Prop :=
  Forall (λ l, is_bound_leaf l = true) (leaves_of t d).

Lemma shifted_out_to_Some bv d bv1 :
  shifted_out_to bv d = Some bv1 ↔
  d ≤ bv.(debruijn) ∧ bv1 = mkBoundVar (bv.(debruijn) - d) bv.(index).
Proof.
  unfold shifted_out_to, debruijn_shifted_out_to, within.
  destruct (Nat.ltb_spec bv.(debruijn) d); simpl; split.
  - done.
  - lia.
  - by intros [= <-].
  - by intros [_ ->].
Qed.

Lemma shifted_out_to_None bv d : shifted_out_to bv d = None ↔ bv.(debruijn) < d.
Proof.
  unfold shifted_out_to, debruijn_shifted_out_to, within.
  destruct (Nat.ltb_spec bv.(debruijn) d); simpl; split; intros; simplify_eq; try lia; done.
Qed.

Lemma Shifter_adjust_eq n bv d :
  Shifter_adjust n bv d = mkBoundVar (bv.(debruijn) + n + d) bv.(index).
Proof. done. Qed.

(** Case analysis of a leaf that is folded: its variables are free or bound. *)
Ltac leaf_cases :=
  unfold fold_lifetime, default_fold_lifetime, super_fold_lifetime in *; simpl in *;
  unfold default_fold_lifetime in *; simpl in *;
  repeat match goal with
  | H : context [shifted_out_to ?bv ?d] |- _ =>
      let H' := fresh "Hout" in
      destruct (shifted_out_to bv d) eqn:H';
      [apply shifted_out_to_Some in H' as [? ->]|apply shifted_out_to_None in H']
  | |- context [shifted_out_to ?bv ?d] =>
      let H' := fresh "Hout" in
      destruct (shifted_out_to bv d) eqn:H';
      [apply shifted_out_to_Some in H' as [? ->]|apply shifted_out_to_None in H']
  end.

Lemma shifter_total {T} `{FoldLaws T} (t : T) n d :
  ∃ t', fold_with (Shifter n) t d = Val t'.
Proof.
  edestruct (fold_total (T := T) (Shifter n) (leaf_family 0 (λ _, True)) (leaf_family_cong _ _) (λ _, True))
    as (t' & ? & _); [..|by eexists].
  - intros [] d' _; leaf_cases; eexists; (split; [done|apply Forall_leaves_true]).
  - intros [] d' _ Hv; try done; leaf_cases; eexists; (split; [done|apply Forall_leaves_true]).
  - intros t0 [] d' _ (t' & Ht' & _) Hv; try done; leaf_cases; try rewrite Ht'; eexists;
      (split; [done|apply Forall_leaves_true]).
  - apply Forall_leaves_true.
Qed.
