(* ===== verification/ShiftThm.v ===== *)
(** * The laws of shifting and substitution *)

From stdpp Require Import base list numbers.
From S2P Require Import Prelude Ir Fold FoldLaws Shift.

(** Two computed variables with the same depth. *)
Ltac same_var :=
  simpl in *; try done; try lia;
  match goal with
  | |- context [mkBoundVar ?x ?i] =>
    match goal with
    | |- context [mkBoundVar ?y i] =>
        lazymatch x with y => fail | _ => replace x with y by lia; done end
    end
  end.

(** Take a callback's computation apart. *)
Ltac inv_val :=
  repeat match goal with
  | H : (_ ≫= _) = Val _ |- _ => inv_outcome H
  | H : Val _ = Val _ |- _ => injection H as H
  | H : mret _ = Val _ |- _ => injection H as H
  | _ => progress subst
  end; simpl in *.

Ltac leaf_eq :=
  intros; leaf_cases; try done; inv_val;
  repeat (progress (unfold DownShifter_adjust, Shifter_adjust, shifted_in_from,
                      debruijn_shifted_in_from in *; simpl in *; leaf_cases);
          try done; try lia; inv_val).

Ltac leaf_const_eq IH :=
  leaf_eq; try same_var; try (erewrite IH by eassumption; done).

Lemma index_if_innermost_Some bv i :
  index_if_innermost bv = Some i ↔ bv.(debruijn) = 0 ∧ i = bv.(index).
Proof.
  unfold index_if_innermost, index_if_bound_at, INNERMOST. case_decide; naive_solver.
Qed.

Lemma index_if_innermost_None bv : index_if_innermost bv = None ↔ bv.(debruijn) ≠ 0.
Proof.
  unfold index_if_innermost, index_if_bound_at, INNERMOST. case_decide; naive_solver.
Qed.

Lemma shifted_out_eq bv :
  shifted_out bv = if decide (bv.(debruijn) = 0) then None
                   else Some (mkBoundVar (bv.(debruijn) - 1) bv.(index)).
Proof.
  unfold shifted_out, debruijn_shifted_out, debruijn_shifted_out_to, within, ONE.
  destruct bv as [[|n] i]; simpl; [done|]. by rewrite Nat.sub_0_r.
Qed.

(** A free variable under a substitution: innermost or not. *)
Ltac subst_cases :=
  unfold Subst_free_var, SubstFolder_free_var in *; simpl in *;
  repeat match goal with
  | |- context [index_if_innermost ?bv] =>
      let Hi := fresh "Hi" in
      destruct (index_if_innermost bv) eqn:Hi;
      [apply index_if_innermost_Some in Hi as [Hi ->]|apply index_if_innermost_None in Hi];
      simpl in *
  end;
  rewrite ?shifted_out_eq; repeat (case_decide; simpl in *); try lia; simpl in *;
  unfold shifted_in_from, debruijn_shifted_in_from; simpl.

Section Laws.
Context {T : Type} `{FoldLaws T}.
Implicit Types t : T.

Lemma shift_shift_off t t' a b k d :
  k ≤ a → fold_with (Shifter a) t d = Val t' →
  fold_with (Shifter (a + b)) t d = fold_with (Shifter b) t' (k + d).
Proof.
  intros Hk Ht. apply (lift_eq k). revert Ht.
  apply (fold_partial (Shifter a) _ (eq_family_cong _ _ _) (λ _, True)).
  - intros [] d' l' _ Hl; leaf_eq; same_var.
  - intros [] d' t0 _ Hv Ht0; try done; leaf_eq; same_var.
  - intros t0 [] d' c' _ IH Hv Hc; try done; leaf_const_eq IH.
  - apply Forall_leaves_true.
Qed.

Lemma shift_shift t t' a b d :
  fold_with (Shifter a) t d = Val t' →
  fold_with (Shifter (a + b)) t d = fold_with (Shifter b) t' d.
Proof. apply (shift_shift_off t t' a b 0 d). lia. Qed.

Lemma shifter_0 t d : fold_with (Shifter 0) t d = Val t.
Proof.
  edestruct (fold_total (T := T) (Shifter 0) id_family id_family_cong (λ _, True))
    as (t' & -> & ->%lift_id); [| | | |done].
  - intros [] d' _; leaf_eq; eexists; (split; [done|]); simpl; try done; destruct bv; same_var.
  - intros [] d' _ Hv; try done; leaf_eq; eexists; (split; [done|]); simpl; try done; destruct bv; same_var.
  - intros t0 [] d' _ (t' & Ht' & Hr) Hv; try done; leaf_eq; try rewrite Ht';
      eexists; (split; [done|]); simpl in *; subst; try done; destruct bv; same_var.
  - apply Forall_leaves_true.
Qed.

Lemma shift_then_out t t' a d :
  fold_with (Shifter a) t d = Val t' → fold_with (DownShifter a) t' d = Val t.
Proof.
  intros Ht. rewrite <- (shifter_0 t d). symmetry. apply (lift_eq 0). revert Ht.
  apply (fold_partial (Shifter a) _ (eq_family_cong _ _ _) (λ _, True)).
  - intros [] d' l' _ Hl; leaf_eq; same_var.
  - intros [] d' t0 _ Hv Ht0; try done; leaf_eq; same_var.
  - intros t0 [] d' c' _ IH Hv Hc; try done; leaf_const_eq IH.
  - apply Forall_leaves_true.
Qed.

Lemma out_then_shift t t' a d :
  fold_with (DownShifter a) t d = Val t' → fold_with (Shifter a) t' d = Val t.
Proof.
  intros Ht. rewrite <- (shifter_0 t d). symmetry. apply (lift_eq 0). revert Ht.
  apply (fold_partial (DownShifter a) _ (eq_family_cong _ _ _) (λ _, True)).
  - intros [] d' l' _ Hl; leaf_eq; same_var.
  - intros [] d' t0 _ Hv Ht0; try done; leaf_eq; same_var.
  - intros t0 [] d' c' _ IH Hv Hc; try done; leaf_const_eq IH.
  - apply Forall_leaves_true.
Qed.


(** Substitution undoes one level of a shift. *)
Lemma subst_shifted t t' ps n k d :
  k < n → fold_with (Shifter n) t d = Val t' →
  fold_with (Shifter (n - 1)) t d = fold_with (Subst ps) t' (k + d).
Proof.
  intros Hk Ht. apply (lift_eq k). revert Ht.
  apply (fold_partial (Shifter n) _ (eq_family_cong _ _ _) (λ _, True)).
  - intros [] d' l' _ Hl; leaf_eq; subst_cases; same_var.
  - intros [] d' t0 _ Hv Ht0; try done; leaf_eq; subst_cases; same_var.
  - intros t0 [] d' c' _ IH Hv Hc; try done; leaf_eq; subst_cases; try same_var;
      try (erewrite IH by eassumption; done).
  - apply Forall_leaves_true.
Qed.

End Laws.

Lemma shifter_0_ty t d : fold_ty (Shifter 0) t d = Val t.
Proof. exact (shifter_0 (T := Ty) t d). Qed.
Lemma shifter_0_lifetime t d : fold_lifetime (Shifter 0) t d = Val t.
Proof. exact (shifter_0 (T := Lifetime) t d). Qed.
Lemma shifter_0_const t d : fold_const (Shifter 0) t d = Val t.
Proof. exact (shifter_0 (T := Const) t d). Qed.

Lemma SubstFolder_free_var_Subst {A} `{Fold A} ps (sel1 sel2 : GenericArg → Fallible A) var bv d a :
  (∀ p a, sel1 p = Val a → sel2 p = Val a) →
  SubstFolder_free_var ps sel1 bv d = Val a → Subst_free_var ps sel2 var bv d = Val a.
Proof.
  intros Hsel Ha. unfold SubstFolder_free_var in Ha. inv_outcome Ha.
  apply bool_decide_eq_true in Hx as Hbv.
  unfold Subst_free_var, index_if_innermost, index_if_bound_at.
  rewrite decide_True by done. by rewrite Hx0; simpl; rewrite (Hsel _ _ Hx1).
Qed.

Section SubstLaws.
Context {T : Type} `{FoldLaws T}.
Implicit Types t : T.

(** [SubstFolder] panics on more terms than [Subst], and agrees otherwise. *)
Lemma substfolder_subst t t' ps d :
  fold_with (SubstFolder ps) t d = Val t' → fold_with (Subst ps) t d = Val t'.
Proof.
  intros Ht. rewrite <- (shifter_0 t' d). apply (lift_eq 0). revert Ht.
  apply (fold_partial (SubstFolder ps) _ (eq_family_cong _ _ _) (λ _, True)).
  - intros l d' l' _ Hl.
    change (fold_lifetime (Subst ps) l d' = fold_lifetime (Shifter 0) l' d').
    rewrite shifter_0_lifetime. destruct l; leaf_eq.
    eapply SubstFolder_free_var_Subst; [|done]. by intros [] ?.
  - intros t0 d' t1 _ Hv Ht0. change (fold_ty (Subst ps) t0 d' = fold_ty (Shifter 0) t1 d').
    rewrite shifter_0_ty. destruct t0; try done; leaf_eq.
    eapply SubstFolder_free_var_Subst; [|done]. by intros [] ?.
  - intros t0 v d' c' _ IH Hv Hc.
    change (∀ t' : Ty, fold_ty (SubstFolder ps) t0 d' = Val t' →
      fold_ty (Subst ps) t0 d' = fold_ty (Shifter 0) t' d') in IH.
    change (fold_const (Subst ps) (mkConst t0 v) d' = fold_const (Shifter 0) c' d').
    rewrite shifter_0_const. destruct v; try done; leaf_eq.
    + eapply SubstFolder_free_var_Subst; [|done]. by intros [] ?.
    + by rewrite (IH _ Hx), shifter_0_ty.
    + by rewrite (IH _ Hx), shifter_0_ty.
  - apply Forall_leaves_true.
Qed.
End SubstLaws.

(** ** Closed terms, and substitutions that do not panic *)

(** A folder that overrides only the callbacks of free variables. *)
Record var_only (F : Folder Fallible) : Prop := {
  vo_pt : F.(fold_free_placeholder_ty) = default_fold_free_placeholder_ty false;
  vo_pl : F.(fold_free_placeholder_lifetime) = default_fold_free_placeholder_lifetime false;
  vo_pc : F.(fold_free_placeholder_const) = default_fold_free_placeholder_const false;
  vo_it : F.(fold_inference_ty) = default_fold_inference_ty false;
  vo_il : F.(fold_inference_lifetime) = default_fold_inference_lifetime false;
  vo_ic : F.(fold_inference_const) = default_fold_inference_const false;
  vo_l : F.(override_fold_lifetime) = default_fold_lifetime
}.

Lemma Shifter_var_only n : var_only (Shifter n).
Proof. done. Qed.
Lemma DownShifter_var_only n : var_only (DownShifter n).
Proof. done. Qed.
Lemma Subst_var_only ps : var_only (Subst ps).
Proof. done. Qed.
Lemma SubstFolder_var_only ps : var_only (SubstFolder ps).
Proof. done. Qed.
#[export] Hint Resolve Shifter_var_only DownShifter_var_only Subst_var_only
  SubstFolder_var_only : chalk.

Ltac leaf_ret := eexists; split; [done|]; simpl; try done.

Section Closed.
Context {T : Type} `{FoldLaws T}.
Implicit Types x : T.

(** A fold of variables returns if the callbacks of the free variables do. *)
Lemma var_only_total F P x d :
  var_only F →
  (∀ bv d, P (LeafTyVar bv d) → ∀ bv1, shifted_out_to bv d = Some bv1 →
     ∃ t, F.(fold_free_var_ty) bv1 d = Val t) →
  (∀ bv d, P (LeafLtVar bv d) → ∀ bv1, shifted_out_to bv d = Some bv1 →
     ∃ t, F.(fold_free_var_lifetime) bv1 d = Val t) →
  (∀ ty thunk bv d, P (LeafCtVar ty bv d) → ∀ bv1, shifted_out_to bv d = Some bv1 →
     ∃ t, F.(fold_free_var_const) ty thunk bv1 d = Val t) →
  Forall P (leaves_of x d) → ∃ y, fold_with F x d = Val y.
Proof.
  intros [] Ht Hl Hc Hx.
  edestruct (fold_total (T := T) F (leaf_family 0 (λ _, True)) (leaf_family_cong _ _) P)
    as (y & ? & _); [..|exact Hx|by eexists].
  - intros [] d' HP; unfold fold_lifetime, default_fold_lifetime in *; simplify_eq;
      rewrite vo_l0; simpl; rewrite ?vo_il0, ?vo_pl0; try leaf_ret; [|apply Forall_leaves_true..].
    apply Forall_inv in HP. destruct (shifted_out_to bv d') eqn:Hs.
    + destruct (Hl _ _ HP _ Hs) as (t & ->). leaf_ret. apply Forall_leaves_true.
    + leaf_ret. apply Forall_leaves_true.
  - intros [] d' HP Hv; try done; simpl; rewrite ?vo_it0, ?vo_pt0; try leaf_ret;
      [by constructor| |by constructor].
    apply Forall_inv in HP. destruct (shifted_out_to bv d') eqn:Hs.
    + destruct (Ht _ _ HP _ Hs) as (t & ->). leaf_ret. apply Forall_leaves_true.
    + leaf_ret. apply Forall_leaves_true.
  - intros t0 [] d' HP (t' & Ht' & _) Hv; try done; simpl; rewrite ?vo_ic0, ?vo_pc0; simpl;
      rewrite ?Ht'; try leaf_ret; try apply Forall_leaves_true.
    apply Forall_inv in HP. destruct (shifted_out_to bv d') eqn:Hs.
    + destruct (Hc t0 (Val t') _ _ HP _ Hs) as (t & ->). leaf_ret. apply Forall_leaves_true.
    + leaf_ret. apply Forall_leaves_true.
Qed.

(** Variables bound inside a term are never seen by its folder. *)
Lemma fold_closed F x d : var_only F → closed x d → fold_with F x d = Val x.
Proof.
  intros HF Hx. pose proof HF as [].
  destruct (var_only_total F (λ l, is_bound_leaf l = true) x d HF) as (y & Hy); [| | |done|].
  1-3: intros * Hb%Nat.ltb_lt ? []%shifted_out_to_Some; lia.
  rewrite Hy. f_equal. symmetry. apply (lift_id d).
  revert Hy. apply (fold_partial F id_family id_family_cong (λ l, is_bound_leaf l = true)); [..|done].
  - intros l d' l' Hb Hl. unfold fold_lifetime, default_fold_lifetime in *. rewrite vo_l0 in Hl.
    destruct l; simpl in *; rewrite ?vo_il0, ?vo_pl0 in Hl;
      try (injection Hl as <-; done); try (simpl in Hl; injection Hl as <-; done).
    apply Forall_inv in Hb. apply Nat.ltb_lt in Hb. leaf_cases; [lia|]. by injection Hl as <-.
  - intros [] d' t' Hb Hv Ht; try done; simpl in *; rewrite ?vo_it0, ?vo_pt0 in Ht;
      try (injection Ht as <-; done).
    apply Forall_inv in Hb. apply Nat.ltb_lt in Hb. leaf_cases; [lia|]. by injection Ht as <-.
  - intros t0 [] d' c' Hb IH Hv Hc; try done; simpl in *; rewrite ?vo_ic0, ?vo_pc0 in Hc.
    + apply Forall_inv in Hb. apply Nat.ltb_lt in Hb. leaf_cases; [lia|]. by injection Hc as <-.
    + unfold default_fold_inference_const in Hc. inv_val. by rewrite (IH _ Hx0).
    + unfold default_fold_free_placeholder_const in Hc. inv_val. by rewrite (IH _ Hx0).
Qed.
End Closed.

(** The free variables of a term are answered by the parameters: an innermost
    variable indexes a parameter of its kind. *)
Definition leaf_answered (ps : Substitution) (l : Leaf) : Prop :=
  match l with
  | LeafTyVar bv d => bv.(debruijn) = d → ∃ t, ps !! bv.(index) = Some (ArgTy t)
  | LeafLtVar bv d => bv.(debruijn) = d → ∃ t, ps !! bv.(index) = Some (ArgLifetime t)
  | LeafCtVar _ bv d => bv.(debruijn) = d → ∃ t, ps !! bv.(index) = Some (ArgConst t)
  | _ => True
  end.

Lemma Subst_free_var_total {A} `{FoldLaws A} ps sel var (inj : A → GenericArg) bv d :
  (∀ a, sel (inj a) = Val a) →
  (bv.(debruijn) = 0 → ∃ t, ps !! bv.(index) = Some (inj t)) →
  ∃ t, Subst_free_var ps sel var bv d = Val t.
Proof.
  intros Hsel Hps. unfold Subst_free_var.
  destruct (index_if_innermost bv) as [i|] eqn:Hi.
  - apply index_if_innermost_Some in Hi as [Hi ->]. destruct (Hps Hi) as (t & Ht).
    unfold param_at. rewrite Ht. simpl. rewrite Hsel. simpl.
    destruct (shifter_total t d 0) as (t' & Ht'). exists t'. by apply unwrap_result_Val.
  - apply index_if_innermost_None in Hi. rewrite shifted_out_eq, decide_False by done. by eexists.
Qed.

Lemma subst_total {T} `{FoldLaws T} ps (x : T) d :
  Forall (leaf_answered ps) (leaves_of x d) → ∃ y, fold_with (Subst ps) x d = Val y.
Proof.
  apply var_only_total; [auto with chalk|..]; simpl.
  - intros bv d' Hbv bv1 [? ->]%shifted_out_to_Some.
    apply (Subst_free_var_total (A := Ty) ps _ _ ArgTy); [done|]. simpl. intros. apply Hbv. lia.
  - intros bv d' Hbv bv1 [? ->]%shifted_out_to_Some.
    apply (Subst_free_var_total (A := Lifetime) ps _ _ ArgLifetime); [done|]. simpl. intros. apply Hbv. lia.
  - intros ty thunk bv d' Hbv bv1 [? ->]%shifted_out_to_Some.
    apply (Subst_free_var_total (A := Const) ps _ _ ArgConst); [done|]. simpl. intros. apply Hbv. lia.
Qed.

(** ** Substitution commutes with shifting *)

(** [SubstFolder ps] followed by a shift into [n] binders. *)
Definition SubstShifter (ps : Substitution) (n : nat) : Folder Fallible := {|
  fold_free_var_ty bv d := SubstFolder_free_var ps assert_ty_ref bv (n + d);
  fold_free_var_lifetime bv d := SubstFolder_free_var ps assert_lifetime_ref bv (n + d);
  fold_free_var_const _ _ bv d := SubstFolder_free_var ps assert_const_ref bv (n + d);
  fold_free_placeholder_ty := default_fold_free_placeholder_ty false;
  fold_free_placeholder_lifetime := default_fold_free_placeholder_lifetime false;
  fold_free_placeholder_const := default_fold_free_placeholder_const false;
  fold_inference_ty := default_fold_inference_ty false;
  fold_inference_lifetime := default_fold_inference_lifetime false;
  fold_inference_const := default_fold_inference_const false;
  override_fold_lifetime := default_fold_lifetime
|}.

Lemma SubstFolder_free_var_shift {A} `{FoldLaws A} ps (sel : GenericArg → Fallible A) bv n d a :
  SubstFolder_free_var ps sel bv d = Val a →
  SubstFolder_free_var ps sel bv (n + d) = fold_with (Shifter n) a d.
Proof.
  unfold SubstFolder_free_var. intros Ha. inv_outcome Ha. rewrite Hx. simpl. rewrite Hx0. simpl.
  rewrite Hx1. simpl. unfold term_shifted_in_from in *. rewrite unwrap_result_Val in Ha.
  pose proof (shift_shift_off x1 a d n d 0 (Nat.le_refl d) Ha) as Hs.
  rewrite Nat.add_0_r in Hs. rewrite <- Hs, (Nat.add_comm d n).
  unfold INNERMOST. destruct (shifter_total x1 (n + d) 0) as (y & Hy). by rewrite Hy.
Qed.

(** The type of a constant has no variables or placeholders. *)
Definition const_ground (ty : Ty) : Prop := ∀ d, leaves_ty ty d = [].

Lemma fold_ground F ty d : var_only F → const_ground ty → fold_ty F ty d = Val ty.
Proof.
  intros HF Hg. refine (fold_closed (T := Ty) F ty d HF _).
  unfold closed. simpl. rewrite Hg. constructor.
Qed.

(** The type of a constant is ground. *)
Definition leaf_const_ground (l : Leaf) : Prop :=
  match l with
  | LeafCtVar ty _ _ | LeafCtInfer ty _ | LeafCtPlaceholder ty _ => const_ground ty
  | _ => True
  end.

(** A predicate of leaves that moving a term under [n] binders preserves. *)
Record shift_stable (Q : Leaf → Prop) (n : nat) : Prop := {
  ss_ground l : Q l →
    match l with
    | LeafCtVar ty _ _ | LeafCtInfer ty _ | LeafCtPlaceholder ty _ => const_ground ty
    | _ => True
    end;
  ss_ty bv d : Q (LeafTyVar bv d) → d ≤ bv.(debruijn) → Q (LeafTyVar (shifted_in_from bv n) (n + d));
  ss_lt bv d : Q (LeafLtVar bv d) → d ≤ bv.(debruijn) → Q (LeafLtVar (shifted_in_from bv n) (n + d));
  ss_ct ty bv d :
    Q (LeafCtVar ty bv d) → d ≤ bv.(debruijn) → Q (LeafCtVar ty (shifted_in_from bv n) (n + d));
  ss_ty_bound bv d : Q (LeafTyVar bv d) → bv.(debruijn) < d → Q (LeafTyVar bv (n + d));
  ss_lt_bound bv d : Q (LeafLtVar bv d) → bv.(debruijn) < d → Q (LeafLtVar bv (n + d));
  ss_ct_bound ty bv d : Q (LeafCtVar ty bv d) → bv.(debruijn) < d → Q (LeafCtVar ty bv (n + d))
}.

Lemma down_up bv n d :
  d ≤ bv.(debruijn) →
  mkBoundVar (bv.(debruijn) - d + n + d) bv.(index) = shifted_in_from bv n.
Proof.
  intros. unfold shifted_in_from, debruijn_shifted_in_from. f_equal. lia.
Qed.

Section SubstShift.
Context {T : Type} `{FoldLaws T}.
Implicit Types x : T.

Lemma subst_then_shift x y ps n d :
  fold_with (SubstFolder ps) x d = Val y →
  fold_with (SubstShifter ps n) x d = fold_with (Shifter n) y d.
Proof.
  intros Hx. apply (lift_eq 0). revert Hx.
  apply (fold_partial (SubstFolder ps) _ (eq_family_cong _ _ _) (λ _, True)).
  - intros [] d' l' _ Hl; try (by leaf_eq). simpl in Hl. leaf_cases.
    + change (SubstFolder_free_var ps assert_lifetime_ref
        (mkBoundVar (bv.(debruijn) - d') bv.(index)) (n + d') = fold_with (Shifter n) l' d').
      by apply SubstFolder_free_var_shift.
    + injection Hl as <-. leaf_eq.
  - intros [] d' t0 _ Hv Ht0; try done; try (by leaf_eq). leaf_cases.
    + by apply (SubstFolder_free_var_shift (A := Ty)).
    + injection Ht0 as <-. leaf_eq.
  - intros t0 [] d' c' _ IH Hv Hc; try done; [|leaf_const_eq IH..]. leaf_cases.
    + by apply (SubstFolder_free_var_shift (A := Const)).
    + injection Hc as <-. leaf_eq.
  - apply Forall_leaves_true.
Qed.

Lemma shift_then_subst x y ps n d :
  fold_with (Shifter n) x d = Val y →
  fold_with (SubstShifter ps n) x d = fold_with (SubstFolder ps) y (n + d).
Proof.
  intros Hx. apply (lift_eq n). revert Hx.
  apply (fold_partial (Shifter n) _ (eq_family_cong _ _ _) (λ _, True)).
  - intros [] d' l' _ Hl; leaf_eq; same_var.
  - intros [] d' t0 _ Hv Ht0; try done; leaf_eq; same_var.
  - intros t0 [] d' c' _ IH Hv Hc; try done; leaf_eq; try same_var;
      erewrite IH by eassumption; done.
  - apply Forall_leaves_true.
Qed.

(** Substituting below [n] binders in a shifted term is shifting the
    substituted term. *)
Lemma subst_shift_comm x y z ps n d :
  fold_with (SubstFolder ps) x d = Val y → fold_with (Shifter n) x d = Val z →
  fold_with (SubstFolder ps) z (n + d) = fold_with (Shifter n) y d.
Proof.
  intros Hy Hz. rewrite <- (shift_then_subst _ _ _ _ _ Hz). by apply subst_then_shift.
Qed.

(** The leaves of a shifted term are those of the term, [n] binders deeper,
    if the types of constants have no leaves. *)
Lemma shift_leaves (Q : Leaf → Prop) x y n d :
  shift_stable Q n → fold_with (Shifter n) x d = Val y →
  Forall Q (leaves_of x d) → Forall Q (leaves_of y (n + d)).
Proof.
  intros HQ Hy Hx. apply (lift_leaves n Q d x y). revert Hy.
  apply (fold_partial (Shifter n) _ (leaf_family_cong _ _) Q); [..|exact Hx].
  - intros l d' l' Hl Hv; destruct l; try apply Forall_inv in Hl; leaf_eq; try (by constructor); constructor; try done.
    + rewrite down_up by done. by apply (ss_lt Q n HQ).
    + by apply (ss_lt_bound Q n HQ).
  - intros [] d' t' Ht Hv Hv'; try done; apply Forall_inv in Ht; leaf_eq; try (by constructor);
      constructor; try done.
    + rewrite down_up by done. by apply (ss_ty Q n HQ).
    + by apply (ss_ty_bound Q n HQ).
  - intros t0 [] d' c' Hc IH Hv Hc'; try done; apply Forall_inv in Hc;
      pose proof (ss_ground Q n HQ _ Hc) as Hg; simpl in Hg;
      pose proof (fold_ground (Shifter n) t0 d' (Shifter_var_only n) Hg) as Hf;
      leaf_eq; rewrite ?Hf in *; simplify_eq; rewrite ?Hg; simpl; constructor; try done.
    + rewrite down_up by done. by apply (ss_ct Q n HQ).
    + by apply (ss_ct_bound Q n HQ).
Qed.
End SubstShift.

(** ** Machine integers *)

(** A variable that is free in the term has a depth that fits a [u32]. *)
Definition leaf_fits_u32 (l : Leaf) : Prop :=
  match l with
  | LeafTyVar bv d | LeafLtVar bv d | LeafCtVar _ bv d =>
      d ≤ bv.(debruijn) → (N.of_nat bv.(debruijn) ≤ u32_MAX)%N
  | _ => True
  end.

(** The folder that adds the depth of the binders to a free variable and leaves the term as it is. *)
Definition DepthCheck : Folder Fallible := {|
  fold_free_var_ty bv d := bv ← shifted_in_from_u32 bv d; Val (TyBoundVar bv);
  fold_free_var_lifetime bv d := bv ← shifted_in_from_u32 bv d; Val (LtBoundVar bv);
  fold_free_var_const ty _ bv d := bv ← shifted_in_from_u32 bv d; Val (mkConst ty (CvBoundVar bv));
  fold_free_placeholder_ty := default_fold_free_placeholder_ty false;
  fold_free_placeholder_lifetime := default_fold_free_placeholder_lifetime false;
  fold_free_placeholder_const := default_fold_free_placeholder_const false;
  fold_inference_ty := default_fold_inference_ty false;
  fold_inference_lifetime := default_fold_inference_lifetime false;
  fold_inference_const := default_fold_inference_const false;
  override_fold_lifetime := default_fold_lifetime
|}.
Lemma DepthCheck_var_only : var_only DepthCheck.
Proof. done. Qed.

Lemma shifted_in_from_u32_eq bv d :
  shifted_in_from_u32 bv d =
    if (N.of_nat (bv.(debruijn) + d) <=? u32_MAX)%N then Val (shifted_in_from bv d) else Panic POverflow.
Proof. unfold shifted_in_from_u32, debruijn_shifted_in_from_u32. by destruct (_ <=? _)%N. Qed.

(** Only the last addition can overflow. *)
Lemma Shifter_adjust_u32_eq n bv d :
  Shifter_adjust_u32 n bv d =
    if (N.of_nat (bv.(debruijn) + n + d) <=? u32_MAX)%N then Val (Shifter_adjust n bv d) else Panic POverflow.
Proof.
  unfold Shifter_adjust_u32. rewrite shifted_in_from_u32_eq. destruct (N.leb_spec (N.of_nat (bv.(debruijn) + n)) u32_MAX).
  - simpl. by rewrite shifted_in_from_u32_eq.
  - simpl. destruct (N.leb_spec (N.of_nat (bv.(debruijn) + n + d)) u32_MAX); [lia|done].
Qed.

Lemma adjust_u32_check bv n d : d ≤ bv.(debruijn) →
  Shifter_adjust_u32 n (mkBoundVar (bv.(debruijn) - d) bv.(index)) d =
  shifted_in_from_u32 (mkBoundVar (bv.(debruijn) - d + n + d - (n + d)) bv.(index)) (n + d).
Proof.
  intros Hd. rewrite Shifter_adjust_u32_eq, shifted_in_from_u32_eq. simpl.
  unfold Shifter_adjust, shifted_in_from, debruijn_shifted_in_from. simpl.
  replace (bv.(debruijn) - d + n + d - (n + d) + (n + d)) with (bv.(debruijn) - d + n + d) by lia. done.
Qed.

Lemma depth_check_var bv d : d ≤ bv.(debruijn) →
  shifted_in_from_u32 (mkBoundVar (bv.(debruijn) - d) bv.(index)) d =
    if (N.of_nat bv.(debruijn) <=? u32_MAX)%N then Val bv else Panic POverflow.
Proof.
  intros Hd. rewrite shifted_in_from_u32_eq. unfold shifted_in_from, debruijn_shifted_in_from. destruct bv as [x i].
  simpl in *. by rewrite Nat.sub_add.
Qed.

Section U32.
Context {T : Type} `{FoldLaws T}.
Implicit Types t : T.

Lemma shifter_u32_check t t' n d :
  fold_with (Shifter n) t d = Val t' → fold_with (Shifter_u32 n) t d = fold_with DepthCheck t' (n + d).
Proof.
  intros Ht. apply (lift_eq n). revert Ht.
  apply (fold_partial (Shifter n) _ (eq_family_cong _ _ _) (λ _, True)).
  - intros [] d' l' _ Hl; leaf_eq; try done; try lia. by rewrite adjust_u32_check.
  - intros [] d' t0 _ Hv Ht0; try done; leaf_eq; try done; try lia. by rewrite adjust_u32_check.
  - intros t0 [] d' c' _ IH Hv Hc; try done; leaf_eq; try done; try lia; [by rewrite adjust_u32_check|..].
    all: erewrite IH by eassumption; done.
  - apply Forall_leaves_true.
Qed.

Lemma depth_check_fits t d : Forall leaf_fits_u32 (leaves_of t d) → fold_with DepthCheck t d = Val t.
Proof.
  intros Ht. edestruct (fold_total (T := T) DepthCheck id_family id_family_cong leaf_fits_u32)
    as (t' & -> & ->%lift_id); [| | |exact Ht|done].
  - intros [] d' Hv; try apply Forall_inv in Hv; leaf_eq; try (eexists; split; [done|]; done).
    rewrite depth_check_var, (proj2 (N.leb_le _ _)) by auto. by eexists.
  - intros [] d' Hv Hk; try done; apply Forall_inv in Hv; leaf_eq; try (eexists; split; [done|]; done).
    rewrite depth_check_var, (proj2 (N.leb_le _ _)) by auto. by eexists.
  - intros t0 [] d' Hv (t' & Ht' & Hr) Hk; try done; apply Forall_inv in Hv; leaf_eq;
      try rewrite Ht'; simpl in *; subst; try (eexists; split; [done|]; done).
    rewrite depth_check_var, (proj2 (N.leb_le _ _)) by auto. by eexists.
Qed.

Definition wp_overflow A (m : Fallible A) (s : unit) (Q : A → unit → Prop) : Prop :=
  m = Panic POverflow ∨ ∃ a, m = Val a ∧ Q a s.
Lemma wp_overflow_laws : WpLaws wp_overflow.
Proof.
  constructor; unfold wp_overflow.
  - intros * ?. right. by eexists.
  - intros * [->|(a & -> & [Hb|(b & Hb & ?)])]; [by left|by left|]. right. by exists b.
  - intros * ? [->|(a & -> & ?)]; eauto.
Qed.

(** The check gives the term back or overflows. *)
Lemma depth_check_cases t d : fold_with DepthCheck t d = Val t ∨ fold_with DepthCheck t d = Panic POverflow.
Proof.
  assert (LeafSpec wp_overflow DepthCheck (λ _, True) (λ _ _, True) (λ _, id_family) (λ _, True)) as Hs.
  { constructor; try done; [apply wp_overflow_laws|intros; apply id_family_cong| | |].
    - intros s [] d' _ _; leaf_eq; unfold gives, wp_overflow; try (right; eexists; split; [done|]; done).
      rewrite depth_check_var by done. case_match; [right; by eexists|by left].
    - intros s [] d' _ _ Hv; try done; leaf_eq; unfold gives, wp_overflow; try (right; eexists; split; [done|]; done).
      rewrite depth_check_var by done. case_match; [right; by eexists|by left].
    - intros s t0 [] d' _ _ IH Hv; try done; leaf_eq; destruct (IH tt I) as [IH'|(t' & IH' & _ & _ & Ht')];
        simpl in *; subst; unfold gives, wp_overflow; rewrite ?IH'; try (by left);
        try (right; eexists; split; [done|]; done).
      all: rewrite depth_check_var by done; case_match; [right; by eexists|by left]. }
  destruct (fold_gives _ _ _ _ _ _ Hs t d tt (Forall_leaves_true _) I) as [Hp|(t' & Hv & _ & _ & ->%lift_id)]; auto.
Qed.

(** A term that passes the check fits, if its constants have ground types. *)
Lemma depth_check_only_fits t d : Forall leaf_const_ground (leaves_of t d) →
  fold_with DepthCheck t d = Val t → Forall leaf_fits_u32 (leaves_of t d).
Proof.
  intros Hg Ht.
  assert (∀ bv bv' d', d' ≤ bv.(debruijn) →
    shifted_in_from_u32 (mkBoundVar (bv.(debruijn) - d') bv.(index)) d' = Val bv' →
    bv' = bv ∧ (N.of_nat bv.(debruijn) ≤ u32_MAX)%N) as Hvar.
  { intros bv bv' d' Hd. rewrite depth_check_var by done.
    destruct (N.leb_spec (N.of_nat bv.(debruijn)) u32_MAX); [by intros [= <-]|done]. }
  apply (lift_leaves 0 leaf_fits_u32 d t t). revert Ht.
  apply (fold_partial DepthCheck _ (leaf_family_cong 0 _) leaf_const_ground); [..|exact Hg].
  - intros [] d' l' _ Hl; leaf_eq; repeat constructor; simpl; try done; try lia.
    by apply Hvar in Hx as [-> ?].
  - intros [] d' l' _ Hv Hl; try done; leaf_eq; repeat constructor; simpl; try done; try lia.
    by apply Hvar in Hx as [-> ?].
  - intros t0 [] d' l' Hc IH Hv Hl; try done; apply Forall_inv in Hc; simpl in Hc; leaf_eq;
      rewrite ?(fold_ground DepthCheck t0 d' DepthCheck_var_only Hc) in *; simplify_eq;
      rewrite ?Hc; repeat constructor; simpl; try done; try lia.
    by apply Hvar in Hx as [-> ?].
Qed.
End U32.

(** ** The properties *)

(** C20. Shifting a term into [k] binders, with unbounded depths, gives a term; shifting it
    out of [k] binders gives the first term back, and shifting it into [j] more
    binders is shifting the first term into [k + j].  With the [u32] depths of the code the shift gives the
    same term or panics with an overflow; it does not panic when the depths of the variables that
    are free in the result fit, and only then if the types of constants are ground.  (The
    number of binders of a term that are nested in one another is not checked.) *)
Theorem shifted_in_from_spec {T} `{FoldLaws T} (t : T) (k : nat) :
  ∃ t', term_shifted_in_from t k = Val t' ∧
    term_shifted_out_to t' k = Val t ∧
    (∀ j, term_shifted_in_from t' j = term_shifted_in_from t (k + j)) ∧
    (term_shifted_in_from_u32 t k = Val t' ∨ term_shifted_in_from_u32 t k = Panic POverflow) ∧
    (Forall leaf_fits_u32 (leaves_of t' k) → term_shifted_in_from_u32 t k = Val t') ∧
    (Forall leaf_const_ground (leaves_of t' k) → term_shifted_in_from_u32 t k = Val t' →
      Forall leaf_fits_u32 (leaves_of t' k)).
Proof.
  destruct (shifter_total t k INNERMOST) as (t' & Ht'). exists t'.
  assert (term_shifted_in_from_u32 t k = unwrap_result (fold_with DepthCheck t' k)) as ->.
  { unfold term_shifted_in_from_u32. rewrite (shifter_u32_check t t' k INNERMOST) by done. by rewrite Nat.add_0_r. }
  split_and!.
  - unfold term_shifted_in_from. by rewrite Ht'.
  - by apply shift_then_out.
  - intros j. unfold term_shifted_in_from. by rewrite (shift_shift _ _ _ _ _ Ht').
  - destruct (depth_check_cases t' k) as [-> | ->]; [by left|by right].
  - intros Hf. by rewrite depth_check_fits.
  - rewrite unwrap_result_Val. by apply depth_check_only_fits.
Qed.

(** C21. Shifting out of [k] binders succeeds with [t'] exactly when the term is
    the shift of [t'] into [k] binders; so it fails on a term that mentions one
    of the [k] binders, and loses nothing otherwise. *)
Theorem shifted_out_to_spec {T} `{FoldLaws T} (t t' : T) (k : nat) :
  term_shifted_out_to t k = Val t' ↔ term_shifted_in_from t' k = Val t.
Proof.
  unfold term_shifted_out_to, term_shifted_in_from. rewrite unwrap_result_Val. split.
  - apply out_then_shift.
  - apply shift_then_out.
Qed.

(** C22. Substituting into a term that was shifted in by one binder gives the
    term back, whatever the parameters are. *)
Theorem Subst_apply_shifted_in {T} `{FoldLaws T} (ps : Substitution) (t : T) :
  (term_shifted_in t ≫= Subst_apply ps) = Val t.
Proof.
  unfold term_shifted_in, term_shifted_in_from, Subst_apply.
  destruct (shifter_total t ONE INNERMOST) as (t' & Ht'). rewrite Ht'. simpl.
  apply unwrap_result_Val. rewrite <- (shifter_0 t INNERMOST).
  by rewrite (subst_shifted t t' ps ONE 0 INNERMOST) by (done || unfold ONE; lia).
Qed.

(** C23. [Substitution::apply], which panics on a variable of an outer binder,
    agrees with [Subst::apply] whenever it returns. *)
Theorem subst_apply_Subst {T} `{FoldLaws T} (ps : Substitution) (t t' : T) :
  subst_apply ps t = Val t' → Subst_apply ps t = Val t'.
Proof.
  unfold subst_apply, Subst_apply. rewrite !unwrap_result_Val. apply substfolder_subst.
Qed.

(** [Subst::apply] does not panic when every variable of the innermost
    binder indexes a parameter of its own kind. *)
Theorem Subst_apply_total {T} `{FoldLaws T} (ps : Substitution) (t : T) :
  Forall (leaf_answered ps) (leaves_of t INNERMOST) → ∃ t', Subst_apply ps t = Val t'.
Proof.
  intros Ht. destruct (subst_total ps t INNERMOST Ht) as (t' & Ht').
  exists t'. unfold Subst_apply. by rewrite Ht'.
Qed.

(** A term without free variables is a fixed point of shifting in, shifting
    out and substitution. *)
Theorem closed_unchanged {T} `{FoldLaws T} (ps : Substitution) (t : T) (k : nat) :
  closed t INNERMOST →
  term_shifted_in_from t k = Val t ∧ term_shifted_out_to t k = Val t ∧
  Subst_apply ps t = Val t ∧ subst_apply ps t = Val t.
Proof.
  intros Ht. unfold term_shifted_in_from, term_shifted_out_to, Subst_apply, subst_apply.
  by rewrite !(fold_closed _ t) by auto with chalk.
Qed.

(** ** Witnesses *)

(** [for<'a> fn(&'a ^1.0)], with [^1.0] bound outside. *)
Definition sample_ty : Ty :=
  TyFunction 1 (mkFnSig AbiRust Safe false)
    [ArgTy (TyRef Not (LtBoundVar (mkBoundVar 0 0)) (TyBoundVar (mkBoundVar 1 0)))].

Lemma subst_apply_Subst_witness :
  subst_apply [ArgTy TyStr] sample_ty =
    Val (TyFunction 1 (mkFnSig AbiRust Safe false)
           [ArgTy (TyRef Not (LtBoundVar (mkBoundVar 0 0)) TyStr)]) ∧
  Subst_apply [ArgTy TyStr] sample_ty =
    Val (TyFunction 1 (mkFnSig AbiRust Safe false)
           [ArgTy (TyRef Not (LtBoundVar (mkBoundVar 0 0)) TyStr)]).
Proof.
  split; [reflexivity|]. apply (subst_apply_Subst [ArgTy TyStr] sample_ty). reflexivity.
Defined.

Lemma Subst_apply_total_witness :
  Forall (leaf_answered [ArgTy TyStr]) (leaves_of sample_ty INNERMOST) ∧
  ∃ t', Subst_apply [ArgTy TyStr] sample_ty = Val t'.
Proof.
  assert (Forall (leaf_answered [ArgTy TyStr]) (leaves_of sample_ty INNERMOST)) as Hs.
  { simpl. repeat constructor; simpl; intros; first [done|by eexists]. }
  split; [exact Hs|]. apply (Subst_apply_total [ArgTy TyStr] sample_ty Hs).
Defined.

Lemma closed_unchanged_witness :
  closed (TyRef Mut LtStatic (TyPlaceholder (mkPlaceholder universe_root 3))) INNERMOST ∧
  term_shifted_in_from (TyRef Mut LtStatic (TyPlaceholder (mkPlaceholder universe_root 3))) 2 =
    Val (TyRef Mut LtStatic (TyPlaceholder (mkPlaceholder universe_root 3))).
Proof.
  assert (closed (TyRef Mut LtStatic (TyPlaceholder (mkPlaceholder universe_root 3))) INNERMOST) as Hc.
  { unfold closed. simpl. repeat constructor. }
  split; [exact Hc|]. apply (closed_unchanged [] _ 2 Hc).
Defined.
