(* ===== verification/Flags.v ===== *)
(** * Type flags ([TypeFlags], [compute_flags] of [chalk-ir/src/lib.rs])

    Every interned type caches the flags of [TyKind::compute_flags].  Flags are
    a 16-bit set, an [N]. *)

From stdpp Require Import base list numbers.
From S2P Require Import Prelude Ir Fold FoldLaws.

Declare Scope flags_scope.
Infix "|||" := N.lor (at level 50, left associativity) : flags_scope.
Open Scope flags_scope.
Local Open Scope N_scope.

Definition HAS_TY_INFER : N := 1.
Definition HAS_RE_INFER : N := N.shiftl 1 1.
Definition HAS_CT_INFER : N := N.shiftl 1 2.
Definition HAS_TY_PLACEHOLDER : N := N.shiftl 1 3.
Definition HAS_RE_PLACEHOLDER : N := N.shiftl 1 4.
Definition HAS_CT_PLACEHOLDER : N := N.shiftl 1 5.
Definition HAS_FREE_LOCAL_REGIONS : N := N.shiftl 1 6.
Definition HAS_TY_PROJECTION : N := N.shiftl 1 7.
Definition HAS_TY_OPAQUE : N := N.shiftl 1 8.
Definition HAS_CT_PROJECTION : N := N.shiftl 1 9.
Definition HAS_ERROR : N := N.shiftl 1 10.
Definition HAS_FREE_REGIONS : N := N.shiftl 1 11.
Definition HAS_RE_LATE_BOUND : N := N.shiftl 1 12.
Definition HAS_RE_ERASED : N := N.shiftl 1 13.
Definition STILL_FURTHER_SPECIALIZABLE : N := N.shiftl 1 14.
Definition HAS_FREE_LOCAL_NAMES : N :=
  HAS_TY_INFER ||| HAS_CT_INFER ||| HAS_TY_PLACEHOLDER ||| HAS_CT_PLACEHOLDER
    ||| HAS_FREE_LOCAL_REGIONS.
Definition HAS_PROJECTION : N := HAS_TY_PROJECTION ||| HAS_TY_OPAQUE ||| HAS_CT_PROJECTION.

Definition lifetime_flags (l : Lifetime) : N :=
  match l with
  | LtInferenceVar _ => HAS_RE_INFER ||| HAS_FREE_LOCAL_REGIONS ||| HAS_FREE_REGIONS
  | LtPlaceholder _ => HAS_RE_PLACEHOLDER ||| HAS_FREE_LOCAL_REGIONS ||| HAS_FREE_REGIONS
  | LtStatic | LtEmpty _ => HAS_FREE_REGIONS
  | LtBoundVar _ => HAS_RE_LATE_BOUND
  | LtErased => HAS_RE_ERASED
  end.

(** The flags of a constant of an array type. *)
Definition array_const_flags (v : ConstValue) : N :=
  match v with
  | CvBoundVar _ | CvConcrete _ => 0
  | CvInferenceVar _ => HAS_CT_INFER ||| STILL_FURTHER_SPECIALIZABLE
  | CvPlaceholder _ => HAS_CT_PLACEHOLDER ||| STILL_FURTHER_SPECIALIZABLE
  end.

Fixpoint compute_flags (t : Ty) : N :=
  let subst_flags s :=
    fold_left (λ flags generic_arg, flags ||| arg_flags generic_arg) s 0 in
  match t with
  | TyAdt _ s | TyAssociatedType _ s | TyTuple _ s | TyClosure _ s | TyGenerator _ s
  | TyGeneratorWitness _ s | TyFnDef _ s | TyOpaqueType _ s => subst_flags s
  | TyScalar _ | TyStr | TyNever | TyForeign _ => 0
  | TyError => HAS_ERROR
  | TySlice ty | TyRaw _ ty => compute_flags ty
  | TyRef _ lifetime ty => lifetime_flags lifetime ||| compute_flags ty
  | TyArray ty (mkConst c_ty c_value) =>
      compute_flags ty ||| compute_flags c_ty ||| array_const_flags c_value
  | TyPlaceholder _ => HAS_TY_PLACEHOLDER
  | TyDyn bounds lifetime =>
      let dyn_flags :=
        fold_left (λ flags (qwc : QuantifiedWhereClause), flags ||| where_flags qwc.(value))
          bounds.(value) 0 in
      lifetime_flags lifetime ||| dyn_flags
  | TyAlias alias_ty => alias_flags alias_ty
  | TyBoundVar _ => 0
  | TyInferenceVar _ _ => HAS_TY_INFER
  | TyFunction _ _ s => subst_flags s
  end
with arg_flags (a : GenericArg) : N :=
  match a with
  | ArgTy ty => compute_flags ty
  | ArgLifetime lifetime => lifetime_flags lifetime
  | ArgConst (mkConst ty value) =>
      let flags := compute_flags ty in
      match value with
      | CvBoundVar _ => flags
      | CvInferenceVar _ => flags ||| HAS_CT_INFER ||| STILL_FURTHER_SPECIALIZABLE
      | CvPlaceholder _ => flags ||| HAS_CT_PLACEHOLDER ||| STILL_FURTHER_SPECIALIZABLE
      | CvConcrete _ => flags
      end
  end
with alias_flags (a : AliasTy) : N :=
  match a with
  | AliasProjection _ s =>
      HAS_TY_PROJECTION ||| fold_left (λ flags a, flags ||| arg_flags a) s 0
  | AliasOpaque _ s =>
      HAS_TY_OPAQUE ||| fold_left (λ flags a, flags ||| arg_flags a) s 0
  end
with where_flags (w : WhereClause) : N :=
  match w with
  | WcImplemented tr =>
      fold_left (λ flags a, flags ||| arg_flags a) tr.(substitution) 0
  | WcAliasEq alias ty => alias_flags alias ||| compute_flags ty
  | WcLifetimeOutlives a b => lifetime_flags a ||| lifetime_flags b
  | WcTypeOutlives ty lifetime => compute_flags ty ||| lifetime_flags lifetime
  end.

(** ** What the flags say *)

#[local] Arguments N.testbit : simpl never.
#[local] Arguments N.lor : simpl never.
#[local] Arguments N.shiftl : simpl never.

(** The flags that a leaf contributes. *)
Definition leaf_flags (l : Leaf) : N :=
  match l with
  | LeafTyVar _ _ | LeafCtVar _ _ _ => 0
  | LeafLtVar _ _ => HAS_RE_LATE_BOUND
  | LeafTyInfer _ _ => HAS_TY_INFER
  | LeafLtInfer _ => HAS_RE_INFER ||| HAS_FREE_LOCAL_REGIONS ||| HAS_FREE_REGIONS
  | LeafCtInfer _ _ => HAS_CT_INFER ||| STILL_FURTHER_SPECIALIZABLE
  | LeafTyPlaceholder _ => HAS_TY_PLACEHOLDER
  | LeafLtPlaceholder _ => HAS_RE_PLACEHOLDER ||| HAS_FREE_LOCAL_REGIONS ||| HAS_FREE_REGIONS
  | LeafCtPlaceholder _ _ => HAS_CT_PLACEHOLDER ||| STILL_FURTHER_SPECIALIZABLE
  | LeafEmpty _ => HAS_FREE_REGIONS
  end.

(** The bits that only leaves contribute to: all but the projections, the error
    type, and the lifetimes ['static] and erased. *)
Definition leaf_bit (i : N) : bool :=
  negb ((i =? 7) || (i =? 8) || (i =? 10) || (i =? 11) || (i =? 13)).

Definition has_leaf_bit (i : N) (ls : list Leaf) : bool :=
  existsb (λ l, N.testbit (leaf_flags l) i) ls.

Lemma has_leaf_bit_app i l k : has_leaf_bit i (l ++ k) = has_leaf_bit i l || has_leaf_bit i k.
Proof. apply existsb_app. Qed.

Lemma testbit_const (b i : N) : N.testbit (N.shiftl 1 b) i = (b =? i).
Proof. rewrite N.shiftl_1_l. apply N.pow2_bits_eqb. Qed.

Lemma fold_flags_bit {A} (f : A → N) (g : A → list Leaf) i l acc :
  Forall (λ x, N.testbit (f x) i = has_leaf_bit i (g x)) l →
  N.testbit (fold_left (λ flags x, flags ||| f x) l acc) i =
  N.testbit acc i || has_leaf_bit i (l ≫= g).
Proof.
  intros Hl. revert acc. induction Hl as [|x l Hx Hl IH]; intros acc; simpl.
  - by rewrite orb_false_r.
  - by rewrite IH, N.lor_spec, has_leaf_bit_app, Hx, orb_assoc.
Qed.

Section Bit.
Context (i : N) (Hi : leaf_bit i = true).

Lemma leaf_bit_ne : i ≠ 7 ∧ i ≠ 8 ∧ i ≠ 10 ∧ i ≠ 11 ∧ i ≠ 13.
Proof.
  unfold leaf_bit in Hi. rewrite negb_true_iff, !orb_false_iff, !N.eqb_neq in Hi.
  by destruct_and!.
Qed.

Lemma non_leaf_bits b : b = 7 ∨ b = 8 ∨ b = 10 ∨ b = 11 ∨ b = 13 → (b =? i) = false.
Proof. intros Hb. apply N.eqb_neq. pose proof leaf_bit_ne. lia. Qed.

Lemma lifetime_flags_bit l d :
  N.testbit (lifetime_flags l) i = has_leaf_bit i (leaves_lifetime l d).
Proof.
  unfold has_leaf_bit. destruct l; simpl; rewrite ?orb_false_r; try done.
  - apply (eq_trans (testbit_const 11 i)). by rewrite non_leaf_bits by auto.
  - apply (eq_trans (testbit_const 13 i)). rewrite non_leaf_bits by auto. done.
Qed.

Lemma non_leaf_testbit b :
  b = 7 ∨ b = 8 ∨ b = 10 ∨ b = 11 ∨ b = 13 → N.testbit (N.shiftl 1 b) i = false.
Proof. intros Hb. rewrite testbit_const. by apply non_leaf_bits. Qed.

Lemma const_value_bit t v d :
  N.testbit (array_const_flags v) i = has_leaf_bit i (leaves_const_value t v d).
Proof. unfold has_leaf_bit. by destruct v; simpl; rewrite ?orb_false_r. Qed.

Abbreviation PT t := (∀ d, N.testbit (compute_flags t) i = has_leaf_bit i (leaves_ty t d)).
Abbreviation PC c := (∀ d, N.testbit (arg_flags (ArgConst c)) i = has_leaf_bit i (leaves_const c d)
  ∧ N.testbit (compute_flags (const_ty c) ||| array_const_flags (const_value c)) i =
    has_leaf_bit i (leaves_const c d)).
Abbreviation PA a := (∀ d, N.testbit (arg_flags a) i = has_leaf_bit i (leaves_arg a d)).
Abbreviation PP a := (∀ d, N.testbit (alias_flags a) i = has_leaf_bit i (leaves_alias a d)).
Abbreviation PW w := (∀ d, N.testbit (where_flags w) i = has_leaf_bit i (leaves_where w d)).

Lemma subst_flags_bit s d :
  Forall (λ a, PA a) s →
  N.testbit (fold_left (λ flags a, flags ||| arg_flags a) s 0) i =
  has_leaf_bit i (s ≫= λ a, leaves_arg a d).
Proof.
  intros Hs. rewrite (fold_flags_bit _ (λ a, leaves_arg a d)); [done|].
  eapply Forall_impl; [exact Hs|]. auto.
Qed.

Lemma flags_bits :
  (∀ t, PT t) ∧ (∀ c, PC c) ∧ (∀ a, PA a) ∧ (∀ a, PP a) ∧ (∀ w, PW w).
Proof.
  apply term_ind. constructor; intros; simpl in *;
    rewrite ?N.lor_spec, ?has_leaf_bit_app;
    rewrite ?(lifetime_flags_bit _ d);
    try (by apply subst_flags_bit); try done.
  - destruct c as [ct cv]. destruct (H0 d) as [_ Hc]. simpl in Hc.
    change (leaves_const (mkConst ct cv) d) with (leaves_ty ct d ++ leaves_const_value ct cv d).
    by rewrite !N.lor_spec, <- orb_assoc, (H d), <- N.lor_spec, Hc.
  - by rewrite (H d).
  - apply (non_leaf_testbit 10). auto.
  - unfold has_leaf_bit. simpl. by rewrite orb_false_r.
  - rewrite (fold_flags_bit _ (λ b : QuantifiedWhereClause, leaves_where b.(value) (S (S d)))).
    + by rewrite N.bits_0, orb_comm.
    + eapply Forall_impl; [exact H|]. auto.
  - unfold has_leaf_bit. simpl. by rewrite orb_false_r.
  - rewrite <- (const_value_bit t v d), <- (H d). split; [|done].
    destruct v; simpl; rewrite ?N.lor_spec; simpl; rewrite ?orb_false_r, ?orb_assoc; done.
  - destruct (H d). by destruct c.
  - rewrite (non_leaf_testbit 7 ltac:(auto) : N.testbit HAS_TY_PROJECTION i = false).
    by apply subst_flags_bit.
  - rewrite (non_leaf_testbit 8 ltac:(auto) : N.testbit HAS_TY_OPAQUE i = false).
    by apply subst_flags_bit.
  - by rewrite (H d), (H0 d).
  - by rewrite (H d).
Qed.
End Bit.

(** C24. Flags are exact: apart from the bits for projections, the error type and
    ['static] and erased lifetimes, a flag of a type is set exactly when a leaf of
    the type sets it.  So [HAS_TY_INFER] says that some inference type
    variable occurs, and likewise for lifetimes, constants and placeholders. *)
Theorem compute_flags_exact (t : Ty) (d : nat) (i : N) :
  leaf_bit i = true →
  N.testbit (compute_flags t) i =
  existsb (λ l, N.testbit (leaf_flags l) i) (leaves_ty t d).
Proof. intros Hi. by apply flags_bits. Qed.

Lemma compute_flags_exact_witness :
  leaf_bit 0 = true ∧
  N.testbit (compute_flags (TySlice (TyInferenceVar 4 General))) 0 = true.
Proof.
  split; [reflexivity|].
  rewrite (compute_flags_exact (TySlice (TyInferenceVar 4 General)) 0 0 eq_refl). reflexivity.
Defined.
