(* ===== verification/Ena.v ===== *)
(** * The unification table ([ena] and [chalk-solve/src/infer/var.rs])

    The crate [ena] is not part of the repository: [EnaOps] is its interface as
    the inference table uses it, [EnaLaws] its documented behaviour, and
    [UnionFind] a concrete table with that behaviour.  Path compression is not
    observable, so [find] and [probe_value] leave the table as it is. *)

From stdpp Require Import base list numbers.
From S2P Require Import Prelude Ir.

(** ** Values of inference variables *)

Inductive InferenceValue :=
  | Unbound (ui : UniverseIndex)
  | Bound (arg : GenericArg).
#[global] Instance InferenceValue_eq_dec : EqDecision InferenceValue.
Proof. solve_decision. Defined.

Definition InferenceValue_from_ty (ty : Ty) : InferenceValue := Bound (ArgTy ty).
Definition InferenceValue_from_lifetime (l : Lifetime) : InferenceValue := Bound (ArgLifetime l).
Definition InferenceValue_from_const (c : Const) : InferenceValue := Bound (ArgConst c).

(** [UnifyValue::unify_values]. *)
Definition unify_values (a b : InferenceValue) :
    outcome (InferenceValue * InferenceValue) InferenceValue :=
  match a, b with
  | Unbound ui_a, Unbound ui_b => Val (Unbound (universe_min ui_a ui_b))
  | Bound _, Unbound _ => Val a
  | Unbound _, Bound _ => Val b
  | Bound _, Bound _ => Panic PExplicit
  end.

(** ** The interface of [ena] *)

Class EnaOps (E : Type) := {
  ena_new : E;
  ena_new_key : E → InferenceValue → nat * E;
  ena_find : E → nat → nat;
  ena_probe_value : E → nat → InferenceValue;
  ena_unify_var_var : E → nat → nat → outcome (InferenceValue * InferenceValue) E;
  ena_unify_var_value : E → nat → InferenceValue → outcome (InferenceValue * InferenceValue) E;
  ena_snapshot : E → E;
  ena_rollback_to : E → E → E;
  (** Not an operation of the crate: the number of keys. *)
  ena_len : E → nat
}.

(** [UnificationTable::unioned]. *)
Definition ena_unioned `{EnaOps E} (e : E) (a b : nat) : bool :=
  bool_decide (ena_find e a = ena_find e b).

(** Keys are numbered from [0]; a class of unified keys has a root, which is one
    of its keys, and one value.  [ena_wf] is the invariant of the crate's table.
    The crate panics on a key that it did not make; here an update of such a key
    panics, and a read of it, which has no error, is the read of a fresh key. *)
Class EnaLaws (E : Type) `{EnaOps E} := {
  ena_wf : E → Prop;
  new_wf : ena_wf ena_new;
  new_len : ena_len ena_new = 0;
  new_key_wf e v : ena_wf e → ena_wf (ena_new_key e v).2;
  new_key_fst e v : (ena_new_key e v).1 = ena_len e;
  new_key_len e v : ena_len (ena_new_key e v).2 = S (ena_len e);
  new_key_find e v a :
    ena_wf e → a ≤ ena_len e →
    ena_find (ena_new_key e v).2 a = if decide (a = ena_len e) then a else ena_find e a;
  new_key_probe e v a :
    ena_wf e → a ≤ ena_len e →
    ena_probe_value (ena_new_key e v).2 a =
      if decide (a = ena_len e) then v else ena_probe_value e a;
  find_lt e a : ena_wf e → a < ena_len e → ena_find e a < ena_len e;
  find_find e a : ena_wf e → a < ena_len e → ena_find e (ena_find e a) = ena_find e a;
  probe_find e a b :
    ena_wf e → a < ena_len e → b < ena_len e → ena_find e a = ena_find e b →
    ena_probe_value e a = ena_probe_value e b;
  unify_var_var_same e a b :
    ena_wf e → a < ena_len e → b < ena_len e → ena_find e a = ena_find e b →
    ena_unify_var_var e a b = Val e;
  unify_var_var_diff e a b :
    ena_wf e → a < ena_len e → b < ena_len e → ena_find e a ≠ ena_find e b →
    match unify_values (ena_probe_value e a) (ena_probe_value e b) with
    | Val v =>
        ∃ e' r, ena_unify_var_var e a b = Val e' ∧ ena_wf e' ∧ ena_len e' = ena_len e ∧
          (r = ena_find e a ∨ r = ena_find e b) ∧
          ∀ c, c < ena_len e →
            if decide (ena_find e c = ena_find e a ∨ ena_find e c = ena_find e b)
            then ena_find e' c = r ∧ ena_probe_value e' c = v
            else ena_find e' c = ena_find e c ∧ ena_probe_value e' c = ena_probe_value e c
    | Exn err => ena_unify_var_var e a b = Exn err
    | Panic p => ena_unify_var_var e a b = Panic p
    | OutOfFuel => True
    end;
  unify_var_value_spec e a v :
    ena_wf e → a < ena_len e →
    match unify_values (ena_probe_value e a) v with
    | Val v' =>
        ∃ e', ena_unify_var_value e a v = Val e' ∧ ena_wf e' ∧ ena_len e' = ena_len e ∧
          ∀ c, c < ena_len e →
            ena_find e' c = ena_find e c ∧
            ena_probe_value e' c =
              if decide (ena_find e c = ena_find e a) then v' else ena_probe_value e c
    | Exn err => ena_unify_var_value e a v = Exn err
    | Panic p => ena_unify_var_value e a v = Panic p
    | OutOfFuel => True
    end;
  find_out e a : ena_wf e → ena_len e ≤ a → ena_find e a = a;
  probe_out e a : ena_wf e → ena_len e ≤ a → ena_probe_value e a = Unbound universe_root;
  unify_var_var_out e a b : ena_wf e → ena_len e ≤ a ∨ ena_len e ≤ b →
    ena_unify_var_var e a b = Panic PIndex;
  unify_var_value_out e a v : ena_wf e → ena_len e ≤ a → ena_unify_var_value e a v = Panic PIndex;
  (** "Reverses all changes since the last snapshot." *)
  rollback_snapshot e e' : ena_rollback_to e' (ena_snapshot e) = e
}.

(** ** A concrete table

    Every key stores the root of its class; the root stores the value. *)

Module UnionFind.
Record t := mk { roots : list nat; values : list InferenceValue }.

Definition find (e : t) (a : nat) : nat := default a (e.(roots) !! a).
Definition check_key (e : t) (a : nat) : outcome (InferenceValue * InferenceValue) unit :=
  if a <? length e.(roots) then Val tt else Panic PIndex.
Definition probe_value (e : t) (a : nat) : InferenceValue :=
  default (Unbound universe_root) (e.(values) !! find e a).
Definition new_key (e : t) (v : InferenceValue) : nat * t :=
  (length e.(roots), mk (e.(roots) ++ [length e.(roots)]) (e.(values) ++ [v])).
Definition set_value (e : t) (root : nat) (v : InferenceValue) : t :=
  mk e.(roots) (<[root := v]> e.(values)).
Definition union (e : t) (keep drop : nat) : t :=
  mk ((λ r, if decide (r = drop) then keep else r) <$> e.(roots)) e.(values).

Definition unify_var_value (e : t) (a : nat) (v : InferenceValue) :
    outcome (InferenceValue * InferenceValue) t :=
  _ ← check_key e a;
  v' ← unify_values (probe_value e a) v;
  Val (set_value e (find e a) v').

Definition unify_var_var (e : t) (a b : nat) : outcome (InferenceValue * InferenceValue) t :=
  _ ← check_key e a;
  _ ← check_key e b;
  if decide (find e a = find e b) then Val e
  else
    v ← unify_values (probe_value e a) (probe_value e b);
    Val (union (set_value e (find e a) v) (find e a) (find e b)).
End UnionFind.

#[global] Instance UnionFind_ops : EnaOps UnionFind.t := {
  ena_new := UnionFind.mk [] [];
  ena_new_key := UnionFind.new_key;
  ena_find := UnionFind.find;
  ena_probe_value := UnionFind.probe_value;
  ena_unify_var_var := UnionFind.unify_var_var;
  ena_unify_var_value := UnionFind.unify_var_value;
  ena_snapshot e := e;
  ena_rollback_to _ s := s;
  ena_len e := length e.(UnionFind.roots)
}.

Module UnionFindLaws.
Import UnionFind.

Record wf (e : t) : Prop := {
  wf_len : length e.(values) = length e.(roots);
  wf_root a r : e.(roots) !! a = Some r → e.(roots) !! r = Some r
}.

Lemma check_key_in e a : a < length e.(roots) → check_key e a = Val tt.
Proof. intros Ha. unfold check_key. by destruct (Nat.ltb_spec a (length (roots e))); [|lia]. Qed.

Lemma check_key_out e a : length e.(roots) ≤ a → check_key e a = Panic PIndex.
Proof. intros Ha. unfold check_key. by destruct (Nat.ltb_spec a (length (roots e))); [lia|]. Qed.

Lemma find_out e a : length e.(roots) ≤ a → find e a = a.
Proof. intros Ha. unfold find. by rewrite lookup_ge_None_2. Qed.

Lemma find_lookup e a : a < length e.(roots) → e.(roots) !! a = Some (find e a).
Proof. intros Ha. unfold find. by destruct (lookup_lt_is_Some_2 _ _ Ha) as [r ->]. Qed.

Lemma find_lt e a : wf e → a < length e.(roots) → find e a < length e.(roots).
Proof.
  intros Hwf Ha. eapply lookup_lt_Some, (wf_root e Hwf). by apply find_lookup.
Qed.

Lemma find_find e a : wf e → a < length e.(roots) → find e (find e a) = find e a.
Proof.
  intros Hwf Ha. pose proof (wf_root e Hwf a _ (find_lookup e a Ha)) as Hr.
  unfold find at 1. by rewrite Hr.
Qed.

Lemma new_key_wf e v : wf e → wf (new_key e v).2.
Proof.
  intros [Hl Hr]. constructor; simpl.
  - rewrite !length_app. simpl. lia.
  - intros a r Ha. apply lookup_app_Some in Ha as [Ha|[Hge Ha]].
    + apply Hr in Ha. by apply lookup_app_l_Some.
    + destruct (a - length (roots e)) as [|n] eqn:Hn; simpl in Ha; [|done].
      injection Ha as <-. rewrite lookup_app_r, Nat.sub_diag by done. done.
Qed.

Lemma set_value_spec e a v c :
  wf e → a < length e.(roots) → c < length e.(roots) →
  probe_value (set_value e (find e a) v) c =
    if decide (find e c = find e a) then v else probe_value e c.
Proof.
  intros Hwf Ha Hc. unfold probe_value. cbn.
  change (find (set_value e (find e a) v) c) with (find e c). case_decide as Hd.
  - rewrite Hd, list_lookup_insert_eq; [done|]. rewrite (wf_len e Hwf). by apply find_lt.
  - by rewrite list_lookup_insert_ne by done.
Qed.

Lemma set_value_wf e r v : wf e → wf (set_value e r v).
Proof. intros [Hl Hr]. constructor; simpl; [by rewrite length_insert|done]. Qed.

Lemma union_find e keep drop c :
  c < length e.(roots) →
  find (union e keep drop) c = if decide (find e c = drop) then keep else find e c.
Proof.
  intros Hc. unfold find at 1. simpl. rewrite list_lookup_fmap, (find_lookup e c Hc). done.
Qed.

Lemma union_wf e keep drop :
  wf e → e.(roots) !! keep = Some keep → keep ≠ drop → wf (union e keep drop).
Proof.
  intros [Hl Hr] Hk Hne. constructor; simpl; [by rewrite length_fmap|].
  intros a r. rewrite !list_lookup_fmap. intros (r0 & Ha & ->)%fmap_Some.
  apply Hr in Ha. case_decide as Hd.
  - rewrite Hk. simpl. by rewrite decide_False.
  - rewrite Ha. simpl. by rewrite decide_False.
Qed.
End UnionFindLaws.

#[global, program] Instance UnionFind_laws : EnaLaws UnionFind.t := {| ena_wf := UnionFindLaws.wf |}.
Next Obligation. by constructor. Qed.
Next Obligation. done. Qed.
Next Obligation. apply UnionFindLaws.new_key_wf. Qed.
Next Obligation. done. Qed.
Next Obligation. intros. simpl. rewrite length_app. simpl. lia. Qed.
Next Obligation.
  intros e v a Hwf Ha. simpl in *. unfold UnionFind.find, UnionFind.new_key. simpl. case_decide.
  - subst. by rewrite lookup_app_r, Nat.sub_diag by done.
  - by rewrite lookup_app_l by lia.
Qed.
Next Obligation.
  intros e v a Hwf Ha. pose proof (UnionFind_laws_obligation_6 e v a Ha) as Hf.
  simpl in *. unfold UnionFind.probe_value. unfold UnionFind.new_key in *. simpl in *. rewrite Hf.
  pose proof (UnionFindLaws.wf_len e Hwf) as Hl. case_decide.
  - subst. by rewrite lookup_app_r, Hl, Nat.sub_diag by lia.
  - rewrite lookup_app_l; [done|]. rewrite Hl. apply UnionFindLaws.find_lt; [done|lia].
Qed.
Next Obligation. apply UnionFindLaws.find_lt. Qed.
Next Obligation. apply UnionFindLaws.find_find. Qed.
Next Obligation. intros e a b _ _ _ Hab. unfold UnionFind.probe_value. simpl in *. unfold UnionFind.probe_value. by rewrite Hab. Qed.
Next Obligation.
  intros e a b Hwf Ha Hb Hab. simpl in *. unfold UnionFind.unify_var_var.
  rewrite !UnionFindLaws.check_key_in by done. simpl. by rewrite decide_True.
Qed.
Next Obligation.
  intros e a b Hwf Ha Hb Hab. simpl in *. unfold UnionFind.unify_var_var.
  rewrite !UnionFindLaws.check_key_in by done. simpl. rewrite decide_False by done.
  destruct (unify_values _ _) as [v| | |]; simpl; try done.
  eexists _, (UnionFind.find e a). split_and!; [done| |by simpl; rewrite length_fmap|by left|].
  - apply UnionFindLaws.union_wf; [by apply UnionFindLaws.set_value_wf| |done].
    simpl. eapply (UnionFindLaws.wf_root e Hwf). by apply UnionFindLaws.find_lookup.
  - intros c Hc.
    assert (UnionFind.find (UnionFind.union
      (UnionFind.set_value e (UnionFind.find e a) v) (UnionFind.find e a) (UnionFind.find e b)) c =
      if decide (UnionFind.find e c = UnionFind.find e b) then UnionFind.find e a
      else UnionFind.find e c) as Hf.
    { by rewrite UnionFindLaws.union_find. }
    unfold UnionFind.probe_value at 1 2. rewrite Hf. cbn [UnionFind.values UnionFind.union UnionFind.set_value].
    pose proof (UnionFindLaws.find_lt e a Hwf Ha) as Hra. rewrite <- (UnionFindLaws.wf_len e Hwf) in Hra.
    destruct (decide (UnionFind.find e c = UnionFind.find e b)) as [Hcb|Hcb].
    { rewrite decide_True by auto. split; [done|]. by rewrite list_lookup_insert_eq. }
    destruct (decide (UnionFind.find e c = UnionFind.find e a)) as [Hca|Hca].
    { rewrite decide_True by auto. split; [done|]. by rewrite Hca, list_lookup_insert_eq. }
    rewrite decide_False by naive_solver. split; [done|]. by rewrite list_lookup_insert_ne by done.
Qed.
Next Obligation.
  intros e a v Hwf Ha. simpl in *. unfold UnionFind.unify_var_value.
  rewrite UnionFindLaws.check_key_in by done. simpl. destruct (unify_values _ _) as [v'| | |]; simpl; try done.
  eexists. split_and!; [done|by apply UnionFindLaws.set_value_wf|done|].
  intros c Hc. split; [done|]. by apply UnionFindLaws.set_value_spec.
Qed.
Next Obligation. intros e a _ Ha. by apply UnionFindLaws.find_out. Qed.
Next Obligation.
  intros e a Hwf Ha. simpl in *. unfold UnionFind.probe_value. rewrite UnionFindLaws.find_out by done.
  rewrite lookup_ge_None_2; [done|]. by rewrite (UnionFindLaws.wf_len e Hwf).
Qed.
Next Obligation.
  intros e a b Hwf Hab. simpl in *. unfold UnionFind.unify_var_var.
  destruct (Nat.le_gt_cases (length e.(UnionFind.roots)) a) as [Ha|Ha].
  - rewrite (UnionFindLaws.check_key_out e a Ha). done.
  - rewrite (UnionFindLaws.check_key_in e a Ha). simpl.
    rewrite UnionFindLaws.check_key_out; [done|].
    destruct Hab as [Hab|Hab]; [by apply Nat.lt_nge in Ha|done].
Qed.
Next Obligation.
  intros e a v Hwf Ha. simpl in *. unfold UnionFind.unify_var_value.
  by rewrite UnionFindLaws.check_key_out by done.
Qed.
Next Obligation. done. Qed.
