(* ===== verification/Infer.v ===== *)
(** * The inference table ([chalk-solve/src/infer.rs], [infer/instantiate.rs])

    The table of inference variables over an [ena] table, with snapshots,
    shallow normalization and the instantiation of binders. *)

From stdpp Require Import base list numbers.
From S2P Require Import Prelude Ir Fold FoldLaws Shift Ena.

(** [GenericArg]s of inference variables ([EnaVariable::to_ty] and friends). *)
Definition var_to_ty_with_kind (v : InferenceVar) (k : TyVariableKind) : Ty := TyInferenceVar v k.
Definition var_to_ty (v : InferenceVar) : Ty := TyInferenceVar v General.
Definition var_to_lifetime (v : InferenceVar) : Lifetime := LtInferenceVar v.
Definition var_to_const (v : InferenceVar) (ty : Ty) : Const := mkConst ty (CvInferenceVar v).

Definition ty_inference_var (t : Ty) : option InferenceVar :=
  match t with TyInferenceVar v _ => Some v | _ => None end.
Definition lifetime_inference_var (l : Lifetime) : option InferenceVar :=
  match l with LtInferenceVar v => Some v | _ => None end.
Definition const_inference_var (c : Const) : option InferenceVar :=
  match const_value c with CvInferenceVar v => Some v | _ => None end.

Abbreviation ParameterEnaVariable := (WithKind InferenceVar).

Definition param_to_generic_arg (p : ParameterEnaVariable) : GenericArg :=
  match p.(kind) with
  | VkTy k => ArgTy (var_to_ty_with_kind p.(kvalue) k)
  | VkLifetime => ArgLifetime (var_to_lifetime p.(kvalue))
  | VkConst ty => ArgConst (var_to_const p.(kvalue) ty)
  end.

Section Infer.
Context {E : Type} `{EnaOps E}.

Record InferenceTable := mkTable {
  unify : E;
  vars : list InferenceVar;
  max_universe : UniverseIndex
}.

Record InferenceSnapshot := mkSnapshot {
  unify_snapshot : E;
  snap_max_universe : UniverseIndex;
  snap_vars : list InferenceVar
}.

Definition table_new : InferenceTable := mkTable ena_new [] universe_root.

Definition new_universe (self : InferenceTable) : UniverseIndex * InferenceTable :=
  let u := universe_next self.(max_universe) in
  (u, mkTable self.(unify) self.(vars) u).

Definition new_variable (ui : UniverseIndex) (self : InferenceTable) :
    InferenceVar * InferenceTable :=
  let '(var, unify) := ena_new_key self.(unify) (Unbound ui) in
  (var, mkTable unify (self.(vars) ++ [var]) self.(max_universe)).

Definition snapshot (self : InferenceTable) : InferenceSnapshot :=
  mkSnapshot (ena_snapshot self.(unify)) self.(max_universe) self.(vars).

Definition rollback_to (snapshot : InferenceSnapshot) (self : InferenceTable) : InferenceTable :=
  mkTable (ena_rollback_to self.(unify) snapshot.(unify_snapshot))
    snapshot.(snap_vars) snapshot.(snap_max_universe).

(** [commit] keeps the table. *)
Definition commit (snapshot : InferenceSnapshot) (self : InferenceTable) : InferenceTable := self.

(** *** Probing *)

Definition probe_var (self : InferenceTable) (leaf : InferenceVar) : option GenericArg :=
  match ena_probe_value self.(unify) leaf with
  | Unbound _ => None
  | Bound val => Some val
  end.

Definition universe_of_unbound_var (self : InferenceTable) (var : InferenceVar) :
    Fallible UniverseIndex :=
  match ena_probe_value self.(unify) var with
  | Unbound ui => Val ui
  | Bound _ => Panic PExplicit
  end.

Definition normalize_shallow_with {A} (inference_var : option InferenceVar)
    (select : GenericArg → Fallible A) (self : InferenceTable) : Fallible (option A) :=
  match inference_var with
  | None => Val None
  | Some v =>
      match probe_var self v with
      | None => Val None
      | Some p => a ← select p; Val (Some a)
      end
  end.

Definition normalize_ty_shallow_inner (self : InferenceTable) (leaf : Ty) : Fallible (option Ty) :=
  normalize_shallow_with (ty_inference_var leaf) assert_ty_ref self.

(** An integer or float variable is never bound to a variable, a general
    variable may be: hence two steps. *)
Definition normalize_ty_shallow (self : InferenceTable) (leaf : Ty) : Fallible (option Ty) :=
  o ← normalize_ty_shallow_inner self leaf;
  match o with
  | None => Val None
  | Some ty => o' ← normalize_ty_shallow_inner self ty; Val (Some (default ty o'))
  end.

Definition normalize_lifetime_shallow (self : InferenceTable) (leaf : Lifetime) :
    Fallible (option Lifetime) :=
  normalize_shallow_with (lifetime_inference_var leaf) assert_lifetime_ref self.

Definition normalize_const_shallow (self : InferenceTable) (leaf : Const) :
    Fallible (option Const) :=
  normalize_shallow_with (const_inference_var leaf) assert_const_ref self.

Definition ty_root (self : InferenceTable) (leaf : Ty) : option Ty :=
  (λ v, var_to_ty (ena_find self.(unify) v)) <$> ty_inference_var leaf.
Definition lifetime_root (self : InferenceTable) (leaf : Lifetime) : option Lifetime :=
  (λ v, var_to_lifetime (ena_find self.(unify) v)) <$> lifetime_inference_var leaf.
Definition inference_var_root (self : InferenceTable) (var : InferenceVar) : InferenceVar :=
  ena_find self.(unify) var.

(** *** Instantiation *)

Fixpoint fresh_subst (bs : list CanonicalVarKind) (self : InferenceTable) :
    Substitution * InferenceTable :=
  match bs with
  | [] => ([], self)
  | k :: bs =>
      let '(v, self) := new_variable k.(kvalue) self in
      let '(s, self) := fresh_subst bs self in
      (param_to_generic_arg (mkWithKind k.(kind) v) :: s, self)
  end.

Definition instantiate_canonical {T} `{Fold T} (bound : Canonical T) : ST InferenceTable T :=
  λ self,
    let '(subst, self) := fresh_subst bound.(cbinders) self in
    v ← subst_apply subst bound.(cvalue);
    Val (v, self).

Definition instantiate_in {T} `{Fold T} (universe : UniverseIndex) (bs : VariableKinds) (arg : T) :
    ST InferenceTable T :=
  λ self,
    let '(subst, self) := fresh_subst ((λ pk, mkWithKind pk universe) <$> bs) self in
    v ← subst_apply subst arg;
    Val (v, self).

Definition instantiate_binders_existentially {T} `{Fold T} (arg : Binders T) :
    ST InferenceTable T :=
  λ self, instantiate_in self.(max_universe) arg.(binders) arg.(value) self.

Definition placeholder_arg (p : PlaceholderIndex) (k : VariableKind) : GenericArg :=
  match k with
  | VkLifetime => ArgLifetime (LtPlaceholder p)
  | VkTy _ => ArgTy (TyPlaceholder p)
  | VkConst ty => ArgConst (mkConst ty (CvPlaceholder p))
  end.

(** The universe is made when the first parameter asks for it. *)
Definition instantiate_binders_universally {T} `{Fold T} (arg : Binders T) : ST InferenceTable T :=
  λ self,
    let '(ui, self) :=
      match arg.(binders) with
      | [] => (universe_root, self)
      | _ :: _ => new_universe self
      end in
    let parameters := imap (λ idx pk, placeholder_arg (mkPlaceholder ui idx) pk) arg.(binders) in
    v ← Subst_apply parameters arg.(value);
    Val (v, self).

Definition from_canonical {T} `{Fold T} (num_universes : nat) (canonical : Canonical T) :
    Fallible (InferenceTable * Substitution * T) :=
  _ ← assert (1 <=? num_universes);
  let table := Nat.iter (num_universes - 1) (λ t, (new_universe t).2) table_new in
  let '(subst, table) := fresh_subst canonical.(cbinders) table in
  value ← subst_apply subst canonical.(cvalue);
  Val (table, subst, value).
End Infer.
#[global] Arguments InferenceTable E : clear implicits.
#[global] Arguments InferenceSnapshot E : clear implicits.
