(* ===== verification/Canonicalize.v ===== *)
(** * Canonicalization and inversion
    ([chalk-solve/src/infer/canonicalize.rs], [infer/invert.rs]) *)

From stdpp Require Import base list numbers.
From S2P Require Import Prelude Ir Fold FoldLaws Shift Ena Infer.

Record Canonicalized (T : Type) := mkCanonicalized {
  quantified : Canonical T;
  cfree_vars : list ParameterEnaVariable
}.
Arguments mkCanonicalized {T} _ _.
Arguments quantified {T} _.
Arguments cfree_vars {T} _.

Section Canonicalize.
Context {E : Type} `{EnaOps E}.

Record Canonicalizer := mkCanonicalizer {
  ctable : InferenceTable E;
  free_vars : list ParameterEnaVariable;
  cmax_universe : UniverseIndex
}.

Definition position (v : InferenceVar) (l : list ParameterEnaVariable) : option nat :=
  fst <$> list_find (λ p, p.(kvalue) = v) l.

Definition add (free_var : ParameterEnaVariable) : ST Canonicalizer nat := λ self,
  ui ← universe_of_unbound_var self.(ctable) free_var.(kvalue);
  let self :=
    mkCanonicalizer self.(ctable) self.(free_vars) (universe_max self.(cmax_universe) ui) in
  match position free_var.(kvalue) self.(free_vars) with
  | Some i => Val (i, self)
  | None =>
      let next_index := length self.(free_vars) in
      Val (next_index,
           mkCanonicalizer self.(ctable) (self.(free_vars) ++ [free_var]) self.(cmax_universe))
  end.

(** [self.max_universe = max(self.max_universe, universe.ui)]. *)
Definition see_universe (u : UniverseIndex) : ST Canonicalizer unit := λ self,
  Val (tt, mkCanonicalizer self.(ctable) self.(free_vars) (universe_max self.(cmax_universe) u)).

(** [fuel] bounds the depth of bound variables inside bound variables. *)
Fixpoint canonicalizer (fuel : nat) : Folder (ST Canonicalizer) := {|
  fold_free_var_ty := default_fold_free_var_ty true;
  fold_free_var_lifetime := default_fold_free_var_lifetime true;
  fold_free_var_const := default_fold_free_var_const true;
  fold_free_placeholder_ty universe _ := _ ← see_universe universe.(ui); mret (TyPlaceholder universe);
  fold_free_placeholder_lifetime universe _ :=
    _ ← see_universe universe.(ui); mret (LtPlaceholder universe);
  fold_free_placeholder_const ty _ universe _ :=
    _ ← see_universe universe.(ui); mret (mkConst ty (CvPlaceholder universe));
  fold_inference_ty var kind outer_binder self :=
    match probe_var self.(ctable) var with
    | Some ty =>
        (ty ← st_lift (assert_ty_ref ty);
         ty ← match fuel with
              | 0 => λ _, OutOfFuel
              | S fuel => fold_ty (canonicalizer fuel) ty INNERMOST
              end;
         st_lift (term_shifted_in_from ty outer_binder)) self
    | None =>
        (i ← add (mkWithKind (VkTy kind) (ena_find self.(ctable).(unify) var));
         mret (TyBoundVar (shifted_in_from (mkBoundVar INNERMOST i) outer_binder))) self
    end;
  fold_inference_lifetime var outer_binder self :=
    match probe_var self.(ctable) var with
    | Some l =>
        (l ← st_lift (assert_lifetime_ref l);
         l ← match fuel with
             | 0 => λ _, OutOfFuel
             | S fuel => fold_lifetime (canonicalizer fuel) l INNERMOST
             end;
         st_lift (term_shifted_in_from l outer_binder)) self
    | None =>
        (i ← add (mkWithKind VkLifetime (ena_find self.(ctable).(unify) var));
         mret (LtBoundVar (shifted_in_from (mkBoundVar INNERMOST i) outer_binder))) self
    end;
  fold_inference_const ty _ var outer_binder self :=
    match probe_var self.(ctable) var with
    | Some c =>
        (c ← st_lift (assert_const_ref c);
         c ← match fuel with
             | 0 => λ _, OutOfFuel
             | S fuel => fold_const (canonicalizer fuel) c INNERMOST
             end;
         st_lift (term_shifted_in_from c outer_binder)) self
    | None =>
        (i ← add (mkWithKind (VkConst ty) (ena_find self.(ctable).(unify) var));
         mret (mkConst ty
                 (CvBoundVar (shifted_in_from (mkBoundVar INNERMOST i) outer_binder)))) self
    end;
  override_fold_lifetime super lifetime outer_binder :=
    match lifetime with
    | LtEmpty ui =>
        if bool_decide (ui.(counter) ≠ 0) then mpanic PExplicit else super lifetime outer_binder
    | _ => super lifetime outer_binder
    end
|}.

Definition into_binders (self : Canonicalizer) : Fallible (list CanonicalVarKind) :=
  mapM (λ p_v : ParameterEnaVariable,
          u ← universe_of_unbound_var self.(ctable) p_v.(kvalue);
          Val (mkWithKind p_v.(kind) u)) self.(free_vars).

Definition canonicalize {T} `{Fold T} (fuel : nat) (value : T) (table : InferenceTable E) :
    Fallible (Canonicalized T) :=
  r ← unwrap_result (fold_with (canonicalizer fuel) value INNERMOST
        (mkCanonicalizer table [] universe_root));
  let '(value, q) := r in
  bs ← into_binders q;
  Val (mkCanonicalized (mkCanonical value bs) q.(free_vars)).

(** ** Inversion *)

Record Inverter := mkInverter {
  itable : InferenceTable E;
  inverted_ty : list (PlaceholderIndex * InferenceVar);
  inverted_lifetime : list (PlaceholderIndex * InferenceVar)
}.

Definition map_get (m : list (PlaceholderIndex * InferenceVar)) (p : PlaceholderIndex) :
    option InferenceVar :=
  (λ r, r.2.2) <$> list_find (λ kv, kv.1 = p) m.

(** [inverted_ty.entry(universe).or_insert_with(|| table.new_variable(universe.ui))]. *)
Definition invert_ty_entry (universe : PlaceholderIndex) : ST Inverter InferenceVar := λ self,
  match map_get self.(inverted_ty) universe with
  | Some v => Val (v, self)
  | None =>
      let '(v, table) := new_variable universe.(ui) self.(itable) in
      Val (v, mkInverter table ((universe, v) :: self.(inverted_ty)) self.(inverted_lifetime))
  end.

Definition invert_lifetime_entry (universe : PlaceholderIndex) : ST Inverter InferenceVar := λ self,
  match map_get self.(inverted_lifetime) universe with
  | Some v => Val (v, self)
  | None =>
      let '(v, table) := new_variable universe.(ui) self.(itable) in
      Val (v, mkInverter table self.(inverted_ty) ((universe, v) :: self.(inverted_lifetime)))
  end.

Definition inverter : Folder (ST Inverter) := {|
  fold_free_var_ty := default_fold_free_var_ty true;
  fold_free_var_lifetime := default_fold_free_var_lifetime true;
  fold_free_var_const := default_fold_free_var_const true;
  fold_free_placeholder_ty universe _ :=
    v ← invert_ty_entry universe; st_lift (term_shifted_in (var_to_ty v));
  fold_free_placeholder_lifetime universe _ :=
    v ← invert_lifetime_entry universe; st_lift (term_shifted_in (var_to_lifetime v));
  fold_free_placeholder_const := default_fold_free_placeholder_const false;
  fold_inference_ty := default_fold_inference_ty true;
  fold_inference_lifetime := default_fold_inference_lifetime true;
  fold_inference_const := default_fold_inference_const true;
  override_fold_lifetime := default_fold_lifetime
|}.

Definition invert {T} `{Fold T} (fuel : nat) (value : T) : ST (InferenceTable E) (option T) :=
  λ table,
    c ← canonicalize fuel value table;
    match c.(cfree_vars) with
    | _ :: _ => Val (None, table)
    | [] =>
        _ ← assert (bool_decide (c.(quantified).(cbinders) = []));
        r ← unwrap_result (fold_with inverter c.(quantified).(cvalue) INNERMOST
              (mkInverter table [] []));
        let '(inverted, i) := r in
        Val (Some inverted, i.(itable))
    end.

Definition invert_then_canonicalize {T} `{Fold T} (fuel : nat) (value : T) :
    ST (InferenceTable E) (option (Canonical T)) :=
  λ table,
    let snap := snapshot table in
    r ← invert fuel value table;
    let '(result, table) := r in
    result ← match result with
             | None => Val None
             | Some r => c ← canonicalize fuel r table; Val (Some c.(quantified))
             end;
    Val (result, rollback_to snap table).
End Canonicalize.
#[global] Arguments Canonicalizer E : clear implicits.
#[global] Arguments Inverter E : clear implicits.
