(* ===== verification/CanonThm.v ===== *)
(** * Canonicalization is correct

    The canonical value has no inference variables and only variables of its
    own binders; replacing the binders by the free variables of the table gives
    back the value, with every bound variable replaced by what it is bound to
    and every unbound one by the root of its class. *)

From stdpp Require Import base list numbers.
From S2P Require Import Prelude Ir Fold FoldLaws Shift ShiftThm Ena Infer Canonicalize.

(** Weakest precondition of a stateful folder that returns. *)
Definition wpST {S} A (m : ST S A) (s : S) (Q : A → S → Prop) : Prop :=
  ∀ a s', m s = Val (a, s') → Q a s'.

Lemma wpST_laws {S} : WpLaws (@wpST S).
Proof.
  constructor; unfold wpST.
  - intros * ? ? ? [= <- <-]. done.
  - intros * Hm b s' (a & s1 & Ha & Hb)%ST_bind_Val. by eapply Hm.
  - eauto.
Qed.

Section Canon.
Context {E : Type} `{EnaLaws E}.
Context (tbl : InferenceTable E).

Abbreviation len := (ena_len tbl.(unify)).
Abbreviation root := (ena_find tbl.(unify)).
Abbreviation probe := (ena_probe_value tbl.(unify)).

(** The value with the bindings of the table applied: what the inference
    variables of a term stand for. *)
Fixpoint resolver (fuel : nat) : Folder Fallible := {|
  fold_free_var_ty := default_fold_free_var_ty true;
  fold_free_var_lifetime := default_fold_free_var_lifetime true;
  fold_free_var_const := default_fold_free_var_const true;
  fold_free_placeholder_ty := default_fold_free_placeholder_ty false;
  fold_free_placeholder_lifetime := default_fold_free_placeholder_lifetime false;
  fold_free_placeholder_const ty _ p _ := Val (mkConst ty (CvPlaceholder p));
  fold_inference_ty v k d :=
    match probe_var tbl v with
    | Some a =>
        t ← assert_ty_ref a;
        t ← match fuel with 0 => OutOfFuel | S fuel => fold_ty (resolver fuel) t INNERMOST end;
        term_shifted_in_from t d
    | None => Val (TyInferenceVar (root v) k)
    end;
  fold_inference_lifetime v d :=
    match probe_var tbl v with
    | Some a =>
        l ← assert_lifetime_ref a;
        l ← match fuel with 0 => OutOfFuel | S fuel => fold_lifetime (resolver fuel) l INNERMOST end;
        term_shifted_in_from l d
    | None => Val (LtInferenceVar (root v))
    end;
  fold_inference_const ty _ v d :=
    match probe_var tbl v with
    | Some a =>
        c ← assert_const_ref a;
        c ← match fuel with 0 => OutOfFuel | S fuel => fold_const (resolver fuel) c INNERMOST end;
        term_shifted_in_from c d
    | None => Val (mkConst ty (CvInferenceVar (root v)))
    end;
  override_fold_lifetime := default_fold_lifetime
|}.

Context (K : InferenceVar → VariableKind).

(** A variable is a key of the table, and an unbound one is used at the kind of
    its class; the types of constants are ground. *)
Definition leaf_kinded (l : Leaf) : Prop :=
  match l with
  | LeafTyInfer v k => v < len ∧ (∀ ui, probe v = Unbound ui → K (root v) = VkTy k)
  | LeafLtInfer v => v < len ∧ (∀ ui, probe v = Unbound ui → K (root v) = VkLifetime)
  | LeafCtInfer ty v =>
      v < len ∧ const_ground ty ∧ (∀ ui, probe v = Unbound ui → K (root v) = VkConst ty)
  | LeafCtVar ty _ _ | LeafCtPlaceholder ty _ => const_ground ty
  | _ => True
  end.

Record table_kinded : Prop := {
  tk_wf : ena_wf tbl.(unify);
  tk_bound v a : v < len → probe v = Bound a → Forall leaf_kinded (leaves_arg a INNERMOST)
}.

Context (Htbl : table_kinded).

(** A leaf of a canonical value whose binders are [fv]. *)
Definition leaf_canonical (fv : list ParameterEnaVariable) (l : Leaf) : Prop :=
  match l with
  | LeafTyVar bv d => bv.(debruijn) < d ∨
      bv.(debruijn) = d ∧ ∃ k v, fv !! bv.(index) = Some (mkWithKind (VkTy k) v)
  | LeafLtVar bv d => bv.(debruijn) < d ∨
      bv.(debruijn) = d ∧ ∃ v, fv !! bv.(index) = Some (mkWithKind VkLifetime v)
  | LeafCtVar ty bv d => const_ground ty ∧ (bv.(debruijn) < d ∨
      bv.(debruijn) = d ∧ ∃ v, fv !! bv.(index) = Some (mkWithKind (VkConst ty) v))
  | LeafTyInfer _ _ | LeafLtInfer _ | LeafCtInfer _ _ => False
  | LeafTyPlaceholder _ | LeafLtPlaceholder _ => True
  | LeafCtPlaceholder ty _ => const_ground ty
  | LeafEmpty u => u.(counter) = 0
  end.

Definition unbound_root (p : ParameterEnaVariable) : Prop :=
  p.(kvalue) < len ∧ root p.(kvalue) = p.(kvalue) ∧ K p.(kvalue) = p.(kind) ∧
  ∃ ui, probe p.(kvalue) = Unbound ui.

Definition canon_inv (s : Canonicalizer E) : Prop :=
  s.(ctable) = tbl ∧ Forall unbound_root s.(free_vars) ∧ NoDup (kvalue <$> s.(free_vars)).
Definition canon_le (s s' : Canonicalizer E) : Prop := s.(free_vars) `prefix_of` s'.(free_vars).

#[local] Instance canon_le_preorder : PreOrder canon_le.
Proof.
  split; unfold canon_le.
  - intros s. done.
  - intros s1 s2 s3 ? ?. by etrans.
Qed.

Definition free_args (fv : list ParameterEnaVariable) : Substitution := param_to_generic_arg <$> fv.

Definition later (s : Canonicalizer E) : Type := { s' | canon_inv s' ∧ canon_le s s' }.

(** The canonical term has canonical leaves, and is the resolved term once the
    free variables of this or any later state are put in. *)
Definition canon_family (n : nat) (s : Canonicalizer E) : Family :=
  all_family (λ x : option (later s),
    match x with
    | None => leaf_family 0 (leaf_canonical s.(free_vars))
    | Some s' => eq_family 0 (resolver n) (SubstFolder (free_args (`s').(free_vars)))
    end).

Lemma canon_family_cong n s : Cong (canon_family n s).
Proof. apply all_family_cong. intros [s'|]; [apply eq_family_cong|apply leaf_family_cong]. Qed.

Lemma leaf_canonical_mono fv fv' l :
  fv `prefix_of` fv' → leaf_canonical fv l → leaf_canonical fv' l.
Proof.
  intros Hp. destruct l; simpl; try done; naive_solver eauto using prefix_lookup_Some.
Qed.

Lemma leaf_canonical_stable fv n : shift_stable (leaf_canonical fv) n.
Proof.
  constructor.
  - intros []; simpl; try done; naive_solver.
  - intros [x i] d; simpl. unfold debruijn_shifted_in_from. intros [?|[? ?]] ?; [lia|right].
    split; [lia|done].
  - intros [x i] d; simpl. unfold debruijn_shifted_in_from. intros [?|[? ?]] ?; [lia|right].
    split; [lia|done].
  - intros ty [x i] d; simpl. unfold debruijn_shifted_in_from. intros [? [?|[? ?]]] ?; [lia|].
    split; [done|right]. split; [lia|done].
  - intros [x i] d; simpl. intros _ ?. left. lia.
  - intros [x i] d; simpl. intros _ ?. left. lia.
  - intros ty [x i] d; simpl. intros [? _] ?. split; [done|]. left. lia.
Qed.

Lemma lift_weaken {T} `{FoldLaws T} k (Q Q' : Leaf → Prop) d (x y : T) :
  (∀ l, Q l → Q' l) → lift (leaf_family k Q) d x y → lift (leaf_family k Q') d x y.
Proof.
  intros HQ. apply lift_sub. constructor; simpl; intros; eapply Forall_impl; eauto.
Qed.

Lemma canon_family_mono n s s' :
  canon_inv s → canon_inv s' → canon_le s s' → FamSub (canon_family n s) (canon_family n s').
Proof.
  intros HI HI' Hle. constructor; simpl; intros d x y Hxy [[s'' [HI'' Hle'']]|]; simpl.
  all: try (refine (Hxy (Some (exist _ s'' (conj HI'' _)))); by etrans).
  all: eapply Forall_impl; [exact (Hxy None)|]; intros l; by apply leaf_canonical_mono.
Qed.

(** *** The free variables give a total substitution *)

Lemma canonical_subst_total {T} `{FoldLaws T} fv (x : T) d :
  Forall (leaf_canonical fv) (leaves_of x d) →
  ∃ y, fold_with (SubstFolder (free_args fv)) x d = Val y.
Proof.
  apply var_only_total; [auto with chalk|..]; simpl; unfold SubstFolder_free_var.
  - intros [b i] d' Hbv bv1 [? ->]%shifted_out_to_Some; simpl in *.
    destruct Hbv as [?|[-> (k & v & Hv)]]; [lia|].
    rewrite Nat.sub_diag. simpl. unfold param_at, free_args. rewrite list_lookup_fmap, Hv. simpl.
    destruct (shifter_total (var_to_ty_with_kind v k) d' INNERMOST) as (t & Ht).
    unfold term_shifted_in_from. rewrite Ht. by eexists.
  - intros [b i] d' Hbv bv1 [? ->]%shifted_out_to_Some; simpl in *.
    destruct Hbv as [?|[-> (v & Hv)]]; [lia|].
    rewrite Nat.sub_diag. simpl. unfold param_at, free_args. rewrite list_lookup_fmap, Hv. simpl.
    destruct (shifter_total (var_to_lifetime v) d' INNERMOST) as (t & Ht).
    unfold term_shifted_in_from. rewrite Ht. by eexists.
  - intros ty _ [b i] d' Hbv bv1 [? ->]%shifted_out_to_Some; simpl in *.
    destruct Hbv as [? [?|[-> (v & Hv)]]]; [lia|].
    rewrite Nat.sub_diag. simpl. unfold param_at, free_args. rewrite list_lookup_fmap, Hv. simpl.
    destruct (shifter_total (var_to_const v ty) d' INNERMOST) as (t & Ht).
    unfold term_shifted_in_from. rewrite Ht. by eexists.
Qed.

(** *** The callbacks *)

Lemma add_spec k r s i s' :
  canon_inv s → r < len → root r = r → K r = k → add (mkWithKind k r) s = Val (i, s') →
  canon_inv s' ∧ canon_le s s' ∧ s'.(free_vars) !! i = Some (mkWithKind k r).
Proof.
  intros (Ht & HF & HN) Hr Hroot HK Ha. unfold add in Ha. simpl in Ha. rewrite Ht in Ha.
  unfold universe_of_unbound_var in Ha.
  destruct (probe r) as [u|] eqn:Hp; [|done]. simpl in Ha. unfold position in Ha.
  destruct (list_find _ _) as [[j p]|] eqn:Hf; simpl in Ha; injection Ha as <- <-; simpl.
  - apply list_find_Some in Hf as (Hj & Hpr & _).
    unfold canon_inv, canon_le; simpl. split_and!; [done..|].
    rewrite Hj. f_equal. destruct p as [k' r']; simpl in *. subst r'.
    rewrite Forall_lookup in HF. destruct (HF _ _ Hj) as (_ & _ & Hk & _). simpl in Hk. by subst.
  - apply list_find_None in Hf. rewrite <- Ht. split_and!.
    + split_and!; [done| |].
      * apply Forall_app_2; [done|]. constructor; [|done]. unfold unbound_root. simpl. eauto.
      * simpl. rewrite fmap_app, NoDup_app. simpl. split_and!; [done| |apply NoDup_singleton].
        intros x (p & -> & Hpin)%list_elem_of_fmap Hx%list_elem_of_singleton.
        rewrite Forall_forall in Hf. by apply (Hf p).
    + unfold canon_le. simpl. by apply prefix_app_r.
    + simpl. by rewrite lookup_app_r, Nat.sub_diag by done.
Qed.

Lemma see_universe_spec u s s' a :
  canon_inv s → see_universe u s = Val (a, s') → canon_inv s' ∧ canon_le s s'.
Proof. intros (Ht & HF & HN) [= <- <-]. by unfold canon_inv, canon_le. Qed.

(** A variable that is bound: its value is canonicalized, then shifted. *)
Lemma bound_case {A} `{FoldLaws A} n (x x' y : A) d s s' :
  LeafSpec wpST (canonicalizer n) canon_inv canon_le (canon_family n) leaf_kinded →
  canon_inv s → Forall leaf_kinded (leaves_of x INNERMOST) →
  fold_with (canonicalizer n) x INNERMOST s = Val (x', s') →
  term_shifted_in_from x' d = Val y →
  canon_inv s' ∧ canon_le s s' ∧ Forall (leaf_canonical s'.(free_vars)) (leaves_of y d) ∧
  ∀ s'', canon_inv s'' → canon_le s' s'' →
    ∃ z, fold_with (resolver n) x INNERMOST = Val z ∧
      term_shifted_in_from z d = fold_with (SubstFolder (free_args s''.(free_vars))) y d.
Proof.
  intros Hspec HI Hx Hfold Hy.
  destruct (fold_gives _ _ _ _ _ _ Hspec x INNERMOST s Hx HI x' s' Hfold) as (HI' & Hle & Hr).
  unfold term_shifted_in_from in Hy. rewrite unwrap_result_Val in Hy.
  assert (Forall (leaf_canonical s'.(free_vars)) (leaves_of x' INNERMOST)) as Hq.
  { apply (lift_leaves 0 _ INNERMOST x). eapply lift_sub; [|exact Hr].
    by refine (all_family_sub _ None). }
  split_and!; [done..| |].
  { pose proof (shift_leaves _ _ _ _ _ (leaf_canonical_stable _ d) Hy Hq) as Hq'.
    unfold INNERMOST in Hq'. by rewrite Nat.add_0_r in Hq'. }
  intros s'' HI'' Hle'.
  assert (fold_with (resolver n) x INNERMOST =
    fold_with (SubstFolder (free_args s''.(free_vars))) x' INNERMOST) as Heq.
  { apply (lift_eq 0). eapply lift_sub; [|exact Hr].
    by refine (all_family_sub _ (Some (exist _ s'' (conj HI'' Hle')))). }
  destruct (canonical_subst_total s''.(free_vars) x' INNERMOST) as (z & Hz).
  { eapply Forall_impl; [exact Hq|]. intros l. by apply leaf_canonical_mono. }
  exists z. split; [by rewrite Heq|].
  pose proof (subst_shift_comm _ _ _ _ _ _ Hz Hy) as Hc. unfold INNERMOST in *.
  rewrite Nat.add_0_r in Hc. unfold term_shifted_in_from, INNERMOST. rewrite Hc.
  destruct (shifter_total z d 0) as (z' & ->). done.
Qed.

Lemma canon_RT n s d t t' :
  Forall (leaf_canonical s.(free_vars)) (leaves_ty t' d) →
  (∀ s', canon_inv s' → canon_le s s' →
     fold_ty (resolver n) t d = fold_ty (SubstFolder (free_args s'.(free_vars))) t' d) →
  (canon_family n s).(RT) d t t'.
Proof. intros Hl He [[s' [HI Hle]]|]; [by apply He|done]. Qed.

Lemma canon_RL n s d t t' :
  Forall (leaf_canonical s.(free_vars)) (leaves_lifetime t' d) →
  (∀ s', canon_inv s' → canon_le s s' →
     fold_lifetime (resolver n) t d =
     fold_lifetime (SubstFolder (free_args s'.(free_vars))) t' d) →
  (canon_family n s).(RL) d t t'.
Proof. intros Hl He [[s' [HI Hle]]|]; [by apply He|done]. Qed.

Lemma canon_RC n s d t t' :
  Forall (leaf_canonical s.(free_vars)) (leaves_const t' d) →
  (∀ s', canon_inv s' → canon_le s s' →
     fold_const (resolver n) t d = fold_const (SubstFolder (free_args s'.(free_vars))) t' d) →
  (canon_family n s).(RC) d t t'.
Proof. intros Hl He [[s' [HI Hle]]|]; [by apply He|done]. Qed.

(** The canonical variable of an unbound inference variable. *)
Lemma subst_canonical_var fv i k v :
  fv !! i = Some (mkWithKind k v) →
  param_at (free_args fv) i = Val (param_to_generic_arg (mkWithKind k v)).
Proof. intros Hi. unfold param_at, free_args. by rewrite list_lookup_fmap, Hi. Qed.

Ltac pure_state := unfold gives, wpST; intros ?a ?s' [= <- <-]; split_and!; [done..|].
Ltac probe_cases :=
  match goal with
  | H : context [probe_var (ctable ?s) ?v] |- _ =>
      let Hp := fresh "Hprobe" in
      unfold probe_var in H; destruct (ena_probe_value (unify (ctable s)) v) eqn:Hp
  end.

Lemma st_bind_inv {S A B} (m : ST S A) (f : A → ST S B) s r :
  (m ≫= f) s = Val r → ∃ a s', m s = Val (a, s') ∧ f a s' = Val r.
Proof. apply ST_bind_Val. Qed.

Lemma st_lift_inv {S A} (m : Fallible A) (s s' : S) a :
  st_lift m s = Val (a, s') → m = Val a ∧ s' = s.
Proof. unfold st_lift. destruct m; simpl; intros; simplify_eq. done. Qed.

(** One step of the fuel, as a total function of [n]. *)
Definition below {A} (n : nat) (m : nat → ST (Canonicalizer E) A) : ST (Canonicalizer E) A :=
  match n with 0 => λ _, OutOfFuel | S n => m n end.
Definition rbelow {A} (n : nat) (m : nat → Fallible A) : Fallible A :=
  match n with 0 => OutOfFuel | S n => m n end.

Definition canon_var {A} (n : nat) (sel : GenericArg → Fallible A) `{Fold A}
    (m : nat → A → ST (Canonicalizer E) A) (k : VariableKind) (var : BoundVar → A)
    (v : InferenceVar) (d : nat) : ST (Canonicalizer E) A := λ self,
  match probe_var self.(ctable) v with
  | Some a =>
      (x ← st_lift (sel a); x ← below n (λ n, m n x); st_lift (term_shifted_in_from x d)) self
  | None =>
      (i ← add (mkWithKind k (ena_find self.(ctable).(unify) v));
       mret (var (shifted_in_from (mkBoundVar INNERMOST i) d))) self
  end.

Definition resolve_var {A} (n : nat) (sel : GenericArg → Fallible A) `{Fold A}
    (m : nat → A → Fallible A) (var : InferenceVar → A) (v : InferenceVar) (d : nat) : Fallible A :=
  match probe_var tbl v with
  | Some a => x ← sel a; x ← rbelow n (λ n, m n x); term_shifted_in_from x d
  | None => Val (var (root v))
  end.

Lemma canon_var_spec {A} `{FoldLaws A} n sel k var (inj : A → GenericArg) infer v d s y s' :
  (∀ m, m < n →
    LeafSpec wpST (canonicalizer m) canon_inv canon_le (canon_family m) leaf_kinded) →
  canon_inv s → v < len → (∀ ui, probe v = Unbound ui → K (root v) = k) →
  (∀ a x, sel a = Val x → a = inj x) → (∀ x, sel (inj x) = Val x) →
  (∀ x, leaves_arg (inj x) INNERMOST = leaves_of x INNERMOST) →
  (∀ r, param_to_generic_arg (mkWithKind k r) = inj (infer r)) →
  (∀ r d, term_shifted_in_from (infer r) d = Val (infer r)) →
  canon_var n sel (λ n x, fold_with (canonicalizer n) x INNERMOST) k var v d s = Val (y, s') →
  (∀ i, s'.(free_vars) !! i = Some (mkWithKind k (root v)) → y = var (mkBoundVar d i) →
    Forall (leaf_canonical s'.(free_vars)) (leaves_of y d) ∧
    ∀ s'', canon_le s' s'' → fold_with (SubstFolder (free_args s''.(free_vars))) y d =
      SubstFolder_free_var (free_args s''.(free_vars)) sel (mkBoundVar 0 i) d) →
  canon_inv s' ∧ canon_le s s' ∧
  Forall (leaf_canonical s'.(free_vars)) (leaves_of y d) ∧
  ∀ s'', canon_inv s'' → canon_le s' s'' →
    resolve_var n sel (λ n x, fold_with (resolver n) x INNERMOST) infer v d =
    fold_with (SubstFolder (free_args s''.(free_vars))) y d.
Proof.
  intros IHn HI Hv HK Hsel Hsel' Hleaves Harg Hshift Hm Hvar.
  pose proof HI as (Ht & _ & _). unfold canon_var, resolve_var in *. rewrite Ht in Hm.
  unfold probe_var in *. destruct (probe v) as [u|a] eqn:Hp.
  - apply st_bind_inv in Hm as (i & s1 & Hadd & [= <- <-]).
    apply add_spec in Hadd as (HI' & Hle & Hi); [|done|..].
    2: { by apply find_lt; [apply Htbl|]. }
    2: { by apply find_find; [apply Htbl|]. }
    2: { by eapply HK. }
    destruct (Hvar i Hi eq_refl) as [Hq He]. split_and!; [done..|].
    intros s'' HI'' Hle'. rewrite He by done. unfold SubstFolder_free_var. simpl.
    erewrite subst_canonical_var by (by eapply prefix_lookup_Some). simpl.
    by rewrite Harg, Hsel'; simpl; rewrite Hshift.
  - apply st_bind_inv in Hm as (x & s1 & Hx & Hm). apply st_lift_inv in Hx as [Hx ->].
    apply st_bind_inv in Hm as (x' & s1 & Hx' & Hm). apply st_lift_inv in Hm as [Hm <-].
    destruct n as [|n]; [done|]. simpl in Hx'.
    destruct (bound_case n x x' y d s s') as (HI' & Hle & Hq & He); try done.
    { apply IHn. lia. }
    { rewrite <- Hleaves. apply Hsel in Hx as <-. by eapply (tk_bound Htbl). }
    split_and!; [done..|]. intros s'' HI'' Hle'.
    destruct (He s'' HI'' Hle') as (z & Hz & <-). rewrite Hx. simpl. by rewrite Hz.
Qed.

Lemma canon_inference_ty n v k d s :
  fold_ty (canonicalizer n) (TyInferenceVar v k) d s =
  canon_var n assert_ty_ref (λ n x, fold_with (canonicalizer n) x INNERMOST) (VkTy k) TyBoundVar v d s.
Proof. by destruct n. Qed.
Lemma canon_inference_lifetime n v d s :
  fold_lifetime (canonicalizer n) (LtInferenceVar v) d s =
  canon_var n assert_lifetime_ref (λ n x, fold_with (canonicalizer n) x INNERMOST) VkLifetime
    LtBoundVar v d s.
Proof. by destruct n. Qed.
Lemma canon_inference_const n ty v d s :
  fold_const (canonicalizer n) (mkConst ty (CvInferenceVar v)) d s =
  canon_var n assert_const_ref (λ n x, fold_with (canonicalizer n) x INNERMOST) (VkConst ty)
    (λ bv, mkConst ty (CvBoundVar bv)) v d s.
Proof. by destruct n. Qed.

Lemma var_leaf v d : shifted_in_from (mkBoundVar INNERMOST v) d = mkBoundVar d v.
Proof. done. Qed.

Lemma subst_own_var d i : shifted_out_to (mkBoundVar d i) d = Some (mkBoundVar 0 i).
Proof. apply shifted_out_to_Some. simpl. by rewrite Nat.sub_diag. Qed.

Lemma canonicalizer_spec n :
  LeafSpec wpST (canonicalizer n) canon_inv canon_le (canon_family n) leaf_kinded.
Proof.
  induction n as [n IHn] using lt_wf_ind.
  constructor; [apply wpST_laws|apply _|intros; apply canon_family_cong|
    intros; by apply canon_family_mono|..].
  - intros s l d HI HP l' s' Hl. destruct l as [bv|v|p| |u|].
    + assert (shifted_out_to bv d = None ∧ l' = LtBoundVar bv ∧ s' = s) as (Hs & -> & ->).
      { destruct n; unfold fold_lifetime in Hl; simpl in Hl;
          destruct (shifted_out_to bv d); first [discriminate Hl|by injection Hl as <- <-]. }
      split_and!; [done..|]. apply canon_RL.
      * constructor; [|done]. left. by apply shifted_out_to_None.
      * intros. destruct n; unfold fold_lifetime; simpl; unfold default_fold_lifetime; simpl;
          by rewrite Hs.
    + apply Forall_inv in HP as [Hv HK]. rewrite canon_inference_lifetime in Hl.
      eapply (canon_var_spec n _ _ _ ArgLifetime LtInferenceVar) in Hl as (HI' & Hle & Hq & He);
        try done.
      * split_and!; [done..|]. apply canon_RL; [done|]. intros s'' HI'' Hle''.
        refine (eq_trans _ (He s'' HI'' Hle'')). by destruct n.
      * by intros [] ? [= <-].
      * intros i Hi ->. split; [constructor; [|done]; right; eauto|].
        intros s'' _. unfold fold_with, Fold_Lifetime, fold_lifetime. simpl.
        unfold default_fold_lifetime. simpl. by rewrite subst_own_var.
    + assert (l' = LtPlaceholder p ∧ canon_inv s' ∧ canon_le s s') as (-> & HI' & Hle).
      { assert (l' = LtPlaceholder p ∧ see_universe p.(ui) s = Val (tt, s')) as [-> Hsee].
        { destruct n; unfold fold_lifetime in Hl; simpl in Hl; by injection Hl as <- <-. }
        split; [done|]. by eapply see_universe_spec. }
      split_and!; [done..|]. apply canon_RL; [by constructor|]. intros. by destruct n.
    + destruct n; injection Hl as <- <-; (split_and!; [done..|]); by apply canon_RL; [constructor|].
    + assert (u.(counter) = 0 ∧ l' = LtEmpty u ∧ s' = s) as (Hu & -> & ->).
      { destruct n; unfold fold_lifetime in Hl; simpl in Hl; case_bool_decide as Hu; try done;
          injection Hl as <- <-; split_and!; lia || done. }
      split_and!; [done..|]. apply canon_RL; [by constructor|]. intros. by destruct n.
    + destruct n; injection Hl as <- <-; (split_and!; [done..|]); by apply canon_RL; [constructor|].
  - intros s t d HI HP Hvar t' s' Ht. destruct t as [| | | | | | | | | | | | | | | | |p| | | |bv|v k];
      try done.
    + assert (t' = TyPlaceholder p ∧ canon_inv s' ∧ canon_le s s') as (-> & HI' & Hle).
      { assert (t' = TyPlaceholder p ∧ see_universe p.(ui) s = Val (tt, s')) as [-> Hsee].
        { destruct n; simpl in Ht; by injection Ht as <- <-. }
        split; [done|]. by eapply see_universe_spec. }
      split_and!; [done..|]. apply canon_RT; [by constructor|]. intros. by destruct n.
    + assert (shifted_out_to bv d = None ∧ t' = TyBoundVar bv ∧ s' = s) as (Hs & -> & ->).
      { destruct n; simpl in Ht; destruct (shifted_out_to bv d);
          first [discriminate Ht|by injection Ht as <- <-]. }
      split_and!; [done..|]. apply canon_RT.
      * constructor; [|done]. left. by apply shifted_out_to_None.
      * intros. destruct n; simpl; by rewrite Hs.
    + apply Forall_inv in HP as [Hv HK]. rewrite canon_inference_ty in Ht.
      eapply (canon_var_spec n _ _ _ ArgTy (λ r, TyInferenceVar r k)) in Ht as (HI' & Hle & Hq & He);
        try done.
      * split_and!; [done..|]. apply canon_RT; [done|]. intros s'' HI'' Hle''.
        refine (eq_trans _ (He s'' HI'' Hle'')). by destruct n.
      * by intros [] ? [= <-].
      * intros i Hi ->. split; [constructor; [|done]; right; eauto|].
        intros s'' _. unfold fold_with, Fold_Ty. simpl. by rewrite subst_own_var.
  - intros s t v d HI HP IHt Hvar c' s' Hc. destruct v as [bv|v|p|]; try done.
    + assert (shifted_out_to bv d = None ∧ c' = mkConst t (CvBoundVar bv) ∧ s' = s)
        as (Hs & -> & ->).
      { destruct n; simpl in Hc; destruct (shifted_out_to bv d);
          first [discriminate Hc|by injection Hc as <- <-]. }
      apply Forall_inv in HP as Hg. simpl in Hg.
      split_and!; [done..|]. apply canon_RC.
      * simpl. rewrite Hg. constructor; [|done]. split; [done|]. left. by apply shifted_out_to_None.
      * intros. destruct n; simpl; by rewrite Hs.
    + apply Forall_inv in HP as (Hv & Hg & HK). rewrite canon_inference_const in Hc.
      eapply (canon_var_spec n _ _ _ ArgConst (λ r, mkConst t (CvInferenceVar r)))
        in Hc as (HI' & Hle & Hq & He); try done.
      * split_and!; [done..|]. apply canon_RC; [done|]. intros s'' HI'' Hle''.
        refine (eq_trans _ (He s'' HI'' Hle'')). by destruct n.
      * by intros [] ? [= <-].
      * intros r d'. unfold term_shifted_in_from, fold_with, Fold_Const. simpl.
        by rewrite fold_ground by auto with chalk.
      * intros i Hi ->. split.
        { simpl. rewrite Hg. constructor; [|done]. split; [done|]. right; eauto. }
        intros s'' _. unfold fold_with, Fold_Const. simpl. by rewrite subst_own_var.
    + apply Forall_inv in HP as Hg. simpl in Hg.
      assert (c' = mkConst t (CvPlaceholder p) ∧ canon_inv s' ∧ canon_le s s') as (-> & HI' & Hle).
      { assert (c' = mkConst t (CvPlaceholder p) ∧ see_universe p.(ui) s = Val (tt, s')) as [-> Hsee].
        { destruct n; simpl in Hc; by injection Hc as <- <-. }
        split; [done|]. by eapply see_universe_spec. }
      split_and!; [done..|]. apply canon_RC.
      * simpl. rewrite Hg. by constructor.
      * intros. simpl. destruct n; simpl; by rewrite fold_ground by auto with chalk.
Qed.

(** *** Canonicalization returns *)

Definition wpST_total {S} A (m : ST S A) (s : S) (Q : A → S → Prop) : Prop :=
  ∃ a s', m s = Val (a, s') ∧ Q a s'.

Lemma wpST_total_laws {S} : WpLaws (@wpST_total S).
Proof.
  constructor; unfold wpST_total.
  - intros * ?. by eexists _, _.
  - intros * (a & s' & Ha & b & s'' & Hb & ?). exists b, s''. split; [|done].
    apply ST_bind_Val. eauto.
  - intros * ? (a & s' & ? & ?). eauto 6.
Qed.

Context (rank : InferenceVar → nat).

(** The value of a bound variable has the kind at which the variable is used. *)
Definition value_is (p : GenericArg → bool) (v : InferenceVar) : Prop :=
  match probe v with Unbound _ => True | Bound a => p a = true end.
Definition is_ty_arg (a : GenericArg) : bool := match a with ArgTy _ => true | _ => false end.
Definition is_lt_arg (a : GenericArg) : bool := match a with ArgLifetime _ => true | _ => false end.
Definition is_ct_arg (a : GenericArg) : bool := match a with ArgConst _ => true | _ => false end.

(** A leaf that canonicalization handles with [n] nested bindings at most. *)
Definition leaf_ranked (n : nat) (l : Leaf) : Prop :=
  match l with
  | LeafTyInfer v _ => v < len ∧ rank v < n ∧ value_is is_ty_arg v
  | LeafLtInfer v => v < len ∧ rank v < n ∧ value_is is_lt_arg v
  | LeafCtInfer _ v => v < len ∧ rank v < n ∧ value_is is_ct_arg v
  | LeafTyVar bv d | LeafLtVar bv d | LeafCtVar _ bv d => bv.(debruijn) < d
  | LeafEmpty u => u.(counter) = 0
  | _ => True
  end.

(** The bindings are acyclic: the variables in a value rank below the variable
    that is bound to it. *)
Definition table_acyclic : Prop :=
  ∀ v a, v < len → probe v = Bound a → Forall (leaf_ranked (rank v)) (leaves_arg a INNERMOST).

Context (Hacyclic : table_acyclic).

Definition table_inv (s : Canonicalizer E) : Prop := s.(ctable) = tbl.

Abbreviation returns n := (LeafSpec wpST_total (canonicalizer n) table_inv (λ _ _, True)
  (λ _, leaf_family 0 (λ _, True)) (leaf_ranked n)).

Lemma leaf_ranked_mono n m l : n ≤ m → leaf_ranked n l → leaf_ranked m l.
Proof. intros Hnm. destruct l; simpl; try done; intros (? & ? & ?); split_and!; (done || lia). Qed.

Lemma canon_var_returns {A} `{FoldLaws A} n sel k var (inj : A → GenericArg) p v d s :
  (∀ m, m < n → returns m) → table_inv s →
  v < len → rank v < n → value_is p v →
  (∀ a, p a = true → ∃ x, a = inj x) → (∀ x, sel (inj x) = Val x) →
  (∀ x, leaves_arg (inj x) INNERMOST = leaves_of x INNERMOST) →
  ∃ y s', canon_var n sel (λ n x, fold_with (canonicalizer n) x INNERMOST) k var v d s = Val (y, s') ∧
    table_inv s'.
Proof.
  intros IHn HI Hv Hr Hval Hinj Hsel Hleaves. unfold canon_var, probe_var, value_is in *.
  rewrite HI. destruct (probe v) as [u|a] eqn:Hp.
  - assert (∃ i s', add (mkWithKind k (root v)) s = Val (i, s') ∧ table_inv s') as (i & s' & Hadd & HI').
    { unfold add. simpl. rewrite HI. unfold universe_of_unbound_var.
      rewrite (probe_find _ (root v) v); [|apply Htbl|by apply find_lt; [apply Htbl|]|done|
        by apply find_find; [apply Htbl|]]. rewrite Hp. simpl.
      destruct (position _ _); eexists _, _; (split; [done|]); done. }
    eexists _, s'. split; [|done]. apply ST_bind_Val. eauto.
  - destruct (Hinj a Hval) as (x & ->). destruct n as [|n]; [lia|].
    pose proof (IHn n ltac:(lia)) as Hspec.
    destruct (fold_gives _ _ _ _ _ _ Hspec x INNERMOST s) as (x' & s' & Hx' & HI' & _);
      [|done|].
    { rewrite <- Hleaves. eapply Forall_impl; [by eapply Hacyclic|].
      intros l. apply leaf_ranked_mono. lia. }
    destruct (shifter_total x' d INNERMOST) as (y & Hy).
    exists y, s'. split; [|done]. apply ST_bind_Val. exists x, s. unfold st_lift at 1.
    rewrite Hsel. split; [done|]. simpl. apply ST_bind_Val. exists x', s'. split; [done|].
    unfold st_lift, term_shifted_in_from. by rewrite Hy.
Qed.

Lemma canonicalizer_returns n : returns n.
Proof.
  induction n as [n IHn] using lt_wf_ind.
  constructor; [apply wpST_total_laws|done|intros; apply leaf_family_cong|done|..].
  - intros s l d HI HP. destruct l as [bv|v|p| |u|]; try apply Forall_inv in HP.
    + apply shifted_out_to_None in HP. eexists _, s. split; [|by split_and!; try apply Forall_leaves_true].
      destruct n; unfold fold_lifetime; simpl; by rewrite HP.
    + destruct HP as (Hv & Hr & Hval).
      destruct (canon_var_returns n assert_lifetime_ref VkLifetime LtBoundVar ArgLifetime
        is_lt_arg v d s) as (y & s' & Hy & HI'); try done.
      { intros []; simpl; intros; try done; eauto. }
      exists y, s'. split; [by rewrite canon_inference_lifetime|].
      split_and!; [done..|apply Forall_leaves_true].
    + eexists _, _. split; [by destruct n|]. split_and!; [done..|apply Forall_leaves_true].
    + eexists _, _. split; [by destruct n|]. split_and!; [done..|apply Forall_leaves_true].
    + eexists _, _. split.
      { simpl in HP. destruct n; unfold fold_lifetime; simpl; by rewrite HP. }
      split_and!; [done..|apply Forall_leaves_true].
    + eexists _, _. split; [by destruct n|]. split_and!; [done..|apply Forall_leaves_true].
  - intros s t d HI HP Hvar.
    destruct t as [| | | | | | | | | | | | | | | | |p| | | |bv|v k]; try done; apply Forall_inv in HP.
    + eexists _, _. split; [by destruct n|]. split_and!; [done..|apply Forall_leaves_true].
    + apply shifted_out_to_None in HP. eexists _, s. split; [|by split_and!; try apply Forall_leaves_true].
      destruct n; simpl; by rewrite HP.
    + destruct HP as (Hv & Hr & Hval).
      destruct (canon_var_returns n assert_ty_ref (VkTy k) TyBoundVar ArgTy
        is_ty_arg v d s) as (y & s' & Hy & HI'); try done.
      { intros []; simpl; intros; try done; eauto. }
      exists y, s'. split; [by rewrite canon_inference_ty|].
      split_and!; [done..|apply Forall_leaves_true].
  - intros s t v d HI HP IHt Hvar. destruct v as [bv|v|p|]; try done; apply Forall_inv in HP.
    + apply shifted_out_to_None in HP. eexists _, s. split; [|by split_and!; try apply Forall_leaves_true].
      destruct n; simpl; by rewrite HP.
    + destruct HP as (Hv & Hr & Hval).
      destruct (canon_var_returns n assert_const_ref (VkConst t) (λ bv, mkConst t (CvBoundVar bv))
        ArgConst is_ct_arg v d s) as (y & s' & Hy & HI'); try done.
      { intros []; simpl; intros; try done; eauto. }
      exists y, s'. split; [by rewrite canon_inference_const|].
      split_and!; [done..|apply Forall_leaves_true].
    + eexists _, _. split; [by destruct n|]. split_and!; [done..|apply Forall_leaves_true].
Qed.
End Canon.

Section CanonProps.
Context {E : Type} `{EnaLaws E}.

Lemma fold_canon_inv {T} `{FoldLaws T} (tbl : InferenceTable E) K fuel (x x' : T) q :
  table_kinded tbl K → Forall (leaf_kinded tbl K) (leaves_of x INNERMOST) →
  fold_with (canonicalizer fuel) x INNERMOST (mkCanonicalizer tbl [] universe_root) = Val (x', q) →
  canon_inv tbl K q ∧ Forall (leaf_canonical q.(free_vars)) (leaves_of x' INNERMOST) ∧
  fold_with (resolver tbl fuel) x INNERMOST =
    fold_with (SubstFolder (free_args q.(free_vars))) x' INNERMOST.
Proof.
  intros Htbl Hx Hf.
  assert (canon_inv tbl K (mkCanonicalizer tbl [] universe_root)) as HI.
  { split_and!; simpl; [done|constructor|constructor]. }
  destruct (fold_gives _ _ _ _ _ _ (canonicalizer_spec tbl K Htbl fuel) x INNERMOST _ Hx HI _ _ Hf)
    as (HI' & Hle & Hr).
  split_and!; [done| |].
  - apply (lift_leaves 0 _ INNERMOST x). eapply lift_sub; [|exact Hr].
    by refine (all_family_sub _ None).
  - apply (lift_eq 0). eapply lift_sub; [|exact Hr].
    assert (canon_le q q) as Hqq by by unfold canon_le.
    exact (all_family_sub _ (Some (exist _ q (conj HI' Hqq)))).
Qed.

Lemma into_binders_spec (tbl : InferenceTable E) K q :
  canon_inv tbl K q → ∃ bs, into_binders q = Val bs ∧
    Forall2 (λ b p, b.(kind) = p.(kind) ∧ ena_find tbl.(unify) p.(kvalue) = p.(kvalue) ∧
      ena_probe_value tbl.(unify) p.(kvalue) = Unbound b.(kvalue)) bs q.(free_vars).
Proof.
  intros (Ht & HF & _). unfold into_binders. rewrite Ht.
  induction HF as [|p l (Hp & Hroot & HK & ui & Hu) HF (bs & Hbs & IH)]; simpl; [by eexists|].
  unfold universe_of_unbound_var in *. rewrite Hu. simpl. rewrite Hbs. simpl.
  eexists. split; [done|]. by constructor.
Qed.

(** C4. What canonicalization returns.  The free variables are distinct
    unbound roots and the binders carry their kinds and universes; the
    canonical value has no inference variables, only variables of those binders
    at their kinds; and putting the free variables back into it gives the value
    with the bindings of the table applied. *)
Theorem canonicalize_correct {T} `{FoldLaws T} (tbl : InferenceTable E) K fuel (value : T) c :
  table_kinded tbl K → Forall (leaf_kinded tbl K) (leaves_of value INNERMOST) →
  canonicalize fuel value tbl = Val c →
  NoDup (kvalue <$> c.(cfree_vars)) ∧
  Forall2 (λ b p, b.(kind) = p.(kind) ∧ ena_find tbl.(unify) p.(kvalue) = p.(kvalue) ∧
    ena_probe_value tbl.(unify) p.(kvalue) = Unbound b.(kvalue))
    c.(quantified).(cbinders) c.(cfree_vars) ∧
  Forall (leaf_canonical c.(cfree_vars)) (leaves_of c.(quantified).(cvalue) INNERMOST) ∧
  ∃ v, fold_with (resolver tbl fuel) value INNERMOST = Val v ∧
    subst_apply (free_args c.(cfree_vars)) c.(quantified).(cvalue) = Val v.
Proof.
  intros Htbl Hv Hc. unfold canonicalize in Hc. inv_outcome Hc.
  rewrite unwrap_result_Val in Hx. destruct x as [x' q]. inv_outcome Hc. subst c. simpl.
  destruct (fold_canon_inv _ _ _ _ _ _ Htbl Hv Hx) as (HI & Hq & He).
  destruct (into_binders_spec _ _ _ HI) as (bs & Hbs & Hb).
  rewrite Hbs in Hx0. injection Hx0 as <-.
  split_and!; [by apply HI|done..|].
  destruct (canonical_subst_total q.(free_vars) x' INNERMOST Hq) as (v & Hsub).
  exists v. split; [by rewrite He|]. unfold subst_apply. by rewrite Hsub.
Qed.

(** C16. Canonicalization returns, without running out of the fuel [n], on a
    value without free variables when the bindings of the table are acyclic and
    [n] bounds the rank of the variables of the value. *)
Theorem canonicalize_returns {T} `{FoldLaws T} (tbl : InferenceTable E) K rank n (value : T) :
  table_kinded tbl K → table_acyclic tbl rank →
  Forall (leaf_kinded tbl K) (leaves_of value INNERMOST) →
  Forall (leaf_ranked tbl rank n) (leaves_of value INNERMOST) →
  ∃ c, canonicalize n value tbl = Val c.
Proof.
  intros Htbl Ha Hk Hr. unfold canonicalize.
  pose proof (canonicalizer_returns tbl K Htbl rank Ha n) as Hspec.
  destruct (fold_gives _ _ _ _ _ _ Hspec value INNERMOST (mkCanonicalizer tbl [] universe_root))
    as (x & q & Hx & _); [done..|].
  rewrite Hx. simpl. destruct (fold_canon_inv _ _ _ _ _ _ Htbl Hk Hx) as (HI & _ & _).
  destruct (into_binders_spec _ _ _ HI) as (bs & -> & _). simpl. by eexists.
Qed.
End CanonProps.

(** ** Witnesses: a table where [?0 := [?1]] and [?1] is unbound *)

Definition sample_table : InferenceTable UnionFind.t :=
  mkTable (UnionFind.mk [0; 1] [Bound (ArgTy (TySlice (TyInferenceVar 1 General)));
    Unbound (mkUniverse 2)]) [0; 1] (mkUniverse 2).
Definition sample_value : Ty := TyTuple 2 [ArgTy (TyInferenceVar 0 General); ArgTy (TyInferenceVar 1 General)].
Definition sample_kinds (_ : InferenceVar) : VariableKind := VkTy General.
Definition sample_rank (v : InferenceVar) : nat := match v with 0 => 1 | _ => 0 end.
Definition sample_canonicalized : Canonicalized Ty :=
  mkCanonicalized
    (mkCanonical (TyTuple 2 [ArgTy (TySlice (TyBoundVar (mkBoundVar 0 0))); ArgTy (TyBoundVar (mkBoundVar 0 0))])
       [mkWithKind (VkTy General) (mkUniverse 2)])
    [mkWithKind (VkTy General) 1].

Lemma sample_table_kinded : table_kinded sample_table sample_kinds.
Proof.
  constructor.
  - constructor; [done|]. intros [|[|a]] r; simpl; try done; by intros [= <-].
  - intros [|[|v]] a Hv Ha; simpl in *; try lia; [|done].
    injection Ha as <-. repeat constructor; simpl; lia.
Qed.

Lemma sample_value_kinded : Forall (leaf_kinded sample_table sample_kinds) (leaves_of sample_value INNERMOST).
Proof. repeat constructor; simpl; lia. Qed.

Lemma sample_table_acyclic : table_acyclic sample_table sample_rank.
Proof.
  intros [|[|v]] a Hv Ha; simpl in *; try lia; [|done].
  injection Ha as <-. repeat constructor; simpl; lia.
Qed.

Lemma canonicalize_correct_witness :
  canonicalize 2 sample_value sample_table = Val sample_canonicalized ∧
  NoDup (kvalue <$> sample_canonicalized.(cfree_vars)) ∧
  ∃ v, subst_apply (free_args sample_canonicalized.(cfree_vars))
         sample_canonicalized.(quantified).(cvalue) = Val v.
Proof.
  assert (canonicalize 2 sample_value sample_table = Val sample_canonicalized) as Hc by reflexivity.
  destruct (canonicalize_correct sample_table sample_kinds 2 sample_value sample_canonicalized
    sample_table_kinded sample_value_kinded Hc) as (Hn & _ & _ & v & _ & Hv).
  split; [exact Hc|]. split; [exact Hn|]. exists v. exact Hv.
Defined.

Lemma canonicalize_returns_witness : ∃ c, canonicalize 2 sample_value sample_table = Val c.
Proof.
  apply (canonicalize_returns sample_table sample_kinds sample_rank 2 sample_value
    sample_table_kinded sample_table_acyclic sample_value_kinded).
  repeat constructor; simpl; lia.
Defined.
