(* ===== verification/Visit.v ===== *)
(** * Visiting ([chalk-ir/src/visit.rs], [visit/visitors.rs], [visit/binder_impls.rs])

    A [Visitor] is the record of the callbacks that the visitors of the solver
    override; [visit_ty] and the other functions are the [super_visit_with]
    traversals.  A visit that breaks stops the traversal: [ControlFlow::Break] is
    the error of the monad.  Visits do not enter the types of constants. *)

From stdpp Require Import base list numbers.
From S2P Require Import Prelude Ir Fold FoldLaws Shift.

Section Visitor.
Context {M : Type → Type} `{MRet M, MBind M, MPanic M}.

Record Visitor := {
  visit_free_var : BoundVar → DebruijnIndex → M unit;
  visit_free_placeholder : PlaceholderIndex → DebruijnIndex → M unit;
  visit_inference_var : InferenceVar → DebruijnIndex → M unit;
  (** The override of [visit_ty], given the [super_visit_with] of the type. *)
  override_visit_ty : Ty → DebruijnIndex → M unit → M unit;
  (** The overrides of [visit_const], [visit_where_clause] and [visit_domain_goal]; that
      of where clauses is also given the visit of the first component of the clause. *)
  override_visit_const : Const → DebruijnIndex → M unit → M unit;
  override_visit_where : WhereClause → DebruijnIndex → M unit → M unit → M unit;
  override_visit_domain_goal : DomainGoal → DebruijnIndex → M unit → M unit
}.

Definition default_visit_free_var (forbid_free_vars : bool)
    (bound_var : BoundVar) (outer_binder : DebruijnIndex) : M unit :=
  if forbid_free_vars then mpanic PExplicit else mret tt.
Definition default_visit_free_placeholder (forbid_free_placeholders : bool)
    (universe : PlaceholderIndex) (outer_binder : DebruijnIndex) : M unit :=
  if forbid_free_placeholders then mpanic PExplicit else mret tt.
Definition default_visit_inference_var (forbid_inference_vars : bool)
    (var : InferenceVar) (outer_binder : DebruijnIndex) : M unit :=
  if forbid_inference_vars then mpanic PExplicit else mret tt.

Definition default_visit_ty (ty : Ty) (outer_binder : DebruijnIndex) (super_visit : M unit) : M unit :=
  super_visit.
Definition default_visit_const (constant : Const) (outer_binder : DebruijnIndex)
    (super_visit : M unit) : M unit := super_visit.
Definition default_visit_where (wc : WhereClause) (outer_binder : DebruijnIndex)
    (super_visit first : M unit) : M unit := super_visit.
Definition default_visit_domain_goal (dg : DomainGoal) (outer_binder : DebruijnIndex)
    (super_visit : M unit) : M unit := super_visit.

Context (visitor : Visitor).

(** [visit_iter]. *)
Definition visit_iter {A} (f : A → M unit) : list A → M unit :=
  fix go l := match l with [] => mret tt | x :: l => f x ≫= λ _, go l end.

Definition visit_var (bound_var : BoundVar) (outer_binder : DebruijnIndex) : M unit :=
  match shifted_out_to bound_var outer_binder with
  | Some _ => visitor.(visit_free_var) bound_var outer_binder
  | None => mret tt
  end.

Definition visit_lifetime (lifetime : Lifetime) (outer_binder : DebruijnIndex) : M unit :=
  match lifetime with
  | LtBoundVar bound_var => visit_var bound_var outer_binder
  | LtInferenceVar var => visitor.(visit_inference_var) var outer_binder
  | LtPlaceholder universe => visitor.(visit_free_placeholder) universe outer_binder
  | LtStatic | LtEmpty _ | LtErased => mret tt
  end.

Definition visit_const (constant : Const) (outer_binder : DebruijnIndex) : M unit :=
  visitor.(override_visit_const) constant outer_binder
  match const_value constant with
  | CvBoundVar bound_var => visit_var bound_var outer_binder
  | CvInferenceVar var => visitor.(visit_inference_var) var outer_binder
  | CvPlaceholder universe => visitor.(visit_free_placeholder) universe outer_binder
  | CvConcrete _ => mret tt
  end.

Fixpoint visit_ty (ty : Ty) (outer_binder : DebruijnIndex) : M unit :=
  let visit_subst s d := visit_iter (λ p, visit_arg p d) s in
  visitor.(override_visit_ty) ty outer_binder
  match ty with
  | TyBoundVar bound_var => visit_var bound_var outer_binder
  | TyDyn bounds lifetime =>
      let d1 := debruijn_shifted_in outer_binder in
      visit_iter (λ qwc : QuantifiedWhereClause,
        visit_where qwc.(value) (debruijn_shifted_in d1)) bounds.(value) ≫= λ _,
      visit_lifetime lifetime outer_binder
  | TyInferenceVar var _ => visitor.(visit_inference_var) var outer_binder
  | TyPlaceholder ui => visitor.(visit_free_placeholder) ui outer_binder
  | TyAlias proj => visit_alias proj outer_binder
  | TyFunction _ _ s => visit_subst s (debruijn_shifted_in outer_binder)
  | TyAdt _ s | TyAssociatedType _ s | TyTuple _ s | TyOpaqueType _ s | TyFnDef _ s
  | TyClosure _ s | TyGenerator _ s | TyGeneratorWitness _ s => visit_subst s outer_binder
  | TyScalar _ | TyStr | TyNever | TyForeign _ | TyError => mret tt
  | TySlice t | TyRaw _ t => visit_ty t outer_binder
  | TyRef _ l t => visit_lifetime l outer_binder ≫= λ _, visit_ty t outer_binder
  | TyArray t c => visit_ty t outer_binder ≫= λ _, visit_const c outer_binder
  end
with visit_arg (arg : GenericArg) (outer_binder : DebruijnIndex) : M unit :=
  match arg with
  | ArgTy t => visit_ty t outer_binder
  | ArgLifetime l => visit_lifetime l outer_binder
  | ArgConst c => visit_const c outer_binder
  end
with visit_alias (alias : AliasTy) (outer_binder : DebruijnIndex) : M unit :=
  match alias with
  | AliasProjection _ s | AliasOpaque _ s => visit_iter (λ p, visit_arg p outer_binder) s
  end
with visit_where (wc : WhereClause) (outer_binder : DebruijnIndex) : M unit :=
  visitor.(override_visit_where) wc outer_binder
  match wc with
  | WcImplemented tr => visit_iter (λ p, visit_arg p outer_binder) tr.(substitution)
  | WcAliasEq alias ty => visit_alias alias outer_binder ≫= λ _, visit_ty ty outer_binder
  | WcLifetimeOutlives a b =>
      visit_lifetime a outer_binder ≫= λ _, visit_lifetime b outer_binder
  | WcTypeOutlives ty lifetime =>
      visit_ty ty outer_binder ≫= λ _, visit_lifetime lifetime outer_binder
  end
  match wc with
  | WcImplemented tr => visit_iter (λ p, visit_arg p outer_binder) tr.(substitution)
  | WcAliasEq alias _ => visit_alias alias outer_binder
  | WcLifetimeOutlives a _ => visit_lifetime a outer_binder
  | WcTypeOutlives ty _ => visit_ty ty outer_binder
  end.

Definition visit_domain_goal (dg : DomainGoal) (outer_binder : DebruijnIndex) : M unit :=
  let visit_trait_ref (tr : TraitRef) :=
    visit_iter (λ p, visit_arg p outer_binder) tr.(substitution) in
  visitor.(override_visit_domain_goal) dg outer_binder
  match dg with
  | DgHolds wc => visit_where wc outer_binder
  | DgWellFormed (WfTrait tr) | DgFromEnv (FeTrait tr) | DgLocalImplAllowed tr => visit_trait_ref tr
  | DgWellFormed (WfTy t) | DgFromEnv (FeTy t) | DgIsLocal t | DgIsUpstream t
  | DgIsFullyVisible t | DgDownstreamType t => visit_ty t outer_binder
  | DgNormalize alias ty => visit_alias alias outer_binder ≫= λ _, visit_ty ty outer_binder
  | DgCompatible | DgReveal | DgObjectSafe _ => mret tt
  end.

Definition visit_constraint (c : Constraint) (outer_binder : DebruijnIndex) : M unit :=
  match c with
  | CtLifetimeOutlives a b =>
      visit_lifetime a outer_binder ≫= λ _, visit_lifetime b outer_binder
  | CtTypeOutlives ty lifetime =>
      visit_ty ty outer_binder ≫= λ _, visit_lifetime lifetime outer_binder
  end.

Fixpoint visit_goal (goal : Goal) (outer_binder : DebruijnIndex) : M unit :=
  match goal with
  | GQuantified _ subgoal => visit_goal subgoal.(value) (debruijn_shifted_in outer_binder)
  | GImplies hypotheses g =>
      visit_iter (λ c, visit_program_clause c outer_binder) hypotheses ≫= λ _,
      visit_goal g outer_binder
  | GAll gs => visit_iter (λ g, visit_goal g outer_binder) gs
  | GNot g => visit_goal g outer_binder
  | GEqGoal a b => visit_arg a outer_binder ≫= λ _, visit_arg b outer_binder
  | GSubtypeGoal a b => visit_ty a outer_binder ≫= λ _, visit_ty b outer_binder
  | GDomainGoal dg => visit_domain_goal dg outer_binder
  | GCannotProve => mret tt
  end
with visit_program_clause (clause : ProgramClause) (outer_binder : DebruijnIndex) : M unit :=
  let 'mkProgramClause b := clause in
  let d := debruijn_shifted_in outer_binder in
  visit_domain_goal b.(value).(consequence) d ≫= λ _,
  visit_iter (λ g, visit_goal g d) b.(value).(conditions) ≫= λ _,
  visit_iter (λ c : InEnvironment Constraint,
    visit_iter (λ c, visit_program_clause c d) c.(environment) ≫= λ _,
    visit_constraint c.(env_goal) d) b.(value).(constraints).
End Visitor.
#[global] Arguments Visitor M : clear implicits.

(** ** The trait [Visit] *)

Class Visit (T : Type) := visit_with :
  ∀ {M : Type → Type} `{MRet M, MBind M}, Visitor M → T → DebruijnIndex → M unit.
#[global] Hint Mode Visit ! : typeclass_instances.

#[global] Instance Visit_Ty : Visit Ty := λ _ _ _, visit_ty.
#[global] Instance Visit_Lifetime : Visit Lifetime := λ _ _ _, visit_lifetime.
#[global] Instance Visit_Const : Visit Const := λ _ _ _, visit_const.
#[global] Instance Visit_GenericArg : Visit GenericArg := λ _ _ _, visit_arg.
#[global] Instance Visit_AliasTy : Visit AliasTy := λ _ _ _, visit_alias.
#[global] Instance Visit_WhereClause : Visit WhereClause := λ _ _ _, visit_where.
#[global] Instance Visit_DomainGoal : Visit DomainGoal := λ _ _ _, visit_domain_goal.
#[global] Instance Visit_Goal : Visit Goal := λ _ _ _, visit_goal.
#[global] Instance Visit_ProgramClause : Visit ProgramClause := λ _ _ _, visit_program_clause.
#[global] Instance Visit_list {T} `{Visit T} : Visit (list T) :=
  λ _ _ _ V l d, visit_iter (λ x, visit_with V x d) l.
#[global] Instance Visit_Binders {T} `{Visit T} : Visit (Binders T) :=
  λ _ _ _ V b d, visit_with V b.(value) (debruijn_shifted_in d).
#[global] Instance Visit_InEnvironment {T} `{Visit T} : Visit (InEnvironment T) :=
  λ _ _ _ V e d, visit_with V e.(environment) d ≫= λ _, visit_with V e.(env_goal) d.

(** ** [VisitExt::has_free_vars] *)

(** [Break(())] is the error [tt]. *)
Definition FindFreeVarsVisitor : Visitor (outcome unit) := {|
  visit_free_var _ _ := Exn tt;
  visit_free_placeholder := default_visit_free_placeholder false;
  visit_inference_var := default_visit_inference_var false;
  override_visit_ty := default_visit_ty;
  override_visit_const := default_visit_const;
  override_visit_where := default_visit_where;
  override_visit_domain_goal := default_visit_domain_goal
|}.

Definition has_free_vars {T} `{Visit T} (t : T) : bool :=
  match visit_with FindFreeVarsVisitor t INNERMOST with Exn _ => true | _ => false end.

(** [Ty::needs_shift]. *)
Definition ty_needs_shift (t : Ty) : bool := has_free_vars t.
(** [Const::needs_shift] and [Lifetime::needs_shift]. *)
Definition const_needs_shift (c : Const) : bool :=
  match const_value c with CvBoundVar _ => true | _ => false end.
Definition lifetime_needs_shift (l : Lifetime) : bool :=
  match l with LtBoundVar _ => true | _ => false end.
