(* ===== verification/VisitLaws.v ===== *)
(** * What visits see

    [visits_of] lists the leaves that a visit meets, in order; a visit is the
    iteration of the visitor over this list.  Constants' types are skipped, so
    [visits_of] and [leaves_of] differ exactly when the type of a constant has a
    leaf of its own. *)

From stdpp Require Import base list numbers.
From S2P Require Import Prelude Ir Fold FoldLaws Shift ShiftThm Visit.

(** ** The leaves that are visited *)

Definition visits_const (c : Const) (d : nat) : list Leaf :=
  leaves_const_value (const_ty c) (const_value c) d.

Fixpoint visits_ty (t : Ty) (d : nat) : list Leaf :=
  match t with
  | TyBoundVar bv => [LeafTyVar bv d]
  | TyInferenceVar v k => [LeafTyInfer v k]
  | TyPlaceholder p => [LeafTyPlaceholder p]
  | TyAdt _ s | TyAssociatedType _ s | TyTuple _ s | TyOpaqueType _ s | TyFnDef _ s
  | TyClosure _ s | TyGenerator _ s | TyGeneratorWitness _ s => s ≫= λ a, visits_arg a d
  | TyFunction _ _ s => s ≫= λ a, visits_arg a (S d)
  | TyArray t c => visits_ty t d ++ visits_const c d
  | TySlice t | TyRaw _ t => visits_ty t d
  | TyRef _ l t => leaves_lifetime l d ++ visits_ty t d
  | TyDyn bs l =>
      (bs.(value) ≫= λ b : QuantifiedWhereClause, visits_where b.(value) (S (S d)))
        ++ leaves_lifetime l d
  | TyAlias a => visits_alias a d
  | TyScalar _ | TyStr | TyNever | TyForeign _ | TyError => []
  end
with visits_arg (a : GenericArg) (d : nat) : list Leaf :=
  match a with
  | ArgTy t => visits_ty t d
  | ArgLifetime l => leaves_lifetime l d
  | ArgConst c => visits_const c d
  end
with visits_alias (a : AliasTy) (d : nat) : list Leaf :=
  match a with
  | AliasProjection _ s | AliasOpaque _ s => s ≫= λ a, visits_arg a d
  end
with visits_where (w : WhereClause) (d : nat) : list Leaf :=
  match w with
  | WcImplemented tr => tr.(substitution) ≫= λ a, visits_arg a d
  | WcAliasEq a t => visits_alias a d ++ visits_ty t d
  | WcLifetimeOutlives a b => leaves_lifetime a d ++ leaves_lifetime b d
  | WcTypeOutlives t l => visits_ty t d ++ leaves_lifetime l d
  end.

Definition visits_domain_goal (dg : DomainGoal) (d : nat) : list Leaf :=
  match dg with
  | DgHolds wc => visits_where wc d
  | DgWellFormed (WfTrait tr) | DgFromEnv (FeTrait tr) | DgLocalImplAllowed tr =>
      tr.(substitution) ≫= λ a, visits_arg a d
  | DgWellFormed (WfTy t) | DgFromEnv (FeTy t) | DgIsLocal t | DgIsUpstream t
  | DgIsFullyVisible t | DgDownstreamType t => visits_ty t d
  | DgNormalize a t => visits_alias a d ++ visits_ty t d
  | DgCompatible | DgReveal | DgObjectSafe _ => []
  end.

Definition visits_constraint (c : Constraint) (d : nat) : list Leaf :=
  match c with
  | CtLifetimeOutlives a b => leaves_lifetime a d ++ leaves_lifetime b d
  | CtTypeOutlives t l => visits_ty t d ++ leaves_lifetime l d
  end.

Fixpoint visits_goal (g : Goal) (d : nat) : list Leaf :=
  match g with
  | GQuantified _ b => visits_goal b.(value) (S d)
  | GImplies h g => (h ≫= λ c, visits_clause c d) ++ visits_goal g d
  | GAll gs => gs ≫= λ g, visits_goal g d
  | GNot g => visits_goal g d
  | GEqGoal a b => visits_arg a d ++ visits_arg b d
  | GSubtypeGoal a b => visits_ty a d ++ visits_ty b d
  | GDomainGoal dg => visits_domain_goal dg d
  | GCannotProve => []
  end
with visits_clause (c : ProgramClause) (d : nat) : list Leaf :=
  let 'mkProgramClause b := c in
  visits_domain_goal b.(value).(consequence) (S d)
    ++ (b.(value).(conditions) ≫= λ g, visits_goal g (S d))
    ++ (b.(value).(constraints) ≫= λ e : InEnvironment Constraint,
          (e.(environment) ≫= λ c, visits_clause c (S d)) ++ visits_constraint e.(env_goal) (S d)).

(** ** A visit is an iteration *)

(** The laws of a monad, up to an equivalence of computations. *)
Record MonadLaws {M : Type → Type} `{MRet M, MBind M} (eqM : ∀ A, relation (M A)) : Prop := {
  ml_equiv A : Equivalence (eqM A);
  ml_ret_l A B (a : A) (f : A → M B) : eqM B (mret a ≫= f) (f a);
  ml_ret_r A (m : M A) : eqM A (m ≫= mret) m;
  ml_assoc A B C (m : M A) (f : A → M B) (g : B → M C) :
    eqM C ((m ≫= f) ≫= g) (m ≫= λ a, f a ≫= g);
  ml_bind A B (m m' : M A) (f f' : A → M B) :
    eqM A m m' → (∀ a, eqM B (f a) (f' a)) → eqM B (m ≫= f) (m' ≫= f')
}.

Lemma outcome_monad_laws E : MonadLaws (M := outcome E) (λ A, eq).
Proof.
  split; [typeclasses eauto|done|by intros ? []|by intros ? ? ? []|].
  intros A B m ? f f' <- Hf. destruct m; [apply Hf|done..].
Qed.

Definition st_eq {S} A : relation (ST S A) := λ m m', ∀ s, m s = m' s.

Lemma st_monad_laws S : MonadLaws (M := ST S) (@st_eq S).
Proof.
  split.
  - intros A. split; [by intros ? ?|by intros ? ? ? ?|].
    intros ? ? ? H1 H2 s. by rewrite (H1 s), (H2 s).
  - done.
  - intros A m s. cbv [mbind ST_bind]. by destruct (m s) as [[]| | |].
  - intros A B C m f g s. cbv [mbind ST_bind]. by destruct (m s) as [[]| | |].
  - intros A B m m' f f' Hm Hf s. cbv [mbind ST_bind]. rewrite (Hm s).
    destruct (m' s) as [[a s']| | |]; [apply Hf|done..].
Qed.

Section Visits.
Context {M : Type → Type} `{MRet M, MBind M} (eqM : ∀ A, relation (M A)) (ML : MonadLaws eqM).
#[local] Instance eqM_equiv A : Equivalence (eqM A) := ml_equiv eqM ML A.
#[local] Infix "≈" := (eqM unit) (at level 70).

(** The visitor ignores the depth of inference variables and placeholders, and
    visits all types in the same way. *)
Record depth_free (V : Visitor M) : Prop := {
  df_infer v d : V.(visit_inference_var) v d = V.(visit_inference_var) v INNERMOST;
  df_placeholder p d : V.(visit_free_placeholder) p d = V.(visit_free_placeholder) p INNERMOST;
  df_override t d m : V.(override_visit_ty) t d m = m;
  df_const c d m : V.(override_visit_const) c d m = m;
  df_where w d m m1 : V.(override_visit_where) w d m m1 = m;
  df_domain_goal g d m : V.(override_visit_domain_goal) g d m = m
}.

Context (V : Visitor M) (HV : depth_free V).

Definition visit_leaf (l : Leaf) : M unit :=
  match l with
  | LeafTyVar bv d | LeafLtVar bv d | LeafCtVar _ bv d => visit_var V bv d
  | LeafTyInfer v _ | LeafLtInfer v | LeafCtInfer _ v => V.(visit_inference_var) v INNERMOST
  | LeafTyPlaceholder p | LeafLtPlaceholder p | LeafCtPlaceholder _ p =>
      V.(visit_free_placeholder) p INNERMOST
  | LeafEmpty _ => mret tt
  end.

Abbreviation over ls := (visit_iter visit_leaf ls).

Lemma over_app l k : over (l ++ k) ≈ (over l ≫= λ _, over k).
Proof.
  induction l as [|x l IH]; simpl.
  - symmetry. exact (ml_ret_l eqM ML _ _ tt (λ _, over k)).
  - etransitivity; [|symmetry; apply (ml_assoc eqM ML)].
    apply (ml_bind eqM ML); [reflexivity|]. intros _. exact IH.
Qed.

Lemma over_1 l : over [l] ≈ visit_leaf l.
Proof.
  simpl. etransitivity; [|apply (ml_ret_r eqM ML)].
  apply (ml_bind eqM ML); [reflexivity|]. by intros [].
Qed.

Ltac over_leaf :=
  lazymatch goal with
  | |- eqM unit (visit_inference_var V ?v ?d) _ => rewrite (df_infer V HV v d)
  | |- eqM unit (visit_free_placeholder V ?p ?d) _ => rewrite (df_placeholder V HV p d)
  | _ => idtac
  end; symmetry;
  first [exact (over_1 (LeafTyVar _ _)) | exact (over_1 (LeafTyInfer _ General))
    | exact (over_1 (LeafTyPlaceholder _)) | exact (over_1 (LeafEmpty universe_root))].

Lemma over_seq m l k (m' : M unit) : m ≈ over l → m' ≈ over k → (m ≫= λ _, m') ≈ over (l ++ k).
Proof.
  intros Hm Hm'. etransitivity; [|symmetry; apply over_app].
  by apply (ml_bind eqM ML).
Qed.

Lemma over_iter {A} (f : A → M unit) (g : A → list Leaf) (l : list A) :
  Forall (λ a, f a ≈ over (g a)) l → visit_iter f l ≈ over (l ≫= g).
Proof.
  induction 1 as [|a l Ha Hl IH]; simpl; [reflexivity|]. by apply over_seq.
Qed.

Lemma over_lifetime l d : visit_lifetime V l d ≈ over (leaves_lifetime l d).
Proof.
  destruct l; simpl; try reflexivity; over_leaf.
Qed.

Lemma over_const c d : visit_const V c d ≈ over (visits_const c d).
Proof.
  unfold visit_const. rewrite (df_const V HV).
  destruct c as [t []]; unfold visits_const, const_value, const_ty; simpl; try reflexivity; over_leaf.
Qed.

Ltac over_step :=
  lazymatch goal with
  | |- mret tt ≈ over [] => reflexivity
  | |- eqM unit (visit_lifetime _ _ _) _ => apply over_lifetime
  | |- eqM unit (visit_const _ _ _) _ => apply over_const
  | |- eqM unit (visit_iter _ _) _ => first [by eauto | apply over_iter; by eauto using Forall_impl]
  | |- eqM unit (_ ≫= _) _ => apply over_seq; over_step
  | |- eqM unit (visit_var _ _ _) _ => over_leaf
  | |- eqM unit (visit_inference_var _ _ _) _ => over_leaf
  | |- eqM unit (visit_free_placeholder _ _ _) _ => over_leaf
  | |- _ => by eauto
  end.

Lemma over_terms :
  (∀ t d, visit_ty V t d ≈ over (visits_ty t d)) ∧
  (∀ c d, visit_const V c d ≈ over (visits_const c d)) ∧
  (∀ a d, visit_arg V a d ≈ over (visits_arg a d)) ∧
  (∀ a d, visit_alias V a d ≈ over (visits_alias a d)) ∧
  (∀ w d, visit_where V w d ≈ over (visits_where w d)).
Proof.
  apply (term_ind (λ t, ∀ d, visit_ty V t d ≈ over (visits_ty t d))
    (λ c, ∀ d, visit_const V c d ≈ over (visits_const c d))
    (λ a, ∀ d, visit_arg V a d ≈ over (visits_arg a d))
    (λ a, ∀ d, visit_alias V a d ≈ over (visits_alias a d))
    (λ w, ∀ d, visit_where V w d ≈ over (visits_where w d))).
  split; intros; try exact (over_const _ _); simpl;
    rewrite ?debruijn_shifted_in_S, ?(df_override V HV), ?(df_where V HV); try over_step.
Qed.

Lemma over_domain_goal dg d : visit_domain_goal V dg d ≈ over (visits_domain_goal dg d).
Proof.
  destruct over_terms as (Ht & Hc & Ha & Hp & Hw).
  assert (∀ s, visit_iter (λ p, visit_arg V p d) s ≈ over (s ≫= λ p, visits_arg p d)).
  { intros s. apply over_iter. by apply Forall_true. }
  unfold visit_domain_goal. rewrite (df_domain_goal V HV).
  destruct dg as [|[]|[]| | | | | | | | |]; simpl; over_step.
Qed.

Lemma over_constraint c d : visit_constraint V c d ≈ over (visits_constraint c d).
Proof. destruct over_terms as (Ht & _). destruct c; simpl; over_step. Qed.

Lemma over_goals :
  (∀ g d, visit_goal V g d ≈ over (visits_goal g d)) ∧
  (∀ c d, visit_program_clause V c d ≈ over (visits_clause c d)).
Proof.
  destruct over_terms as (Ht & Hc & Ha & _).
  apply (goal_ind (λ g, ∀ d, visit_goal V g d ≈ over (visits_goal g d))
    (λ c, ∀ d, visit_program_clause V c d ≈ over (visits_clause c d))).
  split; intros; simpl; rewrite ?debruijn_shifted_in_S; try over_step; [apply over_domain_goal|].
  apply over_seq; [apply over_domain_goal|]. apply over_seq; [over_step|].
  apply over_iter.
  eapply Forall_impl; [eassumption|].
  intros e He. apply over_seq; [|apply over_constraint].
  apply over_iter. by eapply Forall_impl; [exact He|eauto].
Qed.
End Visits.

(** ** The interface: a visitable type and its law *)

Class VisitLaws (T : Type) `{Visit T} := {
  visits_of : T → nat → list Leaf;
  visit_with_iter {M : Type → Type} `{MRet M, MBind M} (eqM : ∀ A, relation (M A)) :
    MonadLaws eqM → ∀ (V : Visitor M), depth_free V → ∀ t d,
    eqM unit (visit_with V t d) (visit_iter (visit_leaf V) (visits_of t d))
}.
#[global] Hint Mode VisitLaws ! - : typeclass_instances.

#[global, program] Instance VisitLaws_Ty : VisitLaws Ty := {| visits_of := visits_ty |}.
Next Obligation. intros M ? ? eqM ML V HV t d. exact (proj1 (over_terms eqM ML V HV) t d). Qed.
#[global, program] Instance VisitLaws_Lifetime : VisitLaws Lifetime := {| visits_of := leaves_lifetime |}.
Next Obligation. intros M ? ? eqM ML V HV t d. exact (over_lifetime eqM ML V HV t d). Qed.
#[global, program] Instance VisitLaws_Const : VisitLaws Const := {| visits_of := visits_const |}.
Next Obligation. intros M ? ? eqM ML V HV t d. exact (over_const eqM ML V HV t d). Qed.
#[global, program] Instance VisitLaws_GenericArg : VisitLaws GenericArg := {| visits_of := visits_arg |}.
Next Obligation. intros M ? ? eqM ML V HV t d. exact (proj1 (proj2 (proj2 (over_terms eqM ML V HV))) t d). Qed.
#[global, program] Instance VisitLaws_Goal : VisitLaws Goal := {| visits_of := visits_goal |}.
Next Obligation. intros M ? ? eqM ML V HV t d. exact (proj1 (over_goals eqM ML V HV) t d). Qed.
#[global, program] Instance VisitLaws_ProgramClause : VisitLaws ProgramClause := {| visits_of := visits_clause |}.
Next Obligation. intros M ? ? eqM ML V HV t d. exact (proj2 (over_goals eqM ML V HV) t d). Qed.
#[global, program] Instance VisitLaws_list {T} `{VisitLaws T} : VisitLaws (list T) :=
  {| visits_of l d := l ≫= λ x, visits_of x d |}.
Next Obligation.
  intros T ? ? M ? ? eqM ML V HV t d.
  apply (over_iter eqM ML V (λ x, visit_with V x d) (λ x, visits_of x d)).
  apply Forall_true. intros x. by apply visit_with_iter.
Qed.
#[global, program] Instance VisitLaws_InEnvironment {T} `{VisitLaws T} : VisitLaws (InEnvironment T) :=
  {| visits_of e d := visits_of e.(environment) d ++ visits_of e.(env_goal) d |}.
Next Obligation.
  intros T ? ? M ? ? eqM ML V HV t d.
  apply (over_seq eqM ML V).
  - by apply (visit_with_iter eqM ML V HV t.(environment) d).
  - by apply visit_with_iter.
Qed.

(** ** [has_free_vars] *)

Lemma FindFreeVars_depth_free : depth_free FindFreeVarsVisitor.
Proof. by split. Qed.

Lemma find_free_leaf l :
  visit_leaf FindFreeVarsVisitor l = if is_bound_leaf l then Val tt else Exn tt.
Proof.
  destruct l; try done; simpl; unfold visit_var, bound_within, shifted_out_to, debruijn_shifted_out_to;
    by destruct (within _ _).
Qed.

Lemma find_free_leaves ls :
  visit_iter (visit_leaf FindFreeVarsVisitor) ls
  = if forallb is_bound_leaf ls then Val tt else Exn tt.
Proof.
  induction ls as [|l ls IH]; simpl; [done|].
  rewrite find_free_leaf. destruct (is_bound_leaf l); [exact IH|done].
Qed.

Lemma has_free_vars_eq {T} `{VisitLaws T} (t : T) :
  has_free_vars t = negb (forallb is_bound_leaf (visits_of t INNERMOST)).
Proof.
  unfold has_free_vars.
  rewrite (visit_with_iter _ (outcome_monad_laws _) _ FindFreeVars_depth_free).
  rewrite find_free_leaves. by destruct (forallb _ _).
Qed.

(** C25. [has_free_vars] is exact on a term whose constants have types without
    leaves: it answers [false] exactly when no variable is free, and then shifting
    (which [needs_shift] guards) would return the term itself. *)
Theorem has_free_vars_exact {T} `{VisitLaws T, FoldLaws T} (t : T) :
  visits_of t INNERMOST = leaves_of t INNERMOST →
  (has_free_vars t = false ↔ closed t INNERMOST) ∧
  (has_free_vars t = false → ∀ k, term_shifted_in_from t k = Val t).
Proof.
  intros Hv.
  assert (has_free_vars t = false ↔ closed t INNERMOST) as Heq.
  { rewrite has_free_vars_eq, Hv, negb_false_iff.
    unfold closed. rewrite Forall_forall, forallb_forall.
    split; intros HF l Hl; apply HF; by apply list_elem_of_In. }
  split; [done|]. intros Hf%Heq k.
  unfold term_shifted_in_from. by rewrite (fold_closed _ t) by auto with chalk.
Qed.

Lemma has_free_vars_exact_witness :
  (has_free_vars sample_ty = false ↔ closed sample_ty INNERMOST) ∧
  (has_free_vars sample_ty = false → ∀ k, term_shifted_in_from sample_ty k = Val sample_ty).
Proof. apply (has_free_vars_exact sample_ty). reflexivity. Defined.
