(* ===== verification/UCanonicalize.v ===== *)
(** * Universe canonicalization ([chalk-solve/src/infer/ucanonicalize.rs]) and the extension
    traits ([chalk-solve/src/ext.rs])

    A canonical value is put into the universes [0 .. n), keeping their order,
    and answers are mapped back with the [UniverseMap] that this produced. *)

From stdpp Require Import base list numbers sorting.
From S2P Require Import Prelude Ir Fold FoldLaws Shift ShiftThm Ena Infer Canonicalize Visit VisitLaws.

(** ** [UniverseMap] *)

Record UniverseMap := mkUniverseMap { umap_universes : list UniverseIndex }.

Definition universe_map_new : UniverseMap := mkUniverseMap [universe_root].
Definition num_canonical_universes (self : UniverseMap) : nat := length self.(umap_universes).

(** [slice::binary_search] of a sorted slice without duplicates: [Ok] of the
    index of the element, or [Err] of the index where it would be inserted. *)
Fixpoint binary_search (l : list UniverseIndex) (u : UniverseIndex) : nat + nat :=
  match l with
  | [] => inr 0
  | x :: l =>
      if universe_lt x u then
        match binary_search l u with inl i => inl (S i) | inr i => inr (S i) end
      else if decide (x = u) then inl 0 else inr 0
  end.

Definition universe_map_add (self : UniverseMap) (universe : UniverseIndex) : UniverseMap :=
  match binary_search self.(umap_universes) universe with
  | inr i =>
      mkUniverseMap (take i self.(umap_universes) ++ universe :: drop i self.(umap_universes))
  | inl _ => self
  end.

Definition map_universe_to_canonical (self : UniverseMap) (universe : UniverseIndex) :
    option UniverseIndex :=
  match binary_search self.(umap_universes) universe with
  | inl index => Some (mkUniverse index)
  | inr _ => None
  end.

Definition map_universe_from_canonical {E} (self : UniverseMap) (universe : UniverseIndex) :
    outcome E UniverseIndex :=
  match self.(umap_universes) !! universe.(counter) with
  | Some u => Val u
  | None =>
      let difference := universe.(counter) - length self.(umap_universes) in
      max_universe ← unwrap (last self.(umap_universes));
      let new_counter := max_universe.(counter) + difference + 1 in
      if (N.of_nat new_counter <=? usize_MAX)%N then Val (mkUniverse new_counter) else Panic POverflow
  end.

(** ** The folders and the visitor *)

Definition UCollector : Visitor (ST UniverseMap) := {|
  visit_free_var := default_visit_free_var false;
  visit_free_placeholder universe _ :=
    (λ self, Val (tt, universe_map_add self universe.(ui))) : ST UniverseMap unit;
  visit_inference_var := default_visit_inference_var true;
  override_visit_ty := default_visit_ty;
  override_visit_const := default_visit_const;
  override_visit_where := default_visit_where;
  override_visit_domain_goal := default_visit_domain_goal
|}.

(** [PlaceholderIndex { ui, idx: universe0.idx }] for a mapped universe. *)
Definition map_placeholder (f : UniverseIndex → Fallible UniverseIndex)
    (universe0 : PlaceholderIndex) : Fallible PlaceholderIndex :=
  u ← f universe0.(ui); Val (mkPlaceholder u universe0.(idx)).

(** [.expect("Expected UCollector to encounter this universe")]. *)
Definition to_canonical_or_panic (self : UniverseMap) (u : UniverseIndex) : Fallible UniverseIndex :=
  unwrap (map_universe_to_canonical self u).

Definition UMapToCanonical (universes : UniverseMap) : Folder Fallible := {|
  fold_free_var_ty := default_fold_free_var_ty false;
  fold_free_var_lifetime := default_fold_free_var_lifetime false;
  fold_free_var_const := default_fold_free_var_const false;
  fold_free_placeholder_ty universe0 _ :=
    p ← map_placeholder (to_canonical_or_panic universes) universe0; Val (TyPlaceholder p);
  fold_free_placeholder_lifetime universe0 _ :=
    p ← map_placeholder (to_canonical_or_panic universes) universe0; Val (LtPlaceholder p);
  fold_free_placeholder_const ty _ universe0 _ :=
    p ← map_placeholder (to_canonical_or_panic universes) universe0;
    Val (mkConst ty (CvPlaceholder p));
  fold_inference_ty := default_fold_inference_ty true;
  fold_inference_lifetime := default_fold_inference_lifetime true;
  fold_inference_const := default_fold_inference_const true;
  override_fold_lifetime := default_fold_lifetime
|}.

(** There is no [fold_free_placeholder_const] here. *)
Definition UMapFromCanonical (universes : UniverseMap) : Folder Fallible := {|
  fold_free_var_ty := default_fold_free_var_ty false;
  fold_free_var_lifetime := default_fold_free_var_lifetime false;
  fold_free_var_const := default_fold_free_var_const false;
  fold_free_placeholder_ty universe0 _ :=
    p ← map_placeholder (map_universe_from_canonical universes) universe0; Val (TyPlaceholder p);
  fold_free_placeholder_lifetime universe0 _ :=
    p ← map_placeholder (map_universe_from_canonical universes) universe0; Val (LtPlaceholder p);
  fold_free_placeholder_const := default_fold_free_placeholder_const false;
  fold_inference_ty := default_fold_inference_ty true;
  fold_inference_lifetime := default_fold_inference_lifetime true;
  fold_inference_const := default_fold_inference_const true;
  override_fold_lifetime := default_fold_lifetime
|}.

(** ** [u_canonicalize] and [map_from_canonical] *)

Record UCanonicalized (T : Type) := mkUCanonicalized {
  uquantified : UCanonical T;
  uuniverses : UniverseMap
}.
Arguments mkUCanonicalized {T} _ _.
Arguments uquantified {T} _.
Arguments uuniverses {T} _.

(** [pk.map_ref(|&ui| f(ui))] for every binder. *)
Definition map_binders (f : UniverseIndex → Fallible UniverseIndex)
    (bs : list CanonicalVarKind) : Fallible (list CanonicalVarKind) :=
  mapM (λ pk : CanonicalVarKind, u ← f pk.(kvalue); Val (mkWithKind pk.(kind) u)) bs.

Definition u_canonicalize {T} `{Fold T, Visit T} (value0 : Canonical T) :
    Fallible (UCanonicalized T) :=
  let universes :=
    fold_left (λ universes (universe : CanonicalVarKind), universe_map_add universes universe.(kvalue))
      value0.(cbinders) universe_map_new in
  r ← visit_with UCollector value0.(cvalue) INNERMOST universes;
  let universes := r.2 in
  value1 ← unwrap_result (fold_with (UMapToCanonical universes) value0.(cvalue) INNERMOST);
  binders ← map_binders (λ ui, unwrap (map_universe_to_canonical universes ui)) value0.(cbinders);
  Val (mkUCanonicalized
    (mkUCanonical (mkCanonical value1 binders) (num_canonical_universes universes)) universes).

Definition map_from_canonical {T} `{Fold T} (self : UniverseMap) (canonical_value : Canonical T) :
    Fallible (Canonical T) :=
  value ← unwrap_result (fold_with (UMapFromCanonical self) canonical_value.(cvalue) INNERMOST);
  binders ← map_binders (map_universe_from_canonical self) canonical_value.(cbinders);
  Val (mkCanonical value binders).

(** * Extension traits ([chalk-solve/src/ext.rs]) *)

Section Ext.
Context {E : Type} `{EnaOps E}.
Context (fuel : nat).

(** [CanonicalExt::map]: [op] sees the value with fresh variables for the binders. *)
Definition canonical_map {T U} `{Fold T, Fold U} (self : Canonical T) (op : T → U) :
    Fallible (Canonical U) :=
  '(instantiated_value, infer) ← instantiate_canonical (E := E) self table_new;
  c ← canonicalize fuel (op instantiated_value) infer;
  Val c.(quantified).

(** The loop of [into_peeled_goal], which [n] bounds. *)
Fixpoint peel (n : nat) (environment : Environment) (goal : Goal) (infer : InferenceTable E) :
    Fallible (InEnvironment Goal * InferenceTable E) :=
  match n with
  | 0 => OutOfFuel
  | S n =>
      match goal with
      | GQuantified ForAll subgoal =>
          '(subgoal, infer) ← instantiate_binders_universally subgoal infer;
          peel n environment subgoal infer
      | GQuantified Exists subgoal =>
          '(subgoal, infer) ← instantiate_binders_existentially subgoal infer;
          peel n environment subgoal infer
      | GImplies wc subgoal => peel n (environment ++ wc) subgoal infer
      | _ => Val (mkInEnvironment environment goal, infer)
      end
  end.

Definition into_peeled_goal (self : Goal) : Fallible (UCanonical (InEnvironment Goal)) :=
  '(peeled_goal, infer) ← peel fuel [] self table_new;
  canonical ← canonicalize fuel peeled_goal infer;
  u ← u_canonicalize canonical.(quantified);
  Val u.(uquantified).

Definition into_closed_goal (self : Goal) : Fallible (UCanonical (InEnvironment Goal)) :=
  canonical_goal ← canonicalize (E := E) fuel (mkInEnvironment [] self) table_new;
  u ← u_canonicalize canonical_goal.(quantified);
  Val u.(uquantified).
End Ext.
