(* ===== verification/UCanonThm.v ===== *)
(** * Universe canonicalization is an order embedding that can be undone *)

From stdpp Require Import base list numbers sorting.
From S2P Require Import Prelude Ir Fold FoldLaws Shift ShiftThm Visit VisitLaws UCanonicalize.

(** ** The universe map is a strictly increasing list that starts at the root *)

Abbreviation universe_below := (λ a b : UniverseIndex, a.(counter) < b.(counter)).
#[local] Infix "≺" := universe_below (at level 70).

Record umap_wf (self : UniverseMap) : Prop := {
  wf_sorted : StronglySorted universe_below self.(umap_universes);
  wf_root : head self.(umap_universes) = Some universe_root
}.

Lemma universe_counter_inj (a b : UniverseIndex) : a.(counter) = b.(counter) → a = b.
Proof. destruct a, b; simpl. by intros ->. Qed.

Lemma sorted_lookup_lt l i j a b :
  StronglySorted universe_below l → l !! i = Some a → l !! j = Some b → i < j → a ≺ b.
Proof.
  intros Hl. revert i j. induction Hl as [|x l Hl IH HF]; [done|].
  intros [|i] [|j]; simpl; intros Ha Hb ?; try lia.
  - simplify_eq. rewrite Forall_forall in HF. by eapply HF, list_elem_of_lookup_2.
  - apply (IH i j); [done..|lia].
Qed.

Lemma sorted_lookup_inj l i j a :
  StronglySorted universe_below l → l !! i = Some a → l !! j = Some a → i = j.
Proof.
  intros Hl Hi Hj. destruct (Nat.lt_trichotomy i j) as [H|[H|H]]; [|done|].
  - pose proof (sorted_lookup_lt l i j a a Hl Hi Hj H). simpl in *. lia.
  - pose proof (sorted_lookup_lt l j i a a Hl Hj Hi H). simpl in *. lia.
Qed.

Lemma binary_search_spec l u :
  StronglySorted universe_below l →
  match binary_search l u with
  | inl i => l !! i = Some u
  | inr i => u ∉ l ∧ Forall (λ x, x ≺ u) (take i l) ∧ Forall (λ x, u ≺ x) (drop i l)
  end.
Proof.
  induction 1 as [|x l Hl IH HF]; simpl; [split_and!; [set_solver|constructor..]|].
  unfold universe_lt. destruct (Nat.ltb_spec x.(counter) u.(counter)) as [Hx|Hx].
  - destruct (binary_search l u) as [i|i]; simpl; [done|].
    destruct IH as (? & ? & ?). split_and!; [|by constructor|done].
    rewrite not_elem_of_cons. split; [|done]. intros ->. lia.
  - case_decide as Heq; subst; simpl; [done|].
    assert (u ≺ x) as Hux.
    { destruct (Nat.eq_dec x.(counter) u.(counter)) as [He|]; [|lia].
      by apply universe_counter_inj in He. }
    assert (Forall (λ y, u ≺ y) l) as Hul.
    { eapply Forall_impl; [exact HF|]. simpl. lia. }
    split_and!; [|constructor|by constructor].
    rewrite not_elem_of_cons. split; [by intros ->|].
    intros Hin. rewrite Forall_forall in Hul. specialize (Hul _ Hin). lia.
Qed.

Lemma sorted_insert l k u :
  StronglySorted universe_below (l ++ k) →
  Forall (λ x, x ≺ u) l → Forall (λ x, u ≺ x) k → StronglySorted universe_below (l ++ u :: k).
Proof.
  induction l as [|x l IH]; simpl; intros Hs Hl Hk; [by constructor|].
  apply StronglySorted_inv in Hs as [Hs HF]. apply Forall_cons in Hl as [Hx Hl].
  constructor; [by apply IH|]. rewrite Forall_app in HF |- *. destruct HF as [? ?].
  split; [done|]. by constructor.
Qed.

Lemma universe_map_new_wf : umap_wf universe_map_new.
Proof. split; [by repeat constructor|done]. Qed.

Lemma universe_map_add_wf self u : umap_wf self → umap_wf (universe_map_add self u).
Proof.
  intros [Hs Hr]. unfold universe_map_add.
  pose proof (binary_search_spec _ u Hs) as Hb.
  destruct (binary_search _ u) as [i|i] eqn:Hi; [by split|]. destruct Hb as (Hn & Hl & Hk).
  split; simpl.
  - apply sorted_insert; [by rewrite take_drop|done|done].
  - destruct self as [[|x l]]; [done|]; simpl in *. simplify_eq.
    destruct i as [|i]; simpl in *; [|done].
    apply Forall_inv in Hk. unfold universe_root in Hk; simpl in Hk. lia.
Qed.

Lemma elem_of_universe_map_add self u v : umap_wf self →
  v ∈ (universe_map_add self u).(umap_universes) ↔ v = u ∨ v ∈ self.(umap_universes).
Proof.
  intros [Hs _]. unfold universe_map_add. pose proof (binary_search_spec _ u Hs) as Hb.
  destruct (binary_search _ u) as [i|i].
  - split; [by right|]. intros [->|]; [|done]. by eapply list_elem_of_lookup_2.
  - simpl. rewrite elem_of_app, elem_of_cons.
    rewrite <- (take_drop i self.(umap_universes)) at 3. rewrite elem_of_app. tauto.
Qed.

Lemma map_universe_to_canonical_Some self u c : umap_wf self →
  map_universe_to_canonical self u = Some c ↔ self.(umap_universes) !! c.(counter) = Some u.
Proof.
  intros [Hs _]. unfold map_universe_to_canonical. pose proof (binary_search_spec _ u Hs) as Hb.
  destruct (binary_search _ u) as [i|i].
  - split; [by intros [= <-]|]. intros Hc. f_equal. apply universe_counter_inj. simpl.
    by eapply sorted_lookup_inj.
  - split; [done|]. intros Hc%list_elem_of_lookup_2. by destruct Hb.
Qed.

Lemma map_universe_to_canonical_None self u : umap_wf self →
  map_universe_to_canonical self u = None ↔ u ∉ self.(umap_universes).
Proof.
  intros Hwf. split.
  - intros Hn [i Hi]%list_elem_of_lookup_1.
    apply (map_universe_to_canonical_Some self u (mkUniverse i) Hwf) in Hi. congruence.
  - intros Hu. destruct (map_universe_to_canonical self u) as [c|] eqn:Hc; [|done].
    apply map_universe_to_canonical_Some in Hc; [|done]. destruct Hu. by eapply list_elem_of_lookup_2.
Qed.

Lemma map_universe_to_from {E} self u c : umap_wf self →
  map_universe_to_canonical self u = Some c →
  c.(counter) < num_canonical_universes self ∧ map_universe_from_canonical (E:=E) self c = Val u.
Proof.
  intros Hwf Hc%map_universe_to_canonical_Some; [|done].
  unfold map_universe_from_canonical. rewrite Hc. split; [|done].
  unfold num_canonical_universes. by eapply lookup_lt_Some.
Qed.





(** The map that [us] are added to. *)
Abbreviation add_all us m := (fold_left universe_map_add us m).

Lemma add_all_wf us m : umap_wf m → umap_wf (add_all us m).
Proof. revert m. induction us as [|u us IH]; simpl; [done|]. intros m Hm. by apply IH, universe_map_add_wf. Qed.

Lemma elem_of_add_all us m v : umap_wf m →
  v ∈ (add_all us m).(umap_universes) ↔ v ∈ us ∨ v ∈ m.(umap_universes).
Proof.
  revert m. induction us as [|u us IH]; simpl; intros m Hm; [set_solver|].
  rewrite IH by by apply universe_map_add_wf. rewrite elem_of_universe_map_add by done. set_solver.
Qed.

(** ** The collector and the folders *)

(** The universes of the placeholders of a leaf. *)
Definition leaf_universes (l : Leaf) : list UniverseIndex :=
  match l with
  | LeafTyPlaceholder p | LeafLtPlaceholder p | LeafCtPlaceholder _ p => [p.(ui)]
  | _ => []
  end.

(** Not an inference variable; a constant of a ground type. *)
Definition leaf_rigid (l : Leaf) : Prop :=
  match l with
  | LeafTyInfer _ _ | LeafLtInfer _ | LeafCtInfer _ _ => False
  | LeafCtVar ty _ _ | LeafCtPlaceholder ty _ => const_ground ty
  | _ => True
  end.

(** Not the placeholder of a constant. *)
Definition leaf_not_const_placeholder (l : Leaf) : Prop :=
  match l with LeafCtPlaceholder _ _ => False | _ => True end.

(** All its universes are in the map. *)
Definition leaf_mapped (m : UniverseMap) (l : Leaf) : Prop :=
  Forall (λ u, u ∈ m.(umap_universes)) (leaf_universes l).

Definition leaf_below (n : nat) (l : Leaf) : Prop :=
  Forall (λ u : UniverseIndex, u.(counter) < n) (leaf_universes l).

Lemma UCollector_depth_free : depth_free UCollector.
Proof. by split. Qed.

Lemma UCollector_run ls m : Forall leaf_rigid ls →
  visit_iter (visit_leaf UCollector) ls m = Val (tt, add_all (ls ≫= leaf_universes) m).
Proof.
  intros HF. revert m. induction HF as [|l ls Hl HF IH]; intros m; [done|].
  cbn [visit_iter]. cbv [mbind ST_bind].
  assert (visit_leaf UCollector l m = Val (tt, add_all (leaf_universes l) m)) as ->.
  { destruct l; try done; simpl; unfold visit_var; by destruct (shifted_out_to _ _). }
  rewrite IH. by rewrite bind_cons, fold_left_app.
Qed.

Lemma map_placeholder_to m p : umap_wf m → p.(ui) ∈ m.(umap_universes) →
  ∃ u, map_placeholder (to_canonical_or_panic m) p = Val (mkPlaceholder u p.(idx)) ∧
    u.(counter) < num_canonical_universes m ∧
    map_placeholder (map_universe_from_canonical m) (mkPlaceholder u p.(idx)) = Val p.
Proof.
  intros Hwf Hp. unfold map_placeholder, to_canonical_or_panic.
  destruct (map_universe_to_canonical m p.(ui)) as [c|] eqn:Hc.
  - destruct (map_universe_to_from (E:=NoSolution) _ _ _ Hwf Hc) as [? Hf]. exists c. simpl.
    rewrite Hf. split_and!; [done..|]. by destruct p.
  - by apply map_universe_to_canonical_None in Hc.
Qed.

(** Folding a ground type gives it back. *)
Lemma fold_ground_ty (F : Folder Fallible) ty d :
  F.(override_fold_lifetime) = default_fold_lifetime → const_ground ty → fold_ty F ty d = Val ty.
Proof.
  intros HF Hg.
  destruct (fold_total (T := Ty) F id_family id_family_cong (λ _, False)) with (x := ty) (d := d)
    as (t' & Ht & ->%lift_id); [| | | |exact Ht].
  - intros [] d' Hv; try by apply Forall_inv in Hv.
    all: unfold fold_lifetime; rewrite HF; by eexists.
  - intros [] d' Hv ?; try done; by apply Forall_inv in Hv.
  - intros t [] d' Hv ? ?; try done; by apply Forall_inv in Hv.
  - simpl. by rewrite Hg.
Qed.

Section Fold.
Context (m : UniverseMap) (Hwf : umap_wf m).

Definition leaf_ok (l : Leaf) : Prop := leaf_rigid l ∧ leaf_mapped m l.

Lemma leaves_ground (Q : Leaf → Prop) ty v d :
  const_ground ty → Forall Q (leaves_const_value ty v d) → Forall Q (leaves_const (mkConst ty v) d).
Proof. intros Hg Hv. simpl. by rewrite Hg. Qed.

Ltac ok_leaf Hv :=
  try apply Forall_inv in Hv as [? ?]; leaf_cases; try done;
  try (by eexists; split; [done|]; repeat constructor);
  try match goal with
  | Hm : leaf_mapped _ _ |- context [map_placeholder _ ?p] =>
      apply Forall_inv in Hm; destruct (map_placeholder_to m p Hwf Hm) as (? & -> & ? & _);
      eexists; split; [done|]; by repeat constructor
  end.

Lemma UMapToCanonical_total {T} `{FoldLaws T} (t : T) d : Forall leaf_ok (leaves_of t d) →
  ∃ t', fold_with (UMapToCanonical m) t d = Val t' ∧
    Forall (leaf_below (num_canonical_universes m)) (leaves_of t' d).
Proof.
  intros Ht. set (Q := leaf_below (num_canonical_universes m)).
  edestruct (fold_total (T := T) (UMapToCanonical m) (leaf_family 0 Q) (leaf_family_cong _ _) leaf_ok)
    as (t' & ? & Hl); [..|exists t'; split; [done|exact (lift_leaves 0 Q d _ _ Hl)]].
  - intros [] d' Hv; ok_leaf Hv.
  - intros [] d' Hv ?; try done; ok_leaf Hv.
  - intros ty [] d' Hv _ ?; try done; apply Forall_inv in Hv as [? Hm]; leaf_cases; try done.
    + rewrite fold_ground_ty by done. eexists; split; [done|].
      apply leaves_ground; [done|]. by repeat constructor.
    + eexists; split; [done|]. apply leaves_ground; [done|]. by repeat constructor.
    + apply Forall_inv in Hm. destruct (map_placeholder_to m p Hwf Hm) as (u & -> & ? & _).
      eexists; split; [done|]. apply leaves_ground; [done|]. by repeat constructor.
  - exact Ht.
Qed.

Lemma UMapFromCanonical_inverse {T} `{FoldLaws T} (t t' : T) d :
  Forall (λ l, leaf_ok l ∧ leaf_not_const_placeholder l) (leaves_of t d) →
  fold_with (UMapToCanonical m) t d = Val t' → fold_with (UMapFromCanonical m) t' d = Val t.
Proof.
  intros Ht Hf. rewrite <- (shifter_0 t d). symmetry. apply (lift_eq 0). revert Hf.
  apply (fold_partial (UMapToCanonical m) _ (eq_family_cong _ _ _)
    (λ l, leaf_ok l ∧ leaf_not_const_placeholder l)); [..|exact Ht].
  - intros l d' l' Hv Hl; destruct l; try apply Forall_inv in Hv as [[? Hm] _]; leaf_eq; try same_var.
    apply Forall_inv in Hm. destruct (map_placeholder_to m p Hwf Hm) as (u & Hu & ? & Hf).
    assert (x = mkPlaceholder u p.(idx)) as -> by congruence. by rewrite Hf.
  - intros t0 d' t1 Hv Hty Hl; destruct t0; try done; apply Forall_inv in Hv as [[? Hm] _]; leaf_eq; try same_var.
    apply Forall_inv in Hm. destruct (map_placeholder_to m p Hwf Hm) as (u & Hu & ? & Hf).
    assert (x = mkPlaceholder u p.(idx)) as -> by congruence. by rewrite Hf.
  - intros t0 v d' c' Hv IH Hval Hc; destruct v; try done; apply Forall_inv in Hv as [[? Hm] ?]; leaf_eq;
      rewrite ?fold_ground_ty in * by done; leaf_eq; try same_var.
    all: rewrite ?fold_ground_ty by done; same_var.
Qed.
End Fold.

(** ** Binders *)

Lemma map_binders_to m (bs : list CanonicalVarKind) : umap_wf m →
  Forall (λ b : CanonicalVarKind, b.(kvalue) ∈ m.(umap_universes)) bs →
  ∃ bs', map_binders (λ ui, unwrap (map_universe_to_canonical m ui)) bs = Val bs' ∧
    Forall (λ b : CanonicalVarKind, b.(kvalue).(counter) < num_canonical_universes m) bs' ∧
    map_binders (map_universe_from_canonical m) bs' = Val bs.
Proof.
  intros Hwf. unfold map_binders.
  induction 1 as [|[k u] bs Hu Hbs (bs' & He & HF & Hm)]; [by exists []|].
  simpl in *. destruct (map_universe_to_canonical m u) as [c|] eqn:Hc;
    [|by apply map_universe_to_canonical_None in Hc].
  destruct (map_universe_to_from (E:=NoSolution) _ _ _ Hwf Hc) as [? Hf].
  exists (mkWithKind k c :: bs'). rewrite He. simpl. rewrite Hf. simpl. rewrite Hm.
  split_and!; [done|by constructor|done].
Qed.

Lemma fold_left_map {A B C} (f : A → B → A) (g : C → B) l a :
  fold_left (λ a c, f a (g c)) l a = fold_left f (g <$> l) a.
Proof. revert a. induction l as [|c l IH]; intros a; simpl; [done|apply IH]. Qed.

(** ** The properties *)


(** C12. [u_canonicalize] returns on a canonical value without inference
    variables whose constants have ground types, and the result is in the canonical
    universes: all the universes of its placeholders and binders are below
    [universes].  When the value has no placeholder of a constant,
    [map_from_canonical] gives the original value back. *)
Theorem u_canonicalize_correct {T} `{FoldLaws T, VisitLaws T} (c : Canonical T) :
  visits_of c.(cvalue) INNERMOST = leaves_of c.(cvalue) INNERMOST →
  Forall leaf_rigid (leaves_of c.(cvalue) INNERMOST) →
  ∃ r, u_canonicalize c = Val r ∧
    Forall (leaf_below r.(uquantified).(universes))
      (leaves_of r.(uquantified).(canonical).(cvalue) INNERMOST) ∧
    Forall (λ b : CanonicalVarKind, b.(kvalue).(counter) < r.(uquantified).(universes))
      r.(uquantified).(canonical).(cbinders) ∧
    (Forall leaf_not_const_placeholder (leaves_of c.(cvalue) INNERMOST) →
      map_from_canonical r.(uuniverses) r.(uquantified).(canonical) = Val c).
Proof.
  intros Hv Hr. unfold u_canonicalize. rewrite fold_left_map.
  rewrite (visit_with_iter _ (st_monad_laws _) _ UCollector_depth_free).
  rewrite Hv, UCollector_run by done. simpl. rewrite <- fold_left_app.
  set (us := _ ++ _). set (m := add_all us universe_map_new).
  assert (umap_wf m) as Hwf by apply add_all_wf, universe_map_new_wf.
  assert (∀ u, u ∈ us → u ∈ m.(umap_universes)) as Hus.
  { intros u Hu. unfold m. rewrite elem_of_add_all by apply universe_map_new_wf. by left. }
  assert (Forall (leaf_ok m) (leaves_of c.(cvalue) INNERMOST)) as Hok.
  { rewrite Forall_forall in Hr |- *. intros l Hl. split; [by apply Hr|].
    apply Forall_forall. intros u Hu. apply Hus. unfold us.
    rewrite elem_of_app, elem_of_list_bind || rewrite elem_of_app, list_elem_of_bind. eauto. }
  destruct (UMapToCanonical_total m Hwf c.(cvalue) INNERMOST Hok) as (v & Hfold & Hbelow).
  destruct (map_binders_to m c.(cbinders) Hwf) as (bs & Hbs & Hbelow' & Hback).
  { apply Forall_forall. intros b Hb. apply Hus. unfold us. apply elem_of_app. left.
    by apply list_elem_of_fmap_2 || by apply elem_of_list_fmap_1. }
  rewrite Hfold. simpl. rewrite Hbs. simpl. eexists. split_and!; [done..|].
  intros Hn. unfold map_from_canonical. simpl.
  rewrite (UMapFromCanonical_inverse m Hwf c.(cvalue)); [|by apply Forall_and|done].
  simpl. rewrite Hback. by destruct c.
Qed.

(** The placeholder of a constant is not mapped back: [UMapFromCanonical]
    has no [fold_free_placeholder_const], so a constant placeholder of a universe
    beyond [U1] comes back as a placeholder of [U1], another constant. *)
Theorem const_placeholder_not_mapped_back (s : Scalar) (n i : nat) :
  let constant ui := mkConst (TyScalar s) (CvPlaceholder (mkPlaceholder ui i)) in
  ∃ r, u_canonicalize (mkCanonical (constant (mkUniverse (2 + n))) []) = Val r ∧
    map_from_canonical r.(uuniverses) r.(uquantified).(canonical)
    = Val (mkCanonical (constant (mkUniverse 1)) []).
Proof.
  intros constant. set (u := mkUniverse (2 + n)). set (m := mkUniverseMap [universe_root; u]).
  assert (universe_map_add universe_map_new u = m) as Hadd by reflexivity.
  assert (map_universe_to_canonical m u = Some (mkUniverse 1)) as Hto.
  { apply map_universe_to_canonical_Some; [|done]. rewrite <- Hadd.
    apply universe_map_add_wf, universe_map_new_wf. }
  unfold u_canonicalize, visit_with, Visit_Const, visit_const. cbn -[universe_map_add].
  rewrite Hadd. unfold map_placeholder, to_canonical_or_panic. cbn. rewrite Hto.
  by eexists.
Qed.

(** ** Witness: [(!3_0, &'!7_1 ^0.0)] with [^0.0] in universe 5 *)

Definition sample_canonical : Canonical Ty := mkCanonical
  (TyTuple 2 [ArgTy (TyPlaceholder (mkPlaceholder (mkUniverse 3) 0));
    ArgTy (TyRef Not (LtPlaceholder (mkPlaceholder (mkUniverse 7) 1))
      (TyBoundVar (mkBoundVar 0 0)))])
  [mkWithKind (VkTy General) (mkUniverse 5)].

Lemma u_canonicalize_correct_witness :
  ∃ r, u_canonicalize sample_canonical = Val r ∧
    r.(uuniverses).(umap_universes) = [mkUniverse 0; mkUniverse 3; mkUniverse 5; mkUniverse 7] ∧
    map_from_canonical r.(uuniverses) r.(uquantified).(canonical) = Val sample_canonical.
Proof.
  destruct (u_canonicalize_correct sample_canonical) as (r & Hr & _ & _ & Hm).
  - reflexivity.
  - by repeat constructor.
  - exists r. split_and!; [exact Hr| |apply Hm; by repeat constructor].
    vm_compute in Hr. injection Hr as <-. reflexivity.
Defined.
