(* ===== verification/Zip.v ===== *)
(** * Zipping ([chalk-ir/src/zip.rs] and the zips that [chalk-derive] generates) and the fast
    matching check ([chalk-ir/src/could_match.rs])

    A [Zipper] is the record of the callbacks of the trait; [zip_arg],
    [zip_domain_goal] and the other functions are the implementations of [Zip].
    The callback for binders is generic in the type under the binders, which it
    receives with its fold and its zip.  A zipper keeps its state when it
    fails, so its monad returns the state in all cases. *)

From stdpp Require Import base list numbers.
From S2P Require Import Prelude Ir Fold FoldLaws Shift.

(** ** A state that survives errors *)

Definition SE (S : Type) (A : Type) : Type := S → Fallible A * S.
#[global] Instance SE_ret S : MRet (SE S) := λ A a s, (Val a, s).
#[global] Instance SE_bind S : MBind (SE S) := λ A B f m s,
  match m s with
  | (Val a, s') => f a s'
  | (Exn e, s') => (Exn e, s')
  | (Panic p, s') => (Panic p, s')
  | (OutOfFuel, s') => (OutOfFuel, s')
  end.
#[global] Instance SE_panic S : MPanic (SE S) := λ A p s, (Panic p, s).
Definition se_lift {S A} (m : Fallible A) : SE S A := λ s, (m, s).
Definition se_err {S A} : SE S A := λ s, (Exn mkNoSolution, s).
Definition se_fuel {S A} : SE S A := λ s, (OutOfFuel, s).
Definition se_get {S} : SE S S := λ s, (Val s, s).
Definition se_modify {S} (f : S → S) : SE S unit := λ s, (Val tt, f s).

Lemma SE_bind_Val {S A B} (m : SE S A) (f : A → SE S B) s b s' :
  (m ≫= f) s = (Val b, s') ↔ ∃ a s1, m s = (Val a, s1) ∧ f a s1 = (Val b, s').
Proof.
  unfold mbind, SE_bind. split.
  - destruct (m s) as [[] ?]; naive_solver.
  - intros (a & s1 & -> & ?). done.
Qed.

(** ** The trait [Zipper] *)

(** [UnificationDatabase], and [Interner::const_eq]. *)
Record UnificationDatabase := {
  fn_def_variance : FnDefId → list Variance;
  adt_variance : AdtId → list Variance;
  db_const_eq : Ty → N → N → bool
}.

Section Zipper.
Context {S : Type}.

Record Zipper := {
  zip_tys : Variance → Ty → Ty → SE S unit;
  zip_lifetimes : Variance → Lifetime → Lifetime → SE S unit;
  zip_consts : Variance → Const → Const → SE S unit;
  zip_binders : ∀ {T} `{Fold T},
    (Variance → T → T → SE S unit) → Variance → Binders T → Binders T → SE S unit
}.

Context (zipper : Zipper).

(** The zip of data that must be equal ([eq_zip!]). *)
Definition zip_eq {A} `{EqDecision A} (a b : A) : SE S unit :=
  if decide (a = b) then mret tt else se_err.

(** [a.iter().zip(b.iter())]: the iteration stops with the shorter one. *)
Definition zip_iter {A} (f : A → A → SE S unit) : list A → list A → SE S unit :=
  fix go l k :=
    match l, k with
    | x :: l, y :: k => f x y ≫= λ _, go l k
    | _, _ => mret tt
    end.

(** [Zip for [T]]. *)
Definition zip_slice {A} (f : A → A → SE S unit) (a b : list A) : SE S unit :=
  if decide (length a = length b) then zip_iter f a b else se_err.

Definition zip_arg (variance : Variance) (a b : GenericArg) : SE S unit :=
  match a, b with
  | ArgTy a, ArgTy b => zipper.(zip_tys) variance a b
  | ArgLifetime a, ArgLifetime b => zipper.(zip_lifetimes) variance a b
  | ArgConst a, ArgConst b => zipper.(zip_consts) variance a b
  | _, _ => se_err
  end.

(** [v.as_slice()[i]] of the optional variances. *)
Definition variance_at (variances : option (list Variance)) (i : nat) : SE S Variance :=
  match variances with
  | Some v => match v !! i with Some v => mret v | None => mpanic PIndex end
  | None => mret Invariant
  end.

Definition zip_substs_from (ambient : Variance) (variances : option (list Variance)) :
    nat → Substitution → Substitution → SE S unit :=
  fix go i a b :=
    match a, b with
    | x :: a, y :: b =>
        variance ← variance_at variances i;
        _ ← zip_arg (xform ambient variance) x y;
        go (1 + i) a b
    | _, _ => mret tt
    end.

Definition zip_substs (ambient : Variance) (variances : option (list Variance))
    (a b : Substitution) : SE S unit :=
  zip_substs_from ambient variances 0 a b.

Definition zip_trait_ref (variance : Variance) (a b : TraitRef) : SE S unit :=
  _ ← zip_eq a.(trait_id) b.(trait_id);
  zip_substs variance None a.(substitution) b.(substitution).

Definition zip_alias (variance : Variance) (a b : AliasTy) : SE S unit :=
  match a, b with
  | AliasProjection id_a s_a, AliasProjection id_b s_b
  | AliasOpaque id_a s_a, AliasOpaque id_b s_b =>
      _ ← zip_eq id_a id_b;
      zip_substs variance None s_a s_b
  | _, _ => se_err
  end.

Definition zip_where (variance : Variance) (a b : WhereClause) : SE S unit :=
  match a, b with
  | WcImplemented a, WcImplemented b => zip_trait_ref variance a b
  | WcAliasEq al_a ty_a, WcAliasEq al_b ty_b =>
      _ ← zip_alias variance al_a al_b; zipper.(zip_tys) variance ty_a ty_b
  | WcLifetimeOutlives a1 b1, WcLifetimeOutlives a2 b2 =>
      _ ← zipper.(zip_lifetimes) variance a1 a2; zipper.(zip_lifetimes) variance b1 b2
  | WcTypeOutlives ty_a l_a, WcTypeOutlives ty_b l_b =>
      _ ← zipper.(zip_tys) variance ty_a ty_b; zipper.(zip_lifetimes) variance l_a l_b
  | _, _ => se_err
  end.

Definition zip_qwc (variance : Variance) (a b : QuantifiedWhereClause) : SE S unit :=
  zipper.(zip_binders) zip_where variance a b.

Definition zip_dyn (variance : Variance)
    (a b : Binders (list QuantifiedWhereClause) * Lifetime) : SE S unit :=
  _ ← zipper.(zip_binders) (λ v, zip_slice (zip_qwc v)) (xform variance Invariant) a.1 b.1;
  zipper.(zip_lifetimes) (xform variance Contravariant) a.2 b.2.

(** [&slice[..slice.len() - 1]] and [iter().last().unwrap()]. *)
Definition fn_parameters (s : Substitution) : Fallible Substitution :=
  match s with [] => Panic PIndex | _ :: _ => Val (take (length s - 1) s) end.
Definition fn_return (s : Substitution) : Fallible GenericArg := unwrap (last s).

Definition zip_fn_subst (variance : Variance) (a b : Substitution) : SE S unit :=
  params_a ← se_lift (fn_parameters a);
  params_b ← se_lift (fn_parameters b);
  _ ← zip_iter (zip_arg (xform variance Contravariant)) params_a params_b;
  ret_a ← se_lift (fn_return a);
  ret_b ← se_lift (fn_return b);
  zip_arg variance ret_a ret_b.

Definition zip_domain_goal (variance : Variance) (a b : DomainGoal) : SE S unit :=
  match a, b with
  | DgHolds a, DgHolds b => zip_where variance a b
  | DgWellFormed (WfTrait a), DgWellFormed (WfTrait b)
  | DgFromEnv (FeTrait a), DgFromEnv (FeTrait b)
  | DgLocalImplAllowed a, DgLocalImplAllowed b => zip_trait_ref variance a b
  | DgWellFormed (WfTy a), DgWellFormed (WfTy b)
  | DgFromEnv (FeTy a), DgFromEnv (FeTy b)
  | DgIsLocal a, DgIsLocal b | DgIsUpstream a, DgIsUpstream b
  | DgIsFullyVisible a, DgIsFullyVisible b | DgDownstreamType a, DgDownstreamType b =>
      zipper.(zip_tys) variance a b
  | DgNormalize al_a ty_a, DgNormalize al_b ty_b =>
      _ ← zip_alias variance al_a al_b; zipper.(zip_tys) variance ty_a ty_b
  | DgCompatible, DgCompatible | DgReveal, DgReveal => mret tt
  | DgObjectSafe a, DgObjectSafe b => zip_eq a b
  | _, _ => se_err
  end.

Definition zip_constraint (variance : Variance) (a b : Constraint) : SE S unit :=
  match a, b with
  | CtLifetimeOutlives a1 b1, CtLifetimeOutlives a2 b2 =>
      _ ← zipper.(zip_lifetimes) variance a1 a2; zipper.(zip_lifetimes) variance b1 b2
  | CtTypeOutlives ty_a l_a, CtTypeOutlives ty_b l_b =>
      _ ← zipper.(zip_tys) variance ty_a ty_b; zipper.(zip_lifetimes) variance l_a l_b
  | _, _ => se_err
  end.

(** [assert_eq!] of the lengths comes before the zip of the clauses. *)
Definition zip_in_environment {T} (zip_clause : Variance → ProgramClause → ProgramClause → SE S unit)
    (zip : Variance → T → T → SE S unit) (variance : Variance) (a b : InEnvironment T) : SE S unit :=
  _ ← se_lift (assert (length a.(environment) =? length b.(environment)));
  _ ← zip_slice (zip_clause variance) a.(environment) b.(environment);
  zip variance a.(env_goal) b.(env_goal).

(** Binders call back the zip of their contents: [fuel] bounds the nesting. *)
Fixpoint zip_goal (fuel : nat) (variance : Variance) (a b : Goal) : SE S unit :=
  match fuel with
  | 0 => se_fuel
  | Datatypes.S fuel =>
      let zip_clauses := zip_slice (zip_program_clause fuel variance) in
      match a, b with
      | GQuantified k_a g_a, GQuantified k_b g_b =>
          _ ← zip_eq k_a k_b; zipper.(zip_binders) (zip_goal fuel) variance g_a g_b
      | GImplies h_a g_a, GImplies h_b g_b =>
          _ ← zip_clauses h_a h_b; zip_goal fuel variance g_a g_b
      | GAll a, GAll b => zip_slice (zip_goal fuel variance) a b
      | GNot a, GNot b => zip_goal fuel variance a b
      | GEqGoal a1 b1, GEqGoal a2 b2 => _ ← zip_arg variance a1 a2; zip_arg variance b1 b2
      | GSubtypeGoal a1 b1, GSubtypeGoal a2 b2 =>
          _ ← zipper.(zip_tys) variance a1 a2; zipper.(zip_tys) variance b1 b2
      | GDomainGoal a, GDomainGoal b => zip_domain_goal variance a b
      | GCannotProve, GCannotProve => mret tt
      | _, _ => se_err
      end
  end
with zip_program_clause (fuel : nat) (variance : Variance) (a b : ProgramClause) : SE S unit :=
  match fuel with
  | 0 => se_fuel
  | Datatypes.S fuel =>
      zipper.(zip_binders) (λ variance (a b : ProgramClauseImplication),
        _ ← zip_domain_goal variance a.(consequence) b.(consequence);
        _ ← zip_slice (zip_goal fuel variance) a.(conditions) b.(conditions);
        _ ← zip_slice (zip_in_environment (zip_program_clause fuel) zip_constraint variance)
              a.(constraints) b.(constraints);
        zip_eq a.(priority) b.(priority))
        variance (clause_data a) (clause_data b)
  end.
End Zipper.
#[global] Arguments Zipper S : clear implicits.

(** * Terms that could match ([chalk-ir/src/could_match.rs]) *)

(** [result.is_ok()]. *)
Definition is_ok {S} (m : SE S unit) : SE S bool := λ s,
  match m s with
  | (Val _, s) => (Val true, s)
  | (Exn _, s) => (Val false, s)
  | (Panic p, s) => (Panic p, s)
  | (OutOfFuel, s) => (OutOfFuel, s)
  end.

(** [a && b] with a fallible [b]. *)
Definition and_then {M : Type → Type} `{MRet M} (a : bool) (b : M bool) : M bool :=
  if a then b else mret false.

Section CouldMatch.
Context (db : UnificationDatabase).

(** [p_a.could_match(interner, self.db, p_b)] on generic arguments. *)
Definition could_match_arg (self : Zipper unit) (a b : GenericArg) : SE unit bool :=
  is_ok (zip_arg self Invariant a b).
Definition could_match_ty (self : Zipper unit) (a b : Ty) : SE unit bool :=
  is_ok (self.(zip_tys) Invariant a b).

(** [a.iter().zip(b.iter()).all(..)]. *)
Fixpoint could_match_all (self : Zipper unit) (a b : Substitution) : SE unit bool :=
  match a, b with
  | x :: a, y :: b =>
      m ← could_match_arg self x y; and_then m (could_match_all self a b)
  | _, _ => mret true
  end.

Definition match_heads (self : Zipper unit) (variance : Variance) (a b : Ty) : SE unit bool :=
  let substs_match variances s_a s_b := is_ok (zip_substs self variance variances s_a s_b) in
  match a, b with
  | TyAdt id_a s_a, TyAdt id_b s_b =>
      and_then (bool_decide (id_a = id_b)) (substs_match (Some (db.(adt_variance) id_a)) s_a s_b)
  | TyAssociatedType id_a s_a, TyAssociatedType id_b s_b
  | TyTuple id_a s_a, TyTuple id_b s_b
  | TyOpaqueType id_a s_a, TyOpaqueType id_b s_b
  | TyClosure id_a s_a, TyClosure id_b s_b =>
      and_then (bool_decide (id_a = id_b)) (could_match_all self s_a s_b)
  | TyScalar scalar_a, TyScalar scalar_b => mret (bool_decide (scalar_a = scalar_b))
  | TyStr, TyStr | TyNever, TyNever | TyError, TyError => mret true
  | TySlice ty_a, TySlice ty_b => could_match_ty self ty_a ty_b
  | TyFnDef id_a s_a, TyFnDef id_b s_b =>
      and_then (bool_decide (id_a = id_b)) (substs_match (Some (db.(fn_def_variance) id_a)) s_a s_b)
  | TyRef mutability_a l_a ty_a, TyRef mutability_b l_b ty_b =>
      and_then (bool_decide (mutability_a = mutability_b))
        (m ← is_ok (self.(zip_lifetimes) Invariant l_a l_b);
         and_then m (could_match_ty self ty_a ty_b))
  | TyRaw mutability_a ty_a, TyRaw mutability_b ty_b =>
      and_then (bool_decide (mutability_a = mutability_b)) (could_match_ty self ty_a ty_b)
  | TyArray ty_a const_a, TyArray ty_b const_b =>
      m ← could_match_ty self ty_a ty_b;
      and_then m (is_ok (self.(zip_consts) Invariant const_a const_b))
  | TyGenerator id_a s_a, TyGenerator id_b s_b
  | TyGeneratorWitness id_a s_a, TyGeneratorWitness id_b s_b =>
      and_then (bool_decide (id_a = id_b)) (substs_match None s_a s_b)
  | TyForeign id_a, TyForeign id_b => mret (bool_decide (id_a = id_b))
  | _, _ => mret true
  end.

Fixpoint match_zipper (fuel : nat) : Zipper unit := {|
  zip_tys variance a b :=
    match fuel with
    | 0 => se_fuel
    | Datatypes.S fuel =>
        could_match ← match_heads (match_zipper fuel) variance a b;
        if could_match : bool then mret tt else se_err
    end;
  zip_lifetimes _ _ _ := mret tt;
  zip_consts _ _ _ := mret tt;
  zip_binders _ _ zip variance a b := zip variance a.(value) b.(value)
|}.

(** [could_match] of domain goals. *)
Definition could_match (fuel : nat) (a b : DomainGoal) : Fallible bool :=
  (is_ok (zip_domain_goal (match_zipper fuel) Invariant a b) tt).1.

(** [CouldMatch<DomainGoal> for ProgramClause]. *)
Definition clause_could_match (fuel : nat) (clause : ProgramClause) (other : DomainGoal) :
    Fallible bool :=
  could_match fuel (clause_data clause).(value).(consequence) other.
End CouldMatch.
