(* ===== verification/Unify.v ===== *)
(** * Unification ([chalk-solve/src/infer/unify.rs])

    [relate] makes two terms equal, or one a subtype of the other, by binding
    inference variables and by leaving goals to prove.  The methods of
    [Unifier] take the zipper that answers their recursive calls; [unifier] ties
    the knot with fuel. *)

From stdpp Require Import base list numbers.
From S2P Require Import Prelude Ir Fold FoldLaws Shift Ena Infer Visit Zip.

(** [a.is_integer()], [a.is_float()]. *)
Definition is_integer (t : Ty) : bool :=
  match t with TyScalar (ScInt _) | TyScalar (ScUint _) => true | _ => false end.
Definition is_float (t : Ty) : bool :=
  match t with TyScalar (ScFloat _) => true | _ => false end.

Section Unify.
Context {E : Type} `{EnaOps E}.
Context (db : UnificationDatabase) (env : Environment).

Record Unifier := mkUnifier {
  utable : InferenceTable E;
  ugoals : list (InEnvironment Goal)
}.

(** ** Access to the state *)

Definition with_table {A} (f : InferenceTable E → A * InferenceTable E) : SE Unifier A := λ u,
  let '(a, t) := f u.(utable) in (Val a, mkUnifier t u.(ugoals)).
Definition read_table {A} (f : InferenceTable E → Fallible A) : SE Unifier A := λ u,
  (f u.(utable), u).
(** A fallible operation of the [ena] table, with [unwrap] or [expect]. *)
Definition ena_update (f : E → outcome (InferenceValue * InferenceValue) E) : SE Unifier unit := λ u,
  match unwrap_result (f u.(utable).(unify)) with
  | Val e => (Val tt, mkUnifier (mkTable e u.(utable).(vars) u.(utable).(max_universe)) u.(ugoals))
  | Exn e => (Exn e, u)
  | Panic p => (Panic p, u)
  | OutOfFuel => (OutOfFuel, u)
  end.
Definition push_goal (g : Goal) : SE Unifier unit :=
  se_modify (λ u, mkUnifier u.(utable) (u.(ugoals) ++ [mkInEnvironment env g])).
Definition fresh_var (ui : UniverseIndex) : SE Unifier InferenceVar :=
  with_table (new_variable ui).

Definition unify_var_var (a b : InferenceVar) : SE Unifier unit :=
  ena_update (λ e, ena_unify_var_var e a b).
Definition unify_var_value (var : InferenceVar) (v : InferenceValue) : SE Unifier unit :=
  ena_update (λ e, ena_unify_var_value e var v).
Definition unify_general_var_specific_ty (general_var : InferenceVar) (specific_ty : Ty) :
    SE Unifier unit :=
  unify_var_value general_var (InferenceValue_from_ty specific_ty).

(** ** Goals *)

Definition outlives_goal (a b : Lifetime) : Goal := GDomainGoal (DgHolds (WcLifetimeOutlives a b)).
Definition alias_eq_goal (alias : AliasTy) (ty : Ty) : Goal :=
  GDomainGoal (DgHolds (WcAliasEq alias ty)).

Definition push_lifetime_outlives_goals (variance : Variance) (a b : Lifetime) : SE Unifier unit :=
  _ ← (if bool_decide (variance = Invariant ∨ variance = Contravariant)
       then push_goal (outlives_goal a b) else mret tt);
  if bool_decide (variance = Invariant ∨ variance = Covariant)
  then push_goal (outlives_goal b a) else mret tt.

Definition push_subtype_goal (a b : Ty) : SE Unifier unit := push_goal (GSubtypeGoal a b).

(** ** Generalization *)

Definition mapi_from {A B} (f : nat → A → SE Unifier B) : nat → list A → SE Unifier (list B) :=
  fix go i l :=
    match l with
    | [] => mret []
    | x :: l => y ← f i x; l ← go (1 + i) l; mret (y :: l)
    end.

Definition generalize_lifetime (lifetime : Lifetime) (universe_index : UniverseIndex)
    (variance : Variance) : SE Unifier Lifetime :=
  match lifetime with
  | LtBoundVar _ => mret lifetime
  | _ =>
      if decide (variance = Invariant) then mret lifetime
      else ena_var ← fresh_var universe_index; mret (var_to_lifetime ena_var)
  end.

Definition generalize_const (const_ : Const) (universe_index : UniverseIndex) : SE Unifier Const :=
  match const_value const_ with
  | CvBoundVar _ => mret const_
  | _ => ena_var ← fresh_var universe_index; mret (var_to_const ena_var (const_ty const_))
  end.

(** [variances.map(|v| v.as_slice()[i]).unwrap_or(Invariant)]. *)
Definition get_variance (variance : Variance) (variances : list Variance) (i : nat) :
    SE Unifier Variance :=
  variance_at (if decide (variance = Invariant) then None else Some variances) i.

Definition reference_variance (mutability : Mutability) : Variance :=
  match mutability with Not => Covariant | Mut => Invariant end.

Section Generalize.
(** The call on a type that is not a subterm: the value of a variable. *)
Context (again : Ty → UniverseIndex → Variance → SE Unifier Ty).
Context (universe_index : UniverseIndex).

Fixpoint generalize_ty_with (variance : Variance) (ty : Ty) : SE Unifier Ty :=
  let generalize_substitution get_variance s :=
    mapi_from (λ i sub_var, variance ← get_variance i; generalize_arg_with variance sub_var) 0 s in
  let same := λ _ : nat, (mret variance : SE Unifier Variance) in
  match ty with
  | TyAdt id s =>
      s ← generalize_substitution (get_variance variance (db.(adt_variance) id)) s;
      mret (TyAdt id s)
  | TyAssociatedType id s => s ← generalize_substitution same s; mret (TyAssociatedType id s)
  | TyScalar _ | TyStr | TyNever | TyForeign _ | TyError => mret ty
  | TyTuple arity s => s ← generalize_substitution same s; mret (TyTuple arity s)
  | TyOpaqueType id s => s ← generalize_substitution same s; mret (TyOpaqueType id s)
  | TySlice ty => ty ← generalize_ty_with variance ty; mret (TySlice ty)
  | TyFnDef id s =>
      s ← generalize_substitution (get_variance variance (db.(fn_def_variance) id)) s;
      mret (TyFnDef id s)
  | TyRef mutability lifetime ty =>
      lifetime ← generalize_lifetime lifetime universe_index (xform variance Contravariant);
      ty ← generalize_ty_with (reference_variance mutability) ty;
      mret (TyRef mutability lifetime ty)
  | TyRaw mutability ty =>
      ty ← generalize_ty_with (reference_variance mutability) ty; mret (TyRaw mutability ty)
  | TyArray ty const_ =>
      ty ← generalize_ty_with variance ty;
      const_ ← generalize_const const_ universe_index;
      mret (TyArray ty const_)
  | TyClosure id s => s ← generalize_substitution same s; mret (TyClosure id s)
  | TyGenerator id s => s ← generalize_substitution same s; mret (TyGenerator id s)
  | TyGeneratorWitness id s => s ← generalize_substitution same s; mret (TyGeneratorWitness id s)
  | TyDyn bounds lifetime =>
      lifetime ← generalize_lifetime lifetime universe_index (xform variance Contravariant);
      bounds' ← mapi_from (λ _ (sub_var : QuantifiedWhereClause),
          clause ←
            match sub_var.(value) with
            | WcImplemented tr =>
                s ← mapi_from (λ i sub_var,
                      if decide (i = 0) then mret sub_var
                      else generalize_arg_with variance sub_var) 0 tr.(substitution);
                mret (WcImplemented (mkTraitRef tr.(trait_id) s))
            | WcAliasEq alias _ =>
                alias ←
                  match alias with
                  | AliasOpaque id s => s ← generalize_substitution same s; mret (AliasOpaque id s)
                  | AliasProjection id s =>
                      s ← generalize_substitution same s; mret (AliasProjection id s)
                  end;
                v ← fresh_var universe_index;
                mret (WcAliasEq alias (var_to_ty v))
            | WcTypeOutlives _ _ =>
                lifetime_var ← fresh_var universe_index;
                ty_var ← fresh_var universe_index;
                mret (WcTypeOutlives (var_to_ty ty_var) (var_to_lifetime lifetime_var))
            | WcLifetimeOutlives _ _ => mpanic PUnreachable
            end;
          mret (mkBinders sub_var.(binders) clause)) 0 bounds.(value);
      mret (TyDyn (mkBinders bounds.(binders) bounds') lifetime)
  | TyFunction num_binders sig s =>
      let len := length s in
      s ← mapi_from (λ i var,
            generalize_arg_with
              (if decide (i < len - 1) then xform variance Contravariant else variance) var) 0 s;
      mret (TyFunction num_binders sig s)
  | TyPlaceholder _ | TyBoundVar _ => mret ty
  | TyAlias _ => ena_var ← fresh_var universe_index; mret (var_to_ty ena_var)
  | TyInferenceVar _ kind =>
      if decide (kind = Integer ∨ kind = Float) then mret ty
      else
        n ← read_table (λ t, normalize_ty_shallow t ty);
        match n with
        | Some ty => again ty universe_index variance
        | None =>
            if decide (variance = Invariant) then mret ty
            else ena_var ← fresh_var universe_index; mret (var_to_ty ena_var)
        end
  end
with generalize_arg_with (variance : Variance) (sub_var : GenericArg) : SE Unifier GenericArg :=
  match sub_var with
  | ArgTy ty => ty ← generalize_ty_with variance ty; mret (ArgTy ty)
  | ArgLifetime lifetime =>
      lifetime ← generalize_lifetime lifetime universe_index variance; mret (ArgLifetime lifetime)
  | ArgConst const_value =>
      const_value ← generalize_const const_value universe_index; mret (ArgConst const_value)
  end.
End Generalize.

Fixpoint generalize_ty (fuel : nat) (ty : Ty) (universe_index : UniverseIndex)
    (variance : Variance) : SE Unifier Ty :=
  generalize_ty_with
    (match fuel with 0 => λ _ _ _, se_fuel | Datatypes.S fuel => generalize_ty fuel end)
    universe_index variance ty.

(** ** The occurs check *)

Definition universe_of_unbound (v : InferenceVar) : SE Unifier UniverseIndex :=
  read_table (λ t, universe_of_unbound_var t v).

(** Promotion of an unbound variable to [self.universe_index]. *)
Definition promote (universe_index ui : UniverseIndex) (var : InferenceVar) : SE Unifier unit :=
  if universe_lt universe_index ui then unify_var_value var (Unbound universe_index) else mret tt.

Fixpoint OccursCheck (fuel : nat) (self_var : InferenceVar) (universe_index : UniverseIndex) :
    Folder (SE Unifier) := {|
  fold_free_var_ty := default_fold_free_var_ty true;
  fold_free_var_lifetime := default_fold_free_var_lifetime true;
  fold_free_var_const := default_fold_free_var_const true;
  fold_free_placeholder_ty universe _ :=
    if universe_lt universe_index universe.(ui) then se_err else mret (TyPlaceholder universe);
  fold_free_placeholder_const ty _ universe _ :=
    if universe_lt universe_index universe.(ui) then se_err
    else mret (mkConst ty (CvPlaceholder universe));
  fold_free_placeholder_lifetime universe _ :=
    if universe_lt universe_index universe.(ui) then
      tick_x ← fresh_var universe_index;
      _ ← push_lifetime_outlives_goals Invariant (var_to_lifetime tick_x) (LtPlaceholder universe);
      mret (var_to_lifetime tick_x)
    else mret (LtPlaceholder universe);
  fold_inference_ty var kind _ := λ u,
    match ena_probe_value u.(utable).(unify) var with
    | Bound normalized =>
        (normalized_ty ← se_lift (assert_ty_ref normalized);
         normalized_ty ←
           match fuel with
           | 0 => se_fuel
           | Datatypes.S fuel =>
               fold_ty (OccursCheck fuel self_var universe_index) normalized_ty INNERMOST
           end;
         _ ← se_lift (assert (negb (ty_needs_shift normalized_ty)));
         mret normalized_ty) u
    | Unbound ui =>
        if ena_unioned u.(utable).(unify) var self_var then se_err u
        else (_ ← promote universe_index ui var; mret (var_to_ty_with_kind var kind)) u
    end;
  fold_inference_const ty _ var _ := λ u,
    match ena_probe_value u.(utable).(unify) var with
    | Bound normalized =>
        (normalized_const ← se_lift (assert_const_ref normalized);
         normalized_const ←
           match fuel with
           | 0 => se_fuel
           | Datatypes.S fuel =>
               fold_const (OccursCheck fuel self_var universe_index) normalized_const INNERMOST
           end;
         _ ← se_lift (assert (negb (const_needs_shift normalized_const)));
         mret normalized_const) u
    | Unbound ui =>
        if ena_unioned u.(utable).(unify) var self_var then se_err u
        else (_ ← promote universe_index ui var; mret (var_to_const var ty)) u
    end;
  fold_inference_lifetime var outer_binder := λ u,
    match ena_probe_value u.(utable).(unify) var with
    | Unbound ui => (_ ← promote universe_index ui var; mret (var_to_lifetime var)) u
    | Bound l =>
        (l ← se_lift (assert_lifetime_ref l);
         l ←
           match fuel with
           | 0 => se_fuel
           | Datatypes.S fuel =>
               fold_lifetime (OccursCheck fuel self_var universe_index) l outer_binder
           end;
         _ ← se_lift (assert (negb (lifetime_needs_shift l)));
         mret l) u
    end;
  override_fold_lifetime := default_fold_lifetime
|}.

(** ** Relating *)

Definition normalize_or (normalize : InferenceTable E → Ty → Fallible (option Ty)) (t : Ty) :
    SE Unifier Ty :=
  n ← read_table (λ table, normalize table t); mret (default t n).

(** [fuel] is the fuel of the occurs check and of generalization. *)
Definition relate_var_ty (fuel : nat) (self : Zipper Unifier) (variance : Variance)
    (var : InferenceVar) (var_kind : TyVariableKind) (ty : Ty) : SE Unifier unit :=
  if match var_kind with General => true | Integer => is_integer ty | Float => is_float ty end
  then
    universe_index ← universe_of_unbound var;
    ty1 ← fold_ty (OccursCheck fuel var universe_index) ty INNERMOST;
    generalized_val ← generalize_ty fuel ty1 universe_index variance;
    _ ← unify_var_value var (InferenceValue_from_ty generalized_val);
    self.(zip_tys) variance generalized_val ty1
  else se_err.

Definition relate_alias_ty (self : Zipper Unifier) (variance : Variance) (alias : AliasTy) (ty : Ty) :
    SE Unifier unit :=
  match variance with
  | Invariant => push_goal (alias_eq_goal alias ty)
  | Covariant | Contravariant =>
      v ← fresh_var universe_root;
      let var := var_to_ty v in
      _ ← push_goal (alias_eq_goal alias var);
      self.(zip_tys) variance var ty
  end.

Definition relate_vars (self : Zipper Unifier) (variance : Variance) (a b : Ty)
    (var1 : InferenceVar) (kind1 : TyVariableKind) (var2 : InferenceVar) (kind2 : TyVariableKind) :
    SE Unifier unit :=
  if decide (kind1 = General ∧ kind2 = General) then
    match variance with
    | Invariant => unify_var_var var1 var2
    | Covariant => push_subtype_goal a b
    | Contravariant => push_subtype_goal b a
    end
  else if decide (kind1 = kind2) then unify_var_var var1 var2
  else if decide (kind1 = General) then unify_general_var_specific_ty var1 b
  else if decide (kind2 = General) then unify_general_var_specific_ty var2 a
  else se_err.

(** The types with the same head: one arm of the match per constructor. *)
Definition relate_heads (self : Zipper Unifier) (variance : Variance) (a b : Ty) : SE Unifier unit :=
  let same_id {A} `{EqDecision A} (x y : A) (m : SE Unifier unit) : SE Unifier unit :=
    if decide (x = y) then m else se_err in
  match a, b with
  | TyAdt id_a s_a, TyAdt id_b s_b =>
      same_id id_a id_b (zip_substs self variance (Some (db.(adt_variance) id_a)) s_a s_b)
  | TyAssociatedType id_a s_a, TyAssociatedType id_b s_b
  | TyOpaqueType id_a s_a, TyOpaqueType id_b s_b
  | TyClosure id_a s_a, TyClosure id_b s_b
  | TyGenerator id_a s_a, TyGenerator id_b s_b
  | TyGeneratorWitness id_a s_a, TyGeneratorWitness id_b s_b =>
      same_id id_a id_b (zip_substs self variance None s_a s_b)
  | TyScalar scalar_a, TyScalar scalar_b => zip_eq scalar_a scalar_b
  | TyStr, TyStr | TyNever, TyNever | TyError, TyError => mret tt
  | TyTuple arity_a s_a, TyTuple arity_b s_b =>
      same_id arity_a arity_b
        (zip_substs self variance (Some (repeat Covariant arity_a)) s_a s_b)
  | TySlice ty_a, TySlice ty_b => self.(zip_tys) variance ty_a ty_b
  | TyFnDef id_a s_a, TyFnDef id_b s_b =>
      same_id id_a id_b (zip_substs self variance (Some (db.(fn_def_variance) id_a)) s_a s_b)
  | TyRef mutability_a l_a ty_a, TyRef mutability_b l_b ty_b =>
      same_id mutability_a mutability_b
        (_ ← self.(zip_lifetimes) (xform variance Contravariant) l_a l_b;
         self.(zip_tys) (xform variance (reference_variance mutability_a)) ty_a ty_b)
  | TyRaw mutability_a ty_a, TyRaw mutability_b ty_b =>
      same_id mutability_a mutability_b
        (self.(zip_tys) (xform variance (reference_variance mutability_a)) ty_a ty_b)
  | TyArray ty_a const_a, TyArray ty_b const_b =>
      _ ← self.(zip_tys) variance ty_a ty_b;
      self.(zip_consts) variance const_a const_b
  | TyForeign id_a, TyForeign id_b => zip_eq id_a id_b
  | _, _ => se_err
  end.

(** The match of [relate_ty_ty] on normalized, different types. *)
Definition relate_kinds (fuel : nat) (self : Zipper Unifier) (variance : Variance) (a b : Ty) :
    SE Unifier unit :=
  match a, b with
  | TyInferenceVar var1 kind1, TyInferenceVar var2 kind2 =>
      relate_vars self variance a b var1 kind1 var2 kind2
  | TyFunction num1 sig1 s1, TyFunction num2 sig2 s2 =>
      if decide (sig1 = sig2) then
        self.(zip_binders) (zip_fn_subst self) variance
          (fn_into_binders num1 s1) (fn_into_binders num2 s2)
      else se_err
  | TyPlaceholder p1, TyPlaceholder p2 => zip_eq p1 p2
  | TyDyn bounds1 l1, TyDyn bounds2 l2 => zip_dyn self variance (bounds1, l1) (bounds2, l2)
  | TyBoundVar _, _ | _, TyBoundVar _ => mpanic PExplicit
  | _, TyAlias alias => relate_alias_ty self (invert_variance variance) alias a
  | TyAlias alias, _ => relate_alias_ty self variance alias b
  | TyInferenceVar var kind, _ => relate_var_ty fuel self variance var kind b
  | _, TyInferenceVar var kind => relate_var_ty fuel self (invert_variance variance) var kind a
  | TyFunction _ _ _, _ | _, TyFunction _ _ _ => se_err
  | _, TyPlaceholder _ | TyPlaceholder _, _ => se_err
  | _, TyDyn _ _ | TyDyn _ _, _ => se_err
  | _, _ => relate_heads self variance a b
  end.

Definition relate_ty_ty (fuel : nat) (self : Zipper Unifier) (variance : Variance) (a b : Ty) :
    SE Unifier unit :=
  a ← normalize_or normalize_ty_shallow a;
  b ← normalize_or normalize_ty_shallow b;
  if decide (a = b) then mret tt else relate_kinds fuel self variance a b.

(** *** Binders *)

Definition instantiate {T} (f : ST (InferenceTable E) T) : SE Unifier T := λ u,
  match f u.(utable) with
  | Val (a, t) => (Val a, mkUnifier t u.(ugoals))
  | Exn e => (Exn e, u)
  | Panic p => (Panic p, u)
  | OutOfFuel => (OutOfFuel, u)
  end.

Definition relate_binders {T} `{Fold T} (zip : Variance → T → T → SE Unifier unit)
    (variance : Variance) (a b : Binders T) : SE Unifier unit :=
  _ ← (if bool_decide (variance = Invariant ∨ variance = Contravariant) then
         a_universal ← instantiate (instantiate_binders_universally a);
         b_existential ← instantiate (instantiate_binders_existentially b);
         zip Contravariant a_universal b_existential
       else mret tt);
  if bool_decide (variance = Invariant ∨ variance = Covariant) then
    b_universal ← instantiate (instantiate_binders_universally b);
    a_existential ← instantiate (instantiate_binders_existentially a);
    zip Covariant a_existential b_universal
  else mret tt.

(** *** Lifetimes *)

Definition unify_lifetime_var (variance : Variance) (var : InferenceVar) (value : Lifetime)
    (value_ui : UniverseIndex) : SE Unifier unit :=
  var_ui ← universe_of_unbound var;
  if can_see var_ui value_ui && bool_decide (variance = Invariant)
  then unify_var_value var (InferenceValue_from_lifetime value)
  else push_lifetime_outlives_goals variance (var_to_lifetime var) value.

Definition relate_lifetime_kinds (variance : Variance) (a b : Lifetime) : SE Unifier unit :=
  match a, b with
  | LtInferenceVar var_a, LtInferenceVar var_b => unify_var_var var_a var_b
  | LtInferenceVar a_var, LtPlaceholder (mkPlaceholder ui _) | LtInferenceVar a_var, LtEmpty ui =>
      unify_lifetime_var variance a_var b ui
  | LtPlaceholder (mkPlaceholder ui _), LtInferenceVar b_var | LtEmpty ui, LtInferenceVar b_var =>
      unify_lifetime_var (invert_variance variance) b_var a ui
  | LtInferenceVar a_var, LtErased | LtInferenceVar a_var, LtStatic =>
      unify_lifetime_var variance a_var b universe_root
  | LtErased, LtInferenceVar b_var | LtStatic, LtInferenceVar b_var =>
      unify_lifetime_var (invert_variance variance) b_var a universe_root
  | LtStatic, LtStatic | LtErased, LtErased => mret tt
  | LtBoundVar _, _ | _, LtBoundVar _ => mpanic PExplicit
  | _, _ =>
      if decide (a = b) then mret tt else push_lifetime_outlives_goals variance a b
  end.

Definition relate_lifetime_lifetime (variance : Variance) (a b : Lifetime) : SE Unifier unit :=
  n_a ← read_table (λ t, normalize_lifetime_shallow t a);
  n_b ← read_table (λ t, normalize_lifetime_shallow t b);
  relate_lifetime_kinds variance (default a n_a) (default b n_b).

(** *** Constants *)

Definition unify_var_const (fuel : nat) (var : InferenceVar) (c : Const) : SE Unifier unit :=
  universe_index ← universe_of_unbound var;
  c1 ← fold_const (OccursCheck fuel var universe_index) c INNERMOST;
  unify_var_value var (InferenceValue_from_const c1).

Definition relate_const_values (fuel : nat) (a b : Const) : SE Unifier unit :=
  match const_value a, const_value b with
  | CvInferenceVar var1, CvInferenceVar var2 => unify_var_var var1 var2
  | CvInferenceVar var, CvConcrete _ | CvInferenceVar var, CvPlaceholder _ => unify_var_const fuel var b
  | CvConcrete _, CvInferenceVar var | CvPlaceholder _, CvInferenceVar var => unify_var_const fuel var a
  | CvPlaceholder p1, CvPlaceholder p2 => zip_eq p1 p2
  | CvConcrete ev1, CvConcrete ev2 =>
      if db.(db_const_eq) (const_ty a) ev1 ev2 then mret tt else se_err
  | CvConcrete _, CvPlaceholder _ | CvPlaceholder _, CvConcrete _ => se_err
  | CvBoundVar _, _ | _, CvBoundVar _ => mpanic PExplicit
  end.

Definition relate_const_const (fuel : nat) (self : Zipper Unifier) (variance : Variance) (a b : Const) :
    SE Unifier unit :=
  n_a ← read_table (λ t, normalize_const_shallow t a);
  n_b ← read_table (λ t, normalize_const_shallow t b);
  let a := default a n_a in
  let b := default b n_b in
  _ ← self.(zip_tys) variance (const_ty a) (const_ty b);
  relate_const_values fuel a b.

(** ** The unifier *)

Fixpoint unifier (fuel : nat) : Zipper Unifier :=
  match fuel with
  | 0 => {|
      zip_tys _ _ _ := se_fuel;
      zip_lifetimes _ _ _ := se_fuel;
      zip_consts _ _ _ := se_fuel;
      zip_binders _ _ _ _ _ _ := se_fuel
    |}
  | Datatypes.S fuel =>
      let self := unifier fuel in
      {| zip_tys := relate_ty_ty fuel self;
         zip_lifetimes := relate_lifetime_lifetime;
         zip_consts := relate_const_const fuel self;
         zip_binders _ _ zip := relate_binders zip |}
  end.

(** The subtype goals that are not trivial ([goals.retain(..)]). *)
Definition retain_goal (table : InferenceTable E) (g : InEnvironment Goal) : bool :=
  match g.(env_goal) with
  | GSubtypeGoal a b =>
      bool_decide (default a (ty_root table a) ≠ default b (ty_root table b))
  | _ => true
  end.
End Unify.
#[global] Arguments Unifier E : clear implicits.

(** [InferenceTable::relate], for the [Zip] of a type [T] of terms. *)
Definition relate {E} `{EnaOps E} {T} (fuel : nat) (db : UnificationDatabase) (env : Environment)
    (zip : Zipper (Unifier E) → Variance → T → T → SE (Unifier E) unit)
    (variance : Variance) (a b : T) : SE (InferenceTable E) (list (InEnvironment Goal)) := λ table,
  let snap := snapshot table in
  match zip (unifier db env fuel) variance a b (mkUnifier table []) with
  | (Val _, u) =>
      (Val (filter (λ g, retain_goal u.(utable) g) u.(ugoals)), commit snap u.(utable))
  | (Exn e, u) => (Exn e, rollback_to snap u.(utable))
  | (Panic p, u) => (Panic p, u.(utable))
  | (OutOfFuel, u) => (OutOfFuel, u.(utable))
  end.
