(* ===== verification/Valuation.v ===== *)
(** * Valuations and the meaning of unification

    A valuation gives a type, a lifetime and a constant to every inference
    variable.  [Rel σ v a b] says that the values of [a] and [b] in the valuation
    [σ] are related with variance [v], up to the meaning of alias equality and of
    lifetime bounds, which are parameters.  Under the binders of [dyn] and [fn]
    types it compares instances: placeholders of a universe above [low] on one side,
    any arguments on the other. *)

From stdpp Require Import base list numbers.
From S2P Require Import Prelude Ir Fold FoldLaws Shift ShiftThm Ena Infer Zip Unify.

(** ** Applying a valuation *)

(** The identity monad. *)
Definition Id (A : Type) : Type := A.
#[global] Instance Id_ret : MRet Id := λ A a, a.
#[global] Instance Id_bind : MBind Id := λ A B f m, f m.

Record Valuation := mkValuation {
  val_ty : InferenceVar → Ty;
  val_lt : InferenceVar → Lifetime;
  val_ct : InferenceVar → Const
}.

Definition valuation (σ : Valuation) : Folder Id := {|
  fold_free_var_ty bv d := TyBoundVar (shifted_in_from bv d);
  fold_free_var_lifetime bv d := LtBoundVar (shifted_in_from bv d);
  fold_free_var_const ty _ bv d := mkConst ty (CvBoundVar (shifted_in_from bv d));
  fold_free_placeholder_ty p _ := TyPlaceholder p;
  fold_free_placeholder_lifetime p _ := LtPlaceholder p;
  fold_free_placeholder_const ty _ p _ := mkConst ty (CvPlaceholder p);
  fold_inference_ty v _ _ := σ.(val_ty) v;
  fold_inference_lifetime v _ := σ.(val_lt) v;
  fold_inference_const _ _ v _ := σ.(val_ct) v;
  override_fold_lifetime := default_fold_lifetime
|}.

Section Apply.
Context (σ : Valuation).
Definition apply_ty (t : Ty) : Ty := fold_ty (M:=Id) (valuation σ) t INNERMOST.
Definition apply_lt (l : Lifetime) : Lifetime := fold_lifetime (M:=Id) (valuation σ) l INNERMOST.
Definition apply_ct (c : Const) : Const := fold_const (M:=Id) (valuation σ) c INNERMOST.
Definition apply_arg (a : GenericArg) : GenericArg := fold_arg (M:=Id) (valuation σ) a INNERMOST.
Definition apply_alias (a : AliasTy) : AliasTy := fold_alias (M:=Id) (valuation σ) a INNERMOST.

(** A valuation does not depend on the depth. *)
Lemma valuation_depth {T} `{FoldLaws T} (t : T) k d :
  fold_with (M:=Id) (valuation σ) t d = fold_with (M:=Id) (valuation σ) t (k + d).
Proof.
  apply (lift_eq k (valuation σ) (valuation σ) d t t).
  pose proof (shifter_0 t d) as Ht. revert Ht.
  apply (fold_partial (Shifter 0) _ (eq_family_cong _ _ _) (λ _, True)).
  - intros [] d' l' _ Hl; leaf_eq; cbv [mret Id_ret]; f_equal; same_var.
  - intros [] d' t0 _ Hv Ht0; try done; leaf_eq; cbv [mret Id_ret]; f_equal; same_var.
  - intros t0 [] d' c' _ IH Hv Hc; try done; leaf_eq; cbv [mret Id_ret mbind Id_bind];
      rewrite ?shifter_0_ty in *; simplify_eq; try done; do 2 f_equal; same_var.
  - apply Forall_leaves_true.
Qed.
End Apply.

Lemma apply_ty_depth σ t d : fold_ty (M:=Id) (valuation σ) t d = apply_ty σ t.
Proof.
  unfold apply_ty. rewrite <- (Nat.add_0_r d). symmetry.
  exact (valuation_depth σ t d INNERMOST).
Qed.
Lemma apply_lt_depth σ l d : fold_lifetime (M:=Id) (valuation σ) l d = apply_lt σ l.
Proof.
  unfold apply_lt. rewrite <- (Nat.add_0_r d). symmetry.
  exact (valuation_depth σ l d INNERMOST).
Qed.
Lemma apply_ct_depth σ c d : fold_const (M:=Id) (valuation σ) c d = apply_ct σ c.
Proof.
  unfold apply_ct. rewrite <- (Nat.add_0_r d). symmetry.
  exact (valuation_depth σ c d INNERMOST).
Qed.

(** ** Related terms *)

(** What goals mean: bounds between lifetimes and equality of an alias and a
    type, on terms without inference variables. *)
Record Meaning := mkMeaning {
  outlives : Lifetime → Lifetime → Prop;
  alias_eq : AliasTy → Ty → Prop;
  outlives_antisym a b : outlives a b → outlives b a → a = b
}.

(** [R] holds of two lists pointwise, as far as both go. *)
Inductive Zipped {A} (R : A → A → Prop) : list A → list A → Prop :=
  | Zipped_nil_l l : Zipped R [] l
  | Zipped_nil_r l : Zipped R l []
  | Zipped_cons x y l k : R x y → Zipped R l k → Zipped R (x :: l) (y :: k).

(** *** Instances of binders *)

Definition of_kind (k : VariableKind) (a : GenericArg) : Prop :=
  match k, a with
  | VkTy _, ArgTy _ | VkLifetime, ArgLifetime _ | VkConst _, ArgConst _ => True
  | _, _ => False
  end.

(** [x] is [b] with the placeholders of a universe above [low] for its variables. *)
Definition universally (low : nat) {T} `{Fold T} (b : Binders T) (x : T) : Prop :=
  ∃ ui, (b.(binders) = [] ∨ low < ui.(counter)) ∧
    Subst_apply (imap (λ idx pk, placeholder_arg (mkPlaceholder ui idx) pk) b.(binders))
      b.(value) = Val x.

(** [x] is [b] with some arguments of the right kinds for its variables. *)
Definition existentially {T} `{Fold T} (b : Binders T) (x : T) : Prop :=
  ∃ s, Forall2 of_kind b.(binders) s ∧ subst_apply s b.(value) = Val x.

(** Binders are covariantly related when the right one, for all its variables, is
    related to the left one for some values of its variables. *)
Definition RelBinders (low : nat) {T} `{Fold T} (R : Variance → T → T → Prop) (v : Variance)
    (a b : Binders T) : Prop :=
  (v ≠ Covariant → ∃ x y, universally low a x ∧ existentially b y ∧ R Contravariant x y) ∧
  (v ≠ Contravariant → ∃ x y, existentially a x ∧ universally low b y ∧ R Covariant x y).

Section Rel.
Context (db : UnificationDatabase) (ME : Meaning) (low : nat).

Definition RelLt (v : Variance) (a b : Lifetime) : Prop :=
  a = b ∨ (v ≠ Covariant → ME.(outlives) a b) ∧ (v ≠ Contravariant → ME.(outlives) b a).

Definition variance_is (vs : option (list Variance)) (i : nat) (w : Variance) : Prop :=
  match vs with Some l => l !! i = Some w | None => w = Invariant end.

Section Related.
Context (σ : Valuation).

(** The values of [a] and [b] are related.  [Rel_value] replaces terms by others
    with the same values. *)
Inductive Rel : Variance → Ty → Ty → Prop :=
  | Rel_same v a b : apply_ty σ a = apply_ty σ b → Rel v a b
  | Rel_value v a a' b b' :
      apply_ty σ a = apply_ty σ a' → apply_ty σ b = apply_ty σ b' → Rel v a' b' → Rel v a b
  | Rel_flip v a b : Rel (invert_variance v) b a → Rel v a b
  | Rel_alias v alias x t :
      ME.(alias_eq) (apply_alias σ alias) (apply_ty σ x) → Rel v x t → Rel v (TyAlias alias) t
  | Rel_adt v id s s' :
      RelSubst v (Some (db.(adt_variance) id)) 0 s s' → Rel v (TyAdt id s) (TyAdt id s')
  | Rel_fn_def v id s s' :
      RelSubst v (Some (db.(fn_def_variance) id)) 0 s s' → Rel v (TyFnDef id s) (TyFnDef id s')
  | Rel_tuple v n s s' :
      RelSubst v (Some (repeat Covariant n)) 0 s s' → Rel v (TyTuple n s) (TyTuple n s')
  | Rel_associated v id s s' :
      RelSubst v None 0 s s' → Rel v (TyAssociatedType id s) (TyAssociatedType id s')
  | Rel_opaque v id s s' : RelSubst v None 0 s s' → Rel v (TyOpaqueType id s) (TyOpaqueType id s')
  | Rel_closure v id s s' : RelSubst v None 0 s s' → Rel v (TyClosure id s) (TyClosure id s')
  | Rel_generator v id s s' : RelSubst v None 0 s s' → Rel v (TyGenerator id s) (TyGenerator id s')
  | Rel_witness v id s s' :
      RelSubst v None 0 s s' → Rel v (TyGeneratorWitness id s) (TyGeneratorWitness id s')
  | Rel_slice v t t' : Rel v t t' → Rel v (TySlice t) (TySlice t')
  | Rel_ref v m l l' t t' :
      RelLt (xform v Contravariant) (apply_lt σ l) (apply_lt σ l') →
      Rel (xform v (reference_variance m)) t t' → Rel v (TyRef m l t) (TyRef m l' t')
  | Rel_raw v m t t' :
      Rel (xform v (reference_variance m)) t t' → Rel v (TyRaw m t) (TyRaw m t')
  | Rel_array v t t' c c' : Rel v t t' → RelCt v c c' → Rel v (TyArray t c) (TyArray t' c')
  (** The bounds are related both ways, each bound with the one at its place. *)
  | Rel_dyn v bs bs' l l' :
      RelBinders low (λ w x y, length x = length y ∧ Zipped (RelBinders low RelWhere w) x y)
        (xform v Invariant) bs bs' →
      RelLt (xform v Contravariant) (apply_lt σ l) (apply_lt σ l') →
      Rel v (TyDyn bs l) (TyDyn bs' l')
  (** The parameters contravariantly, the result covariantly. *)
  | Rel_fn v n n' sig s s' :
      RelBinders low (λ w x y, ∃ ps r ps' r', x = ps ++ [r] ∧ y = ps' ++ [r'] ∧
          Zipped (RelArg (xform w Contravariant)) ps ps' ∧ RelArg w r r')
        v (fn_into_binders n s) (fn_into_binders n' s') →
      Rel v (TyFunction n sig s) (TyFunction n' sig s')
with RelArg : Variance → GenericArg → GenericArg → Prop :=
  | RelArg_ty v t t' : Rel v t t' → RelArg v (ArgTy t) (ArgTy t')
  | RelArg_lt v l l' : RelLt v (apply_lt σ l) (apply_lt σ l') → RelArg v (ArgLifetime l) (ArgLifetime l')
  | RelArg_ct v c c' : RelCt v c c' → RelArg v (ArgConst c) (ArgConst c')
(** Constants of related types. *)
with RelCt : Variance → Const → Const → Prop :=
  | RelCt_same v a b : apply_ct σ a = apply_ct σ b → RelCt v a b
  | RelCt_value v a a' b b' :
      apply_ct σ a = apply_ct σ a' → apply_ct σ b = apply_ct σ b' → RelCt v a' b' → RelCt v a b
  | RelCt_placeholder v ty ty' p :
      Rel v ty ty' → RelCt v (mkConst ty (CvPlaceholder p)) (mkConst ty' (CvPlaceholder p))
  | RelCt_concrete v ty ty' c c' :
      Rel v ty ty' → db.(db_const_eq) ty c c' = true →
      RelCt v (mkConst ty (CvConcrete c)) (mkConst ty' (CvConcrete c'))
(** The arguments from the [i]th on, as far as both go. *)
with RelSubst : Variance → option (list Variance) → nat → Substitution → Substitution → Prop :=
  | RelSubst_nil_l v vs i s : RelSubst v vs i [] s
  | RelSubst_nil_r v vs i s : RelSubst v vs i s []
  | RelSubst_cons v vs i w a a' s s' :
      variance_is vs i w → RelArg (xform v w) a a' → RelSubst v vs (S i) s s' →
      RelSubst v vs i (a :: s) (a' :: s')
with RelAlias : Variance → AliasTy → AliasTy → Prop :=
  | RelAlias_projection v id s s' :
      RelSubst v None 0 s s' → RelAlias v (AliasProjection id s) (AliasProjection id s')
  | RelAlias_opaque v id s s' :
      RelSubst v None 0 s s' → RelAlias v (AliasOpaque id s) (AliasOpaque id s')
with RelWhere : Variance → WhereClause → WhereClause → Prop :=
  | RelWhere_implemented v id s s' :
      RelSubst v None 0 s s' →
      RelWhere v (WcImplemented (mkTraitRef id s)) (WcImplemented (mkTraitRef id s'))
  | RelWhere_alias_eq v al al' t t' :
      RelAlias v al al' → Rel v t t' → RelWhere v (WcAliasEq al t) (WcAliasEq al' t')
  | RelWhere_lifetime_outlives v a a' b b' :
      RelLt v (apply_lt σ a) (apply_lt σ a') → RelLt v (apply_lt σ b) (apply_lt σ b') →
      RelWhere v (WcLifetimeOutlives a b) (WcLifetimeOutlives a' b')
  | RelWhere_type_outlives v t t' l l' :
      Rel v t t' → RelLt v (apply_lt σ l) (apply_lt σ l') →
      RelWhere v (WcTypeOutlives t l) (WcTypeOutlives t' l').
End Related.

(** The head of a type. *)
Definition head (t : Ty) : Ty :=
  match t with
  | TyAdt id _ => TyAdt id []
  | TyFnDef id _ => TyFnDef id []
  | TyTuple n _ => TyTuple n []
  | TyAssociatedType id _ => TyAssociatedType id []
  | TyOpaqueType id _ => TyOpaqueType id []
  | TyClosure id _ => TyClosure id []
  | TyGenerator id _ => TyGenerator id []
  | TyGeneratorWitness id _ => TyGeneratorWitness id []
  | TySlice _ => TySlice TyError
  | TyRef m _ _ => TyRef m LtStatic TyError
  | TyRaw m _ => TyRaw m TyError
  | TyArray _ _ => TyArray TyError (mkConst TyError (CvConcrete 0))
  | TyDyn _ _ => TyDyn (mkBinders [] []) LtStatic
  | TyFunction _ sig _ => TyFunction 0 sig []
  | t => t
  end.

(** Related types have the same head, unless an alias is equal to a type. *)
Lemma related_heads σ v a b :
  (∀ alias t, ¬ ME.(alias_eq) alias t) → Rel σ v a b → head (apply_ty σ a) = head (apply_ty σ b).
Proof. intros Ha. induction 1; try congruence; try done. by destruct (Ha _ _ H). Qed.

(** ** Valuations that solve a table and goals *)

Definition val_eq (σ : Valuation) (v w : InferenceVar) : Prop :=
  σ.(val_ty) v = σ.(val_ty) w ∧ σ.(val_lt) v = σ.(val_lt) w ∧ σ.(val_ct) v = σ.(val_ct) w.

Definition val_is (σ : Valuation) (v : InferenceVar) (a : GenericArg) : Prop :=
  match a with
  | ArgTy t => σ.(val_ty) v = apply_ty σ t
  | ArgLifetime l => σ.(val_lt) v = apply_lt σ l
  | ArgConst c => σ.(val_ct) v = apply_ct σ c
  end.

Definition solves_ena {E} `{EnaOps E} (σ : Valuation) (e : E) : Prop :=
  ∀ v, val_eq σ v (ena_find e v) ∧
    match ena_probe_value e v with Bound a => val_is σ v a | Unbound _ => True end.

Definition solves_goal (σ : Valuation) (g : Goal) : Prop :=
  match g with
  | GSubtypeGoal a b => Rel σ Covariant a b
  | GDomainGoal (DgHolds (WcAliasEq alias ty)) => ME.(alias_eq) (apply_alias σ alias) (apply_ty σ ty)
  | GDomainGoal (DgHolds (WcLifetimeOutlives a b)) => ME.(outlives) (apply_lt σ a) (apply_lt σ b)
  | _ => True
  end.

Definition solves_goals (σ : Valuation) (gs : list (InEnvironment Goal)) : Prop :=
  Forall (λ g, solves_goal σ g.(env_goal)) gs.

Definition solves {E} `{EnaOps E} (σ : Valuation) (u : Unifier E) : Prop :=
  solves_ena σ u.(utable).(unify) ∧ solves_goals σ u.(ugoals).
End Rel.

#[global] Instance val_eq_equiv σ : Equivalence (val_eq σ).
Proof.
  unfold val_eq. split.
  - by intros v.
  - intros v w (-> & -> & ->). done.
  - intros v w x (-> & -> & ->). done.
Qed.

Lemma val_is_eq σ v w a : val_eq σ v w → val_is σ w a → val_is σ v a.
Proof. intros (H1 & H2 & H3). destruct a; simpl; congruence. Qed.

(** ** The updates of the [ena] table refine it *)

Section Updates.
Context {E : Type} `{EnaLaws E}.
Implicit Types e : E.

Lemma new_key_refines σ e v :
  ena_wf e → solves_ena σ (ena_new_key e v).2 → solves_ena σ e.
Proof.
  intros Hwf Hs x. specialize (Hs x). pose proof (new_key_wf e v Hwf) as Hwf'.
  destruct (Nat.lt_trichotomy x (ena_len e)) as [Hx|[Hx|Hx]].
  - rewrite new_key_find, new_key_probe, !decide_False in Hs by (done || lia). exact Hs.
  - rewrite find_out, probe_out by (done || lia). split; [reflexivity|done].
  - rewrite find_out, probe_out by (done || lia). split; [reflexivity|done].
Qed.

Lemma unify_var_value_refines σ e e' a v :
  ena_wf e → ena_unify_var_value e a v = Val e' →
  ena_wf e' ∧ (solves_ena σ e' → solves_ena σ e ∧
    match v with Bound b => val_is σ a b | Unbound _ => True end).
Proof.
  intros Hwf He. destruct (Nat.lt_ge_cases a (ena_len e)) as [Ha|Ha];
    [|by rewrite unify_var_value_out in He].
  pose proof (unify_var_value_spec e a v Hwf Ha) as Hspec.
  destruct (unify_values _ _) as [v'| | |] eqn:Hv; try congruence.
  2: by destruct (ena_probe_value e a), v.
  destruct Hspec as (e1 & He1 & Hwf' & Hlen & Hc). rewrite He1 in He. injection He as <-.
  split; [done|]. intros Hs. split.
  - intros x. destruct (Nat.lt_ge_cases x (ena_len e)) as [Hx|Hx];
      [|rewrite find_out, probe_out by done; split; [reflexivity|done]].
    destruct (Hc x Hx) as [Hf Hp]. specialize (Hs x). rewrite Hf, Hp in Hs.
    destruct Hs as [? Hs]. split; [done|]. case_decide as Hd; [|done].
    rewrite (probe_find e x a) by done.
    destruct (ena_probe_value e a), v; simpl in Hv; try done; injection Hv as <-; exact Hs.
  - destruct v as [|b]; [done|]. destruct (Hc a Ha) as [Hf Hp].
    destruct (Hs a) as [_ Hs']. rewrite Hp, decide_True in Hs' by done.
    destruct (ena_probe_value e a); simpl in Hv; [injection Hv as <-; exact Hs'|done].
Qed.

Lemma unify_var_var_refines σ e e' a b :
  ena_wf e → ena_unify_var_var e a b = Val e' →
  ena_wf e' ∧ (solves_ena σ e' → solves_ena σ e ∧ val_eq σ a b).
Proof.
  intros Hwf He.
  destruct (decide (a < ena_len e ∧ b < ena_len e)) as [[Ha Hb]|Hn].
  2: { rewrite unify_var_var_out in He; [done|done|].
    destruct (Nat.lt_ge_cases a (ena_len e)); [right|by left]. apply Nat.nlt_ge. by intros ?; apply Hn. }
  destruct (decide (ena_find e a = ena_find e b)) as [Hab|Hab].
  { rewrite unify_var_var_same in He by done. injection He as <-. split; [done|].
    intros Hs. split; [done|]. destruct (Hs a) as [Hsa _], (Hs b) as [Hsb _].
    rewrite <- Hab in Hsb. by transitivity (ena_find e a). }
  pose proof (unify_var_var_diff e a b Hwf Ha Hb Hab) as Hspec.
  destruct (unify_values _ _) as [v'| | |] eqn:Hv; try congruence.
  2: by destruct (ena_probe_value e a), (ena_probe_value e b).
  destruct Hspec as (e1 & r & He1 & Hwf' & Hlen & Hr & Hc). rewrite He1 in He. injection He as <-.
  split; [done|]. intros Hs.
  assert (∀ x, x < ena_len e → ena_find e x = ena_find e a ∨ ena_find e x = ena_find e b →
    val_eq σ x r ∧ match v' with Bound t => val_is σ x t | Unbound _ => True end) as Hcls.
  { intros x Hx Hd. specialize (Hc x Hx). rewrite decide_True in Hc by done. destruct Hc as [Hf Hp].
    destruct (Hs x) as [Hs1 Hs2]. by rewrite Hf in Hs1; rewrite Hp in Hs2. }
  assert (val_eq σ a b) as Heq.
  { etransitivity; [apply Hcls; auto|symmetry; apply Hcls; auto]. }
  split; [|done]. intros x. destruct (Nat.lt_ge_cases x (ena_len e)) as [Hx|Hx];
    [|rewrite find_out, probe_out by done; split; [reflexivity|done]].
  destruct (decide (ena_find e x = ena_find e a ∨ ena_find e x = ena_find e b)) as [Hd|Hd].
  - destruct (Hcls x Hx Hd) as [Hxr Hxv].
    pose proof (find_find e x Hwf Hx) as Hff. pose proof (find_lt e x Hwf Hx).
    split.
    { etransitivity; [exact Hxr|symmetry; apply Hcls; [done|by rewrite Hff]]. }
    assert (ena_probe_value e x = ena_probe_value e a ∨ ena_probe_value e x = ena_probe_value e b) as [->| ->].
    { destruct Hd; [left|right]; by apply probe_find. }
    all: destruct (ena_probe_value e a), (ena_probe_value e b); simpl in Hv; try done; injection Hv as <-; exact Hxv.
  - specialize (Hc x Hx). rewrite decide_False in Hc by done. destruct Hc as [Hf Hp].
    specialize (Hs x). by rewrite Hf, Hp in Hs.
Qed.
End Updates.
