(* ===== verification/UnifySound.v ===== *)
(** * Unification is sound

    [sound m Q]: when [m] returns [a], the table stays well formed, its greatest
    universe does not go below [low], and every valuation that solves the state
    after also solves the state before and satisfies [Q a].  The callbacks of the unifier are sound for [Rel]. *)

From stdpp Require Import base list numbers.
From S2P Require Import Prelude Ir Fold FoldLaws Shift ShiftThm Ena Infer Visit Zip Unify Valuation.

Definition wpSE {S} A (m : SE S A) (s : S) (Q : A → S → Prop) : Prop :=
  ∀ a s', m s = (Val a, s') → Q a s'.

Lemma wpSE_laws {S} : WpLaws (@wpSE S).
Proof.
  constructor; unfold wpSE.
  - intros * ? ? ? [= <- <-]. done.
  - intros * Hm b s' (a & s1 & Ha & Hb)%SE_bind_Val. by eapply Hm.
  - eauto.
Qed.

Section Sound.
Context {E : Type} `{EnaLaws E}.
Context (db : UnificationDatabase) (ME : Meaning) (low : nat) (env : Environment).
Abbreviation U := (Unifier E).
Abbreviation solves := (solves db ME low).
Definition wf (u : U) : Prop :=
  ena_wf u.(utable).(unify) ∧ low ≤ u.(utable).(max_universe).(counter).

Definition sound {A} (m : SE U A) (Q : A → Valuation → Prop) : Prop :=
  ∀ u a u', wf u → m u = (Val a, u') → wf u' ∧ ∀ σ, solves σ u' → solves σ u ∧ Q a σ.

(** [m] only adds constraints. *)
Abbreviation refines m := (sound m (λ _ _, True)).

Lemma sound_weaken {A} (m : SE U A) (Q Q' : A → Valuation → Prop) :
  sound m Q → (∀ a σ, Q a σ → Q' a σ) → sound m Q'.
Proof. intros Hm HQ u a u' Hu Ha. destruct (Hm u a u' Hu Ha) as [? Hs]. split; [done|].
  intros σ Hσ. destruct (Hs σ Hσ). auto. Qed.

Lemma sound_refines {A} (m : SE U A) Q : sound m Q → refines m.
Proof. intros Hm. by eapply sound_weaken. Qed.

Lemma sound_ret {A} (a : A) (Q : A → Valuation → Prop) : (∀ σ, Q a σ) → sound (mret a) Q.
Proof. intros HQ u b u' Hu [= <- <-]. auto. Qed.

Lemma sound_bind {A B} (m : SE U A) (f : A → SE U B) Q (R : B → Valuation → Prop) :
  sound m Q → (∀ a, sound (f a) (λ b σ, Q a σ → R b σ)) → sound (m ≫= f) R.
Proof.
  intros Hm Hf u b u' Hu (a & u1 & Ha & Hb)%SE_bind_Val.
  destruct (Hm u a u1 Hu Ha) as [Hu1 Hs1]. destruct (Hf a u1 b u' Hu1 Hb) as [Hu' Hs].
  split; [done|]. intros σ Hσ. destruct (Hs σ Hσ) as [Hσ1 HR]. destruct (Hs1 σ Hσ1). auto.
Qed.

Lemma sound_seq {A B} (m : SE U A) (m' : SE U B) Q :
  refines m → sound m' Q → sound (m ≫= λ _, m') Q.
Proof. intros Hm Hm'. eapply sound_bind; [exact Hm|]. intros a. by eapply sound_weaken; [exact Hm'|]. Qed.

Lemma sound_err {A} (Q : A → Valuation → Prop) : sound se_err Q.
Proof. by intros u a u' ?. Qed.
Lemma sound_fuel {A} (Q : A → Valuation → Prop) : sound se_fuel Q.
Proof. by intros u a u' ?. Qed.
Lemma sound_panic {A} p (Q : A → Valuation → Prop) : sound (mpanic p) Q.
Proof. by intros u a u' ?. Qed.
Lemma sound_lift {A} (m : Fallible A) (Q : A → Valuation → Prop) :
  (∀ a σ, m = Val a → Q a σ) → sound (se_lift m) Q.
Proof. intros HQ u a u' Hu [= -> <-]. eauto. Qed.

Lemma sound_read {A} (f : InferenceTable E → Fallible A) (Q : A → Valuation → Prop) :
  (∀ t a σ, f t = Val a → solves_ena σ t.(unify) → Q a σ) → sound (read_table f) Q.
Proof.
  intros HQ u a u' Hu [= Ha <-]. split; [done|]. intros σ Hσ. split; [done|].
  eapply HQ; [done|]. by apply Hσ.
Qed.

(** ** The updates of the state *)

Lemma sound_ena_update f (Q : Valuation → Prop) :
  (∀ e e' σ, ena_wf e → f e = Val e' → ena_wf e' ∧ (solves_ena σ e' → solves_ena σ e ∧ Q σ)) →
  sound (ena_update f) (λ _ σ, Q σ).
Proof.
  intros Hf u [] u' [Hu Hlow]. unfold ena_update.
  destruct (f _) as [e| | |] eqn:He; simpl; intros [= <-]; simpl.
  split; [split; [|exact Hlow]; by apply (Hf u.(utable).(unify) e (mkValuation (λ _, TyStr) (λ _, LtStatic) (λ _, mkConst TyStr (CvConcrete 0))))|].
  intros σ [Hσ Hg]. simpl in *. destruct (Hf _ e σ Hu He) as [_ Hr]. destruct (Hr Hσ). by split; [split|].
Qed.

Lemma sound_unify_var_var a b : sound (unify_var_var a b) (λ _ σ, val_eq σ a b).
Proof. apply sound_ena_update. intros e e' σ Hwf He. by eapply unify_var_var_refines. Qed.

Lemma sound_unify_var_value var v :
  sound (unify_var_value var v)
    (λ _ σ, match v with Bound a => val_is σ var a | Unbound _ => True end).
Proof. apply sound_ena_update. intros e e' σ Hwf He. by eapply unify_var_value_refines. Qed.

Lemma fresh_var_refines ui : refines (fresh_var ui).
Proof.
  intros u v u' [Hu Hlow]. unfold fresh_var, with_table, new_variable.
  destruct (ena_new_key _ _) as [x e] eqn:He. intros [= <- <-]; simpl.
  pose proof (new_key_wf _ (Unbound ui) Hu) as Hwf. pose proof (λ σ, new_key_refines σ _ (Unbound ui) Hu) as Hr.
  rewrite He in *. simpl in *. split; [by split|]. intros σ [Hσ Hg]. split; [split; [by apply Hr|done]|done].
Qed.

Lemma sound_push_goal g : sound (push_goal env g) (λ _ σ, solves_goal db ME low σ g).
Proof.
  intros u [] u' Hu [= <-]. split; [done|]. intros σ [Hσ Hg]. unfold solves_goals in Hg. simpl in *.
  apply Forall_app in Hg as [Hg Hn]. apply Forall_inv in Hn. by split; [split|].
Qed.

Lemma sound_push_outlives v a b :
  sound (push_lifetime_outlives_goals env v a b) (λ _ σ, RelLt ME v (apply_lt σ a) (apply_lt σ b)).
Proof.
  unfold push_lifetime_outlives_goals.
  apply (sound_bind _ _ (λ _ σ, v ≠ Covariant → ME.(outlives) (apply_lt σ a) (apply_lt σ b))).
  - case_bool_decide as Hv; [eapply sound_weaken; [apply sound_push_goal|done]|].
    apply sound_ret. intros σ Hn. destruct v; naive_solver.
  - intros []. case_bool_decide as Hv.
    + eapply sound_weaken; [apply sound_push_goal|]. simpl. intros _ σ Hg Ha. right. done.
    + apply sound_ret. intros σ Ha. right. split; [done|]. intros Hn. destruct v; naive_solver.
Qed.

Lemma RelLt_invariant a b : RelLt ME Invariant a b → a = b.
Proof. intros [|[Hab Hba]]; [done|]. by apply (outlives_antisym ME); [apply Hab|apply Hba]. Qed.

Lemma RelLt_flip v a b : RelLt ME (invert_variance v) b a → RelLt ME v a b.
Proof. intros [->|[H1 H2]]; [by left|]. right. destruct v; simpl in *; split; intros; auto. Qed.

(** ** Generalization only adds variables *)

Lemma refines_bind {A B} (m : SE U A) (f : A → SE U B) :
  refines m → (∀ a, refines (f a)) → refines (m ≫= f).
Proof. intros Hm Hf. eapply sound_bind; [exact Hm|]. intros a. eapply sound_weaken; [apply Hf|auto]. Qed.

Lemma refines_ret {A} (a : A) : refines (mret a).
Proof. by apply sound_ret. Qed.
Lemma refines_lift {A} (m : Fallible A) : refines (se_lift m).
Proof. by apply sound_lift. Qed.
Lemma refines_read {A} (f : InferenceTable E → Fallible A) : refines (read_table f).
Proof. by apply sound_read. Qed.

Lemma mapi_refines {A B} (f : nat → A → SE U B) l i :
  Forall (λ x, ∀ i, refines (f i x)) l → refines (mapi_from f i l).
Proof.
  intros Hl. revert i. induction Hl as [|x l Hx Hl IH]; intros i; simpl; [apply refines_ret|].
  apply refines_bind; [apply Hx|]. intros y. apply refines_bind; [apply IH|]. intros. apply refines_ret.
Qed.

(** [refine_steps] takes a computation that only adds constraints apart. *)
Ltac refine_steps :=
  lazymatch goal with
  | |- sound (_ ≫= _) _ => apply refines_bind; [|intros ?]; refine_steps
  | |- sound (mret _) _ => apply refines_ret
  | |- sound (mpanic _) _ => apply sound_panic
  | |- sound se_err _ => apply sound_err
  | |- sound se_fuel _ => apply sound_fuel
  | |- sound (fresh_var _) _ => apply fresh_var_refines
  | |- sound (read_table _) _ => apply refines_read
  | |- sound (se_lift _) _ => apply refines_lift
  | |- sound (mapi_from _ _ _) _ =>
      apply mapi_refines;
      first [eapply Forall_impl; [eassumption|]; simpl; intros ? ? ?
        | apply Forall_forall; intros ? ? ?]; refine_steps
  | |- sound (if ?b then _ else _) _ => destruct b; refine_steps
  | |- sound (match ?x with _ => _ end) _ => destruct x; refine_steps
  | |- _ => by auto
  end.

Lemma generalize_lifetime_refines l ui v : refines (generalize_lifetime l ui v).
Proof. unfold generalize_lifetime. refine_steps. Qed.
Lemma generalize_const_refines c ui : refines (generalize_const c ui).
Proof. unfold generalize_const. refine_steps. Qed.
Lemma variance_at_refines vs i : refines (variance_at (S:=U) vs i).
Proof. unfold variance_at. refine_steps. Qed.
#[local] Hint Resolve generalize_lifetime_refines generalize_const_refines variance_at_refines : core.

Lemma generalize_with_refines again ui :
  (∀ t ui v, refines (again t ui v)) →
  (∀ t v, refines (generalize_ty_with db again ui v t)) ∧
  (∀ a v, refines (generalize_arg_with db again ui v a)).
Proof.
  intros Hagain.
  destruct (term_ind (λ t, ∀ v, refines (generalize_ty_with db again ui v t)) (λ _, True)
    (λ a, ∀ v, refines (generalize_arg_with db again ui v a))
    (λ al, match al with AliasProjection _ s | AliasOpaque _ s =>
      Forall (λ a, ∀ v, refines (generalize_arg_with db again ui v a)) s end)
    (λ w, match w with
      | WcImplemented tr =>
          Forall (λ a, ∀ v, refines (generalize_arg_with db again ui v a)) tr.(substitution)
      | WcAliasEq (AliasProjection _ s) _ | WcAliasEq (AliasOpaque _ s) _ =>
          Forall (λ a, ∀ v, refines (generalize_arg_with db again ui v a)) s
      | _ => True end)) as (? & _ & ? & _); [|by split].
  split; intros; try done; simpl; unfold get_variance; try refine_steps.
  all: try match goal with |- match ?a with _ => _ end => by destruct a end.
Qed.

Lemma generalize_refines fuel t ui v : refines (generalize_ty db fuel t ui v).
Proof.
  revert t ui v. induction fuel as [|fuel IH]; intros t ui v; simpl;
    apply generalize_with_refines; [intros; apply sound_fuel|apply IH].
Qed.

(** ** The occurs check preserves the meaning of a term *)

Definition unifier_le (u u' : U) : Prop := ∀ σ, solves σ u' → solves σ u.
#[local] Instance unifier_le_preorder : PreOrder unifier_le.
Proof. split; [by intros u σ|]. intros u u1 u2 H1 H2 σ Hσ. auto. Qed.

Definition occurs_family (u : U) : Family :=
  all_family (λ x : { σ | solves σ u }, eq_family (M:=Id) 0 (valuation (`x)) (valuation (`x))).

Lemma occurs_family_cong u : Cong (occurs_family u).
Proof. apply all_family_cong. intros x. apply eq_family_cong. Qed.

Lemma occurs_family_mono u u' : unifier_le u u' → FamSub (occurs_family u) (occurs_family u').
Proof.
  intros Hle. constructor; simpl; intros d x y Hxy [σ Hσ]; exact (Hxy (exist _ σ (Hle σ Hσ))).
Qed.

(** A read of the value of a variable. *)
Lemma sound_probe {A} var (mb : GenericArg → SE U A) (mu : UniverseIndex → SE U A) Q :
  (∀ b, sound (mb b) (λ a σ, val_is σ var b → Q a σ)) → (∀ ui, sound (mu ui) Q) →
  sound (λ u, match ena_probe_value u.(utable).(unify) var with
    | Bound b => mb b u | Unbound ui => mu ui u end) Q.
Proof.
  intros Hb Hu u a u' Hwf Ha. destruct (ena_probe_value _ _) as [ui|b] eqn:Hp; [by eapply Hu|].
  destruct (Hb b u a u' Hwf Ha) as [? Hs]. split; [done|]. intros σ Hσ.
  destruct (Hs σ Hσ) as [Hσu HQ]. split; [done|]. apply HQ.
  destruct Hσu as [He _]. destruct (He var) as [_ Hv]. by rewrite Hp in Hv.
Qed.

Lemma sound_if {A} (b : U → bool) (m m' : SE U A) Q :
  sound m Q → sound m' Q → sound (λ u, if b u then m u else m' u) Q.
Proof. intros Hm Hm' u a u' Hwf. destruct (b u); [apply Hm|apply Hm']; done. Qed.

Lemma promote_refines uidx ui var : refines (promote uidx ui var).
Proof.
  unfold promote. destruct (universe_lt _ _); [|apply refines_ret].
  by eapply sound_weaken; [apply sound_unify_var_value|].
Qed.

Lemma assert_refines b : refines (se_lift (S:=U) (assert b)).
Proof. apply refines_lift. Qed.

Section Occurs.
Context (self_var : InferenceVar) (ui : UniverseIndex).
Abbreviation OC n := (OccursCheck env n self_var ui).

Definition occurs_sound (n : nat) : Prop :=
  LeafSpec wpSE (OC n) (λ u, wf u) unifier_le occurs_family (λ _, True).

Lemma occurs_fold_sound {T} `{FoldLaws T} n (t : T) d : occurs_sound n →
  sound (fold_with (OC n) t d) (λ t' σ,
    fold_with (M:=Id) (valuation σ) t d = fold_with (M:=Id) (valuation σ) t' d).
Proof.
  intros Hn u t' u' Hu Ht.
  destruct (fold_gives _ _ _ _ _ _ Hn t d u (Forall_leaves_true _) Hu t' u' Ht) as (Hu' & Hle & Hr).
  split; [done|]. intros σ Hσ. split; [by apply Hle|].
  apply (lift_eq 0). eapply lift_sub; [|exact Hr].
  by refine (all_family_sub _ (exist _ σ Hσ)).
Qed.

(** The callbacks are sound when the recursive calls are. *)
Lemma occurs_value n (IH : ∀ k, n = S k → occurs_sound k) {A} `{FoldLaws A} (sel : GenericArg → Fallible A) (inj : A → GenericArg)
    (check : A → bool) var d (x : Valuation → A) :
  (∀ b a, sel b = Val a → b = inj a) →
  (∀ a σ, val_is σ var (inj a) → x σ = fold_with (M:=Id) (valuation σ) a d) →
  ∀ b, sound
    (y ← se_lift (sel b);
     y ← match n with 0 => se_fuel | Datatypes.S k => fold_with (OC k) y d end;
     _ ← se_lift (assert (check y));
     mret y)
    (λ y σ, val_is σ var b → x σ = fold_with (M:=Id) (valuation σ) y d).
Proof.
  intros Hsel Hx b. eapply (sound_bind _ _ (λ a σ, b = inj a)).
  { apply sound_lift. eauto. }
  intros a. eapply (sound_bind _ _ (λ y σ,
    fold_with (M:=Id) (valuation σ) a d = fold_with (M:=Id) (valuation σ) y d)).
  { destruct n as [|k]; [apply sound_fuel|]. by apply occurs_fold_sound, IH. }
  intros y. eapply sound_bind; [apply assert_refines|]. intros [].
  apply sound_ret. intros σ _ Hf Hb Hv. rewrite Hb in Hv. by rewrite (Hx a σ Hv).
Qed.

Lemma occurs_lifetime n (IH : ∀ k, n = S k → occurs_sound k) l d :
  sound (fold_lifetime (OC n) l d) (λ l' σ, apply_lt σ l = apply_lt σ l').
Proof.
  assert (fold_lifetime (OC n) = super_fold_lifetime (OC n)) as -> by (clear IH; destruct n; reflexivity).
  unfold super_fold_lifetime. destruct l as [bv|v|p| | |]; try by apply sound_ret.
  - destruct (shifted_out_to bv d); [|by apply sound_ret]. destruct n; apply sound_panic.
  - assert (fold_inference_lifetime (OC n) v d = λ u,
      match ena_probe_value u.(utable).(unify) v with
      | Unbound u0 => (_ ← promote ui u0 v; mret (var_to_lifetime v)) u
      | Bound b => (y ← se_lift (assert_lifetime_ref b);
         y ← match n with 0 => se_fuel | Datatypes.S k => fold_with (OC k) y d end;
         _ ← se_lift (assert (negb (lifetime_needs_shift y))); mret y) u
      end) as -> by (clear IH; destruct n; reflexivity).
    apply (sound_probe v).
    + intros b. eapply sound_weaken; [apply (occurs_value n IH (A:=Lifetime) _ ArgLifetime _ v d
        (λ σ, apply_lt σ (LtInferenceVar v)))|].
      * by intros [] ? [= <-].
      * intros a σ Ha. simpl in Ha. rewrite <- (apply_lt_depth σ a d) in Ha. exact Ha.
      * intros a σ Ha Hv. rewrite (Ha Hv). exact (apply_lt_depth σ a d).
    + intros u0. apply sound_seq; [apply promote_refines|]. by apply sound_ret.
  - assert (fold_free_placeholder_lifetime (OC n) p d =
      if universe_lt ui p.(Ir.ui) then
        tick_x ← fresh_var ui;
        _ ← push_lifetime_outlives_goals env Invariant (var_to_lifetime tick_x) (LtPlaceholder p);
        mret (var_to_lifetime tick_x)
      else mret (LtPlaceholder p)) as -> by (clear IH; destruct n; reflexivity).
    destruct (universe_lt _ _); [|by apply sound_ret].
    eapply sound_bind; [apply fresh_var_refines|]. intros x.
    eapply sound_bind; [apply sound_push_outlives|]. intros []. apply sound_ret.
    intros σ Hr _. symmetry. exact (RelLt_invariant _ _ Hr).
Qed.

Lemma occurs_ty n (IH : ∀ k, n = S k → occurs_sound k) t d :
  match t with TyBoundVar _ | TyInferenceVar _ _ | TyPlaceholder _ => True | _ => False end →
  sound (fold_ty (OC n) t d) (λ t' σ, apply_ty σ t = apply_ty σ t').
Proof.
  destruct t as [| | | | | | | | | | | | | | | | |p| | | |bv|v k]; try done; intros _; simpl.
  - assert (fold_free_placeholder_ty (OC n) p d =
      if universe_lt ui p.(Ir.ui) then se_err else mret (TyPlaceholder p)) as ->
      by (clear IH; destruct n; reflexivity).
    destruct (universe_lt _ _); [apply sound_err|by apply sound_ret].
  - destruct (shifted_out_to bv d); [|by apply sound_ret]. destruct n; apply sound_panic.
  - assert (fold_inference_ty (OC n) v k d = λ u,
      match ena_probe_value u.(utable).(unify) v with
      | Bound b => (y ← se_lift (assert_ty_ref b);
         y ← match n with 0 => se_fuel | Datatypes.S k => fold_with (OC k) y INNERMOST end;
         _ ← se_lift (assert (negb (ty_needs_shift y))); mret y) u
      | Unbound u0 =>
          if ena_unioned u.(utable).(unify) v self_var then se_err u
          else (_ ← promote ui u0 v; mret (var_to_ty_with_kind v k)) u
      end) as -> by (clear IH; destruct n; reflexivity).
    apply (sound_probe v _ (λ u0 u, if ena_unioned u.(utable).(unify) v self_var then se_err u
          else (_ ← promote ui u0 v; mret (var_to_ty_with_kind v k)) u)).
    + intros b. eapply sound_weaken; [apply (occurs_value n IH (A:=Ty) _ ArgTy _ v INNERMOST
        (λ σ, apply_ty σ (TyInferenceVar v k)))|].
      * by intros [] ? [= <-].
      * intros a σ Ha. exact Ha.
      * intros a σ Ha Hv. exact (Ha Hv).
    + intros u0. apply (sound_if (λ u, ena_unioned u.(utable).(unify) v self_var));
        [apply sound_err|]. apply sound_seq; [apply promote_refines|]. by apply sound_ret.
Qed.

Lemma occurs_const n (IH : ∀ k, n = S k → occurs_sound k) t cv d :
  match cv with CvConcrete _ => False | _ => True end →
  sound (fold_const (OC n) (mkConst t cv) d)
    (λ c' σ, apply_ct σ (mkConst t cv) = apply_ct σ c').
Proof.
  destruct cv as [bv|v|p|]; try done; intros _; simpl.
  - destruct (shifted_out_to bv d); [|by apply sound_ret]. destruct n; apply sound_panic.
  - assert (fold_inference_const (OC n) t (fold_ty (OC n) t d) v d = λ u,
      match ena_probe_value u.(utable).(unify) v with
      | Bound b => (y ← se_lift (assert_const_ref b);
         y ← match n with 0 => se_fuel | Datatypes.S k => fold_with (OC k) y INNERMOST end;
         _ ← se_lift (assert (negb (const_needs_shift y))); mret y) u
      | Unbound u0 =>
          if ena_unioned u.(utable).(unify) v self_var then se_err u
          else (_ ← promote ui u0 v; mret (var_to_const v t)) u
      end) as -> by (clear IH; destruct n; reflexivity).
    apply (sound_probe v _ (λ u0 u, if ena_unioned u.(utable).(unify) v self_var then se_err u
          else (_ ← promote ui u0 v; mret (var_to_const v t)) u)).
    + intros b. eapply sound_weaken; [apply (occurs_value n IH (A:=Const) _ ArgConst _ v INNERMOST
        (λ σ, apply_ct σ (mkConst t (CvInferenceVar v))))|].
      * by intros [] ? [= <-].
      * intros a σ Ha. exact Ha.
      * intros a σ Ha Hv. exact (Ha Hv).
    + intros u0. apply (sound_if (λ u, ena_unioned u.(utable).(unify) v self_var));
        [apply sound_err|]. apply sound_seq; [apply promote_refines|]. by apply sound_ret.
  - assert (fold_free_placeholder_const (OC n) t (fold_ty (OC n) t d) p d =
      if universe_lt ui p.(Ir.ui) then se_err else mret (mkConst t (CvPlaceholder p))) as ->
      by (clear IH; destruct n; reflexivity).
    destruct (universe_lt _ _); [apply sound_err|by apply sound_ret].
Qed.

Lemma occurs_check_sound n : occurs_sound n.
Proof.
  induction n as [n IH] using lt_wf_ind.
  assert (∀ k, n = S k → occurs_sound k) as IH' by (intros k ->; apply IH; lia).
  constructor.
  - apply wpSE_laws.
  - apply unifier_le_preorder.
  - intros u _. apply occurs_family_cong.
  - intros u u' _ _. apply occurs_family_mono.
  - intros u l d Hu _ l' u' Hl. destruct (occurs_lifetime n IH' l d u l' u' Hu Hl) as [? Hs].
    split_and!; [done|intros σ Hσ; by apply Hs|]. intros [σ Hσ].
    change (fold_lifetime (M:=Id) (valuation σ) l d
      = fold_lifetime (M:=Id) (valuation σ) l' (0 + d)).
    rewrite !apply_lt_depth. by apply Hs.
  - intros u t d Hu _ Ht t' u' Hf. destruct (occurs_ty n IH' t d Ht u t' u' Hu Hf) as [? Hs].
    split_and!; [done|intros σ Hσ; by apply Hs|]. intros [σ Hσ].
    change (fold_ty (M:=Id) (valuation σ) t d = fold_ty (M:=Id) (valuation σ) t' (0 + d)).
    rewrite !apply_ty_depth. by apply Hs.
  - intros u t cv d Hu _ _ Hc c' u' Hf. destruct (occurs_const n IH' t cv d Hc u c' u' Hu Hf) as [? Hs].
    split_and!; [done|intros σ Hσ; by apply Hs|]. intros [σ Hσ].
    change (fold_const (M:=Id) (valuation σ) (mkConst t cv) d
      = fold_const (M:=Id) (valuation σ) c' (0 + d)).
    rewrite !apply_ct_depth. by apply Hs.
Qed.

Lemma occurs_check_ty n t :
  sound (fold_ty (OC n) t INNERMOST) (λ t' σ, apply_ty σ t = apply_ty σ t').
Proof. exact (occurs_fold_sound (T:=Ty) n t INNERMOST (occurs_check_sound n)). Qed.
Lemma occurs_check_const n c :
  sound (fold_const (OC n) c INNERMOST) (λ c' σ, apply_ct σ c = apply_ct σ c').
Proof. exact (occurs_fold_sound (T:=Const) n c INNERMOST (occurs_check_sound n)). Qed.
End Occurs.
End Sound.
