(* ===== verification/UnifyThm.v ===== *)
(** * Unification relates what it unifies *)

From stdpp Require Import base list numbers.
From S2P Require Import Prelude Ir Fold FoldLaws Shift ShiftThm Ena Infer Visit Zip Unify Valuation UnifySound.

Section Relate.
Context {E : Type} `{EnaLaws E}.
Context (db : UnificationDatabase) (ME : Meaning) (low : nat) (env : Environment).
Abbreviation U := (Unifier E).
Abbreviation Rel := (Rel db ME low).
Abbreviation RelArg := (RelArg db ME low).
Abbreviation RelSubst := (RelSubst db ME low).
Abbreviation RelAlias := (RelAlias db ME low).
Abbreviation RelWhere := (RelWhere db ME low).
Abbreviation RelCt := (RelCt db ME low).
Abbreviation RelLt := (RelLt ME).
Abbreviation sound m Q := (sound db ME low m Q).
Abbreviation refines m := (UnifySound.sound db ME low m (λ _ _, True)).
Abbreviation wf := (wf low).

(** A zipper whose callbacks relate their arguments. *)
Record zipper_sound (Z : Zipper U) : Prop := {
  zs_ty v a b : sound (Z.(zip_tys) v a b) (λ _ σ, Rel σ v a b);
  zs_lt v a b : sound (Z.(zip_lifetimes) v a b) (λ _ σ, RelLt v (apply_lt σ a) (apply_lt σ b));
  zs_ct v a b : sound (Z.(zip_consts) v a b) (λ _ σ, RelCt σ v a b);
  zs_binders T (F : Fold T) (R : Valuation → Variance → T → T → Prop) zip v (a b : Binders T) :
    (∀ v x y, sound (zip v x y) (λ _ σ, R σ v x y)) →
    sound (Z.(zip_binders) zip v a b) (λ _ σ, RelBinders low (R σ) v a b)
}.

Lemma zip_eq_sound {A} `{EqDecision A} (a b : A) : sound (zip_eq a b) (λ _ _, a = b).
Proof. unfold zip_eq. case_decide; [by apply sound_ret|apply sound_err]. Qed.

Section Zip.
Context (Z : Zipper U) (HZ : zipper_sound Z).

Lemma zip_arg_sound v a b : sound (zip_arg Z v a b) (λ _ σ, RelArg σ v a b).
Proof.
  destruct a, b; simpl; try apply sound_err; (eapply sound_weaken; [by apply HZ|]);
    intros [] σ Hr; by constructor.
Qed.

Lemma zip_substs_from_sound v vs i s s' :
  sound (zip_substs_from Z v vs i s s') (λ _ σ, RelSubst σ v vs i s s').
Proof.
  revert i s'. induction s as [|a s IH]; intros i [|b s'];
    try (apply sound_ret; intros σ; constructor). cbn [zip_substs_from].
  apply (sound_bind _ _ _ _ _ (λ w _, variance_is vs i w)).
  { unfold variance_at, variance_is. destruct vs as [l|]; [|by apply sound_ret].
    destruct (l !! i); [by apply sound_ret|apply sound_panic]. }
  intros w. eapply sound_bind; [apply zip_arg_sound|]. intros [].
  eapply sound_weaken; [apply IH|]. intros [] σ Hs Ha Hw. by econstructor.
Qed.

Lemma zip_substs_sound v vs s s' :
  sound (zip_substs Z v vs s s') (λ _ σ, RelSubst σ v vs 0 s s').
Proof. apply zip_substs_from_sound. Qed.

Lemma zip_iter_sound {A} (f : A → A → SE U unit) (R : Valuation → A → A → Prop) l k :
  (∀ x y, sound (f x y) (λ _ σ, R σ x y)) → sound (zip_iter f l k) (λ _ σ, Zipped (R σ) l k).
Proof.
  intros Hf. revert k. induction l as [|x l IH]; intros [|y k]; simpl;
    try (apply sound_ret; intros σ; constructor).
  eapply sound_bind; [apply Hf|]. intros []. eapply sound_weaken; [apply IH|].
  intros [] σ Hl Hx. by constructor.
Qed.

Lemma fn_parameters_eq s ps r : fn_parameters s = Val ps → fn_return s = Val r → s = ps ++ [r].
Proof.
  unfold fn_parameters, fn_return. destruct s as [|a s _] using rev_ind; [done|].
  rewrite last_snoc, length_app, Nat.add_sub, take_app_length. intros Hp [= <-].
  destruct s; by injection Hp as <-.
Qed.

(** What [zip_fn_subst] relates. *)
Definition RelFnSubst (σ : Valuation) (v : Variance) (x y : Substitution) : Prop :=
  ∃ ps r ps' r', x = ps ++ [r] ∧ y = ps' ++ [r'] ∧
    Zipped (RelArg σ (xform v Contravariant)) ps ps' ∧ RelArg σ v r r'.

Lemma zip_fn_subst_sound v a b : sound (zip_fn_subst Z v a b) (λ _ σ, RelFnSubst σ v a b).
Proof.
  unfold zip_fn_subst.
  eapply (sound_bind _ _ _ _ _ (λ ps _, fn_parameters a = Val ps)); [by apply sound_lift|]. intros ps.
  eapply (sound_bind _ _ _ _ _ (λ ps _, fn_parameters b = Val ps)); [by apply sound_lift|]. intros ps'.
  eapply sound_bind; [apply zip_iter_sound; intros; apply zip_arg_sound|]. intros [].
  eapply (sound_bind _ _ _ _ _ (λ r _, fn_return a = Val r)); [by apply sound_lift|]. intros r.
  eapply (sound_bind _ _ _ _ _ (λ r _, fn_return b = Val r)); [by apply sound_lift|]. intros r'.
  eapply sound_weaken; [apply zip_arg_sound|]. intros [] σ Hr Hrb Hra Hps Hpb Hpa.
  exists ps, r, ps', r'. split_and!; [by apply fn_parameters_eq..|exact Hps|exact Hr].
Qed.

Lemma zip_alias_sound v a b : sound (zip_alias Z v a b) (λ _ σ, RelAlias σ v a b).
Proof.
  unfold zip_alias. destruct a, b; try apply sound_err;
    (eapply sound_bind; [apply zip_eq_sound|]; intros []; eapply sound_weaken;
     [apply zip_substs_sound|]; intros [] σ Hs ->; by constructor).
Qed.

Lemma zip_where_sound v a b : sound (zip_where Z v a b) (λ _ σ, RelWhere σ v a b).
Proof.
  unfold zip_where. destruct a as [[id s]| | |], b as [[id' s']| | |]; try apply sound_err;
    unfold zip_trait_ref;
    (eapply sound_bind; [first [apply zip_eq_sound|apply zip_alias_sound|by apply HZ]|]);
    intros []; (eapply sound_weaken; [first [apply zip_substs_sound|by apply HZ]|]);
    intros [] σ Hs Hr; simpl in *; subst; by constructor.
Qed.

(** What [zip_dyn] relates under the binders of the bounds. *)
Definition RelBounds (σ : Valuation) (v : Variance) (x y : list QuantifiedWhereClause) : Prop :=
  length x = length y ∧ Zipped (RelBinders low (RelWhere σ) v) x y.

Lemma zip_dyn_sound v bs l bs' l' :
  sound (zip_dyn Z v (bs, l) (bs', l')) (λ _ σ,
    RelBinders low (RelBounds σ) (xform v Invariant) bs bs' ∧
    RelLt (xform v Contravariant) (apply_lt σ l) (apply_lt σ l')).
Proof.
  unfold zip_dyn. eapply sound_bind; [apply (zs_binders Z HZ _ _ RelBounds)|].
  - intros w x y. unfold zip_slice. case_decide as Hl; [|apply sound_err].
    eapply sound_weaken; [apply (zip_iter_sound _ (λ σ, RelBinders low (RelWhere σ) w))|].
    + intros p q. apply (zs_binders Z HZ _ _ RelWhere), zip_where_sound.
    + by split.
  - intros []. eapply sound_weaken; [by apply HZ|]. by split.
Qed.
End Zip.

(** ** Normalization *)

Lemma normalize_inner_sound σ t ty n :
  solves_ena σ t.(unify) → normalize_ty_shallow_inner t ty = Val n →
  apply_ty σ ty = apply_ty σ (default ty n).
Proof.
  intros Hs. unfold normalize_ty_shallow_inner, normalize_shallow_with, probe_var.
  destruct ty; simpl; try (by intros [= <-]). destruct (Hs v) as [_ Hv].
  destruct (ena_probe_value _ _) as [|b]; [by intros [= <-]|].
  destruct b; simpl; intros Hn; simplify_eq. exact Hv.
Qed.

Lemma normalize_ty_sound t :
  sound (normalize_or (E:=E) normalize_ty_shallow t) (λ t' σ, apply_ty σ t = apply_ty σ t').
Proof.
  unfold normalize_or. eapply (sound_bind _ _ _ _ _ (λ n σ, apply_ty σ t = apply_ty σ (default t n)));
    [|intros n; by apply sound_ret].
  apply sound_read. intros tbl n σ Hn Hs. unfold normalize_ty_shallow in Hn. inv_outcome Hn.
  pose proof (normalize_inner_sound σ tbl t x Hs Hx) as H1. destruct x as [t1|]; [|by inv_outcome Hn; subst].
  inv_outcome Hn. subst n. simpl in *. rewrite H1. by eapply normalize_inner_sound.
Qed.

Lemma normalize_lifetime_sound l :
  sound (read_table (E:=E) (λ t, normalize_lifetime_shallow t l))
    (λ n σ, apply_lt σ l = apply_lt σ (default l n)).
Proof.
  apply sound_read. intros tbl n σ Hn Hs.
  unfold normalize_lifetime_shallow, normalize_shallow_with, probe_var in Hn.
  destruct l; simpl in Hn; try (by injection Hn as <-). destruct (Hs v) as [_ Hv].
  destruct (ena_probe_value _ _) as [|b]; [by injection Hn as <-|].
  destruct b; simpl in Hn; simplify_eq. exact Hv.
Qed.

Lemma normalize_const_sound c :
  sound (read_table (E:=E) (λ t, normalize_const_shallow t c))
    (λ n σ, apply_ct σ c = apply_ct σ (default c n)).
Proof.
  apply sound_read. intros tbl n σ Hn Hs.
  unfold normalize_const_shallow, normalize_shallow_with, probe_var in Hn.
  destruct c as [ty []]; simpl in Hn; try (by injection Hn as <-). destruct (Hs v) as [_ Hv].
  destruct (ena_probe_value _ _) as [|b]; [by injection Hn as <-|].
  destruct b; simpl in Hn; simplify_eq. exact Hv.
Qed.

(** ** Lifetimes and constants *)

Lemma RelLt_invert v a b : RelLt v a b → RelLt (invert_variance v) b a.
Proof. intros Hr. apply RelLt_flip. by destruct v. Qed.

Lemma unify_lifetime_var_sound v var l ui :
  sound (unify_lifetime_var env v var l ui) (λ _ σ, RelLt v (σ.(val_lt) var) (apply_lt σ l)).
Proof.
  unfold unify_lifetime_var. eapply sound_bind; [by apply refines_read|]. intros u.
  destruct (can_see _ _ && _).
  - eapply sound_weaken; [apply sound_unify_var_value|]. intros [] σ Hv _. by left.
  - eapply sound_weaken; [apply sound_push_outlives|]. intros [] σ Hv _. exact Hv.
Qed.

Lemma relate_lifetime_kinds_sound v a b :
  sound (relate_lifetime_kinds env v a b) (λ _ σ, RelLt v (apply_lt σ a) (apply_lt σ b)).
Proof.
  unfold relate_lifetime_kinds.
  destruct a as [bv|x|[]| | |], b as [bv'|y|[]| | |]; try apply sound_panic;
    try (by apply sound_ret; intros; left).
  all: try (by (case_decide as Hd; [apply sound_ret; intros; rewrite Hd; by left|apply sound_push_outlives])).
  all: try apply unify_lifetime_var_sound.
  all: try (eapply sound_weaken; [apply unify_lifetime_var_sound|]; intros [] σ Hr; by apply RelLt_flip).
  eapply sound_weaken; [apply sound_unify_var_var|]. intros [] σ (_ & Hl & _). by left.
Qed.

Lemma relate_lifetime_sound v a b :
  sound (relate_lifetime_lifetime env v a b) (λ _ σ, RelLt v (apply_lt σ a) (apply_lt σ b)).
Proof.
  unfold relate_lifetime_lifetime. eapply sound_bind; [apply normalize_lifetime_sound|]. intros n_a.
  eapply sound_bind; [apply normalize_lifetime_sound|]. intros n_b.
  eapply sound_weaken; [apply relate_lifetime_kinds_sound|]. simpl. intros [] σ Hr -> ->. exact Hr.
Qed.

Lemma unify_var_const_sound fuel var c :
  sound (unify_var_const env fuel var c) (λ _ σ, σ.(val_ct) var = apply_ct σ c).
Proof.
  unfold unify_var_const. eapply sound_bind; [by apply refines_read|]. intros u.
  eapply sound_bind; [apply occurs_check_const|]. intros c1.
  eapply sound_weaken; [apply sound_unify_var_value|]. simpl. intros [] σ Hv Hc _. by rewrite Hc.
Qed.

Lemma relate_const_values_sound fuel a b :
  sound (relate_const_values db env fuel a b)
    (λ _ σ, ∀ v, Rel σ v (const_ty a) (const_ty b) → RelCt σ v a b).
Proof.
  destruct a as [ta va], b as [tb vb]. unfold relate_const_values. simpl.
  destruct va as [|x|p|c], vb as [|y|q|c']; try apply sound_panic; try apply sound_err.
  - eapply sound_weaken; [apply sound_unify_var_var|]. intros [] σ (_ & _ & Hc) v _.
    by apply RelCt_same.
  - eapply sound_weaken; [apply unify_var_const_sound|]. intros [] σ Hc v _. by apply RelCt_same.
  - eapply sound_weaken; [apply unify_var_const_sound|]. intros [] σ Hc v _. by apply RelCt_same.
  - eapply sound_weaken; [apply unify_var_const_sound|]. intros [] σ Hc v _. by apply RelCt_same.
  - eapply sound_weaken; [apply zip_eq_sound|]. intros [] σ -> v Ht. by apply RelCt_placeholder.
  - eapply sound_weaken; [apply unify_var_const_sound|]. intros [] σ Hc v _. by apply RelCt_same.
  - destruct (db_const_eq db ta c c') eqn:Hd; [|apply sound_err]. apply sound_ret.
    intros σ v Ht. by apply RelCt_concrete.
Qed.

Lemma relate_const_sound fuel Z v a b : zipper_sound Z →
  sound (relate_const_const db env fuel Z v a b) (λ _ σ, RelCt σ v a b).
Proof.
  intros HZ. unfold relate_const_const.
  eapply sound_bind; [apply normalize_const_sound|]. intros n_a.
  eapply sound_bind; [apply normalize_const_sound|]. intros n_b.
  eapply sound_bind; [by apply HZ|]. intros [].
  eapply sound_weaken; [apply relate_const_values_sound|]. simpl. intros [] σ Hr Ht Hb Ha.
  eapply RelCt_value; [exact Ha|exact Hb|]. by apply Hr.
Qed.

(** ** Types *)

Lemma relate_var_ty_sound fuel Z v var k t : zipper_sound Z →
  sound (relate_var_ty db env fuel Z v var k t) (λ _ σ, Rel σ v (TyInferenceVar var k) t).
Proof.
  intros HZ. unfold relate_var_ty. match goal with |- context [if ?b then _ else _] => destruct b end; [|apply sound_err].
  eapply sound_bind; [by apply refines_read|]. intros u.
  eapply sound_bind; [apply occurs_check_ty|]. intros t1.
  eapply sound_bind; [apply generalize_refines|]. intros g.
  eapply sound_bind; [apply sound_unify_var_value|]. intros [].
  eapply sound_weaken; [by apply HZ|]. simpl. intros [] σ Hr Hv _ Ht _.
  exact (Rel_value _ _ _ _ v (TyInferenceVar var k) g t t1 Hv Ht Hr).
Qed.

Lemma relate_alias_sound Z v alias t : zipper_sound Z →
  sound (relate_alias_ty env Z v alias t) (λ _ σ, Rel σ v (TyAlias alias) t).
Proof.
  intros HZ. unfold relate_alias_ty.
  assert (∀ v', sound (x ← fresh_var universe_root;
    _ ← push_goal env (alias_eq_goal alias (var_to_ty x)); Z.(zip_tys) v' (var_to_ty x) t)
    (λ _ σ, Rel σ v' (TyAlias alias) t)).
  { intros v'. eapply sound_bind; [apply fresh_var_refines|]. intros x.
    eapply sound_bind; [apply sound_push_goal|]. intros [].
    eapply sound_weaken; [by apply HZ|]. simpl. intros [] σ Hr Hg _. by eapply Rel_alias. }
  destruct v; [done| |done].
  eapply sound_weaken; [apply sound_push_goal|]. intros [] σ Hg. eapply Rel_alias; [exact Hg|by apply Rel_same].
Qed.

Lemma relate_vars_sound Z v var1 kind1 var2 kind2 :
  let a := TyInferenceVar var1 kind1 in let b := TyInferenceVar var2 kind2 in
  sound (relate_vars env Z v a b var1 kind1 var2 kind2)
    (λ _ σ, Rel σ v a b).
Proof.
  intros a b. unfold relate_vars.
  assert (sound (unify_var_var var1 var2) (λ _ σ, Rel σ v a b)) as Hvv.
  { eapply sound_weaken; [apply sound_unify_var_var|]. intros [] σ (Ht & _). by apply Rel_same. }
  repeat case_decide; try done; try apply sound_err.
  - destruct v; [|done|]; (eapply sound_weaken; [apply sound_push_goal|]); intros [] σ Hg; [exact Hg|].
    by apply Rel_flip.
  - eapply sound_weaken; [apply sound_unify_var_value|]. intros [] σ Hv. by apply Rel_same.
  - eapply sound_weaken; [apply sound_unify_var_value|]. intros [] σ Hv. by apply Rel_same.
Qed.

Lemma same_id_sound {A} `{EqDecision A} (x y : A) (m : SE U unit) Q :
  (x = y → sound m Q) → sound (if decide (x = y) then m else se_err) Q.
Proof. intros Hm. case_decide; [auto|apply sound_err]. Qed.

Lemma relate_heads_sound Z v a b : zipper_sound Z →
  sound (relate_heads db Z v a b) (λ _ σ, Rel σ v a b).
Proof.
  intros HZ. unfold relate_heads.
  destruct a, b; try apply sound_err; try (by apply sound_ret; intros; apply Rel_same).
  all: try (apply same_id_sound; intros ->).
  all: try (eapply sound_weaken; [first [by apply zip_substs_sound|by apply HZ]|];
    intros [] σ Hs; by constructor).
  all: try (by apply sound_ret; intros; apply Rel_same).
  all: (eapply sound_bind; [by apply HZ|]; intros []; eapply sound_weaken; [by apply HZ|];
    intros [] σ ??; by constructor).
Qed.

Lemma relate_alias_flip_sound Z v alias t : zipper_sound Z →
  sound (relate_alias_ty env Z (invert_variance v) alias t) (λ _ σ, Rel σ v t (TyAlias alias)).
Proof.
  intros HZ. eapply sound_weaken; [by apply relate_alias_sound|]. intros [] σ Hr. by apply Rel_flip.
Qed.

Lemma relate_var_flip_sound fuel Z v var k t : zipper_sound Z →
  sound (relate_var_ty db env fuel Z (invert_variance v) var k t)
    (λ _ σ, Rel σ v t (TyInferenceVar var k)).
Proof.
  intros HZ. eapply sound_weaken; [by apply relate_var_ty_sound|]. intros [] σ Hr. by apply Rel_flip.
Qed.

Lemma relate_kinds_sound fuel Z v a b : zipper_sound Z →
  sound (relate_kinds db env fuel Z v a b) (λ _ σ, Rel σ v a b).
Proof.
  intros HZ.
  destruct a, b; unfold relate_kinds; try apply sound_err; try apply sound_panic;
    try (by apply relate_heads_sound); try (by apply relate_var_ty_sound);
    try (by apply relate_var_flip_sound); try (by apply relate_alias_sound);
    try (by apply relate_alias_flip_sound).
  - eapply sound_weaken; [apply zip_eq_sound|]. intros [] σ ->. by apply Rel_same.
  - eapply sound_weaken; [by apply zip_dyn_sound|]. intros [] σ [Hb Hl]. by constructor.
  - case_decide as Hs; [subst|apply sound_err].
    eapply sound_weaken; [apply (zs_binders Z HZ _ _ RelFnSubst); by apply zip_fn_subst_sound|].
    intros [] σ Hr. by apply Rel_fn.
  - apply relate_vars_sound.
Qed.

Lemma relate_ty_ty_sound fuel Z v a b : zipper_sound Z →
  sound (relate_ty_ty db env fuel Z v a b) (λ _ σ, Rel σ v a b).
Proof.
  intros HZ. unfold relate_ty_ty. eapply sound_bind; [apply normalize_ty_sound|]. intros a'.
  eapply sound_bind; [apply normalize_ty_sound|]. intros b'. case_decide as Hab.
  - apply sound_ret. intros σ Hb Ha. apply Rel_same. by rewrite Ha, Hb, Hab.
  - eapply sound_weaken; [by apply relate_kinds_sound|]. intros [] σ Hr Hb Ha.
    exact (Rel_value _ _ _ _ v a a' b b' Ha Hb Hr).
Qed.

(** ** Binders: new universes and variables *)

Lemma fresh_subst_ena bs (t : InferenceTable E) s t' :
  fresh_subst bs t = (s, t') → ena_wf t.(unify) →
  ena_wf t'.(unify) ∧ ∀ σ, solves_ena σ t'.(unify) → solves_ena σ t.(unify).
Proof.
  revert t s t'. induction bs as [|b bs IH]; intros t s t'; simpl; [intros [= <- <-]; auto|].
  unfold new_variable. destruct (ena_new_key _ _) as [x e] eqn:He.
  destruct (fresh_subst bs _) as [s1 t1] eqn:Hf. intros [= <- <-] Hwf.
  pose proof (new_key_wf _ (Unbound b.(kvalue)) Hwf) as Hwf1.
  pose proof (λ σ, new_key_refines σ _ (Unbound b.(kvalue)) Hwf) as Hr. rewrite He in *. simpl in *.
  destruct (IH _ _ _ Hf Hwf1) as [? Hs]. split; [done|]. auto.
Qed.

Lemma fresh_subst_shape bs (t : InferenceTable E) s t' :
  fresh_subst bs t = (s, t') →
  t'.(max_universe) = t.(max_universe) ∧ Forall2 of_kind (kind <$> bs) s.
Proof.
  revert t s t'. induction bs as [|[k ui] bs IH]; intros t s t'; simpl; [by intros [= <- <-]|].
  unfold new_variable. destruct (ena_new_key _ _) as [x e].
  destruct (fresh_subst bs _) as [s1 t1] eqn:Hf. intros [= <- <-].
  destruct (IH _ _ _ Hf) as [Hm Hk]. split; [exact Hm|]. constructor; [by destruct k|done].
Qed.

Lemma instantiate_sound {T} (f : ST (InferenceTable E) T) (Q : T → Prop) :
  (∀ t a t', f t = Val (a, t') → ena_wf t.(unify) → low ≤ t.(max_universe).(counter) →
    Q a ∧ ena_wf t'.(unify) ∧ low ≤ t'.(max_universe).(counter) ∧
    ∀ σ, solves_ena σ t'.(unify) → solves_ena σ t.(unify)) →
  sound (instantiate f) (λ a _, Q a).
Proof.
  intros Hf u a u' [Hu Hlow]. unfold instantiate. destruct (f _) as [[a1 t1]| | |] eqn:Ht; intros [= <- <-].
  destruct (Hf _ _ _ Ht Hu Hlow) as (? & ? & ? & Hs). split; [by split|]. intros σ [Hσ Hg].
  split; [|done]. split; [by apply Hs|done].
Qed.

Lemma universally_sound {T} `{Fold T} (b : Binders T) :
  sound (instantiate (E:=E) (instantiate_binders_universally b)) (λ x _, universally low b x).
Proof.
  apply instantiate_sound. intros t a t' Ht Hwf Hlow. unfold instantiate_binders_universally in Ht.
  destruct (match b.(binders) with [] => _ | _ => _ end) as [ui t1] eqn:Hu.
  destruct (Subst_apply _ _) as [x| | |] eqn:Hx; try discriminate Ht. injection Ht as <- <-.
  assert ((binders b = [] ∨ low < ui.(counter)) ∧ t1.(unify) = t.(unify) ∧
    low ≤ t1.(max_universe).(counter)) as (Hui & Hsame & Hlow').
  { destruct (binders b); injection Hu as <- <-; [auto|]. simpl. split_and!; [right|done|]; lia. }
  split_and!; [by exists ui|by rewrite Hsame|done|by rewrite Hsame].
Qed.

Lemma existentially_sound {T} `{Fold T} (b : Binders T) :
  sound (instantiate (E:=E) (instantiate_binders_existentially b)) (λ x _, existentially b x).
Proof.
  apply instantiate_sound. intros t a t' Ht Hwf Hlow.
  unfold instantiate_binders_existentially, instantiate_in in Ht.
  destruct (fresh_subst _ t) as [s t1] eqn:Hs.
  destruct (subst_apply _ _) as [x| | |] eqn:Hx; try discriminate Ht. injection Ht as <- <-.
  destruct (fresh_subst_ena _ _ _ _ Hs Hwf). destruct (fresh_subst_shape _ _ _ _ Hs) as [Hm Hk].
  split_and!; [|done|by rewrite Hm|done]. exists s. split; [|exact Hx].
  rewrite <- list_fmap_compose in Hk. by rewrite list_fmap_id in Hk.
Qed.

Lemma relate_binders_sound {T} `{Fold T} (R : Valuation → Variance → T → T → Prop) zip v
    (a b : Binders T) :
  (∀ v x y, sound (zip v x y) (λ _ σ, R σ v x y)) →
  sound (relate_binders (E:=E) zip v a b) (λ _ σ, RelBinders low (R σ) v a b).
Proof.
  intros Hz. unfold relate_binders.
  eapply (sound_bind _ _ _ _ _ (λ _ σ, v ≠ Covariant →
    ∃ x y, universally low a x ∧ existentially b y ∧ R σ Contravariant x y)).
  - case_bool_decide; [|apply sound_ret; intros σ Hv; destruct v; naive_solver].
    eapply sound_bind; [apply universally_sound|intros x].
    eapply sound_bind; [apply existentially_sound|intros y].
    eapply sound_weaken; [apply Hz|]. intros [] σ Hr Hy Hx _. by exists x, y.
  - intros []. case_bool_decide; [|apply sound_ret; intros σ Hc; split; [done|]; destruct v; naive_solver].
    eapply sound_bind; [apply universally_sound|intros y].
    eapply sound_bind; [apply existentially_sound|intros x].
    eapply sound_weaken; [apply Hz|]. intros [] σ Hr Hx Hy Hc. split; [done|]. intros _. by exists x, y.
Qed.

(** ** The unifier *)

Lemma unifier_sound fuel : zipper_sound (unifier db env fuel).
Proof.
  induction fuel as [|fuel IH]; constructor; intros; simpl; try apply sound_fuel.
  - by apply relate_ty_ty_sound.
  - apply relate_lifetime_sound.
  - by apply relate_const_sound.
  - by apply relate_binders_sound.
Qed.

(** ** [relate] *)

Lemma retained_goals σ (t : InferenceTable E) gs :
  solves_ena σ t.(unify) →
  solves_goals db ME low σ (filter (λ g, retain_goal t g) gs) → solves_goals db ME low σ gs.
Proof.
  intros Hσ Hgs. apply Forall_forall. intros g Hg. unfold solves_goals in Hgs. rewrite Forall_forall in Hgs.
  destruct (retain_goal t g) eqn:Hr.
  { apply Hgs, list_elem_of_filter. by rewrite Hr. }
  unfold retain_goal in Hr. destruct (env_goal g) as [| | | | |a b| |]; try done.
  apply bool_decide_eq_false, dec_stable in Hr.
  assert (∀ x, apply_ty σ (default x (ty_root t x)) = apply_ty σ x) as Hroot.
  { intros x. unfold ty_root. destruct x; try done. destruct (Hσ v) as [(Hv & _) _]. exact (eq_sym Hv). }
  simpl. apply Rel_same. by rewrite <- (Hroot a), <- (Hroot b), Hr.
Qed.

Lemma relate_gives {T} zip (Q : T → T → Variance → Valuation → Prop) fuel v a b t goals t' :
  (∀ Z, zipper_sound Z → ∀ v a b, sound (zip Z v a b) (λ _ σ, Q a b v σ)) →
  ena_wf t.(unify) → low ≤ t.(max_universe).(counter) →
  relate fuel db env zip v a b t = (Val goals, t') →
  ena_wf t'.(unify) ∧ ∀ σ, solves_ena σ t'.(unify) → solves_goals db ME low σ goals →
    solves_ena σ t.(unify) ∧ Q a b v σ.
Proof.
  intros Hzip Hwf Hlow. unfold relate.
  destruct (zip (unifier db env fuel) v a b (mkUnifier t [])) as [[[]| | |] u] eqn:Hu; intros [= <- <-].
  destruct (Hzip _ (unifier_sound fuel) v a b (mkUnifier t []) tt u (conj Hwf Hlow) Hu) as [[? _] Hs].
  split; [done|]. intros σ Hσ Hg. destruct (Hs σ) as [[Ht _] HQ]; [|done].
  split; [done|]. by eapply retained_goals.
Qed.
End Relate.

(** ** The properties *)

(** C2. Unification is sound: when [relate] succeeds on two generic arguments,
    every valuation that solves the new table and the goals that it leaves solves
    the old table as well, and gives the arguments values that are equal, or related with the
    variance, up to aliases and the types that they are equal to: the same heads, arguments related with the variances of their places,
    constants of related types, and under the binders of [fn] and [dyn] types
    related parameters, results and bounds, for placeholders of a universe that the
    old table does not have.  The meaning of outlives and alias goals is any one for
    which outliving is antisymmetric. *)
Theorem relate_sound {E} `{EnaLaws E} (db : UnificationDatabase) (ME : Meaning) (env : Environment)
    (fuel : nat) (v : Variance) (a b : GenericArg) (t t' : InferenceTable E) goals :
  let low := t.(max_universe).(counter) in
  ena_wf t.(unify) → relate fuel db env (λ Z, zip_arg Z) v a b t = (Val goals, t') →
  ena_wf t'.(unify) ∧ ∀ σ, solves_ena σ t'.(unify) → solves_goals db ME low σ goals →
    solves_ena σ t.(unify) ∧ RelArg db ME low σ v a b.
Proof.
  intros low Hwf. apply (relate_gives db ME low env (λ Z, zip_arg Z)
    (λ a b v σ, RelArg db ME low σ v a b)); [|done..].
  intros Z HZ. by apply zip_arg_sound.
Qed.

(** A unification that fails leaves the inference table as it was. *)
Theorem relate_failure_rolls_back {E} `{EnaLaws E} {T} (db : UnificationDatabase) (env : Environment)
    (zip : Zipper (Unifier E) → Variance → T → T → SE (Unifier E) unit)
    (fuel : nat) (v : Variance) (a b : T) (t t' : InferenceTable E) e :
  relate fuel db env zip v a b t = (Exn e, t') → t' = t.
Proof.
  unfold relate. destruct (zip _ _ _ _ _) as [[] u]; intros [=]; subst.
  unfold rollback_to, snapshot. simpl. rewrite rollback_snapshot. by destruct t.
Qed.

(** ** Witnesses

    [&'static ?0 <: ?1] with [?0] and [?1] unbound makes [?1 := &'?2 ?3] with the
    goals ['static: '?2] and [?0 <: ?3]. *)

Definition sample_db : UnificationDatabase :=
  {| fn_def_variance _ := []; adt_variance _ := []; db_const_eq _ c1 c2 := (c1 =? c2)%N |}.

Definition sample_unify_table : InferenceTable UnionFind.t :=
  let t := table_new in
  let '(_, t) := new_variable universe_root t in
  let '(_, t) := new_variable universe_root t in t.

Definition sample_a : GenericArg := ArgTy (TyRef Not LtStatic (TyInferenceVar 0 General)).
Definition sample_b : GenericArg := ArgTy (TyInferenceVar 1 General).
Definition sample_relate := relate 5 sample_db [] (λ Z, zip_arg Z) Covariant sample_a sample_b sample_unify_table.

Definition sample_meaning : Meaning.
Proof. refine {| outlives a b := a = b; alias_eq _ _ := False |}. by intros a b ->. Defined.

Definition sample_valuation : Valuation := {|
  val_ty v := match v with 1 => TyRef Not LtStatic TyStr | _ => TyStr end;
  val_lt _ := LtStatic;
  val_ct _ := mkConst TyStr (CvConcrete 0)
|}.

Lemma relate_sound_witness :
  ∃ goals t', sample_relate = (Val goals, t') ∧ length goals = 2 ∧
    RelArg sample_db sample_meaning 0 sample_valuation Covariant sample_a sample_b.
Proof.
  eexists _, _. split; [vm_compute; reflexivity|]. split; [reflexivity|].
  refine (proj2 (proj2 (relate_sound sample_db sample_meaning [] 5 Covariant sample_a sample_b
    sample_unify_table _ _ _ _) sample_valuation _ _)).
  - split; [done|]. intros [|[|a]] r; simpl; intros; simplify_eq; done.
  - vm_compute. reflexivity.
  - intros [|[|[|[|v]]]]; by split.
  - repeat constructor.
Defined.

Lemma relate_failure_rolls_back_witness :
  relate 5 sample_db [] (λ Z, zip_tys Z) Invariant TyStr TyNever sample_unify_table
    = (Exn mkNoSolution, sample_unify_table) ∧ sample_unify_table = sample_unify_table.
Proof.
  split; [vm_compute; reflexivity|].
  apply (relate_failure_rolls_back sample_db [] (λ Z, zip_tys Z) 5 Invariant TyStr TyNever
    _ _ mkNoSolution). vm_compute. reflexivity.
Defined.
