(* ===== verification/OccursThm.v ===== *)
(** * The occurs check

    A type that passes the occurs check of a variable can be its value: it has
    no bound inference variables, the variable does not occur in it, and all its
    placeholders and variables are in universes that the variable can see. *)

From stdpp Require Import base list numbers.
From S2P Require Import Prelude Ir Fold FoldLaws Shift ShiftThm Ena Infer Visit Zip Unify Valuation UnifySound.

Section Occurs.
Context {E : Type} `{EnaLaws E}.
Context (env : Environment) (self_var : InferenceVar) (ui : UniverseIndex).
Abbreviation U := (Unifier E).
Abbreviation ena u := (u.(utable).(unify)).
Abbreviation OC n := (OccursCheck env n self_var ui).
Implicit Types u : U.


(** [v] is unbound, in a universe that [ui] can see. *)
Definition unbound_within u (v : InferenceVar) : Prop :=
  ∃ w, ena_probe_value (ena u) v = Unbound w ∧ w.(counter) ≤ ui.(counter).

Definition leaf_within u (l : Leaf) : Prop :=
  leaf_const_ground l ∧
  match l with
  | LeafTyInfer v _ | LeafCtInfer _ v =>
      unbound_within u v ∧ ena_find (ena u) v ≠ ena_find (ena u) self_var
  | LeafLtInfer v => unbound_within u v
  | LeafTyPlaceholder p | LeafLtPlaceholder p | LeafCtPlaceholder _ p =>
      p.(Ir.ui).(counter) ≤ ui.(counter)
  | LeafTyVar bv d | LeafLtVar bv d | LeafCtVar _ bv d => bv.(debruijn) < d
  | LeafEmpty _ => True
  end.

(** The values of variables have constants of ground types only. *)
Definition occurs_inv u : Prop :=
  ena_wf (ena u) ∧
  ∀ v b, ena_probe_value (ena u) v = Bound b → Forall leaf_const_ground (leaves_arg b INNERMOST).

(** The check keeps the classes and the values.  A variable of the table keeps its
    universe, or is moved from a universe above [ui] to [ui]; the variables that
    the check makes are in [ui]. *)
Record occurs_le u u' : Prop := {
  ole_find v : ena_find (ena u') v = ena_find (ena u) v;
  ole_bound v b : ena_probe_value (ena u') v = Bound b ↔ ena_probe_value (ena u) v = Bound b;
  ole_len : ena_len (ena u) ≤ ena_len (ena u');
  ole_unbound v w : ena_probe_value (ena u) v = Unbound w →
    ∃ w', ena_probe_value (ena u') v = Unbound w' ∧
      (w' = w ∨ w' = ui ∧ (ui.(counter) < w.(counter) ∨ ena_len (ena u) ≤ v < ena_len (ena u')));
  ole_new v : ena_len (ena u) ≤ v < ena_len (ena u') → ena_probe_value (ena u') v = Unbound ui
}.

#[local] Instance occurs_le_preorder : PreOrder occurs_le.
Proof.
  split.
  - intros u. split; [done|done|done| |lia]. intros v w Hw. exists w. auto.
  - intros u u1 u2 [F1 B1 L1 N1 V1] [F2 B2 L2 N2 V2]. split.
    + intros v. by rewrite F2.
    + intros v b. by rewrite B2.
    + lia.
    + intros v w Hw. destruct (N1 v w Hw) as (w1 & Hw1 & Hle1).
      destruct (N2 v w1 Hw1) as (w2 & Hw2 & Hle2). exists w2. split; [done|].
      destruct Hle1 as [->|[-> [?|?]]], Hle2 as [->|[-> [?|?]]]; auto; right; split; auto; lia.
    + intros v Hv. destruct (Nat.lt_ge_cases v (ena_len (ena u1))) as [Hv1|Hv1]; [|apply V2; lia].
      destruct (N2 v ui) as (w2 & -> & [->|[-> _]]); [apply V1; lia|done..].
Qed.

Lemma unbound_within_mono u u' v : occurs_le u u' → unbound_within u v → unbound_within u' v.
Proof.
  intros Hle (w & Hw & Hui). destruct (ole_unbound _ _ Hle v w Hw) as (w' & Hw' & Hc).
  exists w'. split; [done|]. destruct Hc as [->|[-> _]]; lia.
Qed.

Lemma leaf_within_mono u u' l : occurs_le u u' → leaf_within u l → leaf_within u' l.
Proof.
  intros Hle [Hg Hl]. split; [done|]. destruct l; try done.
  all: try (destruct Hl as [Hl Hf]; split; [by eapply unbound_within_mono|];
    by rewrite !(ole_find _ _ Hle)).
  by eapply unbound_within_mono.
Qed.

Lemma leaf_within_stable u n : shift_stable (leaf_within u) n.
Proof.
  split.
  - by intros l [Hg _].
  - intros bv d [_ ?] ?. simpl in *. lia.
  - intros bv d [_ ?] ?. simpl in *. lia.
  - intros ty bv d [_ ?] ?. simpl in *. lia.
  - intros bv d [_ ?] ?. split; [done|]. simpl in *. lia.
  - intros bv d [_ ?] ?. split; [done|]. simpl in *. lia.
  - intros ty bv d [? ?] ?. split; [done|]. simpl in *. lia.
Qed.

(** A closed term at a greater depth. *)
Lemma leaves_within_depth {T} `{FoldLaws T} u (t : T) d :
  Forall (leaf_within u) (leaves_of t INNERMOST) → Forall (leaf_within u) (leaves_of t d).
Proof.
  intros Ht. pose proof (shift_leaves (leaf_within u) t t d INNERMOST (leaf_within_stable u d)) as Hs.
  unfold INNERMOST in *. rewrite Nat.add_0_r in Hs. apply Hs; [|done].
  apply fold_closed; [apply Shifter_var_only|]. eapply Forall_impl; [exact Ht|].
  intros l [_ Hl]. destruct l; try done; by apply Nat.ltb_lt.
Qed.

(** *** The updates *)

Lemma promote_within u u' v w :
  occurs_inv u → ena_probe_value (ena u) v = Unbound w → promote ui w v u = (Val tt, u') →
  occurs_inv u' ∧ occurs_le u u' ∧ unbound_within u' v.
Proof.
  intros [Hwf Hg] Hw. unfold promote, universe_lt.
  destruct (Nat.ltb_spec ui.(counter) w.(counter)) as [Hlt|Hge].
  2: { intros [= <-]. split_and!; [done|reflexivity|]. by exists w. }
  unfold unify_var_value, ena_update.
  destruct (ena_unify_var_value _ _ _) as [e| | |] eqn:He; simpl; intros [= <-].
  destruct (Nat.lt_ge_cases v (ena_len (ena u))) as [Hv|Hv];
    [|by rewrite unify_var_value_out in He].
  pose proof (unify_var_value_spec (ena u) v (Unbound ui) Hwf Hv) as Hspec. rewrite Hw in Hspec.
  simpl in Hspec. destruct Hspec as (e1 & He1 & Hwf1 & Hlen & Hc).
  rewrite He1 in He. injection He as ->.
  assert (∀ x, ena_find e x = ena_find (ena u) x) as Hfind.
  { intros x. destruct (Nat.lt_ge_cases x (ena_len (ena u))); [by apply Hc|].
    rewrite !find_out by (done || lia). done. }
  assert (∀ x, ena_probe_value e x = ena_probe_value (ena u) x ∨
    ∃ w1, ena_probe_value (ena u) x = Unbound w1 ∧ ena_probe_value e x = Unbound ui ∧
      ui.(counter) < w1.(counter)) as Hprobe.
  { intros x. destruct (Nat.lt_ge_cases x (ena_len (ena u))) as [Hx|Hx].
    - destruct (Hc x Hx) as [_ ->]. case_decide as Hd; [|by left]. right. exists w.
      split; [by rewrite <- Hw; apply probe_find|]. split; [|done].
      f_equal. unfold universe_min. destruct w as [w], ui as [x']; simpl in *. f_equal. lia.
    - left. rewrite !probe_out by (done || lia). done. }
  split_and!.
  - split; [done|]. intros x b Hb. simpl in *. destruct (Hprobe x) as [Hp|(? & ? & Hp & _)]; rewrite Hp in Hb; [|done].
    by eapply Hg.
  - split; simpl; [done| |lia| |lia].
    + intros x b. destruct (Hprobe x) as [->|(? & -> & -> & _)]; done.
    + intros x w1 Hw1. destruct (Hprobe x) as [->|(w2 & Hw2 & -> & ?)]; eexists; split; try done; auto.
      rewrite Hw2 in Hw1. injection Hw1 as ->. auto.
  - simpl. exists ui. split; [|done]. simpl. destruct (Hc v Hv) as [_ ->]. rewrite decide_True by done.
    f_equal. unfold universe_min. destruct w as [w], ui as [x']; simpl in *. f_equal. lia.
Qed.

Lemma fresh_within u v u' :
  occurs_inv u → fresh_var ui u = (Val v, u') →
  occurs_inv u' ∧ occurs_le u u' ∧ unbound_within u' v.
Proof.
  intros [Hwf Hg]. unfold fresh_var, with_table, new_variable.
  destruct (ena_new_key _ _) as [x e] eqn:He. intros [= <- <-].
  pose proof (new_key_fst (ena u) (Unbound ui)) as Hx. pose proof (new_key_wf _ (Unbound ui) Hwf) as Hwf'.
  assert (∀ y, ena_find e y = ena_find (ena u) y) as Hfind.
  { intros y. pose proof (new_key_find (ena u) (Unbound ui) y Hwf) as Hf.
    pose proof (new_key_len (ena u) (Unbound ui)) as Hl. rewrite He in *. simpl in *.
    destruct (Nat.le_gt_cases y (ena_len (ena u))) as [Hy|Hy].
    - rewrite Hf by done. case_decide; [subst; by rewrite find_out|done].
    - rewrite !find_out; [done|done|lia|done|lia]. }
  assert (∀ y, ena_probe_value e y =
    if decide (y = ena_len (ena u)) then Unbound ui else ena_probe_value (ena u) y) as Hprobe.
  { intros y. pose proof (new_key_probe (ena u) (Unbound ui) y Hwf) as Hf.
    pose proof (new_key_len (ena u) (Unbound ui)) as Hl. rewrite He in *. simpl in *.
    destruct (Nat.le_gt_cases y (ena_len (ena u))) as [Hy|Hy]; [by apply Hf|].
    rewrite decide_False, !probe_out; [done|done|lia|done|lia|lia]. }
  pose proof (new_key_len (ena u) (Unbound ui)) as Hl.
  rewrite He in Hx, Hwf', Hl. simpl in *. subst x. split_and!.
  - split; [done|]. intros y b. simpl. rewrite Hprobe. case_decide; [done|apply Hg].
  - split; simpl; [done| |lia| |].
    + intros y b. rewrite Hprobe. case_decide; [|done]. subst. by rewrite probe_out.
    + intros y w Hw. rewrite Hprobe. case_decide; eexists; (split; [done|]); [right|auto].
      split; [done|]. right. lia.
    + intros y Hy. by rewrite Hprobe, decide_True by lia.
  - exists ui. simpl. rewrite Hprobe, decide_True by done. done.
Qed.

Lemma push_goal_within u u' g a :
  occurs_inv u → push_goal env g u = (Val a, u') → occurs_inv u' ∧ occurs_le u u'.
Proof.
  intros HI [= <- <-]. split; [done|]. split; simpl; [done|done|done| |lia]. intros v w Hw. exists w. auto.
Qed.

(** *** The callbacks *)

Definition occurs_family u : Family := leaf_family 0 (leaf_within u).

Definition occurs_spec (n : nat) : Prop :=
  LeafSpec wpSE (OC n) occurs_inv occurs_le occurs_family leaf_const_ground.

(** What a computation of terms gives. *)
Definition visible_within {A} (leaves : A → list Leaf) (m : SE U A) : Prop :=
  ∀ u a u', occurs_inv u → m u = (Val a, u') →
    occurs_inv u' ∧ occurs_le u u' ∧ Forall (leaf_within u') (leaves a).

Lemma within_ret {A} (leaves : A → list Leaf) a : (∀ u, Forall (leaf_within u) (leaves a)) →
  visible_within leaves (mret a).
Proof. intros Ha u b u' HI [= <- <-]. split_and!; [done|reflexivity|done]. Qed.

Lemma within_fail {A} (leaves : A → list Leaf) (m : SE U A) :
  (∀ u a u', m u ≠ (Val a, u')) → visible_within leaves m.
Proof. intros Hm u a u' _ Ha. by apply Hm in Ha. Qed.

Lemma value_within n (IH : ∀ k, n = S k → occurs_spec k) {A} `{FoldLaws A}
    (sel : GenericArg → Fallible A) (check : A → bool) b d :
  (∀ a, sel b = Val a → Forall leaf_const_ground (leaves_of a d)) →
  visible_within (λ y, leaves_of y d)
    (y ← se_lift (sel b);
     y ← match n with 0 => se_fuel | Datatypes.S k => fold_with (OC k) y d end;
     _ ← se_lift (assert (check y));
     mret y).
Proof.
  intros Hsel u y u' HI Hy.
  apply SE_bind_Val in Hy as (a & u1 & Ha & Hy). injection Ha as Ha <-.
  apply SE_bind_Val in Hy as (y1 & u2 & Hy1 & Hy).
  apply SE_bind_Val in Hy as ([] & u3 & Hc & Hy). injection Hc as _ <-. injection Hy as <- <-.
  destruct n as [|k]; [done|].
  destruct (fold_gives _ _ _ _ _ _ (IH k eq_refl) a d u (Hsel a Ha) HI y1 u2 Hy1) as (? & ? & Hl).
  split_and!; [done..|]. exact (lift_leaves 0 _ d _ _ Hl).
Qed.

Lemma probe_within {A} (leaves : A → list Leaf) v (mb : GenericArg → SE U A) (mu : UniverseIndex → SE U A) :
  (∀ b, Forall leaf_const_ground (leaves_arg b INNERMOST) → visible_within leaves (mb b)) →
  (∀ w u a u', occurs_inv u → ena_probe_value (ena u) v = Unbound w → mu w u = (Val a, u') →
    occurs_inv u' ∧ occurs_le u u' ∧ Forall (leaf_within u') (leaves a)) →
  visible_within leaves (λ u, match ena_probe_value (ena u) v with
    | Bound b => mb b u | Unbound w => mu w u end).
Proof.
  intros Hb Hu u a u' HI Ha. destruct (ena_probe_value (ena u) v) as [w|b] eqn:Hp.
  - by eapply Hu.
  - eapply Hb; [|done..]. by eapply HI.
Qed.

(** The case of an unbound variable: the promotion, then the variable. *)
Lemma unbound_case {A} (leaves : A → list Leaf) (a0 : A) v w u a u' :
  occurs_inv u → ena_probe_value (ena u) v = Unbound w →
  (_ ← promote ui w v; mret a0) u = (Val a, u') →
  (∀ u', unbound_within u' v → occurs_le u u' → Forall (leaf_within u') (leaves a0)) →
  occurs_inv u' ∧ occurs_le u u' ∧ Forall (leaf_within u') (leaves a).
Proof.
  intros HI Hw Ha Hl. apply SE_bind_Val in Ha as ([] & u1 & Hp & Ha). injection Ha as <- <-.
  destruct (promote_within u u1 v w HI Hw Hp) as (? & ? & ?). split_and!; [done..|]. by apply Hl.
Qed.

Lemma lifetime_ground l d : Forall leaf_const_ground (leaves_lifetime l d).
Proof. destruct l; simpl; repeat constructor. Qed.

Lemma placeholder_visible w : universe_lt ui w = false → w.(counter) ≤ ui.(counter).
Proof. unfold universe_lt. by intros ?%Nat.ltb_ge. Qed.

Lemma within_lifetime n (IH : ∀ k, n = S k → occurs_spec k) l d :
  visible_within (λ l', leaves_lifetime l' d) (fold_lifetime (OC n) l d).
Proof.
  assert (fold_lifetime (OC n) = super_fold_lifetime (OC n)) as -> by (clear IH; by destruct n).
  unfold super_fold_lifetime. destruct l as [bv|v|p| | |]; try (apply within_ret; intros ?; by repeat constructor).
  - destruct (shifted_out_to bv d) eqn:Hout.
    + apply within_fail. intros u a u'. by destruct n.
    + apply shifted_out_to_None in Hout. apply within_ret. intros u. by repeat constructor.
  - assert (fold_inference_lifetime (OC n) v d = λ u,
      match ena_probe_value (ena u) v with
      | Unbound w => (_ ← promote ui w v; mret (var_to_lifetime v)) u
      | Bound b => (y ← se_lift (assert_lifetime_ref b);
         y ← match n with 0 => se_fuel | Datatypes.S k => fold_with (OC k) y d end;
         _ ← se_lift (assert (negb (lifetime_needs_shift y))); mret y) u
      end) as -> by (clear IH; by destruct n).
    apply (probe_within (λ l', leaves_lifetime l' d) v).
    + intros b _. exact (value_within n IH (A:=Lifetime) assert_lifetime_ref
        (λ y, negb (lifetime_needs_shift y)) b d (λ a _, lifetime_ground a d)).
    + intros w u a u' HI Hw Ha. apply (unbound_case (λ l', leaves_lifetime l' d) _ v w u a u' HI Hw Ha). intros u1 Hu1 _. by repeat constructor.
  - assert (fold_free_placeholder_lifetime (OC n) p d =
      if universe_lt ui p.(Ir.ui) then
        tick_x ← fresh_var ui;
        _ ← push_lifetime_outlives_goals env Invariant (var_to_lifetime tick_x) (LtPlaceholder p);
        mret (var_to_lifetime tick_x)
      else mret (LtPlaceholder p)) as -> by (clear IH; by destruct n).
    destruct (universe_lt _ _) eqn:Hp; [|apply placeholder_visible in Hp; apply within_ret; by repeat constructor].
    intros u a u' HI Ha.
    apply SE_bind_Val in Ha as (x & u1 & Hx & Ha). apply SE_bind_Val in Ha as ([] & u2 & Hg & Ha).
    injection Ha as <- <-. destruct (fresh_within u x u1 HI Hx) as (HI1 & Hle1 & Hw1).
    apply SE_bind_Val in Hg as ([] & u3 & Hg1 & Hg2).
    destruct (push_goal_within _ _ _ _ HI1 Hg1) as [HI3 Hle3].
    destruct (push_goal_within _ _ _ _ HI3 Hg2) as [HI2 Hle2].
    split_and!; [done|by etrans; [|etrans]|]. apply Forall_singleton. split; [done|].
    do 2 (eapply unbound_within_mono; [done|]). exact Hw1.
Qed.

Lemma within_ty n (IH : ∀ k, n = S k → occurs_spec k) t d :
  match t with TyBoundVar _ | TyInferenceVar _ _ | TyPlaceholder _ => True | _ => False end →
  visible_within (λ t', leaves_ty t' d) (fold_ty (OC n) t d).
Proof.
  destruct t as [| | | | | | | | | | | | | | | | |p| | | |bv|v k]; try done; intros _; simpl.
  - assert (fold_free_placeholder_ty (OC n) p d =
      if universe_lt ui p.(Ir.ui) then se_err else mret (TyPlaceholder p)) as ->
      by (clear IH; by destruct n).
    destruct (universe_lt _ _) eqn:Hp; [apply within_fail; intros ???; discriminate|].
    apply placeholder_visible in Hp. apply within_ret. intros ?. by repeat constructor.
  - destruct (shifted_out_to bv d) eqn:Hout.
    + apply within_fail. intros u a u'. by destruct n.
    + apply shifted_out_to_None in Hout. apply within_ret. intros u. by repeat constructor.
  - assert (fold_inference_ty (OC n) v k d = λ u,
      match ena_probe_value (ena u) v with
      | Bound b => (y ← se_lift (assert_ty_ref b);
         y ← match n with 0 => se_fuel | Datatypes.S k => fold_with (OC k) y INNERMOST end;
         _ ← se_lift (assert (negb (ty_needs_shift y))); mret y) u
      | Unbound w =>
          (λ u, if ena_unioned (ena u) v self_var then se_err u
           else (_ ← promote ui w v; mret (var_to_ty_with_kind v k)) u) u
      end) as -> by (clear IH; by destruct n).
    apply (probe_within (λ t', leaves_ty t' d) v).
    + intros b Hb u y u' HI Hy.
      destruct (value_within n IH (A:=Ty) assert_ty_ref (λ y, negb (ty_needs_shift y)) b INNERMOST) with u y u'
        as (? & ? & Hl); [|done..|].
      { intros a Ha. destruct b; try discriminate Ha. injection Ha as <-. exact Hb. }
      split_and!; [done..|]. exact (leaves_within_depth (T:=Ty) u' y d Hl).
    + intros w u a u' HI Hw. unfold ena_unioned. case_bool_decide as Hun; [done|]. intros Ha.
      apply (unbound_case (λ t', leaves_ty t' d) _ v w u a u' HI Hw Ha). intros u1 Hu1 Hle. repeat constructor; [done|].
      by rewrite !(ole_find _ _ Hle).
Qed.

Lemma within_const n (IH : ∀ k, n = S k → occurs_spec k) t cv d :
  match cv with CvConcrete _ => False | _ => True end →
  Forall leaf_const_ground (leaves_const_value t cv d) →
  visible_within (λ c', leaves_const c' d) (fold_const (OC n) (mkConst t cv) d).
Proof.
  destruct cv as [bv|v|p|]; try done; intros _ Hg%Forall_inv; simpl in *.
  - destruct (shifted_out_to bv d) eqn:Hout.
    + apply within_fail. intros u a u'. by destruct n.
    + apply shifted_out_to_None in Hout. apply within_ret. intros u. simpl. rewrite Hg. by repeat constructor.
  - assert (fold_inference_const (OC n) t (fold_ty (OC n) t d) v d = λ u,
      match ena_probe_value (ena u) v with
      | Bound b => (y ← se_lift (assert_const_ref b);
         y ← match n with 0 => se_fuel | Datatypes.S k => fold_with (OC k) y INNERMOST end;
         _ ← se_lift (assert (negb (const_needs_shift y))); mret y) u
      | Unbound w =>
          (λ u, if ena_unioned (ena u) v self_var then se_err u
           else (_ ← promote ui w v; mret (var_to_const v t)) u) u
      end) as -> by (clear IH; by destruct n).
    apply (probe_within (λ c', leaves_const c' d) v).
    + intros b Hb u y u' HI Hy.
      destruct (value_within n IH (A:=Const) assert_const_ref (λ y, negb (const_needs_shift y)) b INNERMOST) with u y u'
        as (? & ? & Hl); [|done..|].
      { intros a Ha. destruct b; try discriminate Ha. injection Ha as <-. exact Hb. }
      split_and!; [done..|]. exact (leaves_within_depth (T:=Const) u' y d Hl).
    + intros w u a u' HI Hw. unfold ena_unioned. case_bool_decide as Hun; [done|]. intros Ha.
      apply (unbound_case (λ c', leaves_const c' d) _ v w u a u' HI Hw Ha). intros u1 Hu1 Hle. simpl. rewrite Hg. repeat constructor; [done..|].
      by rewrite !(ole_find _ _ Hle).
  - assert (fold_free_placeholder_const (OC n) t (fold_ty (OC n) t d) p d =
      if universe_lt ui p.(Ir.ui) then se_err else mret (mkConst t (CvPlaceholder p))) as ->
      by (clear IH; by destruct n).
    destruct (universe_lt _ _) eqn:Hp; [apply within_fail; intros ???; discriminate|].
    apply placeholder_visible in Hp. apply within_ret. intros u. simpl. rewrite Hg. by repeat constructor.
Qed.

Lemma occurs_spec_holds n : occurs_spec n.
Proof.
  induction n as [n IH] using lt_wf_ind.
  assert (∀ k, n = S k → occurs_spec k) as IH' by (intros k ->; apply IH; lia).
  constructor.
  - apply wpSE_laws.
  - apply occurs_le_preorder.
  - intros u _. apply leaf_family_cong.
  - intros u u' _ _ Hle. constructor; simpl; intros d x y Hy;
      (eapply Forall_impl; [exact Hy|]); intros l; by apply leaf_within_mono.
  - intros u l d HI _ l' u' Hl. exact (within_lifetime n IH' l d u l' u' HI Hl).
  - intros u t d HI _ Ht t' u' Hf. exact (within_ty n IH' t d Ht u t' u' HI Hf).
  - intros u t cv d HI Hg _ Hc c' u' Hf. exact (within_const n IH' t cv d Hc Hg u c' u' HI Hf).
Qed.
End Occurs.

(** ** The property *)

(** C5. The occurs check of a variable is correct: a type that it lets through,
    for a table whose constants have ground types, has all bound variables
    replaced by their values; its free leaves are unbound variables of universes
    that the variable can see and that were not unified with it, and placeholders
    of such universes.  The check keeps the classes and the values of the table.
    A variable of the table keeps its universe or is moved down to the one of the
    checked variable, and every variable that the check makes is in that universe. *)
Theorem occurs_check_correct {E} `{EnaLaws E} env var ui fuel t t' u u' :
  occurs_inv u → Forall leaf_const_ground (leaves_ty t INNERMOST) →
  fold_ty (OccursCheck (E:=E) env fuel var ui) t INNERMOST u = (Val t', u') →
  occurs_inv u' ∧ occurs_le ui u u' ∧ Forall (leaf_within var ui u') (leaves_ty t' INNERMOST).
Proof.
  intros HI Ht Hf.
  destruct (@fold_gives Ty _ FoldLaws_Ty _ _ _ _ _ _ _ _ _ _ (occurs_spec_holds env var ui fuel)
    t INNERMOST u Ht HI t' u' Hf)
    as (? & ? & Hl).
  split_and!; [done..|]. exact (lift_leaves (T:=Ty) 0 _ INNERMOST _ _ Hl).
Qed.

(** ** Witness: [?0] is unbound in universe 1, [?1 := &?2 !2_0], [?2] is unbound
    in universe 2. The check for [?0] makes a region variable for the
    placeholder and moves [?2] to universe 1. *)

Definition occurs_table : UnionFind.t :=
  UnionFind.mk [0; 1; 2] [Unbound (mkUniverse 1);
    Bound (ArgTy (TyRef Not (LtPlaceholder (mkPlaceholder (mkUniverse 2) 0)) (TyInferenceVar 2 General)));
    Unbound (mkUniverse 2)].
Definition occurs_state : Unifier UnionFind.t := mkUnifier (mkTable occurs_table [0; 1; 2] (mkUniverse 2)) [].

Lemma occurs_check_correct_witness :
  ∃ u', fold_ty (OccursCheck [] 3 0 (mkUniverse 1)) (TySlice (TyInferenceVar 1 General)) INNERMOST occurs_state
      = (Val (TySlice (TyRef Not (LtInferenceVar 3) (TyInferenceVar 2 General))), u') ∧
    ena_probe_value u'.(utable).(unify) 2 = Unbound (mkUniverse 1) ∧
    occurs_le (mkUniverse 1) occurs_state u'.
Proof.
  eexists. split; [vm_compute; reflexivity|]. split; [reflexivity|].
  refine (proj1 (proj2 (occurs_check_correct (E:=UnionFind.t) [] 0 (mkUniverse 1) 3
    (TySlice (TyInferenceVar 1 General)) (TySlice (TyRef Not (LtInferenceVar 3) (TyInferenceVar 2 General)))
    occurs_state _ _ _ _))).
  - split.
    + split; [done|]. intros [|[|[|a]]] r; simpl; intros; simplify_eq; done.
    + intros [|[|[|v]]] b Hb; vm_compute in Hb; simplify_eq; repeat constructor.
  - repeat constructor.
  - vm_compute. reflexivity.
Defined.
