(* ===== verification/FirstOrder.v ===== *)
(** * First-order terms and their solutions

    Types without binders, aliases and bound variables: heads applied to arguments, nullary
    types, placeholders and inference variables; constants are of scalar types.  Each of
    the operations of unification on such a type is one operation on its arguments.  Then
    what tables and their solutions are: every variable has one kind, its value is of this
    kind, and what its universe does not see is not in it. *)

From stdpp Require Import base list numbers.
From S2P Require Import Prelude Ir Fold FoldLaws Shift Ena Infer Visit Zip Unify Valuation.

Inductive Head :=
  | HAdt (id : AdtId)
  | HAssociatedType (id : AssocTypeId)
  | HTuple (arity : nat)
  | HArray
  | HSlice
  | HRaw (m : Mutability)
  | HRef (m : Mutability)
  | HOpaqueType (id : OpaqueTyId)
  | HFnDef (id : FnDefId)
  | HClosure (id : ClosureId)
  | HGenerator (id : GeneratorId)
  | HGeneratorWitness (id : GeneratorId).

Definition con (h : Head) (s : Substitution) : Ty :=
  match h, s with
  | HAdt id, _ => TyAdt id s
  | HAssociatedType id, _ => TyAssociatedType id s
  | HTuple n, _ => TyTuple n s
  | HArray, [ArgTy t; ArgConst c] => TyArray t c
  | HSlice, [ArgTy t] => TySlice t
  | HRaw m, [ArgTy t] => TyRaw m t
  | HRef m, [ArgLifetime l; ArgTy t] => TyRef m l t
  | HOpaqueType id, _ => TyOpaqueType id s
  | HFnDef id, _ => TyFnDef id s
  | HClosure id, _ => TyClosure id s
  | HGenerator id, _ => TyGenerator id s
  | HGeneratorWitness id, _ => TyGeneratorWitness id s
  | _, _ => TyError
  end.

(** Types without parts, other than variables. *)
Definition is_leaf (t : Ty) : bool :=
  match t with
  | TyScalar _ | TyStr | TyNever | TyForeign _ | TyError | TyPlaceholder _ => true
  | _ => false
  end.

Definition same_sort (a b : GenericArg) : Prop :=
  match a, b with
  | ArgTy _, ArgTy _ | ArgLifetime _, ArgLifetime _ | ArgConst _, ArgConst _ => True
  | _, _ => False
  end.

(** The arguments of a head that determines their number. *)
Ltac fixed_args :=
  repeat match goal with
  | H : ∃ _, _ |- _ => destruct H as [? H]
  | H : _ = [_] |- _ => subst
  | H : _ = [_; _] |- _ => subst
  end.

Definition is_var (t : Ty) : bool := match t with TyInferenceVar _ _ => true | _ => false end.

Section FirstOrder.
Context (db : UnificationDatabase).

(** The arguments that a head takes: no more than it has variances. *)
Definition fits (h : Head) (s : Substitution) : Prop :=
  match h with
  | HAdt id => length s ≤ length (db.(adt_variance) id)
  | HFnDef id => length s ≤ length (db.(fn_def_variance) id)
  | HTuple n => length s ≤ n
  | HArray => ∃ t c, s = [ArgTy t; ArgConst c]
  | HSlice | HRaw _ => ∃ t, s = [ArgTy t]
  | HRef _ => ∃ l t, s = [ArgLifetime l; ArgTy t]
  | _ => True
  end.

Definition fo_lt (V : InferenceVar → VariableKind → Prop) (l : Lifetime) : Prop :=
  match l with LtBoundVar _ => False | LtInferenceVar v => V v VkLifetime | _ => True end.

Definition fo_ct (V : InferenceVar → VariableKind → Prop) (c : Const) : Prop :=
  match c with
  | mkConst (TyScalar s) cv =>
      match cv with
      | CvBoundVar _ => False
      | CvInferenceVar v => V v (VkConst (TyScalar s))
      | _ => True
      end
  | _ => False
  end.

(** First-order types whose variables satisfy [V] at the kinds at which they occur. *)
Inductive fo (V : InferenceVar → VariableKind → Prop) : Ty → Prop :=
  | fo_con h s : fits h s → Forall (fo_arg V) s → fo V (con h s)
  | fo_leaf t : is_leaf t = true → fo V t
  | fo_var v k : V v (VkTy k) → fo V (TyInferenceVar v k)
with fo_arg (V : InferenceVar → VariableKind → Prop) : GenericArg → Prop :=
  | fo_arg_ty t : fo V t → fo_arg V (ArgTy t)
  | fo_arg_lt l : fo_lt V l → fo_arg V (ArgLifetime l)
  | fo_arg_ct c : fo_ct V c → fo_arg V (ArgConst c).

Section Ind.
Context (V : InferenceVar → VariableKind → Prop) (PT : Ty → Prop) (PA : GenericArg → Prop).
Context (Hcon : ∀ h s, fits h s → Forall (fo_arg V) s → Forall PA s → PT (con h s)).
Context (Hleaf : ∀ t, is_leaf t = true → PT t).
Context (Hvar : ∀ v k, V v (VkTy k) → PT (TyInferenceVar v k)).
Context (Hty : ∀ t, fo V t → PT t → PA (ArgTy t)).
Context (Hlt : ∀ l, fo_lt V l → PA (ArgLifetime l)).
Context (Hct : ∀ c, fo_ct V c → PA (ArgConst c)).

Fixpoint fo_ind_ty t (H : fo V t) {struct H} : PT t
with fo_ind_arg a (H : fo_arg V a) {struct H} : PA a.
Proof.
  - destruct H as [h s Hf Hs|t Ht|v k Hv]; [|by apply Hleaf|by apply Hvar].
    apply Hcon; [exact Hf|exact Hs|].
    exact ((fix go s (Hs : Forall (fo_arg V) s) : Forall PA s :=
      match Hs with
      | List.Forall_nil _ => Forall_nil_2 _
      | List.Forall_cons _ a s Ha Hs => Forall_cons_2 _ a s (fo_ind_arg a Ha) (go s Hs)
      end) s Hs).
  - destruct H as [t Ht|l Hl|c Hc]; [apply Hty; [exact Ht|exact (fo_ind_ty t Ht)]|by apply Hlt|by apply Hct].
Qed.

Lemma fo_induction : (∀ t, fo V t → PT t) ∧ (∀ a, fo_arg V a → PA a).
Proof. split; [apply fo_ind_ty|apply fo_ind_arg]. Qed.
End Ind.

(** *** Heads *)

Lemma fits_same h s s' : fits h s → Forall2 same_sort s s' → fits h s'.
Proof.
  intros Hf Hs. pose proof (Forall2_length _ _ _ Hs).
  destruct h; simpl in *; try lia; try done; fixed_args;
    repeat match goal with H : Forall2 _ (_ :: _) _ |- _ => inversion H; clear H; subst end;
    repeat match goal with H : Forall2 _ [] _ |- _ => inversion H; clear H; subst end;
    repeat match goal with H : same_sort _ ?x |- _ => destruct x; try done; clear H end; eauto.
Qed.

Lemma con_inj h h' s s' : fits h s → fits h' s' → con h s = con h' s' → h = h' ∧ s = s'.
Proof. intros Hf Hf'. destruct h, h'; simpl in *; fixed_args; simpl; intros; simplify_eq; done. Qed.

Lemma con_not_leaf h s : fits h s → is_leaf (con h s) = false.
Proof. intros Hf. destruct h; simpl in *; fixed_args; done. Qed.

Lemma con_not_var h s v k : fits h s → con h s ≠ TyInferenceVar v k.
Proof. intros Hf. destruct h; simpl in *; fixed_args; done. Qed.

Lemma con_is_var h s : fits h s → is_var (con h s) = false.
Proof. intros Hf. destruct h; simpl in *; fixed_args; done. Qed.

Lemma fo_var_inv V v k : fo V (TyInferenceVar v k) → V v (VkTy k).
Proof.
  intros H. remember (TyInferenceVar v k) as t eqn:Ht. destruct H; [|by subst|by simplify_eq].
  by apply con_not_var in Ht.
Qed.

Lemma fo_con_inv V h s : fits h s → fo V (con h s) → Forall (fo_arg V) s.
Proof.
  intros Hf H. remember (con h s) as t eqn:Ht. destruct H as [h' s' Hf' Hs|t Hl|].
  - apply con_inj in Ht as [-> ->]; done.
  - subst. by rewrite con_not_leaf in Hl.
  - by symmetry in Ht; apply con_not_var in Ht.
Qed.

Lemma fo_arg_ty_inv V t : fo_arg V (ArgTy t) → fo V t.
Proof. by inversion 1. Qed.
Lemma fo_arg_lt_inv V l : fo_arg V (ArgLifetime l) → fo_lt V l.
Proof. by inversion 1. Qed.
Lemma fo_arg_ct_inv V c : fo_arg V (ArgConst c) → fo_ct V c.
Proof. by inversion 1. Qed.

Lemma fo_mono V V' : (∀ v k, V v k → V' v k) →
  (∀ t, fo V t → fo V' t) ∧ (∀ a, fo_arg V a → fo_arg V' a).
Proof.
  intros HV. apply fo_induction; try (by constructor; eauto).
  - intros l Hl. constructor. destruct l; simpl in *; auto.
  - intros c Hc. constructor. destruct c as [[] []]; simpl in *; auto.
Qed.

Lemma fo_lt_mono V V' l : (∀ v k, V v k → V' v k) → fo_lt V l → fo_lt V' l.
Proof. intros HV. destruct l; simpl; auto. Qed.
Lemma fo_ct_mono V V' c : (∀ v k, V v k → V' v k) → fo_ct V c → fo_ct V' c.
Proof. intros HV. destruct c as [[] []]; simpl; auto. Qed.

(** *** Operations on a head *)

Lemma fold_con {S} (F : Folder (SE S)) h s d u : fits h s →
  fold_ty F (con h s) d u = (mapM (λ a, fold_arg F a d) s ≫= λ s', mret (con h s')) u.
Proof.
  intros Hf. destruct h; simpl in *; fixed_args; try done; simpl; unfold mbind, SE_bind;
    repeat (case_match; simplify_eq/=; try done).
Qed.

Lemma mapM_Id {A B} (f : A → B) (l : list A) : mapM (M:=Id) f l = f <$> l.
Proof.
  induction l as [|x l IH]; [done|].
  change (f x :: mapM (M:=Id) f l = f x :: (f <$> l)). by rewrite IH.
Qed.

Lemma apply_con σ h s : fits h s → apply_ty σ (con h s) = con h (apply_arg σ <$> s).
Proof.
  intros Hf. destruct h; simpl in *; fixed_args; try done; unfold apply_ty; simpl;
    unfold mbind, Id_bind, mret, Id_ret; f_equal; exact (mapM_Id (apply_arg σ) s).
Qed.

Lemma apply_same σ s : Forall2 same_sort s (apply_arg σ <$> s).
Proof. induction s as [|[] s IH]; constructor; done. Qed.

Lemma apply_con_inj σ h h' s s' : fits h s → fits h' s' →
  apply_ty σ (con h s) = apply_ty σ (con h' s') → h = h' ∧ apply_arg σ <$> s = apply_arg σ <$> s'.
Proof.
  intros Hf Hf'. rewrite !apply_con by done. intros Heq.
  apply con_inj in Heq; [done|..]; eapply fits_same; eauto using apply_same.
Qed.

Lemma apply_leaf σ t : is_leaf t = true → apply_ty σ t = t.
Proof. by destruct t. Qed.

Lemma leaves_con P h s d : fits h s →
  Forall P (leaves_ty (con h s) d) ↔ Forall (λ a, Forall P (leaves_arg a d)) s.
Proof.
  intros Hf. destruct h; simpl in *; fixed_args; simpl;
    rewrite ?Forall_bind, ?Forall_app, ?Forall_cons, ?Forall_nil; simpl; tauto.
Qed.

(** The size of a type; what has no type below counts as nothing. *)
Fixpoint tsize (t : Ty) : nat :=
  match t with
  | TyAdt _ s | TyAssociatedType _ s | TyTuple _ s | TyOpaqueType _ s | TyFnDef _ s
  | TyClosure _ s | TyGenerator _ s | TyGeneratorWitness _ s => Datatypes.S (sum_list (map asize s))
  | TyArray t _ | TySlice t | TyRaw _ t | TyRef _ _ t => Datatypes.S (tsize t)
  | _ => 1
  end
with asize (a : GenericArg) : nat :=
  match a with ArgTy t => tsize t | _ => 0 end.

Lemma tsize_con h s : fits h s → tsize (con h s) = Datatypes.S (sum_list (map asize s)).
Proof. intros Hf. destruct h; simpl in *; fixed_args; simpl; lia. Qed.
(** First-order types have no free bound variables. *)
Lemma fo_no_free V t : fo V t → ty_needs_shift t = false.
Proof.
  intros Ht. unfold ty_needs_shift, has_free_vars. cut (visit_ty FindFreeVarsVisitor t INNERMOST = Val tt).
  { change (visit_with FindFreeVarsVisitor t INNERMOST) with (visit_ty FindFreeVarsVisitor t INNERMOST). by intros ->. }
  revert t Ht.
  apply (fo_ind_ty V (λ t, visit_ty FindFreeVarsVisitor t INNERMOST = Val tt)
    (λ a, visit_arg FindFreeVarsVisitor a INNERMOST = Val tt)).
  - intros h s Hf _ IH.
    assert (visit_iter (M:=outcome unit) (λ a, visit_arg FindFreeVarsVisitor a INNERMOST) s = Val tt) as Hs.
    { clear Hf. induction IH as [|a s Ha _ IH]; [done|]. simpl. by rewrite Ha. }
    destruct h; simpl in *; fixed_args; try exact Hs; unfold default_visit_ty; simpl in *.
    all: repeat match goal with H : _ ≫= _ = Val _ |- _ => apply bind_Val in H as ([] & ? & H) end.
    all: repeat match goal with H : ?m = Val tt |- context [?m] => rewrite H; simpl end; done.
  - by intros [].
  - done.
  - auto.
  - by intros [].
  - intros [[] []]; simpl; done.
Qed.

(** *** Resolved heights *)

Section Height.
Context {E : Type} `{EnaOps E}.

(** The tree of [t], with the values of bound variables below them, has height at most [n]. *)
Fixpoint height_le (e : E) (n : nat) (t : Ty) : Prop :=
  match n with
  | 0 => False
  | Datatypes.S n =>
      match t with
      | TyAdt _ s | TyAssociatedType _ s | TyTuple _ s | TyOpaqueType _ s | TyFnDef _ s
      | TyClosure _ s | TyGenerator _ s | TyGeneratorWitness _ s =>
          Forall (λ a, match a with ArgTy t => height_le e n t | _ => True end) s
      | TyArray t _ | TySlice t | TyRaw _ t | TyRef _ _ t => height_le e n t
      | TyInferenceVar v _ =>
          match ena_probe_value e v with Bound (ArgTy t) => height_le e n t | _ => True end
      | _ => True
      end
  end.
Definition arg_height_le (e : E) (n : nat) (a : GenericArg) : Prop :=
  match a with ArgTy t => height_le e n t | _ => True end.

Lemma height_con e n h s : fits h s →
  height_le e (Datatypes.S n) (con h s) ↔ Forall (arg_height_le e n) s.
Proof.
  intros Hf. destruct h; simpl in *; fixed_args; simpl; try done;
    rewrite ?Forall_cons, ?Forall_nil; simpl; tauto.
Qed.

Lemma height_mono e n m t : n ≤ m → height_le e n t → height_le e m t.
Proof.
  revert m t. induction n as [|n IH]; intros m t Hm; [done|]. destruct m as [|m]; [lia|].
  assert (∀ t, height_le e n t → height_le e m t) as IH' by (intros; apply IH; [lia|done]).
  assert (∀ s, Forall (λ a, match a with ArgTy t => height_le e n t | _ => True end) s →
    Forall (λ a, match a with ArgTy t => height_le e m t | _ => True end) s) as IHs.
  { intros s Hs. eapply Forall_impl; [exact Hs|]. intros []; auto. }
  destruct t; simpl; auto. destruct (ena_probe_value e v) as [|[]]; auto.
Qed.

(** Variables may be bound to new values of height [b]. *)
Lemma height_change e e' n b t :
  (∀ v t', ena_probe_value e' v = Bound (ArgTy t') →
     ena_probe_value e v = Bound (ArgTy t') ∨ height_le e' b t') →
  height_le e n t → height_le e' (n + b) t.
Proof.
  intros He. revert t. induction n as [|n IH]; intros t; [done|].
  assert (∀ s, Forall (λ a, match a with ArgTy t => height_le e n t | _ => True end) s →
    Forall (λ a, match a with ArgTy t => height_le e' (n + b) t | _ => True end) s) as IHs.
  { intros s Hs. eapply Forall_impl; [exact Hs|]. intros []; auto. }
  destruct t; simpl; auto. destruct (ena_probe_value e' v) as [|[]] eqn:Hv; auto.
  destruct (He _ _ Hv) as [->|Hb]; [by auto|]. intros _. eapply height_mono; [|exact Hb]. lia.
Qed.

Lemma height_same e e' n t :
  (∀ v t', ena_probe_value e' v = Bound (ArgTy t') → ena_probe_value e v = Bound (ArgTy t')) →
  height_le e n t → height_le e' n t.
Proof.
  intros He Ht. rewrite <- (Nat.add_0_r n). eapply height_change; [|exact Ht]. auto.
Qed.

(** A type without bound variables. *)
Lemma height_resolved e e' n t :
  fo (λ v _, ∀ t', ena_probe_value e' v ≠ Bound (ArgTy t')) t → height_le e n t → height_le e' n t.
Proof.
  intros Ht. revert n. revert t Ht.
  apply (fo_ind_ty _ (λ t, ∀ n, height_le e n t → height_le e' n t)
    (λ a, ∀ n, arg_height_le e n a → arg_height_le e' n a)); try done; simpl.
  - intros h s Hf _ IH [|n]; [done|]. rewrite !height_con by done. intros Hs.
    rewrite Forall_forall in IH, Hs. apply Forall_forall. auto.
  - intros t Ht [|n]; [done|]. by destruct t.
  - intros v k Hv [|n]; [done|]. simpl. destruct (ena_probe_value e' v) as [|[]] eqn:Hp; try done.
    by destruct (Hv ty).
Qed.

(** *** Generalization and relation of a head *)

Context (env : Environment).
Abbreviation U := (Unifier E).

(** Generalization of arguments, at the variances [ws]. *)
Fixpoint gens (again : Ty → UniverseIndex → Variance → SE U Ty) (ui : UniverseIndex)
    (ws : list Variance) (s : Substitution) : SE U Substitution :=
  match ws, s with
  | w :: ws, a :: s =>
      a ← generalize_arg_with db again ui w a; s ← gens again ui ws s; mret (a :: s)
  | _, _ => mret []
  end.

Lemma mapi_gens again ui (get : nat → SE U Variance) i s :
  (∀ j, j < length s → ∃ w, get (i + j) = mret w) →
  ∃ ws, length ws = length s ∧ ∀ u,
    mapi_from (λ i a, w ← get i; generalize_arg_with db again ui w a) i s u = gens again ui ws s u.
Proof.
  revert i. induction s as [|a s IH]; intros i Hget; [by exists []|].
  destruct (Hget 0) as [w Hw]; [simpl; lia|]. rewrite Nat.add_0_r in Hw.
  destruct (IH (1 + i)) as (ws & Hlen & Hws).
  { intros j Hj. destruct (Hget (Datatypes.S j)) as [w' Hw']; [simpl; lia|]. exists w'.
    rewrite <- Hw'. f_equal. lia. }
  exists (w :: ws). split; [simpl; by rewrite Hlen|]. intros u. simpl. rewrite Hw.
  unfold mbind, SE_bind, mret, SE_ret. destruct (generalize_arg_with _ _ _ _ _ _) as [[] u1]; try done.
  unfold mbind, SE_bind in Hws. by rewrite Hws.
Qed.

Lemma get_variance_in v vs (s : Substitution) j : length s ≤ length vs → j < length s →
  ∃ w, get_variance (E:=E) v vs j = mret w.
Proof.
  intros Hs Hj. unfold get_variance, variance_at. case_decide; [by eexists|].
  destruct (lookup_lt_is_Some_2 vs j) as [w ->]; [lia|]. by eexists.
Qed.

Lemma generalize_con again ui v h s : fits h s →
  ∃ ws, length ws = length s ∧ ∀ u, generalize_ty_with db again ui v (con h s) u
    = (gens again ui ws s ≫= λ s', mret (con h s')) u.
Proof.
  intros Hf.
  assert (∀ (c : Substitution → Ty) (get : nat → SE U Variance),
    (∀ j, j < length s → ∃ w, get (0 + j) = mret w) →
    ∃ ws, length ws = length s ∧ ∀ u,
      (mapi_from (λ i a, w ← get i; generalize_arg_with db again ui w a) 0 s ≫= λ s', mret (c s')) u
      = (gens again ui ws s ≫= λ s', mret (c s')) u) as Hsub.
  { intros c get Hget. destruct (mapi_gens again ui get 0 s Hget) as (ws & Hl & Hws). exists ws.
    split; [done|]. intros u. unfold mbind, SE_bind. unfold mbind, SE_bind in Hws. by rewrite Hws. }
  destruct h; simpl in *; fixed_args; try (apply (Hsub _ _); intros; by eauto using get_variance_in).
  - exists [v; v]. split; [done|]. intros u. simpl. unfold mbind, SE_bind, mret, SE_ret. repeat (case_match; simplify_eq/=; try done).
  - exists [v]. split; [done|]. intros u. simpl. unfold mbind, SE_bind, mret, SE_ret. repeat (case_match; simplify_eq/=; try done).
  - exists [reference_variance m]. split; [done|]. intros u. simpl. unfold mbind, SE_bind, mret, SE_ret. repeat (case_match; simplify_eq/=; try done).
  - exists [xform v Contravariant; reference_variance m]. split; [done|]. intros u. simpl.
    unfold mbind, SE_bind, mret, SE_ret. repeat (case_match; simplify_eq/=; try done).
Qed.

Lemma generalize_leaf again ui v t : is_leaf t = true →
  generalize_ty_with db again ui v t = (mret t : SE U Ty).
Proof. by destruct t. Qed.

(** The zip of arguments, invariantly. *)
Fixpoint zips (Z : Zipper U) (s s' : Substitution) : SE U unit :=
  match s, s' with
  | a :: s, b :: s' => _ ← zip_arg Z Invariant a b; zips Z s s'
  | _, _ => mret tt
  end.

Lemma zip_substs_zips Z vs i s s' :
  (∀ j, j < length s → ∃ w, variance_at (S:=U) vs (i + j) = mret w) →
  ∀ u, zip_substs_from Z Invariant vs i s s' u = zips Z s s' u.
Proof.
  revert i s'. induction s as [|a s IH]; intros i [|b s'] Hget u; try done.
  destruct (Hget 0) as [w Hw]; [simpl; lia|]. rewrite Nat.add_0_r in Hw.
  cbn [zip_substs_from zips]. rewrite Hw. unfold mbind at 1, SE_bind at 1, mret, SE_ret.
  unfold mbind, SE_bind. replace (xform Invariant w) with Invariant by (by destruct w).
  destruct (zip_arg _ _ _ _ _) as [[] u1]; try done. apply IH.
  intros j Hj. destruct (Hget (Datatypes.S j)) as [w' Hw']; [simpl; lia|]. exists w'.
  rewrite <- Hw'. f_equal. lia.
Qed.

Lemma zip_substs_some Z vs s s' u : length s ≤ length vs →
  zip_substs Z Invariant (Some vs) s s' u = zips Z s s' u.
Proof.
  intros Hl. apply zip_substs_zips. intros j Hj. simpl.
  destruct (lookup_lt_is_Some_2 vs j) as [w ->]; [lia|]. by eexists.
Qed.
Lemma zip_substs_none Z s s' u : zip_substs Z Invariant None s s' u = zips Z s s' u.
Proof. apply zip_substs_zips. intros j Hj. by eexists. Qed.

Lemma relate_con fuel Z h h' s s' : fits h s → fits h' s' →
  (h = h' ∧ ∀ u, relate_kinds db env fuel Z Invariant (con h s) (con h' s') u = zips Z s s' u) ∨
  (h ≠ h' ∧ relate_kinds db env fuel Z Invariant (con h s) (con h' s') = se_err).
Proof.
  intros Hf Hf'.
  destruct h, h'; simpl in Hf, Hf'; fixed_args; try (right; split; done); simpl;
    try (case_decide; subst; [left; split; [done|]|right; split; [by intros [= ->]|done]]);
    try (left; split; [done|]); intros u;
    try (rewrite zip_substs_some by (rewrite ?repeat_length; done); done);
    try (by rewrite zip_substs_none);
    unfold mbind, SE_bind, mret, SE_ret; repeat (case_match; simplify_eq/=; try done);
    by repeat match goal with a : () |- _ => destruct a end.
Qed.

Lemma relate_leaf fuel Z a b : a ≠ b →
  is_leaf a = true ∧ (is_leaf b = true ∨ ∃ h s, b = con h s ∧ fits h s) ∨
  is_leaf b = true ∧ (∃ h s, a = con h s ∧ fits h s) →
  relate_kinds db env fuel Z Invariant a b = se_err.
Proof.
  intros Hne [[Ha [Hb|(h & s & -> & Hf)]]|[Hb (h & s & -> & Hf)]].
  - destruct a, b; try done; simpl; unfold zip_eq; try (by rewrite decide_False by congruence); done.
  - destruct a; try done; destruct h; simpl in *; fixed_args; done.
  - destruct b; try done; destruct h; simpl in *; fixed_args; done.
Qed.
End Height.

End FirstOrder.

(** ** Sorts, tables and solutions *)

(** The kinds of the variables of a table, by number. *)
Abbreviation Sorts := (list VariableKind).

Definition sorted (κ : Sorts) (v : InferenceVar) (k : VariableKind) : Prop := κ !! v = Some k.

(** The values of [v] in [σ] and of [w] in [σ'] at the kind [k]. *)
Definition sort_eq (k : VariableKind) (σ σ' : Valuation) (v w : InferenceVar) : Prop :=
  match k with
  | VkTy _ => σ.(val_ty) v = σ'.(val_ty) w
  | VkLifetime => σ.(val_lt) v = σ'.(val_lt) w
  | VkConst _ => σ.(val_ct) v = σ'.(val_ct) w
  end.

Definition agree (κ : Sorts) (σ σ' : Valuation) : Prop :=
  ∀ v k, sorted κ v k → sort_eq k σ σ' v v.

(** The placeholders of types and constants are in universes that [w] can see. *)
Definition leaf_in (w : UniverseIndex) (l : Leaf) : Prop :=
  match l with
  | LeafTyPlaceholder p | LeafCtPlaceholder _ p => p.(ui).(counter) ≤ w.(counter)
  | _ => True
  end.
Definition ty_in (w : UniverseIndex) (t : Ty) : Prop := Forall (leaf_in w) (leaves_ty t INNERMOST).
Definition ct_in (w : UniverseIndex) (c : Const) : Prop := Forall (leaf_in w) (leaves_const c INNERMOST).
Definition arg_in (w : UniverseIndex) (a : GenericArg) : Prop :=
  match a with ArgTy t => ty_in w t | ArgLifetime _ => True | ArgConst c => ct_in w c end.

(** The value of [v] can be that of a variable of kind [k]. *)
Definition kind_ok (k : VariableKind) (σ : Valuation) (v : InferenceVar) : Prop :=
  match k with
  | VkTy Integer => is_integer (σ.(val_ty) v) = true
  | VkTy Float => is_float (σ.(val_ty) v) = true
  | VkConst ty => const_ty (σ.(val_ct) v) = ty
  | _ => True
  end.
Definition sort_in (k : VariableKind) (w : UniverseIndex) (σ : Valuation) (v : InferenceVar) : Prop :=
  match k with
  | VkTy _ => ty_in w (σ.(val_ty) v)
  | VkLifetime => True
  | VkConst _ => ct_in w (σ.(val_ct) v)
  end.

(** The number of numbers below [n] that satisfy [p]. *)
Fixpoint count (p : nat → bool) (n : nat) : nat :=
  match n with 0 => 0 | S n => (if p n then 1 else 0) + count p n end.

Section Tables.
Context {E : Type} `{EnaLaws E}.
Context (db : UnificationDatabase).

(** [σ] solves the table: it respects classes, values, kinds and universes. *)
Record solution (κ : Sorts) (σ : Valuation) (t : InferenceTable E) : Prop := {
  sol_class v k : sorted κ v k → sort_eq k σ σ v (ena_find t.(unify) v);
  sol_bound v b : v < length κ → ena_probe_value t.(unify) v = Bound b → val_is σ v b;
  sol_unbound v k w : sorted κ v k → ena_probe_value t.(unify) v = Unbound w → sort_in k w σ v;
  sol_kind v k : sorted κ v k → kind_ok k σ v
}.

(** What a variable of kind [k] can be bound to. *)
Definition value_ok (κ : Sorts) (k : VariableKind) (b : GenericArg) : Prop :=
  match k, b with
  | VkTy kind, ArgTy t =>
      fo db (sorted κ) t ∧
      match kind with
      | General => ∀ v, t ≠ TyInferenceVar v General
      | Integer => is_integer t = true
      | Float => is_float t = true
      end
  | VkLifetime, ArgLifetime l =>
      match l with LtBoundVar _ | LtInferenceVar _ => False | _ => True end
  | VkConst ty, ArgConst c =>
      const_ty c = ty ∧ fo_ct (λ _ _, False) c
  | _, _ => False
  end.

Record table_ok (κ : Sorts) (t : InferenceTable E) : Prop := {
  tok_wf : ena_wf t.(unify);
  tok_len : length κ = ena_len t.(unify);
  tok_class v k : sorted κ v k → sorted κ (ena_find t.(unify) v) k;
  tok_value v k b : sorted κ v k → ena_probe_value t.(unify) v = Bound b → value_ok κ k b
}.

Definition is_ty_root (κ : Sorts) (e : E) (v : nat) : bool :=
  bool_decide (ena_find e v = v) &&
  match ena_probe_value e v with Unbound _ => true | Bound _ => false end &&
  match κ !! v with Some (VkTy _) => true | _ => false end.

(** The number of unbound type variables, up to unification. *)
Definition unbound_types (κ : Sorts) (t : InferenceTable E) : nat :=
  count (is_ty_root κ t.(unify)) (length κ).
End Tables.

(** Fuel that is enough for [n] unbound type variables and heights up to [b]. *)
Definition unify_fuel (n b : nat) : nat := b + (b + 3) * (n + 1) * 2 ^ n.

(** ** Counting and agreeing *)

Lemma count_ext p q n : (∀ v, v < n → p v = q v) → count p n = count q n.
Proof. induction n as [|n IH]; intros Hpq; [done|]. simpl. rewrite Hpq, IH by auto with lia. done. Qed.

Lemma count_remove p q n r : r < n → p r = true → q r = false →
  (∀ v, v < n → v ≠ r → p v = q v) → count p n = S (count q n).
Proof.
  induction n as [|n IH]; intros Hr Hp Hq Hpq; [lia|]. simpl.
  destruct (decide (n = r)) as [->|Hn].
  - rewrite Hp, Hq. simpl. f_equal. apply count_ext. intros. apply Hpq; lia.
  - rewrite (Hpq n), IH; [lia|lia|done|done|intros; apply Hpq; lia|lia|done].
Qed.

Lemma sorted_mono κ κ' v k : κ `prefix_of` κ' → sorted κ v k → sorted κ' v k.
Proof. intros Hp Hv. by eapply prefix_lookup_Some. Qed.

Lemma sorted_lt κ v k : sorted κ v k → v < length κ.
Proof. apply lookup_lt_Some. Qed.

Lemma sort_eq_trans k σ1 σ2 σ3 u v w : sort_eq k σ1 σ2 u v → sort_eq k σ2 σ3 v w → sort_eq k σ1 σ3 u w.
Proof. destruct k; simpl; congruence. Qed.
Lemma sort_eq_sym k σ1 σ2 v w : sort_eq k σ1 σ2 v w → sort_eq k σ2 σ1 w v.
Proof. by destruct k; simpl. Qed.
Lemma sort_eq_refl k σ v : sort_eq k σ σ v v.
Proof. by destruct k. Qed.

Lemma agree_refl κ σ : agree κ σ σ.
Proof. intros v k _. apply sort_eq_refl. Qed.
Lemma agree_trans κ κ' σ1 σ2 σ3 :
  κ `prefix_of` κ' → agree κ σ1 σ2 → agree κ' σ2 σ3 → agree κ σ1 σ3.
Proof.
  intros Hp H1 H2 v k Hv. eapply sort_eq_trans; [by apply H1|].
  apply H2. by eapply sorted_mono.
Qed.

Section Agree.
Context (db : UnificationDatabase) (κ : Sorts) (σ σ' : Valuation) (Hσ : agree κ σ σ').

Lemma agree_lt l : fo_lt (sorted κ) l → apply_lt σ l = apply_lt σ' l.
Proof. destruct l; simpl; try done. intros Hv. by apply (Hσ v VkLifetime). Qed.

Lemma agree_ct c : fo_ct (sorted κ) c → apply_ct σ c = apply_ct σ' c.
Proof.
  destruct c as [[] cv]; simpl; try done. destruct cv; try done. intros Hv.
  exact (Hσ v (VkConst (TyScalar s)) Hv).
Qed.

Lemma agree_terms :
  (∀ t, fo db (sorted κ) t → apply_ty σ t = apply_ty σ' t) ∧
  (∀ a, fo_arg db (sorted κ) a → apply_arg σ a = apply_arg σ' a).
Proof.
  apply fo_induction.
  - intros h s Hf _ IH. rewrite !(apply_con db) by done. f_equal.
    by apply Forall_fmap_ext_1.
  - intros t Ht. by rewrite !apply_leaf.
  - intros v k Hv. exact (Hσ v (VkTy k) Hv).
  - intros t _ Ht. change (ArgTy (apply_ty σ t) = ArgTy (apply_ty σ' t)). by rewrite Ht.
  - intros l Hl. change (ArgLifetime (apply_lt σ l) = ArgLifetime (apply_lt σ' l)). by rewrite agree_lt.
  - intros c Hc. change (ArgConst (apply_ct σ c) = ArgConst (apply_ct σ' c)). by rewrite agree_ct.
Qed.
Lemma agree_ty t : fo db (sorted κ) t → apply_ty σ t = apply_ty σ' t.
Proof. apply agree_terms. Qed.
Lemma agree_arg a : fo_arg db (sorted κ) a → apply_arg σ a = apply_arg σ' a.
Proof. apply agree_terms. Qed.

Lemma agree_args s : Forall (fo_arg db (sorted κ)) s → apply_arg σ <$> s = apply_arg σ' <$> s.
Proof. induction 1; simpl; [done|]. f_equal; [by apply agree_arg|done]. Qed.

Lemma agree_val_is v k b : sorted κ v k → value_ok db κ k b → val_is σ v b → val_is σ' v b.
Proof.
  intros Hv Hb Hval. pose proof (Hσ v k Hv) as Hk. destruct k, b; simpl in *; try done.
  - destruct Hb as [Hb _]. rewrite <- (agree_ty _ Hb). congruence.
  - rewrite <- (agree_lt l); [congruence|]. by destruct l.
  - destruct Hb as [_ Hb]. rewrite <- (agree_ct c); [congruence|]. by eapply fo_ct_mono; [|exact Hb].
Qed.
End Agree.
