(* ===== verification/UnifyComplete.v ===== *)
(** * Unification is complete and terminates

    On first-order types ([FirstOrder]), invariantly, as goals are unified with clauses: with
    enough fuel [relate] returns; it fails only when no solution of the table makes the
    arguments equal, and otherwise keeps every such solution (with values for the
    variables that it made).  The measure is the number of unbound type variables and the
    resolved height of the arguments. *)

From stdpp Require Import base list numbers.
From S2P Require Import Prelude Ir Fold FoldLaws Shift Ena Infer Visit Zip Unify Valuation UnifyThm FirstOrder.

(** ** The judgement

    [valid m κ u P Q R]: from the state [u], whose variables have the kinds [κ], [m] does
    not panic or run out of fuel; when it returns [a], the state is in order and [Q] holds,
    and every solution that satisfies [P] extends to a solution of the new state that
    satisfies [R a]; when it fails, no solution satisfies [P]. *)
Section Valid.
Context {E : Type} `{EnaLaws E}.
Context (db : UnificationDatabase) (ME : Meaning) (low : nat) (env : Environment).
Abbreviation U := (Unifier E).
Abbreviation ena u := (u.(utable).(unify)).

Definition outlives_ok (κ : Sorts) (g : InEnvironment Goal) : Prop :=
  ∃ a b, g.(env_goal) = outlives_goal a b ∧ fo_lt (sorted κ) a ∧ fo_lt (sorted κ) b.

Record in_order (κ : Sorts) (u : U) : Prop := {
  good_table : table_ok db κ u.(utable);
  good_goals : Forall (outlives_ok κ) u.(ugoals)
}.

Record Sol (κ : Sorts) (σ : Valuation) (u : U) : Prop := {
  Sol_table : solution κ σ u.(utable);
  Sol_goals : solves_goals db ME low σ u.(ugoals)
}.

Definition valid {A} (m : SE U A) (κ : Sorts) (u : U) (P : Valuation → Prop)
    (Q : A → Sorts → U → Prop) (R : A → Valuation → Prop) : Prop :=
  match m u with
  | (Val a, u') => ∃ κ', κ `prefix_of` κ' ∧ in_order κ' u' ∧ Q a κ' u' ∧
      ∀ σ, Sol κ σ u → P σ → ∃ σ', agree κ σ σ' ∧ Sol κ' σ' u' ∧ R a σ'
  | (Exn _, _) => ∀ σ, Sol κ σ u → ¬ P σ
  | _ => False
  end.

Lemma valid_ret {A} (a : A) κ u (P : Valuation → Prop) (Q : A → Sorts → U → Prop) (R : A → Valuation → Prop) :
  in_order κ u → Q a κ u → (∀ σ, Sol κ σ u → P σ → R a σ) → valid (mret a) κ u P Q R.
Proof.
  intros Hg HQ HR. exists κ. split_and!; [done..|]. intros σ Hσ HP. exists σ.
  split_and!; [apply agree_refl|done|auto].
Qed.

Lemma valid_err {A} κ u (P : Valuation → Prop) (Q : A → Sorts → U → Prop) (R : A → Valuation → Prop) :
  (∀ σ, Sol κ σ u → ¬ P σ) → valid se_err κ u P Q R.
Proof. done. Qed.

(** The solutions of the second step come from solutions before the first. *)
Lemma valid_bind {A B} (m : SE U A) (f : A → SE U B) κ u P Q R (Q' : B → Sorts → U → Prop) (R' : B → Valuation → Prop) :
  valid m κ u P Q R →
  (∀ a κ1 u1, κ `prefix_of` κ1 → in_order κ1 u1 → Q a κ1 u1 →
    valid (f a) κ1 u1 (λ σ1, R a σ1 ∧ ∃ σ, agree κ σ σ1 ∧ Sol κ σ u ∧ P σ) Q' R') →
  valid (m ≫= f) κ u P Q' R'.
Proof.
  unfold valid. intros Hm Hf. unfold mbind, SE_bind.
  destruct (m u) as [[a| | |] u1]; try done.
  destruct Hm as (κ1 & Hp & Hg1 & HQ & Hσ1). specialize (Hf a κ1 u1 Hp Hg1 HQ).
  destruct (f a u1) as [[b| | |] u2]; try done.
  - destruct Hf as (κ2 & Hp2 & Hg2 & HQ' & Hσ2). exists κ2. split_and!; [by etrans|done..|].
    intros σ Hσ HP. destruct (Hσ1 σ Hσ HP) as (σ1 & Ha & Hs & HR).
    destruct (Hσ2 σ1 Hs) as (σ2 & Ha2 & Hs2 & HR2); [by eauto|]. exists σ2.
    split_and!; [by eapply agree_trans|done..].
  - intros σ Hσ HP. destruct (Hσ1 σ Hσ HP) as (σ1 & Ha & Hs & HR). eapply Hf; eauto.
Qed.

Lemma valid_weaken {A} (m : SE U A) κ u P P' Q (Q' : A → Sorts → U → Prop) R (R' : A → Valuation → Prop) :
  valid m κ u P Q R →
  (∀ σ, Sol κ σ u → P' σ → P σ) →
  (∀ a κ' u', κ `prefix_of` κ' → in_order κ' u' → Q a κ' u' → Q' a κ' u') →
  (∀ a σ', R a σ' → R' a σ') →
  valid m κ u P' Q' R'.
Proof.
  unfold valid. intros Hm HP HQ HR. destruct (m u) as [[a| | |] u1]; try done.
  - destruct Hm as (κ1 & Hp & Hg1 & HQ1 & Hσ1). exists κ1. split_and!; [done..|by apply HQ|].
    intros σ Hσ HP'. destruct (Hσ1 σ Hσ) as (σ1 & ? & ? & ?); [by apply HP|]. exists σ1. auto.
  - intros σ Hσ HP'. by apply (Hm σ Hσ), HP.
Qed.

(** The consequence rule with all that is known at the end. *)
Lemma valid_conseq {A} (m : SE U A) κ u (P P' : Valuation → Prop) Q (Q' : A → Sorts → U → Prop) R
    (R' : A → Valuation → Prop) :
  valid m κ u P Q R → (∀ σ, Sol κ σ u → P' σ → P σ) →
  (∀ a κ' u', κ `prefix_of` κ' → in_order κ' u' → Q a κ' u' → Q' a κ' u' ∧
    ∀ σ σ', Sol κ σ u → P' σ → agree κ σ σ' → Sol κ' σ' u' → R a σ' → R' a σ') →
  valid m κ u P' Q' R'.
Proof.
  unfold valid. intros Hm HP HQ. destruct (m u) as [[a| | |] u1]; try done.
  - destruct Hm as (κ1 & Hp & Hg1 & HQ1 & Hσ1). destruct (HQ a κ1 u1 Hp Hg1 HQ1) as [HQ' HR].
    exists κ1. split_and!; [done..|].
    intros σ Hσ HP'. destruct (Hσ1 σ Hσ) as (σ1 & ? & ? & ?); [by apply HP|]. exists σ1. eauto.
  - intros σ Hσ HP'. by apply (Hm σ Hσ), HP.
Qed.

Lemma valid_eq {A} (m m' : SE U A) κ u P (Q : A → Sorts → U → Prop) R :
  m u = m' u → valid m' κ u P Q R → valid m κ u P Q R.
Proof. unfold valid. by intros ->. Qed.

Lemma valid_read {A} (f : InferenceTable E → Fallible A) a κ u P (Q : A → Sorts → U → Prop) R :
  f u.(utable) = Val a → valid (mret a) κ u P Q R → valid (read_table f) κ u P Q R.
Proof. intros Hf Hv. eapply valid_eq; [|exact Hv]. unfold read_table. by rewrite Hf. Qed.

Lemma good_mono_goals κ κ' gs : κ `prefix_of` κ' → Forall (outlives_ok κ) gs → Forall (outlives_ok κ') gs.
Proof.
  intros Hp Hgs. eapply Forall_impl; [exact Hgs|]. intros g (a & b & Hg & Ha & Hb). exists a, b.
  split_and!; [done|eapply fo_lt_mono; [|exact Ha]|eapply fo_lt_mono; [|exact Hb]];
    intros v k; by apply sorted_mono.
Qed.

Lemma agree_goals κ σ σ' gs : agree κ σ σ' → Forall (outlives_ok κ) gs →
  solves_goals db ME low σ gs → solves_goals db ME low σ' gs.
Proof.
  intros Hσ Hgs Hs. unfold solves_goals in *. rewrite Forall_forall in Hgs, Hs. apply Forall_forall.
  intros g Hg. specialize (Hs g Hg). destruct (Hgs g Hg) as (a & b & Heq & Ha & Hb). rewrite Heq in *. simpl in *.
  by rewrite <- (agree_lt κ σ σ' Hσ a), <- (agree_lt κ σ σ' Hσ b).
Qed.

(** ** The updates of the state *)

Definition is_unbound (e : E) (v : nat) : Prop := ∃ w, ena_probe_value e v = Unbound w.

(** *** A new variable *)

Definition assigns (σ : Valuation) (v : InferenceVar) (a : GenericArg) : Prop :=
  match a with
  | ArgTy t => σ.(val_ty) v = t
  | ArgLifetime l => σ.(val_lt) v = l
  | ArgConst c => σ.(val_ct) v = c
  end.

Definition assign (σ : Valuation) (v : InferenceVar) (a : GenericArg) : Valuation :=
  mkValuation
    (match a with ArgTy t => λ w, if decide (w = v) then t else σ.(val_ty) w | _ => σ.(val_ty) end)
    (match a with ArgLifetime l => λ w, if decide (w = v) then l else σ.(val_lt) w | _ => σ.(val_lt) end)
    (match a with ArgConst c => λ w, if decide (w = v) then c else σ.(val_ct) w | _ => σ.(val_ct) end).

Lemma assign_assigns σ v a : assigns (assign σ v a) v a.
Proof. destruct a; simpl; by rewrite decide_True. Qed.

Lemma assign_agree κ σ a : agree κ σ (assign σ (length κ) a).
Proof.
  intros v k Hv%sorted_lt. destruct k, a; simpl; rewrite ?decide_False by lia; done.
Qed.

(** [a] can be the value of a variable of kind [k] in the universe [w]. *)
Definition fits_kind (k : VariableKind) (w : UniverseIndex) (a : GenericArg) : Prop :=
  arg_in w a ∧
  match k, a with
  | VkTy General, ArgTy _ | VkLifetime, ArgLifetime _ => True
  | VkConst ty, ArgConst c => const_ty c = ty
  | _, _ => False
  end.

Record fresh_facts (w : UniverseIndex) (κ : Sorts) (k : VariableKind) (u : U) (v : nat) (κ' : Sorts) (u' : U) : Prop := {
  ff_var : v = length κ;
  ff_sorts : κ' = κ ++ [k];
  ff_find x : ena_find (ena u') x = ena_find (ena u) x;
  ff_probe x : ena_probe_value (ena u') x = if decide (x = v) then Unbound w else ena_probe_value (ena u) x;
  ff_out x : length κ ≤ x → ena_find (ena u) x = x;
  ff_goals : u'.(ugoals) = u.(ugoals)
}.

Lemma fresh_var_facts w κ k u : in_order κ u →
  ∃ v u', fresh_var w u = (Val v, u') ∧ ena_wf (ena u') ∧ ena_len (ena u') = S (length κ) ∧
    fresh_facts w κ k u v (κ ++ [k]) u'.
Proof.
  intros [[Hwf Hlen _ _] _]. unfold fresh_var, with_table, new_variable.
  pose proof (new_key_fst (ena u) (Unbound w)) as Hx. pose proof (new_key_wf _ (Unbound w) Hwf) as Hwf'.
  pose proof (new_key_len (ena u) (Unbound w)) as Hl.
  pose proof (λ y, new_key_find (ena u) (Unbound w) y Hwf) as Hf.
  pose proof (λ y, new_key_probe (ena u) (Unbound w) y Hwf) as Hp.
  destruct (ena_new_key _ _) as [x e]. simpl in *. subst x. eexists _, _. split; [reflexivity|].
  split; [done|]. split; [simpl; lia|]. constructor; simpl; [done|done| | | |done].
  - intros y. destruct (Nat.le_gt_cases y (ena_len (ena u))) as [Hy|Hy].
    + rewrite Hf by done. case_decide; [subst; by rewrite find_out|done].
    + rewrite !find_out; [done|done|lia|done|lia].
  - intros y. destruct (Nat.le_gt_cases y (ena_len (ena u))) as [Hy|Hy]; [by apply Hp|].
    rewrite decide_False, !probe_out; [done|done|lia|done|lia|lia].
  - intros y Hy. apply find_out; [done|lia].
Qed.

Lemma sorted_snoc κ k v k' : sorted (κ ++ [k]) v k' ↔ sorted κ v k' ∨ v = length κ ∧ k' = k.
Proof.
  unfold sorted. rewrite lookup_app_Some. split; (intros [?|Hv]; [by left|right]).
  - destruct Hv as [? Hv]. destruct (v - length κ) eqn:?; simpl in Hv; [|done]. simplify_eq. split; [lia|done].
  - destruct Hv as [-> ->]. split; [done|]. by rewrite Nat.sub_diag.
Qed.

Lemma value_ok_mono κ κ' k b : κ `prefix_of` κ' → value_ok db κ k b → value_ok db κ' k b.
Proof.
  intros Hp. destruct k, b; simpl; try done. intros [Ht ?]. split; [|done].
  refine (proj1 (fo_mono db _ _ _) _ Ht). intros v k'. by apply sorted_mono.
Qed.

Lemma valid_fresh w k κ u (P : Valuation → Prop) (val : Valuation → GenericArg) :
  in_order κ u → (∀ σ, Sol κ σ u → P σ → fits_kind k w (val σ)) →
  valid (fresh_var w) κ u P (λ v κ' u', fresh_facts w κ k u v κ' u')
    (λ v σ', ∃ σ, agree κ σ σ' ∧ Sol κ σ u ∧ P σ ∧ assigns σ' v (val σ)).
Proof.
  intros Hg Hval. destruct (fresh_var_facts w κ k u Hg) as (v & u' & Hf & Hwf & Hlen & Hff).
  unfold valid. rewrite Hf. exists (κ ++ [k]). pose proof (prefix_app_r κ κ [k] ltac:(done)) as Hp.
  destruct Hg as [[Hwf0 Hlen0 Hcl Hv] Hgs], Hff as [-> _ Hfind Hprobe Hout Hgoals].
  assert (∀ x k', sorted κ x k' → x ≠ length κ) as Hne by (intros x k' Hx%sorted_lt; lia).
  split_and!; [done| | |].
  - constructor; [|rewrite Hgoals; by eapply good_mono_goals].
    constructor; [done|rewrite length_app; simpl; lia| |].
    + intros x k' Hx. rewrite Hfind. apply sorted_snoc in Hx as [Hx|[-> ->]].
      * apply sorted_snoc. left. by apply Hcl.
      * rewrite Hout by done. apply sorted_snoc. by right.
    + intros x k' b Hx. rewrite Hprobe. case_decide; [done|].
      apply sorted_snoc in Hx as [Hx|[-> ->]]; [|done]. intros Hb. by eapply value_ok_mono, Hv.
  - by constructor.
  - intros σ [[Sc Sb Su Sk] Sg] HP. pose proof (Hval σ ltac:(by split) HP) as [Hin Hk].
    pose proof (assign_agree κ σ (val σ)) as Ha. exists (assign σ (length κ) (val σ)).
    split; [done|]. split; [|exists σ; split_and!; [done|by split|done|apply assign_assigns]].
    constructor; [constructor|].
    + intros x k' Hx. rewrite Hfind. apply sorted_snoc in Hx as [Hx|[-> ->]];
        [|rewrite Hout by done; apply sort_eq_refl].
      eapply sort_eq_trans; [apply sort_eq_sym, Ha; exact Hx|].
      eapply sort_eq_trans; [by apply Sc|]. apply Ha. by apply Hcl.
    + intros x b Hx. rewrite Hprobe. case_decide; [done|]. rewrite length_app in Hx. simpl in Hx.
      intros Hb. assert (x < length κ) as Hx' by lia.
      destruct (lookup_lt_is_Some_2 _ _ Hx') as [k' Hk']. eapply agree_val_is; [exact Ha|done| |by apply Sb].
      by eapply Hv.
    + intros x k' w' Hx. rewrite Hprobe. apply sorted_snoc in Hx as [Hx|[-> ->]].
      * rewrite decide_False by (by eapply Hne). intros Hw. specialize (Su x k' w' Hx Hw).
        pose proof (Ha x k' Hx) as He. destruct k'; simpl in *; by rewrite <- ?He.
      * rewrite decide_True by done. intros [= <-]. pose proof (assign_assigns σ (length κ) (val σ)) as He.
        destruct k as [[]| |], (val σ); try done; simpl in He |- *; by rewrite He.
    + intros x k' Hx. apply sorted_snoc in Hx as [Hx|[-> ->]].
      * specialize (Sk x k' Hx). pose proof (Ha x k' Hx) as He. destruct k' as [[]| |]; simpl in *; by rewrite <- ?He.
      * pose proof (assign_assigns σ (length κ) (val σ)) as He.
        destruct k as [[]| |], (val σ); try done; simpl in He |- *; by rewrite He.
    + rewrite Hgoals. by eapply agree_goals.
Qed.

(** *** Values of classes *)

(** The class of [v] has the value [x]; nothing else changed. *)
Record value_facts (v : nat) (x : InferenceValue) (u u' : U) : Prop := {
  vf_find y : ena_find (ena u') y = ena_find (ena u) y;
  vf_probe y : ena_probe_value (ena u') y =
    if decide (ena_find (ena u) y = ena_find (ena u) v) then x else ena_probe_value (ena u) y
}.

Lemma unify_value_facts κ u v k w x x' : in_order κ u → sorted κ v k →
  ena_probe_value (ena u) v = Unbound w → unify_values (Unbound w) x = Val x' →
  ∃ u', unify_var_value v x u = (Val tt, u') ∧ ena_wf (ena u') ∧ ena_len (ena u') = ena_len (ena u) ∧
    u'.(ugoals) = u.(ugoals) ∧ value_facts v x' u u'.
Proof.
  intros [[Hwf Hlen _ _] _] Hv%sorted_lt Hw Hx. rewrite Hlen in Hv.
  pose proof (unify_var_value_spec (ena u) v x Hwf Hv) as Hspec. rewrite Hw, Hx in Hspec.
  destruct Hspec as (e & He & Hwf' & Hlen' & Hc). unfold unify_var_value, ena_update.
  rewrite He. simpl. eexists. split; [reflexivity|]. split_and!; [done..|].
  constructor; intros y; simpl; destruct (Nat.lt_ge_cases y (ena_len (ena u))) as [Hy|Hy].
  - by apply Hc.
  - rewrite !find_out by (done || lia). done.
  - by apply Hc.
  - rewrite decide_False; [rewrite !probe_out by (done || lia); done|].
    rewrite find_out by done. pose proof (find_lt _ v Hwf Hv). lia.
Qed.

(** The kinds and the values of the variables of a class. *)
Lemma class_kind κ u v k y k' : in_order κ u → sorted κ v k → sorted κ y k' →
  ena_find (ena u) y = ena_find (ena u) v → k' = k.
Proof.
  intros [[_ _ Hcl _] _] Hv%Hcl Hy%Hcl Heq. rewrite Heq in Hy. unfold sorted in *. congruence.
Qed.

Lemma class_value κ u v k y σ : in_order κ u → Sol κ σ u → sorted κ v k → sorted κ y k →
  ena_find (ena u) y = ena_find (ena u) v → sort_eq k σ σ y v.
Proof.
  intros Hg [Hs _] Hv Hy Heq. eapply sort_eq_trans; [by apply (sol_class _ _ _ Hs)|].
  rewrite Heq. apply sort_eq_sym. by apply (sol_class _ _ _ Hs).
Qed.

Lemma val_is_class κ k b σ v y : value_ok db κ k b → sort_eq k σ σ y v → val_is σ v b → val_is σ y b.
Proof. destruct k, b; simpl; try done; congruence. Qed.

Lemma sort_in_class k w σ v y : sort_eq k σ σ y v → sort_in k w σ v → sort_in k w σ y.
Proof. destruct k; simpl; [by intros ->|done|by intros ->]. Qed.

Lemma valid_unify_value v x x' k w κ u P : in_order κ u → sorted κ v k →
  ena_probe_value (ena u) v = Unbound w → unify_values (Unbound w) x = Val x' →
  match x' with Bound b => value_ok db κ k b | Unbound _ => True end →
  (∀ σ, Sol κ σ u → P σ → match x' with Bound b => val_is σ v b | Unbound w' => sort_in k w' σ v end) →
  valid (unify_var_value v x) κ u P (λ _ κ' u', κ' = κ ∧ value_facts v x' u u') (λ _ _, True).
Proof.
  intros Hg Hv Hw Hx Hok HP.
  destruct (unify_value_facts κ u v k w x x' Hg Hv Hw Hx) as (u' & Hu & Hwf' & Hlen' & Hgoals & Hf).
  unfold valid. rewrite Hu. exists κ. destruct Hf as [Hfind Hprobe].
  destruct (good_table _ _ Hg) as [Hwf Hlen Hcl Hval].
  split_and!; [done| |done|by constructor|].
  - constructor; [|rewrite Hgoals; apply Hg]. constructor; [done|congruence| |].
    + intros y k' Hy. rewrite Hfind. by apply Hcl.
    + intros y k' b Hy. rewrite Hprobe. case_decide as Hd; [|by apply Hval].
      intros ->. by rewrite (class_kind κ u v k y k') by done.
  - intros σ Hσ HPσ. exists σ. split; [apply agree_refl|]. split; [|done].
    specialize (HP σ Hσ HPσ). destruct (Hσ) as [[Sc Sb Su Sk] Sg].
    constructor; [constructor|by rewrite Hgoals].
    + intros y k' Hy. rewrite Hfind. by apply Sc.
    + intros y b Hy. rewrite Hprobe. case_decide as Hd; [|by apply Sb]. intros ->.
      destruct (lookup_lt_is_Some_2 _ _ Hy) as [k' Hk'].
      assert (k' = k) as -> by (by eapply class_kind).
      eapply val_is_class; [exact Hok| |exact HP]. by eapply class_value.
    + intros y k' w' Hy. rewrite Hprobe. case_decide as Hd; [|by apply Su]. intros ->.
      assert (k' = k) as -> by (by eapply class_kind).
      eapply sort_in_class; [|exact HP]. by eapply class_value.
    + done.
Qed.

(** *** Two classes become one *)

Record merge_facts (a b : nat) (u u' : U) : Prop := {
  mf_find : ∃ r, (r = ena_find (ena u) a ∨ r = ena_find (ena u) b) ∧ ∀ y, ena_find (ena u') y =
    if decide (ena_find (ena u) y = ena_find (ena u) a ∨ ena_find (ena u) y = ena_find (ena u) b)
    then r else ena_find (ena u) y;
  mf_merged y : ena_find (ena u) y = ena_find (ena u) a ∨ ena_find (ena u) y = ena_find (ena u) b →
    is_unbound (ena u') y;
  mf_other y : ¬ (ena_find (ena u) y = ena_find (ena u) a ∨ ena_find (ena u) y = ena_find (ena u) b) →
    ena_probe_value (ena u') y = ena_probe_value (ena u) y
}.

Lemma unify_var_var_facts κ u a b k wa wb : in_order κ u → sorted κ a k → sorted κ b k →
  ena_probe_value (ena u) a = Unbound wa → ena_probe_value (ena u) b = Unbound wb →
  ∃ u' w, unify_var_var a b u = (Val tt, u') ∧ ena_wf (ena u') ∧ ena_len (ena u') = ena_len (ena u) ∧
    u'.(ugoals) = u.(ugoals) ∧ merge_facts a b u u' ∧
    (w = wa ∨ w = wb) ∧ ∀ y, ena_find (ena u) y = ena_find (ena u) a ∨ ena_find (ena u) y = ena_find (ena u) b →
      y < length κ → ena_probe_value (ena u') y = Unbound w.
Proof.
  intros [[Hwf Hlen _ _] _] Ha%sorted_lt Hb%sorted_lt Hwa Hwb. rewrite Hlen in Ha, Hb.
  pose proof (find_lt _ a Hwf Ha) as Hfa. pose proof (find_lt _ b Hwf Hb) as Hfb.
  assert (∀ y, ena_len (ena u) ≤ y →
    ¬ (ena_find (ena u) y = ena_find (ena u) a ∨ ena_find (ena u) y = ena_find (ena u) b)) as Hout.
  { intros y Hy. rewrite find_out by done. lia. }
  unfold unify_var_var, ena_update.
  destruct (decide (ena_find (ena u) a = ena_find (ena u) b)) as [Hab|Hab].
  - rewrite unify_var_var_same by done. simpl.
    exists (mkUnifier (mkTable (ena u) (vars (utable u)) (max_universe (utable u))) (ugoals u)), wa.
    assert (∀ y, ena_find (ena u) y = ena_find (ena u) a ∨ ena_find (ena u) y = ena_find (ena u) b →
      y < ena_len (ena u) → ena_probe_value (ena u) y = Unbound wa) as Hcls.
    { intros y Hy Hlt. rewrite <- Hwa. apply probe_find; [done..|]. by rewrite <- Hab in Hy; destruct Hy. }
    split_and!; [done..| |by left|intros y Hy Hlt; simpl; apply Hcls; [done|lia]]. constructor; simpl.
    + exists (ena_find (ena u) a). split; [by left|]. intros y. case_decide as Hd; [|done].
      rewrite <- Hab in Hd. by destruct Hd.
    + intros y Hy. destruct (Nat.lt_ge_cases y (ena_len (ena u))) as [Hlt|Hge]; [|by apply Hout in Hge].
      eexists. by apply Hcls.
    + done.
  - pose proof (unify_var_var_diff (ena u) a b Hwf Ha Hb Hab) as Hspec. rewrite Hwa, Hwb in Hspec. simpl in Hspec.
    destruct Hspec as (e & r & He & Hwf' & Hlen' & Hr & Hc). rewrite He. simpl.
    exists (mkUnifier (mkTable e (vars (utable u)) (max_universe (utable u))) (ugoals u)), (universe_min wa wb).
    split_and!; [done..| | |].
    + constructor; simpl.
      * exists r. split; [done|]. intros y. destruct (Nat.lt_ge_cases y (ena_len (ena u))) as [Hy|Hy].
        -- specialize (Hc y Hy). case_decide; by destruct Hc.
        -- rewrite decide_False by (by apply Hout). rewrite !find_out by (done || lia). done.
      * intros y Hy. destruct (Nat.lt_ge_cases y (ena_len (ena u))) as [Hlt|Hge]; [|by apply Hout in Hge].
        specialize (Hc y Hlt). rewrite decide_True in Hc by done. destruct Hc as [_ Hc]. by eexists.
      * intros y Hy. destruct (Nat.lt_ge_cases y (ena_len (ena u))) as [Hlt|Hge].
        -- specialize (Hc y Hlt). rewrite decide_False in Hc by done. by destruct Hc.
        -- rewrite !probe_out by (done || lia). done.
    + destruct wa as [wa], wb as [wb]. unfold universe_min. simpl.
      destruct (Nat.min_spec wa wb) as [[_ ->]|[_ ->]]; auto.
    + simpl. intros y Hy Hlt. rewrite Hlen in Hlt. specialize (Hc y Hlt). rewrite decide_True in Hc by done. by destruct Hc.
Qed.

Lemma valid_unify_var_var a b k wa wb κ u (P : Valuation → Prop) : in_order κ u → sorted κ a k → sorted κ b k →
  ena_probe_value (ena u) a = Unbound wa → ena_probe_value (ena u) b = Unbound wb →
  (∀ σ, Sol κ σ u → P σ → sort_eq k σ σ a b) →
  valid (unify_var_var a b) κ u P (λ _ κ' u', κ' = κ ∧ merge_facts a b u u') (λ _ _, True).
Proof.
  intros Hg Ha Hb Hwa Hwb HP.
  destruct (unify_var_var_facts κ u a b k wa wb Hg Ha Hb Hwa Hwb)
    as (u' & w & Hu & Hwf' & Hlen' & Hgoals & Hf & Hw & Hnew).
  unfold valid. rewrite Hu. exists κ. pose proof Hf as [[r [Hr Hfind]] _ Hother].
  destruct (good_table _ _ Hg) as [Hwf Hlen Hcl Hval].
  assert (∀ y k', sorted κ y k' → ena_find (ena u) y = ena_find (ena u) a ∨ ena_find (ena u) y = ena_find (ena u) b →
    k' = k) as Hkind.
  { intros y k' Hy [Hd|Hd]; [eapply (class_kind κ u a)|eapply (class_kind κ u b)]; done. }
  assert (∀ y k' b', sorted κ y k' → ena_probe_value (ena u') y = Bound b' → ena_probe_value (ena u) y = Bound b') as Hbound.
  { intros y k' b' Hy Hb'. destruct (decide (ena_find (ena u) y = ena_find (ena u) a ∨ ena_find (ena u) y = ena_find (ena u) b)) as [Hd|Hd].
    - rewrite Hnew in Hb'; [done|done|by eapply sorted_lt].
    - by rewrite <- Hother. }
  split_and!; [done| |done|done|].
  - constructor; [|rewrite Hgoals; apply Hg]. constructor; [done|congruence| |].
    + intros y k' Hy. rewrite Hfind. case_decide as Hd; [|by apply Hcl].
      rewrite (Hkind y k' Hy Hd). destruct Hr as [-> | ->]; by apply Hcl.
    + intros y k' b' Hy Hb'. eapply Hval; [done|]. by eapply Hbound.
  - intros σ Hσ HPσ. exists σ. split; [apply agree_refl|]. split; [|done].
    specialize (HP σ Hσ HPσ). destruct (Hσ) as [[Sc Sb Su Sk] Sg].
    assert (∀ y, sorted κ y k → ena_find (ena u) y = ena_find (ena u) a ∨ ena_find (ena u) y = ena_find (ena u) b →
      sort_eq k σ σ y a) as Hcls.
    { intros y Hy [Hd|Hd]; [by eapply (class_value κ u a)|].
      eapply sort_eq_trans; [by eapply (class_value κ u b)|]. by apply sort_eq_sym. }
    constructor; [constructor|by rewrite Hgoals].
    + intros y k' Hy. rewrite Hfind. case_decide as Hd; [|by apply Sc].
      assert (k' = k) as -> by (by eapply Hkind). eapply sort_eq_trans; [by apply Hcls|].
      destruct Hr as [-> | ->]; [by apply Sc|]. eapply sort_eq_trans; [exact HP|by apply Sc].
    + intros y b' Hy Hb'. destruct (lookup_lt_is_Some_2 _ _ Hy) as [k' Hk'].
      apply Sb; [done|]. by eapply Hbound.
    + intros y k' w' Hy. destruct (decide (ena_find (ena u) y = ena_find (ena u) a ∨ ena_find (ena u) y = ena_find (ena u) b)) as [Hd|Hd].
      * rewrite Hnew; [|done|by eapply sorted_lt]. intros [= <-].
        assert (k' = k) as -> by (by eapply Hkind). eapply sort_in_class; [by apply Hcls|].
        destruct Hw as [-> | ->]; [by apply (Su a)|].
        eapply sort_in_class; [|by apply (Su b k wb)]. done.
      * rewrite Hother by done. by apply Su.
    + done.
Qed.

(** *** Goals *)

Lemma valid_push_goal a b κ u (P : Valuation → Prop) : in_order κ u → fo_lt (sorted κ) a → fo_lt (sorted κ) b →
  (∀ l, ME.(outlives) l l) → (∀ σ, Sol κ σ u → P σ → apply_lt σ a = apply_lt σ b) →
  valid (push_goal env (outlives_goal a b)) κ u P (λ _ κ' u', κ' = κ ∧ u'.(utable) = u.(utable)) (λ _ _, True).
Proof.
  intros [Ht Hgs] Ha Hb Hrefl HP. exists κ. split_and!; [done| |done|done|].
  - constructor; [done|]. apply Forall_app_2; [done|]. apply Forall_singleton. by exists a, b.
  - intros σ Hσ HPσ. exists σ. split; [apply agree_refl|]. split; [|done].
    pose proof (HP σ Hσ HPσ) as Heq. destruct Hσ as [Hσ Hσg]. constructor; [done|].
    apply Forall_app_2; [done|]. apply Forall_singleton. simpl. by rewrite Heq.
Qed.

Lemma valid_push_outlives v a b κ u (P : Valuation → Prop) : in_order κ u → fo_lt (sorted κ) a → fo_lt (sorted κ) b →
  (∀ l, ME.(outlives) l l) → (∀ σ, Sol κ σ u → P σ → apply_lt σ a = apply_lt σ b) →
  valid (push_lifetime_outlives_goals env v a b) κ u P (λ _ κ' u', κ' = κ ∧ u'.(utable) = u.(utable)) (λ _ _, True).
Proof.
  intros Hg Ha Hb Hrefl HP. unfold push_lifetime_outlives_goals.
  eapply (valid_bind _ _ _ _ _ (λ _ κ' u', κ' = κ ∧ u'.(utable) = u.(utable)) (λ _ _, True)).
  - case_bool_decide; [by apply valid_push_goal|by apply valid_ret].
  - intros [] κ1 u1 _ Hg1 [-> Hu1]. case_bool_decide; [|by apply valid_ret].
    eapply valid_weaken; [apply (valid_push_goal b a κ u1 (λ σ, apply_lt σ a = apply_lt σ b)); try done|..].
    + intros σ _ (_ & σ0 & Hag & Hσ0 & HP0). rewrite <- !(agree_lt κ σ0 σ Hag) by done. by apply HP.
    + intros [] κ' u' _ _ [-> ->]. by split.
    + done.
Qed.

(** ** The number of unbound type variables *)

Abbreviation N κ u := (unbound_types κ u.(utable)).

Definition is_ty (k : VariableKind) : bool := match k with VkTy _ => true | _ => false end.

Lemma is_ty_root_spec κ u v : is_ty_root κ (ena u) v = true ↔
  ena_find (ena u) v = v ∧ is_unbound (ena u) v ∧ ∃ k, sorted κ v (VkTy k).
Proof.
  unfold is_ty_root, is_unbound, sorted. rewrite !andb_true_iff, bool_decide_eq_true.
  split.
  - intros [[Hf Hp] Hk]. split; [done|]. split.
    + destruct (ena_probe_value (ena u) v); [by eexists|done].
    + destruct (κ !! v) as [[]|]; try done. by eexists.
  - intros (Hf & [w Hw] & k & Hk). by rewrite Hw, Hk.
Qed.

Lemma is_ty_root_eq κ κ' u u' v :
  (is_ty_root κ (ena u) v = true ↔ is_ty_root κ' (ena u') v = true) →
  is_ty_root κ (ena u) v = is_ty_root κ' (ena u') v.
Proof. intros Hiff. apply eq_true_iff_eq. exact Hiff. Qed.

Lemma N_fresh w κ k u v κ' u' : fresh_facts w κ k u v κ' u' →
  N κ' u' = N κ u + (if is_ty k then 1 else 0).
Proof.
  intros [-> -> Hfind Hprobe Hout _]. unfold unbound_types. rewrite length_app. simpl.
  rewrite Nat.add_1_r. simpl. rewrite (count_ext _ (is_ty_root κ (ena u)) (length κ)).
  2: { intros y Hy. apply is_ty_root_eq. rewrite !is_ty_root_spec. unfold is_unbound, sorted.
    rewrite Hfind, Hprobe, decide_False, lookup_app_l by lia. done. }
  rewrite Nat.add_comm. f_equal. unfold is_ty_root.
  rewrite Hfind, Hprobe, decide_True, Hout, bool_decide_true by done.
  rewrite lookup_app_r, Nat.sub_diag by done. by destruct k.
Qed.

(** The root of an unbound class of type variables. *)
Lemma root_of κ u v k : in_order κ u → sorted κ v (VkTy k) → is_unbound (ena u) v →
  let r := ena_find (ena u) v in
  r < length κ ∧ is_ty_root κ (ena u) r = true.
Proof.
  intros [[Hwf Hlen Hcl _] _] Hv [w Hw] r. pose proof (sorted_lt _ _ _ Hv) as Hlt. rewrite Hlen in *.
  pose proof (find_lt _ _ Hwf Hlt). split; [done|]. apply is_ty_root_spec.
  split; [by apply find_find|]. split; [|exists k; by apply Hcl]. exists w. rewrite <- Hw.
  apply probe_find; [done..|]. by apply find_find.
Qed.

Lemma N_bind κ u u' v k b : in_order κ u → sorted κ v (VkTy k) → is_unbound (ena u) v →
  value_facts v (Bound b) u u' → N κ u = S (N κ u').
Proof.
  intros Hg Hv Hun [Hfind Hprobe]. destruct (root_of κ u v k Hg Hv Hun) as [Hr Hroot].
  unfold unbound_types. apply (count_remove _ _ _ (ena_find (ena u) v)); [done|done| |].
  - apply not_true_iff_false. rewrite is_ty_root_spec. intros (Hf & [w Hw] & _).
    rewrite Hfind in Hf. rewrite Hprobe, decide_True in Hw; done.
  - intros y Hy Hne. apply is_ty_root_eq. rewrite !is_ty_root_spec. unfold is_unbound.
    rewrite Hfind, Hprobe. case_decide as Hd; [|done].
    split; intros (Hf & _); congruence.
Qed.

(** An update that no unbound type variable sees. *)
Lemma N_same κ u u' :
  (∀ y, ena_find (ena u') y = ena_find (ena u) y) →
  (∀ y k, sorted κ y (VkTy k) → is_unbound (ena u') y ↔ is_unbound (ena u) y) →
  N κ u' = N κ u.
Proof.
  intros Hfind Hun. unfold unbound_types. apply count_ext. intros y Hy.
  apply is_ty_root_eq. rewrite !is_ty_root_spec, Hfind.
  split; intros (? & Hu & k & Hk); (split; [done|split; [|by exists k]]); by eapply Hun.
Qed.

Lemma N_value_other κ u u' v k x : in_order κ u → sorted κ v k → is_ty k = false →
  value_facts v x u u' → N κ u' = N κ u.
Proof.
  intros Hg Hv Hk [Hfind Hprobe]. apply N_same; [done|]. intros y k' Hy. unfold is_unbound.
  rewrite Hprobe, decide_False; [done|]. intros Heq.
  by rewrite <- (class_kind κ u v k y (VkTy k')) in Hk.
Qed.

Lemma N_promote κ u u' v w x : in_order κ u → v < length κ → ena_probe_value (ena u) v = Unbound w →
  value_facts v (Unbound x) u u' → N κ u' = N κ u.
Proof.
  intros [[Hwf Hlen _ _] _] Hv Hw [Hfind Hprobe]. apply N_same; [done|]. intros y k' Hy%sorted_lt. unfold is_unbound.
  rewrite Hprobe. case_decide as Hd; [|done].
  rewrite (probe_find (ena u) y v) by (done || lia). naive_solver.
Qed.

Lemma N_merge κ u u' a b k : in_order κ u → sorted κ a k → sorted κ b k →
  is_unbound (ena u) a → is_unbound (ena u) b → merge_facts a b u u' →
  N κ u = N κ u' + (if is_ty k && bool_decide (ena_find (ena u) a ≠ ena_find (ena u) b) then 1 else 0).
Proof.
  intros Hg Ha Hb Hua Hub [[r [Hr Hfind]] Hmerged Hother].
  pose proof (good_table _ _ Hg) as [Hwf Hlen Hcl _].
  pose proof (sorted_lt _ _ _ Ha) as Hla. pose proof (sorted_lt _ _ _ Hb) as Hlb. rewrite Hlen in Hla, Hlb.
  assert (ena_find (ena u) r = r) as Hrr by (destruct Hr as [-> | ->]; by apply find_find).
  assert (∀ y, sorted κ y k → (ena_find (ena u) y = ena_find (ena u) a ∨ ena_find (ena u) y = ena_find (ena u) b) →
    is_unbound (ena u) y) as Hun.
  { intros y Hy%sorted_lt Hd. rewrite Hlen in Hy. destruct Hua as [wa Hwa], Hub as [wb Hwb].
    destruct Hd as [Hd|Hd]; [exists wa; rewrite <- Hwa|exists wb; rewrite <- Hwb]; by apply probe_find. }
  (* roots other than those of the two classes stay roots, and no others are made *)
  assert (∀ y, y ≠ ena_find (ena u) a ∨ r = y → y ≠ ena_find (ena u) b ∨ r = y →
    is_ty_root κ (ena u) y = is_ty_root κ (ena u') y) as Hsame.
  { intros y Hya Hyb. apply is_ty_root_eq. rewrite !is_ty_root_spec, Hfind.
    case_decide as Hd.
    - split.
      + intros (Hf & _ & k' & Hk'). split; [|split; [by apply Hmerged|by exists k']].
        rewrite Hf in Hd. destruct Hd as [-> | ->], Hya, Hyb; done.
      + intros (<- & _ & k' & Hk'). split; [done|]. split; [|by exists k'].
        assert (VkTy k' = k) as Hkk.
        { destruct Hd as [Hd|Hd]; [eapply (class_kind κ u a)|eapply (class_kind κ u b)]; done. }
        subst k. by apply Hun.
    - unfold is_unbound. by rewrite Hother. }
  unfold unbound_types. destruct k as [k| |]; simpl; rewrite ?Nat.add_0_r.
  2,3: apply count_ext; intros y Hy; apply is_ty_root_eq; rewrite !is_ty_root_spec, Hfind;
    case_decide as Hd; [|unfold is_unbound; by rewrite Hother];
    split; intros (_ & _ & k' & Hk'); exfalso;
    destruct Hd as [Hd|Hd]; [pose proof (class_kind κ u a _ y _ Hg Ha Hk' Hd)|pose proof (class_kind κ u b _ y _ Hg Hb Hk' Hd)
      |pose proof (class_kind κ u a _ y _ Hg Ha Hk' Hd)|pose proof (class_kind κ u b _ y _ Hg Hb Hk' Hd)]; done.
  case_bool_decide as Hab; [|rewrite Nat.add_0_r; apply count_ext; intros y Hy;
    apply Hsame; destruct (decide (y = ena_find (ena u) a)), (decide (y = ena_find (ena u) b)); destruct Hr; subst; auto; congruence].
  rewrite Nat.add_1_r.
  assert (∃ d, (d = ena_find (ena u) a ∨ d = ena_find (ena u) b) ∧ d ≠ r ∧
    is_ty_root κ (ena u) d = true ∧ d < length κ ∧ ∀ y, y ≠ d → y ≠ ena_find (ena u) a ∧ y ≠ ena_find (ena u) b ∨ r = y) as (d & Hd & Hdr & Hroot & Hdl & Hrest).
  { destruct Hr as [-> | ->]; [exists (ena_find (ena u) b)|exists (ena_find (ena u) a)].
    all: split_and!; [auto|done|eapply root_of; eauto|eapply root_of; eauto|].
    all: intros y Hy; destruct (decide (ena_find (ena u) a = y)), (decide (ena_find (ena u) b = y)); subst; auto. }
  apply (count_remove _ _ _ d); [done|done| |].
  - apply not_true_iff_false. rewrite is_ty_root_spec, Hfind, decide_True; [by intros [? _]|].
    destruct Hd as [-> | ->]; [left|right]; by apply find_find.
  - intros y _ Hy. apply Hsame; destruct (Hrest y Hy) as [[? ?]|?]; auto.
Qed.

(** What later steps may add to the conclusion of an earlier one. *)
Lemma valid_carry {A} (S : Valuation → Prop) (m : SE U A) κ u (P P' : Valuation → Prop) Q R :
  (∀ σ σ', agree κ σ σ' → S σ → S σ') → valid m κ u P Q R →
  (∀ σ, Sol κ σ u → P' σ → P σ ∧ S σ) →
  valid m κ u P' Q (λ a σ', R a σ' ∧ S σ').
Proof.
  unfold valid. intros HS Hm HP. destruct (m u) as [[a| | |] u1]; try done.
  - destruct Hm as (κ1 & Hp & Hg1 & HQ & Hσ1). exists κ1. split_and!; [done..|].
    intros σ Hσ HP'. destruct (HP σ Hσ HP') as [HPσ HSσ].
    destruct (Hσ1 σ Hσ HPσ) as (σ1 & Ha & Hs & HR). exists σ1. eauto 6.
  - intros σ Hσ HP'. apply (Hm σ Hσ). by apply HP.
Qed.

(** ** The occurs check *)

(** Classes and values are kept, and so is the number of unbound types. *)
Record keep (κ κ' : Sorts) (u u' : U) : Prop := {
  keep_find y : ena_find (ena u') y = ena_find (ena u) y;
  keep_bound y b : ena_probe_value (ena u') y = Bound b ↔ ena_probe_value (ena u) y = Bound b;
  keep_n : N κ' u' = N κ u
}.

Lemma keep_refl κ u : keep κ κ u u.
Proof. done. Qed.
Lemma keep_trans κ κ1 κ2 u u1 u2 : keep κ κ1 u u1 → keep κ1 κ2 u1 u2 → keep κ κ2 u u2.
Proof.
  intros [F1 B1 N1] [F2 B2 N2]. constructor; [|intros y b|].
  - intros y. by rewrite F2.
  - by rewrite B2.
  - by rewrite N2.
Qed.

Lemma keep_table κ u u' : u'.(utable) = u.(utable) → keep κ κ u u'.
Proof. intros Hu. by split; rewrite Hu. Qed.

Lemma keep_fresh w κ k u v κ' u' : in_order κ u → is_ty k = false → fresh_facts w κ k u v κ' u' → keep κ κ' u u'.
Proof.
  intros [[Hwf Hlen _ _] _] Hk Hff. pose proof (N_fresh _ _ _ _ _ _ _ Hff) as HN.
  destruct Hff as [-> -> Hfind Hprobe Hout _].
  constructor; [done| |by rewrite HN, Hk; lia]. intros y b. rewrite Hprobe. case_decide; [|done].
  subst. rewrite probe_out by (done || lia). done.
Qed.

Lemma is_unbound_keep κ κ' u u' v : keep κ κ' u u' → is_unbound (ena u) v → is_unbound (ena u') v.
Proof.
  intros Hk [w Hw]. unfold is_unbound. destruct (ena_probe_value (ena u') v) as [w'|b] eqn:Hv; [by exists w'|].
  apply (keep_bound _ _ _ _ Hk) in Hv. congruence.
Qed.

Lemma height_keep κ κ' u u' n t : keep κ κ' u u' → height_le (ena u) n t → height_le (ena u') n t.
Proof. intros Hk. apply height_same. intros v t'. apply (keep_bound _ _ _ _ Hk). Qed.

Lemma valid_promote ui w v k κ u (P : Valuation → Prop) : in_order κ u → sorted κ v k →
  ena_probe_value (ena u) v = Unbound w →
  (∀ σ, Sol κ σ u → P σ → sort_in k ui σ v) →
  valid (promote ui w v) κ u P (λ _ κ' u', κ' = κ ∧ keep κ κ' u u') (λ _ _, True).
Proof.
  intros Hg Hv Hw HP. unfold promote, universe_lt. destruct (Nat.ltb_spec ui.(counter) w.(counter)) as [Hlt|Hge];
    [|by apply valid_ret].
  eapply valid_weaken; [eapply (valid_unify_value v (Unbound ui) (Unbound ui) k w κ u P Hg Hv Hw)|..]; try done.
  - simpl. unfold universe_min. destruct w as [w], ui as [x]. simpl in *. do 2 f_equal. f_equal. lia.
  - intros [] κ' u' _ _ [-> Hf]. split; [done|].
    pose proof (N_promote κ u u' v w ui Hg (sorted_lt _ _ _ Hv) Hw Hf) as HN. destruct Hf as [Hfind Hprobe].
    constructor; [done| |done]. intros y b. rewrite Hprobe. case_decide as Hd; [|done].
    split; [done|]. intros Hb. destruct (good_table _ _ Hg) as [Hwf Hlen _ _].
    destruct (Nat.lt_ge_cases y (ena_len (ena u))) as [Hy|Hy]; [|by rewrite probe_out in Hb].
    pose proof (sorted_lt _ _ _ Hv). rewrite (probe_find (ena u) y v) in Hb by (done || lia). congruence.
Qed.

Section Occurs.
Context (Hrefl : ∀ l, ME.(outlives) l l).
Context (x : InferenceVar) (ui : UniverseIndex).
Abbreviation OC n := (OccursCheck env n x ui).

(** A variable that the check of [x] leaves. *)
Definition checked (κ : Sorts) (u : U) (v : InferenceVar) (k : VariableKind) : Prop :=
  sorted κ v k ∧ is_unbound (ena u) v ∧ ena_find (ena u) v ≠ ena_find (ena u) x.

Lemma checked_keep κ κ' u u' v k : κ `prefix_of` κ' → keep κ κ' u u' → checked κ u v k → checked κ' u' v k.
Proof.
  intros Hp Hk (Hv & Hu & Hx). split_and!; [by eapply sorted_mono|by eapply is_unbound_keep|].
  by rewrite !(keep_find _ _ _ _ Hk).
Qed.

Lemma checked_other κ u v k kx : in_order κ u → sorted κ x (VkTy kx) → sorted κ v k → is_ty k = false →
  is_unbound (ena u) v → checked κ u v k.
Proof.
  intros Hg Hx Hv Hk Hun. split_and!; [done..|]. intros Hf.
  by rewrite (class_kind κ u x (VkTy kx) v k) in Hk.
Qed.

Definition occ_lt κ u (l' : Lifetime) κ' u' : Prop := keep κ κ' u u' ∧ fo_lt (checked κ' u') l'.

(** A lifetime that is not a variable. *)
Lemma occurs_lt_ground n kx l κ u : in_order κ u → sorted κ x (VkTy kx) →
  match l with LtBoundVar _ | LtInferenceVar _ => False | _ => True end →
  valid (fold_lifetime (OC n) l INNERMOST) κ u (λ _, True) (λ l' κ' u', occ_lt κ u l' κ' u')
    (λ l' σ', apply_lt σ' l' = l).
Proof.
  intros Hg Hx Hl.
  assert (fold_lifetime (OC n) = super_fold_lifetime (OC n)) as -> by (by destruct n).
  destruct l as [|v|p| | |]; try done; try (apply valid_ret; [done|by split|done]). simpl.
  assert (fold_free_placeholder_lifetime (OC n) p INNERMOST =
    if universe_lt ui p.(Ir.ui) then
      tick_x ← fresh_var ui;
      _ ← push_lifetime_outlives_goals env Invariant (var_to_lifetime tick_x) (LtPlaceholder p);
      mret (var_to_lifetime tick_x)
    else mret (LtPlaceholder p)) as -> by (by destruct n).
  destruct (universe_lt _ _); [|apply valid_ret; [done|by split|done]].
  eapply valid_bind; [apply (valid_fresh ui VkLifetime κ u _ (λ _, ArgLifetime (LtPlaceholder p))); [done|by split]|].
  intros v κ1 u1 Hp1 Hg1 Hff. simpl in Hff.
  assert (sorted κ1 v VkLifetime) as Hv.
  { destruct Hff as [-> -> _ _ _ _]. apply sorted_snoc. by right. }
  pose proof (keep_fresh ui κ VkLifetime u v κ1 u1 Hg eq_refl Hff) as Hk1.
  eapply valid_bind.
  { eapply (valid_carry (λ σ, apply_lt σ (var_to_lifetime v) = LtPlaceholder p)).
    - intros σ σ' Ha. by rewrite (agree_lt κ1 σ σ' Ha).
    - apply (valid_push_outlives Invariant (var_to_lifetime v) (LtPlaceholder p) κ1 u1
        (λ σ, apply_lt σ (var_to_lifetime v) = LtPlaceholder p)); done.
    - intros σ _ ((σ0 & _ & _ & _ & Hv') & _). done. }
  simpl. intros [] κ2 u2 Hp2 Hg2 [-> Hu2]. apply valid_ret; [done| |].
  - pose proof (keep_table κ1 u1 u2 Hu2) as Hk2. split; [by eapply keep_trans|].
    simpl. eapply checked_other; [done|exact (sorted_mono _ _ _ _ Hp1 Hx)|done|done|].
    eapply is_unbound_keep; [exact Hk2|]. exists ui.
    destruct Hff as [-> _ _ Hprobe _ _]. by rewrite Hprobe, decide_True.
  - intros σ _ ((_ & HR) & _). exact HR.
Qed.

(** The value of a bound variable: it is selected, checked and must not need a shift. *)
Lemma valid_value {A} (sel : Fallible A) a (m : A → SE U A) (check : A → bool) κ u P Q R :
  sel = Val a → valid (m a) κ u P Q R → (∀ a' κ' u', Q a' κ' u' → check a' = true) →
  valid (y ← se_lift sel; y ← m y; _ ← se_lift (assert (check y)); mret y) κ u P Q R.
Proof.
  intros -> Hm Hcheck. unfold valid in *. unfold mbind, SE_bind, se_lift.
  destruct (m a u) as [[a'| | |] u']; try done. destruct Hm as (κ' & ? & ? & HQ & ?).
  rewrite (Hcheck _ _ _ HQ). simpl. by exists κ'.
Qed.

(** The value of [v] in later solutions. *)
Lemma later_value κ u v k b σ σ' : in_order κ u → sorted κ v k → ena_probe_value (ena u) v = Bound b →
  Sol κ σ u → agree κ σ σ' → val_is σ' v b.
Proof.
  intros Hg Hv Hb [Hs _] Ha. eapply agree_val_is; [exact Ha|exact Hv| |].
  - by eapply (tok_value _ _ _ (good_table _ _ Hg)).
  - eapply (sol_bound _ _ _ Hs); [by eapply sorted_lt|done].
Qed.

(** An unbound variable is promoted. *)
Lemma occurs_unbound {A} v k w (a : A) κ u (P : Valuation → Prop) : in_order κ u → sorted κ v k →
  ena_probe_value (ena u) v = Unbound w → ena_find (ena u) v ≠ ena_find (ena u) x →
  (∀ σ, Sol κ σ u → P σ → sort_in k ui σ v) →
  valid (_ ← promote ui w v; mret a) κ u P
    (λ a' κ' u', keep κ κ' u u' ∧ a' = a ∧ checked κ' u' v k) (λ a' _, a' = a).
Proof.
  intros Hg Hv Hw Hx HP. eapply valid_bind; [by apply (valid_promote ui w v k)|].
  intros [] κ1 u1 Hp Hg1 [-> Hk]. apply valid_ret; [done| |auto]. split; [done|]. split; [done|].
  split_and!; [done| |by rewrite !(keep_find _ _ _ _ Hk)]. eapply is_unbound_keep; [done|by exists w].
Qed.

Lemma valid_by {A} (m m' : SE U A) κ u P (Q : A → Sorts → U → Prop) R :
  valid m' κ u P Q R → m u = m' u → valid m κ u P Q R.
Proof. intros Hm He. by eapply valid_eq. Qed.

Lemma occurs_lt n kx l κ u : in_order κ u → sorted κ x (VkTy kx) → fo_lt (sorted κ) l →
  valid (fold_lifetime (OC (S n)) l INNERMOST) κ u (λ _, True) (λ l' κ' u', occ_lt κ u l' κ' u')
    (λ l' σ', apply_lt σ' l' = apply_lt σ' l).
Proof.
  intros Hg Hx Hl.
  destruct l as [bv|v|p| | |]; try done; try (eapply valid_weaken; [by apply (occurs_lt_ground _ kx)|..]; done).
  simpl in Hl. destruct (ena_probe_value (ena u) v) as [w|b] eqn:Hv.
  - eapply valid_by; [|change (fold_lifetime (OC (S n)) (LtInferenceVar v) INNERMOST u) with
      (match ena_probe_value (ena u) v with
       | Unbound w => (_ ← promote ui w v; mret (var_to_lifetime v)) u
       | Bound l => (l ← se_lift (assert_lifetime_ref l); l ← fold_lifetime (OC n) l INNERMOST;
           _ ← se_lift (assert (negb (lifetime_needs_shift l))); mret l) u
       end); by rewrite Hv].
    eapply valid_weaken; [apply (occurs_unbound v VkLifetime w (var_to_lifetime v) κ u (λ _, True))|..]; try done.
    + intros Hf. by pose proof (class_kind κ u x (VkTy kx) v VkLifetime Hg Hx Hl Hf).
    + intros l' κ' u' _ _ (Hk & -> & Hc). by split.
    + by intros l' σ' ->.
  - pose proof (tok_value _ _ _ (good_table _ _ Hg) v _ b Hl Hv) as Hok.
    destruct b as [|l|]; try done. simpl in Hok.
    eapply valid_by; [|change (fold_lifetime (OC (S n)) (LtInferenceVar v) INNERMOST u) with
      (match ena_probe_value (ena u) v with
       | Unbound w => (_ ← promote ui w v; mret (var_to_lifetime v)) u
       | Bound l => (l ← se_lift (assert_lifetime_ref l); l ← fold_lifetime (OC n) l INNERMOST;
           _ ← se_lift (assert (negb (lifetime_needs_shift l))); mret l) u
       end); by rewrite Hv].
    eapply valid_conseq; [eapply (valid_value _ l (λ l, fold_lifetime (OC n) l INNERMOST));
      [done|by apply (occurs_lt_ground n kx)|]|done|].
    + intros l' κ' u' [_ Hl']. by destruct l'.
    + intros l' κ' u' _ _ HQ. split; [done|]. intros σ σ' Hσ _ Ha _ ->.
      pose proof (later_value κ u v _ _ σ σ' Hg Hl Hv Hσ Ha) as Hval. simpl in Hval.
      change (l = σ'.(val_lt) v). rewrite Hval. by destruct l.
Qed.

Lemma occurs_ct_ground_state n c κ u : in_order κ u → fo_ct (λ _ _, False) c →
  valid (fold_const (OC n) c INNERMOST) κ u (λ _, ct_in ui c)
    (λ c' κ' u', c' = c ∧ κ' = κ ∧ u' = u) (λ c' _, c' = c).
Proof.
  intros Hg Hc. destruct c as [[] []]; try done; [|by apply valid_ret].
  assert (fold_const (OC n) (mkConst (TyScalar s) (CvPlaceholder p)) INNERMOST =
    if universe_lt ui p.(Ir.ui) then se_err else mret (mkConst (TyScalar s) (CvPlaceholder p))) as ->
    by (by destruct n).
  unfold universe_lt. destruct (Nat.ltb_spec (counter ui) (counter (Ir.ui p))) as [Hlt|]; [|by apply valid_ret].
  apply valid_err. intros σ _ Hin. apply Forall_inv in Hin. simpl in Hin. lia.
Qed.

Lemma occurs_ct_ground n c κ u : in_order κ u → fo_ct (λ _ _, False) c →
  valid (fold_const (OC n) c INNERMOST) κ u (λ _, ct_in ui c)
    (λ c' κ' u', c' = c ∧ keep κ κ' u u') (λ c' _, c' = c).
Proof.
  intros Hg Hc. eapply valid_weaken; [by apply occurs_ct_ground_state|done| |done].
  by intros c' κ' u' _ _ (-> & -> & ->).
Qed.

Lemma ct_ground_shift c : fo_ct (λ _ _, False) c → const_needs_shift c = false.
Proof. by destruct c as [[] []]. Qed.

Lemma apply_ct_ground σ c : fo_ct (λ _ _, False) c → apply_ct σ c = c.
Proof. by destruct c as [[] []]. Qed.

Lemma occurs_ct n kx c κ u : in_order κ u → sorted κ x (VkTy kx) → fo_ct (sorted κ) c →
  valid (fold_const (OC (S n)) c INNERMOST) κ u (λ σ, ct_in ui (apply_ct σ c))
    (λ c' κ' u', keep κ κ' u u' ∧ fo_ct (checked κ' u') c')
    (λ c' σ', apply_ct σ' c' = apply_ct σ' c).
Proof.
  intros Hg Hx Hc.
  assert (fo_ct (λ _ _, False) c → valid (fold_const (OC (S n)) c INNERMOST) κ u (λ σ, ct_in ui (apply_ct σ c))
    (λ c' κ' u', keep κ κ' u u' ∧ fo_ct (checked κ' u') c') (λ c' σ', apply_ct σ' c' = apply_ct σ' c)) as Hground.
  { intros Hc'. eapply valid_weaken; [by apply (occurs_ct_ground _ _ _ _ Hg Hc')|..].
    - intros σ _. by rewrite apply_ct_ground.
    - intros c' κ' u' _ _ [-> Hk]. split; [done|]. by eapply fo_ct_mono; [|exact Hc'].
    - by intros c' σ' ->. }
  destruct c as [[] [|v| |]]; try done; [|by apply Hground..]. simpl in Hc. clear Hground.
  set (ty := TyScalar s) in *.
  assert (fold_const (OC (S n)) (mkConst ty (CvInferenceVar v)) INNERMOST u =
    match ena_probe_value (ena u) v with
    | Bound c => (c ← se_lift (assert_const_ref c); c ← fold_const (OC n) c INNERMOST;
        _ ← se_lift (assert (negb (const_needs_shift c))); mret c) u
    | Unbound w => if ena_unioned (ena u) v x then se_err u
        else (_ ← promote ui w v; mret (var_to_const v ty)) u
    end) as Heq by reflexivity.
  destruct (ena_probe_value (ena u) v) as [w|b] eqn:Hv.
  - assert (ena_find (ena u) v ≠ ena_find (ena u) x) as Hf.
    { intros Hf. by pose proof (class_kind κ u x (VkTy kx) v _ Hg Hx Hc Hf). }
    unfold ena_unioned in Heq. rewrite bool_decide_false in Heq by done.
    eapply valid_by; [|exact Heq].
    eapply valid_weaken; [apply (occurs_unbound v (VkConst ty) w (var_to_const v ty) κ u
      (λ σ, ct_in ui (apply_ct σ (mkConst ty (CvInferenceVar v)))))|..]; try done.
    + intros c' κ' u' _ _ (Hk & -> & Hch). by split.
    + by intros c' σ' ->.
  - pose proof (tok_value _ _ _ (good_table _ _ Hg) v _ b Hc Hv) as Hok.
    destruct b as [| |c]; try done. destruct Hok as [Hty Hok].
    eapply valid_by; [|exact Heq].
    eapply valid_conseq; [eapply (valid_value _ c (λ c, fold_const (OC n) c INNERMOST));
      [done|by apply occurs_ct_ground|]|..].
    + intros c' κ' u' [-> _]. by rewrite ct_ground_shift.
    + intros σ Hσ Hin. pose proof (later_value κ u v _ _ σ σ Hg Hc Hv Hσ (agree_refl _ _)) as Hval.
      simpl in Hval. change (ct_in ui (σ.(val_ct) v)) in Hin. by rewrite Hval, apply_ct_ground in Hin.
    + intros c' κ' u' _ _ [-> Hk]. split; [split; [done|]; by eapply fo_ct_mono; [|exact Hok]|].
      intros σ σ' Hσ _ Ha _ _. symmetry. exact (later_value κ u v _ _ σ σ' Hg Hc Hv Hσ Ha).
Qed.

(** [t] can be a part of the value of [x] (all of it, unless it is a variable). *)
Definition part_ty (t : Ty) (σ : Valuation) : Prop :=
  ty_in ui (apply_ty σ t) ∧
  (if is_var t then tsize (apply_ty σ t) < tsize (σ.(val_ty) x)
   else tsize (apply_ty σ t) ≤ tsize (σ.(val_ty) x)).
Definition part_arg (a : GenericArg) (σ : Valuation) : Prop :=
  match a with ArgTy t => part_ty t σ | ArgLifetime _ => True | ArgConst c => ct_in ui (apply_ct σ c) end.

Lemma part_args h s σ : fits db h s → part_ty (con h s) σ → Forall (λ a, part_arg a σ) s.
Proof.
  intros Hf [Hin Hsize].
  rewrite (con_is_var db) in Hsize by done. rewrite (apply_con db) in Hin, Hsize by done.
  assert (fits db h (apply_arg σ <$> s)) as Hf' by (eapply fits_same; [done|apply apply_same]).
  unfold ty_in in Hin. rewrite (leaves_con db) in Hin by done. rewrite (tsize_con db) in Hsize by done.
  rewrite Forall_fmap in Hin. apply Forall_forall. intros a Ha. rewrite Forall_forall in Hin. specialize (Hin a Ha).
  destruct a as [t|l|c]; [|done|exact Hin]. split; [exact Hin|].
  assert (tsize (apply_ty σ t) ≤ sum_list (map asize (apply_arg σ <$> s))) as Hle.
  { apply (sum_list_with_in (asize (ArgTy (apply_ty σ t))) id), list_elem_of_fmap.
    exists (ArgTy (apply_ty σ t)). split; [done|]. apply list_elem_of_fmap. by exists (ArgTy t). }
  destruct (is_var t); lia.
Qed.

Lemma part_agree κ σ σ' kx a : sorted κ x (VkTy kx) → agree κ σ σ' → fo_arg db (sorted κ) a →
  part_arg a σ → part_arg a σ'.
Proof.
  intros Hx Ha Hfo. pose proof (Ha x _ Hx) as Hxx. simpl in Hxx.
  destruct Hfo as [t Ht|l Hl|c Hc]; simpl; [|done|].
  - unfold part_ty. by rewrite (agree_ty db κ σ σ' Ha t Ht), Hxx.
  - by rewrite (agree_ct κ σ σ' Ha c Hc).
Qed.

Record occ_ty (n : nat) (κ : Sorts) (u : U) (t t' : Ty) (κ' : Sorts) (u' : U) : Prop := {
  ot_keep : keep κ κ' u u';
  ot_fo : fo db (checked κ' u') t';
  ot_height : height_le (ena u') n t';
  ot_leaf : is_leaf t = true → t' = t;
  ot_var : is_var t' = true → is_var t = true
}.

Record occ_args (n : nat) (κ : Sorts) (u : U) (s s' : Substitution) (κ' : Sorts) (u' : U) : Prop := {
  oa_keep : keep κ κ' u u';
  oa_fo : Forall (fo_arg db (checked κ' u')) s';
  oa_height : Forall (arg_height_le (ena u') n) s';
  oa_same : Forall2 same_sort s s'
}.

Definition occurs_arg_valid (n fuel : nat) (kx : TyVariableKind) : Prop := ∀ a κ u,
  in_order κ u → sorted κ x (VkTy kx) → fo_arg db (sorted κ) a → arg_height_le (ena u) n a →
  valid (fold_arg (OC fuel) a INNERMOST) κ u (part_arg a) (λ a' κ' u', occ_args n κ u [a] [a'] κ' u')
    (λ a' σ', apply_arg σ' a' = apply_arg σ' a).

Lemma fo_later κ κ' a : κ `prefix_of` κ' → fo_arg db (sorted κ) a → fo_arg db (sorted κ') a.
Proof. intros Hp. apply (fo_mono db). intros v k. by apply sorted_mono. Qed.

Lemma fo_later_ty κ κ' t : κ `prefix_of` κ' → fo db (sorted κ) t → fo db (sorted κ') t.
Proof. intros Hp. apply (fo_mono db). intros v k. by apply sorted_mono. Qed.

Lemma fo_checked κ u t : fo db (checked κ u) t → fo db (sorted κ) t.
Proof. apply (fo_mono db). by intros v k [? _]. Qed.
Lemma fo_arg_checked κ u t : fo_arg db (checked κ u) t → fo_arg db (sorted κ) t.
Proof. apply (fo_mono db). by intros v k [? _]. Qed.

Lemma occurs_args n fuel kx s κ u : occurs_arg_valid n fuel kx →
  in_order κ u → sorted κ x (VkTy kx) → Forall (fo_arg db (sorted κ)) s → Forall (arg_height_le (ena u) n) s →
  valid (mapM (λ a, fold_arg (OC fuel) a INNERMOST) s) κ u (λ σ, Forall (λ a, part_arg a σ) s)
    (λ s' κ' u', occ_args n κ u s s' κ' u') (λ s' σ', apply_arg σ' <$> s' = apply_arg σ' <$> s).
Proof.
  intros Harg. revert κ u. induction s as [|a s IH]; intros κ u Hg Hx Hfo Hh; simpl; [by apply valid_ret|].
  apply Forall_cons in Hfo as [Hfa Hfs]. apply Forall_cons in Hh as [Hha Hhs].
  eapply valid_bind.
  { eapply valid_weaken; [by apply Harg| |done|done]. intros σ _ HP. by apply Forall_cons in HP as [? _]. }
  intros a' κ1 u1 Hp1 Hg1 [Hk1 Hfa' Hha' Hsa]. rewrite Forall_singleton in Hfa', Hha'.
  eapply valid_bind.
  { eapply (valid_conseq _ _ _ _ _ _ _ _ (λ s' σ', apply_arg σ' <$> s' = apply_arg σ' <$> s ∧ apply_arg σ' a' = apply_arg σ' a)).
    - apply IH; [done|by eapply sorted_mono| |].
      + eapply Forall_impl; [exact Hfs|]. intros b. by apply fo_later.
      + eapply Forall_impl; [exact Hhs|]. intros [t| |]; try done. by eapply height_keep.
    - intros σ1 _ (_ & σ & Ha & _ & HP). apply Forall_cons in HP as [_ HP].
      rewrite Forall_forall in HP, Hfs. apply Forall_forall. intros b Hb.
      by eapply part_agree; [exact Hx|exact Ha|apply Hfs|apply HP].
    - intros s' κ2 u2 Hp2 Hg2 HQ. split; [exact HQ|]. intros σ1 σ2 _ (HR & _) Ha _ HR'. split; [done|].
      pose proof (agree_arg db κ1 σ1 σ2 Ha a' (fo_arg_checked _ _ _ Hfa')) as E1.
      pose proof (agree_arg db κ1 σ1 σ2 Ha a (fo_later _ _ _ Hp1 Hfa)) as E2. congruence. }
  intros s' κ2 u2 Hp2 Hg2 [Hk2 Hfs' Hhs' Hss]. apply valid_ret; [done| |].
  - split; [by eapply keep_trans| | |].
    + constructor; [|done]. refine (proj2 (fo_mono db _ _ _) _ Hfa'). intros v k. by eapply checked_keep.
    + constructor; [|done]. destruct a'; try done. by eapply height_keep.
    + apply Forall2_cons in Hsa as [? _]. by constructor.
  - intros σ _ ((Hs & Ha) & _). exact (f_equal2 cons Ha Hs).
Qed.

Lemma occurs_leaf fuel n t κ u : in_order κ u → is_leaf t = true → height_le (ena u) n t →
  valid (fold_ty (OC fuel) t INNERMOST) κ u (part_ty t) (λ t' κ' u', occ_ty n κ u t t' κ' u')
    (λ t' σ', apply_ty σ' t' = apply_ty σ' t).
Proof.
  intros Hg Ht Hh.
  assert (valid (mret t : SE U Ty) κ u (part_ty t) (λ t' κ' u', occ_ty n κ u t t' κ' u')
    (λ t' σ', apply_ty σ' t' = apply_ty σ' t)) as Hret.
  { apply valid_ret; [done| |done]. split; try done. by apply fo_leaf. }
  destruct t as [| | | | | | | | | | | | | | | | |p| | | | |]; try done.
  assert (fold_ty (OC fuel) (TyPlaceholder p) INNERMOST =
    if universe_lt ui p.(Ir.ui) then se_err else mret (TyPlaceholder p)) as -> by (by destruct fuel).
  unfold universe_lt. destruct (Nat.ltb_spec (counter ui) (counter (Ir.ui p))) as [Hlt|]; [|exact Hret].
  apply valid_err. intros σ _ [Hin _]. apply Forall_inv in Hin. simpl in Hin. lia.
Qed.

Lemma occurs_var fuel n kx v k κ u :
  (∀ t κ u, in_order κ u → sorted κ x (VkTy kx) → n ≤ fuel → fo db (sorted κ) t → height_le (ena u) n t →
    valid (fold_ty (OC fuel) t INNERMOST) κ u (part_ty t) (λ t' κ' u', occ_ty n κ u t t' κ' u')
      (λ t' σ', apply_ty σ' t' = apply_ty σ' t)) →
  in_order κ u → sorted κ x (VkTy kx) → n ≤ fuel → sorted κ v (VkTy k) →
  height_le (ena u) (S n) (TyInferenceVar v k) →
  valid (fold_ty (OC (S fuel)) (TyInferenceVar v k) INNERMOST) κ u (part_ty (TyInferenceVar v k))
    (λ t' κ' u', occ_ty (S n) κ u (TyInferenceVar v k) t' κ' u')
    (λ t' σ', apply_ty σ' t' = apply_ty σ' (TyInferenceVar v k)).
Proof.
  intros IH Hg Hx Hn Hv Hh.
  assert (fold_ty (OC (S fuel)) (TyInferenceVar v k) INNERMOST u =
    match ena_probe_value (ena u) v with
    | Bound t => (t ← se_lift (assert_ty_ref t); t ← fold_ty (OC fuel) t INNERMOST;
        _ ← se_lift (assert (negb (ty_needs_shift t))); mret t) u
    | Unbound w => if ena_unioned (ena u) v x then se_err u
        else (_ ← promote ui w v; mret (var_to_ty_with_kind v k)) u
    end) as Heq by reflexivity.
  simpl in Hh. destruct (ena_probe_value (ena u) v) as [w|b] eqn:Hp.
  - unfold ena_unioned in Heq. case_bool_decide as Hf.
    { eapply valid_by; [|exact Heq]. apply valid_err. intros σ Hσ [_ Hlt]. simpl in Hlt.
      assert (k = kx) as -> by (pose proof (class_kind κ u x (VkTy kx) v _ Hg Hx Hv Hf); congruence).
      pose proof (class_value κ u x (VkTy kx) v σ Hg Hσ Hx Hv Hf) as Heqv. simpl in Heqv.
      change (tsize (σ.(val_ty) v) < tsize (σ.(val_ty) x)) in Hlt. rewrite Heqv in Hlt. lia. }
    eapply valid_by; [|exact Heq].
    eapply valid_weaken; [apply (occurs_unbound v (VkTy k) w (var_to_ty_with_kind v k) κ u
      (part_ty (TyInferenceVar v k)))|..]; try done.
    + by intros σ _ [Hin _].
    + intros t' κ' u' _ _ (Hk & -> & Hch). split; try done; [by apply fo_var|].
      simpl. destruct Hch as (_ & [w' Hw'] & _). by rewrite Hw'.
    + by intros t' σ' ->.
  - pose proof (tok_value _ _ _ (good_table _ _ Hg) v _ b Hv Hp) as Hok.
    destruct b as [t| |]; try done. destruct Hok as [Hfo _].
    eapply valid_by; [|exact Heq].
    eapply valid_conseq; [eapply (valid_value _ t (λ t, fold_ty (OC fuel) t INNERMOST)); [done|by apply IH|]|..].
    + intros t' κ' u' Ho. by rewrite (fo_no_free db _ t' (ot_fo _ _ _ _ _ _ _ Ho)).
    + intros σ Hσ [Hin Hlt]. pose proof (later_value κ u v _ _ σ σ Hg Hv Hp Hσ (agree_refl _ _)) as Hval.
      simpl in Hval, Hlt.
      change (ty_in ui (σ.(val_ty) v)) in Hin. change (tsize (σ.(val_ty) v) < tsize (σ.(val_ty) x)) in Hlt.
      rewrite Hval in Hin, Hlt. split; [done|]. destruct (is_var t); lia.
    + intros t' κ' u' _ _ [Hk Hf Ht _ _]. split.
      * split; [done|done| |done|done]. eapply height_mono; [|exact Ht]. lia.
      * intros σ σ' Hσ _ Ha _ ->. symmetry. exact (later_value κ u v _ _ σ σ' Hg Hv Hp Hσ Ha).
Qed.

Lemma occurs_ty_valid n : ∀ fuel kx t κ u,
  in_order κ u → sorted κ x (VkTy kx) → n ≤ fuel → fo db (sorted κ) t → height_le (ena u) n t →
  valid (fold_ty (OC fuel) t INNERMOST) κ u (part_ty t) (λ t' κ' u', occ_ty n κ u t t' κ' u')
    (λ t' σ', apply_ty σ' t' = apply_ty σ' t).
Proof.
  induction n as [|n IH]; intros fuel kx t κ u Hg Hx Hn Hfo Hh; [done|].
  destruct fuel as [|fuel]; [lia|]. destruct Hfo as [h s Hf Hs|t Ht|v k Hv].
  - rewrite (height_con db) in Hh by done.
    eapply valid_by; [|exact (fold_con db (OC (S fuel)) h s INNERMOST u Hf)].
    eapply valid_bind.
    { eapply valid_weaken; [apply (occurs_args n (S fuel) kx s κ u)|..]; try done.
      - clear s Hf Hs Hh κ u Hg Hx. intros a κ u Hg Hx Ha Hh. destruct Ha as [t Ht|l Hl|c Hc].
        + eapply valid_bind; [apply (IH (S fuel) kx); try done; lia|]. intros t' κ1 u1 Hp Hg1 [Hk Hf Hh' _ _].
          apply valid_ret; [done| |].
          * split; rewrite ?Forall_singleton; [done|by constructor|done|by repeat constructor].
          * intros σ _ [HR _]. exact (f_equal ArgTy HR).
        + eapply valid_bind; [eapply valid_weaken; [apply (occurs_lt fuel kx); done|done..]|].
          intros l' κ1 u1 Hp Hg1 [Hk Hf]. apply valid_ret; [done| |].
          * split; rewrite ?Forall_singleton; [done|by constructor|done|by repeat constructor].
          * intros σ _ [HR _]. exact (f_equal ArgLifetime HR).
        + eapply valid_bind; [apply (occurs_ct fuel kx); done|].
          intros c' κ1 u1 Hp Hg1 [Hk Hf]. apply valid_ret; [done| |].
          * split; rewrite ?Forall_singleton; [done|by constructor|done|by repeat constructor].
          * intros σ _ [HR _]. exact (f_equal ArgConst HR).
      - intros σ _. by apply part_args. }
    intros s' κ1 u1 Hp1 Hg1 [Hk Hfs' Hhs' Hss]. pose proof (fits_same db _ _ _ Hf Hss) as Hf'.
    apply valid_ret; [done| |].
    + split; [done|by apply fo_con|by apply (height_con db)| |].
      * by rewrite (con_not_leaf db).
      * by rewrite (con_is_var db).
    + intros σ _ [HR _]. rewrite !(apply_con db) by done. by rewrite HR.
  - by apply occurs_leaf.
  - apply (occurs_var fuel n kx); try done; [|lia]. intros t κ' u'. apply IH.
Qed.
End Occurs.

(** ** Generalization *)

(** [Gen i j k g t]: [g] is [t] with some variables, lifetimes and all constants replaced
    by the variables from [i] to [j], in order; [k] of these are for types. *)
Inductive Gen : nat → nat → nat → Ty → Ty → Prop :=
  | Gen_con i j k h s' s : fits db h s → fits db h s' → GenL i j k s' s → Gen i j k (con h s') (con h s)
  | Gen_leaf i t : is_leaf t = true → Gen i i 0 t t
  | Gen_same i v kd : Gen i i 0 (TyInferenceVar v kd) (TyInferenceVar v kd)
  | Gen_var i v : Gen i (S i) 1 (TyInferenceVar i General) (TyInferenceVar v General)
with GenA : nat → nat → nat → GenericArg → GenericArg → Prop :=
  | GenA_ty i j k g t : Gen i j k g t → GenA i j k (ArgTy g) (ArgTy t)
  | GenA_lt_same i l : GenA i i 0 (ArgLifetime l) (ArgLifetime l)
  | GenA_lt i l : GenA i (S i) 0 (ArgLifetime (LtInferenceVar i)) (ArgLifetime l)
  | GenA_ct i ty cv :
      GenA i (S i) 0 (ArgConst (mkConst ty (CvInferenceVar i))) (ArgConst (mkConst ty cv))
with GenL : nat → nat → nat → Substitution → Substitution → Prop :=
  | GenL_nil i : GenL i i 0 [] []
  | GenL_cons i j m k k' a' a s' s :
      GenA i j k a' a → GenL j m k' s' s → GenL i m (k + k') (a' :: s') (a :: s).

Scheme Gen_ind' := Induction for Gen Sort Prop
  with GenA_ind' := Induction for GenA Sort Prop
  with GenL_ind' := Induction for GenL Sort Prop.
Combined Scheme Gen_mutind from Gen_ind', GenA_ind', GenL_ind'.

(** [k] type variables and others were made in the universe [w]. *)
Record grown (w : UniverseIndex) (k : nat) (κ κ' : Sorts) (u u' : U) : Prop := {
  gr_find y : ena_find (ena u') y = ena_find (ena u) y;
  gr_probe y : ena_probe_value (ena u') y =
    if decide (length κ ≤ y < length κ') then Unbound w else ena_probe_value (ena u) y;
  gr_n : N κ' u' = N κ u + k;
  gr_len : length κ ≤ length κ'
}.

Lemma grown_refl w κ u : grown w 0 κ κ u u.
Proof. split; [done| |lia|done]. intros y. by rewrite decide_False by lia. Qed.

Lemma grown_trans w k k' κ κ1 κ2 u u1 u2 :
  grown w k κ κ1 u u1 → grown w k' κ1 κ2 u1 u2 → grown w (k + k') κ κ2 u u2.
Proof.
  intros [F1 P1 N1 L1] [F2 P2 N2 L2]. split; [|intros y|lia|lia].
  - intros y. by rewrite F2.
  - rewrite P2, P1. repeat case_decide; try done; lia.
Qed.

Lemma grown_fresh w k κ u v κ' u' : fresh_facts w κ k u v κ' u' →
  grown w (if is_ty k then 1 else 0) κ κ' u u'.
Proof.
  intros Hff. pose proof (N_fresh _ _ _ _ _ _ _ Hff) as HN. destruct Hff as [-> -> Hfind Hprobe _ _].
  split; [done| |done|rewrite length_app; lia]. intros y. rewrite Hprobe, length_app. simpl.
  repeat case_decide; try done; lia.
Qed.

Lemma grown_keep_bound w k κ κ' u u' y b : grown w k κ κ' u u' →
  ena_probe_value (ena u') y = Bound b → ena_probe_value (ena u) y = Bound b.
Proof. intros [_ Hp _ _]. rewrite Hp. by case_decide. Qed.

Lemma checked_grown w n x κ κ' u u' v k : κ `prefix_of` κ' → grown w n κ κ' u u' →
  checked x κ u v k → checked x κ' u' v k.
Proof.
  intros Hp [Hf Hpr _ _] (Hv & Hu & Hx). split; [by eapply sorted_mono|]. rewrite !Hf. split; [|done].
  unfold is_unbound. rewrite Hpr. case_decide; [by eexists|done].
Qed.

Lemma checked_fresh w k x κ u v κ' u' : in_order κ u → x < length κ → fresh_facts w κ k u v κ' u' →
  checked x κ' u' v k.
Proof.
  intros Hg Hx [-> -> Hfind Hprobe Hout _]. split; [apply sorted_snoc; by right|]. split.
  - exists w. by rewrite Hprobe, decide_True.
  - rewrite !Hfind, Hout by done. destruct (good_table _ _ Hg) as [Hwf Hlen _ _]. rewrite Hlen in *.
    pose proof (find_lt _ x Hwf Hx). lia.
Qed.

Section Generalize.
Context (x : InferenceVar) (w : UniverseIndex) (again : Ty → UniverseIndex → Variance → SE U Ty).

Record gen_arg (κ : Sorts) (u : U) (a a' : GenericArg) (κ' : Sorts) (u' : U) : Prop := {
  ga_gen : ∃ k, GenA (length κ) (length κ') k a' a ∧ grown w k κ κ' u u';
  ga_fo : fo_arg db (checked x κ' u') a'
}.
Record gen_args (κ : Sorts) (u : U) (s s' : Substitution) (κ' : Sorts) (u' : U) : Prop := {
  gl_gen : ∃ k, GenL (length κ) (length κ') k s' s ∧ grown w k κ κ' u u';
  gl_fo : Forall (fo_arg db (checked x κ' u')) s'
}.

Definition in_universe (a : GenericArg) (σ : Valuation) : Prop :=
  match a with ArgTy t => ty_in w (apply_ty σ t) | ArgLifetime _ => True | ArgConst c => ct_in w (apply_ct σ c) end.

Lemma in_universe_agree κ σ σ' a : agree κ σ σ' → fo_arg db (sorted κ) a → in_universe a σ → in_universe a σ'.
Proof.
  intros Ha Hfo. destruct Hfo as [t Ht|l Hl|c Hc]; simpl; [|done|].
  - by rewrite (agree_ty db κ σ σ' Ha t Ht).
  - by rewrite (agree_ct κ σ σ' Ha c Hc).
Qed.

Lemma GenA_same i j k a' a : GenA i j k a' a → same_sort a a'.
Proof. by destruct 1. Qed.
Lemma GenL_same i j k s' s : GenL i j k s' s → Forall2 same_sort s s'.
Proof. induction 1; constructor; [by eapply GenA_same|done]. Qed.

(** A fresh lifetime. *)
Lemma generalize_lt v l κ u : in_order κ u → x < length κ → fo_lt (checked x κ u) l →
  valid (generalize_lifetime l w v) κ u (λ _, True) (λ l' κ' u', gen_arg κ u (ArgLifetime l) (ArgLifetime l') κ' u')
    (λ l' σ', apply_lt σ' l' = apply_lt σ' l).
Proof.
  intros Hg Hx Hl. unfold generalize_lifetime.
  assert (valid (mret l : SE U Lifetime) κ u (λ _, True) (λ l' κ' u', gen_arg κ u (ArgLifetime l) (ArgLifetime l') κ' u')
    (λ l' σ', apply_lt σ' l' = apply_lt σ' l)) as Hsame.
  { apply valid_ret; [done| |done]. split; [exists 0; split; [constructor|apply grown_refl]|by constructor]. }
  assert (valid (ena_var ← fresh_var w; mret (var_to_lifetime ena_var)) κ u (λ _, True)
    (λ l' κ' u', gen_arg κ u (ArgLifetime l) (ArgLifetime l') κ' u')
    (λ l' σ', apply_lt σ' l' = apply_lt σ' l)) as Hfresh.
  { eapply valid_bind; [apply (valid_fresh w VkLifetime κ u _ (λ σ, ArgLifetime (apply_lt σ l))); [done|by split]|].
    intros v' κ1 u1 Hp1 Hg1 Hff. simpl in Hff. apply valid_ret; [done| |].
    - pose proof (checked_fresh _ _ x _ _ _ _ _ Hg Hx Hff) as Hch. pose proof (grown_fresh _ _ _ _ _ _ _ Hff) as Hgr.
      destruct Hff as [-> -> _ _ _ _]. split; [|constructor; exact Hch]. exists 0. split; [|done].
      rewrite length_app. simpl. rewrite Nat.add_1_r. constructor.
    - intros σ _ ((σ0 & Ha & _ & _ & Hv) & _). simpl in Hv. change (σ.(val_lt) v' = apply_lt σ l).
      rewrite Hv. apply (agree_lt κ σ0 σ Ha). by eapply fo_lt_mono; [|exact Hl]; intros ? ? [? _]. }
  destruct l; try done; by case_decide.
Qed.

Lemma generalize_ct c κ u : in_order κ u → x < length κ → fo_ct (checked x κ u) c →
  valid (generalize_const c w) κ u (λ σ, ct_in w (apply_ct σ c))
    (λ c' κ' u', gen_arg κ u (ArgConst c) (ArgConst c') κ' u')
    (λ c' σ', apply_ct σ' c' = apply_ct σ' c).
Proof.
  intros Hg Hx Hc. destruct c as [[] cv]; try done.
  assert (valid (ena_var ← fresh_var w; mret (var_to_const ena_var (TyScalar s))) κ u
    (λ σ, ct_in w (apply_ct σ (mkConst (TyScalar s) cv)))
    (λ c' κ' u', gen_arg κ u (ArgConst (mkConst (TyScalar s) cv)) (ArgConst c') κ' u')
    (λ c' σ', apply_ct σ' c' = apply_ct σ' (mkConst (TyScalar s) cv))) as Hfresh.
  { eapply valid_bind.
    { apply (valid_fresh w (VkConst (TyScalar s)) κ u _ (λ σ, ArgConst (apply_ct σ (mkConst (TyScalar s) cv)))); [done|].
      intros σ [Hσ _] Hin. split; [exact Hin|]. destruct cv; try done. simpl in Hc. destruct Hc as [Hc _].
      exact (sol_kind _ _ _ Hσ _ _ Hc). }
    intros v' κ1 u1 Hp1 Hg1 Hff. simpl in Hff. apply valid_ret; [done| |].
    - pose proof (checked_fresh _ _ x _ _ _ _ _ Hg Hx Hff) as Hch. pose proof (grown_fresh _ _ _ _ _ _ _ Hff) as Hgr.
      destruct Hff as [-> -> _ _ _ _]. split; [|constructor; exact Hch]. exists 0. split; [|done].
      rewrite length_app. simpl. rewrite Nat.add_1_r. constructor.
    - intros σ _ ((σ0 & Ha & _ & _ & Hv) & _). simpl in Hv. change (σ.(val_ct) v' = apply_ct σ (mkConst (TyScalar s) cv)).
      rewrite Hv. apply (agree_ct κ σ0 σ Ha). by eapply fo_ct_mono; [|exact Hc]; intros ? ? [? _]. }
  unfold generalize_const. simpl. by destruct cv.
Qed.

Definition generalize_arg_valid (n : nat) : Prop := ∀ v a κ u,
  in_order κ u → x < length κ → fo_arg db (checked x κ u) a → arg_height_le (ena u) n a →
  valid (generalize_arg_with db again w v a) κ u (in_universe a) (λ a' κ' u', gen_arg κ u a a' κ' u')
    (λ a' σ', apply_arg σ' a' = apply_arg σ' a).

Lemma generalize_args n ws s κ u : generalize_arg_valid n →
  in_order κ u → x < length κ → length ws = length s →
  Forall (fo_arg db (checked x κ u)) s → Forall (arg_height_le (ena u) n) s →
  valid (gens db again w ws s) κ u (λ σ, Forall (λ a, in_universe a σ) s)
    (λ s' κ' u', gen_args κ u s s' κ' u') (λ s' σ', apply_arg σ' <$> s' = apply_arg σ' <$> s).
Proof.
  intros Harg. revert ws κ u. induction s as [|a s IH]; intros [|v ws] κ u Hg Hx Hws Hfo Hh; try done.
  { apply valid_ret; [done| |done]. split; [|done]. exists 0. split; [constructor|apply grown_refl]. }
  apply Forall_cons in Hfo as [Hfa Hfs]. apply Forall_cons in Hh as [Hha Hhs]. cbn [gens].
  eapply valid_bind.
  { eapply valid_weaken; [by apply Harg| |done|done]. intros σ _ HP. by apply Forall_cons in HP as [? _]. }
  intros a' κ1 u1 Hp1 Hg1 [(k & Hga & Hgr) Hfa'].
  eapply valid_bind.
  { eapply (valid_conseq _ _ _ _ _ _ _ _ (λ s' σ', apply_arg σ' <$> s' = apply_arg σ' <$> s ∧ apply_arg σ' a' = apply_arg σ' a)).
    - apply (IH ws κ1 u1); [done| |by injection Hws| |].
      + destruct Hgr as [_ _ _ Hl]. lia.
      + eapply Forall_impl; [exact Hfs|]. intros b Hb. refine (proj2 (fo_mono db _ _ _) _ Hb).
        intros ??. by eapply checked_grown.
      + eapply Forall_impl; [exact Hhs|]. intros [t| |]; try done. simpl. apply height_same.
        intros y t'. by eapply grown_keep_bound.
    - intros σ1 _ (_ & σ & Ha & _ & HP). apply Forall_cons in HP as [_ HP].
      rewrite Forall_forall in HP, Hfs. apply Forall_forall. intros b Hb.
      eapply in_universe_agree; [exact Ha|by eapply fo_arg_checked, Hfs|by apply HP].
    - intros s' κ2 u2 Hp2 Hg2 HQ. split; [exact HQ|]. intros σ1 σ2 _ (HR & _) Ha _ HR'. split; [done|].
      pose proof (agree_arg db κ1 σ1 σ2 Ha a' (fo_arg_checked _ _ _ _ Hfa')) as E1.
      pose proof (agree_arg db κ1 σ1 σ2 Ha a (fo_later _ _ _ Hp1 (fo_arg_checked _ _ _ _ Hfa))) as E2. congruence. }
  intros s' κ2 u2 Hp2 Hg2 [(k' & Hgs & Hgr') Hfs']. apply valid_ret; [done| |].
  - split.
    + exists (k + k'). split; [by econstructor|by eapply grown_trans].
    + constructor; [|done]. refine (proj2 (fo_mono db _ _ _) _ Hfa'). intros ??. by eapply checked_grown.
  - intros σ _ ((Hs & Ha) & _). exact (f_equal2 cons Ha Hs).
Qed.

Record gen_ty (κ : Sorts) (u : U) (t g : Ty) (κ' : Sorts) (u' : U) : Prop := {
  gt_gen : ∃ k, Gen (length κ) (length κ') k g t ∧ grown w k κ κ' u u';
  gt_fo : fo db (checked x κ' u') g;
  gt_leaf : is_leaf t = true → g = t;
  gt_var : is_var g = true → is_var t = true
}.

Lemma normalize_unbound (tbl : InferenceTable E) v k ui :
  ena_probe_value tbl.(unify) v = Unbound ui → normalize_ty_shallow tbl (TyInferenceVar v k) = Val None.
Proof.
  intros Hv. unfold normalize_ty_shallow, normalize_ty_shallow_inner, normalize_shallow_with, probe_var.
  simpl. by rewrite Hv.
Qed.

Lemma generalize_ty_valid n : ∀ v t κ u, in_order κ u → x < length κ → fo db (checked x κ u) t →
  height_le (ena u) n t →
  valid (generalize_ty_with db again w v t) κ u (λ σ, ty_in w (apply_ty σ t))
    (λ g κ' u', gen_ty κ u t g κ' u') (λ g σ', apply_ty σ' g = apply_ty σ' t).
Proof.
  induction n as [|n IH]; intros v t κ u Hg Hx Hfo Hh; [done|].
  destruct Hfo as [h s Hf Hs|t Ht|v' k Hv].
  - rewrite (height_con db) in Hh by done.
    destruct (generalize_con db again w v h s Hf) as (ws & Hws & Heq).
    eapply valid_by; [|exact (Heq u)]. eapply valid_bind.
    { eapply valid_weaken; [apply (generalize_args n ws s κ u)|..]; try done.
      - clear s Hf Hs Hh κ u Hg Hx ws Hws Heq v. intros v a κ u Hg Hx Ha Hh. destruct Ha as [t Ht|l Hl|c Hc].
        + eapply valid_bind; [by apply (IH v t κ u)|]. intros g κ1 u1 Hp Hg1 [(k & Hgen & Hgr) Hf _ _].
          apply valid_ret; [done| |].
          * split; [exists k; split; [by constructor|done]|by constructor].
          * intros σ _ [HR _]. exact (f_equal ArgTy HR).
        + eapply valid_bind; [eapply valid_weaken; [by apply (generalize_lt v l)|done..]|].
          intros l' κ1 u1 Hp Hg1 HQ. apply valid_ret; [done|done|].
          intros σ _ [HR _]. exact (f_equal ArgLifetime HR).
        + eapply valid_bind; [by apply (generalize_ct c)|].
          intros c' κ1 u1 Hp Hg1 HQ. apply valid_ret; [done|done|].
          intros σ _ [HR _]. exact (f_equal ArgConst HR).
      - intros σ _ Hin. rewrite (apply_con db) in Hin by done.
        assert (fits db h (apply_arg σ <$> s)) as Hf' by (eapply fits_same; [done|apply apply_same]).
        unfold ty_in in Hin. rewrite (leaves_con db), Forall_fmap in Hin by done.
        eapply Forall_impl; [exact Hin|]. intros [t|l|c] Ha; [exact Ha|done|exact Ha]. }
    intros s' κ1 u1 Hp1 Hg1 [(k & Hgen & Hgr) Hfs']. pose proof (fits_same db _ _ _ Hf (GenL_same _ _ _ _ _ Hgen)) as Hf'.
    apply valid_ret; [done| |].
    + split; [exists k; split; [by constructor|done]|by apply fo_con| |].
      * by rewrite (con_not_leaf db).
      * by rewrite (con_is_var db).
    + intros σ _ [HR _]. rewrite !(apply_con db) by done. by rewrite HR.
  - rewrite (generalize_leaf db again w v t) by done. apply valid_ret; [done| |done].
    split; [exists 0; split; [by constructor|apply grown_refl]|by apply fo_leaf|done|by destruct t].
  - pose proof Hv as (Hvs & [w' Hw'] & Hne).
    assert (valid (mret (TyInferenceVar v' k) : SE U Ty) κ u (λ σ, ty_in w (apply_ty σ (TyInferenceVar v' k)))
      (λ g κ' u', gen_ty κ u (TyInferenceVar v' k) g κ' u')
      (λ g σ', apply_ty σ' g = apply_ty σ' (TyInferenceVar v' k))) as Hsame.
    { apply valid_ret; [done| |done].
      split; [exists 0; split; [apply Gen_same|apply grown_refl]|by apply fo_var|done|done]. }
    cbn [generalize_ty_with]. destruct (decide (k = Integer ∨ k = Float)) as [Hk|Hk]; [exact Hsame|].
    assert (k = General) as -> by (destruct k; naive_solver).
    eapply valid_by; [|unfold mbind at 1, SE_bind at 1, read_table; rewrite (normalize_unbound _ _ _ _ Hw'); reflexivity].
    case_decide as Hinv; [exact Hsame|]. eapply valid_bind.
    { apply (valid_fresh w (VkTy General) κ u _ (λ σ, ArgTy (σ.(val_ty) v'))); [done|]. by split. }
    intros g κ1 u1 Hp1 Hg1 Hff. simpl in Hff. apply valid_ret; [done| |].
    + pose proof (checked_fresh _ _ x _ _ _ _ _ Hg Hx Hff) as Hch. pose proof (grown_fresh _ _ _ _ _ _ _ Hff) as Hgr.
      destruct Hff as [-> -> _ _ _ _]. split; [|by apply fo_var|done|done]. exists 1. split; [|done].
      rewrite length_app. simpl. rewrite Nat.add_1_r. apply Gen_var.
    + intros σ _ ((σ0 & Ha & _ & _ & Hg0) & _). simpl in Hg0. change (σ.(val_ty) g = σ.(val_ty) v').
      rewrite Hg0. exact (Ha v' _ Hvs).
Qed.
End Generalize.

(** ** Lifetimes and constants

    What relating two lifetimes or constants does: nothing but goals, the binding of a
    variable whose partner is not an unbound variable, or the merge of two variables. *)

Inductive effect (κ : Sorts) (k : VariableKind) (va vb : option InferenceVar) (u u' : U) : Prop :=
  | eff_same : u'.(utable) = u.(utable) → effect κ k va vb u u'
  | eff_bind v b : (va = Some v ∧ (∀ y, vb = Some y → ¬ is_unbound (ena u) y) ∨
        vb = Some v ∧ (∀ y, va = Some y → ¬ is_unbound (ena u) y)) →
      sorted κ v k → is_unbound (ena u) v → (∀ t, b ≠ ArgTy t) →
      value_facts v (Bound b) u u' → effect κ k va vb u u'
  | eff_merge v y : va = Some v → vb = Some y → sorted κ v k → sorted κ y k →
      is_unbound (ena u) v → is_unbound (ena u) y → merge_facts v y u u' → effect κ k va vb u u'.

Lemma effect_n κ k va vb u u' : in_order κ u → is_ty k = false → effect κ k va vb u u' → N κ u' = N κ u.
Proof.
  intros Hg Hk [Ht|v b _ Hv _ _ Hf|v y _ _ Hv Hy Huv Huy Hf].
  - by rewrite Ht.
  - by eapply N_value_other.
  - pose proof (N_merge κ u u' v y k Hg Hv Hy Huv Huy Hf) as HN. rewrite Hk in HN. simpl in HN. lia.
Qed.

(** Type variables have the values that they had. *)
Lemma effect_ty κ k va vb u u' y t : in_order κ u → effect κ k va vb u u' →
  ena_probe_value (ena u') y = Bound (ArgTy t) → ena_probe_value (ena u) y = Bound (ArgTy t).
Proof.
  intros Hg [Ht|v b _ Hv _ Hb Hf|v v' _ _ Hv Hv' Huv Huv' Hf].
  - by rewrite Ht.
  - destruct Hf as [_ Hp]. rewrite Hp. case_decide; [|done]. intros [= ->]. by destruct (Hb t).
  - intros Hy. destruct (decide (ena_find (ena u) y = ena_find (ena u) v ∨ ena_find (ena u) y = ena_find (ena u) v')) as [Hd|Hd].
    + destruct (mf_merged _ _ _ _ Hf y Hd) as [w Hw]. congruence.
    + by rewrite <- (mf_other _ _ _ _ Hf y Hd).
Qed.

Definition lt_ground (l : Lifetime) : Prop :=
  match l with LtBoundVar _ | LtInferenceVar _ => False | _ => True end.

(** A lifetime and its normal form. *)
Lemma normalize_lt κ u l : in_order κ u → fo_lt (sorted κ) l →
  ∃ n, normalize_lifetime_shallow u.(utable) l = Val n ∧
    let l' := default l n in
    fo_lt (sorted κ) l' ∧
    (lt_ground l' ∧ (∀ v, l = LtInferenceVar v → ¬ is_unbound (ena u) v) ∨
      ∃ v, l' = LtInferenceVar v ∧ l = l' ∧ is_unbound (ena u) v ∧ sorted κ v VkLifetime) ∧
    ∀ σ, Sol κ σ u → apply_lt σ l = apply_lt σ l'.
Proof.
  intros Hg Hl. unfold normalize_lifetime_shallow, normalize_shallow_with, probe_var.
  destruct l as [|v| | | |]; try done; try (exists None; split; [done|]; split_and!; [done|by left|done]).
  simpl in Hl. simpl. destruct (ena_probe_value (ena u) v) as [w|b] eqn:Hv.
  - exists None. split; [done|]. split_and!; [done| |done]. right. exists v. split_and!; try done. by exists w.
  - pose proof (tok_value _ _ _ (good_table _ _ Hg) v _ b Hl Hv) as Hok. destruct b as [|l|]; try done.
    exists (Some l). split; [done|]. simpl. split_and!.
    + by destruct l.
    + left. split; [by destruct l|]. intros v' [= <-] [w Hw]. congruence.
    + intros σ Hσ. exact (later_value κ u v _ _ σ σ Hg Hl Hv Hσ (agree_refl _ _)).
Qed.

Section Relate.
Context (Hrefl : ∀ l, ME.(outlives) l l) (Hconst : ∀ ty c, db.(db_const_eq) ty c c = true).

Lemma unify_lifetime_var_valid v l ui κ u : in_order κ u → sorted κ v VkLifetime → is_unbound (ena u) v →
  lt_ground l →
  valid (unify_lifetime_var env Invariant v l ui) κ u (λ σ, σ.(val_lt) v = apply_lt σ l)
    (λ _ κ' u', κ' = κ ∧ (u'.(utable) = u.(utable) ∨ value_facts v (Bound (ArgLifetime l)) u u')) (λ _ _, True).
Proof.
  intros Hg Hv [w Hw] Hl. unfold unify_lifetime_var.
  eapply valid_by; [|unfold mbind, SE_bind, universe_of_unbound, read_table, universe_of_unbound_var;
    rewrite Hw; reflexivity].
  destruct (can_see _ _ && _).
  - eapply valid_weaken; [eapply (valid_unify_value v (Bound (ArgLifetime l)) (Bound (ArgLifetime l)) VkLifetime w κ u
      (λ σ, σ.(val_lt) v = apply_lt σ l))|..]; try done.
    intros [] κ' u' _ _ [-> Hf]. auto.
  - eapply valid_weaken; [apply (valid_push_outlives Invariant (var_to_lifetime v) l κ u
      (λ σ, σ.(val_lt) v = apply_lt σ l)); try done|done| |done].
    + by destruct l.
    + intros [] κ' u' _ _ [-> Hu]. auto.
Qed.

Lemma relate_lt a b κ u : in_order κ u → fo_lt (sorted κ) a → fo_lt (sorted κ) b →
  valid (relate_lifetime_lifetime env Invariant a b) κ u (λ σ, apply_lt σ a = apply_lt σ b)
    (λ _ κ' u', κ' = κ ∧ effect κ VkLifetime (lifetime_inference_var a) (lifetime_inference_var b) u u')
    (λ _ _, True).
Proof.
  intros Hg Ha Hb. destruct (normalize_lt κ u a Hg Ha) as (na & Hna & Hfa & Hca & Hsa).
  destruct (normalize_lt κ u b Hg Hb) as (nb & Hnb & Hfb & Hcb & Hsb).
  unfold relate_lifetime_lifetime.
  eapply valid_by; [|unfold mbind, SE_bind, read_table; rewrite Hna, Hnb; reflexivity].
  clear Hna Hnb. generalize dependent (default a na). intros a' Hfa Hca Hsa.
  generalize dependent (default b nb). intros b' Hfb Hcb Hsb.
  apply (valid_weaken _ κ u (λ σ, apply_lt σ a' = apply_lt σ b') _
    (λ _ κ' u', κ' = κ ∧ effect κ VkLifetime (lifetime_inference_var a) (lifetime_inference_var b) u u') _ (λ _ _, True) (λ _ _, True));
    [|intros σ Hσ; by rewrite Hsa, Hsb|done|done].
  clear Hsa Hsb.
  destruct Hca as [[Hga Hua]|(va & -> & -> & Hua & Hsva)], Hcb as [[Hgb Hub]|(vb & -> & -> & Hub & Hsvb)].
  - assert (valid (if decide (a' = b') then mret tt else push_lifetime_outlives_goals env Invariant a' b') κ u
      (λ σ, apply_lt σ a' = apply_lt σ b')
      (λ _ κ' u', κ' = κ ∧ effect κ VkLifetime (lifetime_inference_var a) (lifetime_inference_var b) u u') (λ _ _, True)) as Hd.
    { case_decide; [apply valid_ret; [done|split; [done|by apply eff_same]|done]|].
      eapply valid_weaken; [by apply (valid_push_outlives Invariant a' b' κ u (λ σ, apply_lt σ a' = apply_lt σ b'))|done| |done].
      intros [] κ' u' _ _ [-> Hu]. split; [done|by apply eff_same]. }
    destruct a' as [| |[]| | |], b' as [| |[]| | |]; try done;
      try exact Hd; apply valid_ret; try done; (split; [done|by apply eff_same]).
  - eapply valid_weaken with (P := λ σ, σ.(val_lt) vb = apply_lt σ a')
      (Q := λ _ κ' u', κ' = κ ∧ (u'.(utable) = u.(utable) ∨ value_facts vb (Bound (ArgLifetime a')) u u')) (R := λ _ _, True).
    + destruct a' as [| |[]| | |]; try done; by apply unify_lifetime_var_valid.
    + by intros σ _ ->.
    + intros [] κ' u' _ _ [-> [Hu|Hu]]; (split; [done|]); [by apply eff_same|].
      apply (eff_bind _ _ _ _ _ _ vb (ArgLifetime a')); try done. right. split; [done|].
      intros y Hy. destruct a; simplify_eq/=. by apply Hua.
    + done.
  - eapply valid_weaken with (P := λ σ, σ.(val_lt) va = apply_lt σ b')
      (Q := λ _ κ' u', κ' = κ ∧ (u'.(utable) = u.(utable) ∨ value_facts va (Bound (ArgLifetime b')) u u')) (R := λ _ _, True).
    + destruct b' as [| |[]| | |]; try done; by apply unify_lifetime_var_valid.
    + by intros σ _ <-.
    + intros [] κ' u' _ _ [-> [Hu|Hu]]; (split; [done|]); [by apply eff_same|].
      apply (eff_bind _ _ _ _ _ _ va (ArgLifetime b')); try done. left. split; [done|].
      intros y Hy. destruct b; simplify_eq/=. by apply Hub.
    + done.
  - destruct (Hua) as [wa Hwa], (Hub) as [wb Hwb].
    eapply valid_weaken; [eapply (valid_unify_var_var va vb VkLifetime wa wb κ u
      (λ σ, σ.(val_lt) va = σ.(val_lt) vb))|..]; try done.
    intros [] κ' u' _ _ [-> Hf]. split; [done|]. by apply (eff_merge _ _ _ _ _ _ va vb).
Qed.

Lemma normalize_ct κ u c : in_order κ u → fo_ct (sorted κ) c →
  ∃ n, normalize_const_shallow u.(utable) c = Val n ∧
    let c' := default c n in
    fo_ct (sorted κ) c' ∧ const_ty c' = const_ty c ∧
    (fo_ct (λ _ _, False) c' ∧ (∀ v, const_inference_var c = Some v → ¬ is_unbound (ena u) v) ∨
      ∃ v, c' = mkConst (const_ty c) (CvInferenceVar v) ∧ c = c' ∧ is_unbound (ena u) v ∧ sorted κ v (VkConst (const_ty c))) ∧
    ∀ σ, Sol κ σ u → apply_ct σ c = apply_ct σ c'.
Proof.
  intros Hg Hc. unfold normalize_const_shallow, normalize_shallow_with, probe_var.
  destruct c as [[] [|v| |]]; try done;
    try (exists None; split; [done|]; split_and!; [done|done|by left|done]).
  simpl in Hc. cbn [const_inference_var const_value]. destruct (ena_probe_value (ena u) v) as [w|b] eqn:Hv.
  - exists None. split; [done|]. split_and!; [done|done| |done]. right. exists v. split_and!; try done. by exists w.
  - pose proof (tok_value _ _ _ (good_table _ _ Hg) v _ b Hc Hv) as Hok. destruct b as [| |c]; try done.
    destruct Hok as [Hty Hok]. exists (Some c). split; [done|]. simpl. split_and!; [|done| |].
    + by eapply fo_ct_mono; [|exact Hok].
    + left. split; [done|]. intros v' [= <-] [w Hw]. congruence.
    + intros σ Hσ. exact (later_value κ u v _ _ σ σ Hg Hc Hv Hσ (agree_refl _ _)).
Qed.

Lemma unify_var_const_valid fuel v c κ u : in_order κ u → sorted κ v (VkConst (const_ty c)) → is_unbound (ena u) v →
  fo_ct (λ _ _, False) c →
  valid (unify_var_const env fuel v c) κ u (λ σ, σ.(val_ct) v = c)
    (λ _ κ' u', κ' = κ ∧ value_facts v (Bound (ArgConst c)) u u') (λ _ _, True).
Proof.
  intros Hg Hv [w Hw] Hc. unfold unify_var_const.
  eapply valid_by; [|unfold mbind at 1, SE_bind at 1, universe_of_unbound, read_table, universe_of_unbound_var;
    rewrite Hw; reflexivity].
  eapply (valid_bind _ _ _ _ _ (λ c' κ' u', c' = c ∧ κ' = κ ∧ u' = u) (λ c' σ', c' = c)).
  { eapply valid_weaken; [by apply (occurs_ct_ground_state v w)| |done|done].
    intros σ [Hσ _] Heq. pose proof (sol_unbound _ _ _ Hσ v _ w Hv Hw) as Hin. simpl in Hin. by rewrite Heq in Hin. }
  intros c' κ1 u1 _ Hg1 (-> & -> & ->).
  eapply valid_weaken; [eapply (valid_unify_value v (InferenceValue_from_const c) (Bound (ArgConst c)) _ w κ u
    (λ σ, val_is σ v (ArgConst c))); try done|..]; try done.
  intros σ _ (_ & σ0 & Ha & _ & Heq). pose proof (Ha v _ Hv) as Hvv. simpl in Hvv |- *.
  by rewrite <- Hvv, Heq, apply_ct_ground.
Qed.

Lemma relate_scalar f s s' κ u : in_order κ u →
  valid (zip_tys (unifier db env (S f)) Invariant (TyScalar s) (TyScalar s')) κ u (λ _, s = s')
    (λ _ κ' u', κ' = κ ∧ u' = u ∧ s = s') (λ _ _, True).
Proof.
  intros Hg. simpl. unfold relate_ty_ty. destruct (decide (s = s')) as [->|Hne].
  - eapply valid_by; [by apply (valid_ret tt κ u)|]. unfold mbind, SE_bind, normalize_or, read_table. simpl.
    by rewrite decide_True.
  - eapply valid_by; [by apply (valid_err κ u)|]. unfold mbind, SE_bind, normalize_or, read_table. simpl.
    rewrite decide_False by congruence. simpl. unfold zip_eq. by rewrite decide_False.
Qed.

Lemma const_ty_apply κ u σ c : Sol κ σ u → fo_ct (sorted κ) c → const_ty (apply_ct σ c) = const_ty c.
Proof.
  intros [Hσ _] Hc. destruct c as [[] [|v| |]]; try done. exact (sol_kind _ _ _ Hσ v _ Hc).
Qed.

Lemma relate_ct fuel f a b κ u : in_order κ u → fo_ct (sorted κ) a → fo_ct (sorted κ) b →
  valid (relate_const_const db env fuel (unifier db env (S f)) Invariant a b) κ u (λ σ, apply_ct σ a = apply_ct σ b)
    (λ _ κ' u', κ' = κ ∧ const_ty a = const_ty b ∧
       effect κ (VkConst (const_ty a)) (const_inference_var a) (const_inference_var b) u u')
    (λ _ _, True).
Proof.
  intros Hg Ha Hb. destruct (normalize_ct κ u a Hg Ha) as (na & Hna & Hfa & Hta & Hca & Hsa).
  destruct (normalize_ct κ u b Hg Hb) as (nb & Hnb & Hfb & Htb & Hcb & Hsb).
  unfold relate_const_const.
  eapply valid_by; [|unfold mbind at 1, SE_bind at 1, read_table at 1; rewrite Hna;
    unfold mbind at 1, SE_bind at 1, read_table at 1; rewrite Hnb; reflexivity].
  clear Hna Hnb. generalize dependent (default a na). intros a' Hfa Hta Hca Hsa.
  generalize dependent (default b nb). intros b' Hfb Htb Hcb Hsb. cbv zeta.
  apply (valid_weaken _ κ u (λ σ, apply_ct σ a' = apply_ct σ b') _
    (λ _ κ' u', κ' = κ ∧ const_ty a = const_ty b ∧
       effect κ (VkConst (const_ty a)) (const_inference_var a) (const_inference_var b) u u') _ (λ _ _, True) (λ _ _, True));
    [|intros σ Hσ; by rewrite Hsa, Hsb|done|done]. clear Hsa Hsb.
  assert (∃ s, const_ty a' = TyScalar s) as [s Hs] by (destruct a' as [[] ?]; try done; by eexists).
  assert (∃ s, const_ty b' = TyScalar s) as [s' Hs'] by (destruct b' as [[] ?]; try done; by eexists).
  eapply (valid_bind _ _ _ _ _ (λ _ κ' u', κ' = κ ∧ u' = u ∧ s = s') (λ _ _, True)).
  { rewrite Hs, Hs'. eapply valid_weaken; [by apply relate_scalar| |done|done].
    intros σ Hσ Heq. pose proof (const_ty_apply κ u σ a' Hσ Hfa) as E1. pose proof (const_ty_apply κ u σ b' Hσ Hfb) as E2.
    rewrite Heq in E1. congruence. }
  intros [] κ1 u1 _ _ (-> & -> & <-).
  assert (const_ty a = const_ty b) as Htab by congruence.
  eapply (valid_weaken _ κ u (λ σ, apply_ct σ a' = apply_ct σ b') _ (λ _ κ' u', κ' = κ ∧
      effect κ (VkConst (const_ty a)) (const_inference_var a) (const_inference_var b) u u') _ (λ _ _, True)); [| |naive_solver|done].
  2: { intros σ _ (_ & σ0 & Hag & _ & Heq). by rewrite <- !(agree_ct κ σ0 σ Hag). }
  destruct Hca as [[Hga Hua]|(va & -> & -> & Hua & Hsva)], Hcb as [[Hgb Hub]|(vb & -> & -> & Hub & Hsvb)]; simpl in *.
  - assert (∀ c, fo_ct (λ _ _, False) c → ∃ ty, (∃ p, c = mkConst ty (CvPlaceholder p)) ∨ ∃ n, c = mkConst ty (CvConcrete n)) as Hcases.
    { intros [[] []]; try done; intros _; eexists; eauto. }
    destruct (Hcases a' Hga) as (ta & [[p ->]|[n ->]]), (Hcases b' Hgb) as (tb & [[q ->]|[m ->]]);
      unfold relate_const_values; cbn [const_value const_ty].
    + unfold zip_eq. case_decide; [apply valid_ret; [done|split; [done|by apply eff_same]|done]|].
      apply valid_err. intros σ _ Heq. rewrite !apply_ct_ground in Heq by done. congruence.
    + apply valid_err. intros σ _ Heq. rewrite !apply_ct_ground in Heq by done. congruence.
    + apply valid_err. intros σ _ Heq. rewrite !apply_ct_ground in Heq by done. congruence.
    + destruct (db_const_eq _ _ _ _) eqn:Heq; [apply valid_ret; [done|split; [done|by apply eff_same]|done]|].
      apply valid_err. intros σ _ Hnm. rewrite !apply_ct_ground in Hnm by done. simplify_eq. by rewrite Hconst in Heq.
  - eapply (valid_weaken _ κ u (λ σ, σ.(val_ct) vb = a') _ (λ _ κ' u', κ' = κ ∧ value_facts vb (Bound (ArgConst a')) u u') _ (λ _ _, True)).
    + assert (∀ fuel, unify_var_const env fuel vb a' = relate_const_values db env fuel a' (mkConst (const_ty b) (CvInferenceVar vb))) as Heq.
      { intros f'. destruct a' as [ta [| |p|c]]; try done; by destruct ta. }
      rewrite <- Heq. apply unify_var_const_valid; try done. by rewrite Hta, Htab.
    + intros σ _ Heq. rewrite apply_ct_ground in Heq by done. symmetry. exact Heq.
    + intros [] κ' u' _ _ [-> Hf]. split; [done|]. apply (eff_bind _ _ _ _ _ _ vb (ArgConst a')); try done.
      * right. done.
      * by rewrite Htab.
    + done.
  - eapply (valid_weaken _ κ u (λ σ, σ.(val_ct) va = b') _ (λ _ κ' u', κ' = κ ∧ value_facts va (Bound (ArgConst b')) u u') _ (λ _ _, True)).
    + assert (∀ fuel, unify_var_const env fuel va b' = relate_const_values db env fuel (mkConst (const_ty a) (CvInferenceVar va)) b') as Heq.
      { intros f'. destruct b' as [tb [| |p|c]]; try done; by destruct tb. }
      rewrite <- Heq. apply unify_var_const_valid; try done. by rewrite Htb, <- Htab.
    + intros σ _ Heq. rewrite (apply_ct_ground σ b') in Heq by done. exact Heq.
    + intros [] κ' u' _ _ [-> Hf]. split; [done|]. apply (eff_bind _ _ _ _ _ _ va (ArgConst b')); try done.
      left. done.
    + done.
  - destruct (Hua) as [wa Hwa], (Hub) as [wb Hwb]. rewrite <- Htab in Hsvb. unfold relate_const_values. simpl.
    eapply valid_weaken; [eapply (valid_unify_var_var va vb (VkConst (const_ty a)) wa wb κ u
      (λ σ, σ.(val_ct) va = σ.(val_ct) vb))|..]; try done.
    intros [] κ' u' _ _ [-> Hf]. split; [done|]. by apply (eff_merge _ _ _ _ _ _ va vb).
Qed.

(** ** A type and its generalization *)

(** The variables from [i] to [hi] are alone in their classes, and unbound. *)
Definition pristine (i hi : nat) (u : U) : Prop :=
  ∀ v, i ≤ v < hi → ena_find (ena u) v = v ∧ is_unbound (ena u) v ∧ ∀ y, ena_find (ena u) y = v → y = v.

Definition old (lo : nat) (κ : Sorts) (u : U) (v : InferenceVar) (k : VariableKind) : Prop :=
  sorted κ v k ∧ is_unbound (ena u) v ∧ v < lo.

Record zipped (lo j hi k : nat) (κ : Sorts) (u u' : U) : Prop := {
  z_n : N κ u = N κ u' + k;
  z_old v : v < lo → is_unbound (ena u) v → is_unbound (ena u') v;
  z_pristine : pristine j hi u';
  z_ty y t : ena_probe_value (ena u') y = Bound (ArgTy t) → ena_probe_value (ena u) y = Bound (ArgTy t)
}.

Lemma zipped_refl lo j hi κ u : pristine j hi u → zipped lo j hi 0 κ u u.
Proof. split; try done; lia. Qed.

Lemma zipped_trans lo j j' hi k k' κ u u1 u2 :
  zipped lo j hi k κ u u1 → zipped lo j' hi k' κ u1 u2 → zipped lo j' hi (k + k') κ u u2.
Proof. intros [N1 O1 P1 T1] [N2 O2 P2 T2]. split; [lia|auto|done|auto]. Qed.

Lemma pristine_later i j hi u : i ≤ j → pristine i hi u → pristine j hi u.
Proof. intros Hj Hp v Hv. apply Hp. lia. Qed.

Lemma Gen_le :
  (∀ i j k g t, Gen i j k g t → i ≤ j) ∧ (∀ i j k a' a, GenA i j k a' a → i ≤ j) ∧
  (∀ i j k s' s, GenL i j k s' s → i ≤ j).
Proof. apply Gen_mutind; intros; lia. Qed.

(** The fresh variables are not those of the type. *)
Lemma Gen_eq lo :
  (∀ i j k g t, Gen i j k g t → lo ≤ i → g = t → fo db (λ v _, v < lo) t → k = 0) ∧
  (∀ i j k a' a, GenA i j k a' a → lo ≤ i → a' = a → fo_arg db (λ v _, v < lo) a → k = 0) ∧
  (∀ i j k s' s, GenL i j k s' s → lo ≤ i → s' = s → Forall (fo_arg db (λ v _, v < lo)) s → k = 0).
Proof.
  apply Gen_mutind; try done.
  - intros i j k h s' s Hf Hf' _ IH Hi Heq Hfo. apply (con_inj db) in Heq as [_ ->]; [|done..].
    apply (fo_con_inv db) in Hfo; [|done]. by apply IH.
  - intros i v Hi [= ->] Hfo. apply (fo_var_inv db) in Hfo. lia.
  - intros i j k g t _ IH Hi [= ->] Hfo. inversion Hfo; subst. by apply IH.
  - intros i j m k k' a' a s' s Ha IHa Hs IHs Hi [= -> ->] Hfo. apply Forall_cons in Hfo as [Hfa Hfs].
    pose proof (proj1 (proj2 Gen_le) _ _ _ _ _ Ha). rewrite IHa, IHs by (done || lia). done.
Qed.

(** A merge with an old variable of the next fresh one, or of an old one. *)
Lemma merge_zipped lo i j hi a b u u' : lo ≤ i → pristine i hi u → b < lo →
  (a = i ∧ j = S i ∧ i < hi) ∨ (a < lo ∧ j = i) → merge_facts a b u u' →
  (∀ v, v < lo → is_unbound (ena u) v → is_unbound (ena u') v) ∧ pristine j hi u' ∧
  (∀ y t, ena_probe_value (ena u') y = Bound (ArgTy t) → ena_probe_value (ena u) y = Bound (ArgTy t)).
Proof.
  intros Hlo Hpr Hb Ha [[r [Hr Hfind]] Hmerged Hother].
  set (cls y := ena_find (ena u) y = ena_find (ena u) a ∨ ena_find (ena u) y = ena_find (ena u) b) in *.
  assert (∀ v, j ≤ v < hi → ¬ cls v ∧ r ≠ v) as Hout.
  { intros v Hv. assert (i ≤ v < hi) as Hv' by lia. destruct (Hpr v Hv') as (Hvf & _ & Hal).
    assert (ena_find (ena u) b ≠ v) as Hbv by (intros ?%Hal; lia).
    assert (ena_find (ena u) a ≠ v) as Hav by (intros ?%Hal; lia).
    split; [|by destruct Hr as [-> | ->]]. unfold cls. rewrite Hvf. intros [?|?]; congruence. }
  split_and!.
  - intros v Hv [w Hw]. destruct (decide (cls v)) as [Hd|Hd]; [by apply Hmerged|].
    exists w. by rewrite Hother.
  - intros v Hv. destruct (Hout v Hv) as [Hd Hrv]. assert (i ≤ v < hi) as Hv' by lia.
    destruct (Hpr v Hv') as (Hvf & [w Hw] & Hal). split_and!.
    + by rewrite Hfind, decide_False.
    + exists w. by rewrite Hother.
    + intros y. rewrite Hfind. case_decide; [done|]. apply Hal.
  - intros y t Hy. destruct (decide (cls y)) as [Hd|Hd]; [destruct (Hmerged y Hd) as [w Hw]; congruence|].
    by rewrite <- Hother.
Qed.

(** The step of a fresh variable for a lifetime or a constant. *)
Lemma effect_fresh lo i hi k vb κ u u' : in_order κ u → is_ty k = false → lo ≤ i < hi → pristine i hi u →
  (∀ y, vb = Some y → is_unbound (ena u) y ∧ y < lo) → effect κ k (Some i) vb u u' → zipped lo (S i) hi 0 κ u u'.
Proof.
  intros Hg Hk Hi Hpr Hb Heff. pose proof (effect_n _ _ _ _ _ _ Hg Hk Heff) as HN.
  pose proof (λ y t, effect_ty κ k _ _ u u' y t Hg Heff) as Hty.
  destruct (Hpr i) as (Hfi & Hui & Hali); [lia|].
  destruct Heff as [Ht|v b Hva Hv Huv Hbt [Hfind Hprobe]|v y [= <-] Hy _ _ _ _ Hf].
  - split; [lia| |intros v Hv; rewrite Ht; apply Hpr; lia|done]. intros v _. by rewrite Ht.
  - destruct Hva as [[[= <-] _]|[-> Hn]]; [|by destruct (Hn i)].
    split; [lia| | |done].
    + intros v Hvlo [w Hw]. exists w. rewrite Hprobe, decide_False; [done|]. rewrite Hfi. intros ?%Hali. lia.
    + intros v Hvr. destruct (Hpr v) as (Hfv & [w Hw] & Hal); [lia|]. split_and!; [by rewrite Hfind| |].
      * exists w. rewrite Hprobe, decide_False; [done|]. rewrite Hfv, Hfi. lia.
      * intros y. rewrite Hfind. apply Hal.
  - destruct (Hb y Hy) as [_ Hyl].
    destruct (merge_zipped lo i (S i) hi i y u u') as (Ho & Hp & _); try done; [lia|left; lia|].
    by split; [lia| | |].
Qed.

(** The step of a lifetime with itself. *)
Lemma effect_self lo i hi k vb κ u u' : in_order κ u → is_ty k = false → lo ≤ i → pristine i hi u →
  (∀ y, vb = Some y → is_unbound (ena u) y ∧ y < lo) → effect κ k vb vb u u' → zipped lo i hi 0 κ u u'.
Proof.
  intros Hg Hk Hi Hpr Hb Heff. pose proof (effect_n _ _ _ _ _ _ Hg Hk Heff) as HN.
  destruct Heff as [Ht|v b Hva Hv Huv Hbt Hf|v y -> [= <-] _ _ _ _ Hf].
  - split; [lia| | |].
    + intros v _. by rewrite Ht.
    + intros v Hv. rewrite Ht. by apply Hpr.
    + intros y t. by rewrite Ht.
  - destruct Hva as [[-> Hn]|[-> Hn]]; destruct (Hn v eq_refl); by apply Hb.
  - destruct (Hb v eq_refl) as [_ Hvl].
    destruct (merge_zipped lo i i hi v v u u') as (Ho & Hp & Hty); try done; [right; done|].
    split; [lia|done..].
Qed.

(** A type that is not a variable is its own normal form. *)
Lemma normalize_nonvar (tbl : InferenceTable E) t : is_var t = false → normalize_ty_shallow tbl t = Val None.
Proof. by destruct t. Qed.

(** [relate_ty_ty] on normal forms. *)
Lemma relate_normal n Z v a b u na nb :
  normalize_ty_shallow u.(utable) a = Val na → normalize_ty_shallow u.(utable) b = Val nb →
  relate_ty_ty db env n Z v a b u =
    (if decide (default a na = default b nb) then mret tt
     else relate_kinds db env n Z v (default a na) (default b nb)) u.
Proof.
  intros Ha Hb. unfold relate_ty_ty, normalize_or, mbind, SE_bind, read_table.
  rewrite Ha. simpl. rewrite Hb. simpl. by case_decide.
Qed.

Lemma old_zipped lo j hi k κ u u' s : zipped lo j hi k κ u u' →
  Forall (fo_arg db (old lo κ u)) s → Forall (fo_arg db (old lo κ u')) s.
Proof.
  intros Hz Hs. eapply Forall_impl; [exact Hs|]. intros a Ha. refine (proj2 (fo_mono db _ _ _) _ Ha).
  intros v k' (Hv & Hu & Hlo). split_and!; [done|by eapply z_old|done].
Qed.

Definition zip_valid (lo j hi k : nat) (m : SE U unit) κ u (P : Valuation → Prop) : Prop :=
  valid m κ u P (λ _ κ' u', κ' = κ ∧ zipped lo j hi k κ u u') (λ _ _, True).

Lemma zip_gen :
  (∀ i j k g t, Gen i j k g t → ∀ n m lo hi κ u, in_order κ u → lo ≤ i → j ≤ hi → pristine i hi u →
     fo db (sorted κ) g → fo db (old lo κ u) t → height_le (ena u) m t → m + 2 ≤ n →
     zip_valid lo j hi k (zip_tys (unifier db env n) Invariant g t) κ u (λ σ, apply_ty σ g = apply_ty σ t)) ∧
  (∀ i j k a' a, GenA i j k a' a → ∀ n m lo hi κ u, in_order κ u → lo ≤ i → j ≤ hi → pristine i hi u →
     fo_arg db (sorted κ) a' → fo_arg db (old lo κ u) a → arg_height_le (ena u) m a → m + 2 ≤ n →
     zip_valid lo j hi k (zip_arg (unifier db env n) Invariant a' a) κ u (λ σ, apply_arg σ a' = apply_arg σ a)) ∧
  (∀ i j k s' s, GenL i j k s' s → ∀ n m lo hi κ u, in_order κ u → lo ≤ i → j ≤ hi → pristine i hi u →
     Forall (fo_arg db (sorted κ)) s' → Forall (fo_arg db (old lo κ u)) s → Forall (arg_height_le (ena u) m) s → m + 2 ≤ n →
     zip_valid lo j hi k (zips (unifier db env n) s' s) κ u (λ σ, apply_arg σ <$> s' = apply_arg σ <$> s)).
Proof.
  apply Gen_mutind.
  - intros i j k h s' s Hf Hf' Hgen IH n m lo hi κ u Hg Hlo Hhi Hpr Hfs' Hfs Hh Hn.
    destruct m as [|m]; [done|]. destruct n as [|n]; [lia|]. cbn [unifier zip_tys]. unfold zip_valid.
    eapply valid_by; [|apply (relate_normal _ _ _ _ _ _ None None); by apply normalize_nonvar, (con_is_var db)].
    cbn [default]. destruct (decide (con h s' = con h s)) as [Heq|Hne].
    + apply valid_ret; [done| |done]. split; [done|].
      rewrite (proj1 (Gen_eq lo) i j k (con h s') (con h s)); [|by constructor|done|done|].
      * apply zipped_refl. by eapply pristine_later; [apply (proj2 (proj2 Gen_le)) in Hgen|].
      * refine (proj1 (fo_mono db _ _ _) _ Hfs). by intros v k' (_ & _ & ?).
    + destruct (relate_con db env n (unifier db env n) h h s' s Hf' Hf) as [[_ Heq]|[? _]]; [|done].
      eapply valid_by; [|apply Heq]. rewrite (height_con db) in Hh by done.
      eapply valid_weaken; [apply (IH n m lo hi κ u); try done| |done|done].
      * by apply (fo_con_inv db) in Hfs'.
      * by apply (fo_con_inv db) in Hfs.
      * lia.
      * intros σ _ Happ. by apply (apply_con_inj db) in Happ as [_ Happ].
  - intros i t Ht n m lo hi κ u Hg Hlo Hhi Hpr _ _ _ Hn. destruct n as [|n]; [lia|]. cbn [unifier zip_tys]. unfold zip_valid.
    eapply valid_by; [|apply (relate_normal _ _ _ _ _ _ None None); by destruct t]. cbn [default].
    rewrite decide_True by done. apply valid_ret; [done| |done]. split; [done|by apply zipped_refl].
  - intros i v kd n m lo hi κ u Hg Hlo Hhi Hpr _ Hfo _ Hn. destruct n as [|n]; [lia|]. cbn [unifier zip_tys]. unfold zip_valid.
    apply (fo_var_inv db) in Hfo as (_ & [w Hw] & _).
    eapply valid_by; [|apply (relate_normal _ _ _ _ _ _ None None); by eapply normalize_unbound]. cbn [default].
    rewrite decide_True by done. apply valid_ret; [done| |done]. split; [done|by apply zipped_refl].
  - intros i v n m lo hi κ u Hg Hlo Hhi Hpr Hfg Hfo _ Hn. destruct n as [|n]; [lia|]. cbn [unifier zip_tys]. unfold zip_valid.
    apply (fo_var_inv db) in Hfo as (Hv & Huv & Hvl). apply (fo_var_inv db) in Hfg as Hi.
    destruct (Hpr i) as (Hfi & Hui & Hal); [lia|]. destruct (Huv) as [w Hw], (Hui) as [wi Hwi].
    eapply valid_by; [|apply (relate_normal _ _ _ _ _ _ None None); by eapply normalize_unbound]. cbn [default].
    rewrite decide_False by (intros [= ->]; lia). cbn [relate_kinds]. unfold relate_vars. rewrite decide_True by done.
    eapply valid_weaken; [eapply (valid_unify_var_var i v (VkTy General) wi w κ u
      (λ σ, σ.(val_ty) i = σ.(val_ty) v))|..]; try done.
    intros [] κ' u' _ _ [-> Hf]. split; [done|].
    pose proof (N_merge κ u u' i v _ Hg Hi Hv Hui Huv Hf) as HN. simpl in HN.
    rewrite bool_decide_true in HN by (rewrite Hfi; intros Heq; symmetry in Heq; apply Hal in Heq; lia).
    destruct (merge_zipped lo i (S i) hi i v u u') as (Ho & Hp & Hty); try done. left. split_and!; lia.
  - intros i j k g t _ IH n m lo hi κ u Hg Hlo Hhi Hpr Hfg%fo_arg_ty_inv Hfo%fo_arg_ty_inv Hh Hn. simpl.
    eapply valid_weaken; [by apply (IH n m lo hi κ u)| |done|done]. intros σ _ Heq. by injection Heq.
  - intros i l n m lo hi κ u Hg Hlo Hhi Hpr Hfg%fo_arg_lt_inv Hfo%fo_arg_lt_inv _ Hn.
    destruct n as [|n]; [lia|]. simpl. eapply valid_weaken; [by apply relate_lt|done| |done].
    intros [] κ' u' _ _ [-> Heff]. split; [done|]. eapply effect_self; [done| |done|done| |exact Heff]; [done|].
    intros y Hy. destruct l; simplify_eq/=. by destruct Hfo as (_ & ? & ?).
  - intros i l n m lo hi κ u Hg Hlo Hhi Hpr Hfg%fo_arg_lt_inv Hfo%fo_arg_lt_inv _ Hn.
    destruct n as [|n]; [lia|]. simpl. eapply valid_weaken; [apply relate_lt; try done| | |done].
    + by eapply fo_lt_mono; [|exact Hfo]; intros ?? [? _].
    + intros σ _ Heq. by injection Heq.
    + intros [] κ' u' _ _ [-> Heff]. split; [done|]. eapply effect_fresh; [done| |lia|done| |exact Heff]; [done|].
      intros y Hy. destruct l; simplify_eq/=. by destruct Hfo as (_ & ? & ?).
  - intros i ty cv n m lo hi κ u Hg Hlo Hhi Hpr Hfg%fo_arg_ct_inv Hfo%fo_arg_ct_inv _ Hn.
    destruct n as [|[|n]]; [lia|lia|]. cbn [zip_arg unifier zip_consts].
    eapply valid_weaken; [apply (relate_ct (S n) n); try done| | |done].
    + by eapply fo_ct_mono; [|exact Hfo]; intros ?? [? _].
    + intros σ _ Heq. by injection Heq.
    + intros [] κ' u' _ _ (-> & _ & Heff). split; [done|]. eapply effect_fresh; [done| |lia|done| |exact Heff]; [done|].
      intros y Hy. destruct ty; simpl in Hfo; try done. destruct cv; try done.
      injection Hy as <-. by destruct Hfo as (_ & ? & ?).
  - intros i n m lo hi κ u Hg Hlo Hhi Hpr _ _ _ _. apply valid_ret; [done| |done]. split; [done|by apply zipped_refl].
  - intros i j m' k k' a' a s' s Ha IHa Hs IHs n m lo hi κ u Hg Hlo Hhi Hpr Hfs' Hfs Hh Hn.
    apply Forall_cons in Hfs' as [Hfa' Hfs']. apply Forall_cons in Hfs as [Hfa Hfs]. apply Forall_cons in Hh as [Hha Hhs].
    pose proof (proj1 (proj2 Gen_le) _ _ _ _ _ Ha). pose proof (proj2 (proj2 Gen_le) _ _ _ _ _ Hs).
    cbn [zips]. eapply valid_bind.
    { eapply valid_weaken; [apply (IHa n m lo hi κ u); try done; lia| |done|done]. intros σ _ Heq. by injection Heq. }
    intros [] κ1 u1 _ Hg1 [-> Hz]. eapply valid_weaken; [apply (IHs n m lo hi κ u1); try done|..].
    + lia.
    + by eapply z_pristine.
    + by eapply old_zipped.
    + eapply Forall_impl; [exact Hhs|]. intros [t| |]; try done. simpl. apply height_same. intros y t'. by eapply z_ty.
    + intros σ1 _ (_ & σ & Hag & _ & Heq). rewrite !fmap_cons in Heq. injection Heq as _ Heq.
      rewrite <- (agree_args db κ σ σ1 Hag s') by done. etrans; [exact Heq|]. apply (agree_args db κ σ σ1 Hag).
      eapply Forall_impl; [exact Hfs|]. intros b Hb. refine (proj2 (fo_mono db _ _ _) _ Hb). by intros ?? [? _].
    + intros [] κ2 u2 _ _ [-> Hz2]. split; [done|]. by eapply zipped_trans.
    + done.
Qed.

(** ** Growth

    Binding a variable may add the height of its value to the resolved heights. *)

Definition growth (B : nat) (κ κ' : Sorts) (u u' : U) : Prop :=
  N κ' u' ≤ N κ u ∧
  ∀ b t, height_le (ena u) b t → height_le (ena u') (b + B * (2 ^ (N κ u - N κ' u') - 1)) t.

Lemma pow2_pos n : 1 ≤ 2 ^ n.
Proof. induction n; simpl; lia. Qed.

Lemma pow2_split n m : m ≤ n → 2 ^ n = 2 ^ m * 2 ^ (n - m).
Proof. intros Hm. rewrite <- Nat.pow_add_r. f_equal. lia. Qed.

(** The bound after [d] of [n] variables were bound. *)
Lemma unify_fuel_grow n B m d : d ≤ n →
  m + B * (2 ^ d - 1) + (B * 2 ^ d + 3) * (n - d + 1) * 2 ^ (n - d) ≤ m + (B + 3) * (n + 1) * 2 ^ n.
Proof.
  intros Hd. rewrite (pow2_split n d Hd). pose proof (pow2_pos d) as H1. pose proof (pow2_pos (n - d)) as H2.
  destruct d as [|d]; [simpl; rewrite Nat.sub_0_r; lia|].
  set (x := 2 ^ S d) in *. set (y := 2 ^ (n - S d)) in *. assert (n - S d + 1 = n - d) as -> by lia.
  assert (n + 1 = (n - d) + S d) as -> by lia. set (c := n - d).
  assert ((B * x + 3) * c * y ≤ (B + 3) * c * x * y).
  { apply Nat.mul_le_mono_r. nia. }
  assert (B * (x - 1) ≤ (B + 3) * S d * x * y).
  { transitivity (B * x); [apply Nat.mul_le_mono_l; lia|].
    transitivity ((B + 3) * x); [nia|]. transitivity ((B + 3) * x * (S d * y)); [nia|lia]. }
  nia.
Qed.

Lemma growth_refl B κ u : growth B κ κ u u.
Proof. split; [done|]. intros b t Ht. eapply height_mono; [apply Nat.le_add_r|exact Ht]. Qed.

Lemma growth_trans B κ κ1 κ2 u u1 u2 : growth B κ κ1 u u1 →
  growth (B * 2 ^ (N κ u - N κ1 u1)) κ1 κ2 u1 u2 → growth B κ κ2 u u2.
Proof.
  intros [N1 H1] [N2 H2]. split; [lia|]. intros b t Ht. eapply height_mono; [|apply H2, H1, Ht].
  rewrite (pow2_split (N κ u - N κ2 u2) (N κ u - N κ1 u1)) by lia.
  replace (N κ u - N κ2 u2 - (N κ u - N κ1 u1)) with (N κ1 u1 - N κ2 u2) by lia.
  pose proof (pow2_pos (N κ u - N κ1 u1)). pose proof (pow2_pos (N κ1 u1 - N κ2 u2)).
  set (x := 2 ^ (N κ u - N κ1 u1)) in *. set (y := 2 ^ (N κ1 u1 - N κ2 u2)) in *.
  assert (x * y - 1 = (x - 1) + x * (y - 1)) as -> by nia. lia.
Qed.

(** Nothing that types can see happens. *)
Lemma growth_same B κ u u' : N κ u' = N κ u →
  (∀ y t, ena_probe_value (ena u') y = Bound (ArgTy t) → ena_probe_value (ena u) y = Bound (ArgTy t)) →
  growth B κ κ u u'.
Proof.
  intros HN Hty. split; [lia|]. intros b t Ht. eapply height_mono; [apply Nat.le_add_r|by eapply height_same].
Qed.

Lemma growth_effect B κ k va vb u u' : in_order κ u → is_ty k = false → effect κ k va vb u u' → growth B κ κ u u'.
Proof.
  intros Hg Hk Heff. apply growth_same; [by eapply effect_n|]. intros y t. by eapply effect_ty.
Qed.

(** One variable fewer, and values of height at most [B]. *)
Lemma growth_one B κ κ' u u' : N κ u = S (N κ' u') →
  (∀ v t, ena_probe_value (ena u') v = Bound (ArgTy t) →
     ena_probe_value (ena u) v = Bound (ArgTy t) ∨ height_le (ena u') B t) → growth B κ κ' u u'.
Proof.
  intros HN Hty. split; [lia|]. intros b t Ht. rewrite HN. replace (S (N κ' u') - N κ' u') with 1 by lia.
  eapply height_mono; [|by eapply height_change]. simpl. lia.
Qed.

Lemma growth_merge B κ u u' a b k : in_order κ u → sorted κ a k → sorted κ b k →
  is_unbound (ena u) a → is_unbound (ena u) b → merge_facts a b u u' → growth B κ κ u u'.
Proof.
  intros Hg Ha Hb Hua Hub Hf. pose proof (N_merge κ u u' a b k Hg Ha Hb Hua Hub Hf) as HN.
  assert (∀ y t, ena_probe_value (ena u') y = Bound (ArgTy t) → ena_probe_value (ena u) y = Bound (ArgTy t)) as Hty.
  { intros y t Hy. destruct (decide (ena_find (ena u) y = ena_find (ena u) a ∨ ena_find (ena u) y = ena_find (ena u) b)) as [Hd|Hd].
    - destruct (mf_merged _ _ _ _ Hf y Hd) as [w Hw]. congruence.
    - by rewrite <- (mf_other _ _ _ _ Hf y Hd). }
  split; [lia|]. intros c t Ht. eapply height_mono; [apply Nat.le_add_r|by eapply height_same].
Qed.

(** ** Types *)

(** A type and its normal form. *)
Record normal_ty (κ : Sorts) (u : U) (m : nat) (t t' : Ty) : Prop := {
  nt_fo : fo db (sorted κ) t';
  nt_height : height_le (ena u) m t';
  nt_case : is_var t' = false ∨ ∃ v k, t' = TyInferenceVar v k ∧ is_unbound (ena u) v ∧ sorted κ v (VkTy k);
  nt_eq σ : Sol κ σ u → apply_ty σ t = apply_ty σ t'
}.

Lemma is_var_inv t : is_var t = true → ∃ v k, t = TyInferenceVar v k.
Proof. destruct t; try done. eauto. Qed.

Lemma normalize_inner κ u m t : in_order κ u → fo db (sorted κ) t → height_le (ena u) m t →
  ∃ n, normalize_ty_shallow_inner u.(utable) t = Val n ∧
    match n with
    | None => normal_ty κ u m t t
    | Some t' => (∃ v k, t = TyInferenceVar v k ∧ (k ≠ General → is_var t' = false)) ∧
        (∀ v, t' ≠ TyInferenceVar v General) ∧
        fo db (sorted κ) t' ∧ height_le (ena u) m t' ∧ ∀ σ, Sol κ σ u → apply_ty σ t = apply_ty σ t'
    end.
Proof.
  intros Hg Hfo Hh. unfold normalize_ty_shallow_inner, normalize_shallow_with, probe_var.
  destruct (is_var t) eqn:Hvar; [|exists None; split; [by destruct t|split; auto]].
  apply is_var_inv in Hvar as (v & k & ->). apply (fo_var_inv db) in Hfo as Hv.
  simpl. destruct (ena_probe_value (ena u) v) as [w|b] eqn:Hp.
  - exists None. split; [done|]. split; [done|done| |done]. right. exists v, k. split_and!; try done. by exists w.
  - pose proof (tok_value _ _ _ (good_table _ _ Hg) v _ b Hv Hp) as Hok. destruct b as [t| |]; try done.
    destruct Hok as [Hft Hk]. exists (Some t). split; [done|]. split_and!; [|intros v' ->|done| |].
    + exists v, k. split; [done|]. destruct k; [done| |]; by destruct t.
    + destruct k; [by apply (Hk v')|done|done].
    + destruct m as [|m]; [done|]. simpl in Hh. rewrite Hp in Hh. eapply height_mono; [|exact Hh]. lia.
    + intros σ Hσ. exact (later_value κ u v _ _ σ σ Hg Hv Hp Hσ (agree_refl _ _)).
Qed.

Lemma normalize_ty κ u m t : in_order κ u → fo db (sorted κ) t → height_le (ena u) m t →
  ∃ n, normalize_ty_shallow u.(utable) t = Val n ∧ normal_ty κ u m t (default t n).
Proof.
  intros Hg Hfo Hh. unfold normalize_ty_shallow.
  destruct (normalize_inner κ u m t Hg Hfo Hh) as ([t1|] & -> & Hn); [|by exists None].
  destruct Hn as (_ & Hgen & Hf1 & Hh1 & He1). simpl.
  destruct (normalize_inner κ u m t1 Hg Hf1 Hh1) as ([t2|] & -> & Hn2); simpl; eexists; (split; [reflexivity|]); simpl.
  - destruct Hn2 as ((v & k & -> & Hk) & _ & Hf2 & Hh2 & He2).
    split; [done|done| |intros σ Hσ; by rewrite He1, He2]. left. apply Hk. intros ->. by apply (Hgen v).
  - destruct Hn2 as [? ? Hc _]. by split.
Qed.

(** *** Two variables *)

Lemma relate_vars_valid Z B v k w k' κ u : in_order κ u → sorted κ v (VkTy k) → sorted κ w (VkTy k') →
  is_unbound (ena u) v → is_unbound (ena u) w → 1 ≤ B →
  valid (relate_vars env Z Invariant (TyInferenceVar v k) (TyInferenceVar w k') v k w k') κ u
    (λ σ, σ.(val_ty) v = σ.(val_ty) w) (λ _ κ' u', κ' = κ ∧ growth B κ κ' u u') (λ _ _, True).
Proof.
  intros Hg Hv Hw Huv Huw HB. destruct (Huv) as [wv Hwv], (Huw) as [ww Hww].
  assert (k = k' → valid (unify_var_var v w) κ u (λ σ, σ.(val_ty) v = σ.(val_ty) w)
    (λ _ κ' u', κ' = κ ∧ growth B κ κ' u u') (λ _ _, True)) as Hmerge.
  { intros <-. eapply valid_weaken; [by eapply (valid_unify_var_var v w (VkTy k) wv ww κ u (λ σ, σ.(val_ty) v = σ.(val_ty) w))|done| |done].
    intros [] κ' u' _ _ [-> Hf]. split; [done|]. by apply (growth_merge B κ u u' v w (VkTy k)). }
  assert (∀ x y kx ky, sorted κ x (VkTy kx) → sorted κ y (VkTy ky) → is_unbound (ena u) x → is_unbound (ena u) y →
    kx = General → ky ≠ General →
    valid (unify_general_var_specific_ty x (TyInferenceVar y ky)) κ u (λ σ, σ.(val_ty) x = σ.(val_ty) y)
      (λ _ κ' u', κ' = κ ∧ growth B κ κ' u u') (λ _ _, True)) as Hbind.
  { intros x y kx ky Hx Hy Hux [wy Hwy] -> Hky. destruct (Hux) as [wx Hwx].
    eapply valid_weaken; [eapply (valid_unify_value x (InferenceValue_from_ty (TyInferenceVar y ky))
      (Bound (ArgTy (TyInferenceVar y ky))) (VkTy General) wx κ u (λ σ, σ.(val_ty) x = σ.(val_ty) y)); try done|done| |done].
    - simpl. split; [by apply fo_var|]. by intros v' [= _ ?].
    - intros [] κ' u' _ _ [-> Hf]. split; [done|]. apply growth_one; [by eapply (N_bind κ u u' x General)|]. destruct Hf as [_ Hprobe].
      intros y' t. rewrite Hprobe. case_decide as Hd; [|by left]. intros [= <-]. right.
      destruct B as [|B]; [lia|]. simpl. rewrite Hprobe, decide_False; [by rewrite Hwy|].
      intros Hc. pose proof (class_kind κ u x _ y _ Hg Hx Hy Hc). congruence. }
  unfold relate_vars. destruct (decide (k = General ∧ k' = General)) as [[-> ->]|Hgen]; [by apply Hmerge|].
  destruct (decide (k = k')) as [Hk|Hk]; [by apply Hmerge|].
  destruct (decide (k = General)) as [->|Hkg]; [eapply Hbind; try done; congruence|].
  destruct (decide (k' = General)) as [->|Hkg'].
  { eapply valid_weaken; [by apply (Hbind w v General k)| |done|done]. intros σ _ Heq. symmetry. exact Heq. }
  apply valid_err. intros σ [Hσ _] Heq. pose proof (sol_kind _ _ _ Hσ v _ Hv) as H1. pose proof (sol_kind _ _ _ Hσ w _ Hw) as H2.
  destruct k, k'; try done; simpl in H1, H2; rewrite Heq in H1; by destruct (σ.(val_ty) w) as [| |[]| | | | | | | | | | | | | | | | | | | |].
Qed.

(** *** A variable and another type *)

(** A generalized type is as high as the type. *)
Lemma Gen_height e e' :
  (∀ i j k g t, Gen i j k g t → ∀ n, fo db (λ v _, ∀ t', ena_probe_value e' v ≠ Bound (ArgTy t')) g →
    height_le e n t → height_le e' n g) ∧
  (∀ i j k a' a, GenA i j k a' a → ∀ n, fo_arg db (λ v _, ∀ t', ena_probe_value e' v ≠ Bound (ArgTy t')) a' →
    arg_height_le e n a → arg_height_le e' n a') ∧
  (∀ i j k s' s, GenL i j k s' s → ∀ n, Forall (fo_arg db (λ v _, ∀ t', ena_probe_value e' v ≠ Bound (ArgTy t'))) s' →
    Forall (arg_height_le e n) s → Forall (arg_height_le e' n) s').
Proof.
  assert (∀ v k n, fo db (λ v _, ∀ t', ena_probe_value e' v ≠ Bound (ArgTy t')) (TyInferenceVar v k) →
    height_le e' (S n) (TyInferenceVar v k)) as Hvar.
  { intros v k n Hfo%fo_var_inv. simpl. destruct (ena_probe_value e' v) as [|[]] eqn:Hp; try done. by destruct (Hfo ty). }
  apply Gen_mutind; try done.
  - intros i j k h s' s Hf Hf' _ IH [|n] Hfo Hh; [done|]. apply (fo_con_inv db) in Hfo; [|done].
    rewrite (height_con db) in Hh |- * by done. by apply IH.
  - intros i t Ht [|n] _ Hh; [done|]. by destruct t.
  - intros i v k [|n] Hfo Hh; [done|]. by apply Hvar.
  - intros i v [|n] Hfo Hh; [done|]. by apply Hvar.
  - intros i j k g t _ IH n Hfo%fo_arg_ty_inv Hh. by apply IH.
  - intros i j m k k' a' a s' s _ IHa _ IHs n Hfo Hh. apply Forall_cons in Hfo as [? ?], Hh as [? ?].
    constructor; auto.
Qed.

Lemma kind_apply σ V t : fo db V t → is_var t = false →
  is_integer (apply_ty σ t) = is_integer t ∧ is_float (apply_ty σ t) = is_float t ∧
  (is_integer t = true ∨ is_float t = true → is_leaf t = true).
Proof.
  intros [h s Hf _|t' Ht|] Hvar; [| |done].
  - rewrite (apply_con db) by done. assert (fits db h (apply_arg σ <$> s)) as Hf' by (eapply fits_same; [done|apply apply_same]).
    assert (∀ s, fits db h s → is_integer (con h s) = false ∧ is_float (con h s) = false) as Hno.
    { clear. intros s Hf. destruct h; simpl in *; fixed_args; done. }
    destruct (Hno _ Hf) as [-> ->], (Hno _ Hf') as [-> ->]. split_and!; [done..|]. by intros [|].
  - rewrite apply_leaf by done. split_and!; [done..|]. by intros _.
Qed.

Definition kind_fits (k : TyVariableKind) (t : Ty) : bool :=
  match k with General => true | Integer => is_integer t | Float => is_float t end.

Lemma kind_fits_value κ k t : fo db (sorted κ) t → is_var t = false → kind_fits k t = true →
  value_ok db κ (VkTy k) (ArgTy t).
Proof. intros Hfo Hvar Hk. split; [done|]. destruct k; [|done|done]. by intros v ->. Qed.

(** What the variable will be bound to, and what it is related with. *)
Record generalized (B : nat) (v : InferenceVar) (k : TyVariableKind) (w : UniverseIndex) (κ : Sorts) (u : U)
    (κ1 : Sorts) (u1 : U) (t1 g : Ty) (κ2 : Sorts) (u2 : U) : Prop := {
  gz_keep : keep κ κ1 u u1;
  gz_fo : fo db (checked v κ1 u1) t1;
  gz_height : height_le (ena u1) B t1;
  gz_gen : gen_ty v w κ1 u1 t1 g κ2 u2;
  gz_var : is_var g = false;
  gz_kind : kind_fits k g = true
}.

(** The fresh variables of [g] are alone, also when [v] has its value. *)
Lemma fresh_pristine v k w kk b κ1 u1 κ2 u2 u3 : in_order κ1 u1 → sorted κ1 v k →
  grown w kk κ1 κ2 u1 u2 → value_facts v b u2 u3 → pristine (length κ1) (length κ2) u3.
Proof.
  intros [[Hwf Hlen _ _] _] Hv%sorted_lt Hgr Hf y Hy. rewrite Hlen in *.
  assert (ena_find (ena u2) v ≠ y) as Hvy.
  { rewrite (gr_find _ _ _ _ _ _ Hgr). pose proof (find_lt _ v Hwf Hv). lia. }
  assert (ena_find (ena u1) y = y) as Hfy by (apply find_out; [done|lia]).
  rewrite !(vf_find _ _ _ _ Hf), (gr_find _ _ _ _ _ _ Hgr). split_and!; [done| |].
  - exists w. rewrite (vf_probe _ _ _ _ Hf), decide_False.
    + rewrite (gr_probe _ _ _ _ _ _ Hgr), Hlen, decide_True by done. done.
    + rewrite (gr_find _ _ _ _ _ _ Hgr y), Hfy. congruence.
  - intros z. rewrite (vf_find _ _ _ _ Hf), (gr_find _ _ _ _ _ _ Hgr). intros Hz.
    destruct (Nat.lt_ge_cases z (ena_len (ena u1))) as [Hlt|Hge].
    + pose proof (find_lt _ z Hwf Hlt). lia.
    + rewrite find_out in Hz by done. done.
Qed.

Lemma unify_generalized B v k w κ u κ1 u1 t1 g κ2 u2 n : in_order κ1 u1 → in_order κ2 u2 → sorted κ v (VkTy k) →
  ena_probe_value (ena u) v = Unbound w → κ `prefix_of` κ1 → κ1 `prefix_of` κ2 → B + 3 ≤ n →
  generalized B v k w κ u κ1 u1 t1 g κ2 u2 →
  valid (_ ← unify_var_value v (InferenceValue_from_ty g); zip_tys (unifier db env n) Invariant g t1) κ2 u2
    (λ σ, apply_ty σ g = apply_ty σ t1 ∧ apply_ty σ t1 = σ.(val_ty) v)
    (λ _ κ' u', κ' = κ2 ∧ growth B κ κ' u u') (λ _ _, True).
Proof.
  intros Hg1 Hg2 Hv Hw Hp1 Hp2 Hn [Hk Hfo Hh [(kk & Hgen & Hgr) Hfg _ _] Hgv Hgk].
  pose proof (sorted_mono _ _ _ _ Hp1 Hv) as Hv1. pose proof (sorted_mono _ _ _ _ Hp2 Hv1) as Hv2.
  assert (is_unbound (ena u2) v) as [w2 Hw2].
  { unfold is_unbound. rewrite (gr_probe _ _ _ _ _ _ Hgr). case_decide; [by eexists|].
    eapply is_unbound_keep; [exact Hk|by exists w]. }
  assert (∀ σ, Sol κ2 σ u2 → apply_ty σ g = apply_ty σ t1 ∧ apply_ty σ t1 = σ.(val_ty) v → val_is σ v (ArgTy g)) as HPv.
  { intros σ _ [HP1 HP2]. simpl. congruence. }
  eapply valid_bind.
  { eapply (valid_unify_value v (InferenceValue_from_ty g) (Bound (ArgTy g)) (VkTy k) w2 κ2 u2); try done.
    apply kind_fits_value; try done. by eapply fo_checked. }
  intros [] κ3 u3 _ Hg3 [-> Hf]. pose proof (N_bind κ2 u2 u3 v k (ArgTy g) Hg2 Hv2 ltac:(by eexists) Hf) as HN3.
  (* variables other than [v] are unbound in [u3] *)
  assert (∀ y ky, checked v κ2 u2 y ky → is_unbound (ena u3) y) as Hun3.
  { intros y ky (_ & [wy Hwy] & Hne). exists wy. rewrite (vf_probe _ _ _ _ Hf), decide_False by done. done. }
  assert (∀ y ky, checked v κ1 u1 y ky → old (length κ1) κ2 u3 y ky) as Hold.
  { intros y ky Hc. pose proof (checked_grown _ _ _ _ _ _ _ _ _ Hp2 Hgr Hc) as Hc2. pose proof Hc as (Hy & _).
    split_and!; [by eapply sorted_mono|by eapply Hun3|by eapply sorted_lt]. }
  assert (pristine (length κ1) (length κ2) u3) as Hpr by (by eapply (fresh_pristine v (VkTy k) w)).
  eapply valid_weaken; [apply (proj1 zip_gen _ _ _ _ _ Hgen n B (length κ1) (length κ2) κ2 u3); try done|..].
  - by eapply fo_checked.
  - by eapply (fo_mono db); [exact Hold|].
  - eapply height_resolved; [|exact Hh]. eapply (fo_mono db); [|exact Hfo].
    intros y ky Hc t'. destruct (Hold y ky Hc) as (_ & [wy Hwy] & _). congruence.
  - lia.
  - intros σ _ (_ & σ2 & Ha & _ & Heq & _).
    rewrite <- (agree_ty db κ2 σ2 σ Ha g) by (by eapply fo_checked). etrans; [exact Heq|].
    apply (agree_ty db κ2 σ2 σ Ha). eapply fo_later_ty, fo_checked; [exact Hp2|exact Hfo].
  - intros [] κ' u' _ _ [-> Hz]. split; [done|]. apply growth_one.
    + pose proof (z_n _ _ _ _ _ _ _ Hz). pose proof (gr_n _ _ _ _ _ _ Hgr). pose proof (keep_n _ _ _ _ Hk). lia.
    + intros y t Hy. pose proof (z_ty _ _ _ _ _ _ _ Hz y t Hy) as Hy3. rewrite (vf_probe _ _ _ _ Hf) in Hy3.
      case_decide; [injection Hy3 as ->; right|left].
      * eapply (proj1 (Gen_height (ena u1) (ena u'))); [exact Hgen| |exact Hh]. eapply (fo_mono db); [|exact Hfg].
        intros z kz Hc t' Hz'%(z_ty _ _ _ _ _ _ _ Hz). destruct (Hun3 z kz Hc) as [wz Hwz]. congruence.
      * by apply (keep_bound _ _ _ _ Hk), (grown_keep_bound _ _ _ _ _ _ _ _ Hgr).
  - done.
Qed.

Lemma generalize_again fuel t ui w : ∃ again,
  generalize_ty db fuel t ui w = (generalize_ty_with db again ui w t : SE U Ty).
Proof. destruct fuel; by eexists. Qed.

Lemma relate_var_ty_valid B v k t κ u n : in_order κ u → sorted κ v (VkTy k) → is_unbound (ena u) v →
  fo db (sorted κ) t → is_var t = false → height_le (ena u) B t → B + 3 ≤ n →
  valid (relate_var_ty db env n (unifier db env n) Invariant v k t) κ u (λ σ, σ.(val_ty) v = apply_ty σ t)
    (λ _ κ' u', growth B κ κ' u u') (λ _ _, True).
Proof.
  intros Hg Hv [w Hw] Hfo Hvar Hh Hn.
  assert (∀ m, relate_var_ty db env n (unifier db env n) Invariant v k t = m →
    m = if kind_fits k t then relate_var_ty db env n (unifier db env n) Invariant v k t else se_err) as Hfits.
  { intros m <-. unfold relate_var_ty, kind_fits. by destruct k, (is_integer t), (is_float t). }
  rewrite (Hfits _ eq_refl). clear Hfits. destruct (kind_fits k t) eqn:Hk.
  2: { apply valid_err. intros σ [Hσ _] Heq. pose proof (sol_kind _ _ _ Hσ v _ Hv) as Hkind. simpl in Heq, Hkind.
    destruct (kind_apply σ _ t Hfo Hvar) as (Hi & Hf & _). destruct k; simpl in *; congruence. }
  unfold relate_var_ty. unfold kind_fits in Hk at 1. rewrite Hk.
  eapply valid_by; [|unfold mbind at 1, SE_bind at 1, universe_of_unbound, read_table, universe_of_unbound_var;
    rewrite Hw; reflexivity].
  eapply (valid_bind _ _ _ _ _ (λ t1 κ1 u1, occ_ty v B κ u t t1 κ1 u1) (λ t1 σ, apply_ty σ t1 = σ.(val_ty) v)).
  { eapply valid_conseq; [apply (occurs_ty_valid Hrefl v w B n k); try done; lia|..].
    - intros σ [Hσ _] Heq. pose proof (sol_unbound _ _ _ Hσ v _ w Hv Hw) as Hin. simpl in Hin, Heq.
      split; [by rewrite <- Heq|]. rewrite Hvar, Heq. done.
    - intros t1 κ1 u1 Hp1 _ HQ. split; [exact HQ|]. intros σ σ' Hσ Heq Ha _ ->. simpl in Heq.
      rewrite <- (agree_ty db κ σ σ' Ha t Hfo). rewrite <- Heq. exact (Ha v _ Hv). }
  intros t1 κ1 u1 Hp1 Hg1 [Hkeep Hfo1 Hh1 Hleaf Hvar1].
  pose proof (sorted_mono _ _ _ _ Hp1 Hv) as Hv1.
  eapply (valid_bind _ _ _ _ _ (λ g κ2 u2, gen_ty v w κ1 u1 t1 g κ2 u2)
    (λ g σ, apply_ty σ g = apply_ty σ t1 ∧ apply_ty σ t1 = σ.(val_ty) v)).
  { destruct (generalize_again n t1 w Invariant) as [again ->]. eapply valid_conseq.
    - eapply (generalize_ty_valid v w _ B); try done. by eapply sorted_lt.
    - intros σ1 _ (HR & σ & Ha & [Hσ _] & Heq). pose proof (sol_unbound _ _ _ Hσ v _ w Hv Hw) as Hin. simpl in Hin.
      rewrite HR. pose proof (Ha v _ Hv) as Hvv. simpl in Hvv. by rewrite <- Hvv.
    - intros g κ2 u2 Hp2 _ HQ. split; [exact HQ|]. intros σ1 σ2 _ (HR & _) Ha _ HR2. split; [exact HR2|].
      rewrite <- (agree_ty db κ1 σ1 σ2 Ha t1) by (by eapply fo_checked). rewrite HR. exact (Ha v _ Hv1). }
  intros g κ2 u2 Hp2 Hg2 Hgen. eapply valid_weaken; [eapply (unify_generalized B v k w κ u κ1 u1 t1 g κ2 u2 n); try done|..].
  - destruct (is_var g) eqn:Hg'; [|split; try done].
    + pose proof (gt_var _ _ _ _ _ _ _ _ Hgen Hg') as Hv'. rewrite Hvar1 in Hvar; done.
    + destruct k; [done| |].
      all: destruct (kind_apply (mkValuation (λ _, TyError) (λ _, LtStatic) (λ _, mkConst TyError (CvConcrete 0))) _ t Hfo Hvar) as (_ & _ & Hl).
      all: rewrite (gt_leaf _ _ _ _ _ _ _ _ Hgen); rewrite Hleaf; auto.
  - by intros σ _ [HR _].
  - by intros [] κ' u' _ _ [-> Hgr].
  - done.
Qed.

(** *** All types *)

(** Fuel that is enough for [n] unbound variables, a height [m], and [B] for the other. *)
Definition needs (n B m : nat) : nat := m + (B + 3) * (n + 1) * 2 ^ n.

Lemma needs_least n B m : B + 3 ≤ needs n B m.
Proof.
  unfold needs. pose proof (pow2_pos n). rewrite <- Nat.mul_assoc.
  assert (1 ≤ (n + 1) * 2 ^ n) by (set (p := 2 ^ n) in *; nia). nia.
Qed.

Lemma needs_bound n B m : n ≠ 0 → B + 4 ≤ needs n B m.
Proof.
  intros Hn. unfold needs. pose proof (pow2_pos n). rewrite <- Nat.mul_assoc.
  assert (2 ≤ (n + 1) * 2 ^ n) by (set (p := 2 ^ n) in *; nia). nia.
Qed.

Lemma needs_growth B κ κ' u u' m : growth B κ κ' u u' →
  needs (N κ' u') (B * 2 ^ (N κ u - N κ' u')) (m + B * (2 ^ (N κ u - N κ' u') - 1)) ≤ needs (N κ u) B m.
Proof.
  intros [HN _]. unfold needs. pose proof (unify_fuel_grow (N κ u) B m (N κ u - N κ' u') ltac:(lia)) as Hle.
  replace (N κ u - (N κ u - N κ' u')) with (N κ' u') in Hle by lia. lia.
Qed.

Definition tys_valid (n : nat) : Prop := ∀ B m a b κ u, in_order κ u →
  fo db (sorted κ) a → fo db (sorted κ) b → height_le (ena u) m a → height_le (ena u) B b → m ≤ B →
  needs (N κ u) B m ≤ n →
  valid (zip_tys (unifier db env n) Invariant a b) κ u (λ σ, apply_ty σ a = apply_ty σ b)
    (λ _ κ' u', growth B κ κ' u u') (λ _ _, True).

Lemma zip_arg_valid n B m a b κ u : tys_valid n → in_order κ u →
  fo_arg db (sorted κ) a → fo_arg db (sorted κ) b →
  arg_height_le (ena u) m a → arg_height_le (ena u) B b → m ≤ B → needs (N κ u) B m ≤ n →
  valid (zip_arg (unifier db env n) Invariant a b) κ u (λ σ, apply_arg σ a = apply_arg σ b)
    (λ _ κ' u', growth B κ κ' u u') (λ _ _, True).
Proof.
  intros IH Hg Ha Hb Hha Hhb Hm Hn. pose proof (needs_least (N κ u) B m) as Hleast.
  destruct Ha as [t Ht|l Hl|c Hc], Hb as [t' Ht'|l' Hl'|c' Hc']; try (by apply valid_err).
  - eapply valid_weaken; [by apply (IH B m t t' κ u)| |done|done]. intros σ _ Heq. by injection Heq.
  - destruct n as [|n]; [lia|]. eapply valid_weaken; [by apply (relate_lt l l' κ u)| | |done].
    + intros σ _ Heq. by injection Heq.
    + intros [] κ' u' _ _ [-> Heff]. eapply growth_effect; [done| |exact Heff]; done.
  - destruct n as [|[|n]]; [lia|lia|]. cbn [zip_arg unifier zip_consts].
    eapply valid_weaken; [by apply (relate_ct (S n) n c c' κ u)| | |done].
    + intros σ _ Heq. by injection Heq.
    + intros [] κ' u' _ _ (-> & _ & Heff). eapply growth_effect; [done| |exact Heff]; done.
Qed.

Lemma growth_args B κ κ' u u' b s : growth B κ κ' u u' → Forall (arg_height_le (ena u) b) s →
  Forall (arg_height_le (ena u') (b + B * (2 ^ (N κ u - N κ' u') - 1))) s.
Proof.
  intros [_ Hh] Hs. eapply Forall_impl; [exact Hs|]. intros [t| |]; try done. apply Hh.
Qed.

Lemma zips_valid n B m s s' κ u : tys_valid n → in_order κ u →
  Forall (fo_arg db (sorted κ)) s → Forall (fo_arg db (sorted κ)) s' →
  Forall (arg_height_le (ena u) m) s → Forall (arg_height_le (ena u) B) s' → m ≤ B → needs (N κ u) B m ≤ n →
  valid (zips (unifier db env n) s s') κ u (λ σ, apply_arg σ <$> s = apply_arg σ <$> s')
    (λ _ κ' u', growth B κ κ' u u') (λ _ _, True).
Proof.
  intros IH. revert B m s' κ u. induction s as [|a s IHs]; intros B m s' κ u Hg Hfs Hfs' Hhs Hhs' Hm Hn.
  { apply valid_ret; [done|apply growth_refl|done]. }
  destruct s' as [|b s']; [apply valid_ret; [done|apply growth_refl|done]|]. cbn [zips].
  apply Forall_cons in Hfs as [Hfa Hfs], Hfs' as [Hfb Hfs'], Hhs as [Hha Hhs], Hhs' as [Hhb Hhs'].
  eapply valid_bind.
  { eapply valid_weaken; [by apply (zip_arg_valid n B m a b κ u)| |done|done].
    intros σ _ Heq. rewrite !fmap_cons in Heq. by injection Heq. }
  intros [] κ1 u1 Hp1 Hg1 Hgr. pose proof (needs_growth B κ κ1 u u1 m Hgr) as Hneeds.
  pose proof (pow2_pos (N κ u - N κ1 u1)) as Hpow.
  eapply valid_weaken; [eapply (IHs (B * 2 ^ (N κ u - N κ1 u1)) (m + B * (2 ^ (N κ u - N κ1 u1) - 1)) s' κ1 u1); try done|..].
  - eapply Forall_impl; [exact Hfs|]. intros x. by apply fo_later.
  - eapply Forall_impl; [exact Hfs'|]. intros x. by apply fo_later.
  - by apply growth_args.
  - replace (B * 2 ^ (N κ u - N κ1 u1)) with (B + B * (2 ^ (N κ u - N κ1 u1) - 1)) by nia. by apply growth_args.
  - nia.
  - lia.
  - intros σ1 _ (_ & σ & Ha & _ & Heq). rewrite !fmap_cons in Heq. injection Heq as _ Heq.
    rewrite <- (agree_args db κ σ σ1 Ha s), <- (agree_args db κ σ σ1 Ha s') by done. exact Heq.
  - intros [] κ2 u2 _ _ Hgr2. by eapply growth_trans.
  - done.
Qed.

(** An unbound type variable is counted. *)
Lemma N_pos κ u v k : in_order κ u → sorted κ v (VkTy k) → is_unbound (ena u) v → N κ u ≠ 0.
Proof.
  intros Hg Hv Hun. destruct (root_of κ u v k Hg Hv Hun) as [Hr Hroot]. unfold unbound_types.
  revert Hr. generalize (length κ). intros n. induction n as [|n IH]; [lia|]. intros Hr. simpl.
  destruct (decide (ena_find (ena u) v = n)) as [<-|Hne]; [by rewrite Hroot|].
  assert (ena_find (ena u) v < n) as Hlt by lia. specialize (IH Hlt). lia.
Qed.

Lemma relate_kinds_var n Z v k t : is_var t = false → (∃ V, fo db V t) →
  relate_kinds db env n Z Invariant (TyInferenceVar v k) t = (relate_var_ty db env n Z Invariant v k t : SE U unit) ∧
  relate_kinds db env n Z Invariant t (TyInferenceVar v k) = (relate_var_ty db env n Z Invariant v k t : SE U unit).
Proof.
  intros Hvar [V Hfo]. destruct Hfo as [h s Hf _|t Ht|]; [|by split; destruct t|done].
  destruct h; simpl in Hf; fixed_args; split; done.
Qed.

(** Two different normal forms that are not variables. *)
Lemma relate_nonvar n B m a b κ u : tys_valid n → in_order κ u →
  fo db (sorted κ) a → fo db (sorted κ) b → is_var a = false → is_var b = false → a ≠ b →
  height_le (ena u) (S m) a → height_le (ena u) B b → S m ≤ B → needs (N κ u) B m ≤ n →
  valid (relate_kinds db env n (unifier db env n) Invariant a b) κ u (λ σ, apply_ty σ a = apply_ty σ b)
    (λ _ κ' u', growth B κ κ' u u') (λ _ _, True).
Proof.
  intros IH Hg Hfa Hfb Hva Hvb Hne Hha Hhb Hm Hn.
  destruct Hfa as [h s Hf Hs|a Ha|], Hfb as [h' s' Hf' Hs'|b Hb|]; try done.
  - destruct (relate_con db env n (unifier db env n) h h' s s' Hf Hf') as [[-> Heq]|[Hh Heq]].
    + eapply valid_by; [|apply Heq]. rewrite (height_con db) in Hha by done.
      eapply valid_weaken; [apply (zips_valid n B m s s' κ u); try done|..].
      * destruct B as [|B]; [lia|]. rewrite (height_con db) in Hhb by done.
        eapply Forall_impl; [exact Hhb|]. intros [t| |]; try done. apply height_mono. lia.
      * lia.
      * intros σ _ Happ. by apply (apply_con_inj db) in Happ as [_ Happ].
      * done.
      * done.
    + rewrite Heq. apply valid_err. intros σ _ Happ. by apply (apply_con_inj db) in Happ as [? _].
  - rewrite (relate_leaf db env n _ (con h s) b Hne) by (right; eauto). apply valid_err. intros σ _ Happ.
    simpl in Happ. rewrite (apply_con db), apply_leaf in Happ by done. subst b.
    rewrite (con_not_leaf db) in Hb; [done|]. eapply fits_same; [done|apply apply_same].
  - rewrite (relate_leaf db env n _ a (con h' s') Hne) by (left; split; [done|right; eauto]). apply valid_err. intros σ _ Happ.
    simpl in Happ. rewrite (apply_con db), apply_leaf in Happ by done. subst a.
    rewrite (con_not_leaf db) in Ha; [done|]. eapply fits_same; [done|apply apply_same].
  - rewrite (relate_leaf db env n _ a b Hne) by (left; split; [done|by left]). apply valid_err. intros σ _ Happ.
    simpl in Happ. by rewrite !apply_leaf in Happ.
Qed.

Lemma zip_tys_valid n : tys_valid n.
Proof.
  induction n as [|n IH]; intros B m a b κ u Hg Hfa Hfb Hha Hhb Hm Hn.
  { pose proof (needs_least (N κ u) B m). lia. }
  destruct (normalize_ty κ u m a Hg Hfa Hha) as (na & Hna & [Hfa' Hha' Hca Hea]).
  destruct (normalize_ty κ u B b Hg Hfb Hhb) as (nb & Hnb & [Hfb' Hhb' Hcb Heb]).
  cbn [unifier zip_tys]. eapply valid_by; [|by apply (relate_normal _ _ _ _ _ _ na nb)].
  clear Hna Hnb. generalize dependent (default a na). intros a' Hfa' Hha' Hca Hea.
  generalize dependent (default b nb). intros b' Hfb' Hhb' Hcb Heb.
  apply (valid_weaken _ κ u (λ σ, apply_ty σ a' = apply_ty σ b') _ (λ _ κ' u', growth B κ κ' u u') _ (λ _ _, True) (λ _ _, True));
    [|intros σ Hσ; by rewrite Hea, Heb|done|done]. clear Hea Heb Hfa Hfb Hha Hhb a b.
  destruct (decide (a' = b')) as [->|Hne]; [apply valid_ret; [done|apply growth_refl|done]|].
  destruct m as [|m]; [done|]. pose proof (needs_bound (N κ u) B (S m)) as Hb.
  assert (needs (N κ u) B m ≤ n) as Hn' by (unfold needs in *; lia).
  destruct Hca as [Hva|(v & k & -> & Huv & Hv)], Hcb as [Hvb|(w & k' & -> & Huw & Hw)].
  - by apply (relate_nonvar n B m).
  - rewrite (proj2 (relate_kinds_var n _ w k' a' Hva ltac:(eauto))).
    pose proof (N_pos κ u w k' Hg Hw Huw). eapply valid_weaken; [apply (relate_var_ty_valid B w k' a' κ u n); try done| |done|done].
    + eapply height_mono; [exact Hm|done].
    + lia.
    + intros σ _ Heq. symmetry. exact Heq.
  - rewrite (proj1 (relate_kinds_var n _ v k b' Hvb ltac:(eauto))).
    pose proof (N_pos κ u v k Hg Hv Huv). eapply valid_weaken; [apply (relate_var_ty_valid B v k b' κ u n); try done; lia|done|done|done].
  - eapply valid_weaken; [apply (relate_vars_valid (unifier db env n) B v k w k' κ u); try done; lia|done| |done].
    by intros [] κ' u' _ _ [-> Hgr].
Qed.

(** Two arguments of height at most [B]. *)
Lemma zip_args_valid n B a b κ u : in_order κ u →
  fo_arg db (sorted κ) a → fo_arg db (sorted κ) b → arg_height_le (ena u) B a → arg_height_le (ena u) B b →
  unify_fuel (N κ u) B ≤ n →
  valid (zip_arg (unifier db env n) Invariant a b) κ u (λ σ, apply_arg σ a = apply_arg σ b)
    (λ _ κ' u', growth B κ κ' u u') (λ _ _, True).
Proof. intros. apply (zip_arg_valid n B B); try done. apply zip_tys_valid. Qed.

End Relate.

End Valid.

(** ** The property *)

(** C3. Unification is complete and terminates.  [relate] of two first-order arguments,
    invariantly, in a table whose variables have the kinds [κ], returns when the fuel is
    [unify_fuel] of the number of unbound type variables and of the height of the
    arguments.  When it succeeds, every solution of the table that makes the arguments
    equal extends, with values for the new variables only, to a solution of the new table
    and of the goals; the new table is in order, with no more unbound type variables, and
    with heights that are bounded again.  When it fails the table is as it was, and none
    of its solutions makes the arguments equal. *)
Theorem relate_complete {E} `{EnaLaws E} (db : UnificationDatabase) (ME : Meaning) (low : nat) (env : Environment)
    (κ : Sorts) (t : InferenceTable E) (a b : GenericArg) (B fuel : nat) :
  (∀ l, ME.(outlives) l l) → (∀ ty c, db.(db_const_eq) ty c c = true) →
  table_ok db κ t → fo_arg db (sorted κ) a → fo_arg db (sorted κ) b →
  arg_height_le t.(unify) B a → arg_height_le t.(unify) B b → unify_fuel (unbound_types κ t) B ≤ fuel →
  match relate fuel db env (λ Z, zip_arg Z) Invariant a b t with
  | (Val goals, t') => ∃ κ', κ `prefix_of` κ' ∧ table_ok db κ' t' ∧
      unbound_types κ' t' ≤ unbound_types κ t ∧
      (∀ n ty, height_le t.(unify) n ty →
        height_le t'.(unify) (n + B * (2 ^ (unbound_types κ t - unbound_types κ' t') - 1)) ty) ∧
      ∀ σ, solution κ σ t → apply_arg σ a = apply_arg σ b →
        ∃ σ', agree κ σ σ' ∧ solution κ' σ' t' ∧ solves_goals db ME low σ' goals
  | (Exn _, t') => t' = t ∧ ∀ σ, solution κ σ t → apply_arg σ a ≠ apply_arg σ b
  | _ => False
  end.
Proof.
  intros Hrefl Hconst Ht Ha Hb Hha Hhb Hfuel.
  pose proof (zip_args_valid db ME low env Hrefl Hconst fuel B a b κ (mkUnifier t []) ltac:(by split) Ha Hb Hha Hhb Hfuel) as Hv.
  assert (∀ σ, solution κ σ t → Sol db ME low κ σ (mkUnifier t [])) as Hsol by (by split; [|constructor]).
  unfold relate. unfold valid in Hv.
  destruct (zip_arg _ _ _ _ _) as [[[]| | |] u]; try done.
  - destruct Hv as (κ' & Hp & [Ht' _] & [HN Hh] & Hs). exists κ'. split_and!; [done|exact Ht'|exact HN|exact Hh|].
    intros σ Hσ Heq. destruct (Hs σ (Hsol σ Hσ) Heq) as (σ' & Hag & [Hσ' Hgs] & _). exists σ'.
    split_and!; [done..|]. apply Forall_forall. intros g [_ Hg]%list_elem_of_filter.
    unfold solves_goals in Hgs. rewrite Forall_forall in Hgs. by apply Hgs.
  - split; [|intros σ Hσ; by apply Hv, Hsol].
    unfold rollback_to, snapshot. simpl. rewrite rollback_snapshot. by destruct t.
Qed.

(** ** Witness

    [?0] and [&'?2 [?1]] in a table where they are unbound: with the solution
    [?0 := &'static [str]], [?1 := str] and ['?2 := 'static]. *)

Definition complete_kinds : Sorts := [VkTy General; VkTy General; VkLifetime].

Definition complete_table : InferenceTable UnionFind.t :=
  let '(_, t) := new_variable universe_root table_new in
  let '(_, t) := new_variable universe_root t in
  let '(_, t) := new_variable universe_root t in t.

Definition complete_a : GenericArg := ArgTy (TyInferenceVar 0 General).
Definition complete_b : GenericArg :=
  ArgTy (TyRef Not (LtInferenceVar 2) (TySlice (TyInferenceVar 1 General))).

Definition complete_valuation : Valuation := {|
  val_ty v := match v with 0 => TyRef Not LtStatic (TySlice TyStr) | _ => TyStr end;
  val_lt _ := LtStatic;
  val_ct _ := mkConst TyStr (CvConcrete 0)
|}.

Lemma complete_sorted v k : sorted complete_kinds v k →
  (v = 0 ∧ k = VkTy General) ∨ (v = 1 ∧ k = VkTy General) ∨ (v = 2 ∧ k = VkLifetime).
Proof. destruct v as [|[|[|v]]]; intros [= <-]; auto. Qed.

Lemma complete_table_ok : table_ok sample_db complete_kinds complete_table.
Proof.
  split.
  - split; [done|]. intros [|[|[|a]]] r; simpl; intros; simplify_eq; done.
  - reflexivity.
  - by intros v k [[-> ->]|[[-> ->]|[-> ->]]]%complete_sorted.
  - by intros v k b [[-> ->]|[[-> ->]|[-> ->]]]%complete_sorted.
Qed.

Lemma complete_solution : solution complete_kinds complete_valuation complete_table.
Proof.
  split.
  - by intros v k [[-> ->]|[[-> ->]|[-> ->]]]%complete_sorted.
  - intros [|[|[|v]]] b; simpl; [done..|]. intros ?. lia.
  - intros v k w [[-> ->]|[[-> ->]|[-> ->]]]%complete_sorted _; repeat constructor.
  - by intros v k [[-> ->]|[[-> ->]|[-> ->]]]%complete_sorted.
Qed.

Lemma relate_complete_witness :
  ∃ goals t' κ', relate 75 sample_db [] (λ Z, zip_arg Z) Invariant complete_a complete_b complete_table
      = (Val goals, t') ∧ table_ok sample_db κ' t' ∧ unbound_types κ' t' ≤ 2 ∧
    ∃ σ', agree complete_kinds complete_valuation σ' ∧ solution κ' σ' t' ∧
      solves_goals sample_db sample_meaning 0 σ' goals.
Proof.
  pose proof (relate_complete sample_db sample_meaning 0 [] complete_kinds complete_table complete_a complete_b 3 75
    (λ l, eq_refl) (λ _ c, N.eqb_refl c) complete_table_ok) as Hc.
  destruct (relate 75 _ _ _ _ _ _ _) as [[goals|e| |] t'] eqn:Hr; [|exfalso..].
  - destruct Hc as (κ' & _ & Hok & Hn & _ & Hs).
    + constructor. by apply fo_var.
    + constructor. apply (fo_con _ _ (HRef Not) [ArgLifetime (LtInferenceVar 2); ArgTy _]); [by eexists _, _|].
      constructor; [by apply fo_arg_lt|]. constructor; [apply fo_arg_ty|constructor].
      apply (fo_con _ _ HSlice [ArgTy _]); [by eexists|]. constructor; [|constructor]. constructor. by apply fo_var.
    + done.
    + done.
    + vm_compute. lia.
    + exists goals, t', κ'. split_and!; [done|done|exact Hn|]. apply Hs; [exact complete_solution|reflexivity].
  - by vm_compute in Hr.
  - by vm_compute in Hr.
  - by vm_compute in Hr.
Defined.
