(* ===== verification/CouldMatchThm.v ===== *)
(** * The matching check is exact and necessary

    [compat_domain_goal] is the specification of the check, a structural
    comparison of two terms.  [could_match] computes it, and two terms that can be
    unified, or a clause some instance of which can, satisfy it. *)

From stdpp Require Import base list numbers.
From S2P Require Import Prelude Ir Fold FoldLaws Shift ShiftThm Ena Infer Visit Zip Unify.

(** ** The specification *)

(** [a.iter().zip(b.iter()).all(f)]. *)
Definition forallb_zip {A} (f : A → A → bool) : list A → list A → bool :=
  fix go l k := match l, k with x :: l, y :: k => f x y && go l k | _, _ => true end.

Fixpoint compat_ty (a b : Ty) : bool :=
  match a, b with
  | TyAdt x s, TyAdt y r | TyAssociatedType x s, TyAssociatedType y r
  | TyOpaqueType x s, TyOpaqueType y r | TyFnDef x s, TyFnDef y r
  | TyClosure x s, TyClosure y r | TyGenerator x s, TyGenerator y r
  | TyGeneratorWitness x s, TyGeneratorWitness y r =>
      bool_decide (x = y) && forallb_zip compat_arg s r
  | TyTuple x s, TyTuple y r => bool_decide (x = y) && forallb_zip compat_arg s r
  | TyScalar x, TyScalar y => bool_decide (x = y)
  | TyForeign x, TyForeign y => bool_decide (x = y)
  | TySlice a, TySlice b | TyArray a _, TyArray b _ => compat_ty a b
  | TyRef x _ a, TyRef y _ b | TyRaw x a, TyRaw y b => bool_decide (x = y) && compat_ty a b
  | _, _ => true
  end
with compat_arg (a b : GenericArg) : bool :=
  match a, b with
  | ArgTy a, ArgTy b => compat_ty a b
  | ArgLifetime _, ArgLifetime _ | ArgConst _, ArgConst _ => true
  | _, _ => false
  end.

Abbreviation compat_subst := (forallb_zip compat_arg).

Definition compat_trait_ref (a b : TraitRef) : bool :=
  bool_decide (a.(trait_id) = b.(trait_id)) && compat_subst a.(substitution) b.(substitution).

Definition compat_alias (a b : AliasTy) : bool :=
  match a, b with
  | AliasProjection x s, AliasProjection y r | AliasOpaque x s, AliasOpaque y r =>
      bool_decide (x = y) && compat_subst s r
  | _, _ => false
  end.

Definition compat_where (a b : WhereClause) : bool :=
  match a, b with
  | WcImplemented a, WcImplemented b => compat_trait_ref a b
  | WcAliasEq al_a ty_a, WcAliasEq al_b ty_b => compat_alias al_a al_b && compat_ty ty_a ty_b
  | WcLifetimeOutlives _ _, WcLifetimeOutlives _ _ => true
  | WcTypeOutlives ty_a _, WcTypeOutlives ty_b _ => compat_ty ty_a ty_b
  | _, _ => false
  end.

Definition compat_domain_goal (a b : DomainGoal) : bool :=
  match a, b with
  | DgHolds a, DgHolds b => compat_where a b
  | DgWellFormed (WfTrait a), DgWellFormed (WfTrait b)
  | DgFromEnv (FeTrait a), DgFromEnv (FeTrait b)
  | DgLocalImplAllowed a, DgLocalImplAllowed b => compat_trait_ref a b
  | DgWellFormed (WfTy a), DgWellFormed (WfTy b)
  | DgFromEnv (FeTy a), DgFromEnv (FeTy b)
  | DgIsLocal a, DgIsLocal b | DgIsUpstream a, DgIsUpstream b
  | DgIsFullyVisible a, DgIsFullyVisible b | DgDownstreamType a, DgDownstreamType b => compat_ty a b
  | DgNormalize al_a ty_a, DgNormalize al_b ty_b => compat_alias al_a al_b && compat_ty ty_a ty_b
  | DgCompatible, DgCompatible | DgReveal, DgReveal => true
  | DgObjectSafe a, DgObjectSafe b => bool_decide (a = b)
  | _, _ => false
  end.

Lemma forallb_zip_refl {A} (f : A → A → bool) l : Forall (λ x, f x x = true) l → forallb_zip f l l = true.
Proof. induction 1; simpl; [done|]. by apply andb_true_intro. Qed.

Lemma compat_refl : (∀ t, compat_ty t t = true) ∧ (∀ a, compat_arg a a = true).
Proof.
  destruct (term_ind (λ t, compat_ty t t = true) (λ _, True) (λ a, compat_arg a a = true)
    (λ _, True) (λ _, True)) as (? & _ & ? & _); [|done].
  constructor; intros; simpl; rewrite ?bool_decide_true by done; simpl; try done;
    by apply forallb_zip_refl.
Qed.

Lemma forallb_zip_sym {A} (f : A → A → bool) l :
  Forall (λ x, ∀ y, f x y = f y x) l → ∀ k, forallb_zip f l k = forallb_zip f k l.
Proof.
  induction 1 as [|x l Hx _ IH]; intros [|y k]; simpl; [done..|]. by rewrite Hx, IH.
Qed.

Lemma compat_sym : (∀ t u, compat_ty t u = compat_ty u t) ∧ (∀ a b, compat_arg a b = compat_arg b a).
Proof.
  assert (∀ {A} `{EqDecision A} (x y : A), bool_decide (x = y) = bool_decide (y = x)) as Heq
    by (intros; by apply bool_decide_ext).
  destruct (term_ind (λ t, ∀ u, compat_ty t u = compat_ty u t) (λ _, True)
    (λ a, ∀ b, compat_arg a b = compat_arg b a) (λ _, True) (λ _, True)) as (? & _ & ? & _); [|done].
  constructor; intros; try done;
    try (match goal with u : Ty |- _ => destruct u end; simpl; try done;
      try (rewrite Heq; f_equal; by apply forallb_zip_sym));
    try (match goal with b : GenericArg |- _ => destruct b end; simpl; try done);
    try (by rewrite Heq); eauto; try (rewrite Heq; f_equal; auto).
Qed.

Lemma compat_subst_sym s r : compat_subst s r = compat_subst r s.
Proof. apply forallb_zip_sym, Forall_forall. intros x _. apply compat_sym. Qed.

(** ** The check computes the specification *)

(** The nesting of a type, as far as the check goes. *)
Fixpoint ty_height (t : Ty) : nat :=
  match t with
  | TyAdt _ s | TyAssociatedType _ s | TyOpaqueType _ s | TyFnDef _ s | TyClosure _ s
  | TyGenerator _ s | TyGeneratorWitness _ s | TyTuple _ s => S (max_list (map arg_height s))
  | TySlice t | TyArray t _ | TyRef _ _ t | TyRaw _ t => S (ty_height t)
  | _ => 1
  end
with arg_height (a : GenericArg) : nat :=
  match a with ArgTy t => ty_height t | _ => 0 end.

Definition where_height (w : WhereClause) : nat :=
  match w with
  | WcImplemented tr => max_list (map arg_height tr.(substitution))
  | WcAliasEq (AliasProjection _ s) t | WcAliasEq (AliasOpaque _ s) t =>
      max (max_list (map arg_height s)) (ty_height t)
  | WcTypeOutlives t _ => ty_height t
  | WcLifetimeOutlives _ _ => 0
  end.

Definition domain_goal_height (g : DomainGoal) : nat :=
  match g with
  | DgHolds w => where_height w
  | DgWellFormed (WfTrait tr) | DgFromEnv (FeTrait tr) | DgLocalImplAllowed tr =>
      max_list (map arg_height tr.(substitution))
  | DgWellFormed (WfTy t) | DgFromEnv (FeTy t) | DgIsLocal t | DgIsUpstream t
  | DgIsFullyVisible t | DgDownstreamType t => ty_height t
  | DgNormalize al t => where_height (WcAliasEq al t)
  | DgCompatible | DgReveal | DgObjectSafe _ => 0
  end.

Section Exact.
Context (db : UnificationDatabase).

(** Every applied item has a variance for each of its arguments. *)
Fixpoint variances_fit (t : Ty) : bool :=
  match t with
  | TyAdt id s => (length s <=? length (db.(adt_variance) id)) && forallb arg_variances_fit s
  | TyFnDef id s => (length s <=? length (db.(fn_def_variance) id)) && forallb arg_variances_fit s
  | TyAssociatedType _ s | TyOpaqueType _ s | TyClosure _ s
  | TyGenerator _ s | TyGeneratorWitness _ s | TyTuple _ s => forallb arg_variances_fit s
  | TySlice t | TyArray t _ | TyRef _ _ t | TyRaw _ t => variances_fit t
  | _ => true
  end
with arg_variances_fit (a : GenericArg) : bool :=
  match a with ArgTy t => variances_fit t | _ => true end.

Definition where_variances_fit (w : WhereClause) : bool :=
  match w with
  | WcImplemented tr => forallb arg_variances_fit tr.(substitution)
  | WcAliasEq (AliasProjection _ s) t | WcAliasEq (AliasOpaque _ s) t =>
      forallb arg_variances_fit s && variances_fit t
  | WcTypeOutlives t _ => variances_fit t
  | WcLifetimeOutlives _ _ => true
  end.

Definition domain_goal_variances_fit (g : DomainGoal) : bool :=
  match g with
  | DgHolds w => where_variances_fit w
  | DgWellFormed (WfTrait tr) | DgFromEnv (FeTrait tr) | DgLocalImplAllowed tr =>
      forallb arg_variances_fit tr.(substitution)
  | DgWellFormed (WfTy t) | DgFromEnv (FeTy t) | DgIsLocal t | DgIsUpstream t
  | DgIsFullyVisible t | DgDownstreamType t => variances_fit t
  | DgNormalize al t => where_variances_fit (WcAliasEq al t)
  | DgCompatible | DgReveal | DgObjectSafe _ => true
  end.

(** [m] succeeds when [c] and fails when not; it can do neither unless [ok]. *)
Definition decides (ok : Prop) (m : SE unit unit) (c : bool) : Prop :=
  match (m tt).1 with Val _ => c = true | Exn _ => c = false | _ => ¬ ok end.
Definition answers (ok : Prop) (m : SE unit bool) (c : bool) : Prop :=
  match (m tt).1 with Val b => b = c | Exn _ => False | _ => ¬ ok end.

Lemma decides_bind (ok ok1 ok2 : Prop) m m' c c' :
  decides ok1 m c → decides ok2 m' c' → (ok → ok1 ∧ ok2) →
  decides ok (_ ← m; m') (c && c').
Proof.
  unfold decides, mbind, SE_bind. intros Hm Hm' Hok.
  destruct (m tt) as [[[]| | |] []]; simpl in *; subst; simpl; try tauto.
  destruct (m' tt) as [[[]| | |] []]; simpl in *; subst; simpl; tauto.
Qed.

Lemma decides_ok (ok ok' : Prop) m c : decides ok m c → (ok' → ok) → decides ok' m c.
Proof. unfold decides. destruct (m tt) as [[] []]; simpl; tauto. Qed.

Lemma answers_is_ok ok m c : decides ok m c → answers ok (is_ok m) c.
Proof. unfold decides, answers, is_ok. destruct (m tt) as [[] []]; simpl; naive_solver. Qed.

Lemma answers_bind (ok ok1 ok2 : Prop) m m' c c' :
  answers ok1 m c → answers ok2 m' c' → (ok → ok1 ∧ ok2) →
  answers ok (b ← m; and_then b m') (c && c').
Proof.
  unfold answers, mbind, SE_bind. intros Hm Hm' Hok.
  destruct (m tt) as [[[|]| | |] []]; simpl in *; subst; simpl; try tauto.
  destruct (m' tt) as [[[|]| | |] []]; simpl in *; subst; simpl; tauto.
Qed.

Lemma answers_and_then (ok : Prop) m c b : answers ok m c → answers ok (and_then b m) (b && c).
Proof. by destruct b. Qed.

Lemma decides_variance variances i ok m c :
  (∀ v, decides ok (m v) c) →
  decides (match variances with Some l => i < length l | None => True end ∧ ok)
    (v ← variance_at (S:=unit) variances i; m v) c.
Proof.
  intros Hm. destruct variances as [l|]; simpl.
  - destruct (l !! i) as [v|] eqn:Hv.
    + eapply decides_ok; [apply Hm|tauto].
    + apply lookup_ge_None in Hv. unfold decides, mbind, SE_bind. simpl. lia.
  - eapply decides_ok; [apply Hm|tauto].
Qed.

(** A zipper with at least [n] levels. *)
Definition matcher (n : nat) (Z : Zipper unit) : Prop :=
  (∀ v a b, decides (ty_height a ≤ n ∧ variances_fit a) (Z.(zip_tys) v a b) (compat_ty a b)) ∧
  (∀ v a b, Z.(zip_lifetimes) v a b = mret tt) ∧ (∀ v a b, Z.(zip_consts) v a b = mret tt).

Abbreviation fit n s := (max_list (map arg_height s) ≤ n ∧ forallb arg_variances_fit s).

Section Matcher.
Context (n : nat) (Z : Zipper unit) (HZ : matcher n Z).

Lemma zip_arg_decides v a b :
  decides (arg_height a ≤ n ∧ arg_variances_fit a) (zip_arg Z v a b) (compat_arg a b).
Proof.
  destruct HZ as (Ht & Hl & Hc). destruct a, b; simpl; rewrite ?Hl, ?Hc; try done.
Qed.

Lemma fit_cons x s : fit n (x :: s) → (arg_height x ≤ n ∧ arg_variances_fit x) ∧ fit n s.
Proof. simpl. intros [? [??]%andb_prop_elim]. split; split; try done; lia. Qed.

Lemma zip_substs_decides v variances i s r :
  decides (match variances with Some l => i + length s ≤ length l | None => True end ∧ fit n s)
    (zip_substs_from Z v variances i s r) (compat_subst s r).
Proof.
  revert i r. induction s as [|x s IH]; intros i [|y r]; simpl; [done..|].
  eapply decides_ok.
  - apply decides_variance. intros w. eapply decides_bind; [apply zip_arg_decides|apply (IH (S i) r)|apply id].
  - intros [Hv Hs]. apply fit_cons in Hs as [??]. destruct variances; simpl in *; naive_solver lia.
Qed.

Lemma could_match_all_answers s r : answers (fit n s) (could_match_all Z s r) (compat_subst s r).
Proof.
  revert r. induction s as [|x s IH]; intros [|y r]; simpl; [done..|].
  eapply answers_bind; [apply answers_is_ok, zip_arg_decides|apply IH|]. apply fit_cons.
Qed.

Lemma match_heads_answers v a b :
  answers (ty_height a ≤ S n ∧ variances_fit a) (match_heads db Z v a b) (compat_ty a b).
Proof.
  destruct HZ as (Ht & Hl & Hc).
  assert (∀ a b, answers (S (ty_height a) ≤ S n ∧ variances_fit a) (could_match_ty Z a b) (compat_ty a b)) as Hty.
  { intros x y. apply answers_is_ok. eapply decides_ok; [apply Ht|]. intros [? ?]. split; [lia|done]. }
  assert (∀ w s r, answers (match w with Some l => length s ≤ length l | None => True end ∧ fit n s)
    (is_ok (zip_substs Z v w s r)) (compat_subst s r)) as Hs
    by (intros; by apply answers_is_ok, (zip_substs_decides v w 0)).
  assert (∀ (ok ok' : Prop) m c b, answers ok' m c → (ok → ok') → answers ok (and_then b m) (b && c)) as Hif.
  { intros ok ok' m c [|] Hm Hok; [|done]. revert Hm. unfold answers; simpl.
    destruct (m tt) as [[] []]; simpl; tauto. }
  destruct a, b; simpl; try done; rewrite ?Hl, ?Hc;
    try (eapply Hif; [first [apply Hs|apply could_match_all_answers|apply Hty]|]; intros [??];
      try (match goal with H : Is_true (_ && _) |- _ => apply andb_prop_elim in H as [Hlen ?] end;
        apply Is_true_true, Nat.leb_le in Hlen); split_and?; try done; lia).
  - rewrite <- (andb_true_r (compat_ty a b)).
    eapply (answers_bind _ _ True); [apply Hty|by apply answers_is_ok|tauto].
Qed.
End Matcher.

Lemma match_zipper_matcher fuel : matcher fuel (match_zipper db fuel).
Proof.
  induction fuel as [|n IH]; (split; [|done]); intros v a b.
  - unfold decides. simpl. destruct a; simpl; lia.
  - pose proof (match_heads_answers n _ IH v a b) as Hm. revert Hm.
    unfold answers, decides. simpl. unfold mbind, SE_bind.
    destruct (match_heads db (match_zipper db n) v a b tt) as [[[|]| | |] []]; simpl; by intros.
Qed.

Lemma zip_trait_ref_decides n Z v a b : matcher n Z →
  decides (fit n a.(substitution)) (zip_trait_ref Z v a b) (compat_trait_ref a b).
Proof.
  intros HZ. unfold zip_trait_ref, compat_trait_ref, zip_eq.
  destruct (decide _) as [Heq|Hne].
  - rewrite bool_decide_true by done. simpl.
    eapply decides_ok; [by apply (zip_substs_decides n Z HZ v None 0)|]. tauto.
  - by rewrite bool_decide_false.
Qed.

Lemma zip_alias_decides n Z v a b : matcher n Z →
  decides (fit n (match a with AliasProjection _ s | AliasOpaque _ s => s end)) (zip_alias Z v a b)
    (compat_alias a b).
Proof.
  intros HZ. destruct a, b; simpl; try done; unfold zip_eq; (destruct (decide _) as [Heq|Hne];
    [rewrite bool_decide_true by done; simpl|by rewrite bool_decide_false]);
    (eapply decides_ok; [by apply (zip_substs_decides n Z HZ v None 0)|]; tauto).
Qed.

Lemma zip_where_decides n Z v a b : matcher n Z →
  decides (where_height a ≤ n ∧ where_variances_fit a) (zip_where Z v a b) (compat_where a b).
Proof.
  intros HZ. pose proof HZ as (Ht & Hl & Hc). destruct a as [|al| |], b as [|al'| |]; simpl; try done; rewrite ?Hl; try done.
  - eapply decides_ok; [by apply zip_trait_ref_decides|done].
  - eapply decides_bind; [by apply zip_alias_decides|apply Ht|].
    destruct al; simpl; intros [? [??]%andb_prop_elim]; split; split; try done; lia.
  - unfold decides, mbind, SE_bind. rewrite ?Hl. specialize (Ht v ty ty0).
    unfold decides in Ht. destruct (zip_tys _ _ _ _ _) as [[] []]; simpl in *; rewrite ?Hl; done.
Qed.

Lemma zip_domain_goal_decides n Z v a b : matcher n Z →
  decides (domain_goal_height a ≤ n ∧ domain_goal_variances_fit a) (zip_domain_goal Z v a b)
    (compat_domain_goal a b).
Proof.
  intros HZ. pose proof HZ as (Ht & _ & _).
  destruct a as [|[]|[]|al| | | | | | | |], b as [|[]|[]|al'| | | | | | | |]; simpl; try done;
    try apply Ht; try (by apply zip_trait_ref_decides); try (by apply zip_where_decides).
  - eapply decides_bind; [by apply zip_alias_decides|apply Ht|].
    destruct al; simpl; intros [? [??]%andb_prop_elim]; split; split; try done; lia.
  - unfold zip_eq. by case_bool_decide; [rewrite decide_True|rewrite decide_False].
Qed.

(** What [could_match] answers, whatever the fuel. *)
Lemma could_match_agrees fuel a b :
  match could_match db fuel a b with
  | Val r => r = compat_domain_goal a b
  | Exn _ => False
  | Panic _ | OutOfFuel => ¬ (domain_goal_height a ≤ fuel ∧ domain_goal_variances_fit a)
  end.
Proof.
  pose proof (zip_domain_goal_decides fuel _ Invariant a b (match_zipper_matcher fuel)) as Hd.
  apply answers_is_ok in Hd. revert Hd. unfold answers, could_match. by destruct (is_ok _ tt) as [[] []].
Qed.
End Exact.

(** ** Related terms match *)

Section Related.
Context {E : Type} `{EnaOps E} (db : UnificationDatabase) (env : Environment).
Abbreviation U := (Unifier E).

(** When [m] succeeds, [c] holds. *)
Definition implies {A} (m : SE U A) (c : bool) : Prop := ∀ u a u', m u = (Val a, u') → c = true.

Lemma implies_true {A} (m : SE U A) : implies m true.
Proof. by intros u a u'. Qed.
Lemma implies_fail {A} (m : SE U A) c : (∀ u a u', m u ≠ (Val a, u')) → implies m c.
Proof. intros Hm u a u' Hu. by apply Hm in Hu. Qed.
Lemma implies_bind {A B} (m : SE U A) (f : A → SE U B) c c' :
  implies m c → (∀ a, implies (f a) c') → implies (m ≫= f) (c && c').
Proof.
  intros Hm Hf u b u' (a & u1 & Ha & Hb)%SE_bind_Val. apply andb_true_intro.
  split; [by eapply Hm|by eapply Hf].
Qed.
Lemma implies_seq {A B} (m : SE U A) (f : A → SE U B) c : (∀ a, implies (f a) c) → implies (m ≫= f) c.
Proof. intros Hf. by apply (implies_bind m f true); [apply implies_true|]. Qed.
Lemma implies_eq {A} `{EqDecision A} (x y : A) (m : SE U unit) c :
  implies m c → implies (if decide (x = y) then m else se_err) (bool_decide (x = y) && c).
Proof. intros Hm. case_decide; [by rewrite bool_decide_true|by apply implies_fail]. Qed.
Lemma implies_zip_eq {A} `{EqDecision A} (x y : A) : implies (zip_eq x y) (bool_decide (x = y)).
Proof. unfold zip_eq. case_decide; [by rewrite bool_decide_true|by apply implies_fail]. Qed.

Section Zips.
Context (Z : Zipper U) (HZ : ∀ v a b, implies (Z.(zip_tys) v a b) (compat_ty a b)).

Lemma zip_arg_implies v a b : implies (zip_arg Z v a b) (compat_arg a b).
Proof. destruct a, b; simpl; try apply implies_true; try (by apply implies_fail). apply HZ. Qed.

Lemma zip_substs_implies v variances i s r :
  implies (zip_substs_from Z v variances i s r) (compat_subst s r).
Proof.
  revert i r. induction s as [|x s IH]; intros i [|y r]; simpl; try apply implies_true.
  apply implies_seq. intros w. apply implies_bind; [apply zip_arg_implies|]. intros _. apply IH.
Qed.

Lemma zip_trait_ref_implies v a b : implies (zip_trait_ref Z v a b) (compat_trait_ref a b).
Proof. apply implies_bind; [apply implies_zip_eq|]. intros _. apply zip_substs_implies. Qed.

Lemma zip_alias_implies v a b : implies (zip_alias Z v a b) (compat_alias a b).
Proof.
  destruct a, b; simpl; try (by apply implies_fail); (apply implies_bind; [apply implies_zip_eq|]);
    intros _; apply zip_substs_implies.
Qed.

Lemma zip_where_implies v a b : implies (zip_where Z v a b) (compat_where a b).
Proof.
  destruct a, b; simpl; try (by apply implies_fail); try apply implies_true.
  - apply zip_trait_ref_implies.
  - apply implies_bind; [apply zip_alias_implies|]. intros _. apply HZ.
  - rewrite <- (andb_true_r (compat_ty _ _)). apply implies_bind; [apply HZ|]. intros _. apply implies_true.
Qed.

Lemma zip_domain_goal_implies v a b : implies (zip_domain_goal Z v a b) (compat_domain_goal a b).
Proof.
  destruct a as [|[]|[]| | | | | | | | |], b as [|[]|[]| | | | | | | | |]; simpl;
    try (by apply implies_fail); try apply implies_true; try apply HZ; try apply zip_trait_ref_implies.
  - apply zip_where_implies.
  - apply implies_bind; [apply zip_alias_implies|]. intros _. apply HZ.
  - apply implies_zip_eq.
Qed.

Lemma relate_heads_implies v a b : implies (relate_heads db Z v a b) (compat_ty a b).
Proof.
  destruct a, b; simpl; try (by apply implies_fail); try apply implies_true;
    try (apply implies_eq, zip_substs_implies); try apply implies_zip_eq; try apply HZ.
  - rewrite <- (andb_true_r (compat_ty _ _)). apply implies_bind; [apply HZ|]. intros _. apply implies_true.
  - apply implies_eq, HZ.
  - apply implies_eq, implies_seq. intros _. apply HZ.
Qed.

Lemma relate_kinds_implies fuel v a b : implies (relate_kinds db env fuel Z v a b) (compat_ty a b).
Proof.
  destruct a, b; try apply implies_true; try apply relate_heads_implies; try (by apply implies_fail).
Qed.

Lemma relate_ty_ty_implies fuel v a b : implies (relate_ty_ty db env fuel Z v a b) (compat_ty a b).
Proof.
  assert (∀ t t' u u', normalize_or (E:=E) normalize_ty_shallow t u = (Val t', u') →
    t' = t ∨ ∃ v k, t = TyInferenceVar v k) as Hn.
  { intros t t' u u'. destruct (decide (ty_inference_var t = None)) as [Hv|Hv].
    - unfold normalize_or, normalize_ty_shallow, normalize_ty_shallow_inner, normalize_shallow_with.
      rewrite Hv. intros [= <- <-]. by left.
    - right. destruct t; try done. eauto. }
  intros u r u' (a' & u1 & Ha & (b' & u2 & Hb & Hr)%SE_bind_Val)%SE_bind_Val.
  destruct (Hn _ _ _ _ Ha) as [->|(? & ? & ->)]; [|done].
  destruct (Hn _ _ _ _ Hb) as [->|(? & ? & ->)]; [|by destruct a].
  destruct (decide (a = b)) as [->|]; [apply compat_refl|by eapply relate_kinds_implies].
Qed.
End Zips.

Lemma unifier_implies fuel v a b : implies ((unifier db env fuel).(zip_tys) v a b) (compat_ty a b).
Proof.
  revert v a b. induction fuel as [|n IH]; intros v a b; simpl; [by apply implies_fail|].
  by apply relate_ty_ty_implies.
Qed.

Lemma relate_domain_goal_implies fuel v a b t goals t' :
  relate fuel db env (λ Z, zip_domain_goal Z) v a b t = (Val goals, t') → compat_domain_goal a b = true.
Proof.
  unfold relate. destruct (zip_domain_goal _ _ _ _ _) as [[[]| | |] u] eqn:Hu; intros [= <- <-].
  eapply zip_domain_goal_implies; [|exact Hu]. intros. apply unifier_implies.
Qed.
End Related.

(** ** Folding keeps the heads *)

Section FoldCompat.
Context (F : Folder Fallible).

(** What matches the folded term matches the term. *)
Lemma fold_compat :
  (∀ t d t', fold_ty F t d = Val t' → ∀ b, compat_ty t' b = true → compat_ty t b = true) ∧
  (∀ a d a', fold_arg F a d = Val a' → ∀ b, compat_arg a' b = true → compat_arg a b = true).
Proof.
  assert (∀ s, Forall (λ a, ∀ d a', fold_arg F a d = Val a' →
      ∀ b, compat_arg a' b = true → compat_arg a b = true) s →
    ∀ d s', mapM (λ p, fold_arg F p d) s = Val s' → ∀ r, compat_subst s' r = true → compat_subst s r = true) as Hs.
  { induction 1 as [|a s Ha _ IH]; intros d s' Hs [|y r]; try done.
    simpl in Hs. apply bind_Val in Hs as (a' & Ha' & Hs). apply bind_Val in Hs as (s1 & Hs1 & [= <-]).
    simpl. intros [??]%andb_prop. apply andb_true_intro. split; [by eapply Ha|by eapply IH]. }
  destruct (term_ind
    (λ t, ∀ d t', fold_ty F t d = Val t' → ∀ b, compat_ty t' b = true → compat_ty t b = true)
    (λ _, True)
    (λ a, ∀ d a', fold_arg F a d = Val a' → ∀ b, compat_arg a' b = true → compat_arg a b = true)
    (λ _, True) (λ _, True)) as (? & _ & ? & _); [|done].
  constructor; intros; try done;
    try match goal with
      | H : fold_ty F _ _ = Val _ |- _ => simpl in H; unfold fold_subst in H
      | H : fold_arg F _ _ = Val _ |- _ => simpl in H
    end; repeat match goal with
      | H : (_ ≫= _) = Val _ |- _ => apply bind_Val in H as (? & ? & H)
      | H : mret _ = Val _ |- _ => injection H as <-
      | b : Ty |- _ => progress simpl in *
    end; destruct b; simpl in *; try done;
    try (match goal with H : _ && _ = true |- _ => apply andb_prop in H as [??] end;
      apply andb_true_intro; split); eauto.
Qed.
End FoldCompat.

Section FoldGoal.
Context (F : Folder Fallible) (d : nat).
Abbreviation stronger f compat x := (∀ x', f x d = Val x' → ∀ y, compat x' y = true → compat x y = true).

Lemma fold_subst_compat s s' r :
  mapM (λ p, fold_arg F p d) s = Val s' → compat_subst s' r = true → compat_subst s r = true.
Proof.
  revert s' r. induction s as [|a s IH]; intros s' [|y r] Hs; try done. simpl in Hs.
  apply bind_Val in Hs as (a' & Ha' & (s1 & Hs1 & [= <-])%bind_Val).
  simpl. intros [??]%andb_prop. apply andb_true_intro. split; [by eapply fold_compat|by eapply IH].
Qed.

Lemma fold_trait_ref_compat tr : stronger (fold_trait_ref F) compat_trait_ref tr.
Proof.
  intros tr' (s & Hs & [= <-])%bind_Val y [??]%andb_prop. apply andb_true_intro.
  split; [done|by eapply fold_subst_compat].
Qed.

Lemma fold_alias_compat al : stronger (fold_alias F) compat_alias al.
Proof.
  destruct al; intros al' (s' & Hs & [= <-])%bind_Val []; simpl; try done;
    intros [??]%andb_prop; apply andb_true_intro; (split; [done|by eapply fold_subst_compat]).
Qed.

Lemma fold_ty_compat t : stronger (fold_ty F) compat_ty t.
Proof. intros t' Ht. by apply (proj1 (fold_compat F) t d). Qed.

Lemma fold_where_compat w : stronger (fold_where F) compat_where w.
Proof.
  destruct w as [tr|al t|a b|t l]; intros w' Hw; simpl in Hw.
  - apply bind_Val in Hw as (s & Hs & [= <-]). intros []; simpl; try done. apply fold_trait_ref_compat.
    unfold fold_trait_ref. by rewrite Hs.
  - apply bind_Val in Hw as (al' & Hal & (t' & Ht & [= <-])%bind_Val). intros []; simpl; try done.
    intros [??]%andb_prop. apply andb_true_intro. split; [by eapply fold_alias_compat|by eapply fold_ty_compat].
  - apply bind_Val in Hw as (? & _ & (? & _ & [= <-])%bind_Val). by intros [].
  - apply bind_Val in Hw as (t' & Ht & (? & _ & [= <-])%bind_Val). intros []; simpl; try done. by apply fold_ty_compat.
Qed.

Lemma fold_domain_goal_compat dg : stronger (fold_domain_goal F) compat_domain_goal dg.
Proof.
  destruct dg as [|[]|[]| | | | | | | | |]; intros dg' Hdg; simpl in Hdg;
    try (apply bind_Val in Hdg as (x & Hx & Hdg)); try (apply bind_Val in Hdg as (x' & Hx' & Hdg));
    injection Hdg as <-; try done; intros y; destruct y as [|[]|[]| | | | | | | | |]; simpl; try done;
    try (by eapply fold_where_compat); try (by eapply fold_trait_ref_compat); try (by eapply fold_ty_compat).
  intros [??]%andb_prop. apply andb_true_intro. split; [by eapply fold_alias_compat|by eapply fold_ty_compat].
Qed.
End FoldGoal.

Lemma compat_domain_goal_sym a b : compat_domain_goal a b = compat_domain_goal b a.
Proof.
  assert (∀ {A} `{EqDecision A} (x y : A), bool_decide (x = y) = bool_decide (y = x)) as Heq
    by (intros; by apply bool_decide_ext).
  assert (∀ a b, compat_trait_ref a b = compat_trait_ref b a) as Htr
    by (intros x y; unfold compat_trait_ref; by rewrite Heq, compat_subst_sym).
  assert (∀ a b, compat_alias a b = compat_alias b a) as Hal
    by (intros [x s|x s] [y r|y r]; simpl; try done; by rewrite (Heq _ _ x y), (compat_subst_sym s)).
  assert (∀ a b, compat_where a b = compat_where b a) as Hw.
  { intros [] []; simpl; try done; first [apply Htr|apply compat_sym|f_equal; [apply Hal|apply compat_sym]]. }
  destruct a as [|[]|[]| | | | | | | | |], b as [|[]|[]| | | | | | | | |]; simpl; try done;
    first [apply Hw|apply Htr|apply Heq|apply compat_sym|f_equal; [apply Hal|apply compat_sym]].
Qed.

(** ** The properties *)

(** C18. The matching check is exact: with as much fuel as the goal is high, and
    a variance for every argument, it returns, and answers whether the two goals
    have equal heads wherever neither has a variable, an alias or a binder. *)
Theorem could_match_exact db fuel (a b : DomainGoal) :
  domain_goal_height a ≤ fuel → domain_goal_variances_fit db a →
  could_match db fuel a b = Val (compat_domain_goal a b).
Proof.
  intros Hh Hv. pose proof (could_match_agrees db fuel a b) as Hm.
  destruct (could_match db fuel a b); [by subst|done|tauto..].
Qed.

(** C13. The matching check never drops a clause that resolution can use: when the
    goal can be related to the consequence of the clause, instantiated with fresh
    variables, the check of the clause against the goal does not say no. *)
Theorem clause_could_match_necessary {E} `{EnaOps E} db env fuel fuel' (clause : ProgramClause)
    (goal : DomainGoal) (implication : ProgramClauseImplication) (t t1 t2 : InferenceTable E) goals :
  instantiate_binders_existentially (clause_data clause) t = Val (implication, t1) →
  relate fuel db env (λ Z, zip_domain_goal Z) Invariant goal implication.(consequence) t1 = (Val goals, t2) →
  clause_could_match db fuel' clause goal ≠ Val false.
Proof.
  unfold instantiate_binders_existentially, instantiate_in. destruct (fresh_subst _ t) as [s t0].
  intros (i & Hi & [= <- <-])%bind_Val Hrel Hno.
  apply relate_domain_goal_implies in Hrel. rewrite compat_domain_goal_sym in Hrel.
  unfold subst_apply in Hi. rewrite unwrap_result_Val in Hi.
  apply bind_Val in Hi as (dg & Hdg & (gs & _ & (cs & _ & [= <-])%bind_Val)%bind_Val).
  pose proof (could_match_agrees db fuel' (clause_data clause).(value).(consequence) goal) as Hm.
  unfold clause_could_match in Hno. rewrite Hno in Hm.
  by rewrite (fold_domain_goal_compat _ _ _ _ Hdg _ Hrel) in Hm.
Qed.

(** ** Witnesses: the clause [forall<T> T0(Vec<T>)] and goals [T0(Vec<?0>)], [T0(str)] *)

Definition match_db : UnificationDatabase :=
  {| fn_def_variance _ := []; adt_variance _ := [Invariant]; db_const_eq _ c1 c2 := (c1 =? c2)%N |}.
Definition holds (t : Ty) : DomainGoal := DgHolds (WcImplemented (mkTraitRef 0 [ArgTy t])).
Definition vec_clause : ProgramClause :=
  mkProgramClause (mkBinders [VkTy General]
    (mkImplication (holds (TyAdt 1 [ArgTy (TyBoundVar (mkBoundVar 0 0))])) [] [] High)).
Definition vec_goal : DomainGoal := holds (TyAdt 1 [ArgTy (TyInferenceVar 0 General)]).
Definition match_table : InferenceTable UnionFind.t := (new_variable universe_root table_new).2.

Lemma could_match_exact_witness :
  could_match match_db 2 vec_goal (holds TyStr) = Val true ∧
  could_match match_db 2 vec_goal (holds (TyAdt 2 [])) = Val false ∧
  could_match match_db 2 vec_goal vec_goal = Val (compat_domain_goal vec_goal vec_goal).
Proof.
  split; [reflexivity|]. split; [reflexivity|].
  apply could_match_exact; [vm_compute; lia|vm_compute; exact I].
Defined.

Definition vec_consequence : DomainGoal := holds (TyAdt 1 [ArgTy (TyInferenceVar 1 General)]).
Definition match_table' : InferenceTable UnionFind.t := (new_variable universe_root match_table).2.

Lemma clause_could_match_necessary_witness :
  clause_could_match match_db 2 vec_clause vec_goal ≠ Val false.
Proof.
  refine (clause_could_match_necessary (E:=UnionFind.t) match_db [] 5 2 vec_clause vec_goal
    (mkImplication vec_consequence [] [] High) match_table match_table'
    (relate 5 match_db [] (λ Z, zip_domain_goal Z) Invariant vec_goal vec_consequence match_table').2 [] _ _);
    vm_compute; reflexivity.
Defined.
