(* ===== verification/IrCountable.v ===== *)
(** * Terms and goals are countable

    The code keys its hash maps by goals ([#[derive(Hash)]]); the model keys
    [gmap]s by them, which asks for an encoding with a left inverse.  Terms are
    encoded as trees with countable leaves. *)

From stdpp Require Import base list numbers countable.
From S2P Require Import Prelude Ir.

(** ** Leaves *)

#[global] Instance Scalar_countable : Countable Scalar.
Proof.
  refine (inj_countable'
    (λ s, match s with ScBool => 0 | ScChar => 1
      | ScInt i => match i with Isize => 2 | I8 => 3 | I16 => 4 | I32 => 5 | I64 => 6 | I128 => 7 end
      | ScUint u => match u with Usize => 8 | U8 => 9 | U16 => 10 | U32 => 11 | U64 => 12 | U128 => 13 end
      | ScFloat f => match f with F32 => 14 | F64 => 15 end end)
    (λ n, nth n [ScBool; ScChar; ScInt Isize; ScInt I8; ScInt I16; ScInt I32; ScInt I64; ScInt I128;
      ScUint Usize; ScUint U8; ScUint U16; ScUint U32; ScUint U64; ScUint U128;
      ScFloat F32; ScFloat F64] ScBool) _).
  by intros [| |[]|[]|[]].
Defined.
#[global] Instance Mutability_countable : Countable Mutability.
Proof.
  refine (inj_countable' (λ m, match m with Mut => true | Not => false end)
    (λ b, if b : bool then Mut else Not) _). by intros [].
Defined.
#[global] Instance TyVariableKind_countable : Countable TyVariableKind.
Proof.
  refine (inj_countable' (λ k, match k with General => 0 | Integer => 1 | Float => 2 end)
    (λ n, match n with 0 => General | 1 => Integer | _ => Float end) _). by intros [].
Defined.
#[global] Instance QuantifierKind_countable : Countable QuantifierKind.
Proof.
  refine (inj_countable' (λ k, match k with ForAll => true | Exists => false end)
    (λ b, if b : bool then ForAll else Exists) _). by intros [].
Defined.
#[global] Instance ClausePriority_countable : Countable ClausePriority.
Proof.
  refine (inj_countable' (λ k, match k with High => true | Low => false end)
    (λ b, if b : bool then High else Low) _). by intros [].
Defined.
#[global] Instance FnSig_countable : Countable FnSig.
Proof.
  refine (inj_countable'
    (λ s, (match s.(abi) with AbiRust => true | AbiC => false end,
           match s.(safety) with Safe => true | Unsafe => false end, s.(variadic)))
    (λ '(a, b, v), mkFnSig (if a : bool then AbiRust else AbiC) (if b : bool then Safe else Unsafe) v) _).
  by intros [[] [] []].
Defined.
#[global] Instance UniverseIndex_countable : Countable UniverseIndex.
Proof. refine (inj_countable' counter mkUniverse _). by intros []. Defined.
#[global] Instance BoundVar_countable : Countable BoundVar.
Proof.
  refine (inj_countable' (λ b, (b.(debruijn), b.(index))) (λ '(d, i), mkBoundVar d i) _). by intros [].
Defined.
#[global] Instance PlaceholderIndex_countable : Countable PlaceholderIndex.
Proof. refine (inj_countable' (λ p, (p.(ui), p.(idx))) (λ '(u, i), mkPlaceholder u i) _). by intros []. Defined.
#[global] Instance Lifetime_countable : Countable Lifetime.
Proof.
  refine (inj_countable'
    (λ l, match l with
          | LtBoundVar bv => inl (inl bv) | LtInferenceVar v => inl (inr v)
          | LtPlaceholder p => inr (inl (inl p)) | LtEmpty u => inr (inl (inr u))
          | LtStatic => inr (inr true) | LtErased => inr (inr false) end)
    (λ s, match s with
          | inl (inl bv) => LtBoundVar bv | inl (inr v) => LtInferenceVar v
          | inr (inl (inl p)) => LtPlaceholder p | inr (inl (inr u)) => LtEmpty u
          | inr (inr true) => LtStatic | inr (inr false) => LtErased end) _).
  by intros [].
Defined.
#[global] Instance ConstValue_countable : Countable ConstValue.
Proof.
  refine (inj_countable'
    (λ l, match l with
          | CvBoundVar bv => inl (inl bv) | CvInferenceVar v => inl (inr v)
          | CvPlaceholder p => inr (inl p) | CvConcrete n => inr (inr n) end)
    (λ s, match s with
          | inl (inl bv) => CvBoundVar bv | inl (inr v) => CvInferenceVar v
          | inr (inl p) => CvPlaceholder p | inr (inr n) => CvConcrete n end) _).
  by intros [].
Defined.

(** ** Terms *)

Abbreviation tree := (gen_tree positive).
Definition leaf {A} `{Countable A} (a : A) : tree := GenLeaf (encode a).
Definition many (l : list tree) : tree := GenNode 0 l.

Fixpoint enc_ty (t : Ty) : tree :=
  match t with
  | TyAdt id s => GenNode 0 [leaf id; many (map enc_arg s)]
  | TyAssociatedType id s => GenNode 1 [leaf id; many (map enc_arg s)]
  | TyScalar s => GenNode 2 [leaf s]
  | TyTuple n s => GenNode 3 [leaf n; many (map enc_arg s)]
  | TyArray t c => GenNode 4 [enc_ty t; enc_const c]
  | TySlice t => GenNode 5 [enc_ty t]
  | TyRaw m t => GenNode 6 [leaf m; enc_ty t]
  | TyRef m l t => GenNode 7 [leaf m; leaf l; enc_ty t]
  | TyOpaqueType id s => GenNode 8 [leaf id; many (map enc_arg s)]
  | TyFnDef id s => GenNode 9 [leaf id; many (map enc_arg s)]
  | TyStr => GenNode 10 []
  | TyNever => GenNode 11 []
  | TyClosure id s => GenNode 12 [leaf id; many (map enc_arg s)]
  | TyGenerator id s => GenNode 13 [leaf id; many (map enc_arg s)]
  | TyGeneratorWitness id s => GenNode 14 [leaf id; many (map enc_arg s)]
  | TyForeign id => GenNode 15 [leaf id]
  | TyError => GenNode 16 []
  | TyPlaceholder p => GenNode 17 [leaf p]
  | TyDyn (mkBinders k bs) l =>
      GenNode 18 [many (map enc_kind k);
        many (map (λ b, match b with mkBinders k w => GenNode 0 [many (map enc_kind k); enc_where w] end) bs);
        leaf l]
  | TyAlias a => GenNode 19 [enc_alias a]
  | TyFunction n f s => GenNode 20 [leaf n; leaf f; many (map enc_arg s)]
  | TyBoundVar bv => GenNode 21 [leaf bv]
  | TyInferenceVar v k => GenNode 22 [leaf v; leaf k]
  end
with enc_const (c : Const) : tree :=
  match c with mkConst t v => GenNode 0 [enc_ty t; leaf v] end
with enc_arg (a : GenericArg) : tree :=
  match a with
  | ArgTy t => GenNode 0 [enc_ty t]
  | ArgLifetime l => GenNode 1 [leaf l]
  | ArgConst c => GenNode 2 [enc_const c]
  end
with enc_kind (k : VariableKind) : tree :=
  match k with
  | VkTy k => GenNode 0 [leaf k]
  | VkLifetime => GenNode 1 []
  | VkConst t => GenNode 2 [enc_ty t]
  end
with enc_alias (a : AliasTy) : tree :=
  match a with
  | AliasProjection id s => GenNode 0 [leaf id; many (map enc_arg s)]
  | AliasOpaque id s => GenNode 1 [leaf id; many (map enc_arg s)]
  end
with enc_where (w : WhereClause) : tree :=
  match w with
  | WcImplemented (mkTraitRef id s) => GenNode 0 [leaf id; many (map enc_arg s)]
  | WcAliasEq a t => GenNode 1 [enc_alias a; enc_ty t]
  | WcLifetimeOutlives a b => GenNode 2 [leaf a; leaf b]
  | WcTypeOutlives t l => GenNode 3 [enc_ty t; leaf l]
  end.

Fixpoint dec_ty (t : tree) : option Ty :=
  match t with
  | GenNode 0 [GenLeaf i; GenNode _ s] => i ← decode i; s ← mapM dec_arg s; Some (TyAdt i s)
  | GenNode 1 [GenLeaf i; GenNode _ s] => i ← decode i; s ← mapM dec_arg s; Some (TyAssociatedType i s)
  | GenNode 2 [GenLeaf s] => s ← decode s; Some (TyScalar s)
  | GenNode 3 [GenLeaf n; GenNode _ s] => n ← decode n; s ← mapM dec_arg s; Some (TyTuple n s)
  | GenNode 4 [t; c] => t ← dec_ty t; c ← dec_const c; Some (TyArray t c)
  | GenNode 5 [t] => t ← dec_ty t; Some (TySlice t)
  | GenNode 6 [GenLeaf m; t] => m ← decode m; t ← dec_ty t; Some (TyRaw m t)
  | GenNode 7 [GenLeaf m; GenLeaf l; t] => m ← decode m; l ← decode l; t ← dec_ty t; Some (TyRef m l t)
  | GenNode 8 [GenLeaf i; GenNode _ s] => i ← decode i; s ← mapM dec_arg s; Some (TyOpaqueType i s)
  | GenNode 9 [GenLeaf i; GenNode _ s] => i ← decode i; s ← mapM dec_arg s; Some (TyFnDef i s)
  | GenNode 10 _ => Some TyStr
  | GenNode 11 _ => Some TyNever
  | GenNode 12 [GenLeaf i; GenNode _ s] => i ← decode i; s ← mapM dec_arg s; Some (TyClosure i s)
  | GenNode 13 [GenLeaf i; GenNode _ s] => i ← decode i; s ← mapM dec_arg s; Some (TyGenerator i s)
  | GenNode 14 [GenLeaf i; GenNode _ s] => i ← decode i; s ← mapM dec_arg s; Some (TyGeneratorWitness i s)
  | GenNode 15 [GenLeaf i] => i ← decode i; Some (TyForeign i)
  | GenNode 16 _ => Some TyError
  | GenNode 17 [GenLeaf p] => p ← decode p; Some (TyPlaceholder p)
  | GenNode 18 [GenNode _ k; GenNode _ bs; GenLeaf l] =>
      k ← mapM dec_kind k;
      bs ← mapM (λ b, match b with
        | GenNode _ [GenNode _ k; w] => k ← mapM dec_kind k; w ← dec_where w; Some (mkBinders k w)
        | _ => None end) bs;
      l ← decode l; Some (TyDyn (mkBinders k bs) l)
  | GenNode 19 [a] => a ← dec_alias a; Some (TyAlias a)
  | GenNode 20 [GenLeaf n; GenLeaf f; GenNode _ s] =>
      n ← decode n; f ← decode f; s ← mapM dec_arg s; Some (TyFunction n f s)
  | GenNode 21 [GenLeaf bv] => bv ← decode bv; Some (TyBoundVar bv)
  | GenNode 22 [GenLeaf v; GenLeaf k] => v ← decode v; k ← decode k; Some (TyInferenceVar v k)
  | _ => None
  end
with dec_const (t : tree) : option Const :=
  match t with
  | GenNode _ [t; GenLeaf v] => t ← dec_ty t; v ← decode v; Some (mkConst t v)
  | _ => None
  end
with dec_arg (t : tree) : option GenericArg :=
  match t with
  | GenNode 0 [t] => t ← dec_ty t; Some (ArgTy t)
  | GenNode 1 [GenLeaf l] => l ← decode l; Some (ArgLifetime l)
  | GenNode 2 [c] => c ← dec_const c; Some (ArgConst c)
  | _ => None
  end
with dec_kind (t : tree) : option VariableKind :=
  match t with
  | GenNode 0 [GenLeaf k] => k ← decode k; Some (VkTy k)
  | GenNode 1 _ => Some VkLifetime
  | GenNode 2 [t] => t ← dec_ty t; Some (VkConst t)
  | _ => None
  end
with dec_alias (t : tree) : option AliasTy :=
  match t with
  | GenNode 0 [GenLeaf i; GenNode _ s] => i ← decode i; s ← mapM dec_arg s; Some (AliasProjection i s)
  | GenNode 1 [GenLeaf i; GenNode _ s] => i ← decode i; s ← mapM dec_arg s; Some (AliasOpaque i s)
  | _ => None
  end
with dec_where (t : tree) : option WhereClause :=
  match t with
  | GenNode 0 [GenLeaf i; GenNode _ s] => i ← decode i; s ← mapM dec_arg s; Some (WcImplemented (mkTraitRef i s))
  | GenNode 1 [a; t] => a ← dec_alias a; t ← dec_ty t; Some (WcAliasEq a t)
  | GenNode 2 [GenLeaf a; GenLeaf b] => a ← decode a; b ← decode b; Some (WcLifetimeOutlives a b)
  | GenNode 3 [t; GenLeaf l] => t ← dec_ty t; l ← decode l; Some (WcTypeOutlives t l)
  | _ => None
  end.

Lemma mapM_map_id {A} (e : A → tree) (d : tree → option A) l :
  Forall (λ x, d (e x) = Some x) l → mapM d (map e l) = Some l.
Proof. induction 1 as [|x l Hx _ IH]; simpl; [done|]. by rewrite Hx, IH. Qed.

Fixpoint Forall_all {A} (P : A → Prop) (f : ∀ x, P x) (l : list A) : Forall P l :=
  match l with [] => Forall_nil_2 _ | x :: l => Forall_cons_2 _ x l (f x) (Forall_all P f l) end.

Ltac dec_simpl := cbn -[encode decode mapM map].

Ltac dec_list := match goal with
  | IH : ∀ x, ?d (?e x) = Some x |- context [mapM ?d (map ?e ?l)] =>
      rewrite (mapM_map_id e d l (Forall_all (λ x, d (e x) = Some x) IH l)); dec_simpl end.

Ltac dec_step := first [ rewrite decode_encode; dec_simpl | dec_list
  | match goal with IH : ∀ x, ?d (?e x) = Some x |- context [?d (?e ?y)] => rewrite (IH y); dec_simpl end ].

Fixpoint dec_enc_ty (t : Ty) : dec_ty (enc_ty t) = Some t
with dec_enc_const (c : Const) : dec_const (enc_const c) = Some c
with dec_enc_arg (a : GenericArg) : dec_arg (enc_arg a) = Some a
with dec_enc_kind (k : VariableKind) : dec_kind (enc_kind k) = Some k
with dec_enc_alias (a : AliasTy) : dec_alias (enc_alias a) = Some a
with dec_enc_where (w : WhereClause) : dec_where (enc_where w) = Some w.
Proof.
  - destruct t as [| | | | | | | | | | | | | | | | | |[k bs] l| | | |]; dec_simpl; try (by repeat dec_step).
    dec_list. rewrite (mapM_map_id _ _ bs); [dec_simpl; by dec_step|].
    apply Forall_all. intros [k' w]. dec_simpl. by repeat dec_step.
  - destruct c; dec_simpl; by repeat dec_step.
  - destruct a; dec_simpl; by repeat dec_step.
  - destruct k; dec_simpl; by repeat dec_step.
  - destruct a; dec_simpl; by repeat dec_step.
  - destruct w as [[]| | |]; dec_simpl; by repeat dec_step.
Qed.

#[global] Instance Ty_countable : Countable Ty := inj_countable enc_ty dec_ty dec_enc_ty.
#[global] Instance GenericArg_countable : Countable GenericArg := inj_countable enc_arg dec_arg dec_enc_arg.
#[global] Instance VariableKind_countable : Countable VariableKind :=
  inj_countable enc_kind dec_kind dec_enc_kind.
#[global] Instance AliasTy_countable : Countable AliasTy := inj_countable enc_alias dec_alias dec_enc_alias.
#[global] Instance WhereClause_countable : Countable WhereClause :=
  inj_countable enc_where dec_where dec_enc_where.

(** ** Goals *)

#[global] Instance BindersOf_countable {V T} `{Countable V, Countable T} : Countable (BindersOf V T).
Proof. refine (inj_countable' (λ b, (b.(binders), b.(value))) (λ '(k, x), mkBinders k x) _). by intros []. Defined.
#[global] Instance TraitRefOf_countable {A} `{Countable A} : Countable (TraitRefOf A).
Proof.
  refine (inj_countable' (λ b, (b.(trait_id), b.(substitution))) (λ '(k, x), mkTraitRef k x) _). by intros [].
Defined.
#[global] Instance WellFormed_countable : Countable WellFormed.
Proof.
  refine (inj_countable' (λ w, match w with WfTrait t => inl t | WfTy t => inr t end)
    (λ s, match s with inl t => WfTrait t | inr t => WfTy t end) _). by intros [].
Defined.
#[global] Instance FromEnv_countable : Countable FromEnv.
Proof.
  refine (inj_countable' (λ w, match w with FeTrait t => inl t | FeTy t => inr t end)
    (λ s, match s with inl t => FeTrait t | inr t => FeTy t end) _). by intros [].
Defined.
#[global] Instance Constraint_countable : Countable Constraint.
Proof.
  refine (inj_countable'
    (λ w, match w with CtLifetimeOutlives a b => inl (a, b) | CtTypeOutlives t l => inr (t, l) end)
    (λ s, match s with inl (a, b) => CtLifetimeOutlives a b | inr (t, l) => CtTypeOutlives t l end) _).
  by intros [].
Defined.
#[global] Instance DomainGoal_countable : Countable DomainGoal.
Proof.
  refine (inj_countable'
    (λ d, match d with
      | DgHolds w => inl w
      | DgWellFormed w => inr (inl (inl w))
      | DgFromEnv e => inr (inl (inr e))
      | DgNormalize a t => inr (inr (inl (a, t)))
      | DgIsLocal t => inr (inr (inr (inl (0, t))))
      | DgIsUpstream t => inr (inr (inr (inl (1, t))))
      | DgIsFullyVisible t => inr (inr (inr (inl (2, t))))
      | DgDownstreamType t => inr (inr (inr (inl (3, t))))
      | DgLocalImplAllowed t => inr (inr (inr (inr (inl t))))
      | DgCompatible => inr (inr (inr (inr (inr (inl true)))))
      | DgReveal => inr (inr (inr (inr (inr (inl false)))))
      | DgObjectSafe t => inr (inr (inr (inr (inr (inr t)))))
      end)
    (λ s, match s with
      | inl w => DgHolds w
      | inr (inl (inl w)) => DgWellFormed w
      | inr (inl (inr e)) => DgFromEnv e
      | inr (inr (inl (a, t))) => DgNormalize a t
      | inr (inr (inr (inl (0, t)))) => DgIsLocal t
      | inr (inr (inr (inl (1, t)))) => DgIsUpstream t
      | inr (inr (inr (inl (2, t)))) => DgIsFullyVisible t
      | inr (inr (inr (inl (_, t)))) => DgDownstreamType t
      | inr (inr (inr (inr (inl t)))) => DgLocalImplAllowed t
      | inr (inr (inr (inr (inr (inl true))))) => DgCompatible
      | inr (inr (inr (inr (inr (inl false))))) => DgReveal
      | inr (inr (inr (inr (inr (inr t))))) => DgObjectSafe t
      end) _).
  by intros [].
Defined.

Fixpoint enc_goal (g : Goal) : tree :=
  match g with
  | GQuantified q (mkBinders k g) => GenNode 0 [leaf q; leaf k; enc_goal g]
  | GImplies h g => GenNode 1 [many (map enc_clause h); enc_goal g]
  | GAll gs => GenNode 2 [many (map enc_goal gs)]
  | GNot g => GenNode 3 [enc_goal g]
  | GEqGoal a b => GenNode 4 [leaf a; leaf b]
  | GSubtypeGoal a b => GenNode 5 [leaf a; leaf b]
  | GDomainGoal dg => GenNode 6 [leaf dg]
  | GCannotProve => GenNode 7 []
  end
with enc_clause (c : ProgramClause) : tree :=
  match c with
  | mkProgramClause (mkBinders k (mkImplication dg gs cs p)) =>
      GenNode 0 [leaf k; leaf dg; many (map enc_goal gs);
        many (map (λ e, match e with mkInEnvironment h c => GenNode 0 [many (map enc_clause h); leaf c] end) cs);
        leaf p]
  end.

Fixpoint dec_goal (t : tree) : option Goal :=
  match t with
  | GenNode 0 [GenLeaf q; GenLeaf k; g] =>
      q ← decode q; k ← decode k; g ← dec_goal g; Some (GQuantified q (mkBinders k g))
  | GenNode 1 [GenNode _ h; g] => h ← mapM dec_clause h; g ← dec_goal g; Some (GImplies h g)
  | GenNode 2 [GenNode _ gs] => gs ← mapM dec_goal gs; Some (GAll gs)
  | GenNode 3 [g] => g ← dec_goal g; Some (GNot g)
  | GenNode 4 [GenLeaf a; GenLeaf b] => a ← decode a; b ← decode b; Some (GEqGoal a b)
  | GenNode 5 [GenLeaf a; GenLeaf b] => a ← decode a; b ← decode b; Some (GSubtypeGoal a b)
  | GenNode 6 [GenLeaf dg] => dg ← decode dg; Some (GDomainGoal dg)
  | GenNode 7 _ => Some GCannotProve
  | _ => None
  end
with dec_clause (t : tree) : option ProgramClause :=
  match t with
  | GenNode _ [GenLeaf k; GenLeaf dg; GenNode _ gs; GenNode _ cs; GenLeaf p] =>
      k ← decode k; dg ← decode dg; gs ← mapM dec_goal gs;
      cs ← mapM (λ e, match e with
        | GenNode _ [GenNode _ h; GenLeaf c] =>
            h ← mapM dec_clause h; c ← decode c; Some (mkInEnvironment h c)
        | _ => None end) cs;
      p ← decode p; Some (mkProgramClause (mkBinders k (mkImplication dg gs cs p)))
  | _ => None
  end.

Fixpoint dec_enc_goal (g : Goal) : dec_goal (enc_goal g) = Some g
with dec_enc_clause (c : ProgramClause) : dec_clause (enc_clause c) = Some c.
Proof.
  - destruct g as [q [k g]| | | | | | |]; dec_simpl; by repeat dec_step.
  - destruct c as [[k [dg gs cs p]]]; dec_simpl. do 2 dec_step. dec_list.
    rewrite (mapM_map_id _ _ cs); [dec_simpl; by dec_step|].
    apply Forall_all. intros [h c]. dec_simpl. by repeat dec_step.
Qed.

#[global] Instance Goal_countable : Countable Goal := inj_countable enc_goal dec_goal dec_enc_goal.
#[global] Instance ProgramClause_countable : Countable ProgramClause :=
  inj_countable enc_clause dec_clause dec_enc_clause.

(** ** Canonical goals *)

#[global] Instance InEnvironmentOf_countable {C G} `{Countable C, Countable G} :
  Countable (InEnvironmentOf C G).
Proof.
  refine (inj_countable' (λ b, (b.(environment), b.(env_goal))) (λ '(k, x), mkInEnvironment k x) _).
  by intros [].
Defined.
#[global] Instance WithKind_countable {T} `{Countable T} : Countable (WithKind T).
Proof. refine (inj_countable' (λ b, (b.(kind), b.(kvalue))) (λ '(k, x), mkWithKind k x) _). by intros []. Defined.
#[global] Instance Canonical_countable {T} `{Countable T} : Countable (Canonical T).
Proof.
  refine (inj_countable' (λ b, (b.(cvalue), b.(cbinders))) (λ '(k, x), mkCanonical k x) _). by intros [].
Defined.
#[global] Instance UCanonical_countable {T} `{Countable T} : Countable (UCanonical T).
Proof.
  refine (inj_countable' (λ b, (b.(canonical), b.(universes))) (λ '(k, x), mkUCanonical k x) _). by intros [].
Defined.
