(* ===== verification/RustIr.v ===== *)
(** * The Rust IR ([chalk-solve/src/rust_ir.rs]) and the program database
    ([RustIrDatabase] of [chalk-solve/src/lib.rs])

    The declarations of a program as the solver reads them.  The program itself
    is behind [RustIrDatabase]: a record of the queries of the trait. *)

From stdpp Require Import base list numbers.
From S2P Require Import Prelude Ir Fold FoldLaws Shift Zip.
Abbreviation ImplId := N (only parsing).
Abbreviation AssociatedTyValueId := N (only parsing).

(** ** Operations on binders ([chalk-ir/src/lib.rs]) *)

Definition binders_map {V T U} (op : T → U) (self : BindersOf V T) : BindersOf V U :=
  mkBinders self.(binders) (op self.(value)).
Definition binders_len {V T} (self : BindersOf V T) : nat := length self.(binders).
Definition binders_empty {V T} (value : T) : BindersOf V T := mkBinders [] value.
(** [Binders::with_fresh_type_var]. *)
Definition with_fresh_type_var {T} (op : Ty → T) : Binders T :=
  mkBinders [VkTy General] (op (TyBoundVar (mkBoundVar INNERMOST 0))).
(** [impl IntoIterator for Binders<V>]: the binders around each element. *)
Definition binders_into_iter {T} (self : Binders (list T)) : list (Binders T) :=
  (λ x, mkBinders self.(binders) x) <$> self.(value).

(** ** Impls *)

Inductive Polarity := Positive | Negative.
#[global] Instance Polarity_eq_dec : EqDecision Polarity. Proof. solve_decision. Defined.
Definition polarity_is_positive (self : Polarity) : bool :=
  match self with Positive => true | Negative => false end.

Inductive ImplType := ImplLocal | ImplExternal.
#[global] Instance ImplType_eq_dec : EqDecision ImplType. Proof. solve_decision. Defined.

Record ImplDatumBound := mkImplDatumBound {
  impl_trait_ref : TraitRef;
  impl_where_clauses : list QuantifiedWhereClause
}.
Record ImplDatum := mkImplDatum {
  polarity : Polarity;
  impl_binders : Binders ImplDatumBound;
  impl_type : ImplType;
  associated_ty_value_ids : list AssociatedTyValueId
}.

Definition impl_is_positive (self : ImplDatum) : bool := polarity_is_positive self.(polarity).
Definition impl_trait_id (self : ImplDatum) : TraitId := self.(impl_binders).(value).(impl_trait_ref).(trait_id).
(** [TraitRef::self_type_parameter]: the first type among the parameters. *)
Definition type_parameters (s : Substitution) : list Ty :=
  omap (λ p, match p with ArgTy t => Some t | _ => None end) s.
Definition self_type_parameter (s : Substitution) : Fallible Ty := unwrap (head (type_parameters s)).
Definition self_type_adt_id (self : ImplDatum) : Fallible (option AdtId) :=
  ty ← self_type_parameter self.(impl_binders).(value).(impl_trait_ref).(substitution);
  Val (match ty with TyAdt id _ => Some id | _ => None end).

(** ** Data types and functions *)

Inductive AdtKind := Struct | Enum | Union.
#[global] Instance AdtKind_eq_dec : EqDecision AdtKind. Proof. solve_decision. Defined.
Record AdtVariantDatum := mkAdtVariantDatum { fields : list Ty }.
Record AdtDatumBound := mkAdtDatumBound {
  variants : list AdtVariantDatum;
  adt_where_clauses : list QuantifiedWhereClause
}.
Record AdtFlags := mkAdtFlags { adt_upstream : bool; adt_fundamental : bool; phantom_data : bool }.
Record AdtDatum := mkAdtDatum {
  adt_binders : Binders AdtDatumBound;
  adt_id : AdtId;
  adt_flags : AdtFlags;
  adt_kind : AdtKind
}.
Record AdtRepr := mkAdtRepr { repr_c : bool; repr_packed : bool; repr_int : option Ty }.

Record FnDefInputsAndOutputDatum := mkFnDefInputsAndOutputDatum {
  argument_types : list Ty;
  return_type : Ty
}.
Record FnDefDatumBound := mkFnDefDatumBound {
  inputs_and_output : Binders FnDefInputsAndOutputDatum;
  fn_where_clauses : list QuantifiedWhereClause
}.
Record FnDefDatum := mkFnDefDatum {
  fn_id : FnDefId;
  fn_sig : FnSig;
  fn_binders : Binders FnDefDatumBound
}.

(** ** Traits *)

Inductive WellKnownTrait :=
  | WkSized | WkCopy | WkClone | WkDrop | WkFnOnce | WkFnMut | WkFn | WkUnsize | WkUnpin
  | WkCoerceUnsized | WkDiscriminantKind | WkGenerator.
#[global] Instance WellKnownTrait_eq_dec : EqDecision WellKnownTrait. Proof. solve_decision. Defined.

Record TraitDatumBound := mkTraitDatumBound { trait_bound_where_clauses : list QuantifiedWhereClause }.
Record TraitFlags := mkTraitFlags {
  auto : bool;
  marker : bool;
  trait_upstream : bool;
  trait_fundamental : bool;
  non_enumerable : bool;
  coinductive : bool
}.
Record TraitDatum := mkTraitDatum {
  trait_datum_id : TraitId;
  trait_binders : Binders TraitDatumBound;
  trait_flags : TraitFlags;
  associated_ty_ids : list AssocTypeId;
  well_known : option WellKnownTrait
}.

Definition is_auto_trait (self : TraitDatum) : bool := self.(trait_flags).(auto).
Definition is_non_enumerable_trait (self : TraitDatum) : bool := self.(trait_flags).(non_enumerable).
Definition is_coinductive_trait (self : TraitDatum) : bool := self.(trait_flags).(coinductive).
(** [TraitDatum::where_clauses]. *)
Definition trait_where_clauses (self : TraitDatum) : Binders (list QuantifiedWhereClause) :=
  binders_map trait_bound_where_clauses self.(trait_binders).

(** ** Inline bounds *)

Record TraitBound := mkTraitBound { tb_trait_id : TraitId; args_no_self : list GenericArg }.
Record AliasEqBound := mkAliasEqBound {
  aeb_trait_bound : TraitBound;
  aeb_associated_ty_id : AssocTypeId;
  aeb_parameters : list GenericArg;
  aeb_value : Ty
}.
Inductive InlineBound := IbTraitBound (b : TraitBound) | IbAliasEqBound (b : AliasEqBound).
Abbreviation QuantifiedInlineBound := (Binders InlineBound).

(** [TraitBound::as_trait_ref]. *)
Definition as_trait_ref (self : TraitBound) (self_ty : Ty) : TraitRef :=
  mkTraitRef self.(tb_trait_id) (ArgTy self_ty :: self.(args_no_self)).

(** [into_where_clauses] of [TraitBound], [AliasEqBound] and [InlineBound]. *)
Definition trait_bound_into_where_clauses (self : TraitBound) (self_ty : Ty) : list WhereClause :=
  [WcImplemented (as_trait_ref self self_ty)].
Definition alias_eq_bound_into_where_clauses (self : AliasEqBound) (self_ty : Ty) : list WhereClause :=
  let trait_ref := as_trait_ref self.(aeb_trait_bound) self_ty in
  let substitution := self.(aeb_parameters) ++ trait_ref.(substitution) in
  [WcImplemented trait_ref;
   WcAliasEq (AliasProjection self.(aeb_associated_ty_id) substitution) self.(aeb_value)].
Definition inline_bound_into_where_clauses (self : InlineBound) (self_ty : Ty) : list WhereClause :=
  match self with
  | IbTraitBound b => trait_bound_into_where_clauses b self_ty
  | IbAliasEqBound b => alias_eq_bound_into_where_clauses b self_ty
  end.
(** [into_where_clauses] of [QuantifiedInlineBound]: the self type goes under the binder. *)
Definition into_where_clauses (self : QuantifiedInlineBound) (self_ty : Ty) :
    Fallible (list QuantifiedWhereClause) :=
  self_ty ← term_shifted_in self_ty;
  Val (binders_into_iter (binders_map (λ b, inline_bound_into_where_clauses b self_ty) self)).

(** [Anonymize::anonymize]. *)
Definition anonymize {T} (self : list (WithKind T)) : list VariableKind := kind <$> self.

(** ** Associated types, opaque types, generators *)

Record AssociatedTyDatumBound := mkAssociatedTyDatumBound {
  assoc_bounds : list QuantifiedInlineBound;
  assoc_where_clauses : list QuantifiedWhereClause
}.
Record AssociatedTyDatum := mkAssociatedTyDatum {
  assoc_trait_id : TraitId;
  assoc_id : AssocTypeId;
  assoc_name : string;
  assoc_binders : Binders AssociatedTyDatumBound
}.

(** [AssociatedTyDatum::bounds_on_self]. *)
Definition bounds_on_self (self : AssociatedTyDatum) : Fallible (list QuantifiedWhereClause) :=
  let substitution := identity_substitution self.(assoc_binders) in
  let self_ty := TyAlias (AliasProjection self.(assoc_id) substitution) in
  wcs ← mapM (λ b, into_where_clauses b self_ty) self.(assoc_binders).(value).(assoc_bounds);
  Val (concat wcs).

Record AssociatedTyValueBound := mkAssociatedTyValueBound { atv_ty : Ty }.
Record AssociatedTyValue := mkAssociatedTyValue {
  atv_impl_id : ImplId;
  atv_associated_ty_id : AssocTypeId;
  atv_value : Binders AssociatedTyValueBound
}.

Record OpaqueTyDatumBound := mkOpaqueTyDatumBound {
  opaque_bounds : Binders (list QuantifiedWhereClause);
  opaque_where_clauses : Binders (list QuantifiedWhereClause)
}.
Record OpaqueTyDatum := mkOpaqueTyDatum {
  opaque_ty_id : OpaqueTyId;
  opaque_bound : Binders OpaqueTyDatumBound
}.

Inductive Movability := MvStatic | MvMovable.
#[global] Instance Movability_eq_dec : EqDecision Movability. Proof. solve_decision. Defined.
Record GeneratorInputOutputDatum := mkGeneratorInputOutputDatum {
  resume_type : Ty;
  yield_type : Ty;
  gen_return_type : Ty;
  upvars : list Ty
}.
Record GeneratorDatum := mkGeneratorDatum {
  movability : Movability;
  input_output : Binders GeneratorInputOutputDatum
}.
Record GeneratorWitnessExistential := mkGeneratorWitnessExistential { types : Binders (list Ty) }.
Record GeneratorWitnessDatum := mkGeneratorWitnessDatum {
  inner_types : Binders GeneratorWitnessExistential
}.

Inductive ClosureKind := CkFn | CkFnMut | CkFnOnce.
#[global] Instance ClosureKind_eq_dec : EqDecision ClosureKind. Proof. solve_decision. Defined.
(** [#[derive(PartialOrd)]]: the order of the variants. *)
Definition closure_kind_rank (k : ClosureKind) : nat :=
  match k with CkFn => 0 | CkFnMut => 1 | CkFnOnce => 2 end.

(** ** Folds of the declarations ([#[derive(Fold)]]) *)

#[global] Instance Fold_ImplDatumBound : Fold ImplDatumBound := λ _ _ _ F b d,
  tr ← fold_with F b.(impl_trait_ref) d;
  wcs ← fold_with F b.(impl_where_clauses) d;
  mret (mkImplDatumBound tr wcs).
#[global] Instance Fold_AdtVariantDatum : Fold AdtVariantDatum := λ _ _ _ F b d,
  fs ← fold_with F b.(fields) d; mret (mkAdtVariantDatum fs).
#[global] Instance Fold_AdtDatumBound : Fold AdtDatumBound := λ _ _ _ F b d,
  vs ← fold_with F b.(variants) d;
  wcs ← fold_with F b.(adt_where_clauses) d;
  mret (mkAdtDatumBound vs wcs).
#[global] Instance Fold_FnDefInputsAndOutputDatum : Fold FnDefInputsAndOutputDatum := λ _ _ _ F b d,
  ts ← fold_with F b.(argument_types) d;
  r ← fold_with F b.(return_type) d;
  mret (mkFnDefInputsAndOutputDatum ts r).
#[global] Instance Fold_FnDefDatumBound : Fold FnDefDatumBound := λ _ _ _ F b d,
  io ← fold_with F b.(inputs_and_output) d;
  wcs ← fold_with F b.(fn_where_clauses) d;
  mret (mkFnDefDatumBound io wcs).
#[global] Instance Fold_TraitBound : Fold TraitBound := λ _ _ _ F b d,
  s ← fold_with F b.(args_no_self) d; mret (mkTraitBound b.(tb_trait_id) s).
#[global] Instance Fold_AliasEqBound : Fold AliasEqBound := λ _ _ _ F b d,
  tb ← fold_with F b.(aeb_trait_bound) d;
  s ← fold_with F b.(aeb_parameters) d;
  t ← fold_with F b.(aeb_value) d;
  mret (mkAliasEqBound tb b.(aeb_associated_ty_id) s t).
#[global] Instance Fold_InlineBound : Fold InlineBound := λ _ _ _ F b d,
  match b with
  | IbTraitBound b => b ← fold_with F b d; mret (IbTraitBound b)
  | IbAliasEqBound b => b ← fold_with F b d; mret (IbAliasEqBound b)
  end.
#[global] Instance Fold_AssociatedTyDatumBound : Fold AssociatedTyDatumBound := λ _ _ _ F b d,
  bs ← fold_with F b.(assoc_bounds) d;
  wcs ← fold_with F b.(assoc_where_clauses) d;
  mret (mkAssociatedTyDatumBound bs wcs).
#[global] Instance Fold_AssociatedTyValueBound : Fold AssociatedTyValueBound := λ _ _ _ F b d,
  t ← fold_with F b.(atv_ty) d; mret (mkAssociatedTyValueBound t).
#[global] Instance Fold_OpaqueTyDatumBound : Fold OpaqueTyDatumBound := λ _ _ _ F b d,
  bs ← fold_with F b.(opaque_bounds) d;
  wcs ← fold_with F b.(opaque_where_clauses) d;
  mret (mkOpaqueTyDatumBound bs wcs).
#[global] Instance Fold_GeneratorInputOutputDatum : Fold GeneratorInputOutputDatum := λ _ _ _ F b d,
  r ← fold_with F b.(resume_type) d;
  y ← fold_with F b.(yield_type) d;
  t ← fold_with F b.(gen_return_type) d;
  us ← fold_with F b.(upvars) d;
  mret (mkGeneratorInputOutputDatum r y t us).
#[global] Instance Fold_GeneratorWitnessExistential : Fold GeneratorWitnessExistential := λ _ _ _ F b d,
  ts ← fold_with F b.(types) d; mret (mkGeneratorWitnessExistential ts).

(** ** The program *)

Record RustIrDatabase := mkRustIrDatabase {
  custom_clauses : list ProgramClause;
  associated_ty_data : AssocTypeId → AssociatedTyDatum;
  trait_datum : TraitId → TraitDatum;
  adt_datum : AdtId → AdtDatum;
  generator_datum : GeneratorId → GeneratorDatum;
  generator_witness_datum : GeneratorId → GeneratorWitnessDatum;
  adt_repr : AdtId → AdtRepr;
  fn_def_datum : FnDefId → FnDefDatum;
  impl_datum : ImplId → ImplDatum;
  associated_ty_value : AssociatedTyValueId → AssociatedTyValue;
  opaque_ty_data : OpaqueTyId → OpaqueTyDatum;
  hidden_opaque_type : OpaqueTyId → Ty;
  impls_for_trait : TraitId → list GenericArg → list CanonicalVarKind → Fallible (list ImplId);
  local_impls_to_coherence_check : TraitId → list ImplId;
  impl_provided_for : TraitId → Ty → Fallible bool;
  well_known_trait_id : WellKnownTrait → option TraitId;
  program_clauses_for_env : Environment → Fallible ProgramClauses;
  is_object_safe : TraitId → bool;
  closure_kind : ClosureId → Substitution → ClosureKind;
  closure_inputs_and_output : ClosureId → Substitution → Binders FnDefInputsAndOutputDatum;
  closure_upvars : ClosureId → Substitution → Binders Ty;
  closure_fn_substitution : ClosureId → Substitution → Substitution;
  unification_database : UnificationDatabase;
  discriminant_type : Ty → Ty
}.

(** * Splitting projections ([chalk-solve/src/split.rs]) *)

Record ProjectionTy := mkProjectionTy { associated_ty_id : AssocTypeId; proj_substitution : Substitution }.
#[global] Instance ProjectionTy_eq_dec : EqDecision ProjectionTy. Proof. solve_decision. Defined.
#[global] Instance Fold_ProjectionTy : Fold ProjectionTy := λ _ _ _ F p d,
  s ← fold_with F p.(proj_substitution) d; mret (mkProjectionTy p.(associated_ty_id) s).
(** [AliasTy::Projection]. *)
Definition projection (p : ProjectionTy) : AliasTy :=
  AliasProjection p.(associated_ty_id) p.(proj_substitution).

(** [slice.split_at(mid)]. *)
Definition split_at {E A} (l : list A) (mid : nat) : outcome E (list A * list A) :=
  if mid <=? length l then Val (take mid l, drop mid l) else Panic PIndex.

(** A subtraction of [usize]s. *)
Definition usize_sub {E} (a b : nat) : outcome E nat :=
  if b <=? a then Val (a - b) else Panic POverflow.

Section Split.
Context (db : RustIrDatabase).

Definition split_associated_ty_parameters {E P} (params : list P) (associated_ty_datum : AssociatedTyDatum) :
    outcome E (list P * list P) :=
  let trait_datum := db.(trait_datum) associated_ty_datum.(assoc_trait_id) in
  let trait_num_params := length trait_datum.(trait_binders).(binders) in
  split_point ← usize_sub (length params) trait_num_params;
  '(other_params, trait_params) ← split_at params split_point;
  Val (trait_params, other_params).

Definition split_projection {E} (projection : ProjectionTy) :
    outcome E (AssociatedTyDatum * list GenericArg * list GenericArg) :=
  let associated_ty_data := db.(associated_ty_data) projection.(associated_ty_id) in
  '(trait_params, other_params) ←
    split_associated_ty_parameters projection.(proj_substitution) associated_ty_data;
  Val (associated_ty_data, trait_params, other_params).

Definition trait_parameters_from_projection {E} (projection : ProjectionTy) :
    outcome E (list GenericArg) :=
  '(_, trait_params, _) ← split_projection projection;
  Val trait_params.

Definition trait_ref_from_projection {E} (projection : ProjectionTy) : outcome E TraitRef :=
  '(associated_ty_data, trait_params, _) ← split_projection projection;
  Val (mkTraitRef associated_ty_data.(assoc_trait_id) trait_params).

Definition split_associated_ty_value_parameters {E P} (params : list P)
    (associated_ty_value : AssociatedTyValue) : outcome E (list P * list P) :=
  let impl_datum := db.(impl_datum) associated_ty_value.(atv_impl_id) in
  let impl_params_len := binders_len impl_datum.(impl_binders) in
  _ ← assert (impl_params_len <=? length params);
  split_point ← usize_sub (length params) impl_params_len;
  '(other_params, impl_params) ← split_at params split_point;
  Val (impl_params, other_params).

Definition impl_parameters_and_projection_from_associated_ty_value (params : list GenericArg)
    (associated_ty_value : AssociatedTyValue) : Fallible (list GenericArg * ProjectionTy) :=
  let impl_datum := db.(impl_datum) associated_ty_value.(atv_impl_id) in
  '(impl_parameters, atv_parameters) ←
    split_associated_ty_value_parameters params associated_ty_value;
  trait_ref ← substitute (binders_map impl_trait_ref impl_datum.(impl_binders)) impl_parameters;
  let projection_substitution := atv_parameters ++ trait_ref.(substitution) in
  Val (impl_parameters,
       mkProjectionTy associated_ty_value.(atv_associated_ty_id) projection_substitution).
End Split.
