(* ===== verification/Solve.v ===== *)
(** * Solutions ([chalk-solve/src/solve.rs], [chalk-recursive/src/combine.rs])

    A [Solution] is what a solver answers; [combine] joins the solutions of two
    clauses, [with_priorities] those of clauses with priorities. *)

From stdpp Require Import base list numbers.
From S2P Require Import Prelude Ir Fold FoldLaws Shift.

Inductive Guidance :=
  | Definite (subst : Canonical Substitution)
  | Suggested (subst : Canonical Substitution)
  | Unknown.
#[global] Instance Guidance_eq_dec : EqDecision Guidance. Proof. solve_decision. Defined.

Inductive Solution :=
  | Unique (constrained : Canonical ConstrainedSubst)
  | Ambig (guidance : Guidance).
#[global] Instance Solution_eq_dec : EqDecision Solution. Proof. solve_decision. Defined.

(** ** [impl Solution] *)

Definition into_guidance (self : Solution) : Guidance :=
  match self with
  | Unique constrained => Definite (mkCanonical constrained.(cvalue).(csubst) constrained.(cbinders))
  | Ambig guidance => guidance
  end.

Definition combine (self other : Solution) : Solution :=
  if decide (self = other) then self
  else
    Ambig match into_guidance self, into_guidance other with
    | Definite subst1, Definite subst2 =>
        if decide (subst1 = subst2) then Definite subst1 else Unknown
    | Suggested subst1, Suggested subst2 =>
        if decide (subst1 = subst2) then Suggested subst1 else Unknown
    | _, _ => Unknown
    end.

Definition without_constraints (canonical : Canonical Substitution) : Canonical ConstrainedSubst :=
  mkCanonical (mkConstrainedSubst canonical.(cvalue) []) canonical.(cbinders).

Definition constrained_subst (self : Solution) : option (Canonical ConstrainedSubst) :=
  match self with
  | Unique constrained => Some constrained
  | Ambig (Definite canonical) | Ambig (Suggested canonical) => Some (without_constraints canonical)
  | Ambig Unknown => None
  end.

Definition definite_subst (self : Solution) : option (Canonical ConstrainedSubst) :=
  match self with
  | Unique constrained => Some constrained
  | Ambig (Definite canonical) => Some (without_constraints canonical)
  | _ => None
  end.

Definition is_unique (self : Solution) : bool := match self with Unique _ => true | _ => false end.
Definition is_ambig (self : Solution) : bool := match self with Ambig _ => true | _ => false end.

(** ** Priorities *)

(** [DomainGoal::inputs]. *)
Definition inputs (self : DomainGoal) : list GenericArg :=
  match self with DgHolds (WcAliasEq alias _) => [ArgTy (TyAlias alias)] | _ => [] end.

Definition calculate_inputs (domain_goal : DomainGoal) (solution : Solution) :
    Fallible (list GenericArg) :=
  match constrained_subst solution with
  | Some subst =>
      subst_goal ← subst_apply subst.(cvalue).(csubst) domain_goal;
      Val (inputs subst_goal)
  | None => Val (inputs domain_goal)
  end.

Definition prefer_higher (domain_goal : DomainGoal) (higher lower : Solution) :
    Fallible (Solution * ClausePriority) :=
  inputs_higher ← calculate_inputs domain_goal higher;
  inputs_lower ← calculate_inputs domain_goal lower;
  Val (if decide (inputs_higher = inputs_lower) then (higher, High)
       else (combine higher lower, High)).

Definition with_priorities (domain_goal : DomainGoal) (a : Solution) (prio_a : ClausePriority)
    (b : Solution) (prio_b : ClausePriority) : Fallible (Solution * ClausePriority) :=
  match prio_a, prio_b with
  | High, Low => prefer_higher domain_goal a b
  | Low, High => prefer_higher domain_goal b a
  | _, _ => Val (combine a b, prio_a)
  end.

(** ** [combine] is a join *)

Lemma combine_idem a : combine a a = a.
Proof. unfold combine. by rewrite decide_True. Qed.

Lemma combine_comm a b : combine a b = combine b a.
Proof.
  unfold combine. destruct (decide (a = b)) as [->|Hne]; [by rewrite decide_True|].
  rewrite decide_False by congruence. f_equal.
  destruct (into_guidance a), (into_guidance b); repeat case_decide; congruence.
Qed.

Lemma combine_assoc a b c : combine (combine a b) c = combine a (combine b c).
Proof.
  unfold combine, into_guidance.
  destruct a as [[]|[]], b as [[]|[]], c as [[]|[]];
    repeat (case_decide; simplify_eq/=); congruence.
Qed.
