(* ===== verification/Truncate.v ===== *)
(** * The size of types ([chalk-solve/src/solve/truncate.rs])

    [needs_truncation] measures the largest outermost type of a value, counting
    the types inside it, after the variables that are bound in the table are
    replaced by their values. *)

From stdpp Require Import base list numbers.
From S2P Require Import Prelude Ir Fold FoldLaws Shift ShiftThm Ena Infer Canonicalize CanonThm Visit.
Record TySizes := mkSizes { size : nat; depth : nat; max_size : nat }.

Section Truncate.
Context {E : Type} `{EnaOps E}.

(** The visitor of [needs_truncation]; [fuel] bounds the chains of variables that
    are bound to types with variables. *)
Fixpoint TySizeVisitor (fuel : nat) (infer : InferenceTable E) : Visitor (ST TySizes) := {|
  visit_free_var := default_visit_free_var false;
  visit_free_placeholder := default_visit_free_placeholder false;
  visit_inference_var := default_visit_inference_var false;
  override_visit_ty ty outer_binder (super_visit : ST TySizes unit) := (
    n ← st_lift (normalize_ty_shallow infer ty);
    match n with
    | Some normalized_ty =>
        match fuel with
        | 0 => st_lift OutOfFuel
        | Datatypes.S fuel => visit_ty (TySizeVisitor fuel infer) normalized_ty outer_binder
        end
    | None => λ self,
        let size1 := self.(size) + 1 in
        '(_, self) ← super_visit (mkSizes size1 (self.(depth) + 1) (max size1 self.(max_size)));
        let depth1 := self.(depth) - 1 in
        Val (tt, mkSizes (if depth1 =? 0 then 0 else self.(size)) depth1 self.(max_size))
    end : ST TySizes unit);
  override_visit_const := default_visit_const;
  override_visit_where := default_visit_where;
  override_visit_domain_goal := default_visit_domain_goal
|}.

Definition needs_truncation {T} `{Visit T} (fuel : nat) (infer : InferenceTable E)
    (max_size1 : nat) (value : T) : Fallible bool :=
  '(_, visitor) ← visit_with (TySizeVisitor fuel infer) value INNERMOST (mkSizes 0 0 0);
  Val (max_size1 <? visitor.(max_size)).
End Truncate.

(** * The measure is exact *)

Section Nodes.
Context (μ : InferenceVar → nat).

Fixpoint nodes (t : Ty) : nat :=
  match t with
  | TyInferenceVar v _ => μ v
  | TyAdt _ s | TyAssociatedType _ s | TyTuple _ s | TyOpaqueType _ s | TyFnDef _ s
  | TyClosure _ s | TyGenerator _ s | TyGeneratorWitness _ s | TyFunction _ _ s =>
      S (sum_list_with nodes_arg s)
  | TyArray t _ | TySlice t | TyRaw _ t | TyRef _ _ t => S (nodes t)
  | TyDyn bs _ => S (sum_list_with (λ b : QuantifiedWhereClause, nodes_where b.(value)) bs.(value))
  | TyAlias a => S (nodes_alias a)
  | TyBoundVar _ | TyPlaceholder _ | TyScalar _ | TyStr | TyNever | TyForeign _ | TyError => 1
  end
with nodes_arg (a : GenericArg) : nat := match a with ArgTy t => nodes t | _ => 0 end
with nodes_alias (a : AliasTy) : nat :=
  match a with AliasProjection _ s | AliasOpaque _ s => sum_list_with nodes_arg s end
with nodes_where (w : WhereClause) : nat :=
  match w with
  | WcImplemented tr => sum_list_with nodes_arg tr.(substitution)
  | WcAliasEq a t => nodes_alias a + nodes t
  | WcLifetimeOutlives _ _ => 0
  | WcTypeOutlives t _ => nodes t
  end.
End Nodes.

(** ** The outermost types *)

Definition outer_arg (a : GenericArg) : list Ty := match a with ArgTy t => [t] | _ => [] end.
Definition outer_alias (a : AliasTy) : list Ty :=
  match a with AliasProjection _ s | AliasOpaque _ s => s ≫= outer_arg end.
Definition outer_where (w : WhereClause) : list Ty :=
  match w with
  | WcImplemented tr => tr.(substitution) ≫= outer_arg
  | WcAliasEq a t => outer_alias a ++ [t]
  | WcLifetimeOutlives _ _ => []
  | WcTypeOutlives t _ => [t]
  end.
Definition outer_domain_goal (dg : DomainGoal) : list Ty :=
  match dg with
  | DgHolds w => outer_where w
  | DgWellFormed (WfTrait tr) | DgFromEnv (FeTrait tr) | DgLocalImplAllowed tr =>
      tr.(substitution) ≫= outer_arg
  | DgWellFormed (WfTy t) | DgFromEnv (FeTy t) | DgIsLocal t | DgIsUpstream t
  | DgIsFullyVisible t | DgDownstreamType t => [t]
  | DgNormalize a t => outer_alias a ++ [t]
  | DgCompatible | DgReveal | DgObjectSafe _ => []
  end.
Definition outer_constraint (c : Constraint) : list Ty :=
  match c with CtLifetimeOutlives _ _ => [] | CtTypeOutlives t _ => [t] end.
Fixpoint outer_goal (g : Goal) : list Ty :=
  match g with
  | GQuantified _ b => outer_goal b.(value)
  | GImplies h g => (h ≫= outer_clause) ++ outer_goal g
  | GAll gs => gs ≫= outer_goal
  | GNot g => outer_goal g
  | GEqGoal a b => outer_arg a ++ outer_arg b
  | GSubtypeGoal a b => [a; b]
  | GDomainGoal dg => outer_domain_goal dg
  | GCannotProve => []
  end
with outer_clause (c : ProgramClause) : list Ty :=
  let 'mkProgramClause b := c in
  outer_domain_goal b.(value).(consequence)
    ++ (b.(value).(conditions) ≫= outer_goal)
    ++ (b.(value).(constraints) ≫= λ e : InEnvironment Constraint,
          (e.(environment) ≫= outer_clause) ++ outer_constraint e.(env_goal)).
Definition outer_in_environment (e : InEnvironment Goal) : list Ty :=
  (e.(environment) ≫= outer_clause) ++ outer_goal e.(env_goal).

(** ** The visitor *)

Section Sizes.
Context {E : Type} `{EnaLaws E} (tbl : InferenceTable E) (μ : InferenceVar → nat).
Context (rank : InferenceVar → nat) (Hacyclic : table_acyclic tbl rank).
Abbreviation probe v := (ena_probe_value tbl.(unify) v).

(** [μ] counts the values of the variables. *)
Definition counts : Prop :=
  ∀ v, μ v = match probe v with Bound (ArgTy t) => nodes μ t | _ => 1 end.

Context (Hμ : counts).
Abbreviation ranked n ls := (Forall (leaf_ranked tbl rank n) ls).

Definition bump (n : nat) (s : TySizes) : TySizes :=
  mkSizes (s.(size) + n) s.(depth) (max s.(max_size) (s.(size) + n)).

(** Inside a type. *)
Definition grows (m : ST TySizes unit) (n : nat) : Prop :=
  ∀ s, s.(size) ≤ s.(max_size) → 0 < s.(depth) → m s = Val (tt, bump n s).

(** Outside of types. *)
Definition tops (m : ST TySizes unit) (ts : list Ty) : Prop :=
  ∀ k, m (mkSizes 0 0 k) = Val (tt, mkSizes 0 0 (max k (max_list (map (nodes μ) ts)))).

Lemma grows_0 : grows (mret tt) 0.
Proof. intros [s d k] ? ?. unfold bump, mret, ST_ret. simpl in *. do 3 f_equal; lia. Qed.

Lemma grows_bind m m' n n' : grows m n → grows m' n' → grows (m ≫= λ _, m') (n + n').
Proof.
  intros Hm Hm' s Hs Hd. unfold mbind, ST_bind. rewrite Hm by done.
  rewrite Hm' by (simpl; lia). unfold bump. simpl. do 3 f_equal; lia.
Qed.

Lemma grows_iter {A} (f : A → ST TySizes unit) g l :
  Forall (λ x, grows (f x) (g x)) l → grows (visit_iter f l) (sum_list_with g l).
Proof. induction 1; simpl; [apply grows_0|by apply grows_bind]. Qed.

Lemma tops_0 : tops (mret tt) [].
Proof. intros k. simpl. unfold mret, ST_ret. by rewrite Nat.max_0_r. Qed.

Lemma tops_bind m m' ts ts' : tops m ts → tops m' ts' → tops (m ≫= λ _, m') (ts ++ ts').
Proof.
  intros Hm Hm' k. unfold mbind, ST_bind. rewrite Hm, Hm', map_app.
  assert (∀ l k, max_list (l ++ k) = max (max_list l) (max_list k)) as Happ
    by (intros l; induction l as [|x l IH]; intros l'; simpl; [done|]; rewrite IH; lia).
  rewrite Happ. do 3 f_equal. lia.
Qed.

Lemma tops_iter {A} (f : A → ST TySizes unit) g l :
  Forall (λ x, tops (f x) (g x)) l → tops (visit_iter f l) (l ≫= g).
Proof. induction 1; simpl; [apply tops_0|by apply tops_bind]. Qed.

Section Fuel.
Context (n : nat).
Abbreviation V := (TySizeVisitor n tbl).

(** What a visit of a type does, inside and outside of types. *)
Definition sized (m : ST TySizes unit) (t : Ty) : Prop := grows m (nodes μ t) ∧ tops m [t].

Lemma leaf_calls :
  (∀ bv d, visit_var V bv d = mret tt) ∧ (∀ l d, visit_lifetime V l d = mret tt) ∧
  (∀ c d, visit_const V c d = mret tt).
Proof.
  assert (∀ bv d, visit_var V bv d = mret tt) as Hv.
  { intros bv d. unfold visit_var. destruct n; by destruct (shifted_out_to bv d). }
  split_and!; [done| |].
  - intros l d. destruct l; simpl; try apply Hv; by destruct n.
  - intros [t []] d; unfold visit_const, const_value; destruct n; simpl; try apply Hv; try done.
Qed.

(** A type that is not a bound variable. *)
Lemma sized_super t d m k :
  normalize_ty_shallow tbl t = Val None → nodes μ t = S k → grows m k →
  sized (V.(override_visit_ty) t d m) t.
Proof.
  intros Hn Hk Hm. assert (∀ s, V.(override_visit_ty) t d m s =
    ('(_, self) ← m (mkSizes (s.(size) + 1) (s.(depth) + 1) (max (s.(size) + 1) s.(max_size)));
     let depth1 := self.(depth) - 1 in
     Val (tt, mkSizes (if depth1 =? 0 then 0 else self.(size)) depth1 self.(max_size)))) as Heq.
  { intros s. destruct n; simpl; unfold mbind at 1, ST_bind, st_lift; rewrite Hn; done. }
  split; intros s; intros; rewrite Heq, (Hm _) by (simpl; lia); simpl; unfold bump; simpl;
    rewrite ?Nat.add_sub, ?Hk.
  - destruct (Nat.eqb_spec s.(depth) 0); [lia|]. do 3 f_equal; lia.
  - do 3 f_equal. lia.
Qed.
End Fuel.

(** The value of a variable after the two steps of [normalize_ty_shallow]. *)
Lemma normalize_ranked n v k :
  leaf_ranked tbl rank n (LeafTyInfer v k) →
  (normalize_ty_shallow tbl (TyInferenceVar v k) = Val None ∧ μ v = 1) ∨
  ∃ t, normalize_ty_shallow tbl (TyInferenceVar v k) = Val (Some t) ∧ μ v = nodes μ t ∧
    ∃ m, m < n ∧ ranked m (leaves_ty t INNERMOST).
Proof.
  assert (∀ v n, v < ena_len tbl.(unify) → rank v < n → value_is tbl is_ty_arg v →
    (probe_var tbl v = None ∧ μ v = 1) ∨
    ∃ t, probe_var tbl v = Some (ArgTy t) ∧ μ v = nodes μ t ∧ ranked (rank v) (leaves_ty t INNERMOST)) as Hstep.
  { intros w m Hw Hr Hval. unfold probe_var, value_is in *. pose proof (Hμ w) as Hc.
    destruct (probe w) as [u|[t| |]] eqn:Hp; try done; [by left|]. right. exists t.
    split_and!; [done..|]. exact (Hacyclic w _ Hw Hp). }
  intros (Hv & Hr & Hval). unfold normalize_ty_shallow, normalize_ty_shallow_inner, normalize_shallow_with.
  simpl. destruct (Hstep v n Hv Hr Hval) as [[-> ?]|(t & -> & Ht & Hl)]; [by left|right]. simpl.
  destruct t as [| | | | | | | | | | | | | | | | | | | | | |w k'];
    try (eexists; split; [done|]; split; [exact Ht|]; by exists (rank v)).
  destruct (Forall_inv Hl) as (Hw & Hrw & Hvalw). simpl.
  destruct (Hstep w (rank v) Hw Hrw Hvalw) as [[-> ?]|(t & -> & Htw & Hlw)]; simpl.
  - eexists. split; [done|]. split; [exact Ht|]. by exists (rank v).
  - exists t. split; [done|]. split; [by rewrite Ht|]. exists (rank w). split; [lia|done].
Qed.

Lemma ranked_app n l k : ranked n (l ++ k) → ranked n l ∧ ranked n k.
Proof. apply Forall_app. Qed.

Lemma ranked_bind {A} n (f : A → list Leaf) l : ranked n (l ≫= f) → Forall (λ x, ranked n (f x)) l.
Proof. induction l; simpl; [constructor|]. intros [? ?]%ranked_app. auto. Qed.

(** The visitor ignores the depth, so a value can be visited at any depth. *)
Definition visits_sized n : Prop :=
  (∀ t d d', ranked n (leaves_ty t d') → sized (visit_ty (TySizeVisitor n tbl) t d) t) ∧
  (∀ a d d', ranked n (leaves_arg a d') → grows (visit_arg (TySizeVisitor n tbl) a d) (nodes_arg μ a)) ∧
  (∀ a d d', ranked n (leaves_alias a d') → grows (visit_alias (TySizeVisitor n tbl) a d) (nodes_alias μ a)) ∧
  (∀ w d d', ranked n (leaves_where w d') → grows (visit_where (TySizeVisitor n tbl) w d) (nodes_where μ w)).

Lemma sized_var n v k d :
  (∀ m, m < n → visits_sized m) → leaf_ranked tbl rank n (LeafTyInfer v k) →
  sized (visit_ty (TySizeVisitor n tbl) (TyInferenceVar v k) d) (TyInferenceVar v k).
Proof.
  intros IHn Hr. destruct (normalize_ranked n v k Hr) as [[Hn H1]|(t & Hn & Ht & m & Hm & Hl)].
  - apply (sized_super n _ d _ 0); [done|done|]. destruct n; apply grows_0.
  - destruct n as [|n]; [lia|].
    assert (∀ s, visit_ty (TySizeVisitor (S n) tbl) (TyInferenceVar v k) d s =
      visit_ty (TySizeVisitor n tbl) t d s) as Heq.
    { intros s. cbn [visit_ty override_visit_ty TySizeVisitor]. unfold mbind at 1, ST_bind, st_lift.
      by rewrite Hn. }
    destruct (IHn n ltac:(lia)) as [Hsz _]. destruct (Hsz t d INNERMOST) as [Hg Htop].
    { eapply Forall_impl; [exact Hl|]. intros l. apply leaf_ranked_mono. lia. }
    split.
    + intros s ? ?. rewrite Heq, Hg by done. simpl. by rewrite Ht.
    + intros s. rewrite Heq, Htop. simpl. by rewrite Ht.
Qed.

Lemma visits_sized_step n : (∀ m, m < n → visits_sized m) → visits_sized n.
Proof.
  intros IHn. destruct (leaf_calls n) as (Hvar & Hlt & Hct). 
  set (V := TySizeVisitor n tbl) in *.
  assert (∀ w d m m1, V.(override_visit_where) w d m m1 = m) as Hwh by (subst V; by destruct n).
  assert (∀ t d m k, normalize_ty_shallow tbl t = Val None → nodes μ t = S k → grows m k →
    sized (V.(override_visit_ty) t d m) t) as Hsuper by apply sized_super.
  assert (∀ (s : Substitution) d d', ranked n (s ≫= λ a, leaves_arg a d') →
    Forall (λ a, ∀ d d', ranked n (leaves_arg a d') → grows (visit_arg V a d) (nodes_arg μ a)) s →
    grows (visit_iter (λ p, visit_arg V p d) s) (sum_list_with (nodes_arg μ) s)) as Hs.
  { intros s d d' Hr%ranked_bind Ha. apply grows_iter. eapply Forall_impl; [apply Forall_and; split; [exact Ha|exact Hr]|].
    simpl. intros a [Hg ?]. by eapply Hg. }
  assert (∀ m k, grows m k → grows (m ≫= λ _, mret tt) k) as Hret.
  { intros m k Hm. rewrite <- (Nat.add_0_r k). apply grows_bind; [done|apply grows_0]. }
  assert (∀ m k, grows m k → grows (mret tt ≫= λ _, m) k) as Hskip by done.
  assert (∀ p d, grows (V.(visit_free_placeholder) p d) 0) as grows_0'.
  { intros p d. subst V. destruct n; apply grows_0. }
  destruct (term_ind
    (λ t, ∀ d d', ranked n (leaves_ty t d') → sized (visit_ty V t d) t) (λ _, True)
    (λ a, ∀ d d', ranked n (leaves_arg a d') → grows (visit_arg V a d) (nodes_arg μ a))
    (λ a, ∀ d d', ranked n (leaves_alias a d') → grows (visit_alias V a d) (nodes_alias μ a))
    (λ w, ∀ d d', ranked n (leaves_where w d') → grows (visit_where V w d) (nodes_where μ w))) as (? & _ & ? & ? & ?); [|by split_and!].
  constructor; try done; intros; simpl in *; try (eapply Hsuper; [done|reflexivity|]);
    rewrite ?Hlt, ?Hct, ?Hvar, ?Hwh; try apply grows_0; try (by eapply Hs).
  - apply Hret. apply (H1 d d'). by apply ranked_app in H3 as [? ?].
  - by apply (H1 d d').
  - by apply (H1 d d').
  - apply Hskip, (H1 d d'). by apply ranked_app in H2 as [? ?].
  - apply grows_0'.
  - apply Hret, grows_iter. apply ranked_app in H2 as [H2%ranked_bind _].
    eapply Forall_impl; [apply Forall_and; split; [exact H1|exact H2]|]. simpl. intros b [Hg ?]. by eapply Hg.
  - by eapply H1.
  - by apply sized_var; [|apply Forall_inv in H1].
  - by eapply H1.
  - apply ranked_app in H3 as [? ?]. apply grows_bind; [by eapply H1|by eapply H2].
  - apply Hret, (H1 d d'). by apply ranked_app in H2 as [? ?].
Qed.

Lemma visits_sized_holds n : visits_sized n.
Proof. induction n as [n IH] using lt_wf_ind. by apply visits_sized_step. Qed.

(** *** Outside of types *)

Section Outer.
Context (n : nat).
Abbreviation V := (TySizeVisitor n tbl).

Lemma tops_ty t d d' : ranked n (leaves_ty t d') → tops (visit_ty V t d) [t].
Proof. intros Hr. by apply (proj1 (visits_sized_holds n) t d d'). Qed.

Lemma tops_arg a d d' : ranked n (leaves_arg a d') → tops (visit_arg V a d) (outer_arg a).
Proof.
  destruct (leaf_calls n) as (_ & Hlt & Hct).
  destruct a; simpl; rewrite ?Hlt, ?Hct; intros; [by eapply tops_ty|apply tops_0..].
Qed.

Lemma tops_iter_ranked {A} (f : A → ST TySizes unit) g (leaves : A → list Leaf) l :
  Forall (λ x, ranked n (leaves x) → tops (f x) (g x)) l → ranked n (l ≫= leaves) →
  tops (visit_iter f l) (l ≫= g).
Proof.
  intros Hf Hr%ranked_bind. apply tops_iter.
  eapply Forall_impl; [apply Forall_and; split; [exact Hf|exact Hr]|]. simpl. tauto.
Qed.

Lemma tops_subst (s : Substitution) d d' : ranked n (s ≫= λ a, leaves_arg a d') →
  tops (visit_iter (λ p, visit_arg V p d) s) (s ≫= outer_arg).
Proof. apply tops_iter_ranked. apply Forall_true. intros a. apply tops_arg. Qed.

Lemma tops_alias a d d' : ranked n (leaves_alias a d') → tops (visit_alias V a d) (outer_alias a).
Proof. destruct a; simpl; by apply tops_subst. Qed.

Lemma tops_skip m ts : tops m ts → tops (m ≫= λ _, mret tt) ts.
Proof. intros Hm. rewrite <- (app_nil_r ts). apply tops_bind; [done|apply tops_0]. Qed.

Lemma tops_where w d d' : ranked n (leaves_where w d') → tops (visit_where V w d) (outer_where w).
Proof.
  destruct (leaf_calls n) as (_ & Hlt & _). 
  assert (∀ m m1, V.(override_visit_where) w d m m1 = m) as Hwh by (by destruct n).
  destruct w; simpl; rewrite ?Hlt, Hwh; intros Hr.
  - by eapply tops_subst.
  - apply ranked_app in Hr as [? ?]. apply tops_bind; [by eapply tops_alias|by eapply tops_ty].
  - apply tops_skip, tops_0.
  - apply tops_skip. apply ranked_app in Hr as [? ?]. by eapply tops_ty.
Qed.

Lemma tops_domain_goal dg d d' :
  ranked n (leaves_domain_goal dg d') → tops (visit_domain_goal V dg d) (outer_domain_goal dg).
Proof.
  assert (∀ m, V.(override_visit_domain_goal) dg d m = m) as Hdg by (by destruct n).
  unfold visit_domain_goal. rewrite Hdg.
  destruct dg as [|[]|[]| | | | | | | | |]; simpl; intros Hr;
    first [by eapply tops_where|by eapply tops_ty|by eapply tops_subst|apply tops_0|idtac].
  apply ranked_app in Hr as [? ?]. apply tops_bind; [by eapply tops_alias|by eapply tops_ty].
Qed.

Lemma tops_constraint c d d' : ranked n (leaves_constraint c d') → tops (visit_constraint V c d) (outer_constraint c).
Proof.
  destruct (leaf_calls n) as (_ & Hlt & _). destruct c; simpl; rewrite ?Hlt; intros Hr; apply tops_skip.
  - apply tops_0.
  - apply ranked_app in Hr as [? ?]. by eapply tops_ty.
Qed.

Lemma tops_iter_at {A} (f : A → nat → ST TySizes unit) g (leaves : A → nat → list Leaf) l d d' :
  Forall (λ x, ∀ d d', ranked n (leaves x d') → tops (f x d) (g x)) l → ranked n (l ≫= λ x, leaves x d') →
  tops (visit_iter (λ x, f x d) l) (l ≫= g).
Proof. intros Hf. apply tops_iter_ranked. eapply Forall_impl; [exact Hf|]. simpl. eauto. Qed.

Lemma tops_goals :
  (∀ g d d', ranked n (leaves_goal g d') → tops (visit_goal V g d) (outer_goal g)) ∧
  (∀ c d d', ranked n (leaves_clause c d') → tops (visit_program_clause V c d) (outer_clause c)).
Proof.
  apply goal_ind. constructor; simpl; intros; repeat match goal with
    | H : ranked n (_ ++ _) |- _ => apply ranked_app in H as [? ?]
    end; repeat apply tops_bind; try apply tops_0;
    try (by eapply tops_arg); try (by eapply tops_domain_goal); try (by eapply (tops_iter_at (visit_goal V)));
    try (by eapply (tops_iter_at (visit_program_clause V))); eauto.
  - apply (tops_bind _ _ [a] [b]); by eapply tops_ty.
  - eapply (tops_iter_at (λ (e : InEnvironment Constraint) d,
      visit_iter (λ c, visit_program_clause V c d) e.(environment) ≫= λ _, visit_constraint V e.(env_goal) d))
      with (leaves := λ e d, (e.(environment) ≫= λ c, leaves_clause c d) ++ leaves_constraint e.(env_goal) d);
      [|eassumption].
    eapply Forall_impl; [eassumption|]. simpl. intros e He d1 d2 [Hc Hg]%ranked_app.
    apply tops_bind; [by eapply (tops_iter_at (visit_program_clause V))|by eapply tops_constraint].
Qed.
End Outer.
End Sizes.

(** ** The property *)

(** C28. [needs_truncation] is exact: on a goal in its environment, when the
    bindings of the table are acyclic and [fuel] bounds the rank of the variables,
    it returns, and answers whether some outermost type of the goal or of the
    environment has more than [max_size] nodes once the variables that are bound
    in the table are replaced by their values. *)
Theorem needs_truncation_exact {E} `{EnaLaws E} (tbl : InferenceTable E) rank μ fuel max_size
    (value : InEnvironment Goal) :
  table_acyclic tbl rank → counts tbl μ →
  Forall (leaf_ranked tbl rank fuel) (leaves_of value INNERMOST) →
  needs_truncation fuel tbl max_size value =
  Val (existsb (λ t, max_size <? nodes μ t) (outer_in_environment value)).
Proof.
  intros Ha Hμ [Hc Hg]%Forall_app. destruct (tops_goals tbl μ rank Ha Hμ fuel) as [Hgoal Hclause].
  assert (tops μ (visit_with (TySizeVisitor fuel tbl) value INNERMOST) (outer_in_environment value)) as Ht.
  { apply tops_bind; [|by eapply Hgoal].
    apply (tops_iter_at tbl μ rank fuel (visit_program_clause (TySizeVisitor fuel tbl))) with (leaves := leaves_clause) (d' := INNERMOST); [|done].
    apply Forall_true. eauto. }
  unfold needs_truncation. rewrite (Ht 0). simpl. f_equal. clear Ht.
  induction (outer_in_environment value) as [|t ts IH]; simpl; [by destruct max_size|].
  rewrite <- IH. destruct (Nat.ltb_spec max_size (nodes μ t)), (Nat.ltb_spec max_size (max_list (map (nodes μ) ts)));
    simpl; first [apply Nat.ltb_lt; lia|apply Nat.ltb_ge; lia].
Qed.

(** ** Witness: [?0 := [?1]], the goal [T0<?0, str>] has types of sizes 2 and 1 *)

Definition size_goal : InEnvironment Goal :=
  mkInEnvironment [] (GDomainGoal (DgHolds (WcImplemented
    (mkTraitRef 0 [ArgTy (TyInferenceVar 0 General); ArgTy TyStr])))).
Definition sample_counts (v : InferenceVar) : nat := match v with 0 => 2 | _ => 1 end.

Lemma needs_truncation_exact_witness :
  needs_truncation 2 sample_table 1 size_goal = Val true ∧
  needs_truncation 2 sample_table 2 size_goal = Val false ∧
  needs_truncation 2 sample_table 1 size_goal =
    Val (existsb (λ t, 1 <? nodes sample_counts t) (outer_in_environment size_goal)).
Proof.
  split; [reflexivity|]. split; [reflexivity|].
  apply (needs_truncation_exact (E:=UnionFind.t) sample_table sample_rank).
  - intros [|[|v]] a Hv Ha; vm_compute in Ha; simplify_eq. repeat constructor.
  - intros [|[|[|v]]]; reflexivity.
  - apply Forall_singleton. repeat constructor.
Defined.
