(* ===== verification/Fulfill.v ===== *)
(** * Fulfillment ([chalk-recursive/src/fulfill.rs])

    A [Fulfill] breaks a goal into obligations and solves these, by calls back to
    the solver, until the inference table learns nothing new.  The calls are the
    nodes of an [IterationOf] tree; a computation that fails drops its state.
    [fuel] bounds the depth of the goals, the rounds of the loop and the calls on
    tables and terms. *)

From stdpp Require Import base list numbers.
From S2P Require Import Prelude FixedPoint Ir Fold FoldLaws Shift Ena Infer Canonicalize Visit UCanonicalize Zip Unify Solve Truncate.

Abbreviation UCanonicalGoal := (UCanonical (InEnvironment Goal)).

(** [Fallible<Solution>] as data: [None] is [Err(NoSolution)]. *)
Abbreviation FallibleSolution := (option Solution).

Inductive Obligation :=
  | Prove (goal : InEnvironment Goal)
  | Refute (goal : InEnvironment Goal).
#[global] Instance Obligation_eq_dec : EqDecision Obligation. Proof. solve_decision. Defined.

Record PositiveSolution := mkPositiveSolution {
  pos_free_vars : list GenericArg;
  pos_universes : UniverseMap;
  pos_solution : Solution
}.

Inductive NegativeSolution := Refuted | NegAmbiguous.
#[global] Instance NegativeSolution_eq_dec : EqDecision NegativeSolution. Proof. solve_decision. Defined.

Inductive Outcome := Complete | Incomplete.
Definition is_complete (o : Outcome) : bool := match o with Complete => true | Incomplete => false end.

(** ** The computations of a [Fulfill] *)

#[global] Instance Iteration_ret K V : MRet (IterationOf K V) := λ A, IterRet.
#[global] Instance Iteration_bind K V : MBind (IterationOf K V) := λ A B f,
  fix go t :=
    match t with
    | IterRet a => f a
    | IterPanic p => IterPanic p
    | IterFuel => IterFuel
    | IterSolve tracked g k => IterSolve tracked g (λ v, go (k v))
    end.

(** A tree of calls to the solver whose leaves are results or [Err(NoSolution)]. *)
Abbreviation Calls := (IterationOf UCanonicalGoal FallibleSolution).

Definition FM (S A : Type) : Type := S → Calls (option (A * S)).
#[global] Instance FM_ret S : MRet (FM S) := λ A a s, IterRet (Some (a, s)).
#[global] Instance FM_bind S : MBind (FM S) := λ A B f m s,
  mbind (M := Calls) (λ r, match r with Some (a, s) => f a s | None => IterRet None end) (m s).

Definition calls_of {A} (m : Fallible A) : Calls (option A) :=
  match m with
  | Val a => IterRet (Some a)
  | Exn _ => IterRet None
  | Panic p => IterPanic p
  | OutOfFuel => IterFuel
  end.

(** [map] on the success of a computation. *)
Definition calls_map {A B} (f : A → B) (m : Calls (option A)) : Calls (option B) :=
  mbind (M := Calls) (λ r, IterRet (f <$> r)) m.

Section Monad.
Context {S : Type}.
Definition f_lift {A} (m : Fallible A) : FM S A := λ s, calls_map (λ a, (a, s)) (calls_of m).
Definition f_err {A} : FM S A := λ _, IterRet None.
Definition f_fuel {A} : FM S A := λ _, IterFuel.
Definition f_gets {A} (f : S → A) : FM S A := λ s, IterRet (Some (f s, s)).
Definition f_modify (f : S → S) : FM S unit := λ s, IterRet (Some (tt, f s)).
(** [solver.solve_goal(goal, minimums)]. *)
Definition f_solve (tracked : bool) (goal : UCanonicalGoal) : FM S FallibleSolution := λ s,
  IterSolve tracked goal (λ v, IterRet (Some (v, s))).
Definition for_each {A} (f : A → FM S unit) : list A → FM S unit :=
  fix go l := match l with [] => mret tt | x :: l => f x ≫= λ _, go l end.
End Monad.

(** ** [Fulfill] *)

Section Fulfill.
Context {E : Type} `{EnaOps E}.
Context (fuel : nat) (db : UnificationDatabase) (max_size : nat).
(** The order in which a hash set of constraints is iterated. *)
Context (hash_order : list (InEnvironment Constraint) → list (InEnvironment Constraint)).

Record Fulfill := mkFulfill {
  fsubst : Substitution;
  infer : InferenceTable E;
  obligations : list Obligation;
  fconstraints : list (InEnvironment Constraint);
  cannot_prove : bool
}.
Abbreviation M := (FM Fulfill).

Definition set_infer (t : InferenceTable E) (self : Fulfill) : Fulfill :=
  mkFulfill self.(fsubst) t self.(obligations) self.(fconstraints) self.(cannot_prove).
Definition set_obligations (l : list Obligation) (self : Fulfill) : Fulfill :=
  mkFulfill self.(fsubst) self.(infer) l self.(fconstraints) self.(cannot_prove).
Definition set_cannot_prove (self : Fulfill) : Fulfill :=
  mkFulfill self.(fsubst) self.(infer) self.(obligations) self.(fconstraints) true.

(** [FxHashSet::extend]. *)
Definition extend_constraints (cs : list (InEnvironment Constraint)) (self : Fulfill) : Fulfill :=
  mkFulfill self.(fsubst) self.(infer) self.(obligations)
    (fold_left (λ set c, if decide (c ∈ set) then set else set ++ [c]) cs self.(fconstraints))
    self.(cannot_prove).

(** An operation on the inference table. *)
Definition with_infer {A} (f : ST (InferenceTable E) A) : M A := λ self,
  calls_map (λ '(a, t), (a, set_infer t self)) (calls_of (f self.(infer))).

Definition push_obligation (obligation : Obligation) : M unit :=
  let goal := match obligation with Prove goal | Refute goal => goal end in
  infer ← f_gets infer;
  truncate ← f_lift (needs_truncation fuel infer max_size goal);
  if (truncate : bool) then f_modify set_cannot_prove
  else f_modify (λ self, set_obligations (self.(obligations) ++ [obligation]) self).

(** [Fulfill::unify], for the [Zip] of a type [T]. *)
Definition unify {T} (zip : Zipper (Unifier E) → Variance → T → T → SE (Unifier E) unit)
    (environment : Environment) (variance : Variance) (a b : T) : M unit :=
  goals ← (λ self : Fulfill,
    let '(r, t) := relate fuel db environment zip variance a b self.(infer) in
    calls_map (λ goals, (goals, set_infer t self)) (calls_of r) : Calls (option (_ * Fulfill)));
  for_each (λ goal, push_obligation (Prove goal)) goals.

Definition is_general_var (t : Ty) : bool :=
  match t with TyInferenceVar _ General => true | _ => false end.

Fixpoint push_goal (n : nat) (environment : Environment) (goal : Goal) : M unit :=
  match n with
  | 0 => f_fuel
  | Datatypes.S n =>
      match goal with
      | GQuantified ForAll subgoal =>
          subgoal ← with_infer (instantiate_binders_universally subgoal);
          push_goal n environment subgoal
      | GQuantified Exists subgoal =>
          subgoal ← with_infer (instantiate_binders_existentially subgoal);
          push_goal n environment subgoal
      | GImplies wc subgoal => push_goal n (environment ++ wc) subgoal
      | GAll goals => for_each (push_goal n environment) goals
      | GNot subgoal => push_obligation (Refute (mkInEnvironment environment subgoal))
      | GDomainGoal _ => push_obligation (Prove (mkInEnvironment environment goal))
      | GEqGoal a b => unify (λ Z, zip_arg Z) environment Invariant a b
      | GSubtypeGoal a b =>
          infer ← f_gets infer;
          a_norm ← f_lift (normalize_ty_shallow infer a);
          b_norm ← f_lift (normalize_ty_shallow infer b);
          let a := default a a_norm in
          let b := default b b_norm in
          if is_general_var a && is_general_var b then f_modify set_cannot_prove
          else unify (λ Z, zip_tys Z) environment Covariant a b
      | GCannotProve => f_modify set_cannot_prove
      end
  end.

Definition new (infer : InferenceTable E) (subst : Substitution) : Fulfill :=
  mkFulfill subst infer [] [] false.

Definition new_with_clause (infer : InferenceTable E) (subst : Substitution)
    (canonical_goal : InEnvironment DomainGoal) (clause : Binders ProgramClauseImplication) :
    Calls (option Fulfill) :=
  calls_map snd ((implication ← with_infer (instantiate_binders_existentially clause);
       _ ← f_modify (extend_constraints implication.(constraints));
       _ ← unify (λ Z, zip_domain_goal Z) canonical_goal.(environment) Invariant
             canonical_goal.(env_goal) implication.(consequence);
       for_each (push_goal fuel canonical_goal.(environment)) implication.(conditions) : M unit)
      (new infer subst)).

Definition new_with_simplification (infer : InferenceTable E) (subst : Substitution)
    (canonical_goal : InEnvironment Goal) : Calls (option Fulfill) :=
  calls_map snd (push_goal fuel canonical_goal.(environment) canonical_goal.(env_goal) (new infer subst)).

Definition prove (wc : InEnvironment Goal) : M PositiveSolution :=
  infer ← f_gets infer;
  c ← f_lift (canonicalize fuel wc infer);
  u ← f_lift (u_canonicalize c.(quantified));
  result ← f_solve true u.(uquantified);
  match result with
  | Some solution =>
      mret (mkPositiveSolution (param_to_generic_arg <$> c.(cfree_vars)) u.(uuniverses) solution)
  | None => f_err
  end.

(** The minimums of this call are fresh and dropped. *)
Definition refute (goal : InEnvironment Goal) : M NegativeSolution :=
  canonicalized ← with_infer (invert_then_canonicalize fuel goal);
  match canonicalized with
  | None => mret NegAmbiguous
  | Some v =>
      u ← f_lift (u_canonicalize v);
      solution ← f_solve false u.(uquantified);
      match solution with
      | Some solution => if is_unique solution then f_err else mret NegAmbiguous
      | None => mret Refuted
      end
  end.

(** [unwrap()] and [unwrap_or_else(|err| panic!(..))], which panic on [Err]. *)
Definition or_panic {A} (p : panic) (m : M A) : M A := λ self,
  mbind (M := Calls) (λ r, match r with Some r => IterRet (Some r) | None => IterPanic p end)
    (m self).

(** [for (i, free_var) in free_vars.into_iter().enumerate()]. *)
Fixpoint unify_free_vars (subst : Substitution) (i : nat) (free_vars : list GenericArg) : M unit :=
  match free_vars with
  | [] => mret tt
  | free_var :: free_vars =>
      subst_value ← f_lift (match subst !! i with Some a => Val a | None => Panic PIndex end);
      _ ← or_panic PExplicit (unify (λ Z, zip_arg Z) [] Invariant free_var subst_value);
      unify_free_vars subst (1 + i) free_vars
  end.

Definition apply_solution (free_vars : list GenericArg) (universes : UniverseMap)
    (subst : Canonical ConstrainedSubst) : M unit :=
  subst ← f_lift (map_from_canonical universes subst);
  cs ← with_infer (instantiate_canonical subst);
  _ ← f_modify (extend_constraints cs.(cconstraints));
  unify_free_vars cs.(csubst) 0 free_vars.

(** ** The loop *)

(** One obligation: whether it is ambiguous, and whether it made progress. *)
Definition solve_one (obligation : Obligation) : M (bool * bool) :=
  match obligation with
  | Prove wc =>
      p ← prove wc;
      progress ←
        match definite_subst p.(pos_solution) with
        | Some constrained_subst =>
            if bool_decide (constrained_subst.(cvalue).(csubst) ≠ [] ∨
                constrained_subst.(cvalue).(cconstraints) ≠ [])
            then _ ← apply_solution p.(pos_free_vars) p.(pos_universes) constrained_subst; mret true
            else mret false
        | None => mret false
        end;
      mret (is_ambig p.(pos_solution), progress)
  | Refute goal =>
      answer ← refute goal;
      mret (bool_decide (answer = NegAmbiguous), false)
  end.

(** [self.obligations.pop()]. *)
Definition pop_obligation : M (option Obligation) := λ self,
  IterRet (Some (last self.(obligations), set_obligations (removelast self.(obligations)) self)).

(** [while let Some(obligation) = self.obligations.pop()]. *)
Fixpoint round (n : nat) (ambiguous : list Obligation) (progress : bool) :
    M (list Obligation * bool) :=
  match n with
  | 0 => f_fuel
  | Datatypes.S n =>
      obligation ← pop_obligation;
      match obligation with
      | None => mret (ambiguous, progress)
      | Some obligation =>
          '(is_ambiguous, progressed) ← solve_one obligation;
          round n (if is_ambiguous : bool then ambiguous ++ [obligation] else ambiguous)
            (progress || progressed)
      end
  end.

(** [while progress]. *)
Fixpoint fulfill (n : nat) : M Outcome :=
  match n with
  | 0 => f_fuel
  | Datatypes.S n =>
      '(ambiguous, progress) ← round fuel [] false;
      _ ← f_modify (λ self, set_obligations (self.(obligations) ++ ambiguous) self);
      if progress : bool then fulfill n
      else
        left ← f_gets obligations;
        mret (match left with [] => Complete | _ :: _ => Incomplete end)
  end.

(** ** The solution *)

(** The last pass over the obligations, for suggestions. *)
Fixpoint suggest (n : nat) (canonical_subst : Canonical Substitution) : M Solution :=
  match n with
  | 0 => f_fuel
  | Datatypes.S n =>
      obligation ← pop_obligation;
      match obligation with
      | None => mret (Ambig Unknown)
      | Some (Prove goal) =>
          p ← or_panic PUnwrap (prove goal);
          match constrained_subst p.(pos_solution) with
          | Some constrained_subst =>
              _ ← apply_solution p.(pos_free_vars) p.(pos_universes) constrained_subst;
              mret (Ambig (Suggested canonical_subst))
          | None => suggest n canonical_subst
          end
      | Some (Refute _) => suggest n canonical_subst
      end
  end.

Definition solve_with : M Solution :=
  outcome ← fulfill fuel;
  cannot ← f_gets cannot_prove;
  if cannot : bool then mret (Ambig Unknown)
  else
    infer ← f_gets infer;
    subst ← f_gets fsubst;
    if is_complete outcome then
      constraints ← f_gets (λ self, hash_order self.(fconstraints));
      c ← f_lift (canonicalize fuel (mkConstrainedSubst subst constraints) infer);
      mret (Unique c.(quantified))
    else
      c ← f_lift (canonicalize fuel subst infer);
      if is_identity_subst c.(quantified).(cvalue) then suggest fuel c.(quantified)
      else mret (Ambig (Definite c.(quantified))).

Definition solve (self : Fulfill) : Calls FallibleSolution :=
  calls_map fst (solve_with self).
End Fulfill.
#[global] Arguments Fulfill E : clear implicits.
