(* ===== verification/FixedPointSafe.v ===== *)
(** Answers of the engine that satisfy a specification: if a relation [P] holds of
    the initial and the error answers and every iteration keeps it, then it holds
    of everything that [solve_goal] returns or caches, with or without cycles,
    errors and a cache, and whatever the order in which goals are asked. *)

From S2P Require Import Prelude RecStack SearchGraph FixedPoint FixedPointInv.

Import FixedPoint.

(** What an iteration returns if its calls are answered according to [P]. *)
Fixpoint returns_if {K V A} (P : K → V → Prop) (Q : A → Prop) (t : IterationOf K V A) : Prop :=
  match t with
  | IterRet a => Q a
  | IterPanic _ | IterFuel => True
  | IterSolve _ g k => ∀ v, P g v → returns_if P Q (k v)
  end.

Section Safe.
Context {K V : Type} `{Countable K} `{SolverStuff K V}.
Context (P : K → V → Prop).

(** The answers that the program supplies keep the specification. *)
Record Keeps : Prop := {
  keeps_initial g : P g (initial_value g (is_coinductive_goal g));
  keeps_error g : P g error_value;
  keeps_iteration g : returns_if P (P g) (solve_iteration g)
}.

Abbreviation ctx := (RecursiveContext K V).
Abbreviation goals c := (SearchGraph.goal <$> ns (K := K) (V := V) c).

(** Every answer of the context keeps the specification. *)
Record Good (c : ctx) : Prop := {
  good_graph : SearchGraph.wf (search_graph c);
  good_nodes : Forall (λ n, P (SearchGraph.goal n) (SearchGraph.solution n)) (ns c);
  good_cache : map_Forall P (cmap c)
}.

Context (HP : Keeps).

Definition call_ok (call : outcome Empty_set (V * Minimums * ctx)) (g : K) (c : ctx) : Prop :=
  ∀ v m c', call = Val (v, m, c') → P g v ∧ Good c' ∧ goals c `prefix_of` goals c'.

Lemma run_iteration_good solve Q t m c v m' c' :
  (∀ g m c, Good c → call_ok (solve g m c) g c) →
  returns_if P Q t → Good c → run_iteration solve t m c = Val (v, m', c') →
  Q v ∧ Good c' ∧ goals c `prefix_of` goals c'.
Proof.
  intros Hs. revert m c. induction t as [a| | |b g k IH]; intros m c Ht Hc Hr; simpl in *; try done.
  - by simplify_eq.
  - inv_outcome Hr. destruct x as [[x mx] cx].
    destruct (Hs _ _ _ Hc _ _ _ Hx) as (HPx & Hcx & Hle).
    destruct (IH _ _ _ (Ht _ HPx) Hcx Hr) as (? & ? & ?). split_and!; [done..|]. by etrans.
Qed.

Lemma good_with_stack c s : Good c → Good (with_stack c s).
Proof. by intros []. Qed.

(** The node at an index, updated through [IndexMut]. *)
Lemma good_index_mut c dfn f (graph : SearchGraph.SearchGraph K V) :
  Good c →
  (∀ n, ns c !! N.to_nat dfn = Some n →
    SearchGraph.goal (f n) = SearchGraph.goal n ∧ P (SearchGraph.goal n) (SearchGraph.solution (f n))) →
  SearchGraph.index_mut (E := Empty_set) (search_graph c) dfn f = Val graph →
  Good (with_graph c graph) ∧ goals (with_graph c graph) = goals c.
Proof.
  intros [Hg Hn Hc] Hf Hi. unfold SearchGraph.index_mut in Hi. inv_outcome Hi.
  destruct Hx0 as [-> _]. subst graph. destruct (Hf _ Hx) as [Hgoal HPf]. split; [split|].
  - by eapply SearchGraph.update_wf.
  - apply Forall_insert; [done|]. simpl. by rewrite Hgoal.
  - done.
  - unfold ns. simpl. rewrite list_fmap_insert, Hgoal. apply list_insert_id.
    unfold ns in Hx. by rewrite list_lookup_fmap, Hx.
Qed.

Lemma good_rollback c dfn : Good c → Good (with_graph c (SearchGraph.rollback_to (search_graph c) dfn)).
Proof.
  intros [Hg Hn Hc]. split; [by apply SearchGraph.rollback_wf| |done].
  by apply Forall_take.
Qed.

Lemma goals_rollback c dfn :
  goals (with_graph c (SearchGraph.rollback_to (search_graph c) dfn)) = take (N.to_nat dfn) (goals c).
Proof. unfold ns. simpl. by rewrite fmap_take. Qed.

Lemma cached_good (l : list (SearchGraph.Node K V)) (m : gmap K V) :
  Forall (λ n, P (SearchGraph.goal n) (SearchGraph.solution n)) l → map_Forall P m →
  map_Forall P (foldl (λ c n, <[SearchGraph.goal n := SearchGraph.solution n]> c) m l).
Proof.
  intros Hl. revert m. induction Hl as [|n l Hn _ IH]; intros m Hm; simpl; [done|].
  apply IH. by apply map_Forall_insert_2.
Qed.

Lemma good_move_to_cache c dfn graph (cache0 cache1 : gmap K V) :
  Good c → cache c = Some cache0 →
  SearchGraph.move_to_cache (E := Empty_set) (search_graph c) dfn cache0 = Val (graph, cache1) →
  Good (with_cache (with_graph c graph) (Some cache1)) ∧
  goals (with_cache (with_graph c graph) (Some cache1)) = take (N.to_nat dfn) (goals c).
Proof.
  intros [Hg Hn Hc] Hcache Hm. unfold SearchGraph.move_to_cache in Hm. inv_outcome Hm.
  destruct Hx as [-> _]. simplify_eq.
  apply SearchGraph.cache_nodes_Val in Hx0 as [_ ->]. split; [split|].
  - by apply SearchGraph.retain_wf.
  - by apply Forall_take.
  - unfold cmap in *. rewrite Hcache in Hc. apply cached_good; [by apply Forall_drop|done].
  - unfold ns. simpl. by rewrite fmap_take.
Qed.
(** ** The engine *)

Definition goal_good fuel : Prop := ∀ g m c, Good c → call_ok (solve_goal fuel g m c) g c.
Definition loop_good fuel : Prop := ∀ g depth dfn c m c',
  Good c → goals c !! N.to_nat dfn = Some g →
  solve_new_subgoal fuel g depth dfn c = Val (m, c') →
  Good c' ∧ take (S (N.to_nat dfn)) (goals c) `prefix_of` goals c'.

Lemma goals_lookup c i g : goals c !! i = Some g ↔ ∃ n, ns c !! i = Some n ∧ SearchGraph.goal n = g.
Proof. rewrite list_lookup_fmap_Some. naive_solver. Qed.

Lemma prefix_take_le {A} (l l' : list A) n : l `prefix_of` l' → take n l `prefix_of` l'.
Proof. intros. etrans; [apply prefix_take|done]. Qed.

Lemma loop_good_step fuel : goal_good fuel → loop_good fuel → loop_good (S fuel).
Proof.
  intros Hgoal Hloop g depth dfn c m c' Hc Hg Hr. simpl in Hr. inv_outcome Hr.
  destruct x as [[v m0] c1].
  destruct (run_iteration_good _ (P g) _ _ _ _ _ _ Hgoal (keeps_iteration HP g) Hc Hx) as (HPv & Hc1 & Hle).
  inv_outcome Hr. destruct x as [b stack']. inv_outcome Hr.
  apply (good_index_mut (with_stack c1 stack')) in Hx2 as [Hc2 Hgoals]; [|by apply good_with_stack|].
  2: { intros n Hn. split; [done|]. simpl. replace (SearchGraph.goal n) with g; [done|].
    assert (goals c1 !! N.to_nat dfn = Some g) as Hg1 by by eapply prefix_lookup_Some.
    apply goals_lookup in Hg1 as (n' & Hn' & <-). unfold ns in *. simpl in Hn. congruence. }
  set (c2 := with_graph (with_stack c1 stack') x0) in *.
  assert (take (S (N.to_nat dfn)) (goals c) `prefix_of` goals c2) as Hle2.
  { rewrite Hgoals. by apply prefix_take_le. }
  destruct b; simpl in Hr; [|by simplify_eq]. case_match; [by simplify_eq|].
  assert (N.to_nat (DepthFirstNumber_add dfn 1) = S (N.to_nat dfn)) as Hd
    by (unfold DepthFirstNumber_add; lia).
  assert (take (S (N.to_nat dfn)) (goals c) `prefix_of` take (S (N.to_nat dfn)) (goals c2)) as Hle3.
  { destruct Hle2 as [k Hk]. rewrite Hk. rewrite take_app, take_take, Nat.min_id.
    by apply prefix_app_r. }
  eapply Hloop in Hr as [? Hp].
  - split; [done|]. etrans; [|exact Hp]. rewrite goals_rollback, Hd, take_take, Nat.min_id. done.
  - by apply good_rollback.
  - rewrite goals_rollback, Hd. eapply prefix_lookup_Some; [|exact Hle3].
    rewrite lookup_take_lt by lia. done.
Qed.

Lemma good_node c dfn n g :
  Good c → ns c !! N.to_nat dfn = Some n → goals c !! N.to_nat dfn = Some g →
  P g (SearchGraph.solution n).
Proof.
  intros Hc Hn Hg. apply goals_lookup in Hg as (n' & Hn' & <-). simplify_eq.
  pose proof (good_nodes _ Hc) as HF. by eapply Forall_lookup_1 in HF.
Qed.

Lemma solve_in_graph_good dfn g m c :
  Good c → SearchGraph.lookup (search_graph c) g = Some dfn → call_ok (solve_in_graph dfn m c) g c.
Proof.
  intros Hc Hl v m' c' Hr. unfold solve_in_graph in Hr. inv_outcome Hr.
  apply SearchGraph.lookup_Some_wf in Hl as (n & Hn & Hg); [|apply Hc].
  inv_outcome Hr. destruct x0 as [mixed c1].
  assert (Good c1 ∧ search_graph c1 = search_graph c) as [Hc1 Hsame].
  { destruct (SearchGraph.stack_depth x); inv_outcome Hx0; simplify_eq; by destruct Hc. }
  assert (goals c1 = goals c) as Hgoals by (unfold ns; by rewrite Hsame).
  destruct mixed; [simplify_eq; rewrite Hgoals; split_and!; [apply (keeps_error HP)|by destruct Hc1|done]|].
  inv_outcome Hr. simplify_eq. rewrite Hgoals. split_and!; [|done..].
  apply vec_get_Val in Hx1. eapply good_node; [done|exact Hx1|]. rewrite Hgoals. apply goals_lookup. eauto.
Qed.

Lemma finish_subgoal_good g dfn depth sm m c0 c :
  Good c → goals c0 ++ [g] `prefix_of` goals c → N.to_nat dfn = length (goals c0) →
  ∀ v m' c', finish_subgoal dfn depth sm m c = Val (v, m', c') →
  P g v ∧ Good c' ∧ goals c0 `prefix_of` goals c'.
Proof.
  intros Hc Hle Hdfn v m' c' Hr. unfold finish_subgoal in Hr. inv_outcome Hr.
  apply good_index_mut in Hx as [Hc1 Hgoals1]; [|done|].
  2: { intros n Hn. split; [done|]. simpl. pose proof (good_nodes _ Hc) as HF. by eapply Forall_lookup_1 in HF. }
  inv_outcome Hr. apply vec_get_Val in Hx1.
  set (c1 := with_graph (with_stack c x0) x) in *.
  assert (Good c1) as Hc1' by (by destruct Hc1).
  assert (goals c1 = goals c) as Hgoals by exact Hgoals1.
  assert (P g (SearchGraph.solution x1)) as HPg.
  { eapply (good_node c1); [done|exact Hx1|]. rewrite Hgoals.
    eapply prefix_lookup_Some; [|exact Hle]. by rewrite Hdfn, list_lookup_middle. }
  assert (goals c0 = take (N.to_nat dfn) (goals c1)) as Htake.
  { rewrite Hgoals. destruct Hle as [k ->]. rewrite Hdfn, <-app_assoc, take_app_length. done. }
  case_match; [case_match|].
  - inv_outcome Hr. destruct x2 as [graph m2]. simplify_eq/=.
    apply (good_move_to_cache c1) in Hx as [Hc2 Hgoals2]; [|done..].
    split_and!; [done|done|]. rewrite Hgoals2, <-Htake. done.
  - simplify_eq. split_and!; [done|by apply good_rollback|]. by rewrite goals_rollback, <-Htake.
  - simplify_eq. split_and!; [done..|]. rewrite Hgoals. etrans; [|exact Hle]. by apply prefix_app_r.
Qed.

Lemma goal_good_step fuel : loop_good fuel → goal_good (S fuel).
Proof.
  intros Hloop g m c Hc v m' c' Hr. simpl in Hr.
  destruct (cache c ≫= λ c, Cache.get c g) as [x|] eqn:Hcache.
  { simplify_eq. split_and!; [|done..]. apply bind_Some in Hcache as (c0 & Hc0 & Hx).
    pose proof (good_cache _ Hc) as HF. unfold cmap in HF. rewrite Hc0 in HF. by apply HF in Hx. }
  destruct (SearchGraph.lookup (search_graph c) g) as [dfn|] eqn:Hl.
  { by eapply solve_in_graph_good. }
  inv_outcome Hr. destruct x as [depth stack']. inv_outcome Hr. destruct x as [dfn graph].
  inv_outcome Hr. destruct x as [sm c1].
  apply SearchGraph.insert_Val in Hx0 as (-> & _ & _ & ->).
  set (c0 := with_graph _ _) in Hx1.
  assert (goals c0 = goals c ++ [g]) as Hgoals by (unfold ns; simpl; by rewrite fmap_app).
  assert (N.to_nat (vec_len (SearchGraph.nodes (search_graph c))) = length (goals c)) as Hlen.
  { rewrite length_fmap, to_nat_vec_len. done. }
  apply Hloop in Hx1 as [Hc1 Hle].
  - eapply finish_subgoal_good in Hr; [done|done| |done].
    rewrite Hgoals, Hlen, take_ge in Hle by (rewrite length_app; simpl; lia). done.
  - split; simpl; [by apply SearchGraph.push_wf; [apply Hc|]| |apply Hc].
    unfold ns. simpl. apply Forall_app. split; [apply Hc|]. constructor; [|done]. apply HP.
  - by rewrite Hgoals, Hlen, list_lookup_middle.
Qed.

Lemma engine_good fuel : goal_good fuel ∧ loop_good fuel.
Proof.
  induction fuel as [|fuel [IHg IHl]]; [by split|]. split.
  - by apply goal_good_step.
  - by apply loop_good_step.
Qed.

Lemma solve_root_goal_good fuel g c v c' :
  Good c → solve_root_goal fuel g c = Val (v, c') → P g v ∧ Good c'.
Proof.
  intros Hc Hr. unfold solve_root_goal in Hr. inv_outcome Hr. destruct x0 as [[v' m'] c1].
  simplify_eq. destruct (engine_good fuel) as [Hg _].
  destruct (Hg _ _ _ Hc _ _ _ Hx0) as (? & ? & _). done.
Qed.
End Safe.
