(* ===== verification/RecSolve.v ===== *)
(** * The recursive solver ([chalk-recursive/src/solve.rs], [recursive.rs])

    One iteration of a goal: simplification, or resolution with the clauses that
    could match.  [RecursiveSolver] plugs the iteration into the fixed-point
    engine of [FixedPoint.v].  The clauses that the program gives for a goal are
    an argument ([clauses_for]: [program_clauses_that_could_match]). *)

From stdpp Require Import base list numbers.
From S2P Require Import Prelude FixedPoint Ir IrCountable Fold FoldLaws Shift Ena Infer Zip RustIr Solve Fulfill.

(** [Err(Floundered)]. *)
Inductive Floundered := mkFloundered.
#[global] Instance Floundered_eq_dec : EqDecision Floundered. Proof. solve_decision. Defined.

Abbreviation UCanonicalDomainGoal := (UCanonical (InEnvironment DomainGoal)).

(** [IsCoinductive for Goal]. *)
Fixpoint goal_is_coinductive (db : RustIrDatabase) (self : Goal) : bool :=
  match self with
  | GDomainGoal (DgHolds (WcImplemented tr)) =>
      is_auto_trait (db.(trait_datum) tr.(trait_id)) || is_coinductive_trait (db.(trait_datum) tr.(trait_id))
  | GDomainGoal (DgWellFormed (WfTrait _)) => true
  | GQuantified ForAll goal => goal_is_coinductive db goal.(value)
  | _ => false
  end.

(** [UCanonical::trivial_substitution]. *)
Definition trivial_substitution {T} (self : UCanonical T) : Substitution :=
  imap (λ index pk, to_bound_variable pk.(kind) (mkBoundVar INNERMOST index))
    self.(canonical).(cbinders).

Section RecSolve.
Context {E : Type} `{EnaOps E}.
Context (fuel : nat) (db : RustIrDatabase) (max_size : nat).
Context (hash_order : list (InEnvironment Constraint) → list (InEnvironment Constraint)).
Context (clauses_for : UCanonicalDomainGoal → outcome Floundered ProgramClauses).

Definition solve_via_simplification (canonical_goal : UCanonicalGoal) : Calls FallibleSolution :=
  let c := canonical_goal.(canonical) in
  mbind (M := Calls) (λ r, match r with
    | Some (infer, subst, goal) =>
        mbind (M := Calls) (λ r, match r with
          | Some fulfill => Fulfill.solve fuel db.(unification_database) max_size hash_order fulfill
          | None => IterRet None end)
        (new_with_simplification (E := E) fuel db.(unification_database) max_size infer subst goal)
    | None => IterRet None end)
  (calls_of (from_canonical canonical_goal.(universes) c)).

(** [clauses.filter(could_match)]. *)
Fixpoint filter_could_match (goal : DomainGoal) (clauses : ProgramClauses) : Fallible ProgramClauses :=
  match clauses with
  | [] => Val []
  | c :: clauses =>
      b ← clause_could_match db.(unification_database) fuel c goal;
      clauses ← filter_could_match goal clauses;
      Val (if b : bool then c :: clauses else clauses)
  end.

(** The attempt with one clause: its solution and its priority. *)
Definition solve_clause (infer : InferenceTable E) (subst : Substitution)
    (goal : InEnvironment DomainGoal) (program_clause : ProgramClause) :
    Calls (option (Solution * ClausePriority)) :=
  let implication := clause_data program_clause in
  mbind (M := Calls) (λ r, match r with
    | Some fulfill =>
        calls_map (λ solution, (solution, implication.(value).(priority)))
          (Fulfill.solve fuel db.(unification_database) max_size hash_order fulfill)
    | None => IterRet None
    end)
  (new_with_clause fuel db.(unification_database) max_size infer subst goal implication).

(** The loop over the clauses, given the attempt with one of them. *)
Fixpoint try_clauses (attempt : ProgramClause → Calls (option (Solution * ClausePriority)))
    (domain_goal : DomainGoal) (clauses : ProgramClauses)
    (cur_solution : option (Solution * ClausePriority)) : Calls FallibleSolution :=
  match clauses with
  | [] => IterRet (fst <$> cur_solution)
  | program_clause :: clauses =>
      if decide (cur_solution = Some (Ambig Unknown, High)) then IterRet (Some (Ambig Unknown))
      else
        mbind (M := Calls) (λ res, match res with
          | Some (solution, priority) =>
              match cur_solution with
              | None => try_clauses attempt domain_goal clauses (Some (solution, priority))
              | Some (cur, cur_priority) =>
                  mbind (M := Calls) (try_clauses attempt domain_goal clauses)
                    (calls_of (with_priorities domain_goal cur cur_priority solution priority))
              end
          | None => try_clauses attempt domain_goal clauses cur_solution
          end)
        (attempt program_clause)
  end.

(** The clauses of the program for a goal, [None] if it flounders. *)
Definition goal_clauses (canonical_goal : UCanonicalDomainGoal) : Fallible (option ProgramClauses) :=
  let goal := canonical_goal.(canonical).(cvalue).(env_goal) in
  custom ← filter_could_match goal db.(custom_clauses);
  match clauses_for canonical_goal with
  | Val clauses => clauses ← filter_could_match goal clauses; Val (Some (custom ++ clauses))
  | Exn mkFloundered => Val None
  | Panic p => Panic p
  | OutOfFuel => OutOfFuel
  end.

Definition solve_from_clauses (canonical_goal : UCanonicalDomainGoal) : Calls FallibleSolution :=
  let domain_goal := canonical_goal.(canonical).(cvalue).(env_goal) in
  mbind (M := Calls) (λ r, match r with
    | None => IterRet None
    | Some None => IterRet (Some (Ambig Unknown))
    | Some (Some clauses) =>
        mbind (M := Calls) (λ r, match r with
          | Some (infer, subst, goal) =>
              mbind (M := Calls) (λ r, match r with
                | Some env_clauses =>
                    try_clauses (solve_clause infer subst goal) domain_goal (clauses ++ env_clauses) None
                | None => IterRet None
                end)
              (calls_of (db.(program_clauses_for_env) goal.(environment) ≫= filter_could_match domain_goal))
          | None => IterRet None
          end)
        (calls_of (from_canonical canonical_goal.(universes) canonical_goal.(canonical)))
    end)
  (calls_of (goal_clauses canonical_goal)).

Definition solve_iteration (canonical_goal : UCanonicalGoal) : Calls FallibleSolution :=
  let 'mkUCanonical (mkCanonical (mkInEnvironment environment goal) binders) universes := canonical_goal in
  match goal with
  | GDomainGoal domain_goal =>
      solve_from_clauses (mkUCanonical (mkCanonical (mkInEnvironment environment domain_goal) binders) universes)
  | _ => solve_via_simplification canonical_goal
  end.

(** ** [impl SolverStuff for &dyn RustIrDatabase] *)

Definition initial_value (goal : UCanonicalGoal) (coinductive_goal : bool) : FallibleSolution :=
  if coinductive_goal then
    Some (Unique (mkCanonical (mkConstrainedSubst (trivial_substitution goal) [])
                    goal.(canonical).(cbinders)))
  else None.

Definition reached_fixed_point (old_answer current_answer : FallibleSolution) : bool :=
  bool_decide (old_answer = current_answer)
  || match current_answer with Some s => is_ambig s | None => false end.

Definition recursive_stuff : SolverStuff UCanonicalGoal FallibleSolution := {|
  FixedPoint.is_coinductive_goal g := goal_is_coinductive db g.(canonical).(cvalue).(env_goal);
  FixedPoint.initial_value := initial_value;
  FixedPoint.solve_iteration := solve_iteration;
  FixedPoint.reached_fixed_point := reached_fixed_point;
  FixedPoint.error_value := None
|}.

End RecSolve.

(** [Solver::solve] and [Solver::solve_limited] of [RecursiveSolver]; [turns] is the
    fuel of the engine. *)
Definition recursive_solve {E} `{EnaOps E} (fuel : nat) (db : RustIrDatabase)
    (hash_order : list (InEnvironment Constraint) → list (InEnvironment Constraint))
    (clauses_for : UCanonicalDomainGoal → outcome Floundered ProgramClauses) (turns : nat)
    (goal : UCanonicalGoal) (ctx : FixedPoint.RecursiveContext UCanonicalGoal FallibleSolution) :
    outcome Empty_set (option Solution * FixedPoint.RecursiveContext UCanonicalGoal FallibleSolution) :=
  FixedPoint.solve_root_goal
    (H0 := recursive_stuff (E := E) fuel db (N.to_nat (FixedPoint.max_size ctx)) hash_order clauses_for)
    turns goal ctx.
