(* ===== verification/RecSolveThm.v ===== *)
(** * Answers of the recursive solver are well kinded

    Every substitution in an answer of [RecursiveSolver::solve] has one argument
    for each variable of the canonical goal, of the variable's kind: this is what
    [Fulfill::apply_solution] relies on when it indexes the substitution of an
    answer by the free variables of the goal that it asked. *)

From stdpp Require Import base list numbers.
From S2P Require Import Prelude SearchGraph FixedPoint FixedPointInv FixedPointSafe Ir IrCountable Fold FoldLaws Shift Ena Infer Canonicalize Visit UCanonicalize Zip Unify RustIr Solve Fulfill RecSolve.

(** ** Postconditions of trees of calls *)

Section Trees.
Context {K V : Type} (P : K → V → Prop).

Lemma returns_if_mono {A} (Q Q' : A → Prop) (t : IterationOf K V A) :
  (∀ a, Q a → Q' a) → returns_if P Q t → returns_if P Q' t.
Proof. intros HQ. induction t as [a| | |b g k IH]; simpl; auto. Qed.

Lemma returns_if_bind {A B} (Q : A → Prop) (Q' : B → Prop) (t : IterationOf K V A) f :
  returns_if P Q t → (∀ a, Q a → returns_if P Q' (f a)) →
  returns_if P Q' (mbind (M := IterationOf K V) f t).
Proof. intros Ht Hf. induction t as [a| | |b g k IH]; simpl in *; [by apply Hf|done..|]. intros v Hv. apply IH; auto. Qed.

Lemma returns_if_true {A} (t : IterationOf K V A) : returns_if P (λ _, True) t.
Proof. induction t; simpl; auto. Qed.
End Trees.

(** A condition on the successes of a computation that may return [Err]. *)
Definition on_ok {A} (Q : A → Prop) (r : option A) : Prop := ∀ a, r = Some a → Q a.

Section Calls.
Context (P : UCanonicalGoal → FallibleSolution → Prop).

Lemma calls_of_spec {A} (m : Fallible A) (Q : A → Prop) :
  (∀ a, m = Val a → Q a) → returns_if P (on_ok Q) (calls_of m).
Proof. intros HQ. destruct m; simpl; [|done..]. intros b [= <-]. by apply HQ. Qed.

Lemma calls_map_spec {A B} (f : A → B) (m : Calls (option A)) (Q : B → Prop) :
  returns_if P (on_ok (λ a, Q (f a))) m → returns_if P (on_ok Q) (calls_map f m).
Proof.
  intros Hm. eapply returns_if_bind; [exact Hm|]. intros r Hr b Hb. simpl in *.
  destruct r as [a|]; simplify_eq/=. by apply Hr.
Qed.

(** The bind of [Calls] on the successes. *)
Lemma calls_bind_spec {A B} (m : Calls (option A)) (f : option A → Calls (option B)) (Q : A → Prop) Q' :
  returns_if P (on_ok Q) m → (∀ a, Q a → returns_if P (on_ok Q') (f (Some a))) →
  returns_if P (on_ok Q') (f None) →
  returns_if P (on_ok Q') (mbind (M := Calls) f m).
Proof.
  intros Hm Hf Hn. eapply returns_if_bind; [exact Hm|]. intros [a|] Hr; [|done]. apply Hf. by apply Hr.
Qed.
End Calls.

(** ** Triples for computations of a [Fulfill] *)

Section Triples.
Context (P : UCanonicalGoal → FallibleSolution → Prop) {S : Type}.

Definition triple {A} (I : S → Prop) (m : FM S A) (Q : A → S → Prop) : Prop :=
  ∀ s, I s → returns_if P (on_ok (λ r, Q r.1 r.2)) (m s).

Lemma triple_ret {A} (a : A) (I : S → Prop) (Q : A → S → Prop) : (∀ s, I s → Q a s) → triple I (mret a) Q.
Proof. intros HQ s Hs r [= <-]. by apply HQ. Qed.

Lemma triple_bind {A B} (m : FM S A) (f : A → FM S B) I Q Q' :
  triple I m Q → (∀ a, triple (Q a) (f a) Q') → triple I (m ≫= f) Q'.
Proof.
  intros Hm Hf s Hs. eapply calls_bind_spec; [by apply Hm| |by intros r].
  intros [a s'] HQ. by apply Hf.
Qed.

Lemma triple_mono {A} (m : FM S A) (I I' : S → Prop) (Q Q' : A → S → Prop) :
  (∀ s, I' s → I s) → (∀ a s, Q a s → Q' a s) → triple I m Q → triple I' m Q'.
Proof.
  intros HI HQ Hm s Hs. eapply returns_if_mono; [|by apply Hm, HI].
  intros r Hr [a s'] ->. by apply HQ, (Hr _ eq_refl).
Qed.

Lemma triple_lift {A} (m : Fallible A) (I : S → Prop) (Q : A → S → Prop) :
  (∀ a s, m = Val a → I s → Q a s) → triple I (f_lift m) Q.
Proof. intros HQ s Hs. apply calls_map_spec, calls_of_spec. intros a Ha. simpl. auto. Qed.

Lemma triple_gets {A} (f : S → A) (I : S → Prop) (Q : A → S → Prop) :
  (∀ s, I s → Q (f s) s) → triple I (f_gets f) Q.
Proof. intros HQ s Hs r [= <-]. by apply HQ. Qed.

Lemma triple_modify (f : S → S) (I : S → Prop) (Q : unit → S → Prop) :
  (∀ s, I s → Q tt (f s)) → triple I (f_modify f) Q.
Proof. intros HQ s Hs r [= <-]. by apply HQ. Qed.

Lemma triple_solve tracked g (I : S → Prop) (Q : FallibleSolution → S → Prop) :
  (∀ v s, P g v → I s → Q v s) → triple I (f_solve tracked g) Q.
Proof. intros HQ s Hs v Hv r [= <-]. by apply HQ. Qed.

Lemma triple_err {A} (I : S → Prop) (Q : A → S → Prop) : triple I f_err Q.
Proof. by intros s _ r. Qed.

Lemma triple_fuel {A} (I : S → Prop) (Q : A → S → Prop) : triple I f_fuel Q.
Proof. by intros s _. Qed.

(** An invariant of the state, whatever the results. *)
Definition invariant {A} (I : S → Prop) (m : FM S A) : Prop := triple I m (λ _, I).

Lemma invariant_bind {A B} (m : FM S A) (f : A → FM S B) I :
  invariant I m → (∀ a, invariant I (f a)) → invariant I (m ≫= f).
Proof. intros Hm Hf. by eapply triple_bind. Qed.

Lemma invariant_ret {A} (a : A) I : invariant I (mret a).
Proof. by apply triple_ret. Qed.

Lemma invariant_for_each {A} (f : A → FM S unit) l I :
  (∀ x, invariant I (f x)) → invariant I (for_each f l).
Proof. intros Hf. induction l; simpl; [by apply invariant_ret|by apply invariant_bind]. Qed.
End Triples.

(** One step through a computation under an invariant. *)
Ltac inv_step :=
  lazymatch goal with
  | |- invariant _ _ (_ ≫= _) => apply invariant_bind; [|intros ?]
  | |- invariant _ _ (mret _) => apply invariant_ret
  | |- invariant _ _ (f_lift _) => apply triple_lift; done
  | |- invariant _ _ (f_gets _) => apply triple_gets; done
  | |- invariant _ _ (f_solve _ _) => apply triple_solve; done
  | |- invariant _ _ f_err => apply triple_err
  | |- invariant _ _ f_fuel => apply triple_fuel
  | |- invariant _ _ (for_each _ _) => apply invariant_for_each; intros ?
  | |- invariant _ _ (if ?b then _ else _) => destruct b
  | |- invariant _ _ (match ?x with _ => _ end) => destruct x
  end.

(** ** The substitution of a [Fulfill] does not change *)

Section Keeps.
Context {E : Type} `{EnaOps E}.
Context (P : UCanonicalGoal → FallibleSolution → Prop).
Context (fuel : nat) (db : UnificationDatabase) (max_size : nat).
Context (hash_order : list (InEnvironment Constraint) → list (InEnvironment Constraint)).
Context (subst : Substitution).

Abbreviation same := (λ self : Fulfill E, self.(fsubst) = subst).
Abbreviation keeps m := (invariant P same m).

Lemma keeps_modify (f : Fulfill E → Fulfill E) : (∀ s, (f s).(fsubst) = s.(fsubst)) → keeps (f_modify f).
Proof. intros Hf. apply triple_modify. intros s Hs. by rewrite Hf. Qed.

Lemma keeps_with_infer {A} (f : ST (InferenceTable E) A) : keeps (with_infer f).
Proof. intros s Hs. apply calls_map_spec, calls_of_spec. by intros [a t] _. Qed.

Lemma keeps_push_obligation o : keeps (push_obligation fuel max_size o).
Proof. unfold push_obligation. repeat inv_step; by apply keeps_modify. Qed.

Lemma keeps_unify {T} (zip : Zipper (Unifier E) → Variance → T → T → SE (Unifier E) unit) env v a b :
  keeps (unify fuel db max_size zip env v a b).
Proof.
  unfold unify. inv_step; [|inv_step; apply keeps_push_obligation].
  intros s Hs. destruct (relate _ _ _ _ _ _ _ _) as [r t]. apply calls_map_spec, calls_of_spec. done.
Qed.

Lemma keeps_push_goal n env g : keeps (push_goal fuel db max_size n env g).
Proof.
  revert env g. induction n as [|n IH]; intros env g; simpl; [apply triple_fuel|].
  destruct g as [[] b|h g|gs|g|a b|a b|dg|].
  all: repeat inv_step; first [ apply keeps_with_infer | apply IH | apply keeps_push_obligation
    | apply keeps_unify | by apply keeps_modify ].
Qed.

Lemma keeps_or_panic {A} p (m : FM (Fulfill E) A) : keeps m → keeps (or_panic p m).
Proof.
  intros Hm s Hs. eapply returns_if_bind; [by apply Hm|]. intros [r|] Hr; [|done].
  intros r' [= <-]. by apply Hr.
Qed.

Lemma keeps_prove wc : keeps (prove fuel wc).
Proof. unfold prove. repeat inv_step. Qed.

Lemma keeps_refute g : keeps (refute fuel g).
Proof. unfold refute. repeat inv_step. apply keeps_with_infer. Qed.

Lemma keeps_unify_free_vars s i fv : keeps (unify_free_vars fuel db max_size s i fv).
Proof.
  revert i. induction fv as [|v fv IH]; intros i; simpl; repeat inv_step.
  - apply keeps_or_panic, keeps_unify.
  - apply IH.
Qed.

Lemma keeps_apply_solution fv u c : keeps (apply_solution fuel db max_size fv u c).
Proof.
  unfold apply_solution. repeat inv_step;
    first [apply keeps_with_infer|by apply keeps_modify|apply keeps_unify_free_vars].
Qed.

Lemma keeps_solve_one o : keeps (solve_one fuel db max_size o).
Proof.
  unfold solve_one. destruct o; repeat inv_step;
    first [apply keeps_prove|apply keeps_apply_solution|apply keeps_refute].
Qed.

Lemma keeps_pop : keeps pop_obligation.
Proof. by intros s Hs r [= <-]. Qed.

Lemma keeps_round n amb progress : keeps (round fuel db max_size n amb progress).
Proof.
  revert amb progress. induction n as [|n IH]; intros amb progress; simpl; repeat inv_step;
    first [apply keeps_pop|apply keeps_solve_one|apply IH].
Qed.

Lemma keeps_fulfill n : keeps (fulfill fuel db max_size n).
Proof.
  induction n as [|n IH]; simpl; repeat inv_step;
    first [apply keeps_round|apply IH|by apply keeps_modify].
Qed.
End Keeps.

(** ** The kinds of the arguments of a substitution *)

Definition arg_has_kind (k : VariableKind) (a : GenericArg) : bool :=
  match k, a with
  | VkTy _, ArgTy _ | VkLifetime, ArgLifetime _ | VkConst _, ArgConst _ => true
  | _, _ => false
  end.

(** One argument per variable, of its kind. *)
Definition well_kinded (bs : list VariableKind) (s : Substitution) : Prop :=
  Forall2 (λ k a, arg_has_kind k a = true) bs s.

Definition solution_well_kinded (bs : list VariableKind) (s : Solution) : Prop :=
  match s with
  | Unique c => well_kinded bs c.(cvalue).(csubst)
  | Ambig (Definite c) | Ambig (Suggested c) => well_kinded bs c.(cvalue)
  | Ambig Unknown => True
  end.

(** The answers to a canonical goal. *)
Definition answer_well_kinded (g : UCanonicalGoal) (v : FallibleSolution) : Prop :=
  on_ok (solution_well_kinded (kind <$> g.(canonical).(cbinders))) v.

Lemma fold_arg_kind {S} (F : Folder (ST S)) a d s a' s' k :
  fold_arg F a d s = Val (a', s') → arg_has_kind k a = true → arg_has_kind k a' = true.
Proof.
  intros Ha. destruct a; simpl in Ha; apply ST_bind_Val in Ha as (x & s1 & _ & [= <- _]);
    by destruct k.
Qed.

Lemma fold_subst_kinds {S} (F : Folder (ST S)) bs u d s u' s' :
  fold_with F u d s = Val (u', s') → well_kinded bs u → well_kinded bs u'.
Proof.
  intros Hf Hu. revert s u' s' Hf. induction Hu as [|k a bs u Ha Hu IH]; intros s u' s' Hf; simpl in Hf.
  - injection Hf as <- _. constructor.
  - apply ST_bind_Val in Hf as (a' & s1 & Ha' & Hf). apply ST_bind_Val in Hf as (u1 & s2 & Hu' & [= <- _]).
    constructor; [by eapply fold_arg_kind|by eapply IH].
Qed.

Section Kinds.
Context {E : Type} `{EnaOps E}.

Lemma canonicalize_kinds fuel bs (u : Substitution) (infer : InferenceTable E) c :
  canonicalize fuel u infer = Val c → well_kinded bs u → well_kinded bs c.(quantified).(cvalue).
Proof.
  intros Hc Hu. unfold canonicalize in Hc. inv_outcome Hc. rewrite unwrap_result_Val in Hx.
  destruct x as [u' q]. inv_outcome Hc. subst c. simpl. by eapply fold_subst_kinds.
Qed.

Lemma canonicalize_constrained_kinds fuel bs u cs (infer : InferenceTable E) c :
  canonicalize fuel (mkConstrainedSubst u cs) infer = Val c → well_kinded bs u →
  well_kinded bs c.(quantified).(cvalue).(csubst).
Proof.
  intros Hc Hu. unfold canonicalize in Hc. inv_outcome Hc. rewrite unwrap_result_Val in Hx.
  destruct x as [u' q]. inv_outcome Hc. subst c. simpl.
  apply ST_bind_Val in Hx as (u1 & s1 & Hu1 & Hf). apply ST_bind_Val in Hf as (? & ? & _ & [= <- _]).
  simpl. by eapply fold_subst_kinds.
Qed.

Lemma fresh_subst_kinds bs (infer : InferenceTable E) : well_kinded (kind <$> bs) (fresh_subst bs infer).1.
Proof.
  revert infer. induction bs as [|b bs IH]; intros infer; simpl; [constructor|].
  destruct (new_variable _ _) as [v infer1]. specialize (IH infer1).
  destruct (fresh_subst bs infer1) as [u infer2]. simpl in *. constructor; [|done].
  by destruct b as [[]].
Qed.

Lemma from_canonical_kinds {T} `{Fold T} n (c : Canonical T) (infer : InferenceTable E) u x :
  from_canonical n c = Val (infer, u, x) → well_kinded (kind <$> c.(cbinders)) u.
Proof.
  intros Hc. unfold from_canonical in Hc. inv_outcome Hc.
  pose proof (fresh_subst_kinds c.(cbinders) (Nat.iter (n - 1) (λ t, (new_universe t).2) table_new)) as Hk.
  destruct (fresh_subst _ _) as [u' infer']. inv_outcome Hc. by simplify_eq.
Qed.

Lemma trivial_substitution_kinds {T} (g : UCanonical T) :
  well_kinded (kind <$> g.(canonical).(cbinders)) (trivial_substitution g).
Proof.
  unfold trivial_substitution.
  apply Forall2_fmap_l, Forall2_same_length_lookup_2; [by rewrite length_imap|].
  intros i b a Hb Ha. rewrite list_lookup_imap, Hb in Ha. injection Ha as <-. by destruct b as [[]].
Qed.

(** *** [combine] and [with_priorities] *)

Lemma combine_kinds bs a b :
  solution_well_kinded bs a → solution_well_kinded bs b → solution_well_kinded bs (combine a b).
Proof.
  intros Ha Hb. unfold combine. case_decide; [done|].
  destruct a as [|[]], b as [|[]]; simpl in *; repeat case_decide; done.
Qed.

Lemma with_priorities_kinds bs dg a pa b pb r :
  with_priorities dg a pa b pb = Val r → solution_well_kinded bs a → solution_well_kinded bs b →
  solution_well_kinded bs r.1.
Proof.
  intros Hr Ha Hb. unfold with_priorities, prefer_higher in Hr.
  destruct pa, pb; inv_outcome Hr; subst r; simpl; try case_decide; simpl; try done;
    by apply combine_kinds.
Qed.
End Kinds.

(** ** The iterations of the solver *)

Section Solver.
Context {E : Type} `{EnaOps E}.
Context (P : UCanonicalGoal → FallibleSolution → Prop).
Context (fuel : nat) (db : RustIrDatabase) (max_size : nat).
Context (hash_order : list (InEnvironment Constraint) → list (InEnvironment Constraint)).
Context (clauses_for : UCanonicalDomainGoal → outcome Floundered ProgramClauses).
Abbreviation udb := db.(unification_database).

Lemma suggest_kinds bs n c :
  well_kinded bs c.(cvalue) →
  triple P (λ _, True) (suggest (E := E) fuel udb max_size n c) (λ s _, solution_well_kinded bs s).
Proof.
  intros Hc. induction n as [|n IH]; simpl; [apply triple_fuel|].
  eapply (triple_bind _ _ _ _ (λ _ _, True)); [by intros s _ r|].
  intros [[goal|goal]|].
  - eapply (triple_bind _ _ _ _ (λ _ _, True)).
    { intros s _. eapply returns_if_mono; [|apply returns_if_true]. by intros r _ [? ?]. }
    intros p. destruct (constrained_subst _); [|exact IH].
    eapply (triple_bind _ _ _ _ (λ _ _, True)).
    { intros s' _. eapply returns_if_mono; [|apply returns_if_true]. by intros r _ [? ?]. }
    intros _. by apply triple_ret.
  - exact IH.
  - by apply triple_ret.
Qed.

Lemma solve_kinds bs (self : Fulfill E) :
  well_kinded bs self.(fsubst) →
  returns_if P (on_ok (solution_well_kinded bs)) (Fulfill.solve fuel udb max_size hash_order self).
Proof.
  intros Hs. apply calls_map_spec.
  pose (I := λ s : Fulfill E, s.(fsubst) = self.(fsubst)).
  enough (triple P I (solve_with fuel udb max_size hash_order) (λ s _, solution_well_kinded bs s)) as Ht
    by exact (Ht self eq_refl).
  unfold solve_with. eapply triple_bind; [apply keeps_fulfill|]. intros outcome.
  eapply (triple_bind _ _ _ _ (λ _, I)); [by apply triple_gets|]. intros cannot.
  destruct cannot; [by apply triple_ret|].
  eapply (triple_bind _ _ _ _ (λ _, I)); [by apply triple_gets|]. intros infer.
  eapply (triple_bind _ _ _ _ (λ u _, u = self.(fsubst))); [by apply triple_gets|].
  intros u. destruct (is_complete outcome).
  - eapply (triple_bind _ _ _ _ (λ _ _, u = self.(fsubst))); [by apply triple_gets|]. intros cs.
    eapply (triple_bind _ _ _ _ (λ c _, well_kinded bs c.(quantified).(cvalue).(csubst))).
    { apply triple_lift. intros c s Hc ->. by eapply canonicalize_constrained_kinds. }
    intros c. by apply triple_ret.
  - eapply (triple_bind _ _ _ _ (λ c _, well_kinded bs c.(quantified).(cvalue))).
    { apply triple_lift. intros c s Hc ->. by eapply canonicalize_kinds. }
    intros c. destruct (is_identity_subst _).
    + intros s Hc. by apply (suggest_kinds bs).
    + by apply triple_ret.
Qed.

Lemma keeps_snd (m : FM (Fulfill E) unit) (infer : InferenceTable E) u :
  invariant P (λ self, self.(fsubst) = u) m →
  returns_if P (on_ok (λ f : Fulfill E, f.(fsubst) = u)) (calls_map snd (m (new infer u))).
Proof. intros Hm. apply calls_map_spec. eapply returns_if_mono; [|by apply Hm]. by intros r Hr [] ->; apply (Hr _ eq_refl). Qed.

Lemma new_with_clause_subst (infer : InferenceTable E) u goal clause :
  returns_if P (on_ok (λ f : Fulfill E, f.(fsubst) = u))
    (new_with_clause fuel udb max_size infer u goal clause).
Proof.
  apply keeps_snd. repeat inv_step.
  - apply keeps_with_infer.
  - by apply keeps_modify.
  - apply keeps_unify.
  - apply keeps_push_goal.
Qed.

Lemma new_with_simplification_subst (infer : InferenceTable E) u goal :
  returns_if P (on_ok (λ f : Fulfill E, f.(fsubst) = u))
    (new_with_simplification fuel udb max_size infer u goal).
Proof. apply keeps_snd, keeps_push_goal. Qed.

Lemma solve_via_simplification_kinds (g : UCanonicalGoal) :
  returns_if P (answer_well_kinded g)
    (solve_via_simplification (E := E) fuel db max_size hash_order g).
Proof.
  eapply calls_bind_spec; [apply calls_of_spec; intros a Ha; exact Ha| |done].
  intros [[infer u] goal] Hc. apply from_canonical_kinds in Hc.
  eapply calls_bind_spec; [apply new_with_simplification_subst| |done].
  intros f Hf. apply solve_kinds. by rewrite Hf.
Qed.

Lemma solve_clause_kinds bs (infer : InferenceTable E) u goal clause :
  well_kinded bs u →
  returns_if P (on_ok (λ r, solution_well_kinded bs r.1))
    (solve_clause fuel db max_size hash_order infer u goal clause).
Proof.
  intros Hu. eapply calls_bind_spec; [apply new_with_clause_subst| |done].
  intros f Hf. apply calls_map_spec, solve_kinds. by rewrite Hf.
Qed.

Lemma try_clauses_kinds bs attempt dg clauses cur :
  (∀ c, returns_if P (on_ok (λ r, solution_well_kinded bs r.1)) (attempt c)) →
  on_ok (λ r, solution_well_kinded bs r.1) cur →
  returns_if P (on_ok (solution_well_kinded bs)) (try_clauses attempt dg clauses cur).
Proof.
  intros Ha. revert cur. induction clauses as [|c clauses IH]; intros cur Hcur; simpl.
  { intros s Hs. destruct cur as [r|]; simplify_eq/=. by apply Hcur. }
  case_decide; [by intros s [= <-]|].
  eapply calls_bind_spec; [apply Ha| |by apply IH].
  intros [s p] Hs. destruct cur as [[s' p']|]; [|apply IH; by intros r [= <-]].
  eapply returns_if_bind; [|apply IH]. apply calls_of_spec. intros r Hr.
  eapply with_priorities_kinds; [exact Hr| |done]. by apply (Hcur _ eq_refl).
Qed.

Lemma solve_from_clauses_kinds (g : UCanonicalDomainGoal) :
  returns_if P (on_ok (solution_well_kinded (kind <$> g.(canonical).(cbinders))))
    (solve_from_clauses (E := E) fuel db max_size hash_order clauses_for g).
Proof.
  eapply (calls_bind_spec _ _ _ (λ _, True)); [by apply calls_of_spec| |done].
  intros [clauses|] _; [|by intros s [= <-]].
  eapply calls_bind_spec; [apply calls_of_spec; intros a Ha; exact Ha| |done].
  intros [[infer u] goal] Hc. apply from_canonical_kinds in Hc.
  eapply (calls_bind_spec _ _ _ (λ _, True)); [by apply calls_of_spec| |done].
  intros env_clauses _. apply try_clauses_kinds; [|done]. intros c. by apply solve_clause_kinds.
Qed.

Lemma solve_iteration_kinds (g : UCanonicalGoal) :
  returns_if P (answer_well_kinded g)
    (solve_iteration (E := E) fuel db max_size hash_order clauses_for g).
Proof.
  destruct g as [[[env goal] bs] u]. simpl.
  destruct goal; first [exact (solve_from_clauses_kinds _)|exact (solve_via_simplification_kinds _)].
Qed.
End Solver.

(** A context whose cached answers are well kinded. *)
Definition well_kinded_context (ctx : FixedPoint.RecursiveContext UCanonicalGoal FallibleSolution) : Prop :=
  FixedPointSafe.Good answer_well_kinded ctx.

(** C8. Every answer of the recursive solver matches the variables of its goal:
    the substitution of a unique answer, or of definite or suggested guidance,
    has one argument for each binder of the canonical goal and of its kind.  The
    answers that the solver leaves in its cache and its search graph do, too, so
    that the property holds for any sequence of queries. *)
Theorem recursive_answers_well_kinded {E} `{EnaOps E} fuel db hash_order clauses_for turns goal ctx answer ctx' :
  well_kinded_context ctx →
  recursive_solve (E := E) fuel db hash_order clauses_for turns goal ctx = Val (answer, ctx') →
  answer_well_kinded goal answer ∧ well_kinded_context ctx'.
Proof.
  intros Hctx. apply (solve_root_goal_good (H0 := recursive_stuff fuel db _ hash_order clauses_for) answer_well_kinded); [|done].
  constructor; simpl.
  - intros g. unfold initial_value. case_match; [|done]. intros s [= <-]. simpl. apply trivial_substitution_kinds.
  - done.
  - intros g. apply solve_iteration_kinds.
Qed.

(** ** Suggestions

    [Fulfill::solve] makes a suggestion when it learned nothing definite: it
    applies the tentative solution of one obligation, but then returns the
    substitution that it canonicalized before, which is the identity. *)

Definition suggestion_trivial (v : FallibleSolution) : Prop :=
  ∀ c, v = Some (Ambig (Suggested c)) → is_identity_subst c.(cvalue) = true.

Section Suggestions.
Context {E : Type} `{EnaOps E}.
Context (P : UCanonicalGoal → FallibleSolution → Prop).
Context (fuel : nat) (db : RustIrDatabase) (max_size : nat).
Context (hash_order : list (InEnvironment Constraint) → list (InEnvironment Constraint)).
Context (clauses_for : UCanonicalDomainGoal → outcome Floundered ProgramClauses).
Abbreviation udb := db.(unification_database).
Abbreviation trivial := (λ s : Solution, suggestion_trivial (Some s)).
Abbreviation any := (λ _ : Fulfill E, True).

Lemma triple_any {A} (m : FM (Fulfill E) A) I : triple P I m (λ _, any).
Proof. intros s _. eapply returns_if_mono; [|apply returns_if_true]. by intros r _ []. Qed.

Lemma suggest_trivial n c :
  is_identity_subst c.(cvalue) = true →
  triple P any (suggest fuel udb max_size n c) (λ s _, trivial s).
Proof.
  intros Hc. induction n as [|n IH]; simpl; [apply triple_fuel|].
  eapply triple_bind; [apply triple_any|]. intros [[goal|goal]|].
  - eapply triple_bind; [apply triple_any|]. intros p. destruct (constrained_subst _); [|exact IH].
    eapply triple_bind; [apply triple_any|]. intros ?. apply triple_ret.
    intros s _ c' Hc'. by simplify_eq.
  - exact IH.
  - by apply triple_ret.
Qed.

Lemma solve_trivial (self : Fulfill E) :
  returns_if P suggestion_trivial (Fulfill.solve fuel udb max_size hash_order self).
Proof.
  enough (returns_if P (on_ok trivial) (Fulfill.solve fuel udb max_size hash_order self)) as Hs.
  { eapply returns_if_mono; [|exact Hs]. intros [s|] Hr; [by apply Hr|done]. }
  apply calls_map_spec.
  enough (triple P any (solve_with fuel udb max_size hash_order) (λ s _, trivial s)) as Ht by exact (Ht self I).
  unfold solve_with. eapply triple_bind; [apply triple_any|]. intros outcome.
  eapply triple_bind; [apply triple_any|]. intros cannot. destruct cannot; [by apply triple_ret|].
  do 2 (eapply triple_bind; [apply triple_any|]; intros ?). destruct (is_complete outcome).
  - do 2 (eapply triple_bind; [apply triple_any|]; intros ?). by apply triple_ret.
  - eapply triple_bind; [apply triple_any|]. intros c. destruct (is_identity_subst _) eqn:Hid.
    + by apply suggest_trivial.
    + by apply triple_ret.
Qed.

Lemma combine_trivial a b :
  suggestion_trivial (Some a) → suggestion_trivial (Some b) → suggestion_trivial (Some (combine a b)).
Proof.
  intros Ha Hb. unfold combine. case_decide; [done|].
  destruct a as [|[]], b as [|[]]; simpl in *; repeat case_decide; try done.
Qed.

Lemma with_priorities_trivial dg a pa b pb r :
  with_priorities dg a pa b pb = Val r →
  suggestion_trivial (Some a) → suggestion_trivial (Some b) → suggestion_trivial (Some r.1).
Proof.
  intros Hr Ha Hb. unfold with_priorities, prefer_higher in Hr.
  destruct pa, pb; inv_outcome Hr; subst r; simpl; try case_decide; simpl; try done;
    by apply combine_trivial.
Qed.

Lemma try_clauses_trivial attempt dg clauses cur :
  (∀ c, returns_if P (on_ok (λ r, trivial r.1)) (attempt c)) → on_ok (λ r, trivial r.1) cur →
  returns_if P suggestion_trivial (try_clauses attempt dg clauses cur).
Proof.
  intros Ha. revert cur. induction clauses as [|c clauses IH]; intros cur Hcur; simpl.
  { intros s Hs. destruct cur as [r|]; [|done]. by apply (Hcur _ eq_refl). }
  case_decide; [by intros s [= ]|].
  eapply returns_if_bind; [apply Ha|]. intros [[s p]|] Hs; [|by apply IH].
  specialize (Hs _ eq_refl). destruct cur as [[s' p']|]; [|apply IH; by intros r [= <-]].
  eapply returns_if_bind; [|apply IH]. apply calls_of_spec. intros r Hr.
  eapply with_priorities_trivial; [exact Hr| |done]. by apply (Hcur _ eq_refl).
Qed.

Lemma solve_iteration_trivial (g : UCanonicalGoal) :
  returns_if P suggestion_trivial (solve_iteration (E := E) fuel db max_size hash_order clauses_for g).
Proof.
  destruct g as [[[env goal] bs] u]. simpl.
  assert (∀ g, returns_if P suggestion_trivial
    (solve_via_simplification (E := E) fuel db max_size hash_order g)) as Hsimp.
  { intros g. eapply returns_if_bind; [apply returns_if_true|]. intros [[[infer s] x]|] _; [|done].
    eapply returns_if_bind; [apply returns_if_true|]. intros [f|] _; [apply solve_trivial|done]. }
  destruct goal; try exact (Hsimp _).
  eapply returns_if_bind; [apply returns_if_true|]. intros [[clauses|]|] _; [|done..].
  eapply returns_if_bind; [apply returns_if_true|]. intros [[[infer s] x]|] _; [|done].
  eapply returns_if_bind; [apply returns_if_true|]. intros [env_clauses|] _; [|done].
  apply try_clauses_trivial; [|done]. intros c.
  eapply returns_if_bind; [apply returns_if_true|]. intros [f|] _; [|done].
  apply calls_map_spec. eapply returns_if_mono; [|apply solve_trivial].
  intros [r|] Hr r' [= <-]. done.
Qed.
End Suggestions.

(** C26. The recursive solver never suggests anything: if it answers with
    suggested guidance, the substitution of the guidance is the identity, and so
    it says nothing about the variables of the goal. *)
Theorem recursive_suggestions_trivial {E} `{EnaOps E} fuel db hash_order clauses_for turns goal ctx answer ctx' :
  FixedPointSafe.Good (λ _, suggestion_trivial) ctx →
  recursive_solve (E := E) fuel db hash_order clauses_for turns goal ctx = Val (answer, ctx') →
  suggestion_trivial answer ∧ FixedPointSafe.Good (λ _, suggestion_trivial) ctx'.
Proof.
  intros Hctx. apply (solve_root_goal_good (H0 := recursive_stuff fuel db _ hash_order clauses_for)
    (λ _, suggestion_trivial)); [|done].
  constructor; simpl.
  - intros g. unfold initial_value. by case_match.
  - done.
  - intros g. apply solve_iteration_trivial.
Qed.

(** A program with two types that implement a trait, as custom clauses. *)
Definition ty_u32 : Ty := TyScalar (ScUint U32).
Definition implemented (t : Ty) : DomainGoal := DgHolds (WcImplemented (mkTraitRef 0%N [ArgTy t])).
Definition fact (dg : DomainGoal) : ProgramClause :=
  mkProgramClause (mkBinders [] (mkImplication dg [] [] High)).
Definition sample_udb : UnificationDatabase :=
  {| fn_def_variance _ := []; adt_variance _ := []; db_const_eq _ a b := bool_decide (a = b) |}.
Definition sample_db (clauses : ProgramClauses) : RustIrDatabase := {|
  custom_clauses := clauses;
  associated_ty_data id := mkAssociatedTyDatum 0 id "A" (mkBinders [] (mkAssociatedTyDatumBound [] []));
  trait_datum id := mkTraitDatum id (mkBinders [VkTy General] (mkTraitDatumBound []))
    (mkTraitFlags false false false false false false) [] None;
  adt_datum id := mkAdtDatum (mkBinders [] (mkAdtDatumBound [] [])) id (mkAdtFlags false false false) Struct;
  generator_datum _ := mkGeneratorDatum MvMovable (mkBinders [] (mkGeneratorInputOutputDatum TyStr TyStr TyStr []));
  generator_witness_datum _ := mkGeneratorWitnessDatum (mkBinders [] (mkGeneratorWitnessExistential (mkBinders [] [])));
  adt_repr _ := mkAdtRepr false false None;
  fn_def_datum id := mkFnDefDatum id (mkFnSig AbiRust Safe false)
    (mkBinders [] (mkFnDefDatumBound (mkBinders [] (mkFnDefInputsAndOutputDatum [] TyNever)) []));
  impl_datum _ := mkImplDatum Positive (mkBinders [] (mkImplDatumBound (mkTraitRef 0 []) [])) ImplLocal [];
  associated_ty_value _ := mkAssociatedTyValue 0 0 (mkBinders [] (mkAssociatedTyValueBound TyStr));
  opaque_ty_data id := mkOpaqueTyDatum id (mkBinders [] (mkOpaqueTyDatumBound (mkBinders [] []) (mkBinders [] [])));
  hidden_opaque_type _ := TyStr;
  impls_for_trait _ _ _ := Val [];
  local_impls_to_coherence_check _ := [];
  impl_provided_for _ _ := Val false;
  well_known_trait_id _ := None;
  program_clauses_for_env env := Val env;
  is_object_safe _ := true;
  closure_kind _ _ := CkFn;
  closure_inputs_and_output _ _ := mkBinders [] (mkFnDefInputsAndOutputDatum [] TyNever);
  closure_upvars _ _ := mkBinders [] TyStr;
  closure_fn_substitution _ _ := [];
  unification_database := sample_udb;
  discriminant_type t := t
|}.

(** [exists<T> T: Trait]. *)
Definition exists_goal : UCanonicalGoal :=
  mkUCanonical (mkCanonical (mkInEnvironment [] (GDomainGoal (implemented (TyBoundVar (mkBoundVar 0 0)))))
    [mkWithKind (VkTy General) universe_root]) 1.
Definition empty_context : FixedPoint.RecursiveContext UCanonicalGoal FallibleSolution :=
  FixedPoint.new 10 30 (Some ∅).

Definition sample_solve (clauses : ProgramClauses) (goal : UCanonicalGoal) :=
  recursive_solve (E := UnionFind.t) 20 (sample_db clauses) id (λ _, Val []) 20 goal empty_context.
Definition sample_clauses : ProgramClauses := [fact (implemented ty_u32)].
Definition sample_answer : FallibleSolution :=
  Some (Unique (mkCanonical (mkConstrainedSubst [ArgTy ty_u32] []) [])).
(** The answer of a query, without the context. *)
Definition query_answer {S} (r : outcome Empty_set (FallibleSolution * S)) : option FallibleSolution :=
  match r with Val (a, _) => Some a | _ => None end.
Lemma query_answer_Some {S} (r : outcome Empty_set (FallibleSolution * S)) a :
  query_answer r = Some a → ∃ s, r = Val (a, s).
Proof. destruct r as [[]| | |]; intros [= <-]; eauto. Qed.

Lemma empty_context_good P : FixedPointSafe.Good P empty_context.
Proof. constructor; [apply SearchGraph.wf_new|apply Forall_nil_2|].
  intros g v Hv. change ((∅ : gmap UCanonicalGoal FallibleSolution) !! g = Some v) in Hv.
  by rewrite lookup_empty in Hv.
Qed.

Lemma recursive_answers_well_kinded_witness : ∃ ctx,
  sample_solve sample_clauses exists_goal = Val (sample_answer, ctx) ∧
  answer_well_kinded exists_goal sample_answer ∧ well_kinded_context ctx.
Proof.
  assert (query_answer (sample_solve sample_clauses exists_goal) = Some sample_answer) as Hr by (vm_compute; reflexivity).
  apply query_answer_Some in Hr as [ctx Hr]. exists ctx. split; [exact Hr|]. unfold sample_solve in Hr.
  exact (recursive_answers_well_kinded (E := UnionFind.t) 20 (sample_db sample_clauses) id (λ _, Val []) 20 exists_goal
    empty_context sample_answer ctx (empty_context_good _) Hr).
Defined.

(** Two clauses that differ in their region constraints make a closed goal
    ambiguous; its parent then suggests the empty substitution. *)
Definition ambiguous_clauses : ProgramClauses :=
  [fact (implemented ty_u32);
   mkProgramClause (mkBinders [] (mkImplication (implemented ty_u32) []
     [mkInEnvironment [] (CtLifetimeOutlives LtStatic LtStatic)] High))].
Definition closed_goal : UCanonicalGoal :=
  mkUCanonical (mkCanonical (mkInEnvironment [] (GAll [GDomainGoal (implemented ty_u32)])) []) 1.
Definition trivial_suggestion : FallibleSolution := Some (Ambig (Suggested (mkCanonical [] []))).

Lemma recursive_suggestions_trivial_witness : ∃ ctx,
  sample_solve ambiguous_clauses closed_goal = Val (trivial_suggestion, ctx) ∧
  suggestion_trivial trivial_suggestion ∧ FixedPointSafe.Good (λ _, suggestion_trivial) ctx.
Proof.
  assert (query_answer (sample_solve ambiguous_clauses closed_goal) = Some trivial_suggestion) as Hr
    by (vm_compute; reflexivity).
  apply query_answer_Some in Hr as [ctx Hr]. exists ctx. split; [exact Hr|]. unfold sample_solve in Hr.
  exact (recursive_suggestions_trivial (E := UnionFind.t) 20 (sample_db ambiguous_clauses) id (λ _, Val []) 20 closed_goal
    empty_context trivial_suggestion ctx (empty_context_good _) Hr).
Defined.
