(* ===== verification/ClauseOrder.v ===== *)
(** * The order of the clauses ([solve_from_clauses], [combine::with_priorities])

    The loop over the clauses merges the solutions one by one and stops early when
    the answer cannot improve.  For goals without inputs the answer is that of a
    commutative merge: the order of the clauses is irrelevant, provided the solver
    answers each subgoal alike whenever it is called.  For goals on cycles it does
    not always ([FixedPointThm.Mixed]). *)

From stdpp Require Import base list numbers.
From S2P Require Import Prelude RecStack SearchGraph FixedPoint Ir IrCountable Fold FoldLaws Shift Ena Infer Solve Fulfill RecSolve.

Abbreviation Candidate := (option (Solution * ClausePriority)).

(** What the loop does with one more candidate when no goal has inputs. *)
Definition merge (cur next : Candidate) : Candidate :=
  match cur, next with
  | None, _ => next
  | _, None => cur
  | Some (a, High), Some (b, Low) => cur
  | Some (a, Low), Some (b, High) => next
  | Some (a, p), Some (b, _) => Some (combine a b, p)
  end.

#[global] Instance merge_comm : Comm (=) merge.
Proof.
  intros [[a []]|] [[b []]|]; simpl; try done; by rewrite combine_comm.
Qed.

#[global] Instance merge_assoc : Assoc (=) merge.
Proof.
  intros [[a []]|] [[b []]|] [[c []]|]; simpl; try done; by rewrite combine_assoc.
Qed.

#[global] Instance merge_left_id : LeftId (=) None merge.
Proof. by intros [[]|]. Qed.

Lemma combine_unknown s : combine (Ambig Unknown) s = Ambig Unknown.
Proof. unfold combine. by case_decide. Qed.

(** The completely ambiguous answer of high priority absorbs every candidate. *)
Lemma merge_unknown c : merge (Some (Ambig Unknown, High)) c = Some (Ambig Unknown, High).
Proof. destruct c as [[s []]|]; simpl; [|done..]. by rewrite combine_unknown. Qed.

Section Order.
Context (dg : DomainGoal).

(** The solution substitutes into the goal and leaves no input. *)
Definition no_inputs (c : Candidate) : Prop := ∀ s p, c = Some (s, p) → calculate_inputs dg s = Val [].

Lemma combine_no_inputs a b :
  inputs dg = [] → calculate_inputs dg a = Val [] → calculate_inputs dg b = Val [] →
  calculate_inputs dg (combine a b) = Val [].
Proof.
  intros Hdg Ha Hb. unfold combine. case_decide; [done|].
  unfold calculate_inputs. simpl.
  destruct (into_guidance a) as [ca|ca|] eqn:Hga; [| |by rewrite Hdg].
  all: destruct (into_guidance b); try (by rewrite Hdg); case_decide; [|by rewrite Hdg].
  all: unfold calculate_inputs in Ha; destruct a as [x|g]; simplify_eq/=; exact Ha.
Qed.

Lemma merge_no_inputs c d : inputs dg = [] → no_inputs c → no_inputs d → no_inputs (merge c d).
Proof.
  intros Hdg Hc Hd s p Hm. destruct c as [[a []]|], d as [[b []]|]; simplify_eq/=;
    try (by eapply Hc); try (by eapply Hd); apply combine_no_inputs; first [done|by eapply Hc|by eapply Hd].
Qed.

Lemma with_priorities_merge a pa b pb :
  calculate_inputs dg a = Val [] → calculate_inputs dg b = Val [] →
  ∃ r, with_priorities dg a pa b pb = Val r ∧ merge (Some (a, pa)) (Some (b, pb)) = Some r.
Proof.
  intros Ha Hb. destruct pa, pb; simpl; unfold prefer_higher; rewrite ?Ha, ?Hb; simpl; eauto.
Qed.

Definition merge_all (l : list Candidate) : Candidate := foldr merge None l.

(** Substitution does not make inputs. *)
Lemma fits_no_inputs s l : inputs dg = [] → calculate_inputs dg s = Val l → l = [].
Proof.
  intros Hdg. unfold calculate_inputs. destruct (constrained_subst s) as [cs|]; [|by intros [= <-]].
  unfold subst_apply. destruct (fold_with _ dg INNERMOST) as [dg'| | |] eqn:Hf; simpl; intros [= <-].
  destruct dg as [[]|[]|[]| | | | | | | | |]; try done; cbv [fold_with Fold_DomainGoal] in Hf; simpl in Hf; inv_outcome Hf; subst;
    repeat match goal with Hx : _ = Val _ |- _ => progress inv_outcome Hx end; simplify_eq; try done.
Qed.

(** The loop, when the attempt with each clause has a fixed result. *)
Lemma try_clauses_merge (attempt : ProgramClause → Candidate) clauses cur :
  inputs dg = [] → (∀ c, no_inputs (attempt c)) → no_inputs cur →
  try_clauses (λ c, IterRet (attempt c)) dg clauses cur =
  IterRet (fst <$> merge cur (merge_all (attempt <$> clauses))).
Proof.
  intros Hdg Ha. revert cur. induction clauses as [|c clauses IH]; intros cur Hcur.
  { change (merge_all (attempt <$> [])) with (None : Candidate).
    by rewrite (comm merge), (left_id None merge). }
  change (merge_all (attempt <$> c :: clauses)) with (merge (attempt c) (merge_all (attempt <$> clauses))).
  rewrite (assoc merge). simpl try_clauses. case_decide as Hcase.
  { subst cur. by rewrite <-(assoc merge), merge_unknown. }
  assert (no_inputs (merge cur (attempt c))) as Hm by by apply merge_no_inputs.
  destruct (attempt c) as [[s p]|] eqn:Hc.
  - pose proof (Ha c s p Hc) as Hs. destruct cur as [[s' p']|].
    + destruct (with_priorities_merge s' p' s p) as (r & Hr & Hmr); [by eapply Hcur|done|].
      rewrite Hmr in *. simpl. rewrite Hr. by apply IH.
    + rewrite (left_id None merge) in *. by apply IH.
  - rewrite (comm merge cur None), (left_id None merge). by apply IH.
Qed.
End Order.

Lemma merge_all_permutation l l' : l ≡ₚ l' → merge_all l = merge_all l'.
Proof.
  induction 1; simpl; try congruence. by rewrite !(assoc merge), (comm merge y x).
Qed.

(** ** Attempts that call the solver *)

(** The result of a tree of calls when every goal [g] is answered by [answers g]. *)
Fixpoint result_with {K V A} (answers : K → V) (t : IterationOf K V A) : option A :=
  match t with
  | IterRet a => Some a
  | IterPanic _ | IterFuel => None
  | IterSolve _ g k => result_with answers (k (answers g))
  end.

Lemma result_with_bind {K V A B} (answers : K → V) (t : IterationOf K V A) (f : A → IterationOf K V B) a :
  result_with answers t = Some a → result_with answers (t ≫= f) = result_with answers (f a).
Proof.
  induction t as [a'| | |b g k IH]; simpl; try done; [by intros [= ->]|]. apply IH.
Qed.

(** The loop computes what it computes with the results of the attempts. *)
Lemma try_clauses_results answers dg attempt (res : ProgramClause → Candidate) clauses cur v :
  (∀ c, c ∈ clauses → result_with answers (attempt c) = Some (res c)) →
  try_clauses (λ c, IterRet (res c)) dg clauses cur = IterRet v →
  result_with answers (try_clauses attempt dg clauses cur) = Some v.
Proof.
  revert cur. induction clauses as [|c clauses IH]; intros cur Ha; [by intros [= <-]|].
  assert (∀ cur, try_clauses (λ c, IterRet (res c)) dg clauses cur = IterRet v →
    result_with answers (try_clauses attempt dg clauses cur) = Some v) as IH'.
  { intros cur'. apply IH. intros c' Hc'. apply Ha. by right. }
  cbn [try_clauses]. case_decide; [by intros [= <-]|].
  rewrite (result_with_bind answers _ _ (res c)) by (apply Ha; by left).
  simpl. destruct (res c) as [[s p]|]; [|apply IH'].
  destruct cur as [[s' p']|]; [|apply IH'].
  destruct (with_priorities _ _ _ _ _) as [x|e|q|]; simpl; try done; apply IH'.
Qed.

(** A run of the engine follows the answers of its solver. *)
Section Run.
Context {K V : Type} `{Countable K}.
Abbreviation State := (FixedPoint.RecursiveContext K V).
Context (solve_goal : K → Minimums → State → outcome Empty_set (V * Minimums * State)).
Context (answers : K → V) (I : State → Prop).

(** In states of [I] the solver answers [g] with [answers g], and may change the
    minimums and the state within [I]. *)
Definition answers_alike : Prop := ∀ g m ctx, I ctx →
  ∃ m' ctx', solve_goal g m ctx = Val (answers g, m', ctx') ∧ I ctx'.

Lemma run_result t v m ctx :
  answers_alike → I ctx → result_with answers t = Some v →
  ∃ m' ctx', FixedPoint.run_iteration solve_goal t m ctx = Val (v, m', ctx') ∧ I ctx'.
Proof.
  intros Hs. revert m ctx. induction t as [a| | |b g k IH]; intros m ctx HI; simpl; try done.
  { intros [= ->]. by exists m, ctx. }
  intros Hv. destruct (Hs g (if b then m else Minimums.new) ctx HI) as (m' & ctx' & -> & HI').
  simpl. by apply IH.
Qed.
End Run.

(** C27. For a domain goal without inputs, the answer of the loop over the clauses
    does not depend on their order, in spite of the priorities and of the early
    return.  The attempts with the clauses are trees of calls to the solver, which
    changes its state from call to call, within [I], and answers each goal alike.
    With these answers each attempt returns, with no solution or one that
    substitutes into the goal. *)
Theorem clause_order_irrelevant solve_goal
    (answers : UCanonicalGoal → FallibleSolution) I dg
    (attempt : ProgramClause → Calls Candidate) clauses clauses' m ctx :
  answers_alike solve_goal answers I → I ctx → inputs dg = [] →
  (∀ c, c ∈ clauses → ∃ r, result_with answers (attempt c) = Some r ∧
    ∀ s p, r = Some (s, p) → ∃ l, calculate_inputs dg s = Val l) →
  clauses ≡ₚ clauses' →
  ∃ answer m1 ctx1 m2 ctx2,
    FixedPoint.run_iteration solve_goal (try_clauses attempt dg clauses None) m ctx
      = Val (answer, m1, ctx1) ∧
    FixedPoint.run_iteration solve_goal (try_clauses attempt dg clauses' None) m ctx
      = Val (answer, m2, ctx2).
Proof.
  intros Hs HI Hdg Ha Hp.
  set (res c := if decide (c ∈ clauses) then default None (result_with answers (attempt c)) else None).
  assert (∀ c, c ∈ clauses → result_with answers (attempt c) = Some (res c)) as Hres.
  { intros c Hc. unfold res. rewrite decide_True by done. by destruct (Ha c Hc) as (r & -> & _). }
  assert (∀ c, no_inputs dg (res c)) as Hno.
  { intros c s p Hc. unfold res in Hc. case_decide as Hin; [|done].
    destruct (Ha c Hin) as (r & Hr & Hfit). rewrite Hr in Hc. destruct (Hfit s p Hc) as [l Hl].
    rewrite Hl. f_equal. by eapply fits_no_inputs. }
  pose proof (try_clauses_merge dg res clauses None Hdg Hno ltac:(done)) as H1.
  pose proof (try_clauses_merge dg res clauses' None Hdg Hno ltac:(done)) as H2.
  rewrite <- (merge_all_permutation (res <$> clauses)) in H2 by by apply fmap_Permutation.
  apply (try_clauses_results answers dg attempt res) in H1; [|done].
  apply (try_clauses_results answers dg attempt res) in H2;
    [|by intros c Hc; apply Hres; rewrite Hp].
  destruct (run_result solve_goal answers I _ _ m ctx Hs HI H1) as (m1 & c1 & H1' & _).
  destruct (run_result solve_goal answers I _ _ m ctx Hs HI H2) as (m2 & c2 & H2' & _).
  by eexists _, m1, c1, m2, c2.
Qed.

(** Three clauses, one of high priority between two of low priority, whose attempts
    call the solver for one goal each.  The solver caches what it answers. *)
Definition order_goal : DomainGoal := DgWellFormed (WfTy (TyBoundVar (mkBoundVar 0 0))).
Definition order_clause (n : N) (p : ClausePriority) : ProgramClause :=
  mkProgramClause (mkBinders [] (mkImplication (DgObjectSafe n) [] [] p)).
Definition order_subgoal (n : N) : UCanonicalGoal :=
  mkUCanonical (mkCanonical (mkInEnvironment [] (GDomainGoal (DgObjectSafe n))) []) 1.
Definition order_answers (g : UCanonicalGoal) : FallibleSolution :=
  match g.(canonical).(cvalue).(env_goal) with
  | GDomainGoal (DgObjectSafe n) =>
      Some (Unique (mkCanonical (mkConstrainedSubst [ArgTy (TyForeign n)] []) []))
  | _ => None
  end.
Definition order_attempt (c : ProgramClause) : Calls Candidate :=
  match (clause_data c).(value).(consequence) with
  | DgObjectSafe n => IterSolve true (order_subgoal n) (λ s,
      IterRet ((λ s, (s, (clause_data c).(value).(priority))) <$> s))
  | _ => IterRet None
  end.
Definition order_solver (g : UCanonicalGoal) (m : Minimums)
    (ctx : FixedPoint.RecursiveContext UCanonicalGoal FallibleSolution) :
    outcome Empty_set (FallibleSolution * Minimums * FixedPoint.RecursiveContext UCanonicalGoal FallibleSolution) :=
  Val (order_answers g, m,
    FixedPoint.with_cache ctx (<[g := order_answers g]> <$> FixedPoint.cache ctx)).
Definition order_clauses : list ProgramClause := [order_clause 1 Low; order_clause 2 High; order_clause 3 Low].

Lemma clause_order_irrelevant_witness :
  ∃ answer m1 ctx1 m2 ctx2,
    FixedPoint.run_iteration order_solver (try_clauses order_attempt order_goal order_clauses None)
      Minimums.new (FixedPoint.new 10 10 (Some ∅)) = Val (answer, m1, ctx1) ∧
    FixedPoint.run_iteration order_solver (try_clauses order_attempt order_goal (rev order_clauses) None)
      Minimums.new (FixedPoint.new 10 10 (Some ∅)) = Val (answer, m2, ctx2).
Proof.
  apply (clause_order_irrelevant order_solver order_answers (λ _, True)); [|done|reflexivity| |].
  - intros g m ctx _. by eexists _, _.
  - intros c Hc. unfold order_clauses in Hc. rewrite !elem_of_cons, elem_of_nil in Hc.
    destruct Hc as [->|[->|[->|[]]]]; (eexists; split; [reflexivity|]);
      intros s p [= <- _]; eexists; reflexivity.
  - apply Permutation_rev.
Defined.

(** ** Goals with inputs *)

(** [<?0 as T>::A = ?1], with one candidate of high priority and two of low
    priority that all take [u32] for [?0]. *)
Definition projection_goal : DomainGoal :=
  DgHolds (WcAliasEq (AliasProjection 0 [ArgTy (TyBoundVar (mkBoundVar 0 0))]) (TyBoundVar (mkBoundVar 0 1))).
Definition projection_attempt (c : ProgramClause) : Candidate :=
  match (clause_data c).(value).(consequence) with
  | DgObjectSafe n =>
      Some (Unique (mkCanonical (mkConstrainedSubst [ArgTy (TyScalar (ScUint U32)); ArgTy (TyForeign n)] []) []),
            (clause_data c).(value).(priority))
  | _ => None
  end.

(** For a projection goal the order of the clauses matters: [with_priorities]
    is not associative.  A clause of high priority overrides two clauses of low
    priority that come after it one by one, but not the merge of both when they
    come first. *)
Theorem clause_order_matters_for_projections :
  try_clauses (λ c, IterRet (projection_attempt c)) projection_goal
    [order_clause 2 High; order_clause 1 Low; order_clause 3 Low] None =
    IterRet (fst <$> projection_attempt (order_clause 2 High)) ∧
  try_clauses (λ c, IterRet (projection_attempt c)) projection_goal
    [order_clause 1 Low; order_clause 3 Low; order_clause 2 High] None = IterRet (Some (Ambig Unknown)).
Proof. split; reflexivity. Qed.
