(* ===== verification/Aggregate.v ===== *)
(** * Aggregating answers ([chalk-engine/src/slg/aggregate.rs], [slg.rs], [context.rs])

    The SLG solver enumerates answers; [make_solution] draws as many as it needs
    and merges them by anti-unification into one [Solution]. *)

From stdpp Require Import base list numbers.
From S2P Require Import Prelude Ir Fold FoldLaws Shift Ena Infer Canonicalize UCanonicalize Zip Solve.

Record CompleteAnswer := mkCompleteAnswer {
  complete_subst : Canonical ConstrainedSubst;
  complete_ambiguous : bool
}.

Inductive AnswerResult :=
  | AnswerOf (answer : CompleteAnswer)
  | NoMoreSolutions
  | AnswerFloundered
  | QuantumExceeded.

Definition is_answer (self : AnswerResult) : bool := match self with AnswerOf _ => true | _ => false end.
(** [AnswerResult::answer]. *)
Definition answer_of (self : AnswerResult) : Fallible CompleteAnswer :=
  match self with AnswerOf a => Val a | _ => Panic PExplicit end.
Definition is_no_more_solutions (self : AnswerResult) : bool :=
  match self with NoMoreSolutions => true | _ => false end.
Definition is_quantum_exceeded (self : AnswerResult) : bool :=
  match self with QuantumExceeded => true | _ => false end.

(** The trait [AnswerStream] for a stream with states [S]; the calls of the
    argument [should_continue] are part of [S]. *)
Class AnswerStream (S : Type) := {
  peek_answer : ST S AnswerResult;
  next_answer : ST S AnswerResult;
  any_future_answer : S → (Substitution → Fallible bool) → Fallible bool
}.

(** The two lists element by element, [zip] and [map]. *)
Definition zip_mapM {M : Type → Type} `{MRet M, MBind M} {A B C} (f : A → B → M C) :
    list A → list B → M (list C) :=
  fix go la lb :=
    match la, lb with
    | a :: la, b :: lb => c ← f a b; cs ← go la lb; mret (c :: cs)
    | _, _ => mret []
    end.

Section AntiUnifier.
Context {E : Type} `{EnaOps E}.
Context (db : UnificationDatabase) (universe : UniverseIndex).
Abbreviation M := (ST (InferenceTable E)).

Definition new_inference_variable : M InferenceVar := λ infer, Val (new_variable universe infer).
Definition new_ty_variable : M Ty := v ← new_inference_variable; mret (var_to_ty v).
Definition new_lifetime_variable : M Lifetime := v ← new_inference_variable; mret (var_to_lifetime v).
Definition new_const_variable (ty : Ty) : M Const := v ← new_inference_variable; mret (var_to_const v ty).

Definition aggregate_lifetimes (l1 l2 : Lifetime) : M Lifetime :=
  match l1, l2 with
  | LtBoundVar _, _ | _, LtBoundVar _ => new_lifetime_variable
  | _, _ => if decide (l1 = l2) then mret l1 else new_lifetime_variable
  end.

Definition aggregate_consts (c1 c2 : Const) : M Const :=
  let ty := const_ty c1 in
  match const_value c1, const_value c2 with
  | CvInferenceVar _, _ | _, CvInferenceVar _ => new_const_variable ty
  | CvBoundVar _, _ | _, CvBoundVar _ => new_const_variable ty
  | CvPlaceholder _, CvPlaceholder _ => if decide (c1 = c2) then mret c1 else new_const_variable ty
  | CvConcrete e1, CvConcrete e2 =>
      if db.(db_const_eq) ty e1 e2 then mret c1 else new_const_variable ty
  | CvPlaceholder _, _ | _, CvPlaceholder _ => new_const_variable ty
  end.

Definition aggregate_placeholder_tys (index1 index2 : PlaceholderIndex) : M Ty :=
  if decide (index1 ≠ index2) then new_ty_variable else mret (TyPlaceholder index1).

(** [aggregate_name_and_substs] for two names that are equal or not. *)
Definition aggregate_name_and_substs (aggregate : GenericArg → GenericArg → M GenericArg)
    (same_name : bool) (s1 s2 : Substitution) : M (option Substitution) :=
  if same_name then
    _ ← st_lift (assert (length s1 =? length s2));
    s ← zip_mapM aggregate s1 s2;
    mret (Some s)
  else mret None.

(** [.map(..).unwrap_or_else(|| self.new_ty_variable())]. *)
Definition name_or_variable (make : Substitution → Ty) (r : M (option Substitution)) : M Ty :=
  o ← r;
  match o with Some s => mret (make s) | None => new_ty_variable end.

Fixpoint aggregate_tys (ty0 ty1 : Ty) : M Ty :=
  let names (make : Substitution → Ty) same s1 s2 :=
    name_or_variable make (aggregate_name_and_substs aggregate_generic_args same s1 s2) in
  match ty0, ty1 with
  | TyInferenceVar _ _, TyInferenceVar _ _ => new_ty_variable
  | TyBoundVar _, TyBoundVar _ | TyFunction _ _ _, TyFunction _ _ _ | TyDyn _ _, TyDyn _ _ => new_ty_variable
  | TyAlias (AliasProjection id1 s1), TyAlias (AliasProjection id2 s2) =>
      names (λ s, TyAlias (AliasProjection id1 s)) (bool_decide (id1 = id2)) s1 s2
  | TyAlias (AliasOpaque id1 s1), TyAlias (AliasOpaque id2 s2) =>
      names (λ s, TyAlias (AliasOpaque id1 s)) (bool_decide (id1 = id2)) s1 s2
  | TyPlaceholder p1, TyPlaceholder p2 => aggregate_placeholder_tys p1 p2
  | TyAdt id_a s_a, TyAdt id_b s_b => names (TyAdt id_a) (bool_decide (id_a = id_b)) s_a s_b
  | TyAssociatedType id_a s_a, TyAssociatedType id_b s_b =>
      names (TyAssociatedType id_a) (bool_decide (id_a = id_b)) s_a s_b
  | TyScalar a, TyScalar b => if decide (a = b) then mret (TyScalar a) else new_ty_variable
  | TyStr, TyStr => mret TyStr
  | TyTuple a s_a, TyTuple b s_b => names (TyTuple a) (bool_decide (a = b)) s_a s_b
  | TyOpaqueType id_a s_a, TyOpaqueType id_b s_b =>
      names (TyOpaqueType id_a) (bool_decide (id_a = id_b)) s_a s_b
  | TySlice ty_a, TySlice ty_b => t ← aggregate_tys ty_a ty_b; mret (TySlice t)
  | TyFnDef id_a s_a, TyFnDef id_b s_b => names (TyFnDef id_a) (bool_decide (id_a = id_b)) s_a s_b
  | TyRef id_a lifetime_a ty_a, TyRef id_b lifetime_b ty_b =>
      if decide (id_a = id_b) then
        l ← aggregate_lifetimes lifetime_a lifetime_b;
        t ← aggregate_tys ty_a ty_b;
        mret (TyRef id_a l t)
      else new_ty_variable
  | TyRaw id_a ty_a, TyRaw id_b ty_b =>
      if decide (id_a = id_b) then t ← aggregate_tys ty_a ty_b; mret (TyRaw id_a t)
      else new_ty_variable
  | TyNever, TyNever => mret TyNever
  | TyArray ty_a const_a, TyArray ty_b const_b =>
      t ← aggregate_tys ty_a ty_b;
      c ← aggregate_consts const_a const_b;
      mret (TyArray t c)
  | TyClosure id_a s_a, TyClosure id_b s_b => names (TyClosure id_a) (bool_decide (id_a = id_b)) s_a s_b
  | TyGenerator id_a s_a, TyGenerator id_b s_b =>
      names (TyGenerator id_a) (bool_decide (id_a = id_b)) s_a s_b
  | TyGeneratorWitness id_a s_a, TyGeneratorWitness id_b s_b =>
      names (TyGeneratorWitness id_a) (bool_decide (id_a = id_b)) s_a s_b
  | TyForeign id_a, TyForeign id_b =>
      if decide (id_a = id_b) then mret (TyForeign id_a) else new_ty_variable
  | TyError, TyError => mret TyError
  | _, _ => new_ty_variable
  end
with aggregate_generic_args (p1 p2 : GenericArg) : M GenericArg :=
  match p1, p2 with
  | ArgTy ty1, ArgTy ty2 => t ← aggregate_tys ty1 ty2; mret (ArgTy t)
  | ArgLifetime l1, ArgLifetime l2 => l ← aggregate_lifetimes l1 l2; mret (ArgLifetime l)
  | ArgConst c1, ArgConst c2 => c ← aggregate_consts c1 c2; mret (ArgConst c)
  | _, _ => mpanic PExplicit
  end.
End AntiUnifier.

Section Merge.
Context {E : Type} `{EnaOps E}.
Context (fuel : nat) (db : UnificationDatabase).

(** One parameter of [merge_into_guidance]. *)
Definition merge_arg (root_binders : list CanonicalVarKind) (index : nat) (p1 p2 : GenericArg) :
    ST (InferenceTable E) GenericArg :=
  universe ← st_lift (match root_binders !! index with Some b => Val b.(kvalue) | None => Panic PIndex end);
  match p1 with
  | ArgLifetime _ => l ← new_lifetime_variable universe; mret (ArgLifetime l)
  | _ => aggregate_generic_args db universe p1 p2
  end.

Fixpoint merge_args (root_binders : list CanonicalVarKind) (index : nat) (s1 s2 : Substitution) :
    ST (InferenceTable E) Substitution :=
  match s1, s2 with
  | p1 :: s1, p2 :: s2 =>
      p ← merge_arg root_binders index p1 p2;
      s ← merge_args root_binders (S index) s1 s2;
      mret (p :: s)
  | _, _ => mret []
  end.

Definition merge_into_guidance {G} (root_goal : Canonical G) (guidance : Canonical Substitution)
    (answer : Canonical ConstrainedSubst) : Fallible (Canonical Substitution) :=
  '(aggr_subst, infer) ←
    merge_args root_goal.(cbinders) 0 guidance.(cvalue) answer.(cvalue).(csubst) table_new;
  c ← canonicalize fuel aggr_subst infer;
  Val c.(quantified).
End Merge.

Definition ty_bound_var (t : Ty) : option BoundVar := match t with TyBoundVar bv => Some bv | _ => None end.
Definition const_bound_var (c : Const) : option BoundVar :=
  match const_value c with CvBoundVar bv => Some bv | _ => None end.

Definition is_trivial_arg (index : nat) (parameter : GenericArg) : bool :=
  let is_trivial (b : option BoundVar) :=
    match b with
    | None => false
    | Some bound_var =>
        match index_if_innermost bound_var with Some index1 => index =? index1 | None => false end
    end in
  match parameter with
  | ArgTy t => is_trivial (ty_bound_var t)
  | ArgConst t => is_trivial (const_bound_var t)
  | ArgLifetime _ => false
  end.
Definition is_trivial (subst : Canonical Substitution) : bool :=
  forallb id (imap is_trivial_arg subst.(cvalue)).

(** ** [MayInvalidate] *)

Section MayInvalidate.
Context (db : UnificationDatabase).

(** [iter().zip(..).any(f)]. *)
Definition any_zip {A B} (f : A → B → Fallible bool) : list A → list B → Fallible bool :=
  fix go la lb :=
    match la, lb with
    | a :: la, b :: lb => r ← f a b; if r : bool then Val true else go la lb
    | _, _ => Val false
    end.

Definition or_else (a : bool) (b : Fallible bool) : Fallible bool := if a then Val true else b.

Definition invalidate_lifetimes (new current : Lifetime) : bool := true.

Definition invalidate_name_and_substs (invalidate : GenericArg → GenericArg → Fallible bool)
    (same_name : bool) (new current : Substitution) : Fallible bool :=
  if same_name then
    _ ← assert (length new =? length current);
    any_zip invalidate new current
  else Val true.

Fixpoint invalidate_tys (new current : Ty) : Fallible bool :=
  let names same s1 s2 := invalidate_name_and_substs invalidate_generic_args same s1 s2 in
  match new, current with
  | _, TyBoundVar _ => Val false
  | TyBoundVar _, _ => Val true
  | TyInferenceVar _ _, _ | _, TyInferenceVar _ _ => Panic PExplicit
  | TyPlaceholder p1, TyPlaceholder p2 => Val (bool_decide (p1 ≠ p2))
  | TyAlias (AliasProjection id1 s1), TyAlias (AliasProjection id2 s2)
  | TyAlias (AliasOpaque id1 s1), TyAlias (AliasOpaque id2 s2) => names (bool_decide (id1 = id2)) s1 s2
  | TyAdt id1 s1, TyAdt id2 s2
  | TyAssociatedType id1 s1, TyAssociatedType id2 s2
  | TyOpaqueType id1 s1, TyOpaqueType id2 s2
  | TyFnDef id1 s1, TyFnDef id2 s2
  | TyClosure id1 s1, TyClosure id2 s2
  | TyGenerator id1 s1, TyGenerator id2 s2
  | TyGeneratorWitness id1 s1, TyGeneratorWitness id2 s2 => names (bool_decide (id1 = id2)) s1 s2
  | TyScalar a, TyScalar b => Val (bool_decide (a ≠ b))
  | TyStr, TyStr => Val false
  | TyTuple a s1, TyTuple b s2 => names (bool_decide (a = b)) s1 s2
  | TySlice ty_a, TySlice ty_b => invalidate_tys ty_a ty_b
  | TyRef id_a lifetime_a ty_a, TyRef id_b lifetime_b ty_b =>
      or_else (bool_decide (id_a ≠ id_b))
        (or_else (invalidate_lifetimes lifetime_a lifetime_b) (invalidate_tys ty_a ty_b))
  | TyRaw id_a ty_a, TyRaw id_b ty_b => or_else (bool_decide (id_a ≠ id_b)) (invalidate_tys ty_a ty_b)
  | TyNever, TyNever => Val false
  | TyArray ty_a const_a, TyArray ty_b const_b =>
      b ← invalidate_tys ty_a ty_b;
      or_else b (invalidate_consts const_a const_b)
  | TyForeign id_a, TyForeign id_b => Val (bool_decide (id_a ≠ id_b))
  | TyError, TyError => Val false
  | _, _ => Val true
  end
with invalidate_consts (new current : Const) : Fallible bool :=
  let 'mkConst new_ty new_value := new in
  let 'mkConst current_ty current_value := current in
  b ← invalidate_tys new_ty current_ty;
  or_else b
    match new_value, current_value with
    | _, CvBoundVar _ => Val false
    | CvBoundVar _, _ => Val true
    | CvInferenceVar _, _ | _, CvInferenceVar _ => Panic PExplicit
    | CvPlaceholder p1, CvPlaceholder p2 => Val (bool_decide (p1 ≠ p2))
    | CvConcrete c1, CvConcrete c2 => Val (negb (db.(db_const_eq) new_ty c1 c2))
    | CvPlaceholder _, _ | CvConcrete _, _ => Val true
    end
with invalidate_generic_args (new current : GenericArg) : Fallible bool :=
  match new, current with
  | ArgTy ty1, ArgTy ty2 => invalidate_tys ty1 ty2
  | ArgLifetime l1, ArgLifetime l2 => Val (invalidate_lifetimes l1 l2)
  | ArgConst c1, ArgConst c2 => invalidate_consts c1 c2
  | _, _ => Panic PExplicit
  end.

Definition may_invalidate (self : Substitution) (subst : Canonical Substitution) : Fallible bool :=
  any_zip invalidate_generic_args self subst.(cvalue).
End MayInvalidate.

(** ** [make_solution] *)

Section MakeSolution.
Context {E : Type} `{EnaOps E} {S : Type} `{AnswerStream S}.
Context (fuel : nat) (db : UnificationDatabase) (expected_answers : option nat).

(** [SlgContextOps::identity_constrained_subst]. *)
Definition identity_constrained_subst {G} `{Fold G} (goal : UCanonical G) :
    Fallible (Canonical ConstrainedSubst) :=
  '(infer, subst, _) ← from_canonical (E := E) goal.(universes) goal.(canonical);
  c ← canonicalize fuel (mkConstrainedSubst subst []) infer;
  Val c.(quantified).

(** The loop that merges the answers; [n] bounds their number. *)
Fixpoint merge_answers {G} `{Fold G} (n : nat) (root_goal : UCanonical G)
    (subst : Canonical Substitution) (num_answers : nat) : ST S (Guidance * nat) :=
  match n with
  | 0 => λ _, OutOfFuel
  | Datatypes.S n =>
      if match subst.(cvalue) with [] => true | _ => is_trivial subst end then mret (Unknown, num_answers)
      else
        answers ← st_get;
        any ← st_lift (any_future_answer answers (λ new_subst, may_invalidate db new_subst subst));
        if negb any then mret (Definite subst, num_answers)
        else
          _ ← (match expected_answers with
               | Some e => if e <=? num_answers then mpanic PExplicit else mret tt
               | None => mret tt
               end : ST S unit);
          next ← next_answer;
          let merge (new_subst : Canonical ConstrainedSubst) : ST S (Guidance * nat) :=
            subst ← st_lift (merge_into_guidance (E := E) fuel db root_goal.(canonical) subst new_subst);
            merge_answers n root_goal subst (num_answers + 1) in
          match next with
          | AnswerOf answer1 => merge answer1.(complete_subst)
          | AnswerFloundered => s ← st_lift (identity_constrained_subst root_goal); merge s
          | NoMoreSolutions => mret (Definite subst, num_answers)
          | QuantumExceeded => mret (Suggested subst, num_answers)
          end
  end.

(** [make_solution] from its first answer on. *)
Definition solution_from {G} `{Fold G} (n : nat) (root_goal : UCanonical G)
    (answer : CompleteAnswer) : ST S (option Solution) :=
  let subst := answer.(complete_subst) in
  next ← peek_answer;
  if is_quantum_exceeded next then
    if is_identity_subst subst.(cvalue).(csubst) then mret (Some (Ambig Unknown))
    else s ← st_lift (canonical_map (E := E) fuel subst csubst); mret (Some (Ambig (Suggested s)))
  else if is_no_more_solutions next && negb answer.(complete_ambiguous) then mret (Some (Unique subst))
  else
    subst ← st_lift (canonical_map (E := E) fuel subst csubst);
    '(guidance, num_answers) ← merge_answers n root_goal subst 1;
    _ ← (match expected_answers with
         | Some e => st_lift (assert (e =? num_answers))
         | None => mret tt
         end : ST S unit);
    mret (Some (Ambig guidance)).

Definition make_solution {G} `{Fold G} (n : nat) (root_goal : UCanonical G) : ST S (option Solution) :=
  first ← next_answer;
  match first with
  | NoMoreSolutions => mret None
  | AnswerOf answer => solution_from n root_goal answer
  | AnswerFloundered =>
      s ← st_lift (identity_constrained_subst root_goal);
      solution_from n root_goal (mkCompleteAnswer s true)
  | QuantumExceeded => mret (Some (Ambig Unknown))
  end.
End MakeSolution.
