(* ===== verification/InvalidateThm.v ===== *)
(** * What [may_invalidate] decides

    The SLG solver stops enumerating answers when no future answer may invalidate
    the guidance that it has, and calls the guidance definite.  This is right
    when no variable of the guidance occurs twice: an answer that does not
    invalidate the guidance is then an instance of it.  It is wrong in general. *)

From stdpp Require Import base list numbers.
From S2P Require Import Prelude Ir Fold FoldLaws Shift ShiftThm Ena Infer Zip Solve Aggregate.

(** ** The variables of a canonical value *)

Definition leaf_index (l : Leaf) : option nat :=
  match l with
  | LeafTyVar bv d | LeafLtVar bv d | LeafCtVar _ bv d => index_if_bound_at bv d
  | _ => None
  end.
Definition leaf_scoped (l : Leaf) : Prop :=
  match l with
  | LeafTyVar bv d | LeafLtVar bv d | LeafCtVar _ bv d => bv.(debruijn) ≤ d
  | _ => True
  end.

Definition canonical_vars (l : list Leaf) : list nat := omap leaf_index l.

(** No variable of the binders occurs twice, and no other variable is free. *)
Definition linear (l : list Leaf) : Prop := Forall leaf_scoped l ∧ NoDup (canonical_vars l).

Lemma linear_app l k :
  linear (l ++ k) → linear l ∧ linear k ∧ (∀ i, i ∈ canonical_vars l → i ∉ canonical_vars k).
Proof.
  unfold linear, canonical_vars. rewrite Forall_app, omap_app, NoDup_app.
  intros [[? ?] (? & ? & ?)]. split_and!; try done.
Qed.

(** ** Instances *)

(** Some values for the variables [vars] make [fold] return [new]. *)
Definition instantiates {A} (fold : Folder Fallible → Fallible A) (vars : list nat) (new : A) : Prop :=
  ∃ σ : nat → GenericArg, ∀ ps, (∀ i, i ∈ vars → ps !! i = Some (σ i)) → fold (SubstFolder ps) = Val new.

Lemma instantiates_ret {A} (a : A) vars (fold : Folder Fallible → Fallible A) :
  (∀ ps, fold (SubstFolder ps) = Val a) → instantiates fold vars a.
Proof. intros Hf. exists (λ _, ArgTy TyStr). intros ps _. apply Hf. Qed.

Lemma instantiates_pair {A B C} (f : Folder Fallible → Fallible A) (g : Folder Fallible → Fallible B)
    (h : Folder Fallible → Fallible C) (mk : A → B → C) va vb a b :
  instantiates f va a → instantiates g vb b → (∀ i, i ∈ va → i ∉ vb) →
  (∀ ps, f (SubstFolder ps) = Val a → g (SubstFolder ps) = Val b → h (SubstFolder ps) = Val (mk a b)) →
  instantiates h (va ++ vb) (mk a b).
Proof.
  intros [σ Hf] [τ Hg] Hdis Hh.
  exists (λ i, if decide (i ∈ va) then σ i else τ i). intros ps Hps. apply Hh.
  - apply Hf. intros i Hi. rewrite Hps by (apply elem_of_app; auto). by rewrite decide_True.
  - apply Hg. intros i Hi. rewrite Hps by (apply elem_of_app; auto). rewrite decide_False; [done|].
    intros Hi'. by eapply Hdis.
Qed.

Lemma instantiates_map {A B} (f : Folder Fallible → Fallible A) (h : Folder Fallible → Fallible B)
    (mk : A → B) va a :
  instantiates f va a → (∀ ps, f (SubstFolder ps) = Val a → h (SubstFolder ps) = Val (mk a)) → instantiates h va (mk a).
Proof. intros [σ Hf] Hh. exists σ. intros ps Hps. by apply Hh, Hf. Qed.

Lemma shift_0 {A} `{FoldLaws A} (a : A) : term_shifted_in_from a 0 = Val a.
Proof. unfold term_shifted_in_from. by rewrite shifter_0. Qed.

(** A variable of the binders is replaced by its value. *)
Lemma SubstFolder_var {A} `{FoldLaws A} ps (select : GenericArg → Fallible A) i p a :
  ps !! i = Some p → select p = Val a →
  SubstFolder_free_var ps select (mkBoundVar 0 i) 0 = Val a.
Proof.
  intros Hp Ha. unfold SubstFolder_free_var, param_at. simpl. rewrite Hp. simpl. rewrite Ha. simpl.
  apply shift_0.
Qed.

Section Sound.
Context (db : UnificationDatabase).
Context (db_exact : ∀ ty a b, db.(db_const_eq) ty a b = true → a = b).

Abbreviation inst_ty current := (instantiates (λ F, fold_ty F current 0) (canonical_vars (leaves_ty current 0))).
Abbreviation inst_const current :=
  (instantiates (λ F, fold_const F current 0) (canonical_vars (leaves_const current 0))).
Abbreviation inst_arg current := (instantiates (λ F, fold_arg F current 0) (canonical_vars (leaves_arg current 0))).
Abbreviation inst_args current :=
  (instantiates (λ F, mapM (λ p, fold_arg F p 0) current)
     (canonical_vars (current ≫= λ a, leaves_arg a 0))).

Abbreviation ST' new := (∀ current, invalidate_tys db new current = Val false →
  linear (leaves_ty current 0) → inst_ty current new).
Abbreviation SC' new := (∀ current, invalidate_consts db new current = Val false →
  linear (leaves_const current 0) → inst_const current new).
Abbreviation SA' new := (∀ current, invalidate_generic_args db new current = Val false →
  linear (leaves_arg current 0) → inst_arg current new).

Lemma any_zip_cons {A B} (f : A → B → Fallible bool) a la b lb :
  any_zip f (a :: la) (b :: lb) = Val false → f a b = Val false ∧ any_zip f la lb = Val false.
Proof. simpl. destruct (f a b) as [[]| | |]; naive_solver. Qed.

Lemma inst_list new current :
  Forall (λ a, SA' a) new → length new = length current →
  any_zip (invalidate_generic_args db) new current = Val false →
  linear (current ≫= λ a, leaves_arg a 0) → inst_args current new.
Proof.
  intros HF. revert current. induction HF as [|a new Ha HF IH]; intros [|b current] Hlen Hany Hlin; try done.
  - by apply instantiates_ret.
  - apply any_zip_cons in Hany as [Hb Hany]. injection Hlen as Hlen.
    rewrite bind_cons in Hlin. apply linear_app in Hlin as (Hl1 & Hl2 & Hdis).
    rewrite bind_cons. unfold canonical_vars. rewrite omap_app.
    apply (instantiates_pair (λ F, fold_arg F b 0) (λ F, mapM (λ p, fold_arg F p 0) current) _ cons);
      [by apply Ha|by apply IH|done|].
    intros F H1 H2. simpl. by rewrite H1, H2.
Qed.

Lemma names_list new current same :
  Forall (λ a, SA' a) new →
  invalidate_name_and_substs (invalidate_generic_args db) same new current = Val false →
  linear (current ≫= λ a, leaves_arg a 0) → same = true ∧ inst_args current new.
Proof.
  intros HF Hi Hlin. destruct same; simpl in Hi; [|done]. split; [done|].
  apply bind_Val in Hi as (u & Hlen & Hi). apply assert_Val, Nat.eqb_eq in Hlen. by apply inst_list.
Qed.

(** The variable case. *)
Lemma inst_bound_ty new bv : linear [LeafTyVar bv 0] → inst_ty (TyBoundVar bv) new.
Proof.
  intros [Hsc _]. rewrite Forall_singleton in Hsc. simpl in Hsc.
  destruct bv as [b i]; simpl in *. assert (b = 0) as -> by lia.
  exists (λ _, ArgTy new). intros ps Hps. apply (SubstFolder_var ps assert_ty_ref i (ArgTy new)); [|done].
  apply Hps. by left.
Qed.

Lemma instantiates_weaken {A} (f : Folder Fallible → Fallible A) va vb new :
  instantiates f va new → (∀ i, i ∈ va → i ∈ vb) → instantiates f vb new.
Proof. intros [σ Hf] Hsub. exists σ. intros ps Hps. apply Hf. auto. Qed.

Lemma inst_const_value new_ty new_value ty value :
  or_else false
    match new_value, value with
    | _, CvBoundVar _ => Val false
    | CvBoundVar _, _ => Val true
    | CvInferenceVar _, _ | _, CvInferenceVar _ => Panic PExplicit
    | CvPlaceholder p1, CvPlaceholder p2 => Val (bool_decide (p1 ≠ p2))
    | CvConcrete c1, CvConcrete c2 => Val (negb (db.(db_const_eq) new_ty c1 c2))
    | CvPlaceholder _, _ | CvConcrete _, _ => Val true
    end = Val false →
  linear (leaves_const (mkConst ty value) 0) → inst_ty ty new_ty →
  inst_const (mkConst ty value) (mkConst new_ty new_value).
Proof.
  intros Hi Hlin Hty. unfold or_else in Hi. simpl in Hlin.
  apply linear_app in Hlin as (_ & [Hsc _] & _).
  assert (Hleaves : ∀ i, i ∈ canonical_vars (leaves_ty ty 0) → i ∈ canonical_vars (leaves_const (mkConst ty value) 0)).
  { intros i Hi'. unfold canonical_vars. simpl. rewrite omap_app. set_solver. }
  destruct value as [bv|?|p|c].
  - simpl in Hsc. rewrite Forall_singleton in Hsc. simpl in Hsc.
    destruct bv as [b i]; simpl in *. assert (b = 0) as -> by lia.
    exists (λ _, ArgConst (mkConst new_ty new_value)). intros ps Hps.
    apply (SubstFolder_var ps assert_const_ref i (ArgConst (mkConst new_ty new_value))); [|done].
    apply Hps. unfold canonical_vars. simpl. rewrite omap_app. set_solver.
  - by destruct new_value.
  - destruct new_value; try done. injection Hi as Hi. apply bool_decide_eq_false, dec_stable in Hi as ->.
    eapply instantiates_weaken; [|exact Hleaves].
    refine (instantiates_map _ _ (λ t, mkConst t _) _ _ Hty _). intros ps HF. simpl in *. by rewrite HF.
  - destruct new_value; try done. injection Hi as Hi. apply negb_false_iff, db_exact in Hi as ->.
    eapply instantiates_weaken; [|exact Hleaves].
    refine (instantiates_map _ _ (λ t, mkConst t _) _ _ Hty _). intros ps HF. simpl in *. by rewrite HF.
Qed.

Ltac names_case_by mk IH Hi Hlin :=
  destruct (names_list _ _ _ IH Hi Hlin) as [Hsame Hinst]; apply bool_decide_eq_true in Hsame; subst;
  refine (instantiates_map _ _ mk _ _ Hinst _);
  let ps := fresh in let HF := fresh in intros ps HF; simpl in *; by rewrite HF.
Ltac names_case IH Hi Hlin := names_case_by open_constr:(_) IH Hi Hlin.
Ltac leaf_case Hi :=
  simpl in Hi; injection Hi as Hi; apply bool_decide_eq_false, dec_stable in Hi as ->; by apply instantiates_ret.

Lemma may_invalidate_term :
  (∀ t, ST' t) ∧ (∀ c, SC' c) ∧ (∀ a, SA' a) ∧ (∀ a : AliasTy, ST' (TyAlias a)) ∧ (∀ w : WhereClause, True).
Proof.
  apply term_ind. constructor; try done.
  all: intros; match goal with
    | |- instantiates (λ F, fold_ty F ?c 0) _ _ => destruct c
    | _ => idtac
    end; try done; try (by apply inst_bound_ty); try (by apply instantiates_ret).
  all: try match goal with
    | IH : Forall _ _, Hi : invalidate_tys _ _ _ = _, Hl : linear _ |- _ => names_case IH Hi Hl
    | Hi : invalidate_tys _ _ _ = _ |- _ => leaf_case Hi
    end.
  - (* arrays *)
    simpl in H1. apply bind_Val in H1 as ([] & Ht & Hc); [done|]. simpl in Hc.
    simpl in H2. apply linear_app in H2 as (Hl1 & Hl2 & Hdis). simpl. unfold canonical_vars. rewrite omap_app.
    apply (instantiates_pair (λ F, fold_ty F current 0) (λ F, fold_const F c0 0) _ TyArray);
      [by apply H|by apply H0|done|]. intros ps Ha Hb. by rewrite Ha, Hb.
  - refine (instantiates_map _ _ TySlice _ _ (H current H0 H1) _). intros ps HF. simpl in *. by rewrite HF.
  - simpl in H0. unfold or_else in H0. case_bool_decide as Hm; [done|subst].
    refine (instantiates_map _ _ (TyRaw m0) _ _ (H current H0 H1) _). intros ps HF. simpl in *. by rewrite HF.
  - simpl in H0. unfold or_else in H0. by case_bool_decide.
  - destruct current as [t' v']. simpl in H0. apply bind_Val in H0 as ([] & Ht & Hc); [done|].
    apply inst_const_value; [done..|]. apply H; [done|]. simpl in H1. by apply linear_app in H1 as [? _].
  - destruct current; try done. simpl in H0.
    refine (instantiates_map _ _ ArgTy _ _ (H _ H0 H1) _). intros ps HF. simpl in *. by rewrite HF.
  - by destruct current.
  - destruct current; try done. simpl in H0.
    refine (instantiates_map _ _ ArgConst _ _ (H _ H0 H1) _). intros ps HF. simpl in *. by rewrite HF.
  - destruct a; try done. names_case_by (λ s, TyAlias (AliasProjection associated_ty_id s)) H H0 H1.
  - destruct a; try done. names_case_by (λ s, TyAlias (AliasOpaque opaque_ty_id s)) H H0 H1.
Qed.
End Sound.

(** ** The guidance *)

(** Some parameters make the value [v] out of the guidance [g]. *)
Definition instance_of (v g : Substitution) : Prop := ∃ params, subst_apply params g = Val v.

(** [may_invalidate] compares two lists of arguments. *)
(** C29. An answer that does not invalidate a guidance in which no variable occurs
    twice is an instance of this guidance, so that the guidance remains right
    when it is called definite. *)
Theorem may_invalidate_linear_sound db new (current : Canonical Substitution) :
  (∀ ty a b, db.(db_const_eq) ty a b = true → a = b) →
  length new = length current.(cvalue) →
  linear (current.(cvalue) ≫= λ a, leaves_arg a 0) →
  may_invalidate db new current = Val false →
  instance_of new current.(cvalue).
Proof.
  intros Hdb Hlen Hlin Hm.
  destruct (may_invalidate_term db Hdb) as (_ & _ & HA & _).
  destruct (inst_list db new current.(cvalue)) as [σ Hσ]; try done.
  { apply Forall_forall. intros a _. apply HA. }
  set (vars := canonical_vars (current.(cvalue) ≫= λ a, leaves_arg a 0)) in *.
  exists (map σ (seq 0 (S (max_list vars)))). unfold subst_apply.
  change (fold_with ?F current.(cvalue) INNERMOST) with (mapM (λ p, fold_arg F p 0) current.(cvalue)).
  rewrite Hσ; [done|]. intros i Hi. apply max_list_elem_of_le in Hi.
  rewrite list_lookup_fmap, lookup_seq_lt by lia. done.
Qed.

Definition exact_db := Build_UnificationDatabase (λ _, []) (λ _, []) (λ _, N.eqb).

Lemma may_invalidate_linear_sound_witness :
  instance_of [ArgTy (TySlice TyStr); ArgTy TyNever] [ArgTy (TySlice (TyBoundVar (mkBoundVar 0 1))); ArgTy TyNever].
Proof.
  apply (may_invalidate_linear_sound exact_db _
    (mkCanonical [ArgTy (TySlice (TyBoundVar (mkBoundVar 0 1))); ArgTy TyNever]
       [mkWithKind (VkTy General) universe_root; mkWithKind (VkTy General) universe_root])).
  - intros ty a b Hab. by apply N.eqb_eq.
  - reflexivity.
  - split; [repeat constructor|]. apply NoDup_singleton.
  - reflexivity.
Defined.

(** ** A guidance whose variable occurs twice *)

(** A stream of answers that are all known. *)
Definition stream_next (s : list CompleteAnswer) : AnswerResult * list CompleteAnswer :=
  match s with [] => (NoMoreSolutions, []) | a :: s => (AnswerOf a, s) end.
#[export] Instance list_AnswerStream : AnswerStream (list CompleteAnswer) := {|
  peek_answer := λ s, Val ((stream_next s).1, s);
  next_answer := λ s, Val (stream_next s);
  any_future_answer s test :=
    foldr (λ a r, b ← test a.(complete_subst).(cvalue).(csubst); or_else b r) (Val false) s
|}.

Definition two_types : list CanonicalVarKind := [mkWithKind (VkTy General) universe_root; mkWithKind (VkTy General) universe_root].
(** [exists<A, B> { A: Foo<B> }] with [impl<T> Foo<T> for T] and [impl Foo<str> for !]. *)
Definition two_types_goal : UCanonical (InEnvironment Goal) :=
  mkUCanonical (mkCanonical (mkInEnvironment []
    (GDomainGoal (DgHolds (WcImplemented (mkTraitRef 0
       [ArgTy (TyBoundVar (mkBoundVar 0 0)); ArgTy (TyBoundVar (mkBoundVar 0 1))]))))) two_types) 1.
Definition reflexive_answer : CompleteAnswer :=
  mkCompleteAnswer (mkCanonical (mkConstrainedSubst
    [ArgTy (TyBoundVar (mkBoundVar 0 0)); ArgTy (TyBoundVar (mkBoundVar 0 0))] []) [mkWithKind (VkTy General) universe_root]) false.
Definition other_answer : CompleteAnswer :=
  mkCompleteAnswer (mkCanonical (mkConstrainedSubst [ArgTy TyNever; ArgTy TyStr] []) []) false.

(** C30. The guidance that [make_solution] calls definite need not cover the
    answers: a first answer that makes two variables equal is not invalidated by
    any other answer, although this other answer is no instance of it. *)
Theorem definite_guidance_misses_answer :
  make_solution (E := UnionFind.t) 100 exact_db None 10 two_types_goal [reflexive_answer; other_answer] =
    Val (Some (Ambig (Definite (mkCanonical reflexive_answer.(complete_subst).(cvalue).(csubst) reflexive_answer.(complete_subst).(cbinders)))), [other_answer]) ∧
  ¬ instance_of other_answer.(complete_subst).(cvalue).(csubst)
      reflexive_answer.(complete_subst).(cvalue).(csubst).
Proof.
  split; [vm_compute; reflexivity|].
  intros [params Hp]. unfold subst_apply in Hp.
  change (fold_with ?F _ INNERMOST) with
    (mapM (λ p, fold_arg F p 0) reflexive_answer.(complete_subst).(cvalue).(csubst)) in Hp.
  revert Hp. cbn [reflexive_answer complete_subst cvalue csubst mapM].
  change (mapM ?f [?x; ?x]) with (y ← f x; k ← (y ← f x; mret [y]); mret (y :: k)).
  generalize (fold_arg (SubstFolder params) (ArgTy (TyBoundVar (mkBoundVar 0 0))) 0).
  intros [] ?; simplify_eq/=.
Qed.
