(* ===== verification/ExClause.v ===== *)
(** * The data of the SLG solver
    ([chalk-engine/src/lib.rs], [strand.rs], [derived.rs], [table.rs], [tables.rs], [stack.rs])

    X-clauses, literals, strands, time stamps and answers, with the folds that
    [chalk-derive] generates for them.  A table holds the answers to one goal and the
    strands that may give more; the tables are indexed by their goals.  The stack holds
    the tables in progress. *)

From stdpp Require Import base list numbers gmap.
From S2P Require Import Prelude Ir Fold FoldLaws UCanonicalize IrCountable.

(** ** Time stamps *)

Record TimeStamp := mkTimeStamp { clock : N }.
#[global] Instance TimeStamp_eq_dec : EqDecision TimeStamp. Proof. solve_decision. Defined.
Definition u64_MAX : N := 18446744073709551615.
Definition time_zero : TimeStamp := mkTimeStamp 0.
Definition time_MAX : TimeStamp := mkTimeStamp u64_MAX.
(** The addition is checked. *)
Definition increment {E} (self : TimeStamp) : outcome E TimeStamp :=
  if (self.(clock) <? u64_MAX)%N then Val (mkTimeStamp (self.(clock) + 1)) else Panic POverflow.
Definition time_lt (a b : TimeStamp) : bool := (a.(clock) <? b.(clock))%N.
Definition time_le (a b : TimeStamp) : bool := (a.(clock) <=? b.(clock))%N.
Definition time_min (a b : TimeStamp) : TimeStamp := mkTimeStamp (N.min a.(clock) b.(clock)).

Record Minimums := mkMinimums { min_positive : TimeStamp; min_negative : TimeStamp }.
Definition Minimums_MAX : Minimums := mkMinimums time_MAX time_MAX.
Definition take_minimums (self other : Minimums) : Minimums :=
  mkMinimums (time_min self.(min_positive) other.(min_positive))
    (time_min self.(min_negative) other.(min_negative)).
Definition minimum_of_pos_and_neg (self : Minimums) : TimeStamp :=
  time_min self.(min_positive) self.(min_negative).

(** ** X-clauses *)

Inductive Literal :=
  | Positive (goal : InEnvironment Goal)
  | Negative (goal : InEnvironment Goal).
#[global] Instance Literal_eq_dec : EqDecision Literal. Proof. solve_decision. Defined.

Record FlounderedSubgoal := mkFlounderedSubgoal {
  floundered_literal : Literal;
  floundered_time : TimeStamp
}.
#[global] Instance FlounderedSubgoal_eq_dec : EqDecision FlounderedSubgoal. Proof. solve_decision. Defined.

Record ExClause := mkExClause {
  ex_subst : Substitution;
  ambiguous : bool;
  ex_constraints : list (InEnvironment Constraint);
  subgoals : list Literal;
  ex_delayed_subgoals : list (InEnvironment Goal);
  answer_time : TimeStamp;
  floundered_subgoals : list FlounderedSubgoal
}.
#[global] Instance ExClause_eq_dec : EqDecision ExClause. Proof. solve_decision. Defined.

Record Answer := mkAnswer { answer_subst : Canonical AnswerSubst; answer_ambiguous : bool }.
#[global] Instance Answer_eq_dec : EqDecision Answer. Proof. solve_decision. Defined.

Inductive AnswerMode := AmComplete | AmAmbiguous.
#[global] Instance AnswerMode_eq_dec : EqDecision AnswerMode. Proof. solve_decision. Defined.

(** ** Strands *)

Record SelectedSubgoal := mkSelectedSubgoal {
  subgoal_index : nat;
  subgoal_table : nat;
  answer_index : nat;
  universe_map : UniverseMap
}.
#[global] Instance UniverseMap_eq_dec : EqDecision UniverseMap. Proof. solve_decision. Defined.
#[global] Instance SelectedSubgoal_eq_dec : EqDecision SelectedSubgoal. Proof. solve_decision. Defined.

Record Strand := mkStrand {
  ex_clause : ExClause;
  selected_subgoal : option SelectedSubgoal;
  last_pursued_time : TimeStamp
}.
#[global] Instance Strand_eq_dec : EqDecision Strand. Proof. solve_decision. Defined.
Abbreviation CanonicalStrand := (Canonical Strand).

(** ** Folds *)

#[global] Instance Fold_Literal : Fold Literal := λ _ _ _ F l d,
  match l with
  | Positive g => g ← fold_with F g d; mret (Positive g)
  | Negative g => g ← fold_with F g d; mret (Negative g)
  end.
#[global] Instance Fold_FlounderedSubgoal : Fold FlounderedSubgoal := λ _ _ _ F f d,
  l ← fold_with F f.(floundered_literal) d;
  mret (mkFlounderedSubgoal l f.(floundered_time)).
#[global] Instance Fold_ExClause : Fold ExClause := λ _ _ _ F c d,
  s ← fold_with F c.(ex_subst) d;
  cs ← fold_with F c.(ex_constraints) d;
  gs ← fold_with F c.(subgoals) d;
  ds ← fold_with F c.(ex_delayed_subgoals) d;
  fs ← fold_with F c.(floundered_subgoals) d;
  mret (mkExClause s c.(ambiguous) cs gs ds c.(answer_time) fs).
#[global] Instance Fold_Strand : Fold Strand := λ _ _ _ F s d,
  c ← fold_with F s.(ex_clause) d;
  mret (mkStrand c s.(selected_subgoal) s.(last_pursued_time)).

(** ** Updates of fields *)

Definition set_subgoals (l : list Literal) (c : ExClause) : ExClause :=
  mkExClause c.(ex_subst) c.(ambiguous) c.(ex_constraints) l c.(ex_delayed_subgoals) c.(answer_time)
    c.(floundered_subgoals).
Definition set_ambiguous (c : ExClause) : ExClause :=
  mkExClause c.(ex_subst) true c.(ex_constraints) c.(subgoals) c.(ex_delayed_subgoals) c.(answer_time)
    c.(floundered_subgoals).
Definition set_answer_time (t : TimeStamp) (c : ExClause) : ExClause :=
  mkExClause c.(ex_subst) c.(ambiguous) c.(ex_constraints) c.(subgoals) c.(ex_delayed_subgoals) t
    c.(floundered_subgoals).
Definition set_floundered (l : list FlounderedSubgoal) (c : ExClause) : ExClause :=
  mkExClause c.(ex_subst) c.(ambiguous) c.(ex_constraints) c.(subgoals) c.(ex_delayed_subgoals)
    c.(answer_time) l.
Definition extend_delayed (l : list (InEnvironment Goal)) (c : ExClause) : ExClause :=
  mkExClause c.(ex_subst) c.(ambiguous) c.(ex_constraints) c.(subgoals) (c.(ex_delayed_subgoals) ++ l)
    c.(answer_time) c.(floundered_subgoals).
Definition extend_ex_constraints (l : list (InEnvironment Constraint)) (c : ExClause) : ExClause :=
  mkExClause c.(ex_subst) c.(ambiguous) (c.(ex_constraints) ++ l) c.(subgoals) c.(ex_delayed_subgoals)
    c.(answer_time) c.(floundered_subgoals).
Definition extend_subgoals (l : list Literal) (c : ExClause) : ExClause :=
  set_subgoals (c.(subgoals) ++ l) c.

Definition set_ex_clause (c : ExClause) (s : Strand) : Strand :=
  mkStrand c s.(selected_subgoal) s.(last_pursued_time).
Definition set_selected (o : option SelectedSubgoal) (s : Strand) : Strand :=
  mkStrand s.(ex_clause) o s.(last_pursued_time).
Definition set_pursued (t : TimeStamp) (s : Strand) : Strand :=
  mkStrand s.(ex_clause) s.(selected_subgoal) t.
(** An update under the binders of a canonical value. *)
Definition in_canonical {T} (f : T → T) (c : Canonical T) : Canonical T :=
  mkCanonical (f c.(cvalue)) c.(cbinders).

(** The clause that [simplify_goal] and [resolvent_clause] start from. *)
Definition ex_clause_new (subst : Substitution) : ExClause :=
  mkExClause subst false [] [] [] time_zero [].

(** [SlgContext::next_subgoal_index]: the last subgoal. *)
Definition next_subgoal_index {E} (c : ExClause) : outcome E nat :=
  match c.(subgoals) with [] => Panic POverflow | _ => Val (length c.(subgoals) - 1) end.

(** [Vec::remove]: the element and the rest. *)
Definition vec_remove {E A} (l : list A) (i : nat) : outcome E (A * list A) :=
  match l !! i with Some x => Val (x, delete i l) | None => Panic PIndex end.

(** [flounder_subgoal]. *)
Definition flounder_subgoal {E} (c : ExClause) (subgoal_index : nat) : outcome E ExClause :=
  '(floundered_literal, rest) ← vec_remove c.(subgoals) subgoal_index;
  Val (set_floundered (c.(floundered_subgoals) ++ [mkFlounderedSubgoal floundered_literal c.(answer_time)])
    (set_subgoals rest c)).

(** [Vec::swap_remove]: the last element takes the place of the removed one. *)
Definition swap_remove {A} (l : list A) (i : nat) : list A :=
  match last l with
  | Some x => if decide (i = length l - 1) then removelast l else <[i := x]> (removelast l)
  | None => l
  end.

(** The loop of [reconsider_floundered_subgoals], from the index [i - 1] down. *)
Fixpoint reconsider_from (i : nat) (c : ExClause) : ExClause :=
  match i with
  | 0 => c
  | S i =>
      reconsider_from i
        match c.(floundered_subgoals) !! i with
        | Some f =>
            if time_lt f.(floundered_time) c.(answer_time) then
              set_subgoals (c.(subgoals) ++ [f.(floundered_literal)])
                (set_floundered (swap_remove c.(floundered_subgoals) i) c)
            else c
        | None => c
        end
  end.
Definition reconsider_floundered_subgoals (c : ExClause) : ExClause :=
  reconsider_from (length c.(floundered_subgoals)) c.

(** * Tables and the stack ([chalk-engine/src/table.rs], [tables.rs], [stack.rs]) *)

#[global] Instance AnswerSubst_countable : Countable AnswerSubst.
Proof.
  refine (inj_countable' (λ a, (a.(asubst), a.(aconstraints), a.(delayed_subgoals)))
    (λ '(s, cs, ds), mkAnswerSubst s cs ds) _). by intros [].
Defined.

(** ** [Table] *)

Abbreviation TableGoal := (UCanonical (InEnvironment Goal)).

Record Table := mkTable {
  table_goal : TableGoal;
  coinductive_goal : bool;
  floundered : bool;
  answers : list Answer;
  answers_hash : gmap (Canonical AnswerSubst) bool;
  strands : list CanonicalStrand;
  answer_mode : AnswerMode
}.

Definition table_of_goal (goal : TableGoal) (coinductive : bool) : Table :=
  mkTable goal coinductive false [] ∅ [] AmComplete.

Definition set_strands (l : list CanonicalStrand) (self : Table) : Table :=
  mkTable self.(table_goal) self.(coinductive_goal) self.(floundered) self.(answers)
    self.(answers_hash) l self.(answer_mode).
Definition set_answer_mode (m : AnswerMode) (self : Table) : Table :=
  mkTable self.(table_goal) self.(coinductive_goal) self.(floundered) self.(answers)
    self.(answers_hash) self.(strands) m.

Definition enqueue_strand (strand : CanonicalStrand) (self : Table) : Table :=
  set_strands (self.(strands) ++ [strand]) self.

Definition take_strands (self : Table) : list CanonicalStrand * Table :=
  (self.(strands), set_strands [] self).

(** The strands before the chosen one go to the end of the queue. *)
Definition dequeue_next_strand_that (test : CanonicalStrand → bool) (self : Table) :
    option CanonicalStrand * Table :=
  match list_find (λ s, test s) self.(strands) with
  | Some (first, s) => (Some s, set_strands (drop (S first) self.(strands) ++ take first self.(strands)) self)
  | None => (None, self)
  end.

Definition mark_floundered (self : Table) : Table :=
  mkTable self.(table_goal) self.(coinductive_goal) true [] self.(answers_hash) [] self.(answer_mode).

Definition push_answer {E} (answer : Answer) (self : Table) : outcome E (option nat * Table) :=
  _ ← assert (negb self.(floundered));
  match self.(answers_hash) !! answer.(answer_subst) with
  | None =>
      Val (Some (length self.(answers)),
           mkTable self.(table_goal) self.(coinductive_goal) self.(floundered)
             (self.(answers) ++ [answer])
             (<[answer.(answer_subst) := answer.(answer_ambiguous)]> self.(answers_hash))
             self.(strands) self.(answer_mode))
  | Some was_ambiguous =>
      if was_ambiguous && negb answer.(answer_ambiguous) then Panic PExplicit else Val (None, self)
  end.

Definition answer_at (self : Table) (index : nat) : option Answer := self.(answers) !! index.
Definition next_answer_index (self : Table) : nat := length self.(answers).

(** ** [Tables] *)

Record Tables := mkTables {
  table_indices : gmap TableGoal nat;
  tables : list Table
}.

Definition tables_new : Tables := mkTables ∅ [].
Definition next_index (self : Tables) : nat := length self.(tables).
Definition tables_insert (table : Table) (self : Tables) : nat * Tables :=
  let index := next_index self in
  (index, mkTables (<[table.(table_goal) := index]> self.(table_indices)) (self.(tables) ++ [table])).
Definition index_of (self : Tables) (literal : TableGoal) : option nat := self.(table_indices) !! literal.
(** [Index] and [IndexMut]. *)
Definition table_at {E} (self : Tables) (i : nat) : outcome E Table :=
  match self.(tables) !! i with Some t => Val t | None => Panic PIndex end.
Definition update_table {E} (f : Table → Table) (i : nat) (self : Tables) : outcome E Tables :=
  match self.(tables) !! i with
  | Some t => Val (mkTables self.(table_indices) (<[i := f t]> self.(tables)))
  | None => Panic PIndex
  end.

(** ** [Stack] *)

Record StackEntry := mkStackEntry {
  table : nat;
  entry_clock : TimeStamp;
  cyclic_minimums : Minimums;
  active_strand : option CanonicalStrand
}.

(** The top of the stack is the end of the vector. *)
Abbreviation Stack := (list StackEntry).

Definition set_active (o : option CanonicalStrand) (e : StackEntry) : StackEntry :=
  mkStackEntry e.(table) e.(entry_clock) e.(cyclic_minimums) o.
Definition set_minimums (m : Minimums) (e : StackEntry) : StackEntry :=
  mkStackEntry e.(table) e.(entry_clock) m e.(active_strand).

Definition is_active (self : Stack) (t : nat) : option nat :=
  fst <$> list_find (λ e, e.(table) = t) self.
Definition stack_push (t : nat) (minimums : Minimums) (clock : TimeStamp) (self : Stack) : Stack :=
  self ++ [mkStackEntry t clock minimums None].
Definition top {E} (self : Stack) : outcome E StackEntry := unwrap (last self).
(** [self.top().f = ..]. *)
Definition update_top {E} (f : StackEntry → StackEntry) (self : Stack) : outcome E Stack :=
  match last self with
  | Some e => Val (removelast self ++ [f e])
  | None => Panic PUnwrap
  end.

(** [pop_and_take_caller_strand], after [pop_and_adjust_depth]. *)
Definition pop_and_take_caller_strand {E} (self : Stack) : outcome E (option CanonicalStrand * Stack) :=
  let self := removelast self in
  match last self with
  | Some e =>
      strand ← unwrap e.(active_strand);
      Val (Some strand, removelast self ++ [set_active None e])
  | None => Val (None, self)
  end.

(** [pop_and_borrow_caller_strand]: the strand, which stays in its place. *)
Definition pop_and_borrow_caller_strand {E} (self : Stack) : outcome E (option CanonicalStrand * Stack) :=
  let self := removelast self in
  match last self with
  | Some e => strand ← unwrap e.(active_strand); Val (Some strand, self)
  | None => Val (None, self)
  end.
