(* ===== verification/Resolvent.v ===== *)
(** * Resolvents ([chalk-engine/src/slg/resolvent.rs], [normalize_deep.rs])

    The resolvent of a goal with a program clause makes a strand; the one with an
    answer updates a strand.  For the latter, [AnswerSubstitutor] walks through
    the goal of the table and the selected subgoal together and unifies the values
    of the answer with what it finds in the place of its variables. *)

From stdpp Require Import base list numbers.
From S2P Require Import Prelude Ir Fold FoldLaws Shift Ena Infer Zip Unify ExClause.

(** A computation on the table whose error is never returned. *)
Definition se_st {S A} (m : ST S A) : SE S A := λ s,
  match m s with
  | Val (a, s') => (Val a, s')
  | Exn e => (Exn e, s)
  | Panic p => (Panic p, s)
  | OutOfFuel => (OutOfFuel, s)
  end.

(** ** [DeepNormalizer] *)

Section DeepNormalizer.
Context {E : Type} `{EnaOps E}.
Context (table : InferenceTable E).

(** [fuel] bounds the nesting of the values of the variables. *)
Fixpoint deep_normalizer (fuel : nat) : Folder Fallible := {|
  fold_free_var_ty := default_fold_free_var_ty true;
  fold_free_var_lifetime := default_fold_free_var_lifetime true;
  fold_free_var_const := default_fold_free_var_const true;
  fold_free_placeholder_ty := default_fold_free_placeholder_ty false;
  fold_free_placeholder_lifetime := default_fold_free_placeholder_lifetime false;
  fold_free_placeholder_const := default_fold_free_placeholder_const false;
  fold_inference_ty var kind _ :=
    match probe_var table var with
    | Some ty =>
        ty ← assert_ty_ref ty;
        ty ← match fuel with 0 => OutOfFuel | S fuel => fold_ty (deep_normalizer fuel) ty INNERMOST end;
        term_shifted_in ty
    | None => Val (var_to_ty_with_kind (inference_var_root table var) kind)
    end;
  fold_inference_lifetime var _ :=
    match probe_var table var with
    | Some l =>
        l ← assert_lifetime_ref l;
        l ← match fuel with 0 => OutOfFuel | S fuel => fold_lifetime (deep_normalizer fuel) l INNERMOST end;
        term_shifted_in l
    | None => Val (var_to_lifetime var)
    end;
  fold_inference_const ty _ var _ :=
    match probe_var table var with
    | Some c =>
        c ← assert_const_ref c;
        c ← match fuel with 0 => OutOfFuel | S fuel => fold_const (deep_normalizer fuel) c INNERMOST end;
        term_shifted_in c
    | None => Val (var_to_const var ty)
    end;
  override_fold_lifetime := default_fold_lifetime
|}.

Definition normalize_deep {T} `{Fold T} (fuel : nat) (value : T) : Fallible T :=
  unwrap_result (fold_with (deep_normalizer fuel) value INNERMOST).
End DeepNormalizer.

Section Resolvent.
Context {E : Type} `{EnaOps E}.
Context (fuel : nat) (db : UnificationDatabase).

(** The goals of a unification as positive subgoals. *)
Definition positive_goals (goals : list (InEnvironment Goal)) : list Literal := Positive <$> goals.

(** A condition of a program clause as a literal. *)
Definition condition_literal (environment : Environment) (c : Goal) : Literal :=
  match c with
  | GNot c1 => Negative (mkInEnvironment environment c1)
  | _ => Positive (mkInEnvironment environment c)
  end.

Definition resolvent_clause (environment : Environment) (goal : DomainGoal) (subst : Substitution)
    (clause : ProgramClause) : SE (InferenceTable E) ExClause :=
  implication ← se_st (instantiate_binders_existentially (clause_data clause));
  goals ← relate fuel db environment (λ Z, zip_domain_goal Z) Invariant goal implication.(consequence);
  let ex_clause := extend_subgoals (positive_goals goals) (ex_clause_new subst) in
  let ex_clause := extend_ex_constraints implication.(constraints) ex_clause in
  mret (extend_subgoals (condition_literal environment <$> implication.(conditions)) ex_clause).

(** ** [AnswerSubstitutor] *)

Record AnswerSubstitutor := mkAnswerSubstitutor {
  as_table : InferenceTable E;
  as_ex_clause : ExClause;
  outer_binder : DebruijnIndex
}.

Section Substitutor.
Context (environment : Environment) (answer_subst : Substitution).
Abbreviation M := (SE AnswerSubstitutor).

Definition read_as {A} (f : InferenceTable E → Fallible A) : M A := λ s, (f s.(as_table), s).
Definition get_outer_binder : M DebruijnIndex := λ s, (Val s.(outer_binder), s).
Definition set_outer_binder (f : DebruijnIndex → DebruijnIndex) : M unit :=
  se_modify (λ s, mkAnswerSubstitutor s.(as_table) s.(as_ex_clause) (f s.(outer_binder))).
(** [self.table.relate(..)?] and the extension of the subgoals. *)
Definition relate_args (variance : Variance) (a b : GenericArg) : M unit := λ s,
  match relate fuel db environment (λ Z, zip_arg Z) variance a b s.(as_table) with
  | (Val goals, t) =>
      (Val tt, mkAnswerSubstitutor t (extend_subgoals (positive_goals goals) s.(as_ex_clause)) s.(outer_binder))
  | (Exn e, t) => (Exn e, mkAnswerSubstitutor t s.(as_ex_clause) s.(outer_binder))
  | (Panic p, t) => (Panic p, mkAnswerSubstitutor t s.(as_ex_clause) s.(outer_binder))
  | (OutOfFuel, t) => (OutOfFuel, mkAnswerSubstitutor t s.(as_ex_clause) s.(outer_binder))
  end.

Definition unify_free_answer_var (variance : Variance) (answer_var : BoundVar) (pending : GenericArg) :
    M bool :=
  outer_binder ← get_outer_binder;
  match index_if_bound_at answer_var outer_binder with
  | None => mret false
  | Some answer_index =>
      answer_param ← se_lift (param_at answer_subst answer_index);
      pending_shifted ← se_lift (unwrap_result (term_shifted_out_to pending outer_binder));
      _ ← relate_args variance answer_param pending_shifted;
      mret true
  end.

Definition assert_matching_vars (answer_var pending_var : BoundVar) : M unit :=
  outer_binder ← get_outer_binder;
  _ ← se_lift (assert (within answer_var.(debruijn) outer_binder));
  _ ← se_lift (assert (bool_decide (answer_var.(debruijn) = pending_var.(debruijn))));
  se_lift (assert (bool_decide (answer_var.(index) = pending_var.(index)))).

(** The match of [zip_tys] on a pending type that is not a bound variable. *)
Definition zip_answer_tys (self : Zipper AnswerSubstitutor) (variance : Variance) (answer pending : Ty) :
    M unit :=
  let same_id {A} `{EqDecision A} (x y : A) (m : M unit) : M unit :=
    if decide (x = y) then m else se_err in
  match answer, pending with
  | TyBoundVar answer_depth, TyBoundVar pending_depth => assert_matching_vars answer_depth pending_depth
  | TyDyn answer_bounds answer_lt, TyDyn pending_bounds pending_lt =>
      zip_dyn self variance (answer_bounds, answer_lt) (pending_bounds, pending_lt)
  | TyAlias answer, TyAlias pending => zip_alias self variance answer pending
  | TyPlaceholder answer, TyPlaceholder pending => zip_eq answer pending
  | TyFunction n_a _ s_a, TyFunction n_b _ s_b =>
      self.(zip_binders) (zip_fn_subst self) variance (fn_into_binders n_a s_a) (fn_into_binders n_b s_b)
  | TyInferenceVar _ _, _ | _, TyInferenceVar _ _ => mpanic PExplicit
  | TyAdt id_a s_a, TyAdt id_b s_b =>
      same_id id_a id_b (zip_substs self variance (Some (db.(adt_variance) id_a)) s_a s_b)
  | TyAssociatedType id_a s_a, TyAssociatedType id_b s_b
  | TyOpaqueType id_a s_a, TyOpaqueType id_b s_b
  | TyClosure id_a s_a, TyClosure id_b s_b
  | TyGenerator id_a s_a, TyGenerator id_b s_b
  | TyGeneratorWitness id_a s_a, TyGeneratorWitness id_b s_b =>
      same_id id_a id_b (zip_substs self variance None s_a s_b)
  | TyScalar scalar_a, TyScalar scalar_b => zip_eq scalar_a scalar_b
  | TyStr, TyStr | TyNever, TyNever | TyError, TyError => mret tt
  | TyTuple arity_a s_a, TyTuple arity_b s_b =>
      same_id arity_a arity_b (zip_substs self variance None s_a s_b)
  | TySlice ty_a, TySlice ty_b => self.(zip_tys) variance ty_a ty_b
  | TyFnDef id_a s_a, TyFnDef id_b s_b =>
      same_id id_a id_b (zip_substs self variance (Some (db.(fn_def_variance) id_a)) s_a s_b)
  | TyRef mutability_a l_a ty_a, TyRef mutability_b l_b ty_b =>
      same_id mutability_a mutability_b
        (_ ← self.(zip_lifetimes) (xform variance Contravariant) l_a l_b;
         self.(zip_tys) (xform variance (reference_variance mutability_a)) ty_a ty_b)
  | TyRaw mutability_a ty_a, TyRaw mutability_b ty_b =>
      same_id mutability_a mutability_b
        (self.(zip_tys) (xform variance (reference_variance mutability_a)) ty_a ty_b)
  | TyArray ty_a const_a, TyArray ty_b const_b =>
      _ ← self.(zip_tys) variance ty_a ty_b;
      self.(zip_consts) variance const_a const_b
  | TyForeign id_a, TyForeign id_b => zip_eq id_a id_b
  | _, _ => mpanic PExplicit
  end.

(** [if let BoundVar(answer_depth) = answer { if unify_free_answer_var(..)? { return Ok(()) } }]. *)
Definition unify_or (variance : Variance) (answer : option BoundVar) (pending : GenericArg) (m : M unit) :
    M unit :=
  match answer with
  | Some answer_depth =>
      unified ← unify_free_answer_var variance answer_depth pending;
      if unified : bool then mret tt else m
  | None => m
  end.

Definition answer_zip_tys (self : Zipper AnswerSubstitutor) (variance : Variance) (answer pending : Ty) :
    M unit :=
  normalized ← read_as (λ t, normalize_ty_shallow t pending);
  match normalized with
  | Some pending => self.(zip_tys) variance answer pending
  | None =>
      unify_or variance (match answer with TyBoundVar bv => Some bv | _ => None end) (ArgTy pending)
        (zip_answer_tys self variance answer pending)
  end.

Definition zip_answer_lifetimes (answer pending : Lifetime) : M unit :=
  match answer, pending with
  | LtBoundVar answer_depth, LtBoundVar pending_depth => assert_matching_vars answer_depth pending_depth
  | LtStatic, LtStatic | LtPlaceholder _, LtPlaceholder _ | LtErased, LtErased | LtEmpty _, LtEmpty _ =>
      se_lift (assert (bool_decide (answer = pending)))
  | _, _ => mpanic PExplicit
  end.

Definition answer_zip_lifetimes (self : Zipper AnswerSubstitutor) (variance : Variance)
    (answer pending : Lifetime) : M unit :=
  normalized ← read_as (λ t, normalize_lifetime_shallow t pending);
  match normalized with
  | Some pending => self.(zip_lifetimes) variance answer pending
  | None =>
      unify_or variance (match answer with LtBoundVar bv => Some bv | _ => None end) (ArgLifetime pending)
        (zip_answer_lifetimes answer pending)
  end.

Definition zip_answer_consts (answer pending : Const) : M unit :=
  match const_value answer, const_value pending with
  | CvBoundVar answer_depth, CvBoundVar pending_depth => assert_matching_vars answer_depth pending_depth
  | CvPlaceholder _, CvPlaceholder _ => se_lift (assert (bool_decide (answer = pending)))
  | CvConcrete c1, CvConcrete c2 => se_lift (assert (db.(db_const_eq) (const_ty answer) c1 c2))
  | _, _ => mpanic PExplicit
  end.

Definition answer_zip_consts (self : Zipper AnswerSubstitutor) (variance : Variance)
    (answer pending : Const) : M unit :=
  normalized ← read_as (λ t, normalize_const_shallow t pending);
  match normalized with
  | Some pending => self.(zip_consts) variance answer pending
  | None =>
      _ ← self.(zip_tys) variance (const_ty answer) (const_ty pending);
      unify_or variance (match const_value answer with CvBoundVar bv => Some bv | _ => None end)
        (ArgConst pending) (zip_answer_consts answer pending)
  end.

Definition answer_zip_binders {T} `{Fold T} (zip : Variance → T → T → M unit)
    (variance : Variance) (answer pending : Binders T) : M unit :=
  _ ← set_outer_binder debruijn_shifted_in;
  _ ← zip variance answer.(value) pending.(value);
  set_outer_binder pred.

(** [n] bounds the depth of the terms, through the values of the variables. *)
Fixpoint substitutor (n : nat) : Zipper AnswerSubstitutor :=
  match n with
  | 0 => {|
      zip_tys _ _ _ := se_fuel;
      zip_lifetimes _ _ _ := se_fuel;
      zip_consts _ _ _ := se_fuel;
      zip_binders _ _ _ _ _ _ := se_fuel
    |}
  | Datatypes.S n =>
      let self := substitutor n in
      {| zip_tys := answer_zip_tys self;
         zip_lifetimes := answer_zip_lifetimes self;
         zip_consts := answer_zip_consts self;
         zip_binders _ _ zip := answer_zip_binders zip |}
  end.
End Substitutor.

(** [AnswerSubstitutor::substitute] on the goals of a table and of a strand. *)
Definition substitute (environment : Environment) (answer_subst : Substitution) (ex_clause : ExClause)
    (answer pending : InEnvironment Goal) : SE (InferenceTable E) ExClause := λ table,
  let Z := substitutor environment answer_subst fuel in
  match zip_in_environment (zip_program_clause Z fuel) (zip_goal Z fuel) Invariant answer pending
          (mkAnswerSubstitutor table ex_clause INNERMOST) with
  | (Val _, s) => (Val s.(as_ex_clause), s.(as_table))
  | (Exn e, s) => (Exn e, s.(as_table))
  | (Panic p, s) => (Panic p, s.(as_table))
  | (OutOfFuel, s) => (OutOfFuel, s.(as_table))
  end.

Definition apply_answer_subst (ex_clause : ExClause) (selected_goal : InEnvironment Goal)
    (answer_table_goal : Canonical (InEnvironment Goal)) (canonical_answer_subst : Canonical AnswerSubst) :
    SE (InferenceTable E) ExClause :=
  answer ← se_st (instantiate_canonical canonical_answer_subst);
  ex_clause ← substitute selected_goal.(environment) answer.(asubst) ex_clause answer_table_goal.(cvalue)
    selected_goal;
  mret (extend_delayed answer.(delayed_subgoals) (extend_ex_constraints answer.(aconstraints) ex_clause)).
End Resolvent.
#[global] Arguments AnswerSubstitutor E : clear implicits.
