(* ===== verification/Forest.v ===== *)
(** * The forest of tables ([chalk-engine/src/simplify.rs], [forest.rs], and the
    [impl Forest] of [logic.rs])

    A goal gets its table when it is first asked for: a domain goal with one strand
    per program clause that resolves with it, any other goal with the strand of its
    simplification.  [fuel] bounds the calls on tables and terms and the number of
    goals that a simplification visits. *)

From stdpp Require Import base list numbers gmap.
From S2P Require Import Prelude Ir IrCountable Fold FoldLaws Shift Ena Infer Canonicalize Visit UCanonicalize Zip Unify RustIr Truncate Fulfill RecSolve ExClause Resolvent.

Inductive FallibleOrFloundered (T : Type) :=
  | FofOk (t : T)
  | FofNoSolution
  | FofFloundered.
Arguments FofOk {T} _.
Arguments FofNoSolution {T}.
Arguments FofFloundered {T}.

(** [UCanonical::is_trivial_substitution]. *)
Definition is_trivial_substitution {T} (self : UCanonical T) (canonical_subst : Canonical AnswerSubst) :
    Fallible bool :=
  let subst := canonical_subst.(cvalue).(asubst) in
  _ ← assert (length self.(canonical).(cbinders) =? length subst);
  Val (is_identity_subst subst).

Record Forest := mkForest { ftables : Tables; fclock : TimeStamp }.
Definition forest_new : Forest := mkForest tables_new time_zero.

Section Forest.
Context {E : Type} `{EnaOps E}.
Context (fuel : nat) (db : RustIrDatabase) (max_size : nat).
Context (clauses_for : UCanonicalDomainGoal → outcome Floundered ProgramClauses).
Abbreviation Infer := (InferenceTable E).

(** ** Simplification *)

(** The goals of a unification become subgoals; [on_error] is the answer if the
    terms do not unify. *)
Definition simplify_relate {T} (zip : Zipper (Unifier E) → Variance → T → T → SE (Unifier E) unit)
    (environment : Environment) (variance : Variance) (a b : T) (ex_clause : ExClause)
    (on_error : FallibleOrFloundered ExClause) :
    ST Infer (FallibleOrFloundered ExClause) := λ infer,
  match relate fuel db.(unification_database) environment zip variance a b infer with
  | (Val goals, infer) => Val (FofOk (extend_subgoals (positive_goals goals) ex_clause), infer)
  | (Exn _, infer) => Val (on_error, infer)
  | (Panic p, _) => Panic p
  | (OutOfFuel, _) => OutOfFuel
  end.

(** One goal: the goals that it pushes, and the new X-clause. *)
Definition simplify_one (environment : Environment) (goal : Goal) (ex_clause : ExClause) :
    ST Infer (list (Environment * Goal) * FallibleOrFloundered ExClause) :=
  let literal l : ST Infer (list (Environment * Goal) * FallibleOrFloundered ExClause) :=
    mret ([], FofOk (extend_subgoals [l] ex_clause)) in
  match goal with
  | GQuantified ForAll subgoal =>
      subgoal ← instantiate_binders_universally subgoal;
      mret ([(environment, subgoal)], FofOk ex_clause)
  | GQuantified Exists subgoal =>
      subgoal ← instantiate_binders_existentially subgoal;
      mret ([(environment, subgoal)], FofOk ex_clause)
  | GImplies wc subgoal => mret ([(environment ++ wc, subgoal)], FofOk ex_clause)
  | GAll subgoals => mret ((λ subgoal, (environment, subgoal)) <$> subgoals, FofOk ex_clause)
  | GNot subgoal => literal (Negative (mkInEnvironment environment subgoal))
  | GEqGoal a b =>
      r ← simplify_relate (λ Z, zip_arg Z) environment Invariant a b ex_clause FofNoSolution;
      mret ([], r)
  | GSubtypeGoal a b =>
      infer ← st_get;
      a_norm ← st_lift (normalize_ty_shallow infer a);
      b_norm ← st_lift (normalize_ty_shallow infer b);
      let a := default a a_norm in
      let b := default b b_norm in
      if is_general_var a && is_general_var b then mret ([], FofFloundered)
      else
        r ← simplify_relate (λ Z, zip_tys Z) environment Covariant a b ex_clause FofFloundered;
        mret ([], r)
  | GDomainGoal _ => literal (Positive (mkInEnvironment environment goal))
  | GCannotProve => mret ([], FofOk (set_ambiguous ex_clause))
  end.

(** [while let Some((environment, goal)) = pending_goals.pop()]: the head of the
    list is the top of the stack. *)
Fixpoint simplify_goals (n : nat) (pending_goals : list (Environment * Goal)) (ex_clause : ExClause) :
    ST Infer (FallibleOrFloundered ExClause) :=
  match n with
  | 0 => λ _, OutOfFuel
  | S n =>
      match pending_goals with
      | [] => mret (FofOk ex_clause)
      | (environment, goal) :: pending_goals =>
          '(pushed, r) ← simplify_one environment goal ex_clause;
          match r with
          | FofOk ex_clause => simplify_goals n (rev pushed ++ pending_goals) ex_clause
          | _ => mret r
          end
      end
  end.

Definition simplify_goal (subst : Substitution) (initial_environment : Environment) (initial_goal : Goal) :
    ST Infer (FallibleOrFloundered ExClause) :=
  simplify_goals fuel [(initial_environment, initial_goal)] (ex_clause_new subst).

(** ** Tables *)

Definition canonicalize_strand_from (infer : Infer) (strand : Strand) : Fallible CanonicalStrand :=
  c ← canonicalize fuel strand infer; Val c.(quantified).

Definition initial_strand (ex_clause : ExClause) : Strand := mkStrand ex_clause None time_zero.

(** The loop over the clauses of a domain goal. *)
Fixpoint build_strands (infer : Infer) (environment : Environment) (goal : DomainGoal)
    (subst : Substitution) (clauses : ProgramClauses) (table : Table) : Fallible Table :=
  match clauses with
  | [] => Val table
  | clause :: clauses =>
      table ←
        match resolvent_clause fuel db.(unification_database) environment goal subst clause infer with
        | (Val resolvent, infer) =>
            strand ← canonicalize_strand_from infer (initial_strand resolvent);
            Val (enqueue_strand strand table)
        | (Exn _, _) => Val table
        | (Panic p, _) => Panic p
        | (OutOfFuel, _) => OutOfFuel
        end;
      build_strands infer environment goal subst clauses table
  end.

Definition build_table_domain (goal : UCanonicalDomainGoal) (table : Table) : Fallible Table :=
  let dg := goal.(canonical).(cvalue).(env_goal) in
  match clauses_for goal with
  | Val clauses =>
      clauses ← filter_could_match fuel db dg clauses;
      custom ← filter_could_match fuel db dg db.(custom_clauses);
      '(infer, subst, g) ← from_canonical goal.(universes) goal.(canonical);
      env_clauses ← db.(program_clauses_for_env) g.(environment);
      env ← filter_could_match fuel db dg env_clauses;
      build_strands infer g.(environment) g.(env_goal) subst (clauses ++ custom ++ env) table
  | Exn mkFloundered => Val (mark_floundered table)
  | Panic p => Panic p
  | OutOfFuel => OutOfFuel
  end.

Definition build_table_goal (goal : TableGoal) (table : Table) : Fallible Table :=
  '(infer, subst, g) ← from_canonical goal.(universes) goal.(canonical);
  '(r, infer) ← simplify_goal subst g.(environment) g.(env_goal) infer;
  match r with
  | FofOk ex_clause =>
      strand ← canonicalize_strand_from infer (initial_strand ex_clause);
      Val (enqueue_strand strand table)
  | FofNoSolution => Val table
  | FofFloundered => Val (mark_floundered table)
  end.

Definition build_table (goal : TableGoal) : Fallible Table :=
  let 'mkUCanonical (mkCanonical (mkInEnvironment environment g) binders) universes := goal in
  let table := table_of_goal goal (goal_is_coinductive db g) in
  match g with
  | GDomainGoal dg =>
      build_table_domain (mkUCanonical (mkCanonical (mkInEnvironment environment dg) binders) universes) table
  | _ => build_table_goal goal table
  end.

Definition get_or_create_table_for_ucanonical_goal (goal : TableGoal) (self : Forest) :
    Fallible (nat * Forest) :=
  match index_of self.(ftables) goal with
  | Some table => Val (table, self)
  | None =>
      table ← build_table goal;
      let '(index, tables) := tables_insert table self.(ftables) in
      Val (index, mkForest tables self.(fclock))
  end.

(** *** Subgoals *)

Definition abstract_positive_literal (infer : Infer) (subgoal : InEnvironment Goal) :
    Fallible (option (TableGoal * UniverseMap)) :=
  big ← needs_truncation fuel infer max_size subgoal;
  if big : bool then Val None
  else
    c ← canonicalize fuel subgoal infer;
    u ← u_canonicalize c.(quantified);
    Val (Some (u.(uquantified), u.(uuniverses))).

Definition abstract_negative_literal (infer : Infer) (subgoal : InEnvironment Goal) :
    Fallible (option (TableGoal * UniverseMap)) :=
  '(inverted, infer) ← invert fuel subgoal infer;
  match inverted with
  | None => Val None
  | Some inverted_subgoal => abstract_positive_literal infer inverted_subgoal
  end.

Definition get_or_create_table_for_subgoal (infer : Infer) (subgoal : Literal) (self : Forest) :
    Fallible (option (nat * UniverseMap) * Forest) :=
  abstracted ←
    match subgoal with
    | Positive subgoal => abstract_positive_literal infer subgoal
    | Negative subgoal => abstract_negative_literal infer subgoal
    end;
  match abstracted with
  | None => Val (None, self)
  | Some (ucanonical_subgoal, universe_map) =>
      '(table, self) ← get_or_create_table_for_ucanonical_goal ucanonical_subgoal self;
      Val (Some (table, universe_map), self)
  end.

(** *** Answers *)

Definition answer (self : Forest) (table answer : nat) : Fallible Answer :=
  t ← table_at self.(ftables) table; unwrap (answer_at t answer).

(** [any] with a test that may panic. *)
Fixpoint any_of {A} (test : A → Fallible bool) (l : list A) : Fallible bool :=
  match l with
  | [] => Val false
  | x :: l => b ← test x; if b : bool then Val true else any_of test l
  end.

Definition any_future_answer (self : Forest) (table answer_index : nat)
    (test : Substitution → Fallible bool) : Fallible bool :=
  t ← table_at self.(ftables) table;
  cached ← any_of (λ a : Answer, test a.(answer_subst).(cvalue).(asubst)) (drop answer_index t.(answers));
  if cached : bool then Val true
  else any_of (λ strand : CanonicalStrand, test strand.(cvalue).(ex_clause).(ex_subst)) t.(strands).
End Forest.
