(* ===== verification/Logic.v ===== *)
(** * The search of the SLG solver ([SolveState] of [chalk-engine/src/logic.rs])

    A root search works on the strand of the top of the stack until the table at
    its bottom has the answer that was asked for, or fails with a
    [RootSearchFail]; the state survives a failure, and [Drop] returns the active
    strands to their tables. *)

From stdpp Require Import base list numbers gmap.
From S2P Require Import Prelude Ir IrCountable Fold FoldLaws Shift Ena Infer Canonicalize Visit UCanonicalize Zip Unify RustIr Truncate RecSolve ExClause Resolvent Forest Aggregate.

Inductive RootSearchFail :=
  | RsNoMoreSolutions
  | RsFloundered
  | RsQuantumExceeded
  | RsNegativeCycle
  | RsInvalidAnswer.
#[global] Instance RootSearchFail_eq_dec : EqDecision RootSearchFail. Proof. solve_decision. Defined.

Inductive SubGoalSelection := Selected | NotSelected.
#[global] Instance SubGoalSelection_eq_dec : EqDecision SubGoalSelection. Proof. solve_decision. Defined.

(** [RootSearchFail(e)] is the failure of the computation. *)
Inductive NoRemainingSubgoalsResult := RootAnswerAvailable | Success.

Record SolveState := mkSolveState { forest : Forest; stack : Stack }.

(** ** The monad of the search *)

Definition RS (A : Type) : Type := SolveState → outcome RootSearchFail A * SolveState.
#[global] Instance RS_ret : MRet RS := λ A a s, (Val a, s).
#[global] Instance RS_bind : MBind RS := λ A B f m s,
  match m s with
  | (Val a, s') => f a s'
  | (Exn e, s') => (Exn e, s')
  | (Panic p, s') => (Panic p, s')
  | (OutOfFuel, s') => (OutOfFuel, s')
  end.
#[global] Instance RS_panic : MPanic RS := λ A p s, (Panic p, s).
Definition rs_lift {A} (m : outcome RootSearchFail A) : RS A := λ s, (m, s).
Definition rs_pure {A} (m : Fallible A) : RS A := rs_lift (unwrap_result m).
Definition rs_err {A} (e : RootSearchFail) : RS A := rs_lift (Exn e).
Definition rs_fuel {A} : RS A := rs_lift OutOfFuel.

(** Access to the forest and to the stack. *)
Definition get_forest : RS Forest := λ s, (Val s.(forest), s).
Definition get_table (i : nat) : RS Table := λ s, (table_at s.(forest).(ftables) i, s).
Definition modify_table (f : Table → Table) (i : nat) : RS unit := λ s,
  match update_table f i s.(forest).(ftables) with
  | Val t => (Val tt, mkSolveState (mkForest t s.(forest).(fclock)) s.(stack))
  | Exn e => (Exn e, s)
  | Panic p => (Panic p, s)
  | OutOfFuel => (OutOfFuel, s)
  end.
Definition get_stack : RS Stack := λ s, (Val s.(stack), s).
Definition set_stack (k : Stack) : RS unit := λ s, (Val tt, mkSolveState s.(forest) k).
Definition get_top : RS StackEntry := λ s, (top s.(stack), s).
Definition modify_top (f : StackEntry → StackEntry) : RS unit :=
  k ← get_stack; k ← rs_lift (update_top f k); set_stack k.
Definition forest_op {A} (f : Forest → Fallible (A * Forest)) : RS A := λ s,
  match unwrap_result (f s.(forest)) with
  | Val (a, g) => (Val a, mkSolveState g s.(stack))
  | Exn e => (Exn e, s)
  | Panic p => (Panic p, s)
  | OutOfFuel => (OutOfFuel, s)
  end.
(** [Forest::increment_clock]. *)
Definition increment_clock : RS TimeStamp := λ s,
  match increment s.(forest).(fclock) with
  | Val t => (Val t, mkSolveState (mkForest s.(forest).(ftables) t) s.(stack))
  | Exn e => (Exn e, s)
  | Panic p => (Panic p, s)
  | OutOfFuel => (OutOfFuel, s)
  end.
Definition enqueue (strand : CanonicalStrand) (i : nat) : RS unit := modify_table (enqueue_strand strand) i.
(** [self.forest.tables[i].take_strands()]. *)
Definition take_table_strands (i : nat) : RS (list CanonicalStrand) :=
  t ← get_table i;
  _ ← modify_table (λ t, (take_strands t).2) i;
  mret (take_strands t).1.
Definition push_table (i : nat) : RS unit :=
  clock ← increment_clock;
  k ← get_stack;
  set_stack (stack_push i Minimums_MAX clock k).
(** [self.stack.pop_and_take_caller_strand()], [self.stack.pop_and_borrow_caller_strand()]. *)
Definition pop_with {A} (f : Stack → outcome RootSearchFail (A * Stack)) : RS A :=
  k ← get_stack;
  '(r, k) ← rs_lift (f k);
  _ ← set_stack k;
  mret r.

Section Logic.
Context {E : Type} `{EnaOps E}.
Context (fuel : nat) (db : RustIrDatabase) (max_size : nat).
Context (clauses_for : UCanonicalDomainGoal → outcome Floundered ProgramClauses).

(** ** Unwinding *)

(** The loop of [unwind_stack]; every turn pops an entry. *)
Fixpoint unwind_entries (n : nat) : RS unit :=
  match n with
  | 0 => rs_fuel
  | S n =>
      caller ← pop_with pop_and_take_caller_strand;
      match caller with
      | Some active_strand =>
          e ← get_top;
          _ ← enqueue active_strand e.(table);
          unwind_entries n
      | None => mret tt
      end
  end.
Definition unwind_stack : RS unit := k ← get_stack; unwind_entries (S (length k)).

(** [clear_strands_after_cycle]; [n] bounds the depth of the recursion. *)
Fixpoint clear_strands_after_cycle (n : nat) (strands : list CanonicalStrand) : RS unit :=
  match n with
  | 0 => rs_fuel
  | S n =>
      (fix go strands : RS unit :=
        match strands with
        | [] => mret tt
        | strand :: strands =>
            match strand.(cvalue).(selected_subgoal) with
            | None => mpanic PExplicit
            | Some selected_subgoal =>
                inner ← take_table_strands selected_subgoal.(subgoal_table);
                _ ← clear_strands_after_cycle n inner;
                go strands
            end
        end) strands
  end.

(** The instantiation of a strand of the table on the top of the stack. *)
Definition instantiate_strand (canonical_strand : CanonicalStrand) : RS (InferenceTable E * Strand) :=
  e ← get_top;
  t ← get_table e.(table);
  '(infer, _, strand) ← rs_pure (from_canonical t.(table_goal).(universes) canonical_strand);
  mret (infer, strand).

(** ** Selection of a subgoal *)

(** The result says whether the strand is to be dropped. *)
Definition propagate_floundered_subgoal (strand : CanonicalStrand) : RS (bool * CanonicalStrand) :=
  selected_subgoal ← rs_lift (unwrap strand.(cvalue).(selected_subgoal));
  let strand := in_canonical (set_selected None) strand in
  match strand.(cvalue).(ex_clause).(subgoals) !! selected_subgoal.(subgoal_index) with
  | Some (Positive _) =>
      c ← rs_lift (flounder_subgoal strand.(cvalue).(ex_clause) selected_subgoal.(subgoal_index));
      mret (false, in_canonical (set_ex_clause c) strand)
  | Some (Negative _) => mret (true, strand)
  | None => mpanic PIndex
  end.

(** The strand without a selected subgoal, but with subgoals: one turn of the inner loop. *)
Definition select_next (canonical_strand : CanonicalStrand) : RS CanonicalStrand :=
  let c := canonical_strand.(cvalue).(ex_clause) in
  subgoal_index ← rs_lift (next_subgoal_index c);
  '(infer, strand) ← instantiate_strand canonical_strand;
  subgoal ← rs_lift (match strand.(ex_clause).(subgoals) !! subgoal_index with
                     | Some l => Val l | None => Panic PIndex end);
  found ← forest_op (get_or_create_table_for_subgoal fuel db max_size clauses_for infer subgoal);
  match found with
  | Some (subgoal_table, universe_map) =>
      mret (in_canonical (set_selected (Some (mkSelectedSubgoal subgoal_index subgoal_table 0 universe_map)))
              canonical_strand)
  | None =>
      c ← rs_lift (flounder_subgoal c subgoal_index);
      mret (in_canonical (set_ex_clause c) canonical_strand)
  end.

(** Both loops of [select_subgoal]; [n] bounds the number of turns. *)
Fixpoint select_subgoal (n : nat) (canonical_strand : CanonicalStrand) :
    RS (SubGoalSelection * CanonicalStrand) :=
  match n with
  | 0 => rs_fuel
  | S n =>
      let c := canonical_strand.(cvalue).(ex_clause) in
      match canonical_strand.(cvalue).(selected_subgoal) with
      | None =>
          match c.(subgoals), c.(floundered_subgoals) with
          | [], [] => mret (NotSelected, canonical_strand)
          | [], _ =>
              let c := reconsider_floundered_subgoals c in
              let canonical_strand := in_canonical (set_ex_clause c) canonical_strand in
              match c.(subgoals) with
              | [] =>
                  _ ← rs_lift (assert (bool_decide (c.(floundered_subgoals) ≠ [])));
                  mret (NotSelected, in_canonical (set_ex_clause (set_ambiguous c)) canonical_strand)
              | _ => select_subgoal n canonical_strand
              end
          | _, _ => canonical_strand ← select_next canonical_strand; select_subgoal n canonical_strand
          end
      | Some selected =>
          t ← get_table selected.(subgoal_table);
          if t.(floundered) then
            '(dead, canonical_strand) ← propagate_floundered_subgoal canonical_strand;
            if dead : bool then mret (NotSelected, canonical_strand)
            else select_subgoal n canonical_strand
          else mret (Selected, canonical_strand)
      end
  end.

(** ** A selected subgoal *)

Definition forest_answer (table answer_index : nat) : RS Answer :=
  f ← get_forest; rs_pure (answer f table answer_index).

(** The strand that will ask for the next answer. *)
Definition enqueue_alternative (infer : InferenceTable E) (strand : Strand) (selected : SelectedSubgoal) :
    RS unit :=
  let next_subgoal := mkSelectedSubgoal selected.(subgoal_index) selected.(subgoal_table)
    (S selected.(answer_index)) selected.(universe_map) in
  e ← get_top;
  next ← rs_pure (canonicalize_strand_from fuel infer (set_selected (Some next_subgoal) strand));
  enqueue next e.(table).

(** The answer to a positive subgoal that was removed from the strand. *)
Definition merge_positive (infer : InferenceTable E) (strand : Strand) (subgoal : InEnvironment Goal)
    (selected : SelectedSubgoal) : RS (InferenceTable E * Strand) :=
  t ← get_table selected.(subgoal_table);
  table_goal ← rs_pure (map_from_canonical selected.(universe_map) t.(table_goal).(canonical));
  a ← forest_answer selected.(subgoal_table) selected.(answer_index);
  answer_subst ← rs_pure (map_from_canonical selected.(universe_map) a.(answer_subst));
  match apply_answer_subst fuel db.(unification_database) strand.(ex_clause) subgoal table_goal answer_subst
          infer with
  | (Val c, infer) =>
      let c := if a.(answer_ambiguous) then set_ambiguous c else c in
      time ← rs_lift (increment c.(answer_time));
      mret (infer, set_ex_clause (set_answer_time time c) strand)
  | (Exn _, _) => _ ← unwind_stack; rs_err RsQuantumExceeded
  | (Panic p, _) => mpanic p
  | (OutOfFuel, _) => rs_fuel
  end.

(** An answer to a negative subgoal. *)
Definition merge_negative (infer : InferenceTable E) (strand : Strand) (selected : SelectedSubgoal) :
    RS (InferenceTable E * Strand) :=
  a ← forest_answer selected.(subgoal_table) selected.(answer_index);
  match a.(answer_subst).(cvalue).(delayed_subgoals) with
  | _ :: _ => mpanic PExplicit
  | [] =>
      if negb a.(answer_ambiguous) then _ ← unwind_stack; rs_err RsQuantumExceeded
      else mret (infer, set_ex_clause (set_ambiguous strand.(ex_clause)) strand)
  end.

Definition merge_answer_into_strand (infer : InferenceTable E) (strand : Strand) :
    RS (InferenceTable E * Strand) :=
  selected ← rs_lift (unwrap strand.(selected_subgoal));
  a ← forest_answer selected.(subgoal_table) selected.(answer_index);
  e ← get_top;
  t ← get_table e.(table);
  if bool_decide (t.(answer_mode) = AmComplete) && a.(answer_ambiguous) then
    c ← rs_lift (flounder_subgoal strand.(ex_clause) selected.(subgoal_index));
    mret (infer, set_ex_clause c (set_selected None strand))
  else
    '(subgoal, rest) ← rs_lift (vec_remove strand.(ex_clause).(subgoals) selected.(subgoal_index));
    let deselected := set_ex_clause (set_subgoals rest strand.(ex_clause)) (set_selected None strand) in
    match subgoal with
    | Positive subgoal =>
        st ← get_table selected.(subgoal_table);
        trivial ← rs_pure (is_trivial_substitution st.(table_goal) a.(answer_subst));
        _ ← (if trivial : bool then mret tt else enqueue_alternative infer strand selected);
        merge_positive infer deselected subgoal selected
    | Negative _ => merge_negative infer deselected selected
    end.

Definition on_coinductive_subgoal (canonical_strand : CanonicalStrand) : RS unit :=
  selected ← rs_lift (unwrap canonical_strand.(cvalue).(selected_subgoal));
  let c := canonical_strand.(cvalue).(ex_clause) in
  '(subgoal, rest) ← rs_lift (vec_remove c.(subgoals) selected.(subgoal_index));
  match subgoal with
  | Positive subgoal =>
      e ← get_top;
      t ← get_table e.(table);
      st ← get_table selected.(subgoal_table);
      _ ← rs_lift (assert (t.(coinductive_goal) && st.(coinductive_goal)));
      let c := extend_delayed [subgoal] (set_subgoals rest c) in
      modify_top (set_active (Some (in_canonical (set_ex_clause c ∘ set_selected None) canonical_strand)))
  | Negative _ => mpanic PExplicit
  end.

(** The dependency of the top of the stack on the minimums of a subgoal. *)
Definition depend_on (subgoal : Literal) (minimums : Minimums) : RS unit :=
  match subgoal with
  | Positive _ => modify_top (λ e, set_minimums (take_minimums e.(cyclic_minimums) minimums) e)
  | Negative _ =>
      modify_top (λ e, set_minimums (take_minimums e.(cyclic_minimums)
        (mkMinimums e.(entry_clock) (minimum_of_pos_and_neg minimums))) e)
  end.

(** [ex_clause.subgoals[selected_subgoal.subgoal_index]]. *)
Definition selected_literal (strand : CanonicalStrand) : RS Literal :=
  selected ← rs_lift (unwrap strand.(cvalue).(selected_subgoal));
  rs_lift (match strand.(cvalue).(ex_clause).(subgoals) !! selected.(subgoal_index) with
           | Some l => Val l | None => Panic PIndex end).

Definition on_positive_cycle (canonical_strand : CanonicalStrand) (minimums : Minimums) : RS unit :=
  subgoal ← selected_literal canonical_strand;
  _ ← depend_on subgoal minimums;
  e ← get_top;
  enqueue canonical_strand e.(table).

(** [all] over the entries of the stack from [depth] on. *)
Fixpoint all_coinductive (entries : Stack) : RS bool :=
  match entries with
  | [] => mret true
  | e :: entries =>
      t ← get_table e.(table);
      if t.(coinductive_goal) then all_coinductive entries else mret false
  end.
Definition top_of_stack_is_coinductive_from (depth : nat) : RS bool :=
  k ← get_stack; all_coinductive (drop depth k).

(** [on_subgoal_selected], given the selected subgoal of the strand. *)
Definition pursue_selected (canonical_strand : CanonicalStrand) (selected : SelectedSubgoal) : RS unit :=
  t ← get_table selected.(subgoal_table);
  _ ← rs_lift (assert (negb t.(floundered)));
  match answer_at t selected.(answer_index) with
  | Some _ =>
      '(infer, strand) ← instantiate_strand canonical_strand;
      '(infer, strand) ← merge_answer_into_strand infer strand;
      canonical_strand ← rs_pure (canonicalize_strand_from fuel infer strand);
      modify_top (set_active (Some canonical_strand))
  | None =>
      _ ← rs_lift (assert (next_answer_index t =? selected.(answer_index)));
      k ← get_stack;
      match is_active k selected.(subgoal_table) with
      | Some cyclic_depth =>
          e ← rs_lift (match k !! cyclic_depth with Some e => Val e | None => Panic PIndex end);
          coinductive ← top_of_stack_is_coinductive_from cyclic_depth;
          if coinductive : bool then on_coinductive_subgoal canonical_strand
          else on_positive_cycle canonical_strand (mkMinimums e.(entry_clock) time_MAX)
      | None =>
          _ ← modify_top (set_active (Some canonical_strand));
          push_table selected.(subgoal_table)
      end
  end.
Definition on_subgoal_selected (canonical_strand : CanonicalStrand) : RS unit :=
  selected ← rs_lift (unwrap canonical_strand.(cvalue).(selected_subgoal));
  pursue_selected canonical_strand selected.

(** ** No subgoal is left *)

(** The delayed subgoals of an answer, without the goal of its table. *)
Fixpoint filter_delayed (table_goal : TableGoal) (binders : list CanonicalVarKind)
    (delayed : list (InEnvironment Goal)) : Fallible (list (InEnvironment Goal)) :=
  match delayed with
  | [] => Val []
  | g :: delayed =>
      u ← u_canonicalize (mkCanonical g binders);
      rest ← filter_delayed table_goal binders delayed;
      Val (if decide (table_goal ≠ u.(uquantified)) then g :: rest else rest)
  end.

(** [push_answer] on a table of the forest. *)
Definition push_table_answer (a : Answer) (i : nat) : RS (option nat) :=
  t ← get_table i;
  '(r, t) ← rs_lift (push_answer a t);
  _ ← modify_table (λ _, t) i;
  mret r.

Definition pursue_answer (canonical_strand : CanonicalStrand) : RS (option nat) :=
  e ← get_top;
  let c := canonical_strand.(cvalue).(ex_clause) in
  let binders := canonical_strand.(cbinders) in
  _ ← rs_lift (assert (bool_decide (c.(subgoals) = [])));
  _ ← rs_lift (assert (bool_decide (c.(floundered_subgoals) = []) || c.(ambiguous)));
  big ← rs_pure (needs_truncation fuel (table_new (E := E)) max_size c.(ex_subst));
  if big : bool then _ ← modify_table mark_floundered e.(table); mret None
  else
    t ← get_table e.(table);
    delayed ← rs_pure (filter_delayed t.(table_goal) binders c.(ex_delayed_subgoals));
    let subst := mkCanonical (mkAnswerSubst c.(ex_subst) c.(ex_constraints) delayed) binders in
    trivial ← rs_pure (is_trivial_substitution t.(table_goal) subst);
    let is_trivial_answer := trivial && bool_decide (c.(ex_constraints) = []) in
    pushed ← push_table_answer (mkAnswer subst c.(ambiguous)) e.(table);
    match pushed with
    | Some answer_index =>
        _ ← (if negb c.(ambiguous) && is_trivial_answer
             then _ ← take_table_strands e.(table); mret tt else mret tt);
        mret (Some answer_index)
    | None => mret None
    end.

Definition create_refinement_strand (table : nat) (a : Answer) : RS (option CanonicalStrand) :=
  match a.(answer_subst).(cvalue).(delayed_subgoals) with
  | [] => mret None
  | _ =>
      t ← get_table table;
      '(infer, _, s) ← rs_pure (from_canonical (E := E) t.(table_goal).(universes) a.(answer_subst));
      let ex_clause := mkExClause s.(asubst) a.(answer_ambiguous) s.(aconstraints)
        (Positive <$> s.(delayed_subgoals)) [] time_zero [] in
      strand ← rs_pure (canonicalize_strand_from fuel infer (initial_strand ex_clause));
      mret (Some strand)
  end.

Definition on_no_remaining_subgoals (canonical_strand : CanonicalStrand) : RS NoRemainingSubgoalsResult :=
  e ← get_top;
  t ← get_table e.(table);
  if bool_decide (t.(answer_mode) = AmComplete) && canonical_strand.(cvalue).(ex_clause).(ambiguous) then
    _ ← enqueue canonical_strand e.(table);
    rs_err RsQuantumExceeded
  else
    pursued ← pursue_answer canonical_strand;
    match pursued with
    | Some answer_index =>
        caller ← pop_with pop_and_take_caller_strand;
        match caller with
        | Some caller_strand =>
            _ ← modify_top (set_active (Some caller_strand));
            mret Success
        | None =>
            a ← forest_answer e.(table) answer_index;
            refinement ← create_refinement_strand e.(table) a;
            _ ← match refinement with
                | Some strand => enqueue strand e.(table)
                | None => mret tt
                end;
            mret RootAnswerAvailable
        end
    | None => _ ← unwind_stack; rs_err RsQuantumExceeded
    end.

(** ** No strand is left *)

(** The table on the top of the stack has failed. *)
Definition on_table_failed : RS unit :=
  caller ← pop_with pop_and_borrow_caller_strand;
  match caller with
  | None => rs_err RsNoMoreSolutions
  | Some caller_strand =>
      selected ← rs_lift (unwrap caller_strand.(cvalue).(selected_subgoal));
      let c := caller_strand.(cvalue).(ex_clause) in
      let deselected := in_canonical (set_selected None) caller_strand in
      match c.(subgoals) !! selected.(subgoal_index) with
      | Some (Positive _) =>
          _ ← modify_top (set_active None);
          _ ← unwind_stack;
          rs_err RsQuantumExceeded
      | Some (Negative _) =>
          '(_, rest) ← rs_lift (vec_remove c.(subgoals) selected.(subgoal_index));
          modify_top (set_active (Some (in_canonical (set_ex_clause (set_subgoals rest c)) deselected)))
      | None => mpanic PIndex
      end
  end.

(** All strands of the table on the top of the stack depend on a cycle. *)
Definition on_table_in_cycle (e : StackEntry) : RS unit :=
  let cyclic_minimums := e.(cyclic_minimums) in
  if time_le e.(entry_clock) cyclic_minimums.(min_positive)
     && time_le e.(entry_clock) cyclic_minimums.(min_negative) then
    if time_lt cyclic_minimums.(min_negative) time_MAX then _ ← unwind_stack; rs_err RsNegativeCycle
    else
      cyclic_strands ← take_table_strands e.(table);
      _ ← clear_strands_after_cycle fuel cyclic_strands;
      _ ← unwind_stack;
      rs_err RsQuantumExceeded
  else
    caller ← pop_with pop_and_borrow_caller_strand;
    match caller with
    | None => mpanic PExplicit
    | Some caller_strand =>
        subgoal ← selected_literal caller_strand;
        _ ← depend_on subgoal cyclic_minimums;
        e ← get_top;
        active_strand ← rs_lift (unwrap e.(active_strand));
        _ ← modify_top (set_active None);
        enqueue active_strand e.(table)
    end.

Definition on_no_strands_left : RS unit :=
  e ← get_top;
  t ← get_table e.(table);
  match t.(strands) with
  | [] => on_table_failed
  | _ =>
      if decide (t.(answer_mode) = AmComplete) then
        _ ← modify_table (set_answer_mode AmAmbiguous) e.(table);
        rs_err RsQuantumExceeded
      else on_table_in_cycle e
  end.

(** ** The loop *)

(** Which strands of a table may be pursued at a time and in a mode. *)
Definition strand_eligible (clock : TimeStamp) (mode : AnswerMode) (strand : CanonicalStrand) : bool :=
  time_lt strand.(cvalue).(last_pursued_time) clock
  && match mode, strand.(cvalue).(ex_clause).(ambiguous) with
     | AmComplete, true => false
     | _, _ => true
     end.

(** [self.stack.top().active_strand.take().or_else(..)]. *)
Definition next_strand : RS (option CanonicalStrand) :=
  e ← get_top;
  t ← get_table e.(table);
  match e.(active_strand) with
  | Some strand => _ ← modify_top (set_active None); mret (Some strand)
  | None =>
      let test := strand_eligible e.(entry_clock) t.(answer_mode) in
      _ ← modify_table (λ t, (dequeue_next_strand_that test t).2) e.(table);
      mret (dequeue_next_strand_that test t).1
  end.

(** One turn: whether the answer is there. *)
Definition search_step : RS bool :=
  e ← get_top;
  next ← next_strand;
  match next with
  | Some canonical_strand =>
      let canonical_strand := in_canonical (set_pursued e.(entry_clock)) canonical_strand in
      '(selection, canonical_strand) ← select_subgoal fuel canonical_strand;
      match selection with
      | Selected => _ ← on_subgoal_selected canonical_strand; mret false
      | NotSelected =>
          r ← on_no_remaining_subgoals canonical_strand;
          mret (match r with RootAnswerAvailable => true | Success => false end)
      end
  | None => _ ← on_no_strands_left; mret false
  end.

Fixpoint search (n : nat) : RS unit :=
  match n with
  | 0 => rs_fuel
  | S n => available ← search_step; if available : bool then mret tt else search n
  end.

Definition ensure_root_answer (n initial_table initial_answer : nat) : RS unit :=
  t ← get_table initial_table;
  if t.(floundered) then rs_err RsFloundered
  else
    match answer_at t initial_answer with
    | Some _ => mret tt
    | None =>
        _ ← rs_lift (assert (next_answer_index t =? initial_answer));
        _ ← push_table initial_table;
        search n
    end.

(** [Drop for SolveState]. *)
Definition drop_state : RS unit :=
  k ← get_stack;
  match last k with
  | None => mret tt
  | Some e =>
      _ ← match e.(active_strand) with
          | Some active_strand =>
              _ ← modify_top (set_active None);
              enqueue active_strand e.(table)
          | None => mret tt
          end;
      unwind_stack
  end.

Definition complete_answer (a : Answer) : CompleteAnswer :=
  mkCompleteAnswer
    (mkCanonical (mkConstrainedSubst a.(answer_subst).(cvalue).(asubst) a.(answer_subst).(cvalue).(aconstraints))
       a.(answer_subst).(cbinders))
    a.(answer_ambiguous).

(** What [root_answer] computes before its state is dropped. *)
Definition root_search (n table answer_index : nat) : RS CompleteAnswer :=
  _ ← ensure_root_answer n table answer_index;
  k ← get_stack;
  _ ← rs_lift (assert (bool_decide (k = [])));
  a ← forest_answer table answer_index;
  match a.(answer_subst).(cvalue).(delayed_subgoals) with
  | _ :: _ => rs_err RsInvalidAnswer
  | [] => mret (complete_answer a)
  end.

(** The drop of the state comes last, also after an error; a panic stays one. *)
Definition root_answer (n table answer_index : nat) (self : Forest) :
    outcome RootSearchFail CompleteAnswer * Forest :=
  let '(r, s) := root_search n table answer_index (mkSolveState self []) in
  match r with
  | Val _ | Exn _ =>
      match drop_state s with
      | (Val _, s) => (r, s.(forest))
      | (Exn e, s) => (Exn e, s.(forest))
      | (Panic p, s) => (Panic p, s.(forest))
      | (OutOfFuel, s) => (OutOfFuel, s.(forest))
      end
  | _ => (r, s.(forest))
  end.
End Logic.
