(* ===== verification/SlgSolve.v ===== *)
(** * The SLG solver ([chalk-engine/src/forest.rs], [solve.rs])

    [ForestSolver] is the stream of the answers of one table; [make_solution]
    aggregates it.  A caller may stop the solver: [should_continue] tells the
    answers to its calls, in order. *)

From stdpp Require Import base list numbers gmap.
From S2P Require Import Prelude Ir IrCountable Fold FoldLaws Shift Ena Infer RustIr Solve Fulfill RecSolve ExClause Forest Logic Aggregate.

Record ForestSolver := mkForestSolver {
  fs_forest : Forest;
  fs_answer : nat;
  fs_calls : nat
}.

Section SlgSolve.
Context {E : Type} `{EnaOps E}.
Context (fuel : nat) (db : RustIrDatabase) (max_size : nat).
Context (clauses_for : UCanonicalDomainGoal → outcome Floundered ProgramClauses).
Context (should_continue : nat → bool).
(** The table of the stream. *)
Context (table : nat).

(** The loop of [peek_answer]; [n] bounds the number of root searches. *)
Fixpoint solver_peek (n : nat) : ST ForestSolver AnswerResult := λ self,
  match n with
  | 0 => OutOfFuel
  | S n =>
      let '(r, forest) :=
        root_answer (E := E) fuel db max_size clauses_for fuel table self.(fs_answer) self.(fs_forest) in
      let self := mkForestSolver forest self.(fs_answer) self.(fs_calls) in
      match r with
      | Val a => Val (AnswerOf a, self)
      | Exn RsInvalidAnswer => solver_peek n (mkForestSolver forest (S self.(fs_answer)) self.(fs_calls))
      | Exn RsFloundered => Val (AnswerFloundered, self)
      | Exn RsNoMoreSolutions => Val (NoMoreSolutions, self)
      | Exn RsQuantumExceeded =>
          let next := mkForestSolver forest self.(fs_answer) (S self.(fs_calls)) in
          if should_continue self.(fs_calls) then solver_peek n next else Val (QuantumExceeded, next)
      | Exn RsNegativeCycle => Panic PExplicit
      | Panic p => Panic p
      | OutOfFuel => OutOfFuel
      end
  end.

(** [self.answer.increment()]. *)
Definition advance : ST ForestSolver unit := λ self,
  Val (tt, mkForestSolver self.(fs_forest) (S self.(fs_answer)) self.(fs_calls)).
Definition solver_next (n : nat) : ST ForestSolver AnswerResult :=
  answer ← solver_peek n; _ ← advance; mret answer.

Definition ForestSolver_stream (n : nat) : AnswerStream ForestSolver := {|
  peek_answer := solver_peek n;
  next_answer := solver_next n;
  any_future_answer self test := Forest.any_future_answer self.(fs_forest) table self.(fs_answer) test
|}.
End SlgSolve.

Section Solver.
Context {E : Type} `{EnaOps E}.
Context (fuel : nat) (db : RustIrDatabase) (max_size : nat) (expected_answers : option nat).
Context (clauses_for : UCanonicalDomainGoal → outcome Floundered ProgramClauses).

(** [Forest::iter_answers]. *)
Definition iter_answers (goal : TableGoal) (forest : Forest) : Fallible (nat * ForestSolver) :=
  '(table, forest) ← get_or_create_table_for_ucanonical_goal (E := E) fuel db clauses_for goal forest;
  Val (table, mkForestSolver forest 0 0).

(** [solve_limited]; [solve] always continues. *)
Definition slg_solve_limited (goal : TableGoal) (should_continue : nat → bool) : ST Forest (option Solution) :=
  λ forest,
    '(table, solver) ← iter_answers goal forest;
    '(solution, solver) ←
      make_solution (E := E)
        (H0 := ForestSolver_stream (E := E) fuel db max_size clauses_for should_continue table fuel)
        fuel db.(unification_database) expected_answers fuel goal solver;
    Val (solution, solver.(fs_forest)).
Definition slg_solve (goal : TableGoal) : ST Forest (option Solution) := slg_solve_limited goal (λ _, true).

(** [SubstitutionResult]. *)
Inductive SubstitutionResult (S : Type) :=
  | SrDefinite (s : S)
  | SrAmbiguous (s : S)
  | SrFloundered.
Arguments SrDefinite {S} _.
Arguments SrAmbiguous {S} _.
Arguments SrFloundered {S}.

Definition substitution_result (answer : CompleteAnswer) : SubstitutionResult (Canonical ConstrainedSubst) :=
  if negb answer.(complete_ambiguous) then SrDefinite answer.(complete_subst)
  else if is_identity_subst answer.(complete_subst).(cvalue).(csubst) then SrFloundered
  else SrAmbiguous answer.(complete_subst).

(** The loop of [solve_multiple]: the results that the callback received, with its
    second argument, and whether all answers were drawn; [f] answers the callback. *)
Fixpoint multiple_loop (table n : nat) (f : SubstitutionResult (Canonical ConstrainedSubst) → bool → bool) :
    ST ForestSolver (list (SubstitutionResult (Canonical ConstrainedSubst) * bool) * bool) :=
  match n with
  | 0 => λ _, OutOfFuel
  | S n =>
      let next := solver_next (E := E) fuel db max_size clauses_for (λ _, true) table fuel in
      let peek := solver_peek (E := E) fuel db max_size clauses_for (λ _, true) table fuel in
      let give subst :=
        peeked ← peek;
        let more := negb (is_no_more_solutions peeked) in
        if f subst more then
          '(l, all) ← multiple_loop table n f; mret ((subst, more) :: l, all)
        else mret ([(subst, more)], false) in
      answer ← next;
      match answer with
      | AnswerOf answer => give (substitution_result answer)
      | AnswerFloundered => give SrFloundered
      | NoMoreSolutions => mret ([], true)
      | QuantumExceeded => multiple_loop table n f
      end
  end.

Definition slg_solve_multiple (goal : TableGoal)
    (f : SubstitutionResult (Canonical ConstrainedSubst) → bool → bool) :
    ST Forest (list (SubstitutionResult (Canonical ConstrainedSubst) * bool) * bool) := λ forest,
  '(table, solver) ← iter_answers goal forest;
  '(r, solver) ← multiple_loop table fuel f solver;
  Val (r, solver.(fs_forest)).
End Solver.
