(* ===== verification/LogicInv.v ===== *)
(** * The invariant of the SLG forest

    The tables are indexed by their goals, no answer of a table occurs twice, and
    what a table has learnt stays; on the stack, every table but the top waits for
    the table above it.  Every step of the search keeps this, and dropping the state
    of a search returns each active strand to its table. *)

From stdpp Require Import base list numbers gmap.
From S2P Require Import Prelude Ir IrCountable Fold FoldLaws Ena Infer Zip Unify RustIr RecSolve RecSolveThm ExClause Resolvent Forest Logic Aggregate.

(** ** Well-formed tables *)

Record table_wf (t : Table) : Prop := {
  wf_distinct : NoDup (answer_subst <$> t.(answers));
  wf_hash a : t.(floundered) = false → a ∈ t.(answers) →
    t.(answers_hash) !! a.(answer_subst) = Some a.(answer_ambiguous);
  wf_hashed s b : t.(floundered) = false → t.(answers_hash) !! s = Some b → mkAnswer s b ∈ t.(answers);
  wf_floundered : t.(floundered) = true → t.(answers) = []
}.

Record tables_wf (ts : Tables) : Prop := {
  wf_tables : Forall table_wf ts.(tables);
  wf_index g i : ts.(table_indices) !! g = Some i ↔ ∃ t, ts.(tables) !! i = Some t ∧ t.(table_goal) = g
}.

(** What may happen to a table: it flounders, or its answers grow. *)
Record table_grows (t t' : Table) : Prop := {
  grows_goal : t'.(table_goal) = t.(table_goal);
  grows_coinductive : t'.(coinductive_goal) = t.(coinductive_goal);
  grows_floundered : t.(floundered) = true → t'.(floundered) = true;
  grows_answers : t'.(floundered) = true ∨ t.(answers) `prefix_of` t'.(answers)
}.

Definition tables_grow (l l' : list Table) : Prop :=
  ∀ i t, l !! i = Some t → ∃ t', l' !! i = Some t' ∧ table_grows t t'.

Definition forest_grows (f f' : Forest) : Prop :=
  tables_grow f.(ftables).(tables) f'.(ftables).(tables) ∧ (f.(fclock).(clock) <= f'.(fclock).(clock))%N.

#[global] Instance table_grows_preorder : PreOrder table_grows.
Proof.
  split.
  - intros t. by split; auto.
  - intros t1 t2 t3 [] []. split; try congruence; auto.
    destruct grows_answers1 as [|Hp]; [by left|].
    destruct grows_answers0 as [Hf|Hp']; [left; auto|right; by etrans].
Qed.
#[global] Instance tables_grow_preorder : PreOrder tables_grow.
Proof.
  split.
  - intros l i t Ht. by exists t.
  - intros l1 l2 l3 H12 H23 i t Ht. apply H12 in Ht as (t2 & Ht2 & ?). apply H23 in Ht2 as (t3 & ? & ?).
    exists t3. split; [done|by etrans].
Qed.
#[global] Instance forest_grows_preorder : PreOrder forest_grows.
Proof.
  split.
  - intros f. split; [done|lia].
  - intros f1 f2 f3 [? ?] [? ?]. split; [by etrans|lia].
Qed.

Lemma tables_grow_length l l' : tables_grow l l' → length l ≤ length l'.
Proof.
  intros Hl. destruct (decide (length l ≤ length l')) as [|Hlt]; [done|].
  destruct (l !! length l') as [t|] eqn:Ht.
  - apply Hl in Ht as (t' & Ht' & _). apply lookup_lt_Some in Ht'. lia.
  - apply lookup_ge_None in Ht. lia.
Qed.

(** *** The operations *)

(** The strands and the mode of a table are free. *)
Lemma table_wf_same t t' :
  t'.(table_goal) = t.(table_goal) → t'.(coinductive_goal) = t.(coinductive_goal) →
  t'.(floundered) = t.(floundered) → t'.(answers) = t.(answers) → t'.(answers_hash) = t.(answers_hash) →
  table_wf t → table_wf t' ∧ table_grows t t'.
Proof.
  intros Hg Hc Hf Ha Hh []. split; split; rewrite ?Ha, ?Hh, ?Hf, ?Hg, ?Hc; auto.
Qed.

Lemma mark_floundered_wf t : table_wf t → table_wf (mark_floundered t) ∧ table_grows t (mark_floundered t).
Proof. intros []. split; split; simpl; auto; try done. constructor. Qed.

Lemma push_answer_wf E a t r t' :
  table_wf t → push_answer (E := E) a t = Val (r, t') → table_wf t' ∧ table_grows t t'.
Proof.
  intros Hwf Hp. unfold push_answer in Hp. inv_outcome Hp. apply negb_true_iff in Hx.
  destruct (t.(answers_hash) !! a.(answer_subst)) as [was|] eqn:Hhash.
  { destruct (was && _); simplify_eq. done. }
  simplify_eq. destruct Hwf as [Hd Hh Hh' Hfl]. split; split; simpl; auto; [|intros b Hf Hb|intros s b Hf Hs|congruence|].
  - rewrite fmap_app. apply NoDup_app. split; [done|]. split; [|apply NoDup_singleton].
    intros s Hs Hin. apply list_elem_of_singleton in Hin as ->.
    apply list_elem_of_fmap in Hs as (a' & Heq & Ha'). apply Hh in Ha'; [|done]. rewrite <- Heq in Ha'. congruence.
  - apply elem_of_app in Hb as [Hb| ->%list_elem_of_singleton]; [|apply lookup_insert_eq].
    rewrite lookup_insert_ne; [by apply Hh|]. intros Heq. apply Hh in Hb; [|done]. congruence.
  - apply elem_of_app. destruct (decide (a.(answer_subst) = s)) as [<-|Hne].
    + rewrite lookup_insert_eq in Hs. injection Hs as <-. right. destruct a. by left.
    + rewrite lookup_insert_ne in Hs by done. left. auto.
  - right. by exists [a].
Qed.

Lemma update_table_wf ts i t t' :
  tables_wf ts → ts.(tables) !! i = Some t → table_wf t' → table_grows t t' →
  tables_wf (mkTables ts.(table_indices) (<[i:=t']> ts.(tables))) ∧
  tables_grow ts.(tables) (<[i:=t']> ts.(tables)).
Proof.
  intros [Hts Hidx] Hi Hwf Hg. split.
  - split; simpl.
    + by apply Forall_insert.
    + intros g j. rewrite Hidx. apply lookup_lt_Some in Hi as Hlt.
      destruct (decide (i = j)) as [<-|Hne].
      * rewrite list_lookup_insert_eq by done. rewrite Hi. destruct Hg as [Hg _ _ _]. naive_solver congruence.
      * by rewrite list_lookup_insert_ne.
  - intros j u Hj. apply lookup_lt_Some in Hi as Hlt. destruct (decide (i = j)) as [<-|Hne].
    + rewrite list_lookup_insert_eq by done. simplify_eq. eauto.
    + rewrite list_lookup_insert_ne by done. eexists. split; [done|]. done.
Qed.

Lemma tables_insert_wf t ts :
  tables_wf ts → table_wf t → ts.(table_indices) !! t.(table_goal) = None →
  tables_wf (tables_insert t ts).2 ∧ tables_grow ts.(tables) (tables_insert t ts).2.(tables).
Proof.
  intros [Hts Hidx] Hwf Hnew. unfold tables_insert, next_index. simpl. split.
  - split; simpl.
    + apply Forall_app. split; [done|]. by apply Forall_singleton.
    + intros g i. destruct (decide (t.(table_goal) = g)) as [<-|Hne].
      * rewrite lookup_insert_eq. split.
        -- intros [= <-]. exists t. by rewrite lookup_app_r, Nat.sub_diag by lia.
        -- intros (u & Hu & Hg). apply lookup_app_Some in Hu as [Hu|[Hle Hu]].
           ++ assert (ts.(table_indices) !! t.(table_goal) = Some i) by (apply Hidx; eauto). congruence.
           ++ apply list_lookup_singleton_Some in Hu as [Hi _]. f_equal. lia.
      * rewrite lookup_insert_ne, Hidx by done. split.
        -- intros (u & Hu & Hg). exists u. split; [|done]. by apply lookup_app_l_Some.
        -- intros (u & Hu & Hg). apply lookup_app_Some in Hu as [Hu|[Hle Hu]]; [eauto|].
           apply list_lookup_singleton_Some in Hu as [_ ->]. done.
  - intros i u Hu. exists u. split; [by apply lookup_app_l_Some|done].
Qed.

Lemma alter_insert {A} (f : A → A) (l : list A) i x : l !! i = Some x → alter f i l = <[i:=f x]> l.
Proof.
  intros Hx. apply list_eq. intros j. destruct (decide (i = j)) as [<-|Hne].
  - apply lookup_lt_Some in Hx as Hlt. by rewrite list_lookup_insert_eq, list_lookup_alter_eq, Hx.
  - by rewrite list_lookup_insert_ne, list_lookup_alter_ne.
Qed.
Lemma alter_None {A} (f : A → A) (l : list A) i : l !! i = None → alter f i l = l.
Proof.
  intros Hx. apply list_eq. intros j. destruct (decide (i = j)) as [<-|Hne].
  - by rewrite list_lookup_alter_eq, Hx.
  - by rewrite list_lookup_alter_ne.
Qed.

(** *** New tables *)

Definition fresh_table (goal : TableGoal) (t : Table) : Prop :=
  table_wf t ∧ t.(table_goal) = goal ∧ t.(answers) = [].

Lemma fresh_table_of_goal goal c : fresh_table goal (table_of_goal goal c).
Proof.
  split; [|done]. split; simpl; try done; [constructor|by intros a _ ?%not_elem_of_nil].
Qed.
Lemma fresh_enqueue goal s t : fresh_table goal t → fresh_table goal (enqueue_strand s t).
Proof. intros (Hwf & ? & ?). split; [|done]. by eapply (table_wf_same t). Qed.
Lemma fresh_floundered goal t : fresh_table goal t → fresh_table goal (mark_floundered t).
Proof. intros (Hwf & ? & ?). split; [|done]. by apply mark_floundered_wf. Qed.

Section Build.
Context {E : Type} `{EnaOps E}.
Context (fuel : nat) (db : RustIrDatabase) (max_size : nat).
Context (clauses_for : UCanonicalDomainGoal → outcome Floundered ProgramClauses).

Lemma build_strands_fresh goal infer env dg subst clauses t t' :
  fresh_table goal t → build_strands (E := E) fuel db infer env dg subst clauses t = Val t' → fresh_table goal t'.
Proof.
  revert t. induction clauses as [|c clauses IH]; intros t Ht; [by intros [= <-]|].
  cbn [build_strands]. intros (t1 & Ht1 & Hr)%bind_Val. eapply IH; [|exact Hr].
  destruct (resolvent_clause _ _ _ _ _ _ _) as [[r| | |] infer']; try done.
  - apply bind_Val in Ht1 as (s & _ & [= <-]). by apply fresh_enqueue.
  - by injection Ht1 as <-.
Qed.

Lemma build_table_fresh goal t : build_table (E := E) fuel db clauses_for goal = Val t → fresh_table goal t.
Proof.
  unfold build_table. destruct goal as [[[env g] bs] us]. set (goal := mkUCanonical _ _).
  pose proof (fresh_table_of_goal goal (goal_is_coinductive db g)) as Hnew.
  assert (build_table_goal (E := E) fuel db goal (table_of_goal goal (goal_is_coinductive db g)) = Val t → fresh_table goal t).
  { unfold build_table_goal. intros (((infer & s) & g') & _ & Ht)%bind_Val.
    apply bind_Val in Ht as ((r & infer') & _ & Ht). destruct r as [c| |]; simplify_eq.
    - apply bind_Val in Ht as (strand & _ & [= <-]). by apply fresh_enqueue.
    - done.
    - by apply fresh_floundered. }
  destruct g as [ | | | | | |dg| ]; try done. unfold build_table_domain.
  destruct (clauses_for _) as [clauses|[]| |]; intros Ht; try done.
  - inv_outcome Ht. destruct x1 as [[infer s] g']. inv_outcome Ht. by eapply build_strands_fresh.
  - injection Ht as <-. by apply fresh_floundered.
Qed.

Lemma get_or_create_wf goal f i f' :
  tables_wf f.(ftables) → get_or_create_table_for_ucanonical_goal (E := E) fuel db clauses_for goal f = Val (i, f') →
  tables_wf f'.(ftables) ∧ forest_grows f f' ∧
  ∃ t, f'.(ftables).(tables) !! i = Some t ∧ t.(table_goal) = goal.
Proof.
  intros Hwf. unfold get_or_create_table_for_ucanonical_goal, index_of.
  destruct (_ !! goal) as [j|] eqn:Hj.
  - intros [= <- <-]. apply wf_index in Hj; [|done]. done.
  - intros (t & Ht & Hr)%bind_Val. apply build_table_fresh in Ht as (Htw & <- & _).
    destruct (tables_insert_wf t f.(ftables) Hwf Htw Hj) as [Hwf' Hgr].
    injection Hr as <- <-. split; [done|]. split; [split; [done|simpl; lia]|].
    exists t. split; [|done]. simpl. by rewrite lookup_app_r, Nat.sub_diag by (unfold next_index; lia).
Qed.
End Build.

(** ** The stack *)

(** The active strand of [e] waits for the table of [e']. *)
Definition waits_for (e e' : StackEntry) : Prop :=
  ∃ strand sel, e.(active_strand) = Some strand ∧ strand.(cvalue).(selected_subgoal) = Some sel ∧
    sel.(subgoal_table) = e'.(table).

Record stack_wf (n : nat) (k : Stack) : Prop := {
  wf_range : Forall (λ e, e.(table) < n) k;
  wf_linked i e e' : k !! i = Some e → k !! S i = Some e' → waits_for e e'
}.

Lemma stack_wf_nil n : stack_wf n [].
Proof. by split; [constructor|]. Qed.

Lemma stack_wf_mono n m k : n ≤ m → stack_wf n k → stack_wf m k.
Proof. intros Hle [Hr Hl]. split; [|done]. eapply Forall_impl; [done|]. simpl. lia. Qed.

Lemma last_snoc_inv {A} (k : list A) e : last k = Some e → ∃ k', k = k' ++ [e] ∧ removelast k = k'.
Proof. intros [k' ->]%last_Some. exists k'. by rewrite removelast_last. Qed.

Lemma stack_wf_app_l n k k' : stack_wf n (k ++ k') → stack_wf n k.
Proof.
  intros [Hr Hl]. split; [by apply Forall_app in Hr as [? _]|].
  intros i e e' He He'. eapply Hl; by apply lookup_app_l_Some.
Qed.
Lemma stack_wf_removelast n k : stack_wf n k → stack_wf n (removelast k).
Proof.
  destruct (last k) as [e|] eqn:Hk.
  - apply last_snoc_inv in Hk as (k' & -> & ->). apply stack_wf_app_l.
  - apply last_None in Hk as ->. done.
Qed.

Lemma stack_wf_snoc n k e :
  stack_wf n k → e.(table) < n → (∀ e0, last k = Some e0 → waits_for e0 e) → stack_wf n (k ++ [e]).
Proof.
  intros [Hr Hl] He Hlast. split; [apply Forall_app; by rewrite Forall_singleton|].
  intros i e0 e1 H0 H1. destruct (decide (S i < length k)) as [Hlt|Hge].
  - rewrite lookup_app_l in H0, H1 by lia. by eapply Hl.
  - apply lookup_lt_Some in H1 as Hlt. rewrite length_app in Hlt. simpl in Hlt.
    rewrite lookup_app_r in H1 by lia. replace (S i - length k) with 0 in H1 by lia. injection H1 as ->.
    rewrite lookup_app_l in H0 by lia. apply Hlast. rewrite last_lookup. by replace (pred (length k)) with i by lia.
Qed.

(** The top of the stack may change, in the same table. *)
Lemma stack_wf_top n k e e' :
  stack_wf n (k ++ [e]) → e'.(table) = e.(table) → stack_wf n (k ++ [e']).
Proof.
  intros Hk He. pose proof (stack_wf_app_l _ _ _ Hk) as Hk'. destruct Hk as [Hr Hl].
  apply Forall_app in Hr as [_ Hr]. rewrite Forall_singleton in Hr.
  apply stack_wf_snoc; [done|by rewrite He|]. intros e0 H0. rewrite last_lookup in H0.
  apply lookup_lt_Some in H0 as Hlt.
  destruct (Hl (pred (length k)) e0 e) as (s & sel & ? & ? & ?).
  - by rewrite lookup_app_l by done.
  - rewrite lookup_app_r by lia. by replace (S (pred (length k)) - length k) with 0 by lia.
  - exists s, sel. split; [done|]. split; [done|]. by rewrite He.
Qed.

(** The entry below the top has an active strand. *)
Lemma stack_wf_caller n k e e' :
  stack_wf n ((k ++ [e]) ++ [e']) → waits_for e e'.
Proof.
  intros [_ Hl]. apply (Hl (length k)).
  - rewrite lookup_app_l by (rewrite length_app; simpl; lia). by rewrite lookup_app_r, Nat.sub_diag by done.
  - rewrite lookup_app_r by (rewrite length_app; simpl; lia). rewrite length_app. simpl.
    by replace (S (length k) - (length k + 1)) with 0 by lia.
Qed.

(** ** Triples *)

(** [m] started with [P] gives [Q], or [X] if it fails; nothing is said of panics. *)
Definition rtriple (P : SolveState → Prop) {A} (m : RS A) (Q : A → SolveState → Prop)
    (X : SolveState → Prop) : Prop :=
  ∀ s, P s → match m s with (Val a, s') => Q a s' | (Exn _, s') => X s' | _ => True end.

Section Triples.
Context (X : SolveState → Prop).

Lemma rtriple_ret {A} (a : A) Q : rtriple (Q a) (mret a) Q X.
Proof. intros s HQ. exact HQ. Qed.
Lemma rtriple_bind {A B} (m : RS A) (f : A → RS B) P R Q :
  rtriple P m R X → (∀ a, rtriple (R a) (f a) Q X) → rtriple P (m ≫= f) Q X.
Proof.
  intros Hm Hf s HP. specialize (Hm s HP). unfold mbind, RS_bind. destruct (m s) as [[a|e|p|] s']; try done.
  by apply Hf.
Qed.
Lemma rtriple_consequence {A} (m : RS A) (P P' : SolveState → Prop) (Q Q' : A → SolveState → Prop) :
  rtriple P m Q X → (∀ s, P' s → P s) → (∀ a s, Q a s → Q' a s) → rtriple P' m Q' X.
Proof. intros Hm HP HQ s Hs. specialize (Hm s (HP s Hs)). destruct (m s) as [[]]; auto. Qed.
Lemma rtriple_lift {A} (m : outcome RootSearchFail A) P :
  (∀ e, m ≠ Exn e) → rtriple P (rs_lift m) (λ a s, m = Val a ∧ P s) X.
Proof. intros Hm s HP. unfold rs_lift. destruct m; naive_solver. Qed.
Lemma rtriple_panic {A} p P (Q : A → SolveState → Prop) : rtriple P (mpanic p) Q X.
Proof. by intros s _. Qed.
Lemma rtriple_fuel {A} P (Q : A → SolveState → Prop) : rtriple P rs_fuel Q X.
Proof. by intros s _. Qed.
Lemma rtriple_err {A} e (P : SolveState → Prop) (Q : A → SolveState → Prop) :
  (∀ s, P s → X s) → rtriple P (rs_err e) Q X.
Proof. intros HX s HP. by apply HX. Qed.
End Triples.

(** ** The invariant of the search *)

Section Inv.
Context (f0 : Forest).

Record Inv (s : SolveState) : Prop := {
  inv_tables : tables_wf s.(forest).(ftables);
  inv_grows : forest_grows f0 s.(forest);
  inv_stack : stack_wf (length s.(forest).(ftables).(tables)) s.(stack)
}.

Abbreviation keeps m := (rtriple Inv m (λ _, Inv) Inv).
Abbreviation in_range i s := (i < length s.(forest).(ftables).(tables)).

Lemma keeps_bind {A B} (m : RS A) (f : A → RS B) : keeps m → (∀ a, keeps (f a)) → keeps (m ≫= f).
Proof. intros. by eapply rtriple_bind. Qed.
Lemma keeps_ret {A} (a : A) : keeps (mret a).
Proof. apply (rtriple_ret Inv a (λ _, Inv)). Qed.
Lemma keeps_lift {A} (m : outcome RootSearchFail A) : keeps (rs_lift m).
Proof. intros s Hs. unfold rs_lift. by destruct m. Qed.
Lemma keeps_pure {A} (m : Fallible A) : keeps (rs_pure m).
Proof. apply keeps_lift. Qed.
Lemma keeps_panic {A} p : keeps (mpanic p : RS A).
Proof. apply rtriple_panic. Qed.
Lemma keeps_fuel {A} : keeps (rs_fuel : RS A).
Proof. apply rtriple_fuel. Qed.
Lemma keeps_err {A} e : keeps (rs_err e : RS A).
Proof. by apply rtriple_err. Qed.
Lemma keeps_get_forest : keeps get_forest.
Proof. by intros s Hs. Qed.
Lemma keeps_get_stack : keeps get_stack.
Proof. by intros s Hs. Qed.
Lemma keeps_get_top : keeps get_top.
Proof. intros s Hs. unfold get_top. simpl. by destruct (top _). Qed.

Lemma get_table_spec i : rtriple Inv (get_table i) (λ _ s, Inv s ∧ in_range i s) Inv.
Proof.
  intros s Hs. unfold get_table, table_at. destruct (_ !! i) eqn:Hi; [|done].
  split; [done|]. by apply lookup_lt_Some in Hi.
Qed.
Lemma keeps_get_table i : keeps (get_table i).
Proof. eapply rtriple_consequence; [apply get_table_spec|done|]. by intros ? ? []. Qed.

Lemma keeps_modify_table f i :
  (∀ t, table_wf t → table_wf (f t) ∧ table_grows t (f t)) → keeps (modify_table f i).
Proof.
  intros Hf s [Ht Hg Hk]. unfold modify_table, update_table. destruct (_ !! i) as [t|] eqn:Hi; [|done].
  destruct (Hf t) as [Hw Hgr]; [by eapply Forall_lookup_1; [apply wf_tables|]|].
  destruct (update_table_wf _ _ _ _ Ht Hi Hw Hgr) as [Ht' Hgr']. split; simpl; [done| |by rewrite length_insert].
  etrans; [done|]. split; [done|simpl; lia].
Qed.
Lemma keeps_set_strands (f : Table → list CanonicalStrand) i : keeps (modify_table (λ t, set_strands (f t) t) i).
Proof. apply keeps_modify_table. intros t Ht. by apply (table_wf_same t). Qed.
Lemma keeps_enqueue strand i : keeps (enqueue strand i).
Proof. apply (keeps_set_strands (λ t, t.(strands) ++ [strand])). Qed.
Lemma keeps_take_strands i : keeps (take_table_strands i).
Proof.
  apply keeps_bind; [apply keeps_get_table|]. intros t. apply keeps_bind; [apply (keeps_set_strands (λ _, []))|].
  intros _. apply keeps_ret.
Qed.
Lemma keeps_answer_mode m i : keeps (modify_table (set_answer_mode m) i).
Proof. apply keeps_modify_table. intros t Ht. by apply (table_wf_same t). Qed.
Lemma keeps_mark_floundered i : keeps (modify_table mark_floundered i).
Proof. apply keeps_modify_table, mark_floundered_wf. Qed.
Lemma keeps_push_answer a i : keeps (push_table_answer a i).
Proof.
  intros s [Ht Hg Hk]. unfold push_table_answer, get_table, table_at, mbind, RS_bind.
  destruct (_ !! i) as [t|] eqn:Hi; [|done]. unfold rs_lift.
  assert (table_wf t) as Hw by (eapply Forall_lookup_1; [by apply wf_tables|done]).
  destruct (push_answer a t) as [[r t']| | |] eqn:Hp; try done.
  apply push_answer_wf in Hp as [Hw' Hgr]; [|done].
  unfold modify_table, update_table. rewrite Hi.
  destruct (update_table_wf _ _ _ _ Ht Hi Hw' Hgr) as [Ht' Hgr']. split; simpl; [done| |by rewrite length_insert].
  etrans; [done|]. split; [done|simpl; lia].
Qed.

Lemma keeps_forest_op {A} (op : Forest → Fallible (A * Forest)) :
  (∀ f a f', tables_wf f.(ftables) → op f = Val (a, f') → tables_wf f'.(ftables) ∧ forest_grows f f') →
  keeps (forest_op op).
Proof.
  intros Hop s [Ht Hg Hk]. unfold forest_op. destruct (op s.(forest)) as [[a f']| | |] eqn:Ho; simpl; try done.
  apply Hop in Ho as [Ht' Hg']; [|done]. split; simpl; [done|by etrans|].
  eapply stack_wf_mono; [|exact Hk]. destruct Hg' as [Hg' _]. by apply tables_grow_length.
Qed.

Lemma keeps_set_stack k : ∀ s, Inv s → stack_wf (length s.(forest).(ftables).(tables)) k → Inv (mkSolveState s.(forest) k).
Proof. intros s [] Hk. by split. Qed.

Lemma keeps_modify_top f : (∀ e, (f e).(table) = e.(table)) → keeps (modify_top f).
Proof.
  intros Hf s Hs. unfold modify_top, get_stack, update_top, mbind, RS_bind, rs_lift, set_stack.
  destruct (last s.(stack)) as [e|] eqn:Hl; [|done]. apply last_snoc_inv in Hl as (k & Hk & ->).
  apply keeps_set_stack; [done|]. apply (stack_wf_top _ k e); [|done]. rewrite <- Hk. apply Hs.
Qed.
Lemma keeps_set_active o : keeps (modify_top (set_active o)).
Proof. by apply keeps_modify_top. Qed.

Lemma keeps_pop_take : keeps (pop_with pop_and_take_caller_strand).
Proof.
  intros s Hs. unfold pop_with, get_stack, mbind, RS_bind, rs_lift, pop_and_take_caller_strand, set_stack.
  pose proof (stack_wf_removelast _ _ (inv_stack _ Hs)) as Hk.
  destruct (last (removelast s.(stack))) as [e|] eqn:Hl.
  - destruct e.(active_strand) as [strand|]; simpl; [|done].
    apply last_snoc_inv in Hl as (k & Heq & ->). apply keeps_set_stack; [done|].
    apply (stack_wf_top _ k e); [|done]. by rewrite <- Heq.
  - by apply keeps_set_stack.
Qed.
Lemma keeps_pop_borrow : keeps (pop_with pop_and_borrow_caller_strand).
Proof.
  intros s Hs. unfold pop_with, get_stack, mbind, RS_bind, rs_lift, pop_and_borrow_caller_strand, set_stack.
  pose proof (stack_wf_removelast _ _ (inv_stack _ Hs)) as Hk.
  destruct (last (removelast s.(stack))) as [e|]; simpl; [destruct (active_strand e); simpl; [|done]|].
  all: by apply keeps_set_stack.
Qed.

Lemma increment_grows E t t' : increment (E := E) t = Val t' → (t.(clock) < t'.(clock))%N.
Proof. unfold increment. destruct (_ <? _)%N; [intros [= <-]; simpl; lia|done]. Qed.

(** The table of the new entry is what the entry below waits for. *)
Lemma push_table_spec i :
  rtriple (λ s, Inv s ∧ in_range i s ∧ ∀ e, last s.(stack) = Some e → 
      ∃ strand sel, e.(active_strand) = Some strand ∧ strand.(cvalue).(selected_subgoal) = Some sel ∧
        sel.(subgoal_table) = i)
    (push_table i) (λ _, Inv) Inv.
Proof.
  intros s (Hs & Hi & Hlast). unfold push_table, increment_clock, get_stack, set_stack, mbind, RS_bind.
  destruct (increment _) as [c| | |] eqn:Hc; try done. apply increment_grows in Hc. destruct Hs as [Ht Hg Hk].
  split; simpl; [done| |].
  - etrans; [done|]. split; [done|simpl; lia].
  - by apply stack_wf_snoc.
Qed.

(** *** The steps of the search *)

Section Steps.
Context {E : Type} `{EnaOps E}.
Context (fuel : nat) (db : RustIrDatabase) (max_size : nat).
Context (clauses_for : UCanonicalDomainGoal → outcome Floundered ProgramClauses).

Ltac keep_step :=
  match goal with
  | |- ∀ _, _ => intros ?
  | |- rtriple _ (mret _) _ _ => apply keeps_ret
  | |- rtriple _ (rs_lift _) _ _ => apply keeps_lift
  | |- rtriple _ (rs_pure _) _ _ => apply keeps_pure
  | |- rtriple _ (mpanic _) _ _ => apply keeps_panic
  | |- rtriple _ rs_fuel _ _ => apply keeps_fuel
  | |- rtriple _ (rs_err _) _ _ => apply keeps_err
  | |- rtriple _ get_forest _ _ => apply keeps_get_forest
  | |- rtriple _ get_stack _ _ => apply keeps_get_stack
  | |- rtriple _ get_top _ _ => apply keeps_get_top
  | |- rtriple _ (get_table _) _ _ => apply keeps_get_table
  | |- rtriple _ (enqueue _ _) _ _ => apply keeps_enqueue
  | |- rtriple _ (take_table_strands _) _ _ => apply keeps_take_strands
  | |- rtriple _ (modify_table (set_answer_mode _) _) _ _ => apply keeps_answer_mode
  | |- rtriple _ (modify_table mark_floundered _) _ _ => apply keeps_mark_floundered
  | |- rtriple _ (push_table_answer _ _) _ _ => apply keeps_push_answer
  | |- rtriple _ (modify_top _) _ _ => apply keeps_modify_top; done
  | |- rtriple _ (pop_with pop_and_take_caller_strand) _ _ => apply keeps_pop_take
  | |- rtriple _ (pop_with pop_and_borrow_caller_strand) _ _ => apply keeps_pop_borrow
  | |- rtriple _ (_ ≫= _) _ _ => apply keeps_bind
  | |- rtriple _ (match ?x with _ => _ end) _ _ => destruct x
  | H : _ |- _ => apply H
  end.
Ltac keep := repeat (cbv beta; keep_step).

Lemma keeps_unwind_entries n : keeps (unwind_entries n).
Proof. induction n as [|n IH]; [apply keeps_fuel|]. cbn [unwind_entries]. keep. Qed.
Lemma keeps_unwind : keeps unwind_stack.
Proof. apply keeps_bind; [apply keeps_get_stack|]. intros k. apply keeps_unwind_entries. Qed.

Lemma keeps_clear n l : keeps (clear_strands_after_cycle n l).
Proof.
  revert l. induction n as [|n IH]; intros l; [apply keeps_fuel|]. cbn [clear_strands_after_cycle].
  induction l as [|strand l IHl]; keep.
Qed.

Lemma keeps_instantiate strand : keeps (instantiate_strand (E := E) strand).
Proof. unfold instantiate_strand. keep. Qed.

Lemma keeps_get_or_create infer literal :
  keeps (forest_op (get_or_create_table_for_subgoal (E := E) fuel db max_size clauses_for infer literal)).
Proof.
  apply keeps_forest_op. intros f r f' Hf (o & _ & Hr)%bind_Val.
  destruct o as [[goal um]|]; [|by injection Hr as <- <-].
  apply bind_Val in Hr as ([i f1] & Hc & [= <- <-]). by eapply get_or_create_wf in Hc as (? & ? & _).
Qed.

Lemma keeps_select n strand : keeps (select_subgoal (E := E) fuel db max_size clauses_for n strand).
Proof.
  revert strand. induction n as [|n IH]; intros strand; [apply keeps_fuel|]. cbn [select_subgoal].
  unfold select_next, propagate_floundered_subgoal. keep; try apply keeps_instantiate; apply keeps_get_or_create.
Qed.

Lemma keeps_forest_answer i j : keeps (forest_answer i j).
Proof. unfold forest_answer. keep. Qed.

Lemma keeps_merge infer strand : keeps (merge_answer_into_strand (E := E) fuel db infer strand).
Proof.
  unfold merge_answer_into_strand, merge_positive, merge_negative, enqueue_alternative.
  keep; first [apply keeps_forest_answer|apply keeps_unwind].
Qed.

Lemma keeps_coinductive strand : keeps (on_coinductive_subgoal strand).
Proof. unfold on_coinductive_subgoal. keep. Qed.
Lemma keeps_depend_on l m : keeps (depend_on l m).
Proof. unfold depend_on. keep. Qed.
Lemma keeps_selected_literal strand : keeps (selected_literal strand).
Proof. unfold selected_literal. keep. Qed.
Lemma keeps_positive_cycle strand m : keeps (on_positive_cycle strand m).
Proof. unfold on_positive_cycle. keep; first [apply keeps_selected_literal|apply keeps_depend_on]. Qed.
Lemma keeps_all_coinductive k : keeps (all_coinductive k).
Proof. induction k as [|e k IH]; cbn [all_coinductive]; keep. Qed.
Lemma keeps_pursue strand : keeps (pursue_answer (E := E) fuel max_size strand).
Proof. unfold pursue_answer. keep. Qed.
Lemma keeps_refinement i a : keeps (create_refinement_strand (E := E) fuel i a).
Proof. unfold create_refinement_strand. keep. Qed.
Lemma keeps_no_remaining strand : keeps (on_no_remaining_subgoals (E := E) fuel max_size strand).
Proof.
  unfold on_no_remaining_subgoals.
  keep; first [apply keeps_pursue|apply keeps_forest_answer|apply keeps_refinement|apply keeps_unwind].
Qed.
Lemma keeps_no_strands : keeps (on_no_strands_left fuel).
Proof.
  unfold on_no_strands_left, on_table_failed, on_table_in_cycle.
  keep; first [apply keeps_unwind|apply keeps_clear|apply keeps_selected_literal|apply keeps_depend_on].
Qed.
Lemma keeps_next_strand : keeps next_strand.
Proof.
  unfold next_strand. keep. apply keeps_modify_table. intros t Ht. unfold dequeue_next_strand_that.
  destruct (list_find _ _) as [[i s]|]; by apply (table_wf_same t).
Qed.

Lemma push_selected strand sel :
  strand.(cvalue).(selected_subgoal) = Some sel →
  rtriple (λ s, Inv s ∧ in_range sel.(subgoal_table) s)
    (_ ← modify_top (set_active (Some strand)); push_table sel.(subgoal_table)) (λ _, Inv) Inv.
Proof.
  intros Hsel. eapply rtriple_bind; [|intros a; apply push_table_spec].
  intros s [Hs Hi]. pose proof (keeps_set_active (Some strand) s Hs) as Hset.
  revert Hset. unfold modify_top, get_stack, update_top, mbind, RS_bind, rs_lift, set_stack.
  destruct (last s.(stack)) as [e|]; [|done]. intros Hset. split; [done|]. split; [done|].
  simpl. intros e'. rewrite last_snoc. intros [= <-]. by exists strand, sel.
Qed.

(** What leaves the state alone keeps any assertion. *)
Lemma frame_lift {A} (m : outcome RootSearchFail A) P :
  (∀ e, m ≠ Exn e) → rtriple P (rs_lift m) (λ _, P) Inv.
Proof. intros Hm. eapply rtriple_consequence; [by apply rtriple_lift|done|]. by intros ? ? []. Qed.

Lemma keeps_pursue_selected strand sel :
  strand.(cvalue).(selected_subgoal) = Some sel → keeps (pursue_selected (E := E) fuel db strand sel).
Proof.
  intros Hsel. unfold pursue_selected. eapply rtriple_bind; [apply get_table_spec|]. intros t. cbv beta.
  eapply rtriple_bind; [apply frame_lift; by destruct (negb _)|]. intros ?. cbv beta.
  destruct (answer_at _ _).
  { eapply (rtriple_consequence _ _ Inv _ (λ _, Inv)); [|by intros s [? ?]|done].
    keep; [apply keeps_instantiate|apply keeps_merge]. }
  eapply rtriple_bind; [apply frame_lift; by destruct (_ =? _)|]. intros ?. cbv beta.
  eapply rtriple_bind with (R := λ _ s, Inv s ∧ in_range sel.(subgoal_table) s); [by intros s ?|]. intros k. cbv beta.
  destruct (is_active _ _); [|by apply push_selected].
  eapply (rtriple_consequence _ _ Inv _ (λ _, Inv)); [|by intros s [? ?]|done].
  unfold top_of_stack_is_coinductive_from.
  keep; first [apply keeps_all_coinductive|apply keeps_coinductive|apply keeps_positive_cycle].
Qed.

Lemma keeps_subgoal_selected strand : keeps (on_subgoal_selected (E := E) fuel db strand).
Proof.
  unfold on_subgoal_selected. eapply rtriple_bind; [apply rtriple_lift; by destruct (selected_subgoal _)|].
  intros sel s [Hsel%unwrap_Val Hs]. by apply keeps_pursue_selected.
Qed.

Lemma keeps_search_step : keeps (search_step (E := E) fuel db max_size clauses_for).
Proof.
  unfold search_step. keep; first [apply keeps_next_strand|apply keeps_select|apply keeps_subgoal_selected|
    apply keeps_no_remaining|apply keeps_no_strands].
Qed.

Lemma keeps_search n : keeps (search (E := E) fuel db max_size clauses_for n).
Proof. induction n as [|n IH]; [apply keeps_fuel|]. cbn [search]. keep. apply keeps_search_step. Qed.

Lemma keeps_root_search n i j s :
  Inv s → s.(stack) = [] →
  match root_search (E := E) fuel db max_size clauses_for n i j s with
  | (Val _, s') | (Exn _, s') => Inv s' | _ => True end.
Proof.
  intros Hs Hk.
  assert (rtriple (λ s, Inv s ∧ s.(stack) = []) (root_search (E := E) fuel db max_size clauses_for n i j) (λ _, Inv) Inv)
    as Ht; [|specialize (Ht s (conj Hs Hk)); by destruct (root_search _ _ _ _ _ _ _ _) as [[]]].
  clear s Hs Hk. unfold root_search, ensure_root_answer.
  eapply rtriple_bind with (R := λ _, Inv); [|intros _; keep; apply keeps_forest_answer].
  eapply rtriple_bind with (R := λ _ s, Inv s ∧ in_range i s ∧ s.(stack) = []).
  { intros s [Hs Hk]. pose proof (get_table_spec i s Hs) as Hi. unfold get_table, table_at in *.
    destruct (_ !! i); [|done]. by destruct Hi. }
  intros t. cbv beta. destruct (floundered t); [apply rtriple_err; by intros s [? _]|].
  destruct (answer_at _ _); [by intros s [? _]|].
  eapply rtriple_bind; [apply frame_lift; by destruct (_ =? _)|]. intros ?. cbv beta.
  eapply rtriple_bind; [|intros ?; apply keeps_search].
  eapply rtriple_consequence; [apply (push_table_spec i)| |done].
  intros s (Hs & Hi & ->). done.
Qed.
End Steps.

(** ** Dropping the state *)

(** The active strand of an entry goes to the end of the queue of its table. *)
Definition requeue_entry (e : StackEntry) (l : list Table) : list Table :=
  match e.(active_strand) with Some strand => alter (enqueue_strand strand) e.(table) l | None => l end.

(** [s] with the active strands of [k] requeued, from the top down. *)
Definition requeue (k : Stack) (s : SolveState) : SolveState :=
  mkSolveState (mkForest (mkTables s.(forest).(ftables).(table_indices)
    (foldr requeue_entry s.(forest).(ftables).(tables) k)) s.(forest).(fclock)) [].

Lemma enqueue_Val strand i s :
  in_range i s → enqueue strand i s =
    (Val tt, mkSolveState (mkForest (mkTables s.(forest).(ftables).(table_indices)
       (alter (enqueue_strand strand) i s.(forest).(ftables).(tables))) s.(forest).(fclock)) s.(stack)).
Proof.
  intros [t Ht]%lookup_lt_is_Some. unfold enqueue, modify_table, update_table. rewrite Ht.
  by rewrite (alter_insert _ _ _ _ Ht).
Qed.
End Inv.

Lemma requeue_entry_length e l : length (requeue_entry e l) = length l.
Proof. unfold requeue_entry. destruct (active_strand e); [apply length_alter|done]. Qed.

(** The entries below the top, from the top down. *)
Lemma unwind_entries_requeues n k e s :
  stack_wf (length s.(forest).(ftables).(tables)) (k ++ [e]) → s.(stack) = k ++ [e] → length k < n →
  unwind_entries n s = (Val tt, requeue k s).
Proof.
  revert k e s. induction n as [|n IH]; intros k e s Hwf Hs Hn; [lia|]. cbn [unwind_entries].
  unfold pop_with, get_stack, mbind, RS_bind, rs_lift, pop_and_take_caller_strand, set_stack.
  rewrite Hs, removelast_last. destruct (last k) as [e0|] eqn:Hl.
  - apply last_snoc_inv in Hl as (k0 & -> & ->).
    destruct (stack_wf_caller _ _ _ _ Hwf) as (strand & sel & Ha & _). rewrite Ha. simpl.
    unfold get_top, top. simpl. rewrite last_snoc. simpl.
    apply stack_wf_app_l in Hwf as Hwf0.
    assert (e0.(table) < length s.(forest).(ftables).(tables)) as Hi.
    { destruct Hwf0 as [Hr _]. apply Forall_app in Hr as [_ Hr]. by rewrite Forall_singleton in Hr. }
    rewrite enqueue_Val by done. simpl. rewrite (IH k0 (set_active None e0)).
    + unfold requeue. simpl. rewrite foldr_app. simpl. unfold requeue_entry at 3. by rewrite Ha.
    + simpl. rewrite length_alter. by apply (stack_wf_top _ k0 e0).
    + done.
    + rewrite length_app in Hn. simpl in Hn. lia.
  - apply last_None in Hl as ->. simpl. unfold requeue. simpl. by destruct s as [[[] ?] ?].
Qed.

Lemma unwind_stack_requeues k e s :
  stack_wf (length s.(forest).(ftables).(tables)) (k ++ [e]) → s.(stack) = k ++ [e] →
  unwind_stack s = (Val tt, requeue k s).
Proof.
  intros Hwf Hs. unfold unwind_stack, get_stack, mbind, RS_bind. rewrite Hs.
  apply (unwind_entries_requeues _ _ e); [done|done|]. rewrite length_app. simpl. lia.
Qed.

Lemma drop_state_forest s :
  stack_wf (length s.(forest).(ftables).(tables)) s.(stack) →
  drop_state s = (Val tt, requeue s.(stack) s).
Proof.
  intros Hwf. unfold drop_state, get_stack, mbind, RS_bind. destruct (last s.(stack)) as [e|] eqn:Hl.
  - apply last_snoc_inv in Hl as (k & Hk & Hrem). rewrite Hk in Hwf |- *.
    assert (e.(table) < length s.(forest).(ftables).(tables)) as Hi.
    { destruct Hwf as [Hr _]. apply Forall_app in Hr as [_ Hr]. by rewrite Forall_singleton in Hr. }
    destruct (active_strand e) as [strand|] eqn:Ha.
    + unfold modify_top, get_stack, update_top, rs_lift, set_stack, mbind, RS_bind.
      rewrite Hk, last_snoc, removelast_last. simpl. rewrite enqueue_Val by done.
      rewrite (unwind_stack_requeues k (set_active None e)); simpl; [|rewrite length_alter; by apply (stack_wf_top _ k e)|done].
      unfold requeue. simpl. rewrite foldr_app. simpl. unfold requeue_entry at 3. by rewrite Ha.
    + simpl. rewrite (unwind_stack_requeues k e) by done. unfold requeue. rewrite foldr_app. simpl.
      unfold requeue_entry at 3. by rewrite Ha.
  - apply last_None in Hl. destruct s as [[[] ?] k]. simpl in *. by subst.
Qed.

(** ** Root searches *)

Definition forest_wf (f : Forest) : Prop := tables_wf f.(ftables).

Lemma tables_wf_grow_requeue k ts :
  tables_wf ts →
  tables_wf (mkTables ts.(table_indices) (foldr requeue_entry ts.(tables) k)) ∧
  tables_grow ts.(tables) (foldr requeue_entry ts.(tables) k).
Proof.
  intros Hts. induction k as [|e k [IHw IHg]]; simpl; [by destruct ts|].
  unfold requeue_entry at 1 3. destruct (active_strand e) as [strand|]; [|done].
  destruct (foldr requeue_entry ts.(tables) k !! e.(table)) as [t|] eqn:Ht.
  - destruct (table_wf_same t (enqueue_strand strand t)) as [Hw Hg]; try done.
    { eapply Forall_lookup_1; [apply (wf_tables _ IHw)|done]. }
    destruct (update_table_wf _ _ _ _ IHw Ht Hw Hg) as [Hw' Hg']. simpl in *.
    rewrite (alter_insert _ _ _ _ Ht). split; [done|by etrans].
  - by rewrite alter_None.
Qed.

Lemma root_answer_drops {E} `{EnaOps E} fuel db max_size clauses_for n table index f r f' :
  forest_wf f →
  root_answer (E := E) fuel db max_size clauses_for n table index f = (r, f') →
  (∀ p, r ≠ Panic p) → r ≠ OutOfFuel →
  ∃ s, root_search (E := E) fuel db max_size clauses_for n table index (mkSolveState f []) = (r, s) ∧
    Inv f s ∧ f' = (requeue s.(stack) s).(forest).
Proof.
  intros Hf Hr Hp Hfuel. unfold root_answer in Hr.
  assert (Inv f (mkSolveState f [])) as Hi by (split; [done|done|apply stack_wf_nil]).
  pose proof (keeps_root_search f fuel db max_size clauses_for n table index _ Hi eq_refl) as Hs.
  destruct (root_search _ _ _ _ _ _ _ _) as [r0 s]. exists s.
  assert (Inv f s → r0 = r ∧ f' = (requeue s.(stack) s).(forest)) as Hd.
  { intros Hinv. pose proof (drop_state_forest s (inv_stack _ _ Hinv)) as Hd. 
    destruct r0; rewrite ?Hd in Hr; injection Hr as <- <-; naive_solver. }
  destruct r0; [| |injection Hr as <- <-; naive_solver..]; by destruct (Hd Hs) as [-> ->].
Qed.

(** C9. A request for an answer whose search does not panic (and has enough fuel) gives the
    result of the search, a value or an error: dropping the state of the search succeeds.
    The forest that is left keeps its tables indexed by their
    goals and their answers distinct; tables and answers are only added unless a table
    flounders, and the clock never moves back. *)
Theorem root_answer_keeps_forest {E} `{EnaOps E} fuel db max_size clauses_for n table index f r s :
  forest_wf f →
  root_search (E := E) fuel db max_size clauses_for n table index (mkSolveState f []) = (r, s) →
  (∀ p, r ≠ Panic p) → r ≠ OutOfFuel →
  ∃ f', drop_state s = (Val tt, mkSolveState f' []) ∧
    root_answer (E := E) fuel db max_size clauses_for n table index f = (r, f') ∧
    forest_wf f' ∧ forest_grows f f'.
Proof.
  intros Hf Hs Hp Hfuel.
  assert (Inv f (mkSolveState f [])) as Hi by (split; [done|done|apply stack_wf_nil]).
  pose proof (keeps_root_search f fuel db max_size clauses_for n table index _ Hi eq_refl) as Hk. rewrite Hs in Hk.
  assert (Inv f s) as Hinv by (destruct r; naive_solver).
  pose proof (drop_state_forest s (inv_stack _ _ Hinv)) as Hd. destruct Hinv as [Ht Hg _].
  exists (requeue s.(stack) s).(forest). split; [exact Hd|]. split.
  - unfold root_answer. rewrite Hs, Hd. destruct r; naive_solver.
  - destruct (tables_wf_grow_requeue s.(stack) _ Ht) as [Hw Hg']. split; [done|].
    etrans; [exact Hg|]. split; [done|simpl; lia].
Qed.
