(* ===== verification/SlgThm.v ===== *)
(** * Properties of the SLG solver

    Answers are cached; the selection of a subgoal terminates; a negative subgoal
    whose table flounders makes the solver panic. *)

From stdpp Require Import base list numbers gmap.
From S2P Require Import Prelude Ir IrCountable Fold FoldLaws Ena Infer Zip Unify RustIr Solve Fulfill RecSolve RecSolveThm ExClause Resolvent Forest Logic LogicInv Aggregate SlgSolve.

Section Cache.
Context {E : Type} `{EnaOps E}.
Context (fuel : nat) (db : RustIrDatabase) (max_size : nat).
Context (clauses_for : UCanonicalDomainGoal → outcome Floundered ProgramClauses).

Lemma root_search_Val n i j s a s' :
  root_search (E := E) fuel db max_size clauses_for n i j s = (Val a, s') →
  s'.(stack) = [] ∧ ∃ t ans, s'.(forest).(ftables).(tables) !! i = Some t ∧ t.(answers) !! j = Some ans ∧
    ans.(answer_subst).(cvalue).(delayed_subgoals) = [] ∧ a = complete_answer ans.
Proof.
  unfold root_search, mbind, RS_bind. destruct (ensure_root_answer _ _ _ _ _ _ _ _) as [[[]| | |] s1]; try done.
  unfold get_stack, rs_lift. case_bool_decide as Hk; [|done]. simpl.
  unfold forest_answer, get_forest, rs_pure, rs_lift, mbind, RS_bind, answer, table_at.
  destruct (_ !! i) as [t|] eqn:Hi; [|done]. simpl. unfold answer_at.
  destruct (t.(answers) !! j) as [ans|] eqn:Hj; [|done]. simpl.
  destruct (delayed_subgoals _) eqn:Hd; [|done]. intros [= <- <-]. split; [done|]. by exists t, ans.
Qed.

(** C31. An answer that was given is cached: the same request gives it again and
    leaves the forest as it is, however little fuel is left for a search. *)
Theorem root_answer_cached n m i j f a f' :
  forest_wf f →
  root_answer (E := E) fuel db max_size clauses_for n i j f = (Val a, f') →
  root_answer (E := E) fuel db max_size clauses_for m i j f' = (Val a, f').
Proof.
  intros Hf Hr. edestruct (root_answer_drops (E := E)) as (s & Hs & Hinv & ->); [done|exact Hr|done..|].
  apply root_search_Val in Hs as (Hk & t & ans & Hi & Hj & Hd & ->).
  assert ((requeue s.(stack) s).(forest) = s.(forest)) as -> by (rewrite Hk; by destruct s as [[[] ?] ?]).
  destruct s as [f1 k]. simpl in *. subst k. destruct Hinv as [Ht Hg _]. simpl in *.
  assert (t.(floundered) = false) as Hfl.
  { destruct (floundered t) eqn:Hfl; [|done]. apply (wf_floundered t) in Hfl; [by rewrite Hfl in Hj|].
    eapply Forall_lookup_1; [by apply wf_tables|done]. }
  unfold root_answer, root_search, ensure_root_answer, get_table, table_at, mbind, RS_bind. simpl.
  rewrite Hi. simpl. rewrite Hfl. unfold answer_at. rewrite Hj. simpl.
  unfold forest_answer, get_forest, rs_pure, rs_lift, mbind, RS_bind, answer, table_at. simpl.
  rewrite Hi. simpl. unfold answer_at. rewrite Hj. simpl. by rewrite Hd.
Qed.
End Cache.

(** ** Strands are not lost *)

(** The active strands of the entries [k] of the table [i], from the top down. *)
Fixpoint pending (i : nat) (k : Stack) : list CanonicalStrand :=
  match k with
  | [] => []
  | e :: k => pending i k ++ (if decide (e.(table) = i) then option_list e.(active_strand) else [])
  end.

Lemma requeue_lookup k l i :
  foldr requeue_entry l k !! i = (λ t, set_strands (t.(strands) ++ pending i k) t) <$> l !! i.
Proof.
  induction k as [|e k IH]; simpl.
  - destruct (l !! i) as [[]|]; simpl; [|done]. unfold set_strands. simpl. by rewrite app_nil_r.
  - unfold requeue_entry at 1. destruct (active_strand e) as [strand|]; simpl.
    + destruct (decide (e.(table) = i)) as [<-|Hne].
      * rewrite list_lookup_alter_eq, IH. destruct (l !! _); simpl; [|done].
        unfold enqueue_strand, set_strands. simpl. by rewrite app_assoc.
      * by rewrite list_lookup_alter_ne, IH, app_nil_r.
    + rewrite IH. by destruct (decide _); rewrite app_nil_r.
Qed.

(** C32. When the state of a search is dropped, also after an error, every active
    strand goes back to the end of the queue of its table, from the top of the stack
    down, so that no strand is lost; the stack is empty then, and the index of the tables, the
    clock and everything else in the tables are what they were. *)
Theorem drop_state_loses_no_strand s :
  stack_wf (length s.(forest).(ftables).(tables)) s.(stack) →
  ∃ s', drop_state s = (Val tt, s') ∧ s'.(stack) = [] ∧
    s'.(forest).(fclock) = s.(forest).(fclock) ∧
    s'.(forest).(ftables).(table_indices) = s.(forest).(ftables).(table_indices) ∧
    ∀ i, s'.(forest).(ftables).(tables) !! i =
      (λ t, set_strands (t.(strands) ++ pending i s.(stack)) t) <$> s.(forest).(ftables).(tables) !! i.
Proof.
  intros Hk. rewrite drop_state_forest by done. eexists. do 4 (split; [done|]). intros i. apply requeue_lookup.
Qed.

(** ** The selection of a subgoal terminates *)

Definition may_reconsider (c : ExClause) (f : FlounderedSubgoal) : bool :=
  time_lt f.(floundered_time) c.(answer_time).
(** The floundered subgoals that will be tried again. *)
Definition reconsiderable (c : ExClause) : nat :=
  length (filter (λ f, may_reconsider c f) c.(floundered_subgoals)).
Definition selection_measure (strand : CanonicalStrand) : nat :=
  let c := strand.(cvalue).(ex_clause) in
  2 * length c.(subgoals) + 3 * reconsiderable c +
  match strand.(cvalue).(selected_subgoal) with Some _ => 0 | None => 1 end.

Lemma swap_remove_perm {A} (l : list A) i f : l !! i = Some f → l ≡ₚ f :: swap_remove l i.
Proof.
  intros Hi. unfold swap_remove. destruct (last l) as [x|] eqn:Hl.
  - apply last_snoc_inv in Hl as (l0 & -> & Hrem). rewrite Hrem, length_app. simpl.
    destruct (decide _) as [Heq|Hne].
    + rewrite lookup_app_r in Hi by lia. replace (i - length l0) with 0 in Hi by lia. injection Hi as <-.
      by rewrite Permutation_app_comm.
    + apply lookup_lt_Some in Hi as Hlt. rewrite length_app in Hlt. simpl in Hlt.
      rewrite lookup_app_l in Hi by lia. rewrite insert_take_drop by lia.
      rewrite <- (take_drop_middle l0 i f Hi) at 1. solve_Permutation.
  - apply last_None in Hl as ->. done.
Qed.

Lemma swap_remove_drop {A} (P : A → Prop) (l : list A) i :
  i < length l → Forall P (drop (S i) l) → Forall P (drop i (swap_remove l i)).
Proof.
  intros Hi HP. unfold swap_remove. destruct (last l) as [x|] eqn:Hl.
  - apply last_snoc_inv in Hl as (l0 & -> & Hrem). rewrite Hrem. rewrite length_app in *. simpl in *.
    destruct (decide _) as [Heq|Hne].
    + rewrite drop_ge by lia. constructor.
    + rewrite drop_app_le in HP by lia. apply Forall_app in HP as [HP Hx].
      rewrite insert_take_drop by lia. rewrite drop_app_ge by (rewrite length_take; lia).
      rewrite length_take. replace (i - _) with 0 by lia. rewrite drop_0. constructor; [|done].
      by rewrite Forall_singleton in Hx.
  - apply last_None in Hl as ->. simpl in Hi. lia.
Qed.

Lemma reconsider_from_spec i c :
  i ≤ length c.(floundered_subgoals) →
  Forall (λ f, may_reconsider c f = false) (drop i c.(floundered_subgoals)) →
  reconsiderable (reconsider_from i c) = 0 ∧
  length (reconsider_from i c).(subgoals) = length c.(subgoals) + reconsiderable c.
Proof.
  revert c. induction i as [|i IH]; intros c Hi HF; cbn [reconsider_from].
  - rewrite drop_0 in HF. assert (reconsiderable c = 0) as ->; [|lia]. unfold reconsiderable.
    revert HF. generalize c.(floundered_subgoals). intros l HF.
    induction HF as [|f l Hf _ IH]; [done|]. rewrite filter_cons_False; [done|]. rewrite Hf. by intros [].
  - destruct (lookup_lt_is_Some_2 c.(floundered_subgoals) i) as [f Hf]; [lia|]. rewrite Hf.
    destruct (time_lt _ _) eqn:Ht.
    + set (c1 := set_subgoals _ _).
      assert (reconsiderable c = S (reconsiderable c1)) as Hc.
      { unfold reconsiderable. rewrite (swap_remove_perm _ _ _ Hf).
        rewrite filter_cons_True by (unfold may_reconsider; by rewrite Ht). done. }
      destruct (IH c1) as [H1 H2].
      * pose proof (Permutation_length (swap_remove_perm _ _ _ Hf)). simpl in *. lia.
      * by apply swap_remove_drop.
      * split; [done|]. rewrite H2, Hc. simpl. rewrite length_app. simpl. lia.
    + apply IH; [lia|]. rewrite (drop_S _ _ _ Hf). by constructor.
Qed.

Lemma reconsider_spec c :
  reconsiderable (reconsider_floundered_subgoals c) = 0 ∧
  length (reconsider_floundered_subgoals c).(subgoals) = length c.(subgoals) + reconsiderable c.
Proof. apply reconsider_from_spec; [done|]. rewrite drop_ge by done. constructor. Qed.

(** A subgoal that flounders is not tried again at the same time. *)
Lemma flounder_measure E c i c' :
  flounder_subgoal (E := E) c i = Val c' →
  S (length c'.(subgoals)) = length c.(subgoals) ∧ reconsiderable c' = reconsiderable c.
Proof.
  unfold flounder_subgoal, vec_remove. destruct (_ !! i) as [l|] eqn:Hi; [|done]. intros [= <-]. simpl.
  apply lookup_lt_Some in Hi as Hlt. rewrite length_delete by eauto. split; [lia|].
  unfold reconsiderable. simpl. rewrite filter_app, length_app, filter_cons_False.
  - simpl. unfold may_reconsider. simpl. lia.
  - unfold may_reconsider, time_lt. simpl. rewrite N.ltb_irrefl. by intros [].
Qed.

Section Select.
Context {E : Type} `{EnaOps E}.
Context (fuel : nat) (db : RustIrDatabase) (max_size : nat).
Context (clauses_for : UCanonicalDomainGoal → outcome Floundered ProgramClauses).
Abbreviation select := (select_subgoal (E := E) fuel db max_size clauses_for).

Lemma select_next_measure strand s strand' s' :
  strand.(cvalue).(selected_subgoal) = None →
  select_next (E := E) fuel db max_size clauses_for strand s = (Val strand', s') →
  selection_measure strand' < selection_measure strand.
Proof.
  intros Hsel. unfold select_next, mbind, RS_bind, rs_lift.
  destruct (next_subgoal_index _) as [i| | |]; try done.
  destruct (instantiate_strand _ _) as [[[infer st]| | |] s1]; try done.
  destruct (match _ !! i with Some l => _ | None => _ end); try done.
  destruct (forest_op _ _) as [[[[j um]|]| | |] s2]; try done.
  - intros [= <- <-]. unfold selection_measure. simpl. rewrite Hsel. lia.
  - destruct (flounder_subgoal _ _) as [c| | |] eqn:Hc; try done. apply flounder_measure in Hc as [Hl Hr].
    intros [= <- <-]. unfold selection_measure. simpl. rewrite Hsel. lia.
Qed.

Lemma propagate_measure strand sel s dead strand' s' :
  strand.(cvalue).(selected_subgoal) = Some sel →
  propagate_floundered_subgoal strand s = (Val (dead, strand'), s') → dead = false →
  selection_measure strand' < selection_measure strand.
Proof.
  intros Hsel. unfold propagate_floundered_subgoal, mbind, RS_bind, rs_lift. rewrite Hsel. simpl.
  destruct (_ !! _) as [[|]|]; try done; [|by intros [= <- <- <-]].
  destruct (flounder_subgoal _ _) as [c| | |] eqn:Hc; try done. apply flounder_measure in Hc as [Hl Hr].
  intros [= <- <- <-] _. unfold selection_measure. simpl. rewrite Hsel. lia.
Qed.

(** One turn of the loop that goes on. *)
Inductive select_turn : CanonicalStrand * SolveState → CanonicalStrand * SolveState → Prop :=
  | turn_flounders strand sel t s s' strand' s'' :
      strand.(cvalue).(selected_subgoal) = Some sel → get_table sel.(subgoal_table) s = (Val t, s') →
      t.(floundered) = true → propagate_floundered_subgoal strand s' = (Val (false, strand'), s'') →
      select_turn (strand, s) (strand', s'')
  | turn_selects strand s strand' s' :
      strand.(cvalue).(selected_subgoal) = None →
      select_next (E := E) fuel db max_size clauses_for strand s = (Val strand', s') →
      select_turn (strand, s) (strand', s')
  | turn_reconsiders strand s :
      strand.(cvalue).(selected_subgoal) = None → strand.(cvalue).(ex_clause).(subgoals) = [] →
      (reconsider_floundered_subgoals strand.(cvalue).(ex_clause)).(subgoals) ≠ [] →
      select_turn (strand, s)
        (in_canonical (set_ex_clause (reconsider_floundered_subgoals strand.(cvalue).(ex_clause))) strand, s).

Lemma select_turn_measure x y : select_turn x y → selection_measure y.1 < selection_measure x.1.
Proof.
  destruct 1 as [strand sel t s s' strand' s'' Hsel _ _ Hp|strand s strand' s' Hsel Hn|strand s Hsel Hs Hs']; simpl.
  - by eapply propagate_measure.
  - by eapply select_next_measure.
  - destruct (reconsider_spec strand.(cvalue).(ex_clause)) as [H1 H2]. unfold selection_measure. simpl.
    rewrite Hsel, H1, H2, Hs. simpl. rewrite Hs in H2. simpl in H2.
    destruct (subgoals (reconsider_floundered_subgoals _)); [done|]. simpl in H2. lia.
Qed.

Lemma select_subgoal_fuel n m strand s :
  selection_measure strand < n → selection_measure strand < m → select n strand s = select m strand s.
Proof.
  revert m strand s. induction n as [|n IH]; intros [|m] strand s Hn Hm; try lia. cbn [select_subgoal].
  destruct (selected_subgoal _) as [sel|] eqn:Hsel.
  - unfold mbind, RS_bind at 1 3. destruct (get_table _ s) as [[t| | |] s1]; try done.
    destruct (floundered t); [|done]. unfold mbind, RS_bind.
    destruct (propagate_floundered_subgoal _ _) as [[[dead strand']| | |] s2] eqn:Hp; try done.
    destruct dead; [done|]. eapply propagate_measure in Hp; [|done..]. apply IH; lia.
  - destruct (subgoals strand.(cvalue).(ex_clause)) as [|l ls] eqn:Hs,
      (floundered_subgoals strand.(cvalue).(ex_clause)) as [|f fs] eqn:Hf; [done| | |].
    2-3: unfold mbind, RS_bind; destruct (select_next _ _ _ _ _ _) as [[strand'| | |] s1] eqn:Hn'; try done;
      eapply select_next_measure in Hn'; [|done]; apply IH; lia.
    destruct (reconsider_spec strand.(cvalue).(ex_clause)) as [H1 H2].
    destruct (subgoals (reconsider_floundered_subgoals _)) as [|l ls] eqn:Hs'; [done|].
    apply IH; unfold selection_measure in *; simpl in *; rewrite Hsel, Hs, Hs' in *; simpl in *; lia.
Qed.

Lemma select_subgoal_out_of_fuel n strand s :
  selection_measure strand < n → (select n strand s).1 = OutOfFuel →
  ∃ strand' s', rtc select_turn (strand, s) (strand', s') ∧
    (select_next (E := E) fuel db max_size clauses_for strand' s').1 = OutOfFuel.
Proof.
  revert strand s. induction n as [|n IH]; intros strand s Hn Hf; [lia|].
  assert (∀ y, select_turn (strand, s) y → (select n y.1 y.2).1 = OutOfFuel →
    ∃ strand' s', rtc select_turn (strand, s) (strand', s') ∧
      (select_next (E := E) fuel db max_size clauses_for strand' s').1 = OutOfFuel) as Hturn.
  { intros [strand1 s1] Ht Hf1. pose proof (select_turn_measure _ _ Ht) as Hm. simpl in Hm.
    destruct (IH strand1 s1) as (strand' & s' & Hr & Hs'); [lia|done|]. exists strand', s'. split; [by eapply rtc_l|done]. }
  clear IH. cbn [select_subgoal] in Hf. destruct (selected_subgoal _) as [sel|] eqn:Hsel.
  - unfold mbind, RS_bind at 1, get_table, table_at in Hf. destruct (_ !! _) as [t|] eqn:Ht; [|done].
    destruct (floundered t) eqn:Hfl; [|done]. unfold mbind, RS_bind in Hf.
    destruct (propagate_floundered_subgoal _ _) as [[[dead strand']| | |] s2] eqn:Hp; try done.
    + destruct dead; [done|]. eapply (Hturn (strand', s2)); [|exact Hf]. eapply turn_flounders; [done| |done|done].
      unfold get_table, table_at. by rewrite Ht.
    + exfalso. revert Hp. unfold propagate_floundered_subgoal, mbind, RS_bind, rs_lift. rewrite Hsel. simpl.
      unfold flounder_subgoal, vec_remove. by repeat case_match.
  - destruct (subgoals strand.(cvalue).(ex_clause)) as [|l ls] eqn:Hs,
      (floundered_subgoals strand.(cvalue).(ex_clause)) as [|f fs] eqn:Hfl; [done| | |].
    2-3: unfold mbind, RS_bind in Hf; destruct (select_next _ _ _ _ _ _) as [[strand'| | |] s1] eqn:Hn'; try done;
      [eapply (Hturn (strand', s1)); [by apply turn_selects|exact Hf]|exists strand, s; split; [done|by rewrite Hn']].
    destruct (subgoals (reconsider_floundered_subgoals _)) as [|l ls] eqn:Hs'.
    + unfold mbind, RS_bind, rs_lift, assert in Hf. by case_bool_decide.
    + eapply (Hturn (_, _)); [|exact Hf]. apply turn_reconsiders; [done|done|by rewrite Hs'].
Qed.

(** C33. The loop of [select_subgoal] terminates: a run takes no more turns than
    [selection_measure], twice the subgoals and three times the floundered subgoals that may be
    tried again, and one for the selection.  So a bound on the number of turns above the
    measure is never reached: the result does not depend on it, and the function
    only runs out of fuel when a turn of the run does, in the creation of the
    table of a subgoal. *)
Theorem select_subgoal_terminates strand s :
  (∀ k x, nsteps select_turn k (strand, s) x → k ≤ selection_measure strand) ∧
  (∀ n m, selection_measure strand < n → selection_measure strand < m → select n strand s = select m strand s) ∧
  (∀ n, selection_measure strand < n → (select n strand s).1 = OutOfFuel →
    ∃ strand' s', rtc select_turn (strand, s) (strand', s') ∧
      (select_next (E := E) fuel db max_size clauses_for strand' s').1 = OutOfFuel).
Proof.
  split; [|split; [intros n m; apply select_subgoal_fuel|intros n; apply select_subgoal_out_of_fuel]].
  intros k x Hk. change strand with (strand, s).1. revert Hk. generalize (strand, s). intros y Hk.
  induction Hk as [y|k y z x Hyz _ IH]; [lia|]. apply select_turn_measure in Hyz. lia.
Qed.
End Select.

(** ** Runs of the solver *)

Lemma forest_new_wf : forest_wf forest_new.
Proof.
  split; [constructor|]. intros g i. simpl. split; [|by intros (t & ? & _)].
  change ((∅ : gmap TableGoal nat) !! g = Some i → ∃ t, [] !! i = Some t ∧ t.(table_goal) = g).
  by rewrite lookup_empty.
Qed.

(** No clause comes from the declarations of the sample programs. *)
Definition no_clauses : UCanonicalDomainGoal → outcome Floundered ProgramClauses := λ _, Val [].
Definition sample_forest : Forest :=
  match get_or_create_table_for_ucanonical_goal (E := UnionFind.t) 20 (sample_db sample_clauses) no_clauses
          exists_goal forest_new with
  | Val (_, f) => f
  | _ => forest_new
  end.
Lemma sample_forest_wf : forest_wf sample_forest.
Proof.
  unfold sample_forest. destruct (get_or_create_table_for_ucanonical_goal _ _ _ _ _) as [[i f]| | |] eqn:Hf;
    [|apply forest_new_wf..].
  by eapply get_or_create_wf in Hf as [? _]; [|apply forest_new_wf].
Qed.

Definition sample_search :=
  root_answer (E := UnionFind.t) 20 (sample_db sample_clauses) 30 no_clauses 20 0 0 sample_forest.
Definition sample_complete_answer : CompleteAnswer :=
  mkCompleteAnswer (mkCanonical (mkConstrainedSubst [ArgTy ty_u32] []) []) false.

Lemma root_answer_cached_witness :
  root_answer (E := UnionFind.t) 20 (sample_db sample_clauses) 30 no_clauses 0 0 0 sample_search.2 =
    (Val sample_complete_answer, sample_search.2).
Proof.
  apply (root_answer_cached 20 (sample_db sample_clauses) 30 no_clauses 20 0 0 0 sample_forest);
    [apply sample_forest_wf|].
  assert (sample_search.1 = Val sample_complete_answer) as Ha by (vm_compute; reflexivity).
  change (sample_search = (Val sample_complete_answer, sample_search.2)). by rewrite <- Ha, <- surjective_pairing.
Defined.

Lemma root_answer_keeps_forest_witness :
  let run := root_search (E := UnionFind.t) 20 (sample_db sample_clauses) 30 no_clauses 20 0 0
    (mkSolveState sample_forest []) in
  run.1 = Val sample_complete_answer ∧
  ∃ f', drop_state run.2 = (Val tt, mkSolveState f' []) ∧
    root_answer (E := UnionFind.t) 20 (sample_db sample_clauses) 30 no_clauses 20 0 0 sample_forest =
      (Val sample_complete_answer, f') ∧ forest_wf f' ∧ forest_grows sample_forest f'.
Proof.
  intros run. assert (run.1 = Val sample_complete_answer) as Ha by (vm_compute; reflexivity). split; [exact Ha|].
  apply (root_answer_keeps_forest (E := UnionFind.t) 20 (sample_db sample_clauses) 30 no_clauses 20 0 0 sample_forest);
    [apply sample_forest_wf| |done..].
  fold run. by rewrite <- Ha, <- surjective_pairing.
Defined.

(** A strand with a subgoal and a floundered subgoal that may be tried again. *)
Definition sample_strand : CanonicalStrand :=
  let goal t := Positive (mkInEnvironment [] (GDomainGoal (implemented t))) in
  mkCanonical (mkStrand (mkExClause [] false [] [goal TyStr] [] (mkTimeStamp 1)
    [mkFlounderedSubgoal (goal ty_u32) time_zero]) None time_zero) [].
Lemma select_subgoal_terminates_witness :
  select_subgoal (E := UnionFind.t) 20 (sample_db []) 30 no_clauses 7 sample_strand (mkSolveState sample_forest []) =
  select_subgoal (E := UnionFind.t) 20 (sample_db []) 30 no_clauses 100 sample_strand (mkSolveState sample_forest []).
Proof.
  apply (select_subgoal_terminates 20 (sample_db []) 30 no_clauses sample_strand (mkSolveState sample_forest []));
    vm_compute; lia.
Defined.

(** Two strands on the stack of a search, one in each table. *)
Definition sample_table : Table := table_of_goal exists_goal false.
Definition sample_stack : Stack :=
  [mkStackEntry 0 time_zero Minimums_MAX
     (Some (in_canonical (set_selected (Some (mkSelectedSubgoal 0 1 0 UCanonicalize.universe_map_new))) sample_strand));
   mkStackEntry 1 time_zero Minimums_MAX (Some sample_strand)].
Lemma drop_state_loses_no_strand_witness : ∃ s',
  drop_state (mkSolveState (mkForest (mkTables ∅ [sample_table; sample_table]) time_zero) sample_stack) = (Val tt, s') ∧
  s'.(stack) = [] ∧ s'.(forest).(fclock) = time_zero ∧ s'.(forest).(ftables).(table_indices) = ∅ ∧
  ∀ i, s'.(forest).(ftables).(tables) !! i =
    (λ t, set_strands (t.(strands) ++ pending i sample_stack) t) <$> [sample_table; sample_table] !! i.
Proof.
  apply (drop_state_loses_no_strand
    (mkSolveState (mkForest (mkTables ∅ [sample_table; sample_table]) time_zero) sample_stack)).
  split; [repeat constructor|]. intros [|[|i]] e e' He He'; simplify_eq/=. by repeat econstructor.
Defined.

(** *** Negation and floundering *)

(** A trait whose implementations cannot be enumerated: its goals flounder while
    the type is not known. *)
Definition floundering_clauses : UCanonicalDomainGoal → outcome Floundered ProgramClauses := λ goal,
  match goal.(canonical).(cvalue).(env_goal) with
  | DgHolds (WcImplemented (mkTraitRef _ [ArgTy (TyBoundVar _)])) => Exn mkFloundered
  | _ => Val []
  end.
(** [forall<T> { not { T: Trait } }]. *)
Definition forall_not_goal : TableGoal :=
  mkUCanonical (mkCanonical (mkInEnvironment [] (GQuantified ForAll (mkBinders [VkTy General]
    (GNot (GDomainGoal (implemented (TyBoundVar (mkBoundVar 0 0)))))))) []) 1.

(** A negative subgoal whose table flounders makes the SLG solver panic: its
    strand should be discarded, but is taken for an answer although the subgoal is
    still there.  The recursive solver answers that the goal is ambiguous. *)
Theorem floundered_negation_panics :
  slg_solve (E := UnionFind.t) 20 (sample_db []) 30 None floundering_clauses forall_not_goal forest_new =
    Panic PAssert ∧
  query_answer (recursive_solve (E := UnionFind.t) 20 (sample_db []) id floundering_clauses 20 forall_not_goal
    empty_context) = Some (Some (Ambig Unknown)).
Proof. split; vm_compute; reflexivity. Qed.
