(* ===== verification/Builder.v ===== *)
(** * The clause builder ([chalk-solve/src/clauses/builder.rs]), the casts of
    [chalk-ir/src/cast.rs], [Generalize] ([clauses/generalize.rs]) and the goal builder
    ([chalk-solve/src/goal_builder.rs])

    A [ClauseBuilder] collects program clauses under the binders that are in
    scope.  The operations run in a state monad over the builder whose error is
    [Floundered]: after an error the clauses are dropped. *)

From stdpp Require Import base list numbers gmap.
From S2P Require Import Prelude Ir Fold FoldLaws Shift IrCountable RustIr RecSolve.

(** ** Casts *)

Class CastTo (T U : Type) := cast : T → U.
#[global] Hint Mode CastTo ! ! : typeclass_instances.

#[global] Instance CastTo_Goal_refl : CastTo Goal Goal := λ g, g.
#[global] Instance CastTo_DomainGoal_refl : CastTo DomainGoal DomainGoal := λ dg, dg.
#[global] Instance CastTo_TraitRef_WhereClause : CastTo TraitRef WhereClause := WcImplemented.
#[global] Instance CastTo_WhereClause_refl : CastTo WhereClause WhereClause := λ wc, wc.
#[global] Instance CastTo_WhereClause_DomainGoal {T} `{CastTo T WhereClause} : CastTo T DomainGoal :=
  λ t, DgHolds (cast t).
#[global] Instance CastTo_DomainGoal_Goal {T} `{CastTo T DomainGoal} : CastTo T Goal :=
  λ t, GDomainGoal (cast t).
#[global] Instance CastTo_WellFormed : CastTo WellFormed DomainGoal := DgWellFormed.
#[global] Instance CastTo_FromEnv : CastTo FromEnv DomainGoal := DgFromEnv.
#[global] Instance CastTo_Binders_Goal {T} `{CastTo T Goal} : CastTo (Binders T) Goal :=
  λ b, GQuantified ForAll (binders_map cast b).

(** [CastTo<ProgramClause> for T] and [for Binders<T>]. *)
Definition bare_implication (dg : DomainGoal) : ProgramClauseImplication := mkImplication dg [] [] High.
Definition cast_program_clause {E T} `{CastTo T DomainGoal} (t : T) : outcome E ProgramClause :=
  i ← unwrap_result (term_shifted_in (bare_implication (cast t)));
  Val (mkProgramClause (mkBinders [] i)).
#[global] Instance CastTo_Binders_ProgramClause {T} `{CastTo T DomainGoal} :
  CastTo (Binders T) ProgramClause :=
  λ b, mkProgramClause (binders_map (λ t, bare_implication (cast t)) b).

(** ** Where clauses as goals ([chalk-ir/src/lib.rs]) *)

Definition into_well_formed_goal (self : WhereClause) : DomainGoal :=
  match self with
  | WcImplemented trait_ref => cast (WfTrait trait_ref)
  | wc => cast wc
  end.
Definition into_from_env_goal (self : WhereClause) : DomainGoal :=
  match self with
  | WcImplemented trait_ref => cast (FeTrait trait_ref)
  | wc => cast wc
  end.
Definition qwc_into_well_formed_goal (self : QuantifiedWhereClause) : Binders DomainGoal :=
  binders_map into_well_formed_goal self.
Definition qwc_into_from_env_goal (self : QuantifiedWhereClause) : Binders DomainGoal :=
  binders_map into_from_env_goal self.
(** [DomainGoal::into_from_env_goal] and [into_from_env_clause]. *)
Definition dg_into_from_env_goal (self : DomainGoal) : DomainGoal :=
  match self with DgHolds wc => into_from_env_goal wc | goal => goal end.
Definition where_trait_id (self : WhereClause) : option TraitId :=
  match self with
  | WcImplemented trait_ref => Some trait_ref.(trait_id)
  | _ => None
  end.
Definition qwc_trait_id (self : QuantifiedWhereClause) : option TraitId := where_trait_id self.(value).

(** [Environment::has_compatible_clause]. *)
Fixpoint has_compatible_clause {E} (clauses : Environment) : outcome E bool :=
  match clauses with
  | [] => Val false
  | c :: clauses =>
      let implication := (clause_data c).(value) in
      match implication.(consequence) with
      | DgCompatible =>
          _ ← assert (bool_decide (implication.(conditions) = []));
          _ ← assert (bool_decide (implication.(constraints) = []));
          Val true
      | _ => has_compatible_clause clauses
      end
  end.

(** [binders.at(index).kind]. *)
Definition kind_at {E} (binders : list CanonicalVarKind) (index : nat) : outcome E VariableKind :=
  match binders !! index with Some k => Val k.(kind) | None => Panic PIndex end.

(** [Ty::is_general_var]. *)
Definition ty_is_general_var {E} (self : Ty) (binders : list CanonicalVarKind) : outcome E bool :=
  match self with
  | TyBoundVar bv =>
      if decide (bv.(debruijn) = INNERMOST) then
        k ← kind_at binders bv.(index);
        Val (bool_decide (k = VkTy General))
      else Val false
  | TyInferenceVar _ General => Val true
  | _ => Val false
  end.

(** [PhantomData]. *)
#[global] Instance Fold_unit : Fold unit := λ _ _ _ _ u _, mret u.

(** ** The builder *)

Record ClauseBuilder := mkClauseBuilder {
  clauses : list ProgramClause;
  cb_binders : list VariableKind;
  parameters : list GenericArg
}.
#[global] Instance ClauseBuilder_eq_dec : EqDecision ClauseBuilder. Proof. solve_decision. Defined.

Definition CB (A : Type) : Type := ClauseBuilder → outcome Floundered (A * ClauseBuilder).
#[global] Instance CB_ret : MRet CB := λ A a b, Val (a, b).
#[global] Instance CB_bind : MBind CB := λ A B f m b,
  match m b with
  | Val (a, b') => f a b'
  | Exn e => Exn e
  | Panic p => Panic p
  | OutOfFuel => OutOfFuel
  end.
#[global] Instance CB_panic : MPanic CB := λ A p b, Panic p.
Definition cb_lift {A} (m : outcome Floundered A) : CB A := λ b, a ← m; Val (a, b).
(** A [Fallible] computation whose result is unwrapped. *)
Definition cb_pure {A} (m : Fallible A) : CB A := cb_lift (unwrap_result m).
Definition cb_flounder {A} : CB A := λ b, Exn mkFloundered.
(** [result.unwrap()] of an operation that may flounder. *)
Definition cb_unwrap {A} (m : CB A) : CB A := λ b, unwrap_result (m b).
Definition cb_get : CB ClauseBuilder := λ b, Val (b, b).
Fixpoint cb_iter {A} (f : A → CB unit) (l : list A) : CB unit :=
  match l with
  | [] => mret tt
  | x :: l => _ ← f x; cb_iter f l
  end.

Definition builder_new : ClauseBuilder := mkClauseBuilder [] [] [].

Definition push_clause_with_priority {T C} `{CastTo T DomainGoal, CastTo C Goal} (consequence : T)
    (conditions : list C) (constraints : Constraints) (priority : ClausePriority) : CB unit := λ self,
  let clause := mkImplication (cast consequence) (cast <$> conditions) constraints priority in
  clause ← (if decide (self.(cb_binders) = []) then unwrap_result (term_shifted_in clause) else Val clause);
  let pushed := mkProgramClause (mkBinders self.(cb_binders) clause) in
  Val (tt, mkClauseBuilder (self.(clauses) ++ [pushed]) self.(cb_binders) self.(parameters)).

Definition push_clause {T C} `{CastTo T DomainGoal, CastTo C Goal} (consequence : T)
    (conditions : list C) : CB unit :=
  push_clause_with_priority consequence conditions [] High.

Definition push_fact_with_priority {T} `{CastTo T DomainGoal} (consequence : T)
    (constraints : Constraints) (priority : ClausePriority) : CB unit :=
  push_clause_with_priority consequence ([] : list Goal) constraints priority.

Definition push_fact {T} `{CastTo T DomainGoal} (consequence : T) : CB unit :=
  push_clause consequence ([] : list Goal).

Definition push_fact_with_constraints {T} `{CastTo T DomainGoal} (consequence : T)
    (constraints : Constraints) : CB unit :=
  push_fact_with_priority consequence constraints High.

(** [placeholders_in_scope] and [substitution_in_scope]. *)
Definition placeholders_in_scope : CB (list GenericArg) := λ self, Val (self.(parameters), self).
Definition substitution_in_scope : CB Substitution := placeholders_in_scope.

Definition push_binders {V R} `{Fold V} (bs : Binders V) (op : V → CB R) : CB R := λ self,
  let old_len := length self.(cb_binders) in
  let binders1 := self.(cb_binders) ++ bs.(binders) in
  let parameters1 := self.(parameters) ++
    imap (λ i pk, to_bound_variable pk (mkBoundVar INNERMOST (old_len + i))) bs.(binders) in
  _ ← (if old_len <=? length parameters1 then Val tt else Panic PIndex);
  value ← unwrap_result (substitute bs (drop old_len parameters1));
  '(res, self) ← op value (mkClauseBuilder self.(clauses) binders1 parameters1);
  Val (res, mkClauseBuilder self.(clauses) (take old_len self.(cb_binders))
              (take old_len self.(parameters))).

Definition push_bound_ty (op : Ty → CB unit) : CB unit :=
  push_binders (mkBinders [VkTy General] ()) (λ _,
    ps ← placeholders_in_scope;
    p ← cb_lift (unwrap (last ps));
    ty ← cb_pure (assert_ty_ref p);
    op ty).

Definition push_bound_lifetime (op : Lifetime → CB unit) : CB unit :=
  push_binders (mkBinders [VkLifetime] ()) (λ _,
    ps ← placeholders_in_scope;
    p ← cb_lift (unwrap (last ps));
    lifetime ← cb_pure (assert_lifetime_ref p);
    op lifetime).

(** ** [Generalize] *)

Record Generalize := mkGeneralize {
  gen_binders : list VariableKind;
  mapping : gmap BoundVar nat
}.

(** [mapping.entry(bound_var).or_insert_with(..)]: the index of the new variable. *)
Definition generalize_var (kind : VariableKind) (bound_var : BoundVar) : ST Generalize nat := λ self,
  match self.(mapping) !! bound_var with
  | Some i => Val (i, self)
  | None =>
      let i := length self.(gen_binders) in
      Val (i, mkGeneralize (self.(gen_binders) ++ [kind]) (<[bound_var := i]> self.(mapping)))
  end.

Definition Generalizer : Folder (ST Generalize) := {|
  fold_free_var_ty bound_var outer_binder :=
    new_index ← generalize_var (VkTy General) bound_var;
    mret (TyBoundVar (mkBoundVar outer_binder new_index));
  fold_free_var_lifetime bound_var outer_binder :=
    new_index ← generalize_var VkLifetime bound_var;
    mret (LtBoundVar (mkBoundVar outer_binder new_index));
  fold_free_var_const := default_fold_free_var_const false;
  fold_free_placeholder_ty := default_fold_free_placeholder_ty false;
  fold_free_placeholder_lifetime := default_fold_free_placeholder_lifetime false;
  fold_free_placeholder_const := default_fold_free_placeholder_const false;
  fold_inference_ty := default_fold_inference_ty false;
  fold_inference_lifetime := default_fold_inference_lifetime false;
  fold_inference_const := default_fold_inference_const false;
  override_fold_lifetime := default_fold_lifetime
|}.

Definition generalize_apply {T} `{Fold T} (value : T) : Fallible (Binders T) :=
  '(value, generalize) ← unwrap_result (fold_with Generalizer value INNERMOST (mkGeneralize [] ∅));
  Val (mkBinders generalize.(gen_binders) value).

(** [Generalize::apply] followed by [push_binders]. *)
Definition push_generalized {T R} `{Fold T} (value : T) (op : T → CB R) : CB R :=
  generalized ← cb_pure (generalize_apply value);
  push_binders generalized op.

(** * Goals of declarations ([chalk-solve/src/goal_builder.rs]) *)

(** [Goal::all]: no [All] around a single goal. *)
Definition goal_all (goals : list Goal) : Goal :=
  match goals with
  | [goal0] => goal0
  | _ => GAll goals
  end.

Definition gb_all {G} `{CastTo G Goal} (goals : list G) : Goal := goal_all (cast <$> goals).

Definition gb_implies {G} `{CastTo G Goal} (clauses : list ProgramClause) (goal : G) : Goal :=
  GImplies clauses (cast goal).

Definition gb_quantified {G B P} `{CastTo G Goal, Fold P} (quantifier_kind : QuantifierKind)
    (bs : Binders B) (passthru : P) (body : Substitution → B → P → Fallible G) : Fallible Goal :=
  let substitution := imap (λ i k, to_bound_variable k (mkBoundVar INNERMOST i)) bs.(binders) in
  passthru_shifted ← term_shifted_in passthru;
  bound_goal ← body substitution bs.(value) passthru_shifted;
  Val (GQuantified quantifier_kind (mkBinders bs.(binders) (cast bound_goal))).

Definition gb_forall {G B P} `{CastTo G Goal, Fold P} (bs : Binders B) (passthru : P)
    (body : Substitution → B → P → Fallible G) : Fallible Goal :=
  gb_quantified ForAll bs passthru body.
Definition gb_exists {G B P} `{CastTo G Goal, Fold P} (bs : Binders B) (passthru : P)
    (body : Substitution → B → P → Fallible G) : Fallible Goal :=
  gb_quantified Exists bs passthru body.

(** Identifiers contain no terms ([fold/boring_impls.rs]). *)
#[global] Instance Fold_id : Fold N := λ _ _ _ _ n _, mret n.
