(* ===== verification/SuperTraits.v ===== *)
(** * Super traits ([chalk-solve/src/clauses/super_traits.rs]) and the clauses of
    [dyn] types ([clauses/dyn_ty.rs]) *)

From stdpp Require Import base list numbers gmap.
From S2P Require Import Prelude Ir Fold FoldLaws Shift Zip RustIr RecSolve Builder.

(** [DynTy]. *)
Abbreviation DynTy := (Binders (list QuantifiedWhereClause) * Lifetime)%type.

(** The traits of the current path and the references found. *)
Abbreviation GoState := (gset TraitId * list (Binders TraitRef))%type.

Section SuperTraits.
Context (db : RustIrDatabase).

(** [Ty::bound_var]. *)
Definition bound_var (self : Ty) : option BoundVar :=
  match self with TyBoundVar bv => Some bv | _ => None end.

(** The [Self: Trait] bounds among the where clauses of a trait. *)
Definition self_bound (qwc : QuantifiedWhereClause) : Fallible (option (Binders TraitRef)) :=
  match qwc.(value) with
  | WcImplemented tr =>
      self_ty ← self_type_parameter tr.(substitution);
      Val (if decide (bound_var self_ty = Some (mkBoundVar ONE 0))
           then Some (mkBinders qwc.(binders) tr) else None)
  | WcAliasEq _ _ | WcLifetimeOutlives _ _ | WcTypeOutlives _ _ => Val None
  end.
Definition self_bounds (qwcs : list QuantifiedWhereClause) : Fallible (list (Binders TraitRef)) :=
  found ← mapM self_bound qwcs;
  Val (omap id found).

(** The loop of [go] over the bounds, with the recursive calls through [go]. *)
Fixpoint go_each (go : Binders TraitRef → gset TraitId → list (Binders TraitRef) → Fallible GoState)
    (bs : VariableKinds) (super_trait_refs : list (Binders TraitRef)) (st : GoState) : Fallible GoState :=
  match super_trait_refs with
  | [] => Val st
  | q_super_trait_ref :: super_trait_refs =>
      q ← fuse_binders (mkBinders bs q_super_trait_ref);
      st ← go q st.1 st.2;
      go_each go bs super_trait_refs st
  end.
Fixpoint super_traits_go (fuel : nat) (trait_ref : Binders TraitRef) (seen_traits : gset TraitId)
    (trait_refs : list (Binders TraitRef)) : Fallible GoState :=
  match fuel with
  | 0 => OutOfFuel
  | S fuel =>
      let trait_id := trait_ref.(value).(trait_id) in
      if decide (trait_id ∈ seen_traits) then Val (seen_traits, trait_refs)
      else
        let seen_traits := {[trait_id]} ∪ seen_traits in
        let trait_refs := trait_refs ++ [trait_ref] in
        let trait_datum := db.(trait_datum) trait_id in
        bounds ← self_bounds trait_datum.(trait_binders).(value).(trait_bound_where_clauses);
        super_trait_refs ← substitute (mkBinders trait_datum.(trait_binders).(binders) bounds)
                             trait_ref.(value).(substitution);
        '(seen_traits, trait_refs) ←
          go_each (super_traits_go fuel) trait_ref.(binders) super_trait_refs (seen_traits, trait_refs);
        Val (seen_traits ∖ {[trait_id]}, trait_refs)
  end.

Definition super_traits (fuel : nat) (trait_id : TraitId) : Fallible (Binders (list (Binders TraitRef))) :=
  let trait_datum := db.(trait_datum) trait_id in
  s ← term_shifted_in (identity_substitution trait_datum.(trait_binders));
  '(_, trait_refs) ← super_traits_go fuel (mkBinders [] (mkTraitRef trait_id s)) ∅ [];
  Val (mkBinders trait_datum.(trait_binders).(binders) trait_refs).

Context (fuel : nat).

Definition push_trait_super_clauses (trait_ref : TraitRef) : CB unit :=
  super_traits ← cb_pure (super_traits fuel trait_ref.(trait_id));
  super_trait_refs ← cb_pure (substitute super_traits trait_ref.(substitution));
  cb_iter (λ q_super_trait_ref,
    push_binders q_super_trait_ref (λ super_trait_ref,
      let trait_datum := db.(trait_datum) super_trait_ref.(trait_id) in
      wc ← cb_pure (substitute (trait_where_clauses trait_datum) super_trait_ref.(substitution));
      push_clause super_trait_ref wc)) super_trait_refs.

(** What [dyn] types and opaque types push for each of their bounds. *)
Definition push_bound_clauses (bound : WhereClause) : CB unit :=
  match bound with
  | WcImplemented trait_ref => push_trait_super_clauses trait_ref
  | WcAliasEq _ _ => push_fact bound
  | WcLifetimeOutlives _ _ | WcTypeOutlives _ _ => mret tt
  end.

Definition build_dyn_self_ty_clauses (self_ty : Ty) : CB unit :=
  match self_ty with
  | TyDyn bounds lifetime =>
      push_generalized ((bounds, lifetime) : DynTy) (λ dyn_ty,
        cb_iter (λ exists_qwc : QuantifiedWhereClause,
          qwc ← cb_pure (substitute (mkBinders dyn_ty.1.(binders) exists_qwc) [ArgTy self_ty]);
          push_binders qwc push_bound_clauses) dyn_ty.1.(value))
  | _ => mret tt
  end.
End SuperTraits.
