(* ===== verification/ProgramClauses.v ===== *)
(** * The clauses of declarations ([chalk-solve/src/clauses/program_clauses.rs])

    [to_program_clauses] pushes the logical rules that a declaration of the
    program gives.  No declaration reads the environment except a trait, which
    asks whether it contains [Compatible].  The program is the builder's [db]; [fuel]
    bounds the descent into super traits. *)

From stdpp Require Import base list numbers gmap.
From S2P Require Import Prelude Ir Fold FoldLaws Shift Zip RustIr RecSolve Builder SuperTraits.

(** The trait [ToProgramClauses]. *)
Class ToProgramClauses (T : Type) :=
  to_program_clauses : RustIrDatabase → nat → T → Environment → CB unit.
#[global] Hint Mode ToProgramClauses ! : typeclass_instances.

(** [TraitRef::from_env] and [Ty::from_env]. *)
Definition trait_from_env (trait_ref : TraitRef) : FromEnv := FeTrait trait_ref.
Definition ty_from_env (ty : Ty) : FromEnv := FeTy ty.

(** The goals that a clause takes as conditions. *)
Definition goals_of {C} `{CastTo C Goal} (l : list C) : list Goal := cast <$> l.

#[global] Instance impl_to_program_clauses : ToProgramClauses ImplDatum := λ db fuel self _environment,
  if impl_is_positive self then
    push_binders self.(impl_binders) (λ b,
      push_clause b.(impl_trait_ref) b.(impl_where_clauses))
  else mret tt.

#[global] Instance atv_to_program_clauses : ToProgramClauses AssociatedTyValue := λ db fuel self _environment,
  let impl_datum := db.(impl_datum) self.(atv_impl_id) in
  let associated_ty := db.(associated_ty_data) self.(atv_associated_ty_id) in
  push_binders self.(atv_value) (λ assoc_ty_value,
    all_parameters ← placeholders_in_scope;
    '(impl_params, p) ←
      cb_pure (impl_parameters_and_projection_from_associated_ty_value db all_parameters self);
    impl_where_clauses ← cb_pure (mapM (λ wc,
        substitute (mkBinders impl_datum.(impl_binders).(binders) wc) impl_params)
      impl_datum.(impl_binders).(value).(impl_where_clauses));
    assoc_ty_where_clauses ← cb_pure (mapM (λ wc,
        substitute (mkBinders associated_ty.(assoc_binders).(binders) wc) p.(proj_substitution))
      associated_ty.(assoc_binders).(value).(assoc_where_clauses));
    push_clause (DgNormalize (projection p) assoc_ty_value.(atv_ty))
      (impl_where_clauses ++ assoc_ty_where_clauses)).

#[global] Instance opaque_to_program_clauses : ToProgramClauses OpaqueTyDatum := λ db fuel self _environment,
  push_binders self.(opaque_bound) (λ opaque_ty_bound,
    substitution ← substitution_in_scope;
    let alias := AliasOpaque self.(opaque_ty_id) substitution in
    let alias_placeholder_ty := TyOpaqueType self.(opaque_ty_id) substitution in
    _ ← push_clause (DgHolds (WcAliasEq alias (db.(hidden_opaque_type) self.(opaque_ty_id)))) [DgReveal];
    _ ← push_fact (DgHolds (WcAliasEq alias alias_placeholder_ty));
    _ ← push_binders opaque_ty_bound.(opaque_where_clauses) (λ where_clauses,
          push_clause (WfTy alias_placeholder_ty) (qwc_into_well_formed_goal <$> where_clauses));
    let substitution := [ArgTy alias_placeholder_ty] in
    cb_iter (λ bound : Binders QuantifiedWhereClause,
      bound_with_placeholder_ty ← cb_pure (substitute bound substitution);
      push_binders bound_with_placeholder_ty (push_bound_clauses db fuel))
      (binders_into_iter opaque_ty_bound.(opaque_bounds))).

(** ** The helpers of data types and functions *)

Definition well_formed_program_clauses (ty : Ty) (where_clauses : list QuantifiedWhereClause) : CB unit :=
  push_clause (WfTy ty) (qwc_into_well_formed_goal <$> where_clauses).

Definition fully_visible_program_clauses (ty : Ty) (subst : Substitution) : CB unit :=
  push_clause (DgIsFullyVisible ty) (DgIsFullyVisible <$> type_parameters subst).

Definition implied_bounds_program_clauses (ty : Ty) (where_clauses : list QuantifiedWhereClause) : CB unit :=
  cb_iter (λ qwc,
    push_binders qwc (λ wc, push_clause (into_from_env_goal wc) [ty_from_env ty])) where_clauses.

#[global] Instance adt_to_program_clauses : ToProgramClauses AdtDatum := λ db fuel self _environment,
  let flags := self.(adt_flags) in
  push_binders (binders_map adt_where_clauses self.(adt_binders)) (λ where_clauses,
    substitution ← substitution_in_scope;
    let self_ty := TyAdt self.(adt_id) substitution in
    _ ← well_formed_program_clauses self_ty where_clauses;
    _ ← implied_bounds_program_clauses self_ty where_clauses;
    _ ← fully_visible_program_clauses self_ty substitution;
    _ ← (if negb flags.(adt_upstream) then push_fact (DgIsLocal self_ty)
         else if flags.(adt_fundamental) then
           _ ← cb_iter (λ type_param, push_clause (DgIsLocal self_ty) [DgIsLocal type_param])
                 (type_parameters substitution);
           push_clause (DgIsUpstream self_ty) (DgIsUpstream <$> type_parameters substitution)
         else push_fact (DgIsUpstream self_ty));
    if flags.(adt_fundamental) then
      _ ← cb_lift (assert (1 <=? length (type_parameters substitution)));
      cb_iter (λ type_param, push_clause (DgDownstreamType self_ty) [DgDownstreamType type_param])
        (type_parameters substitution)
    else mret tt).

#[global] Instance fn_def_to_program_clauses : ToProgramClauses FnDefDatum := λ db fuel self _environment,
  push_binders (binders_map fn_where_clauses self.(fn_binders)) (λ where_clauses,
    substitution ← substitution_in_scope;
    let ty := TyFnDef self.(fn_id) substitution in
    _ ← well_formed_program_clauses ty where_clauses;
    _ ← implied_bounds_program_clauses ty where_clauses;
    fully_visible_program_clauses ty substitution).

(** ** Traits *)

(** The conditions shared by the rules of the compatible modality: the types before
    the [i]-th are fully visible, the [i]-th is downstream. *)
Definition downstream_conditions (type_parameters : list Ty) (i : nat) (ty : Ty) : list Goal :=
  goals_of (DgIsFullyVisible <$> take i type_parameters) ++ [cast (DgDownstreamType ty); GCannotProve].

(** [for i in 0..type_parameters.len()]. *)
Definition for_each_parameter (f : nat → Ty → CB unit) (type_parameters : list Ty) : CB unit :=
  cb_iter (λ p : nat * Ty, f p.1 p.2) (imap pair type_parameters).

#[global] Instance trait_to_program_clauses : ToProgramClauses TraitDatum := λ db fuel self environment,
  let flags := self.(trait_flags) in
  push_binders (trait_where_clauses self) (λ where_clauses,
    substitution ← substitution_in_scope;
    let trait_ref := mkTraitRef self.(trait_datum_id) substitution in
    _ ← push_clause (WfTrait trait_ref)
          (goals_of (qwc_into_well_formed_goal <$> where_clauses) ++ [cast trait_ref]);
    let type_parameters := type_parameters substitution in
    compatible ← cb_lift (has_compatible_clause environment);
    _ ← (if compatible : bool then
           _ ← (if decide (self.(well_known) ≠ Some WkDrop) then
                  for_each_parameter (λ i ty,
                    push_clause trait_ref
                      (goals_of where_clauses ++ [cast DgCompatible]
                         ++ downstream_conditions type_parameters i ty)) type_parameters
                else mret tt);
           if negb flags.(trait_fundamental) then
             push_clause trait_ref
               (goals_of where_clauses ++ [cast DgCompatible]
                  ++ goals_of (DgIsUpstream <$> type_parameters) ++ [GCannotProve])
           else mret tt
         else mret tt);
    _ ← (if negb flags.(trait_upstream) then push_fact (DgLocalImplAllowed trait_ref)
         else for_each_parameter (λ i ty,
                push_clause (DgLocalImplAllowed trait_ref)
                  ((DgIsFullyVisible <$> take i type_parameters) ++ [DgIsLocal ty])) type_parameters);
    _ ← cb_iter (λ qwc,
          push_binders qwc (λ wc,
            push_clause (into_from_env_goal wc) [trait_from_env trait_ref])) where_clauses;
    push_clause trait_ref [trait_from_env trait_ref]).

(** ** Associated types *)

#[global] Instance assoc_to_program_clauses : ToProgramClauses AssociatedTyDatum := λ db fuel self _environment,
  push_binders self.(assoc_binders) (λ b,
    let where_clauses := b.(assoc_where_clauses) in
    substitution ← substitution_in_scope;
    let p := mkProjectionTy self.(assoc_id) substitution in
    let projection_ty := TyAlias (projection p) in
    trait_ref ← cb_lift (trait_ref_from_projection db p);
    let ty := TyAssociatedType self.(assoc_id) substitution in
    _ ← push_fact_with_priority (WcAliasEq (projection p) ty) [] Low;
    _ ← push_clause (WfTy ty)
          (cast (WfTrait trait_ref) :: goals_of (qwc_into_well_formed_goal <$> where_clauses));
    _ ← push_clause (FeTrait trait_ref) [ty_from_env ty];
    _ ← cb_iter (λ qwc,
          push_binders qwc (λ wc, push_clause (into_from_env_goal wc) [FeTy ty])) where_clauses;
    _ ← cb_iter (λ quantified_bound : QuantifiedInlineBound,
          push_binders quantified_bound (λ bound,
            cb_iter (λ wc,
              push_clause (into_from_env_goal wc) (cast (FeTrait trait_ref) :: goals_of where_clauses))
              (inline_bound_into_where_clauses bound projection_ty))) b.(assoc_bounds);
    push_bound_ty (λ ty,
      push_clause (WcAliasEq (projection p) ty) [DgNormalize (projection p) ty])).
