(* ===== verification/BuiltinTraits.v ===== *)
(** * Built-in impls of the well-known traits ([chalk-solve/src/clauses/builtin_traits.rs]
    and the files of [builtin_traits/] except [unsize.rs])

    [ty] is the kind of the self type after [Generalize]; [binders] are the
    variables of the canonical goal before it. *)

From stdpp Require Import base list numbers gmap.
From S2P Require Import Prelude Ir Fold FoldLaws Shift Zip RustIr RecSolve Builder.

Section Builtin.
Context (db : RustIrDatabase).

(** [needs_impl_for_tys]; [debug_assert_eq!] is checked, as in a debug build. *)
Definition needs_impl_for_tys (trait_ref : TraitRef) (tys : list Ty) : CB unit :=
  let trait_id := trait_ref.(trait_id) in
  _ ← cb_lift (assert (length (db.(trait_datum) trait_id).(trait_binders).(binders) =? 1));
  push_clause trait_ref ((λ ty, mkTraitRef trait_id [ArgTy ty]) <$> tys).

(** What [Sized] and [Copy] do for a type variable: integer and float variables
    implement the trait. *)
Definition push_for_variable (trait_ref : TraitRef) (var_kind : VariableKind) : CB unit :=
  match var_kind with
  | VkTy Integer | VkTy Float => push_fact trait_ref
  | VkTy General => cb_flounder
  | VkConst _ | VkLifetime => mret tt
  end.

(** ** [builtin_traits/sized.rs] *)

Definition push_adt_sized_conditions (trait_ref : TraitRef) (adt_id : AdtId) (substitution : Substitution) :
    CB unit :=
  let adt_datum := db.(adt_datum) adt_id in
  if decide (adt_datum.(adt_kind) ≠ Struct) then push_fact trait_ref
  else
    vs ← cb_pure (substitute (binders_map variants adt_datum.(adt_binders)) substitution);
    let last_field_ty := omap (λ v, last v.(fields)) (take 1 vs) in
    needs_impl_for_tys trait_ref last_field_ty.

(** [param.assert_ty_ref()]. *)
Definition cb_assert_ty (p : GenericArg) : CB Ty := cb_pure (assert_ty_ref p).

Definition push_tuple_sized_conditions (trait_ref : TraitRef) (arity : nat) (substitution : Substitution) :
    CB unit :=
  if arity =? 0 then push_fact trait_ref
  else
    last_elem ← cb_lift (unwrap (last substitution));
    last_elem_ty ← cb_assert_ty last_elem;
    needs_impl_for_tys trait_ref [last_elem_ty].

Definition add_sized_program_clauses (trait_ref : TraitRef) (ty : Ty) (binders : list CanonicalVarKind) :
    CB unit :=
  match ty with
  | TyAdt adt_id substitution => push_adt_sized_conditions trait_ref adt_id substitution
  | TyTuple arity substitution => push_tuple_sized_conditions trait_ref arity substitution
  | TyArray _ _ | TyNever | TyClosure _ _ | TyFnDef _ _ | TyScalar _ | TyRaw _ _
  | TyGenerator _ _ | TyGeneratorWitness _ _ | TyRef _ _ _ => push_fact trait_ref
  | TyAssociatedType _ _ | TySlice _ | TyOpaqueType _ _ | TyStr | TyForeign _ | TyError => mret tt
  | TyFunction _ _ _ | TyInferenceVar _ Float | TyInferenceVar _ Integer => push_fact trait_ref
  | TyBoundVar bound_var =>
      var_kind ← cb_lift (kind_at binders bound_var.(index));
      push_for_variable trait_ref var_kind
  | TyInferenceVar _ General => cb_flounder
  | TyPlaceholder _ | TyDyn _ _ | TyAlias _ => mret tt
  end.

(** ** [builtin_traits/copy.rs], [clone.rs] *)

Definition push_tuple_copy_conditions (trait_ref : TraitRef) (arity : nat) (substitution : Substitution) :
    CB unit :=
  if arity =? 0 then push_fact trait_ref
  else
    tys ← mapM cb_assert_ty substitution;
    needs_impl_for_tys trait_ref tys.

Definition add_copy_program_clauses (trait_ref : TraitRef) (ty : Ty) (binders : list CanonicalVarKind) :
    CB unit :=
  match ty with
  | TyTuple arity substitution => push_tuple_copy_conditions trait_ref arity substitution
  | TyArray ty _ => needs_impl_for_tys trait_ref [ty]
  | TyFnDef _ _ => push_fact trait_ref
  | TyClosure closure_id substitution =>
      let closure_fn_substitution := db.(closure_fn_substitution) closure_id substitution in
      let upvars := db.(closure_upvars) closure_id substitution in
      upvars ← cb_pure (substitute upvars closure_fn_substitution);
      needs_impl_for_tys trait_ref [upvars]
  | TyRef _ _ _ | TyRaw _ _ | TyScalar _ | TyNever | TyStr => mret tt
  | TyAdt _ _ | TyAssociatedType _ _ | TySlice _ | TyOpaqueType _ _ | TyForeign _ | TyGenerator _ _
  | TyGeneratorWitness _ _ | TyError => mret tt
  | TyFunction _ _ _ => push_fact trait_ref
  | TyInferenceVar _ Float | TyInferenceVar _ Integer => push_fact trait_ref
  | TyBoundVar bound_var =>
      var_kind ← cb_lift (kind_at binders bound_var.(index));
      push_for_variable trait_ref var_kind
  | TyInferenceVar _ General => cb_flounder
  | TyAlias _ | TyDyn _ _ | TyPlaceholder _ => mret tt
  end.

Definition add_clone_program_clauses (trait_ref : TraitRef) (ty : Ty) (binders : list CanonicalVarKind) :
    CB unit :=
  add_copy_program_clauses trait_ref ty binders.

(** ** [builtin_traits/fn_family.rs] *)

(** [vec[index]]. *)
Definition cb_index {A} (l : list A) (i : nat) : CB A :=
  cb_lift match l !! i with Some x => Val x | None => Panic PIndex end.

Definition fn_push_clauses (well_known : WellKnownTrait) (trait_id : TraitId) (self_ty : Ty)
    (arg_sub : Substitution) (return_type : Ty) : CB unit :=
  let tupled := TyTuple (length arg_sub) arg_sub in
  let substitution := [ArgTy self_ty; ArgTy tupled] in
  _ ← push_fact (mkTraitRef trait_id substitution);
  match well_known with
  | WkFnOnce =>
      let trait_datum := db.(trait_datum) trait_id in
      _ ← cb_lift (assert (length trait_datum.(associated_ty_ids) =? 1));
      output_id ← cb_index trait_datum.(associated_ty_ids) 0;
      push_fact (DgNormalize (AliasProjection output_id substitution) return_type)
  | _ => mret tt
  end.

Definition push_clauses_for_apply (well_known : WellKnownTrait) (trait_id : TraitId) (self_ty : Ty)
    (inputs_and_output : Binders FnDefInputsAndOutputDatum) : CB unit :=
  push_binders inputs_and_output (λ inputs_and_output,
    fn_push_clauses well_known trait_id self_ty
      (ArgTy <$> inputs_and_output.(argument_types)) inputs_and_output.(return_type)).

Definition closure_trait_matches (well_known : WellKnownTrait) (closure_kind : ClosureKind) : bool :=
  match well_known, closure_kind with
  | WkFn, CkFn => true
  | WkFnMut, CkFnMut | WkFnMut, CkFn => true
  | WkFnOnce, _ => true
  | _, _ => false
  end.

Definition is_safe_fixed (sig : FnSig) : bool :=
  match sig.(safety) with Safe => negb sig.(variadic) | Unsafe => false end.

Definition add_fn_trait_program_clauses (well_known : WellKnownTrait) (self_ty : Ty) : CB unit :=
  trait_id ← cb_lift (unwrap (db.(well_known_trait_id) well_known));
  match self_ty with
  | TyFnDef fn_def_id substitution =>
      let fn_def_datum := db.(fn_def_datum) fn_def_id in
      if is_safe_fixed fn_def_datum.(fn_sig) then
        bound ← cb_pure (substitute fn_def_datum.(fn_binders) substitution);
        push_clauses_for_apply well_known trait_id self_ty bound.(inputs_and_output)
      else mret tt
  | TyClosure closure_id substitution =>
      let closure_kind := db.(closure_kind) closure_id substitution in
      if closure_trait_matches well_known closure_kind then
        push_clauses_for_apply well_known trait_id self_ty
          (db.(closure_inputs_and_output) closure_id substitution)
      else mret tt
  | TyFunction num_binders sig s =>
      if is_safe_fixed sig then
        push_binders (fn_into_binders num_binders s) (λ orig_sub,
          mid ← cb_lift (usize_sub (length orig_sub) 1);
          '(arg_sub, fn_output_ty) ← cb_lift (split_at orig_sub mid);
          output ← cb_index fn_output_ty 0;
          output_ty ← cb_assert_ty output;
          fn_push_clauses well_known trait_id self_ty arg_sub output_ty)
      else mret tt
  | _ => mret tt
  end.

(** ** [builtin_traits/generator.rs] *)

Definition add_generator_program_clauses (self_ty : Ty) : CB unit :=
  match self_ty with
  | TyGenerator id substitution =>
      let generator_datum := db.(generator_datum) id in
      io ← cb_pure (substitute generator_datum.(input_output) substitution);
      trait_id ← cb_lift (unwrap (db.(well_known_trait_id) WkGenerator));
      let trait_datum := db.(trait_datum) trait_id in
      _ ← cb_lift (assert (length trait_datum.(associated_ty_ids) =? 2));
      let substitution := [ArgTy self_ty; ArgTy io.(resume_type)] in
      _ ← push_fact (mkTraitRef trait_id substitution);
      yield_id ← cb_index trait_datum.(associated_ty_ids) 0;
      _ ← push_fact (DgNormalize (AliasProjection yield_id substitution) io.(yield_type));
      return_id ← cb_index trait_datum.(associated_ty_ids) 1;
      push_fact (DgNormalize (AliasProjection return_id substitution) io.(gen_return_type))
  | TyInferenceVar _ _ | TyBoundVar _ | TyAlias _ => cb_flounder
  | _ => mret tt
  end.

(** ** [builtin_traits/discriminant_kind.rs] *)

Definition can_determine_discriminant (ty : Ty) : bool :=
  match ty with
  | TyAdt _ _ | TyArray _ _ | TyTuple _ _ | TySlice _ | TyRaw _ _ | TyRef _ _ _ | TyScalar _
  | TyStr | TyNever | TyFnDef _ _ | TyGenerator _ _ | TyClosure _ _ | TyGeneratorWitness _ _
  | TyForeign _ | TyDyn _ _ | TyFunction _ _ _ | TyInferenceVar _ Integer
  | TyInferenceVar _ Float => true
  | TyOpaqueType _ _ | TyAlias _ | TyBoundVar _ | TyPlaceholder _ | TyAssociatedType _ _
  | TyError | TyInferenceVar _ _ => false
  end.

Definition add_discriminant_clauses (self_ty : Ty) : CB unit :=
  if negb (can_determine_discriminant self_ty) then cb_flounder
  else
    let disc_ty := db.(discriminant_type) self_ty in
    trait_id ← cb_lift (unwrap (db.(well_known_trait_id) WkDiscriminantKind));
    let trait_datum := db.(trait_datum) trait_id in
    associated_ty_id ← cb_index trait_datum.(associated_ty_ids) 0;
    let substitution := [ArgTy self_ty] in
    _ ← push_fact (mkTraitRef trait_id substitution);
    push_fact (DgNormalize (AliasProjection associated_ty_id substitution) disc_ty).
End Builtin.
