(* ===== verification/Unsize.v ===== *)
(** * Built-in impls of [Unsize] ([chalk-solve/src/clauses/builtin_traits/unsize.rs]) *)

From stdpp Require Import base list numbers gmap.
From S2P Require Import Prelude Ir Fold FoldLaws Shift Visit Zip RustIr RecSolve Builder BuiltinTraits.

(** ** The parameters of the outermost binder that a value uses *)

(** The bound variable refers to the outermost binder of the visited value. *)
Definition at_outermost (bound_var : BoundVar) (outer_binder : DebruijnIndex) : bool :=
  bool_decide (debruijn_shifted_in bound_var.(debruijn) = outer_binder).

Definition collect_parameter (bound_var : BoundVar) (outer_binder : DebruijnIndex) : ST (gset nat) unit :=
  λ params, Val (tt, if at_outermost bound_var outer_binder then {[bound_var.(index)]} ∪ params else params).

Definition UnsizeParameterCollector : Visitor (ST (gset nat)) := {|
  visit_free_var := default_visit_free_var false;
  visit_free_placeholder := default_visit_free_placeholder false;
  visit_inference_var := default_visit_inference_var false;
  override_visit_ty ty outer_binder super_visit :=
    match ty with
    | TyBoundVar bound_var => collect_parameter bound_var outer_binder
    | _ => super_visit
    end;
  override_visit_const constant outer_binder _ :=
    match const_value constant with
    | CvBoundVar bound_var => collect_parameter bound_var outer_binder
    | _ => mret tt
    end;
  override_visit_where := default_visit_where;
  override_visit_domain_goal := default_visit_domain_goal
|}.

Definition outer_binder_parameters_used {T} `{Visit T} (v : Binders T) : Fallible (gset nat) :=
  '(_, params) ← visit_with UnsizeParameterCollector v INNERMOST ∅;
  Val params.

(** [ParameterOccurenceCheck]: a [Break] is the error [tt]. *)
Definition check_parameter (params : gset nat) (bound_var : BoundVar) (outer_binder : DebruijnIndex) :
    outcome unit unit :=
  if at_outermost bound_var outer_binder && bool_decide (bound_var.(index) ∈ params) then Exn tt else Val tt.

Definition ParameterOccurenceCheck (params : gset nat) : Visitor (outcome unit) := {|
  visit_free_var := default_visit_free_var false;
  visit_free_placeholder := default_visit_free_placeholder false;
  visit_inference_var := default_visit_inference_var false;
  override_visit_ty ty outer_binder super_visit :=
    match ty with
    | TyBoundVar bound_var => check_parameter params bound_var outer_binder
    | _ => super_visit
    end;
  override_visit_const constant outer_binder _ :=
    match const_value constant with
    | CvBoundVar bound_var => check_parameter params bound_var outer_binder
    | _ => Val tt
    end;
  override_visit_where := default_visit_where;
  override_visit_domain_goal := default_visit_domain_goal
|}.

Definition uses_outer_binder_params {T} `{Visit T} (v : Binders T) (params : gset nat) : bool :=
  match visit_with (ParameterOccurenceCheck params) v INNERMOST with Exn _ => true | _ => false end.

(** ** The clauses *)

Section Unsize.
Context (db : RustIrDatabase).

Definition bound_trait_ids (bounds : Binders (list QuantifiedWhereClause)) : list TraitId :=
  omap qwc_trait_id bounds.(value).

Definition principal_id (bounds : Binders (list QuantifiedWhereClause)) : option TraitId :=
  head (filter (λ id, is_auto_trait (db.(trait_datum) id) = false) (bound_trait_ids bounds)).

Definition auto_trait_ids (bounds : Binders (list QuantifiedWhereClause)) : list TraitId :=
  filter (λ id, is_auto_trait (db.(trait_datum) id) = true) (bound_trait_ids bounds).

(** The bounds of the source that the upcast keeps: all but the auto traits that the
    target lacks. *)
Definition keep_bound (auto_a auto_b : list TraitId) (bound : QuantifiedWhereClause) : bool :=
  match qwc_trait_id bound with
  | None => true
  | Some trait_id => bool_decide (trait_id ∉ auto_a) || bool_decide (trait_id ∈ auto_b)
  end.

Definition unsize_dyn_dyn (trait_ref : TraitRef) (target_ty : Ty)
    (bounds_a bounds_b : Binders (list QuantifiedWhereClause)) (lifetime_a lifetime_b : Lifetime) : CB unit :=
  let principal_a := principal_id bounds_a in
  let principal_b := principal_id bounds_b in
  let auto_trait_ids_a := auto_trait_ids bounds_a in
  let auto_trait_ids_b := auto_trait_ids bounds_b in
  let may_apply := bool_decide (principal_a = principal_b)
    && forallb (λ id_b, existsb (λ id_a, bool_decide (id_a = id_b)) auto_trait_ids_a) auto_trait_ids_b in
  if negb may_apply then mret tt
  else
    let new_source_ty :=
      TyDyn (binders_map (filter (λ b, keep_bound auto_trait_ids_a auto_trait_ids_b b = true)) bounds_a)
        lifetime_b in
    push_clause trait_ref
      [GEqGoal (ArgTy new_source_ty) (ArgTy target_ty); cast (WcLifetimeOutlives lifetime_a lifetime_b)].

Definition unsize_to_dyn (trait_ref : TraitRef) (source_ty : Ty)
    (bounds : Binders (list QuantifiedWhereClause)) (lifetime : Lifetime) : CB unit :=
  let object_safe_goals := (cast <$> (DgObjectSafe <$> bound_trait_ids bounds) : list Goal) in
  source_ty_bounds ← cb_pure (substitute bounds [ArgTy source_ty]);
  sized_id ← cb_lift (unwrap (db.(well_known_trait_id) WkSized));
  push_clause trait_ref
    ((cast <$> source_ty_bounds) ++ object_safe_goals
       ++ [cast (mkTraitRef sized_id [ArgTy source_ty]); cast (WcTypeOutlives source_ty lifetime)]).

(** [parameters_b[i]] for the parameters that are unsized, [p] for the others. *)
Definition unsized_parameters (candidates : gset nat) (parameters_a parameters_b : Substitution) :
    CB Substitution :=
  mapM (λ ip : nat * GenericArg,
    if decide (ip.1 ∈ candidates) then cb_index parameters_b ip.1 else mret ip.2)
    (imap pair parameters_a).

Definition unsize_adt (trait_ref : TraitRef) (target_ty : Ty) (adt_id : AdtId)
    (substitution_a substitution_b : Substitution) : CB unit :=
  let adt_datum := db.(adt_datum) adt_id in
  if decide (adt_datum.(adt_kind) = Enum) then mret tt
  else
    variant ← cb_lift (unwrap (last adt_datum.(adt_binders).(value).(variants)));
    let fields_len := length variant.(fields) in
    if fields_len =? 0 then mret tt
    else
      tail ← cb_lift (unwrap (last variant.(fields)));
      let adt_tail_field := mkBinders adt_datum.(adt_binders).(binders) tail in
      candidates ← cb_pure (outer_binder_parameters_used adt_tail_field);
      if decide (candidates = ∅) then mret tt
      else if uses_outer_binder_params
                (mkBinders adt_datum.(adt_binders).(binders) (take (fields_len - 1) variant.(fields)))
                candidates
      then mret tt
      else
        substitution ← unsized_parameters candidates substitution_a substitution_b;
        let eq_goal := GEqGoal (ArgTy (TyAdt adt_id substitution)) (ArgTy target_ty) in
        source_tail_field ← cb_pure (substitute adt_tail_field substitution_a);
        target_tail_field ← cb_pure (substitute adt_tail_field substitution_b);
        push_clause trait_ref
          [eq_goal;
           cast (mkTraitRef trait_ref.(trait_id) [ArgTy source_tail_field; ArgTy target_tail_field])].

Definition unsize_tuple (trait_ref : TraitRef) (target_ty : Ty) (arity_a arity_b : nat)
    (substitution_a substitution_b : Substitution) : CB unit :=
  if negb (arity_a =? arity_b) || (arity_a =? 0) then mret tt
  else
    tail_ty_a ← cb_lift (unwrap (last substitution_a));
    tail_ty_b ← cb_lift (unwrap (last substitution_b));
    let new_tuple := TyTuple arity_a (take (arity_a - 1) substitution_a ++ [tail_ty_b]) in
    push_clause trait_ref
      [GEqGoal (ArgTy new_tuple) (ArgTy target_ty);
       cast (mkTraitRef trait_ref.(trait_id) [tail_ty_a; tail_ty_b])].

Definition add_unsize_program_clauses (trait_ref : TraitRef) (_ty : Ty) : CB unit :=
  source_ty ← cb_pure (self_type_parameter trait_ref.(substitution));
  target ← cb_index trait_ref.(substitution) 1;
  target_ty ← cb_assert_ty target;
  match source_ty, target_ty with
  | TyDyn bounds_a lifetime_a, TyDyn bounds_b lifetime_b =>
      unsize_dyn_dyn trait_ref target_ty bounds_a bounds_b lifetime_a lifetime_b
  | _, TyDyn bounds lifetime => unsize_to_dyn trait_ref source_ty bounds lifetime
  | TyArray array_ty _, TySlice slice_ty =>
      push_clause trait_ref [GEqGoal (ArgTy array_ty) (ArgTy slice_ty)]
  | TyAdt adt_id_a substitution_a, TyAdt adt_id_b substitution_b =>
      if decide (adt_id_a = adt_id_b) then
        unsize_adt trait_ref target_ty adt_id_a substitution_a substitution_b
      else mret tt
  | TyTuple arity_a substitution_a, TyTuple arity_b substitution_b =>
      unsize_tuple trait_ref target_ty arity_a arity_b substitution_a substitution_b
  | _, _ => mret tt
  end.
End Unsize.
