(* ===== verification/Clauses.v ===== *)
(** * The clauses of a goal ([chalk-solve/src/clauses.rs])

    [program_clauses_that_could_match] selects, by the shape of the goal, the
    declarations whose clauses may prove it. *)

From stdpp Require Import base list numbers gmap.
From S2P Require Import Prelude Ir Fold FoldLaws Shift Zip RustIr Fulfill RecSolve Builder SuperTraits ProgramClauses BuiltinTraits Unsize.

Section Clauses.
Context (db : RustIrDatabase) (fuel : nat).

(** ** Auto traits *)

Definition constituent_types (ty : Ty) : Fallible (list Ty) :=
  let types_of (substitution : Substitution) := Val (type_parameters substitution) in
  match ty with
  | TyAdt adt_id substitution =>
      let adt_datum := db.(adt_datum) adt_id in
      if negb adt_datum.(adt_flags).(phantom_data) then
        b ← substitute adt_datum.(adt_binders) substitution;
        Val (concat (fields <$> b.(variants)))
      else types_of substitution
  | TyTuple _ substitution | TyFnDef _ substitution => types_of substitution
  | TyArray ty _ | TySlice ty | TyRaw _ ty | TyRef _ _ ty => Val [ty]
  | TyStr | TyNever | TyScalar _ => Val []
  | TyGenerator generator_id substitution =>
      b ← substitute (db.(generator_datum) generator_id).(input_output) substitution;
      Val (b.(upvars) ++ [TyGeneratorWitness generator_id substitution])
  | TyError => Val []
  | TyClosure _ _ | TyGeneratorWitness _ _ | TyFunction _ _ _ | TyInferenceVar _ _ | TyBoundVar _
  | TyPlaceholder _ | TyDyn _ _ | TyAlias _ | TyForeign _ | TyOpaqueType _ _
  | TyAssociatedType _ _ => Panic PExplicit
  end.

(** An auto trait has one parameter, [Self]. *)
Definition assert_auto_trait (auto_trait_id : TraitId) : CB unit :=
  _ ← cb_lift (assert (is_auto_trait (db.(trait_datum) auto_trait_id)));
  cb_lift (assert (length (db.(trait_datum) auto_trait_id).(trait_binders).(binders) =? 1)).

(** [TraitRef { trait_id, substitution: Substitution::from1(ty) }]. *)
Definition mk_ref (trait_id : TraitId) (ty : Ty) : TraitRef := mkTraitRef trait_id [ArgTy ty].

Definition push_auto_trait_impls_opaque (auto_trait_id : TraitId) (opaque_id : OpaqueTyId) : CB unit :=
  let opaque_ty_datum := db.(opaque_ty_data) opaque_id in
  _ ← assert_auto_trait auto_trait_id;
  let hidden_ty := db.(hidden_opaque_type) opaque_id in
  push_binders opaque_ty_datum.(opaque_bound) (λ _,
    substitution ← substitution_in_scope;
    let self_ty := TyOpaqueType opaque_id substitution in
    push_clause (mk_ref auto_trait_id self_ty) [mk_ref auto_trait_id hidden_ty]).

Definition push_auto_trait_impls_generator_witness (auto_trait_id : TraitId) (generator_id : GeneratorId) :
    CB unit :=
  let witness_datum := db.(generator_witness_datum) generator_id in
  _ ← assert_auto_trait auto_trait_id;
  push_binders witness_datum.(inner_types) (λ inner_types,
    substitution ← substitution_in_scope;
    let witness_ty := TyGeneratorWitness generator_id substitution in
    let auto_trait_ref := mk_ref auto_trait_id witness_ty in
    witness_goal ← cb_pure (gb_forall inner_types.(types) auto_trait_id
      (λ _subst types auto_trait_id, Val (GAll (cast <$> (mk_ref auto_trait_id <$> types)))));
    push_clause auto_trait_ref [witness_goal]).

Definition push_auto_trait_impls (auto_trait_id : TraitId) (ty : Ty) : CB unit :=
  _ ← assert_auto_trait auto_trait_id;
  provided ← cb_pure (db.(impl_provided_for) auto_trait_id ty);
  if provided : bool then mret tt
  else
    let consequence := mk_ref auto_trait_id ty in
    let of_constituents : CB unit :=
      tys ← cb_pure (constituent_types ty);
      push_clause consequence (mk_ref auto_trait_id <$> tys) in
    match ty with
    | TyFunction _ _ _ => push_fact consequence
    | TyInferenceVar _ _ | TyBoundVar _ => cb_flounder
    | TyForeign _ => mret tt
    | TyClosure closure_id _ =>
        push_binders (db.(closure_upvars) closure_id []) (λ upvar_ty,
          push_clause consequence [mk_ref auto_trait_id upvar_ty])
    | TyGenerator generator_id _ =>
        if decide (Some auto_trait_id = db.(well_known_trait_id) WkUnpin) then
          match (db.(generator_datum) generator_id).(movability) with
          | MvStatic => mret tt
          | MvMovable => push_fact consequence
          end
        else of_constituents
    | TyGeneratorWitness generator_id _ => push_auto_trait_impls_generator_witness auto_trait_id generator_id
    | TyOpaqueType opaque_ty_id _ => push_auto_trait_impls_opaque auto_trait_id opaque_ty_id
    | TyAssociatedType _ _ | TyPlaceholder _ | TyDyn _ _ | TyAlias _ => mret tt
    | _ => of_constituents
    end.

(** ** Built-in traits ([clauses/builtin_traits.rs]) *)

Definition add_builtin_program_clauses (well_known : WellKnownTrait) (trait_ref : TraitRef)
    (binders : list CanonicalVarKind) : CB unit :=
  push_generalized trait_ref (λ trait_ref,
    self_ty ← cb_pure (self_type_parameter trait_ref.(substitution));
    match well_known with
    | WkUnpin | WkDrop | WkCoerceUnsized => mret tt
    | _ =>
        general ← cb_lift (ty_is_general_var self_ty binders);
        if general : bool then cb_flounder
        else
          match well_known with
          | WkSized => add_sized_program_clauses db trait_ref self_ty binders
          | WkCopy => add_copy_program_clauses db trait_ref self_ty binders
          | WkClone => add_clone_program_clauses db trait_ref self_ty binders
          | WkFnOnce | WkFnMut | WkFn => add_fn_trait_program_clauses db well_known self_ty
          | WkUnsize => add_unsize_program_clauses db trait_ref self_ty
          | WkDiscriminantKind => push_fact trait_ref
          | WkGenerator => add_generator_program_clauses db self_ty
          | WkUnpin | WkDrop | WkCoerceUnsized => mret tt
          end
    end).

Definition add_builtin_assoc_program_clauses (well_known : WellKnownTrait) (self_ty : Ty) : CB unit :=
  match well_known with
  | WkFnOnce => push_generalized self_ty (add_fn_trait_program_clauses db well_known)
  | WkDiscriminantKind => add_discriminant_clauses db self_ty
  | WkGenerator => push_generalized self_ty (add_generator_program_clauses db)
  | _ => mret tt
  end.

(** ** Aliases *)

(** [slice[from..]]. *)
Definition slice_from {A} (l : list A) (from : nat) : CB (list A) :=
  cb_lift (if from <=? length l then Val (drop from l) else Panic PIndex).

(** [with_fresh_type_var(|ty_var| ty_var)]. *)
Definition fresh_type_var : Binders Ty := with_fresh_type_var (λ ty_var, ty_var).

Definition push_alias_implemented_clause (trait_ref : TraitRef) (alias : AliasTy) : CB unit :=
  self_ty ← cb_pure (self_type_parameter trait_ref.(substitution));
  _ ← cb_lift (assert (bool_decide (self_ty = TyAlias alias)));
  push_generalized (trait_ref, alias) (λ p, let '(trait_ref, alias) := p in
    push_binders fresh_type_var (λ bound_var,
      rest ← slice_from trait_ref.(substitution) 1;
      let fresh_self_subst := ArgTy bound_var :: rest in
      let fresh_self_trait_ref := mkTraitRef trait_ref.(trait_id) fresh_self_subst in
      push_clause (DgHolds (WcImplemented trait_ref))
        [DgHolds (WcImplemented fresh_self_trait_ref); DgHolds (WcAliasEq alias bound_var)])).

Definition push_alias_alias_eq_clause (projection_ty : ProjectionTy) (ty : Ty) (alias : AliasTy) : CB unit :=
  self_ty ← cb_pure (self_type_parameter projection_ty.(proj_substitution));
  _ ← cb_lift (assert (bool_decide (self_ty = TyAlias alias)));
  push_generalized (projection_ty, ty, alias) (λ p, let '(projection_ty, ty, alias) := p in
    push_binders fresh_type_var (λ bound_var,
      rest ← slice_from projection_ty.(proj_substitution) 1;
      let fresh_self_subst := ArgTy bound_var :: rest in
      let fresh_alias := AliasProjection projection_ty.(associated_ty_id) fresh_self_subst in
      push_clause (DgHolds (WcAliasEq (projection projection_ty) ty))
        [DgHolds (WcAliasEq fresh_alias ty); DgHolds (WcAliasEq alias bound_var)])).

(** ** Types *)

(** The [Sized] conditions and the well-formedness of a component. *)
Definition sized_goals (tys : list Ty) : list DomainGoal :=
  match db.(well_known_trait_id) WkSized with
  | Some id => (λ ty, DgHolds (WcImplemented (mk_ref id ty))) <$> tys
  | None => []
  end.

(** The type of an array length. *)
Definition usize_ty : Ty := TyScalar (ScUint Usize).

Definition match_array : CB unit :=
  push_binders (mkBinders [VkTy General; VkConst usize_ty] ()) (λ _,
    placeholders ← placeholders_in_scope;
    let placeholder_count := length placeholders in
    i ← cb_lift (usize_sub placeholder_count 2);
    ty ← cb_index placeholders i ≫= cb_assert_ty;
    j ← cb_lift (usize_sub placeholder_count 1);
    size ← cb_index placeholders j ≫= (λ p, cb_pure (assert_const_ref p));
    push_clause (WfTy (TyArray ty size)) (sized_goals [ty] ++ [DgWellFormed (WfTy ty)])).

Definition match_tuple (len : nat) : CB unit :=
  push_binders (mkBinders (replicate len (VkTy General)) ()) (λ _,
    placeholders ← placeholders_in_scope;
    from ← cb_lift (usize_sub (length placeholders) len);
    substs ← slice_from placeholders from;
    let tuple_ty := TyTuple len substs in
    before_last ← cb_lift (usize_sub len 1);
    '(init, _) ← cb_lift (split_at substs before_last);
    init_tys ← mapM cb_assert_ty init;
    tys ← mapM cb_assert_ty substs;
    push_clause (WfTy tuple_ty) (sized_goals init_tys ++ ((λ ty, DgWellFormed (WfTy ty)) <$> tys))).

(** The traits that a [dyn] type names, as goals. *)
Definition dyn_wf_goal (bound : QuantifiedWhereClause) : list (Binders DomainGoal) :=
  match bound.(value) with
  | WcImplemented trait_ref => [mkBinders bound.(binders) (DgWellFormed (WfTrait trait_ref))]
  | WcAliasEq _ _ | WcLifetimeOutlives _ _ | WcTypeOutlives _ _ => []
  end.

Definition match_dyn (ty : Ty) (dyn_ty : DynTy) : CB unit :=
  push_generalized dyn_ty (λ dyn_ty,
    bounds ← cb_pure (substitute dyn_ty.1 [ArgTy ty]);
    push_clause (WfTy ty) (concat (dyn_wf_goal <$> bounds))).

Definition match_ty (environment : Environment) (ty : Ty) : CB unit :=
  match ty with
  | TyInferenceVar _ _ => mpanic PExplicit
  | TyAdt adt_id _ => to_program_clauses db fuel (db.(adt_datum) adt_id) environment
  | TyOpaqueType opaque_ty_id _ => to_program_clauses db fuel (db.(opaque_ty_data) opaque_ty_id) environment
  | TyError => mret tt
  | TyAssociatedType type_id _ => to_program_clauses db fuel (db.(associated_ty_data) type_id) environment
  | TyFnDef fn_def_id _ => to_program_clauses db fuel (db.(fn_def_datum) fn_def_id) environment
  | TyStr | TyNever | TyScalar _ | TyForeign _ | TyTuple 0 _ => push_fact (WfTy ty)
  | TyRaw mutbl _ =>
      push_bound_ty (λ ty, push_clause (WfTy (TyRaw mutbl ty)) [WfTy ty])
  | TyRef mutbl _ _ =>
      push_bound_ty (λ ty,
        push_bound_lifetime (λ lifetime,
          push_clause (WfTy (TyRef mutbl lifetime ty))
            [DgWellFormed (WfTy ty); DgHolds (WcTypeOutlives ty lifetime)]))
  | TySlice _ =>
      push_bound_ty (λ ty,
        push_clause (WfTy (TySlice ty)) (sized_goals [ty] ++ [DgWellFormed (WfTy ty)]))
  | TyArray _ _ => match_array
  | TyTuple len _ => match_tuple len
  | TyClosure _ _ | TyGenerator _ _ | TyGeneratorWitness _ _ =>
      push_generalized ty (λ ty, push_fact (WfTy ty))
  | TyPlaceholder _ => push_fact (WfTy ty)
  | TyAlias (AliasProjection associated_ty_id _) =>
      to_program_clauses db fuel (db.(associated_ty_data) associated_ty_id) environment
  | TyAlias (AliasOpaque opaque_ty_id _) =>
      to_program_clauses db fuel (db.(opaque_ty_data) opaque_ty_id) environment
  | TyFunction _ _ _ => push_generalized ty (λ ty, push_fact (WfTy ty))
  | TyBoundVar _ => cb_flounder
  | TyDyn bounds lifetime => match_dyn ty (bounds, lifetime)
  end.

Definition match_alias_ty (environment : Environment) (alias : AliasTy) : CB unit :=
  match alias with
  | AliasProjection associated_ty_id _ =>
      to_program_clauses db fuel (db.(associated_ty_data) associated_ty_id) environment
  | AliasOpaque _ _ => mret tt
  end.
End Clauses.
