(* ===== verification/GoalClauses.v ===== *)
(** * The clauses of a goal ([program_clauses_for_goal],
    [program_clauses_that_could_match] of [chalk-solve/src/clauses.rs]) and of an
    environment ([program_clauses_for_env], [clauses/env_elaborator.rs]) *)

From stdpp Require Import base list numbers gmap.
From S2P Require Import Prelude Ir IrCountable Fold FoldLaws Shift Visit Zip RustIr Fulfill RecSolve Builder SuperTraits ProgramClauses BuiltinTraits Unsize Clauses.

Section GoalClauses.
Context (db : RustIrDatabase) (fuel : nat).

(** ** The clauses of the program for a goal *)

Definition push_program_clauses_for_associated_type_values_in_impls_of (environment : Environment)
    (trait_id : TraitId) (trait_parameters : list GenericArg) (binders : list CanonicalVarKind) : CB unit :=
  impl_ids ← cb_pure (db.(impls_for_trait) trait_id trait_parameters binders);
  cb_iter (λ impl_id,
    let impl_datum := db.(impl_datum) impl_id in
    if negb (impl_is_positive impl_datum) then mret tt
    else
      cb_iter (λ atv_id, to_program_clauses db fuel (db.(associated_ty_value) atv_id) environment)
        impl_datum.(associated_ty_value_ids))
    impl_ids.

Definition push_clauses_for_compatible_normalize (trait_id : TraitId) (associated_ty_id : AssocTypeId) :
    CB unit :=
  let trait_datum := db.(trait_datum) trait_id in
  push_binders (trait_where_clauses trait_datum) (λ where_clauses,
    substitution ← substitution_in_scope;
    let p := mkProjectionTy associated_ty_id substitution in
    let trait_ref := mkTraitRef trait_id substitution in
    let type_parameters := type_parameters substitution in
    push_bound_ty (λ target_ty,
      for_each_parameter (λ i ty,
        push_clause (DgNormalize (projection p) target_ty)
          (goals_of where_clauses ++ [cast DgCompatible; cast (WcImplemented trait_ref)]
             ++ downstream_conditions type_parameters i ty)) type_parameters)).

(** The arm of [Implemented] goals. *)
Definition clauses_for_implemented (environment : Environment) (binders : list CanonicalVarKind)
    (trait_ref : TraitRef) : CB unit :=
  self_ty ← cb_pure (self_type_parameter trait_ref.(substitution));
  let trait_id := trait_ref.(trait_id) in
  let trait_datum := db.(trait_datum) trait_id in
  let rest : CB unit :=
    _ ← to_program_clauses db fuel trait_datum environment;
    impl_ids ← cb_pure (db.(impls_for_trait) trait_id trait_ref.(substitution) binders);
    _ ← cb_iter (λ impl_id, to_program_clauses db fuel (db.(impl_datum) impl_id) environment) impl_ids;
    _ ← (if is_auto_trait trait_datum then
           push_generalized trait_ref (λ trait_ref,
             ty ← cb_pure (self_type_parameter trait_ref.(substitution));
             push_auto_trait_impls db trait_id ty)
         else mret tt);
    match trait_datum.(well_known) with
    | Some well_known => add_builtin_program_clauses db well_known trait_ref binders
    | None => mret tt
    end in
  match self_ty with
  | TyInferenceVar _ _ => mpanic PExplicit
  | TyAlias alias => push_alias_implemented_clause trait_ref alias
  | _ =>
      general ← cb_lift (ty_is_general_var self_ty binders);
      _ ← (if general : bool then
             if is_non_enumerable_trait trait_datum || is_auto_trait trait_datum then cb_flounder
             else mret tt
           else
             match self_ty with
             | TyOpaqueType opaque_ty_id _ =>
                 to_program_clauses db fuel (db.(opaque_ty_data) opaque_ty_id) environment
             | TyDyn _ _ => build_dyn_self_ty_clauses db fuel self_ty
             | _ => mret tt
             end);
      rest
  end.

(** The arm of [AliasEq] goals of a projection. *)
Definition clauses_for_projection_eq (environment : Environment) (proj : ProjectionTy) (ty : Ty) : CB unit :=
  trait_ref ← cb_lift (trait_ref_from_projection db proj);
  trait_self_ty ← cb_pure (self_type_parameter trait_ref.(substitution));
  let rest := to_program_clauses db fuel (db.(associated_ty_data) proj.(associated_ty_id)) environment in
  match trait_self_ty with
  | TyAlias alias => push_alias_alias_eq_clause proj ty alias
  | TyOpaqueType opaque_ty_id _ =>
      _ ← to_program_clauses db fuel (db.(opaque_ty_data) opaque_ty_id) environment;
      rest
  | TyDyn _ _ =>
      _ ← build_dyn_self_ty_clauses db fuel trait_self_ty;
      rest
  | _ => rest
  end.

(** The arm of [Normalize] goals of a projection. *)
Definition clauses_for_normalize (environment : Environment) (binders : list CanonicalVarKind)
    (proj : ProjectionTy) : CB unit :=
  let associated_ty_datum := db.(associated_ty_data) proj.(associated_ty_id) in
  let trait_id := associated_ty_datum.(assoc_trait_id) in
  trait_parameters ← cb_lift (trait_parameters_from_projection db proj);
  let trait_datum := db.(trait_datum) trait_id in
  self_ty ← cb_pure (self_type_parameter proj.(proj_substitution));
  _ ← match self_ty with TyInferenceVar _ _ => mpanic PExplicit | _ => mret tt end;
  general ← cb_lift (ty_is_general_var self_ty binders);
  _ ← (if (general : bool) && is_non_enumerable_trait trait_datum then cb_flounder else mret tt);
  _ ← match trait_datum.(well_known) with
      | Some well_known => add_builtin_assoc_program_clauses db well_known self_ty
      | None => mret tt
      end;
  _ ← push_program_clauses_for_associated_type_values_in_impls_of environment trait_id
        trait_parameters binders;
  compatible ← cb_lift (has_compatible_clause environment);
  if compatible : bool then push_clauses_for_compatible_normalize trait_id proj.(associated_ty_id)
  else mret tt.

(** [push_fact_with_constraints] of an outlives goal and its constraint. *)
Definition clauses_for_lifetime_outlives : CB unit :=
  push_bound_lifetime (λ a,
    push_bound_lifetime (λ b,
      push_fact_with_constraints (DgHolds (WcLifetimeOutlives a b))
        [mkInEnvironment [] (CtLifetimeOutlives a b)])).
Definition clauses_for_type_outlives : CB unit :=
  push_bound_ty (λ ty,
    push_bound_lifetime (λ lifetime,
      push_fact_with_constraints (DgHolds (WcTypeOutlives ty lifetime))
        [mkInEnvironment [] (CtTypeOutlives ty lifetime)])).

Definition push_goal_clauses (environment : Environment) (binders : list CanonicalVarKind)
    (goal : DomainGoal) : CB unit :=
  match goal with
  | DgHolds (WcImplemented trait_ref) => clauses_for_implemented environment binders trait_ref
  | DgHolds (WcAliasEq (AliasProjection id s) ty) =>
      clauses_for_projection_eq environment (mkProjectionTy id s) ty
  | DgHolds (WcAliasEq (AliasOpaque opaque_ty_id _) _) =>
      to_program_clauses db fuel (db.(opaque_ty_data) opaque_ty_id) environment
  | DgHolds (WcLifetimeOutlives _ _) => clauses_for_lifetime_outlives
  | DgHolds (WcTypeOutlives _ _) => clauses_for_type_outlives
  | DgWellFormed (WfTrait trait_ref) | DgLocalImplAllowed trait_ref =>
      to_program_clauses db fuel (db.(trait_datum) trait_ref.(trait_id)) environment
  | DgObjectSafe trait_id =>
      if db.(is_object_safe) trait_id then push_fact (DgObjectSafe trait_id) else mret tt
  | DgWellFormed (WfTy ty) | DgIsUpstream ty | DgDownstreamType ty | DgIsFullyVisible ty
  | DgIsLocal ty => match_ty db fuel environment ty
  | DgFromEnv _ => mret tt
  | DgNormalize (AliasProjection id s) _ => clauses_for_normalize environment binders (mkProjectionTy id s)
  | DgNormalize (AliasOpaque _ _) _ => mret tt
  | DgCompatible | DgReveal => mret tt
  end.

Definition program_clauses_that_could_match (goal : UCanonicalDomainGoal) :
    outcome Floundered ProgramClauses :=
  let 'mkUCanonical (mkCanonical (mkInEnvironment environment goal) binders) _ := goal in
  '(_, builder) ← push_goal_clauses environment binders goal builder_new;
  Val builder.(clauses).

Definition program_clauses_for_goal (goal : UCanonicalDomainGoal) : outcome Floundered ProgramClauses :=
  let value := goal.(canonical).(cvalue) in
  let custom_clauses := db.(custom_clauses) in
  clauses_that_could_match ← program_clauses_that_could_match goal;
  env_clauses ← unwrap_result (db.(program_clauses_for_env) value.(environment));
  unwrap_result (filter_could_match fuel db value.(env_goal)
    (custom_clauses ++ clauses_that_could_match ++ env_clauses)).

(** ** The elaboration of environments *)

Definition elaborate_ty (environment : Environment) (ty : Ty) : CB unit :=
  match ty with
  | TyAlias alias_ty => match_alias_ty db fuel environment alias_ty
  | TyPlaceholder _ => mret tt
  | TyDyn _ _ => mret tt
  | TyFunction _ _ _ | TyBoundVar _ | TyInferenceVar _ _ => mret tt
  | _ => cb_unwrap (match_ty db fuel environment ty)
  end.

Definition elaborate_domain_goal (environment : Environment) (domain_goal : DomainGoal) : CB unit :=
  match domain_goal with
  | DgFromEnv (FeTrait trait_ref) =>
      let trait_datum := db.(trait_datum) trait_ref.(trait_id) in
      _ ← to_program_clauses db fuel trait_datum environment;
      cb_iter (λ associated_ty_id,
        to_program_clauses db fuel (db.(associated_ty_data) associated_ty_id) environment)
        trait_datum.(associated_ty_ids)
  | DgFromEnv (FeTy ty) => elaborate_ty environment ty
  | _ => mret tt
  end.

Definition EnvElaborator (environment : Environment) : Visitor CB := {|
  visit_free_var := default_visit_free_var false;
  visit_free_placeholder := default_visit_free_placeholder false;
  visit_inference_var := default_visit_inference_var false;
  override_visit_ty ty _ _ := elaborate_ty environment ty;
  override_visit_const := default_visit_const;
  override_visit_where := default_visit_where;
  override_visit_domain_goal dg _ _ := elaborate_domain_goal environment dg
|}.

(** A [FxHashSet] is a list without repetitions; [hash_order] is its order. *)
Definition set_insert {A} `{EqDecision A} (x : A) (s : list A) : bool * list A :=
  if decide (x ∈ s) then (false, s) else (true, s ++ [x]).
Definition set_extend {A} `{EqDecision A} (s : list A) (l : list A) : list A :=
  foldl (λ s x, (set_insert x s).2) s l.

Definition elaborate_env_clauses (in_clauses : list ProgramClause) (out : list ProgramClause)
    (environment : Environment) : Fallible (list ProgramClause) :=
  '(_, this_round) ← unwrap_result (visit_with (EnvElaborator environment) in_clauses INNERMOST builder_new);
  Val (set_extend out this_round.(clauses)).

Context (hash_order : list ProgramClause → list ProgramClause).

(** [next_round.drain().filter(|clause| closure.insert(clause.clone()))]. *)
Fixpoint new_clauses (closure : list ProgramClause) (next_round : list ProgramClause) :
    list ProgramClause * list ProgramClause :=
  match next_round with
  | [] => (closure, [])
  | clause :: next_round =>
      let '(inserted, closure) := set_insert clause closure in
      let '(closure, fresh) := new_clauses closure next_round in
      (closure, if inserted : bool then clause :: fresh else fresh)
  end.

(** The [while] loop; [rounds] bounds its iterations. *)
Fixpoint env_closure (rounds : nat) (environment : Environment) (last_round closure : list ProgramClause) :
    Fallible (list ProgramClause) :=
  match last_round, rounds with
  | [], _ => Val closure
  | _, 0 => OutOfFuel
  | _, S rounds =>
      next_round ← elaborate_env_clauses (hash_order last_round) [] environment;
      let '(closure, fresh) := new_clauses closure (hash_order next_round) in
      env_closure rounds environment (set_extend [] fresh) closure
  end.

Definition program_clauses_for_env (rounds : nat) (environment : Environment) : Fallible ProgramClauses :=
  let last_round := set_extend [] environment in
  closure ← env_closure rounds environment last_round last_round;
  Val (hash_order closure).
End GoalClauses.
