(* ===== verification/Coherence.v ===== *)
(** * Coherence ([chalk-solve/src/coherence.rs], [coherence/solve.rs], [coherence/orphan.rs])

    Overlapping impls must specialize one another; the specializations make a graph of
    impls from which the priorities are computed.  The graph is that of the [petgraph]
    library and the pairs of impls come from [itertools]: both are interfaces.  Each
    query goes to a fresh solver, an argument. *)

From stdpp Require Import base list numbers gmap.
From S2P Require Import Prelude Ir Fold FoldLaws Shift Ena UCanonicalize RustIr Solve Fulfill RecSolve Builder.

(** ** Libraries *)

(** [petgraph::Graph<ImplId, ()>]. *)
Class DiGraph (G : Type) := {
  digraph_new : G;
  add_node : G → ImplId → nat * G;
  update_edge : G → nat → nat → G;
  node_weight : G → nat → option ImplId;
  neighbors : G → nat → list nat;
  externals_incoming : G → list nat
}.

(** What the documentation of [petgraph] states: a node keeps its index and weight,
    [update_edge] adds an edge unless there is one, [neighbors] are the targets of the
    edges from a node, and the external nodes are those without an incoming edge. *)
Class DiGraphLaws (G : Type) `{DiGraph G} := {
  node_weight_new i : node_weight digraph_new i = None;
  neighbors_new i : neighbors digraph_new i = [];
  node_weight_add_node g w i :
    node_weight g (add_node g w).1 = None ∧
    node_weight (add_node g w).2 i = (if decide (i = (add_node g w).1) then Some w else node_weight g i);
  neighbors_add_node g w i : neighbors (add_node g w).2 i ≡ₚ neighbors g i;
  node_weight_update_edge g a b i : node_weight (update_edge g a b) i = node_weight g i;
  neighbors_update_edge g a b i : is_Some (node_weight g a) → is_Some (node_weight g b) →
    neighbors (update_edge g a b) i ≡ₚ
      (if decide (i = a ∧ b ∉ neighbors g a) then b :: neighbors g i else neighbors g i);
  externals_incoming_NoDup g : NoDup (externals_incoming g);
  elem_of_externals_incoming g i :
    i ∈ externals_incoming g ↔ is_Some (node_weight g i) ∧ ∀ j, i ∉ neighbors g j
}.

(** [Itertools::tuple_combinations] for pairs: each pair of positions once, the earlier
    element first. *)
Class TupleCombinations := tuple_combinations : ∀ {A : Type}, list A → list (A * A).
Class TupleCombinationsLaws `{TupleCombinations} :=
  elem_of_tuple_combinations : ∀ {A : Type} (l : list A) x y,
    (x, y) ∈ tuple_combinations l ↔ ∃ i j, i < j ∧ l !! i = Some x ∧ l !! j = Some y.

(** ** Goals ([chalk-ir/src/lib.rs]) *)

Definition quantify (self : Goal) (kind : QuantifierKind) (bs : VariableKinds) : Goal :=
  GQuantified kind (mkBinders bs self).
Definition negate (self : Goal) : Goal := GNot self.

Definition compatible (self : Goal) : Fallible Goal :=
  let ty := TyBoundVar (mkBoundVar INNERMOST 0) in
  compatible ← cast_program_clause DgCompatible;
  downstream ← cast_program_clause (DgDownstreamType ty);
  self ← term_shifted_in self;
  Val (GQuantified ForAll (with_fresh_type_var (λ _, GImplies [compatible; downstream] self))).

(** [GoalData::EqGoal] for two lists of arguments. *)
Definition eq_goals (l k : Substitution) : list Goal :=
  (λ p : GenericArg * GenericArg, GEqGoal p.1 p.2) <$> zip l k.

(** ** The errors and the priorities *)

Inductive CoherenceError :=
  | OverlappingImpls (id : TraitId)
  | FailedOrphanCheck (id : TraitId).
#[global] Instance CoherenceError_eq_dec : EqDecision CoherenceError. Proof. solve_decision. Defined.

(** [IndexMap<ImplId, SpecializationPriority>]. *)
Abbreviation SpecializationPriority := nat.
Abbreviation SpecializationPriorities := (gmap ImplId SpecializationPriority).

Definition priority (self : SpecializationPriorities) (impl_id : ImplId) : Fallible SpecializationPriority :=
  match self !! impl_id with Some p => Val p | None => Panic PIndex end.
Definition insert_priority (self : SpecializationPriorities) (impl_id : ImplId) (p : SpecializationPriority) :
    outcome CoherenceError SpecializationPriorities :=
  _ ← assert (bool_decide (self !! impl_id = None));
  Val (<[impl_id := p]> self).

(** The forest and the nodes of the impls in it. *)
Abbreviation ForestState G := (G * gmap ImplId nat)%type.

Section CoherenceSolver.
Context {E : Type} `{EnaOps E} {G : Type} `{DiGraph G, TupleCombinations}.
Context (fuel : nat) (db : RustIrDatabase).
(** A fresh solver, asked for one goal. *)
Context (solve : UCanonicalGoal → Fallible (option Solution)).
Context (trait_id : TraitId).

Definition has_unique_solution (goal : UCanonicalGoal) : Fallible bool :=
  solution ← solve goal;
  Val match solution with Some sol => is_unique sol | None => false end.

(** ** [coherence/solve.rs] *)

Definition disjoint (lhs rhs : ImplDatum) : Fallible bool :=
  let lhs_binders := lhs.(impl_binders).(binders) in
  let rhs_binders := rhs.(impl_binders).(binders) in
  let lhs_bound := lhs.(impl_binders).(value) in
  let rhs_bound := rhs.(impl_binders).(value) in
  rhs_params ← mapM term_shifted_in rhs_bound.(impl_trait_ref).(substitution);
  let params_goals := eq_goals lhs_bound.(impl_trait_ref).(substitution) rhs_params in
  rhs_where_clauses ← mapM term_shifted_in rhs_bound.(impl_where_clauses);
  let wc_goals := cast <$> (lhs_bound.(impl_where_clauses) ++ rhs_where_clauses) in
  goal ← compatible (quantify (quantify (goal_all (params_goals ++ wc_goals)) Exists lhs_binders)
                       Exists rhs_binders);
  canonical_goal ← into_closed_goal (E := E) fuel (negate goal);
  solution ← solve canonical_goal;
  Val match solution with Some (Unique _) => true | Some (Ambig _) | None => false end.

Definition specializes_goal (less_special_id more_special_id : ImplId) : Fallible Goal :=
  let more_special := db.(impl_datum) more_special_id in
  gb_forall more_special.(impl_binders) less_special_id (λ _ more_special_impl less_special_id,
    let less_special := db.(impl_datum) less_special_id in
    goal ← gb_exists less_special.(impl_binders) more_special_impl.(impl_trait_ref)
             (λ _ less_special_impl more_special_trait_ref,
        let params_goals :=
          eq_goals more_special_trait_ref.(substitution) less_special_impl.(impl_trait_ref).(substitution) in
        Val (gb_all (params_goals ++ (cast <$> less_special_impl.(impl_where_clauses)))));
    Val (gb_implies (cast <$> more_special_impl.(impl_where_clauses)) goal)).

Definition specializes (less_special_id more_special_id : ImplId) : Fallible bool :=
  goal ← specializes_goal less_special_id more_special_id;
  canonical_goal ← into_closed_goal (E := E) fuel goal;
  has_unique_solution canonical_goal.

(** The two checks of overlapping impls, and the specialization to record. *)
Definition overlap_specialization (l_id r_id : ImplId) : outcome CoherenceError (ImplId * ImplId) :=
  lr ← unwrap_result (specializes l_id r_id);
  rl ← unwrap_result (specializes r_id l_id);
  match lr, rl with
  | true, false => Val (l_id, r_id)
  | false, true => Val (r_id, l_id)
  | _, _ => Exn (OverlappingImpls trait_id)
  end.

(** The loop over the pairs, with [record_specialization] on a state. *)
Fixpoint visit_pairs {S} (record_specialization : S → ImplId → ImplId → S) (pairs : list (ImplId * ImplId))
    (st : S) : outcome CoherenceError S :=
  match pairs with
  | [] => Val st
  | (l_id, r_id) :: pairs =>
      let lhs := db.(impl_datum) l_id in
      let rhs := db.(impl_datum) r_id in
      if negb (impl_is_positive lhs) && negb (impl_is_positive rhs) then
        visit_pairs record_specialization pairs st
      else
        d ← unwrap_result (disjoint lhs rhs);
        if d : bool then visit_pairs record_specialization pairs st
        else
          '(less_special, more_special) ← overlap_specialization l_id r_id;
          visit_pairs record_specialization pairs (record_specialization st less_special more_special)
  end.

Definition visit_specializations_of_trait {S} (record_specialization : S → ImplId → ImplId → S) (st : S) :
    outcome CoherenceError S :=
  let trait_datum := db.(trait_datum) trait_id in
  if trait_datum.(trait_flags).(marker) then Val st
  else
    let impls := db.(local_impls_to_coherence_check) trait_id in
    visit_pairs record_specialization (tuple_combinations impls) st.

(** ** [coherence.rs] *)

Definition node_of (st : ForestState G) (impl_id : ImplId) : nat * ForestState G :=
  let '(forest, node_map) := st in
  match node_map !! impl_id with
  | Some node => (node, st)
  | None => let '(node, forest) := add_node forest impl_id in (node, (forest, <[impl_id := node]> node_map))
  end.

Definition record_specialization (st : ForestState G) (less_special more_special : ImplId) : ForestState G :=
  let '(less_special_node, st) := node_of st less_special in
  let '(more_special_node, st) := node_of st more_special in
  (update_edge st.1 less_special_node more_special_node, st.2).

Definition build_specialization_forest : outcome CoherenceError G :=
  '(forest, _) ← visit_specializations_of_trait record_specialization (digraph_new, ∅);
  Val forest.

(** [for x in xs { f(x, &mut map) }]. *)
Fixpoint for_each_node {S} (f : nat → S → outcome CoherenceError S) (nodes : list nat) (map : S) :
    outcome CoherenceError S :=
  match nodes with
  | [] => Val map
  | idx :: nodes => map ← f idx map; for_each_node f nodes map
  end.

(** [depth] bounds the recursion. *)
Fixpoint set_priorities (depth : nat) (forest : G) (p : nat) (idx : nat) (map : SpecializationPriorities) :
    outcome CoherenceError SpecializationPriorities :=
  match depth with
  | 0 => OutOfFuel
  | S depth =>
      impl_id ← unwrap (node_weight forest idx);
      map ← insert_priority map impl_id p;
      for_each_node (set_priorities depth forest (p + 1)) (neighbors forest idx) map
  end.

Definition specialization_priorities (depth : nat) : outcome CoherenceError SpecializationPriorities :=
  forest ← build_specialization_forest;
  for_each_node (set_priorities depth forest 0) (externals_incoming forest) ∅.

(** ** [coherence/orphan.rs] *)

Definition perform_orphan_check (impl_id : ImplId) : outcome CoherenceError unit :=
  let impl_datum := db.(impl_datum) impl_id in
  let impl_allowed : Goal :=
    cast (binders_map (λ bound_impl, DgLocalImplAllowed bound_impl.(impl_trait_ref)) impl_datum.(impl_binders)) in
  canonical_goal ← unwrap_result (into_closed_goal (E := E) fuel impl_allowed);
  solution ← unwrap_result (solve canonical_goal);
  match solution with
  | Some _ => Val tt
  | None => Exn (FailedOrphanCheck (impl_trait_id impl_datum))
  end.
End CoherenceSolver.
