(* ===== verification/Wf.v ===== *)
(** * Well-formedness of declarations ([chalk-solve/src/wf.rs])

    For each declaration, a goal that a fresh solver must prove with a unique
    solution.  The solver, an argument, answers one goal; that of an impl of
    [CoerceUnsized] is asked several goals in turn, with the cache of the earlier
    ones. *)

From stdpp Require Import base list numbers gmap.
From S2P Require Import Prelude Ir Fold FoldLaws Shift Ena Visit UCanonicalize RustIr Solve Fulfill RecSolve Builder Coherence.

Inductive WfError :=
  | IllFormedTypeDecl (id : AdtId)
  | IllFormedOpaqueTypeDecl (id : OpaqueTyId)
  | IllFormedTraitImpl (id : TraitId).
#[global] Instance WfError_eq_dec : EqDecision WfError. Proof. solve_decision. Defined.

(** ** The types that a declaration mentions *)

#[global] Instance Visit_prod {A B} `{Visit A, Visit B} : Visit (A * B) :=
  λ _ _ _ V p d, visit_with V p.1 d ≫= λ _, visit_with V p.2 d.
#[global] Instance Visit_TraitRef : Visit TraitRef := λ _ _ _ V tr d, visit_with V tr.(substitution) d.

Definition push_ty (ty : Ty) (outer_binder : DebruijnIndex) : ST (list Ty) unit := λ types,
  ty ← unwrap_result (term_shifted_out_to ty outer_binder);
  Val (tt, types ++ [ty]).

Definition InputTypeCollector : Visitor (ST (list Ty)) := {|
  visit_free_var := default_visit_free_var false;
  visit_free_placeholder := default_visit_free_placeholder false;
  visit_inference_var := default_visit_inference_var false;
  override_visit_ty ty outer_binder super_visit :=
    match ty with
    | TyBoundVar _ | TyFunction _ _ _ => mret tt
    | TyInferenceVar _ _ => mpanic PExplicit
    | TyPlaceholder _ | TyStr | TyNever | TyForeign _ | TyError => push_ty ty outer_binder
    | TyScalar _ | TyAdt _ _ | TyAssociatedType _ _ | TyTuple _ _ | TyOpaqueType _ _ | TySlice _
    | TyFnDef _ _ | TyRef _ _ _ | TyRaw _ _ | TyArray _ _ | TyClosure _ _ | TyGenerator _ _
    | TyGeneratorWitness _ _ | TyDyn _ _ | TyAlias _ =>
        push_ty ty outer_binder ≫= λ _, super_visit
    end;
  override_visit_const := default_visit_const;
  override_visit_where wc outer_binder super_visit first :=
    match wc with
    | WcAliasEq alias _ => push_ty (TyAlias alias) outer_binder ≫= λ _, first
    | WcImplemented _ => first
    | WcTypeOutlives _ _ => first
    | WcLifetimeOutlives _ _ => mret tt
    end;
  override_visit_domain_goal := default_visit_domain_goal
|}.

Definition types_in {T} `{Visit T} (value : T) : Fallible (list Ty) :=
  '(_, types) ← visit_with InputTypeCollector value INNERMOST [];
  Val types.

(** [ty.well_formed().cast()]. *)
Definition wf_goal (ty : Ty) : Goal := cast (WfTy ty).
Definition ty_adt_id (self : Ty) : option AdtId := match self with TyAdt id _ => Some id | _ => None end.

(** [b.into_from_env_goal().cast()] for where clauses. *)
Definition from_env_clauses (where_clauses : list QuantifiedWhereClause) : list ProgramClause :=
  (λ qwc, cast (qwc_into_from_env_goal qwc)) <$> where_clauses.
(** [TraitRef { trait_id, substitution: from1(ty) }.cast()]. *)
Definition trait_goal_for (trait_id : TraitId) (ty : Ty) : Goal := cast (mkTraitRef trait_id [ArgTy ty]).

Definition impl_wf_environment (where_clauses : list QuantifiedWhereClause) (trait_ref : TraitRef) :
    Fallible (list ProgramClause) :=
  types ← types_in trait_ref;
  types_wf ← mapM (λ ty, cast_program_clause (FeTy ty)) types;
  Val (from_env_clauses where_clauses ++ types_wf).

Section WfSolver.
Context {E : Type} `{EnaOps E} (fuel : nat) (db : RustIrDatabase).
Context (solve : UCanonicalGoal → Fallible (option Solution)).

(** [has_unique_solution(db, &goal.into_closed_goal())]. *)
Definition is_legal (goal : Goal) : Fallible bool :=
  closed_goal ← into_closed_goal (E := E) fuel goal;
  has_unique_solution solve closed_goal.

(** ** The goals of declarations *)

Definition struct_sized_constraint (fields : list Ty) (size_all : bool) : option Goal :=
  let excluded := if size_all then 0 else 1 in
  if length fields <=? excluded then None
  else
    sized_trait ← db.(well_known_trait_id) WkSized;
    Some (goal_all (trait_goal_for sized_trait <$> take (length fields - excluded) fields)).

Definition verify_adt_goal (adt_id : AdtId) : Fallible Goal :=
  let adt_datum := db.(adt_datum) adt_id in
  let is_enum := bool_decide (adt_datum.(adt_kind) = Enum) in
  gb_forall adt_datum.(adt_binders) tt (λ _ bound _,
    sub_goals ← mapM (λ variant : AdtVariantDatum,
      let fields := variant.(fields) in
      let sized_constraint_goal := struct_sized_constraint fields is_enum in
      types ← types_in (fields, bound.(adt_where_clauses));
      Val ((wf_goal <$> types) ++ option_list sized_constraint_goal)) bound.(variants);
    Val (gb_implies (from_env_clauses bound.(adt_where_clauses)) (gb_all (concat sub_goals)))).

Definition impl_header_wf_goal (impl_id : ImplId) : Fallible (option Goal) :=
  let impl_datum := db.(impl_datum) impl_id in
  if negb (impl_is_positive impl_datum) then Val None
  else
    g ← gb_forall impl_datum.(impl_binders) tt (λ _ bound _,
      clauses ← impl_wf_environment bound.(impl_where_clauses) bound.(impl_trait_ref);
      types ← types_in bound.(impl_where_clauses);
      let goals := (wf_goal <$> types) ++ [cast (WfTrait bound.(impl_trait_ref))] in
      Val (gb_implies clauses (gb_all goals)));
    Val (Some g).

Definition compute_assoc_ty_goal (assoc_ty_id : AssociatedTyValueId) : Fallible Goal :=
  let assoc_ty := db.(associated_ty_value) assoc_ty_id in
  gb_forall (binders_map atv_ty assoc_ty.(atv_value)) assoc_ty_id (λ assoc_ty_substitution value_ty assoc_ty_id,
    let assoc_ty := db.(associated_ty_value) assoc_ty_id in
    '(impl_parameters, projection) ←
      impl_parameters_and_projection_from_associated_ty_value db assoc_ty_substitution assoc_ty;
    let impl_datum := db.(impl_datum) assoc_ty.(atv_impl_id) in
    impl_bound ← substitute impl_datum.(impl_binders) impl_parameters;
    impl_wf_clauses ← impl_wf_environment impl_bound.(impl_where_clauses) impl_bound.(impl_trait_ref);
    let assoc_ty_datum := db.(associated_ty_data) projection.(associated_ty_id) in
    defn ← substitute assoc_ty_datum.(assoc_binders) projection.(proj_substitution);
    types ← types_in value_ty;
    bound_wcs ← mapM (λ qb, into_where_clauses qb value_ty) defn.(assoc_bounds);
    let bound_goals := (λ qwc, cast (qwc_into_well_formed_goal qwc)) <$> concat bound_wcs in
    let goal := gb_all ((wf_goal <$> types) ++ bound_goals) in
    Val (gb_implies impl_wf_clauses (gb_implies (from_env_clauses defn.(assoc_where_clauses)) goal))).

Definition verify_opaque_goal (opaque_ty_id : OpaqueTyId) : Fallible Goal :=
  let datum := db.(opaque_ty_data) opaque_ty_id in
  gb_forall datum.(opaque_bound) opaque_ty_id (λ _ bound opaque_ty_id,
    let subst := [ArgTy (db.(hidden_opaque_type) opaque_ty_id)] in
    bounds ← substitute bound.(opaque_bounds) subst;
    where_clauses ← substitute bound.(opaque_where_clauses) subst;
    Val (gb_implies (from_env_clauses where_clauses)
           (gb_all (qwc_into_well_formed_goal <$> bounds)))).

(** ** Impls of well-known traits *)

Definition copy_impl_goal (impl_datum : ImplDatum) : Fallible Goal :=
  gb_forall impl_datum.(impl_binders) tt (λ _ bound _,
    let trait_ref := bound.(impl_trait_ref) in
    ty ← self_type_parameter trait_ref.(substitution);
    match ty with
    | TyAdt adt_id substitution =>
        clauses ← impl_wf_environment bound.(impl_where_clauses) trait_ref;
        let neg_drop_goal := (λ drop_trait_id, negate (trait_goal_for drop_trait_id ty))
                               <$> db.(well_known_trait_id) WkDrop in
        vs ← substitute (binders_map variants (db.(adt_datum) adt_id).(adt_binders)) substitution;
        let goals := (trait_goal_for trait_ref.(trait_id) <$> concat (fields <$> vs)) ++ option_list neg_drop_goal in
        Val (gb_implies clauses (gb_all goals))
    | _ => Panic PUnreachable
    end).

Definition copy_impl_constraint (impl_datum : ImplDatum) : Fallible bool :=
  ty ← self_type_parameter impl_datum.(impl_binders).(value).(impl_trait_ref).(substitution);
  match ty with
  | TyScalar _ | TyRaw _ _ | TyRef Not _ _ | TyNever => Val true
  | TyAdt _ _ => copy_impl_goal impl_datum ≫= is_legal
  | _ => Val false
  end.

(** The body of the quantified goal that the definition of the data type must imply. *)
Definition implied_by_adt_def_goal (impl_datum : ImplDatum) : Fallible Goal :=
  gb_forall impl_datum.(impl_binders) tt (λ _ bound _,
    self_ty ← self_type_parameter bound.(impl_trait_ref).(substitution);
    clause ← cast_program_clause (FeTy self_ty);
    Val (gb_implies [clause] (gb_all (qwc_into_well_formed_goal <$> bound.(impl_where_clauses))))).

(** [forall<P..> exists<Q..> Adt<P..> = ImplSelfTy<Q..>]. *)
Definition drop_eq_goal (impl_datum : ImplDatum) (adt_id : AdtId) : Fallible Goal :=
  self_ty ← self_type_parameter impl_datum.(impl_binders).(value).(impl_trait_ref).(substitution);
  let impl_self_ty := mkBinders impl_datum.(impl_binders).(binders) self_ty in
  gb_forall (db.(adt_datum) adt_id).(adt_binders) (adt_id, impl_self_ty) (λ substitution _ p,
    let '(adt_id, impl_self_ty) := p in
    gb_exists impl_self_ty (TyAdt adt_id substitution) (λ _ impl_adt def_adt,
      Val (GEqGoal (ArgTy def_adt) (ArgTy impl_adt)))).

Definition drop_impl_constraint (impl_datum : ImplDatum) : Fallible bool :=
  id ← self_type_adt_id impl_datum;
  match id with
  | None => Val false
  | Some adt_id =>
      implied_by_adt_def_goal ← implied_by_adt_def_goal impl_datum;
      eq_goal ← drop_eq_goal impl_datum adt_id;
      is_legal (gb_all [implied_by_adt_def_goal; eq_goal])
  end.

(** The goal, for all parameters of the impl, in its environment. *)
Definition place_in_environment (bs : VariableKinds) (impl : ImplDatumBound) (goal : Goal) : Fallible Goal :=
  gb_forall (mkBinders bs goal) tt (λ _ goal _,
    clauses ← impl_wf_environment impl.(impl_where_clauses) impl.(impl_trait_ref);
    Val (gb_implies clauses goal)).

Definition coerce_pointer (bs : VariableKinds) (impl : ImplDatumBound) (s_m t_m : Mutability)
    (source target : Ty) : Fallible bool :=
  if decide (s_m = Not ∧ t_m = Mut) then Val false
  else
    match db.(well_known_trait_id) WkUnsize with
    | None => Val false
    | Some unsize_trait_id =>
        unsize_goal ← place_in_environment bs impl
          (cast (mkTraitRef unsize_trait_id [ArgTy source; ArgTy target]));
        is_legal unsize_goal
    end.

(** The test of the [filter]: the fields differ, and the field is not phantom data. *)
Definition uneq_field (bs : VariableKinds) (impl : ImplDatumBound) (source target : Ty) : Fallible bool :=
  let phantom := match ty_adt_id source with
                 | Some adt_id => (db.(adt_datum) adt_id).(adt_flags).(phantom_data)
                 | None => false
                 end in
  if phantom then Val false
  else
    eq_goal ← place_in_environment bs impl (GEqGoal (ArgTy source) (ArgTy target));
    equal ← is_legal eq_goal;
    Val (negb equal).

(** [(0..source_fields.len()).filter(..)], with the two fields at each index. *)
Fixpoint uneq_fields (bs : VariableKinds) (impl : ImplDatumBound) (source_fields target_fields : list Ty) :
    Fallible (list (Ty * Ty)) :=
  match source_fields with
  | [] => Val []
  | source :: source_fields =>
      target ← (match target_fields with target :: _ => Val target | [] => Panic PIndex end);
      uneq ← uneq_field bs impl source target;
      rest ← uneq_fields bs impl source_fields (tail target_fields);
      Val (if uneq : bool then (source, target) :: rest else rest)
  end.

Definition coerce_struct (bs : VariableKinds) (impl : ImplDatumBound) (source_id target_id : AdtId)
    (subst_a subst_b : Substitution) : Fallible bool :=
  let adt_datum := db.(adt_datum) source_id in
  if decide (source_id ≠ target_id ∨ adt_datum.(adt_kind) ≠ Struct) then Val false
  else
    variant ← unwrap (last adt_datum.(adt_binders).(value).(variants));
    let fields := mkBinders adt_datum.(adt_binders).(binders) variant.(fields) in
    source_fields ← substitute fields subst_a;
    target_fields ← substitute fields subst_b;
    uneq ← uneq_fields bs impl source_fields target_fields;
    match uneq with
    | [(source, target)] =>
        coerce_unsized_goal ← place_in_environment bs impl
          (cast (mkTraitRef impl.(impl_trait_ref).(trait_id) [ArgTy source; ArgTy target]));
        is_legal coerce_unsized_goal
    | _ => Val false
    end.

Definition coerce_unsized_impl_constraint (impl_datum : ImplDatum) : Fallible bool :=
  let 'mkBinders bs impl := impl_datum.(impl_binders) in
  let substitution := impl.(impl_trait_ref).(substitution) in
  source ← self_type_parameter substitution;
  target ← (match substitution !! 1 with Some p => assert_ty_ref p | None => Panic PIndex end);
  match source, target with
  | TyRef s_m _ source, TyRef t_m _ target
  | TyRef s_m _ source, TyRaw t_m target
  | TyRaw s_m source, TyRaw t_m target => coerce_pointer bs impl s_m t_m source target
  | TyAdt source_id subst_a, TyAdt target_id subst_b =>
      coerce_struct bs impl source_id target_id subst_a subst_b
  | _, _ => Val false
  end.

(** ** The checks *)

Definition legal_or (error : WfError) (m : Fallible bool) : outcome WfError unit :=
  is_legal ← unwrap_result m;
  if is_legal : bool then Val tt else Exn error.

Definition verify_adt_decl (adt_id : AdtId) : outcome WfError unit :=
  legal_or (IllFormedTypeDecl adt_id) (verify_adt_goal adt_id ≫= is_legal).

Definition verify_well_known_impl (impl_id : ImplId) (well_known : WellKnownTrait) : outcome WfError unit :=
  let impl_datum := db.(impl_datum) impl_id in
  legal_or (IllFormedTraitImpl (impl_trait_id impl_datum))
    match well_known with
    | WkCopy => copy_impl_constraint impl_datum
    | WkDrop => drop_impl_constraint impl_datum
    | WkCoerceUnsized => coerce_unsized_impl_constraint impl_datum
    | WkClone | WkUnpin => Val true
    | WkFn | WkFnOnce | WkFnMut | WkUnsize | WkSized | WkDiscriminantKind | WkGenerator => Val false
    end.

Definition trait_impl_goal (impl_id : ImplId) : Fallible Goal :=
  let impl_datum := db.(impl_datum) impl_id in
  header ← impl_header_wf_goal impl_id;
  assoc_ty_goals ← mapM compute_assoc_ty_goal impl_datum.(associated_ty_value_ids);
  Val (goal_all (option_list header ++ assoc_ty_goals)).

Definition verify_trait_impl (impl_id : ImplId) : outcome WfError unit :=
  let trait_id := impl_trait_id (db.(impl_datum) impl_id) in
  impl_goal ← unwrap_result (trait_impl_goal impl_id);
  _ ← (match (db.(trait_datum) trait_id).(well_known) with
       | Some well_known => verify_well_known_impl impl_id well_known
       | None => Val tt
       end);
  legal_or (IllFormedTraitImpl trait_id) (is_legal impl_goal).

Definition verify_opaque_ty_decl (opaque_ty_id : OpaqueTyId) : outcome WfError unit :=
  legal_or (IllFormedOpaqueTypeDecl opaque_ty_id) (verify_opaque_goal opaque_ty_id ≫= is_legal).
End WfSolver.
