(* ===== verification/Programs.v ===== *)
(** * Sample programs

    Small programs on which the theorems are instantiated: a program is a list of
    declarations per sort, an identifier is a position.  The theorems at the end run the
    solvers on programs whose clauses confuse the variables of the goal with those of
    the generalized goal. *)

From stdpp Require Import base list numbers gmap.
From S2P Require Import Prelude FixedPoint Ir Fold FoldLaws Shift Ena Infer Zip IrCountable RustIr Solve Fulfill RecSolve RecSolveThm Builder Clauses GoalClauses.

Definition plain_flags : TraitFlags := mkTraitFlags false false false false false false.
Definition plain_trait (id : TraitId) (well_known : option WellKnownTrait) : TraitDatum :=
  mkTraitDatum id (mkBinders [VkTy General] (mkTraitDatumBound [])) plain_flags [] well_known.

Definition impls_of (impls : list ImplDatum) (trait_id : TraitId) : list ImplId :=
  omap id (imap (λ i impl, if decide (impl_trait_id impl = trait_id) then Some (N.of_nat i) else None) impls).

Definition program_db (traits : list TraitDatum) (impls : list ImplDatum)
    (assocs : list AssociatedTyDatum) (atvs : list AssociatedTyValue) : RustIrDatabase :=
  let d := sample_db [] in {|
  custom_clauses := [];
  associated_ty_data id := default (d.(associated_ty_data) id) (assocs !! N.to_nat id);
  trait_datum id := default (plain_trait id None) (traits !! N.to_nat id);
  adt_datum := d.(adt_datum);
  generator_datum := d.(generator_datum);
  generator_witness_datum := d.(generator_witness_datum);
  adt_repr := d.(adt_repr);
  fn_def_datum := d.(fn_def_datum);
  impl_datum id := default (d.(impl_datum) id) (impls !! N.to_nat id);
  associated_ty_value id := default (d.(associated_ty_value) id) (atvs !! N.to_nat id);
  opaque_ty_data := d.(opaque_ty_data);
  hidden_opaque_type := d.(hidden_opaque_type);
  impls_for_trait trait_id _ _ := Val (impls_of impls trait_id);
  local_impls_to_coherence_check := impls_of impls;
  impl_provided_for _ _ := Val false;
  well_known_trait_id wk := trait_datum_id <$> head (filter (λ t, t.(well_known) = Some wk) traits);
  RustIr.program_clauses_for_env env := Val env;
  is_object_safe _ := true;
  closure_kind := d.(closure_kind);
  closure_inputs_and_output := d.(closure_inputs_and_output);
  closure_upvars := d.(closure_upvars);
  closure_fn_substitution := d.(closure_fn_substitution);
  unification_database := sample_udb;
  discriminant_type t := t
|}.

(** A goal whose variables have the kinds [ks]. *)
Definition canonical_goal {G} (ks : list VariableKind) (environment : Environment) (goal : G) :
    UCanonical (InEnvironment G) :=
  mkUCanonical (mkCanonical (mkInEnvironment environment goal)
    ((λ k, mkWithKind k universe_root) <$> ks)) 1.

Definition ty_var (i : nat) : Ty := TyBoundVar (mkBoundVar INNERMOST i).
Definition trait_goal (trait_id : TraitId) (args : Substitution) : DomainGoal :=
  DgHolds (WcImplemented (mkTraitRef trait_id args)).

(** The recursive solver on a program, with the clauses of its declarations. *)
Definition solve_program (db : RustIrDatabase) (goal : UCanonicalGoal) : option FallibleSolution :=
  query_answer (recursive_solve (E := UnionFind.t) 30 db id (program_clauses_that_could_match db 30) 30
    goal empty_context).

(** A program with data types, invariant in their parameters. *)
Definition with_adts (adts : list AdtDatum) (d : RustIrDatabase) : RustIrDatabase := {|
  custom_clauses := d.(custom_clauses);
  associated_ty_data := d.(associated_ty_data);
  trait_datum := d.(trait_datum);
  adt_datum id := default (d.(adt_datum) id) (adts !! N.to_nat id);
  generator_datum := d.(generator_datum);
  generator_witness_datum := d.(generator_witness_datum);
  adt_repr := d.(adt_repr);
  fn_def_datum := d.(fn_def_datum);
  impl_datum := d.(impl_datum);
  associated_ty_value := d.(associated_ty_value);
  opaque_ty_data := d.(opaque_ty_data);
  hidden_opaque_type := d.(hidden_opaque_type);
  impls_for_trait := d.(impls_for_trait);
  local_impls_to_coherence_check := d.(local_impls_to_coherence_check);
  impl_provided_for := d.(impl_provided_for);
  well_known_trait_id := d.(well_known_trait_id);
  RustIr.program_clauses_for_env := d.(RustIr.program_clauses_for_env);
  is_object_safe := d.(is_object_safe);
  closure_kind := d.(closure_kind);
  closure_inputs_and_output := d.(closure_inputs_and_output);
  closure_upvars := d.(closure_upvars);
  closure_fn_substitution := d.(closure_fn_substitution);
  unification_database := {|
    fn_def_variance := fn_def_variance d.(unification_database);
    adt_variance id := match adts !! N.to_nat id with
                       | Some adt => replicate (length adt.(adt_binders).(binders)) Invariant
                       | None => []
                       end;
    db_const_eq := db_const_eq d.(unification_database)
  |};
  discriminant_type := d.(discriminant_type)
|}.

(** * Clauses that confuse variables *)

(** [#[lang(copy)] trait Copy], and a trait [Foo]. *)
Definition copy_db : RustIrDatabase := program_db [plain_trait 0 (Some WkCopy); plain_trait 1 None] [] [] [].

(** [if (?I: Foo) { ?T: Copy }] with an integer variable [?I] and a type variable
    [?T]: the goal, in which only [?T] occurs, is generalized with [?T] as its first
    variable. *)
Definition copy_in_env : UCanonicalGoal :=
  canonical_goal [VkTy Integer; VkTy General]
    [fact (trait_goal 1 [ArgTy (TyBoundVar (mkBoundVar ONE 0))])]
    (GDomainGoal (trait_goal 0 [ArgTy (ty_var 1)])).

(** The built-in clauses of [Copy] look up the kind of a generalized variable
    among the variables of the goal.  In an environment that mentions an integer
    variable first, a general type variable is taken for an integer: the solver
    answers that every type is [Copy] (a unique solution that constrains nothing),
    although a data type is not, and although without the environment the goal is
    ambiguous. *)
Theorem generalized_kind_confusion :
  solve_program copy_db copy_in_env =
    Some (Some (Unique (mkCanonical (mkConstrainedSubst [ArgTy (ty_var 0); ArgTy (ty_var 1)] [])
                          copy_in_env.(canonical).(cbinders)))) ∧
  solve_program copy_db (canonical_goal [] [] (GDomainGoal (trait_goal 0 [ArgTy (TyAdt 0 [])]))) = Some None ∧
  solve_program copy_db (canonical_goal [VkTy General] [] (GDomainGoal (trait_goal 0 [ArgTy (ty_var 0)]))) =
    Some (Some (Ambig Unknown)).
Proof. split_and!; vm_compute; reflexivity. Qed.

(** [trait Foo<T>] and the type [dyn Foo<T>]. *)
Definition foo_trait : TraitDatum :=
  mkTraitDatum 0 (mkBinders [VkTy General; VkTy General] (mkTraitDatumBound [])) plain_flags [] None.
Definition dyn_foo (t : Ty) : Ty :=
  TyDyn (mkBinders [VkTy General]
    [mkBinders [] (WcImplemented (mkTraitRef 0 [ArgTy (TyBoundVar (mkBoundVar 1 0)); ArgTy t]))]) LtStatic.
Definition dyn_db : RustIrDatabase := program_db [foo_trait] [] [] [].

(** [?B: Foo<?A>] is assumed, and [dyn Foo<?B>: Foo<?B>] is the goal: [?B] is the second
    variable. *)
Definition dyn_goal : UCanonicalGoal :=
  canonical_goal [VkTy General; VkTy General]
    [fact (trait_goal 0 [ArgTy (TyBoundVar (mkBoundVar ONE 0)); ArgTy (TyBoundVar (mkBoundVar ONE 1))])]
    (GDomainGoal (trait_goal 0 [ArgTy (dyn_foo (TyBoundVar (mkBoundVar 2 1))); ArgTy (ty_var 1)])).
(** The variables of a clause are those of its binder. *)
Definition clause_scoped (c : ProgramClause) : bool :=
  let b := clause_data c in
  forallb (λ l, match l with
    | LeafTyVar bv d | LeafLtVar bv d | LeafCtVar _ bv d =>
        (S bv.(debruijn) <? d) || (S bv.(debruijn) =? d) && (bv.(index) <? length b.(binders))
    | _ => true
    end) (leaves_clause c INNERMOST).

Definition panic_of {E A} (r : outcome E A) : option panic :=
  match r with Panic p => Some p | _ => None end.

(** The clause that a [dyn] type gives for its own trait keeps the self type as
    it is in the goal, while its bounds are generalized.  When the type mentions a
    variable that is not the first one of the goal, the clause has a variable that it
    does not bind, and a solver that resolves the goal with it panics. *)
Theorem dyn_self_type_not_generalized :
  (map clause_scoped <$> program_clauses_that_could_match dyn_db 30
     (canonical_goal [VkTy General; VkTy General] [] (trait_goal 0
        [ArgTy (dyn_foo (TyBoundVar (mkBoundVar 2 1))); ArgTy (ty_var 1)]))) =
    Val [false; true; true; true] ∧
  panic_of (recursive_solve (E := UnionFind.t) 30 dyn_db id (program_clauses_that_could_match dyn_db 30) 30
    dyn_goal empty_context) = Some PIndex.
Proof. split; vm_compute; reflexivity. Qed.

(** A trait with a generic associated type, [trait Tr { type Item<K>; }]. *)
Definition gat_db (k : VariableKind) : RustIrDatabase :=
  program_db [mkTraitDatum 0 (mkBinders [VkTy General] (mkTraitDatumBound [])) plain_flags [0%N] None] []
    [mkAssociatedTyDatum 0 0 "Item" (mkBinders [k; VkTy General] (mkAssociatedTyDatumBound [] []))] [].
(** [<<u32 as Tr>::Item<p> as Tr>::Item<p> = u32]. *)
Definition gat_goal (p : GenericArg) : UCanonicalDomainGoal :=
  canonical_goal [] [] (DgHolds (WcAliasEq
    (AliasProjection 0 [p; ArgTy (TyAlias (AliasProjection 0 [p; ArgTy ty_u32]))]) ty_u32)).

(** The parameters of a generic associated type come before those of its trait,
    but [push_alias_alias_eq_clause] and [ProjectionTy::self_type_parameter] look for
    the self type among the first ones.  A projection of a projection makes the
    selection of clauses panic when the associated type has a type parameter; when it
    has a lifetime parameter, the clause asks for the projection with a type in the
    place of the lifetime. *)
Theorem projection_of_projection_confuses_self :
  program_clauses_that_could_match (gat_db (VkTy General)) 30 (gat_goal (ArgTy ty_u32)) = Panic PAssert ∧
  (map (λ c, head (clause_data c).(value).(conditions)) <$>
     program_clauses_that_could_match (gat_db VkLifetime) 30 (gat_goal (ArgLifetime LtStatic))) =
    Val [Some (GDomainGoal (DgHolds (WcAliasEq
      (AliasProjection 0 [ArgTy (ty_var 0); ArgTy (TyAlias (AliasProjection 0 [ArgLifetime LtStatic; ArgTy ty_u32]))])
      ty_u32)))].
Proof. split; vm_compute; reflexivity. Qed.

(** [Generalize] does not rename the constants of a goal.  The built-in clauses of
    an array whose length is a variable cannot be pushed: the substitution of the
    renamed variables has no entry for it. *)
Theorem const_variables_not_generalized :
  program_clauses_that_could_match copy_db 30
    (canonical_goal [VkConst usize_ty] [] (trait_goal 0
       [ArgTy (TyArray ty_u32 (mkConst usize_ty (CvBoundVar (mkBoundVar INNERMOST 0))))])) = Panic PIndex.
Proof. vm_compute. reflexivity. Qed.
