(* ===== verification/Scoped.v ===== *)
(** * Scopes and kinds of variables

    A term is in scope when each of its variables refers to a binder around it and
    has the kind that the binder gives it.  Substituting parameters of the right
    kinds keeps terms in scope and never panics. *)

From stdpp Require Import base list numbers.
From S2P Require Import Prelude Ir Fold FoldLaws Shift ShiftThm RustIr RecSolve Builder.

(** ** Leaves in scope *)

(** The binders around a term, the innermost first. *)
Abbreviation Scope := (list (list VariableKind)).

(** The types of constants are scalars: they mention no variable. *)
Definition ground_ty (ty : Ty) : bool :=
  match ty with TyScalar _ | TyStr | TyNever | TyForeign _ | TyError => true | _ => false end.
Definition is_ty_kind (k : VariableKind) : bool := match k with VkTy _ => true | _ => false end.
Definition is_lifetime_kind (k : VariableKind) : bool := match k with VkLifetime => true | _ => false end.
Definition is_const_kind (k : VariableKind) : bool := match k with VkConst _ => true | _ => false end.
Definition ground_kind (k : VariableKind) : bool := match k with VkConst ty => ground_ty ty | _ => true end.

(** The variable [bv], met at depth [d] in a term at depth [n], is bound inside the term
    or by one of the binders of [ctx]; those of index below [n] are between. *)
Definition var_ok (n : nat) (ctx : Scope) (ok : VariableKind → bool) (bv : BoundVar) (d : nat) : bool :=
  (n <=? d) &&
  ((bv.(debruijn) + n <? d) ||
   match ctx !! (bv.(debruijn) + n - d) with
   | Some ks => match ks !! bv.(index) with Some k => ok k | None => false end
   | None => false
   end).

Definition leaf_ok (n : nat) (ctx : Scope) (l : Leaf) : bool :=
  match l with
  | LeafTyVar bv d => var_ok n ctx is_ty_kind bv d
  | LeafLtVar bv d => var_ok n ctx is_lifetime_kind bv d
  | LeafCtVar ty bv d => ground_ty ty && var_ok n ctx is_const_kind bv d
  | LeafCtInfer ty _ | LeafCtPlaceholder ty _ => ground_ty ty
  | _ => true
  end.
Abbreviation leaves_ok n ctx ls := (forallb (leaf_ok n ctx) ls).

Lemma leaves_ok_Forall n ctx ls : leaves_ok n ctx ls = true ↔ Forall (λ l, leaf_ok n ctx l = true) ls.
Proof.
  rewrite forallb_forall, Forall_forall. by setoid_rewrite list_elem_of_In.
Qed.

Lemma ground_leaves ty d : ground_ty ty = true → leaves_ty ty d = [].
Proof. by destruct ty. Qed.
Lemma ground_const ty : ground_ty ty = true → const_ground ty.
Proof. intros ? d. by apply ground_leaves. Qed.

(** [ctx'] gives all the variables of [ctx] the same kinds. *)
Definition scope_le (ctx ctx' : Scope) : Prop :=
  ∀ i ks, ctx !! i = Some ks → ∃ ks', ctx' !! i = Some ks' ∧ ks `prefix_of` ks'.

#[global] Instance scope_le_refl : Reflexive scope_le.
Proof. intros ctx i ks. by exists ks. Qed.

Lemma scope_le_app ks ks' ctx : scope_le (ks :: ctx) ((ks ++ ks') :: ctx).
Proof. intros [|i] k Hk; simplify_eq/=; eexists; split; [done|by eexists|done|done]. Qed.

Lemma var_ok_spec n ctx ok bv d :
  var_ok n ctx ok bv d = true ↔
  n ≤ d ∧ (bv.(debruijn) + n < d ∨
    ∃ ks k, ctx !! (bv.(debruijn) + n - d) = Some ks ∧ ks !! bv.(index) = Some k ∧ ok k = true).
Proof.
  unfold var_ok. rewrite andb_true_iff, orb_true_iff, Nat.leb_le, Nat.ltb_lt.
  destruct (ctx !! _) as [ks|] eqn:Hc; [destruct (ks !! _) as [k|] eqn:Hk|]; naive_solver.
Qed.

Lemma var_ok_le n ctx ctx' ok bv d : scope_le ctx ctx' → var_ok n ctx ok bv d = true → var_ok n ctx' ok bv d = true.
Proof.
  intros Hle. rewrite !var_ok_spec. intros [? [?|(ks & k & Hks & Hk & ?)]]; split; [done|by left|done|].
  right. destruct (Hle _ _ Hks) as (ks' & ? & Hp). exists ks', k. split_and!; [done| |done].
  by eapply prefix_lookup_Some.
Qed.

Lemma leaves_ok_le n ctx ctx' ls : scope_le ctx ctx' → leaves_ok n ctx ls = true → leaves_ok n ctx' ls = true.
Proof.
  intros Hle. rewrite !leaves_ok_Forall. intros HF. eapply Forall_impl; [exact HF|].
  intros []; simpl; rewrite ?andb_true_iff; try done;
    try (by apply var_ok_le). intros [? ?]. split; [done|]. by eapply var_ok_le.
Qed.

Lemma scope_le_cons ks ctx ctx' : scope_le ctx ctx' → scope_le (ks :: ctx) (ks :: ctx').
Proof. intros Hle [|i] k; simpl; [intros [= <-]; by exists ks|apply Hle]. Qed.

(** Leaving a binder. *)
Lemma var_ok_out n ks ctx ok bv d : var_ok (S n) (ks :: ctx) ok bv d = true → var_ok n ctx ok bv d = true.
Proof.
  rewrite !var_ok_spec. intros [? [?|(ks' & k & Hks & Hk & ?)]]; (split; [lia|]); [left; lia|].
  destruct (decide (bv.(debruijn) + S n = d)) as [|Hd]; [left; lia|].
  destruct (decide (bv.(debruijn) + S n < d)); [left; lia|]. right. exists ks', k.
  split_and!; [|done..]. replace (bv.(debruijn) + S n - d) with (S (bv.(debruijn) + n - d)) in Hks by lia.
  exact Hks.
Qed.

Lemma leaf_ok_out n ks ctx l : leaf_ok (S n) (ks :: ctx) l = true → leaf_ok n ctx l = true.
Proof.
  destruct l; simpl; rewrite ?andb_true_iff; try done; try apply var_ok_out.
  intros [? ?]. split; [done|]. by eapply var_ok_out.
Qed.

(** A term that is moved below [m] binders. *)
Lemma var_ok_shift n inner ctx ok bv d m :
  length inner = n → n ≤ m → var_ok 0 ctx ok bv d = true →
  (bv.(debruijn) < d → var_ok n (inner ++ ctx) ok bv (m + d) = true) ∧
  (d ≤ bv.(debruijn) → var_ok n (inner ++ ctx) ok (shifted_in_from bv m) (m + d) = true).
Proof.
  intros Hn Hm. rewrite !var_ok_spec. unfold shifted_in_from, debruijn_shifted_in_from; simpl.
  intros [_ Hv]. split; intros Hd; (split; [lia|]); [left; lia|].
  destruct Hv as [|(ks & k & Hks & ? & ?)]; [lia|]. right. exists ks, k. split_and!; [|done..].
  rewrite lookup_app_r by lia. rewrite <- Hks. f_equal. lia.
Qed.

Section ShiftScoped.
Context {T : Type} `{FoldLaws T}.
Implicit Types x : T.

Lemma shift_scoped n inner ctx m x :
  length inner = n → n ≤ m → leaves_ok 0 ctx (leaves_of x 0) = true →
  ∃ y, fold_with (Shifter m) x 0 = Val y ∧ leaves_ok n (inner ++ ctx) (leaves_of y m) = true.
Proof.
  intros <- Hm Hx%leaves_ok_Forall. destruct (shifter_total x m 0) as (y & Hy). exists y. split; [done|].
  apply leaves_ok_Forall. rewrite <- (Nat.add_0_r m).
  apply (lift_leaves m (λ l, leaf_ok (length inner) (inner ++ ctx) l = true) 0 x y). revert Hy.
  apply (fold_partial (Shifter m) _ (leaf_family_cong _ _) (λ l, leaf_ok 0 ctx l = true)); [..|exact Hx].
  - intros l d l' Hl Hv; destruct l; try apply Forall_inv in Hl; leaf_eq; try (by constructor);
      constructor; try done; simpl in Hl.
    + rewrite down_up by done. by apply (var_ok_shift (length inner) inner ctx _ _ d).
    + by apply (var_ok_shift (length inner) inner ctx _ _ d).
  - intros [] d t' Ht Hv Hv'; try done; apply Forall_inv in Ht; leaf_eq; try (by constructor);
      constructor; try done; simpl in Ht.
    + rewrite down_up by done. by apply (var_ok_shift (length inner) inner ctx _ _ d).
    + by apply (var_ok_shift (length inner) inner ctx _ _ d).
  - intros t0 [] d c' Hc IH Hv Hc'; try done; apply Forall_inv in Hc; simpl in Hc;
      try (apply andb_true_iff in Hc as [Hc Hb]);
      pose proof (ground_const _ Hc) as Hg;
      pose proof (fold_ground (Shifter m) t0 d (Shifter_var_only m) Hg) as Hf;
      leaf_eq; rewrite ?Hf in *; simplify_eq; rewrite ?Hg; simpl; constructor; try done; simpl; rewrite Hc; simpl.
    + rewrite down_up by done. by apply (var_ok_shift (length inner) inner ctx _ _ d).
    + by apply (var_ok_shift (length inner) inner ctx _ _ d).
Qed.
End ShiftScoped.

(** ** Parameters *)

Definition arg_kind_ok (k : VariableKind) (a : GenericArg) : bool :=
  match k, a with
  | VkTy _, ArgTy _ | VkLifetime, ArgLifetime _ | VkConst _, ArgConst _ => true
  | _, _ => false
  end.
(** The parameters have the kinds [ks] and are in scope. *)
Definition params_ok (ctx : Scope) (ks : list VariableKind) (ps : Substitution) : Prop :=
  Forall2 (λ k a, arg_kind_ok k a = true ∧ leaves_ok 0 ctx (leaves_arg a 0) = true) ks ps.

Lemma params_ok_lookup ctx ks ps i k :
  params_ok ctx ks ps → ks !! i = Some k →
  ∃ p, ps !! i = Some p ∧ arg_kind_ok k p = true ∧ leaves_ok 0 ctx (leaves_arg p 0) = true.
Proof. intros Hps Hk. by destruct (Forall2_lookup_l _ _ _ _ _ Hps Hk) as (p & ? & ? & ?); exists p. Qed.

Section SubstScoped.
Context (inner : Scope) (ks : list VariableKind) (ctx ctx' : Scope) (ps : Substitution).
Context (Hps : params_ok ctx' ks ps) (Hle : scope_le ctx ctx').
Abbreviation n := (length inner).

(** A variable bound inside the term stays as it is. *)
Lemma var_ok_inside ok bv d :
  bv.(debruijn) < d → var_ok n (inner ++ ks :: ctx) ok bv d = true → var_ok n (inner ++ ctx') ok bv d = true.
Proof.
  intros Hd. rewrite !var_ok_spec. intros [? [?|(ks' & k & Hks & ? & ?)]]; (split; [done|]); [by left|].
  destruct (decide (bv.(debruijn) + n < d)); [by left|]. right. exists ks', k. split_and!; [|done..].
  rewrite lookup_app_l in Hks by lia. by rewrite lookup_app_l by lia.
Qed.

Lemma Subst_free_var_ok {A} `{FoldLaws A} sel (var : BoundVar → A) (inj : A → GenericArg) ok bv d :
  (∀ k p, ok k = true → arg_kind_ok k p = true → ∃ a, p = inj a) →
  (∀ a, sel (inj a) = Val a) →
  (∀ a, leaves_arg (inj a) 0 = leaves_of a 0) →
  (∀ bv', var_ok n (inner ++ ctx') ok bv' d = true → leaves_ok n (inner ++ ctx') (leaves_of (var bv') d) = true) →
  d ≤ bv.(debruijn) → var_ok n (inner ++ ks :: ctx) ok bv d = true →
  ∃ a, Subst_free_var ps sel var (mkBoundVar (bv.(debruijn) - d) bv.(index)) d = Val a ∧
    leaves_ok n (inner ++ ctx') (leaves_of a d) = true.
Proof.
  intros Hinj Hsel Hlv Hvar Hd Hv. apply var_ok_spec in Hv as [Hn [|(ks' & k & Hks & Hk & Hok)]]; [lia|].
  rewrite lookup_app_r in Hks by lia. replace (bv.(debruijn) + n - d - n) with (bv.(debruijn) - d) in Hks by lia.
  unfold Subst_free_var, index_if_innermost, index_if_bound_at, INNERMOST. cbn [debruijn index].
  case_decide as Hb.
  - rewrite Hb in Hks. injection Hks as <-.
    destruct (params_ok_lookup _ _ _ _ _ Hps Hk) as (p & Hp & Ha & Hl). unfold param_at. rewrite Hp. simpl.
    destruct (Hinj k p Hok Ha) as [a ->]. rewrite Hsel. simpl. rewrite Hlv in Hl.
    destruct (shift_scoped n inner ctx' d a) as (y & Hy & ?); [done..|]. exists y. split; [|done].
    by apply unwrap_result_Val.
  - rewrite shifted_out_eq. cbn [debruijn]. rewrite decide_False by done. eexists. split; [done|].
    apply Hvar, var_ok_spec. unfold shifted_in_from, debruijn_shifted_in_from. simpl. split; [done|]. right.
    destruct (bv.(debruijn) - d) as [|j] eqn:Hj; [done|]. simpl in Hks.
    destruct (Hle _ _ Hks) as (ks2 & Hks2 & Hpre). exists ks2, k. split_and!; [| |done].
    + rewrite lookup_app_r by lia. rewrite <- Hks2. f_equal. lia.
    + by eapply prefix_lookup_Some.
Qed.

Lemma subst_scoped {T} `{FoldLaws T} (x : T) :
  leaves_ok n (inner ++ ks :: ctx) (leaves_of x n) = true →
  ∃ y, fold_with (Subst ps) x n = Val y ∧ leaves_ok n (inner ++ ctx') (leaves_of y n) = true.
Proof.
  intros Hx%leaves_ok_Forall.
  destruct (fold_total (T := T) (Subst ps) (leaf_family 0 (λ l, leaf_ok n (inner ++ ctx') l = true))
    (leaf_family_cong _ _) (λ l, leaf_ok n (inner ++ ks :: ctx) l = true)) with (x := x) (d := n)
    as (y & Hy & Hl); [..|exact Hx|].
  - intros [bv| | | | |] d Hl; try (eexists; split; [done|]; simpl; repeat constructor; done).
    apply Forall_inv in Hl. simpl in Hl.
    unfold fold_lifetime. simpl. unfold default_fold_lifetime. simpl.
    destruct (shifted_out_to bv d) as [bv1|] eqn:Hs.
    + apply shifted_out_to_Some in Hs as [? ->].
      edestruct (Subst_free_var_ok arg_lifetime_or_panic LtBoundVar ArgLifetime is_lifetime_kind bv d)
        as (a & Ha & Hla); [by intros [] []; simpl; eauto|done|done| |done|done|].
      * intros bv' Hbv'. simpl. by rewrite Hbv'.
      * exists a. split; [exact Ha|]. by apply leaves_ok_Forall.
    + apply shifted_out_to_None in Hs. eexists. split; [done|]. simpl. repeat constructor.
      by apply var_ok_inside.
  - intros [] d Hl Hv; try done; try (eexists; split; [done|]; simpl; repeat constructor; done).
    apply Forall_inv in Hl. simpl in Hl. simpl.
    destruct (shifted_out_to bv d) as [bv1|] eqn:Hs.
    + apply shifted_out_to_Some in Hs as [? ->].
      edestruct (Subst_free_var_ok arg_ty_or_panic TyBoundVar ArgTy is_ty_kind bv d)
        as (a & Ha & Hla); [by intros [] []; simpl; eauto|done|done| |done|done|].
      * intros bv' Hbv'. simpl. by rewrite Hbv'.
      * exists a. split; [exact Ha|]. by apply leaves_ok_Forall.
    + apply shifted_out_to_None in Hs. eexists. split; [done|]. simpl. repeat constructor.
      by apply var_ok_inside.
  - intros t [bv|v|p|c] d Hl _ Hv; try done; apply Forall_inv in Hl; simpl in Hl;
      pose proof Hl as Hg; try (apply andb_true_iff in Hg as [Hg Hb]).
    + change (fold_const (Subst ps) (mkConst t (CvBoundVar bv)) d) with
        (match shifted_out_to bv d with
         | Some bv1 => Subst_free_var ps arg_const_or_panic (λ bv, mkConst t (CvBoundVar bv)) bv1 d
         | None => Val (mkConst t (CvBoundVar bv))
         end : Fallible Const).
      destruct (shifted_out_to bv d) as [bv1|] eqn:Hs.
      * apply shifted_out_to_Some in Hs as [? ->].
        edestruct (Subst_free_var_ok arg_const_or_panic (λ bv, mkConst t (CvBoundVar bv)) ArgConst is_const_kind bv d)
          as (a & Ha & Hla); [by intros [] []; simpl; eauto|done|done| |done|done|].
        -- intros bv' Hbv'. simpl. rewrite ground_leaves by done. simpl. by rewrite Hg, Hbv'.
        -- exists a. split; [exact Ha|]. by apply leaves_ok_Forall.
      * apply shifted_out_to_None in Hs. eexists. split; [done|]. simpl. rewrite ground_leaves by done.
        repeat constructor. simpl. rewrite Hg. by apply var_ok_inside.
    + change (fold_const (Subst ps) (mkConst t (CvInferenceVar v)) d) with
        (ty ← fold_ty (Subst ps) t d; mret (mkConst ty (CvInferenceVar v)) : Fallible Const).
      rewrite (fold_ground (Subst ps) t d (Subst_var_only ps) (ground_const _ Hg)).
      eexists. split; [done|]. simpl. rewrite ground_leaves by done. by repeat constructor.
    + change (fold_const (Subst ps) (mkConst t (CvPlaceholder p)) d) with
        (ty ← fold_ty (Subst ps) t d; mret (mkConst ty (CvPlaceholder p)) : Fallible Const).
      rewrite (fold_ground (Subst ps) t d (Subst_var_only ps) (ground_const _ Hg)).
      eexists. split; [done|]. simpl. rewrite ground_leaves by done. by repeat constructor.
  - exists y. split; [done|]. apply leaves_ok_Forall. by apply (lift_leaves 0) in Hl.
Qed.
End SubstScoped.

(** ** Leaves at other depths *)

Definition bump (n : nat) (l : Leaf) : Leaf :=
  match l with
  | LeafTyVar bv d => LeafTyVar bv (n + d)
  | LeafLtVar bv d => LeafLtVar bv (n + d)
  | LeafCtVar ty bv d => LeafCtVar ty bv (n + d)
  | l => l
  end.

Lemma leaves_ok_bump n ctx ls : leaves_ok n ctx (bump n <$> ls) = leaves_ok 0 ctx ls.
Proof.
  induction ls as [|l ls IH]; [done|]. rewrite fmap_cons. cbn [forallb]. rewrite IH. f_equal.
  assert (∀ ok bv d, var_ok n ctx ok bv (n + d) = var_ok 0 ctx ok bv d) as Hv.
  { intros. apply eq_true_iff_eq. rewrite !var_ok_spec.
    replace (bv.(debruijn) + n - (n + d)) with (bv.(debruijn) + 0 - d) by lia.
    split; intros [? [?|?]]; (split; [lia|]);
      solve [left; lia|right; done]. }
  destruct l; simpl; by rewrite ?Hv.
Qed.

Section Bump.
Context (n : nat).

Lemma bump_lifetime l d : leaves_lifetime l (n + d) = bump n <$> leaves_lifetime l d.
Proof. by destruct l. Qed.
Lemma bump_const_value t v d : leaves_const_value t v (n + d) = bump n <$> leaves_const_value t v d.
Proof. by destruct v. Qed.

Lemma bump_bind {A} (f : A → nat → list Leaf) l d :
  Forall (λ x, ∀ d, f x (n + d) = bump n <$> f x d) l →
  (l ≫= λ x, f x (n + d)) = bump n <$> (l ≫= λ x, f x d).
Proof.
  induction 1 as [|x l Hx Hl IH]; [done|]. rewrite !bind_cons, fmap_app, Hx. by f_equal.
Qed.

Lemma bump_terms :
  (∀ t d, leaves_ty t (n + d) = bump n <$> leaves_ty t d) ∧
  (∀ c d, leaves_const c (n + d) = bump n <$> leaves_const c d) ∧
  (∀ a d, leaves_arg a (n + d) = bump n <$> leaves_arg a d) ∧
  (∀ a d, leaves_alias a (n + d) = bump n <$> leaves_alias a d) ∧
  (∀ w d, leaves_where w (n + d) = bump n <$> leaves_where w d).
Proof.
  apply (term_ind (λ t, ∀ d, leaves_ty t (n + d) = bump n <$> leaves_ty t d)
    (λ c, ∀ d, leaves_const c (n + d) = bump n <$> leaves_const c d)
    (λ a, ∀ d, leaves_arg a (n + d) = bump n <$> leaves_arg a d)
    (λ a, ∀ d, leaves_alias a (n + d) = bump n <$> leaves_alias a d)
    (λ w, ∀ d, leaves_where w (n + d) = bump n <$> leaves_where w d)).
  split; intros; simpl; rewrite <- ?Nat.add_succ_r, ?fmap_app, ?bump_lifetime, ?bump_const_value;
    try done; try (by apply (bump_bind leaves_arg)); try (by f_equal; auto); try (by auto).
  - f_equal. by apply (bump_bind (λ (b : QuantifiedWhereClause) d, leaves_where b.(value) d)).
Qed.

Lemma bump_subst (s : Substitution) d :
  (s ≫= λ a, leaves_arg a (n + d)) = bump n <$> (s ≫= λ a, leaves_arg a d).
Proof. apply (bump_bind leaves_arg), Forall_true. apply bump_terms. Qed.

Lemma bump_domain_goal dg d : leaves_domain_goal dg (n + d) = bump n <$> leaves_domain_goal dg d.
Proof.
  destruct bump_terms as (Ht & _ & _ & Ha & Hw).
  destruct dg as [|[]|[]| | | | | | | | |]; simpl; rewrite ?fmap_app; auto using bump_subst. by rewrite Ha, Ht.
Qed.

Lemma bump_constraint c d : leaves_constraint c (n + d) = bump n <$> leaves_constraint c d.
Proof.
  destruct bump_terms as (Ht & _). destruct c; simpl; rewrite fmap_app, ?bump_lifetime; [done|]. by rewrite Ht.
Qed.

Lemma bump_goals :
  (∀ g d, leaves_goal g (n + d) = bump n <$> leaves_goal g d) ∧
  (∀ c d, leaves_clause c (n + d) = bump n <$> leaves_clause c d).
Proof.
  destruct bump_terms as (Ht & _ & Ha & _).
  apply (goal_ind (λ g, ∀ d, leaves_goal g (n + d) = bump n <$> leaves_goal g d)
    (λ c, ∀ d, leaves_clause c (n + d) = bump n <$> leaves_clause c d)).
  split; intros; simpl; rewrite <- ?Nat.add_succ_r, ?fmap_app, ?Ha, ?Ht, ?bump_domain_goal; try done;
    try (by apply (bump_bind leaves_goal)); try (by auto).
  - f_equal; [by apply (bump_bind leaves_clause)|auto].
  - f_equal. f_equal; [by apply (bump_bind leaves_goal)|].
    apply (bump_bind (λ (e : InEnvironment Constraint) d,
      (e.(environment) ≫= λ c, leaves_clause c d) ++ leaves_constraint e.(env_goal) d)).
    eapply Forall_impl; [eassumption|]. intros e He d'. rewrite fmap_app, bump_constraint. f_equal.
    by apply (bump_bind leaves_clause).
Qed.
End Bump.

(** ** The interface: terms with scopes *)

(** [scoped ctx x]: [x] is in the scope [ctx]; substituting the parameters of a binder
    keeps the rest of the scope. *)
Class Scoped (T : Type) `{Fold T} := {
  scopedb : Scope → T → bool;
  scoped_subst inner ks ctx ctx' ps x :
    params_ok ctx' ks ps → scope_le ctx ctx' → scopedb (inner ++ ks :: ctx) x = true →
    ∃ y, fold_with (Subst ps) x (length inner) = Val y ∧ scopedb (inner ++ ctx') y = true;
  scoped_le ctx ctx' x : scope_le ctx ctx' → scopedb ctx x = true → scopedb ctx' x = true
}.
#[global] Hint Mode Scoped ! - : typeclass_instances.
Abbreviation scoped ctx x := (scopedb ctx x = true).

(** Terms whose scope is that of their leaves. *)
Lemma subst_scoped_leaves {T} `{FoldLaws T} inner ks ctx ctx' ps (x : T) :
  (∀ n (x : T), leaves_of x n = bump n <$> leaves_of x 0) →
  params_ok ctx' ks ps → scope_le ctx ctx' → leaves_ok 0 (inner ++ ks :: ctx) (leaves_of x 0) = true →
  ∃ y, fold_with (Subst ps) x (length inner) = Val y ∧ leaves_ok 0 (inner ++ ctx') (leaves_of y 0) = true.
Proof.
  intros Hb Hps Hle Hx.
  destruct (subst_scoped inner ks ctx ctx' ps Hps Hle x) as (y & Hy & Hl); [by rewrite Hb, leaves_ok_bump|].
  exists y. split; [done|]. by rewrite Hb, leaves_ok_bump in Hl.
Qed.

#[local] Ltac by_leaves bump_lemma :=
  refine {| scopedb ctx x := leaves_ok 0 ctx (leaves_of x 0) |};
  [ intros *; apply subst_scoped_leaves; intros n' x'; rewrite <- (Nat.add_0_r n') at 1; apply bump_lemma
  | intros ctx ctx' x; apply leaves_ok_le ].
#[global] Instance Scoped_Ty : Scoped Ty. Proof. by_leaves bump_terms. Defined.
#[global] Instance Scoped_GenericArg : Scoped GenericArg. Proof. by_leaves bump_terms. Defined.
#[global] Instance Scoped_TraitRef : Scoped TraitRef. Proof. by_leaves bump_subst. Defined.
#[global] Instance Scoped_WhereClause : Scoped WhereClause. Proof. by_leaves bump_terms. Defined.
#[global] Instance Scoped_DomainGoal : Scoped DomainGoal. Proof. by_leaves bump_domain_goal. Defined.
#[global] Instance Scoped_Goal : Scoped Goal. Proof. by_leaves bump_goals. Defined.

Definition kinds_ok (ks : list VariableKind) : bool := forallb ground_kind ks.

#[global, program] Instance Scoped_Binders {T} `{Scoped T} : Scoped (Binders T) :=
  {| scopedb ctx b := kinds_ok b.(binders) && scopedb (b.(binders) :: ctx) b.(value) |}.
Next Obligation.
  intros T ? ? inner ks ctx ctx' ps [bs x] Hps Hle [Hk Hx]%andb_true_iff. simpl in *.
  destruct (scoped_subst (bs :: inner) ks ctx ctx' ps x Hps Hle Hx) as (y & Hy & ?). exists (mkBinders bs y).
  unfold fold_with, Fold_Binders, fold_binders. simpl in *. rewrite debruijn_shifted_in_S. rewrite Hy. simpl.
  split; [done|]. by rewrite Hk.
Qed.
Next Obligation.
  intros T ? ? ctx ctx' [bs x] Hle. rewrite !andb_true_iff. intros [? ?]. split; [done|].
  eapply scoped_le; [|done]. by apply scope_le_cons.
Qed.

#[global, program] Instance Scoped_list {T} `{Scoped T} : Scoped (list T) :=
  {| scopedb ctx l := forallb (scopedb ctx) l |}.
Next Obligation.
  intros T ? ? inner ks ctx ctx' ps l Hps Hle. unfold fold_with, Fold_list.
  induction l as [|x l IH]; simpl; [by eexists|]. intros [Hx Hl]%andb_true_iff.
  destruct (scoped_subst inner ks ctx ctx' ps x Hps Hle Hx) as (y & -> & Hy).
  destruct (IH Hl) as (l' & Hl' & ?). simpl. rewrite Hl'. simpl.
  eexists. split; [done|]. simpl. by rewrite Hy.
Qed.
Next Obligation.
  intros T ? ? ctx ctx' l Hle. rewrite !forallb_forall. eauto using scoped_le.
Qed.

#[global, program] Instance Scoped_unit : Scoped unit := {| scopedb _ _ := true |}.
Next Obligation. intros inner ks ctx ctx' ps [] _ _ _. by exists tt. Qed.
Next Obligation. done. Qed.
