(* ===== verification/BuilderScopes.v ===== *)
(** * The operations of the clause builder keep clauses in scope

    A triple states that an operation, run under the binders [ks], returns without a
    panic, leaves the binders as they were, and pushes clauses whose variables refer
    to their own binders, with the right kinds. *)

From stdpp Require Import base list numbers.
From S2P Require Import Prelude Ir Fold FoldLaws Shift ShiftThm RustIr RecSolve Builder SuperTraits ProgramClauses Scoped.

(** ** Clauses in scope *)

Definition constraint_in_scope (ctx : Scope) (c : InEnvironment Constraint) : bool :=
  forallb (λ c, leaves_ok 0 ctx (leaves_clause c 0)) c.(environment)
    && leaves_ok 0 ctx (leaves_constraint c.(env_goal) 0).

(** The variables of a clause are those of its binder and of binders inside it. *)
Definition clause_in_scope (c : ProgramClause) : bool :=
  let b := clause_data c in
  kinds_ok b.(binders)
    && scopedb [b.(binders)] b.(value).(consequence)
    && scopedb [b.(binders)] b.(value).(conditions)
    && forallb (constraint_in_scope [b.(binders)]) b.(value).(constraints).

(** The variables of a binder, as parameters: what the builder has in scope. *)
Definition ident (ks : list VariableKind) : Substitution :=
  imap (λ i k, to_bound_variable k (mkBoundVar INNERMOST i)) ks.

Record good (ks : list VariableKind) (b : ClauseBuilder) : Prop := {
  good_binders : b.(cb_binders) = ks;
  good_parameters : b.(parameters) = ident ks;
  good_kinds : kinds_ok ks = true;
  good_clauses : Forall (λ c, clause_in_scope c = true) b.(clauses)
}.

Definition triple {A} (ks : list VariableKind) (m : CB A) (Q : A → Prop) : Prop :=
  ∀ b, good ks b → ∃ a b', m b = Val (a, b') ∧ good ks b' ∧ Q a.

Lemma clauses_ret {A} ks (a : A) (Q : A → Prop) : Q a → triple ks (mret a) Q.
Proof. intros ? b ?. by exists a, b. Qed.

Lemma clauses_bind {A B} ks (m : CB A) (f : A → CB B) (Q : A → Prop) Q' :
  triple ks m Q → (∀ a, Q a → triple ks (f a) Q') → triple ks (m ≫= f) Q'.
Proof.
  intros Hm Hf b Hb. destruct (Hm b Hb) as (a & b' & Heq & Hb' & Ha).
  destruct (Hf a Ha b' Hb') as (a' & b'' & ? & ? & ?). exists a', b''.
  split_and!; [|done..]. cbv [mbind CB_bind]. by rewrite Heq.
Qed.

Lemma clauses_mono {A} ks (m : CB A) (Q Q' : A → Prop) :
  (∀ a, Q a → Q' a) → triple ks m Q → triple ks m Q'.
Proof. intros HQ Hm b Hb. destruct (Hm b Hb) as (a & b' & ? & ? & ?). exists a, b'. auto. Qed.

Lemma clauses_lift {A} ks (m : outcome Floundered A) a (Q : A → Prop) :
  m = Val a → Q a → triple ks (cb_lift m) Q.
Proof. intros -> ? b ?. by exists a, b. Qed.

Lemma triple_pure {A} ks (m : Fallible A) a (Q : A → Prop) :
  m = Val a → Q a → triple ks (cb_pure m) Q.
Proof. intros -> ? b ?. by exists a, b. Qed.

Lemma triple_iter {A} ks (f : A → CB unit) l :
  Forall (λ x, triple ks (f x) (λ _, True)) l → triple ks (cb_iter f l) (λ _, True).
Proof.
  induction 1 as [|x l Hx Hl IH]; simpl; [by apply clauses_ret|].
  eapply clauses_bind; [exact Hx|]. by intros _ _.
Qed.

(** ** Parameters in scope *)

Lemma ident_app ks ks' :
  ident (ks ++ ks') = ident ks ++ imap (λ i k, to_bound_variable k (mkBoundVar INNERMOST (length ks + i))) ks'.
Proof. unfold ident. by rewrite imap_app. Qed.

Lemma length_ident ks : length (ident ks) = length ks.
Proof. apply length_imap. Qed.

Lemma to_bound_variable_ok n ctx k bv d :
  ground_kind k = true →
  (∀ ok : VariableKind → bool, ok k = true → var_ok n ctx ok bv d = true) →
  arg_kind_ok k (to_bound_variable k bv) = true ∧
  leaves_ok n ctx (leaves_arg (to_bound_variable k bv) d) = true.
Proof.
  intros Hk Hv. destruct k as [k| |t]; simpl in *.
  - by rewrite (Hv is_ty_kind).
  - by rewrite (Hv is_lifetime_kind).
  - rewrite ground_leaves by done. simpl. by rewrite Hk, (Hv is_const_kind).
Qed.

(** The parameters for the binders [ks'] pushed under [ks]. *)
Lemma params_ok_new ks ks' :
  kinds_ok ks' = true →
  params_ok [ks ++ ks'] ks' (imap (λ i k, to_bound_variable k (mkBoundVar INNERMOST (length ks + i))) ks').
Proof.
  intros Hk. apply Forall2_same_length_lookup_2; [by rewrite length_imap|].
  intros i k p Hi Hp. rewrite list_lookup_imap, Hi in Hp. injection Hp as <-.
  apply to_bound_variable_ok.
  - unfold kinds_ok in Hk. rewrite forallb_forall in Hk. apply Hk, list_elem_of_In. by eapply list_elem_of_lookup_2.
  - intros ok Hok. apply var_ok_spec. split; [lia|]. right. exists (ks ++ ks'), k. split_and!; [done| |done].
    simpl. rewrite lookup_app_r by lia. by replace (length ks + i - length ks) with i by lia.
Qed.

Lemma params_ok_ident ks : kinds_ok ks = true → params_ok [ks] ks (ident ks).
Proof. apply (params_ok_new []). Qed.

Lemma params_ok_scoped ctx ks ps : params_ok ctx ks ps → scoped ctx ps.
Proof.
  simpl. induction 1 as [|k p ks ps [_ ?] _ IH]; [done|]. cbn [forallb]. by rewrite andb_true_iff.
Qed.

Lemma scoped_ident ks : kinds_ok ks = true → scoped [ks] (ident ks).
Proof. intros. by eapply params_ok_scoped, params_ok_ident. Qed.

Lemma kinds_ok_app ks ks' : kinds_ok (ks ++ ks') = kinds_ok ks && kinds_ok ks'.
Proof. apply forallb_app. Qed.

(** [Binders::substitute] by parameters of the right kinds. *)
Lemma substitute_scoped {V} `{Scoped V} ks ctx ps (v : V) :
  params_ok ctx ks ps → scoped (ks :: ctx) v →
  ∃ v', substitute (mkBinders ks v) ps = Val v' ∧ scoped ctx v'.
Proof.
  intros Hps Hv. destruct (scoped_subst [] ks ctx ctx ps v Hps) as (v' & Hv' & ?); [done|done|].
  exists v'. split; [|done]. unfold substitute, Subst_apply. simpl.
  rewrite (Forall2_length _ _ _ Hps), Nat.eqb_refl. simpl. simpl in Hv'. unfold INNERMOST. by rewrite Hv'.
Qed.

(** ** The operations *)

(** What a substitution keeps ([P]) is known of the value under the binders. *)
Lemma triple_push_binders_with {V R} `{Scoped V} (P : V → Prop) ks (bs : Binders V) (op : V → CB R) Q :
  scoped [ks] bs →
  (∀ F v, fold_with (M := Fallible) F bs.(value) INNERMOST = Val v → P v) →
  (∀ v, scoped [ks ++ bs.(binders)] v → P v → kinds_ok (ks ++ bs.(binders)) = true →
    triple (ks ++ bs.(binders)) (op v) Q) →
  triple ks (push_binders bs op) Q.
Proof.
  intros [Hk Hv]%andb_true_iff HP Hop [cs b p] [Hb Hp Hks Hcs]; simpl in *; subst.
  assert (kinds_ok (ks ++ bs.(binders)) = true) as Hkk by (rewrite kinds_ok_app; by rewrite Hks).
  unfold push_binders. cbn [cb_binders parameters clauses]. rewrite <- ident_app.
  rewrite length_ident, length_app, (proj2 (Nat.leb_le _ _)) by lia. simpl.
  rewrite ident_app, drop_app_length' by (by rewrite length_ident).
  destruct (scoped_subst [] bs.(binders) [ks] [ks ++ bs.(binders)] _ bs.(value) (params_ok_new ks _ Hk))
    as (v & Hv' & Hvs); [apply scope_le_app|done|].
  unfold substitute, Subst_apply. rewrite length_imap, Nat.eqb_refl. simpl.
  cbn [length app] in Hv', Hvs. change 0 with INNERMOST in Hv'. rewrite Hv'. simpl. rewrite <- ident_app.
  destruct (Hop v Hvs (HP _ _ Hv') Hkk (mkClauseBuilder cs (ks ++ bs.(binders)) (ident (ks ++ bs.(binders)))))
    as (r & [cs' b' p'] & Hr & [Hb' Hp' _ Hcs'] & HQ); [by constructor|]. simpl in *. subst.
  exists r. eexists. rewrite Hr. simpl. split_and!; [reflexivity| |done]. constructor; simpl; try done.
  - by rewrite take_app_length.
  - rewrite ident_app. by rewrite take_app_length' by (by rewrite length_ident).
Qed.

Lemma triple_push_binders {V R} `{Scoped V} ks (bs : Binders V) (op : V → CB R) Q :
  scoped [ks] bs →
  (∀ v, scoped [ks ++ bs.(binders)] v → kinds_ok (ks ++ bs.(binders)) = true →
    triple (ks ++ bs.(binders)) (op v) Q) →
  triple ks (push_binders bs op) Q.
Proof. intros Hbs Hop. apply (triple_push_binders_with (λ _, True)); [done..|]. intros v Hv _. by apply Hop. Qed.

(** Terms without free variables are not shifted. *)
Lemma leaves_ok_closed ls : leaves_ok 0 [[]] ls = true → Forall (λ l, is_bound_leaf l = true) ls.
Proof.
  rewrite leaves_ok_Forall. intros HF. eapply Forall_impl; [exact HF|].
  assert (∀ ok bv d, var_ok 0 [[]] ok bv d = true → bound_within bv d = true) as Hvar.
  { intros ok bv d [_ [?|(ks & k & Hks & Hk & _)]]%var_ok_spec; [apply Nat.ltb_lt; lia|].
    destruct (bv.(debruijn) + 0 - d) as [|[]]; simplify_eq/=. }
  intros []; simpl; rewrite ?andb_true_iff; try done; try apply Hvar. intros [_ ?]. by eapply Hvar.
Qed.

Lemma shift_closed {T} `{FoldLaws T} (t : T) :
  leaves_ok 0 [[]] (leaves_of t 0) = true → fold_with (Shifter ONE) t INNERMOST = Val t.
Proof. intros Ht. apply fold_closed; [auto with chalk|]. by apply leaves_ok_closed. Qed.

Lemma leaves_ok_bind {A} n ctx (l : list A) f :
  leaves_ok n ctx (l ≫= f) = forallb (λ a, leaves_ok n ctx (f a)) l.
Proof. induction l as [|a l IH]; [done|]. rewrite bind_cons, forallb_app. cbn [forallb]. by rewrite <- IH. Qed.

Lemma triple_push_clause_with_priority {T C} `{CastTo T DomainGoal, CastTo C Goal} ks
    (consequence : T) (conditions : list C) priority :
  scoped [ks] (cast consequence : DomainGoal) → scoped [ks] (goals_of conditions) →
  triple ks (push_clause_with_priority consequence conditions [] priority) (λ _, True).
Proof.
  intros Hc Hg [cs b p] [Hb Hp Hks Hcs]; simpl in *; subst. unfold push_clause_with_priority. simpl.
  set (i := mkImplication _ _ _ _).
  assert ((if decide (ks = []) then unwrap_result (term_shifted_in i) else Val i) =
    (Val i : outcome Floundered _)) as ->.
  { case_decide; [|done]. subst ks. unfold term_shifted_in, term_shifted_in_from, fold_with, Fold_ProgramClauseImplication.
    change (fold_domain_goal (Shifter ONE)) with (fold_with (T := DomainGoal) (Shifter ONE)). simpl.
    rewrite (shift_closed (T := DomainGoal)) by done. simpl.
    rewrite (shift_closed (T := list Goal)); [done|]. simpl. by rewrite leaves_ok_bind. }
  simpl. exists tt. eexists. split_and!; [reflexivity| |done]. constructor; try done. simpl.
  apply Forall_app. split; [done|]. constructor; [|done]. unfold clause_in_scope. simpl.
  unfold goals_of in Hg. by rewrite Hks, Hc, Hg.
Qed.

Lemma triple_push_clause {T C} `{CastTo T DomainGoal, CastTo C Goal} ks (consequence : T) (conditions : list C) :
  scoped [ks] (cast consequence : DomainGoal) → scoped [ks] (goals_of conditions) →
  triple ks (push_clause consequence conditions) (λ _, True).
Proof. apply triple_push_clause_with_priority. Qed.

Lemma triple_push_fact {T} `{CastTo T DomainGoal} ks (consequence : T) :
  scoped [ks] (cast consequence : DomainGoal) → triple ks (push_fact consequence) (λ _, True).
Proof. intros. by apply triple_push_clause. Qed.

Lemma triple_substitution_in_scope ks :
  triple ks substitution_in_scope (λ s, s = ident ks ∧ kinds_ok ks = true).
Proof. intros b [? ? ? ?]. by exists b.(parameters), b. Qed.

Lemma triple_push_bound_ty ks (op : Ty → CB unit) :
  (∀ ty, scoped [ks ++ [VkTy General]] ty → triple (ks ++ [VkTy General]) (op ty) (λ _, True)) →
  triple ks (push_bound_ty op) (λ _, True).
Proof.
  intros Hop. unfold push_bound_ty. apply triple_push_binders; [done|]. simpl. intros _ _ Hkk.
  assert (last (ident (ks ++ [VkTy General])) = Some (ArgTy (TyBoundVar (mkBoundVar INNERMOST (length ks))))) as Hl.
  { rewrite ident_app. simpl. rewrite last_snoc. by rewrite Nat.add_0_r. }
  eapply clauses_bind; [apply triple_substitution_in_scope|]. intros s [-> _].
  set (bv := mkBoundVar INNERMOST (length ks)) in *.
  eapply (clauses_bind _ _ _ (λ p, p = ArgTy (TyBoundVar bv))); [eapply clauses_lift; [by rewrite Hl|done]|].
  intros p ->. eapply (clauses_bind _ _ _ (λ t, t = TyBoundVar bv)); [by eapply triple_pure|]. intros t ->.
  apply Hop. simpl. rewrite andb_true_r. apply var_ok_spec. split; [lia|]. right.
  exists (ks ++ [VkTy General]), (VkTy General). split_and!; [done| |done]. simpl. by rewrite list_lookup_middle.
Qed.
