(* ===== verification/DeclScopes.v ===== *)
(** * Well-scoped declarations give well-scoped clauses

    If the declarations of a program only mention parameters that are in scope and of
    the right kinds, [to_program_clauses] returns and all the clauses it pushes bind
    their variables. *)

From stdpp Require Import base list numbers.
From S2P Require Import Prelude Ir Fold FoldLaws Shift ShiftThm RustIr RecSolve Builder SuperTraits ProgramClauses Scoped BuilderScopes.

(** ** Scopes of terms built by the clauses *)

Lemma scoped_app {T} `{Scoped T} ctx (l k : list T) : scoped ctx l → scoped ctx k → scoped ctx (l ++ k).
Proof. simpl. rewrite forallb_app. intros -> ->. done. Qed.

Lemma scoped_cons {T} `{Scoped T} ctx (x : T) l : scoped ctx x → scoped ctx l → scoped ctx (x :: l).
Proof. simpl. intros -> ->. done. Qed.

Lemma scoped_nil {T} `{Scoped T} ctx : scoped ctx (@nil T).
Proof. done. Qed.

Lemma scoped_fmap {T U} `{Scoped T, Scoped U} ctx (f : T → U) (l : list T) :
  (∀ x, scoped ctx x → scoped ctx (f x)) → scoped ctx l → scoped ctx (f <$> l).
Proof.
  intros Hf. induction l as [|x l IH]; [done|]. intros [Hx Hl]%andb_true_iff.
  apply scoped_cons; [by apply Hf|by apply IH].
Qed.

Lemma scoped_take {T} `{Scoped T} ctx i (l : list T) : scoped ctx l → scoped ctx (take i l).
Proof.
  simpl. rewrite !forallb_forall. intros Hl x Hx. apply Hl. apply list_elem_of_In in Hx.
  apply list_elem_of_In. by eapply subseteq_take.
Qed.

Lemma scoped_drop {T} `{Scoped T} ctx i (l : list T) : scoped ctx l → scoped ctx (drop i l).
Proof.
  simpl. rewrite !forallb_forall. intros Hl x Hx. apply Hl. apply list_elem_of_In in Hx.
  apply list_elem_of_In. by eapply subseteq_drop.
Qed.

Lemma scoped_In {T} `{Scoped T} ctx (l : list T) : scoped ctx l → Forall (λ x, scoped ctx x) l.
Proof. simpl. rewrite forallb_forall, Forall_forall. intros Hl x Hx. by apply Hl, list_elem_of_In. Qed.

Lemma scoped_type_parameters ctx s : scoped ctx s → scoped ctx (type_parameters s).
Proof.
  induction s as [|a s IH]; [done|]. intros [Ha Hs]%andb_true_iff.
  destruct a; simpl; try (by apply IH). simpl in Ha. rewrite Ha. by apply IH.
Qed.

(** A list of arguments, seen from a term that contains it. *)
Lemma scoped_subst_leaves ctx (s : Substitution) :
  scoped ctx s → leaves_ok 0 ctx (s ≫= λ a, leaves_arg a 0) = true.
Proof. by rewrite leaves_ok_bind. Qed.

Lemma scoped_trait_ref ctx id s : scoped ctx s → scoped ctx (mkTraitRef id s).
Proof. apply scoped_subst_leaves. Qed.

Lemma scoped_trait_ref_args ctx (tr : TraitRef) : scoped ctx tr → scoped ctx tr.(substitution).
Proof. simpl. by rewrite leaves_ok_bind. Qed.

Lemma scoped_alias_eq ctx a ty :
  leaves_ok 0 ctx (leaves_alias a 0) = true → scoped ctx ty → scoped ctx (WcAliasEq a ty).
Proof. simpl. rewrite forallb_app. intros -> ->. done. Qed.

Lemma scoped_normalize ctx a ty :
  leaves_ok 0 ctx (leaves_alias a 0) = true → scoped ctx ty → scoped ctx (DgNormalize a ty).
Proof. simpl. rewrite forallb_app. intros -> ->. done. Qed.

Lemma scoped_into_from_env_goal ctx wc : scoped ctx wc → scoped ctx (into_from_env_goal wc).
Proof. by destruct wc. Qed.
Lemma scoped_into_well_formed_goal ctx wc : scoped ctx wc → scoped ctx (into_well_formed_goal wc).
Proof. by destruct wc. Qed.

(** A goal under binders. *)
Lemma scoped_quantified ctx (b : Binders Goal) : scoped ctx b → scoped ctx (GQuantified ForAll b).
Proof.
  destruct b as [ks g]. intros [_ Hg]%andb_true_iff. simpl in *.
  change 1 with (1 + 0). rewrite (proj1 (bump_goals 1)).
  rewrite <- (leaves_ok_bump 1) in Hg. rewrite leaves_ok_Forall in *.
  eapply Forall_impl; [exact Hg|]. intros l. apply leaf_ok_out.
Qed.

Lemma scoped_cast_binders {T} `{Scoped T, CastTo T Goal} ctx (b : Binders T) :
  (∀ ctx (x : T), scoped ctx x → scoped ctx (cast x : Goal)) → scoped ctx b → scoped ctx (cast b : Goal).
Proof.
  intros Hc [Hk Hv]%andb_true_iff. apply (scoped_quantified ctx (binders_map cast b)).
  simpl. rewrite Hk. by apply Hc.
Qed.

Lemma scoped_goals_of_binders {T} `{Scoped T, CastTo T Goal} ctx (l : list (Binders T)) :
  (∀ ctx (x : T), scoped ctx x → scoped ctx (cast x : Goal)) → scoped ctx l → scoped ctx (goals_of l).
Proof. intros Hc. apply scoped_fmap. intros b. by apply scoped_cast_binders. Qed.

Lemma scoped_binders_map {T U} `{Scoped T, Scoped U} ctx (f : T → U) (b : Binders T) :
  (∀ ctx (x : T), scoped ctx x → scoped ctx (f x)) → scoped ctx b → scoped ctx (binders_map f b).
Proof. intros Hf [Hk Hv]%andb_true_iff. simpl. rewrite Hk. by apply Hf. Qed.

Lemma scoped_where_goals ctx (l : list QuantifiedWhereClause) : scoped ctx l → scoped ctx (goals_of l).
Proof. by apply scoped_goals_of_binders. Qed.

Lemma scoped_wf_goals ctx l : scoped ctx l → scoped ctx (goals_of (qwc_into_well_formed_goal <$> l)).
Proof.
  intros Hl. apply scoped_goals_of_binders; [done|]. revert Hl. apply scoped_fmap. intros b.
  apply scoped_binders_map, scoped_into_well_formed_goal.
Qed.

(** Conditions on types. *)
Lemma scoped_ty_goals ctx (f : Ty → DomainGoal) tys :
  (∀ ctx ty, scoped ctx ty → scoped ctx (f ty)) → scoped ctx tys → scoped ctx (goals_of (f <$> tys)).
Proof.
  intros Hf Hl. apply scoped_fmap; [done|]. revert Hl. apply scoped_fmap. intros ty. apply Hf.
Qed.

Create HintDb scope discriminated.
#[export] Hint Resolve scoped_app scoped_cons scoped_nil scoped_take scoped_drop scoped_type_parameters
  scoped_trait_ref scoped_subst_leaves scoped_trait_ref_args scoped_alias_eq scoped_normalize
  scoped_into_from_env_goal scoped_where_goals scoped_wf_goals scoped_ty_goals scoped_ident : scope.

(** ** Scopes of declarations *)

#[global, program] Instance Scoped_ImplDatumBound : Scoped ImplDatumBound :=
  {| scopedb ctx b := scopedb ctx b.(impl_trait_ref) && scopedb ctx b.(impl_where_clauses) |}.
Next Obligation.
  intros inner ks ctx ctx' ps [tr wcs] Hps Hle [Ht Hw]%andb_true_iff. cbn [impl_trait_ref impl_where_clauses] in Ht, Hw.
  destruct (scoped_subst inner ks ctx ctx' ps tr Hps Hle Ht) as (tr' & Htr & ?).
  destruct (scoped_subst (T := list QuantifiedWhereClause) inner ks ctx ctx' ps wcs Hps Hle Hw) as (wcs' & Hwcs & Hs).
  exists (mkImplDatumBound tr' wcs'). unfold fold_with at 1, Fold_ImplDatumBound. cbn [impl_trait_ref impl_where_clauses].
  rewrite Htr. simpl. rewrite Hwcs. split; [done|]. by apply andb_true_iff.
Qed.
Next Obligation.
  intros ctx ctx' [tr wcs] Hle. rewrite !andb_true_iff. intros [? ?]. split; by eapply scoped_le.
Qed.

#[global, program] Instance Scoped_AssociatedTyValueBound : Scoped AssociatedTyValueBound :=
  {| scopedb ctx b := scopedb ctx b.(atv_ty) |}.
Next Obligation.
  intros inner ks ctx ctx' ps [t] Hps Hle Ht. cbn [atv_ty] in Ht.
  destruct (scoped_subst (T := Ty) inner ks ctx ctx' ps t Hps Hle Ht) as (t' & Hf & ?).
  exists (mkAssociatedTyValueBound t'). unfold fold_with at 1, Fold_AssociatedTyValueBound. cbn [atv_ty].
  by rewrite Hf.
Qed.
Next Obligation. intros ctx ctx' [t] Hle. by apply (scoped_le (T := Ty)). Qed.

#[global, program] Instance Scoped_TraitBound : Scoped TraitBound :=
  {| scopedb ctx b := scopedb ctx b.(args_no_self) |}.
Next Obligation.
  intros inner ks ctx ctx' ps [id s] Hps Hle Ht. cbn [args_no_self] in Ht.
  destruct (scoped_subst (T := Substitution) inner ks ctx ctx' ps s Hps Hle Ht) as (s' & Hf & ?).
  exists (mkTraitBound id s'). unfold fold_with at 1, Fold_TraitBound. cbn [args_no_self]. by rewrite Hf.
Qed.
Next Obligation. intros ctx ctx' [id s] Hle. by apply (scoped_le (T := Substitution)). Qed.

#[global, program] Instance Scoped_AliasEqBound : Scoped AliasEqBound :=
  {| scopedb ctx b := scopedb ctx b.(aeb_trait_bound) && scopedb ctx b.(aeb_parameters) && scopedb ctx b.(aeb_value) |}.
Next Obligation.
  intros inner ks ctx ctx' ps [tb id s t] Hps Hle [[Hb Hs]%andb_true_iff Ht]%andb_true_iff. 
  cbn [aeb_trait_bound aeb_parameters aeb_value] in Hb, Hs, Ht.
  destruct (scoped_subst (T := TraitBound) inner ks ctx ctx' ps tb Hps Hle Hb) as (tb' & Hfb & ?).
  destruct (scoped_subst (T := Substitution) inner ks ctx ctx' ps s Hps Hle Hs) as (s' & Hfs & ?).
  destruct (scoped_subst (T := Ty) inner ks ctx ctx' ps t Hps Hle Ht) as (t' & Hft & ?).
  exists (mkAliasEqBound tb' id s' t'). unfold fold_with at 1, Fold_AliasEqBound.
  cbn [aeb_trait_bound aeb_parameters aeb_value]. rewrite Hfb. simpl. rewrite Hfs. simpl. rewrite Hft.
  split; [done|]. by rewrite !andb_true_iff.
Qed.
Next Obligation.
  intros ctx ctx' [tb id s t] Hle. rewrite !andb_true_iff. intros [[? ?] ?]. split_and!; by eapply scoped_le.
Qed.

#[global, program] Instance Scoped_InlineBound : Scoped InlineBound :=
  {| scopedb ctx b := match b with IbTraitBound b => scopedb ctx b | IbAliasEqBound b => scopedb ctx b end |}.
Next Obligation.
  intros inner ks ctx ctx' ps [b|b] Hps Hle Hb; unfold fold_with at 1, Fold_InlineBound.
  - destruct (scoped_subst (T := TraitBound) inner ks ctx ctx' ps b Hps Hle Hb) as (b' & Hf & ?).
    exists (IbTraitBound b'). by rewrite Hf.
  - destruct (scoped_subst (T := AliasEqBound) inner ks ctx ctx' ps b Hps Hle Hb) as (b' & Hf & ?).
    exists (IbAliasEqBound b'). by rewrite Hf.
Qed.
Next Obligation. intros ctx ctx' [b|b] Hle; by apply scoped_le. Qed.

#[global, program] Instance Scoped_AssociatedTyDatumBound : Scoped AssociatedTyDatumBound :=
  {| scopedb ctx b := scopedb ctx b.(assoc_bounds) && scopedb ctx b.(assoc_where_clauses) |}.
Next Obligation.
  intros inner ks ctx ctx' ps [bs wcs] Hps Hle [Hb Hw]%andb_true_iff. cbn [assoc_bounds assoc_where_clauses] in Hb, Hw.
  destruct (scoped_subst (T := list QuantifiedInlineBound) inner ks ctx ctx' ps bs Hps Hle Hb) as (bs' & Hbs & Hs1).
  destruct (scoped_subst (T := list QuantifiedWhereClause) inner ks ctx ctx' ps wcs Hps Hle Hw) as (wcs' & Hwcs & Hs2).
  exists (mkAssociatedTyDatumBound bs' wcs'). unfold fold_with at 1, Fold_AssociatedTyDatumBound.
  cbn [assoc_bounds assoc_where_clauses]. rewrite Hbs. simpl. rewrite Hwcs. split; [done|]. by apply andb_true_iff.
Qed.
Next Obligation.
  intros ctx ctx' [bs wcs] Hle. rewrite !andb_true_iff. intros [? ?]. split; by eapply scoped_le.
Qed.

#[global, program] Instance Scoped_OpaqueTyDatumBound : Scoped OpaqueTyDatumBound :=
  {| scopedb ctx b := scopedb ctx b.(opaque_bounds) && scopedb ctx b.(opaque_where_clauses) |}.
Next Obligation.
  intros inner ks ctx ctx' ps [bs wcs] Hps Hle [Hb Hw]%andb_true_iff. cbn [opaque_bounds opaque_where_clauses] in Hb, Hw.
  destruct (scoped_subst (T := Binders (list QuantifiedWhereClause)) inner ks ctx ctx' ps bs Hps Hle Hb) as (bs' & Hbs & Hs1).
  destruct (scoped_subst (T := Binders (list QuantifiedWhereClause)) inner ks ctx ctx' ps wcs Hps Hle Hw) as (wcs' & Hwcs & Hs2).
  exists (mkOpaqueTyDatumBound bs' wcs'). unfold fold_with at 1, Fold_OpaqueTyDatumBound.
  cbn [opaque_bounds opaque_where_clauses]. rewrite Hbs. simpl. rewrite Hwcs. split; [done|]. by apply andb_true_iff.
Qed.
Next Obligation.
  intros ctx ctx' [bs wcs] Hle. rewrite !andb_true_iff. intros [? ?]. split; by eapply scoped_le.
Qed.

(** The where clauses that an inline bound stands for. *)
Lemma scoped_inline_bound ctx b self_ty :
  scoped ctx b → scoped ctx self_ty → scoped ctx (inline_bound_into_where_clauses b self_ty).
Proof.
  intros Hb Ht.
  assert (∀ tb : TraitBound, scoped ctx tb → scoped ctx (as_trait_ref tb self_ty)) as Htr.
  { intros tb Htb. apply scoped_trait_ref. by apply (scoped_cons ctx (ArgTy self_ty)). }
  destruct b as [tb|[tb aid ps v]].
  - apply (scoped_cons ctx (WcImplemented _)); [by apply Htr|done].
  - apply andb_true_iff in Hb as [[Hs Hp]%andb_true_iff Hv].
    cbn [aeb_trait_bound aeb_parameters aeb_value] in Hs, Hp, Hv.
    apply (scoped_cons ctx (WcImplemented _)); [by apply Htr|]. apply scoped_cons; [|done].
    apply scoped_alias_eq; [|done]. apply scoped_subst_leaves, scoped_app; [done|].
    by apply scoped_trait_ref_args, Htr.
Qed.
#[export] Hint Resolve scoped_inline_bound : scope.

(** A scope under which more binders are pushed. *)
Lemma scoped_push {T} `{Scoped T} ks ks' (x : T) : scoped [ks] x → scoped [ks ++ ks'] x.
Proof. apply scoped_le, scope_le_app. Qed.
Lemma scoped_global {T} `{Scoped T} ctx (x : T) : scoped [] x → scoped ctx x.
Proof. apply scoped_le. by intros i k. Qed.

(** *** Triples of the common steps *)

Lemma triple_for_each {A} `{Scoped A} ks (f : A → CB unit) (l : list A) :
  scoped [ks] l → (∀ x, scoped [ks] x → triple ks (f x) (λ _, True)) → triple ks (cb_iter f l) (λ _, True).
Proof. intros Hl%scoped_In Hf. apply triple_iter. eapply Forall_impl; [exact Hl|]. done. Qed.

Lemma triple_for_each_parameter ks f tys :
  scoped [ks] tys → (∀ i ty, scoped [ks] ty → triple ks (f i ty) (λ _, True)) →
  triple ks (for_each_parameter f tys) (λ _, True).
Proof.
  intros Hl%scoped_In Hf. apply triple_iter. apply Forall_forall. intros [i ty] Hi. simpl.
  apply elem_of_lookup_imap in Hi as (j & t & [= -> ->] & Hj). apply Hf.
  exact (Forall_lookup_1 _ _ _ _ Hl Hj).
Qed.

(** The implied bounds of types and traits: [FromEnv(WC) :- goal]. *)
Lemma triple_implied {C} `{CastTo C Goal} ks (goal : C) (wcs : list QuantifiedWhereClause) :
  scoped [ks] (cast goal : Goal) → scoped [ks] wcs →
  triple ks (cb_iter (λ qwc, push_binders qwc (λ wc, push_clause (into_from_env_goal wc) [goal])) wcs) (λ _, True).
Proof.
  intros Hg Hl. apply triple_for_each; [done|]. intros qwc Hq. apply triple_push_binders; [done|].
  intros wc Hwc _. apply triple_push_clause; [by apply scoped_into_from_env_goal|].
  refine (scoped_cons (T := Goal) _ (cast goal) [] _ eq_refl). by apply scoped_push.
Qed.

Ltac seq := eapply (clauses_bind _ _ _ (λ _, True)); [|intros [] _].

(** ** The declarations *)

Section Declarations.
Context (db : RustIrDatabase) (fuel : nat).

Definition impl_ok (i : ImplDatum) : bool := scopedb [] i.(impl_binders).

Definition adt_ok (a : AdtDatum) : bool :=
  scopedb [] (binders_map adt_where_clauses a.(adt_binders))
  && (negb a.(adt_flags).(adt_fundamental) || existsb is_ty_kind a.(adt_binders).(binders)).

Definition fn_ok (f : FnDefDatum) : bool := scopedb [] (binders_map fn_where_clauses f.(fn_binders)).

Definition trait_ok (t : TraitDatum) : bool := scopedb [] (trait_where_clauses t).

(** The parameters of an associated type end with those of its trait. *)
Definition assoc_ok (a : AssociatedTyDatum) : bool :=
  scopedb [] a.(assoc_binders)
  && (length (db.(trait_datum) (db.(associated_ty_data) a.(assoc_id)).(assoc_trait_id)).(trait_binders).(binders)
        <=? length a.(assoc_binders).(binders)).

Fixpoint all2 {A B} (f : A → B → bool) (l : list A) (k : list B) : bool :=
  match l, k with
  | [], [] => true
  | x :: l, y :: k => f x y && all2 f l k
  | _, _ => false
  end.

(** The parameters of an associated type value end with those of its impl, and give
    those of the associated type when the trait reference of the impl takes the place of
    the parameters of the trait. *)
Definition atv_ok (v : AssociatedTyValue) : bool :=
  let impl := db.(impl_datum) v.(atv_impl_id) in
  let assoc := db.(associated_ty_data) v.(atv_associated_ty_id) in
  let ks := v.(atv_value).(binders) in
  let split := length ks - length impl.(impl_binders).(binders) in
  scopedb [] v.(atv_value) && impl_ok impl && scopedb [] assoc.(assoc_binders)
  && (length impl.(impl_binders).(binders) <=? length ks)
  && all2 arg_kind_ok impl.(impl_binders).(binders) (drop split (ident ks))
  && all2 arg_kind_ok assoc.(assoc_binders).(binders)
       (take split (ident ks) ++ impl.(impl_binders).(value).(impl_trait_ref).(substitution)).

Lemma impl_triple i env : impl_ok i = true → triple [] (to_program_clauses db fuel i env) (λ _, True).
Proof.
  intros Hi. unfold to_program_clauses, impl_to_program_clauses.
  destruct (impl_is_positive i); [|by apply clauses_ret].
  apply triple_push_binders; [by apply scoped_global|]. intros [tr wcs] [Ht Hw]%andb_true_iff _.
  apply triple_push_clause; [exact Ht|]. by apply scoped_where_goals.
Qed.

Lemma well_formed_triple ks ty wcs :
  scoped [ks] ty → scoped [ks] wcs → triple ks (well_formed_program_clauses ty wcs) (λ _, True).
Proof. intros. apply triple_push_clause; [done|]. by apply scoped_wf_goals. Qed.

Lemma fully_visible_triple ks ty s :
  scoped [ks] ty → scoped [ks] s → triple ks (fully_visible_program_clauses ty s) (λ _, True).
Proof. intros. apply triple_push_clause; [done|]. by apply scoped_ty_goals, scoped_type_parameters. Qed.

Lemma implied_bounds_triple ks ty wcs :
  scoped [ks] ty → scoped [ks] wcs → triple ks (implied_bounds_program_clauses ty wcs) (λ _, True).
Proof. intros. by apply triple_implied. Qed.

Lemma fn_triple f env : fn_ok f = true → triple [] (to_program_clauses db fuel f env) (λ _, True).
Proof.
  intros Hf. apply triple_push_binders; [by apply scoped_global|]. intros wcs Hw Hk.
  eapply clauses_bind; [apply triple_substitution_in_scope|]. intros s [-> _].
  pose proof (scoped_ident _ Hk) as Hid. set (ty := TyFnDef _ _).
  assert (scoped [[] ++ binders (binders_map fn_where_clauses (fn_binders f))] ty) as Hty
    by by apply scoped_subst_leaves.
  seq; [by apply well_formed_triple|]. seq; [by apply implied_bounds_triple|]. by apply fully_visible_triple.
Qed.

Lemma count_type_parameters ks : existsb is_ty_kind ks = true → 1 <=? length (type_parameters (ident ks)) = true.
Proof.
  unfold ident. generalize INNERMOST as d. intros d Hks. apply Nat.leb_le.
  assert (∀ i, 1 ≤ length (type_parameters (imap (λ j k, to_bound_variable k (mkBoundVar d (i + j))) ks))) as H;
    [|exact (H 0)].
  induction ks as [|k ks IH]; intros i; [done|]. simpl in *.
  destruct k as [k| |t]; simpl; [lia|..];
    (erewrite imap_ext; [exact (IH Hks (S i))|intros j k0 _; simpl; f_equal; f_equal; lia]).
Qed.

Lemma adt_triple a env : adt_ok a = true → triple [] (to_program_clauses db fuel a env) (λ _, True).
Proof.
  intros [Ha Hfund]%andb_true_iff. apply triple_push_binders; [by apply scoped_global|]. intros wcs Hw Hk.
  eapply clauses_bind; [apply triple_substitution_in_scope|]. intros s [-> _].
  pose proof (scoped_ident _ Hk) as Hid. set (ks := [] ++ _) in *. set (ty := TyAdt _ _).
  assert (scoped [ks] ty) as Hty by by apply scoped_subst_leaves.
  pose proof (scoped_type_parameters _ _ Hid) as Hps.
  seq; [by apply well_formed_triple|]. seq; [by apply implied_bounds_triple|].
  seq; [by apply fully_visible_triple|]. seq.
  - destruct a.(adt_flags).(adt_upstream); simpl negb; [|by apply triple_push_fact].
    destruct a.(adt_flags).(adt_fundamental); [|by apply triple_push_fact].
    seq; [|apply triple_push_clause; [done|by apply scoped_ty_goals]].
    apply triple_for_each; [done|]. intros t Ht.
    apply triple_push_clause; [done|]. by apply (scoped_ty_goals _ DgIsLocal [t]), scoped_cons.
  - destruct a.(adt_flags).(adt_fundamental); [|by apply clauses_ret]. simpl in Hfund.
    eapply (clauses_bind _ _ _ (λ _, True)).
    { eapply clauses_lift; [|done]. rewrite (count_type_parameters ks) by exact Hfund. done. }
    intros _ _.
    apply triple_for_each; [done|]. intros t Ht.
    apply triple_push_clause; [done|]. by apply (scoped_ty_goals _ DgDownstreamType [t]), scoped_cons.
Qed.

Lemma scoped_downstream ctx tys i ty :
  scoped ctx tys → scoped ctx ty → scoped ctx (downstream_conditions tys i ty).
Proof.
  intros Hs Ht. apply scoped_app; [by apply scoped_ty_goals, scoped_take|].
  apply (scoped_cons (T := Goal)); [exact Ht|done].
Qed.

Lemma trait_triple t env c :
  trait_ok t = true → has_compatible_clause (E := Floundered) env = Val c →
  triple [] (to_program_clauses db fuel t env) (λ _, True).
Proof.
  intros Ht Hc. apply triple_push_binders; [by apply scoped_global|]. intros wcs Hw Hk.
  eapply clauses_bind; [apply triple_substitution_in_scope|]. intros s [-> _].
  pose proof (scoped_ident _ Hk) as Hid. set (ks := [] ++ _) in *. set (tr := mkTraitRef _ _).
  assert (scoped [ks] tr) as Htr by by apply scoped_trait_ref.
  pose proof (scoped_type_parameters _ _ Hid) as Hps. pose proof (scoped_where_goals _ _ Hw) as Hwg.
  seq.
  { apply triple_push_clause; [exact Htr|].
    assert (scoped [ks] (goals_of (qwc_into_well_formed_goal <$> wcs) ++ [cast tr : Goal])) as Hg.
    { apply scoped_app; [by apply scoped_wf_goals|]. by apply (scoped_cons (T := Goal)). }
    unfold goals_of at 1. by rewrite list_fmap_id. }
  eapply (clauses_bind _ _ _ (λ c', c' = c)); [by eapply clauses_lift|]. intros _ ->.
  seq.
  { destruct c; [|by apply clauses_ret]. seq.
    - case_decide; [|by apply clauses_ret]. apply triple_for_each_parameter; [done|]. intros i ty Hty.
      apply triple_push_clause; [exact Htr|]. unfold goals_of at 1. rewrite list_fmap_id.
      apply scoped_app; [done|]. by apply (scoped_cons (T := Goal)), scoped_downstream.
    - destruct (negb _); [|by apply clauses_ret]. apply triple_push_clause; [exact Htr|].
      unfold goals_of at 1. rewrite list_fmap_id. apply scoped_app; [done|].
      apply (scoped_cons (T := Goal)); [done|]. by apply scoped_app; [apply scoped_ty_goals|]. }
  seq.
  { destruct (negb _); [by apply triple_push_fact|].
    apply triple_for_each_parameter; [done|]. intros i ty Hty. apply triple_push_clause; [exact Htr|].
    unfold goals_of. rewrite fmap_app. apply scoped_app; [by apply scoped_ty_goals, scoped_take|].
    by apply (scoped_cons (T := Goal)). }
  seq; [by apply triple_implied|].
  apply triple_push_clause; [exact Htr|]. by apply (scoped_cons (T := Goal)).
Qed.

Lemma assoc_triple a env : assoc_ok a = true → triple [] (to_program_clauses db fuel a env) (λ _, True).
Proof.
  intros [Ha Hlen%Nat.leb_le]%andb_true_iff. apply triple_push_binders; [by apply scoped_global|].
  intros [bs wcs] [Hb Hw]%andb_true_iff Hk. cbn [assoc_bounds assoc_where_clauses] in *.
  eapply clauses_bind; [apply triple_substitution_in_scope|]. intros s [-> _].
  pose proof (scoped_ident _ Hk) as Hid. set (ks := [] ++ _) in *. set (p := mkProjectionTy _ _).
  pose proof (scoped_where_goals _ _ Hw) as Hwg.
  assert (leaves_ok 0 [ks] (leaves_alias (projection p) 0) = true) as Hp by by apply scoped_subst_leaves.
  eapply (clauses_bind _ _ _ (λ tr, scoped [ks] tr)).
  { eapply clauses_lift.
    - unfold trait_ref_from_projection, split_projection, split_associated_ty_parameters, usize_sub, split_at.
      unfold p. cbn [proj_substitution RustIr.associated_ty_id]. rewrite length_ident, (proj2 (Nat.leb_le _ _)) by exact Hlen. simpl.
      rewrite (proj2 (Nat.leb_le _ _)) by lia. reflexivity.
    - by apply scoped_trait_ref, scoped_drop. }
  intros tr Htr. set (ty := TyAssociatedType _ _).
  assert (scoped [ks] ty) as Hty by by apply scoped_subst_leaves.
  seq; [apply triple_push_clause_with_priority; [by apply scoped_alias_eq|done]|].
  seq.
  { apply triple_push_clause; [done|]. unfold goals_of at 1. rewrite list_fmap_id.
    by apply (scoped_cons (T := Goal)), scoped_wf_goals. }
  seq; [apply triple_push_clause; [done|by apply (scoped_cons (T := Goal))]|].
  seq; [by apply triple_implied|].
  seq.
  { apply triple_for_each; [done|]. intros q Hq. apply triple_push_binders; [done|]. intros b Hbb _.
    apply triple_for_each.
    { apply scoped_inline_bound; [done|]. by apply scoped_push. }
    intros wc Hwc. apply triple_push_clause; [by apply scoped_into_from_env_goal|].
    assert (scoped [ks ++ binders q] tr) as Htr' by by apply scoped_push.
    unfold goals_of at 1. rewrite list_fmap_id. apply (scoped_cons (T := Goal)); [exact Htr'|].
    by apply (scoped_push (T := list Goal)). }
  apply triple_push_bound_ty. intros t Ht.
  assert (leaves_ok 0 [ks ++ [VkTy General]] (leaves_alias (projection p) 0) = true) as Hp'.
  { eapply leaves_ok_le; [apply scope_le_app|done]. }
  apply triple_push_clause; [by apply scoped_alias_eq|]. apply (scoped_cons (T := Goal)); [|done].
  by apply scoped_normalize.
Qed.

(** *** Associated type values *)

Lemma params_ok_intro ctx ks ps : all2 arg_kind_ok ks ps = true → scoped ctx ps → params_ok ctx ks ps.
Proof.
  revert ps. induction ks as [|k ks IH]; intros ps; destruct ps as [|p ps]; simpl; intros Hks Hps.
  1: by constructor. 1, 2: discriminate.
  apply andb_true_iff in Hks as [Hk Hks]. apply andb_true_iff in Hps as [Hp Hps].
  constructor; [done|]. by apply IH.
Qed.

(** Substitution keeps the kinds of arguments. *)
Lemma all2_subst ks F s s' d :
  mapM (λ p, fold_arg (M := Fallible) F p d) s = Val s' → all2 arg_kind_ok ks s = all2 arg_kind_ok ks s'.
Proof.
  revert ks s'. induction s as [|a s IH]; intros ks s' Hs; simpl in Hs; [by injection Hs as <-|].
  inv_outcome Hs. subst s'.
  destruct ks as [|k ks]; simpl; [done|]. f_equal; [|by apply IH].
  destruct a; simpl in Hx; inv_outcome Hx; subst; by destruct k.
Qed.

Lemma all2_app {A B} (f : A → B → bool) l k k1 :
  all2 f l (k ++ k1) = true ↔
  ∃ l0 l1, l = l0 ++ l1 ∧ all2 f l0 k = true ∧ all2 f l1 k1 = true.
Proof.
  revert l. induction k as [|y k IH]; intros l; simpl.
  - split; [by exists [], l|]. intros (l0 & l1 & -> & ? & ?). by destruct l0.
  - destruct l as [|x l]; simpl.
    + split; [done|]. intros (l0 & ? & ? & ? & ?). by destruct l0.
    + rewrite andb_true_iff, IH. split.
      * intros (Hx & l0 & l1 & -> & ? & ?). exists (x :: l0), l1. simpl. by rewrite Hx.
      * intros (l0 & l1 & Hl & H0 & H1). destruct l0 as [|x' l0]; [done|]. injection Hl as -> ->.
        apply andb_true_iff in H0 as [? ?]. eauto 6.
Qed.

Lemma substitute_trait_ref_kinds ks l (tr tr' : TraitRef) ps :
  substitute (mkBinders ks tr) ps = Val tr' →
  all2 arg_kind_ok l tr.(substitution) = all2 arg_kind_ok l tr'.(substitution).
Proof.
  intros Hs. unfold substitute, Subst_apply in Hs. inv_outcome Hs. rewrite unwrap_result_Val in Hs.
  unfold fold_with, Fold_TraitRef, fold_trait_ref in Hs. inv_outcome Hs. subst tr'. simpl.
  by eapply all2_subst.
Qed.

(** A value closed but for one binder, under any other. *)
Lemma scoped_outer {T} `{Scoped T} {ks : VariableKinds} (ks' : VariableKinds) {x : T} :
  scoped [ks] x → scoped [ks; ks'] x.
Proof.
  apply scoped_le. intros i k Hi. exists k. split; [|done]. by destruct i as [|[|]]; simplify_eq/=.
Qed.

(** The substitution of a list of where clauses, one by one. *)
Lemma substitute_each ctx ks ps (wcs : list QuantifiedWhereClause) :
  params_ok ctx ks ps → scoped (ks :: ctx) wcs →
  ∃ wcs', mapM (λ wc, substitute (mkBinders ks wc) ps) wcs = Val wcs' ∧ scoped ctx wcs'.
Proof.
  intros Hps. induction wcs as [|wc wcs IH]; [by exists []|]. intros [Hwc Hwcs]%andb_true_iff.
  destruct (substitute_scoped ks ctx ps wc Hps Hwc) as (wc' & Hs & Hwc'). destruct (IH Hwcs) as (wcs' & Hm & ?).
  exists (wc' :: wcs'). split; [|exact (scoped_cons ctx wc' wcs' Hwc' ltac:(assumption))].
  change (mapM _ (wc :: wcs)) with
    (substitute (mkBinders ks wc) ps ≫= λ y, mapM (λ wc, substitute (mkBinders ks wc) ps) wcs ≫= λ k, Val (y :: k)).
  rewrite Hs. simpl. by rewrite Hm.
Qed.

Lemma atv_triple v env : atv_ok v = true → triple [] (to_program_clauses db fuel v env) (λ _, True).
Proof.
  unfold atv_ok. rewrite !andb_true_iff, Nat.leb_le. intros [[[[[Hv Hi] Ha] Hlen] Hik] Hak].
  unfold to_program_clauses, atv_to_program_clauses.
  set (impl := db.(impl_datum) v.(atv_impl_id)) in *.
  set (assoc := db.(associated_ty_data) v.(atv_associated_ty_id)) in *.
  apply triple_push_binders; [by apply scoped_global|]. intros [t] Ht Hk. cbn [atv_ty] in *.
  eapply clauses_bind; [apply triple_substitution_in_scope|]. intros s [-> _].
  pose proof (scoped_ident _ Hk) as Hid. set (ks := [] ++ _) in *.
  change (binders (atv_value v)) with ks in Hlen, Hik, Hak.
  set (split := length ks - _) in *.
  apply andb_true_iff in Hi as [_ [Htr Hiw]%andb_true_iff].
  apply andb_true_iff in Ha as [_ [_ Haw]%andb_true_iff].
  assert (params_ok [ks] impl.(impl_binders).(binders) (drop split (ident ks))) as Hips
    by by apply params_ok_intro, scoped_drop.
  pose proof (scoped_outer ks Htr) as Htr1. pose proof (scoped_outer ks Hiw) as Hiw1.
  pose proof (scoped_outer ks Haw) as Haw1.
  destruct (substitute_scoped _ [ks] _ _ Hips Htr1) as (tr & Hs & Htr').
  set (p := mkProjectionTy v.(atv_associated_ty_id) (take split (ident ks) ++ tr.(substitution))).
  assert (scoped [ks] p.(proj_substitution)) as Hps.
  { apply scoped_app; [by apply scoped_take|]. by apply scoped_trait_ref_args. }
  assert (params_ok [ks] assoc.(assoc_binders).(binders) p.(proj_substitution)) as Haps.
  { apply params_ok_intro; [|done]. apply all2_app in Hak as (l0 & l1 & -> & H0 & H1). apply all2_app.
    exists l0, l1. split_and!; [done..|]. by rewrite <- (substitute_trait_ref_kinds _ _ _ _ _ Hs). }
  eapply (clauses_bind _ _ _ (λ r, r = (drop split (ident ks), p))).
  { eapply triple_pure; [|done]. unfold impl_parameters_and_projection_from_associated_ty_value,
      split_associated_ty_value_parameters, usize_sub, split_at. fold impl. unfold binders_len.
    replace (_ <=? _) with true by (symmetry; rewrite length_ident; by apply Nat.leb_le).
    simpl. rewrite length_ident. fold split.
    replace (_ <=? _) with true by (symmetry; apply Nat.leb_le; unfold split; lia). simpl.
    unfold binders_map. by rewrite Hs. }
  intros _ ->.
  destruct (substitute_each [ks] _ _ _ Hips Hiw1) as (iwcs & Hiwcs & Hiws).
  destruct (substitute_each [ks] _ _ _ Haps Haw1) as (awcs & Hawcs & Haws).
  eapply (clauses_bind _ _ _ (λ r, r = iwcs)); [by eapply triple_pure|]. intros _ ->.
  eapply (clauses_bind _ _ _ (λ r, r = awcs)); [by eapply triple_pure|]. intros _ ->.
  apply triple_push_clause; [|by apply scoped_where_goals, scoped_app].
  apply scoped_normalize; [|exact Ht]. by apply scoped_subst_leaves.
Qed.
End Declarations.
