(* ===== verification/SuperTraitsThm.v ===== *)
(** * The super traits of a trait

    [super_traits] walks the [Self: Trait] bounds depth first and skips the traits of
    the current path.  On the traits of a program whose bounds fit the parameters of
    the traits that they name, it terminates, with a fuel of one more than their
    number, and finds the traits that the bounds reach. *)

From stdpp Require Import base list numbers gmap relations.
From S2P Require Import Prelude Ir Fold FoldLaws Shift ShiftThm RustIr RecSolve Builder SuperTraits ProgramClauses Scoped BuilderScopes DeclScopes Programs.

(** ** Reachability along a path that avoids a set *)

Section Reach.
Context {A} `{Countable A} (R : relation A).

Definition avoiding (seen : gset A) : relation A := λ x y, R x y ∧ x ∉ seen ∧ y ∉ seen.
(** [y] is reached from [x] without the elements of [seen]. *)
Definition visited (seen : gset A) (x y : A) : Prop := x ∉ seen ∧ rtc (avoiding seen) x y.

(** A path that comes back to [t] can start there. *)
Lemma avoiding_split seen t x u :
  rtc (avoiding seen) x u → x ∉ seen →
  visited ({[t]} ∪ seen) x u ∨ t = u ∨ ∃ v, R t v ∧ visited ({[t]} ∪ seen) v u.
Proof.
  induction 1 as [x|x y u (Hxy & _ & Hy) Hyu IH]; intros Hx.
  - destruct (decide (t = x)); [by right; left|]. left. split; [set_solver|done].
  - destruct (IH Hy) as [[Hy' Hr]|[?|?]]; [|by right; left|by right; right].
    destruct (decide (x = t)) as [->|]; [right; right; by exists y|].
    left. split; [set_solver|]. eapply rtc_l; [|exact Hr]. split; [done|set_solver].
Qed.

Lemma visited_step seen t u :
  t ∉ seen → visited seen t u ↔ t = u ∨ ∃ v, R t v ∧ visited ({[t]} ∪ seen) v u.
Proof.
  intros Ht. split.
  - intros [_ Hr]. destruct (avoiding_split _ t _ _ Hr Ht) as [[Hn _]|?]; [set_solver|done].
  - intros [->|(v & Htv & Hv & Hr)]; [by split|]. split; [done|]. eapply rtc_l.
    + split; [exact Htv|set_solver].
    + eapply rtc_subrel; [|exact Hr]. intros x y (? & ? & ?). split; [done|set_solver].
Qed.

Lemma visited_empty t u : visited ∅ t u ↔ rtc R t u.
Proof.
  split; [intros [_ Hr]|intros Hr; split; [set_solver|]];
    (eapply rtc_subrel; [|exact Hr]); [by intros x y [? _]|by intros x y; split].
Qed.
End Reach.

(** ** The bounds of a trait *)

Lemma omap_id_fmap {A B} (f : A → option B) (l : list A) : omap id (f <$> l) = omap f l.
Proof. induction l as [|x l IH]; [done|]. csimpl. destruct (f x); csimpl; [f_equal|]; exact IH. Qed.

(** A list is folded element by element. *)
Lemma fold_list_Forall2 {T} `{Fold T} (F : Folder Fallible) (l l' : list T) d :
  fold_with F l d = Val l' → Forall2 (λ x y, fold_with F x d = Val y) l l'.
Proof.
  unfold fold_with at 1, Fold_list. revert l'. induction l as [|x l IH]; intros l' Hl; simpl in Hl.
  - injection Hl as <-. constructor.
  - inv_outcome Hl. subst l'. constructor; [done|]. by apply IH.
Qed.

Section Supers.
Context (db : RustIrDatabase).

Definition parameters_of (id : TraitId) : VariableKinds := (db.(trait_datum) id).(trait_binders).(binders).
Definition bounds_of (id : TraitId) : list QuantifiedWhereClause :=
  (db.(trait_datum) id).(trait_binders).(value).(trait_bound_where_clauses).

(** The arguments of a trait reference have the kinds of the parameters of the trait. *)
Definition trait_ref_fits (tr : TraitRef) : bool :=
  all2 arg_kind_ok (parameters_of tr.(trait_id)) tr.(substitution).
Definition bound_fits (wc : WhereClause) : bool :=
  match wc with
  | WcImplemented tr => trait_ref_fits tr && existsb is_ty_kind (parameters_of tr.(trait_id))
  | _ => true
  end.

(** The bound on [Self] that a where clause is, if it is one. *)
Definition self_trait (qwc : QuantifiedWhereClause) : option (Binders TraitRef) :=
  match qwc.(value) with
  | WcImplemented tr =>
      self_ty ← head (type_parameters tr.(substitution));
      if decide (bound_var self_ty = Some (mkBoundVar ONE 0)) then Some (mkBinders qwc.(binders) tr) else None
  | _ => None
  end.
Definition ref_id (r : Binders TraitRef) : TraitId := r.(value).(trait_id).
Definition super_of (t u : TraitId) : Prop := u ∈ ref_id <$> omap self_trait (bounds_of t).

(** A trait whose bounds are in scope and fit the traits that they name. *)
Definition trait_bounds_ok (id : TraitId) : bool :=
  trait_ok (db.(trait_datum) id) && forallb (λ qwc, bound_fits qwc.(value)) (bounds_of id).

Lemma all2_type_parameter ks s :
  existsb is_ty_kind ks = true → all2 arg_kind_ok ks s = true → ∃ t, head (type_parameters s) = Some t.
Proof.
  revert s. induction ks as [|k ks IH]; intros [|a s]; try done. simpl.
  rewrite orb_true_iff, andb_true_iff. intros Hk [Ha Hs].
  destruct a as [t| |]; [by exists t|..]; apply IH; try done; destruct Hk as [Hk|]; try done; by destruct k.
Qed.

Lemma self_bounds_Val qwcs :
  forallb (λ qwc : QuantifiedWhereClause, bound_fits qwc.(value)) qwcs = true →
  self_bounds qwcs = Val (omap self_trait qwcs).
Proof.
  intros Hq. unfold self_bounds. rewrite <- omap_id_fmap.
  assert (mapM self_bound qwcs = Val (self_trait <$> qwcs)) as ->; [|done].
  induction qwcs as [|[bs wc] qwcs IH]; [done|]. apply andb_true_iff in Hq as [Hw Hq]. simpl.
  assert (self_bound (mkBinders bs wc) = Val (self_trait (mkBinders bs wc))) as ->.
  { destruct wc as [tr| | |]; try done. apply andb_true_iff in Hw as [Hf He].
    destruct (all2_type_parameter _ _ He Hf) as [t Ht]. unfold self_bound, self_trait, self_type_parameter. simpl.
    by rewrite Ht. }
  simpl. rewrite IH by done. done.
Qed.

Lemma self_trait_scoped ctx qwc r :
  scoped ctx qwc → bound_fits qwc.(value) = true → self_trait qwc = Some r →
  scoped ctx r ∧ trait_ref_fits r.(value) = true.
Proof.
  destruct qwc as [bs [tr| | |]]; try done. intros Hs [Hf _]%andb_true_iff Hr. unfold self_trait in Hr. simpl in Hr.
  destruct (head _); simpl in Hr; [|done]. case_decide; [|done]. by injection Hr as <-.
Qed.

(** ** The references to super traits *)

Lemma scoped_tail {T} `{Scoped T} ks ctx (x : T) : scoped [ks] x → scoped (ks :: ctx) x.
Proof. apply scoped_le. intros [|i] k Hk; simplify_eq/=. by exists k. Qed.

Lemma scoped_omap {T U} `{Scoped T, Scoped U} ctx (f : T → option U) (l : list T) :
  (∀ x y, x ∈ l → f x = Some y → scoped ctx x → scoped ctx y) → scoped ctx l → scoped ctx (omap f l).
Proof.
  induction l as [|x l IH]; intros Hf Hl; [done|]. apply andb_true_iff in Hl as [Hx Hl]. csimpl.
  assert (scoped ctx (omap f l)) by (apply IH; [set_solver|done]).
  destruct (f x) as [y|] eqn:Hy; [|done]. apply scoped_cons; [|done]. eapply Hf; [left|done..].
Qed.

(** Substitution keeps the trait of a reference and the kinds of its arguments. *)
Lemma fold_trait_ref_kinds F (r r' : TraitRef) d :
  fold_with (M := Fallible) F r d = Val r' →
  r'.(trait_id) = r.(trait_id) ∧ trait_ref_fits r' = trait_ref_fits r.
Proof.
  destruct r as [id s]. unfold fold_with, Fold_TraitRef, fold_trait_ref. simpl. intros Hr. inv_outcome Hr. subst.
  split; [done|]. unfold trait_ref_fits. simpl. symmetry. by eapply all2_subst.
Qed.

Lemma fold_ref F (r r' : Binders TraitRef) d :
  fold_with (M := Fallible) F r d = Val r' →
  r'.(binders) = r.(binders) ∧ ref_id r' = ref_id r ∧ trait_ref_fits r'.(value) = trait_ref_fits r.(value).
Proof.
  unfold fold_with at 1, Fold_Binders, fold_binders. intros Hr. inv_outcome Hr. subst. simpl. split; [done|].
  by eapply fold_trait_ref_kinds.
Qed.

Context (all : gset TraitId).
Context (Hok : ∀ t, t ∈ all → trait_bounds_ok t = true).
Context (Hclosed : ∀ t u, t ∈ all → super_of t u → u ∈ all).

Definition ref_ok (ctx : Scope) (r : Binders TraitRef) : Prop :=
  scoped ctx r ∧ ref_id r ∈ all ∧ trait_ref_fits r.(value) = true.

(** The parameters of a reference that fits can be substituted for those of its trait. *)
Lemma ref_params_ok ctx r :
  ref_ok ctx r → params_ok (r.(binders) :: ctx) (parameters_of (ref_id r)) r.(value).(substitution).
Proof.
  intros (Hs & _ & Hf). apply andb_true_iff in Hs as [_ Hs]. apply params_ok_intro; [done|].
  by apply scoped_trait_ref_args.
Qed.

(** A list of references, after a substitution. *)
Lemma substitute_refs ks ctx ps (l : list (Binders TraitRef)) :
  params_ok ctx ks ps → Forall (ref_ok (ks :: ctx)) l →
  ∃ l', substitute (mkBinders ks l) ps = Val l' ∧ Forall (ref_ok ctx) l' ∧ ref_id <$> l' = ref_id <$> l.
Proof.
  intros Hps Hl. destruct (substitute_scoped (V := list (Binders TraitRef)) ks ctx ps l Hps) as (l' & Hs & Hsc).
  { apply forallb_forall. intros x Hx%list_elem_of_In. by eapply Forall_forall in Hl as [? _]. }
  exists l'. split; [done|]. unfold substitute, Subst_apply in Hs. inv_outcome Hs. rewrite unwrap_result_Val in Hs.
  apply fold_list_Forall2 in Hs. clear Hx. cbn [value] in Hs. induction Hs as [|r r' l l' Hr Hrs IH]; [done|].
  apply andb_true_iff in Hsc as [Hr' Hrs']. inv Hl. destruct IH as [? Hids]; [done..|].
  apply fold_ref in Hr as (_ & Hid & Hf). split.
  - constructor; [|done]. match goal with H : ref_ok _ _ |- _ => destruct H as (_ & ? & ?) end.
    split_and!; [done|by rewrite Hid|by rewrite Hf].
  - rewrite !fmap_cons. by rewrite Hid, Hids.
Qed.

Lemma self_refs_ok ctx id :
  id ∈ all → Forall (ref_ok (parameters_of id :: ctx)) (omap self_trait (bounds_of id)).
Proof.
  intros Hid. apply Hok in Hid as Ho. apply andb_true_iff in Ho as [Hs Hf].
  apply andb_true_iff in Hs as [_ Hs]. rewrite forallb_forall in Hf.
  apply Forall_forall. intros r Hr. pose proof Hr as Hr'. apply list_elem_of_omap in Hr' as (qwc & Hq & Hqr).
  assert (scoped [parameters_of id] qwc) as Hsq.
  { revert Hs. simpl. rewrite forallb_forall. intros Hs. by apply Hs, list_elem_of_In. }
  destruct (self_trait_scoped _ _ _ Hsq (Hf _ ltac:(by apply list_elem_of_In)) Hqr) as [Hsc Hfit].
  split_and!; [by apply scoped_tail| |done]. apply (Hclosed id); [done|].
  unfold super_of. apply list_elem_of_fmap. eauto.
Qed.

Lemma supers_of_ref ctx r :
  ref_ok ctx r →
  ∃ l, substitute (mkBinders (parameters_of (ref_id r)) (omap self_trait (bounds_of (ref_id r))))
         r.(value).(substitution) = Val l ∧
    Forall (ref_ok (r.(binders) :: ctx)) l ∧
    ref_id <$> l = ref_id <$> omap self_trait (bounds_of (ref_id r)).
Proof.
  intros Hr. apply substitute_refs; [by apply ref_params_ok|]. apply self_refs_ok. apply Hr.
Qed.

(** The binders of a reference and of its trait reference, in one. *)
Lemma fuse_ref ctx bs r :
  kinds_ok bs = true → ref_ok (bs :: ctx) r →
  ∃ q, fuse_binders (mkBinders bs r) = Val q ∧ ref_ok ctx q ∧ ref_id q = ref_id r.
Proof.
  intros Hbs (Hs & Hid & Hf). destruct r as [bs' tr]. apply andb_true_iff in Hs as [Hk Hs].
  cbn [binders value] in Hk, Hs. unfold fuse_binders. cbn [binders value].
  assert (params_ok ((bs ++ bs') :: ctx) bs'
    (imap (λ i k, to_bound_variable k (mkBoundVar INNERMOST (i + length bs))) bs')) as Hps.
  { erewrite imap_ext; [|intros i k _; by rewrite Nat.add_comm].
    eapply Forall2_impl; [exact (params_ok_new bs bs' Hk)|]. intros k a [? Ha]. split; [done|].
    exact (scoped_tail (T := GenericArg) _ ctx a Ha). }
  destruct (scoped_subst (T := TraitRef) [] bs' (bs :: ctx) _ _ tr Hps) as (tr' & Htr & Hs'); [|done|].
  { intros [|i] k Hik; simplify_eq/=; eexists; split; [done|by eexists|done|done]. }
  unfold substitute, Subst_apply. cbn [binders value]. rewrite length_imap, Nat.eqb_refl. simpl.
  simpl in Htr. change 0 with INNERMOST in Htr. rewrite Htr. simpl. eexists. split; [done|].
  pose proof Htr as Hfold. unfold fold_with, Fold_TraitRef, fold_trait_ref in Hfold. inv_outcome Hfold. subst tr'.
  split; [|done]. split_and!; [|done|].
  - apply andb_true_iff. split; [|done]. cbn [binders]. by rewrite kinds_ok_app, Hbs.
  - unfold trait_ref_fits in *. simpl in *. rewrite <- Hf. symmetry. by eapply all2_subst.
Qed.

(** ** The walk *)

(** What a call of [go] for [r] does: it keeps the path, and adds references to the
    traits that are visited from there. *)
Definition go_spec (ctx : Scope) (m : Fallible GoState) (seen : gset TraitId) (refs : list (Binders TraitRef))
    (targets : TraitId → Prop) : Prop :=
  ∃ new, m = Val (seen, refs ++ new) ∧ Forall (ref_ok ctx) new ∧ ∀ u, u ∈ ref_id <$> new ↔ targets u.

Lemma go_each_spec go ctx bs l seen refs :
  kinds_ok bs = true → Forall (ref_ok (bs :: ctx)) l →
  (∀ q refs, ref_ok ctx q → go_spec ctx (go q seen refs) seen refs (visited super_of seen (ref_id q))) →
  go_spec ctx (go_each go bs l (seen, refs)) seen refs (λ u, ∃ v, v ∈ ref_id <$> l ∧ visited super_of seen v u).
Proof.
  intros Hbs Hl Hgo. revert refs. induction Hl as [|r l Hr Hl IH]; intros refs; simpl.
  { exists []. rewrite app_nil_r. split_and!; [done..|]. intros u. set_solver. }
  destruct (fuse_ref _ _ _ Hbs Hr) as (q & -> & Hq & Hid). simpl.
  destruct (Hgo q refs Hq) as (new & -> & Hn & Hin). simpl.
  destruct (IH (refs ++ new)) as (new' & -> & Hn' & Hin'). exists (new ++ new').
  rewrite <- app_assoc. split_and!; [done|by apply Forall_app|]. intros u.
  rewrite fmap_app, elem_of_app, Hin, Hin', Hid. set_solver.
Qed.

Lemma super_traits_go_spec fuel ctx r seen refs :
  ref_ok ctx r → size (all ∖ seen) < fuel →
  go_spec ctx (super_traits_go db fuel r seen refs) seen refs (visited super_of seen (ref_id r)).
Proof.
  revert ctx r seen refs. induction fuel as [|fuel IH]; intros ctx r seen refs Hr Hfuel; [lia|]. simpl.
  case_decide as Hseen.
  { exists []. rewrite app_nil_r. split_and!; [done..|]. intros u. split; [set_solver|by intros [? _]]. }
  pose proof (Hr) as (Hsc & Hid & _). pose proof (Hok _ Hid) as [_ Hf]%andb_true_iff.
  change (trait_bound_where_clauses _) with (bounds_of (ref_id r)).
  rewrite self_bounds_Val by exact Hf. simpl.
  destruct (supers_of_ref ctx r Hr) as (l & Hl & Hlok & Hlids).
  change (db.(trait_datum) (trait_id (value r))).(trait_binders).(binders) with (parameters_of (ref_id r)).
  rewrite Hl. simpl. clear Hl. change (trait_id (value r)) with (ref_id r) in *.
  apply andb_true_iff in Hsc as [Hk _].
  destruct (go_each_spec (super_traits_go db fuel) ctx r.(binders) l ({[ref_id r]} ∪ seen) (refs ++ [r]) Hk Hlok)
    as (new & Heach & Hnew & Hin).
  { intros q refs' Hq. apply IH; [done|].
    assert (size (all ∖ ({[ref_id r]} ∪ seen)) < size (all ∖ seen)); [|lia].
    apply subset_size. set_solver. }
  rewrite Heach. simpl. exists (r :: new). split_and!.
  - rewrite <- app_assoc. simpl. do 2 f_equal. set_solver.
  - by constructor.
  - intros u. rewrite fmap_cons, elem_of_cons, Hin, (visited_step _ _ (ref_id r)) by done.
    setoid_rewrite Hlids. unfold super_of. set_solver.
Qed.

(** The parameters of a trait, under an empty binder. *)
Lemma shifted_ident ks :
  kinds_ok ks = true → ∃ s, term_shifted_in (ident ks) = Val s ∧ params_ok [[]; ks] ks s.
Proof.
  intros Hk. exists (imap (λ i k, to_bound_variable k (mkBoundVar ONE i)) ks). split.
  - unfold term_shifted_in, term_shifted_in_from, ident. rewrite unwrap_result_Val. unfold fold_with, Fold_list.
    assert (∀ n, mapM (λ x, fold_with (M := Fallible) (Shifter ONE) x INNERMOST)
        (imap (λ i k, to_bound_variable k (mkBoundVar INNERMOST (n + i))) ks) =
      Val (imap (λ i k, to_bound_variable k (mkBoundVar ONE (n + i))) ks)) as Hm; [|exact (Hm 0)].
    induction ks as [|k ks IH]; intros n; [done|]. apply andb_true_iff in Hk as [Hk Hks].
    change (mapM ?f (imap ?g (k :: ks))) with (f (g 0 k) ≫= λ y, mapM f (imap (g ∘ S) ks) ≫= λ l, Val (y :: l)). cbn beta.
    assert (fold_with (M := Fallible) (Shifter ONE) (to_bound_variable k (mkBoundVar INNERMOST (n + 0))) INNERMOST
      = Val (to_bound_variable k (mkBoundVar ONE (n + 0)))) as ->.
    { destruct k as [| |[]]; try done. }
    simpl. erewrite imap_ext; [rewrite (IH Hks (S n))|].
    + simpl. do 2 f_equal. apply imap_ext. intros i x _. simpl. by rewrite Nat.add_succ_r.
    + intros i x _. simpl. by rewrite Nat.add_succ_r.
  - apply Forall2_same_length_lookup_2; [by rewrite length_imap|]. intros i k p Hi Hp.
    rewrite list_lookup_imap, Hi in Hp. injection Hp as <-. apply to_bound_variable_ok.
    + unfold kinds_ok in Hk. rewrite forallb_forall in Hk. apply Hk, list_elem_of_In. by eapply list_elem_of_lookup_2.
    + intros ok Hok'. apply var_ok_spec. split; [lia|]. right. exists ks, k. by split_and!.
Qed.

Lemma all2_params ctx ks ps : params_ok ctx ks ps → all2 arg_kind_ok ks ps = true.
Proof. induction 1 as [|k p ks ps [Hk _] _ IH]; [done|]. simpl. by rewrite Hk. Qed.

Lemma super_traits_spec fuel t :
  t ∈ all → size all < fuel →
  ∃ refs, super_traits db fuel t = Val (mkBinders (parameters_of t) refs) ∧
    Forall (ref_ok [parameters_of t]) refs ∧ ∀ u, u ∈ ref_id <$> refs ↔ rtc super_of t u.
Proof.
  intros Ht Hfuel. pose proof (Hok t Ht) as [[Hk _]%andb_true_iff _]%andb_true_iff.
  change (kinds_ok (parameters_of t) = true) in Hk. destruct (shifted_ident _ Hk) as (s & Hs & Hps).
  assert (ref_ok [parameters_of t] (mkBinders [] (mkTraitRef t s))) as Href.
  { split_and!; [|done|by eapply all2_params]. apply andb_true_iff. split; [done|].
    by eapply scoped_trait_ref, params_ok_scoped. }
  destruct (super_traits_go_spec fuel _ _ ∅ [] Href) as (refs & Hgo & Hrefs & Hin).
  { rewrite difference_empty_L. lia. }
  exists refs. split_and!; [|done|].
  - unfold super_traits. change (identity_substitution _) with (ident (parameters_of t)). rewrite Hs. simpl.
    by rewrite Hgo.
  - intros u. by rewrite Hin, visited_empty.
Qed.

(** ** The clauses for bounds *)

Lemma triple_push_trait_super_clauses fuel ks tr :
  size all < fuel → tr.(trait_id) ∈ all → trait_ref_fits tr = true → scoped [ks] tr →
  triple ks (push_trait_super_clauses db fuel tr) (λ _, True).
Proof.
  intros Hfuel Hid Hf Hs.
  destruct (super_traits_spec fuel _ Hid Hfuel) as (refs & Hrefs & Hok' & _).
  eapply (clauses_bind _ _ _ (λ r, r = mkBinders (parameters_of tr.(trait_id)) refs)); [by eapply triple_pure|].
  intros _ ->.
  destruct (substitute_refs (parameters_of tr.(trait_id)) [ks] tr.(substitution) refs) as (refs' & Hsub & Hrefs' & _).
  { apply params_ok_intro; [done|]. by apply scoped_trait_ref_args. }
  { eapply Forall_impl; [exact Hok'|]. intros r (? & ? & ?). split_and!; [|done..].
    by apply (scoped_tail (T := Binders TraitRef)). }
  eapply (clauses_bind _ _ _ (λ r, r = refs')); [by eapply triple_pure|]. intros _ ->.
  apply triple_iter. eapply Forall_impl; [exact Hrefs'|]. intros r Hr. destruct (Hr) as (Hrs & Hrid & Hrf).
  apply (triple_push_binders_with (λ v, v.(trait_id) = ref_id r ∧ trait_ref_fits v = true)); [done|..].
  { intros F v Hv. apply (fold_trait_ref_kinds F r.(value) v) in Hv as [-> ->]. done. }
  intros v Hv [Hvid Hvf] _. rewrite <- Hvid in Hrid.
  pose proof (Hok _ Hrid) as [[_ Hw]%andb_true_iff _]%andb_true_iff.
  destruct (substitute_scoped (V := list QuantifiedWhereClause) (parameters_of v.(trait_id))
    [ks ++ r.(binders)] v.(substitution) (bounds_of v.(trait_id))) as (wc & Hwc & Hwcs).
  { apply params_ok_intro; [done|]. by apply scoped_trait_ref_args. }
  { by apply scoped_tail. }
  eapply (clauses_bind _ _ _ (λ r, r = wc)); [by eapply triple_pure|]. intros _ ->.
  apply triple_push_clause; [done|]. by apply scoped_where_goals.
Qed.

Lemma triple_push_bound_clauses fuel ks wc :
  size all < fuel → scoped [ks] wc →
  match wc with WcImplemented tr => tr.(trait_id) ∈ all ∧ trait_ref_fits tr = true | _ => True end →
  triple ks (push_bound_clauses db fuel wc) (λ _, True).
Proof.
  intros Hfuel Hs Hwc. destruct wc; simpl; try by apply clauses_ret.
  - destruct Hwc. by apply triple_push_trait_super_clauses.
  - by apply triple_push_fact.
Qed.

(** ** Opaque types *)

Definition bound_names (wc : WhereClause) : bool :=
  match wc with
  | WcImplemented tr => bool_decide (tr.(trait_id) ∈ all) && trait_ref_fits tr
  | _ => true
  end.

(** The bounds of an opaque type have one parameter, for its placeholder. *)
Definition opaque_ok (o : OpaqueTyDatum) : bool :=
  let bs := o.(opaque_bound).(value).(opaque_bounds) in
  scopedb [] o.(opaque_bound)
  && scopedb [o.(opaque_bound).(binders)] (db.(hidden_opaque_type) o.(opaque_ty_id))
  && all2 arg_kind_ok bs.(binders) [ArgTy TyNever]
  && forallb (λ qwc : QuantifiedWhereClause, bound_names qwc.(value)) bs.(value).

Lemma fold_bound_names F (wc wc' : WhereClause) d :
  fold_with (M := Fallible) F wc d = Val wc' → bound_names wc = true → bound_names wc' = true.
Proof.
  intros Hf. destruct wc as [tr| | |]; unfold fold_with, Fold_WhereClause in Hf; simpl in Hf; inv_outcome Hf; subst; try done.
  simpl. unfold trait_ref_fits. simpl. by erewrite all2_subst.
Qed.

Lemma fold_qwcs_names F (l l' : list QuantifiedWhereClause) d :
  fold_with (M := Fallible) F l d = Val l' →
  forallb (λ qwc : QuantifiedWhereClause, bound_names qwc.(value)) l = true →
  forallb (λ qwc : QuantifiedWhereClause, bound_names qwc.(value)) l' = true.
Proof.
  intros Hl%fold_list_Forall2. induction Hl as [|x y l l' Hx Hl IH]; [done|]. cbn [forallb].
  rewrite !andb_true_iff. intros [Hn ?]. split; [|by apply IH].
  unfold fold_with, Fold_Binders, fold_binders in Hx. inv_outcome Hx. subst. by eapply fold_bound_names.
Qed.

Lemma opaque_triple fuel o env :
  size all < fuel → opaque_ok o = true → triple [] (to_program_clauses db fuel o env) (λ _, True).
Proof.
  intros Hfuel. unfold opaque_ok. rewrite !andb_true_iff. intros [[[Hs Hh] Hk] Hn].
  apply (triple_push_binders_with (λ v,
    all2 arg_kind_ok v.(opaque_bounds).(binders) [ArgTy TyNever] = true ∧
    forallb (λ qwc : QuantifiedWhereClause, bound_names qwc.(value)) v.(opaque_bounds).(value) = true));
    [by apply scoped_global|..].
  { intros F v Hv. unfold fold_with, Fold_OpaqueTyDatumBound in Hv. inv_outcome Hv. subst. simpl.
    unfold fold_with, Fold_Binders, fold_binders in Hx. inv_outcome Hx. subst. simpl. split; [done|].
    by eapply fold_qwcs_names. }
  intros [bs wcs] [Hbs Hwcs]%andb_true_iff [Hbk Hbn] Hks.
  cbn [opaque_bounds opaque_where_clauses] in Hbs, Hwcs, Hbk, Hbn |- *.
  eapply clauses_bind; [apply triple_substitution_in_scope|]. intros s [-> _].
  pose proof (scoped_ident _ Hks) as Hid. set (ks := [] ++ _) in *. set (ty := TyOpaqueType _ _).
  assert (scoped [ks] ty) as Hty by by apply scoped_subst_leaves.
  seq; [apply triple_push_clause; [|done]; apply scoped_alias_eq; [by apply scoped_subst_leaves|done]|].
  seq; [apply triple_push_fact; apply scoped_alias_eq; [by apply scoped_subst_leaves|done]|].
  seq.
  { apply triple_push_binders; [done|]. intros l Hl _. apply triple_push_clause; [by apply scoped_push|].
    by apply scoped_wf_goals. }
  assert (params_ok [ks] bs.(binders) [ArgTy ty]) as Hps.
  { apply params_ok_intro; [|by apply (scoped_cons (T := GenericArg))].
    destruct bs.(binders) as [|[] []]; simpl in Hbk; try done. }
  apply andb_true_iff in Hbs as [_ Hbs].
  apply triple_iter. apply Forall_forall. intros b Hb. apply list_elem_of_fmap in Hb as (qwc & -> & Hq).
  apply list_elem_of_In in Hq. rewrite forallb_forall in Hbn. specialize (Hbn _ Hq).
  assert (scoped [bs.(binders); ks] qwc) as Hqs.
  { revert Hbs. simpl. rewrite forallb_forall. intros Hbs. by apply Hbs. }
  destruct (substitute_scoped _ _ _ _ Hps Hqs) as (q & Hsub & Hqs').
  eapply (clauses_bind _ _ _ (λ r, r = q)); [by eapply triple_pure|]. intros _ ->.
  unfold substitute, Subst_apply in Hsub. inv_outcome Hsub. rewrite unwrap_result_Val in Hsub.
  unfold fold_with, Fold_Binders, fold_binders in Hsub. cbn [value] in Hsub. inv_outcome Hsub. subst q.
  apply fold_bound_names in Hx0; [|done].
  apply (triple_push_binders_with (λ wc, bound_names wc = true)); [done|..].
  { intros F v Hv. by eapply fold_bound_names. }
  intros wc Hwc Hn' _. apply triple_push_bound_clauses; [done|done|]. destruct wc; try done.
  by apply andb_true_iff in Hn' as [?%bool_decide_eq_true ?].
Qed.
End Supers.

(** ** The theorem *)

(** The traits of a program: their bounds are in scope, fit the traits that they name,
    and those on [Self] name traits of the program. *)
Definition traits_ok (db : RustIrDatabase) (traits : gset TraitId) : bool :=
  forallb (λ t, trait_bounds_ok db t &&
    forallb (λ r, bool_decide (ref_id r ∈ traits)) (omap self_trait (bounds_of db t))) (elements traits).

Lemma traits_ok_spec db traits :
  traits_ok db traits = true →
  (∀ t, t ∈ traits → trait_bounds_ok db t = true) ∧ (∀ t u, t ∈ traits → super_of db t u → u ∈ traits).
Proof.
  unfold traits_ok. rewrite forallb_forall. intros Ht.
  assert (∀ t, t ∈ traits → _) as Ht' by (intros t Hin; exact (Ht t (proj1 (list_elem_of_In _ _) (proj2 (elem_of_elements _ _) Hin)))).
  split.
  - intros t Hin. by apply Ht', andb_true_iff in Hin as [? _].
  - intros t u Hin Hu. apply Ht', andb_true_iff in Hin as [_ Hf]. rewrite forallb_forall in Hf.
    unfold super_of in Hu. apply list_elem_of_fmap in Hu as (r & -> & Hr).
    apply list_elem_of_In, Hf in Hr. by apply bool_decide_eq_true in Hr.
Qed.

(** C11. [super_traits] terminates, without a panic, when its recursion may be as deep
    as the number of traits of the program, whatever cycles their bounds make.  The
    references it returns are those to the trait itself and to every trait that a
    chain of [Self: Trait] bounds reaches, and to no other; their variables are bound,
    by the parameters of the trait or by their own binders, and their arguments have
    the kinds of the parameters of the traits that they name. *)
Theorem super_traits_reachable (db : RustIrDatabase) (traits : gset TraitId) (fuel : nat) (t : TraitId)
    (Hok : traits_ok db traits = true) (Ht : t ∈ traits) (Hfuel : size traits < fuel) :
  ∃ refs, super_traits db fuel t = Val (mkBinders (parameters_of db t) refs) ∧
    (∀ u, u ∈ ref_id <$> refs ↔ rtc (super_of db) t u) ∧
    Forall (λ r, scoped [parameters_of db t] r ∧ trait_ref_fits db r.(value) = true) refs.
Proof.
  apply traits_ok_spec in Hok as [Hok Hclosed].
  destruct (super_traits_spec db traits Hok Hclosed fuel t Ht Hfuel) as (refs & ? & Hrefs & ?).
  exists refs. split_and!; [done..|]. eapply Forall_impl; [exact Hrefs|]. by intros r (? & _ & ?).
Qed.

(** [trait A: B + for<'a> C<'a>], [trait B: A], [trait C<'a>: A], [trait D]. *)
Definition bound_on_self (ks : list VariableKind) (trait : TraitId) (args : Substitution) : QuantifiedWhereClause :=
  mkBinders ks (WcImplemented (mkTraitRef trait (ArgTy (TyBoundVar (mkBoundVar ONE 0)) :: args))).
Definition trait_with (id : TraitId) (ks : list VariableKind) (bounds : list QuantifiedWhereClause) : TraitDatum :=
  mkTraitDatum id (mkBinders ks (mkTraitDatumBound bounds)) plain_flags [] None.
Definition cyclic_db : RustIrDatabase :=
  program_db [
    trait_with 0 [VkTy General] [bound_on_self [] 1 [];
      bound_on_self [VkLifetime] 2 [ArgLifetime (LtBoundVar (mkBoundVar INNERMOST 0))]];
    trait_with 1 [VkTy General] [bound_on_self [] 0 []];
    trait_with 2 [VkTy General; VkLifetime] [bound_on_self [] 0 []];
    trait_with 3 [VkTy General] []] [] [] [].
Definition cyclic_traits : gset TraitId := {[0; 1; 2; 3]}%N.

Lemma super_traits_reachable_witness :
  ∃ refs, super_traits cyclic_db 5 0%N = Val (mkBinders (parameters_of cyclic_db 0%N) refs) ∧
    (∀ u, u ∈ ref_id <$> refs ↔ rtc (super_of cyclic_db) 0%N u) ∧
    Forall (λ r, scoped [parameters_of cyclic_db 0%N] r ∧ trait_ref_fits cyclic_db r.(value) = true) refs.
Proof.
  apply (super_traits_reachable cyclic_db cyclic_traits);
    [vm_compute; reflexivity|set_solver|apply Nat.ltb_lt; vm_compute; reflexivity].
Defined.

(** The traits that it finds, in order. *)
Definition super_ids (t : TraitId) : list TraitId :=
  match super_traits cyclic_db 5 t with Val r => map ref_id r.(value) | _ => [] end.
Example cyclic_super_traits : super_ids <$> [0; 1; 2; 3]%N = [[0; 1; 2]; [1; 0; 2]; [2; 0; 1]; [3]]%N.
Proof. by vm_compute. Qed.
