(* ===== verification/DeclThm.v ===== *)
(** * The clauses of declarations are well kinded

    The contract between the declarations of a program and the solvers: well-kinded
    declarations give, without a panic, clauses in which every variable is bound and
    has the kind of its binder. *)

From stdpp Require Import base list numbers gmap.
From S2P Require Import Prelude Ir IrCountable Fold FoldLaws Shift ShiftThm RustIr RecSolve Builder SuperTraits ProgramClauses Scoped BuilderScopes DeclScopes Programs SuperTraitsThm.

Inductive Declaration :=
  | DeclImpl (impl : ImplDatum)
  | DeclAssociatedTyValue (atv : AssociatedTyValue)
  | DeclOpaqueTy (o : OpaqueTyDatum)
  | DeclAdt (adt : AdtDatum)
  | DeclFnDef (f : FnDefDatum)
  | DeclTrait (t : TraitDatum)
  | DeclAssociatedTy (assoc : AssociatedTyDatum).

#[global] Instance declaration_to_program_clauses : ToProgramClauses Declaration := λ db fuel self environment,
  match self with
  | DeclImpl x => to_program_clauses db fuel x environment
  | DeclAssociatedTyValue x => to_program_clauses db fuel x environment
  | DeclOpaqueTy x => to_program_clauses db fuel x environment
  | DeclAdt x => to_program_clauses db fuel x environment
  | DeclFnDef x => to_program_clauses db fuel x environment
  | DeclTrait x => to_program_clauses db fuel x environment
  | DeclAssociatedTy x => to_program_clauses db fuel x environment
  end.

(** The variables of a declaration are bound, with the kinds they are used at, and its
    parameters fit those of the declarations it refers to. *)
Definition declaration_ok (db : RustIrDatabase) (traits : gset TraitId) (d : Declaration) : bool :=
  match d with
  | DeclImpl x => impl_ok x
  | DeclAssociatedTyValue x => atv_ok db x
  | DeclOpaqueTy x => opaque_ok db traits x
  | DeclAdt x => adt_ok x
  | DeclFnDef x => fn_ok x
  | DeclTrait x => trait_ok x
  | DeclAssociatedTy x => assoc_ok db x
  end.

Lemma declaration_triple db traits fuel d env c :
  traits_ok db traits = true → size traits < fuel →
  declaration_ok db traits d = true → has_compatible_clause (E := Floundered) env = Val c →
  triple [] (to_program_clauses db fuel d env) (λ _, True).
Proof.
  intros [Hok Hclosed]%traits_ok_spec Hfuel Hd Hc.
  destruct d; [by apply impl_triple|by apply atv_triple|by eapply opaque_triple|by apply adt_triple|
    by apply fn_triple|by eapply trait_triple|by apply assoc_triple].
Qed.

Lemma good_new : good [] builder_new.
Proof. by split. Qed.

(** C6. The translation of a well-kinded declaration (impl, associated type value,
    opaque type, data type, function, trait or associated type) to program clauses does not panic and
    leaves no binder open, and every variable of the clauses it pushes is bound by its
    clause and is used at the kind of its binder. *)
Theorem declaration_clauses_well_kinded (db : RustIrDatabase) (traits : gset TraitId) (fuel : nat)
    (d : Declaration) (env : Environment) (c : bool)
    (Hok : traits_ok db traits = true) (Hfuel : size traits < fuel)
    (Hd : declaration_ok db traits d = true) (Hc : has_compatible_clause (E := Floundered) env = Val c) :
  ∃ clauses, to_program_clauses db fuel d env builder_new = Val (tt, mkClauseBuilder clauses [] []) ∧
    Forall (λ c, clause_in_scope c = true) clauses.
Proof.
  destruct (declaration_triple db traits fuel d env c Hok Hfuel Hd Hc builder_new good_new) as ([] & [cs bs ps] & Hm & Hg & _).
  destruct Hg as [Hbs Hps _ Hcs]. simpl in *. subst bs ps. by exists cs.
Qed.

(** [trait Iterator { type Item<'a>: Copy where Self: Copy; }] and
    [impl<T> Iterator for (T,) where T: Copy { type Item<'a> = &'a T; }]. *)
Definition lt_var (d i : nat) : Lifetime := LtBoundVar (mkBoundVar d i).
Definition var_at (d i : nat) : GenericArg := ArgTy (TyBoundVar (mkBoundVar d i)).
Definition self_copy (d i : nat) : QuantifiedWhereClause :=
  mkBinders [] (WcImplemented (mkTraitRef 1 [var_at (S d) i])).
Definition self_iterator : QuantifiedWhereClause := mkBinders [] (WcImplemented (mkTraitRef 0 [var_at 1 0])).
Definition item_decl : AssociatedTyDatum :=
  mkAssociatedTyDatum 0 0 "Item" (mkBinders [VkLifetime; VkTy General]
    (mkAssociatedTyDatumBound [mkBinders [] (IbTraitBound (mkTraitBound 1 []))] [self_copy 0 1])).
Definition iterator_decl : TraitDatum :=
  mkTraitDatum 0 (mkBinders [VkTy General] (mkTraitDatumBound [])) plain_flags [0%N] None.
Definition tuple_impl : ImplDatum :=
  mkImplDatum Positive (mkBinders [VkTy General]
    (mkImplDatumBound (mkTraitRef 0 [ArgTy (TyTuple 1 [var_at 0 0])]) [self_copy 0 0])) ImplLocal [0%N].
Definition item_value : AssociatedTyValue :=
  mkAssociatedTyValue 0 0 (mkBinders [VkLifetime; VkTy General]
    (mkAssociatedTyValueBound (TyRef Not (lt_var 0 0) (TyBoundVar (mkBoundVar 0 1))))).
Definition iterator_db : RustIrDatabase :=
  program_db [iterator_decl; plain_trait 1 (Some WkCopy)] [tuple_impl] [item_decl] [item_value].
(** [opaque type Opaque<T>: Iterator = ..]. *)
Definition opaque_decl : OpaqueTyDatum :=
  mkOpaqueTyDatum 0 (mkBinders [VkTy General]
    (mkOpaqueTyDatumBound (mkBinders [VkTy General] [self_iterator]) (mkBinders [] []))).

Lemma declaration_clauses_well_kinded_witness :
  Forall (λ d, ∃ clauses,
      to_program_clauses iterator_db 3 d [] builder_new = Val (tt, mkClauseBuilder clauses [] []) ∧
      Forall (λ c, clause_in_scope c = true) clauses)
    [DeclTrait iterator_decl; DeclImpl tuple_impl; DeclAssociatedTy item_decl; DeclAssociatedTyValue item_value;
     DeclOpaqueTy opaque_decl].
Proof.
  repeat apply Forall_cons_2; try apply Forall_nil_2;
    (apply (declaration_clauses_well_kinded iterator_db {[0; 1]}%N 3 _ [] false);
    [vm_compute; reflexivity|apply Nat.ltb_lt; vm_compute; reflexivity|vm_compute; reflexivity|reflexivity]).
Defined.

(** The number of clauses that each of them gives. *)
Example iterator_clauses :
  (λ d, match to_program_clauses iterator_db 3 d [] builder_new with
        | Val (_, b) => length b.(clauses) | _ => 0 end) <$>
    [DeclTrait iterator_decl; DeclImpl tuple_impl; DeclAssociatedTy item_decl; DeclAssociatedTyValue item_value;
     DeclOpaqueTy opaque_decl] =
    [3; 1; 6; 1; 4].
Proof. vm_compute. reflexivity. Qed.
