(* ===== verification/Framed.v ===== *)
(** * The operations of the clause builder only append

    An operation is framed when it neither reads nor removes the clauses that were
    pushed before it and leaves the binders in scope as it found them.  The clauses
    that a declaration gives do not depend on those of the declarations before it. *)

From stdpp Require Import base list numbers gmap.
From S2P Require Import Prelude Ir Fold FoldLaws Shift RustIr RecSolve Visit Builder SuperTraits ProgramClauses Clauses GoalClauses.

(** What an operation gives, with the clauses [cs] before its own. *)
Definition with_clauses {A} (cs : list ProgramClause) (bs : VariableKinds) (ps : Substitution)
    (r : outcome Floundered (A * ClauseBuilder)) : outcome Floundered (A * ClauseBuilder) :=
  '(a, b) ← r; Val (a, mkClauseBuilder (cs ++ b.(clauses)) bs ps).

Definition framed {A} (m : CB A) : Prop :=
  ∀ cs bs ps, length ps = length bs →
    m (mkClauseBuilder cs bs ps) = with_clauses cs bs ps (m (mkClauseBuilder [] bs ps)).

Lemma cb_bind_Val {A B} (m : CB A) (f : A → CB B) b a b' : m b = Val (a, b') → (m ≫= f) b = f a b'.
Proof. cbv [mbind CB_bind]. by intros ->. Qed.

Create HintDb framed discriminated.

Section Operations.
Context {A B : Type}.

Lemma framed_const (r : outcome Floundered A) (m : CB A) :
  (∀ b, m b = (a ← r; Val (a, b))) → framed m.
Proof. intros Hm cs bs ps _. rewrite !Hm. destruct r; simpl; by rewrite ?app_nil_r. Qed.

Lemma framed_ret (a : A) : framed (mret a).
Proof. by apply (framed_const (Val a)). Qed.
Lemma framed_lift (m : outcome Floundered A) : framed (cb_lift m).
Proof. by apply (framed_const m). Qed.
Lemma framed_pure (m : Fallible A) : framed (cb_pure m).
Proof. apply framed_lift. Qed.
Lemma framed_flounder : framed (cb_flounder (A := A)).
Proof. by apply (framed_const (Exn mkFloundered)). Qed.
Lemma framed_panic p : framed (mpanic p : CB A).
Proof. by apply (framed_const (Panic p)). Qed.

Lemma framed_bind (m : CB A) (f : A → CB B) : framed m → (∀ a, framed (f a)) → framed (m ≫= f).
Proof.
  intros Hm Hf cs bs ps Hl. cbv [mbind CB_bind]. rewrite (Hm cs), (Hm []) by done.
  destruct (m (mkClauseBuilder [] bs ps)) as [[a b]| | |]; simpl; try done.
  rewrite (Hf a (cs ++ b.(clauses))), (Hf a b.(clauses)) by done.
  destruct (f a (mkClauseBuilder [] bs ps)) as [[a' b']| | |]; simpl; try done. by rewrite app_assoc.
Qed.

Lemma framed_unwrap (m : CB A) : framed m → framed (cb_unwrap m).
Proof.
  intros Hm cs bs ps Hl. unfold cb_unwrap. rewrite Hm by done.
  by destruct (m (mkClauseBuilder [] bs ps)) as [[a b]| | |].
Qed.

Lemma framed_push_binders `{Fold A} (bs : Binders A) (op : A → CB B) :
  (∀ v, framed (op v)) → framed (push_binders bs op).
Proof.
  intros Hop cs bs' ps Hl. unfold push_binders. cbn [cb_binders parameters clauses].
  destruct (_ <=? _); simpl; [|done]. destruct (unwrap_result _) as [v| | |]; simpl; try done.
  rewrite (Hop v cs) by (rewrite !length_app, length_imap; lia).
  destruct (op v _) as [[r b]| | |]; simpl; try done.
  by rewrite take_app_length, take_app_length' by done.
Qed.
End Operations.

Lemma framed_iter {A} (f : A → CB unit) l : (∀ x, framed (f x)) → framed (cb_iter f l).
Proof. intros Hf. induction l as [|x l IH]; [by apply framed_ret|]. by apply framed_bind. Qed.

Lemma framed_mapM {A B} (f : A → CB B) l : (∀ x, framed (f x)) → framed (mapM f l).
Proof.
  intros Hf. induction l as [|x l IH]; [by apply framed_ret|]. apply framed_bind; [done|]. intros y.
  apply framed_bind; [done|]. intros k. apply framed_ret.
Qed.

Lemma framed_push_clause_with_priority {T C} `{CastTo T DomainGoal, CastTo C Goal} (consequence : T)
    (conditions : list C) constraints priority :
  framed (push_clause_with_priority consequence conditions constraints priority).
Proof.
  intros cs bs ps _. unfold push_clause_with_priority. cbn [cb_binders parameters clauses].
  by destruct (if decide _ then _ else _).
Qed.
Lemma framed_substitution_in_scope : framed substitution_in_scope.
Proof. intros cs bs ps _. unfold substitution_in_scope, placeholders_in_scope. simpl. by rewrite app_nil_r. Qed.
Lemma framed_placeholders_in_scope : framed placeholders_in_scope.
Proof. apply framed_substitution_in_scope. Qed.

#[export] Hint Resolve framed_ret framed_lift framed_pure framed_flounder framed_panic framed_push_clause_with_priority
  framed_substitution_in_scope framed_placeholders_in_scope : framed.

(** Composed operations are framed when their parts are. *)
Ltac framed_step :=
  intros;
  lazymatch goal with
  | |- framed (_ ≫= _) => apply framed_bind
  | |- framed (cb_iter _ _) => apply framed_iter
  | |- framed (cb_unwrap _) => apply framed_unwrap
  | |- framed (push_binders _ _) => apply framed_push_binders
  | |- framed (mapM _ _) => apply framed_mapM
  | |- framed (let '_ := ?x in _) => destruct x
  | |- framed (match ?x with _ => _ end) => destruct x
  | |- framed ?m => solve [auto with framed] || (let m' := eval red in m in change (framed m'))
  end.
Ltac framed := repeat framed_step.


(** ** The clauses of declarations and types *)

Section Clients.
Context (db : RustIrDatabase) (fuel : nat).

Lemma framed_bound_clauses bound : framed (push_bound_clauses db fuel bound).
Proof. framed. Qed.

Lemma framed_impl (x : ImplDatum) env : framed (to_program_clauses db fuel x env).
Proof. unfold to_program_clauses, impl_to_program_clauses. framed. Qed.
Lemma framed_atv (x : AssociatedTyValue) env : framed (to_program_clauses db fuel x env).
Proof. unfold to_program_clauses, atv_to_program_clauses. framed. Qed.
Lemma framed_opaque (x : OpaqueTyDatum) env : framed (to_program_clauses db fuel x env).
Proof. unfold to_program_clauses, opaque_to_program_clauses. framed. Qed.
Lemma framed_adt (x : AdtDatum) env : framed (to_program_clauses db fuel x env).
Proof. unfold to_program_clauses, adt_to_program_clauses. framed. Qed.
Lemma framed_fn_def (x : FnDefDatum) env : framed (to_program_clauses db fuel x env).
Proof. unfold to_program_clauses, fn_def_to_program_clauses. framed. Qed.
Lemma framed_trait (x : TraitDatum) env : framed (to_program_clauses db fuel x env).
Proof. unfold to_program_clauses, trait_to_program_clauses. framed. Qed.
Lemma framed_assoc (x : AssociatedTyDatum) env : framed (to_program_clauses db fuel x env).
Proof. unfold to_program_clauses, assoc_to_program_clauses. framed. Qed.

Hint Resolve framed_bound_clauses framed_impl framed_atv framed_opaque framed_adt framed_fn_def framed_trait
  framed_assoc : framed.

Lemma framed_match_ty env ty : framed (match_ty db fuel env ty).
Proof. unfold match_ty. framed. Qed.
Lemma framed_match_alias_ty env alias : framed (match_alias_ty db fuel env alias).
Proof. unfold match_alias_ty. framed. Qed.
Hint Resolve framed_match_ty framed_match_alias_ty : framed.

Lemma framed_elaborate_ty env ty : framed (elaborate_ty db fuel env ty).
Proof. unfold elaborate_ty. framed. Qed.
Lemma framed_elaborate_domain_goal env dg : framed (elaborate_domain_goal db fuel env dg).
Proof. unfold elaborate_domain_goal. framed. Qed.

(** ** The elaboration of a clause *)

Context (environment : Environment).
Local Abbreviation V := (EnvElaborator db fuel environment).

Lemma framed_visit_iter {A} (f : A → CB unit) l : Forall (λ x, framed (f x)) l → framed (visit_iter f l).
Proof. induction 1 as [|x l Hx Hl IH]; [apply framed_ret|]. by apply framed_bind. Qed.

Lemma framed_visit_ty ty d : framed (visit_ty V ty d).
Proof. destruct ty; apply framed_elaborate_ty. Qed.
Lemma framed_visit_lifetime l d : framed (visit_lifetime V l d).
Proof. destruct l; simpl; unfold visit_var; simpl; framed. Qed.
Lemma framed_visit_const c d : framed (visit_const V c d).
Proof. destruct c as [? []]; simpl; unfold visit_const; simpl; unfold default_visit_const, visit_var; framed. Qed.
Lemma framed_visit_arg a d : framed (visit_arg V a d).
Proof. destruct a; [apply framed_visit_ty|apply framed_visit_lifetime|apply framed_visit_const]. Qed.
Lemma framed_visit_domain_goal dg d : framed (visit_domain_goal V dg d).
Proof. apply framed_elaborate_domain_goal. Qed.
Lemma framed_visit_constraint c d : framed (visit_constraint V c d).
Proof.
  destruct c; apply framed_bind; intros; try apply framed_visit_lifetime. apply framed_visit_ty.
Qed.

Lemma framed_visit_goals :
  (∀ g d, framed (visit_goal V g d)) ∧ (∀ c d, framed (visit_program_clause V c d)).
Proof.
  apply (goal_ind (λ g, ∀ d, framed (visit_goal V g d)) (λ c, ∀ d, framed (visit_program_clause V c d))).
  split; intros; simpl; try (by eauto using framed_ret, framed_visit_domain_goal);
    repeat first [apply framed_bind; intros | apply framed_visit_arg | apply framed_visit_ty].
  all: eauto using framed_elaborate_domain_goal.
  all: apply framed_visit_iter; eapply Forall_impl; [eassumption|]; simpl; intros; eauto.
  apply framed_bind; [|intros; apply framed_visit_constraint].
  apply framed_visit_iter. eapply Forall_impl; [eassumption|]. eauto.
Qed.
End Clients.
