(* ===== verification/EnvThm.v ===== *)
(** * The elaboration of environments is a least fixed point

    [program_clauses_for_env] elaborates the clauses of an environment round by round,
    with hash sets.  Its contract is order-free: the least set that contains the
    environment and the elaboration of each of its own clauses. *)

From stdpp Require Import base list numbers gmap.
From S2P Require Import Prelude Ir IrCountable Fold FoldLaws Shift RustIr RecSolve Visit Builder SuperTraits ProgramClauses Clauses GoalClauses Programs Framed DeclThm.

(** ** The specification *)

Section Spec.
Context (db : RustIrDatabase) (fuel : nat) (environment : Environment).

(** The clauses that the elaboration of one clause gives. *)
Definition elaboration (c : ProgramClause) : Fallible (list ProgramClause) :=
  '(_, b) ← unwrap_result (visit_with (EnvElaborator db fuel environment) c INNERMOST builder_new);
  Val b.(clauses).

(** A set of clauses that contains the elaboration of each of them. *)
Definition elaboration_closed (s : list ProgramClause) : bool :=
  forallb (λ c, match elaboration c with
                | Val l => forallb (λ x, bool_decide (x ∈ s)) l
                | _ => false
                end) s.

Lemma elaboration_closed_spec s :
  elaboration_closed s = true ↔ ∀ c, c ∈ s → ∃ l, elaboration c = Val l ∧ l ⊆ s.
Proof.
  unfold elaboration_closed. rewrite forallb_forall. setoid_rewrite <- list_elem_of_In. split; intros Hs c Hc.
  - specialize (Hs c Hc). destruct (elaboration c) as [l| | |]; try done. exists l. split; [done|]. intros x Hx.
    rewrite forallb_forall in Hs. by apply list_elem_of_In, Hs, bool_decide_eq_true in Hx.
  - destruct (Hs c Hc) as (l & -> & Hl). apply forallb_forall. intros x Hx%list_elem_of_In.
    by apply bool_decide_eq_true, Hl.
Qed.

(** ** Sets as lists *)

Lemma set_insert_NoDup (x : ProgramClause) s : NoDup s → NoDup (set_insert x s).2.
Proof.
  intros Hs. unfold set_insert. case_decide; [done|]. apply NoDup_app. split_and!; [done|set_solver|].
  by apply NoDup_singleton.
Qed.
Lemma elem_of_set_insert (x y : ProgramClause) s : y ∈ (set_insert x s).2 ↔ y = x ∨ y ∈ s.
Proof. unfold set_insert. case_decide; set_solver. Qed.

Lemma set_extend_spec (l s : list ProgramClause) :
  NoDup s → NoDup (set_extend s l) ∧ ∀ x, x ∈ set_extend s l ↔ x ∈ s ∨ x ∈ l.
Proof.
  revert s. induction l as [|y l IH]; intros s Hs; simpl; [set_solver|].
  destruct (IH (set_insert y s).2) as [Hn Hin]; [by apply set_insert_NoDup|]. split; [done|].
  intros x. unfold set_extend in Hin |- *. rewrite Hin, elem_of_set_insert. set_solver.
Qed.

Lemma new_clauses_spec closure l closure' fresh :
  NoDup closure → new_clauses closure l = (closure', fresh) →
  NoDup closure' ∧ (∀ x, x ∈ closure' ↔ x ∈ closure ∨ x ∈ l) ∧ (∀ x, x ∈ closure' ↔ x ∈ closure ∨ x ∈ fresh) ∧
  length closure' = length closure + length fresh.
Proof.
  revert closure closure' fresh. induction l as [|y l IH]; intros closure closure' fresh Hn; simpl.
  - intros [= <- <-]. simpl. rewrite Nat.add_0_r. split_and!; set_solver.
  - unfold set_insert. case_decide as Hy.
    + destruct (new_clauses closure l) as [c f] eqn:Heq. intros [= <- <-].
      destruct (IH _ _ _ Hn Heq) as (? & Hl & Hf & ?). split_and!; [done| |done|done]. intros x. rewrite Hl. set_solver.
    + destruct (new_clauses (closure ++ [y]) l) as [c f] eqn:Heq. intros [= <- <-].
      destruct (IH (closure ++ [y]) c f) as (? & Hl & Hf & Hlen); [|exact Heq|].
      { pose proof (set_insert_NoDup y _ Hn) as Hi. unfold set_insert in Hi. by rewrite decide_False in Hi. }
      rewrite length_app in Hlen. simpl in *. split_and!; [done|..|lia]; intros x; [rewrite Hl|rewrite Hf]; set_solver.
Qed.

(** ** One round *)

Lemma visit_clauses_spec cs cl ls :
  mapM elaboration cl = Val ls →
  ∃ u, visit_with (EnvElaborator db fuel environment) cl INNERMOST (mkClauseBuilder cs [] []) =
    Val (u, mkClauseBuilder (cs ++ concat ls) [] []).
Proof.
  revert cs ls. induction cl as [|c cl IH]; intros cs ls Hl; simpl in Hl.
  { injection Hl as <-. exists tt. simpl. by rewrite app_nil_r. }
  inv_outcome Hl. subst ls. destruct (IH (cs ++ x) _ Hx0) as (u & Hu). exists u.
  unfold elaboration in Hx. inv_outcome Hx. destruct x1 as [a b]. inv_outcome Hx. subst x.
  rewrite unwrap_result_Val in Hx1. unfold visit_with, Visit_list in Hu |- *. cbn [visit_iter concat].
  erewrite cb_bind_Val; [by rewrite Hu, app_assoc|]. unfold visit_with, Visit_ProgramClause in Hx1 |- *.
  rewrite (proj2 (framed_visit_goals db fuel environment) c INNERMOST cs [] []) by done.
  unfold builder_new in Hx1. by rewrite Hx1.
Qed.

Lemma elaborate_env_clauses_spec s cl :
  (∀ c, c ∈ cl → ∃ l, elaboration c = Val l ∧ l ⊆ s) →
  ∃ out, elaborate_env_clauses db fuel cl [] environment = Val out ∧
    ∀ x, x ∈ out ↔ ∃ c l, c ∈ cl ∧ elaboration c = Val l ∧ x ∈ l.
Proof.
  intros Hcl.
  assert (∃ ls, mapM elaboration cl = Val ls ∧
    ∀ x, x ∈ concat ls ↔ ∃ c l, c ∈ cl ∧ elaboration c = Val l ∧ x ∈ l) as (ls & Hls & Hin).
  { induction cl as [|c cl IH]; [exists []; set_solver|].
    destruct (Hcl c) as (l & Hl & _); [left|]. destruct IH as (ls & Hls & Hin); [set_solver|].
    exists (l :: ls). simpl. rewrite Hl. simpl. rewrite Hls. split; [done|]. intros x.
    rewrite elem_of_app, Hin. split.
    - intros [Hx|(c' & l' & ? & ? & ?)]; [exists c, l|exists c', l']; set_solver.
    - intros (c' & l' & Hc' & Hl' & Hx). apply elem_of_cons in Hc' as [->|]; [left; congruence|right; eauto]. }
  destruct (visit_clauses_spec [] cl ls Hls) as (u & Hu). unfold elaborate_env_clauses, builder_new. rewrite Hu. simpl.
  eexists. split; [done|]. intros x. destruct (set_extend_spec (concat ls) []) as [_ ->]; [constructor|].
  rewrite Hin. set_solver.
Qed.
End Spec.

(** ** The loop *)

Section Loop.
Context (db : RustIrDatabase) (fuel : nat) (environment : Environment).
Context (hash_order : list ProgramClause → list ProgramClause) (Hperm : ∀ l, hash_order l ≡ₚ l).
Local Abbreviation elaboration := (elaboration db fuel environment).
Local Abbreviation closed s := (elaboration_closed db fuel environment s = true).

(** [closure] is part of every closed set, and only the clauses of the last round may
    have an elaboration outside it. *)
Record closing (last_round closure : list ProgramClause) : Prop := {
  closing_NoDup : NoDup closure;
  closing_env : environment ⊆ closure;
  closing_last : last_round ⊆ closure;
  closing_done c : c ∈ closure → c ∉ last_round → ∃ l, elaboration c = Val l ∧ l ⊆ closure;
  closing_least s : environment ⊆ s → closed s → closure ⊆ s
}.

Lemma env_closure_spec s rounds last_round closure :
  environment ⊆ s → closed s → closing last_round closure →
  length s < length closure + rounds →
  ∃ r, env_closure db fuel hash_order rounds environment last_round closure = Val r ∧ closing [] r.
Proof.
  intros Henv Hclosed. revert last_round closure. induction rounds as [|rounds IH]; intros last_round closure Hc Hlen.
  { exfalso. pose proof (submseteq_length _ _ (NoDup_submseteq _ _ (closing_NoDup _ _ Hc)
      (closing_least _ _ Hc s Henv Hclosed))). lia. }
  destruct last_round as [|c0 last_round0]; [by exists closure|].
  set (last_round := c0 :: last_round0) in *. cbn [env_closure].
  change (match last_round with [] => _ | _ :: _ => ?e end) with e.
  pose proof (proj1 (elaboration_closed_spec _ _ _ _) Hclosed) as Hs.
  destruct (elaborate_env_clauses_spec db fuel environment s (hash_order last_round)) as (out & Hout & Hin).
  { intros c Hcin. apply Hs. apply (closing_least _ _ Hc s Henv Hclosed), (closing_last _ _ Hc).
    by rewrite <- (Hperm last_round). }
  setoid_rewrite Hperm in Hin. rewrite Hout. simpl.
  destruct (new_clauses closure (hash_order out)) as [closure' fresh] eqn:Hnew.
  destruct (new_clauses_spec _ _ _ _ (closing_NoDup _ _ Hc) Hnew) as (Hn & Hall & Hfresh & Hgrow).
  setoid_rewrite Hperm in Hall.
  destruct (set_extend_spec fresh []) as [_ Hset]; [constructor|].
  assert (closing (set_extend [] fresh) closure') as Hc'.
  { split; [done|..].
    - intros x Hx. apply Hall. left. by apply (closing_env _ _ Hc).
    - intros x Hx. apply Hfresh. apply Hset in Hx. set_solver.
    - intros c Hcc Hnl. rewrite Hset in Hnl. apply Hfresh in Hcc as [Hcc|]; [|set_solver].
      assert (∃ l, elaboration c = Val l ∧ l ⊆ closure') as (l & ? & ?); [|by exists l].
      destruct (decide (c ∈ last_round)) as [Hl|Hl].
      + destruct (Hs c) as (l & Hel & _); [by apply (closing_least _ _ Hc s Henv Hclosed)|]. exists l. split; [done|].
        intros x Hx. apply Hall. right. apply Hin. eauto.
      + destruct (closing_done _ _ Hc c Hcc Hl) as (l & ? & ?). exists l. split; [done|]. intros x Hx. apply Hall. auto.
    - intros s' He' Hs' x Hx. apply Hall in Hx as [Hx|Hx]; [by apply (closing_least _ _ Hc)|].
      apply Hin in Hx as (c & l & Hcl & Hel & Hx). apply (closing_last _ _ Hc) in Hcl.
      apply (closing_least _ _ Hc s' He' Hs') in Hcl.
      destruct (proj1 (elaboration_closed_spec _ _ _ _) Hs' c Hcl) as (l' & Hel' & Hl'). apply Hl'. congruence. }
  destruct fresh as [|c1 fresh]; [|by apply IH; [done|simpl in Hgrow; lia]].
  exists closure'. split; [by destruct rounds|done].
Qed.
End Loop.

(** C7. [program_clauses_for_env] computes a least fixed point, in whatever order the
    hash sets are traversed: when some set of clauses contains the environment and the
    elaboration of each of its own clauses, the loop ends, in no more rounds than the
    set has clauses, and the result is the least such set, without repetitions. *)
Theorem env_elaboration_least (db : RustIrDatabase) (fuel rounds : nat) (environment s : list ProgramClause)
    (hash_order : list ProgramClause → list ProgramClause)
    (Hperm : ∀ l, hash_order l ≡ₚ l) (Henv : environment ⊆ s)
    (Hs : elaboration_closed db fuel environment s = true) (Hr : length s < rounds) :
  ∃ r, GoalClauses.program_clauses_for_env db fuel hash_order rounds environment = Val r ∧
    NoDup r ∧ environment ⊆ r ∧ elaboration_closed db fuel environment r = true ∧
    ∀ s', environment ⊆ s' → elaboration_closed db fuel environment s' = true → r ⊆ s'.
Proof.
  destruct (set_extend_spec environment []) as [Hn Hin]; [constructor|].
  destruct (env_closure_spec db fuel environment hash_order Hperm s rounds
    (set_extend [] environment) (set_extend [] environment) Henv Hs) as (r & Hrun & Hc).
  { split; [done| |done|done|]; [intros x; rewrite Hin; auto|].
    intros s' Hs' _ x. rewrite Hin. set_solver. }
  { lia. }
  exists (hash_order r). unfold GoalClauses.program_clauses_for_env. rewrite Hrun. simpl. split; [done|].
  destruct Hc as [Hnr Her _ Hdone Hleast].
  assert (∀ x, x ∈ hash_order r ↔ x ∈ r) as Hh by (intros x; by rewrite Hperm). split_and!.
  - by rewrite Hperm.
  - intros x Hx. by apply Hh, Her.
  - apply elaboration_closed_spec. intros c Hcr%Hh.
    destruct (Hdone c Hcr) as (l & ? & Hl); [set_solver|]. exists l. split; [done|]. intros x Hx. by apply Hh, Hl.
  - intros s' He' Hs' x Hx%Hh. by apply (Hleast s').
Qed.

(** In [iterator_db], the environment [FromEnv(!1: Iterator)]. *)
Definition iterator_env : Environment :=
  [mkProgramClause (mkBinders [] (mkImplication
    (DgFromEnv (FeTrait (mkTraitRef 0 [ArgTy (TyPlaceholder (mkPlaceholder (mkUniverse 1) 0))]))) [] [] High))].
Definition iterator_env_clauses : list ProgramClause :=
  match GoalClauses.program_clauses_for_env iterator_db 3 id 20 iterator_env with Val r => r | _ => [] end.

Lemma env_elaboration_least_witness :
  ∃ r, GoalClauses.program_clauses_for_env iterator_db 3 (@rev _) 20 iterator_env = Val r ∧
    NoDup r ∧ iterator_env ⊆ r ∧ elaboration_closed iterator_db 3 iterator_env r = true ∧
    ∀ s', iterator_env ⊆ s' → elaboration_closed iterator_db 3 iterator_env s' = true → r ⊆ s'.
Proof.
  apply (env_elaboration_least iterator_db 3 20 iterator_env iterator_env_clauses).
  - intros l. apply Permutation_sym, Permutation_rev.
  - intros x Hx. apply list_elem_of_singleton in Hx as ->. apply (bool_decide_eq_true_1 _).
    vm_compute. reflexivity.
  - vm_compute. reflexivity.
  - apply Nat.ltb_lt. vm_compute. reflexivity.
Defined.
