(* ===== verification/CoherenceThm.v ===== *)
(** * Specialization priorities, and the checks of declarations

    What [specialization_priorities] promises, for any graph library that keeps its
    documented laws, and the chains of impls on which it panics.  At the end, the
    well-formedness checks run on small programs. *)

From stdpp Require Import base list numbers gmap.
From S2P Require Import Prelude FixedPoint Ir Fold FoldLaws Shift Ena Infer UCanonicalize IrCountable RustIr Solve Fulfill RecSolve RecSolveThm Builder Clauses GoalClauses Coherence Wf Programs.

(** ** A graph and pairs, as lists *)

Record ListGraph := mkListGraph { lg_nodes : list ImplId; lg_edges : list (nat * nat) }.

Definition lg_neighbors (g : ListGraph) (i : nat) : list nat :=
  (filter (λ e, e.1 = i) g.(lg_edges)).*2.
#[global] Instance list_graph : DiGraph ListGraph := {|
  digraph_new := mkListGraph [] [];
  add_node g w := (length g.(lg_nodes), mkListGraph (g.(lg_nodes) ++ [w]) g.(lg_edges));
  update_edge g a b :=
    if decide ((a, b) ∈ g.(lg_edges)) then g else mkListGraph g.(lg_nodes) ((a, b) :: g.(lg_edges));
  node_weight g i := g.(lg_nodes) !! i;
  neighbors := lg_neighbors;
  externals_incoming g :=
    filter (λ i, i ∉ g.(lg_edges).*2) (seq 0 (length g.(lg_nodes)))
|}.

Fixpoint list_pairs {A} (l : list A) : list (A * A) :=
  match l with [] => [] | x :: l => (pair x <$> l) ++ list_pairs l end.
#[global] Instance list_tuple_combinations : TupleCombinations := @list_pairs.

(** ** A chain of impls *)

(** [impl<T> Foo for T], [impl<T> Foo for [T]] and [impl Foo for [u32]]. *)
Definition foo_impl (ks : list VariableKind) (self_ty : Ty) : ImplDatum :=
  mkImplDatum Positive (mkBinders ks (mkImplDatumBound (mkTraitRef 0 [ArgTy self_ty]) [])) ImplLocal [].
Definition chain_impls : list ImplDatum :=
  [foo_impl [VkTy General] (ty_var 0); foo_impl [VkTy General] (TySlice (ty_var 0)); foo_impl [] (TySlice ty_u32)].
Definition chain_db (impls : list ImplDatum) : RustIrDatabase := program_db [plain_trait 0 None] impls [] [].

(** A fresh recursive solver. *)
Definition fresh_solve (db : RustIrDatabase) (goal : UCanonicalGoal) : Fallible (option Solution) :=
  '(solution, _) ← unwrap_result (recursive_solve (E := UnionFind.t) 30 db id
    (program_clauses_that_could_match db 30) 30 goal empty_context);
  Val solution.

Definition priorities_of (impls : list ImplDatum) (depth : nat) : outcome CoherenceError SpecializationPriorities :=
  specialization_priorities (E := UnionFind.t) (G := ListGraph) 30 (chain_db impls)
    (fresh_solve (chain_db impls)) 0%N depth.

(** ** The forest *)

Section Forest.
Context {G : Type} `{DiGraphLaws G}.

(** The nodes of the forest are the impls of the specializations [rel], its edges are
    [rel]. *)
Record forest_of (st : ForestState G) (rel : list (ImplId * ImplId)) : Prop := {
  forest_node i n : st.2 !! i = Some n ↔ node_weight st.1 n = Some i;
  forest_nodes i : is_Some (st.2 !! i) ↔ ∃ x, x ∈ rel ∧ (i = x.1 ∨ i = x.2);
  forest_edge a b : b ∈ neighbors st.1 a ↔
    ∃ i j, node_weight st.1 a = Some i ∧ node_weight st.1 b = Some j ∧ (i, j) ∈ rel
}.

Lemma forest_of_new : forest_of (digraph_new, ∅) [].
Proof.
  split; simpl.
  - intros i n. rewrite node_weight_new, lookup_empty. done.
  - intros i. rewrite lookup_empty. split; [by intros []|]. intros (? & ? & _). set_solver.
  - intros a b. rewrite neighbors_new. split; [set_solver|]. intros (? & ? & ? & ? & ?). set_solver.
Qed.

(** Asking for the node of an impl changes neither the other nodes nor the edges. *)
Lemma node_of_spec st i n st' :
  (∀ i n, st.2 !! i = Some n ↔ node_weight st.1 n = Some i) → node_of st i = (n, st') →
  (∀ i n, st'.2 !! i = Some n ↔ node_weight st'.1 n = Some i) ∧ st'.2 !! i = Some n ∧
  (∀ j m, node_weight st.1 m = Some j → node_weight st'.1 m = Some j) ∧
  (∀ j, is_Some (st'.2 !! j) ↔ is_Some (st.2 !! j) ∨ j = i) ∧
  ∀ m, neighbors st'.1 m ≡ₚ neighbors st.1 m.
Proof.
  destruct st as [g map]. simpl. intros Hst. destruct (map !! i) as [n0|] eqn:Hi.
  - intros [= <- <-]. simpl. split_and!; [done..| |done].
    intros j. split; [by auto|]. intros [?| ->]; eauto.
  - destruct (add_node g i) as [n0 g'] eqn:Hadd. intros [= <- <-]. simpl.
    assert (∀ m, node_weight g n0 = None ∧ node_weight g' m = if decide (m = n0) then Some i else node_weight g m) as Hw.
    { intros m. pose proof (node_weight_add_node g i m) as Hm. by rewrite Hadd in Hm. }
    split_and!.
    + intros j m. destruct (Hw m) as [Hn ->]. destruct (decide (j = i)) as [->|Hj].
      * rewrite lookup_insert_eq. destruct (decide (m = n0)); [by subst|].
        split; [congruence|]. intros Hm. apply Hst in Hm. congruence.
      * rewrite lookup_insert_ne by done. destruct (decide (m = n0)) as [->|]; [|apply Hst].
        split; [|congruence]. intros Hm. apply Hst in Hm. congruence.
    + by rewrite lookup_insert_eq.
    + intros j m Hm. destruct (Hw m) as [Hn ->]. destruct (decide (m = n0)); [congruence|done].
    + intros j. destruct (decide (j = i)) as [->|]; [rewrite lookup_insert_eq; by split; eauto|].
      rewrite lookup_insert_ne by done. split; [by auto|]. by intros [|].
    + intros m. pose proof (neighbors_add_node g i m) as Hm. by rewrite Hadd in Hm.
Qed.

Lemma forest_of_record st rel less more :
  forest_of st rel → forest_of (record_specialization st less more) (rel ++ [(less, more)]).
Proof.
  intros [Hn Hr He]. unfold record_specialization.
  destruct (node_of st less) as [a st1] eqn:H1. destruct (node_of_spec _ _ _ _ Hn H1) as (Hn1 & Ha1 & Hk1 & Hr1 & He1).
  destruct (node_of st1 more) as [b st2] eqn:H2. destruct (node_of_spec _ _ _ _ Hn1 H2) as (Hn2 & Hb & Hk2 & Hr2 & He2).
  assert (node_weight st2.1 a = Some less) as Ha by (apply Hk2, Hn1, Ha1).
  apply Hn2 in Hb.
  split; simpl.
  - intros i n. rewrite node_weight_update_edge. apply Hn2.
  - intros i. rewrite Hr2, Hr1, Hr. setoid_rewrite elem_of_app. setoid_rewrite list_elem_of_singleton. split.
    + intros [[(x & ? & ?)| ->]| ->]; [by exists x; auto|exists (less, more); auto..].
    + intros (x & [?| ->] & Hx); [by left; left; exists x|]. destruct Hx as [->| ->]; auto.
  - intros c d. rewrite neighbors_update_edge by eauto. setoid_rewrite node_weight_update_edge.
    assert (∀ m i, node_weight st2.1 m = Some i → (∃ x, x ∈ rel ∧ (i = x.1 ∨ i = x.2)) → node_weight st.1 m = Some i) as Hback.
    { intros m i Hm Hi. apply Hr in Hi as [m0 Hm0]. apply Hn in Hm0. pose proof Hm0 as Hw.
      apply Hk1, Hk2, Hn2 in Hw. apply Hn2 in Hm. by simplify_eq. }
    assert (∀ c d, d ∈ neighbors st2.1 c ↔ ∃ i j, node_weight st2.1 c = Some i ∧ node_weight st2.1 d = Some j ∧ (i, j) ∈ rel) as Hold.
    { intros c' d'. rewrite He2, He1, He. split; intros (i & j & Hi & Hj & Hij); exists i, j; [by auto|].
      split_and!; [..|done]; apply Hback; try done; exists (i, j); auto. }
    setoid_rewrite elem_of_app. setoid_rewrite list_elem_of_singleton.
    destruct (decide (c = a ∧ b ∉ neighbors st2.1 a)) as [[-> Hnb]|Hnb].
    + rewrite elem_of_cons, Hold. split.
      * intros [->|(i & j & ? & ? & ?)]; [exists less, more|exists i, j]; auto.
      * intros (i & j & Hi & Hj & [?|[= -> ->]]); [right; eauto|left].
        apply Hn2 in Hj. apply Hn2 in Hb. congruence.
    + rewrite Hold. split.
      * intros (i & j & ? & ? & ?). exists i, j. auto.
      * intros (i & j & Hi & Hj & [?|[= -> ->]]); [by eauto|]. apply Hold.
        apply Hn2 in Hi as Hi'. apply Hn2 in Ha as Ha'. apply Hn2 in Hj as Hj'. apply Hn2 in Hb as Hb'. simplify_eq.
        apply dec_stable. tauto.
Qed.
End Forest.

(** ** The specializations of a trait *)

Section Specializations.
Context {E : Type} `{EnaOps E}.
Context (fuel : nat) (db : RustIrDatabase) (solve : UCanonicalGoal → Fallible (option Solution)) (trait_id : TraitId).

(** The pairs that the coherence check has to order: one impl is positive, and the
    impls may overlap. *)
Definition overlapping (l_id r_id : ImplId) : Prop :=
  let lhs := db.(impl_datum) l_id in
  let rhs := db.(impl_datum) r_id in
  impl_is_positive lhs || impl_is_positive rhs = true ∧
  disjoint (E := E) fuel solve lhs rhs = Val false.

(** What the check of a pair answers: the less special impl, and the more special. *)
Definition ordered (p x : ImplId * ImplId) : Prop :=
  overlapping p.1 p.2 ∧ overlap_specialization (E := E) fuel db solve trait_id p.1 p.2 = Val x.

Lemma visit_pairs_spec {S} (record : S → ImplId → ImplId → S) pairs st st' :
  visit_pairs (E := E) fuel db solve trait_id record pairs st = Val st' →
  ∃ rel, st' = foldl (λ st x, record st x.1 x.2) st rel ∧
    (∀ p, p ∈ pairs → overlapping p.1 p.2 → ∃ x, ordered p x ∧ x ∈ rel) ∧
    (∀ x, x ∈ rel → ∃ p, p ∈ pairs ∧ ordered p x).
Proof.
  revert st. induction pairs as [|[l r] pairs IH]; intros st; simpl.
  { intros [= <-]. exists []. split_and!; [done|set_solver..]. }
  assert (∀ st, visit_pairs (E := E) fuel db solve trait_id record pairs st = Val st' → ¬ overlapping l r →
    ∃ rel, st' = foldl (λ st x, record st x.1 x.2) st rel ∧
      (∀ p, p ∈ (l, r) :: pairs → overlapping p.1 p.2 → ∃ x, ordered p x ∧ x ∈ rel) ∧
      (∀ x, x ∈ rel → ∃ p, p ∈ (l, r) :: pairs ∧ ordered p x)) as Hskip.
  { intros st0 Hv Hno. destruct (IH _ Hv) as (rel & -> & Hf & Hb). exists rel. split_and!; [done|..].
    - intros p [->|Hp]%elem_of_cons Ho; [done|]. by apply Hf.
    - intros x Hx. destruct (Hb x Hx) as (p & ? & ?). exists p. split; [by right|done]. }
  rewrite <- negb_orb. destruct (impl_is_positive _ || impl_is_positive _) eqn:Hpos; simpl.
  2:{ intros Hv. apply Hskip; [done|]. intros [Hp _]. simpl in Hp. congruence. }
  intros Hv. inv_outcome Hv. destruct x as [|].
  { apply Hskip; [done|]. intros [_ Hd]. rewrite unwrap_result_Val in Hx. simpl in Hd. congruence. }
  rewrite unwrap_result_Val in Hx. inv_outcome Hv. destruct x as [less more]. simpl in Hv.
  destruct (IH _ Hv) as (rel & -> & Hf & Hb). exists ((less, more) :: rel).
  assert (ordered (l, r) (less, more)) as Hord by done. split_and!; [done|..].
  - intros p [->|Hp]%elem_of_cons Ho; [exists (less, more); split; [done|by left]|].
    destruct (Hf p Hp Ho) as (x & ? & ?). exists x. split; [done|by right].
  - intros x [->|Hx']%elem_of_cons; [exists (l, r); split; [by left|done]|].
    destruct (Hb x Hx') as (p & ? & ?). exists p. split; [by right|done].
Qed.
End Specializations.

(** ** The priorities *)

Section SetPriorities.
Context {G : Type} `{DiGraph G} (forest : G).
Context (Hinj : ∀ n m i, node_weight forest n = Some i → node_weight forest m = Some i → n = m).

(** In [m'], the children of the nodes that are not in [m] are one above them. *)
Definition children_above (m m' : SpecializationPriorities) : Prop :=
  ∀ n i q, node_weight forest n = Some i → m' !! i = Some q → m !! i = None →
    ∀ c, c ∈ neighbors forest n → ∃ j, node_weight forest c = Some j ∧ m' !! j = Some (q + 1).

Definition has_priority (m : SpecializationPriorities) (n : nat) (p : nat) : Prop :=
  ∃ i, node_weight forest n = Some i ∧ m !! i = Some p.

Lemma children_above_trans m m1 m2 :
  m1 ⊆ m2 → children_above m m1 → children_above m1 m2 → children_above m m2.
Proof.
  intros H12 H1 H2 n i q Hn Hq Hm c Hc. destruct (m1 !! i) as [q1|] eqn:Hi.
  - pose proof (lookup_weaken _ _ _ _ Hi H12) as Hi2. assert (q1 = q) as -> by congruence.
    destruct (H1 n i q Hn Hi Hm c Hc) as (j & Hj & Hp). exists j. split; [done|]. by eapply lookup_weaken.
  - by eapply H2.
Qed.

Lemma for_each_node_spec f nodes m m' p :
  (∀ n m m', f n m = Val m' → m ⊆ m' ∧ has_priority m' n p ∧ children_above m m') →
  for_each_node f nodes m = Val m' →
  m ⊆ m' ∧ (∀ n, n ∈ nodes → has_priority m' n p) ∧ children_above m m'.
Proof.
  intros Hf. revert m. induction nodes as [|n nodes IH]; intros m Hm; simpl in Hm.
  { injection Hm as <-. split_and!; [done|set_solver|]. intros ? ? ? _ Hq Hn. congruence. }
  inv_outcome Hm. destruct (Hf _ _ _ Hx) as (Hs1 & Hp1 & Hc1). destruct (IH _ Hm) as (Hs2 & Hp2 & Hc2).
  split_and!; [by etrans| |by eapply children_above_trans].
  intros n' [->|Hn']%elem_of_cons; [|by apply Hp2]. destruct Hp1 as (i & ? & ?). exists i.
  split; [done|]. by eapply lookup_weaken.
Qed.

Lemma set_priorities_spec depth p n m m' :
  set_priorities depth forest p n m = Val m' → m ⊆ m' ∧ has_priority m' n p ∧ children_above m m'.
Proof.
  revert p n m m'. induction depth as [|depth IH]; intros p n m m' Hm; [done|]. simpl in Hm.
  inv_outcome Hm. unfold insert_priority in Hx0. inv_outcome Hx0. apply bool_decide_eq_true in Hx1. subst x0.
  destruct (for_each_node_spec _ _ _ _ (p + 1) (IH (p + 1)) Hm) as (Hs & Hp & Hc).
  assert (m' !! x = Some p) as Hmx by (eapply lookup_weaken; [apply lookup_insert_eq|exact Hs]).
  split_and!.
  - etrans; [by apply insert_subseteq|exact Hs].
  - by exists x.
  - intros n' i q Hn' Hq Hi c Hcc. destruct (decide (i = x)) as [->|Hix].
    + assert (q = p) as -> by congruence. rewrite (Hinj _ _ _ Hn' Hx) in Hcc. by apply Hp.
    + eapply Hc; [done..| |done]. by rewrite lookup_insert_ne.
Qed.

(** The recursion ends: an impl is never given a second priority. *)
Lemma set_priorities_ends (impls : gset ImplId) depth p n m :
  (∀ n i, node_weight forest n = Some i → i ∈ impls) → size (impls ∖ dom m) < depth →
  set_priorities depth forest p n m ≠ OutOfFuel.
Proof.
  intros Hi. revert p n m. induction depth as [|depth IH]; intros p n m Hd; [lia|]. simpl.
  destruct (node_weight forest n) as [i|] eqn:Hn; simpl; [|done]. unfold insert_priority.
  destruct (bool_decide _) eqn:Hb; simpl; [|done]. apply bool_decide_eq_true in Hb.
  assert (∀ nodes m1, <[i := p]> m ⊆ m1 → for_each_node (set_priorities depth forest (p + 1)) nodes m1 ≠ OutOfFuel) as Hl;
    [|by apply Hl].
  induction nodes as [|c nodes IHn]; intros m1 Hm1; simpl; [done|].
  assert (set_priorities depth forest (p + 1) c m1 ≠ OutOfFuel) as Hc.
  { apply IH. assert (size (impls ∖ dom m1) < size (impls ∖ dom m)); [|lia]. apply subset_size.
    apply subseteq_dom in Hm1. rewrite dom_insert in Hm1. apply Hi in Hn.
    assert (i ∉ dom m) by by apply not_elem_of_dom. set_solver. }
  destruct (set_priorities depth forest (p + 1) c m1) as [m2| | |] eqn:Hs; simpl; try done.
  apply IHn. etrans; [exact Hm1|]. by eapply set_priorities_spec.
Qed.
End SetPriorities.

Section Priorities.
Context {E : Type} `{EnaOps E} {G : Type} `{DiGraphLaws G, TupleCombinationsLaws}.
Context (fuel : nat) (db : RustIrDatabase) (solve : UCanonicalGoal → Fallible (option Solution)) (trait_id : TraitId).
Local Abbreviation impls := (db.(local_impls_to_coherence_check) trait_id).
Local Abbreviation overlapping := (overlapping (E := E) fuel db solve).
Local Abbreviation overlap_specialization := (overlap_specialization (E := E) fuel db solve trait_id).
Local Abbreviation build := (build_specialization_forest (E := E) (G := G) fuel db solve trait_id).

Lemma overlap_specialization_pair l r x : overlap_specialization l r = Val x → x = (l, r) ∨ x = (r, l).
Proof.
  unfold Coherence.overlap_specialization. intros Hx. inv_outcome Hx.
  destruct x0 as [], x1 as []; simplify_eq/=; auto.
Qed.

Lemma build_spec forest :
  (db.(trait_datum) trait_id).(trait_flags).(marker) = false → build = Val forest →
  ∃ map rel, forest_of (forest, map) rel ∧
    (∀ p, p ∈ tuple_combinations impls → overlapping p.1 p.2 → ∃ x, overlap_specialization p.1 p.2 = Val x ∧ x ∈ rel) ∧
    (∀ x, x ∈ rel → ∃ p, p ∈ tuple_combinations impls ∧ overlapping p.1 p.2 ∧ overlap_specialization p.1 p.2 = Val x).
Proof.
  intros Hm. unfold build_specialization_forest, visit_specializations_of_trait. rewrite Hm. intros Hb.
  inv_outcome Hb. destruct x as [g map]. injection Hb as ->.
  apply visit_pairs_spec in Hx as (rel & Hst & Hf & Hr).
  exists map, rel. split_and!.
  - rewrite Hst. clear Hst Hf Hr. induction rel as [|x rel IH] using rev_ind; [apply forest_of_new|].
    rewrite foldl_app. simpl. destruct x as [a b]. by apply forest_of_record.
  - intros p Hp Ho. destruct (Hf p Hp Ho) as (x & [_ ?] & ?). by exists x.
  - intros x Hx. destruct (Hr x Hx) as (p & ? & [? ?]). by exists p.
Qed.

Lemma pairs_in p : p ∈ tuple_combinations impls → p.1 ∈ impls ∧ p.2 ∈ impls.
Proof.
  destruct p as [l r]. rewrite elem_of_tuple_combinations. intros (i & j & _ & Hi & Hj).
  split; by eapply list_elem_of_lookup_2.
Qed.

(** Every impl of the forest has a priority, when the specializations have no cycle. *)
Lemma forest_priorities forest map rel (rank : ImplId → nat) m :
  forest_of (forest, map) rel → (∀ x, x ∈ rel → rank x.1 < rank x.2) →
  (∀ n, n ∈ externals_incoming forest → has_priority forest m n 0) → children_above forest ∅ m →
  ∀ i n, node_weight forest n = Some i → ∃ p, m !! i = Some p.
Proof.
  intros [Hn Hnodes He] Hrank Hroots Hc. simpl in *.
  induction i as [i IH] using (induction_ltof1 _ rank). unfold ltof in IH. intros n Hw.
  destruct (decide (List.Exists (λ x, x.2 = i) rel)) as [Hx|Hx].
  - apply Exists_exists in Hx as ([i' j] & Hx & Hj). simpl in Hj. subst j.
    destruct (proj2 (Hnodes i')) as [a Ha]; [by exists (i', i); auto|]. apply Hn in Ha.
    destruct (IH i' (Hrank _ Hx) a Ha) as [p Hp].
    destruct (Hc a i' p Ha Hp (lookup_empty i') n) as (j & Hj & Hpj); [apply He; eauto|].
    simplify_eq. by exists (p + 1).
  - destruct (Hroots n) as (i' & ? & ?); [|simplify_eq; by exists 0].
    apply elem_of_externals_incoming. split; [by exists i|]. intros j Hj. apply He in Hj as (i' & i0 & _ & Hi0 & Hr).
    simplify_eq. apply Hx, Exists_exists. by exists (i', i).
Qed.

Lemma size_list_to_set_le (l : list ImplId) : size (list_to_set l : gset ImplId) ≤ length l.
Proof.
  induction l as [|x l IH]; [done|]. rewrite list_to_set_cons, size_union_alt, size_singleton. simpl.
  assert (size (list_to_set l ∖ {[x]} : gset ImplId) ≤ size (list_to_set l : gset ImplId)); [|lia].
  apply subseteq_size. set_solver.
Qed.

Lemma specialization_priorities_ends depth :
  (db.(trait_datum) trait_id).(trait_flags).(marker) = false → length impls < depth →
  ∀ forest, build = Val forest →
  specialization_priorities (E := E) (G := G) fuel db solve trait_id depth ≠ OutOfFuel.
Proof.
  intros Hm Hd forest Hb. destruct (build_spec _ Hm Hb) as (map & rel & Hf & _ & Hr).
  unfold specialization_priorities. rewrite Hb. simpl.
  assert (∀ n i, node_weight forest n = Some i → i ∈ (list_to_set impls : gset ImplId)) as Hin.
  { intros n i Hi. apply (forest_node _ _ Hf) in Hi. apply elem_of_list_to_set.
    destruct (proj1 (forest_nodes _ _ Hf i)) as (x & Hx & Hxi); [by exists n|].
    destruct (Hr x Hx) as (p & [? ?]%pairs_in & _ & [->| ->]%overlap_specialization_pair); simpl in Hxi;
      by destruct Hxi as [->| ->]. }
  assert (∀ n m i, node_weight forest n = Some i → node_weight forest m = Some i → n = m) as Hinj.
  { intros n m i. rewrite <- !(forest_node _ _ Hf). simpl. congruence. }
  assert (∀ nodes m, for_each_node (set_priorities depth forest 0) nodes m ≠ OutOfFuel) as Hl; [|apply Hl].
  induction nodes as [|n nodes IH]; intros m; simpl; [done|].
  assert (set_priorities depth forest 0 n m ≠ OutOfFuel) as Hs.
  { eapply set_priorities_ends; [exact Hinj|exact Hin|].
    assert (size (list_to_set impls ∖ dom m : gset ImplId) ≤ length impls); [|lia].
    etrans; [|apply size_list_to_set_le]. apply subseteq_size. set_solver. }
  destruct (set_priorities depth forest 0 n m) as [m2| | |]; simpl; done.
Qed.
End Priorities.

(** C10. For a trait that is not a marker and whose impls specialize one another without
    a cycle ([rank]), whatever the graph library: when [specialization_priorities] answers, any two
    impls of a trait that may overlap have priorities, and the one that specializes the
    other is exactly one above it: impls of equal priority never apply to the same
    types.  It does not run forever: a depth above the number of impls is enough. *)
Theorem specialization_priorities_order {E : Type} `{EnaOps E} {G : Type} `{DiGraphLaws G, TupleCombinationsLaws}
    (fuel depth : nat) (db : RustIrDatabase) (solve : UCanonicalGoal → Fallible (option Solution))
    (trait_id : TraitId) (rank : ImplId → nat)
    (Hmarker : (db.(trait_datum) trait_id).(trait_flags).(marker) = false)
    (Hrank : ∀ l r less more, (l, r) ∈ tuple_combinations (db.(local_impls_to_coherence_check) trait_id) →
      overlapping (E := E) fuel db solve l r →
      overlap_specialization (E := E) fuel db solve trait_id l r = Val (less, more) → rank less < rank more)
    (Hdepth : length (db.(local_impls_to_coherence_check) trait_id) < depth) :
  (∀ forest, build_specialization_forest (E := E) (G := G) fuel db solve trait_id = Val forest →
    specialization_priorities (E := E) (G := G) fuel db solve trait_id depth ≠ OutOfFuel) ∧
  ∀ m, specialization_priorities (E := E) (G := G) fuel db solve trait_id depth = Val m →
  ∀ i j l r, i < j → db.(local_impls_to_coherence_check) trait_id !! i = Some l →
    db.(local_impls_to_coherence_check) trait_id !! j = Some r → overlapping (E := E) fuel db solve l r →
  ∃ less more p, overlap_specialization (E := E) fuel db solve trait_id l r = Val (less, more) ∧
    m !! less = Some p ∧ m !! more = Some (p + 1).
Proof.
  split; [by apply specialization_priorities_ends|]. intros m Hm i j l r Hij Hi Hj Ho.
  unfold specialization_priorities in Hm. inv_outcome Hm.
  destruct (build_spec _ _ _ _ _ Hmarker Hx) as (map & rel & Hf & Hpairs & Hrel).
  assert (∀ a b k, node_weight x a = Some k → node_weight x b = Some k → a = b) as Hinj.
  { intros a b k. rewrite <- !(forest_node _ _ Hf). simpl. congruence. }
  apply (for_each_node_spec x Hinj _ _ _ _ 0) in Hm as (_ & Hroots & Hc);
    [|intros n m1 m2; by apply set_priorities_spec].
  destruct (Hpairs (l, r)) as ([less more] & Hs & Hin); [|done|].
  { apply elem_of_tuple_combinations. by exists i, j. }
  assert (∀ y, y ∈ rel → rank y.1 < rank y.2) as Hrk.
  { intros [a b] Hy. destruct (Hrel _ Hy) as ([] & ? & ? & ?). by eapply Hrank. }
  destruct (proj2 (forest_nodes _ _ Hf less)) as [a Ha]; [by exists (less, more); auto|].
  destruct (proj2 (forest_nodes _ _ Hf more)) as [b Hb]; [by exists (less, more); auto|].
  apply (forest_node _ _ Hf) in Ha, Hb.
  destruct (forest_priorities _ _ _ rank m Hf Hrk Hroots Hc _ _ Ha) as [p Hp].
  exists less, more, p. split_and!; [done..|].
  destruct (Hc a less p Ha Hp (lookup_empty _) b) as (k & Hk & Hkp); [|simpl in Hb; congruence].
  apply (forest_edge _ _ Hf). eauto.
Qed.

#[global] Instance list_tuple_combinations_laws : TupleCombinationsLaws.
Proof.
  intros A l x y. unfold tuple_combinations, list_tuple_combinations.
  induction l as [|z l IH]; simpl; [split; [set_solver|by intros (? & ? & _ & ? & _)]|].
  rewrite elem_of_app, list_elem_of_fmap, IH. split.
  - intros [(k & [= -> ->] & Hk)|(i & j & ? & ? & ?)].
    + apply list_elem_of_lookup in Hk as [j Hj]. exists 0, (S j). split_and!; [lia|done..].
    + exists (S i), (S j). split_and!; [lia|done..].
  - intros ([|i] & [|j] & Hij & Hi & Hj); try lia; simpl in *.
    + left. simplify_eq. exists y. split; [done|]. by eapply list_elem_of_lookup_2.
    + right. exists i, j. split_and!; [lia|done..].
Qed.

#[global] Instance list_graph_laws : DiGraphLaws ListGraph.
Proof.
  split; simpl; try done.
  - intros g w i. split; [by apply lookup_ge_None_2|]. case_decide as Hi; [subst; by rewrite list_lookup_middle|].
    destruct (decide (i < length g.(lg_nodes))); [by rewrite lookup_app_l|].
    rewrite !lookup_ge_None_2; [done|lia|rewrite length_app; simpl; lia].
  - intros g a b i. by case_decide.
  - intros g a b i _ _. unfold lg_neighbors.
    assert (b ∈ (filter (λ e, e.1 = a) (lg_edges g)).*2 ↔ (a, b) ∈ lg_edges g) as Hb.
    { rewrite list_elem_of_fmap. setoid_rewrite list_elem_of_filter. split; [|by exists (a, b)].
      by intros ([? ?] & -> & <- & ?). }
    destruct (decide ((a, b) ∈ lg_edges g)); simpl.
    + by rewrite decide_False by (rewrite Hb; tauto).
    + destruct (decide (i = a)) as [->|].
      * rewrite decide_True by (by rewrite Hb). by rewrite filter_cons_True.
      * rewrite decide_False by tauto. by rewrite filter_cons_False by (simpl; congruence).
  - intros g. apply NoDup_filter, NoDup_seq.
  - intros g i. rewrite list_elem_of_filter, elem_of_seq, lookup_lt_is_Some. unfold lg_neighbors.
    setoid_rewrite list_elem_of_fmap. setoid_rewrite list_elem_of_filter. split.
    + intros [Hn ?]. split; [lia|]. intros j (e & -> & _ & He). apply Hn. by exists e.
    + intros [? Hn]. split; [|lia]. intros (e & -> & He). apply (Hn e.1). by exists e.
Qed.

(** The first two impls of the chain. *)
Lemma specialization_priorities_order_witness :
  (∀ forest, build_specialization_forest (E := UnionFind.t) (G := ListGraph) 30 (chain_db (take 2 chain_impls))
      (fresh_solve (chain_db (take 2 chain_impls))) 0%N = Val forest →
    priorities_of (take 2 chain_impls) 3 ≠ OutOfFuel) ∧
  ∀ m, priorities_of (take 2 chain_impls) 3 = Val m →
  ∀ i j l r, i < j → [0; 1]%N !! i = Some l → [0; 1]%N !! j = Some r →
    overlapping (E := UnionFind.t) 30 (chain_db (take 2 chain_impls)) (fresh_solve (chain_db (take 2 chain_impls))) l r →
  ∃ less more p, overlap_specialization (E := UnionFind.t) 30 (chain_db (take 2 chain_impls))
      (fresh_solve (chain_db (take 2 chain_impls))) 0%N l r = Val (less, more) ∧
    m !! less = Some p ∧ m !! more = Some (p + 1).
Proof.
  apply (specialization_priorities_order 30 3 (chain_db (take 2 chain_impls))
    (fresh_solve (chain_db (take 2 chain_impls))) 0%N N.to_nat).
  - reflexivity.
  - intros l r less more Hlr _ Ho. apply list_elem_of_singleton in Hlr. injection Hlr as -> ->.
    assert (Val (E := CoherenceError) (less, more) = Val (0, 1)%N) as [= -> ->].
    { rewrite <- Ho. vm_compute. reflexivity. }
    apply Nat.ltb_lt. reflexivity.
  - apply Nat.ltb_lt. reflexivity.
Defined.

(** The edges of the forest join every impl to every impl that specializes it, not
    only to the next one: when three impls form a chain, the last one is reached twice
    and [specialization_priorities] panics, although it gives priorities to any two
    of them. *)
Theorem chain_of_impls_panics :
  priorities_of chain_impls 4 = Panic PAssert ∧
  (∀ impls, impls ∈ [[0; 1]; [0; 2]; [1; 2]] →
    map_to_list <$> priorities_of (omap (λ i, chain_impls !! i) impls) 3 = Val [(1%N, 1); (0%N, 0)]).
Proof.
  split; [vm_compute; reflexivity|]. intros impls Hi. repeat (apply elem_of_cons in Hi as [->|Hi]; [vm_compute; reflexivity|]).
  set_solver.
Qed.

(** * The checks of declarations *)

Definition plain_adt (ks : list VariableKind) (tys : list Ty) (wcs : list QuantifiedWhereClause) : AdtDatum :=
  mkAdtDatum (mkBinders ks (mkAdtDatumBound [mkAdtVariantDatum tys] wcs)) 0 (mkAdtFlags false false false) Struct.
Definition ref_u32 (d i : nat) : Ty := TyRef Not (LtBoundVar (mkBoundVar d i)) ty_u32.
(** [trait Foo<X>], and a data type. *)
Definition foo_db (adt : AdtDatum) : RustIrDatabase := with_adts [adt] (program_db [foo_trait] [] [] []).
Definition verify_adt (adt : AdtDatum) : outcome WfError unit :=
  verify_adt_decl (E := UnionFind.t) 30 (foo_db adt) (fresh_solve (foo_db adt)) 0%N.
(** [forall<ks> t: Foo<u>]. *)
Definition foo_bound (ks : list VariableKind) (t u : Ty) : QuantifiedWhereClause :=
  mkBinders ks (WcImplemented (mkTraitRef 0 [ArgTy t; ArgTy u])).

(** The check of a data type panics on a higher-ranked bound on a reference: the
    collected type [&'a u32] is shifted out of the binder of ['a].  So it does for
    [struct S<T> where forall<'a> T: Foo<&'a u32>] and for a field of type
    [dyn forall<'a> Foo<&'a u32>]; without the quantifier both are accepted. *)
Theorem higher_ranked_bounds_panic :
  verify_adt (plain_adt [VkTy General] [ty_var 0]
    [foo_bound [VkLifetime] (TyBoundVar (mkBoundVar 1 0)) (ref_u32 0 0)]) = Panic PUnwrap ∧
  verify_adt (plain_adt [] [TyDyn (mkBinders [VkTy General]
    [foo_bound [VkLifetime] (TyBoundVar (mkBoundVar 1 0)) (ref_u32 0 0)]) LtStatic] []) = Panic PUnwrap ∧
  verify_adt (plain_adt [VkTy General; VkLifetime] [ty_var 0]
    [foo_bound [] (TyBoundVar (mkBoundVar 1 0)) (TyRef Not LtStatic ty_u32)]) = Val tt ∧
  verify_adt (plain_adt [] [TyDyn (mkBinders [VkTy General]
    [foo_bound [] (TyBoundVar (mkBoundVar 1 0)) (TyRef Not LtStatic ty_u32)]) LtStatic] []) = Val tt.
Proof. split_and!; vm_compute; reflexivity. Qed.

(** [impl<ks> Drop for Adt<args>]. *)
Definition drop_impl (ks : list VariableKind) (args : Substitution) : ImplDatum :=
  mkImplDatum Positive (mkBinders ks (mkImplDatumBound (mkTraitRef 0 [ArgTy (TyAdt 0 args)]) [])) ImplLocal [].
Definition lt_param (i : nat) : GenericArg := ArgLifetime (LtBoundVar (mkBoundVar INNERMOST i)).
Definition ty_param (i : nat) : GenericArg := ArgTy (ty_var i).
Definition verify_drop (params : list VariableKind) (impl : ImplDatum) : outcome WfError unit :=
  let db := with_adts [plain_adt params [] []] (program_db [plain_trait 0 (Some WkDrop)] [impl] [] []) in
  verify_well_known_impl (E := UnionFind.t) 30 db (fresh_solve db) 0%N WkDrop.

(** A [Drop] impl must be as generic as its data type, but the check does not see
    it for lifetimes, which are equal under constraints that are not looked at:
    [impl<'a> Drop for S<'a, 'a>] and [impl<'a> Drop for S<'static, 'a>] pass, although
    the same impl with types in the place of the lifetimes is rejected. *)
Theorem drop_lifetimes_not_checked :
  verify_drop [VkLifetime; VkLifetime] (drop_impl [VkLifetime] [lt_param 0; lt_param 0]) = Val tt ∧
  verify_drop [VkLifetime; VkLifetime] (drop_impl [VkLifetime] [ArgLifetime LtStatic; lt_param 0]) = Val tt ∧
  verify_drop [VkTy General; VkTy General] (drop_impl [VkTy General] [ty_param 0; ty_param 0]) =
    Exn (IllFormedTraitImpl 0) ∧
  verify_drop [VkTy General; VkTy General] (drop_impl [VkTy General] [ArgTy ty_u32; ty_param 0]) =
    Exn (IllFormedTraitImpl 0) ∧
  verify_drop [VkTy General; VkTy General] (drop_impl [VkTy General; VkTy General] [ty_param 0; ty_param 1]) = Val tt.
Proof. split_and!; vm_compute; reflexivity. Qed.
