(* ===== verification/Ast.v ===== *)
(** * Syntax trees ([chalk-parse/src/ast.rs])

    What the parser, which LALRPOP generates from a grammar, hands to lowering.  An
    [Atom] is a string.  The names of the types are those of the source; files that use
    them write [Ast.Ty] and so on next to the types of the IR.  Module [Samples] has small
    programs, for the examples of the theorems on lowering. *)

From stdpp Require Import base list numbers strings.
From S2P Require Import Prelude.

Record Span := mkSpan { lo : N; hi : N }.
Record Identifier := mkIdentifier { str : string; span : Span }.
#[global] Instance Span_eq_dec : EqDecision Span. Proof. solve_decision. Defined.
#[global] Instance Identifier_eq_dec : EqDecision Identifier. Proof. solve_decision. Defined.

(** ** Enumerations *)

Inductive IntTy := Isize | I8 | I16 | I32 | I64 | I128.
Inductive UintTy := Usize | U8 | U16 | U32 | U64 | U128.
Inductive FloatTy := F32 | F64.
Inductive ScalarType := ScBool | ScChar | ScInt (i : IntTy) | ScUint (u : UintTy) | ScFloat (f : FloatTy).
Inductive Mutability := Mut | Not.
Inductive Safety := Safe | Unsafe.
Inductive Movability := MvStatic | MvMovable.
Inductive Polarity := Positive | Negative.
Inductive ImplType := ImplLocal | ImplExternal.
Inductive AdtKind := Struct | Enum | Union.
Inductive ClosureKind := CkFn | CkFnMut | CkFnOnce.
Inductive Variance := Invariant | Covariant | Contravariant.
Inductive WellKnownTrait :=
  | WkSized | WkCopy | WkClone | WkDrop | WkFnOnce | WkFnMut | WkFn | WkUnsize | WkUnpin
  | WkCoerceUnsized | WkDiscriminantKind | WkGenerator.

(** The kind of a parameter, as error messages name it. *)
Inductive Kind := KTy | KLifetime | KConst.
#[global] Instance Kind_eq_dec : EqDecision Kind. Proof. solve_decision. Defined.

Definition polarity_from_bool (polarity : bool) : Polarity := if polarity then Positive else Negative.

(** ** Parameters and leaves of types *)

Inductive VariableKind :=
  | VkTy (n : Identifier)
  | VkIntegerTy (n : Identifier)
  | VkFloatTy (n : Identifier)
  | VkLifetime (n : Identifier)
  | VkConst (n : Identifier).

Inductive Lifetime := LtId (name : Identifier) | LtStatic | LtErased | LtEmpty.

(** A value is a [u32]. *)
Inductive Const := CId (n : Identifier) | CValue (value : N).

Record FnAbi := mkFnAbi { abi_name : string }.
Definition FnAbi_default : FnAbi := mkFnAbi "Rust".
Record FnSig := mkFnSig { abi : FnAbi; safety : Safety; variadic : bool }.

(** ** Types

    The structs inside the mutual definition are records over the types of their
    fields. *)

Record TraitRefOf (A : Type) := mkTraitRef { tr_trait_name : Identifier; tr_args : list A }.
Record ProjectionTyOf (A : Type) := mkProjectionTy {
  proj_trait_ref : TraitRefOf A; proj_name : Identifier; proj_args : list A }.
Record TraitBoundOf (A : Type) := mkTraitBound { tb_trait_name : Identifier; tb_args_no_self : list A }.
Record AliasEqBoundOf (T A : Type) := mkAliasEqBound {
  aeb_trait_bound : TraitBoundOf A; aeb_name : Identifier; aeb_args : list A; aeb_value : T }.
Inductive InlineBoundOf (T A : Type) :=
  | IbTraitBound (b : TraitBoundOf A)
  | IbAliasEqBound (b : AliasEqBoundOf T A).
Record QuantifiedInlineBoundOf (T A : Type) := mkQuantifiedInlineBound {
  qib_variable_kinds : list VariableKind; qib_bound : InlineBoundOf T A }.
Arguments mkTraitRef {A} _ _.
Arguments tr_trait_name {A} _.
Arguments tr_args {A} _.
Arguments mkProjectionTy {A} _ _ _.
Arguments proj_trait_ref {A} _.
Arguments proj_name {A} _.
Arguments proj_args {A} _.
Arguments mkTraitBound {A} _ _.
Arguments tb_trait_name {A} _.
Arguments tb_args_no_self {A} _.
Arguments mkAliasEqBound {T A} _ _ _ _.
Arguments aeb_trait_bound {T A} _.
Arguments aeb_name {T A} _.
Arguments aeb_args {T A} _.
Arguments aeb_value {T A} _.
Arguments IbTraitBound {T A} _.
Arguments IbAliasEqBound {T A} _.
Arguments mkQuantifiedInlineBound {T A} _ _.
Arguments qib_variable_kinds {T A} _.
Arguments qib_bound {T A} _.

Inductive Ty :=
  | TyId (name : Identifier)
  | TyDyn (bounds : list (QuantifiedInlineBoundOf Ty GenericArg)) (lifetime : Lifetime)
  | TyApply (name : Identifier) (args : list GenericArg)
  | TyProjection (proj : ProjectionTyOf GenericArg)
  | TyForAll (lifetime_names : list Identifier) (types : list Ty) (sig : FnSig)
  | TyTuple (types : list Ty)
  | TyScalar (ty : ScalarType)
  | TySlice (ty : Ty)
  | TyArray (ty : Ty) (len : Const)
  | TyRaw (mutability : Mutability) (ty : Ty)
  | TyRef (mutability : Mutability) (lifetime : Lifetime) (ty : Ty)
  | TyStr
  | TyNever
with GenericArg :=
  | ArgTy (ty : Ty)
  | ArgLifetime (l : Lifetime)
  | ArgId (name : Identifier)
  | ArgConst (c : Const).

Abbreviation TraitRef := (TraitRefOf GenericArg).
Abbreviation ProjectionTy := (ProjectionTyOf GenericArg).
Abbreviation TraitBound := (TraitBoundOf GenericArg).
Abbreviation AliasEqBound := (AliasEqBoundOf Ty GenericArg).
Abbreviation InlineBound := (InlineBoundOf Ty GenericArg).
Abbreviation QuantifiedInlineBound := (QuantifiedInlineBoundOf Ty GenericArg).

(** *** Induction on types and arguments *)

Section AstInd.
Context (PT : Ty → Prop) (PA : GenericArg → Prop).

Definition on_trait_bound (b : TraitBound) : Prop := Forall PA b.(tb_args_no_self).
Definition on_alias_eq_bound (b : AliasEqBound) : Prop :=
  on_trait_bound b.(aeb_trait_bound) ∧ Forall PA b.(aeb_args) ∧ PT b.(aeb_value).
Definition on_inline_bound (b : InlineBound) : Prop :=
  match b with IbTraitBound b => on_trait_bound b | IbAliasEqBound b => on_alias_eq_bound b end.
Definition on_bounds (bs : list QuantifiedInlineBound) : Prop :=
  Forall (λ b : QuantifiedInlineBound, on_inline_bound b.(qib_bound)) bs.
Definition on_projection (p : ProjectionTy) : Prop :=
  Forall PA p.(proj_trait_ref).(tr_args) ∧ Forall PA p.(proj_args).

Record AstCases : Prop := {
  ast_Id n : PT (TyId n);
  ast_Dyn bs l : on_bounds bs → PT (TyDyn bs l);
  ast_Apply n args : Forall PA args → PT (TyApply n args);
  ast_Projection p : on_projection p → PT (TyProjection p);
  ast_ForAll ns ts s : Forall PT ts → PT (TyForAll ns ts s);
  ast_Tuple ts : Forall PT ts → PT (TyTuple ts);
  ast_Scalar s : PT (TyScalar s);
  ast_Slice t : PT t → PT (TySlice t);
  ast_Array t c : PT t → PT (TyArray t c);
  ast_Raw m t : PT t → PT (TyRaw m t);
  ast_Ref m l t : PT t → PT (TyRef m l t);
  ast_Str : PT TyStr;
  ast_Never : PT TyNever;
  ast_ArgTy t : PT t → PA (ArgTy t);
  ast_ArgLifetime l : PA (ArgLifetime l);
  ast_ArgId n : PA (ArgId n);
  ast_ArgConst c : PA (ArgConst c)
}.

Context (H : AstCases).

Fixpoint ast_ty (t : Ty) : PT t
with ast_arg (a : GenericArg) : PA a.
Proof.
  all: pose (args_all := fix args_all (l : list GenericArg) : Forall PA l :=
    match l with [] => Forall_nil_2 _ | a :: l => Forall_cons_2 _ _ _ (ast_arg a) (args_all l) end).
  all: pose (tys_all := fix tys_all (l : list Ty) : Forall PT l :=
    match l with [] => Forall_nil_2 _ | t :: l => Forall_cons_2 _ _ _ (ast_ty t) (tys_all l) end).
  - destruct t as [n|bs l|n args|[[tn targs] n args]|ns ts s|ts|s|t|t c|m t|m l t| |]; [apply (ast_Id H)| |..].
    + apply (ast_Dyn H). revert bs. fix bounds_all 1. intros [|[ks [[tn targs]|[[tn targs] n args v]]] bs];
        constructor; try apply bounds_all; simpl; [apply args_all|].
      split; [apply args_all|]. split; [apply args_all|apply ast_ty].
    + apply (ast_Apply H), args_all.
    + apply (ast_Projection H). split; apply args_all.
    + apply (ast_ForAll H), tys_all.
    + apply (ast_Tuple H), tys_all.
    + apply (ast_Scalar H).
    + apply (ast_Slice H), ast_ty.
    + apply (ast_Array H), ast_ty.
    + apply (ast_Raw H), ast_ty.
    + apply (ast_Ref H), ast_ty.
    + apply (ast_Str H).
    + apply (ast_Never H).
  - destruct a as [t|l|n|c].
    + apply (ast_ArgTy H), ast_ty.
    + apply (ast_ArgLifetime H).
    + apply (ast_ArgId H).
    + apply (ast_ArgConst H).
Defined.

Lemma ast_ind : (∀ t, PT t) ∧ (∀ a, PA a).
Proof. split; [exact ast_ty|exact ast_arg]. Qed.
End AstInd.

(** ** Where clauses, goals and clauses *)

Inductive WhereClause :=
  | WcImplemented (trait_ref : TraitRef)
  | WcProjectionEq (projection : ProjectionTy) (ty : Ty)
  | WcLifetimeOutlives (a b : Lifetime)
  | WcTypeOutlives (ty : Ty) (lifetime : Lifetime).

Record QuantifiedWhereClause := mkQuantifiedWhereClause {
  qwc_variable_kinds : list VariableKind; qwc_where_clause : WhereClause }.

Inductive DomainGoal :=
  | DgHolds (where_clause : WhereClause)
  | DgNormalize (projection : ProjectionTy) (ty : Ty)
  | DgTraitRefWellFormed (trait_ref : TraitRef)
  | DgTyWellFormed (ty : Ty)
  | DgTyFromEnv (ty : Ty)
  | DgTraitRefFromEnv (trait_ref : TraitRef)
  | DgIsLocal (ty : Ty)
  | DgIsUpstream (ty : Ty)
  | DgIsFullyVisible (ty : Ty)
  | DgLocalImplAllowed (trait_ref : TraitRef)
  | DgCompatible
  | DgDownstreamType (ty : Ty)
  | DgReveal
  | DgObjectSafe (id : Identifier).

Inductive LeafGoal :=
  | LgDomainGoal (goal : DomainGoal)
  | LgUnifyGenericArgs (a b : GenericArg)
  | LgSubtypeGenericArgs (a b : Ty).

Record ClauseOf (G : Type) := mkClause {
  clause_variable_kinds : list VariableKind;
  clause_consequence : DomainGoal;
  clause_conditions : list G }.
Arguments mkClause {G} _ _ _.
Arguments clause_variable_kinds {G} _.
Arguments clause_consequence {G} _.
Arguments clause_conditions {G} _.

Inductive Goal :=
  | GForAll (ids : list VariableKind) (g : Goal)
  | GExists (ids : list VariableKind) (g : Goal)
  | GImplies (hyp : list (ClauseOf Goal)) (g : Goal)
  | GAnd (g1 : Goal) (g2s : list Goal)
  | GNot (g : Goal)
  | GCompatible (g : Goal)
  | GLeaf (leaf : LeafGoal).
Abbreviation Clause := (ClauseOf Goal).

(** *** Induction on goals *)

Section GoalInd.
Context (P : Goal → Prop).

Record AstGoalCases : Prop := {
  ast_GForAll ids g : P g → P (GForAll ids g);
  ast_GExists ids g : P g → P (GExists ids g);
  ast_GImplies hyp g :
    Forall (λ c : Clause, Forall P c.(clause_conditions)) hyp → P g → P (GImplies hyp g);
  ast_GAnd g1 g2s : P g1 → Forall P g2s → P (GAnd g1 g2s);
  ast_GNot g : P g → P (GNot g);
  ast_GCompatible g : P g → P (GCompatible g);
  ast_GLeaf leaf : P (GLeaf leaf)
}.

Context (H : AstGoalCases).

Fixpoint ast_goal (g : Goal) : P g.
Proof.
  pose (all := fix all (l : list Goal) : Forall P l :=
    match l with [] => Forall_nil_2 _ | g :: l => Forall_cons_2 _ _ _ (ast_goal g) (all l) end).
  destruct g as [ids g|ids g|hyp g|g1 g2s|g|g|leaf].
  - apply (ast_GForAll H), ast_goal.
  - apply (ast_GExists H), ast_goal.
  - apply (ast_GImplies H); [|apply ast_goal]. revert hyp. fix clauses_all 1.
    intros [|[ks c conds] hyp]; constructor; [apply all|apply clauses_all].
  - apply (ast_GAnd H); [apply ast_goal|apply all].
  - apply (ast_GNot H), ast_goal.
  - apply (ast_GCompatible H), ast_goal.
  - apply (ast_GLeaf H).
Defined.
End GoalInd.

(** ** Items *)

Record Field := mkField { field_name : Identifier; field_ty : Ty }.
Record Variant := mkVariant { variant_name : Identifier; variant_fields : list Field }.
Record AdtFlags := mkAdtFlags {
  flag_upstream : bool; flag_fundamental : bool; flag_phantom_data : bool; flag_kind : AdtKind }.
Record AdtRepr := mkAdtRepr { repr_c : bool; repr_packed : bool; repr_int : option Ty }.
Record AdtDefn := mkAdtDefn {
  adt_name : Identifier;
  adt_variable_kinds : list VariableKind;
  adt_where_clauses : list QuantifiedWhereClause;
  adt_variants : list Variant;
  adt_flags : AdtFlags;
  adt_repr : AdtRepr;
  adt_variances : option (list Variance) }.
Record FnDefn := mkFnDefn {
  fn_name : Identifier;
  fn_variable_kinds : list VariableKind;
  fn_where_clauses : list QuantifiedWhereClause;
  fn_argument_types : list Ty;
  fn_return_type : Ty;
  fn_sig : FnSig;
  fn_variances : option (list Variance) }.
Record ClosureDefn := mkClosureDefn {
  closure_name : Identifier;
  closure_kind : ClosureKind;
  closure_variable_kinds : list VariableKind;
  closure_argument_types : list Ty;
  closure_return_type : Ty;
  closure_upvars : list Ty }.
Record AssocTyDefn := mkAssocTyDefn {
  assoc_name : Identifier;
  assoc_variable_kinds : list VariableKind;
  assoc_bounds : list QuantifiedInlineBound;
  assoc_where_clauses : list QuantifiedWhereClause }.
Record TraitFlags := mkTraitFlags {
  tf_auto : bool; tf_marker : bool; tf_upstream : bool; tf_fundamental : bool;
  tf_non_enumerable : bool; tf_coinductive : bool; tf_object_safe : bool }.
Record TraitDefn := mkTraitDefn {
  trait_name : Identifier;
  trait_variable_kinds : list VariableKind;
  trait_where_clauses : list QuantifiedWhereClause;
  assoc_ty_defns : list AssocTyDefn;
  trait_flags : TraitFlags;
  trait_well_known : option WellKnownTrait }.
Record OpaqueTyDefn := mkOpaqueTyDefn {
  opaque_ty : Ty;
  opaque_variable_kinds : list VariableKind;
  opaque_name : Identifier;
  opaque_bounds : list QuantifiedInlineBound;
  opaque_where_clauses : list QuantifiedWhereClause }.
Record GeneratorDefn := mkGeneratorDefn {
  gen_name : Identifier;
  gen_movability : Movability;
  gen_variable_kinds : list VariableKind;
  gen_upvars : list Ty;
  gen_resume_ty : Ty;
  gen_yield_ty : Ty;
  gen_return_ty : Ty;
  gen_witness_types : list Ty;
  gen_witness_lifetimes : list Identifier }.
Record AssocTyValue := mkAssocTyValue {
  atv_name : Identifier;
  atv_variable_kinds : list VariableKind;
  atv_value : Ty;
  atv_default : bool }.
Record Impl := mkImpl {
  impl_variable_kinds : list VariableKind;
  impl_trait_ref : TraitRef;
  impl_polarity : Polarity;
  impl_where_clauses : list QuantifiedWhereClause;
  impl_assoc_ty_values : list AssocTyValue;
  impl_impl_type : ImplType }.
Record ForeignDefn := mkForeignDefn { foreign_name : Identifier }.

Inductive Item :=
  | ItAdtDefn (d : AdtDefn)
  | ItFnDefn (d : FnDefn)
  | ItClosureDefn (d : ClosureDefn)
  | ItTraitDefn (d : TraitDefn)
  | ItOpaqueTyDefn (d : OpaqueTyDefn)
  | ItGeneratorDefn (d : GeneratorDefn)
  | ItImpl (d : Impl)
  | ItClause (c : Clause)
  | ItForeign (f : ForeignDefn).

Record Program := mkProgram { items : list Item }.

(** ** Arguments of functions *)

Inductive FnArg := FaNonVariadic (ty : Ty) | FaVariadic.
Inductive FnArgs := FasNonVariadic (tys : list Ty) | FasVariadic (tys : list Ty).

Definition is_variadic (self : FnArgs) : bool :=
  match self with FasVariadic _ => true | _ => false end.
Definition to_tys (self : FnArgs) : list Ty :=
  match self with FasNonVariadic tys | FasVariadic tys => tys end.

(** The loop over all arguments but the last. *)
Fixpoint push_args (args : list FnArg) (tys : list Ty) : option (list Ty) :=
  match args with
  | [] => Some tys
  | FaNonVariadic ty :: args => push_args args (tys ++ [ty])
  | FaVariadic :: _ => None
  end.
(** [None] is the only error. *)
Definition from_vec (args : list FnArg) : option FnArgs :=
  tys ← push_args (removelast args) [];
  Some match last args with
  | Some (FaNonVariadic ty) => FasNonVariadic (tys ++ [ty])
  | Some FaVariadic => FasVariadic tys
  | None => FasNonVariadic tys
  end.

(** * Sample programs *)

Module Samples.

#[local] Open Scope string_scope.

Definition ident_of (s : string) : Identifier := mkIdentifier s (mkSpan 0 0).
Definition name_arg (s : string) : GenericArg := ArgId (ident_of s).
Definition ty_named (s : string) : GenericArg := ArgTy (TyId (ident_of s)).
Definition ty_params (names : list string) : list VariableKind := (λ s, VkTy (ident_of s)) <$> names.
Definition lt_params (names : list string) : list VariableKind := (λ s, VkLifetime (ident_of s)) <$> names.

(** [t: Trait<args>]. *)
Definition implements (t : GenericArg) (trait : string) (args : list GenericArg) : WhereClause :=
  WcImplemented (mkTraitRef (ident_of trait) (t :: args)).
Definition where_implements (t : GenericArg) (trait : string) : QuantifiedWhereClause :=
  mkQuantifiedWhereClause [] (implements t trait []).

Definition no_flags : TraitFlags := mkTraitFlags false false false false false false false.
Definition trait_decl (flags : TraitFlags) (name : string) (ks : list VariableKind) (assocs : list AssocTyDefn) : Item :=
  ItTraitDefn (mkTraitDefn (ident_of name) ks [] assocs flags None).
Definition struct_decl (flags : AdtFlags) (name : string) (ks : list VariableKind)
    (wcs : list QuantifiedWhereClause) (tys : list Ty) : Item :=
  ItAdtDefn (mkAdtDefn (ident_of name) ks wcs
    [mkVariant (ident_of name) (mkField (ident_of "field") <$> tys)] flags (mkAdtRepr false false None) None).
Definition plain_struct : AdtFlags := mkAdtFlags false false false Struct.
Definition impl_decl (ks : list VariableKind) (trait : string) (args : list GenericArg)
    (wcs : list QuantifiedWhereClause) (values : list AssocTyValue) : Item :=
  ItImpl (mkImpl ks (mkTraitRef (ident_of trait) args) Positive wcs values ImplLocal).
Definition bound_on (trait : string) : QuantifiedInlineBound :=
  mkQuantifiedInlineBound [] (IbTraitBound (mkTraitBound (ident_of trait) [])).

(** [Vec<T>]. *)
Definition vec_of (t : GenericArg) : Ty := TyApply (ident_of "Vec") [t].
(** [(T,)] and [&'a T]. *)
Definition one_tuple (t : string) : Ty := TyTuple [TyId (ident_of t)].
Definition ref_to (a t : string) : Ty := TyRef Not (LtId (ident_of a)) (TyId (ident_of t)).

(** [trait Copy {}]
    [trait Iterator { type Item<'a>: Copy where Self: Copy; }]
    [impl<T> Iterator for (T,) where T: Copy { type Item<'a> = &'a T; }]
    [struct Vec<T> where T: Copy { field: T }]
    [opaque type Opaque<T>: Iterator = (T,);]
    [forall<T> { Vec<T>: Copy if T: Copy }]. *)
Definition iterator_program : Program := mkProgram [
  trait_decl no_flags "Copy" [] [];
  trait_decl no_flags "Iterator" []
    [mkAssocTyDefn (ident_of "Item") (lt_params ["a"]) [bound_on "Copy"] [where_implements (ty_named "Self") "Copy"]];
  impl_decl (ty_params ["T"]) "Iterator" [ArgTy (one_tuple "T")] [where_implements (ty_named "T") "Copy"]
    [mkAssocTyValue (ident_of "Item") (lt_params ["a"]) (ref_to "a" "T") false];
  struct_decl plain_struct "Vec" (ty_params ["T"]) [where_implements (ty_named "T") "Copy"] [TyId (ident_of "T")];
  ItOpaqueTyDefn (mkOpaqueTyDefn (one_tuple "T") (ty_params ["T"]) (ident_of "Opaque") [bound_on "Iterator"] []);
  ItClause (mkClause (ty_params ["T"]) (DgHolds (implements (ArgTy (vec_of (ty_named "T"))) "Copy" []))
    [GLeaf (LgDomainGoal (DgHolds (implements (ty_named "T") "Copy" [])))])
].

(** [forall<'a, T> { if (T: Copy) { <(T,) as Iterator>::Item<'a> = &'a T } }]. *)
Definition item_goal : Goal :=
  GForAll (lt_params ["a"] ++ ty_params ["T"]) (GImplies
    [mkClause [] (DgHolds (implements (ty_named "T") "Copy" [])) []]
    (GLeaf (LgDomainGoal (DgHolds (WcProjectionEq
      (mkProjectionTy (mkTraitRef (ident_of "Iterator") [ArgTy (one_tuple "T")]) (ident_of "Item") [name_arg "a"])
      (ref_to "a" "T")))))).

End Samples.
