(* ===== verification/LowerEnv.v ===== *)
(** * The environment of lowering
    ([chalk-integration/src/lowering/env.rs], [RustIrError] of [error.rs], [TypeKind] of [lib.rs])

    [Env] knows what every name of the program stands for, and which parameters are in
    scope.  A [BTreeMap] is a [gmap]; indexing one with a key that it does not have
    panics. *)

From stdpp Require Import base list numbers gmap strings.
From S2P Require Import Prelude Ast Ir Fold FoldLaws Shift RustIr.

(** ** Names and errors *)

Inductive TypeSort := SortAdt | SortFnDef | SortClosure | SortTrait | SortOpaque | SortGenerator.
#[global] Instance TypeSort_eq_dec : EqDecision TypeSort. Proof. solve_decision. Defined.

(** The parameters of a named item; [Unit] is [unit]. *)
Record TypeKind := mkTypeKind { sort : TypeSort; tk_name : string; tk_binders : Binders unit }.

Inductive RustIrError :=
  | InvalidParameterName (n : Identifier)
  | InvalidTraitName (n : Identifier)
  | NotTrait (n : Identifier)
  | NotStruct (n : Identifier)
  | DuplicateOrShadowedParameters
  | AutoTraitAssociatedTypes (n : Identifier)
  | AutoTraitParameters (n : Identifier)
  | AutoTraitWhereClauses (n : Identifier)
  | InvalidFundamentalTypesParameters (n : Identifier)
  | NegativeImplAssociatedValues (n : Identifier)
  | MissingAssociatedType (n : Identifier)
  | IncorrectNumberOfVarianceParameters (identifier : Identifier) (expected actual : nat)
  | IncorrectNumberOfTypeParameters (identifier : Identifier) (expected actual : nat)
  | IncorrectNumberOfAssociatedTypeParameters (identifier : Identifier) (expected actual : nat)
  | IncorrectParameterKind (identifier : Identifier) (expected actual : Kind)
  | IncorrectTraitParameterKind (identifier : Identifier) (expected actual : Kind)
  | IncorrectAssociatedTypeParameterKind (identifier : Identifier) (expected actual : Kind)
  | CannotApplyTypeParameter (n : Identifier)
  | InvalidExternAbi (n : string).
#[global] Instance RustIrError_eq_dec : EqDecision RustIrError. Proof. solve_decision. Defined.

Abbreviation LowerResult := (outcome RustIrError).

Definition map_err {E E' A} (f : E → E') (m : outcome E A) : outcome E' A :=
  match m with
  | Val a => Val a
  | Exn e => Exn (f e)
  | Panic p => Panic p
  | OutOfFuel => OutOfFuel
  end.

(** [map[&key]]. *)
Definition btree_index {E K V} `{Countable K} (m : gmap K V) (key : K) : outcome E V := unwrap (m !! key).

(** [b.to_const(interner, ty)]. *)
Definition to_const (bv : BoundVar) (ty : Ty) : Const := mkConst ty (CvBoundVar bv).

(** ** The environment *)

Record AssociatedTyLookup := mkAssociatedTyLookup {
  lookup_id : AssocTypeId;
  addl_variable_kinds : list VariableKind
}.

Abbreviation ParameterMap := (gmap string (WithKind BoundVar)).

Record Env := mkEnv {
  env_adt_ids : gmap string AdtId;
  env_adt_kinds : gmap AdtId TypeKind;
  env_fn_def_ids : gmap string FnDefId;
  env_fn_def_kinds : gmap FnDefId TypeKind;
  env_closure_ids : gmap string ClosureId;
  env_closure_kinds : gmap ClosureId TypeKind;
  env_trait_ids : gmap string TraitId;
  env_trait_kinds : gmap TraitId TypeKind;
  env_opaque_ty_ids : gmap string OpaqueTyId;
  env_opaque_ty_kinds : gmap OpaqueTyId TypeKind;
  env_associated_ty_lookups : gmap (TraitId * string) AssociatedTyLookup;
  env_auto_traits : gmap TraitId bool;
  env_foreign_ty_ids : gmap string ForeignDefId;
  env_generator_ids : gmap string GeneratorId;
  env_generator_kinds : gmap GeneratorId TypeKind;
  parameter_map : ParameterMap
}.

(** [Env { parameter_map, ..*self }]. *)
Definition with_parameter_map (self : Env) (parameter_map : ParameterMap) : Env :=
  mkEnv self.(env_adt_ids) self.(env_adt_kinds) self.(env_fn_def_ids) self.(env_fn_def_kinds)
    self.(env_closure_ids) self.(env_closure_kinds) self.(env_trait_ids) self.(env_trait_kinds)
    self.(env_opaque_ty_ids) self.(env_opaque_ty_kinds) self.(env_associated_ty_lookups)
    self.(env_auto_traits) self.(env_foreign_ty_ids) self.(env_generator_ids)
    self.(env_generator_kinds) parameter_map.

Inductive TypeLookup :=
  | TlParameter (p : WithKind BoundVar)
  | TlAdt (id : AdtId)
  | TlFnDef (id : FnDefId)
  | TlClosure (id : ClosureId)
  | TlOpaque (id : OpaqueTyId)
  | TlForeign (id : ForeignDefId)
  | TlTrait (id : TraitId)
  | TlGenerator (id : GeneratorId).

Definition lookup_type (self : Env) (name : Identifier) : LowerResult TypeLookup :=
  match self.(parameter_map) !! name.(str) with
  | Some p => Val (TlParameter p)
  | None =>
  match self.(env_adt_ids) !! name.(str) with
  | Some id => Val (TlAdt id)
  | None =>
  match self.(env_fn_def_ids) !! name.(str) with
  | Some id => Val (TlFnDef id)
  | None =>
  match self.(env_closure_ids) !! name.(str) with
  | Some id => Val (TlClosure id)
  | None =>
  match self.(env_opaque_ty_ids) !! name.(str) with
  | Some id => Val (TlOpaque id)
  | None =>
  match self.(env_foreign_ty_ids) !! name.(str) with
  | Some id => Val (TlForeign id)
  | None =>
  match self.(env_trait_ids) !! name.(str) with
  | Some id => Val (TlTrait id)
  | None =>
  match self.(env_generator_ids) !! name.(str) with
  | Some id => Val (TlGenerator id)
  | None => Exn (NotStruct name)
  end end end end end end end end.

Definition trait_kind (self : Env) (id : TraitId) : LowerResult TypeKind := btree_index self.(env_trait_kinds) id.
Definition adt_kind (self : Env) (id : AdtId) : LowerResult TypeKind := btree_index self.(env_adt_kinds) id.
Definition fn_def_kind (self : Env) (id : FnDefId) : LowerResult TypeKind := btree_index self.(env_fn_def_kinds) id.
Definition closure_kind (self : Env) (id : ClosureId) : LowerResult TypeKind := btree_index self.(env_closure_kinds) id.
Definition opaque_kind (self : Env) (id : OpaqueTyId) : LowerResult TypeKind := btree_index self.(env_opaque_ty_kinds) id.
Definition generator_kind (self : Env) (id : GeneratorId) : LowerResult TypeKind := btree_index self.(env_generator_kinds) id.
Definition auto_trait (self : Env) (id : TraitId) : LowerResult bool := btree_index self.(env_auto_traits) id.

Definition tk_len (k : TypeKind) : nat := length k.(tk_binders).(binders).

(** The macro [tykind!] of [lookup_generic_arg]: a named type without arguments. *)
Definition tykind_no_args (name : Identifier) (k : LowerResult TypeKind) (tykind : Substitution → Ty) :
    LowerResult GenericArg :=
  k ← k;
  if 0 <? tk_len k then Exn (IncorrectNumberOfTypeParameters name (tk_len k) 0)
  else Val (ArgTy (tykind [])).

(** A parameter as an argument. *)
Definition parameter_arg (p : WithKind BoundVar) : GenericArg :=
  let b := p.(kvalue) in
  match p.(kind) with
  | VkTy _ => ArgTy (TyBoundVar b)
  | VkLifetime => ArgLifetime (LtBoundVar b)
  | VkConst ty => ArgConst (to_const b ty)
  end.

Definition lookup_generic_arg (self : Env) (name : Identifier) : LowerResult GenericArg :=
  lookup ← map_err (λ _, InvalidParameterName name) (lookup_type self name);
  match lookup with
  | TlParameter p => Val (parameter_arg p)
  | TlAdt id => tykind_no_args name (adt_kind self id) (TyAdt id)
  | TlFnDef id => tykind_no_args name (fn_def_kind self id) (TyFnDef id)
  | TlClosure id => tykind_no_args name (closure_kind self id) (TyClosure id)
  | TlGenerator id => tykind_no_args name (generator_kind self id) (TyGenerator id)
  | TlOpaque id => Val (ArgTy (TyAlias (AliasOpaque id [])))
  | TlForeign id => Val (ArgTy (TyForeign id))
  | TlTrait _ => Exn (NotStruct name)
  end.

Definition lookup_trait (self : Env) (name : Identifier) : LowerResult TraitId :=
  match self.(parameter_map) !! name.(str) with
  | Some _ => Exn (NotTrait name)
  | None =>
  match self.(env_adt_ids) !! name.(str) with
  | Some _ => Exn (NotTrait name)
  | None =>
  match self.(env_trait_ids) !! name.(str) with
  | Some id => Val id
  | None => Exn (InvalidTraitName name)
  end end end.

Definition lookup_associated_ty (self : Env) (trait_id : TraitId) (ident : Identifier) :
    LowerResult AssociatedTyLookup :=
  match self.(env_associated_ty_lookups) !! (trait_id, ident.(str)) with
  | Some lookup => Val lookup
  | None => Exn (MissingAssociatedType ident)
  end.

(** The entries of the new parameters, in the order in which [collect] inserts them. *)
Definition new_parameters (binders : list (WithKind string)) : list (string * WithKind BoundVar) :=
  imap (λ i k, (k.(kvalue), mkWithKind k.(kind) (mkBoundVar INNERMOST i))) binders.

Definition introduce (self : Env) (binders : list (WithKind string)) : LowerResult Env :=
  let shifted := (λ v : WithKind BoundVar, mkWithKind v.(kind) (shifted_in v.(kvalue))) <$> self.(parameter_map) in
  let parameters := foldl (λ m '(name, v), <[name := v]> m) shifted (new_parameters binders) in
  if decide (size parameters = size self.(parameter_map) + length binders)
  then Val (with_parameter_map self parameters)
  else Exn DuplicateOrShadowedParameters.

Definition in_binders {T} (self : Env) (binders : list (WithKind string)) (op : Env → LowerResult T) :
    LowerResult (Binders T) :=
  env ← introduce self binders;
  value ← op env;
  Val (mkBinders (kind <$> binders) value).
