(* ===== verification/Lowering.v ===== *)
(** * Lowering of syntax trees ([chalk-integration/src/lowering.rs])

    [lower] turns types, bounds, where clauses, goals and clauses of the syntax into
    terms of the IR, checking names, the number of arguments and their kinds.  What
    lowers to several where clauses gives a list. *)

From stdpp Require Import base list numbers gmap strings.
From S2P Require Import Prelude Ast Ir Fold FoldLaws Shift RustIr Builder Coherence LowerEnv.

Definition SELF : string := "Self".
Definition FIXME_SELF : string := "__FIXME_SELF__".

(** ** Enumerations *)

Definition lower_IntTy (self : Ast.IntTy) : IntTy :=
  match self with
  | Ast.I8 => I8 | Ast.I16 => I16 | Ast.I32 => I32 | Ast.I64 => I64 | Ast.I128 => I128
  | Ast.Isize => Isize
  end.
Definition lower_UintTy (self : Ast.UintTy) : UintTy :=
  match self with
  | Ast.U8 => U8 | Ast.U16 => U16 | Ast.U32 => U32 | Ast.U64 => U64 | Ast.U128 => U128
  | Ast.Usize => Usize
  end.
Definition lower_FloatTy (self : Ast.FloatTy) : FloatTy :=
  match self with Ast.F32 => F32 | Ast.F64 => F64 end.
Definition lower_ScalarType (self : Ast.ScalarType) : Scalar :=
  match self with
  | Ast.ScInt int => ScInt (lower_IntTy int)
  | Ast.ScUint uint => ScUint (lower_UintTy uint)
  | Ast.ScFloat float => ScFloat (lower_FloatTy float)
  | Ast.ScBool => ScBool
  | Ast.ScChar => ScChar
  end.
Definition lower_Mutability (self : Ast.Mutability) : Mutability :=
  match self with Ast.Mut => Mut | Ast.Not => Not end.
Definition lower_Safety (self : Ast.Safety) : Safety :=
  match self with Ast.Safe => Safe | Ast.Unsafe => Unsafe end.
Definition lower_Movability (self : Ast.Movability) : Movability :=
  match self with Ast.MvStatic => MvStatic | Ast.MvMovable => MvMovable end.
Definition lower_ClosureKind (self : Ast.ClosureKind) : ClosureKind :=
  match self with Ast.CkFn => CkFn | Ast.CkFnMut => CkFnMut | Ast.CkFnOnce => CkFnOnce end.
Definition lower_Polarity (self : Ast.Polarity) : Polarity :=
  match self with Ast.Positive => Positive | Ast.Negative => Negative end.
Definition lower_ImplType (self : Ast.ImplType) : ImplType :=
  match self with Ast.ImplLocal => ImplLocal | Ast.ImplExternal => ImplExternal end.
Definition lower_AdtKind (self : Ast.AdtKind) : AdtKind :=
  match self with Ast.Struct => Struct | Ast.Enum => Enum | Ast.Union => Union end.
Definition lower_Variance (self : Ast.Variance) : Variance :=
  match self with
  | Ast.Invariant => Invariant | Ast.Covariant => Covariant | Ast.Contravariant => Contravariant
  end.
Definition lower_WellKnownTrait (self : Ast.WellKnownTrait) : WellKnownTrait :=
  match self with
  | Ast.WkSized => WkSized | Ast.WkCopy => WkCopy | Ast.WkClone => WkClone | Ast.WkDrop => WkDrop
  | Ast.WkFnOnce => WkFnOnce | Ast.WkFnMut => WkFnMut | Ast.WkFn => WkFn
  | Ast.WkUnsize => WkUnsize | Ast.WkUnpin => WkUnpin | Ast.WkCoerceUnsized => WkCoerceUnsized
  | Ast.WkDiscriminantKind => WkDiscriminantKind | Ast.WkGenerator => WkGenerator
  end.
Definition lower_TraitFlags (self : Ast.TraitFlags) : TraitFlags :=
  mkTraitFlags self.(tf_auto) self.(tf_marker) self.(tf_upstream) self.(tf_fundamental)
    self.(tf_non_enumerable) self.(tf_coinductive).

Definition lower_FnAbi (self : FnAbi) : LowerResult ChalkFnAbi :=
  if decide (self.(abi_name) = "Rust") then Val AbiRust
  else if decide (self.(abi_name) = "C") then Val AbiC
  else Exn (InvalidExternAbi self.(abi_name)).
Definition lower_FnSig (self : Ast.FnSig) : LowerResult FnSig :=
  abi ← lower_FnAbi self.(Ast.abi);
  Val (mkFnSig abi (lower_Safety self.(Ast.safety)) self.(Ast.variadic)).

(** ** Parameters *)

Definition get_type_of_usize : Ty := TyScalar (ScUint Usize).

Definition lower_VariableKind (self : Ast.VariableKind) : WithKind string :=
  match self with
  | Ast.VkTy n => mkWithKind (VkTy General) n.(str)
  | Ast.VkIntegerTy n => mkWithKind (VkTy Integer) n.(str)
  | Ast.VkFloatTy n => mkWithKind (VkTy Float) n.(str)
  | Ast.VkLifetime n => mkWithKind VkLifetime n.(str)
  | Ast.VkConst n => mkWithKind (VkConst get_type_of_usize) n.(str)
  end.
(** The iteration over [variable_kinds] of the source, lowered one by one. *)
Definition lower_variable_kinds (self : list Ast.VariableKind) : list (WithKind string) :=
  lower_VariableKind <$> self.

(** [LowerParameterMap]: the parameters of an item, the synthetic one of a trait included. *)
Definition all_parameters (synthetic_parameters : option (WithKind string))
    (declared_parameters : list Ast.VariableKind) : list (WithKind string) :=
  option_list synthetic_parameters ++ lower_variable_kinds declared_parameters.
Definition trait_synthetic_parameters : option (WithKind string) :=
  Some (mkWithKind (VkTy General) SELF).

(** [Kinded]. *)
Definition vk_kind (self : VariableKind) : Kind :=
  match self with VkTy _ => KTy | VkLifetime => KLifetime | VkConst _ => KConst end.
Definition arg_kind (self : GenericArg) : Kind :=
  match self with ArgTy _ => KTy | ArgLifetime _ => KLifetime | ArgConst _ => KConst end.

(** The loop over the zip of parameters and arguments that compares their kinds. *)
Fixpoint check_kinds (error : Kind → Kind → RustIrError) (params : list VariableKind)
    (args : list GenericArg) : LowerResult unit :=
  match params, args with
  | param :: params, arg :: args =>
      if decide (vk_kind param = arg_kind arg) then check_kinds error params args
      else Exn (error (vk_kind param) (arg_kind arg))
  | _, _ => Val tt
  end.

(** The arguments of an associated type, against the parameters it declares. *)
Definition check_assoc_args (name : Identifier) (lookup : AssociatedTyLookup) (args : list GenericArg) :
    LowerResult unit :=
  if decide (length args = length lookup.(addl_variable_kinds)) then
    check_kinds (IncorrectAssociatedTypeParameterKind name) lookup.(addl_variable_kinds) args
  else Exn (IncorrectNumberOfAssociatedTypeParameters name (length lookup.(addl_variable_kinds)) (length args)).

(** The binder of the self type of [dyn] and opaque types. *)
Definition self_parameter : list (WithKind string) := [mkWithKind (VkTy General) FIXME_SELF].
Definition self_ty : Ty := TyBoundVar (mkBoundVar INNERMOST 0).

(** ** Lifetimes and constants *)

Definition lower_Lifetime (self : Ast.Lifetime) (env : Env) : LowerResult Lifetime :=
  match self with
  | Ast.LtId name =>
      parameter ← lookup_generic_arg env name;
      match parameter with
      | ArgLifetime l => Val l
      | _ => Exn (IncorrectParameterKind name KLifetime (arg_kind parameter))
      end
  | Ast.LtStatic => Val LtStatic
  | Ast.LtEmpty => Val (LtEmpty (mkUniverse 0))
  | Ast.LtErased => Val LtErased
  end.

Definition lower_Const (self : Ast.Const) (env : Env) : LowerResult Const :=
  match self with
  | Ast.CId name =>
      parameter ← lookup_generic_arg env name;
      match parameter with
      | ArgConst c => Val c
      | _ => Exn (IncorrectParameterKind name KConst (arg_kind parameter))
      end
  | Ast.CValue value => Val (mkConst get_type_of_usize (CvConcrete value))
  end.

(** ** Bounds and trait references

    Over the functions that lower types and arguments. *)

Section Bounds.
Context (lower_ty : Ast.Ty → Env → LowerResult Ty) (lower_arg : Ast.GenericArg → Env → LowerResult GenericArg).

Definition lower_args (self : list Ast.GenericArg) (env : Env) : LowerResult (list GenericArg) :=
  mapM (λ a, lower_arg a env) self.

Definition lower_trait_bound_args (name : Identifier) (args_no_self : list Ast.GenericArg) (env : Env) :
    LowerResult TraitBound :=
  trait_id ← lookup_trait env name;
  k ← trait_kind env trait_id;
  if decide (k.(sort) = SortTrait) then
    parameters ← lower_args args_no_self env;
    if decide (length parameters = tk_len k) then
      _ ← check_kinds (IncorrectTraitParameterKind name) k.(tk_binders).(binders) parameters;
      Val (mkTraitBound trait_id parameters)
    else Exn (IncorrectNumberOfTypeParameters name (tk_len k) (length parameters))
  else Exn (NotTrait name).

Definition lower_trait_bound (self : Ast.TraitBound) (env : Env) : LowerResult TraitBound :=
  lower_trait_bound_args self.(tb_trait_name) self.(tb_args_no_self) env.

(** [self.args] without its first element is lowered before the first element. *)
Definition lower_trait_ref (self : Ast.TraitRef) (env : Env) : LowerResult TraitRef :=
  match self.(tr_args) with
  | [] => _ ← lower_trait_bound_args self.(tr_trait_name) [] env; Panic PIndex
  | self_arg :: args =>
      without_self ← lower_trait_bound_args self.(tr_trait_name) args env;
      self_parameter ← lower_arg self_arg env;
      ty ← unwrap_result (assert_ty_ref self_parameter);
      Val (as_trait_ref without_self ty)
  end.

Definition lower_projection (self : Ast.ProjectionTy) (env : Env) : LowerResult AliasTy :=
  trait_ref ← lower_trait_ref self.(proj_trait_ref) env;
  lookup ← lookup_associated_ty env trait_ref.(trait_id) self.(proj_name);
  args ← lower_args self.(proj_args) env;
  _ ← check_assoc_args self.(proj_name) lookup args;
  Val (AliasProjection lookup.(lookup_id) (args ++ trait_ref.(substitution))).

Definition lower_alias_eq_bound (self : Ast.AliasEqBound) (env : Env) : LowerResult AliasEqBound :=
  trait_bound ← lower_trait_bound self.(Ast.aeb_trait_bound) env;
  lookup ← lookup_associated_ty env trait_bound.(tb_trait_id) self.(aeb_name);
  args ← lower_args self.(aeb_args) env;
  _ ← check_assoc_args self.(aeb_name) lookup args;
  value ← lower_ty self.(Ast.aeb_value) env;
  Val (mkAliasEqBound trait_bound lookup.(lookup_id) args value).

Definition lower_inline_bound (self : Ast.InlineBound) (env : Env) : LowerResult InlineBound :=
  match self with
  | Ast.IbTraitBound b => IbTraitBound <$> lower_trait_bound b env
  | Ast.IbAliasEqBound b => IbAliasEqBound <$> lower_alias_eq_bound b env
  end.

Definition lower_quantified_inline_bound (self : Ast.QuantifiedInlineBound) (env : Env) :
    LowerResult QuantifiedInlineBound :=
  in_binders env (lower_variable_kinds self.(qib_variable_kinds)) (λ env, lower_inline_bound self.(qib_bound) env).

Definition trait_identifier (bound : Ast.InlineBound) : Identifier :=
  match bound with
  | Ast.IbTraitBound tb => tb.(tb_trait_name)
  | Ast.IbAliasEqBound ab => ab.(Ast.aeb_trait_bound).(tb_trait_name)
  end.

(** The bounds on regular traits before those on auto traits, these sorted by trait.  The
    lowering of each bound is kept next to its trait: it has no effect but its result. *)
Definition lower_bounds (self : list Ast.QuantifiedInlineBound) (env : Env) :
    LowerResult (list QuantifiedInlineBound) :=
  bounds ← mapM (λ b,
    id ← lookup_trait env (trait_identifier b.(qib_bound));
    auto ← auto_trait env id;
    Val (auto, id, lower_quantified_inline_bound b env)) self;
  let regular_traits := filter (λ b, b.1.1 = false) bounds in
  let auto_traits := sort_by_key (λ b, b.1.2) (filter (λ b, b.1.1 = true) bounds) in
  mapM snd (regular_traits ++ auto_traits).

(** [flat_map(|qil| qil.into_where_clauses(interner, self_ty))] on lowered bounds. *)
Definition bounds_on_self_ty (bounds : list QuantifiedInlineBound) : LowerResult (list QuantifiedWhereClause) :=
  wcs ← mapM (λ qil, unwrap_result (into_where_clauses qil self_ty)) bounds;
  Val (concat wcs).

(** The macro [tykind!] of [Ty::Apply]. *)
Definition lower_apply (name : Identifier) (args : list Ast.GenericArg) (env : Env)
    (k : LowerResult TypeKind) (tykind : Substitution → Ty) : LowerResult Ty :=
  k ← k;
  if decide (tk_len k = length args) then
    substitution ← lower_args args env;
    _ ← check_kinds (IncorrectParameterKind name) k.(tk_binders).(binders) substitution;
    Val (tykind substitution)
  else Exn (IncorrectNumberOfTypeParameters name (tk_len k) (length args)).
End Bounds.

(** ** Types and arguments *)

Definition lifetime_parameters (lifetime_names : list Identifier) : list (WithKind string) :=
  (λ id, mkWithKind VkLifetime id.(str)) <$> lifetime_names.

Fixpoint lower_ty (self : Ast.Ty) (env : Env) {struct self} : LowerResult Ty :=
  match self with
  | Ast.TyId name =>
      parameter ← lookup_generic_arg env name;
      match parameter with
      | ArgTy ty => Val ty
      | _ => Exn (IncorrectParameterKind name KTy (arg_kind parameter))
      end
  | Ast.TyDyn bounds lifetime =>
      bounds ← in_binders env self_parameter (λ env,
        bounds ← lower_bounds lower_ty lower_arg bounds env;
        bounds_on_self_ty bounds);
      lifetime ← lower_Lifetime lifetime env;
      Val (TyDyn bounds lifetime)
  | Ast.TyApply name args =>
      lookup ← lookup_type env name;
      let tykind := lower_apply lower_arg name args env in
      match lookup with
      | TlParameter _ => Exn (CannotApplyTypeParameter name)
      | TlAdt id => tykind (adt_kind env id) (TyAdt id)
      | TlFnDef id => tykind (fn_def_kind env id) (TyFnDef id)
      | TlClosure id => tykind (closure_kind env id) (TyClosure id)
      | TlOpaque id => tykind (opaque_kind env id) (TyOpaqueType id)
      | TlGenerator id => tykind (generator_kind env id) (TyGenerator id)
      | TlForeign _ | TlTrait _ => Panic PExplicit
      end
  | Ast.TyProjection proj => TyAlias <$> lower_projection lower_arg proj env
  | Ast.TyForAll lifetime_names types sig =>
      quantified_env ← introduce env (lifetime_parameters lifetime_names);
      lowered_tys ← mapM (λ ty, ArgTy <$> lower_ty ty quantified_env) types;
      sig ← lower_FnSig sig;
      Val (TyFunction (length lifetime_names) sig lowered_tys)
  | Ast.TyTuple types =>
      substitution ← mapM (λ t, ArgTy <$> lower_ty t env) types;
      Val (TyTuple (length types) substitution)
  | Ast.TyScalar ty => Val (TyScalar (lower_ScalarType ty))
  | Ast.TyArray ty len =>
      ty ← lower_ty ty env;
      len ← lower_Const len env;
      Val (TyArray ty len)
  | Ast.TySlice ty => TySlice <$> lower_ty ty env
  | Ast.TyRaw mutability ty => TyRaw (lower_Mutability mutability) <$> lower_ty ty env
  | Ast.TyRef mutability lifetime ty =>
      lifetime ← lower_Lifetime lifetime env;
      ty ← lower_ty ty env;
      Val (TyRef (lower_Mutability mutability) lifetime ty)
  | Ast.TyStr => Val TyStr
  | Ast.TyNever => Val TyNever
  end
with lower_arg (self : Ast.GenericArg) (env : Env) {struct self} : LowerResult GenericArg :=
  match self with
  | Ast.ArgTy t => ArgTy <$> lower_ty t env
  | Ast.ArgLifetime l => ArgLifetime <$> lower_Lifetime l env
  | Ast.ArgId name => lookup_generic_arg env name
  | Ast.ArgConst c => ArgConst <$> lower_Const c env
  end.

(** ** Where clauses and domain goals *)

Definition lower_WhereClause (self : Ast.WhereClause) (env : Env) : LowerResult (list WhereClause) :=
  match self with
  | Ast.WcImplemented trait_ref =>
      trait_ref ← lower_trait_ref lower_arg trait_ref env;
      Val [WcImplemented trait_ref]
  | Ast.WcProjectionEq projection ty =>
      alias ← lower_projection lower_arg projection env;
      ty ← lower_ty ty env;
      trait_ref ← lower_trait_ref lower_arg projection.(proj_trait_ref) env;
      Val [WcAliasEq alias ty; WcImplemented trait_ref]
  | Ast.WcLifetimeOutlives a b =>
      a ← lower_Lifetime a env;
      b ← lower_Lifetime b env;
      Val [WcLifetimeOutlives a b]
  | Ast.WcTypeOutlives ty lifetime =>
      ty ← lower_ty ty env;
      lifetime ← lower_Lifetime lifetime env;
      Val [WcTypeOutlives ty lifetime]
  end.

Definition lower_QuantifiedWhereClause (self : Ast.QuantifiedWhereClause) (env : Env) :
    LowerResult (list QuantifiedWhereClause) :=
  let variable_kinds := lower_variable_kinds self.(qwc_variable_kinds) in
  binders ← in_binders env variable_kinds (λ env, lower_WhereClause self.(qwc_where_clause) env);
  Val (binders_into_iter binders).

(** [impl LowerWithEnv for [QuantifiedWhereClause]]. *)
Definition lower_where_clauses (self : list Ast.QuantifiedWhereClause) (env : Env) :
    LowerResult (list QuantifiedWhereClause) :=
  wcs ← mapM (λ wc, lower_QuantifiedWhereClause wc env) self;
  Val (concat wcs).

Definition lower_DomainGoal (self : Ast.DomainGoal) (env : Env) : LowerResult (list DomainGoal) :=
  match self with
  | Ast.DgHolds where_clause =>
      wcs ← lower_WhereClause where_clause env;
      Val (fmap (M := list) DgHolds wcs)
  | Ast.DgNormalize projection ty =>
      alias ← lower_projection lower_arg projection env;
      ty ← lower_ty ty env;
      Val [DgNormalize alias ty]
  | Ast.DgTyWellFormed ty => ty ← lower_ty ty env; Val [DgWellFormed (WfTy ty)]
  | Ast.DgTraitRefWellFormed trait_ref =>
      trait_ref ← lower_trait_ref lower_arg trait_ref env; Val [DgWellFormed (WfTrait trait_ref)]
  | Ast.DgTyFromEnv ty => ty ← lower_ty ty env; Val [DgFromEnv (FeTy ty)]
  | Ast.DgTraitRefFromEnv trait_ref =>
      trait_ref ← lower_trait_ref lower_arg trait_ref env; Val [DgFromEnv (FeTrait trait_ref)]
  | Ast.DgIsLocal ty => ty ← lower_ty ty env; Val [DgIsLocal ty]
  | Ast.DgIsUpstream ty => ty ← lower_ty ty env; Val [DgIsUpstream ty]
  | Ast.DgIsFullyVisible ty => ty ← lower_ty ty env; Val [DgIsFullyVisible ty]
  | Ast.DgLocalImplAllowed trait_ref =>
      trait_ref ← lower_trait_ref lower_arg trait_ref env; Val [DgLocalImplAllowed trait_ref]
  | Ast.DgCompatible => Val [DgCompatible]
  | Ast.DgDownstreamType ty => ty ← lower_ty ty env; Val [DgDownstreamType ty]
  | Ast.DgReveal => Val [DgReveal]
  | Ast.DgObjectSafe id => id ← lookup_trait env id; Val [DgObjectSafe id]
  end.

Definition lower_LeafGoal (self : Ast.LeafGoal) (env : Env) : LowerResult Goal :=
  match self with
  | Ast.LgDomainGoal goal =>
      goals ← lower_DomainGoal goal env;
      Val (goal_all (fmap (M := list) GDomainGoal goals))
  | Ast.LgUnifyGenericArgs a b =>
      a ← lower_arg a env;
      b ← lower_arg b env;
      Val (GEqGoal a b)
  | Ast.LgSubtypeGenericArgs a b =>
      a ← lower_ty a env;
      b ← lower_ty b env;
      Val (GSubtypeGoal a b)
  end.

(** ** Clauses and goals *)

(** [into_from_env_clause] of [ProgramClauseImplication] and [ProgramClause]. *)
Definition implication_into_from_env_clause (self : ProgramClauseImplication) : ProgramClauseImplication :=
  match self.(conditions) with
  | [] => mkImplication (dg_into_from_env_goal self.(consequence)) [] self.(constraints) self.(Ir.priority)
  | _ => self
  end.
Definition into_from_env_clause (self : ProgramClause) : ProgramClause :=
  mkProgramClause (binders_map implication_into_from_env_clause (clause_data self)).

(** The conditions are lowered from right to left, which is also their new order. *)
Definition lower_clause_with (lower_goal : Ast.Goal → Env → LowerResult Goal) (self : Ast.Clause) (env : Env) :
    LowerResult (list ProgramClause) :=
  implications ← in_binders env (all_parameters None self.(clause_variable_kinds)) (λ env,
    consequences ← lower_DomainGoal self.(clause_consequence) env;
    conditions ← mapM (id : LowerResult Goal → _) (reverse ((λ g, lower_goal g env) <$> self.(clause_conditions)));
    Val (fmap (M := list) (λ consequence, mkImplication consequence conditions [] High) consequences));
  Val (fmap (M := list) mkProgramClause (binders_into_iter implications)).

(** [impl LowerWithEnv for (&Goal, QuantifierKind, &Vec<VariableKind>)]. *)
Definition lower_quantified_with (lower_goal : Env → LowerResult Goal) (quantifier_kind : QuantifierKind)
    (variable_kinds : list Ast.VariableKind) (env : Env) : LowerResult Goal :=
  match variable_kinds with
  | [] => lower_goal env
  | _ =>
      subgoal ← in_binders env (lower_variable_kinds variable_kinds) lower_goal;
      Val (GQuantified quantifier_kind subgoal)
  end.

Fixpoint lower_Goal (self : Ast.Goal) (env : Env) {struct self} : LowerResult Goal :=
  match self with
  | Ast.GForAll ids g => lower_quantified_with (lower_Goal g) ForAll ids env
  | Ast.GExists ids g => lower_quantified_with (lower_Goal g) Exists ids env
  | Ast.GImplies hyp g =>
      where_clauses ← mapM (λ clause, lower_clause_with lower_Goal clause env) hyp;
      g ← lower_Goal g env;
      Val (GImplies (fmap (M := list) into_from_env_clause (concat where_clauses)) g)
  | Ast.GAnd g1 g2s =>
      g1 ← lower_Goal g1 env;
      g2s ← mapM (λ g, lower_Goal g env) g2s;
      Val (GAll (g1 :: g2s))
  | Ast.GNot g => GNot <$> lower_Goal g env
  | Ast.GCompatible g =>
      g ← lower_Goal g env;
      unwrap_result (compatible g)
  | Ast.GLeaf leaf => lower_LeafGoal leaf env
  end.

Definition lower_Clause : Ast.Clause → Env → LowerResult (list ProgramClause) := lower_clause_with lower_Goal.

(** ** Items *)

(** [if condition { Err(error)? }]. *)
Definition fail_if (condition : bool) (error : RustIrError) : LowerResult unit :=
  if condition then Exn error else Val tt.

Definition lower_tys (self : list Ast.Ty) (env : Env) : LowerResult (list Ty) := mapM (λ ty, lower_ty ty env) self.

Definition lower_AdtDefn (adt_defn : Ast.AdtDefn) (id : AdtId) (env : Env) : LowerResult AdtDatum :=
  let all_parameters := all_parameters None adt_defn.(adt_variable_kinds) in
  _ ← fail_if (adt_defn.(Ast.adt_flags).(flag_fundamental) && (length all_parameters <? 1))
        (InvalidFundamentalTypesParameters adt_defn.(adt_name));
  binders ← in_binders env all_parameters (λ env,
    variants ← mapM (λ v, mkAdtVariantDatum <$> lower_tys (field_ty <$> v.(variant_fields)) env)
                 adt_defn.(adt_variants);
    where_clauses ← lower_where_clauses adt_defn.(Ast.adt_where_clauses) env;
    Val (mkAdtDatumBound variants where_clauses));
  let f := adt_defn.(Ast.adt_flags) in
  Val (mkAdtDatum binders id (mkAdtFlags f.(flag_upstream) f.(flag_fundamental) f.(flag_phantom_data))
    (lower_AdtKind f.(flag_kind))).

Definition lower_AdtRepr (self : Ast.AdtRepr) (env : Env) : LowerResult AdtRepr :=
  int ← match self.(Ast.repr_int) with
        | Some i => Some <$> lower_ty i env
        | None => Val None
        end;
  Val (mkAdtRepr self.(Ast.repr_c) self.(Ast.repr_packed) int).

(** The types of the arguments are collected before the return type is lowered, but an
    error in them is returned after it. *)
Definition lower_inputs_and_output (argument_types : list Ast.Ty) (return_type : Ast.Ty) (env : Env) :
    LowerResult FnDefInputsAndOutputDatum :=
  match lower_tys argument_types env with
  | Exn e => _ ← lower_ty return_type env; Exn e
  | args => args ← args; return_type ← lower_ty return_type env; Val (mkFnDefInputsAndOutputDatum args return_type)
  end.

Definition lower_FnDefn (fn_defn : Ast.FnDefn) (id : FnDefId) (env : Env) : LowerResult FnDefDatum :=
  binders ← in_binders env (all_parameters None fn_defn.(fn_variable_kinds)) (λ env,
    where_clauses ← lower_where_clauses fn_defn.(Ast.fn_where_clauses) env;
    inputs_and_output ← in_binders env [] (λ env,
      lower_inputs_and_output fn_defn.(fn_argument_types) fn_defn.(fn_return_type) env);
    Val (mkFnDefDatumBound inputs_and_output where_clauses));
  sig ← lower_FnSig fn_defn.(Ast.fn_sig);
  Val (mkFnDefDatum id sig binders).

Definition lower_ClosureDefn (self : Ast.ClosureDefn) (env : Env) :
    LowerResult (ClosureKind * Binders FnDefInputsAndOutputDatum) :=
  inputs_and_output ← in_binders env (all_parameters None self.(closure_variable_kinds)) (λ env,
    lower_inputs_and_output self.(closure_argument_types) self.(closure_return_type) env);
  Val (lower_ClosureKind self.(Ast.closure_kind), inputs_and_output).

Definition lower_TraitDefn (trait_defn : Ast.TraitDefn) (id : TraitId) (env : Env) : LowerResult TraitDatum :=
  let all_parameters := all_parameters trait_synthetic_parameters trait_defn.(trait_variable_kinds) in
  let auto := trait_defn.(Ast.trait_flags).(tf_auto) in
  binders ← in_binders env all_parameters (λ env,
    _ ← fail_if (auto && (1 <? length all_parameters)) (AutoTraitParameters trait_defn.(trait_name));
    _ ← fail_if (auto && negb (bool_decide (length trait_defn.(Ast.trait_where_clauses) = 0)))
          (AutoTraitWhereClauses trait_defn.(trait_name));
    where_clauses ← lower_where_clauses trait_defn.(Ast.trait_where_clauses) env;
    Val (mkTraitDatumBound where_clauses));
  associated_ty_ids ← mapM (λ defn,
    lookup ← unwrap_result (lookup_associated_ty env id defn.(Ast.assoc_name));
    Val lookup.(lookup_id)) trait_defn.(assoc_ty_defns);
  Val (mkTraitDatum id binders (lower_TraitFlags trait_defn.(Ast.trait_flags)) associated_ty_ids
    (lower_WellKnownTrait <$> trait_defn.(trait_well_known))).

Abbreviation AssociatedTyValueIds := (gmap (ImplId * string) AssociatedTyValueId).

Definition lower_Impl (impl_ : Ast.Impl) (impl_id : ImplId) (associated_ty_value_ids : AssociatedTyValueIds)
    (env : Env) : LowerResult ImplDatum :=
  let polarity := lower_Polarity impl_.(impl_polarity) in
  binders ← in_binders env (all_parameters None impl_.(impl_variable_kinds)) (λ env,
    trait_ref ← lower_trait_ref lower_arg impl_.(Ast.impl_trait_ref) env;
    _ ← fail_if (negb (polarity_is_positive polarity) && negb (bool_decide (length impl_.(impl_assoc_ty_values) = 0)))
          (NegativeImplAssociatedValues impl_.(Ast.impl_trait_ref).(tr_trait_name));
    where_clauses ← lower_where_clauses impl_.(Ast.impl_where_clauses) env;
    Val (mkImplDatumBound trait_ref where_clauses));
  associated_ty_value_ids ←
    mapM (λ atv, btree_index associated_ty_value_ids (impl_id, atv.(atv_name).(str))) impl_.(impl_assoc_ty_values);
  Val (mkImplDatum polarity binders (lower_ImplType impl_.(impl_impl_type)) associated_ty_value_ids).
