(* ===== verification/Program.v ===== *)
(** * Lowered programs ([chalk-integration/src/program.rs])

    A lowered program as the database of the solvers.  [BTreeMap] iterates in the order
    of its keys.  The queries of [RustIrDatabase] are total: for an identifier that the
    program does not declare, where the code panics, they ask an arbitrary other
    database, [missing]. *)

From stdpp Require Import base list numbers gmap strings.
From S2P Require Import Prelude Ast Ir IrCountable Fold FoldLaws Shift Zip RustIr Solve RecSolve Builder SuperTraits ProgramClauses Clauses GoalClauses LowerEnv Lowering.

(** [map.iter()], [keys()] and [values()] of a [BTreeMap]. *)
Definition btree_iter {V} (m : gmap N V) : list (N * V) := sort_by_key fst (map_to_list m).
Definition btree_keys {V} (m : gmap N V) : list N := (btree_iter m).*1.
Definition btree_values {V} (m : gmap N V) : list V := (btree_iter m).*2.

Lemma elem_of_btree_iter {V} (m : gmap N V) i x : (i, x) ∈ btree_iter m ↔ m !! i = Some x.
Proof. unfold btree_iter. rewrite sort_by_key_Permutation. apply elem_of_map_to_list. Qed.

Lemma elem_of_btree_values {V} (m : gmap N V) x : x ∈ btree_values m ↔ ∃ i, m !! i = Some x.
Proof.
  unfold btree_values. rewrite list_elem_of_fmap. split.
  - intros ([i y] & -> & Hi). exists i. by apply elem_of_btree_iter.
  - intros [i Hi]. exists (i, x). split; [done|]. by apply elem_of_btree_iter.
Qed.

Lemma elem_of_btree_keys {V} (m : gmap N V) i : i ∈ btree_keys m ↔ is_Some (m !! i).
Proof.
  unfold btree_keys. rewrite list_elem_of_fmap. split.
  - intros ([j y] & -> & Hi%elem_of_btree_iter). by exists y.
  - intros [y Hi]. exists (i, y). split; [done|]. by apply elem_of_btree_iter.
Qed.

Definition well_known_traits_list : list WellKnownTrait :=
  [WkSized; WkCopy; WkClone; WkDrop; WkFnOnce; WkFnMut; WkFn; WkUnsize; WkUnpin; WkCoerceUnsized;
   WkDiscriminantKind; WkGenerator].
#[global, program] Instance WellKnownTrait_countable : Countable WellKnownTrait :=
  {| encode wk := encode (default (0, wk) (list_find (wk =.) well_known_traits_list)).1;
     decode p := n ← decode p; well_known_traits_list !! (n : nat) |}.
Next Obligation. by intros []. Qed.

Record Program := mkProgram {
  adt_ids : gmap string AdtId;
  adt_kinds : gmap AdtId TypeKind;
  adt_variances : gmap AdtId (list Variance);
  fn_def_ids : gmap string FnDefId;
  fn_def_kinds : gmap FnDefId TypeKind;
  fn_def_variances : gmap FnDefId (list Variance);
  closure_ids : gmap string ClosureId;
  prog_closure_upvars : gmap ClosureId (Binders Ty);
  closure_kinds : gmap ClosureId TypeKind;
  generator_ids : gmap string GeneratorId;
  generator_kinds : gmap GeneratorId TypeKind;
  generator_data : gmap GeneratorId GeneratorDatum;
  generator_witness_data : gmap GeneratorId GeneratorWitnessDatum;
  trait_ids : gmap string TraitId;
  trait_kinds : gmap TraitId TypeKind;
  adt_data : gmap AdtId AdtDatum;
  adt_reprs : gmap AdtId AdtRepr;
  fn_def_data : gmap FnDefId FnDefDatum;
  prog_closure_inputs_and_output : gmap ClosureId (Binders FnDefInputsAndOutputDatum);
  closure_closure_kind : gmap ClosureId ClosureKind;
  impl_data : gmap ImplId ImplDatum;
  associated_ty_values : gmap AssociatedTyValueId AssociatedTyValue;
  opaque_ty_ids : gmap string OpaqueTyId;
  opaque_ty_kinds : gmap OpaqueTyId TypeKind;
  prog_opaque_ty_data : gmap OpaqueTyId OpaqueTyDatum;
  hidden_opaque_types : gmap OpaqueTyId Ty;
  trait_data : gmap TraitId TraitDatum;
  well_known_traits : gmap WellKnownTrait TraitId;
  prog_associated_ty_data : gmap AssocTypeId AssociatedTyDatum;
  prog_custom_clauses : list ProgramClause;
  object_safe_traits : gset TraitId;
  foreign_ty_ids : gmap string ForeignDefId
}.

Definition local_impl_ids (self : Program) : list ImplId :=
  fst <$> filter (λ i, i.2.(impl_type) = ImplLocal) (btree_iter self.(impl_data)).

(** ** The database *)

Section Database.
Context (missing : RustIrDatabase) (fuel : nat) (self : Program).

(** [self.map[&id]]. *)
Definition index_or {V} (query : N → V) (m : gmap N V) (id : N) : V := default (query id) (m !! id).

Definition program_unification_database : UnificationDatabase := {|
  fn_def_variance := index_or (fn_def_variance missing.(unification_database)) self.(fn_def_variances);
  adt_variance := index_or (adt_variance missing.(unification_database)) self.(adt_variances);
  db_const_eq := db_const_eq missing.(unification_database)
|}.

(** [<[_] as CouldMatch<[_]>>::could_match]. *)
Definition could_match_slice (a b : list GenericArg) : Fallible bool :=
  (is_ok (zip_slice (zip_arg (match_zipper program_unification_database fuel) Invariant) a b) tt).1.

(** A [filter] whose test may panic. *)
Fixpoint filter_outcome {E A} (f : A → outcome E bool) (l : list A) : outcome E (list A) :=
  match l with
  | [] => Val []
  | x :: l => b ← f x; l ← filter_outcome f l; Val (if b : bool then x :: l else l)
  end.

Definition impl_could_match (trait_id : TraitId) (parameters : list GenericArg) (impl_datum : ImplDatum) :
    Fallible bool :=
  let trait_ref := impl_datum.(impl_binders).(value).(impl_trait_ref) in
  if decide (trait_id = trait_ref.(Ir.trait_id)) then
    _ ← assert (length trait_ref.(substitution) =? length parameters);
    could_match_slice parameters trait_ref.(substitution)
  else Val false.

Definition program_impls_for_trait (trait_id : TraitId) (parameters : list GenericArg)
    (_binders : list CanonicalVarKind) : Fallible (list ImplId) :=
  impls ← filter_outcome (λ i, impl_could_match trait_id parameters i.2) (btree_iter self.(impl_data));
  Val impls.*1.

Definition program_local_impls (trait_id : TraitId) : list ImplId :=
  fst <$> filter (λ i, impl_trait_id i.2 = trait_id ∧ i.2.(impl_type) = ImplLocal) (btree_iter self.(impl_data)).

(** The types of the same head, whatever their arguments. *)
Definition same_head (impl_ty ty : Ty) : bool :=
  match impl_ty, ty with
  | TyAdt id_a _, TyAdt id_b _
  | TyAssociatedType id_a _, TyAssociatedType id_b _
  | TyOpaqueType id_a _, TyOpaqueType id_b _
  | TyFnDef id_a _, TyFnDef id_b _
  | TyClosure id_a _, TyClosure id_b _
  | TyGenerator id_a _, TyGenerator id_b _
  | TyGeneratorWitness id_a _, TyGeneratorWitness id_b _
  | TyForeign id_a, TyForeign id_b => bool_decide (id_a = id_b)
  | TyScalar scalar_a, TyScalar scalar_b => bool_decide (scalar_a = scalar_b)
  | TyTuple arity_a _, TyTuple arity_b _ => bool_decide (arity_a = arity_b)
  | TyRef id_a _ _, TyRef id_b _ _ | TyRaw id_a _, TyRaw id_b _ => bool_decide (id_a = id_b)
  | TyStr, TyStr | TySlice _, TySlice _ | TyNever, TyNever | TyArray _ _, TyArray _ _
  | TyError, TyError => true
  | _, _ => false
  end.

(** [impl_data.values().any(..)]: the first impl that provides the trait ends the search. *)
Fixpoint any_outcome {E A} (f : A → outcome E bool) (l : list A) : outcome E bool :=
  match l with
  | [] => Val false
  | x :: l => b ← f x; if b : bool then Val true else any_outcome f l
  end.

Definition program_impl_provided_for (auto_trait_id : TraitId) (impl_ty : Ty) : Fallible bool :=
  any_outcome (λ impl_datum,
    if decide (impl_trait_id impl_datum = auto_trait_id) then
      ty ← self_type_parameter impl_datum.(impl_binders).(value).(impl_trait_ref).(substitution);
      Val (same_head impl_ty ty)
    else Val false) (btree_values self.(impl_data)).

Definition program_discriminant_type (ty : Ty) : Ty :=
  match ty with
  | TyAdt id _ => default (TyScalar (ScInt Isize)) (index_or missing.(adt_repr) self.(adt_reprs) id).(repr_int)
  | TyGenerator _ _ => TyScalar (ScUint U32)
  | _ => TyScalar (ScUint U8)
  end.

Definition program_well_known_trait_id (well_known_trait : WellKnownTrait) : option TraitId :=
  self.(well_known_traits) !! well_known_trait.

(** The database, with the queries about environments as an argument. *)
Definition program_rust_ir_with (program_clauses_for_env : Environment → Fallible ProgramClauses) :
    RustIrDatabase := {|
  custom_clauses := self.(prog_custom_clauses);
  associated_ty_data := index_or missing.(associated_ty_data) self.(prog_associated_ty_data);
  trait_datum := index_or missing.(trait_datum) self.(trait_data);
  adt_datum := index_or missing.(adt_datum) self.(adt_data);
  generator_datum := index_or missing.(generator_datum) self.(generator_data);
  generator_witness_datum := index_or missing.(generator_witness_datum) self.(generator_witness_data);
  adt_repr := index_or missing.(adt_repr) self.(adt_reprs);
  fn_def_datum := index_or missing.(fn_def_datum) self.(fn_def_data);
  impl_datum := index_or missing.(impl_datum) self.(impl_data);
  associated_ty_value := index_or missing.(associated_ty_value) self.(associated_ty_values);
  opaque_ty_data := index_or missing.(opaque_ty_data) self.(prog_opaque_ty_data);
  hidden_opaque_type := index_or missing.(hidden_opaque_type) self.(hidden_opaque_types);
  impls_for_trait := program_impls_for_trait;
  local_impls_to_coherence_check := program_local_impls;
  impl_provided_for := program_impl_provided_for;
  well_known_trait_id := program_well_known_trait_id;
  RustIr.program_clauses_for_env := program_clauses_for_env;
  is_object_safe id := bool_decide (id ∈ self.(object_safe_traits));
  RustIr.closure_kind id _ := index_or (λ id, missing.(RustIr.closure_kind) id []) self.(closure_closure_kind) id;
  RustIr.closure_inputs_and_output id _ :=
    index_or (λ id, missing.(RustIr.closure_inputs_and_output) id []) self.(prog_closure_inputs_and_output) id;
  RustIr.closure_upvars id _ := index_or (λ id, missing.(RustIr.closure_upvars) id []) self.(prog_closure_upvars) id;
  closure_fn_substitution _ substs := substs;
  unification_database := program_unification_database;
  discriminant_type := program_discriminant_type
|}.

(** [chalk_solve::program_clauses_for_env(self, environment)]: the elaboration asks the
    program about its declarations only. *)
Definition program_rust_ir (hash_order : list ProgramClause → list ProgramClause) : RustIrDatabase :=
  let db := program_rust_ir_with (λ environment, Val environment) in
  program_rust_ir_with (GoalClauses.program_clauses_for_env db fuel hash_order fuel).
End Database.
