(* ===== verification/ProgramLowerer.v ===== *)
(** * Lowering of programs
    ([chalk-integration/src/lowering/program_lowerer.rs], [Program::lower] and [lower_goal] of [lowering.rs])

    Two passes over the items collect identifiers, a third lowers every item in an
    environment that has no parameters.  The third pass fills one map per sort of
    declaration: [lower_item] gives the insertions of an item in their order, and the
    maps of the program are those after all insertions. *)

From stdpp Require Import base list numbers gmap strings.
From S2P Require Import Prelude Ast Ir IrCountable Fold FoldLaws Shift Zip RustIr LowerEnv Lowering Program.

Record ProgramLowerer := mkProgramLowerer {
  next_item_index : N;
  pl_associated_ty_lookups : gmap (TraitId * string) AssociatedTyLookup;
  pl_associated_ty_value_ids : AssociatedTyValueIds;
  pl_adt_ids : gmap string AdtId;
  pl_fn_def_ids : gmap string FnDefId;
  pl_closure_ids : gmap string ClosureId;
  pl_trait_ids : gmap string TraitId;
  pl_auto_traits : gmap TraitId bool;
  pl_opaque_ty_ids : gmap string OpaqueTyId;
  pl_adt_kinds : gmap AdtId TypeKind;
  pl_fn_def_kinds : gmap FnDefId TypeKind;
  pl_generator_ids : gmap string GeneratorId;
  pl_generator_kinds : gmap GeneratorId TypeKind;
  pl_closure_kinds : gmap ClosureId TypeKind;
  pl_trait_kinds : gmap TraitId TypeKind;
  pl_opaque_ty_kinds : gmap OpaqueTyId TypeKind;
  pl_object_safe_traits : gset TraitId;
  pl_foreign_ty_ids : gmap string ForeignDefId
}.

Definition ProgramLowerer_default : ProgramLowerer :=
  mkProgramLowerer 0 ∅ ∅ ∅ ∅ ∅ ∅ ∅ ∅ ∅ ∅ ∅ ∅ ∅ ∅ ∅ ∅ ∅.

(** [self.next_item_index += 1] on a [u32]. *)
Definition next_item_id (self : ProgramLowerer) : LowerResult (N * ProgramLowerer) :=
  if (self.(next_item_index) <? u32_MAX)%N then
    let 'mkProgramLowerer i a b c d e f g h j k l m n o p q r := self in
    Val (i, mkProgramLowerer (i + 1) a b c d e f g h j k l m n o p q r)
  else Panic POverflow.

(** ** The identifiers of associated types and their values *)

Definition insert_associated_ty_lookup (key : TraitId * string) (lookup : AssociatedTyLookup)
    (self : ProgramLowerer) : ProgramLowerer :=
  let 'mkProgramLowerer i a b c d e f g h j k l m n o p q r := self in
  mkProgramLowerer i (<[key := lookup]> a) b c d e f g h j k l m n o p q r.
Definition insert_associated_ty_value_id (key : ImplId * string) (id : AssociatedTyValueId)
    (self : ProgramLowerer) : ProgramLowerer :=
  let 'mkProgramLowerer i a b c d e f g h j k l m n o p q r := self in
  mkProgramLowerer i a (<[key := id]> b) c d e f g h j k l m n o p q r.

(** A [for] loop over the items of a list that updates the lowerer. *)
Fixpoint for_each_item {A} (f : ProgramLowerer → A → LowerResult ProgramLowerer) (self : ProgramLowerer)
    (l : list A) : LowerResult ProgramLowerer :=
  match l with
  | [] => Val self
  | x :: l => self ← f self x; for_each_item f self l
  end.

Definition extract_associated_ty (raw_id : TraitId) (self : ProgramLowerer) (defn : Ast.AssocTyDefn) :
    LowerResult ProgramLowerer :=
  let addl_variable_kinds := all_parameters None defn.(assoc_variable_kinds) in
  '(id, self) ← next_item_id self;
  let lookup := mkAssociatedTyLookup id (anonymize addl_variable_kinds) in
  Val (insert_associated_ty_lookup (raw_id, defn.(Ast.assoc_name).(str)) lookup self).

Definition extract_associated_ty_value (raw_id : ImplId) (self : ProgramLowerer) (atv : Ast.AssocTyValue) :
    LowerResult ProgramLowerer :=
  '(atv_id, self) ← next_item_id self;
  Val (insert_associated_ty_value_id (raw_id, atv.(atv_name).(str)) atv_id self).

Definition extract_associated_types_of (self : ProgramLowerer) (entry : Ast.Item * N) : LowerResult ProgramLowerer :=
  let '(item, raw_id) := entry in
  match item with
  | ItTraitDefn d =>
      _ ← fail_if (d.(Ast.trait_flags).(tf_auto) && negb (bool_decide (length d.(assoc_ty_defns) = 0)))
            (AutoTraitAssociatedTypes d.(trait_name));
      for_each_item (extract_associated_ty raw_id) self d.(assoc_ty_defns)
  | ItImpl d => for_each_item (extract_associated_ty_value raw_id) self d.(impl_assoc_ty_values)
  | _ => Val self
  end.

Definition extract_associated_types (self : ProgramLowerer) (program : Ast.Program) (raw_ids : list N) :
    LowerResult ProgramLowerer :=
  for_each_item extract_associated_types_of self (zip program.(items) raw_ids).

(** ** The identifiers of the other items *)

(** [lower_type_kind], for each sort of item. *)
Definition lower_type_kind (sort : TypeSort) (name : Identifier) (params : list (WithKind string)) : TypeKind :=
  mkTypeKind sort name.(str) (mkBinders (anonymize params) ()).

Definition insert_adt (id : AdtId) (type_kind : TypeKind) (self : ProgramLowerer) : ProgramLowerer :=
  let 'mkProgramLowerer i a b c d e f g h j k l m n o p q r := self in
  mkProgramLowerer i a b (<[type_kind.(tk_name) := id]> c) d e f g h (<[id := type_kind]> j) k l m n o p q r.
Definition insert_fn_def (id : FnDefId) (type_kind : TypeKind) (self : ProgramLowerer) : ProgramLowerer :=
  let 'mkProgramLowerer i a b c d e f g h j k l m n o p q r := self in
  mkProgramLowerer i a b c (<[type_kind.(tk_name) := id]> d) e f g h j (<[id := type_kind]> k) l m n o p q r.
Definition insert_closure (id : ClosureId) (type_kind : TypeKind) (self : ProgramLowerer) : ProgramLowerer :=
  let 'mkProgramLowerer i a b c d e f g h j k l m n o p q r := self in
  mkProgramLowerer i a b c d (<[type_kind.(tk_name) := id]> e) f g h j k l m (<[id := type_kind]> n) o p q r.
Definition insert_trait (id : TraitId) (type_kind : TypeKind) (flags : Ast.TraitFlags) (self : ProgramLowerer) :
    ProgramLowerer :=
  let 'mkProgramLowerer i a b c d e f g h j k l m n o p q r := self in
  mkProgramLowerer i a b c d e (<[type_kind.(tk_name) := id]> f) (<[id := flags.(tf_auto)]> g) h j k l m n
    (<[id := type_kind]> o) p (if flags.(tf_object_safe) then {[id]} ∪ q else q) r.
Definition insert_opaque_ty (id : OpaqueTyId) (type_kind : TypeKind) (self : ProgramLowerer) : ProgramLowerer :=
  let 'mkProgramLowerer i a b c d e f g h j k l m n o p q r := self in
  mkProgramLowerer i a b c d e f g (<[type_kind.(tk_name) := id]> h) j k l m n o (<[id := type_kind]> p) q r.
Definition insert_generator (id : GeneratorId) (type_kind : TypeKind) (self : ProgramLowerer) : ProgramLowerer :=
  let 'mkProgramLowerer i a b c d e f g h j k l m n o p q r := self in
  mkProgramLowerer i a b c d e f g h j k (<[type_kind.(tk_name) := id]> l) (<[id := type_kind]> m) n o p q r.
Definition insert_foreign (id : ForeignDefId) (ident : Identifier) (self : ProgramLowerer) : ProgramLowerer :=
  let 'mkProgramLowerer i a b c d e f g h j k l m n o p q r := self in
  mkProgramLowerer i a b c d e f g h j k l m n o p q (<[ident.(str) := id]> r).

Definition extract_ids_of (self : ProgramLowerer) (entry : Ast.Item * N) : LowerResult ProgramLowerer :=
  let '(item, raw_id) := entry in
  Val match item with
  | ItAdtDefn defn =>
      insert_adt raw_id (lower_type_kind SortAdt defn.(adt_name) (all_parameters None defn.(adt_variable_kinds))) self
  | ItFnDefn defn =>
      insert_fn_def raw_id (lower_type_kind SortFnDef defn.(fn_name) (all_parameters None defn.(fn_variable_kinds))) self
  | ItClosureDefn defn =>
      insert_closure raw_id
        (lower_type_kind SortClosure defn.(closure_name) (all_parameters None defn.(closure_variable_kinds))) self
  | ItTraitDefn defn =>
      insert_trait raw_id (lower_type_kind SortTrait defn.(trait_name) (lower_variable_kinds defn.(trait_variable_kinds)))
        defn.(Ast.trait_flags) self
  | ItOpaqueTyDefn defn =>
      insert_opaque_ty raw_id
        (lower_type_kind SortOpaque defn.(opaque_name) (lower_variable_kinds defn.(opaque_variable_kinds))) self
  | ItForeign f => insert_foreign raw_id f.(foreign_name) self
  | ItGeneratorDefn defn =>
      insert_generator raw_id
        (lower_type_kind SortGenerator defn.(gen_name) (lower_variable_kinds defn.(gen_variable_kinds))) self
  | ItImpl _ | ItClause _ => self
  end.

Definition extract_ids (self : ProgramLowerer) (program : Ast.Program) (raw_ids : list N) :
    LowerResult ProgramLowerer :=
  for_each_item extract_ids_of self (zip program.(items) raw_ids).

(** ** The declarations *)

(** One insertion into a map of the program. *)
Inductive Insertion :=
  | InAdtData (id : AdtId) (datum : AdtDatum)
  | InAdtRepr (id : AdtId) (repr : AdtRepr)
  | InAdtVariances (id : AdtId) (variances : list Variance)
  | InFnDefData (id : FnDefId) (datum : FnDefDatum)
  | InFnDefVariances (id : FnDefId) (variances : list Variance)
  | InClosureClosureKind (id : ClosureId) (kind : ClosureKind)
  | InClosureInputsAndOutput (id : ClosureId) (io : Binders FnDefInputsAndOutputDatum)
  | InClosureUpvars (id : ClosureId) (upvars : Binders Ty)
  | InWellKnownTrait (well_known : WellKnownTrait) (id : TraitId)
  | InTraitData (id : TraitId) (datum : TraitDatum)
  | InAssociatedTyData (id : AssocTypeId) (datum : AssociatedTyDatum)
  | InImplData (id : ImplId) (datum : ImplDatum)
  | InAssociatedTyValue (id : AssociatedTyValueId) (value : AssociatedTyValue)
  | InCustomClauses (clauses : list ProgramClause)
  | InHiddenOpaqueType (id : OpaqueTyId) (ty : Ty)
  | InOpaqueTyData (id : OpaqueTyId) (datum : OpaqueTyDatum)
  | InGeneratorData (id : GeneratorId) (datum : GeneratorDatum)
  | InGeneratorWitnessData (id : GeneratorId) (datum : GeneratorWitnessDatum).

(** The variances of the parameters of a data type or a function. *)
Definition lower_variances (identifier : Identifier) (n_params : nat) (variances : option (list Ast.Variance)) :
    LowerResult (list Variance) :=
  match variances with
  | Some v =>
      if decide (length v = n_params) then Val (lower_Variance <$> v)
      else Exn (IncorrectNumberOfVarianceParameters identifier n_params (length v))
  | None => Val (replicate n_params Invariant)
  end.

Section LowerItems.
Context (self : ProgramLowerer).

Definition empty_env : Env :=
  mkEnv self.(pl_adt_ids) self.(pl_adt_kinds) self.(pl_fn_def_ids) self.(pl_fn_def_kinds)
    self.(pl_closure_ids) self.(pl_closure_kinds) self.(pl_trait_ids) self.(pl_trait_kinds)
    self.(pl_opaque_ty_ids) self.(pl_opaque_ty_kinds) self.(pl_associated_ty_lookups)
    self.(pl_auto_traits) self.(pl_foreign_ty_ids) self.(pl_generator_ids) self.(pl_generator_kinds) ∅.

Definition lower_adt_item (d : Ast.AdtDefn) (adt_id : AdtId) : LowerResult (list Insertion) :=
  datum ← lower_AdtDefn d adt_id empty_env;
  repr ← lower_AdtRepr d.(Ast.adt_repr) empty_env;
  variances ← lower_variances d.(adt_name) (length (all_parameters None d.(adt_variable_kinds)))
                d.(Ast.adt_variances);
  Val [InAdtData adt_id datum; InAdtRepr adt_id repr; InAdtVariances adt_id variances].

Definition lower_fn_item (defn : Ast.FnDefn) (fn_def_id : FnDefId) : LowerResult (list Insertion) :=
  datum ← lower_FnDefn defn fn_def_id empty_env;
  variances ← lower_variances defn.(fn_name) (length (all_parameters None defn.(fn_variable_kinds)))
                defn.(Ast.fn_variances);
  Val [InFnDefData fn_def_id datum; InFnDefVariances fn_def_id variances].

Definition lower_closure_item (defn : Ast.ClosureDefn) (closure_def_id : ClosureId) : LowerResult (list Insertion) :=
  '(kind, inputs_and_output) ← lower_ClosureDefn defn empty_env;
  upvars ← in_binders empty_env (all_parameters None defn.(closure_variable_kinds)) (λ env,
    upvar_tys ← lower_tys defn.(Ast.closure_upvars) env;
    Val (TyTuple (length defn.(Ast.closure_upvars)) (ArgTy <$> upvar_tys)));
  Val [InClosureClosureKind closure_def_id kind; InClosureInputsAndOutput closure_def_id inputs_and_output;
       InClosureUpvars closure_def_id upvars].

(** The parameters of the associated type come before those of the trait. *)
Definition lower_assoc_item (trait_defn : Ast.TraitDefn) (trait_id : TraitId) (assoc_ty_defn : Ast.AssocTyDefn) :
    LowerResult Insertion :=
  lookup ← btree_index self.(pl_associated_ty_lookups) (trait_id, assoc_ty_defn.(Ast.assoc_name).(str));
  let variable_kinds := all_parameters None assoc_ty_defn.(assoc_variable_kinds)
                        ++ all_parameters trait_synthetic_parameters trait_defn.(trait_variable_kinds) in
  binders ← in_binders empty_env variable_kinds (λ env,
    bounds ← lower_bounds lower_ty lower_arg assoc_ty_defn.(Ast.assoc_bounds) env;
    where_clauses ← lower_where_clauses assoc_ty_defn.(Ast.assoc_where_clauses) env;
    Val (mkAssociatedTyDatumBound bounds where_clauses));
  Val (InAssociatedTyData lookup.(lookup_id)
    (mkAssociatedTyDatum trait_id lookup.(lookup_id) assoc_ty_defn.(Ast.assoc_name).(str) binders)).

Definition lower_trait_item (trait_defn : Ast.TraitDefn) (trait_id : TraitId) : LowerResult (list Insertion) :=
  trait_datum ← lower_TraitDefn trait_defn trait_id empty_env;
  assocs ← mapM (lower_assoc_item trait_defn trait_id) trait_defn.(assoc_ty_defns);
  Val (option_list ((λ well_known, InWellKnownTrait well_known trait_id) <$> trait_datum.(well_known))
         ++ InTraitData trait_id trait_datum :: assocs).

(** The parameters of the value come before those of the impl. *)
Definition lower_atv_item (impl_defn : Ast.Impl) (impl_id : ImplId) (trait_id : TraitId) (atv : Ast.AssocTyValue) :
    LowerResult Insertion :=
  atv_id ← btree_index self.(pl_associated_ty_value_ids) (impl_id, atv.(atv_name).(str));
  lookup ← btree_index self.(pl_associated_ty_lookups) (trait_id, atv.(atv_name).(str));
  let variable_kinds := all_parameters None atv.(atv_variable_kinds)
                        ++ all_parameters None impl_defn.(impl_variable_kinds) in
  value ← in_binders empty_env variable_kinds (λ env,
    mkAssociatedTyValueBound <$> lower_ty atv.(Ast.atv_value) env);
  Val (InAssociatedTyValue atv_id (mkAssociatedTyValue impl_id lookup.(lookup_id) value)).

Definition lower_impl_item (impl_defn : Ast.Impl) (impl_id : ImplId) : LowerResult (list Insertion) :=
  impl_datum ← lower_Impl impl_defn impl_id self.(pl_associated_ty_value_ids) empty_env;
  atvs ← mapM (lower_atv_item impl_defn impl_id (impl_trait_id impl_datum)) impl_defn.(impl_assoc_ty_values);
  Val (InImplData impl_id impl_datum :: atvs).

(** The hidden type, under the parameters of the opaque type, and the bounds, also under
    the self type. *)
Definition lower_opaque_bound (opaque_ty : Ast.OpaqueTyDefn) (env : Env) : LowerResult (Ty * OpaqueTyDatumBound) :=
  hidden_ty ← lower_ty opaque_ty.(Ast.opaque_ty) env;
  bounds ← in_binders env self_parameter (λ env,
    bounds ← lower_bounds lower_ty lower_arg opaque_ty.(Ast.opaque_bounds) env;
    bounds_on_self_ty bounds);
  where_clauses ← in_binders env self_parameter (λ env,
    lower_where_clauses opaque_ty.(Ast.opaque_where_clauses) env);
  Val (hidden_ty, mkOpaqueTyDatumBound bounds where_clauses).

Definition lower_opaque_item (opaque_ty : Ast.OpaqueTyDefn) : LowerResult (list Insertion) :=
  match self.(pl_opaque_ty_ids) !! opaque_ty.(opaque_name).(str) with
  | Some opaque_ty_id =>
      binders ← in_binders empty_env (lower_variable_kinds opaque_ty.(opaque_variable_kinds))
                  (lower_opaque_bound opaque_ty);
      Val [InHiddenOpaqueType opaque_ty_id binders.(value).1;
           InOpaqueTyData opaque_ty_id (mkOpaqueTyDatum opaque_ty_id (binders_map snd binders))]
  | None => Val []
  end.

Definition lower_generator_item (defn : Ast.GeneratorDefn) : LowerResult (list Insertion) :=
  let variable_kinds := lower_variable_kinds defn.(gen_variable_kinds) in
  let witness_lifetimes := lower_variable_kinds (Ast.VkLifetime <$> defn.(gen_witness_lifetimes)) in
  input_output ← in_binders empty_env variable_kinds (λ env,
    yield_type ← lower_ty defn.(gen_yield_ty) env;
    resume_type ← lower_ty defn.(gen_resume_ty) env;
    return_type ← lower_ty defn.(gen_return_ty) env;
    upvars ← lower_tys defn.(gen_upvars) env;
    Val (mkGeneratorInputOutputDatum resume_type yield_type return_type upvars));
  inner_types ← in_binders empty_env variable_kinds (λ env,
    witnesses ← in_binders env witness_lifetimes (λ env, lower_tys defn.(gen_witness_types) env);
    Val (mkGeneratorWitnessExistential witnesses));
  id ← btree_index self.(pl_generator_ids) defn.(gen_name).(str);
  Val [InGeneratorData id (mkGeneratorDatum (lower_Movability defn.(gen_movability)) input_output);
       InGeneratorWitnessData id (mkGeneratorWitnessDatum inner_types)].

Definition lower_item (entry : Ast.Item * N) : LowerResult (list Insertion) :=
  let '(item, raw_id) := entry in
  match item with
  | ItAdtDefn d => lower_adt_item d raw_id
  | ItFnDefn defn => lower_fn_item defn raw_id
  | ItClosureDefn defn => lower_closure_item defn raw_id
  | ItTraitDefn trait_defn => lower_trait_item trait_defn raw_id
  | ItImpl impl_defn => lower_impl_item impl_defn raw_id
  | ItClause clause =>
      clauses ← lower_Clause clause empty_env;
      Val [InCustomClauses clauses]
  | ItOpaqueTyDefn opaque_ty => lower_opaque_item opaque_ty
  | ItGeneratorDefn defn => lower_generator_item defn
  | ItForeign _ => Val []
  end.

(** The map after the insertions that [pick] selects. *)
Definition insert_all {K V} `{Countable K} (pick : Insertion → option (K * V)) (insertions : list Insertion) : gmap K V :=
  foldl (λ m '(k, v), <[k := v]> m) ∅ (omap pick insertions).

Definition lowered_program (ins : list Insertion) : Program.Program := {|
  adt_ids := self.(pl_adt_ids);
  adt_kinds := self.(pl_adt_kinds);
  adt_variances := insert_all (λ i, match i with InAdtVariances k v => Some (k, v) | _ => None end) ins;
  fn_def_ids := self.(pl_fn_def_ids);
  fn_def_kinds := self.(pl_fn_def_kinds);
  fn_def_variances := insert_all (λ i, match i with InFnDefVariances k v => Some (k, v) | _ => None end) ins;
  closure_ids := self.(pl_closure_ids);
  prog_closure_upvars := insert_all (λ i, match i with InClosureUpvars k v => Some (k, v) | _ => None end) ins;
  closure_kinds := self.(pl_closure_kinds);
  generator_ids := self.(pl_generator_ids);
  generator_kinds := self.(pl_generator_kinds);
  generator_data := insert_all (λ i, match i with InGeneratorData k v => Some (k, v) | _ => None end) ins;
  generator_witness_data :=
    insert_all (λ i, match i with InGeneratorWitnessData k v => Some (k, v) | _ => None end) ins;
  trait_ids := self.(pl_trait_ids);
  trait_kinds := self.(pl_trait_kinds);
  adt_data := insert_all (λ i, match i with InAdtData k v => Some (k, v) | _ => None end) ins;
  adt_reprs := insert_all (λ i, match i with InAdtRepr k v => Some (k, v) | _ => None end) ins;
  fn_def_data := insert_all (λ i, match i with InFnDefData k v => Some (k, v) | _ => None end) ins;
  prog_closure_inputs_and_output :=
    insert_all (λ i, match i with InClosureInputsAndOutput k v => Some (k, v) | _ => None end) ins;
  closure_closure_kind := insert_all (λ i, match i with InClosureClosureKind k v => Some (k, v) | _ => None end) ins;
  impl_data := insert_all (λ i, match i with InImplData k v => Some (k, v) | _ => None end) ins;
  associated_ty_values := insert_all (λ i, match i with InAssociatedTyValue k v => Some (k, v) | _ => None end) ins;
  opaque_ty_ids := self.(pl_opaque_ty_ids);
  opaque_ty_kinds := self.(pl_opaque_ty_kinds);
  prog_opaque_ty_data := insert_all (λ i, match i with InOpaqueTyData k v => Some (k, v) | _ => None end) ins;
  hidden_opaque_types := insert_all (λ i, match i with InHiddenOpaqueType k v => Some (k, v) | _ => None end) ins;
  trait_data := insert_all (λ i, match i with InTraitData k v => Some (k, v) | _ => None end) ins;
  well_known_traits := insert_all (λ i, match i with InWellKnownTrait k v => Some (k, v) | _ => None end) ins;
  prog_associated_ty_data := insert_all (λ i, match i with InAssociatedTyData k v => Some (k, v) | _ => None end) ins;
  prog_custom_clauses := concat (omap (λ i, match i with InCustomClauses cs => Some cs | _ => None end) ins);
  object_safe_traits := self.(pl_object_safe_traits);
  foreign_ty_ids := self.(pl_foreign_ty_ids)
|}.

(** [ProgramLowerer::lower]. *)
Definition lower_items (program : Ast.Program) (raw_ids : list N) : LowerResult Program.Program :=
  insertions ← mapM lower_item (zip program.(items) raw_ids);
  Val (lowered_program (concat insertions)).
End LowerItems.

(** ** Programs *)

(** [self.items.iter().map(|_| lowerer.next_item_id()).collect()]. *)
Fixpoint item_ids (self : ProgramLowerer) (items : list Ast.Item) : LowerResult (list N * ProgramLowerer) :=
  match items with
  | [] => Val ([], self)
  | _ :: items =>
      '(id, self) ← next_item_id self;
      '(ids, self) ← item_ids self items;
      Val (id :: ids, self)
  end.

Definition lower_Program (self : Ast.Program) : LowerResult Program.Program :=
  '(raw_ids, lowerer) ← item_ids ProgramLowerer_default self.(items);
  lowerer ← extract_associated_types lowerer self raw_ids;
  lowerer ← extract_ids lowerer self raw_ids;
  lower_items lowerer self raw_ids.

(** ** Goals *)

(** The lookup of an associated type of a program: its own parameters come first. *)
Definition lookup_of_datum (program : Program.Program) (id : AssocTypeId) (datum : AssociatedTyDatum) :
    LowerResult (TraitId * string * AssociatedTyLookup) :=
  trait_datum ← btree_index program.(trait_data) datum.(assoc_trait_id);
  let num_trait_params := length trait_datum.(trait_binders).(binders) in
  let ks := datum.(assoc_binders).(binders) in
  if num_trait_params <=? length ks then
    Val (datum.(assoc_trait_id), datum.(assoc_name),
         mkAssociatedTyLookup id (take (length ks - num_trait_params) ks))
  else Panic POverflow.

Definition goal_env (program : Program.Program) : LowerResult Env :=
  lookups ← mapM (λ '(id, datum), lookup_of_datum program id datum) (btree_iter program.(prog_associated_ty_data));
  let auto_traits := is_auto_trait <$> program.(trait_data) in
  Val (mkEnv program.(adt_ids) program.(adt_kinds) program.(fn_def_ids) program.(fn_def_kinds)
    program.(closure_ids) program.(closure_kinds) program.(trait_ids) program.(trait_kinds)
    program.(opaque_ty_ids) program.(opaque_ty_kinds)
    (foldl (λ m '(k, v), <[k := v]> m) ∅ lookups) auto_traits
    program.(foreign_ty_ids) program.(generator_ids) program.(generator_kinds) ∅).

Definition lower_goal (goal : Ast.Goal) (program : Program.Program) : LowerResult Goal :=
  env ← goal_env program;
  lower_Goal goal env.
