(* ===== verification/LoweringScopes.v ===== *)
(** * Lowering gives terms in scope

    In an environment whose parameters are those of the binders around, a term of the
    syntax lowers to a term in scope; a bound on a trait names a trait of the program and
    gives it arguments of the kinds of its parameters. *)

From stdpp Require Import base list numbers gmap strings.
From S2P Require Import Prelude Ast Ir IrCountable Fold FoldLaws Shift ShiftThm RustIr RecSolve Builder Coherence SuperTraits ProgramClauses Scoped BuilderScopes DeclScopes SuperTraitsThm LowerEnv Lowering.

(** ** What a computation ensures when it returns *)

Definition ensures {E A} (m : outcome E A) (Q : A → Prop) : Prop := ∀ a, m = Val a → Q a.

Section Ensures.
Context {E : Type}.

Lemma ensures_Val {A} (a : A) (Q : A → Prop) : Q a → ensures (E := E) (Val a) Q.
Proof. by intros ? ? [= <-]. Qed.
Lemma ensures_bind {A B} (m : outcome E A) (f : A → outcome E B) P Q :
  ensures m P → (∀ a, P a → ensures (f a) Q) → ensures (m ≫= f) Q.
Proof. intros Hm Hf b (a & Ha & Hb)%bind_Val. eapply Hf; [by apply Hm|done]. Qed.
Lemma ensures_fmap {A B} (f : A → B) (m : outcome E A) P Q :
  ensures m P → (∀ a, P a → Q (f a)) → ensures (f <$> m) Q.
Proof. intros Hm Hf b Hb. destruct m; simpl in Hb; simplify_eq. by apply Hf, Hm. Qed.
Lemma ensures_any {A} (m : outcome E A) : ensures m (λ _, True).
Proof. done. Qed.
Lemma ensures_weaken {A} (m : outcome E A) (P Q : A → Prop) : ensures m P → (∀ a, P a → Q a) → ensures m Q.
Proof. intros Hm HPQ a Ha. by apply HPQ, Hm. Qed.
Lemma ensures_mapM {A B} (f : A → outcome E B) (Q : B → Prop) l :
  Forall (λ x, ensures (f x) Q) l → ensures (mapM f l) (Forall Q).
Proof.
  induction 1 as [|x l Hx Hl IH]; [by apply ensures_Val|]. simpl.
  eapply ensures_bind; [exact Hx|]. intros y Hy. eapply ensures_bind; [exact IH|]. intros ys Hys.
  apply ensures_Val. by constructor.
Qed.
Lemma ensures_mapM_all {A B} (f : A → outcome E B) (Q : B → Prop) l :
  (∀ x, ensures (f x) Q) → ensures (mapM f l) (Forall Q).
Proof. intros Hf. apply ensures_mapM. by apply Forall_true. Qed.
Lemma ensures_unwrap_result {E' A} (m : outcome E' A) Q : ensures m Q → ensures (E := E) (unwrap_result m) Q.
Proof. intros Hm a Ha. rewrite unwrap_result_Val in Ha. by apply Hm. Qed.
End Ensures.

(** Runs the next step of a computation, whatever it returns. *)
Ltac step := eapply ensures_bind; [apply ensures_any|intros ? _].

Lemma Forall_filter {A} (P Q : A → Prop) `{∀ x, Decision (P x)} l : Forall Q l → Forall Q (filter P l).
Proof. rewrite !Forall_forall. intros Hl x [_ ?]%list_elem_of_filter. by apply Hl. Qed.

Lemma Forall_scoped {T} `{Scoped T} ctx (l : list T) : Forall (λ x, scoped ctx x) l ↔ scoped ctx l.
Proof. simpl. rewrite forallb_forall, Forall_forall. by setoid_rewrite list_elem_of_In. Qed.

Lemma scoped_concat {T} `{Scoped T} ctx (l : list (list T)) : Forall (λ x, scoped ctx x) l → scoped ctx (concat l).
Proof. induction 1 as [|x l Hx Hl IH]; [done|]. by apply scoped_app. Qed.

(** Terms below a binder of their own. *)
Lemma leaves_ok_inner ks ctx ls : leaves_ok 0 (ks :: ctx) ls = true → leaves_ok 0 ctx (bump 1 <$> ls) = true.
Proof.
  rewrite <- (leaves_ok_bump 1), !leaves_ok_Forall. intros Hl. eapply Forall_impl; [exact Hl|].
  intros l. apply leaf_ok_out.
Qed.

(** ** Kinds *)

Lemma check_kinds_all2 error params args :
  length params = length args →
  ensures (check_kinds error params args) (λ _, all2 arg_kind_ok params args = true).
Proof.
  revert args. induction params as [|k params IH]; intros [|a args]; try done. intros [= Hl]. simpl.
  destruct (decide _) as [Hk|]; [|done]. eapply ensures_weaken; [by apply IH|]. intros _ ->.
  destruct k, a; try done; by simpl in Hk.
Qed.

Lemma lower_variable_kinds_ground ks : kinds_ok (kind <$> lower_variable_kinds ks) = true.
Proof. induction ks as [|[] ks IH]; simpl; done. Qed.

Lemma all_parameters_ground s ks :
  kinds_ok (kind <$> option_list s) = true → kinds_ok (kind <$> all_parameters s ks) = true.
Proof.
  intros Hs. unfold all_parameters. rewrite fmap_app, kinds_ok_app, Hs. apply lower_variable_kinds_ground.
Qed.

Section Scopes.
Context (db : RustIrDatabase) (traits : gset TraitId).

(** ** Environments *)

(** The parameters are those of the binders in [ctx]; the traits that have a kind are
    traits of the program, with these parameters after [Self]. *)
Record env_ok (env : Env) (ctx : Scope) : Prop := {
  env_parameters name p : env.(parameter_map) !! name = Some p →
    ground_kind p.(kind) = true ∧
    ∃ ks, ctx !! p.(kvalue).(debruijn) = Some ks ∧ ks !! p.(kvalue).(index) = Some p.(kind);
  env_traits id k : env.(env_trait_kinds) !! id = Some k →
    id ∈ traits ∧ parameters_of db id = VkTy General :: k.(tk_binders).(binders)
}.

Lemma lookup_foldl_insert {K V} `{Countable K} (l : list (K * V)) (m : gmap K V) k v :
  foldl (λ m '(k, v), <[k := v]> m) m l !! k = Some v → (k, v) ∈ l ∨ m !! k = Some v.
Proof.
  revert m. induction l as [|[k' v'] l IH]; intros m; simpl; [by right|].
  intros [?|Hm]%IH; [left; by right|]. destruct (decide (k' = k)) as [->|].
  - rewrite lookup_insert_eq in Hm. simplify_eq. left. by left.
  - right. by rewrite lookup_insert_ne in Hm.
Qed.

Lemma introduce_ok env ctx bs :
  env_ok env ctx → kinds_ok (kind <$> bs) = true →
  ensures (introduce env bs) (λ env', env_ok env' ((kind <$> bs) :: ctx)).
Proof.
  intros Henv Hbs env'. unfold introduce. case_match; [|done]. intros [= <-]. split; [|apply Henv]. simpl.
  intros name p [Hp|Hp]%lookup_foldl_insert.
  - unfold new_parameters in Hp. apply elem_of_lookup_imap in Hp as (i & [k n] & [= -> ->] & Hi). simpl.
    split.
    + unfold kinds_ok in Hbs. rewrite forallb_forall in Hbs. apply Hbs, list_elem_of_In, list_elem_of_fmap.
      exists (mkWithKind k n). split; [done|]. by eapply list_elem_of_lookup_2.
    + exists (kind <$> bs). split; [done|]. by rewrite list_lookup_fmap, Hi.
  - rewrite lookup_fmap in Hp. destruct (parameter_map env !! name) as [q|] eqn:Hq; [|done]. injection Hp as <-.
    destruct (env_parameters _ _ Henv _ _ Hq) as (? & ks & ? & ?). split; [done|]. simpl. exists ks.
    by rewrite debruijn_shifted_in_S.
Qed.

Lemma in_binders_ok {T} env ctx bs (op : Env → LowerResult T) Q :
  env_ok env ctx → kinds_ok (kind <$> bs) = true →
  (∀ env', env_ok env' ((kind <$> bs) :: ctx) → ensures (op env') Q) →
  ensures (in_binders env bs op) (λ b, b.(binders) = kind <$> bs ∧ Q b.(value)).
Proof.
  intros Henv Hbs Hop. eapply ensures_bind; [by apply introduce_ok|]. intros env' Henv'.
  eapply ensures_bind; [by apply Hop|]. intros a Ha. by apply ensures_Val.
Qed.

(** The value under the binders is in scope, and satisfies [Q]. *)
Lemma in_binders_scoped {T} `{Scoped T} env ctx bs (op : Env → LowerResult T) (Q : T → Prop) :
  env_ok env ctx → kinds_ok (kind <$> bs) = true →
  (∀ env', env_ok env' ((kind <$> bs) :: ctx) →
     ensures (op env') (λ x, scoped ((kind <$> bs) :: ctx) x ∧ Q x)) →
  ensures (in_binders env bs op) (λ b, scoped ctx b ∧ b.(binders) = kind <$> bs ∧ Q b.(value)).
Proof.
  intros Henv Hbs Hop. eapply ensures_weaken; [by apply (in_binders_ok env ctx bs op _ Henv Hbs Hop)|].
  intros b (Hb & Hs & HQ). split_and!; [|done..]. simpl. rewrite Hb, Hbs. exact Hs.
Qed.

(** ** Names *)

Lemma lookup_generic_arg_ok env ctx name :
  env_ok env ctx → ensures (lookup_generic_arg env name) (λ a, scoped ctx a).
Proof.
  intros Henv a. unfold lookup_generic_arg. intros (l & Hl & Ha)%bind_Val.
  assert (∀ k f, tykind_no_args name k f = Val a → (∀ s, leaves_ty (f s) 0 = s ≫= λ a, leaves_arg a 0) → scoped ctx a) as Hno.
  { intros k f Hk Hf. unfold tykind_no_args in Hk. inv_outcome Hk. case_match; [done|]. injection Hk as <-.
    simpl. by rewrite Hf. }
  destruct l as [p| | | | | | |]; simpl in Ha; simplify_eq/=; try (by eapply Hno); try done.
  unfold lookup_type in Hl. destruct (parameter_map env !! str name) as [q|] eqn:Hq;
    [|repeat case_match; simplify_eq/=]. injection Hl as ->.
  destruct (env_parameters _ _ Henv _ _ Hq) as (Hg & ks & Hks & Hk).
  apply (to_bound_variable_ok 0 ctx p.(kind) p.(kvalue) 0 Hg). intros ok Hok.
  apply var_ok_spec. split; [lia|]. right. exists ks, p.(kind).
  rewrite Nat.add_0_r, Nat.sub_0_r. by split_and!.
Qed.

Lemma lower_Lifetime_ok env ctx l : env_ok env ctx → ensures (lower_Lifetime l env) (λ l, leaves_ok 0 ctx (leaves_lifetime l 0) = true).
Proof.
  intros Henv. destruct l as [n| | |]; simpl; try (by apply ensures_Val).
  eapply ensures_bind; [by apply lookup_generic_arg_ok|]. intros [] Ha; try done; by apply ensures_Val.
Qed.

Lemma lower_Const_ok env ctx c : env_ok env ctx → ensures (lower_Const c env) (λ c, leaves_ok 0 ctx (leaves_const c 0) = true).
Proof.
  intros Henv. destruct c as [n|v]; simpl; [|by apply ensures_Val].
  eapply ensures_bind; [by apply lookup_generic_arg_ok|]. intros [] Ha; try done; by apply ensures_Val.
Qed.

(** ** Bounds and trait references *)

(** The lowering of [t] and [a] gives terms in scope. *)
Definition ty_scopes (t : Ast.Ty) : Prop :=
  ∀ env ctx, env_ok env ctx → ensures (lower_ty t env) (λ t, scoped ctx t).
Definition arg_scopes (a : Ast.GenericArg) : Prop :=
  ∀ env ctx, env_ok env ctx → ensures (lower_arg a env) (λ a, scoped ctx a).

(** A bound names a trait of the program and fits its parameters. *)
Definition trait_bound_names (b : TraitBound) : Prop :=
  b.(tb_trait_id) ∈ traits ∧
  ∃ ks, parameters_of db b.(tb_trait_id) = VkTy General :: ks ∧ all2 arg_kind_ok ks b.(args_no_self) = true.
Definition inline_bound_names (b : InlineBound) : Prop :=
  match b with
  | IbTraitBound b => trait_bound_names b
  | IbAliasEqBound b => trait_bound_names b.(aeb_trait_bound)
  end.

Lemma as_trait_ref_names b t : trait_bound_names b → bound_names db traits (WcImplemented (as_trait_ref b t)) = true.
Proof.
  intros (Hin & ks & Hks & Hall). simpl. rewrite bool_decide_eq_true_2 by done. unfold trait_ref_fits. simpl.
  by rewrite Hks.
Qed.

Section Bounds.
Context (env : Env) (ctx : Scope) (Henv : env_ok env ctx).

Lemma lower_args_ok args : Forall arg_scopes args → ensures (lower_args lower_arg args env) (λ l, scoped ctx l).
Proof.
  intros Hargs. eapply ensures_weaken; [|intros l; apply Forall_scoped]. apply ensures_mapM.
  eapply Forall_impl; [exact Hargs|]. intros a Ha. by apply Ha.
Qed.

Lemma lower_trait_bound_args_ok name args :
  Forall arg_scopes args →
  ensures (lower_trait_bound_args lower_arg name args env) (λ b, scoped ctx b ∧ trait_bound_names b).
Proof.
  intros Hargs. step. intros b (k & Hk & Hb)%bind_Val. revert b Hb.
  unfold trait_kind, btree_index in Hk. apply unwrap_Val in Hk.
  destruct (env_traits _ _ Henv _ _ Hk) as [Hin Hps]. case_match; [|done].
  eapply ensures_bind; [by apply lower_args_ok|]. intros ps Hscope. case_match eqn:Hlen; [|done].
  eapply ensures_bind; [by apply check_kinds_all2|].
  intros [] Hall. apply ensures_Val. split; [exact Hscope|]. split; [done|]. by eexists.
Qed.

Lemma lower_trait_ref_ok tr :
  Forall arg_scopes tr.(tr_args) →
  ensures (lower_trait_ref lower_arg tr env)
    (λ tr, scoped ctx tr ∧ bound_names db traits (WcImplemented tr) = true).
Proof.
  intros Hargs. unfold lower_trait_ref. destruct tr.(tr_args) as [|a args]; [by step|].
  apply Forall_cons in Hargs as [Ha Hargs].
  eapply ensures_bind; [by apply lower_trait_bound_args_ok|]. intros b [Hb Hnames].
  eapply ensures_bind; [by apply Ha|]. intros self Hself.
  intros tr' (t & Ht & [= <-])%bind_Val. rewrite unwrap_result_Val in Ht.
  destruct self as [t'| |]; simpl in Ht; try done. injection Ht as <-. split; [|by apply as_trait_ref_names].
  apply scoped_trait_ref. exact (scoped_cons ctx (ArgTy t') _ Hself Hb).
Qed.

Lemma check_assoc_args_ok name lookup args :
  ensures (check_assoc_args name lookup args) (λ _, all2 arg_kind_ok lookup.(addl_variable_kinds) args = true).
Proof. unfold check_assoc_args. case_match; [|done]. by apply check_kinds_all2. Qed.

Lemma lower_projection_ok p :
  on_projection arg_scopes p →
  ensures (lower_projection lower_arg p env) (λ a, leaves_ok 0 ctx (leaves_alias a 0) = true).
Proof.
  intros [Htr Hargs]. eapply ensures_bind; [by apply lower_trait_ref_ok|]. intros tr [Hs _].
  step. eapply ensures_bind; [by apply lower_args_ok|]. intros args Hscope. step.
  apply ensures_Val. apply scoped_subst_leaves, scoped_app; [done|]. by apply scoped_trait_ref_args.
Qed.

Lemma lower_inline_bound_ok b :
  on_inline_bound ty_scopes arg_scopes b →
  ensures (lower_inline_bound lower_ty lower_arg b env) (λ b, scoped ctx b ∧ inline_bound_names b).
Proof.
  destruct b as [b|b]; simpl.
  - intros Hb. eapply ensures_fmap; [by apply lower_trait_bound_args_ok|]. done.
  - intros (Hb & Hargs & Hv). eapply ensures_fmap with (P := λ b, scoped ctx b ∧ trait_bound_names b.(aeb_trait_bound)); [|done].
    eapply ensures_bind; [by apply lower_trait_bound_args_ok|]. intros tb [Htb Hnames]. step.
    eapply ensures_bind; [by apply lower_args_ok|]. intros args Hs. step.
    eapply ensures_bind; [by apply Hv|]. intros v Hsv. apply ensures_Val. split; [|done].
    apply andb_true_iff. split; [|exact Hsv]. apply andb_true_iff. split; [exact Htb|exact Hs].
Qed.
End Bounds.

Definition quantified_bound_ok (ctx : Scope) (b : QuantifiedInlineBound) : Prop :=
  scoped ctx b ∧ inline_bound_names b.(value).

Lemma lower_bounds_ok env ctx bs :
  env_ok env ctx → on_bounds ty_scopes arg_scopes bs →
  ensures (lower_bounds lower_ty lower_arg bs env) (Forall (quantified_bound_ok ctx)).
Proof.
  intros Henv Hbs. unfold lower_bounds.
  eapply ensures_bind with (P := Forall (λ b, ensures b.2 (quantified_bound_ok ctx))).
  - apply ensures_mapM. eapply Forall_impl; [exact Hbs|]. intros b Hb. step. step. apply ensures_Val.
    cbn [snd]. eapply ensures_weaken; [apply in_binders_scoped with (Q := inline_bound_names); [done| |]|].
    + apply lower_variable_kinds_ground.
    + intros env' Henv'. by apply lower_inline_bound_ok.
    + intros q (? & _ & ?). by split.
  - intros l Hl. apply ensures_mapM. apply Forall_app. split; [by apply Forall_filter|].
    rewrite sort_by_key_Permutation. by apply Forall_filter.
Qed.

(** The where clauses of bounds under the binder of their self type. *)
Lemma bounds_on_self_ty_ok ks ctx bs :
  Forall (quantified_bound_ok ((VkTy General :: ks) :: ctx)) bs →
  ensures (bounds_on_self_ty bs) (λ wcs, scoped ((VkTy General :: ks) :: ctx) wcs ∧
    forallb (λ qwc : QuantifiedWhereClause, bound_names db traits qwc.(value)) wcs = true).
Proof.
  intros Hbs. set (ctx' := _ :: ctx) in *.
  eapply ensures_bind with (P := Forall (λ wcs : list QuantifiedWhereClause, scoped ctx' wcs ∧
    forallb (λ qwc : QuantifiedWhereClause, bound_names db traits qwc.(value)) wcs = true)).
  - apply ensures_mapM. eapply Forall_impl; [exact Hbs|]. intros [qs b] [[Hk Hb]%andb_true_iff Hn].
    apply ensures_unwrap_result. intros wcs (t & Ht & [= <-])%bind_Val.
    assert (t = TyBoundVar (mkBoundVar ONE 0)) as -> by (vm_compute in Ht; by injection Ht as <-).
    cbn [value binders] in *. pose proof (scoped_inline_bound (qs :: ctx') b (TyBoundVar (mkBoundVar ONE 0)) Hb) as Hs.
    specialize (Hs eq_refl). unfold binders_into_iter, binders_map. cbn [value binders]. split.
    + apply Forall_scoped. apply Forall_fmap. apply Forall_scoped in Hs. eapply Forall_impl; [exact Hs|].
      intros wc Hwc. simpl. by rewrite Hk.
    + apply forallb_forall. intros q Hq%list_elem_of_In. apply list_elem_of_fmap in Hq as (wc & -> & Hwc).
      cbn [value]. destruct b as [tb|[tb aid ps v]]; simpl in Hwc; set_unfold in Hwc.
      * destruct Hwc as [->|[]]. by apply as_trait_ref_names.
      * destruct Hwc as [->|[->|[]]]; [by apply as_trait_ref_names|done].
  - intros l Hl. apply ensures_Val. split.
    + apply scoped_concat. eapply Forall_impl; [exact Hl|]. by intros ? [? _].
    + induction Hl as [|x l [_ Hx] Hl IH]; [done|]. simpl. by rewrite forallb_app, Hx.
Qed.

(** ** Types and arguments *)

Lemma lifetime_parameters_ground ns : kinds_ok (kind <$> lifetime_parameters ns) = true.
Proof. by induction ns. Qed.

Lemma scoped_dyn ctx ks (wcs : list QuantifiedWhereClause) l :
  scoped (ks :: ctx) wcs → leaves_ok 0 ctx (leaves_lifetime l 0) = true →
  scoped ctx (TyDyn (mkBinders ks wcs) l).
Proof.
  intros Hw Hl. simpl. rewrite forallb_app, Hl, andb_true_r, leaves_ok_bind. cbn [value].
  apply forallb_forall. intros q Hq. simpl in Hw. rewrite forallb_forall in Hw.
  apply Hw, andb_true_iff in Hq as [_ Hq]. apply leaves_ok_inner in Hq. apply leaves_ok_inner in Hq.
  destruct bump_terms with 1 as (_ & _ & _ & _ & Hb). change 2 with (1 + (1 + 0)). by rewrite !Hb.
Qed.

Lemma scoped_function ctx ks n sig (args : list GenericArg) :
  scoped (ks :: ctx) args → scoped ctx (TyFunction n sig args).
Proof.
  intros Ha. simpl. change 1 with (1 + 0). rewrite bump_subst. eapply leaves_ok_inner. by apply scoped_subst_leaves.
Qed.

Lemma lower_apply_ok env ctx name args k (f : Substitution → Ty) :
  env_ok env ctx → Forall arg_scopes args → (∀ s, scoped ctx s → scoped ctx (f s)) →
  ensures (lower_apply lower_arg name args env k f) (λ t, scoped ctx t).
Proof.
  intros Henv Hargs Hf. step. case_match; [|done]. eapply ensures_bind; [by eapply lower_args_ok|].
  intros s Hs. step. apply ensures_Val. by apply Hf.
Qed.

Lemma lower_tys_args_ok env ctx ts :
  env_ok env ctx → Forall ty_scopes ts →
  ensures (mapM (λ t, ArgTy <$> lower_ty t env) ts) (λ l, scoped ctx l).
Proof.
  intros Henv Hts. eapply ensures_weaken; [|intros l; apply Forall_scoped]. apply ensures_mapM.
  eapply Forall_impl; [exact Hts|]. intros t Ht. eapply ensures_fmap; [by apply Ht|]. done.
Qed.

Lemma lower_terms_ok : (∀ t, ty_scopes t) ∧ (∀ a, arg_scopes a).
Proof.
  apply ast_ind. split; intros; intros env ctx Henv; simpl lower_ty; simpl lower_arg.
  - eapply ensures_bind; [by apply lookup_generic_arg_ok|]. intros [] Ha; try done. by apply ensures_Val.
  - eapply ensures_bind; [eapply (in_binders_ok env ctx self_parameter); [done..|]|].
    { intros env' Henv'. eapply ensures_bind; [by apply lower_bounds_ok|]. intros ql Hq.
      exact (bounds_on_self_ty_ok [] ctx ql Hq). }
    intros [ks wcs] [Hk [Hw _]]. cbn [binders value] in *. subst ks.
    eapply ensures_bind; [by apply lower_Lifetime_ok|]. intros lt Hlt. apply ensures_Val. by apply scoped_dyn.
  - step. pose proof (lower_apply_ok env ctx n args) as Happ. destruct a; try done;
      apply Happ; try done; intros s; by apply scoped_subst_leaves.
  - eapply ensures_fmap; [by apply lower_projection_ok|]. done.
  - eapply ensures_bind; [apply introduce_ok; [done|apply lifetime_parameters_ground]|]. intros env' Henv'.
    eapply ensures_bind; [eapply lower_tys_args_ok; [exact Henv'|exact H]|]. intros args Hargs. step. apply ensures_Val. exact (scoped_function ctx _ _ _ _ Hargs).
  - eapply ensures_bind; [by apply lower_tys_args_ok|]. intros args Hargs. apply ensures_Val. by apply scoped_subst_leaves.
  - by apply ensures_Val.
  - by eapply ensures_fmap; [apply H|].
  - eapply ensures_bind; [by apply H|]. intros t' Ht. eapply ensures_bind; [by apply lower_Const_ok|].
    intros c' Hc. apply ensures_Val. simpl in *. by rewrite forallb_app, Ht.
  - by eapply ensures_fmap; [apply H|].
  - eapply ensures_bind; [by apply lower_Lifetime_ok|]. intros l' Hl. eapply ensures_bind; [by apply H|].
    intros t' Ht. apply ensures_Val. simpl in *. by rewrite forallb_app, Hl.
  - by apply ensures_Val.
  - by apply ensures_Val.
  - by eapply ensures_fmap; [apply H|].
  - by eapply ensures_fmap; [apply lower_Lifetime_ok|].
  - by apply lookup_generic_arg_ok.
  - by eapply ensures_fmap; [apply lower_Const_ok|].
Qed.

Lemma lower_ty_ok env ctx t : env_ok env ctx → ensures (lower_ty t env) (λ t, scoped ctx t).
Proof. apply lower_terms_ok. Qed.
Lemma lower_arg_ok env ctx a : env_ok env ctx → ensures (lower_arg a env) (λ a, scoped ctx a).
Proof. apply lower_terms_ok. Qed.
Lemma all_args_ok args : Forall arg_scopes args.
Proof. by apply Forall_true, lower_terms_ok. Qed.
Lemma lower_tys_ok env ctx ts : env_ok env ctx → ensures (lower_tys ts env) (λ l, scoped ctx l).
Proof.
  intros Henv. eapply ensures_weaken; [|intros l; apply Forall_scoped]. apply ensures_mapM_all. intros t. by apply lower_ty_ok.
Qed.

Lemma lower_bounds_scopes env ctx bs :
  env_ok env ctx → ensures (lower_bounds lower_ty lower_arg bs env) (Forall (quantified_bound_ok ctx)).
Proof.
  intros Henv. apply lower_bounds_ok; [done|]. apply Forall_true. intros b.
  destruct (qib_bound b) as [tb|ab]; [apply all_args_ok|]. split_and!; [apply all_args_ok..|apply lower_terms_ok].
Qed.

(** ** Where clauses and domain goals *)

Abbreviation names_traits wcs := (forallb (bound_names db traits) wcs = true).

Lemma lower_trait_ref_scopes env ctx tr :
  env_ok env ctx →
  ensures (lower_trait_ref lower_arg tr env) (λ tr, scoped ctx tr ∧ bound_names db traits (WcImplemented tr) = true).
Proof. intros Henv. by apply lower_trait_ref_ok, all_args_ok. Qed.
Lemma lower_projection_scopes env ctx p :
  env_ok env ctx → ensures (lower_projection lower_arg p env) (λ a, leaves_ok 0 ctx (leaves_alias a 0) = true).
Proof. intros Henv. apply lower_projection_ok; [done|]. split; apply all_args_ok. Qed.

Lemma scoped_singleton {T} `{Scoped T} ctx (x : T) : scoped ctx x → scoped ctx [x].
Proof. intros Hx. by apply scoped_cons. Qed.
Lemma scoped_lifetime_outlives ctx a b :
  leaves_ok 0 ctx (leaves_lifetime a 0) = true → leaves_ok 0 ctx (leaves_lifetime b 0) = true →
  scoped ctx (WcLifetimeOutlives a b).
Proof. intros Ha Hb. simpl. by rewrite forallb_app, Ha. Qed.
Lemma scoped_type_outlives ctx t l :
  scoped ctx t → leaves_ok 0 ctx (leaves_lifetime l 0) = true → scoped ctx (WcTypeOutlives t l).
Proof. intros Ht Hl. simpl in *. by rewrite forallb_app, Ht. Qed.

Lemma lower_WhereClause_ok env ctx wc :
  env_ok env ctx → ensures (lower_WhereClause wc env) (λ wcs, scoped ctx wcs ∧ names_traits wcs).
Proof.
  intros Henv. destruct wc as [tr|p t|a b|t l]; cbn [lower_WhereClause].
  - eapply ensures_bind; [by apply lower_trait_ref_scopes|]. intros tr' [Htr Hn]. apply ensures_Val.
    split; [by apply scoped_singleton|]. cbn [forallb]. by rewrite Hn.
  - eapply ensures_bind; [by apply lower_projection_scopes|]. intros a Ha.
    eapply ensures_bind; [by apply lower_ty_ok|]. intros t' Ht.
    eapply ensures_bind; [by apply lower_trait_ref_scopes|]. intros tr' [Htr Hn]. apply ensures_Val. split.
    + apply scoped_cons; [by apply scoped_alias_eq|by apply scoped_singleton].
    + cbn [forallb]. by rewrite Hn.
  - eapply ensures_bind; [by apply lower_Lifetime_ok|]. intros a' Ha.
    eapply ensures_bind; [by apply lower_Lifetime_ok|]. intros b' Hb. apply ensures_Val. split; [|done].
    by apply scoped_singleton, scoped_lifetime_outlives.
  - eapply ensures_bind; [by apply lower_ty_ok|]. intros t' Ht.
    eapply ensures_bind; [by apply lower_Lifetime_ok|]. intros l' Hl. apply ensures_Val. split; [|done].
    by apply scoped_singleton, scoped_type_outlives.
Qed.

Abbreviation qwcs_name_traits wcs :=
  (forallb (λ qwc : QuantifiedWhereClause, bound_names db traits qwc.(value)) wcs = true).

Lemma scoped_binders_into_iter {T} `{Scoped T} ctx (b : Binders (list T)) :
  scoped ctx b → scoped ctx (binders_into_iter b).
Proof.
  destruct b as [ks l]. intros [Hk Hl]%andb_true_iff. apply Forall_scoped, Forall_fmap.
  apply Forall_scoped in Hl. eapply Forall_impl; [exact Hl|]. intros x Hx. by apply andb_true_iff.
Qed.

Lemma names_binders_into_iter (b : Binders (list WhereClause)) :
  forallb (λ qwc : QuantifiedWhereClause, bound_names db traits qwc.(value)) (binders_into_iter b)
  = forallb (bound_names db traits) b.(value).
Proof. destruct b as [ks l]. induction l as [|x l IH]; [done|]. cbn. by f_equal. Qed.

Lemma forallb_concat {A} (f : A → bool) (l : list (list A)) :
  Forall (λ x, forallb f x = true) l → forallb f (concat l) = true.
Proof. induction 1 as [|x l Hx Hl IH]; [done|]. simpl. by rewrite forallb_app, Hx. Qed.

Lemma lower_where_clauses_ok env ctx wcs :
  env_ok env ctx → ensures (lower_where_clauses wcs env) (λ wcs, scoped ctx wcs ∧ qwcs_name_traits wcs).
Proof.
  intros Henv. eapply ensures_bind; [apply (ensures_mapM_all _ (λ l, scoped ctx l ∧ qwcs_name_traits l))|].
  - intros wc. eapply ensures_bind.
    { apply (in_binders_scoped env ctx _ _ (λ l, names_traits l)); [done|apply lower_variable_kinds_ground|].
      intros env' Henv'. by apply lower_WhereClause_ok. }
    intros b (Hs & _ & Hn). apply ensures_Val. split; [by apply scoped_binders_into_iter|].
    by rewrite names_binders_into_iter.
  - intros l Hl. apply ensures_Val. split; [apply scoped_concat|apply forallb_concat];
      (eapply Forall_impl; [exact Hl|]); by intros ? [? ?].
Qed.

Lemma lower_DomainGoal_ok env ctx g : env_ok env ctx → ensures (lower_DomainGoal g env) (λ gs, scoped ctx gs).
Proof.
  intros Henv. destruct g; cbn [lower_DomainGoal];
    try (eapply ensures_bind; [first [by apply lower_trait_ref_scopes|by apply lower_ty_ok]|];
         intros x Hx; apply ensures_Val, scoped_singleton; first [exact Hx|exact (proj1 Hx)]);
    try (by apply ensures_Val).
  - eapply ensures_bind; [by apply lower_WhereClause_ok|]. intros wcs [Hs _]. apply ensures_Val. by apply scoped_fmap.
  - eapply ensures_bind; [by apply lower_projection_scopes|]. intros a Ha.
    eapply ensures_bind; [by apply lower_ty_ok|]. intros t Ht. apply ensures_Val. by apply scoped_singleton, scoped_normalize.
  - step. by apply ensures_Val.
Qed.

(** ** Goals and clauses *)

Definition implication_in_scope (ctx : Scope) (i : ProgramClauseImplication) : bool :=
  scopedb ctx i.(consequence) && scopedb ctx i.(conditions) && forallb (constraint_in_scope ctx) i.(constraints).
Definition clause_scoped (ctx : Scope) (c : ProgramClause) : bool :=
  kinds_ok (clause_data c).(binders) && implication_in_scope ((clause_data c).(binders) :: ctx) (clause_data c).(value).

Lemma clause_scoped_nil c : clause_scoped [] c = clause_in_scope c.
Proof. unfold clause_scoped, implication_in_scope, clause_in_scope. by rewrite !andb_assoc. Qed.

Lemma clause_scoped_leaves ctx c : clause_scoped ctx c = true → leaves_ok 0 ctx (leaves_clause c 0) = true.
Proof.
  destruct c as [[ks [cq cs ct p]]]. unfold clause_scoped, implication_in_scope. cbn [clause_data binders value].
  rewrite !andb_true_iff. cbn [consequence conditions constraints]. intros (_ & [Hq Hcs] & Hct).
  simpl. rewrite !forallb_app, !andb_true_iff. split_and!.
  - change 1 with (1 + 0). rewrite bump_domain_goal. exact (leaves_ok_inner _ _ _ Hq).
  - rewrite leaves_ok_bind. apply forallb_forall. intros g Hg. simpl in Hcs. rewrite forallb_forall in Hcs.
    apply Hcs, leaves_ok_inner in Hg. change 1 with (1 + 0). by rewrite (proj1 (bump_goals 1)).
  - rewrite leaves_ok_bind. apply forallb_forall. intros e He. rewrite forallb_forall in Hct.
    apply Hct, andb_true_iff in He as [He Hg]. rewrite forallb_app, andb_true_iff. split.
    + rewrite leaves_ok_bind. apply forallb_forall. intros c Hc. rewrite forallb_forall in He.
      apply He, leaves_ok_inner in Hc. change 1 with (1 + 0). by rewrite (proj2 (bump_goals 1)).
    + apply leaves_ok_inner in Hg. change 1 with (1 + 0). by rewrite bump_constraint.
Qed.

Lemma into_from_env_clause_scoped ctx c : clause_scoped ctx c = true → clause_scoped ctx (into_from_env_clause c) = true.
Proof.
  destruct c as [[ks [cq cs ct p]]]. unfold clause_scoped. cbn [into_from_env_clause clause_data binders_map binders value].
  rewrite !andb_true_iff. intros [Hk Hi]. split; [done|]. destruct cs as [|g cs]; [|done].
  unfold implication_in_scope in *. cbn [implication_into_from_env_clause consequence conditions constraints] in *.
  rewrite !andb_true_iff in *. destruct Hi as [[Hq ?] ?]. split_and!; try done.
  destruct cq as [wc| | | | | | | | | | |]; try done. by destruct wc.
Qed.

Definition goal_scopes (g : Ast.Goal) : Prop :=
  ∀ env ctx, env_ok env ctx → ensures (lower_Goal g env) (λ g, scoped ctx g).

Lemma lower_clause_with_ok env ctx c :
  env_ok env ctx → Forall goal_scopes c.(clause_conditions) →
  ensures (lower_clause_with lower_Goal c env) (Forall (λ c, clause_scoped ctx c = true)).
Proof.
  intros Henv Hgs. set (ks := kind <$> all_parameters None c.(clause_variable_kinds)).
  assert (kinds_ok ks = true) as Hks by by apply all_parameters_ground.
  eapply ensures_bind; [apply (in_binders_ok env ctx _ _ (Forall (λ i, implication_in_scope (ks :: ctx) i = true)) Henv Hks)|].
  - intros env' Henv'. eapply ensures_bind; [by apply lower_DomainGoal_ok|]. intros dgs Hdgs.
    eapply ensures_bind; [apply (ensures_mapM _ (λ g, scoped (ks :: ctx) g))|].
    { apply Forall_reverse, Forall_fmap. eapply Forall_impl; [exact Hgs|]. intros g Hg. by apply Hg. }
    intros conds Hconds. apply ensures_Val, Forall_fmap. apply Forall_scoped in Hdgs.
    eapply Forall_impl; [exact Hdgs|]. intros dg Hdg. unfold implication_in_scope. simpl.
    apply Forall_scoped in Hconds. by rewrite !andb_true_iff.
  - intros [ks' imps] [Hk His]. cbn [binders value] in *. apply ensures_Val. unfold binders_into_iter.
    cbn [binders value]. rewrite <- list_fmap_compose. apply Forall_fmap.
    eapply Forall_impl; [exact His|]. intros i Hi. apply andb_true_iff. by rewrite Hk.
Qed.

Lemma shifted_goal_scoped ctx (g g' : Goal) :
  scoped ctx g → term_shifted_in g = Val g' → leaves_ok 0 ctx (leaves_goal g' 1) = true.
Proof.
  intros Hg Hg'. unfold term_shifted_in, term_shifted_in_from in Hg'. rewrite unwrap_result_Val in Hg'.
  destruct (shift_scoped 0 [] ctx 1 g) as (y & Hy & Hl); [done|lia|done|].
  unfold ONE, INNERMOST in Hg'. rewrite Hg' in Hy. by injection Hy as ->.
Qed.

Lemma compatible_scoped ctx g : scoped ctx g → ensures (compatible g) (λ g, scoped ctx g).
Proof.
  intros Hg g' Hg'. unfold compatible in Hg'. apply bind_Val in Hg' as (c & Hc & Hg').
  apply bind_Val in Hg' as (d & Hd & Hg'). apply bind_Val in Hg' as (g1 & Hg1 & [= <-]).
  vm_compute in Hc. injection Hc as <-. vm_compute in Hd. injection Hd as <-.
  pose proof (shifted_goal_scoped _ _ _ Hg Hg1) as Hs. simpl. exact Hs.
Qed.

Lemma lower_quantified_ok env ctx k ids (op : Env → LowerResult Goal) :
  env_ok env ctx → (∀ env ctx, env_ok env ctx → ensures (op env) (λ g, scoped ctx g)) →
  ensures (lower_quantified_with op k ids env) (λ g, scoped ctx g).
Proof.
  intros Henv Hop. unfold lower_quantified_with. destruct ids as [|i ids]; [by apply Hop|].
  eapply ensures_bind.
  { apply (in_binders_scoped env ctx _ _ (λ _, True)); [done|apply lower_variable_kinds_ground|].
    intros env' Henv'. eapply ensures_weaken; [by apply Hop|]. done. }
  intros b (Hb & _). apply ensures_Val. exact (scoped_quantified ctx b Hb).
Qed.

Lemma scoped_goals ctx gs : scoped ctx gs → scoped ctx (GAll gs).
Proof. simpl. by rewrite leaves_ok_bind. Qed.

Lemma lower_LeafGoal_ok env ctx l : env_ok env ctx → ensures (lower_LeafGoal l env) (λ g, scoped ctx g).
Proof.
  intros Henv. destruct l as [dg|a b|a b]; cbn [lower_LeafGoal].
  - eapply ensures_bind; [by apply lower_DomainGoal_ok|]. intros gs Hgs. apply ensures_Val.
    assert (scoped ctx (fmap (M := list) GDomainGoal gs)) as Hs by by apply scoped_fmap.
    unfold goal_all. destruct (fmap _ gs) as [|g [|g' gs']]; [done| |by apply scoped_goals].
    by apply andb_true_iff in Hs as [? _].
  - eapply ensures_bind; [by apply lower_arg_ok|]. intros a' Ha. eapply ensures_bind; [by apply lower_arg_ok|].
    intros b' Hb. apply ensures_Val. simpl in *. by rewrite forallb_app, Ha.
  - eapply ensures_bind; [by apply lower_ty_ok|]. intros a' Ha. eapply ensures_bind; [by apply lower_ty_ok|].
    intros b' Hb. apply ensures_Val. simpl in *. by rewrite forallb_app, Ha.
Qed.

Lemma clauses_leaves ctx cs :
  Forall (λ c, clause_scoped ctx c = true) cs → leaves_ok 0 ctx (cs ≫= λ c, leaves_clause c 0) = true.
Proof.
  intros Hcs. rewrite leaves_ok_bind. apply forallb_forall. intros c Hc%list_elem_of_In.
  apply clause_scoped_leaves. by eapply Forall_forall in Hcs.
Qed.

Lemma Forall_concat {A} (P : A → Prop) (l : list (list A)) : Forall (Forall P) l → Forall P (concat l).
Proof. induction 1; [done|]. by apply Forall_app. Qed.

Lemma lower_Goal_ok g : goal_scopes g.
Proof.
  apply ast_goal. split; clear g.
  - intros ids g IH env ctx Henv. by apply lower_quantified_ok.
  - intros ids g IH env ctx Henv. by apply lower_quantified_ok.
  - intros hyp g Hhyp IH env ctx Henv. cbn [lower_Goal]. eapply ensures_bind.
    { apply ensures_mapM with (Q := Forall (λ c, clause_scoped ctx c = true)).
      eapply Forall_impl; [exact Hhyp|]. intros c Hc. by apply lower_clause_with_ok. }
    intros cs Hcs%Forall_concat. eapply ensures_bind; [by apply IH|]. intros g' Hg. apply ensures_Val.
    simpl. rewrite forallb_app. apply andb_true_iff. split; [|exact Hg].
    apply clauses_leaves, Forall_fmap. eapply Forall_impl; [exact Hcs|]. intros c. apply into_from_env_clause_scoped.
  - intros g1 gs IH1 IH env ctx Henv. cbn [lower_Goal]. eapply ensures_bind; [by apply IH1|]. intros g1' Hg1.
    eapply ensures_bind.
    { apply ensures_mapM with (Q := λ g, scoped ctx g). eapply Forall_impl; [exact IH|]. intros g Hg. by apply Hg. }
    intros gs' Hgs%Forall_scoped. apply ensures_Val. by apply scoped_goals, scoped_cons.
  - intros g IH env ctx Henv. eapply ensures_fmap; [by apply IH|]. done.
  - intros g IH env ctx Henv. cbn [lower_Goal]. eapply ensures_bind; [by apply IH|]. intros g' Hg.
    apply ensures_unwrap_result. by apply compatible_scoped.
  - intros leaf env ctx Henv. by apply lower_LeafGoal_ok.
Qed.

Lemma lower_Clause_ok env ctx c :
  env_ok env ctx → ensures (lower_Clause c env) (Forall (λ c, clause_scoped ctx c = true)).
Proof. intros Henv. apply lower_clause_with_ok; [done|]. by apply Forall_true, lower_Goal_ok. Qed.
End Scopes.
