(* ===== verification/LoweringItems.v ===== *)
(** * The items of a program lower to well-kinded declarations

    What each item becomes, and that its terms are in scope.  [inserted] gives the
    insertions into the maps of the program that an item makes.  The last part is about
    identifiers: every item and every associated type gets one of its own, and what the
    first two passes record about them comes from the items. *)

From stdpp Require Import base list numbers gmap strings.
From S2P Require Import Prelude Ast Ir Fold FoldLaws Shift ShiftThm IrCountable RustIr RecSolve Builder SuperTraits ProgramClauses Coherence Scoped BuilderScopes DeclScopes SuperTraitsThm LowerEnv Lowering Program ProgramLowerer LoweringScopes.

Section Items.
Context (db : RustIrDatabase) (traits : gset TraitId) (env : Env) (Henv : env_ok db traits env []).

Abbreviation qwcs_name_traits wcs :=
  (forallb (λ qwc : QuantifiedWhereClause, bound_names db traits qwc.(value)) wcs = true).

Definition declared_kinds (ks : list Ast.VariableKind) : VariableKinds := kind <$> all_parameters None ks.
Definition trait_parameters (ks : list Ast.VariableKind) : VariableKinds :=
  kind <$> all_parameters trait_synthetic_parameters ks.

Lemma declared_kinds_ok ks : kinds_ok (declared_kinds ks) = true.
Proof. by apply all_parameters_ground. Qed.
Lemma trait_parameters_ok ks : kinds_ok (trait_parameters ks) = true.
Proof. by apply all_parameters_ground. Qed.

Lemma lower_AdtDefn_ok d id :
  ensures (lower_AdtDefn d id env) (λ a,
    scoped [] (binders_map adt_where_clauses a.(adt_binders)) ∧
    a.(adt_binders).(binders) = declared_kinds d.(adt_variable_kinds) ∧
    Forall (λ v, scoped [a.(adt_binders).(binders)] v.(fields)) a.(adt_binders).(value).(variants) ∧
    a.(adt_flags).(adt_fundamental) = d.(Ast.adt_flags).(flag_fundamental)).
Proof.
  step. set (ks := declared_kinds d.(adt_variable_kinds)). eapply ensures_bind.
  - apply (in_binders_ok db traits env [] _ _ (λ b, scoped [ks] b.(adt_where_clauses) ∧
      Forall (λ v, scoped [ks] v.(fields)) b.(variants)) Henv (declared_kinds_ok _)).
    intros env' Henv'. eapply ensures_bind with (P := Forall (λ v, scoped [ks] v.(fields))).
    + apply ensures_mapM_all. intros v. eapply ensures_fmap; [by eapply lower_tys_ok|]. done.
    + intros vs Hvs. eapply ensures_bind; [by apply lower_where_clauses_ok|]. intros wcs [Hw _]. by apply ensures_Val.
  - intros [ks' [vs wcs]] [Hk [Hw Hvs]]. cbn [binders value] in *. subst ks'. apply ensures_Val. split_and!; try done.
    apply andb_true_iff. split; [apply declared_kinds_ok|exact Hw].
Qed.

Lemma lower_inputs_and_output_ok ctx env' args ret :
  env_ok db traits env' ctx →
  ensures (lower_inputs_and_output args ret env') (λ io, scoped ctx io.(argument_types) ∧ scoped ctx io.(return_type)).
Proof.
  intros Henv' io. unfold lower_inputs_and_output.
  destruct (lower_tys args env') as [tys|e|p|] eqn:Hargs; simpl; try done.
  - pose proof (lower_tys_ok db traits env' ctx args Henv' _ Hargs) as Hs. revert io.
    eapply ensures_bind; [by eapply lower_ty_ok|]. intros t Ht. by apply ensures_Val.
  - destruct (lower_ty ret env'); simpl; done.
Qed.

Lemma lower_FnDefn_ok d id :
  ensures (lower_FnDefn d id env) (λ f,
    fn_ok f = true ∧
    let io := f.(fn_binders).(value).(inputs_and_output) in
    let ctx := [io.(binders); f.(fn_binders).(binders)] in
    scoped ctx io.(value).(argument_types) ∧ scoped ctx io.(value).(return_type)).
Proof.
  set (ks := declared_kinds d.(fn_variable_kinds)). eapply ensures_bind.
  - apply (in_binders_ok db traits env [] _ _ (λ b, scoped [ks] b.(fn_where_clauses) ∧
      let io := b.(inputs_and_output) in
      scoped [io.(binders); ks] io.(value).(argument_types) ∧ scoped [io.(binders); ks] io.(value).(return_type))
      Henv (declared_kinds_ok _)).
    intros env' Henv'. eapply ensures_bind; [by apply lower_where_clauses_ok|]. intros wcs [Hw _].
    eapply ensures_bind.
    + apply (in_binders_ok db traits env' [ks] [] _ (λ io, scoped [[]; ks] io.(argument_types) ∧ scoped [[]; ks] io.(return_type)) Henv' eq_refl).
      intros env'' Henv''. by apply lower_inputs_and_output_ok.
    + intros [ks' io] [Hk Hio]. cbn [binders value] in *. subst ks'. by apply ensures_Val.
  - intros [ks' [io wcs]] [Hk [Hw Hio]]. cbn [binders value] in *. subst ks'. step. apply ensures_Val. split; [|exact Hio].
    apply andb_true_iff. split; [apply declared_kinds_ok|exact Hw].
Qed.

Lemma lower_TraitDefn_ok d id :
  ensures (lower_TraitDefn d id env) (λ t,
    t.(trait_datum_id) = id ∧
    t.(trait_binders).(binders) = trait_parameters d.(trait_variable_kinds) ∧
    trait_ok t = true ∧ qwcs_name_traits t.(trait_binders).(value).(trait_bound_where_clauses) ∧
    t.(trait_flags).(auto) = d.(Ast.trait_flags).(tf_auto)).
Proof.
  set (ks := trait_parameters d.(trait_variable_kinds)). eapply ensures_bind.
  - apply (in_binders_ok db traits env [] _ _ (λ b, scoped [ks] b.(trait_bound_where_clauses) ∧
      qwcs_name_traits b.(trait_bound_where_clauses)) Henv (trait_parameters_ok _)).
    intros env' Henv'. do 2 step. eapply ensures_bind; [by apply lower_where_clauses_ok|]. intros wcs Hw. by apply ensures_Val.
  - intros [ks' [wcs]] [Hk [Hw Hn]]. cbn [binders value] in *. subst ks'. step. apply ensures_Val. split_and!; try done.
    apply andb_true_iff. split; [apply trait_parameters_ok|exact Hw].
Qed.

(** The parameters of an associated type: its own and those of the trait. *)
Definition assoc_parameters (d : Ast.TraitDefn) (a : Ast.AssocTyDefn) : VariableKinds :=
  kind <$> (all_parameters None a.(assoc_variable_kinds)
            ++ all_parameters trait_synthetic_parameters d.(trait_variable_kinds)).

Lemma assoc_parameters_eq d a :
  assoc_parameters d a = declared_kinds a.(assoc_variable_kinds) ++ trait_parameters d.(trait_variable_kinds).
Proof. apply fmap_app. Qed.

Lemma lower_Impl_ok d id vs :
  ensures (lower_Impl d id vs env) (λ i,
    impl_ok i = true ∧
    i.(impl_binders).(binders) = declared_kinds d.(impl_variable_kinds) ∧
    bound_names db traits (WcImplemented i.(impl_binders).(value).(impl_trait_ref)) = true).
Proof.
  set (ks := declared_kinds d.(impl_variable_kinds)). eapply ensures_bind.
  - apply (in_binders_ok db traits env [] _ _ (λ b, scoped [ks] b ∧
      bound_names db traits (WcImplemented b.(impl_trait_ref)) = true) Henv (declared_kinds_ok _)).
    intros env' Henv'. eapply ensures_bind; [by apply lower_trait_ref_scopes|]. intros tr [Htr Hn]. step.
    eapply ensures_bind; [by apply lower_where_clauses_ok|]. intros wcs [Hw _]. apply ensures_Val.
    split; [|done]. by apply andb_true_iff.
  - intros [ks' b] [Hk [Hb Hn]]. cbn [binders value] in *. subst ks'. step. apply ensures_Val. split_and!; try done.
    apply andb_true_iff. split; [apply declared_kinds_ok|exact Hb].
Qed.

Lemma bounds_scoped ctx (bs : list QuantifiedInlineBound) : Forall (quantified_bound_ok db traits ctx) bs → scoped ctx bs.
Proof. intros Hbs. apply Forall_scoped. eapply Forall_impl; [exact Hbs|]. by intros b [? _]. Qed.

Lemma lower_opaque_bound_ok d ks env' :
  env_ok db traits env' [ks] →
  ensures (lower_opaque_bound d env') (λ r,
    scoped [ks] r.1 ∧ scoped [ks] r.2 ∧ r.2.(opaque_bounds).(binders) = [VkTy General] ∧
    qwcs_name_traits r.2.(opaque_bounds).(value)).
Proof.
  intros Henv'. eapply ensures_bind; [by eapply lower_ty_ok|]. intros t Ht.
  eapply ensures_bind; [apply (in_binders_scoped db traits env' [ks] self_parameter _
    (λ wcs, qwcs_name_traits wcs) Henv' eq_refl)|].
  { intros env'' Henv''. eapply ensures_bind; [by eapply lower_bounds_scopes|]. intros bs Hbs.
    exact (bounds_on_self_ty_ok db traits [] [ks] bs Hbs). }
  intros bs (Hbs & Hbk & Hbn). eapply ensures_bind; [apply (in_binders_scoped db traits env' [ks] self_parameter _
    (λ wcs, qwcs_name_traits wcs) Henv' eq_refl)|].
  { intros env'' Henv''. by apply lower_where_clauses_ok. }
  intros wcs (Hw & _ & _). apply ensures_Val. split_and!; try done. by apply andb_true_iff.
Qed.
End Items.

(** ** The insertions of an item *)

Lemma mapM_elem_of {E A B} (f : A → outcome E B) l k y :
  mapM f l = Val k → y ∈ k → ∃ x, x ∈ l ∧ f x = Val y.
Proof.
  revert k. induction l as [|x l IH]; intros k Hk Hy; simpl in Hk.
  - injection Hk as <-. by apply not_elem_of_nil in Hy.
  - apply bind_Val in Hk as (z & Hz & Hk). apply bind_Val in Hk as (k' & Hk' & [= <-]).
    apply elem_of_cons in Hy as [->|Hy]; [exists x; split; [by left|done]|].
    destruct (IH _ Hk' Hy) as (x' & ? & ?). exists x'. split; [by right|done].
Qed.

Lemma mapM_elem_of_2 {E A B} (f : A → outcome E B) l k x :
  mapM f l = Val k → x ∈ l → ∃ y, y ∈ k ∧ f x = Val y.
Proof.
  revert k. induction l as [|z l IH]; intros k Hk Hx; simpl in Hk; [by apply not_elem_of_nil in Hx|].
  apply bind_Val in Hk as (y & Hy & Hk). apply bind_Val in Hk as (k' & Hk' & [= <-]).
  apply elem_of_cons in Hx as [->|Hx]; [exists y; split; [by left|done]|].
  destruct (IH _ Hk' Hx) as (y' & ? & ?). exists y'. split; [by right|done].
Qed.

Section Inserted.
Context (self : ProgramLowerer).
Abbreviation env := (empty_env self).

(** Where an insertion into the maps of the declarations comes from. *)
Definition inserted (e : Ast.Item * N) (i : Insertion) : Prop :=
  match i with
  | InAdtData id datum => ∃ d, e = (ItAdtDefn d, id) ∧ lower_AdtDefn d id env = Val datum
  | InFnDefData id datum => ∃ d, e = (ItFnDefn d, id) ∧ lower_FnDefn d id env = Val datum
  | InTraitData id datum => ∃ d, e = (ItTraitDefn d, id) ∧ lower_TraitDefn d id env = Val datum
  | InAssociatedTyData _ _ =>
      ∃ d raw a, e = (ItTraitDefn d, raw) ∧ a ∈ d.(assoc_ty_defns) ∧ lower_assoc_item self d raw a = Val i
  | InImplData id datum =>
      ∃ d, e = (ItImpl d, id) ∧ lower_Impl d id self.(pl_associated_ty_value_ids) env = Val datum
  | InAssociatedTyValue _ _ =>
      ∃ d raw a datum, e = (ItImpl d, raw) ∧ a ∈ d.(impl_assoc_ty_values) ∧
        lower_Impl d raw self.(pl_associated_ty_value_ids) env = Val datum ∧
        lower_atv_item self d raw (impl_trait_id datum) a = Val i
  | InCustomClauses cs => ∃ c raw, e = (ItClause c, raw) ∧ lower_Clause c env = Val cs
  | InHiddenOpaqueType _ _ | InOpaqueTyData _ _ => ∃ d raw, e = (ItOpaqueTyDefn d, raw)
  | _ => True
  end.

Lemma lower_item_inserted e ins i : lower_item self e = Val ins → i ∈ ins → inserted e i.
Proof.
  destruct e as [item raw]. destruct item as [d|d|d|d|d|d|d|c|f]; cbn [lower_item]; intros Hins.
  - apply bind_Val in Hins as (a & Ha & Hins). inv_outcome Hins. subst. set_unfold. intros [->|[->|[->|[]]]]; simpl; eauto.
  - apply bind_Val in Hins as (a & Ha & Hins). inv_outcome Hins. subst. set_unfold. intros [->|[->|[]]]; simpl; eauto.
  - apply bind_Val in Hins as ([k io] & Ha & Hins). inv_outcome Hins. subst. set_unfold. intros [->|[->|[->|[]]]]; done.
  - apply bind_Val in Hins as (t & Ht & Hins). apply bind_Val in Hins as (assocs & Hassocs & [= <-]).
    intros [Hi|[->|Hi]%elem_of_cons]%elem_of_app; [|simpl; eauto|].
    + destruct (well_known t); [by apply list_elem_of_singleton in Hi as ->|by apply not_elem_of_nil in Hi].
    + destruct (mapM_elem_of _ _ _ _ Hassocs Hi) as (a & Ha & Hl). assert (Hl' := Hl).
      unfold lower_assoc_item in Hl'. inv_outcome Hl'. subst i. simpl. eauto 6.
  - unfold lower_opaque_item in Hins. case_match; [|by injection Hins as <-; intros ?%not_elem_of_nil].
    apply bind_Val in Hins as (b & _ & [= <-]). set_unfold. intros [->|[->|[]]]; simpl; eauto.
  - unfold lower_generator_item in Hins. inv_outcome Hins. subst. set_unfold. intros [->|[->|[]]]; done.
  - apply bind_Val in Hins as (t & Ht & Hins). apply bind_Val in Hins as (atvs & Hatvs & [= <-]).
    intros [->|Hi]%elem_of_cons; [simpl; eauto|].
    destruct (mapM_elem_of _ _ _ _ Hatvs Hi) as (a & Ha & Hl). assert (Hl' := Hl).
    unfold lower_atv_item in Hl'. inv_outcome Hl'. subst i. simpl. eauto 8.
  - apply bind_Val in Hins as (cs & Hcs & [= <-]). intros ->%list_elem_of_singleton. simpl. eauto.
  - injection Hins as <-. by intros ?%not_elem_of_nil.
Qed.
End Inserted.

(** ** Associated types and opaque types *)

Section Associated.
Context (db : RustIrDatabase) (traits : gset TraitId) (self : ProgramLowerer).
Context (Henv : env_ok db traits (empty_env self) []).

Lemma lower_assoc_item_ok d id a :
  ensures (lower_assoc_item self d id a) (λ i, ∃ lookup datum,
    i = InAssociatedTyData lookup.(lookup_id) datum ∧
    self.(pl_associated_ty_lookups) !! (id, a.(Ast.assoc_name).(str)) = Some lookup ∧
    datum.(assoc_trait_id) = id ∧ datum.(assoc_id) = lookup.(lookup_id) ∧
    datum.(assoc_binders).(binders) = assoc_parameters d a ∧ scoped [] datum.(assoc_binders)).
Proof.
  intros i (lookup & Hl%unwrap_Val & Hi)%bind_Val. apply bind_Val in Hi as (b & Hb & [= <-]).
  eexists lookup, _. split_and!; [done..| |]; simpl.
  - unfold in_binders in Hb. inv_outcome Hb. by subst b.
  - revert b Hb. eapply ensures_weaken.
    + apply (in_binders_ok db traits _ [] _ _ (λ b, scoped [assoc_parameters d a] b) Henv).
      { change (kinds_ok (assoc_parameters d a) = true). rewrite assoc_parameters_eq, kinds_ok_app, declared_kinds_ok.
        apply trait_parameters_ok. }
      intros env' Henv'. eapply ensures_bind; [by eapply lower_bounds_scopes|]. intros bs Hbs%bounds_scoped.
      eapply ensures_bind; [by apply lower_where_clauses_ok|]. intros wcs [Hw _]. apply ensures_Val. by apply andb_true_iff.
    + intros [ks b] [Hk Hb]. simpl in Hk. subst ks. apply andb_true_iff. split; [|exact Hb].
      change (kinds_ok (assoc_parameters d a) = true). rewrite assoc_parameters_eq, kinds_ok_app, declared_kinds_ok.
      apply trait_parameters_ok.
Qed.

(** The parameters of the value of an associated type: its own and those of the impl. *)
Definition atv_parameters (d : Ast.Impl) (a : Ast.AssocTyValue) : VariableKinds :=
  declared_kinds a.(atv_variable_kinds) ++ declared_kinds d.(impl_variable_kinds).

Lemma lower_atv_item_ok d id trait_id a :
  ensures (lower_atv_item self d id trait_id a) (λ i, ∃ atv_id lookup v,
    i = InAssociatedTyValue atv_id v ∧
    self.(pl_associated_ty_lookups) !! (trait_id, a.(atv_name).(str)) = Some lookup ∧
    v.(atv_impl_id) = id ∧ v.(atv_associated_ty_id) = lookup.(lookup_id) ∧
    v.(atv_value).(binders) = atv_parameters d a ∧ scoped [] v.(atv_value)).
Proof.
  intros i (atv_id & _ & Hi)%bind_Val. apply bind_Val in Hi as (lookup & Hl%unwrap_Val & Hi).
  apply bind_Val in Hi as (b & Hb & [= <-]). exists atv_id, lookup. eexists.
  assert (kind <$> (all_parameters None a.(atv_variable_kinds) ++ all_parameters None d.(impl_variable_kinds))
    = atv_parameters d a) as Hks by apply fmap_app.
  assert (kinds_ok (atv_parameters d a) = true) as Hok.
  { unfold atv_parameters. rewrite kinds_ok_app. by rewrite !declared_kinds_ok. }
  rewrite <- Hks in Hok.
  split_and!; [done..| |]; simpl.
  - unfold in_binders in Hb. inv_outcome Hb. subst b. exact Hks.
  - revert b Hb. eapply ensures_weaken.
    + apply (in_binders_ok db traits _ [] _ _ (λ b, scoped [kind <$> (all_parameters None a.(atv_variable_kinds)
        ++ all_parameters None d.(impl_variable_kinds))] b) Henv Hok).
      intros env' Henv'. eapply ensures_fmap; [by eapply lower_ty_ok|]. done.
    + intros [ks b] [Hk Hb]. simpl in Hk. subst ks. by apply andb_true_iff.
Qed.

Definition hidden_type_fits (ty : Ty) (o : OpaqueTyDatum) : bool :=
  let bs := o.(opaque_bound).(value).(opaque_bounds) in
  scopedb [] o.(opaque_bound) && scopedb [o.(opaque_bound).(binders)] ty
  && all2 arg_kind_ok bs.(binders) [ArgTy TyNever]
  && forallb (λ qwc : QuantifiedWhereClause, bound_names db traits qwc.(value)) bs.(value).

(** An opaque type comes with its hidden type. *)
Lemma lower_opaque_item_ok d :
  ensures (lower_opaque_item self d) (λ ins, ins = [] ∨ ∃ id ty o,
    ins = [InHiddenOpaqueType id ty; InOpaqueTyData id o] ∧ o.(opaque_ty_id) = id ∧ hidden_type_fits ty o = true).
Proof.
  unfold lower_opaque_item. case_match; [|by apply ensures_Val; left].
  set (ks := kind <$> lower_variable_kinds d.(opaque_variable_kinds)).
  assert (kinds_ok ks = true) as Hks by apply lower_variable_kinds_ground.
  eapply ensures_bind.
  { eapply (in_binders_ok db traits _ [] _ _ _ Henv Hks). intros env' Henv'. by apply lower_opaque_bound_ok. }
  intros [ks' [ty b]] [Hk (Ht & Hb & Hbk & Hn)]. cbn [binders value fst snd] in *. subst ks'. apply ensures_Val. right.
  do 3 eexists. split_and!; [reflexivity|done|]. unfold hidden_type_fits. cbn [binders_map opaque_bound binders value snd].
  rewrite Hbk, !andb_true_iff. split_and!; try done. apply andb_true_iff. by split.
Qed.
End Associated.

(** * The identifiers that lowering gives

    A map of the program holds what the last insertion of a key put there. *)

(** ** Insertions *)

Lemma lookup_foldl_insert_is_Some {K V} `{Countable K} (l : list (K * V)) (m : gmap K V) k :
  is_Some (m !! k) ∨ k ∈ l.*1 → is_Some (foldl (λ m '(k, v), <[k := v]> m) m l !! k).
Proof.
  revert m. induction l as [|[k' v'] l IH]; intros m; simpl; [by intros [?|?%not_elem_of_nil]|]. intros Hk. apply IH.
  destruct (decide (k' = k)) as [->|]; [left; by rewrite lookup_insert_eq|]. rewrite lookup_insert_ne by done.
  destruct Hk as [?|[->|?]%elem_of_cons]; [by left|done|by right].
Qed.

Section InsertAll.
Context {K V : Type} `{Countable K} (pick : Insertion → option (K * V)).

Lemma insert_all_inv ins k v : insert_all pick ins !! k = Some v → ∃ i, i ∈ ins ∧ pick i = Some (k, v).
Proof.
  unfold insert_all. intros [Hin|?]%lookup_foldl_insert; [|by simplify_map_eq].
  apply list_elem_of_omap in Hin as (i & ? & ?). by exists i.
Qed.

Lemma insert_all_is_Some ins i k v : i ∈ ins → pick i = Some (k, v) → is_Some (insert_all pick ins !! k).
Proof.
  intros Hi Hp. apply lookup_foldl_insert_is_Some. right. apply list_elem_of_fmap. exists (k, v).
  split; [done|]. apply list_elem_of_omap. by exists i.
Qed.

Lemma insert_all_app ins ins' :
  insert_all pick (ins ++ ins') = foldl (λ m '(k, v), <[k := v]> m) (insert_all pick ins) (omap pick ins').
Proof. unfold insert_all. by rewrite omap_app, foldl_app. Qed.
End InsertAll.

(** ** The passes over the items *)

Lemma for_each_item_inv {A} (P : ProgramLowerer → Prop) (f : ProgramLowerer → A → LowerResult ProgramLowerer) l self :
  (∀ x self, x ∈ l → P self → ensures (f self x) P) → P self → ensures (for_each_item f self l) P.
Proof.
  revert self. induction l as [|x l IH]; intros self Hf Hself; [by apply ensures_Val|]. simpl.
  eapply ensures_bind; [apply Hf; [by left|done]|]. intros self' Hself'. apply IH; [|done].
  intros y self'' Hy. apply Hf. by right.
Qed.

(** A new identifier; nothing else changes. *)
Lemma next_item_id_ok self :
  ensures (next_item_id self) (λ r, r.1 = self.(next_item_index) ∧ r.2.(next_item_index) = (r.1 + 1)%N ∧
    r.2.(pl_trait_kinds) = self.(pl_trait_kinds) ∧
    r.2.(pl_associated_ty_lookups) = self.(pl_associated_ty_lookups)).
Proof. unfold next_item_id. destruct self; simpl. case_match; [by apply ensures_Val|done]. Qed.

Lemma item_ids_ok self items :
  ensures (item_ids self items) (λ r, NoDup r.1 ∧ length r.1 = length items ∧
    Forall (λ i, self.(next_item_index) ≤ i)%N r.1 ∧
    r.2.(pl_trait_kinds) = self.(pl_trait_kinds) ∧
    r.2.(pl_associated_ty_lookups) = self.(pl_associated_ty_lookups)).
Proof.
  revert self. induction items as [|x items IH]; intros self; simpl.
  - apply ensures_Val. split_and!; try done; constructor.
  - eapply ensures_bind; [apply next_item_id_ok|]. intros [i self1] (Hi & Hn & Ht & Hl). simpl in *.
    eapply ensures_bind; [apply IH|]. intros [ids self2] (Hnd & Hlen & Hge & Ht' & Hl'). simpl in *.
    apply ensures_Val. simpl. rewrite Hlen, Ht', Hl', Ht, Hl. split_and!; try done.
    + constructor; [|done]. intros Hin. eapply Forall_forall in Hge; [|exact Hin]. lia.
    + constructor; [lia|]. eapply Forall_impl; [exact Hge|]. simpl. lia.
Qed.

Section Passes.
Context (entries : list (Ast.Item * N)).

Record ids_ok (self : ProgramLowerer) : Prop := {
  ids_traits id k : self.(pl_trait_kinds) !! id = Some k →
    ∃ d, (ItTraitDefn d, id) ∈ entries ∧ k.(tk_binders).(binders) = declared_kinds d.(trait_variable_kinds);
  ids_lookups id name lookup : self.(pl_associated_ty_lookups) !! (id, name) = Some lookup →
    (lookup.(lookup_id) < self.(next_item_index))%N ∧
    ∃ d a, (ItTraitDefn d, id) ∈ entries ∧ a ∈ d.(assoc_ty_defns) ∧ a.(Ast.assoc_name).(str) = name;
  ids_lookups_inj key key' lookup lookup' :
    self.(pl_associated_ty_lookups) !! key = Some lookup → self.(pl_associated_ty_lookups) !! key' = Some lookup' →
    lookup.(lookup_id) = lookup'.(lookup_id) → key = key'
}.

(** [ids_ok] looks at two maps and at the next identifier, which may grow. *)
Lemma ids_ok_same self self' :
  ids_ok self → self'.(pl_trait_kinds) = self.(pl_trait_kinds) →
  self'.(pl_associated_ty_lookups) = self.(pl_associated_ty_lookups) →
  (self.(next_item_index) ≤ self'.(next_item_index))%N → ids_ok self'.
Proof.
  intros [Ht Hl Hi] Ht' Hl' Hn. split; rewrite ?Ht', ?Hl'; [done| |done].
  intros id name lookup [? ?]%Hl. split; [lia|done].
Qed.

Lemma extract_associated_ty_ok d id a self :
  (ItTraitDefn d, id) ∈ entries → a ∈ d.(assoc_ty_defns) → ids_ok self →
  ensures (extract_associated_ty id self a) ids_ok.
Proof.
  intros Hd Ha Hok. eapply ensures_bind; [apply next_item_id_ok|]. intros [i self1] (Hi & Hn & Ht & Hl). simpl in *.
  apply ensures_Val. destruct self1. simpl in *. subst. split; simpl; [apply Hok|..].
  - intros t name lookup [[[= <- <-] <-]|[_ Hk]]%lookup_insert_Some; simpl; [split; [lia|]; eauto|].
    apply (ids_lookups _ Hok) in Hk as [? ?]. split; [lia|done].
  - intros [t n] [t' n'] lookup lookup' [[[= <- <-] <-]|[_ Hk]]%lookup_insert_Some [[[= <- <-] <-]|[_ Hk']]%lookup_insert_Some;
      simpl; intros Heq; try done.
    + apply (ids_lookups _ Hok) in Hk' as [? ?]. lia.
    + apply (ids_lookups _ Hok) in Hk as [? ?]. lia.
    + by eapply (ids_lookups_inj _ Hok).
Qed.

Lemma extract_associated_ty_value_ok id self a :
  ids_ok self → ensures (extract_associated_ty_value id self a) ids_ok.
Proof.
  intros Hok. eapply ensures_bind; [apply next_item_id_ok|]. intros [i self1] (Hi & Hn & Ht & Hl). simpl in *.
  apply ensures_Val. destruct self1. simpl in *. subst. eapply ids_ok_same; [exact Hok|done..|]. simpl. lia.
Qed.

Lemma extract_associated_types_of_ok self e :
  e ∈ entries → ids_ok self → ensures (extract_associated_types_of self e) ids_ok.
Proof.
  intros He Hok. destruct e as [[d|d|d|d|d|d|d|c|f] id]; simpl; try by apply ensures_Val.
  - step. apply for_each_item_inv; [|done]. intros assoc self' Ha Hok'. by eapply extract_associated_ty_ok.
  - apply for_each_item_inv; [|done]. intros a self' _ Hok'. by apply extract_associated_ty_value_ok.
Qed.

Lemma extract_ids_of_ok self e : e ∈ entries → ids_ok self → ensures (extract_ids_of self e) ids_ok.
Proof.
  intros He Hok. destruct e as [[d|d|d|d|d|d|d|c|f] id]; simpl; apply ensures_Val; [..|done|done|];
    destruct self; simpl; try (by eapply ids_ok_same; [exact Hok|..]).
  split; simpl; [|apply Hok..].
  intros id' k' [[<- <-]|[_ Hk]]%lookup_insert_Some; [by exists d|by apply (ids_traits _ Hok)].
Qed.
End Passes.
