(* ===== verification/LoweringThm.v ===== *)
(** * Programs that lower are well kinded

    The contract between lowering and the translation to clauses: the declarations of a
    program that lowers without an error are those that [declaration_clauses_well_kinded]
    asks for. *)

From stdpp Require Import base list numbers gmap strings.
From S2P Require Import Prelude Ast Ir IrCountable Fold FoldLaws Shift ShiftThm RustIr RecSolve Builder Coherence SuperTraits ProgramClauses Scoped BuilderScopes DeclScopes Programs SuperTraitsThm DeclThm LowerEnv Lowering Program ProgramLowerer LoweringScopes LoweringItems.
Import Ast.Samples.

Lemma elem_of_concat {A} (x : A) ls : x ∈ concat ls ↔ ∃ l, x ∈ l ∧ l ∈ ls.
Proof. rewrite list_elem_of_In, in_concat. setoid_rewrite list_elem_of_In. naive_solver. Qed.

(** ** The declarations of a program *)

Definition program_declarations (p : Program.Program) : list Declaration :=
  (DeclImpl <$> btree_values p.(impl_data))
  ++ (DeclAssociatedTyValue <$> btree_values p.(associated_ty_values))
  ++ (DeclOpaqueTy <$> btree_values p.(prog_opaque_ty_data))
  ++ (DeclAdt <$> btree_values p.(adt_data))
  ++ (DeclFnDef <$> btree_values p.(fn_def_data))
  ++ (DeclTrait <$> btree_values p.(trait_data))
  ++ (DeclAssociatedTy <$> btree_values p.(prog_associated_ty_data)).

(** The own parameters of the value of an associated type have the kinds of those of the
    associated type. *)
Definition own_parameters_fit (db : RustIrDatabase) (v : AssociatedTyValue) : bool :=
  let assoc := db.(associated_ty_data) v.(atv_associated_ty_id) in
  let trait_ks := (db.(trait_datum) assoc.(assoc_trait_id)).(trait_binders).(binders) in
  let impl_ks := (db.(impl_datum) v.(atv_impl_id)).(impl_binders).(binders) in
  let own ks n := take (length ks - n) ks in
  all2 arg_kind_ok (own assoc.(assoc_binders).(binders) (length trait_ks))
    (take (length v.(atv_value).(binders) - length impl_ks) (ident v.(atv_value).(binders))).

(** What lowering leaves unchecked. *)
Definition unchecked_ok (db : RustIrDatabase) (d : Declaration) : bool :=
  match d with
  | DeclAdt a => negb a.(adt_flags).(adt_fundamental) || existsb is_ty_kind a.(adt_binders).(binders)
  | DeclAssociatedTyValue v => own_parameters_fit db v
  | _ => true
  end.

Lemma all2_identity (f : nat → BoundVar) ks :
  all2 arg_kind_ok ks (imap (λ i k, to_bound_variable k (f i)) ks) = true.
Proof.
  revert f. induction ks as [|k ks IH]; intros f; [done|]. simpl. apply andb_true_iff.
  split; [by destruct k|]. exact (IH (f ∘ S)).
Qed.

Lemma ident_app_drop own ks : all2 arg_kind_ok ks (drop (length own) (ident (own ++ ks))) = true.
Proof. unfold ident. rewrite imap_app, drop_app_length' by by rewrite length_imap. apply all2_identity. Qed.

(** ** What lowering a program does *)

Record lowering (prog : Ast.Program) (p : Program.Program) (entries : list (Ast.Item * N))
    (self : ProgramLowerer) (inss : list (list Insertion)) : Prop := {
  lw_entries : entries.*1 = prog.(items);
  lw_NoDup : NoDup entries.*2;
  lw_ids : ids_ok entries self;
  lw_items : mapM (lower_item self) entries = Val inss;
  lw_program : p = lowered_program self (concat inss)
}.

Lemma lower_Program_lowering prog p : lower_Program prog = Val p → ∃ entries self inss, lowering prog p entries self inss.
Proof.
  unfold lower_Program. intros ([ids l0] & Hids & Hp)%bind_Val.
  apply bind_Val in Hp as (l1 & Hl1 & Hp). apply bind_Val in Hp as (l2 & Hl2 & Hp).
  apply bind_Val in Hp as (inss & Hinss & [= <-]).
  destruct (item_ids_ok _ _ _ Hids) as (Hnd & Hlen & _ & Ht & Hl). simpl in *.
  set (entries := zip (items prog) ids). assert (entries.*2 = ids) as He2 by (apply snd_zip; lia).
  assert (ids_ok entries l0) as H0.
  { split; rewrite ?Ht, ?Hl; intros; simplify_map_eq. }
  assert (ids_ok entries l1) as H1.
  { revert l1 Hl1 Hl2. intros l1 Hl1 _. revert l1 Hl1. apply for_each_item_inv; [|done]. intros. by apply extract_associated_types_of_ok. }
  assert (ids_ok entries l2) as H2.
  { revert l2 Hl2 Hinss. intros l2 Hl2 _. revert l2 Hl2. apply for_each_item_inv; [|done]. intros. by apply extract_ids_of_ok. }
  exists entries, l2, inss. split; [by apply fst_zip; lia|by rewrite He2|done..].
Qed.

Section Lowered.
Context (prog : Ast.Program) (p : Program.Program) (entries : list (Ast.Item * N))
  (self : ProgramLowerer) (inss : list (list Insertion)) (Hlow : lowering prog p entries self inss).
Context (missing : RustIrDatabase) (fuel : nat) (hash_order : list ProgramClause → list ProgramClause).

Abbreviation env := (empty_env self).
Abbreviation db := (program_rust_ir missing fuel p hash_order).
Abbreviation traits := (dom p.(trait_data)).

Lemma entries_inj x y i : (x, i) ∈ entries → (y, i) ∈ entries → x = y.
Proof.
  pose proof (lw_NoDup _ _ _ _ _ Hlow) as Hnd. intros [j Hj]%list_elem_of_lookup [k Hk]%list_elem_of_lookup.
  assert (j = k) as ->; [|congruence]. eapply NoDup_lookup; [exact Hnd|..]; by rewrite list_lookup_fmap, ?Hj, ?Hk.
Qed.

(** Every insertion comes from an item. *)
Lemma insertion_inserted i : i ∈ concat inss → ∃ e, e ∈ entries ∧ inserted self e i.
Proof.
  intros (ins & Hi & Hins)%elem_of_concat.
  destruct (mapM_elem_of _ _ _ _ (lw_items _ _ _ _ _ Hlow) Hins) as (e & He & Hl).
  exists e. split; [done|]. by eapply lower_item_inserted.
Qed.

Lemma entry_insertions e : e ∈ entries → ∃ ins, lower_item self e = Val ins ∧ ∀ i, i ∈ ins → i ∈ concat inss.
Proof.
  intros He. destruct (mapM_elem_of_2 _ _ _ _ (lw_items _ _ _ _ _ Hlow) He) as (ins & Hins & Hl).
  exists ins. split; [done|]. intros i Hi. apply elem_of_concat. eauto.
Qed.

(** What the maps of the program hold. *)
Lemma trait_data_inv id t :
  p.(trait_data) !! id = Some t → ∃ d, (ItTraitDefn d, id) ∈ entries ∧ lower_TraitDefn d id env = Val t.
Proof.
  rewrite (lw_program _ _ _ _ _ Hlow). intros (i & Hi & Hp)%insert_all_inv. destruct i; simplify_eq.
  destruct (insertion_inserted _ Hi) as (e & He & (d & -> & Hd)). eauto.
Qed.

Lemma trait_item d id : (ItTraitDefn d, id) ∈ entries → ∃ t, p.(trait_data) !! id = Some t ∧ lower_TraitDefn d id env = Val t.
Proof.
  intros Hd. destruct (entry_insertions _ Hd) as (ins & Hins & Hin). simpl in Hins.
  apply bind_Val in Hins as (t0 & Ht0 & Hins). apply bind_Val in Hins as (assocs & Hassocs & [= <-]).
  assert (is_Some (p.(trait_data) !! id)) as [t Ht].
  { rewrite (lw_program _ _ _ _ _ Hlow). eapply (insert_all_is_Some _ _ (InTraitData id t0)); [|done].
    apply Hin. apply elem_of_app. right. by left. }
  exists t. split; [done|]. apply trait_data_inv in Ht as (d' & Hd' & ?).
  pose proof (entries_inj _ _ _ Hd Hd') as [= ->]. done.
Qed.

Lemma impl_data_inv id i :
  p.(impl_data) !! id = Some i →
  ∃ d, (ItImpl d, id) ∈ entries ∧ lower_Impl d id self.(pl_associated_ty_value_ids) env = Val i.
Proof.
  rewrite (lw_program _ _ _ _ _ Hlow). intros (j & Hj & Hp)%insert_all_inv. destruct j; simplify_eq.
  destruct (insertion_inserted _ Hj) as (e & He & (d & -> & Hd)). eauto.
Qed.

Lemma impl_item d id :
  (ItImpl d, id) ∈ entries → ∃ i, p.(impl_data) !! id = Some i ∧
    lower_Impl d id self.(pl_associated_ty_value_ids) env = Val i.
Proof.
  intros Hd. destruct (entry_insertions _ Hd) as (ins & Hins & Hin). simpl in Hins.
  apply bind_Val in Hins as (i0 & Hi0 & Hins). apply bind_Val in Hins as (atvs & Hatvs & [= <-]).
  assert (is_Some (p.(impl_data) !! id)) as [i Hi].
  { rewrite (lw_program _ _ _ _ _ Hlow). eapply (insert_all_is_Some _ _ (InImplData id i0)); [|done].
    apply Hin. by left. }
  exists i. split; [done|]. apply impl_data_inv in Hi as (d' & Hd' & ?).
  pose proof (entries_inj _ _ _ Hd Hd') as [= ->]. done.
Qed.

Lemma trait_binders_of d id t :
  lower_TraitDefn d id env = Val t → t.(trait_binders).(binders) = trait_parameters d.(trait_variable_kinds).
Proof. intros Ht. unfold lower_TraitDefn, in_binders in Ht. inv_outcome Ht. by subst. Qed.

Lemma lowered_env_ok : env_ok db traits env [].
Proof.
  split; [intros; simplify_map_eq|]. intros id k Hk.
  destruct (ids_traits _ _ (lw_ids _ _ _ _ _ Hlow) _ _ Hk) as (d & Hd & Hks).
  destruct (trait_item d id Hd) as (t & Ht & Hl). split; [by apply elem_of_dom|].
  unfold parameters_of. simpl. unfold index_or. rewrite Ht. simpl.
  rewrite (trait_binders_of _ _ _ Hl), Hks. done.
Qed.

(** *** Traits *)

Lemma trait_data_ok id t :
  p.(trait_data) !! id = Some t →
  t.(trait_datum_id) = id ∧ trait_ok t = true ∧ head t.(trait_binders).(binders) = Some (VkTy General) ∧
  forallb (λ qwc : QuantifiedWhereClause, bound_names db traits qwc.(value))
    t.(trait_binders).(value).(trait_bound_where_clauses) = true.
Proof.
  intros (d & _ & Hd)%trait_data_inv. pose proof (lower_TraitDefn_ok _ _ _ lowered_env_ok d id t Hd) as (? & Hk & ? & ? & _).
  by rewrite Hk.
Qed.

Lemma trait_datum_eq id t : p.(trait_data) !! id = Some t → db.(trait_datum) id = t.
Proof. intros Ht. simpl. unfold index_or. by rewrite Ht. Qed.

Lemma bound_names_fits wc : bound_names db traits wc = true → bound_fits db wc = true.
Proof.
  destruct wc as [tr| | |]; try done. cbn [bound_names bound_fits]. rewrite !andb_true_iff, bool_decide_eq_true.
  intros [[t Ht]%elem_of_dom ?]. split; [done|]. unfold parameters_of. rewrite (trait_datum_eq _ _ Ht).
  apply trait_data_ok in Ht as (_ & _ & Hh & _). by destruct (binders (trait_binders t)) as [|[] ?]; simplify_eq/=.
Qed.

Lemma lowered_traits_ok : traits_ok db traits = true.
Proof.
  unfold traits_ok. apply forallb_forall. intros id Hid%list_elem_of_In%elem_of_elements.
  apply elem_of_dom in Hid as [t Ht]. pose proof (trait_data_ok _ _ Ht) as (_ & Htok & _ & Hn).
  unfold trait_bounds_ok, bounds_of. rewrite (trait_datum_eq _ _ Ht), Htok. cbn [andb].
  rewrite forallb_forall in Hn. apply andb_true_iff. split.
  - apply forallb_forall. intros q Hq. by apply bound_names_fits, Hn.
  - apply forallb_forall. intros r Hr%list_elem_of_In%list_elem_of_omap.
    destruct Hr as (q & Hq%list_elem_of_In%Hn & Hr). unfold self_trait in Hr.
    destruct q.(value) as [tr| | |]; try done. apply andb_true_iff in Hq as [Hq _].
    destruct (head _); [|done]. simpl in Hr. case_decide; [|done]. by injection Hr as <-.
Qed.

(** *** Associated types *)

Lemma assoc_data_inv id a :
  p.(prog_associated_ty_data) !! id = Some a →
  ∃ d defn t lookup, (ItTraitDefn d, a.(assoc_trait_id)) ∈ entries ∧ p.(trait_data) !! a.(assoc_trait_id) = Some t ∧
    t.(trait_binders).(binders) = trait_parameters d.(trait_variable_kinds) ∧
    self.(pl_associated_ty_lookups) !! (a.(assoc_trait_id), defn.(Ast.assoc_name).(str)) = Some lookup ∧
    lookup.(lookup_id) = id ∧ a.(assoc_id) = id ∧
    a.(assoc_binders).(binders) = declared_kinds defn.(assoc_variable_kinds) ++ t.(trait_binders).(binders) ∧
    scoped [] a.(assoc_binders).
Proof.
  rewrite (lw_program _ _ _ _ _ Hlow). intros (i & Hi & Hp)%insert_all_inv. destruct i; simplify_eq.
  destruct (insertion_inserted _ Hi) as (e & He & (d & raw & defn & -> & Hdefn & Hl)).
  apply (lower_assoc_item_ok db traits self lowered_env_ok) in Hl as (lookup & a' & [= -> ->] & Hlk & <- & Hid & Hks & Hs).
  destruct (trait_item d _ He) as (t & Ht & Hlt). exists d, defn, t, lookup.
  rewrite (trait_binders_of _ _ _ Hlt). rewrite Hks, assoc_parameters_eq.
  rewrite (lw_program _ _ _ _ _ Hlow) in Ht. by split_and!.
Qed.

Lemma lookup_assoc_data t name lookup :
  self.(pl_associated_ty_lookups) !! (t, name) = Some lookup →
  ∃ a, p.(prog_associated_ty_data) !! lookup.(lookup_id) = Some a ∧ a.(assoc_trait_id) = t.
Proof.
  intros Hlk. destruct (ids_lookups _ _ (lw_ids _ _ _ _ _ Hlow) _ _ _ Hlk) as (_ & d & defn & Hd & Hdefn & Hname).
  destruct (entry_insertions _ Hd) as (ins & Hins & Hin). simpl in Hins.
  apply bind_Val in Hins as (t0 & Ht0 & Hins). apply bind_Val in Hins as (assocs & Hassocs & [= <-]).
  destruct (mapM_elem_of_2 _ _ _ _ Hassocs Hdefn) as (i & Hi & Hl).
  apply (lower_assoc_item_ok db traits self lowered_env_ok) in Hl as (lookup' & a' & -> & Hlk' & _).
  rewrite Hname in Hlk'. simplify_eq.
  assert (is_Some (p.(prog_associated_ty_data) !! lookup.(lookup_id))) as [a Ha].
  { rewrite (lw_program _ _ _ _ _ Hlow). eapply (insert_all_is_Some _ _ (InAssociatedTyData lookup.(lookup_id) a')); [|done].
    apply Hin, elem_of_app. right. by right. }
  exists a. split; [done|]. apply assoc_data_inv in Ha as (d' & defn' & t' & lookup' & _ & _ & _ & Hlk2 & Hid & _).
  by pose proof (ids_lookups_inj _ _ (lw_ids _ _ _ _ _ Hlow) _ _ _ _ Hlk Hlk2 (eq_sym Hid)) as [= <-].
Qed.

Lemma impl_datum_eq id i : p.(impl_data) !! id = Some i → db.(impl_datum) id = i.
Proof. intros Hi. simpl. unfold index_or. by rewrite Hi. Qed.
Lemma assoc_datum_eq id a : p.(prog_associated_ty_data) !! id = Some a → db.(associated_ty_data) id = a.
Proof. intros Ha. simpl. unfold index_or. by rewrite Ha. Qed.

Lemma assoc_data_ok id a : p.(prog_associated_ty_data) !! id = Some a → assoc_ok db a = true.
Proof.
  intros Ha. destruct (assoc_data_inv _ _ Ha) as (d & defn & t & lookup & _ & Ht & _ & _ & _ & Hid & Hks & Hs).
  unfold assoc_ok. rewrite Hid, (assoc_datum_eq _ _ Ha), (trait_datum_eq _ _ Ht), Hs, Hks. cbn [andb].
  apply Nat.leb_le. rewrite length_app. lia.
Qed.

Lemma value_data_ok id v :
  p.(associated_ty_values) !! id = Some v → own_parameters_fit db v = true → atv_ok db v = true.
Proof.
  rewrite (lw_program _ _ _ _ _ Hlow) at 1. intros (i & Hi & Hp)%insert_all_inv. destruct i; simplify_eq.
  destruct (insertion_inserted _ Hi) as (e & He & (d & raw & atv & datum & -> & _ & Himpl & Hl)).
  apply (lower_atv_item_ok db traits self lowered_env_ok) in Hl
    as (? & lookup & v' & [= _ <-] & Hlk & Hraw & Haid & Hks & Hs).
  destruct (impl_item d _ He) as (datum' & Hdatum & Himpl'). rewrite Himpl in Himpl'. injection Himpl' as <-.
  destruct (lower_Impl_ok db traits _ lowered_env_ok d raw _ _ Himpl) as (Hiok & Hiks & Hnames).
  destruct (lookup_assoc_data _ _ _ Hlk) as (a & Ha & Htid).
  destruct (assoc_data_inv _ _ Ha) as (d' & defn & t & _ & _ & Ht & _ & _ & _ & _ & Haks & Has).
  unfold own_parameters_fit, atv_ok. rewrite Hraw, Haid, (impl_datum_eq _ _ Hdatum), (assoc_datum_eq _ _ Ha).
  rewrite (trait_datum_eq _ _ Ht). rewrite Hks, Haks. unfold atv_parameters. rewrite Hiks.
  rewrite !length_app, !Nat.add_sub. rewrite take_app_length.
  set (own := declared_kinds _). set (iks := declared_kinds d.(impl_variable_kinds)). intros Hfit.
  rewrite Hs, Hiok, Has, ident_app_drop. cbn [andb]. apply andb_true_iff. split; [apply andb_true_iff; split; [apply Nat.leb_le; lia|done]|].
  apply all2_app. do 2 eexists. split_and!; [done|exact Hfit|].
  apply andb_true_iff in Hnames as [_ Hfits]. unfold trait_ref_fits, parameters_of in Hfits.
  unfold impl_trait_id in Htid. rewrite <- Htid in Hfits. by rewrite (trait_datum_eq _ _ Ht) in Hfits.
Qed.

(** *** Opaque types *)

Definition hidden_of (i : Insertion) : option (OpaqueTyId * Ty) :=
  match i with InHiddenOpaqueType k v => Some (k, v) | _ => None end.
Definition opaque_of (i : Insertion) : option (OpaqueTyId * OpaqueTyDatum) :=
  match i with InOpaqueTyData k v => Some (k, v) | _ => None end.

(** Every opaque type has its hidden type. *)
Definition opaques_fit (hidden : gmap OpaqueTyId Ty) (data : gmap OpaqueTyId OpaqueTyDatum) : Prop :=
  ∀ id o, data !! id = Some o → o.(opaque_ty_id) = id ∧
    ∃ ty, hidden !! id = Some ty ∧ hidden_type_fits db traits ty o = true.

Lemma omap_nil {A B} (f : A → option B) l : (∀ x, x ∈ l → f x = None) → omap f l = [].
Proof.
  induction l as [|x l IH]; intros Hf; [done|]. simpl. rewrite (Hf x) by by left.
  apply IH. intros y Hy. apply Hf. by right.
Qed.

Lemma item_opaques e ins :
  lower_item self e = Val ins →
  (omap hidden_of ins = [] ∧ omap opaque_of ins = []) ∨
  ∃ id ty o, omap hidden_of ins = [(id, ty)] ∧ omap opaque_of ins = [(id, o)] ∧ o.(opaque_ty_id) = id ∧
    hidden_type_fits db traits ty o = true.
Proof.
  intros Hins. assert ((∃ d raw, e = (ItOpaqueTyDefn d, raw)) ∨ ¬ ∃ d raw, e = (ItOpaqueTyDefn d, raw)) as [(d & raw & ->)|Hne].
  { destruct e as [[] ?]; naive_solver. }
  - simpl in Hins. apply (lower_opaque_item_ok db traits self lowered_env_ok) in Hins as [->|(id & ty & o & -> & ? & ?)];
      [by left|right; by exists id, ty, o].
  - left. split; apply omap_nil; intros i Hi; pose proof (lower_item_inserted _ _ _ _ Hins Hi) as H;
      destruct i; try done; by destruct Hne.
Qed.

Lemma opaques_fit_insert id ty o hidden data :
  o.(opaque_ty_id) = id → hidden_type_fits db traits ty o = true →
  opaques_fit hidden data → opaques_fit (<[id := ty]> hidden) (<[id := o]> data).
Proof.
  intros Hid Hfit Hok id' o' [[<- <-]|[Hne Ho]]%lookup_insert_Some.
  - split; [done|]. exists ty. by rewrite lookup_insert_eq.
  - destruct (Hok _ _ Ho) as (? & ty' & ? & ?). split; [done|]. exists ty'. by rewrite lookup_insert_ne.
Qed.

Lemma lowered_opaques_fit : opaques_fit p.(hidden_opaque_types) p.(prog_opaque_ty_data).
Proof.
  rewrite (lw_program _ _ _ _ _ Hlow) at 1 2. cbn [lowered_program hidden_opaque_types prog_opaque_ty_data].
  change (opaques_fit (insert_all hidden_of (concat inss)) (insert_all opaque_of (concat inss))).
  unfold insert_all. assert (opaques_fit ∅ ∅) as H0 by (intros ??; by rewrite lookup_empty).
  revert H0. generalize (∅ : gmap OpaqueTyId Ty) as hidden, (∅ : gmap OpaqueTyId OpaqueTyDatum) as data.
  assert (∀ ins, ins ∈ inss → ∃ e, lower_item self e = Val ins) as Hall.
  { intros ins Hi. destruct (mapM_elem_of _ _ _ _ (lw_items _ _ _ _ _ Hlow) Hi) as (e & _ & ?). eauto. }
  revert Hall. generalize inss as l. induction l as [|ins l IH]; intros Hall hidden data Hfit; [done|]. cbn [concat].
  rewrite !omap_app, !foldl_app. apply IH; [intros; apply Hall; by right|].
  destruct (Hall ins) as (e & He); [by left|].
  destruct (item_opaques _ _ He) as [[-> ->]|(id & ty & o & -> & -> & ? & ?)]; [done|]. by apply opaques_fit_insert.
Qed.

Lemma opaque_data_ok id o : p.(prog_opaque_ty_data) !! id = Some o → opaque_ok db traits o = true.
Proof.
  intros Ho. destruct (lowered_opaques_fit _ _ Ho) as (Hid & ty & Hty & Hfit). unfold opaque_ok.
  assert (db.(hidden_opaque_type) o.(opaque_ty_id) = ty) as ->; [|done].
  simpl. unfold index_or. by rewrite Hid, Hty.
Qed.

(** *** The other declarations *)

Lemma impl_data_ok id i : p.(impl_data) !! id = Some i → impl_ok i = true.
Proof. intros (d & _ & Hd)%impl_data_inv. by apply (lower_Impl_ok db traits _ lowered_env_ok) in Hd as [? _]. Qed.

Lemma adt_data_ok id a :
  p.(adt_data) !! id = Some a → negb a.(adt_flags).(adt_fundamental) || existsb is_ty_kind a.(adt_binders).(binders) = true →
  adt_ok a = true.
Proof.
  rewrite (lw_program _ _ _ _ _ Hlow). intros (j & Hj & Hp)%insert_all_inv. destruct j; simplify_eq.
  destruct (insertion_inserted _ Hj) as (e & _ & (d & _ & Hd)).
  apply (lower_AdtDefn_ok db traits _ lowered_env_ok) in Hd as [? _]. intros. by apply andb_true_iff.
Qed.

Lemma fn_data_ok id f : p.(fn_def_data) !! id = Some f → fn_ok f = true.
Proof.
  rewrite (lw_program _ _ _ _ _ Hlow). intros (j & Hj & Hp)%insert_all_inv. destruct j; simplify_eq.
  destruct (insertion_inserted _ Hj) as (e & _ & (d & _ & Hd)).
  by apply (lower_FnDefn_ok db traits _ lowered_env_ok) in Hd as [? _].
Qed.

Lemma lowered_clauses_in_scope : Forall (λ c, clause_in_scope c = true) p.(prog_custom_clauses).
Proof.
  rewrite (lw_program _ _ _ _ _ Hlow). apply Forall_forall. intros c (cs & Hc & Hcs)%elem_of_concat.
  apply list_elem_of_omap in Hcs as (i & Hi & Hp). destruct i; simplify_eq.
  destruct (insertion_inserted _ Hi) as (e & _ & (d & raw & _ & Hd)).
  apply (lower_Clause_ok db traits _ [] _ lowered_env_ok) in Hd. rewrite <- clause_scoped_nil.
  by eapply Forall_forall in Hd.
Qed.

Lemma lowered_declarations_ok d :
  d ∈ program_declarations p → unchecked_ok db d = true → declaration_ok db traits d = true.
Proof.
  unfold program_declarations. rewrite !elem_of_app, !list_elem_of_fmap. setoid_rewrite elem_of_btree_values.
  intros [(x & -> & id & Hx)|[(x & -> & id & Hx)|[(x & -> & id & Hx)|[(x & -> & id & Hx)|
    [(x & -> & id & Hx)|[(x & -> & id & Hx)|(x & -> & id & Hx)]]]]]] Hu; simpl.
  - by eapply impl_data_ok.
  - by eapply value_data_ok.
  - by eapply opaque_data_ok.
  - by eapply adt_data_ok.
  - by eapply fn_data_ok.
  - by apply trait_data_ok in Hx as (_ & ? & _).
  - by eapply assoc_data_ok.
Qed.
End Lowered.

(** ** The theorem *)

(** C14. A program that lowers without an error is well kinded, whatever the order in
    which the solvers iterate over hash sets: its traits fit together, every
    declaration is one that [declaration_clauses_well_kinded] asks for, and the clauses
    that it gives itself are in scope.  Lowering leaves two things unchecked: that a
    fundamental data type has a type parameter, and that the own parameters of the value of an
    associated type are those of the associated type. *)
Theorem lowered_program_well_kinded (missing : RustIrDatabase) (fuel : nat)
    (hash_order : list ProgramClause → list ProgramClause) (prog : Ast.Program) (p : Program.Program)
    (Hp : lower_Program prog = Val p) :
  let db := program_rust_ir missing fuel p hash_order in
  let traits := dom p.(trait_data) in
  traits_ok db traits = true ∧
  (∀ d, d ∈ program_declarations p → unchecked_ok db d = true → declaration_ok db traits d = true) ∧
  Forall (λ c, clause_in_scope c = true) p.(prog_custom_clauses).
Proof.
  apply lower_Program_lowering in Hp as (entries & self & inss & Hlow). cbv zeta. split_and!.
  - by eapply lowered_traits_ok.
  - intros d. by eapply lowered_declarations_ok.
  - by eapply lowered_clauses_in_scope.
Qed.

Definition lowered_iterator : Program.Program :=
  match lower_Program iterator_program with
  | Val p => p
  | _ => lowered_program ProgramLowerer_default []
  end.
Lemma iterator_lowers : lower_Program iterator_program = Val lowered_iterator.
Proof. unfold lowered_iterator. by vm_compute. Qed.

Lemma lowered_program_well_kinded_witness :
  let db := program_rust_ir (program_db [] [] [] []) 0 lowered_iterator id in
  let traits := dom lowered_iterator.(trait_data) in
  length (program_declarations lowered_iterator) = 7 ∧
  forallb (unchecked_ok db) (program_declarations lowered_iterator) = true ∧
  traits_ok db traits = true ∧
  (∀ d, d ∈ program_declarations lowered_iterator → unchecked_ok db d = true → declaration_ok db traits d = true) ∧
  Forall (λ c, clause_in_scope c = true) lowered_iterator.(prog_custom_clauses).
Proof.
  do 2 (split; [by vm_compute|]).
  exact (lowered_program_well_kinded (program_db [] [] [] []) 0 id iterator_program lowered_iterator iterator_lowers).
Defined.

(** ** Goals *)

Lemma goal_env_ok missing fuel hash_order prog p :
  lower_Program prog = Val p →
  ensures (goal_env p) (λ env, env_ok (program_rust_ir missing fuel p hash_order) (dom p.(trait_data)) env []).
Proof.
  intros (entries & self & inss & Hlow)%lower_Program_lowering.
  pose proof (lowered_env_ok _ _ _ _ _ Hlow missing fuel hash_order) as [_ Ht]. step. apply ensures_Val.
  split; [intros; simplify_map_eq|]. intros id k Hk. apply Ht. pose proof (lw_program _ _ _ _ _ Hlow) as Hprog. clear Hlow Ht. by subst p.
Qed.

(** C34. A goal that lowers against a program that lowers is closed: each of its variables
    is bound by a quantifier, a clause or a type around it. *)
Theorem lowered_goal_closed (prog : Ast.Program) (p : Program.Program) (g : Ast.Goal) (goal : Goal)
    (Hp : lower_Program prog = Val p) (Hg : lower_goal g p = Val goal) :
  scoped [] goal.
Proof.
  revert goal Hg. eapply ensures_bind; [exact (goal_env_ok (program_db [] [] [] []) 0 id prog p Hp)|].
  intros env Henv. exact (lower_Goal_ok _ _ g env [] Henv).
Qed.

Definition lowered_item_goal : Goal :=
  match lower_goal item_goal lowered_iterator with Val g => g | _ => GCannotProve end.

Lemma lowered_goal_closed_witness :
  (∃ b, lowered_item_goal = GQuantified ForAll b) ∧ scoped [] lowered_item_goal.
Proof.
  split; [eexists; by vm_compute|].
  apply (lowered_goal_closed iterator_program lowered_iterator item_goal lowered_item_goal iterator_lowers).
  by vm_compute.
Defined.
