(* ===== verification/Queries.v ===== *)
(** * The queries of the test database
    ([chalk-integration/src/query.rs], [program_environment.rs], [db.rs], [ChalkError] of [error.rs],
    [SolverChoice] of [lib.rs])

    From a program text to a checked program.  The parser, which is generated, is an
    argument.  [salsa] memoizes queries, which are functions of their inputs; every query
    for solutions during the checks goes to a fresh solver.

    Then [environment] on a program that lowers, and what the checks of lowering leave
    unchecked. *)

From stdpp Require Import base list numbers gmap strings.
From S2P Require Import Prelude FixedPoint Ast Ir IrCountable Fold FoldLaws Shift ShiftThm Ena Infer Zip RustIr Solve Fulfill RecSolve RecSolveThm Forest SlgSolve Builder SuperTraits ProgramClauses Clauses GoalClauses Coherence CoherenceThm Wf Scoped BuilderScopes DeclScopes Programs SuperTraitsThm DeclThm LowerEnv Lowering Program ProgramLowerer LoweringScopes LoweringItems LoweringThm.

(** ** The choice of a solver *)

Inductive SolverChoice :=
  | ScSLG (max_size : nat) (expected_answers : option nat)
  | ScRecursive (overflow_depth : N) (caching_enabled : bool) (max_size : N).

Definition slg (max_size : nat) (expected_answers : option nat) : SolverChoice := ScSLG max_size expected_answers.
Definition slg_default : SolverChoice := slg 10 None.
Definition recursive_default : SolverChoice := ScRecursive 100 true 30.
Definition recursive (max_size overflow_depth : N) : SolverChoice := ScRecursive overflow_depth true max_size.
Definition SolverChoice_default : SolverChoice := ScSLG 10 None.

Inductive ChalkError (P : Type) :=
  | CeParse (e : P)
  | CeLower (e : RustIrError)
  | CeCoherence (e : CoherenceError)
  | CeWf (e : WfError).
Arguments CeParse {P} _.
Arguments CeLower {P} _.
Arguments CeCoherence {P} _.
Arguments CeWf {P} _.

Section Queries.
Context {E : Type} `{EnaOps E} {G : Type} `{DiGraph G, TupleCombinations}.
Context (fuel : nat) (missing : RustIrDatabase).
Context (hash_order : list ProgramClause → list ProgramClause)
  (constraint_order : list (InEnvironment Constraint) → list (InEnvironment Constraint)).
Context {P : Type} (parse_program : string → outcome P Ast.Program) (parse_goal : string → outcome P Ast.Goal).

Abbreviation Query := (outcome (ChalkError P)).

(** The program as the database of the solvers. *)
Definition db_of (program : Program.Program) : RustIrDatabase := program_rust_ir missing fuel program hash_order.

(** [solver_choice.into_solver()], asked one goal. *)
Definition into_solver (choice : SolverChoice) (db : RustIrDatabase) (goal : UCanonicalGoal) :
    Fallible (option Solution) :=
  let clauses_for := program_clauses_that_could_match db fuel in
  match choice with
  | ScSLG max_size expected_answers =>
      '(solution, _) ← slg_solve (E := E) fuel db max_size expected_answers clauses_for goal forest_new;
      Val solution
  | ScRecursive overflow_depth caching_enabled max_size =>
      let cache := if caching_enabled then Some ∅ else None in
      '(solution, _) ← unwrap_result (recursive_solve (E := E) fuel db constraint_order clauses_for fuel goal
                         (FixedPoint.new overflow_depth max_size cache));
      Val solution
  end.

(** ** The queries *)

Definition program_ir (text : string) : Query Program.Program :=
  program ← map_err CeParse (parse_program text);
  map_err CeLower (lower_Program program).

(** [for x in xs { f(x)? }]. *)
Fixpoint for_each_result {Er A} (f : A → outcome Er unit) (l : list A) : outcome Er unit :=
  match l with
  | [] => Val tt
  | x :: l => _ ← f x; for_each_result f l
  end.

Section WithChoice.
Context (solver_choice : SolverChoice).

Definition orphan_check_program (program : Program.Program) : Query unit :=
  let db := db_of program in
  for_each_result (λ impl_id,
    map_err CeCoherence (perform_orphan_check (E := E) fuel db (into_solver solver_choice db) impl_id))
    (local_impl_ids program).

(** The priorities of one trait. *)
Definition trait_priorities (program : Program.Program) (trait_id : TraitId) :
    Query (TraitId * SpecializationPriorities) :=
  let db := db_of program in
  priorities ← map_err CeCoherence
    (specialization_priorities (E := E) (G := G) fuel db (into_solver solver_choice db) trait_id fuel);
  Val (trait_id, priorities).

(** An error of the orphan check comes before one of the priorities. *)
Definition coherence_program (program : Program.Program) : Query (gmap TraitId SpecializationPriorities) :=
  let orphan_check := orphan_check_program program in
  match mapM (trait_priorities program) (btree_keys program.(trait_data)) with
  | Exn e => _ ← orphan_check; Exn e
  | m =>
      priorities_map ← m;
      _ ← orphan_check;
      Val (list_to_map priorities_map)
  end.

Definition check_program (program : Program.Program) : Query Program.Program :=
  _ ← coherence_program program;
  let db := db_of program in
  let solve := into_solver solver_choice db in
  _ ← for_each_result (λ id, map_err CeWf (verify_adt_decl (E := E) fuel db solve id))
        (btree_keys program.(adt_data));
  _ ← for_each_result (λ id, map_err CeWf (verify_opaque_ty_decl (E := E) fuel db solve id))
        (btree_keys program.(prog_opaque_ty_data));
  _ ← for_each_result (λ id, map_err CeWf (verify_trait_impl (E := E) fuel db solve id))
        (btree_keys program.(impl_data));
  Val program.

(** [orphan_check], [coherence] and [checked_program] on the program of a text. *)
Definition orphan_check (text : string) : Query unit := program_ir text ≫= orphan_check_program.
Definition coherence (text : string) : Query (gmap TraitId SpecializationPriorities) :=
  program_ir text ≫= coherence_program.
Definition checked_program (text : string) : Query Program.Program := program_ir text ≫= check_program.

(** [ChalkDatabase::parse_and_lower_goal]. *)
Definition parse_and_lower_goal (program_text text : string) : Query Goal :=
  program ← checked_program program_text;
  goal ← map_err CeParse (parse_goal text);
  map_err CeLower (lower_goal goal program).
End WithChoice.

(** ** The clauses of a program *)

Definition impl_clauses (db : RustIrDatabase) (datum : ImplDatum) : CB unit :=
  if impl_is_positive datum then
    _ ← to_program_clauses db fuel datum [];
    cb_iter (λ atv_id, to_program_clauses db fuel (db.(associated_ty_value) atv_id) [])
      datum.(associated_ty_value_ids)
  else mret tt.

Definition environment_clauses (program : Program.Program) : CB unit :=
  let db := db_of program in
  _ ← cb_iter (λ d, to_program_clauses db fuel d []) (btree_values program.(prog_associated_ty_data));
  _ ← cb_iter (λ d, to_program_clauses db fuel d []) (btree_values program.(trait_data));
  _ ← cb_iter (λ d, to_program_clauses db fuel d []) (btree_values program.(adt_data));
  _ ← cb_iter (λ '(auto_trait_id, _),
        cb_iter (λ adt_id, cb_unwrap (push_auto_trait_impls db auto_trait_id (TyAdt adt_id [])))
          (btree_keys program.(adt_data)))
        (filter (λ t, is_auto_trait t.2 = true) (btree_iter program.(trait_data)));
  cb_iter (impl_clauses db) (btree_values program.(impl_data)).

(** [environment]: the clauses of all declarations after the custom ones. *)
Definition environment_of (program : Program.Program) : Query ProgramClauses :=
  '(_, builder) ← unwrap_result (environment_clauses program (mkClauseBuilder program.(prog_custom_clauses) [] []));
  Val builder.(clauses).
Definition environment (text : string) : Query ProgramClauses := program_ir text ≫= environment_of.
End Queries.

(** ** A program that lowers *)

Import Ast.Samples.

(** *** The values of an impl *)

Lemma mapM_Forall2 {E A B} (f : A → outcome E B) l k : mapM f l = Val k → Forall2 (λ x y, f x = Val y) l k.
Proof.
  revert k. induction l as [|x l IH]; intros k Hk; simpl in Hk; [by injection Hk as <-|].
  apply bind_Val in Hk as (y & Hy & Hk). apply bind_Val in Hk as (k' & Hk' & [= <-]). constructor; [done|by apply IH].
Qed.

Section Lowered.
Context (prog : Ast.Program) (p : Program.Program) (entries : list (Ast.Item * N))
  (self : ProgramLowerer) (inss : list (list Insertion)) (Hlow : lowering prog p entries self inss).

Lemma impl_values id i v_id :
  p.(impl_data) !! id = Some i → v_id ∈ i.(associated_ty_value_ids) → ∃ v, p.(associated_ty_values) !! v_id = Some v.
Proof.
  intros Hi Hv. destruct (impl_data_inv _ _ _ _ _ Hlow _ _ Hi) as (d & Hd & Hl).
  destruct (entry_insertions _ _ _ _ _ Hlow _ Hd) as (ins & Hins & Hin). simpl in Hins.
  unfold lower_impl_item in Hins. apply bind_Val in Hins as (i0 & Hi0 & Hins). rewrite Hl in Hi0. injection Hi0 as <-.
  apply bind_Val in Hins as (vs & Hvs & [= <-]).
  unfold lower_Impl in Hl. apply bind_Val in Hl as (b & _ & Hl). apply bind_Val in Hl as (ids & Hids & [= <-]).
  simpl in Hv. destruct (mapM_elem_of _ _ _ _ Hids Hv) as (atv & Hatv & Hid).
  destruct (mapM_elem_of_2 _ _ _ _ Hvs Hatv) as (ii & Hii & Hitem). unfold lower_atv_item in Hitem.
  apply bind_Val in Hitem as (v_id' & Hid' & Hitem). rewrite Hid in Hid'. injection Hid' as <-.
  apply bind_Val in Hitem as (lookup & _ & Hitem). apply bind_Val in Hitem as (b' & _ & [= <-]).
  rewrite (lw_program _ _ _ _ _ Hlow). eapply (insert_all_is_Some _ _ _ v_id); [apply Hin; right; exact Hii|done].
Qed.
End Lowered.

(** ** The clauses of the environment *)

Lemma triple_decls {T} `{ToProgramClauses T} (f : T → Declaration) db traits fuel l :
  (∀ x env, to_program_clauses db fuel (f x) env = to_program_clauses db fuel x env) →
  traits_ok db traits = true → size traits < fuel → Forall (λ x, declaration_ok db traits (f x) = true) l →
  triple [] (cb_iter (λ d, to_program_clauses db fuel d []) l) (λ _, True).
Proof.
  intros Hf Hok Hfuel Hl. apply triple_iter. eapply Forall_impl; [exact Hl|]. intros x Hx. simpl. rewrite <- Hf.
  by eapply declaration_triple.
Qed.

Lemma Forall_btree_values {V} (P : V → Prop) (m : gmap N V) : (∀ i x, m !! i = Some x → P x) → Forall P (btree_values m).
Proof. intros HP. apply Forall_forall. intros x [i Hi]%elem_of_btree_values. by eapply HP. Qed.

(** A sort of declarations of a program. *)
Definition declared_as {T} (f : T → Declaration) (p : Program.Program) (m : gmap N T) : Prop :=
  ∀ x, x ∈ btree_values m → f x ∈ program_declarations p.

Lemma declared_sorts p :
  declared_as DeclImpl p p.(impl_data) ∧ declared_as DeclAssociatedTyValue p p.(associated_ty_values) ∧
  declared_as DeclAdt p p.(adt_data) ∧ declared_as DeclTrait p p.(trait_data) ∧
  declared_as DeclAssociatedTy p p.(prog_associated_ty_data).
Proof.
  unfold declared_as, program_declarations.
  split_and!; intros x Hx; rewrite !elem_of_app, !list_elem_of_fmap; eauto 12.
Qed.

(** C35. For a program that lowers, has no auto trait and passes the two checks that
    lowering leaves out, the query for the clauses of all its declarations returns, and
    every variable of these clauses is bound by its clause at the kind it is used at. *)
Theorem environment_in_scope {P : Type} (missing : RustIrDatabase) (fuel : nat)
    (hash_order : list ProgramClause → list ProgramClause) (prog : Ast.Program) (p : Program.Program)
    (Hp : lower_Program prog = Val p) (Hfuel : size (dom p.(trait_data)) < fuel)
    (Hunchecked : forallb (unchecked_ok (program_rust_ir missing fuel p hash_order)) (program_declarations p) = true)
    (Hauto : forallb (λ t, negb (is_auto_trait t)) (btree_values p.(trait_data)) = true) :
  ∃ clauses, environment_of (P := P) fuel missing hash_order p = Val clauses ∧
    Forall (λ c, clause_in_scope c = true) clauses.
Proof.
  apply lower_Program_lowering in Hp as (entries & self & inss & Hlow).
  set (db := program_rust_ir missing fuel p hash_order) in *. set (traits := dom p.(trait_data)) in *.
  pose proof (lowered_traits_ok _ _ _ _ _ Hlow missing fuel hash_order) as Htraits. fold db traits in Htraits.
  pose proof (lowered_clauses_in_scope _ _ _ _ _ Hlow missing fuel hash_order) as Hcustom.
  assert (∀ d, d ∈ program_declarations p → declaration_ok db traits d = true) as Hd.
  { intros d Hd. eapply lowered_declarations_ok; [exact Hlow|done|]. rewrite forallb_forall in Hunchecked.
    by apply Hunchecked, list_elem_of_In. }
  destruct (declared_sorts p) as (Himpls & Hvalues & Hadts & Hts & Hassocs).
  assert (triple [] (environment_clauses fuel missing hash_order p) (λ _, True)) as Ht.
  { unfold environment_clauses. change (db_of fuel missing hash_order p) with db. 
    seq; [apply (triple_decls DeclAssociatedTy db traits); try done; by apply Forall_forall; auto|].
    seq; [apply (triple_decls DeclTrait db traits); try done; by apply Forall_forall; auto|].
    seq; [apply (triple_decls DeclAdt db traits); try done; by apply Forall_forall; auto|].
    seq.
    - replace (filter _ _) with (@nil (N * TraitDatum)); [by apply clauses_ret|]. symmetry.
      apply elem_of_nil_inv. intros [id t] [Ht Hin%elem_of_btree_iter]%list_elem_of_filter. simpl in Ht.
      rewrite forallb_forall in Hauto. specialize (Hauto t). rewrite Ht in Hauto. discriminate Hauto.
      apply list_elem_of_In, elem_of_btree_values. eauto.
    - apply triple_iter, Forall_forall. intros i Hi. unfold impl_clauses. destruct (impl_is_positive i); [|by apply clauses_ret].
      seq; [by apply impl_triple, (Hd (DeclImpl i)), Himpls|].
      apply triple_iter, Forall_forall. intros v_id Hv. apply elem_of_btree_values in Hi as [id Hi].
      destruct (impl_values _ _ _ _ _ Hlow _ _ _ Hi Hv) as [v Hval].
      assert (db.(associated_ty_value) v_id = v) as -> by (simpl; unfold index_or; by rewrite Hval).
      apply atv_triple, (Hd (DeclAssociatedTyValue v)), Hvalues, elem_of_btree_values. eauto. }
  destruct (Ht (mkClauseBuilder p.(prog_custom_clauses) [] [])) as (r & b & Hb & Hgood & _); [by split|].
  exists b.(clauses). split; [|apply Hgood]. unfold environment_of. by rewrite Hb.
Qed.

Lemma environment_in_scope_witness :
  let db := program_rust_ir (program_db [] [] [] []) 3 lowered_iterator id in
  ∃ clauses, environment_of (P := unit) 3 (program_db [] [] [] []) id lowered_iterator = Val clauses ∧
    Forall (λ c, clause_in_scope c = true) clauses.
Proof.
  intros db. apply (environment_in_scope (program_db [] [] [] []) 3 id iterator_program lowered_iterator iterator_lowers);
    vm_compute; [lia|reflexivity..].
Defined.

(** ** What lowering lets through *)

(** The environment of a program, when it lowers. *)
Definition environment_of_program (prog : Ast.Program) : outcome (ChalkError unit) ProgramClauses :=
  p ← map_err CeLower (lower_Program prog);
  environment_of 5 (program_db [] [] [] []) id p.
Definition lower_check (prog : Ast.Program) : option panic := panic_of (lower_Program prog).
Definition environment_check (prog : Ast.Program) : option panic := panic_of (environment_of_program prog).

Definition auto_flags : Ast.TraitFlags := Ast.mkTraitFlags true false false false false false false.
Definition fundamental_struct : Ast.AdtFlags := Ast.mkAdtFlags false true false Ast.Struct.
#[local] Open Scope string_scope.
Definition u32_ty : Ast.Ty := Ast.TyScalar (Ast.ScUint Ast.U32).
(** [trait Tr { type Item<ks> where Self: Tr; }] and [impl Tr for u32 { type name<ks> = u32; }]. *)
Definition item_trait (ks : list Ast.VariableKind) : Item :=
  trait_decl no_flags "Tr" [] [mkAssocTyDefn (ident_of "Item") ks [] [where_implements (ty_named "Self") "Tr"]].
Definition item_impl (name : string) (ks : list Ast.VariableKind) : Item :=
  impl_decl [] "Tr" [Ast.ArgTy u32_ty] [] [mkAssocTyValue (ident_of name) ks u32_ty false].
#[local] Abbreviation program := Ast.mkProgram.

(** Lowering has gaps that end in panics.  It panics itself, instead of returning an
    error, on the value of an associated type that the trait of the impl does not have
    and on a trait or a foreign type that is applied like a data type.  It accepts an
    associated type value with other parameters than the associated type, and a
    fundamental data type without a type parameter: the translation of these declarations to
    clauses panics.  And the query for all clauses panics on a program with an auto trait and a
    generic data type, which it takes without its parameters. *)
Theorem lowering_gaps_panic :
  let bad_uses := [[item_trait []; item_impl "Other" []];
    [trait_decl no_flags "Tr" [] []; struct_decl plain_struct "S" [] [] [Ast.TyApply (ident_of "Tr") []]];
    [ItForeign (mkForeignDefn (ident_of "F")); struct_decl plain_struct "S" [] [] [Ast.TyApply (ident_of "F") []]]] in
  let accepted := [[item_trait (lt_params ["a"]); item_impl "Item" []];
    [struct_decl fundamental_struct "S" (lt_params ["a"]) [] []];
    [trait_decl auto_flags "Send" [] []; struct_decl plain_struct "S" (ty_params ["T"]) [] []]] in
  let good := [[item_trait (lt_params ["a"]); item_impl "Item" (lt_params ["b"])];
    [struct_decl fundamental_struct "S" (ty_params ["T"]) [] []];
    [trait_decl auto_flags "Send" [] []; struct_decl plain_struct "S" [] [] []]] in
  map (λ items, lower_check (program items)) bad_uses = [Some PUnwrap; Some PExplicit; Some PExplicit] ∧
  map (λ items, (lower_check (program items), environment_check (program items))) accepted =
    replicate 3 (None, Some PAssert) ∧
  map (λ items, environment_check (program items)) good = replicate 3 None.
Proof. split_and!; vm_compute; reflexivity. Qed.
