(* ===== verification/LoggingDb.v ===== *)
(** * Databases that record what is asked ([chalk-solve/src/logging_db.rs])

    The trait [RustIrDatabase] is the type of its queries, and an implementation a handler
    of queries in a monad: a database without effects answers in [Fallible], the logging
    database in the monad of the identifiers that it has recorded.  [IdCollector]
    ([logging_db/id_collector.rs]) finds the identifiers that the recorded declarations
    name but that no query recorded.  The mutex of the identifiers is held for one
    insertion at a time and is not modelled. *)

From Stdlib Require Import Ascii.
From stdpp Require Import base list numbers strings.
From S2P Require Import Prelude Ir Fold FoldLaws Shift Zip Visit RustIr Programs.

(** ** The queries *)

Inductive Query : Type → Type :=
  | QCustomClauses : Query (list ProgramClause)
  | QAssociatedTyData (ty : AssocTypeId) : Query AssociatedTyDatum
  | QTraitDatum (trait_id : TraitId) : Query TraitDatum
  | QAdtDatum (adt_id : AdtId) : Query AdtDatum
  | QGeneratorDatum (generator_id : GeneratorId) : Query GeneratorDatum
  | QGeneratorWitnessDatum (generator_id : GeneratorId) : Query GeneratorWitnessDatum
  | QAdtRepr (id : AdtId) : Query AdtRepr
  | QFnDefDatum (fn_def_id : FnDefId) : Query FnDefDatum
  | QImplDatum (impl_id : ImplId) : Query ImplDatum
  | QAssociatedTyValue (id : AssociatedTyValueId) : Query AssociatedTyValue
  | QOpaqueTyData (id : OpaqueTyId) : Query OpaqueTyDatum
  | QHiddenOpaqueType (id : OpaqueTyId) : Query Ty
  | QImplsForTrait (trait_id : TraitId) (parameters : list GenericArg) (binders : list CanonicalVarKind) :
      Query (list ImplId)
  | QLocalImplsToCoherenceCheck (trait_id : TraitId) : Query (list ImplId)
  | QImplProvidedFor (auto_trait_id : TraitId) (ty : Ty) : Query bool
  | QWellKnownTraitId (well_known_trait : WellKnownTrait) : Query (option TraitId)
  | QProgramClausesForEnv (environment : Environment) : Query ProgramClauses
  | QIsObjectSafe (trait_id : TraitId) : Query bool
  | QClosureKind (closure_id : ClosureId) (substs : Substitution) : Query ClosureKind
  | QClosureInputsAndOutput (closure_id : ClosureId) (substs : Substitution) :
      Query (Binders FnDefInputsAndOutputDatum)
  | QClosureUpvars (closure_id : ClosureId) (substs : Substitution) : Query (Binders Ty)
  | QClosureFnSubstitution (closure_id : ClosureId) (substs : Substitution) : Query Substitution
  | QFnDefVariance (fn_def_id : FnDefId) : Query (list Variance)
  | QAdtVariance (adt_id : AdtId) : Query (list Variance)
  | QTraitName (trait_id : TraitId) : Query string
  | QAdtName (adt_id : AdtId) : Query string
  | QAssocTypeName (assoc_ty_id : AssocTypeId) : Query string
  | QOpaqueTypeName (opaque_ty_id : OpaqueTyId) : Query string
  | QFnDefName (fn_def_id : FnDefId) : Query string
  | QDiscriminantType (ty : Ty) : Query Ty.

(** An implementation of the trait. *)
Abbreviation Handler M := (∀ A : Type, Query A → M A).

(** The names of the items of a program. *)
Record ItemNames := mkItemNames {
  trait_name : TraitId → string;
  adt_name : AdtId → string;
  assoc_type_name : AssocTypeId → string;
  opaque_type_name : OpaqueTyId → string;
  fn_def_name : FnDefId → string
}.

(** A program database, as an implementation. *)
Definition plain_db (db : RustIrDatabase) (names : ItemNames) : Handler Fallible := λ A q,
  match q with
  | QCustomClauses => Val db.(custom_clauses)
  | QAssociatedTyData ty => Val (db.(associated_ty_data) ty)
  | QTraitDatum trait_id => Val (db.(trait_datum) trait_id)
  | QAdtDatum adt_id => Val (db.(adt_datum) adt_id)
  | QGeneratorDatum id => Val (db.(generator_datum) id)
  | QGeneratorWitnessDatum id => Val (db.(generator_witness_datum) id)
  | QAdtRepr id => Val (db.(adt_repr) id)
  | QFnDefDatum id => Val (db.(fn_def_datum) id)
  | QImplDatum id => Val (db.(impl_datum) id)
  | QAssociatedTyValue id => Val (db.(associated_ty_value) id)
  | QOpaqueTyData id => Val (db.(opaque_ty_data) id)
  | QHiddenOpaqueType id => Val (db.(hidden_opaque_type) id)
  | QImplsForTrait trait_id parameters binders => db.(impls_for_trait) trait_id parameters binders
  | QLocalImplsToCoherenceCheck trait_id => Val (db.(local_impls_to_coherence_check) trait_id)
  | QImplProvidedFor auto_trait_id ty => db.(impl_provided_for) auto_trait_id ty
  | QWellKnownTraitId well_known_trait => Val (db.(well_known_trait_id) well_known_trait)
  | QProgramClausesForEnv environment => db.(program_clauses_for_env) environment
  | QIsObjectSafe trait_id => Val (db.(is_object_safe) trait_id)
  | QClosureKind id substs => Val (db.(closure_kind) id substs)
  | QClosureInputsAndOutput id substs => Val (db.(closure_inputs_and_output) id substs)
  | QClosureUpvars id substs => Val (db.(closure_upvars) id substs)
  | QClosureFnSubstitution id substs => Val (db.(closure_fn_substitution) id substs)
  | QFnDefVariance id => Val (fn_def_variance db.(unification_database) id)
  | QAdtVariance id => Val (adt_variance db.(unification_database) id)
  | QTraitName id => Val (names.(trait_name) id)
  | QAdtName id => Val (names.(adt_name) id)
  | QAssocTypeName id => Val (names.(assoc_type_name) id)
  | QOpaqueTypeName id => Val (names.(opaque_type_name) id)
  | QFnDefName id => Val (names.(fn_def_name) id)
  | QDiscriminantType ty => Val (db.(discriminant_type) ty)
  end.

(** [sanitize_debug_name], of the text that the debug method of the interner writes:
    everything but ASCII letters and digits becomes an underscore. *)
Definition is_ascii_alphanumeric (c : ascii) : bool :=
  let n := nat_of_ascii c in
  ((48 <=? n) && (n <=? 57)) || ((65 <=? n) && (n <=? 90)) || ((97 <=? n) && (n <=? 122)).
Fixpoint replace_non_alphanumeric (s : string) : string :=
  match s with
  | EmptyString => EmptyString
  | String c s =>
      String (if is_ascii_alphanumeric c then c else "_"%char) (replace_non_alphanumeric s)
  end.
Definition sanitize_debug_name (debug_out : string) : string :=
  if decide (debug_out = "") then "Unknown" else replace_non_alphanumeric debug_out.

(** ** Recorded identifiers *)

Inductive RecordedItemId :=
  | RecAdt (id : AdtId)
  | RecTrait (id : TraitId)
  | RecImpl (id : ImplId)
  | RecOpaqueTy (id : OpaqueTyId)
  | RecFnDef (id : FnDefId)
  | RecGenerator (id : GeneratorId).
#[global] Instance RecordedItemId_eq_dec : EqDecision RecordedItemId. Proof. solve_decision. Defined.

(** [IndexSet]: a list without duplicates, in the order of insertion. *)
Definition index_insert {A} `{EqDecision A} (set : list A) (x : A) : list A :=
  if decide (x ∈ set) then set else set ++ [x].
Definition index_extend {A} `{EqDecision A} (set l : list A) : list A := foldl index_insert set l.
(** [self.difference(other)]. *)
Definition index_difference {A} `{EqDecision A} (self other : list A) : list A :=
  filter (λ x, x ∉ other) self.

(** ** [LoggingRustIrDatabase] *)

Abbreviation DefIds := (list RecordedItemId).

(** [LoggingRustIrDatabase::record] and [record_all]. *)
Definition record (id : RecordedItemId) : ST DefIds unit := λ def_ids,
  Val (tt, index_insert def_ids id).
Definition record_all (ids : list RecordedItemId) : ST DefIds unit := λ def_ids,
  Val (tt, index_extend def_ids ids).

(** The queries, with their calls of the database inside and of [record] in the order of
    the code. *)
Definition logging_db (inner : Handler Fallible) : Handler (ST DefIds) := λ A q,
  let ask {B} (q : Query B) : ST DefIds B := st_lift (inner B q) in
  match q in Query A return ST DefIds A with
  | QCustomClauses => ask QCustomClauses
  | QAssociatedTyData ty =>
      ask (QAssociatedTyData ty) ≫= λ ty_datum,
      record (RecTrait ty_datum.(assoc_trait_id)) ≫= λ _, mret ty_datum
  | QTraitDatum trait_id => record (RecTrait trait_id) ≫= λ _, ask (QTraitDatum trait_id)
  | QAdtDatum adt_id => record (RecAdt adt_id) ≫= λ _, ask (QAdtDatum adt_id)
  | QGeneratorDatum id => record (RecGenerator id) ≫= λ _, ask (QGeneratorDatum id)
  | QGeneratorWitnessDatum id => record (RecGenerator id) ≫= λ _, ask (QGeneratorWitnessDatum id)
  | QAdtRepr id => record (RecAdt id) ≫= λ _, ask (QAdtRepr id)
  | QFnDefDatum id => record (RecFnDef id) ≫= λ _, ask (QFnDefDatum id)
  | QImplDatum id => record (RecImpl id) ≫= λ _, ask (QImplDatum id)
  | QAssociatedTyValue id =>
      ask (QAssociatedTyValue id) ≫= λ value,
      record (RecImpl value.(atv_impl_id)) ≫= λ _, mret value
  | QOpaqueTyData id => record (RecOpaqueTy id) ≫= λ _, ask (QOpaqueTyData id)
  | QHiddenOpaqueType id => record (RecOpaqueTy id) ≫= λ _, ask (QHiddenOpaqueType id)
  | QImplsForTrait trait_id parameters binders =>
      record (RecTrait trait_id) ≫= λ _,
      ask (QImplsForTrait trait_id parameters binders) ≫= λ impl_ids,
      record_all (RecImpl <$> impl_ids) ≫= λ _, mret impl_ids
  | QLocalImplsToCoherenceCheck trait_id =>
      record (RecTrait trait_id) ≫= λ _, ask (QLocalImplsToCoherenceCheck trait_id)
  | QImplProvidedFor auto_trait_id ty =>
      record (RecTrait auto_trait_id) ≫= λ _,
      match ty with TyAdt adt_id _ => record (RecAdt adt_id) | _ => mret tt end ≫= λ _,
      ask (QImplProvidedFor auto_trait_id ty)
  | QWellKnownTraitId well_known_trait =>
      ask (QWellKnownTraitId well_known_trait) ≫= λ trait_id,
      match trait_id with Some id => record (RecTrait id) | None => mret tt end ≫= λ _,
      mret trait_id
  | QProgramClausesForEnv environment => ask (QProgramClausesForEnv environment)
  | QIsObjectSafe trait_id => record (RecTrait trait_id) ≫= λ _, ask (QIsObjectSafe trait_id)
  | QClosureKind id substs => ask (QClosureKind id substs)
  | QClosureInputsAndOutput id substs => ask (QClosureInputsAndOutput id substs)
  | QClosureUpvars id substs => ask (QClosureUpvars id substs)
  | QClosureFnSubstitution id substs => ask (QClosureFnSubstitution id substs)
  | QFnDefVariance id => ask (QFnDefVariance id)
  | QAdtVariance id => ask (QAdtVariance id)
  | QTraitName id => ask (QTraitName id)
  | QAdtName id => ask (QAdtName id)
  | QAssocTypeName id => ask (QAssocTypeName id)
  | QOpaqueTypeName id => ask (QOpaqueTypeName id)
  | QFnDefName id => ask (QFnDefName id)
  | QDiscriminantType ty => ask (QDiscriminantType ty)
  end.

(** [WriteOnDropRustIrDatabase]: every query is one of the logging database inside. *)
Definition write_on_drop_db (db : Handler (ST DefIds)) : Handler (ST DefIds) := λ A q,
  match q in Query A return ST DefIds A with
  | QCustomClauses => db _ QCustomClauses
  | QAssociatedTyData ty => db _ (QAssociatedTyData ty)
  | QTraitDatum trait_id => db _ (QTraitDatum trait_id)
  | QAdtDatum adt_id => db _ (QAdtDatum adt_id)
  | QGeneratorDatum id => db _ (QGeneratorDatum id)
  | QGeneratorWitnessDatum id => db _ (QGeneratorWitnessDatum id)
  | QAdtRepr id => db _ (QAdtRepr id)
  | QFnDefDatum id => db _ (QFnDefDatum id)
  | QImplDatum id => db _ (QImplDatum id)
  | QAssociatedTyValue id => db _ (QAssociatedTyValue id)
  | QOpaqueTyData id => db _ (QOpaqueTyData id)
  | QHiddenOpaqueType id => db _ (QHiddenOpaqueType id)
  | QImplsForTrait trait_id parameters binders => db _ (QImplsForTrait trait_id parameters binders)
  | QLocalImplsToCoherenceCheck trait_id => db _ (QLocalImplsToCoherenceCheck trait_id)
  | QImplProvidedFor auto_trait_id ty => db _ (QImplProvidedFor auto_trait_id ty)
  | QWellKnownTraitId well_known_trait => db _ (QWellKnownTraitId well_known_trait)
  | QProgramClausesForEnv environment => db _ (QProgramClausesForEnv environment)
  | QIsObjectSafe trait_id => db _ (QIsObjectSafe trait_id)
  | QClosureKind id substs => db _ (QClosureKind id substs)
  | QClosureInputsAndOutput id substs => db _ (QClosureInputsAndOutput id substs)
  | QClosureUpvars id substs => db _ (QClosureUpvars id substs)
  | QClosureFnSubstitution id substs => db _ (QClosureFnSubstitution id substs)
  | QFnDefVariance id => db _ (QFnDefVariance id)
  | QAdtVariance id => db _ (QAdtVariance id)
  | QTraitName id => db _ (QTraitName id)
  | QAdtName id => db _ (QAdtName id)
  | QAssocTypeName id => db _ (QAssocTypeName id)
  | QOpaqueTypeName id => db _ (QOpaqueTypeName id)
  | QFnDefName id => db _ (QFnDefName id)
  | QDiscriminantType ty => db _ (QDiscriminantType ty)
  end.

(** ** Visits of declarations ([#[derive(Visit)]], in the order of the fields) *)

#[global] Instance Visit_TraitRef : Visit TraitRef := λ _ _ _ V tr d,
  visit_with V tr.(substitution) d.
#[global] Instance Visit_ImplDatumBound : Visit ImplDatumBound := λ _ _ _ V b d,
  visit_with V b.(impl_trait_ref) d ≫= λ _, visit_with V b.(impl_where_clauses) d.
#[global] Instance Visit_ImplDatum : Visit ImplDatum := λ _ _ _ V x d,
  visit_with V x.(impl_binders) d.
#[global] Instance Visit_AdtVariantDatum : Visit AdtVariantDatum := λ _ _ _ V b d,
  visit_with V b.(fields) d.
#[global] Instance Visit_AdtDatumBound : Visit AdtDatumBound := λ _ _ _ V b d,
  visit_with V b.(variants) d ≫= λ _, visit_with V b.(adt_where_clauses) d.
#[global] Instance Visit_AdtDatum : Visit AdtDatum := λ _ _ _ V x d,
  visit_with V x.(adt_binders) d.
#[global] Instance Visit_FnDefInputsAndOutputDatum : Visit FnDefInputsAndOutputDatum := λ _ _ _ V b d,
  visit_with V b.(argument_types) d ≫= λ _, visit_with V b.(return_type) d.
#[global] Instance Visit_FnDefDatumBound : Visit FnDefDatumBound := λ _ _ _ V b d,
  visit_with V b.(inputs_and_output) d ≫= λ _, visit_with V b.(fn_where_clauses) d.
#[global] Instance Visit_FnDefDatum : Visit FnDefDatum := λ _ _ _ V x d,
  visit_with V x.(fn_binders) d.
#[global] Instance Visit_TraitDatumBound : Visit TraitDatumBound := λ _ _ _ V b d,
  visit_with V b.(trait_bound_where_clauses) d.
#[global] Instance Visit_TraitDatum : Visit TraitDatum := λ _ _ _ V x d,
  visit_with V x.(trait_binders) d.
#[global] Instance Visit_TraitBound : Visit TraitBound := λ _ _ _ V b d,
  visit_with V b.(args_no_self) d.
#[global] Instance Visit_AliasEqBound : Visit AliasEqBound := λ _ _ _ V b d,
  visit_with V b.(aeb_trait_bound) d ≫= λ _,
  visit_with V b.(aeb_parameters) d ≫= λ _, visit_with V b.(aeb_value) d.
#[global] Instance Visit_InlineBound : Visit InlineBound := λ _ _ _ V b d,
  match b with IbTraitBound b => visit_with V b d | IbAliasEqBound b => visit_with V b d end.
#[global] Instance Visit_AssociatedTyDatumBound : Visit AssociatedTyDatumBound := λ _ _ _ V b d,
  visit_with V b.(assoc_bounds) d ≫= λ _, visit_with V b.(assoc_where_clauses) d.
#[global] Instance Visit_AssociatedTyDatum : Visit AssociatedTyDatum := λ _ _ _ V x d,
  visit_with V x.(assoc_binders) d.
#[global] Instance Visit_AssociatedTyValueBound : Visit AssociatedTyValueBound := λ _ _ _ V b d,
  visit_with V b.(atv_ty) d.
#[global] Instance Visit_AssociatedTyValue : Visit AssociatedTyValue := λ _ _ _ V x d,
  visit_with V x.(atv_value) d.
#[global] Instance Visit_OpaqueTyDatumBound : Visit OpaqueTyDatumBound := λ _ _ _ V b d,
  visit_with V b.(opaque_bounds) d ≫= λ _, visit_with V b.(opaque_where_clauses) d.
#[global] Instance Visit_OpaqueTyDatum : Visit OpaqueTyDatum := λ _ _ _ V x d,
  visit_with V x.(opaque_bound) d.

(** ** [IdCollector] *)

Section IdCollector.
Context (db : Handler Fallible).
Abbreviation M := (ST (list RecordedItemId)).

Definition query {A} (q : Query A) : M A := st_lift (db A q).

(** [IdCollector::record]. *)
Definition collect (id : RecordedItemId) : M unit := λ found_identifiers,
  Val (tt, index_insert found_identifiers id).

(** [IdCollector::visit_alias]. *)
Definition collector_visit_alias (alias : AliasTy) : M unit :=
  match alias with
  | AliasProjection associated_ty_id _ =>
      query (QAssociatedTyData associated_ty_id) ≫= λ assoc_ty_datum,
      collect (RecTrait assoc_ty_datum.(assoc_trait_id))
  | AliasOpaque opaque_ty_id _ => collect (RecOpaqueTy opaque_ty_id)
  end.

Definition collector_visit_ty (ty : Ty) (outer_binder : DebruijnIndex) (super_visit : M unit) : M unit :=
  match ty with
  | TyAdt adt _ => collect (RecAdt adt)
  | TyFnDef fn_def _ => collect (RecFnDef fn_def)
  | TyOpaqueType opaque _ => collect (RecOpaqueTy opaque)
  | TyAlias alias => collector_visit_alias alias
  | _ => mret tt
  end ≫= λ _, super_visit.

Definition collector_visit_where (wc : WhereClause) (outer_binder : DebruijnIndex)
    (super_visit first : M unit) : M unit :=
  match wc with
  | WcImplemented trait_ref => collect (RecTrait trait_ref.(trait_id))
  | WcAliasEq alias _ => collector_visit_alias alias
  | WcLifetimeOutlives _ _ => mret tt
  | WcTypeOutlives _ _ => mret tt
  end ≫= λ _, super_visit.

Definition IdCollector : Visitor M := {|
  visit_free_var := default_visit_free_var false;
  visit_free_placeholder := default_visit_free_placeholder false;
  visit_inference_var := default_visit_inference_var false;
  override_visit_ty := collector_visit_ty;
  override_visit_const := default_visit_const;
  override_visit_where := collector_visit_where;
  override_visit_domain_goal := default_visit_domain_goal
|}.

(** The body of the loop of [collect_unrecorded_ids]. *)
Definition collect_item (id : RecordedItemId) : M unit :=
  match id with
  | RecAdt adt_id => query (QAdtDatum adt_id) ≫= λ x, visit_with IdCollector x INNERMOST
  | RecFnDef fn_def => query (QFnDefDatum fn_def) ≫= λ x, visit_with IdCollector x INNERMOST
  | RecGenerator _ => mpanic PExplicit
  | RecTrait trait_id =>
      query (QTraitDatum trait_id) ≫= λ trait_datum,
      visit_with IdCollector trait_datum INNERMOST ≫= λ _,
      visit_iter (λ assoc_ty_id,
        query (QAssociatedTyData assoc_ty_id) ≫= λ assoc_ty_datum,
        st_lift (bounds_on_self assoc_ty_datum) ≫= λ bounds,
        visit_with IdCollector bounds INNERMOST ≫= λ _,
        visit_with IdCollector assoc_ty_datum INNERMOST) trait_datum.(associated_ty_ids)
  | RecOpaqueTy opaque_id =>
      query (QOpaqueTyData opaque_id) ≫= λ x,
      visit_with IdCollector x INNERMOST ≫= λ _,
      query (QHiddenOpaqueType opaque_id) ≫= λ ty, visit_with IdCollector ty INNERMOST
  | RecImpl impl_id =>
      query (QImplDatum impl_id) ≫= λ impl_datum,
      visit_iter (λ id,
        query (QAssociatedTyValue id) ≫= λ assoc_ty_value,
        visit_with IdCollector assoc_ty_value INNERMOST) impl_datum.(associated_ty_value_ids) ≫= λ _,
      visit_with IdCollector impl_datum INNERMOST
  end.

Definition collect_unrecorded_ids (identifiers : list RecordedItemId) : Fallible (list RecordedItemId) :=
  '(_, found_identifiers) ← visit_iter collect_item identifiers [];
  Val (index_difference found_identifiers identifiers).
End IdCollector.

(** ** Clients

    A computation that asks a database, whatever the implementation; the solver is one. *)

Inductive Client (A : Type) : Type :=
  | Done (a : A)
  | Ask {X : Type} (q : Query X) (k : X → Client A).
Arguments Done {A} a.
Arguments Ask {A X} q k.

Fixpoint run {M : Type → Type} `{MRet M, MBind M} (db : Handler M) {A} (c : Client A) : M A :=
  match c with
  | Done a => mret a
  | Ask q k => db _ q ≫= λ x, run db (k x)
  end.

(** The declarations that an answer to a query gives away. *)
Definition subjects {X} (q : Query X) : X → list RecordedItemId :=
  match q in Query X return X → list RecordedItemId with
  | QAssociatedTyData _ => λ d, [RecTrait d.(assoc_trait_id)]
  | QTraitDatum id | QLocalImplsToCoherenceCheck id | QIsObjectSafe id => λ _, [RecTrait id]
  | QAdtDatum id | QAdtRepr id => λ _, [RecAdt id]
  | QGeneratorDatum id | QGeneratorWitnessDatum id => λ _, [RecGenerator id]
  | QFnDefDatum id => λ _, [RecFnDef id]
  | QImplDatum id => λ _, [RecImpl id]
  | QAssociatedTyValue _ => λ v, [RecImpl v.(atv_impl_id)]
  | QOpaqueTyData id | QHiddenOpaqueType id => λ _, [RecOpaqueTy id]
  | QImplsForTrait id _ _ => λ impls, RecTrait id :: (RecImpl <$> impls)
  | QImplProvidedFor id ty => λ _, RecTrait id :: match ty with TyAdt a _ => [RecAdt a] | _ => [] end
  | QWellKnownTraitId _ => λ o, match o with Some id => [RecTrait id] | None => [] end
  | _ => λ _, []
  end.

(** The declarations that a run of a client is given, in order. *)
Fixpoint client_subjects (db : Handler Fallible) {A} (c : Client A) : list RecordedItemId :=
  match c with
  | Done _ => []
  | Ask q k =>
      match db _ q with
      | Val x => subjects q x ++ client_subjects db (k x)
      | _ => []
      end
  end.

(** A database that knows some declarations only. *)
Definition restricted_db (ids : list RecordedItemId) (db : Handler Fallible) : Handler Fallible := λ A q,
  x ← db A q;
  if decide (Forall (λ id, id ∈ ids) (subjects q x)) then Val x else Panic PUnwrap.

(** ** Sets in insertion order *)

Section IndexSet.
Context {A : Type} `{EqDecision A}.
Implicit Types set l : list A.

Lemma elem_of_index_insert set x y : y ∈ index_insert set x ↔ y ∈ set ∨ y = x.
Proof. unfold index_insert. case_decide; set_solver. Qed.

Lemma elem_of_index_extend set l y : y ∈ index_extend set l ↔ y ∈ set ∨ y ∈ l.
Proof.
  unfold index_extend. revert set. induction l as [|x l IH]; intros set; simpl; [set_solver|].
  rewrite IH, elem_of_index_insert. set_solver.
Qed.

Lemma index_extend_app set l k : index_extend set (l ++ k) = index_extend (index_extend set l) k.
Proof. apply foldl_app. Qed.

Lemma NoDup_index_extend set l : NoDup set → NoDup (index_extend set l).
Proof.
  unfold index_extend. revert set. induction l as [|x l IH]; intros set Hs; simpl; [done|].
  apply IH. unfold index_insert. case_decide as Hx; [done|].
  apply NoDup_app. split_and!; [done| |apply NoDup_singleton]. set_solver.
Qed.

Lemma elem_of_index_difference set l y : y ∈ index_difference set l ↔ y ∈ set ∧ y ∉ l.
Proof. unfold index_difference. rewrite list_elem_of_filter. set_solver. Qed.
End IndexSet.

(** ** What is recorded *)

Lemma logging_query inner {A} (q : Query A) ids :
  logging_db inner A q ids = (x ← inner A q; Val (x, index_extend ids (subjects q x))).
Proof.
  destruct q; try (by destruct (inner _ _)); simpl;
    cbv [mbind ST_bind st_lift record record_all outcome_bind]; simpl;
    try match goal with ty : Ty |- _ => destruct ty end;
    repeat match goal with |- context [inner ?A ?q] => destruct (inner A q) as [[]| | |] || destruct (inner A q) end;
    done.
Qed.

Lemma run_write_on_drop db {A} (c : Client A) ids : run (write_on_drop_db db) c ids = run db c ids.
Proof.
  revert ids. induction c as [a|X q k IH]; intros ids; [done|]. simpl.
  assert (write_on_drop_db db X q = db X q) as -> by (by destruct q).
  cbv [mbind ST_bind]. destruct (db X q ids) as [[x s]| | |]; [apply IH|done..].
Qed.

Lemma run_logging inner {A} (c : Client A) ids :
  run (logging_db inner) c ids = (a ← run inner c; Val (a, index_extend ids (client_subjects inner c))).
Proof.
  revert ids. induction c as [a|X q k IH]; intros ids; [done|].
  simpl. cbv [mbind ST_bind]. rewrite logging_query.
  unfold outcome_bind at 1 2. cbv [mbind]. destruct (inner X q) as [x| | |]; simpl; try done.
  rewrite (IH x), index_extend_app. done.
Qed.

Lemma run_agree (db db' : Handler Fallible) (ids : list RecordedItemId) {A} (c : Client A) a :
  (∀ X (q : Query X) x, db X q = Val x → (∀ id, id ∈ subjects q x → id ∈ ids) → db' X q = Val x) →
  (∀ id, id ∈ client_subjects db c → id ∈ ids) →
  run db c = Val a → run db' c = Val a.
Proof.
  intros Hagree. induction c as [b|X q k IH]; intros Hids Hrun; [done|].
  simpl in *. inv_outcome Hrun. rewrite Hx in Hids.
  rewrite (Hagree _ _ _ Hx) by set_solver. apply IH; set_solver.
Qed.


(** C37. What is recorded is sufficient: a database that answers as the original one does
    whatever concerns recorded declarations only (and what cannot be recorded: custom
    clauses, clauses of environments, closures, variances, names, discriminant types) gives
    the client the result that it had. *)
Theorem recording_sufficient (inner inner' : Handler Fallible) {A} (c : Client A) a ids :
  run (write_on_drop_db (logging_db inner)) c [] = Val (a, ids) →
  (∀ X (q : Query X) x, inner X q = Val x → (∀ id, id ∈ subjects q x → id ∈ ids) → inner' X q = Val x) →
  run inner' c = Val a.
Proof.
  intros Hrun Hagree. rewrite run_write_on_drop, run_logging in Hrun.
  apply bind_Val in Hrun as (b & Hb & Hrun). simplify_eq. eapply run_agree; [exact Hagree| |done].
  intros id Hid. apply elem_of_index_extend. by right.
Qed.

Definition logged_sample : Handler Fallible :=
  plain_db (program_db [plain_trait 0 None; plain_trait 1 None] [] [] [])
    (mkItemNames (λ _, "T") (λ _, "A") (λ _, "I") (λ _, "O") (λ _, "f")).
Definition client_sample : Client (TraitId * bool) :=
  Ask (QTraitDatum 1) (λ d, Ask (QIsObjectSafe d.(trait_datum_id)) (λ b, Done (d.(trait_datum_id), b))).

Lemma recording_sufficient_witness :
  run (write_on_drop_db (logging_db logged_sample)) client_sample [] = Val ((1%N, true), [RecTrait 1]) ∧
  run (restricted_db [RecTrait 1] logged_sample) client_sample = Val (1%N, true).
Proof.
  split; [vm_compute; reflexivity|].
  apply (recording_sufficient logged_sample (restricted_db [RecTrait 1] logged_sample) client_sample _ [RecTrait 1]).
  - vm_compute. reflexivity.
  - intros X q x Hx Hsub. unfold restricted_db. rewrite Hx. cbv [mbind outcome_bind].
    rewrite decide_True; [reflexivity|]. by apply Forall_forall.
Defined.

(** ** The identifiers that declarations name

    With [gaps], also those that are printed with a declaration and that [IdCollector] does
    not see: the trait of an impl, the type of an integer representation, and the traits of
    placeholders for associated types. *)

Section Names.
Context (db : RustIrDatabase) (gaps : bool).

Definition assoc_trait (id : AssocTypeId) : RecordedItemId :=
  RecTrait (db.(associated_ty_data) id).(assoc_trait_id).

Fixpoint ty_names (t : Ty) : list RecordedItemId :=
  match t with
  | TyAdt id s => RecAdt id :: (s ≫= arg_names)
  | TyFnDef id s => RecFnDef id :: (s ≫= arg_names)
  | TyOpaqueType id s => RecOpaqueTy id :: (s ≫= arg_names)
  | TyAssociatedType id s => (if gaps then [assoc_trait id] else []) ++ (s ≫= arg_names)
  | TyTuple _ s | TyClosure _ s | TyGenerator _ s | TyGeneratorWitness _ s | TyFunction _ _ s =>
      s ≫= arg_names
  | TyArray t _ | TySlice t | TyRaw _ t | TyRef _ _ t => ty_names t
  | TyDyn bs _ => bs.(value) ≫= λ b : QuantifiedWhereClause, where_names b.(value)
  | TyAlias a => alias_names a
  | TyScalar _ | TyStr | TyNever | TyForeign _ | TyError | TyPlaceholder _ | TyBoundVar _
  | TyInferenceVar _ _ => []
  end
with arg_names (a : GenericArg) : list RecordedItemId :=
  match a with ArgTy t => ty_names t | ArgLifetime _ | ArgConst _ => [] end
with alias_names (a : AliasTy) : list RecordedItemId :=
  match a with
  | AliasProjection id s => assoc_trait id :: (s ≫= arg_names)
  | AliasOpaque id s => RecOpaqueTy id :: (s ≫= arg_names)
  end
with where_names (w : WhereClause) : list RecordedItemId :=
  match w with
  | WcImplemented tr => RecTrait tr.(trait_id) :: (tr.(substitution) ≫= arg_names)
  | WcAliasEq a t => alias_names a ++ ty_names t
  | WcLifetimeOutlives _ _ => []
  | WcTypeOutlives t _ => ty_names t
  end.

Definition clauses_names (wcs : list QuantifiedWhereClause) : list RecordedItemId :=
  wcs ≫= λ b : QuantifiedWhereClause, where_names b.(value).

(** The parameters of inline bounds, and inline bounds with their traits. *)
Definition bound_args_names (b : InlineBound) : list RecordedItemId :=
  match b with
  | IbTraitBound b => b.(args_no_self) ≫= arg_names
  | IbAliasEqBound b =>
      (b.(aeb_trait_bound).(args_no_self) ≫= arg_names) ++ (b.(aeb_parameters) ≫= arg_names)
        ++ ty_names b.(aeb_value)
  end.
Definition bound_traits (b : InlineBound) : list RecordedItemId :=
  match b with
  | IbTraitBound b => [RecTrait b.(tb_trait_id)]
  | IbAliasEqBound b =>
      [RecTrait b.(aeb_trait_bound).(tb_trait_id); assoc_trait b.(aeb_associated_ty_id)]
  end.

(** The bounds of an associated type are about a projection, of its own trait. *)
Definition assoc_ty_names (d : AssociatedTyDatum) : list RecordedItemId :=
  let bounds := d.(assoc_binders).(value).(assoc_bounds) in
  match bounds with [] => [] | _ => [assoc_trait d.(assoc_id)] end
    ++ (bounds ≫= λ b : QuantifiedInlineBound, bound_traits b.(value) ++ bound_args_names b.(value))
    ++ clauses_names d.(assoc_binders).(value).(assoc_where_clauses).

Definition adt_names (x : AdtDatum) : list RecordedItemId :=
  (x.(adt_binders).(value).(variants) ≫= λ v, v.(fields) ≫= ty_names)
    ++ clauses_names x.(adt_binders).(value).(adt_where_clauses).
Definition fn_def_names (x : FnDefDatum) : list RecordedItemId :=
  let b := x.(fn_binders).(value) in
  (b.(inputs_and_output).(value).(argument_types) ≫= ty_names)
    ++ ty_names b.(inputs_and_output).(value).(return_type) ++ clauses_names b.(fn_where_clauses).
Definition trait_names (x : TraitDatum) : list RecordedItemId :=
  clauses_names x.(trait_binders).(value).(trait_bound_where_clauses).
Definition opaque_names (x : OpaqueTyDatum) : list RecordedItemId :=
  clauses_names x.(opaque_bound).(value).(opaque_bounds).(value)
    ++ clauses_names x.(opaque_bound).(value).(opaque_where_clauses).(value).
Definition impl_names (x : ImplDatum) : list RecordedItemId :=
  (x.(impl_binders).(value).(impl_trait_ref).(substitution) ≫= arg_names)
    ++ clauses_names x.(impl_binders).(value).(impl_where_clauses).

(** The identifiers that a recorded declaration names. *)
Definition item_names (id : RecordedItemId) : list RecordedItemId :=
  match id with
  | RecAdt id =>
      adt_names (db.(adt_datum) id)
        ++ (if gaps then match (db.(adt_repr) id).(repr_int) with Some t => ty_names t | None => [] end else [])
  | RecFnDef id => fn_def_names (db.(fn_def_datum) id)
  | RecGenerator _ => []
  | RecTrait id =>
      trait_names (db.(trait_datum) id)
        ++ ((db.(trait_datum) id).(associated_ty_ids) ≫= λ a, assoc_ty_names (db.(associated_ty_data) a))
  | RecOpaqueTy id => opaque_names (db.(opaque_ty_data) id) ++ ty_names (db.(hidden_opaque_type) id)
  | RecImpl id =>
      let impl := db.(impl_datum) id in
      (if gaps then [RecTrait impl.(impl_binders).(value).(impl_trait_ref).(trait_id)] else [])
        ++ (impl.(associated_ty_value_ids) ≫= λ v,
              ty_names (db.(associated_ty_value) v).(atv_value).(value).(atv_ty))
        ++ impl_names impl
  end.
End Names.

(** *** Every mention of an identifier, with its site

    This does not follow [IdCollector]: it lists all the identifiers in the data of a
    declaration, but for the kinds of its binders. *)

Inductive Site :=
  | SiteTerm          (** a type, an alias, a where clause, a bound *)
  | SitePlaceholder   (** the trait of a placeholder for an associated type *)
  | SiteGenerator     (** a generator type or its witness *)
  | SiteConst         (** inside the type of a constant *)
  | SiteRepr          (** inside the type of an integer representation *)
  | SiteImplTrait     (** the trait of an impl *)
  | SiteValue.        (** the trait of the associated type that an impl gives a value *)

Abbreviation Mentions := (list (Site * RecordedItemId)).

Definition at_site (s : Site) (l : Mentions) : Mentions := (λ p, (s, p.2)) <$> l.

Section Mentions.
Context (db : RustIrDatabase).

Fixpoint ty_mentions (t : Ty) : Mentions :=
  match t with
  | TyAdt id s => (SiteTerm, RecAdt id) :: (s ≫= arg_mentions)
  | TyFnDef id s => (SiteTerm, RecFnDef id) :: (s ≫= arg_mentions)
  | TyOpaqueType id s => (SiteTerm, RecOpaqueTy id) :: (s ≫= arg_mentions)
  | TyAssociatedType id s => (SitePlaceholder, assoc_trait db id) :: (s ≫= arg_mentions)
  | TyGenerator id s | TyGeneratorWitness id s =>
      (SiteGenerator, RecGenerator id) :: (s ≫= arg_mentions)
  | TyTuple _ s | TyClosure _ s | TyFunction _ _ s => s ≫= arg_mentions
  | TyArray t c => ty_mentions t ++ const_mentions c
  | TySlice t | TyRaw _ t | TyRef _ _ t => ty_mentions t
  | TyDyn bs _ => bs.(value) ≫= λ b : QuantifiedWhereClause, where_mentions b.(value)
  | TyAlias a => alias_mentions a
  | TyScalar _ | TyStr | TyNever | TyForeign _ | TyError | TyPlaceholder _ | TyBoundVar _
  | TyInferenceVar _ _ => []
  end
with const_mentions (c : Const) : Mentions :=
  match c with mkConst t _ => at_site SiteConst (ty_mentions t) end
with arg_mentions (a : GenericArg) : Mentions :=
  match a with ArgTy t => ty_mentions t | ArgLifetime _ => [] | ArgConst c => const_mentions c end
with alias_mentions (a : AliasTy) : Mentions :=
  match a with
  | AliasProjection id s => (SiteTerm, assoc_trait db id) :: (s ≫= arg_mentions)
  | AliasOpaque id s => (SiteTerm, RecOpaqueTy id) :: (s ≫= arg_mentions)
  end
with where_mentions (w : WhereClause) : Mentions :=
  match w with
  | WcImplemented tr => (SiteTerm, RecTrait tr.(trait_id)) :: (tr.(substitution) ≫= arg_mentions)
  | WcAliasEq a t => alias_mentions a ++ ty_mentions t
  | WcLifetimeOutlives _ _ => []
  | WcTypeOutlives t _ => ty_mentions t
  end.

Definition clauses_mentions (wcs : list QuantifiedWhereClause) : Mentions :=
  wcs ≫= λ b : QuantifiedWhereClause, where_mentions b.(value).

Definition bound_mentions (b : InlineBound) : Mentions :=
  match b with
  | IbTraitBound b => (SiteTerm, RecTrait b.(tb_trait_id)) :: (b.(args_no_self) ≫= arg_mentions)
  | IbAliasEqBound b =>
      [(SiteTerm, RecTrait b.(aeb_trait_bound).(tb_trait_id));
       (SiteTerm, assoc_trait db b.(aeb_associated_ty_id))]
        ++ (b.(aeb_trait_bound).(args_no_self) ≫= arg_mentions) ++ (b.(aeb_parameters) ≫= arg_mentions)
        ++ ty_mentions b.(aeb_value)
  end.

(** The bounds of an associated type are about a projection, of its own trait. *)
Definition assoc_ty_mentions (d : AssociatedTyDatum) : Mentions :=
  let bounds := d.(assoc_binders).(value).(assoc_bounds) in
  match bounds with [] => [] | _ => [(SiteTerm, assoc_trait db d.(assoc_id))] end
    ++ (bounds ≫= λ b : QuantifiedInlineBound, bound_mentions b.(value))
    ++ clauses_mentions d.(assoc_binders).(value).(assoc_where_clauses).

Definition item_mentions (id : RecordedItemId) : Mentions :=
  match id with
  | RecAdt id =>
      let b := (db.(adt_datum) id).(adt_binders).(value) in
      (b.(variants) ≫= λ v, v.(fields) ≫= ty_mentions) ++ clauses_mentions b.(adt_where_clauses)
        ++ match (db.(adt_repr) id).(repr_int) with
           | Some t => at_site SiteRepr (ty_mentions t) | None => [] end
  | RecFnDef id =>
      let b := (db.(fn_def_datum) id).(fn_binders).(value) in
      (b.(inputs_and_output).(value).(argument_types) ≫= ty_mentions)
        ++ ty_mentions b.(inputs_and_output).(value).(return_type)
        ++ clauses_mentions b.(fn_where_clauses)
  | RecGenerator _ => []
  | RecTrait id =>
      clauses_mentions (db.(trait_datum) id).(trait_binders).(value).(trait_bound_where_clauses)
        ++ ((db.(trait_datum) id).(associated_ty_ids) ≫= λ a,
              assoc_ty_mentions (db.(associated_ty_data) a))
  | RecOpaqueTy id =>
      let b := (db.(opaque_ty_data) id).(opaque_bound).(value) in
      (clauses_mentions b.(opaque_bounds).(value) ++ clauses_mentions b.(opaque_where_clauses).(value))
        ++ ty_mentions (db.(hidden_opaque_type) id)
  | RecImpl id =>
      let b := (db.(impl_datum) id).(impl_binders).(value) in
      [(SiteImplTrait, RecTrait b.(impl_trait_ref).(trait_id))]
        ++ ((db.(impl_datum) id).(associated_ty_value_ids) ≫= λ v,
              (SiteValue, assoc_trait db (db.(associated_ty_value) v).(atv_associated_ty_id))
                :: ty_mentions (db.(associated_ty_value) v).(atv_value).(value).(atv_ty))
        ++ (b.(impl_trait_ref).(substitution) ≫= arg_mentions)
        ++ clauses_mentions b.(impl_where_clauses)
  end.

(** What is mentioned in terms. *)
Definition in_terms (l : Mentions) : list RecordedItemId :=
  l ≫= λ p, match p.1 with SiteTerm => [p.2] | _ => [] end.

Lemma in_terms_elem l x : x ∈ in_terms l ↔ (SiteTerm, x) ∈ l.
Proof.
  unfold in_terms. rewrite list_elem_of_bind. split.
  - intros ([[] y] & Hx & Hp); simpl in Hx; try (by apply elem_of_nil in Hx).
    by apply list_elem_of_singleton in Hx as ->.
  - intros Hx. exists (SiteTerm, x). split; [by apply list_elem_of_singleton|done].
Qed.

Lemma in_terms_app l k : in_terms (l ++ k) = in_terms l ++ in_terms k.
Proof. apply bind_app. Qed.
Lemma in_terms_at_site s l : s ≠ SiteTerm → in_terms (at_site s l) = [].
Proof. intros Hs. induction l as [|p l IH]; [done|]. by destruct s. Qed.
Lemma in_terms_bind {A} (f : A → Mentions) (g : A → list RecordedItemId) l :
  Forall (λ x, in_terms (f x) = g x) l → in_terms (l ≫= f) = l ≫= g.
Proof. induction 1 as [|x l Hx _ IH]; [done|]. by rewrite !bind_cons, in_terms_app, Hx, IH. Qed.

Lemma term_mentions :
  (∀ t, in_terms (ty_mentions t) = ty_names db false t) ∧
  (∀ c, in_terms (const_mentions c) = []) ∧
  (∀ a, in_terms (arg_mentions a) = arg_names db false a) ∧
  (∀ a, in_terms (alias_mentions a) = alias_names db false a) ∧
  (∀ w, in_terms (where_mentions w) = where_names db false w).
Proof.
  apply term_ind. constructor; intros; try done; simpl;
    rewrite ?in_terms_app, ?in_terms_at_site by done; rewrite ?H, ?H0, ?app_nil_r;
    try (first [done|by apply in_terms_bind|f_equal; by apply in_terms_bind]).
Qed.

Lemma clauses_in_terms wcs : in_terms (clauses_mentions wcs) = clauses_names db false wcs.
Proof. apply in_terms_bind, Forall_forall. intros. apply term_mentions. Qed.
Lemma types_in_terms l : in_terms (l ≫= ty_mentions) = l ≫= ty_names db false.
Proof. apply in_terms_bind, Forall_forall. intros. apply term_mentions. Qed.
Lemma args_in_terms l : in_terms (l ≫= arg_mentions) = l ≫= arg_names db false.
Proof. apply in_terms_bind, Forall_forall. intros. apply term_mentions. Qed.
Lemma type_in_terms t : in_terms (ty_mentions t) = ty_names db false t.
Proof. apply term_mentions. Qed.

Lemma bound_in_terms b : in_terms (bound_mentions b) = bound_traits db b ++ bound_args_names db false b.
Proof.
  destruct b; simpl; unfold bound_args_names;
    by rewrite ?in_terms_app, ?args_in_terms, ?type_in_terms.
Qed.

Lemma assoc_ty_in_terms d : in_terms (assoc_ty_mentions d) = assoc_ty_names db false d.
Proof.
  unfold assoc_ty_mentions, assoc_ty_names. rewrite !in_terms_app, clauses_in_terms. f_equal; [by case_match|].
  f_equal. apply in_terms_bind, Forall_forall. intros. apply bound_in_terms.
Qed.

Lemma item_in_terms id : in_terms (item_mentions id) = item_names db false id.
Proof.
  destruct id as [a|t|i|o|f|g]; [..|done]; simpl; rewrite ?in_terms_app, ?clauses_in_terms.
  - unfold adt_names. rewrite <- app_assoc. f_equal.
    + apply in_terms_bind, Forall_forall. intros. apply types_in_terms.
    + f_equal. destruct (repr_int _); [by rewrite in_terms_at_site|done].
  - unfold trait_names. f_equal. apply in_terms_bind, Forall_forall. intros. apply assoc_ty_in_terms.
  - unfold impl_names. rewrite args_in_terms. f_equal.
    apply in_terms_bind, Forall_forall. intros. simpl. apply type_in_terms.
  - by rewrite type_in_terms.
  - unfold fn_def_names. by rewrite types_in_terms, type_in_terms.
Qed.
End Mentions.

(** ** The collector finds what is named *)

Section Collector.
Context (db : RustIrDatabase) (names : ItemNames).
Abbreviation V := (IdCollector (plain_db db names)).

Definition visits_to (m : ST (list RecordedItemId) unit) (l : list RecordedItemId) : Prop :=
  ∀ found, m found = Val (tt, index_extend found l).

Lemma visits_to_ret : visits_to (mret tt) [].
Proof. by intros found. Qed.

Lemma visits_to_collect id : visits_to (collect id) [id].
Proof. by intros found. Qed.

Lemma visits_to_seq m m' l l' : visits_to m l → visits_to m' l' → visits_to (m ≫= λ _, m') (l ++ l').
Proof. intros Hm Hm' found. cbv [mbind ST_bind]. by rewrite Hm, Hm', index_extend_app. Qed.

Lemma visits_to_iter {A} (f : A → ST (list RecordedItemId) unit) (g : A → list RecordedItemId) (l : list A) :
  Forall (λ x, visits_to (f x) (g x)) l → visits_to (visit_iter f l) (l ≫= g).
Proof. induction 1 as [|x l Hx _ IH]; [apply visits_to_ret|]. by apply visits_to_seq. Qed.

Lemma visits_to_query {A} (q : Query A) x m l :
  plain_db db names A q = Val x → visits_to (m x) l → visits_to (query (plain_db db names) q ≫= m) l.
Proof. intros Hq Hm found. cbv [mbind ST_bind query st_lift]. rewrite Hq. simpl. apply Hm. Qed.

Lemma visits_to_alias a :
  visits_to (collector_visit_alias (plain_db db names) a) (take 1 (alias_names db false a)).
Proof. destruct a as [id s|id s]; simpl; rewrite ?take_0; intros found; reflexivity. Qed.

Lemma visits_to_args s d :
  Forall (λ a, ∀ d, visits_to (visit_arg V a d) (arg_names db false a)) s →
  visits_to (visit_iter (λ p, visit_arg V p d) s) (s ≫= arg_names db false).
Proof. intros Hs. apply visits_to_iter. eapply Forall_impl; [exact Hs|]. eauto. Qed.

Lemma visits_to_leaf bv d : visits_to (visit_var V bv d) [].
Proof. unfold visit_var. by destruct (shifted_out_to bv d). Qed.

Lemma visits_to_lifetime l d : visits_to (visit_lifetime V l d) [].
Proof. destruct l; try apply visits_to_leaf; apply visits_to_ret. Qed.

Lemma visits_to_const c d : visits_to (visit_const V c d) [].
Proof. destruct c as [t []]; try apply visits_to_leaf; apply visits_to_ret. Qed.

Lemma visits_to_bounds (bs : list QuantifiedWhereClause) d :
  Forall (λ b : QuantifiedWhereClause, ∀ d, visits_to (visit_where V b.(value) d) (where_names db false b.(value))) bs →
  visits_to (visit_iter (λ b : QuantifiedWhereClause, visit_where V b.(value) d) bs) (clauses_names db false bs).
Proof.
  intros Hbs. apply (visits_to_iter _ (λ b : QuantifiedWhereClause, where_names db false b.(value))).
  eapply Forall_impl; [exact Hbs|]. eauto.
Qed.

#[local] Hint Resolve visits_to_ret visits_to_collect visits_to_alias visits_to_args visits_to_leaf
  visits_to_lifetime visits_to_const visits_to_bounds : visits.

#[local] Ltac apply_hyp := match goal with H : ∀ d, visits_to _ _ |- _ => apply H end.

Lemma visits_to_terms :
  (∀ t d, visits_to (visit_ty V t d) (ty_names db false t)) ∧
  (∀ c d, visits_to (visit_const V c d) []) ∧
  (∀ a d, visits_to (visit_arg V a d) (arg_names db false a)) ∧
  (∀ a d, visits_to (visit_alias V a d) (drop 1 (alias_names db false a))) ∧
  (∀ w d, visits_to (visit_where V w d) (where_names db false w)).
Proof.
  apply term_ind. constructor; intros; auto with visits.
  - apply (visits_to_seq (collect (RecAdt id)) _ [RecAdt id]); auto with visits.
  - by apply visits_to_args.
  - by apply visits_to_args.
  - rewrite <- (app_nil_r (ty_names _ _ _)). apply (visits_to_seq (visit_ty V t d)); auto with visits.
  - by apply_hyp.
  - by apply_hyp.
  - apply (visits_to_seq (visit_lifetime V l d) _ []); auto with visits.
  - apply (visits_to_seq (collect (RecOpaqueTy id)) _ [RecOpaqueTy id]); auto with visits.
  - apply (visits_to_seq (collect (RecFnDef id)) _ [RecFnDef id]); auto with visits.
  - by apply visits_to_args.
  - by apply visits_to_args.
  - by apply visits_to_args.
  - rewrite <- (app_nil_r (ty_names _ _ _)).
    apply (visits_to_seq (visit_iter (λ b : QuantifiedWhereClause, visit_where V b.(value) _) bs)); auto with visits.
  - rewrite <- (take_drop 1 (ty_names _ _ _)).
    apply (visits_to_seq (collector_visit_alias _ a)); [apply visits_to_alias|by apply_hyp].
  - by apply visits_to_args.
  - apply visits_to_leaf.
  - by apply_hyp.
  - apply visits_to_lifetime.
  - apply visits_to_const.
  - by apply visits_to_args.
  - by apply visits_to_args.
  - apply (visits_to_seq (collect (RecTrait id)) _ [RecTrait id]); auto with visits.
  - change (where_names db false (WcAliasEq a t)) with (alias_names db false a ++ ty_names db false t).
    rewrite <- (take_drop 1 (alias_names _ _ _)), <- app_assoc.
    apply (visits_to_seq (collector_visit_alias _ a)); [apply visits_to_alias|].
    apply (visits_to_seq (visit_alias V a d)); auto.
  - apply (visits_to_seq (visit_lifetime V a d) _ []); auto with visits.
  - rewrite <- (app_nil_r (where_names _ _ _)). apply (visits_to_seq (visit_ty V t d)); auto with visits.
Qed.

Lemma visits_to_clauses wcs d : visits_to (visit_with V (wcs : list QuantifiedWhereClause) d) (clauses_names db false wcs).
Proof. apply (visits_to_bounds wcs). apply Forall_forall. intros. apply visits_to_terms. Qed.

Lemma visits_to_subst (s : list GenericArg) d : visits_to (visit_with V s d) (s ≫= arg_names db false).
Proof. apply visits_to_args, Forall_forall. intros. apply visits_to_terms. Qed.

Lemma visits_to_ty (t : Ty) d : visits_to (visit_with V t d) (ty_names db false t).
Proof. apply visits_to_terms. Qed.

Lemma visits_to_tys (l : list Ty) d : visits_to (visit_with V l d) (l ≫= ty_names db false).
Proof. apply visits_to_iter, Forall_forall. intros. apply visits_to_terms. Qed.

(** *** The bounds of an associated type *)

Definition bound_arg (a : GenericArg) : Prop := ∃ k bv, a = to_bound_variable k bv.

Lemma bound_args_names_nil g s : Forall bound_arg s → s ≫= arg_names db g = [].
Proof. induction 1 as [|? s (k & bv & ->) _ IH]; [done|]. rewrite bind_cons, IH. by destruct k. Qed.

Lemma bound_args_shift n s :
  Forall bound_arg s → ∃ s', mapM (λ p, fold_arg (Shifter n) p 0) s = Val s' ∧ Forall bound_arg s'.
Proof.
  induction 1 as [|? s (k & bv & ->) _ (s' & Hs & Hs')]; [by exists []|].
  exists (to_bound_variable k (Shifter_adjust n bv 0) :: s'). split; [|by constructor; [do 2 eexists|]].
  simpl. rewrite Hs. destruct k, bv as [d i]; simpl; by rewrite ?Nat.sub_0_r.
Qed.

Lemma identity_bound_args {T} (b : Binders T) : Forall bound_arg (identity_substitution b).
Proof.
  apply Forall_lookup. intros i a Ha. unfold identity_substitution in Ha.
  rewrite list_lookup_imap in Ha. destruct (b.(binders) !! i) as [k|]; simplify_eq/=. by exists k, (mkBoundVar INNERMOST i).
Qed.

Lemma shift_projection id s s' :
  mapM (λ p, fold_arg (Shifter 1) p 0) s = Val s' →
  term_shifted_in (TyAlias (AliasProjection id s)) = Val (TyAlias (AliasProjection id s')).
Proof.
  intros Hs. unfold term_shifted_in, term_shifted_in_from.
  change (fold_with (Shifter ONE) (TyAlias (AliasProjection id s)) INNERMOST)
    with (a ← (s ← mapM (λ p, fold_arg (Shifter 1) p 0) s; mret (AliasProjection id s)); mret (TyAlias a)).
  by rewrite Hs.
Qed.

Lemma mapM_Val_map {E A B} (f : A → outcome E B) (g : A → B) l :
  (∀ x, f x = Val (g x)) → mapM f l = Val (map g l).
Proof. intros Hf. induction l as [|x l IH]; [done|]. simpl. by rewrite Hf, IH. Qed.

(** The where clauses of a bound, under its binder. *)
Lemma inline_bound_names id s (b : QuantifiedInlineBound) x :
  Forall bound_arg s →
  x ∈ clauses_names db false (binders_into_iter
        (binders_map (λ b, inline_bound_into_where_clauses b (TyAlias (AliasProjection id s))) b))
    ∨ x ∈ bound_args_names db false b.(value)
  ↔ x = assoc_trait db id ∨ x ∈ bound_traits db b.(value) ++ bound_args_names db false b.(value).
Proof.
  intros Hs%(bound_args_names_nil false). destruct b as [ks [[t args]|[[t args] a ps v]]];
    cbn [binders_into_iter binders_map fmap list_fmap inline_bound_into_where_clauses value
      trait_bound_into_where_clauses alias_eq_bound_into_where_clauses clauses_names bound_args_names bound_traits
      aeb_trait_bound aeb_associated_ty_id aeb_parameters aeb_value tb_trait_id args_no_self
      as_trait_ref trait_id substitution];
    unfold clauses_names; rewrite !bind_cons; simpl; rewrite ?bind_app, ?bind_cons; simpl; rewrite Hs;
    set_solver.
Qed.

Lemma bounds_on_self_names (d : AssociatedTyDatum) :
  ∃ wcs, bounds_on_self d = Val wcs ∧
    ∀ x, x ∈ clauses_names db false wcs ++ (d.(assoc_binders).(value).(assoc_bounds) ≫= λ b, bound_args_names db false b.(value))
           ++ clauses_names db false d.(assoc_binders).(value).(assoc_where_clauses)
         ↔ x ∈ assoc_ty_names db false d.
Proof.
  destruct (bound_args_shift 1 _ (identity_bound_args d.(assoc_binders))) as (s & Hs & Hbound).
  set (clauses := λ b : QuantifiedInlineBound, binders_into_iter
    (binders_map (λ b, inline_bound_into_where_clauses b (TyAlias (AliasProjection d.(assoc_id) s))) b)).
  set (bounds := d.(assoc_binders).(value).(assoc_bounds)).
  exists (concat (map clauses bounds)). split.
  { unfold bounds_on_self. erewrite (mapM_Val_map _ clauses); [done|].
    intros b. unfold into_where_clauses. by rewrite (shift_projection _ _ _ Hs). }
  assert (∀ x, x ∈ clauses_names db false (concat (map clauses bounds))
                 ∨ x ∈ (bounds ≫= λ b, bound_args_names db false b.(value))
               ↔ (bounds ≠ [] ∧ x = assoc_trait db d.(assoc_id))
                 ∨ x ∈ (bounds ≫= λ b, bound_traits db b.(value) ++ bound_args_names db false b.(value))) as Hnames.
  { intros x. induction bounds as [|b bs IH]; [set_solver|].
    cbn [map concat]. unfold clauses_names in *. rewrite bind_app, !bind_cons, !elem_of_app.
    pose proof (inline_bound_names d.(assoc_id) s b x Hbound) as Hb. unfold clauses_names in Hb. fold (clauses b) in Hb.
    rewrite elem_of_app in Hb. naive_solver. }
  intros x. unfold assoc_ty_names. fold bounds. rewrite !elem_of_app. specialize (Hnames x).
  assert (x ∈ match bounds with [] => [] | _ => [assoc_trait db d.(assoc_id)] end
    ↔ bounds ≠ [] ∧ x = assoc_trait db d.(assoc_id)) as Hhead by (destruct bounds; set_solver). tauto.
Qed.

(** *** The loop *)

Lemma visits_to_assoc_ty (d : AssociatedTyDatum) wcs :
  visits_to (visit_with V wcs INNERMOST ≫= λ _, visit_with V d INNERMOST)
    (clauses_names db false wcs ++ (d.(assoc_binders).(value).(assoc_bounds) ≫= λ b, bound_args_names db false b.(value))
       ++ clauses_names db false d.(assoc_binders).(value).(assoc_where_clauses)).
Proof.
  apply visits_to_seq; [apply visits_to_clauses|]. apply (visits_to_seq _ _ _); [|apply visits_to_clauses].
  apply visits_to_iter, Forall_forall. intros [ks [[t args]|[[t args] a ps v]]] _; [apply visits_to_subst|].
  apply visits_to_seq; [apply visits_to_subst|]. apply (visits_to_seq _ _ _); [apply visits_to_subst|apply visits_to_ty].
Qed.

(** A visit of a list whose traces are known up to order and repetition. *)
Lemma visits_to_iter_set {A} (f : A → ST (list RecordedItemId) unit) (g : A → list RecordedItemId) (l : list A) :
  Forall (λ x, ∃ k, visits_to (f x) k ∧ ∀ y, y ∈ k ↔ y ∈ g x) l →
  ∃ k, visits_to (visit_iter f l) k ∧ ∀ y, y ∈ k ↔ y ∈ l ≫= g.
Proof.
  induction 1 as [|x l (k & Hk & Hset) _ (k' & Hk' & Hset')]; [by exists []; split; [apply visits_to_ret|]|].
  exists (k ++ k'). split; [by apply visits_to_seq|]. intros y. rewrite bind_cons, !elem_of_app. naive_solver.
Qed.

Lemma collect_item_names id :
  (∀ g, id ≠ RecGenerator g) →
  ∃ l, visits_to (collect_item (plain_db db names) id) l ∧ ∀ x, x ∈ l ↔ x ∈ item_names db false id.
Proof.
  intros Hid. destruct id as [a|t|i|o|f|g]; [| | | | |by destruct (Hid g)].
  - exists (adt_names db false (db.(adt_datum) a)). split; [|intros x; simpl; by rewrite app_nil_r].
    eapply visits_to_query; [done|]. refine (visits_to_seq _ _ _ _ _ (visits_to_clauses _ _)).
    apply visits_to_iter, Forall_forall. intros v _. apply visits_to_tys.
  - destruct (visits_to_iter_set (λ assoc_ty_id,
        query (plain_db db names) (QAssociatedTyData assoc_ty_id) ≫= λ assoc_ty_datum,
        st_lift (bounds_on_self assoc_ty_datum) ≫= λ bounds,
        visit_with V bounds INNERMOST ≫= λ _, visit_with V assoc_ty_datum INNERMOST)
      (λ a, assoc_ty_names db false (db.(associated_ty_data) a)) (db.(trait_datum) t).(associated_ty_ids)) as (k & Hk & Hset).
    { apply Forall_forall. intros a _. destruct (bounds_on_self_names (db.(associated_ty_data) a)) as (wcs & Hwcs & Hset).
      eexists. split; [|exact Hset]. eapply visits_to_query; [done|].
      intros found. cbv [st_lift mbind ST_bind]. rewrite Hwcs. apply (visits_to_assoc_ty _ wcs). }
    exists (trait_names db false (db.(trait_datum) t) ++ k). split.
    + eapply visits_to_query; [done|]. apply visits_to_seq; [apply visits_to_clauses|exact Hk].
    + intros x. simpl. rewrite !elem_of_app. naive_solver.
  - exists (item_names db false (RecImpl i)). split; [|done]. eapply visits_to_query; [done|].
    refine (visits_to_seq _ _ _ _ _ (visits_to_seq _ _ _ _ (visits_to_subst _ _) (visits_to_clauses _ _))).
    apply visits_to_iter, Forall_forall. intros v _. eapply visits_to_query; [done|]. apply visits_to_ty.
  - exists (item_names db false (RecOpaqueTy o)). split; [|done]. eapply visits_to_query; [done|].
    refine (visits_to_seq _ _ _ _ (visits_to_seq _ _ _ _ (visits_to_clauses _ _) (visits_to_clauses _ _)) _).
    eapply visits_to_query; [done|]. apply visits_to_ty.
  - exists (item_names db false (RecFnDef f)). split; [|done]. eapply visits_to_query; [done|].
    unfold item_names, fn_def_names. rewrite app_assoc.
    exact (visits_to_seq _ _ _ _ (visits_to_seq _ _ _ _ (visits_to_tys _ _) (visits_to_ty _ _)) (visits_to_clauses _ _)).
Qed.

Lemma collect_generator ids g :
  RecGenerator g ∈ ids → ∀ found, visit_iter (collect_item (plain_db db names)) ids found = Panic PExplicit.
Proof.
  induction ids as [|i ids IH]; intros Hg found; [by apply elem_of_nil in Hg|].
  assert (i = RecGenerator g ∨ (∃ g, i = RecGenerator g) ∨ ∀ g, i ≠ RecGenerator g) as [->|[[? ->]|Hi]]
    by (destruct i; naive_solver); [done..|].
  apply elem_of_cons in Hg as [<-|Hg]; [by destruct (Hi g)|].
  destruct (collect_item_names i Hi) as (l & Hl & _). simpl. cbv [mbind ST_bind]. rewrite Hl. by apply IH.
Qed.

End Collector.

(** Impls and generators are never named, so never stubbed. *)
Definition stubbable (id : RecordedItemId) : Prop :=
  match id with RecImpl _ | RecGenerator _ => False | _ => True end.

Lemma subst_stubbable db g (s : list GenericArg) :
  Forall (λ a, Forall stubbable (arg_names db g a)) s → Forall stubbable (s ≫= arg_names db g).
Proof. intros Hs. by apply Forall_bind. Qed.

Lemma terms_stubbable db g :
  (∀ t, Forall stubbable (ty_names db g t)) ∧ (∀ c : Const, True) ∧
  (∀ a, Forall stubbable (arg_names db g a)) ∧ (∀ a, Forall stubbable (alias_names db g a)) ∧
  (∀ w, Forall stubbable (where_names db g w)).
Proof.
  apply term_ind. constructor; intros; simpl; repeat (apply Forall_cons_2; [done|]); rewrite ?Forall_app;
    repeat split; auto using subst_stubbable.
  - by destruct g; repeat constructor.
  - apply Forall_bind. eapply Forall_impl; [eassumption|]. done.
Qed.

Lemma clauses_stubbable db g wcs : Forall stubbable (clauses_names db g wcs).
Proof. apply Forall_bind, Forall_forall. intros. apply terms_stubbable. Qed.

Lemma item_names_stubbable db g id : Forall stubbable (item_names db g id).
Proof.
  pose proof (terms_stubbable db g) as (Hty & _ & Harg & _ & _). pose proof (clauses_stubbable db g) as Hwcs.
  assert (∀ s, Forall stubbable (s ≫= arg_names db g)) as Hargs by (intros; by apply subst_stubbable, Forall_forall).
  assert (∀ l, Forall stubbable (l ≫= ty_names db g)) as Htys by (intros; apply Forall_bind, Forall_forall; auto).
  destruct id as [a|t|i|o|f|]; simpl; unfold adt_names, trait_names, impl_names, opaque_names, fn_def_names;
    rewrite ?Forall_app; repeat split; auto; try (by destruct g; repeat constructor).
  - apply Forall_bind, Forall_forall. auto.
  - destruct g; [|constructor]. destruct (repr_int _); [auto|constructor].
  - apply Forall_bind, Forall_forall. intros a _. unfold compose, assoc_ty_names. rewrite !Forall_app. split_and!; [..|auto].
    + case_match; repeat constructor.
    + apply Forall_bind, Forall_forall. intros [ks [[]|[[]]]] _; unfold compose; simpl;
        repeat (apply Forall_cons_2; [done|]); rewrite ?Forall_app; repeat split; auto.
  - apply Forall_bind, Forall_forall. auto.
Qed.

Lemma collect_exact (db : RustIrDatabase) (names : ItemNames) ids :
  (collect_unrecorded_ids (plain_db db names) ids = Panic PExplicit ∧ ∃ g, RecGenerator g ∈ ids) ∨
  (∃ result, collect_unrecorded_ids (plain_db db names) ids = Val result ∧
     (∀ g, RecGenerator g ∉ ids) ∧ NoDup result ∧ Forall stubbable result ∧
     ∀ x, x ∈ result ↔ x ∉ ids ∧ ∃ i, i ∈ ids ∧ x ∈ item_names db false i).
Proof.
  destruct (decide (List.Exists (λ i, match i with RecGenerator _ => true | _ => false end = true) ids)) as [Hg|Hg].
  - left. apply Exists_exists in Hg as ([] & Hg & ?); try done. split; [|eauto].
    unfold collect_unrecorded_ids. by rewrite (collect_generator db names _ _ Hg).
  - right. rewrite Exists_exists in Hg.
    destruct (visits_to_iter_set (collect_item (plain_db db names)) (item_names db false) ids) as (l & Hl & Hset).
    { apply Forall_forall. intros i Hi. apply collect_item_names. intros g ->. apply Hg. by eexists. }
    assert (∀ x, x ∈ index_difference (index_extend [] l) ids ↔ x ∉ ids ∧ ∃ i, i ∈ ids ∧ x ∈ item_names db false i) as Hmem.
    { intros x. rewrite elem_of_index_difference, elem_of_index_extend, Hset, list_elem_of_bind. set_solver. }
    eexists. split; [unfold collect_unrecorded_ids; by rewrite Hl|]. split_and!.
    + intros g Hi. apply Hg. by eexists.
    + apply NoDup_filter, NoDup_index_extend, NoDup_nil_2.
    + apply Forall_forall. intros x Hx%Hmem. destruct Hx as (_ & i & _ & Hx).
      pose proof (item_names_stubbable db false i) as Hall. rewrite Forall_forall in Hall. auto.
    + exact Hmem.
Qed.

(** C38. [collect_unrecorded_ids] is exact: it panics when a generator has been recorded
    ([unimplemented!]), and otherwise returns, without duplicates, the identifiers that
    the recorded declarations mention in their terms and that are not recorded
    themselves.  Terms are the types, aliases, where clauses and bounds of a
    declaration, the values of its associated types and its hidden type.  What is
    mentioned elsewhere only is not returned: the trait of an impl and of the associated
    types that it gives values, the traits of placeholders for associated types,
    generators, and what occurs in the types of constants and of integer
    representations.  None of the result is an impl or a generator, which cannot be
    stubbed. *)
Theorem collect_unrecorded_ids_exact (db : RustIrDatabase) (names : ItemNames) ids :
  (collect_unrecorded_ids (plain_db db names) ids = Panic PExplicit ∧ ∃ g, RecGenerator g ∈ ids) ∨
  (∃ result, collect_unrecorded_ids (plain_db db names) ids = Val result ∧
     (∀ g, RecGenerator g ∉ ids) ∧ NoDup result ∧ Forall stubbable result ∧
     ∀ x, x ∈ result ↔ x ∉ ids ∧ ∃ i, i ∈ ids ∧ (SiteTerm, x) ∈ item_mentions db i).
Proof.
  destruct (collect_exact db names ids) as [Hp|(result & Hr & Hg & Hd & Hs & Hx)]; [by left|].
  right. exists result. split_and!; [done..|]. intros x. rewrite Hx.
  by setoid_rewrite <- item_in_terms; setoid_rewrite in_terms_elem.
Qed.
