(* ===== verification/Display.v ===== *)
(** * Printing programs ([chalk-solve/src/display.rs], [display/*.rs])

    The items that the logging database has recorded are printed as source text that the
    parser reads back.  A printer is a state transformer of the names given so far that
    returns the text it writes; [display_type_with_generics], which prints the parameters
    when it is called and the name when it is displayed, returns a printer.  Parameters of
    projections are split after each has become a printer. *)

From stdpp Require Import base list numbers gmap strings pretty.
From S2P Require Import Prelude LowerEnv Program Ir Fold FoldLaws Shift Zip Visit RustIr LoggingDb.

(** ** Names ([display/state.rs]) *)

Record InvertedBoundVar := mkInvertedBoundVar {
  inverted_debrujin_idx : Z;
  within_idx : nat
}.
#[global] Instance InvertedBoundVar_eq_dec : EqDecision InvertedBoundVar. Proof. solve_decision. Defined.
#[global] Instance InvertedBoundVar_countable : Countable InvertedBoundVar :=
  inj_countable' (λ v, (v.(inverted_debrujin_idx), v.(within_idx)))
    (λ p, mkInvertedBoundVar p.1 p.2) (λ '(mkInvertedBoundVar _ _), eq_refl).

Definition display_inverted_bound_var (v : InvertedBoundVar) : string :=
  "_" +:+ pretty v.(inverted_debrujin_idx) +:+ "_" +:+ pretty v.(within_idx).

Inductive UnifiedId := UAdtId (id : AdtId) | UDefId (id : N).
#[global] Instance UnifiedId_eq_dec : EqDecision UnifiedId. Proof. solve_decision. Defined.
#[global] Instance UnifiedId_countable : Countable UnifiedId :=
  inj_countable' (λ u, match u with UAdtId a => inl a | UDefId d => inr d end)
    (λ s, match s with inl a => UAdtId a | inr d => UDefId d end)
    (λ u, match u with UAdtId _ | UDefId _ => eq_refl end).

Record IdAliasStore := mkIdAliasStore {
  aliases : gmap UnifiedId N;
  next_unused_for_name : gmap string N
}.
Definition IdAliasStore_default : IdAliasStore := mkIdAliasStore ∅ ∅.

Abbreviation W := (ST IdAliasStore).

Definition alias_text (name : string) (alias : N) : string :=
  if decide (alias = 0%N) then name else name +:+ "_" +:+ pretty alias.

(** [IdAliasStore::alias_for_id_name]. *)
Definition alias_for_id_name (id : UnifiedId) (name : string) : W string := λ self,
  match self.(aliases) !! id with
  | Some alias => Val (alias_text name alias, self)
  | None =>
      let next_unused := default 0%N (self.(next_unused_for_name) !! name) in
      if (next_unused <? u32_MAX)%N then
        Val (alias_text name next_unused,
             mkIdAliasStore (<[id := next_unused]> self.(aliases))
               (<[name := (next_unused + 1)%N]> self.(next_unused_for_name)))
      else Panic POverflow
  end.

(** The part of [InternalWriterState] that is not shared. *)
Record InternalWriterState := mkInternalWriterState {
  indent_level : nat;
  debrujin_indices_deep : nat;
  remapping : gmap InvertedBoundVar InvertedBoundVar;
  self_mapping : option InvertedBoundVar
}.
Definition InternalWriterState_new : InternalWriterState := mkInternalWriterState 0 0 ∅ None.

Definition add_indent (self : InternalWriterState) : InternalWriterState :=
  mkInternalWriterState (self.(indent_level) + 1) self.(debrujin_indices_deep) self.(remapping)
    self.(self_mapping).

Fixpoint repeat_text (n : nat) (text : string) : string :=
  match n with 0 => EmptyString | S n => text +:+ repeat_text n text end.
Definition indent (self : InternalWriterState) : string := repeat_text self.(indent_level) "  ".

Definition invert_debrujin_idx (self : InternalWriterState) (debrujin_idx : nat) (index : nat) :
    InvertedBoundVar :=
  mkInvertedBoundVar (Z.of_nat self.(debrujin_indices_deep) - Z.of_nat debrujin_idx) index.

Definition indices_for_bound_var (self : InternalWriterState) (b : BoundVar) : InvertedBoundVar :=
  invert_debrujin_idx self b.(debruijn) b.(index).
Definition indices_for_introduced_bound_var (self : InternalWriterState) (idx : nat) :
    InvertedBoundVar := invert_debrujin_idx self 0 idx.

Definition add_debrujin_index (self : InternalWriterState) (self_binding : option nat) :
    InternalWriterState :=
  let new_state := mkInternalWriterState self.(indent_level) (self.(debrujin_indices_deep) + 1)
    self.(remapping) self.(self_mapping) in
  mkInternalWriterState new_state.(indent_level) new_state.(debrujin_indices_deep)
    new_state.(remapping)
    (match self_binding with
     | Some idx => Some (indices_for_introduced_bound_var new_state idx)
     | None => self.(self_mapping)
     end).

(** Collecting into a [BTreeMap]: a later entry replaces an earlier one. *)
Definition add_parameter_mapping (self : InternalWriterState)
    (lowered_vars original_vars : list InvertedBoundVar) : InternalWriterState :=
  mkInternalWriterState self.(indent_level) self.(debrujin_indices_deep)
    (foldl (λ m p, <[p.1 := p.2]> m) self.(remapping) (zip lowered_vars original_vars))
    self.(self_mapping).

Definition apply_mappings (self : InternalWriterState) (b : InvertedBoundVar) : string :=
  let remapped := default b (self.(remapping) !! b) in
  if decide (self.(self_mapping) = Some remapped) then "Self"
  else display_inverted_bound_var remapped.

Definition display_bound_var (self : InternalWriterState) (b : BoundVar) : string :=
  apply_mappings self (indices_for_bound_var self b).
Definition name_for_introduced_bound_var (self : InternalWriterState) (idx : nat) : string :=
  apply_mappings self (indices_for_introduced_bound_var self idx).

Definition binder_var_indices (self : InternalWriterState) (binders : list VariableKind) :
    list InvertedBoundVar :=
  imap (λ idx _, indices_for_introduced_bound_var self idx) binders.

Definition binder_var_display (self : InternalWriterState) (binders : list VariableKind) : list string :=
  zip_with (λ parameter var,
    match parameter with
    | VkTy _ => apply_mappings self var
    | VkLifetime => "'" +:+ apply_mappings self var
    | VkConst _ => "const " +:+ apply_mappings self var
    end) binders (binder_var_indices self binders).

(** ** Lists of printers ([display/utils.rs] and the [format] of itertools) *)

Definition format_list (sep : string) (list : list (W string)) : W string :=
  strs ← mapM id list; mret (String.concat sep strs).

(** [write_joined_non_empty_list!], with the text of the template around the list. *)
Definition write_joined_non_empty_list (before after sep : string) (list : list (W string)) : W string :=
  strs ← mapM id list;
  mret (match strs with
        | [] => EmptyString
        | _ => before +:+ String.concat sep strs +:+ after
        end).

(** [&parameters[1..]] and [parameters[0]]. *)
Definition slice_from_1 {A} (l : list A) : W (list A) :=
  match l with [] => mpanic PIndex | _ :: l => mret l end.
Definition index_0 {A} (l : list A) : W A :=
  match l with [] => mpanic PIndex | x :: _ => mret x end.
Definition st_unwrap {A} (o : option A) : W A :=
  match o with Some x => mret x | None => mpanic PUnwrap end.

(** A line break. *)
Definition nl : string := String (Ascii.ascii_of_nat 10) EmptyString.

Section Display.
Context (db : Handler Fallible).

Definition ask {A} (q : Query A) : W A := st_lift (db A q).

(** ** Identifiers ([display/identifiers.rs]) *)

Definition render_adt_id (id : AdtId) : W string :=
  name ← ask (QAdtName id); alias_for_id_name (UAdtId id) name.
Definition render_trait_id (id : TraitId) : W string :=
  name ← ask (QTraitName id); alias_for_id_name (UDefId id) name.
Definition render_assoc_type_id (id : AssocTypeId) : W string :=
  name ← ask (QAssocTypeName id); alias_for_id_name (UDefId id) name.
Definition render_opaque_ty_id (id : OpaqueTyId) : W string :=
  name ← ask (QOpaqueTypeName id); alias_for_id_name (UDefId id) name.

(** ** Splits of parameters, by any database *)

Definition db_split_associated_ty_parameters {P} (params : list P)
    (associated_ty_datum : AssociatedTyDatum) : W (list P * list P) :=
  trait_datum ← ask (QTraitDatum associated_ty_datum.(assoc_trait_id));
  let trait_num_params := length trait_datum.(trait_binders).(binders) in
  split_point ← st_lift (usize_sub (length params) trait_num_params);
  '(other_params, trait_params) ← st_lift (split_at params split_point);
  mret (trait_params, other_params).

Definition db_split_projection {P} (associated_ty_id : AssocTypeId) (parameters : list P) :
    W (AssociatedTyDatum * list P * list P) :=
  associated_ty_data ← ask (QAssociatedTyData associated_ty_id);
  '(trait_params, other_params) ← db_split_associated_ty_parameters parameters associated_ty_data;
  mret (associated_ty_data, trait_params, other_params).

Definition db_split_associated_ty_value_parameters {P} (params : list P)
    (associated_ty_value : AssociatedTyValue) : W (list P * list P) :=
  impl_datum ← ask (QImplDatum associated_ty_value.(atv_impl_id));
  let impl_params_len := binders_len impl_datum.(impl_binders) in
  _ ← st_lift (assert (impl_params_len <=? length params));
  split_point ← st_lift (usize_sub (length params) impl_params_len);
  '(other_params, impl_params) ← st_lift (split_at params split_point);
  mret (impl_params, other_params).

(** ** Types with their parameters ([display.rs]) *)

Definition display_type_with_generics (type_name : W string) (trait_params : list (W string)) :
    W (W string) :=
  trait_params_str ← write_joined_non_empty_list "<" ">" ", " trait_params;
  mret (name ← type_name; mret (name +:+ trait_params_str)).

Definition display_trait_with_assoc_ty_value (assoc_ty_datum : AssociatedTyDatum)
    (trait_params assoc_ty_params : list (W string)) (assoc_ty_value : W string) : W string :=
  trait ← render_trait_id assoc_ty_datum.(assoc_trait_id);
  params ← write_joined_non_empty_list EmptyString ", " ", " trait_params;
  assoc_ty ← render_assoc_type_id assoc_ty_datum.(assoc_id);
  assoc_params ← write_joined_non_empty_list "<" ">" ", " assoc_ty_params;
  value ← assoc_ty_value;
  mret (trait +:+ "<" +:+ params +:+ assoc_ty +:+ assoc_params +:+ "=" +:+ value +:+ ">").

(** ** Types ([display/ty.rs]) *)

Definition render_scalar (self : Scalar) : string :=
  match self with
  | ScBool => "bool"
  | ScChar => "char"
  | ScInt Isize => "isize" | ScInt I8 => "i8" | ScInt I16 => "i16" | ScInt I32 => "i32"
  | ScInt I64 => "i64" | ScInt I128 => "i128"
  | ScUint Usize => "usize" | ScUint U8 => "u8" | ScUint U16 => "u16" | ScUint U32 => "u32"
  | ScUint U64 => "u64" | ScUint U128 => "u128"
  | ScFloat F32 => "f32" | ScFloat F64 => "f64"
  end.

Definition render_lifetime (s : InternalWriterState) (self : Lifetime) : string :=
  match self with
  | LtBoundVar v => "'" +:+ display_bound_var s v
  | LtInferenceVar _ => "'_"
  | LtPlaceholder ix =>
      "'_placeholder_" +:+ pretty ix.(ui).(counter) +:+ "_" +:+ pretty ix.(idx)
  | LtStatic => "'static"
  | LtEmpty _ => "'<empty>"
  | LtErased => "'_"
  end.

(** [ConstData] and [ConstValue]: the type of the constant is not printed. *)
Definition render_const (s : InternalWriterState) (self : Const) : string :=
  match const_value self with
  | CvBoundVar v => display_bound_var s v
  | CvInferenceVar _ => "_"
  | CvPlaceholder _ => "<const placeholder>"
  | CvConcrete value => pretty value
  end.

(** The prefix [forall<..> ] of a quantified clause, in the state of its binders. *)
Definition render_forall (s : InternalWriterState) (binders : list VariableKind) : string :=
  match binders with
  | [] => EmptyString
  | _ => "forall<" +:+ String.concat ", " (binder_var_display s binders) +:+ "> "
  end.

Definition render_lifetime_outlives (s : InternalWriterState) (a b : Lifetime) : string :=
  render_lifetime s a +:+ ": " +:+ render_lifetime s b.

Definition is_ty_arg (arg : GenericArg) : bool := match arg with ArgTy _ => true | _ => false end.

(** [ProjectionTy], with its parameters as printers. *)
Definition render_projection (associated_ty_id : AssocTypeId) (parameters : list (W string)) : W string :=
  '(assoc_ty_datum, trait_params, assoc_type_params) ← db_split_projection associated_ty_id parameters;
  self_param ← index_0 trait_params;
  other_params ← slice_from_1 trait_params;
  trait_display ← display_type_with_generics (render_trait_id assoc_ty_datum.(assoc_trait_id)) other_params;
  self_ty ← self_param;
  trait ← trait_display;
  assoc_ty ← render_assoc_type_id assoc_ty_datum.(assoc_id);
  params ← write_joined_non_empty_list "<" ">" ", " assoc_type_params;
  mret ("<" +:+ self_ty +:+ " as " +:+ trait +:+ ">::" +:+ assoc_ty +:+ params).

Definition render_opaque_alias (opaque_ty_id : OpaqueTyId) (parameters : list (W string)) : W string :=
  display ← display_type_with_generics (render_opaque_ty_id opaque_ty_id) parameters; display.

(** The clause [Trait<A, B, Assoc=T>] of an alias, without the self type. *)
Definition render_alias_eq_bound (associated_ty_id : AssocTypeId) (parameters : list (W string))
    (ty : W string) : W string :=
  '(assoc_ty_datum, trait_params, assoc_type_params) ← db_split_projection associated_ty_id parameters;
  other_params ← slice_from_1 trait_params;
  display_trait_with_assoc_ty_value assoc_ty_datum other_params assoc_type_params ty.

(** A placeholder for an associated type. *)
Definition render_associated_type (assoc_type_id : AssocTypeId) (types params : list (W string)) : W string :=
  datum ← ask (QAssociatedTyData assoc_type_id);
  _ ← st_lift (assert (1 <=? length types));
  first ← st_unwrap (head types);
  self_ty ← first;
  trait ← render_trait_id datum.(assoc_trait_id);
  assoc_ty ← render_assoc_type_id datum.(assoc_id);
  params ← slice_from_1 params;
  params ← write_joined_non_empty_list "<" ">" "," params;
  mret ("<" +:+ self_ty +:+ " as " +:+ trait +:+ ">::" +:+ assoc_ty +:+ params).

(** [FnPointer], in the state of its binder. *)
Definition render_fn_pointer (s : InternalWriterState) (num_binders : nat) (parameters : list (W string)) :
    W string :=
  let for_ :=
    if 0 <? num_binders then
      "for<" +:+ String.concat ", "
        (map (λ n, "'" +:+ name_for_introduced_bound_var s n) (seq 0 num_binders)) +:+ "> "
    else EmptyString in
  len ← st_lift (usize_sub (length parameters) 1);
  last ← match parameters !! len with Some last => mret last | None => mpanic PIndex end;
  inputs ← format_list ", " (take len parameters);
  output ← (last : W string);
  mret (for_ +:+ "fn(" +:+ inputs +:+ ") -> " +:+ output).

Fixpoint render_ty (s : InternalWriterState) (self : Ty) : W string :=
  match self with
  | TyAdt sid substitution =>
      name ← render_adt_id sid;
      params ← write_joined_non_empty_list "<" ">" ", " (map (render_arg s) substitution);
      mret (name +:+ params)
  | TyAssociatedType assoc_type_id substitution =>
      render_associated_type assoc_type_id
        (omap (λ p : bool * W string, if p.1 then Some p.2 else None)
           (map (λ p, (is_ty_arg p, render_arg s p)) substitution))
        (map (render_arg s) substitution)
  | TyScalar scalar => mret (render_scalar scalar)
  | TyTuple arity substitution =>
      params ← format_list ", " (map (render_arg s) substitution);
      mret ("(" +:+ params +:+ (if arity =? 1 then "," else EmptyString) +:+ ")")
  | TyOpaqueType opaque_ty_id substitution =>
      render_opaque_alias opaque_ty_id (map (render_arg s) substitution)
  | TyRaw mutability ty =>
      ty ← render_ty s ty;
      mret (match mutability with Mut => "*mut " | Not => "*const " end +:+ ty)
  | TyRef mutability lifetime ty =>
      ty ← render_ty s ty;
      mret ("&" +:+ render_lifetime s lifetime
              +:+ match mutability with Mut => " mut " | Not => " " end +:+ ty)
  | TyStr => mret "str"
  | TySlice ty => ty ← render_ty s ty; mret ("[" +:+ ty +:+ "]")
  | TyError => mret "{error}"
  | TyNever => mret "!"
  | TyFnDef _ _ => mret "<fn_def>"
  | TyClosure _ _ => mret "<closure>"
  | TyForeign _ => mret "<foreign>"
  | TyGenerator _ _ => mret "<generator>"
  | TyGeneratorWitness _ _ => mret "<generator_witness>"
  | TyArray ty const_ =>
      ty ← render_ty s ty;
      mret ("[" +:+ ty +:+ "; " +:+ render_const s const_ +:+ "]")
  | TyDyn bounds lifetime =>
      let s1 := add_debrujin_index s None in
      bounds ← format_list " + "
        (map (λ bound : QuantifiedWhereClause,
           let s2 := add_debrujin_index s1 None in
           clause ← render_bound s2 bound.(value);
           mret (render_forall s2 bound.(binders) +:+ clause)) bounds.(value));
      mret ("dyn " +:+ bounds +:+ " + " +:+ render_lifetime s lifetime)
  | TyBoundVar bound_var => mret (display_bound_var s bound_var)
  | TyInferenceVar _ _ => mret "_"
  | TyAlias alias_ty => render_alias s alias_ty
  | TyFunction num_binders _ substitution =>
      let s := add_debrujin_index s None in
      render_fn_pointer s num_binders (map (render_arg s) substitution)
  | TyPlaceholder _ => mret "<placeholder>"
  end
with render_arg (s : InternalWriterState) (self : GenericArg) : W string :=
  match self with
  | ArgTy ty => render_ty s ty
  | ArgLifetime lt => mret (render_lifetime s lt)
  | ArgConst const_ty => mret (render_const s const_ty)
  end
with render_alias (s : InternalWriterState) (self : AliasTy) : W string :=
  match self with
  | AliasProjection id substitution => render_projection id (map (render_arg s) substitution)
  | AliasOpaque id substitution => render_opaque_alias id (map (render_arg s) substitution)
  end
with render_bound (s : InternalWriterState) (self : WhereClause) : W string :=
  match self with
  | WcImplemented trait_ref =>
      params ← slice_from_1 (map (render_arg s) trait_ref.(substitution));
      display ← display_type_with_generics (render_trait_id trait_ref.(trait_id)) params;
      display
  | WcAliasEq (AliasProjection id substitution) ty =>
      render_alias_eq_bound id (map (render_arg s) substitution) (render_ty s ty)
  | WcAliasEq (AliasOpaque id substitution) _ =>
      render_opaque_alias id (map (render_arg s) substitution)
  | WcLifetimeOutlives a b => mret (render_lifetime_outlives s a b)
  | WcTypeOutlives ty lifetime =>
      ty ← render_ty s ty; mret (ty +:+ ": " +:+ render_lifetime s lifetime)
  end.

(** [display_self_where_clauses_as_bounds], as [TyDyn] prints its bounds. *)
Definition display_self_where_clauses_as_bounds (s : InternalWriterState)
    (bounds : list QuantifiedWhereClause) : W string :=
  format_list " + "
    (map (λ bound : QuantifiedWhereClause,
       let s := add_debrujin_index s None in
       clause ← render_bound s bound.(value);
       mret (render_forall s bound.(binders) +:+ clause)) bounds).

(** ** Bounds and where clauses ([display/bounds.rs]) *)

(** [TraitRef], as a where clause. *)
Definition render_trait_ref (s : InternalWriterState) (self : TraitRef) : W string :=
  self_ty ← st_lift (self_type_parameter self.(substitution));
  params ← slice_from_1 self.(substitution);
  display ← display_type_with_generics (render_trait_id self.(trait_id)) (map (render_arg s) params);
  self_ty ← render_ty s self_ty;
  trait ← display;
  mret (self_ty +:+ ": " +:+ trait).

(** [AliasEq], as a where clause. *)
Definition render_alias_eq (s : InternalWriterState) (alias : AliasTy) (ty : Ty) : W string :=
  match alias with
  | AliasProjection id substitution =>
      '(assoc_ty_datum, trait_params, assoc_type_params) ← db_split_projection id substitution;
      self_param ← index_0 trait_params;
      other_params ← slice_from_1 trait_params;
      self_ty ← render_arg s self_param;
      trait ← display_trait_with_assoc_ty_value assoc_ty_datum (map (render_arg s) other_params)
                (map (render_arg s) assoc_type_params) (render_ty s ty);
      mret (self_ty +:+ ": " +:+ trait)
  | AliasOpaque id substitution => render_opaque_alias id (map (render_arg s) substitution)
  end.

Definition render_where (s : InternalWriterState) (self : WhereClause) : W string :=
  match self with
  | WcImplemented trait_ref => render_trait_ref s trait_ref
  | WcAliasEq alias ty => render_alias_eq s alias ty
  | WcLifetimeOutlives a b => mret (render_lifetime_outlives s a b)
  | WcTypeOutlives ty lifetime =>
      ty ← render_ty s ty; mret (ty +:+ ": " +:+ render_lifetime s lifetime)
  end.

Definition render_quantified {T} (render : InternalWriterState → T → W string)
    (s : InternalWriterState) (self : Binders T) : W string :=
  let s := add_debrujin_index s None in
  clause ← render s self.(value);
  mret (render_forall s self.(binders) +:+ clause).

(** [Vec<QuantifiedWhereClause>]. *)
Definition render_where_clauses (s : InternalWriterState) (self : list QuantifiedWhereClause) : W string :=
  format_list ("," +:+ nl)
    (map (λ where_clause, clause ← render_quantified render_where s where_clause;
                          mret (indent s +:+ clause)) self).

Definition render_trait_bound (s : InternalWriterState) (self : TraitBound) : W string :=
  display ← display_type_with_generics (render_trait_id self.(tb_trait_id))
              (map (render_arg s) self.(args_no_self));
  display.
Definition render_inline_bound (s : InternalWriterState) (self : InlineBound) : W string :=
  match self with
  | IbTraitBound trait_bound => render_trait_bound s trait_bound
  | IbAliasEqBound eq_bound =>
      assoc_ty_datum ← ask (QAssociatedTyData eq_bound.(aeb_associated_ty_id));
      display_trait_with_assoc_ty_value assoc_ty_datum
        (map (render_arg s) eq_bound.(aeb_trait_bound).(args_no_self))
        (map (render_arg s) eq_bound.(aeb_parameters)) (render_ty s eq_bound.(aeb_value))
  end.

(** ** Items ([display/items.rs]) *)

(** [write_flags!]. *)
Definition write_flag (set : bool) (name : string) : string :=
  if set then "#[" +:+ name +:+ "]" +:+ nl else EmptyString.

(** The where clauses of an item, on lines of their own. *)
Definition render_item_where (s : InternalWriterState) (where_clauses : list QuantifiedWhereClause) :
    W string :=
  match where_clauses with
  | [] => mret " "
  | _ =>
      clauses ← render_where_clauses (add_indent s) where_clauses;
      mret (nl +:+ "where" +:+ nl +:+ clauses +:+ nl)
  end.

Definition render_fields (s : InternalWriterState) (fields : list Ty) : W string :=
  write_joined_non_empty_list nl nl ("," +:+ nl)
    (imap (λ idx field, field ← render_ty s field;
                        mret (indent s +:+ "field_" +:+ pretty idx +:+ ": " +:+ field)) fields).

Definition render_adt_kind (kind : AdtKind) : string :=
  match kind with Struct => "struct " | Enum => "enum " | Union => "union " end.

Definition render_adt_datum (s : InternalWriterState) (self : AdtDatum) : W string :=
  let s := add_debrujin_index s None in
  let value := self.(adt_binders).(value) in
  let flags := write_flag self.(adt_flags).(adt_upstream) "upstream"
    +:+ write_flag self.(adt_flags).(adt_fundamental) "fundamental"
    +:+ write_flag self.(adt_flags).(phantom_data) "phantom_data" in
  repr ← ask (QAdtRepr self.(adt_id));
  repr_int ← match repr.(repr_int) with
             | Some t => t ← render_ty s t; mret ("#[repr(" +:+ t +:+ ")]")
             | None => mret EmptyString
             end;
  name ← render_adt_id self.(adt_id);
  params ← write_joined_non_empty_list "<" ">" ", "
             (map mret (binder_var_display s self.(adt_binders).(binders)));
  clauses ← render_item_where s value.(adt_where_clauses);
  let s := add_indent s in
  body ← match self.(adt_kind) with
    | Struct | Union => variant ← index_0 value.(variants); render_fields s variant.(fields)
    | Enum =>
        format_list EmptyString
          (imap (λ variant_idx variant,
             let s1 := add_indent s in
             fields ← render_fields s1 variant.(fields);
             mret (nl +:+ indent s +:+ "variant_" +:+ pretty variant_idx +:+ " {" +:+ fields
                     +:+ indent s1 +:+ "},")) value.(variants))
    end;
  mret (flags
    +:+ (if repr.(repr_c) then "#[repr(C)]" else EmptyString)
    +:+ (if repr.(repr_packed) then "#[repr(packed)]" else EmptyString)
    +:+ repr_int +:+ render_adt_kind self.(adt_kind) +:+ name +:+ params +:+ clauses
    +:+ "{" +:+ body +:+ "}").

Definition render_polarity (self : Polarity) : string :=
  if polarity_is_positive self then EmptyString else "!".

Definition render_well_known (well_known : WellKnownTrait) : string :=
  match well_known with
  | WkSized => "sized" | WkCopy => "copy" | WkClone => "clone" | WkDrop => "drop"
  | WkFnOnce => "fn_once" | WkFnMut => "fn_mut" | WkFn => "fn" | WkUnsize => "unsize"
  | WkUnpin => "unpin" | WkCoerceUnsized => "coerce_unsized"
  | WkDiscriminantKind => "discriminant_kind" | WkGenerator => "generator"
  end.

(** The state in which an associated type or its value is printed: the parameters that
    come from the trait or the impl keep the names they have there. *)
Definition assoc_ty_state (s : InternalWriterState) (outer_binders : list VariableKind)
    (params_from_outer : list InvertedBoundVar) : InternalWriterState :=
  add_parameter_mapping (add_debrujin_index s None) params_from_outer (binder_var_indices s outer_binders).

Definition render_associated_ty_datum (s : InternalWriterState) (self : AssociatedTyDatum) : W string :=
  trait_datum ← ask (QTraitDatum self.(assoc_trait_id));
  '(trait_param_names_in_assoc_ty_env, _) ← db_split_associated_ty_parameters
    (binder_var_indices (add_debrujin_index s None) self.(assoc_binders).(binders)) self;
  let s := assoc_ty_state s trait_datum.(trait_binders).(binders) trait_param_names_in_assoc_ty_env in
  '(_, assoc_ty_params) ← db_split_associated_ty_parameters
    (binder_var_display s self.(assoc_binders).(binders)) self;
  name ← render_assoc_type_id self.(assoc_id);
  params ← write_joined_non_empty_list "<" ">" ", " (map mret assoc_ty_params);
  let datum_bounds := self.(assoc_binders).(value) in
  bounds ← format_list " + " (map (render_quantified render_inline_bound s) datum_bounds.(assoc_bounds));
  clauses ← match datum_bounds.(assoc_where_clauses) with
    | [] => mret EmptyString
    | where_clauses =>
        clauses ← render_where_clauses (add_indent s) where_clauses;
        mret (nl +:+ indent s +:+ "where" +:+ nl +:+ clauses)
    end;
  mret ("type " +:+ name +:+ params
    +:+ match datum_bounds.(assoc_bounds) with [] => EmptyString | _ => ": " end
    +:+ bounds +:+ clauses +:+ ";").

Definition render_associated_ty_value (s : InternalWriterState) (self : AssociatedTyValue) : W string :=
  assoc_ty_data ← ask (QAssociatedTyData self.(atv_associated_ty_id));
  impl_datum ← ask (QImplDatum self.(atv_impl_id));
  '(impl_params_in_assoc_ty_value_env, _) ← db_split_associated_ty_value_parameters
    (binder_var_indices (add_debrujin_index s None) self.(atv_value).(binders)) self;
  let s := assoc_ty_state s impl_datum.(impl_binders).(binders) impl_params_in_assoc_ty_value_env in
  '(_, assoc_ty_value_display) ← db_split_associated_ty_value_parameters
    (binder_var_display s self.(atv_value).(binders)) self;
  name ← render_assoc_type_id assoc_ty_data.(assoc_id);
  params ← write_joined_non_empty_list "<" ">" ", " (map mret assoc_ty_value_display);
  ty ← render_ty s self.(atv_value).(value).(atv_ty);
  mret (indent s +:+ "type " +:+ name +:+ params +:+ " = " +:+ ty +:+ ";").

Definition render_trait_datum (s : InternalWriterState) (self : TraitDatum) : W string :=
  let s := add_debrujin_index s (Some 0) in
  let flags := self.(trait_flags) in
  let flags := write_flag flags.(auto) "auto" +:+ write_flag flags.(marker) "marker"
    +:+ write_flag flags.(trait_upstream) "upstream"
    +:+ write_flag flags.(trait_fundamental) "fundamental"
    +:+ write_flag flags.(non_enumerable) "non_enumerable"
    +:+ write_flag flags.(coinductive) "coinductive" in
  object_safe ← ask (QIsObjectSafe self.(trait_datum_id));
  let lang := match self.(well_known) with
    | Some well_known => "#[lang(" +:+ render_well_known well_known +:+ ")]" +:+ nl
    | None => EmptyString
    end in
  name ← render_trait_id self.(trait_datum_id);
  params ← write_joined_non_empty_list "<" ">" ", "
             (map mret (drop 1 (binder_var_display s self.(trait_binders).(binders))));
  clauses ← render_item_where s self.(trait_binders).(value).(trait_bound_where_clauses);
  let s := add_indent s in
  body ← write_joined_non_empty_list nl nl nl
    (map (λ assoc_ty_id,
       assoc_ty_data ← ask (QAssociatedTyData assoc_ty_id);
       assoc_ty ← render_associated_ty_datum s assoc_ty_data;
       mret (indent s +:+ assoc_ty)) self.(associated_ty_ids));
  mret (flags +:+ (if object_safe : bool then "#[object_safe]" +:+ nl else EmptyString) +:+ lang
    +:+ "trait " +:+ name +:+ params +:+ clauses +:+ "{" +:+ body +:+ "}").

Definition render_impl_datum (s : InternalWriterState) (self : ImplDatum) : W string :=
  let s := add_debrujin_index s None in
  let value := self.(impl_binders).(value) in
  let trait_ref := value.(impl_trait_ref) in
  params ← write_joined_non_empty_list "<" ">" ", "
             (map mret (binder_var_display s self.(impl_binders).(binders)));
  trait_params ← slice_from_1 trait_ref.(substitution);
  full_trait_name ← display_type_with_generics (render_trait_id trait_ref.(trait_id))
                      (map (render_arg s) trait_params);
  self_ty ← st_lift (self_type_parameter trait_ref.(substitution));
  trait ← full_trait_name;
  self_ty ← render_ty s self_ty;
  clauses ← render_item_where s value.(impl_where_clauses);
  let s := add_indent s in
  body ← write_joined_non_empty_list nl nl nl
    (map (λ assoc_ty_value_id,
       assoc_ty_value ← ask (QAssociatedTyValue assoc_ty_value_id);
       render_associated_ty_value s assoc_ty_value) self.(associated_ty_value_ids));
  mret ((if decide (self.(impl_type) = ImplExternal) then "#[upstream]" +:+ nl else EmptyString)
    +:+ "impl" +:+ params +:+ " " +:+ render_polarity self.(polarity) +:+ trait +:+ " for " +:+ self_ty
    +:+ clauses +:+ "{" +:+ body +:+ "}").

Definition render_opaque_ty_datum (s : InternalWriterState) (self : OpaqueTyDatum) : W string :=
  let s := add_debrujin_index s None in
  let bounds := self.(opaque_bound).(value) in
  name ← render_opaque_ty_id self.(opaque_ty_id);
  params ← write_joined_non_empty_list "<" ">" ", "
             (map mret (binder_var_display s self.(opaque_bound).(binders)));
  clauses ← display_self_where_clauses_as_bounds (add_debrujin_index s (Some 0))
              bounds.(opaque_bounds).(value);
  hidden ← ask (QHiddenOpaqueType self.(opaque_ty_id));
  hidden ← render_ty s hidden;
  mret ("opaque type " +:+ name +:+ params +:+ ": " +:+ clauses +:+ " = " +:+ hidden +:+ ";").

Definition render_fn_def_datum (s : InternalWriterState) (self : FnDefDatum) : W string :=
  let s := add_debrujin_index s None in
  let bound_datum := self.(fn_binders).(value) in
  name ← ask (QFnDefName self.(fn_id));
  params ← write_joined_non_empty_list "<" ">" ", "
             (map mret (binder_var_display s self.(fn_binders).(binders)));
  let s1 := add_debrujin_index s None in
  let inputs_and_output := bound_datum.(inputs_and_output).(value) in
  arguments ← format_list ", "
    (imap (λ idx arg, arg ← render_ty s1 arg; mret ("arg_" +:+ pretty idx +:+ ": " +:+ arg))
       inputs_and_output.(argument_types));
  output ← render_ty s1 inputs_and_output.(return_type);
  clauses ← match bound_datum.(fn_where_clauses) with
    | [] => mret EmptyString
    | where_clauses =>
        clauses ← render_where_clauses (add_indent s) where_clauses;
        mret (nl +:+ "where" +:+ nl +:+ clauses)
    end;
  mret ("fn " +:+ name +:+ params +:+ "(" +:+ arguments +:+ ") -> " +:+ output +:+ clauses +:+ ";").

(** ** Programs ([display.rs]) *)

(** The body of the loop of [write_items]. *)
Definition write_item (id : RecordedItemId) : W string :=
  let s := InternalWriterState_new in
  text ← match id with
    | RecImpl id => v ← ask (QImplDatum id); render_impl_datum s v
    | RecAdt id => v ← ask (QAdtDatum id); render_adt_datum s v
    | RecTrait id => v ← ask (QTraitDatum id); render_trait_datum s v
    | RecOpaqueTy id => v ← ask (QOpaqueTyData id); render_opaque_ty_datum s v
    | RecFnDef id => v ← ask (QFnDefDatum id); render_fn_def_datum s v
    | RecGenerator id =>
        _ ← ask (QGeneratorDatum id); _ ← ask (QGeneratorWitnessDatum id); mpanic PExplicit
    end;
  mret (text +:+ nl).

Definition write_items (ids : list RecordedItemId) : W string :=
  format_list EmptyString (map write_item ids).
End Display.

(** ** Stubs ([display/stub.rs]) *)

(** [unimplemented!] and [unreachable!]. *)
Definition stub_db (db : Handler Fallible) : Handler Fallible := λ A q,
  match q in Query A return Fallible A with
  | QCustomClauses => db _ QCustomClauses
  | QAssociatedTyData ty =>
      v ← db _ (QAssociatedTyData ty);
      Val (mkAssociatedTyDatum v.(assoc_trait_id) v.(assoc_id) v.(assoc_name)
             (mkBinders v.(assoc_binders).(binders) (mkAssociatedTyDatumBound [] [])))
  | QTraitDatum trait_id =>
      v ← db _ (QTraitDatum trait_id);
      Val (mkTraitDatum v.(trait_datum_id)
             (mkBinders v.(trait_binders).(binders) (mkTraitDatumBound []))
             v.(trait_flags) v.(associated_ty_ids) v.(well_known))
  | QAdtDatum adt_id =>
      v ← db _ (QAdtDatum adt_id);
      let variants := match v.(adt_kind) with
        | Struct | Union => [mkAdtVariantDatum []]
        | Enum => []
        end in
      Val (mkAdtDatum (mkBinders v.(adt_binders).(binders) (mkAdtDatumBound variants []))
             v.(RustIr.adt_id) v.(adt_flags) v.(adt_kind))
  | QAdtRepr id => db _ (QAdtRepr id)
  | QFnDefDatum fn_def_id =>
      v ← db _ (QFnDefDatum fn_def_id);
      Val (mkFnDefDatum v.(fn_id) v.(fn_sig)
             (mkBinders v.(fn_binders).(binders)
                (mkFnDefDatumBound v.(fn_binders).(value).(inputs_and_output) [])))
  | QImplDatum _ => Panic PUnreachable
  | QAssociatedTyValue _ => Panic PUnreachable
  | QOpaqueTyData id =>
      v ← db _ (QOpaqueTyData id);
      Val (mkOpaqueTyDatum v.(RustIr.opaque_ty_id)
             (mkBinders v.(opaque_bound).(binders)
                (mkOpaqueTyDatumBound (mkBinders [] []) (mkBinders [] []))))
  | QHiddenOpaqueType _ => Val (TyTuple 0 [])
  | QImplsForTrait _ _ _ => Panic PExplicit
  | QLocalImplsToCoherenceCheck trait_id => db _ (QLocalImplsToCoherenceCheck trait_id)
  | QImplProvidedFor _ _ => Panic PExplicit
  | QWellKnownTraitId well_known_trait => db _ (QWellKnownTraitId well_known_trait)
  | QProgramClausesForEnv environment => db _ (QProgramClausesForEnv environment)
  | QIsObjectSafe trait_id => db _ (QIsObjectSafe trait_id)
  | QClosureKind _ _ => Panic PExplicit
  | QClosureInputsAndOutput _ _ => Panic PExplicit
  | QClosureUpvars _ _ => Panic PExplicit
  | QGeneratorDatum _ => Panic PExplicit
  | QGeneratorWitnessDatum _ => Panic PExplicit
  | QClosureFnSubstitution _ _ => Panic PExplicit
  | QFnDefVariance id => db _ (QFnDefVariance id)
  | QAdtVariance id => db _ (QAdtVariance id)
  | QTraitName id => db _ (QTraitName id)
  | QAdtName id => db _ (QAdtName id)
  | QAssocTypeName id => db _ (QAssocTypeName id)
  | QOpaqueTypeName id => db _ (QOpaqueTypeName id)
  | QFnDefName id => db _ (QFnDefName id)
  | QDiscriminantType ty => db _ (QDiscriminantType ty)
  end.

Definition write_stub_items (db : Handler Fallible) (ids : list RecordedItemId) : W string :=
  write_items (stub_db db) ids.

(** [Display] of [LoggingRustIrDatabase]: the stubs, then the recorded items. *)
Definition fmt_logging_db (db : Handler Fallible) (def_ids : list RecordedItemId) : W string :=
  stub_ids ← st_lift (collect_unrecorded_ids db def_ids);
  stubs ← write_stub_items db stub_ids;
  items ← write_items db def_ids;
  mret (stubs +:+ items).

(** ** The names of a lowered program

    [RustIrDatabase]'s default names are the debug names of the interner, sanitized; a
    [Program] overrides [assoc_type_name].  The names of identifiers that the program does
    not declare are those of the debug structs; an undeclared associated type panics. *)

Definition debug_invalid (struct : string) (id : N) : string :=
  struct +:+ " { index: #" +:+ pretty id +:+ " }".
Definition debug_kind (struct : string) (kinds : gmap N TypeKind) (id : N) : string :=
  match kinds !! id with Some k => k.(tk_name) | None => debug_invalid struct id end.

Definition program_names (missing : AssocTypeId → string) (self : Program) : ItemNames := {|
  adt_name id := sanitize_debug_name (debug_kind "InvalidAdtId" self.(adt_kinds) id);
  trait_name id := sanitize_debug_name (debug_kind "InvalidTraitId" self.(trait_kinds) id);
  assoc_type_name id :=
    match self.(prog_associated_ty_data) !! id with Some d => d.(assoc_name) | None => missing id end;
  opaque_type_name id := sanitize_debug_name (debug_kind "InvalidOpaqueTyId" self.(opaque_ty_kinds) id);
  fn_def_name id := sanitize_debug_name (debug_kind "InvalidFnDefId" self.(fn_def_kinds) id)
|}.
