(* ===== verification/DisplayThm.v ===== *)
(** * Printed programs resolve

    The names that printing gives: those of bound variables are never captured, those of
    items are distinct up to a known exception, and every item named in the text of a
    logged program is an item of that text. *)

From Stdlib Require Import Ascii.
From stdpp Require Import base list numbers gmap strings pretty.
From S2P Require Import Prelude Ast LowerEnv Lowering Program ProgramLowerer Ir IrCountable Fold FoldLaws Shift Zip Visit RustIr Programs LoweringThm LoggingDb Display.

(** ** Texts that end in a number *)

Fixpoint no_underscore (s : string) : Prop :=
  match s with EmptyString => True | String c s => c ≠ "_"%char ∧ no_underscore s end.

Lemma no_underscore_pretty_N_go x s : no_underscore s → no_underscore (pretty_N_go x s).
Proof.
  revert s. induction (N.lt_wf_0 x) as [x _ IH]; intros s Hs.
  destruct (decide (x = 0%N)) as [->|]; [done|].
  rewrite pretty_N_go_step by lia. apply IH; [apply N.div_lt; lia|].
  split; [|done]. unfold pretty_N_char. by repeat case_match.
Qed.

Lemma no_underscore_pretty_N (n : N) : no_underscore (pretty n).
Proof. unfold pretty, pretty_N. case_decide; [done|]. by apply no_underscore_pretty_N_go. Qed.

Lemma no_underscore_pretty_nat (n : nat) : no_underscore (pretty n).
Proof. apply no_underscore_pretty_N. Qed.

Lemma no_underscore_pretty_Z (z : Z) : no_underscore (pretty z).
Proof. destruct z; [done|apply no_underscore_pretty_N|]. split; [done|apply no_underscore_pretty_N]. Qed.

Lemma split_underscore s1 s2 d1 d2 :
  no_underscore d1 → no_underscore d2 → s1 +:+ String "_" d1 = s2 +:+ String "_" d2 → s1 = s2 ∧ d1 = d2.
Proof.
  intros Hd1 Hd2. revert s2. induction s1 as [|c s1 IH]; intros [|c' s2] Heq; cbn in Heq; simplify_eq; [done|..].
  - exfalso. clear -Hd1. induction s2 as [|c s2 IH]; cbn in Hd1; naive_solver.
  - exfalso. clear -Hd2. induction s1 as [|c s1 IH]; cbn in Hd2; naive_solver.
  - destruct (IH s2) as [-> ->]; done.
Qed.

Lemma display_inverted_inj u v :
  display_inverted_bound_var u = display_inverted_bound_var v → u = v.
Proof.
  destruct u as [z i], v as [z' i']. unfold display_inverted_bound_var. intros Heq.
  cbn in Heq. injection Heq as Heq.
  apply (split_underscore (pretty z) (pretty z') (pretty i) (pretty i')) in Heq as [Hz Hi];
    auto using no_underscore_pretty_nat. by simplify_eq.
Qed.

Lemma display_inverted_not_self v : display_inverted_bound_var v ≠ "Self".
Proof. done. Qed.

(** ** The names of bound variables *)

Lemma apply_mappings_inj s u v :
  s.(remapping) = ∅ → apply_mappings s u = apply_mappings s v → u = v.
Proof.
  intros Hs. unfold apply_mappings. rewrite Hs, !lookup_empty. simpl.
  repeat case_decide; intros Heq; try congruence; by apply display_inverted_inj.
Qed.

Lemma indices_for_bound_var_inj s b b' : indices_for_bound_var s b = indices_for_bound_var s b' ↔ b = b'.
Proof.
  split; [|by intros ->]. destruct b, b'. unfold indices_for_bound_var, invert_debrujin_idx.
  intros [= Hd ->]. f_equal. simpl in *. lia.
Qed.

Lemma indices_for_shifted s o b :
  indices_for_bound_var (add_debrujin_index s o) (shifted_in b) = indices_for_bound_var s b.
Proof.
  unfold indices_for_bound_var, invert_debrujin_idx, add_debrujin_index, shifted_in, debruijn_shifted_in,
    debruijn_shifted_in_from, ONE. simpl. f_equal. lia.
Qed.

(** Bound variables are printed without capture: where no parameters are mapped, two
    variables have the same name only if they are the same variable; going under a binder
    leaves the names of the variables outside as they were; and so the names that the
    binder introduces are different from all of those. *)
Theorem bound_variable_names (s : InternalWriterState) (b b' : BoundVar) (i : nat) :
  s.(remapping) = ∅ →
  let inner := add_debrujin_index s None in
  (display_bound_var s b = display_bound_var s b' ↔ b = b') ∧
  display_bound_var inner (shifted_in b) = display_bound_var s b ∧
  name_for_introduced_bound_var inner i = display_bound_var inner (mkBoundVar INNERMOST i) ∧
  name_for_introduced_bound_var inner i ≠ display_bound_var s b.
Proof.
  intros Hs inner.
  assert (∀ b, display_bound_var inner (shifted_in b) = display_bound_var s b) as Hshift.
  { intros c. unfold display_bound_var, inner. by rewrite indices_for_shifted. }
  assert (∀ s, s.(remapping) = ∅ → ∀ b b', display_bound_var s b = display_bound_var s b' → b = b') as Hinj.
  { intros s' Hs' c c' Heq. by apply apply_mappings_inj, indices_for_bound_var_inj in Heq. }
  assert (name_for_introduced_bound_var inner i = display_bound_var inner (mkBoundVar INNERMOST i)) as Hname.
  { done. }
  split_and!; [|done..|].
  - split; [by apply Hinj|by intros ->].
  - rewrite Hname, <- Hshift. intros Heq%Hinj; [|done].
    apply (f_equal debruijn) in Heq. unfold shifted_in, debruijn_shifted_in, debruijn_shifted_in_from, ONE in Heq.
    simpl in Heq. unfold INNERMOST in Heq. lia.
Qed.

(** *** The parameters of associated types *)

Lemma lookup_zip_inserts (l k : list InvertedBoundVar) (m : gmap InvertedBoundVar InvertedBoundVar) i u v :
  NoDup l → l !! i = Some u → k !! i = Some v →
  foldl (λ m p, <[p.1 := p.2]> m) m (zip l k) !! u = Some v.
Proof.
  revert k m i. induction l as [|x l IH]; intros [|y k] m [|i] Hnd Hi Hk; simplify_eq/=;
    apply NoDup_cons in Hnd as [Hx Hl].
  - clear IH. assert (<[u:=v]> m !! u = Some v) as Hu by apply lookup_insert_eq. revert Hu.
    generalize (<[u:=v]> m). revert k. clear -Hx. induction l as [|x l IH]; intros [|y k] m' Hu; simpl; try done.
    apply IH; [set_solver|]. rewrite lookup_insert_ne by set_solver. done.
  - by apply (IH _ _ i).
Qed.

Lemma lookup_zip_inserts_ne (l k : list InvertedBoundVar) (m : gmap InvertedBoundVar InvertedBoundVar) u :
  u ∉ l → foldl (λ m p, <[p.1 := p.2]> m) m (zip l k) !! u = m !! u.
Proof.
  revert k m. induction l as [|x l IH]; intros [|y k] m Hu; simpl; try done.
  rewrite IH by set_solver. apply lookup_insert_ne. set_solver.
Qed.

Lemma lookup_binder_var_indices s ks i :
  i < length ks → binder_var_indices s ks !! i = Some (mkInvertedBoundVar (Z.of_nat s.(debrujin_indices_deep)) i).
Proof.
  intros Hi. unfold binder_var_indices. rewrite list_lookup_imap.
  destruct (lookup_lt_is_Some_2 _ _ Hi) as [k ->]. simpl.
  unfold indices_for_introduced_bound_var, invert_debrujin_idx. do 2 f_equal. lia.
Qed.

Lemma NoDup_binder_var_indices s ks : NoDup (binder_var_indices s ks).
Proof.
  apply NoDup_alt. intros i j u Hi Hj. unfold binder_var_indices in Hi, Hj.
  rewrite list_lookup_imap in Hi, Hj. destruct (ks !! i), (ks !! j); by simplify_eq/=.
Qed.

(** C39. In an associated type (or its value), whose parameters are its own ([own]) followed by
    those of the trait (or impl) around it ([outer]), a parameter of the trait is printed
    with the name that the header of the trait gives it (["Self"] included), and an own
    parameter with a name of its own. *)
Theorem associated_type_parameter_names (s : InternalWriterState) (own outer : list VariableKind) i :
  s.(remapping) = ∅ →
  (∀ v, s.(self_mapping) = Some v → (v.(inverted_debrujin_idx) ≤ Z.of_nat s.(debrujin_indices_deep))%Z) →
  let all := binder_var_indices (add_debrujin_index s None) (own ++ outer) in
  let inner := assoc_ty_state s outer (drop (length own) all) in
  (i < length outer →
     display_bound_var inner (mkBoundVar INNERMOST (length own + i)) = name_for_introduced_bound_var s i) ∧
  (i < length own →
     display_bound_var inner (mkBoundVar INNERMOST i) =
       display_inverted_bound_var (mkInvertedBoundVar (Z.of_nat s.(debrujin_indices_deep) + 1) i)).
Proof.
  intros Hs Hself all inner.
  assert (∀ j, j < length (own ++ outer) →
    all !! j = Some (mkInvertedBoundVar (Z.of_nat s.(debrujin_indices_deep) + 1) j)) as Hall.
  { intros j Hj. unfold all. rewrite lookup_binder_var_indices by done. simpl. do 2 f_equal. lia. }
  assert (∀ j, indices_for_bound_var inner (mkBoundVar INNERMOST j) =
    mkInvertedBoundVar (Z.of_nat s.(debrujin_indices_deep) + 1) j) as Hidx.
  { intros j. unfold indices_for_bound_var, invert_debrujin_idx. simpl. unfold INNERMOST. f_equal. lia. }
  split; intros Hi; unfold display_bound_var, apply_mappings; rewrite Hidx; unfold inner, assoc_ty_state;
    cbn [remapping add_parameter_mapping self_mapping add_debrujin_index].
  - rewrite length_app in Hall.
    rewrite (lookup_zip_inserts _ _ _ i _ (mkInvertedBoundVar (Z.of_nat s.(debrujin_indices_deep)) i)).
    + unfold name_for_introduced_bound_var, apply_mappings, indices_for_introduced_bound_var, invert_debrujin_idx.
      rewrite Hs, lookup_empty, Z.sub_0_r. done.
    + apply (sublist_NoDup _ all); [apply NoDup_binder_var_indices|apply sublist_drop].
    + rewrite lookup_drop. apply Hall. lia.
    + by apply lookup_binder_var_indices.
  - rewrite (lookup_zip_inserts_ne _ _ _ _).
    + simpl. rewrite Hs, lookup_empty. simpl. case_decide as Heq; [|done].
      apply Hself in Heq. simpl in Heq. lia.
    + intros [j Hj]%list_elem_of_lookup_1. rewrite lookup_drop in Hj. simpl in Hj.
      assert (j + length own < length (own ++ outer)) as Hlt.
      { apply lookup_lt_Some in Hj. unfold all, binder_var_indices in Hj. rewrite length_imap in Hj. lia. }
      rewrite Hall in Hj by lia. simplify_eq. lia.
Qed.

(** The second of two own parameters, and the first parameter of a trait, which prints as
    [Self]. *)
Lemma associated_type_parameter_names_witness :
  let s := add_debrujin_index InternalWriterState_new (Some 0) in
  let all := binder_var_indices (add_debrujin_index s None) [VkLifetime; VkTy General; VkTy General; VkLifetime] in
  let inner := assoc_ty_state s [VkTy General; VkLifetime] (drop 2 all) in
  name_for_introduced_bound_var s 0 = "Self" ∧
  display_bound_var inner (mkBoundVar INNERMOST 2) = "Self" ∧
  display_bound_var inner (mkBoundVar INNERMOST 1) = "_2_1".
Proof.
  intros s all inner.
  destruct (associated_type_parameter_names s [VkLifetime; VkTy General] [VkTy General; VkLifetime] 0) as [H _].
  { reflexivity. }
  { intros v [= <-]. vm_compute. discriminate. }
  destruct (associated_type_parameter_names s [VkLifetime; VkTy General] [VkTy General; VkLifetime] 1) as [_ H1].
  { reflexivity. }
  { intros v [= <-]. vm_compute. discriminate. }
  split; [vm_compute; reflexivity|]. split; [|apply H1; vm_compute; lia].
  transitivity (name_for_introduced_bound_var s 0); [apply H; vm_compute; lia|vm_compute; reflexivity].
Defined.

(** ** The names of items *)

(** The names given so far are those of [nm]; identifiers of the same name have different
    numbers, below the next unused one. *)
Record aliases_ok (nm : UnifiedId → string) (st : IdAliasStore) : Prop := {
  alias_lt id a : st.(aliases) !! id = Some a →
    (a < default 0 (st.(next_unused_for_name) !! nm id))%N;
  alias_inj id id' a : st.(aliases) !! id = Some a → st.(aliases) !! id' = Some a → nm id = nm id' → id = id'
}.

(** Every identifier printed has got its number, which stays. *)
Lemma alias_for_id_name_ok nm id st text st' :
  aliases_ok nm st → alias_for_id_name id (nm id) st = Val (text, st') →
  aliases_ok nm st' ∧ st.(aliases) ⊆ st'.(aliases) ∧
  ∃ a, st'.(aliases) !! id = Some a ∧ text = alias_text (nm id) a.
Proof.
  intros [Hlt Hinj]. unfold alias_for_id_name. destruct (st.(aliases) !! id) as [a|] eqn:Ha.
  - intros [= <- <-]. split_and!; [done..|]. by exists a.
  - case_match; [|done]. intros [= <- <-]. cbn [aliases next_unused_for_name].
    split_and!; [|by apply insert_subseteq|by exists (default 0%N (st.(next_unused_for_name) !! nm id)); rewrite lookup_insert_eq].
    assert (∀ x b, <[id:=default 0%N (st.(next_unused_for_name) !! nm id)]> st.(aliases) !! x = Some b →
      (x = id ∧ b = default 0%N (st.(next_unused_for_name) !! nm id)) ∨ (x ≠ id ∧ st.(aliases) !! x = Some b)) as Hcase.
    { intros x b. destruct (decide (x = id)) as [->|]; [rewrite lookup_insert_eq; intros [= <-]; by left|].
      rewrite lookup_insert_ne by done. by right. }
    split; cbn [aliases next_unused_for_name].
    + intros x b [[-> ->]|[Hx Hb]]%Hcase; [rewrite lookup_insert_eq; simpl; lia|]. apply Hlt in Hb.
      destruct (decide (nm x = nm id)) as [Heq|]; [|by rewrite lookup_insert_ne].
      rewrite Heq, lookup_insert_eq in *. simpl. lia.
    + intros x y b [[-> ->]|[Hx Hb]]%Hcase [[-> Hy]|[Hy Hb']]%Hcase Hnm; try done.
      * apply Hlt in Hb'. rewrite <- Hnm in Hb'. lia.
      * apply Hlt in Hb. rewrite Hnm, Hy in Hb. lia.
      * by apply (Hinj x y b).
Qed.

Lemma aliases_default_ok nm : aliases_ok nm IdAliasStore_default.
Proof. split; intros *; cbn; by rewrite lookup_empty. Qed.

Lemma alias_calls_ok nm ids st texts st' :
  aliases_ok nm st → mapM (λ id, alias_for_id_name id (nm id)) ids st = Val (texts, st') →
  aliases_ok nm st' ∧ st.(aliases) ⊆ st'.(aliases) ∧
  Forall2 (λ id text, ∃ a, st'.(aliases) !! id = Some a ∧ text = alias_text (nm id) a) ids texts.
Proof.
  revert st texts. induction ids as [|id ids IH]; intros st texts Hok Hrun; [by injection Hrun as <- <-|].
  simpl in Hrun. apply ST_bind_Val in Hrun as (text & st1 & Hid & Hrun).
  apply ST_bind_Val in Hrun as (texts' & st2 & Hids & Hrun). cbv [mret ST_ret] in Hrun. simplify_eq.
  apply (alias_for_id_name_ok nm) in Hid as (Hok1 & Hsub1 & a & Ha & ->); [|done].
  apply IH in Hids as (Hok2 & Hsub2 & Hall); [|done].
  split_and!; [done|by transitivity (aliases st1)|]. constructor; [|done].
  exists a. split; [|done]. by eapply lookup_weaken.
Qed.

Lemma alias_text_eq n m a b :
  alias_text n a = alias_text m b →
  (n = m ∧ a = b) ∨ (a = 0%N ∧ n = m +:+ "_" +:+ pretty b) ∨ (b = 0%N ∧ m = n +:+ "_" +:+ pretty a).
Proof.
  unfold alias_text. repeat case_decide; intros Heq; subst; auto.
  left. apply (split_underscore n m (pretty a) (pretty b)) in Heq as [-> Heq]; auto using no_underscore_pretty_N.
  split; [done|]. by simplify_eq.
Qed.

(** The texts that a printer writes for items: two items with the same text are the same,
    unless the name of one is that of the other followed by an underscore and a number.
    In particular items of the same name are told apart, and every item always has the same
    text. *)
Theorem item_texts_distinct (nm : UnifiedId → string) ids texts st :
  mapM (λ id, alias_for_id_name id (nm id)) ids IdAliasStore_default = Val (texts, st) →
  (∀ i j x y text, ids !! i = Some x → ids !! j = Some y → texts !! i = Some text → texts !! j = Some text →
     x = y ∨ (∃ n : N, nm x = nm y +:+ "_" +:+ pretty n) ∨ (∃ n : N, nm y = nm x +:+ "_" +:+ pretty n)) ∧
  (∀ i j x s t, ids !! i = Some x → ids !! j = Some x → texts !! i = Some s → texts !! j = Some t → s = t).
Proof.
  intros Hrun. apply (alias_calls_ok nm) in Hrun as ([_ Hinj] & _ & Hall); [|apply aliases_default_ok].
  split.
  - intros i j x y text Hi Hj Hti Htj.
    destruct (Forall2_lookup_lr _ _ _ _ _ _ Hall Hi Hti) as (a & Ha & ->).
    destruct (Forall2_lookup_lr _ _ _ _ _ _ Hall Hj Htj) as (b & Hb & Heq).
    apply alias_text_eq in Heq as [[Hnm ->]|[[-> Hnm]|[-> Hnm]]]; eauto.
  - intros i j x s t Hi Hj Hti Htj.
    destruct (Forall2_lookup_lr _ _ _ _ _ _ Hall Hi Hti) as (a & Ha & ->).
    destruct (Forall2_lookup_lr _ _ _ _ _ _ Hall Hj Htj) as (b & Hb & ->). by simplify_eq.
Qed.

(** ** What printers name

    [names_within P m Q]: a run of [m] gives names to identifiers that satisfy [P] only, and
    its result satisfies [Q]. *)

Section Within.
Context (P : UnifiedId → Prop).

Definition names_within {A} (m : W A) (Q : A → Prop) : Prop := ∀ st r st',
  m st = Val (r, st') →
  (∀ u, is_Some (st'.(aliases) !! u) → is_Some (st.(aliases) !! u) ∨ P u) ∧ Q r.
Abbreviation within m := (names_within m (λ _, True)).
Implicit Types text : string.

Lemma text_within_ret {A} (a : A) (Q : A → Prop) : Q a → names_within (mret a) Q.
Proof. intros Ha st r st' [= <- <-]. auto. Qed.

Lemma within_bind {A B} (m : W A) (f : A → W B) Q R :
  names_within m Q → (∀ a, Q a → names_within (f a) R) → names_within (m ≫= f) R.
Proof.
  intros Hm Hf st r st' (a & st1 & Hrun & Hrest)%ST_bind_Val.
  apply Hm in Hrun as [Hsub Ha]. apply (Hf a Ha) in Hrest as [Hsub' Hr]. split; [|done].
  intros u Hu. destruct (Hsub' u Hu) as [Hu1|]; [|by right]. auto.
Qed.

Lemma within_weaken {A} (m : W A) (Q R : A → Prop) :
  names_within m Q → (∀ a, Q a → R a) → names_within m R.
Proof. intros Hm HQ st r st' [? ?]%Hm. auto. Qed.

Lemma within_lift {A} (m : Fallible A) Q : (∀ a, m = Val a → Q a) → names_within (st_lift m) Q.
Proof.
  intros HQ st r st'. unfold st_lift. destruct m as [a| | |]; simpl; intros Hrun; simplify_eq. auto.
Qed.

Lemma within_panic {A} p (Q : A → Prop) : names_within (mpanic p) Q.
Proof. by intros st r st'. Qed.

Lemma within_alias id name : P id → within (alias_for_id_name id name).
Proof.
  intros Hid st r st'. unfold alias_for_id_name. destruct (st.(aliases) !! id) eqn:Ha.
  - intros [= <- <-]. auto.
  - case_match; [|done]. intros [= <- <-]. cbn. split; [|done]. intros u.
    destruct (decide (u = id)) as [->|]; [auto|]. rewrite lookup_insert_ne by done. auto.
Qed.

Lemma within_mapM {A} (l : list (W A)) : Forall (λ m, within m) l → within (mapM id l).
Proof.
  induction 1 as [|m l Hm _ IH]; [by apply text_within_ret|]. simpl.
  eapply within_bind; [exact Hm|]. intros a _. eapply within_bind; [exact IH|]. intros. by apply text_within_ret.
Qed.

Lemma within_format sep l : Forall (λ m, within m) l → within (format_list sep l).
Proof. intros Hl. eapply within_bind; [by apply within_mapM|]. intros. by apply text_within_ret. Qed.

Lemma within_joined b a sep l : Forall (λ m, within m) l → within (write_joined_non_empty_list b a sep l).
Proof. intros Hl. eapply within_bind; [by apply within_mapM|]. intros. by apply text_within_ret. Qed.

Lemma within_texts (l : list string) : Forall (λ m : W string, within m) (map mret l).
Proof. apply Forall_forall. intros m (x & -> & _)%list_elem_of_fmap. by apply text_within_ret. Qed.

Lemma within_slice {A} (l : list A) (Q : A → Prop) :
  Forall Q l → names_within (slice_from_1 l) (λ k, Forall Q k ∧ k ⊆ l).
Proof. intros Hl. destruct Hl as [|x l Hx Hl]; [apply within_panic|]. apply text_within_ret. split; [done|set_solver]. Qed.

Lemma within_index {A} (l : list A) (Q : A → Prop) : Forall Q l → names_within (index_0 l) Q.
Proof. intros Hl. destruct Hl as [|x l Hx Hl]; [apply within_panic|by apply text_within_ret]. Qed.

Lemma within_generics name params :
  within name → Forall (λ m, within m) params →
  names_within (display_type_with_generics name params) (λ m, within m).
Proof.
  intros Hname Hparams. eapply within_bind; [by apply within_joined|]. intros text _.
  apply text_within_ret. eapply within_bind; [exact Hname|]. intros. by apply text_within_ret.
Qed.
End Within.

(** An identifier that is printed is one of [ids], or an associated type of a trait among
    them. *)
Definition declared (db : RustIrDatabase) (ids : list RecordedItemId) (u : UnifiedId) : Prop :=
  match u with
  | UAdtId a => RecAdt a ∈ ids
  | UDefId d => RecTrait d ∈ ids ∨ RecOpaqueTy d ∈ ids ∨
      ∃ a, d = (db.(associated_ty_data) a).(assoc_id) ∧ assoc_trait db a ∈ ids
  end.

(** *** Inclusions of lists *)

Lemma subset_bind {A} (ids : list RecordedItemId) (f : A → list RecordedItemId) (l : list A) :
  (l ≫= f) ⊆ ids ↔ Forall (λ x, f x ⊆ ids) l.
Proof.
  split.
  - intros Hl. apply Forall_forall. intros x Hx y Hy. apply Hl, list_elem_of_bind. eauto.
  - intros Hl y (x & Hy & Hx)%list_elem_of_bind. rewrite Forall_forall in Hl. by apply (Hl x).
Qed.

Lemma subset_nil (ids : list RecordedItemId) : [] ⊆ ids.
Proof. set_solver. Qed.

Lemma subset_cons (ids : list RecordedItemId) (x : RecordedItemId) l : (x :: l) ⊆ ids ↔ x ∈ ids ∧ l ⊆ ids.
Proof. set_solver. Qed.

Lemma subset_app (ids : list RecordedItemId) (l k : list RecordedItemId) : (l ++ k) ⊆ ids ↔ l ⊆ ids ∧ k ⊆ ids.
Proof. set_solver. Qed.

Section Printer.
Context (db : RustIrDatabase) (h : Handler Fallible) (ids : list RecordedItemId).
Context (Hassoc : ∀ id d, h _ (QAssociatedTyData id) = Val d →
  d.(assoc_trait_id) = (db.(associated_ty_data) id).(assoc_trait_id) ∧
  d.(assoc_id) = (db.(associated_ty_data) id).(assoc_id)).
Abbreviation names_within := (names_within (declared db ids)).
Abbreviation within m := (names_within m (λ _, True)).

Ltac seq H := cbv beta in *; eapply within_bind; [eapply H|]; cbv beta.

Lemma within_query {A} (q : Query A) : names_within (ask h q) (λ a, h A q = Val a).
Proof. by apply within_lift. Qed.

Lemma within_st_lift {A} (m : Fallible A) : within (st_lift m).
Proof. by apply within_lift. Qed.

Lemma within_adt id : RecAdt id ∈ ids → within (render_adt_id h id).
Proof. intros Hid. seq @within_query. intros name _. by apply within_alias. Qed.
Lemma within_trait id : RecTrait id ∈ ids → within (render_trait_id h id).
Proof. intros Hid. seq @within_query. intros name _. apply within_alias. by left. Qed.
Lemma within_opaque id : RecOpaqueTy id ∈ ids → within (render_opaque_ty_id h id).
Proof. intros Hid. seq @within_query. intros name _. apply within_alias. by right; left. Qed.
Lemma within_assoc a d :
  h _ (QAssociatedTyData a) = Val d → assoc_trait db a ∈ ids → within (render_assoc_type_id h d.(assoc_id)).
Proof.
  intros Hd Ha. seq @within_query. intros name _. apply within_alias. right; right.
  exists a. split; [|done]. by apply Hassoc.
Qed.
Lemma within_assoc_trait a d :
  h _ (QAssociatedTyData a) = Val d → assoc_trait db a ∈ ids → within (render_trait_id h d.(assoc_trait_id)).
Proof. intros Hd Ha. apply within_trait. destruct (Hassoc _ _ Hd) as [-> _]. done. Qed.

Lemma within_split_ty {X} (params : list X) d (Q : X → Prop) :
  Forall Q params → names_within (db_split_associated_ty_parameters h params d) (λ r, Forall Q r.1 ∧ Forall Q r.2).
Proof.
  intros Hall. seq @within_query. intros td _. seq @within_st_lift. intros n _.
  eapply within_bind; [by apply (within_lift _ _ (λ r, r = (take n params, drop n params))); unfold split_at;
    intros r; case_match; intros; simplify_eq|].
  intros r ->. apply text_within_ret. split; [by apply Forall_drop|by apply Forall_take].
Qed.

Lemma within_split_value {X} (params : list X) v (Q : X → Prop) :
  Forall Q params → names_within (db_split_associated_ty_value_parameters h params v) (λ r, Forall Q r.1 ∧ Forall Q r.2).
Proof.
  intros Hall. seq @within_query. intros td _. seq @within_st_lift. intros _ _. seq @within_st_lift. intros n _.
  eapply within_bind; [by apply (within_lift _ _ (λ r, r = (take n params, drop n params))); unfold split_at;
    intros r; case_match; intros; simplify_eq|].
  intros r ->. apply text_within_ret. split; [by apply Forall_drop|by apply Forall_take].
Qed.

Lemma within_split {X} id (params : list X) (Q : X → Prop) :
  Forall Q params →
  names_within (db_split_projection h id params)
    (λ r, h _ (QAssociatedTyData id) = Val r.1.1 ∧ Forall Q r.1.2 ∧ Forall Q r.2).
Proof.
  intros Hall. seq @within_query. intros d Hd. eapply within_bind; [by apply within_split_ty|].
  intros [tp op] [Htp Hop]. by apply text_within_ret.
Qed.

Abbreviation printers l := (Forall (λ m : W string, within m) l).

Lemma within_bound_with_value a d tp op v :
  h _ (QAssociatedTyData a) = Val d → assoc_trait db a ∈ ids → printers tp → printers op → within v →
  within (display_trait_with_assoc_ty_value h d tp op v).
Proof.
  intros Hd Ha Htp Hop Hv. seq within_assoc_trait; [eassumption..|]. intros. seq within_joined; [done|]. intros.
  seq within_assoc; [eassumption..|]. intros. seq within_joined; [done|]. intros. seq Hv. intros. by apply text_within_ret.
Qed.

Lemma within_projection a ps : assoc_trait db a ∈ ids → printers ps → within (render_projection h a ps).
Proof.
  intros Ha Hps. eapply within_bind; [by apply within_split|]. intros [[d tp] op] (Hd & Htp & Hop). simpl in *.
  eapply within_bind; [by apply within_index|]. intros self Hself.
  eapply within_bind; [by apply within_slice|]. intros others [Hothers _].
  eapply within_bind; [apply within_generics; [by eapply within_assoc_trait|done]|]. intros trait Htrait.
  seq Hself. intros. seq Htrait. intros. seq within_assoc; [eassumption..|]. intros. seq within_joined; [done|]. intros.
  by apply text_within_ret.
Qed.

Lemma within_opaque_alias o ps : RecOpaqueTy o ∈ ids → printers ps → within (render_opaque_alias h o ps).
Proof.
  intros Ho Hps. eapply within_bind; [apply within_generics; [by apply within_opaque|done]|]. by intros.
Qed.

Lemma within_alias_eq_bound a ps v :
  assoc_trait db a ∈ ids → printers ps → within v → within (render_alias_eq_bound h a ps v).
Proof.
  intros Ha Hps Hv. eapply within_bind; [by apply within_split|]. intros [[d tp] op] (Hd & Htp & Hop). simpl in *.
  eapply within_bind; [by apply within_slice|]. intros others [Hothers _]. by eapply within_bound_with_value.
Qed.

Lemma within_associated_type a tys ps :
  assoc_trait db a ∈ ids → printers tys → printers ps → within (render_associated_type h a tys ps).
Proof.
  intros Ha Htys Hps. seq @within_query. intros d Hd. seq @within_st_lift. intros _ _.
  destruct Htys as [|ty tys Hty _]; [by apply (within_bind _ _ _ (λ _, False)); [apply within_panic|]|].
  eapply within_bind; [by apply (text_within_ret _ _ (λ m, within m))|]. intros m Hm. seq Hm. intros.
  seq within_assoc_trait; [eassumption..|]. intros. seq within_assoc; [eassumption..|]. intros.
  eapply within_bind; [by apply within_slice|]. intros others [Hothers _]. seq within_joined; [done|]. intros.
  by apply text_within_ret.
Qed.

Lemma within_fn_pointer s n ps : printers ps → within (render_fn_pointer s n ps).
Proof.
  intros Hps. seq @within_st_lift. intros len _.
  eapply (within_bind _ _ _ (λ m, within m)).
  { destruct (ps !! len) eqn:Hlast; [|apply within_panic]. apply text_within_ret. exact (Forall_lookup_1 _ _ _ _ Hps Hlast). }
  intros last Hlast. seq within_format; [by apply Forall_take|]. intros. seq Hlast. intros. by apply text_within_ret.
Qed.

Lemma printers_map {A} (f : A → W string) (l : list A) : Forall (λ x, within (f x)) l → printers (map f l).
Proof. intros Hl. by apply Forall_fmap. Qed.

Abbreviation known_arg a := (arg_names db true a ⊆ ids).
Abbreviation arg_ok := (λ a, known_arg a → ∀ s, within (render_arg h s a)).

Lemma args_printers s ps : Forall arg_ok ps → (ps ≫= arg_names db true) ⊆ ids → printers (map (render_arg h s) ps).
Proof.
  intros Hps Hids%subset_bind. apply printers_map, Forall_forall. intros a Ha.
  rewrite Forall_forall in Hps, Hids. by apply Hps, Hids.
Qed.

Lemma type_args_printers s ps :
  Forall arg_ok ps → (ps ≫= arg_names db true) ⊆ ids →
  printers (omap (λ p : bool * W string, if p.1 then Some p.2 else None) (map (λ p, (is_ty_arg p, render_arg h s p)) ps)).
Proof.
  intros Hps Hids%subset_bind. apply Forall_forall. intros m (p & Hp & Hm)%list_elem_of_omap.
  apply list_elem_of_fmap in Hp as (a & -> & Ha). simpl in Hm. destruct (is_ty_arg a); simplify_eq.
  rewrite Forall_forall in Hps, Hids. by apply Hps, Hids.
Qed.

Ltac known := repeat match goal with
  | H : (_ :: _) ⊆ ids |- _ => apply subset_cons in H as [? H]
  | H : (_ ++ _) ⊆ ids |- _ => apply subset_app in H as [? H]
  end.

Ltac apply_hyp := match goal with H : _ ⊆ ids → ∀ s, _ |- _ => by apply H end.

Definition alias_args (a : AliasTy) : list GenericArg :=
  match a with AliasProjection _ s | AliasOpaque _ s => s end.

Lemma within_alias_ty s a :
  alias_names db true a ⊆ ids → printers (map (render_arg h s) (alias_args a)) → within (render_alias h s a).
Proof.
  destruct a; simpl; intros [? _]%subset_cons; [by apply within_projection|by apply within_opaque_alias].
Qed.

Lemma within_terms :
  (∀ t, ty_names db true t ⊆ ids → ∀ s, within (render_ty h s t)) ∧ (∀ c : Const, True) ∧
  (∀ a, known_arg a → ∀ s, within (render_arg h s a)) ∧
  (∀ a, alias_names db true a ⊆ ids → ∀ s, printers (map (render_arg h s) (alias_args a))) ∧
  (∀ w, where_names db true w ⊆ ids → ∀ s, within (render_bound h s w)).
Proof.
  apply term_ind. constructor; try done; intros; simpl in *; known; try by apply text_within_ret.
  all: try by (eapply within_bind; [apply_hyp|intros; by apply text_within_ret]).
  all: try by apply args_printers.
  - seq within_adt; [done|]. intros. seq within_joined; [by apply args_printers|]. intros. by apply text_within_ret.
  - apply within_associated_type; [done|by apply type_args_printers|by apply args_printers].
  - seq within_format; [by apply args_printers|]. intros. by apply text_within_ret.
  - apply within_opaque_alias; [done|by apply args_printers].
  - seq within_format; [|intros; by apply text_within_ret]. apply printers_map, Forall_forall. intros b Hb.
    rewrite subset_bind, Forall_forall in *. eapply within_bind; [by apply (H b Hb), (H0 b Hb)|].
    intros. by apply text_within_ret.
  - apply within_alias_ty; [done|]. apply_hyp.
  - apply within_fn_pointer. by apply args_printers.
  - eapply within_bind; [by eapply within_slice, args_printers|]. intros ps [Hps _].
    eapply within_bind; [apply within_generics; [by apply within_trait|done]|]. by intros.
  - pose proof (H ltac:(eassumption) s) as Hargs. destruct a as [id ps|id ps]; simpl in *; known.
    + apply within_alias_eq_bound; [done..|]. apply_hyp.
    + by apply within_opaque_alias.
Qed.

(** ** What items name *)

Lemma text_within_ty s t : ty_names db true t ⊆ ids → within (render_ty h s t).
Proof. intros. by apply within_terms. Qed.
Lemma within_arg s a : known_arg a → within (render_arg h s a).
Proof. intros. by apply within_terms. Qed.
Lemma within_args s ps : Forall (λ a, known_arg a) ps → printers (map (render_arg h s) ps).
Proof. intros Hps. apply printers_map. eapply Forall_impl; [exact Hps|]. intros. by apply within_arg. Qed.

Lemma within_self_type ps :
  Forall (λ a, known_arg a) ps → names_within (st_lift (self_type_parameter ps)) (λ t, ty_names db true t ⊆ ids).
Proof.
  intros Hps. apply within_lift. intros t Ht%unwrap_Val.
  assert (t ∈ type_parameters ps) as Hin.
  { destruct (type_parameters ps); simplify_eq/=. apply list_elem_of_here. }
  apply list_elem_of_omap in Hin as (a & Ha & Heq). rewrite Forall_forall in Hps. specialize (Hps a Ha).
  by destruct a; simplify_eq/=.
Qed.

Lemma within_where s w : where_names db true w ⊆ ids → within (render_where h s w).
Proof.
  intros Hw. destruct w as [[id ps]|[id ps|id ps] t|a b|t l]; simpl in *; known; try by apply text_within_ret.
  - apply subset_bind in Hw. eapply within_bind; [by apply within_self_type|]. intros t Ht.
    eapply within_bind; [by apply within_slice|]. intros others [Hothers _].
    eapply within_bind; [apply within_generics; [by apply within_trait|by apply within_args]|]. intros trait Htrait.
    seq text_within_ty; [done|]. intros. seq Htrait. intros. by apply text_within_ret.
  - match goal with H : _ ≫= _ ⊆ _ |- _ => apply subset_bind in H end.
    eapply within_bind; [by apply within_split|]. intros [[d tp] op] (Hd & Htp & Hop). simpl in *.
    eapply within_bind; [by apply within_index|]. intros self Hself.
    eapply within_bind; [by apply within_slice|]. intros others [Hothers _].
    seq within_arg; [done|]. intros. eapply within_bind; [|intros; by apply text_within_ret].
    eapply within_bound_with_value; [done..|by apply within_args|by apply within_args|by apply text_within_ty].
  - match goal with H : _ ≫= _ ⊆ _ |- _ => apply subset_bind in H end.
    apply within_opaque_alias; [done|by apply within_args].
  - seq text_within_ty; [done|]. intros. by apply text_within_ret.
Qed.

Lemma within_quantified {T} (render : InternalWriterState → T → W string) (b : Binders T) s :
  (∀ s, within (render s b.(value))) → within (render_quantified render s b).
Proof. intros Hb. seq Hb. intros. by apply text_within_ret. Qed.

Lemma within_clauses s wcs : clauses_names db true wcs ⊆ ids → within (render_where_clauses h s wcs).
Proof.
  intros Hwcs%subset_bind. apply within_format, printers_map, Forall_forall. intros b Hb.
  rewrite Forall_forall in Hwcs. eapply within_bind; [apply within_quantified; intros; by apply within_where, Hwcs|].
  intros. by apply text_within_ret.
Qed.

Lemma within_item_where s wcs : clauses_names db true wcs ⊆ ids → within (render_item_where h s wcs).
Proof.
  intros Hwcs. unfold render_item_where. destruct wcs as [|b wcs]; [by apply text_within_ret|].
  seq within_clauses; [done|]. intros. by apply text_within_ret.
Qed.

(** The where clauses at the end of an associated type or a function. *)
Ltac last_where wcs :=
  eapply (within_bind _ _ _ (λ _, True));
    [destruct wcs; [by apply text_within_ret|seq within_clauses; [done|]; intros; by apply text_within_ret]|];
  intros; by apply text_within_ret.

Lemma within_inline_bound s b :
  bound_traits db b ++ bound_args_names db true b ⊆ ids → within (render_inline_bound h s b).
Proof.
  intros Hb. destruct b as [[t args]|[[t args] a ps v]]; simpl in *; known.
  - apply subset_bind in Hb. eapply within_bind; [apply within_generics; [by apply within_trait|by apply within_args]|].
    by intros.
  - repeat match goal with H : _ ≫= _ ⊆ _ |- _ => apply subset_bind in H end.
    seq @within_query. intros d Hd. eapply within_bound_with_value; [done..|by apply within_args|by apply within_args|by apply text_within_ty].
Qed.

Lemma within_fields s fs : (fs ≫= ty_names db true) ⊆ ids → within (render_fields h s fs).
Proof.
  intros Hfs%subset_bind. apply within_joined. apply Forall_lookup. intros i m Hm.
  rewrite list_lookup_imap in Hm. destruct (fs !! i) as [t|] eqn:Ht; simplify_eq/=.
  rewrite Forall_forall in Hfs. seq text_within_ty; [by eapply Hfs, list_elem_of_lookup_2|]. intros. by apply text_within_ret.
Qed.

Lemma within_params s ks : within (write_joined_non_empty_list "<" ">" ", " (map mret (binder_var_display s ks))).
Proof. apply within_joined, within_texts. Qed.

Lemma within_adt_datum s x :
  RecAdt x.(RustIr.adt_id) ∈ ids → adt_names db true x ⊆ ids →
  (∀ r t, h _ (QAdtRepr x.(RustIr.adt_id)) = Val r → r.(repr_int) = Some t → ty_names db true t ⊆ ids) →
  within (render_adt_datum h s x).
Proof.
  intros Hid [Hvs Hwcs]%subset_app Hrepr. apply subset_bind in Hvs.
  seq @within_query. intros r Hr. eapply (within_bind _ _ _ (λ _, True)).
  { destruct (repr_int r) as [t|] eqn:Hint; [|by apply text_within_ret].
    seq text_within_ty; [by eapply Hrepr|]. intros. by apply text_within_ret. }
  intros. seq within_adt; [done|]. intros. seq within_params. intros. seq within_item_where; [done|]. intros.
  eapply (within_bind _ _ _ (λ _, True)); [|intros; by apply text_within_ret].
  destruct x.(adt_kind).
  1, 3: eapply within_bind; [by apply within_index|]; intros v Hv; by apply within_fields.
  apply within_format, Forall_lookup. intros i m Hm. rewrite list_lookup_imap in Hm.
  destruct (_ !! i) as [v|] eqn:Hv; simplify_eq/=. rewrite Forall_forall in Hvs.
  seq within_fields; [by eapply Hvs, list_elem_of_lookup_2|]. intros. by apply text_within_ret.
Qed.

Lemma within_assoc_ty_datum s a d :
  h _ (QAssociatedTyData a) = Val d → assoc_trait db a ∈ ids → assoc_ty_names db true d ⊆ ids →
  within (render_associated_ty_datum h s d).
Proof.
  intros Hd Ha [_ [Hbounds Hwcs]%subset_app]%subset_app. apply subset_bind in Hbounds.
  seq @within_query. intros td _.
  eapply within_bind; [by apply (within_split_ty _ _ (λ _, True)), Forall_true|]. intros [ps qs] _.
  eapply within_bind; [by apply (within_split_ty _ _ (λ _, True)), Forall_true|]. intros [ps' qs'] _.
  seq within_assoc; [eassumption..|]. intros. seq within_joined; [apply within_texts|]. intros.
  seq within_format.
  { apply printers_map. eapply Forall_impl; [exact Hbounds|]. intros b Hb. apply within_quantified.
    intros. by apply within_inline_bound. }
  intros. last_where (assoc_where_clauses (value (assoc_binders d))).
Qed.

Lemma within_assoc_ty_value s v :
  assoc_trait db v.(atv_associated_ty_id) ∈ ids → ty_names db true v.(atv_value).(value).(atv_ty) ⊆ ids →
  within (render_associated_ty_value h s v).
Proof.
  intros Ha Hty. seq @within_query. intros d Hd. seq @within_query. intros i _.
  eapply within_bind; [by apply (within_split_value _ _ (λ _, True)), Forall_true|]. intros [ps qs] _.
  eapply within_bind; [by apply (within_split_value _ _ (λ _, True)), Forall_true|]. intros [ps' qs'] _.
  seq within_assoc; [eassumption..|]. intros. seq within_joined; [apply within_texts|]. intros.
  seq text_within_ty; [done|]. intros. by apply text_within_ret.
Qed.

Lemma within_trait_datum s x :
  RecTrait x.(trait_datum_id) ∈ ids → trait_names db true x ⊆ ids →
  (∀ a d, a ∈ x.(associated_ty_ids) → h _ (QAssociatedTyData a) = Val d →
     assoc_trait db a ∈ ids ∧ assoc_ty_names db true d ⊆ ids) →
  within (render_trait_datum h s x).
Proof.
  intros Hid Hwcs Has. seq @within_query. intros os _. seq within_trait; [done|]. intros.
  seq within_joined; [apply within_texts|]. intros. seq within_item_where; [done|]. intros.
  eapply within_bind; [|intros; by apply text_within_ret]. apply within_joined, printers_map, Forall_forall. intros ty_id Hty_id.
  seq @within_query. intros d Hd. destruct (Has ty_id d Hty_id Hd) as [Htr Hd'].
  seq within_assoc_ty_datum; [eassumption..|]. intros. by apply text_within_ret.
Qed.

Lemma within_impl_datum s x :
  RecTrait x.(impl_binders).(value).(impl_trait_ref).(trait_id) ∈ ids → impl_names db true x ⊆ ids →
  (∀ i v, i ∈ x.(associated_ty_value_ids) → h _ (QAssociatedTyValue i) = Val v →
     assoc_trait db v.(atv_associated_ty_id) ∈ ids ∧ ty_names db true v.(atv_value).(value).(atv_ty) ⊆ ids) →
  within (render_impl_datum h s x).
Proof.
  intros Hid [Hps%subset_bind Hwcs]%subset_app Hvs. seq within_params. intros.
  eapply within_bind; [by apply within_slice|]. intros others [Hothers _].
  eapply within_bind; [apply within_generics; [by apply within_trait|by apply within_args]|]. intros trait Htrait.
  eapply within_bind; [by apply within_self_type|]. intros t Ht. seq Htrait. intros. seq text_within_ty; [done|]. intros.
  seq within_item_where; [done|]. intros. eapply within_bind; [|intros; by apply text_within_ret].
  apply within_joined, printers_map, Forall_forall. intros i Hi. seq @within_query. intros v Hv.
  destruct (Hvs i v Hi Hv). by apply within_assoc_ty_value.
Qed.

Lemma within_bounds s bs : clauses_names db true bs ⊆ ids → within (display_self_where_clauses_as_bounds h s bs).
Proof.
  intros Hbs%subset_bind. apply within_format, printers_map, Forall_forall. intros b Hb.
  rewrite Forall_forall in Hbs. eapply within_bind; [by apply within_terms, Hbs|]. intros. by apply text_within_ret.
Qed.

Lemma within_opaque_ty_datum s x :
  RecOpaqueTy x.(RustIr.opaque_ty_id) ∈ ids → clauses_names db true x.(opaque_bound).(value).(opaque_bounds).(value) ⊆ ids →
  (∀ t, h _ (QHiddenOpaqueType x.(RustIr.opaque_ty_id)) = Val t → ty_names db true t ⊆ ids) →
  within (render_opaque_ty_datum h s x).
Proof.
  intros Hid Hbs Hhidden. seq within_opaque; [done|]. intros. seq within_params. intros.
  seq within_bounds; [done|]. intros. seq @within_query. intros t Ht. seq text_within_ty; [by apply Hhidden|].
  intros. by apply text_within_ret.
Qed.

Lemma within_fn_def_datum s x : fn_def_names db true x ⊆ ids → within (render_fn_def_datum h s x).
Proof.
  intros [Hargs%subset_bind [Hret Hwcs]%subset_app]%subset_app. seq @within_query. intros. seq within_params. intros.
  seq within_format.
  { apply Forall_lookup. intros i m Hm. rewrite list_lookup_imap in Hm. destruct (_ !! i) as [t|] eqn:Ht; simplify_eq/=.
    rewrite Forall_forall in Hargs. seq text_within_ty; [by eapply Hargs, list_elem_of_lookup_2|]. intros. by apply text_within_ret. }
  intros. seq text_within_ty; [done|]. intros. last_where (fn_where_clauses (value (fn_binders x))).
Qed.
End Printer.

(** *** Programs *)

(** The declarations of [ids] know their own identifiers. *)
Record ids_consistent (db : RustIrDatabase) (ids : list RecordedItemId) : Prop := {
  con_adt a : RecAdt a ∈ ids → (db.(adt_datum) a).(RustIr.adt_id) = a;
  con_trait t : RecTrait t ∈ ids → (db.(trait_datum) t).(trait_datum_id) = t;
  con_opaque o : RecOpaqueTy o ∈ ids → (db.(opaque_ty_data) o).(RustIr.opaque_ty_id) = o;
  con_assoc t a : RecTrait t ∈ ids → a ∈ (db.(trait_datum) t).(associated_ty_ids) → assoc_trait db a = RecTrait t;
  con_value i v : RecImpl i ∈ ids → v ∈ (db.(impl_datum) i).(associated_ty_value_ids) →
    assoc_trait db (db.(associated_ty_value) v).(atv_associated_ty_id) =
      RecTrait (db.(impl_datum) i).(impl_binders).(value).(impl_trait_ref).(trait_id)
}.

Section Programs.
Context (db : RustIrDatabase) (names : ItemNames) (ids : list RecordedItemId) (Hcon : ids_consistent db ids).
Abbreviation within m := (names_within (declared db ids) m (λ _, True)).

Lemma within_write_items h l : Forall (λ id, within (write_item h id)) l → within (write_items h l).
Proof. intros Hl. by apply within_format, Forall_fmap. Qed.

Lemma write_item_within id :
  id ∈ ids → item_names db true id ⊆ ids → within (write_item (plain_db db names) id).
Proof.
  intros Hid Hnames. eapply (within_bind _ _ _ (λ _, True)); [|intros; by apply text_within_ret].
  assert (∀ id d, plain_db db names _ (QAssociatedTyData id) = Val d →
    d.(assoc_trait_id) = (db.(associated_ty_data) id).(assoc_trait_id) ∧
    d.(assoc_id) = (db.(associated_ty_data) id).(assoc_id)) as Hassoc by (by intros ? ? [= <-]).
  destruct id as [a|t|i|o|f|g]; simpl in Hnames;
    (eapply within_bind; [apply within_query|]); intros x [= <-].
  - apply subset_app in Hnames as [Hadt Hrepr]. apply (within_adt_datum db _ ids Hassoc).
    + by rewrite (con_adt _ _ Hcon).
    + done.
    + intros r t [= <-] Ht. rewrite (con_adt _ _ Hcon) in Ht by done. by rewrite Ht in Hrepr.
  - apply subset_app in Hnames as [Htrait Has]. rewrite subset_bind, Forall_forall in Has.
    apply (within_trait_datum db _ ids Hassoc); [by rewrite (con_trait _ _ Hcon)|done|].
    intros a d Ha [= <-]. split; [by rewrite (con_assoc _ _ Hcon t a)|by apply Has].
  - apply subset_cons in Hnames as [Htrait [Hvs Himpl]%subset_app]. rewrite subset_bind, Forall_forall in Hvs.
    apply (within_impl_datum db _ ids Hassoc); [done..|].
    intros v_id v Hv [= <-]. split; [by rewrite (con_value _ _ Hcon i)|by apply Hvs].
  - apply subset_app in Hnames as [[Hbs _]%subset_app Hty].
    apply (within_opaque_ty_datum db _ ids Hassoc); [by rewrite (con_opaque _ _ Hcon)|done|].
    intros t [= <-]. by rewrite (con_opaque _ _ Hcon).
  - by apply (within_fn_def_datum db _ ids Hassoc).
  - eapply within_bind; [apply within_query|]. intros. apply within_panic.
Qed.

(** Stubs name nothing but themselves, functions excepted. *)
Lemma write_stub_within id :
  id ∈ ids → (∀ f, id ≠ RecFnDef f) →
  (∀ a t, id = RecAdt a → (db.(adt_repr) a).(repr_int) = Some t → ty_names db true t ⊆ ids) →
  within (write_item (stub_db (plain_db db names)) id).
Proof.
  intros Hid Hfn Hrepr. eapply (within_bind _ _ _ (λ _, True)); [|intros; by apply text_within_ret].
  assert (∀ id d, stub_db (plain_db db names) _ (QAssociatedTyData id) = Val d →
    d.(assoc_trait_id) = (db.(associated_ty_data) id).(assoc_trait_id) ∧
    d.(assoc_id) = (db.(associated_ty_data) id).(assoc_id)) as Hassoc by (by intros ? ? [= <-]).
  destruct id as [a|t|i|o|f|g]; [..|by destruct (Hfn f)|];
    (eapply within_bind; [apply within_query|]); intros x [= <-].
  - apply (within_adt_datum db _ ids Hassoc); cbn [RustIr.adt_id].
    + by rewrite (con_adt _ _ Hcon).
    + unfold adt_names. simpl. case_match; apply subset_nil.
    + intros r t [= <-] Ht. rewrite (con_adt _ _ Hcon) in Ht by done. by eapply Hrepr.
  - apply (within_trait_datum db _ ids Hassoc); cbn [trait_datum_id associated_ty_ids]; [by rewrite (con_trait _ _ Hcon)|apply subset_nil|].
    intros a d Ha [= <-]. split; [by rewrite (con_assoc _ _ Hcon t a)|apply subset_nil].
  - apply (within_opaque_ty_datum db _ ids Hassoc); cbn [RustIr.opaque_ty_id]; [by rewrite (con_opaque _ _ Hcon)|apply subset_nil|].
    intros t [= <-]. apply subset_nil.
Qed.
End Programs.

(** C15. The text of a logged program resolves: every identifier whose name is printed, in
    the recorded items or in the stubs for what they name, is a recorded item, a stub or an
    associated type of one of these traits.  Hypotheses: declarations know their own
    identifiers; the names that [IdCollector] does not see (traits of impls and of
    placeholders, types of representations) are recorded or seen elsewhere; no function is
    stubbed (a stub of a function keeps its types) and stubs with a representation name
    nothing new. *)
Theorem printed_names_resolve (db : RustIrDatabase) (names : ItemNames) def_ids stub_ids text st :
  collect_unrecorded_ids (plain_db db names) def_ids = Val stub_ids →
  fmt_logging_db (plain_db db names) def_ids IdAliasStore_default = Val (text, st) →
  ids_consistent db (def_ids ++ stub_ids) →
  (∀ i x, i ∈ def_ids → x ∈ item_names db true i → x ∈ item_names db false i ++ def_ids ++ stub_ids) →
  (∀ f, RecFnDef f ∉ stub_ids) →
  (∀ a t, RecAdt a ∈ stub_ids → (db.(adt_repr) a).(repr_int) = Some t → ty_names db true t ⊆ def_ids ++ stub_ids) →
  ∀ u, is_Some (st.(aliases) !! u) → declared db (def_ids ++ stub_ids) u.
Proof.
  intros Hstubs Hfmt Hcon Hgaps Hfn Hrepr.
  destruct (collect_exact db names def_ids) as [[Hpanic _]|(r & Hr & _ & _ & _ & Hexact)]; [congruence|].
  rewrite Hstubs in Hr. injection Hr as <-.
  assert (names_within (declared db (def_ids ++ stub_ids)) (fmt_logging_db (plain_db db names) def_ids) (λ _, True)) as Hall.
  { unfold fmt_logging_db.
    eapply (within_bind _ _ _ (λ l, l = stub_ids)); [rewrite Hstubs; apply within_lift; by intros l [= <-]|]. intros l ->.
    eapply within_bind; [apply within_write_items, Forall_forall; intros id Hid|].
    { apply write_stub_within; [done|set_solver|by intros f ->; eapply Hfn|intros a t ->; by apply Hrepr]. }
    intros. eapply within_bind; [apply within_write_items, Forall_forall; intros id Hid|intros; by apply text_within_ret].
    apply write_item_within; [done|set_solver|]. intros x Hx%(Hgaps id); [|done].
    destruct (decide (x ∈ def_ids)); [set_solver|]. apply elem_of_app in Hx as [Hx|]; [|done].
    apply elem_of_app. right. apply Hexact. eauto. }
  intros u Hu. destruct (proj1 (Hall _ _ _ Hfmt) u Hu) as [[? Hnone]|]; [|done]. cbn in Hnone. by rewrite lookup_empty in Hnone.
Qed.

(** ** Printed samples *)

Definition lowered_db (p : Program.Program) : RustIrDatabase := program_rust_ir (program_db [] [] [] []) 3 p id.
Definition lowered_names (p : Program.Program) : ItemNames := program_names (λ _, EmptyString) p.

(** The text that a logging database prints for a program, given what it recorded; [None]
    if lowering fails. *)
Definition logged_text (items : list Item) (def_ids : list RecordedItemId) : option (Fallible string) :=
  match lower_Program (Ast.mkProgram items) with
  | Val p => Some (fst <$> fmt_logging_db (plain_db (lowered_db p) (lowered_names p)) def_ids IdAliasStore_default)
  | _ => None
  end.

Definition iterator_ids : list RecordedItemId := [RecTrait 1; RecImpl 2; RecAdt 3; RecOpaqueTy 4].

(** A membership in a concrete list. *)
Ltac in_list H :=
  repeat (apply elem_of_cons in H as [H|H]; [try discriminate H; try (injection H as ->)|]);
  try by apply elem_of_nil in H.

Lemma printed_names_resolve_witness :
  ∃ text st, fmt_logging_db (plain_db (lowered_db lowered_iterator) (lowered_names lowered_iterator)) iterator_ids
               IdAliasStore_default = Val (text, st) ∧
    ∀ u, is_Some (st.(aliases) !! u) → declared (lowered_db lowered_iterator) (iterator_ids ++ [RecTrait 0]) u.
Proof.
  do 2 eexists. split; [vm_compute; reflexivity|].
  eapply (printed_names_resolve (lowered_db lowered_iterator) (lowered_names lowered_iterator) iterator_ids [RecTrait 0]).
  - vm_compute. reflexivity.
  - vm_compute. reflexivity.
  - split.
    + intros a Ha. in_list Ha. vm_compute. reflexivity.
    + intros t Ht. in_list Ht; vm_compute; reflexivity.
    + intros o Ho. in_list Ho. vm_compute. reflexivity.
    + intros t a Ht. in_list Ht; vm_compute; intros Ha; in_list Ha; subst; reflexivity.
    + intros i v Hi. in_list Hi. vm_compute. intros Hv. in_list Hv. subst. reflexivity.
  - assert (Forall (λ i, Forall (λ x, x ∈ item_names (lowered_db lowered_iterator) false i ++ iterator_ids ++ [RecTrait 0])
      (item_names (lowered_db lowered_iterator) true i)) iterator_ids) as Hall
      by (apply (bool_decide_unpack _); vm_compute; exact I).
    intros i x Hi Hx. rewrite Forall_forall in Hall. specialize (Hall i Hi). rewrite Forall_forall in Hall. by apply Hall.
  - intros f. set_solver.
  - intros a t Ha. exfalso. set_solver.
Defined.

(** *** Texts that do not read back *)

#[local] Open Scope string_scope.

Definition named (s : string) : Ast.Ty := Ast.TyId (Samples.ident_of s).
Definition marker_trait (s : string) : Item := Samples.trait_decl Samples.no_flags s [] [].
Definition struct_of (s : string) (tys : list Ast.Ty) : Item := Samples.struct_decl Samples.plain_struct s [] [] tys.
Definition fn_decl (safety : Ast.Safety) (s : string) (args : list Ast.Ty) (ret : Ast.Ty) : Item :=
  ItFnDefn (Ast.mkFnDefn (Samples.ident_of s) [] [] args ret (Ast.mkFnSig FnAbi_default safety false) None).
Definition opaque_decl (wcs : list Ast.QuantifiedWhereClause) : Item :=
  ItOpaqueTyDefn (mkOpaqueTyDefn (named "S") [] (Samples.ident_of "O") [Samples.bound_on "Tr"] wcs).

Definition text_lines (l : list string) : option (Fallible string) :=
  Some (Val (String.concat nl (l ++ [EmptyString]))).

(** Three structs that another crate graph would name [A], [A] and [A_1]. *)
Definition three_structs : list Item := [struct_of "X" []; struct_of "Y" []; struct_of "Z" []].
Definition clashing_names : ItemNames :=
  mkItemNames (λ _, "Tr") (λ a, if (a =? 2)%N then "A_1" else "A") (λ _, "T") (λ _, "O") (λ _, "f").
Definition clashing_text : option (Fallible string) :=
  match lower_Program (Ast.mkProgram three_structs) with
  | Val p => Some (fst <$> fmt_logging_db (plain_db (lowered_db p) clashing_names) [RecAdt 0; RecAdt 1; RecAdt 2] IdAliasStore_default)
  | _ => None
  end.

(** Where printing falls short.  The text of a recorded impl does not declare its trait
    (the collector visits the trait reference of an impl, not a where clause).  The stub of
    a function keeps its argument and return types, which nobody collects (here [T]), and a
    type of a function is not printed as a type.  Where clauses of opaque types and the
    safety of functions are lost.  The numbers that tell items of one name apart clash with
    names that end in a number.  A recorded generator ends in a panic. *)
Theorem printing_gaps :
  logged_text [marker_trait "Tr"; struct_of "S" []; Samples.impl_decl [] "Tr" [Ast.ArgTy (named "S")] [] []] [RecImpl 2] =
    text_lines ["struct S {}"; "impl Tr for S {}"] ∧
  logged_text [struct_of "T" []; fn_decl Ast.Safe "f" [named "T"] (named "T"); struct_of "S" [named "f"]] [RecAdt 2] =
    text_lines ["fn f(arg_0: T) -> T;"; "struct S {"; "  field_0: <fn_def>"; "}"] ∧
  map (λ wcs, logged_text [marker_trait "Tr"; struct_of "S" []; opaque_decl wcs] [RecTrait 0; RecAdt 1; RecOpaqueTy 2])
      [[]; [Samples.where_implements (Ast.ArgTy (named "S")) "Tr"]] =
    replicate 2 (text_lines ["trait Tr {}"; "struct S {}"; "opaque type O: Tr = S;"]) ∧
  (∀ safety, logged_text [fn_decl safety "f" [] Ast.TyStr] [RecFnDef 0] = text_lines ["fn f() -> str;"]) ∧
  clashing_text = text_lines ["struct A {}"; "struct A_1 {}"; "struct A_1 {}"] ∧
  logged_text [] [RecGenerator 0] = Some (Panic PExplicit).
Proof.
  split_and!; try (vm_compute; reflexivity).
Qed.
