(* ===== verification/Debug.v ===== *)
(** * The text of terms and answers
    ([chalk-ir/src/debug.rs], [DebugContext] for [Program] of [chalk-integration/src/program.rs],
    [tls.rs], the [debug_*] methods of [ChalkIr], [SolutionDisplay] of [chalk-solve/src/solve.rs],
    the [Display] of errors and identifiers)

    What the tests and the read-eval-print loop show: [{:?}] of terms and [{}] of answers and
    errors (not [{:#?}]).  The current program, a thread-local variable that [set_current_program]
    sets, gives the names; without it identifiers and the vectors of the interner are printed.

    The second half shows how much of an answer its text determines.  A text is that of one
    sequence of words and punctuation ([Token], [lexed], [text_inj]); the words of a term
    ([ty_tokens]) are those of no other term of the same sort, whatever comes after
    them ([reads]); so answers with the same text are the same up to the kinds of
    their variables ([answer_text_exact]).  [names_ok] is what this needs of the program, and
    [names_check] decides it; [texts_shared] shows texts that say less. *)

From Stdlib Require Import Ascii.
From stdpp Require Import base list numbers gmap strings pretty.
From S2P Require Import Prelude Ast Ir Fold FoldLaws Shift Zip RustIr Solve SlgSolve Coherence Wf LowerEnv Program Lowering ProgramLowerer LoweringThm Programs.
From S2P Require Display Queries.

(** What a [fmt] writes; a [fmt] can panic. *)
Abbreviation Text := (Fallible string).

(** [write!] with the texts of the arguments in place. *)
Definition write (l : list Text) : Text := strs ← mapM id l; Val (String.concat EmptyString strs).
(** A separator before every item but the first. *)
Definition separated (sep : string) (l : list Text) : Text :=
  strs ← mapM id l; Val (String.concat sep strs).

(** [Debug] of slices and vectors. *)
Definition debug_slice (l : list Text) : Text := write [Val "["; separated ", " l; Val "]"].
(** [Debug] of [Angle]. *)
Definition debug_Angle (l : list Text) : Text :=
  match l with [] => Val EmptyString | _ => write [Val "<"; separated ", " l; Val ">"] end.

(** ** What has no names *)

Definition debug_RawId (index : N) : string := "#" +:+ pretty index.
Definition debug_ClosureId (id : ClosureId) : string := "ClosureId(" +:+ debug_RawId id +:+ ")".
Definition debug_GeneratorId (id : GeneratorId) : string := "GeneratorId(" +:+ debug_RawId id +:+ ")".
Definition debug_ForeignDefId (id : ForeignDefId) : string := "ForeignDefId(" +:+ debug_RawId id +:+ ")".

Definition debug_UniverseIndex (self : UniverseIndex) : string := "U" +:+ pretty self.(counter).
Definition debug_DebruijnIndex (depth : DebruijnIndex) : string := "^" +:+ pretty depth.
Definition debug_BoundVar (self : BoundVar) : string :=
  debug_DebruijnIndex self.(debruijn) +:+ "." +:+ pretty self.(index).
Definition debug_InferenceVar (v : InferenceVar) : string := "?" +:+ pretty v.
Definition debug_PlaceholderIndex (self : PlaceholderIndex) : string :=
  "!" +:+ pretty self.(ui).(counter) +:+ "_" +:+ pretty self.(idx).

Definition debug_LifetimeData (self : Lifetime) : string :=
  match self with
  | LtBoundVar db => "'" +:+ debug_BoundVar db
  | LtInferenceVar var => "'" +:+ debug_InferenceVar var
  | LtPlaceholder index => "'" +:+ debug_PlaceholderIndex index
  | LtStatic => "'static"
  | LtEmpty universe =>
      if decide (universe = universe_root) then "'<empty>"
      else "'<empty:" +:+ debug_UniverseIndex universe +:+ ">"
  | LtErased => "'<erased>"
  end.

Definition debug_ConstData (self : Const) : string :=
  match const_value self with
  | CvBoundVar db => debug_BoundVar db
  | CvInferenceVar var => debug_InferenceVar var
  | CvPlaceholder index => debug_PlaceholderIndex index
  | CvConcrete evaluated => pretty evaluated
  end.

Definition debug_IntTy (i : IntTy) : string :=
  match i with
  | Isize => "Isize" | I8 => "I8" | I16 => "I16" | I32 => "I32" | I64 => "I64" | I128 => "I128"
  end.
Definition debug_UintTy (u : UintTy) : string :=
  match u with
  | Usize => "Usize" | U8 => "U8" | U16 => "U16" | U32 => "U32" | U64 => "U64" | U128 => "U128"
  end.
Definition debug_FloatTy (f : FloatTy) : string := match f with F32 => "F32" | F64 => "F64" end.
Definition debug_Scalar (s : Scalar) : string :=
  match s with
  | ScBool => "Bool"
  | ScChar => "Char"
  | ScInt i => "Int(" +:+ debug_IntTy i +:+ ")"
  | ScUint u => "Uint(" +:+ debug_UintTy u +:+ ")"
  | ScFloat f => "Float(" +:+ debug_FloatTy f +:+ ")"
  end.
Definition debug_Variance (v : Variance) : string :=
  match v with Covariant => "Covariant" | Invariant => "Invariant" | Contravariant => "Contravariant" end.
Definition debug_QuantifierKind (k : QuantifierKind) : string :=
  match k with ForAll => "ForAll" | Exists => "Exists" end.
Definition debug_ChalkFnAbi (a : ChalkFnAbi) : string :=
  String "034"%char (match a with AbiRust => "rust" | AbiC => "c" end +:+ String "034"%char EmptyString).
Definition debug_inference_ty (var : InferenceVar) (kind : TyVariableKind) : string :=
  debug_InferenceVar var +:+
    match kind with General => EmptyString | Integer => "i" | Float => "f" end.

(** ** What depends on the current program *)

Section Debug.
Context (program_db : Program.Program → RustIrDatabase) (current : option Program.Program).

(** [debug_*_id], and the [Debug] of an identifier without a program. *)
Definition debug_kind_id (kinds : Program.Program → gmap N TypeKind) (invalid plain : string) (id : N) : string :=
  match current with
  | Some program => Display.debug_kind invalid (kinds program) id
  | None => plain +:+ "(" +:+ debug_RawId id +:+ ")"
  end.
Definition debug_adt_id : AdtId → string := debug_kind_id adt_kinds "InvalidAdtId" "AdtId".
Definition debug_trait_id : TraitId → string := debug_kind_id trait_kinds "InvalidTraitId" "TraitId".
Definition debug_opaque_ty_id : OpaqueTyId → string :=
  debug_kind_id opaque_ty_kinds "InvalidOpaqueTyId" "OpaqueTyId".
Definition debug_fn_def_id : FnDefId → string := debug_kind_id fn_def_kinds "InvalidFnDefId" "FnDefId".
Definition debug_assoc_type_id (id : AssocTypeId) : string :=
  match current with
  | Some program =>
      match program.(prog_associated_ty_data) !! id with
      | Some d => "(" +:+ debug_trait_id d.(assoc_trait_id) +:+ "::" +:+ d.(assoc_name) +:+ ")"
      | None => Display.debug_invalid "InvalidAssocTypeId" id
      end
  | None => "AssocTypeId(" +:+ debug_RawId id +:+ ")"
  end.

(** [debug_substitution]: the arguments by number, or the vector. *)
Definition debug_substitution (s : list Text) : Text :=
  match current with
  | Some _ => write [Val "["; separated ", " (imap (λ index value, write [Val ("?" +:+ pretty index +:+ " := "); value]) s); Val "]"]
  | None => debug_slice s
  end.
(** [with_angle] in [TyKindDebug]; [<{:?}>] in the [Debug] of [TyKind], which has no interner. *)
Definition debug_parameters (s : list Text) : Text :=
  match current with Some _ => debug_Angle s | None => write [Val "<"; debug_substitution s; Val ">"] end.

(** [debug_separator_trait_ref]. *)
Definition debug_SeparatorTraitRef (trait_id : TraitId) (separator : string) (parameters : list Text) : Text :=
  match current with
  | Some _ =>
      match parameters with
      | [] => Panic PIndex
      | self :: parameters =>
          write [self; Val separator; Val (debug_trait_id trait_id); debug_Angle parameters]
      end
  | None => Val "SeparatorTraitRef(?)"
  end.
(** [debug_projection_ty]. *)
Definition debug_projection_ty (id : AssocTypeId) (parameters : list Text) : Text :=
  match current with
  | Some program =>
      let associated_ty_data := (program_db program).(associated_ty_data) id in
      '(trait_params, other_params) ←
        split_associated_ty_parameters (program_db program) parameters associated_ty_data;
      match trait_params with
      | [] => Panic PIndex
      | self :: trait_params =>
          write [Val "<"; self; Val " as "; Val (debug_trait_id associated_ty_data.(assoc_trait_id));
            debug_Angle trait_params; Val ">::"; Val associated_ty_data.(assoc_name); debug_Angle other_params]
      end
  | None => Val "AliasTy(?)"
  end.
Definition debug_opaque_ty (id : OpaqueTyId) : Text :=
  match current with Some _ => Val (debug_opaque_ty_id id) | None => Val "AliasTy(?)" end.

(** [VariableKinds::debug]. *)
Definition debug_variable_kinds_with_angles (kinds : list Text) : Text :=
  match current with
  | Some _ => write [Val "<"; separated ", " kinds; Val ">"]
  | None => debug_slice kinds
  end.
Definition debug_Binders (kinds : list Text) (value : Text) : Text :=
  write [Val "for"; debug_variable_kinds_with_angles kinds; Val " "; value].

Definition debug_LifetimeOutlives (a b : Lifetime) : Text :=
  write [Val (debug_LifetimeData a); Val ": "; Val (debug_LifetimeData b)].
Definition debug_TypeOutlives (ty : Text) (lifetime : Lifetime) : Text :=
  write [ty; Val ": "; Val (debug_LifetimeData lifetime)].

Fixpoint debug_ty (self : Ty) : Text :=
  match self with
  | TyBoundVar db => Val (debug_BoundVar db)
  | TyDyn bounds lifetime =>
      write [Val "dyn ";
        debug_Binders (map debug_variable_kind bounds.(binders))
          (debug_slice (map (λ bound : QuantifiedWhereClause,
             debug_Binders (map debug_variable_kind bound.(binders)) (debug_where_clause bound.(value)))
             bounds.(value)));
        Val " + "; Val (debug_LifetimeData lifetime)]
  | TyInferenceVar var kind => Val (debug_inference_ty var kind)
  | TyAlias alias => debug_alias alias
  | TyPlaceholder index => Val (debug_PlaceholderIndex index)
  | TyFunction num_binders sig substitution =>
      write [Val (match sig.(safety) with Unsafe => "unsafe " | Safe => EmptyString end);
        Val (debug_ChalkFnAbi sig.(abi)); Val " for<"; Val (pretty num_binders); Val "> ";
        debug_substitution (map debug_generic_arg substitution)]
  | TyAdt id substitution =>
      write [Val (debug_adt_id id); debug_parameters (map debug_generic_arg substitution)]
  | TyAssociatedType assoc_ty substitution =>
      write [Val (debug_assoc_type_id assoc_ty); debug_parameters (map debug_generic_arg substitution)]
  | TyScalar scalar => Val (debug_Scalar scalar)
  | TyStr => Val "Str"
  | TyTuple arity substitution =>
      write [Val (pretty arity); debug_parameters (map debug_generic_arg substitution)]
  | TyOpaqueType opaque_ty substitution =>
      write [Val "!"; Val (debug_opaque_ty_id opaque_ty); debug_parameters (map debug_generic_arg substitution)]
  | TySlice ty =>
      match current with
      | Some _ => write [Val "["; debug_ty ty; Val "]"]
      | None => write [Val "{slice}<"; debug_ty ty; Val ">"]
      end
  | TyFnDef fn_def substitution =>
      write [Val (debug_fn_def_id fn_def); debug_parameters (map debug_generic_arg substitution)]
  | TyRef mutability lifetime ty =>
      write [Val "(&"; Val (debug_LifetimeData lifetime);
        Val (match mutability with Mut => " mut " | Not => " " end); debug_ty ty; Val ")"]
  | TyRaw mutability ty =>
      write [Val (match mutability with Mut => "(*mut " | Not => "(*const " end); debug_ty ty; Val ")"]
  | TyNever => Val "Never"
  | TyArray ty const_ => write [Val "["; debug_ty ty; Val "; "; Val (debug_ConstData const_); Val "]"]
  | TyClosure id substitution =>
      write [Val "{closure:"; Val (debug_ClosureId id); Val "}";
        debug_parameters (map debug_generic_arg substitution)]
  | TyGenerator generator substitution =>
      write [Val (debug_GeneratorId generator); debug_parameters (map debug_generic_arg substitution)]
  | TyGeneratorWitness witness substitution =>
      write [Val (debug_GeneratorId witness); debug_parameters (map debug_generic_arg substitution)]
  | TyForeign foreign_ty => Val (debug_ForeignDefId foreign_ty)
  | TyError => Val "{error}"
  end
with debug_generic_arg (self : GenericArg) : Text :=
  match self with
  | ArgTy t =>
      match current with Some _ => debug_ty t | None => write [Val "Ty("; debug_ty t; Val ")"] end
  | ArgLifetime l =>
      match current with
      | Some _ => Val (debug_LifetimeData l)
      | None => Val ("Lifetime(" +:+ debug_LifetimeData l +:+ ")")
      end
  | ArgConst c =>
      match current with
      | Some _ => Val (debug_ConstData c)
      | None => Val ("Const(" +:+ debug_ConstData c +:+ ")")
      end
  end
with debug_variable_kind (self : VariableKind) : Text :=
  match self with
  | VkTy General => Val "type"
  | VkTy Integer => Val "integer type"
  | VkTy Float => Val "float type"
  | VkLifetime => Val "lifetime"
  | VkConst ty => write [Val "const: "; debug_ty ty]
  end
with debug_alias (self : AliasTy) : Text :=
  match self with
  | AliasProjection id s => debug_projection_ty id (map debug_generic_arg s)
  | AliasOpaque id _ => debug_opaque_ty id
  end
with debug_where_clause (self : WhereClause) : Text :=
  match self with
  | WcImplemented tr =>
      write [Val "Implemented("; debug_SeparatorTraitRef tr.(trait_id) ": " (map debug_generic_arg tr.(substitution)); Val ")"]
  | WcAliasEq alias ty => write [Val "AliasEq("; debug_alias alias; Val " = "; debug_ty ty; Val ")"]
  | WcLifetimeOutlives a b => debug_LifetimeOutlives a b
  | WcTypeOutlives ty lifetime => debug_TypeOutlives (debug_ty ty) lifetime
  end.

Definition debug_WellFormed (self : WellFormed) : Text :=
  match self with
  | WfTrait t => write [Val "WellFormed("; debug_SeparatorTraitRef t.(trait_id) ": " (map debug_generic_arg t.(substitution)); Val ")"]
  | WfTy t => write [Val "WellFormed("; debug_ty t; Val ")"]
  end.
Definition debug_FromEnv (self : FromEnv) : Text :=
  match self with
  | FeTrait t => write [Val "FromEnv("; debug_SeparatorTraitRef t.(trait_id) ": " (map debug_generic_arg t.(substitution)); Val ")"]
  | FeTy t => write [Val "FromEnv("; debug_ty t; Val ")"]
  end.
(** [Debug] of a trait reference by itself: [with_as]. *)
Definition debug_TraitRef (self : TraitRef) : Text :=
  debug_SeparatorTraitRef self.(trait_id) " as " (map debug_generic_arg self.(substitution)).

Definition debug_DomainGoal (self : DomainGoal) : Text :=
  match self with
  | DgHolds n => debug_where_clause n
  | DgWellFormed n => debug_WellFormed n
  | DgFromEnv n => debug_FromEnv n
  | DgNormalize alias ty => write [Val "Normalize("; debug_alias alias; Val " -> "; debug_ty ty; Val ")"]
  | DgIsLocal n => write [Val "IsLocal("; debug_ty n; Val ")"]
  | DgIsUpstream n => write [Val "IsUpstream("; debug_ty n; Val ")"]
  | DgIsFullyVisible n => write [Val "IsFullyVisible("; debug_ty n; Val ")"]
  | DgLocalImplAllowed tr =>
      write [Val "LocalImplAllowed("; debug_SeparatorTraitRef tr.(trait_id) ": " (map debug_generic_arg tr.(substitution)); Val ")"]
  | DgCompatible => Val "Compatible"
  | DgDownstreamType n => write [Val "DownstreamType("; debug_ty n; Val ")"]
  | DgReveal => Val "Reveal"
  | DgObjectSafe n => Val ("ObjectSafe(" +:+ debug_trait_id n +:+ ")")
  end.

Definition debug_Constraint (self : Constraint) : Text :=
  match self with
  | CtLifetimeOutlives a b => debug_LifetimeOutlives a b
  | CtTypeOutlives ty lifetime => debug_TypeOutlives (debug_ty ty) lifetime
  end.
(** [InEnvironment] derives [Debug]; [Environment] prints its clauses. *)
Definition debug_InEnvironment (clauses : list Text) (goal : Text) : Text :=
  write [Val "InEnvironment { environment: Env("; debug_slice clauses; Val "), goal: "; goal; Val " }"].

(** [debug_program_clause_implication]. *)
Definition debug_implication (consequence : Text) (conditions : list Text) : Text :=
  match current with
  | Some _ =>
      match conditions with
      | [] => consequence
      | _ => write [consequence; Val " :- "; separated ", " conditions]
      end
  | None => Val "ProgramClauseImplication(?)"
  end.

(** [debug_goals]. *)
Definition debug_goals (goals : list Text) : Text :=
  match current with
  | Some _ => write [Val "("; separated ", " goals; Val ")"]
  | None => debug_slice goals
  end.

(** The text of a goal that cannot be proved is not ASCII: its bytes in UTF-8. *)
Definition cannot_prove : string :=
  String "194"%char (String "175"%char ("\_(" +:+ String "227"%char (String "131"%char (String "132"%char
    (")_/" +:+ String "194"%char (String "175"%char EmptyString)))))).

Fixpoint debug_goal (self : Goal) : Text :=
  match self with
  | GQuantified qkind subgoal =>
      write [Val (debug_QuantifierKind qkind);
        debug_variable_kinds_with_angles (map debug_variable_kind subgoal.(binders)); Val " { ";
        debug_goal subgoal.(value); Val " }"]
  | GImplies wc g =>
      write [Val "if ("; debug_slice (map debug_program_clause wc); Val ") { "; debug_goal g; Val " }"]
  | GAll goals => write [Val "all"; debug_goals (map debug_goal goals)]
  | GNot g => write [Val "not { "; debug_goal g; Val " }"]
  | GEqGoal a b => write [Val "("; debug_generic_arg a; Val " = "; debug_generic_arg b; Val ")"]
  | GSubtypeGoal a b => write [Val "("; debug_ty a; Val " <: "; debug_ty b; Val ")"]
  | GDomainGoal wc => debug_DomainGoal wc
  | GCannotProve => Val cannot_prove
  end
with debug_program_clause (self : ProgramClause) : Text :=
  match self with
  | mkProgramClause data =>
      debug_Binders (map debug_variable_kind data.(binders))
        (debug_implication (debug_DomainGoal data.(value).(consequence))
           (map debug_goal data.(value).(conditions)))
  end.

Definition debug_Environment (self : Environment) : Text :=
  write [Val "Env("; debug_slice (map debug_program_clause self); Val ")"].
Definition debug_constraints (self : Constraints) : Text :=
  debug_slice (map (λ c : InEnvironment Constraint,
    debug_InEnvironment (map debug_program_clause c.(environment)) (debug_Constraint c.(env_goal))) self).
Definition debug_variances (self : list Variance) : Text := debug_slice (map (λ v, Val (debug_Variance v)) self).
Definition debug_WithKind (self : CanonicalVarKind) : Text :=
  write [Val (debug_UniverseIndex self.(kvalue));
    match self.(kind) with
    | VkConst ty => write [Val " with kind "; debug_ty ty]
    | k => write [Val " with kind "; debug_variable_kind k]
    end].
Definition debug_canonical_var_kinds (self : list CanonicalVarKind) : Text := debug_slice (map debug_WithKind self).

(** ** Answers *)

Definition display_Substitution (self : Substitution) : Text := debug_substitution (map debug_generic_arg self).

Definition display_ConstrainedSubst (self : ConstrainedSubst) : Text :=
  subst ← display_Substitution self.(csubst);
  constraints ← debug_constraints self.(cconstraints);
  Val (String.concat ", "
    ((if decide (subst = "[]") then [] else ["substitution " +:+ subst]) ++
     (if decide (constraints = "[]") then [] else ["lifetime constraints " +:+ constraints]))).

(** [CanonicalDisplay]. *)
Definition display_Canonical {T} (display : T → Text) (self : Canonical T) : Text :=
  match self.(cbinders) with
  | [] => display self.(cvalue)
  | binders =>
      write [Val "for<"; separated "," (map (λ pk : CanonicalVarKind, Val ("?" +:+ debug_UniverseIndex pk.(kvalue))) binders);
        Val "> { "; display self.(cvalue); Val " }"]
  end.

(** [SolutionDisplay]. *)
Definition display_Solution (solution : Solution) : Text :=
  match solution with
  | Unique constrained =>
      match constrained with
      | mkCanonical (mkConstrainedSubst [] []) [] => Val "Unique"
      | _ => write [Val "Unique; "; display_Canonical display_ConstrainedSubst constrained]
      end
  | Ambig (Definite subst) => write [Val "Ambiguous; definite substitution "; display_Canonical display_Substitution subst]
  | Ambig (Suggested subst) => write [Val "Ambiguous; suggested substitution "; display_Canonical display_Substitution subst]
  | Ambig Unknown => Val "Ambiguous; no inference guidance"
  end.

Definition display_SubstitutionResult {S} (display : S → Text) (self : SubstitutionResult S) : Text :=
  match self with
  | SrDefinite _ subst => display subst
  | SrAmbiguous _ subst => write [Val "Ambiguous("; display subst; Val ")"]
  | SrFloundered _ => Val "Floundered"
  end.

(** ** Errors *)

Definition display_CoherenceError (self : CoherenceError) : string :=
  match self with
  | OverlappingImpls id => "overlapping impls of trait `" +:+ debug_trait_id id +:+ "`"
  | FailedOrphanCheck id => "impl for trait `" +:+ debug_trait_id id +:+ "` violates the orphan rules"
  end.
Definition display_WfError (self : WfError) : string :=
  match self with
  | IllFormedTypeDecl id => "type declaration `" +:+ debug_adt_id id +:+ "` does not meet well-formedness requirements"
  | IllFormedOpaqueTypeDecl id =>
      "opaque type declaration `" +:+ debug_opaque_ty_id id +:+ "` does not meet well-formedness requirements"
  | IllFormedTraitImpl id => "trait impl for `" +:+ debug_trait_id id +:+ "` does not meet well-formedness requirements"
  end.
End Debug.

Definition display_Kind (self : Kind) : string :=
  match self with KTy => "type" | KLifetime => "lifetime" | KConst => "const" end.

Definition display_Identifier (self : Identifier) : string := self.(str).

Definition display_RustIrError (self : RustIrError) : string :=
  match self with
  | InvalidParameterName name => "invalid parameter name `" +:+ display_Identifier name +:+ "`"
  | InvalidTraitName name => "invalid trait name `" +:+ display_Identifier name +:+ "`"
  | NotTrait name => "expected a trait, found `" +:+ display_Identifier name +:+ "`, which is not a trait"
  | NotStruct name => "expected a struct, found `" +:+ display_Identifier name +:+ "`, which is not a struct"
  | DuplicateOrShadowedParameters => "duplicate or shadowed parameters"
  | AutoTraitAssociatedTypes name => "auto trait `" +:+ display_Identifier name +:+ "` cannot define associated types"
  | AutoTraitParameters name => "auto trait `" +:+ display_Identifier name +:+ "` cannot have parameters"
  | AutoTraitWhereClauses name => "auto trait `" +:+ display_Identifier name +:+ "` cannot have where clauses"
  | InvalidFundamentalTypesParameters name =>
      "only a single parameter supported for fundamental type `" +:+ display_Identifier name +:+ "`"
  | NegativeImplAssociatedValues name =>
      "negative impl for trait `" +:+ display_Identifier name +:+ "` cannot define associated values"
  | MissingAssociatedType name => "no associated type `" +:+ display_Identifier name +:+ "` defined in trait"
  | IncorrectNumberOfVarianceParameters identifier expected actual =>
      "`" +:+ display_Identifier identifier +:+ "` has " +:+ pretty expected +:+ " type parameters, not " +:+ pretty actual
        +:+ ", which were passed for variance"
  | IncorrectNumberOfTypeParameters identifier expected actual =>
      "`" +:+ display_Identifier identifier +:+ "` takes " +:+ pretty expected +:+ " type parameters, not " +:+ pretty actual
  | IncorrectNumberOfAssociatedTypeParameters identifier expected actual =>
      "wrong number of parameters for associated type `" +:+ display_Identifier identifier +:+ "` (expected " +:+ pretty expected
        +:+ ", got " +:+ pretty actual +:+ ")"
  | IncorrectParameterKind identifier expected actual =>
      "incorrect parameter kind for `" +:+ display_Identifier identifier +:+ "`: expected " +:+ display_Kind expected
        +:+ ", found " +:+ display_Kind actual
  | IncorrectTraitParameterKind identifier expected actual =>
      "incorrect parameter kind for trait `" +:+ display_Identifier identifier +:+ "`: expected " +:+ display_Kind expected
        +:+ ", found " +:+ display_Kind actual
  | IncorrectAssociatedTypeParameterKind identifier expected actual =>
      "incorrect associated type parameter kind for `" +:+ display_Identifier identifier +:+ "`: expected " +:+ display_Kind expected
        +:+ ", found " +:+ display_Kind actual
  | CannotApplyTypeParameter name => "cannot apply type parameter `" +:+ display_Identifier name +:+ "`"
  | InvalidExternAbi abi => "invalid extern ABI `" +:+ abi +:+ "`"
  end.

(** The conversions to [ChalkError], which keeps the text only. *)
Definition display_ChalkError {P} (display_parse_error : P → string) (current : option Program.Program)
    (self : Queries.ChalkError P) : string :=
  match self with
  | Queries.CeParse e => display_parse_error e
  | Queries.CeLower e => display_RustIrError e
  | Queries.CeCoherence e => display_CoherenceError current e
  | Queries.CeWf e => display_WfError current e
  end.

(** ** The current program

    [set_current_program] does not restore what was there before it. *)

Abbreviation Current := (option Program.Program).

Definition with_current_program {R} (op : Current → R) : Current → R * Current := λ current, (op current, current).
(** A panic of [op] leaves the program in place. *)
Definition set_current_program {E R} (p : Program.Program) (op : Current → outcome E R * Current) :
    Current → outcome E R * Current := λ _,
  match op (Some p) with
  | (Panic e, current) => (Panic e, current)
  | (r, _) => (r, None)
  end.

(** ** Words and punctuation *)

Definition word_char (c : ascii) : bool :=
  let n := nat_of_ascii c in
  ((48 <=? n) && (n <=? 57)) || ((65 <=? n) && (n <=? 90)) || (n =? 95) || ((97 <=? n) && (n <=? 122)).
Definition digit_char (c : ascii) : bool := let n := nat_of_ascii c in (48 <=? n) && (n <=? 57).

Fixpoint all_chars (f : ascii → bool) (s : string) : bool :=
  match s with EmptyString => true | String c s => f c && all_chars f s end.
Definition starts (f : ascii → bool) (s : string) : bool :=
  match s with EmptyString => false | String c _ => f c end.

Inductive Token := Word (w : string) | Punct (c : ascii).

Definition token_text (t : Token) : string :=
  match t with Word w => w | Punct c => String c EmptyString end.
Fixpoint text (l : list Token) : string :=
  match l with [] => EmptyString | t :: l => token_text t +:+ text l end.

(** Punctuation. *)
Fixpoint puncts (s : string) : list Token :=
  match s with EmptyString => [] | String c s => Punct c :: puncts s end.

(** A sequence that can be read back, after a word or not. *)
Fixpoint lexed (after_word : bool) (l : list Token) : Prop :=
  match l with
  | [] => True
  | Word w :: l => after_word = false ∧ w ≠ EmptyString ∧ all_chars word_char w = true ∧ lexed true l
  | Punct c :: l => word_char c = false ∧ lexed false l
  end.

Lemma string_app_assoc (s1 s2 s3 : string) : (s1 +:+ s2) +:+ s3 = s1 +:+ s2 +:+ s3.
Proof.
  induction s1 as [|c s1 IH]; [done|]. change (String c ((s1 +:+ s2) +:+ s3) = String c (s1 +:+ s2 +:+ s3)). by rewrite IH.
Qed.

Lemma text_app l1 l2 : text (l1 ++ l2) = text l1 +:+ text l2.
Proof. induction l1 as [|t l1 IH]; [done|]. simpl. by rewrite IH, string_app_assoc. Qed.

Lemma text_puncts s : text (puncts s) = s.
Proof. induction s as [|c s IH]; [done|]. change (String c (text (puncts s)) = String c s). by rewrite IH. Qed.

Lemma lexed_after_word l : lexed true l → starts word_char (text l) = false.
Proof. destruct l as [|[w|c] l]; [done|by intros [? _]|]. by intros [Hc _]. Qed.

(** Where a run of characters ends. *)
Lemma run_split f w1 w2 s1 s2 : all_chars f w1 = true → all_chars f w2 = true →
  starts f s1 = false → starts f s2 = false → w1 +:+ s1 = w2 +:+ s2 → w1 = w2 ∧ s1 = s2.
Proof.
  revert w2. induction w1 as [|c w1 IH]; intros [|c' w2] Hw1 Hw2 Hs1 Hs2 Heq; simpl in Hw1, Hw2.
  - by split.
  - change (s1 = String c' (w2 +:+ s2)) in Heq. subst s1. simpl in Hs1. by rewrite Hs1 in Hw2.
  - change (String c (w1 +:+ s1) = s2) in Heq. subst s2. simpl in Hs2. by rewrite Hs2 in Hw1.
  - cbn in Heq. injection Heq as -> Heq. apply andb_true_iff in Hw1 as [_ Hw1], Hw2 as [_ Hw2].
    destruct (IH w2 Hw1 Hw2 Hs1 Hs2 Heq) as [-> ->]. done.
Qed.

(** A text is that of one sequence only. *)
Lemma text_inj b l1 l2 : lexed b l1 → lexed b l2 → text l1 = text l2 → l1 = l2.
Proof.
  revert b l2. induction l1 as [|t1 l1 IH]; intros b l2 H1 H2 Heq.
  - destruct l2 as [|[[|c w]|c] l2]; [done|by destruct H2 as (_ & ? & _)|by cbn in Heq..].
  - destruct l2 as [|t2 l2]; [destruct t1 as [[|c w]|c]; [by destruct H1 as (_ & ? & _)|by cbn in Heq..]|].
    destruct t1 as [w1|c1], t2 as [w2|c2]; simpl in H1, H2, Heq.
    + destruct H1 as (-> & _ & Hw1 & H1), H2 as (_ & _ & Hw2 & H2).
      apply (run_split word_char) in Heq as [-> Heq]; auto using lexed_after_word. f_equal. by eapply IH.
    + destruct H1 as (_ & Hne & Hw1 & H1), H2 as [Hc H2]. destruct w1 as [|c w]; [done|].
      cbn in Heq. injection Heq as -> _. cbn in Hw1. by rewrite Hc in Hw1.
    + destruct H2 as (_ & Hne & Hw2 & H2), H1 as [Hc H1]. destruct w2 as [|c w]; [done|].
      cbn in Heq. injection Heq as -> _. cbn in Hw2. by rewrite Hc in Hw2.
    + destruct H1 as [_ H1], H2 as [_ H2]. cbn in Heq. injection Heq as -> Heq. f_equal. by eapply IH.
Qed.

(** *** Numbers *)

Lemma digit_word c : digit_char c = true → word_char c = true.
Proof. unfold digit_char, word_char. by intros ->. Qed.

Lemma all_chars_mono f g s : (∀ c, f c = true → g c = true) → all_chars f s = true → all_chars g s = true.
Proof.
  intros Hfg. induction s as [|c s IH]; [done|]. simpl. rewrite !andb_true_iff. intros [? ?]. auto.
Qed.
Lemma all_chars_app f s1 s2 : all_chars f (s1 +:+ s2) = all_chars f s1 && all_chars f s2.
Proof.
  induction s1 as [|c s1 IH]; [done|].
  change (f c && all_chars f (s1 +:+ s2) = (f c && all_chars f s1) && all_chars f s2). by rewrite IH, andb_assoc.
Qed.

Lemma digits_go x s : all_chars digit_char s = true → all_chars digit_char (pretty_N_go x s) = true.
Proof.
  revert s. induction (N.lt_wf_0 x) as [x _ IH]; intros s Hs.
  destruct (decide (x = 0%N)) as [->|]; [done|].
  rewrite pretty_N_go_step by lia. apply IH; [apply N.div_lt; lia|].
  simpl. rewrite Hs. unfold pretty_N_char. by repeat case_match.
Qed.
Lemma go_nonempty x s : s ≠ EmptyString → pretty_N_go x s ≠ EmptyString.
Proof.
  revert s. induction (N.lt_wf_0 x) as [x _ IH]; intros s Hs.
  destruct (decide (x = 0%N)) as [->|]; [done|].
  rewrite pretty_N_go_step by lia. apply IH; [apply N.div_lt; lia|done].
Qed.

Lemma digits_N (n : N) : all_chars digit_char (pretty n) = true.
Proof. unfold pretty, pretty_N. case_decide; [done|]. by apply digits_go. Qed.
Lemma nonempty_N (n : N) : pretty n ≠ EmptyString.
Proof.
  unfold pretty, pretty_N. case_decide; [done|]. rewrite pretty_N_go_step by lia. by apply go_nonempty.
Qed.
Lemma digits_nat (n : nat) : all_chars digit_char (pretty n) = true.
Proof. apply digits_N. Qed.
Lemma nonempty_nat (n : nat) : pretty n ≠ EmptyString.
Proof. apply nonempty_N. Qed.

Lemma string_app_nil (s : string) : s +:+ EmptyString = s.
Proof. induction s as [|c s IH]; [done|]. change (String c (s +:+ EmptyString) = String c s). by rewrite IH. Qed.
Lemma text_cons t l : text (t :: l) = token_text t +:+ text l.
Proof. done. Qed.

(** Texts of sequences as sums of strings. *)
Create HintDb texts.
#[export] Hint Rewrite text_app text_puncts text_cons string_app_assoc string_app_nil : texts.
Ltac texts := autorewrite with texts; cbn [token_text text]; autorewrite with texts.
Ltac writes := unfold write; cbn; f_equal; texts; try done.

(** ** The words of terms *)

Definition bound_tokens (self : BoundVar) : list Token :=
  puncts "^" ++ Word (pretty self.(debruijn)) :: puncts "." ++ [Word (pretty self.(index))].
Definition infer_tokens (v : InferenceVar) (suffix : string) : list Token :=
  puncts "?" ++ [Word (pretty v +:+ suffix)].
Definition placeholder_tokens (self : PlaceholderIndex) : list Token :=
  puncts "!" ++ [Word (pretty self.(ui).(counter) +:+ "_" +:+ pretty self.(idx))].
Definition raw_tokens (name : string) (id : N) : list Token :=
  Word name :: puncts "(#" ++ Word (pretty id) :: puncts ")".

Definition lifetime_tokens (self : Lifetime) : list Token :=
  puncts "'" ++
  match self with
  | LtBoundVar db => bound_tokens db
  | LtInferenceVar var => infer_tokens var EmptyString
  | LtPlaceholder index => placeholder_tokens index
  | LtStatic => [Word "static"]
  | LtEmpty universe =>
      puncts "<" ++ Word "empty" ::
        (if decide (universe = universe_root) then []
         else puncts ":" ++ [Word ("U" +:+ pretty universe.(counter))]) ++ puncts ">"
  | LtErased => puncts "<" ++ Word "erased" :: puncts ">"
  end.
Definition const_tokens (self : Const) : list Token :=
  match const_value self with
  | CvBoundVar db => bound_tokens db
  | CvInferenceVar var => infer_tokens var EmptyString
  | CvPlaceholder index => placeholder_tokens index
  | CvConcrete evaluated => [Word (pretty evaluated)]
  end.
Definition scalar_tokens (s : Scalar) : list Token :=
  match s with
  | ScBool => [Word "Bool"]
  | ScChar => [Word "Char"]
  | ScInt i => Word "Int" :: puncts "(" ++ Word (debug_IntTy i) :: puncts ")"
  | ScUint u => Word "Uint" :: puncts "(" ++ Word (debug_UintTy u) :: puncts ")"
  | ScFloat f => Word "Float" :: puncts "(" ++ Word (debug_FloatTy f) :: puncts ")"
  end.

(** What comes after an item of a list, up to its end. *)
Fixpoint rest_tokens (sep close : string) (l : list (list Token)) : list Token :=
  match l with [] => puncts close | a :: l => puncts sep ++ a ++ rest_tokens sep close l end.
Definition angle_tokens (l : list (list Token)) : list Token :=
  match l with [] => [] | a :: l => puncts "<" ++ a ++ rest_tokens ", " ">" l end.
Definition list_tokens (l : list (list Token)) : list Token :=
  puncts "[" ++ match l with [] => puncts "]" | a :: l => a ++ rest_tokens ", " "]" l end.

(** What the kind of a parameter leaves open. *)
Inductive Sort := SortTy | SortLifetime | SortConst (ty : Ty).

(** The parameters of items. *)
Record Signature := mkSignature {
  adt_sorts : AdtId → list Sort;
  assoc_sorts : AssocTypeId → list Sort;
  opaque_sorts : OpaqueTyId → list Sort;
  fn_sorts : FnDefId → list Sort;
  closure_sorts : ClosureId → list Sort;
  generator_sorts : GeneratorId → list Sort
}.

Definition usize : Ty := TyScalar (ScUint Usize).

(** The words that are not names of items. *)
Definition reserved : list string :=
  ["Bool"; "Char"; "Int"; "Uint"; "Float"; "Str"; "Never"; "GeneratorId"; "ForeignDefId"; "mut"].

(** A name that is a word, and no number. *)
Definition name_ok (name : string) : Prop :=
  name ≠ EmptyString ∧ all_chars word_char name = true ∧ starts digit_char name = false.

Section Read.
Context (program_db : Program.Program → RustIrDatabase) (p : Program.Program) (sg : Signature).

Definition name_in (kinds : gmap N TypeKind) (id : N) : string := from_option tk_name EmptyString (kinds !! id).
Definition trait_name (id : AssocTypeId) : string :=
  from_option (λ d, name_in p.(trait_kinds) d.(assoc_trait_id)) EmptyString (p.(prog_associated_ty_data) !! id).
Definition assoc_ty_name (id : AssocTypeId) : string :=
  from_option assoc_name EmptyString (p.(prog_associated_ty_data) !! id).

(** The items that types name, and that can be told apart by their names. *)
Record names_ok : Prop := {
  adt_name id k : p.(adt_kinds) !! id = Some k → name_ok k.(tk_name) ∧ k.(tk_name) ∉ reserved;
  fn_name id k : p.(fn_def_kinds) !! id = Some k → name_ok k.(tk_name) ∧ k.(tk_name) ∉ reserved;
  opaque_name id k : p.(opaque_ty_kinds) !! id = Some k → name_ok k.(tk_name);
  trait_name_ok id k : p.(trait_kinds) !! id = Some k → name_ok k.(tk_name);
  assoc_name_ok id d : p.(prog_associated_ty_data) !! id = Some d →
    name_ok d.(assoc_name) ∧ is_Some (p.(trait_kinds) !! d.(assoc_trait_id));
  adt_inj i j k k' : p.(adt_kinds) !! i = Some k → p.(adt_kinds) !! j = Some k' → k.(tk_name) = k'.(tk_name) → i = j;
  fn_inj i j k k' : p.(fn_def_kinds) !! i = Some k → p.(fn_def_kinds) !! j = Some k' → k.(tk_name) = k'.(tk_name) → i = j;
  opaque_inj i j k k' : p.(opaque_ty_kinds) !! i = Some k → p.(opaque_ty_kinds) !! j = Some k' →
    k.(tk_name) = k'.(tk_name) → i = j;
  adt_fn i j k k' : p.(adt_kinds) !! i = Some k → p.(fn_def_kinds) !! j = Some k' → k.(tk_name) ≠ k'.(tk_name);
  assoc_inj i j : is_Some (p.(prog_associated_ty_data) !! i) → is_Some (p.(prog_associated_ty_data) !! j) →
    trait_name i = trait_name j → assoc_ty_name i = assoc_ty_name j → i = j
}.

(** Types without binders, aliases and witnesses, whose arguments are of the right sorts. *)
Inductive plain : Ty → Prop :=
  | plain_adt id s : is_Some (p.(adt_kinds) !! id) → plain_args (sg.(adt_sorts) id) s → plain (TyAdt id s)
  | plain_assoc id s : is_Some (p.(prog_associated_ty_data) !! id) → plain_args (sg.(assoc_sorts) id) s →
      plain (TyAssociatedType id s)
  | plain_scalar s : plain (TyScalar s)
  | plain_tuple n s : plain_args (repeat SortTy n) s → plain (TyTuple n s)
  | plain_array t c : plain t → const_ty c = usize → plain (TyArray t c)
  | plain_slice t : plain t → plain (TySlice t)
  | plain_raw m t : plain t → plain (TyRaw m t)
  | plain_ref m l t : plain t → plain (TyRef m l t)
  | plain_opaque id s : is_Some (p.(opaque_ty_kinds) !! id) → plain_args (sg.(opaque_sorts) id) s →
      plain (TyOpaqueType id s)
  | plain_fn id s : is_Some (p.(fn_def_kinds) !! id) → plain_args (sg.(fn_sorts) id) s → plain (TyFnDef id s)
  | plain_str : plain TyStr
  | plain_never : plain TyNever
  | plain_closure id s : plain_args (sg.(closure_sorts) id) s → plain (TyClosure id s)
  | plain_generator id s : plain_args (sg.(generator_sorts) id) s → plain (TyGenerator id s)
  | plain_foreign id : plain (TyForeign id)
  | plain_error : plain TyError
  | plain_placeholder i : plain (TyPlaceholder i)
  | plain_bound bv : plain (TyBoundVar bv)
  | plain_infer v k : plain (TyInferenceVar v k)
with plain_args : list Sort → Substitution → Prop :=
  | plain_nil : plain_args [] []
  | plain_ty t l s : plain t → plain_args l s → plain_args (SortTy :: l) (ArgTy t :: s)
  | plain_lt lt l s : plain_args l s → plain_args (SortLifetime :: l) (ArgLifetime lt :: s)
  | plain_ct c l s : plain_args l s → plain_args (SortConst (const_ty c) :: l) (ArgConst c :: s).

Scheme plain_ind' := Induction for plain Sort Prop
  with plain_args_ind' := Induction for plain_args Sort Prop.
Combined Scheme plain_mutind from plain_ind', plain_args_ind'.

Fixpoint ty_tokens (t : Ty) : list Token :=
  match t with
  | TyAdt id s => Word (name_in p.(adt_kinds) id) :: angle_tokens (map arg_tokens s)
  | TyAssociatedType id s =>
      puncts "(" ++ Word (trait_name id) :: puncts "::" ++ Word (assoc_ty_name id) :: puncts ")" ++
        angle_tokens (map arg_tokens s)
  | TyScalar s => scalar_tokens s
  | TyTuple n s => Word (pretty n) :: angle_tokens (map arg_tokens s)
  | TyArray t c => puncts "[" ++ ty_tokens t ++ puncts "; " ++ const_tokens c ++ puncts "]"
  | TySlice t => puncts "[" ++ ty_tokens t ++ puncts "]"
  | TyRaw m t =>
      puncts "(*" ++ Word (match m with Mut => "mut" | Not => "const" end) :: puncts " " ++ ty_tokens t ++ puncts ")"
  | TyRef m l t =>
      puncts "(&" ++ lifetime_tokens l ++ puncts " " ++
        match m with Mut => Word "mut" :: puncts " " | Not => [] end ++ ty_tokens t ++ puncts ")"
  | TyOpaqueType id s => puncts "!" ++ Word (name_in p.(opaque_ty_kinds) id) :: angle_tokens (map arg_tokens s)
  | TyFnDef id s => Word (name_in p.(fn_def_kinds) id) :: angle_tokens (map arg_tokens s)
  | TyStr => [Word "Str"]
  | TyNever => [Word "Never"]
  | TyClosure id s =>
      puncts "{" ++ Word "closure" :: puncts ":" ++ raw_tokens "ClosureId" id ++ puncts "}" ++
        angle_tokens (map arg_tokens s)
  | TyGenerator id s | TyGeneratorWitness id s => raw_tokens "GeneratorId" id ++ angle_tokens (map arg_tokens s)
  | TyForeign id => raw_tokens "ForeignDefId" id
  | TyError => puncts "{" ++ Word "error" :: puncts "}"
  | TyPlaceholder i => placeholder_tokens i
  | TyBoundVar bv => bound_tokens bv
  | TyInferenceVar v k => infer_tokens v (match k with General => EmptyString | Integer => "i" | Float => "f" end)
  | TyDyn _ _ | TyAlias _ | TyFunction _ _ _ => []
  end
with arg_tokens (a : GenericArg) : list Token :=
  match a with ArgTy t => ty_tokens t | ArgLifetime l => lifetime_tokens l | ArgConst c => const_tokens c end.
(** *** The text of a term is that of its words *)

Abbreviation debug := (debug_ty program_db (Some p)).
Abbreviation debug_arg := (debug_generic_arg program_db (Some p)).

Lemma text_bound bv : text (bound_tokens bv) = debug_BoundVar bv.
Proof. unfold bound_tokens, debug_BoundVar, debug_DebruijnIndex. by texts. Qed.
Lemma text_infer v suffix : text (infer_tokens v suffix) = "?" +:+ pretty v +:+ suffix.
Proof. unfold infer_tokens. by texts. Qed.
Lemma text_placeholder i : text (placeholder_tokens i) = debug_PlaceholderIndex i.
Proof. unfold placeholder_tokens, debug_PlaceholderIndex. by texts. Qed.
Lemma text_raw name id : text (raw_tokens name id) = name +:+ "(" +:+ debug_RawId id +:+ ")".
Proof. unfold raw_tokens, debug_RawId. by texts. Qed.
Lemma text_lifetime l : text (lifetime_tokens l) = debug_LifetimeData l.
Proof.
  unfold lifetime_tokens, debug_LifetimeData, debug_InferenceVar, debug_UniverseIndex.
  destruct l; texts; rewrite ?text_bound, ?text_infer, ?text_placeholder; try case_decide; by texts.
Qed.
Lemma text_const c : text (const_tokens c) = debug_ConstData c.
Proof.
  unfold const_tokens, debug_ConstData, debug_InferenceVar.
  destruct (const_value c); rewrite ?text_bound, ?text_infer, ?text_placeholder; by texts.
Qed.
Lemma text_scalar s : text (scalar_tokens s) = debug_Scalar s.
Proof. unfold scalar_tokens, debug_Scalar. destruct s; by texts. Qed.

Lemma mapM_texts {A} (f : A → Text) (g : A → string) l : Forall (λ a, f a = Val (g a)) l →
  mapM id (map f l) = Val (map g l).
Proof. induction 1 as [|a l Ha _ IH]; [done|]. simpl. rewrite Ha. simpl. by rewrite IH. Qed.

Lemma text_separated sep close x l :
  String.concat sep (map text (x :: l)) +:+ close = text (x ++ rest_tokens sep close l).
Proof.
  revert x. induction l as [|y l IH]; intros x; [simpl; by texts|].
  change (String.concat sep (map text (x :: y :: l))) with (text x +:+ sep +:+ String.concat sep (map text (y :: l))).
  rewrite !string_app_assoc, IH. simpl. by texts.
Qed.

Lemma write_Vals l : write (map Val l) = Val (foldr String.app EmptyString l).
Proof.
  unfold write. rewrite <- (map_id l) at 2. rewrite (mapM_texts _ id) by (by apply Forall_true). simpl. f_equal.
  induction l as [|x [|y l] IH]; [done|simpl; by rewrite string_app_nil|].
  change (x +:+ EmptyString +:+ String.concat EmptyString (map id (y :: l)) = x +:+ foldr String.app EmptyString (map id (y :: l))).
  by rewrite IH.
Qed.

Lemma text_angle s : Forall (λ a, debug_arg a = Val (text (arg_tokens a))) s →
  debug_Angle (map debug_arg s) = Val (text (angle_tokens (map arg_tokens s))).
Proof.
  intros Hs. destruct s as [|a s]; [done|].
  unfold debug_Angle, separated. cbn [map].
  change (debug_arg a :: map debug_arg s) with (map debug_arg (a :: s)).
  rewrite (mapM_texts _ (λ a, text (arg_tokens a))) by done. cbn [mbind outcome_bind].
  etrans; [exact (write_Vals ["<"; String.concat ", " (map (λ a, text (arg_tokens a)) (a :: s)); ">"])|].
  cbn [foldr]. rewrite string_app_nil, <- (map_map arg_tokens text). f_equal.
  change ("<" +:+ String.concat ", " (map text (arg_tokens a :: map arg_tokens s)) +:+ ">" =
    "<" +:+ text (arg_tokens a ++ rest_tokens ", " ">" (map arg_tokens s))). by rewrite text_separated.
Qed.

(** The text of a head with arguments. *)
Lemma text_head hs l s : foldr String.app EmptyString hs = text l →
  Forall (λ a, debug_arg a = Val (text (arg_tokens a))) s →
  write (map Val hs ++ [debug_Angle (map debug_arg s)]) = Val (text (l ++ angle_tokens (map arg_tokens s))).
Proof.
  intros Hh Hs. rewrite text_angle by done.
  rewrite text_app, <- Hh. generalize (text (angle_tokens (map arg_tokens s))). clear. intros x.
  change (write (map Val hs ++ map Val [x]) = Val (foldr String.app EmptyString hs +:+ x)).
  rewrite <- map_app, write_Vals, foldr_app. f_equal. cbn [foldr]. rewrite string_app_nil.
  induction hs as [|h hs IH]; [done|]. cbn [foldr]. by rewrite IH, string_app_assoc.
Qed.

Lemma name_in_Some (kinds : gmap N TypeKind) id k : kinds !! id = Some k → name_in kinds id = k.(tk_name).
Proof. unfold name_in. by intros ->. Qed.

Lemma debug_kind_in kinds invalid plain id : is_Some (kinds p !! id) →
  debug_kind_id (Some p) kinds invalid plain id = name_in (kinds p) id.
Proof. intros [k Hk]. unfold debug_kind_id, Display.debug_kind, name_in. by rewrite Hk. Qed.

Lemma debug_assoc_in id : names_ok → is_Some (p.(prog_associated_ty_data) !! id) →
  debug_assoc_type_id (Some p) id = "(" +:+ trait_name id +:+ "::" +:+ assoc_ty_name id +:+ ")".
Proof.
  intros Hn [d Hd]. unfold debug_assoc_type_id, trait_name, assoc_ty_name. rewrite Hd. cbn [from_option].
  destruct (assoc_name_ok Hn id d Hd) as [_ Ht]. unfold debug_trait_id. by rewrite debug_kind_in.
Qed.

Lemma text_ty : names_ok → (∀ t, plain t → debug t = Val (text (ty_tokens t))) ∧
  (∀ l s, plain_args l s → Forall (λ a, debug_arg a = Val (text (arg_tokens a))) s).
Proof.
  intros Hn. apply plain_mutind; try done.
  - intros id s Hid _ Hs. cbn [debug_ty]. unfold debug_adt_id. rewrite debug_kind_in by done.
    apply (text_head [_] [Word _]); [|done]. by cbn; rewrite !string_app_nil.
  - intros id s Hid _ Hs. cbn [debug_ty]. rewrite debug_assoc_in by done.
    apply (text_head [_] (puncts "(" ++ Word _ :: puncts "::" ++ Word _ :: puncts ")")); [|done].
    cbn [foldr]. by texts.
  - intros s. simpl. by rewrite text_scalar.
  - intros n s _ Hs. apply (text_head [_] [Word _]); [|done]. by cbn; rewrite !string_app_nil.
  - intros t c _ Ht _. cbn [debug_ty ty_tokens]. rewrite Ht, <- text_const. writes.
  - intros t _ Ht. cbn [debug_ty ty_tokens]. rewrite Ht. writes.
  - intros m t _ Ht. cbn [debug_ty ty_tokens]. rewrite Ht. destruct m; writes.
  - intros m l t _ Ht. cbn [debug_ty ty_tokens]. rewrite Ht, <- text_lifetime. destruct m; writes.
  - intros id s Hid _ Hs. cbn [debug_ty]. unfold debug_opaque_ty_id. rewrite debug_kind_in by done.
    apply (text_head ["!"; _] (puncts "!" ++ [Word _])); [|done]. cbn [foldr]. by texts.
  - intros id s Hid _ Hs. cbn [debug_ty]. unfold debug_fn_def_id. rewrite debug_kind_in by done.
    apply (text_head [_] [Word _]); [|done]. by cbn; rewrite !string_app_nil.
  - intros id s _ Hs. cbn [debug_ty].
    apply (text_head ["{closure:"; debug_ClosureId id; "}"]
      (puncts "{" ++ Word "closure" :: puncts ":" ++ raw_tokens "ClosureId" id ++ puncts "}")); [|done].
    cbn [foldr]. texts. rewrite text_raw. unfold debug_ClosureId. by texts.
  - intros id s _ Hs. cbn [debug_ty]. apply (text_head [debug_GeneratorId id] (raw_tokens "GeneratorId" id)); [|done].
    rewrite text_raw. cbn [foldr]. by texts.
  - intros i. cbn [debug_ty ty_tokens]. by rewrite text_placeholder.
  - intros bv. cbn [debug_ty ty_tokens]. by rewrite text_bound.
  - intros v k. cbn [debug_ty ty_tokens]. rewrite text_infer.
    unfold debug_inference_ty, debug_InferenceVar. by rewrite string_app_assoc.
  - intros t l s _ Ht _ Hs. by constructor.
  - intros lt l s _ Hs. constructor; [|done]. change (Val (debug_LifetimeData lt) = (Val (text (lifetime_tokens lt)) : Text)).
    by rewrite text_lifetime.
  - intros c l s _ Hs. constructor; [|done]. change (Val (debug_ConstData c) = (Val (text (const_tokens c)) : Text)).
    by rewrite text_const.
Qed.

(** *** The words of a term can be read back *)

Lemma lexed_weaken l : lexed true l → lexed false l.
Proof. destruct l as [|[] l]; [done|by intros [? _]|done]. Qed.

Lemma lexed_word w l : name_ok w → lexed true l → lexed false (Word w :: l).
Proof. by intros (? & ? & _) ?. Qed.
Lemma lexed_digits w l : w ≠ EmptyString → all_chars digit_char w = true → lexed true l → lexed false (Word w :: l).
Proof. intros ? Hw ?. split_and!; [done..| |done]. by eapply all_chars_mono; [apply digit_word|]. Qed.
Lemma lexed_N (n : N) l : lexed true l → lexed false (Word (pretty n) :: l).
Proof. apply lexed_digits; [apply nonempty_N|apply digits_N]. Qed.
Lemma lexed_nat (n : nat) l : lexed true l → lexed false (Word (pretty n) :: l).
Proof. apply lexed_N. Qed.

Lemma lexed_bound bv r : lexed true r → lexed false (bound_tokens bv ++ r).
Proof. intros Hr. split; [done|]. apply lexed_nat. split; [done|]. by apply lexed_nat. Qed.

(** A number, and what may follow it in its word. *)
Lemma lexed_number (n : nat) suffix r : all_chars word_char suffix = true → lexed true r →
  lexed false (Word (pretty n +:+ suffix) :: r).
Proof.
  intros Hs Hr. split_and!; [done| | |done].
  - intros Heq. destruct (pretty n) eqn:Hn; [by apply (nonempty_nat n)|done].
  - rewrite all_chars_app, Hs, (all_chars_mono digit_char word_char); [done|apply digit_word|apply digits_nat].
Qed.

Lemma lexed_infer v suffix r : all_chars word_char suffix = true → lexed true r →
  lexed false (infer_tokens v suffix ++ r).
Proof. intros Hs Hr. split; [done|]. by apply lexed_number. Qed.

Lemma lexed_placeholder i r : lexed true r → lexed false (placeholder_tokens i ++ r).
Proof.
  intros Hr. split; [done|]. apply lexed_number; [|done].
  change (all_chars word_char (pretty (idx i)) = true). eapply all_chars_mono; [apply digit_word|apply digits_nat].
Qed.

Lemma lexed_raw name id r : name_ok name → lexed false r → lexed false (raw_tokens name id ++ r).
Proof. intros Hn Hr. apply lexed_word; [done|]. split; [done|]. split; [done|]. by apply lexed_N. Qed.

Lemma lexed_lifetime l r : lexed true r → lexed false (lifetime_tokens l ++ r).
Proof.
  intros Hr. pose proof (lexed_weaken _ Hr). split; [done|].
  destruct l; [by apply lexed_bound|by apply lexed_infer|by apply lexed_placeholder|done| |by split_and!].
  split; [done|]. split_and!; try done. case_decide; [done|]. split; [done|]. split_and!; try done.
  change ("U" +:+ pretty (counter u)) with (String "U" (pretty (counter u))).
  simpl. eapply all_chars_mono; [apply digit_word|apply digits_nat].
Qed.

Lemma lexed_const c r : lexed true r → lexed false (const_tokens c ++ r).
Proof.
  intros Hr. unfold const_tokens.
  destruct (const_value c); [by apply lexed_bound|by apply lexed_infer|by apply lexed_placeholder|by apply lexed_N].
Qed.

Definition lexed_term (l : list Token) : Prop := ∀ r, lexed true r → lexed false (l ++ r).

Definition marks (s : string) : Prop := s ≠ EmptyString ∧ all_chars (λ c, negb (word_char c)) s = true.

Lemma lexed_puncts b s r : marks s → lexed false r → lexed b (puncts s ++ r).
Proof.
  intros [Hne Hs]. revert b Hne Hs. induction s as [|c s IH]; intros b Hne Hs Hr; [done|]. simpl in Hs.
  apply andb_true_iff in Hs as [Hc Hs]. split; [by apply negb_true_iff|].
  destruct s as [|c' s]; [done|]. by apply IH.
Qed.

Lemma lexed_rest sep close l r : marks sep → marks close → Forall lexed_term l → lexed false r →
  lexed true (rest_tokens sep close l ++ r).
Proof.
  intros Hs Hc Hl Hr. induction Hl as [|a l Ha _ IH]; [by apply lexed_puncts|].
  simpl. rewrite <- !app_assoc. apply lexed_puncts; [done|]. by apply Ha.
Qed.

Lemma lexed_list l : Forall lexed_term l → ∀ r, lexed false r → lexed false (list_tokens l ++ r).
Proof.
  intros Hl r Hr. unfold list_tokens. rewrite <- app_assoc. apply lexed_puncts; [done|].
  destruct Hl as [|a l Ha Hl]; [by apply lexed_puncts|]. rewrite <- app_assoc. apply Ha. by apply lexed_rest.
Qed.

Lemma lexed_angle l r : Forall lexed_term l → lexed true r → lexed true (angle_tokens l ++ r).
Proof.
  intros Hl Hr. destruct Hl as [|a l Ha Hl]; [done|]. simpl. split; [done|]. rewrite <- app_assoc. apply Ha.
  apply lexed_rest; try done. by apply lexed_weaken.
Qed.

Lemma name_in_ok (kinds : gmap N TypeKind) id : (∀ k, kinds !! id = Some k → name_ok k.(tk_name)) →
  is_Some (kinds !! id) → name_ok (name_in kinds id).
Proof. intros Hk [k Hid]. rewrite (name_in_Some _ _ _ Hid). by apply Hk. Qed.

Lemma assoc_names id : names_ok → is_Some (p.(prog_associated_ty_data) !! id) →
  name_ok (trait_name id) ∧ name_ok (assoc_ty_name id).
Proof.
  intros Hn [d Hd]. unfold trait_name, assoc_ty_name. rewrite Hd. cbn [from_option].
  destruct (assoc_name_ok Hn id d Hd) as [Ha Ht]. split; [|done]. apply name_in_ok; [|done]. apply (trait_name_ok Hn).
Qed.

Lemma lexed_ty : names_ok → (∀ t, plain t → lexed_term (ty_tokens t)) ∧
  (∀ l s, plain_args l s → Forall lexed_term (map arg_tokens s)).
Proof.
  intros Hn. apply plain_mutind.
  - intros id s Hid _ Hs r Hr. apply lexed_word; [|by apply lexed_angle]. apply name_in_ok; [|done].
    intros k Hk. by apply (adt_name Hn id).
  - intros id s Hid _ Hs r Hr. destruct (assoc_names id Hn Hid) as [? ?]. split; [done|].
    apply lexed_word; [done|]. do 2 (split; [done|]). apply lexed_word; [done|]. split; [done|].
    by apply lexed_weaken, lexed_angle.
  - intros s r Hr. pose proof (lexed_weaken _ Hr). destruct s as [| |[]|[]|[]]; by split_and!.
  - intros n s _ Hs r Hr. apply lexed_nat. by apply lexed_angle.
  - intros t c _ Ht _ r Hr. simpl. split; [done|]. rewrite <- app_assoc. apply Ht. split; [done|]. split; [done|].
    simpl. rewrite <- app_assoc. apply lexed_const. split; [done|]. by apply lexed_weaken.
  - intros t _ Ht r Hr. simpl. split; [done|]. rewrite <- app_assoc. apply Ht. split; [done|]. by apply lexed_weaken.
  - intros m t _ Ht r Hr. do 2 (split; [done|]). apply lexed_word; [by destruct m|]. split; [done|].
    change (lexed false ((ty_tokens t ++ puncts ")") ++ r)). rewrite <- app_assoc. apply Ht. split; [done|]. by apply lexed_weaken.
  - intros m l t _ Ht r Hr. do 2 (split; [done|]).
    assert (lexed false ((ty_tokens t ++ puncts ")") ++ r)) as Hlast
      by (rewrite <- app_assoc; apply Ht; split; [done|by apply lexed_weaken]).
    set (m' := match m with Mut => Word "mut" :: puncts " " | Not => [] end).
    change (lexed false ((lifetime_tokens l ++ puncts " " ++ m' ++ ty_tokens t ++ puncts ")") ++ r)).
    rewrite <- app_assoc. apply lexed_lifetime. split; [done|].
    change (lexed false ((m' ++ ty_tokens t ++ puncts ")") ++ r)). rewrite <- app_assoc.
    destruct m; [|exact Hlast]. apply lexed_word; [done|]. split; [done|]. exact Hlast.
  - intros id s Hid _ Hs r Hr. split; [done|]. apply lexed_word; [|by apply lexed_angle]. apply name_in_ok; [|done].
    intros k Hk. by apply (opaque_name Hn id).
  - intros id s Hid _ Hs r Hr. apply lexed_word; [|by apply lexed_angle]. apply name_in_ok; [|done].
    intros k Hk. by apply (fn_name Hn id).
  - intros r Hr. by apply lexed_word.
  - intros r Hr. by apply lexed_word.
  - intros id s _ Hs r Hr. split; [done|]. apply lexed_word; [done|]. split; [done|].
    change (lexed false ((raw_tokens "ClosureId" id ++ puncts "}" ++ angle_tokens (map arg_tokens s)) ++ r)).
    rewrite <- app_assoc. apply lexed_raw; [done|]. split; [done|]. by apply lexed_weaken, lexed_angle.
  - intros id s _ Hs r Hr.
    change (lexed false ((raw_tokens "GeneratorId" id ++ angle_tokens (map arg_tokens s)) ++ r)).
    rewrite <- app_assoc. apply lexed_raw; [done|]. by apply lexed_weaken, lexed_angle.
  - intros id r Hr. apply (lexed_raw "ForeignDefId"); [done|]. by apply lexed_weaken.
  - intros r Hr. split; [done|]. apply lexed_word; [done|]. split; [done|]. by apply lexed_weaken.
  - intros i r. apply lexed_placeholder.
  - intros bv r. apply lexed_bound.
  - intros v k r. apply lexed_infer. by destruct k.
  - constructor.
  - intros t l s _ Ht _ Hs. by constructor.
  - intros lt l s _ Hs. constructor; [|done]. intros r. apply lexed_lifetime.
  - intros c l s _ Hs. constructor; [|done]. intros r. apply lexed_const.
Qed.

(** *** Different terms have different words *)

(** The words of [a] are those of no other [x], whatever comes after them. *)
Definition reads {A} (P : A → Prop) (tokens : A → list Token) (a : A) : Prop :=
  ∀ x r r', P x → tokens a ++ r = tokens x ++ r' → a = x ∧ r = r'.

Lemma number_inj (n m : nat) s s' : starts digit_char s = false → starts digit_char s' = false →
  pretty n +:+ s = pretty m +:+ s' → n = m ∧ s = s'.
Proof.
  intros Hs Hs' Heq. apply (run_split digit_char) in Heq as [Hp ->]; auto using digits_nat. split; [|done]. by simplify_eq.
Qed.

Lemma reads_bound bv : reads (λ _, True) bound_tokens bv.
Proof. intros bv' r r' _ Heq. destruct bv, bv'. cbn in Heq. by simplify_eq. Qed.

Definition kind_suffix (k : TyVariableKind) : string :=
  match k with General => EmptyString | Integer => "i" | Float => "f" end.

Lemma infer_inj v k v' k' r r' : infer_tokens v (kind_suffix k) ++ r = infer_tokens v' (kind_suffix k') ++ r' →
  v = v' ∧ k = k' ∧ r = r'.
Proof.
  intros Heq. cbn in Heq. injection Heq as Heq ->. apply number_inj in Heq as [-> Hk]; [|by destruct k|by destruct k'].
  by destruct k, k'.
Qed.

Lemma placeholder_inj i i' r r' : placeholder_tokens i ++ r = placeholder_tokens i' ++ r' → i = i' ∧ r = r'.
Proof.
  intros Heq. cbn in Heq. injection Heq as Heq ->. apply number_inj in Heq as [Hu Hi]; [|done|done].
  destruct i as [[u] i], i' as [[u'] i']. cbn in Hu, Hi. by simplify_eq.
Qed.

Lemma reads_lifetime l : reads (λ _, True) lifetime_tokens l.
Proof.
  intros l' r r' _ Heq. destruct l, l'; try (cbn in Heq; repeat case_decide; by simplify_eq).
  - apply (f_equal tail) in Heq. change (bound_tokens bv ++ r = bound_tokens bv0 ++ r') in Heq.
    by apply reads_bound in Heq as [-> ->].
  - apply (f_equal tail) in Heq.
    change (infer_tokens v (kind_suffix General) ++ r = infer_tokens v0 (kind_suffix General) ++ r') in Heq.
    by apply infer_inj in Heq as (-> & _ & ->).
  - apply (f_equal tail) in Heq. change (placeholder_tokens p0 ++ r = placeholder_tokens p1 ++ r') in Heq.
    by apply placeholder_inj in Heq as [-> ->].
  - cbn in Heq. destruct u as [u], u0 as [u']. repeat case_decide; cbn in Heq; simplify_eq; [|done].
    split; congruence.
Qed.

Lemma starts_pretty (n : nat) : starts digit_char (pretty n) = true.
Proof.
  pose proof (digits_nat n) as Hd. pose proof (nonempty_nat n) as Hn. destruct (pretty n) as [|c s]; [done|].
  simpl in Hd. by apply andb_true_iff in Hd as [? _].
Qed.

Lemma reads_const ty c : const_ty c = ty → reads (λ c, const_ty c = ty) const_tokens c.
Proof.
  intros Hty c' r r' Hty' Heq. destruct c as [ty1 v], c' as [ty2 v']. simpl in Hty, Hty'. subst ty1 ty2.
  destruct v as [bv|v|i|n], v' as [bv'|v'|i'|n']; try (cbn in Heq; by simplify_eq).
  - by apply reads_bound in Heq as [-> ->].
  - by apply (infer_inj _ General _ General) in Heq as (-> & _ & ->).
  - by apply placeholder_inj in Heq as [-> ->].
Qed.

(** What the names of items are not. *)
Lemma pretty_not_name w (n : nat) : name_ok w → w ≠ pretty n.
Proof. intros (_ & _ & Hs) ->. by rewrite starts_pretty in Hs. Qed.

Lemma adt_word id : names_ok → is_Some (p.(adt_kinds) !! id) →
  name_ok (name_in p.(adt_kinds) id) ∧ name_in p.(adt_kinds) id ∉ reserved.
Proof. intros Hn [k Hk]. rewrite (name_in_Some _ _ _ Hk). by apply (adt_name Hn id). Qed.
Lemma fn_word id : names_ok → is_Some (p.(fn_def_kinds) !! id) →
  name_ok (name_in p.(fn_def_kinds) id) ∧ name_in p.(fn_def_kinds) id ∉ reserved.
Proof. intros Hn [k Hk]. rewrite (name_in_Some _ _ _ Hk). by apply (fn_name Hn id). Qed.
Lemma opaque_word id : names_ok → is_Some (p.(opaque_ty_kinds) !! id) → name_ok (name_in p.(opaque_ty_kinds) id).
Proof. intros Hn [k Hk]. rewrite (name_in_Some _ _ _ Hk). by apply (opaque_name Hn id). Qed.

Lemma adt_word_inj i j : names_ok → is_Some (p.(adt_kinds) !! i) → is_Some (p.(adt_kinds) !! j) →
  name_in p.(adt_kinds) i = name_in p.(adt_kinds) j → i = j.
Proof. intros Hn [k Hk] [k' Hk']. rewrite (name_in_Some _ _ _ Hk), (name_in_Some _ _ _ Hk'). by apply (adt_inj Hn). Qed.
Lemma fn_word_inj i j : names_ok → is_Some (p.(fn_def_kinds) !! i) → is_Some (p.(fn_def_kinds) !! j) →
  name_in p.(fn_def_kinds) i = name_in p.(fn_def_kinds) j → i = j.
Proof. intros Hn [k Hk] [k' Hk']. rewrite (name_in_Some _ _ _ Hk), (name_in_Some _ _ _ Hk'). by apply (fn_inj Hn). Qed.
Lemma opaque_word_inj i j : names_ok → is_Some (p.(opaque_ty_kinds) !! i) → is_Some (p.(opaque_ty_kinds) !! j) →
  name_in p.(opaque_ty_kinds) i = name_in p.(opaque_ty_kinds) j → i = j.
Proof. intros Hn [k Hk] [k' Hk']. rewrite (name_in_Some _ _ _ Hk), (name_in_Some _ _ _ Hk'). by apply (opaque_inj Hn). Qed.
Lemma adt_fn_word i j : names_ok → is_Some (p.(adt_kinds) !! i) → is_Some (p.(fn_def_kinds) !! j) →
  name_in p.(adt_kinds) i ≠ name_in p.(fn_def_kinds) j.
Proof. intros Hn [k Hk] [k' Hk']. rewrite (name_in_Some _ _ _ Hk), (name_in_Some _ _ _ Hk'). by apply (adt_fn Hn i j). Qed.

Lemma scalar_words s s' r r' : scalar_tokens s ++ r = scalar_tokens s' ++ r' → s = s' ∧ r = r'.
Proof.
  intros Heq. destruct s as [| |[]|[]|[]], s' as [| |[]|[]|[]]; cbn in Heq; by simplify_eq.
Qed.

(** The first token of a type, with the second where it is a parenthesis or brace. *)
Inductive Head :=
  | HeadBound | HeadInfer | HeadMark (w : string) | HeadBrace (w : string) | HeadParen (t : Token) | HeadBracket
  | HeadWord (w : string) | HeadNone.
Definition head_of (l : list Token) : Head :=
  match l with
  | Word w :: _ => HeadWord w
  | Punct "^" :: _ => HeadBound
  | Punct "?" :: _ => HeadInfer
  | Punct "!" :: Word w :: _ => HeadMark w
  | Punct "{" :: Word w :: _ => HeadBrace w
  | Punct "(" :: t :: _ => HeadParen t
  | Punct "[" :: _ => HeadBracket
  | _ => HeadNone
  end%char.

Definition ty_kind (t : Ty) : nat :=
  match t with
  | TyAdt _ _ => 0 | TyAssociatedType _ _ => 1 | TyScalar _ => 2 | TyTuple _ _ => 3
  | TyArray _ _ | TySlice _ => 4 | TyRaw _ _ => 5 | TyRef _ _ _ => 6 | TyOpaqueType _ _ => 7
  | TyFnDef _ _ => 8 | TyStr => 9 | TyNever => 10 | TyClosure _ _ => 11 | TyGenerator _ _ => 12
  | TyForeign _ => 13 | TyError => 14 | TyPlaceholder _ => 15 | TyBoundVar _ => 16 | TyInferenceVar _ _ => 17
  | _ => 18
  end.
Definition ty_head (t : Ty) : Head :=
  match t with
  | TyAdt id _ => HeadWord (name_in p.(adt_kinds) id)
  | TyFnDef id _ => HeadWord (name_in p.(fn_def_kinds) id)
  | TyOpaqueType id _ => HeadMark (name_in p.(opaque_ty_kinds) id)
  | TyPlaceholder i => HeadMark (pretty i.(ui).(counter) +:+ "_" +:+ pretty i.(idx))
  | TyTuple n _ => HeadWord (pretty n)
  | TyAssociatedType id _ => HeadParen (Word (trait_name id))
  | TyRaw _ _ => HeadParen (Punct "*")
  | TyRef _ _ _ => HeadParen (Punct "&")
  | TyArray _ _ | TySlice _ => HeadBracket
  | TyClosure _ _ => HeadBrace "closure"
  | TyError => HeadBrace "error"
  | TyBoundVar _ => HeadBound
  | TyInferenceVar _ _ => HeadInfer
  | TyScalar ScBool => HeadWord "Bool"
  | TyScalar ScChar => HeadWord "Char"
  | TyScalar (ScInt _) => HeadWord "Int"
  | TyScalar (ScUint _) => HeadWord "Uint"
  | TyScalar (ScFloat _) => HeadWord "Float"
  | TyStr => HeadWord "Str"
  | TyNever => HeadWord "Never"
  | TyGenerator _ _ => HeadWord "GeneratorId"
  | TyForeign _ => HeadWord "ForeignDefId"
  | _ => HeadNone
  end%char.

Lemma head_ty t r : plain t → head_of (ty_tokens t ++ r) = ty_head t.
Proof. by destruct 1 as [| |[]| | | | | | | | | | | | | | | |]. Qed.

Lemma starts_app f s1 s2 : starts f s1 = true → starts f (s1 +:+ s2) = true.
Proof. by destruct s1. Qed.

Lemma mark_not_name w i : name_ok w → w ≠ pretty i.(ui).(counter) +:+ "_" +:+ pretty i.(idx).
Proof. intros (_ & _ & Hs) ->. by rewrite starts_app in Hs by apply starts_pretty. Qed.

(** The class of the word a type starts with: a number, a name or one of the reserved words. *)
Lemma word_head t w : names_ok → plain t → ty_head t = HeadWord w →
  match t with
  | TyAdt id _ => is_Some (p.(adt_kinds) !! id) ∧ w = name_in p.(adt_kinds) id
  | TyFnDef id _ => is_Some (p.(fn_def_kinds) !! id) ∧ w = name_in p.(fn_def_kinds) id
  | TyTuple n _ => w = pretty n
  | _ => w ∈ reserved
  end.
Proof.
  intros Hn Ht Heq. destruct Ht as [| |[]| | | | | | | | | | | | | | | |]; simpl in Heq; simplify_eq; try done.
  all: rewrite <- elem_of_list_In || idtac.
  all: by repeat constructor.
Qed.

Lemma number_not_reserved (n : nat) : pretty n ∉ reserved.
Proof.
  pose proof (starts_pretty n) as Hs. intros Hin. unfold reserved in Hin. set_unfold in Hin.
  by repeat (destruct Hin as [Hin|Hin]; [by rewrite Hin in Hs|]).
Qed.

(** Names of types, numbers and reserved words. *)
Lemma word_classes t x w : names_ok → plain t → plain x → ty_head t = HeadWord w → ty_head x = HeadWord w →
  ty_kind t = ty_kind x.
Proof.
  intros Hn Ht Hx Hw Heq.
  pose proof (word_head t w Hn Ht Hw) as Ct. pose proof (word_head x w Hn Hx Heq) as Cx.
  destruct Ht as [| |[]| | | | | | | | | | | | | | | |], Hx as [| |[]| | | | | | | | | | | | | | | |];
    simpl in Hw, Heq, Ct, Cx; try (by simplify_eq); exfalso.
  all: repeat match goal with C : _ ∧ ?w = _ |- _ => destruct C as [? C] end.
  all: repeat match goal with
    | C : ?w = name_in p.(adt_kinds) ?id, H : is_Some (p.(adt_kinds) !! ?id) |- _ =>
        pose proof (adt_word id Hn H) as [? ?]; revert C
    | C : ?w = name_in p.(fn_def_kinds) ?id, H : is_Some (p.(fn_def_kinds) !! ?id) |- _ =>
        pose proof (fn_word id Hn H) as [? ?]; revert C
    end; intros; subst.
  all: try done.
  all: try (by eapply number_not_reserved).
  all: try (by eapply pretty_not_name).
  all: try (by eapply adt_fn_word).
Qed.

Lemma heads_apart t x : names_ok → plain t → plain x → ty_head t = ty_head x → ty_kind t = ty_kind x.
Proof.
  intros Hn Ht Hx Heq. destruct (ty_head t) as [| |w|w|k| |w|] eqn:Hw; symmetry in Heq.
  7: by apply (word_classes t x w).
  all: destruct Ht as [| |[]| | | | | | | | | | | | | | | |]; simpl in Hw; try done;
    destruct Hx as [| |[]| | | | | | | | | | | | | | | |]; simpl in Heq; try (by simplify_eq); simplify_eq; exfalso.
  - eapply (mark_not_name (name_in p.(opaque_ty_kinds) id)); [by apply opaque_word|done].
  - eapply (mark_not_name (name_in p.(opaque_ty_kinds) id)); [by apply opaque_word|done].
Qed.

(** Types with the same words have the same shape. *)
Lemma shapes_agree t x r r' : names_ok → plain t → plain x → ty_tokens t ++ r = ty_tokens x ++ r' → ty_kind t = ty_kind x.
Proof.
  intros Hn Ht Hx Heq. apply heads_apart; [done..|]. rewrite <- (head_ty t r), <- (head_ty x r') by done. by rewrite Heq.
Qed.

Definition sort_arg (so : Sort) (a : GenericArg) : Prop :=
  match so, a with
  | SortTy, ArgTy t => plain t
  | SortLifetime, ArgLifetime _ => True
  | SortConst ty, ArgConst c => const_ty c = ty
  | _, _ => False
  end.

Lemma plain_args_cons so l x : plain_args (so :: l) x → ∃ a s, x = a :: s ∧ sort_arg so a ∧ plain_args l s.
Proof. inversion 1; subst; by eexists _, _. Qed.

Definition reads_args (l : list Sort) (s : Substitution) : Prop :=
  reads (plain_args l) (λ s, angle_tokens (map arg_tokens s)) s ∧
  reads (plain_args l) (λ s, rest_tokens ", " ">" (map arg_tokens s)) s.

Lemma reads_cons so a l s : reads (sort_arg so) arg_tokens a → reads_args l s → reads_args (so :: l) (a :: s).
Proof.
  intros Ha [_ Hs]. split; intros x r r' (a' & s' & -> & Ha' & Hs')%plain_args_cons Heq.
  all: cbn [map angle_tokens rest_tokens puncts app] in Heq; simplify_eq; rewrite <- !app_assoc in Heq.
  all: apply Ha in Heq as [-> Heq]; [|done]; by apply Hs in Heq as [-> ->].
Qed.

#[local] Arguments lifetime_tokens : simpl never.
#[local] Arguments const_tokens : simpl never.

Lemma reads_ref m m' l l' t t' r r' : names_ok → reads plain ty_tokens t → plain t → plain t' →
  ty_tokens (TyRef m l t) ++ r = ty_tokens (TyRef m' l' t') ++ r' → TyRef m l t = TyRef m' l' t' ∧ r = r'.
Proof.
  intros Hn Ht Hp Hp' Heq. cbn in Heq. apply (f_equal (drop 2)) in Heq. cbn in Heq. rewrite <- !app_assoc in Heq.
  apply reads_lifetime in Heq as [-> Heq]; [|done].
  assert (∀ t r, plain t → head_of (ty_tokens t ++ r) ≠ HeadWord "mut") as Hmut.
  { intros t1 r1 Ht1. rewrite head_ty by done. intros Hw. pose proof (word_head _ _ Hn Ht1 Hw) as C.
    destruct Ht1 as [| |[]| | | | | | | | | | | | | | | |]; simpl in C, Hw; simplify_eq; try done.
    - destruct C as [Hid Hm]. apply (adt_word id Hn) in Hid as [_ Hid]. rewrite <- Hm in Hid. apply Hid.
      by repeat constructor.
    - by apply (pretty_not_name "mut" n).
    - destruct C as [Hid Hm]. apply (fn_word id Hn) in Hid as [_ Hid]. rewrite <- Hm in Hid. apply Hid.
      by repeat constructor. }
  destruct m, m'; cbn in Heq; injection Heq as Heq; rewrite <- ?app_assoc in Heq.
  - apply Ht in Heq as [-> Heq]; [|done]. by simplify_eq.
  - exfalso. eapply (Hmut t' _ Hp'). by rewrite <- Heq.
  - exfalso. eapply (Hmut t _ Hp). by rewrite Heq.
  - apply Ht in Heq as [-> Heq]; [|done]. by simplify_eq.
Qed.

Lemma reads_ty : names_ok → (∀ t, plain t → reads plain ty_tokens t) ∧ (∀ l s, plain_args l s → reads_args l s).
Proof.
  intros Hn. apply plain_mutind.
  all: try (intros; intros x r r' Hx Heq; match goal with |- ?t = _ ∧ _ =>
      pose proof (shapes_agree t x r r' Hn ltac:(by constructor) Hx Heq) as Hk end;
      destruct Hx; try discriminate Hk; clear Hk; try (cbn in Heq; by simplify_eq)).
  - cbn in Heq. injection Heq as Hid%adt_word_inj Heq; [|done..]. subst. by apply H in Heq as [-> ->].
  - cbn in Heq. injection Heq as Htr Has Heq. assert (id = id0) as Hid by (by apply (assoc_inj Hn)). subst. by apply H in Heq as [-> ->].
  - by apply scalar_words in Heq as [-> ->].
  - cbn in Heq. injection Heq as ->%(inj _) Heq. by apply H in Heq as [-> ->].
  - cbn in Heq. injection Heq as Heq. rewrite <- !app_assoc in Heq. apply H in Heq as [-> Heq]; [|done].
    apply (f_equal (drop 2)) in Heq. cbn in Heq. rewrite <- !app_assoc in Heq. apply (reads_const usize) in Heq as [-> Heq]; [|done..].
    by simplify_eq.
  - exfalso. cbn in Heq. injection Heq as Heq. rewrite <- !app_assoc in Heq. by apply H in Heq as [-> Heq].
  - exfalso. cbn in Heq. injection Heq as Heq. rewrite <- !app_assoc in Heq. by apply H in Heq as [-> Heq].
  - cbn in Heq. injection Heq as Heq. rewrite <- !app_assoc in Heq. apply H in Heq as [-> Heq]; [|done]. by simplify_eq.
  - cbn in Heq. injection Heq as Hm Heq. rewrite <- !app_assoc in Heq. apply H in Heq as [-> Heq]; [|done].
    assert (m = m0) as -> by (by destruct m, m0). by simplify_eq.
  - by eapply reads_ref.
  - cbn in Heq. injection Heq as Hid%opaque_word_inj Heq; [|done..]. subst. by apply H in Heq as [-> ->].
  - cbn in Heq. injection Heq as Hid%fn_word_inj Heq; [|done..]. subst. by apply H in Heq as [-> ->].
  - cbn in Heq. injection Heq as ->%(inj _) Heq. by apply H in Heq as [-> ->].
  - cbn in Heq. injection Heq as ->%(inj _) Heq. by apply H in Heq as [-> ->].
  - by apply placeholder_inj in Heq as [-> ->].
  - by apply reads_bound in Heq as [-> ->].
  - by apply infer_inj in Heq as (-> & -> & ->).
  - split; intros x r r' Hx Heq; inversion Hx; subst; by simplify_eq/=.
  - intros t l s _ Ht _ Hs. apply reads_cons; [|done]. intros [t'| |] r r' Hx Heq; [|done..]. by apply Ht in Heq as [-> ->].
  - intros lt l s _ Hs. apply reads_cons; [|done]. intros [|lt'|] r r' Hx Heq; [done| |done].
    by apply reads_lifetime in Heq as [-> ->].
  - intros c l s _ Hs. apply reads_cons; [|done]. intros [| |c'] r r' Hx Heq; [done..|].
    by apply (reads_const (const_ty c)) in Heq as [-> ->].
Qed.

(** ** The words of answers *)

Lemma text_slice {A} (f : A → Text) (g : A → list Token) l : Forall (λ a, f a = Val (text (g a))) l →
  debug_slice (map f l) = Val (text (list_tokens (map g l))).
Proof.
  intros Hl. unfold debug_slice, separated. rewrite (mapM_texts _ (λ a, text (g a))) by done.
  cbn [mbind outcome_bind]. etrans; [exact (write_Vals ["["; String.concat ", " (map (λ a, text (g a)) l); "]"])|].
  cbn [foldr]. rewrite string_app_nil, <- (map_map g text). f_equal.
  destruct l as [|a l]; [done|].
  change ("[" +:+ String.concat ", " (map text (g a :: map g l)) +:+ "]" = "[" +:+ text (g a ++ rest_tokens ", " "]" (map g l))).
  by rewrite text_separated.
Qed.

(** The assignments of a substitution, numbered from [n]. *)
Fixpoint assignment_tokens (n : nat) (s : Substitution) : list (list Token) :=
  match s with
  | [] => []
  | a :: s => (puncts "?" ++ Word (pretty n) :: puncts " := " ++ arg_tokens a) :: assignment_tokens (S n) s
  end.
Definition substitution_tokens (s : Substitution) : list Token := list_tokens (assignment_tokens 0 s).

Definition outlives_tokens (c : Constraint) : list Token :=
  match c with
  | CtLifetimeOutlives a b => lifetime_tokens a ++ puncts ": " ++ lifetime_tokens b
  | CtTypeOutlives ty a => ty_tokens ty ++ puncts ": " ++ lifetime_tokens a
  end.
Definition constraint_tokens (c : InEnvironment Constraint) : list Token :=
  Word "InEnvironment" :: puncts " { " ++ Word "environment" :: puncts ": " ++ Word "Env" :: puncts "([]), " ++
    Word "goal" :: puncts ": " ++
    outlives_tokens c.(env_goal) ++ puncts " }".

Definition constrained_tokens (c : ConstrainedSubst) : list Token :=
  (if decide (c.(csubst) = []) then [] else Word "substitution" :: puncts " " ++ substitution_tokens c.(csubst)) ++
  (if decide (c.(csubst) = [] ∨ c.(cconstraints) = []) then [] else puncts ", ") ++
  (if decide (c.(cconstraints) = []) then []
   else Word "lifetime" :: puncts " " ++ Word "constraints" :: puncts " " ++ list_tokens (map constraint_tokens c.(cconstraints))).

Definition universe_tokens (u : UniverseIndex) : list Token := puncts "?" ++ [Word ("U" +:+ pretty u.(counter))].
Definition canonical_tokens {T} (tokens : T → list Token) (c : Canonical T) : list Token :=
  match map kvalue c.(cbinders) with
  | [] => tokens c.(cvalue)
  | u :: l =>
      Word "for" :: puncts "<" ++ universe_tokens u ++ rest_tokens "," ">" (map universe_tokens l) ++
        puncts " { " ++ tokens c.(cvalue) ++ puncts " }"
  end.

Definition solution_tokens (sol : Solution) : list Token :=
  match sol with
  | Unique (mkCanonical (mkConstrainedSubst [] []) []) => [Word "Unique"]
  | Unique constrained => Word "Unique" :: puncts "; " ++ canonical_tokens constrained_tokens constrained
  | Ambig g =>
      Word "Ambiguous" :: puncts "; " ++
      match g with
      | Definite subst => Word "definite" :: puncts " " ++ Word "substitution" :: puncts " " ++
          canonical_tokens substitution_tokens subst
      | Suggested subst => Word "suggested" :: puncts " " ++ Word "substitution" :: puncts " " ++
          canonical_tokens substitution_tokens subst
      | Unknown => Word "no" :: puncts " " ++ Word "inference" :: puncts " " ++ [Word "guidance"]
      end
  end.

(** Answers whose arguments have the sorts [l], and whose constraints have no clauses. *)
Definition plain_constraint (c : InEnvironment Constraint) : Prop :=
  c.(environment) = [] ∧ match c.(env_goal) with CtTypeOutlives ty _ => plain ty | _ => True end.
Definition plain_constrained (l : list Sort) (c : ConstrainedSubst) : Prop :=
  plain_args l c.(csubst) ∧ Forall plain_constraint c.(cconstraints).
Definition plain_solution (l : list Sort) (sol : Solution) : Prop :=
  match sol with
  | Unique c => plain_constrained l c.(cvalue)
  | Ambig (Definite s) | Ambig (Suggested s) => plain_args l s.(cvalue)
  | Ambig Unknown => True
  end.

(** *** The text of an answer is that of its words *)

Lemma text_assignments s n (F : nat → Text → Text) : (∀ i v, F i (Val v) = Val ("?" +:+ pretty (n + i) +:+ " := " +:+ v)) →
  Forall (λ a, debug_arg a = Val (text (arg_tokens a))) s →
  imap F (map debug_arg s) = map Val (map text (assignment_tokens n s)).
Proof.
  intros HF Hs. revert n F HF. induction Hs as [|a s Ha _ IH]; intros n F HF; [done|].
  cbn [map assignment_tokens imap]. f_equal.
  - rewrite Ha, HF, Nat.add_0_r. f_equal.
  - apply IH. intros i v. change (F (S i) (Val v) = Val ("?" +:+ pretty (S n + i) +:+ " := " +:+ v)). rewrite HF. by rewrite Nat.add_succ_comm.
Qed.

Lemma mapM_Vals (l : list string) : mapM id (map Val l) = (Val l : Fallible (list string)).
Proof. induction l as [|x l IH]; [done|]. simpl. by rewrite IH. Qed.

Lemma text_list l : write [Val "["; separated ", " (map Val (map text l)); Val "]"] = Val (text (list_tokens l)).
Proof.
  pose proof (text_slice (λ x, Val (text x)) id l) as H. rewrite map_id, <- map_map in H. apply H. by apply Forall_true.
Qed.

Lemma text_substitution s : Forall (λ a, debug_arg a = Val (text (arg_tokens a))) s →
  display_Substitution program_db (Some p) s = Val (text (substitution_tokens s)).
Proof.
  intros Hs. unfold display_Substitution, debug_substitution, substitution_tokens.
  rewrite (text_assignments s 0) by (try done; intros i v; by writes). apply text_list.
Qed.

Lemma text_constraint c : names_ok → plain_constraint c →
  debug_InEnvironment (map (debug_program_clause program_db (Some p)) c.(environment))
    (debug_Constraint program_db (Some p) c.(env_goal)) = Val (text (constraint_tokens c)).
Proof.
  intros Hn [He Hc]. unfold constraint_tokens, debug_Constraint. rewrite He.
  destruct (c.(env_goal)) as [a b|ty a].
  - unfold debug_LifetimeOutlives. rewrite <- !text_lifetime. writes.
  - unfold debug_TypeOutlives. rewrite (proj1 (text_ty Hn)), <- !text_lifetime by done. writes.
Qed.

Lemma text_constraints cs : names_ok → Forall plain_constraint cs →
  debug_constraints program_db (Some p) cs = Val (text (list_tokens (map constraint_tokens cs))).
Proof.
  intros Hn Hcs. unfold debug_constraints. apply text_slice. eapply Forall_impl; [done|]. intros c Hc. by apply text_constraint.
Qed.

Lemma substitution_text_nil s : text (substitution_tokens s) = "[]" ↔ s = [].
Proof. split; [|by intros ->]. by destruct s. Qed.
Lemma constraints_text_nil cs : text (list_tokens (map constraint_tokens cs)) = "[]" ↔ cs = [].
Proof. split; [|by intros ->]. by destruct cs. Qed.

Lemma text_constrained l c : names_ok → plain_constrained l c →
  display_ConstrainedSubst program_db (Some p) c = Val (text (constrained_tokens c)).
Proof.
  intros Hn [Hs Hc]. unfold display_ConstrainedSubst, constrained_tokens.
  rewrite text_substitution by (by eapply (text_ty Hn)). rewrite text_constraints by done. cbn [mbind outcome_bind].
  rewrite (decide_ext _ _ _ _ (substitution_text_nil _)), (decide_ext _ _ _ _ (constraints_text_nil _)).
  repeat case_decide; f_equal; try tauto; cbn [app]; texts; done.
Qed.

Lemma text_universes l :
  separated "," (map (λ pk : CanonicalVarKind, Val ("?" +:+ debug_UniverseIndex pk.(kvalue))) l) =
  Val (String.concat "," (map text (map universe_tokens (map kvalue l)))).
Proof.
  unfold separated. rewrite (mapM_texts _ (λ pk, text (universe_tokens pk.(kvalue)))), !map_map; [done|].
  apply Forall_true. intros pk. unfold universe_tokens. f_equal. by texts.
Qed.

Lemma text_canonical {T} (display : T → Text) tokens (c : Canonical T) :
  display c.(cvalue) = Val (text (tokens c.(cvalue))) →
  display_Canonical display c = Val (text (canonical_tokens tokens c)).
Proof.
  intros Hd. unfold display_Canonical, canonical_tokens. destruct (cbinders c) as [|k l]; [done|].
  rewrite text_universes, Hd.
  etrans; [exact (write_Vals ["for<"; String.concat "," (map text (map universe_tokens (map kvalue (k :: l)))); "> { "; _; " }"])|].
  cbn [foldr]. f_equal. pose proof (text_separated "," ">" (universe_tokens (kvalue k)) (map universe_tokens (map kvalue l))) as Hu.
  change "> { " with (">" +:+ " { "). rewrite text_app in Hu.
  rewrite string_app_nil, string_app_assoc, <- (string_app_assoc _ ">").
  cbn [map] in *. rewrite Hu. by texts.
Qed.

Lemma text_solution l sol : names_ok → plain_solution l sol →
  display_Solution program_db (Some p) sol = Val (text (solution_tokens sol)).
Proof.
  intros Hn Hsol. destruct sol as [c|[c|c|]]; [| | |done].
  - pose proof (text_canonical (display_ConstrainedSubst program_db (Some p)) constrained_tokens c
      (text_constrained l _ Hn Hsol)) as Hc.
    destruct c as [[[|a s] [|ct cts]] [|k ks]]; [done| | | | | | |];
      unfold display_Solution, solution_tokens; rewrite Hc; by writes.
  - pose proof (text_canonical (display_Substitution program_db (Some p)) substitution_tokens c) as Hc.
    unfold display_Solution, solution_tokens. rewrite Hc; [by writes|].
    apply text_substitution. by eapply (text_ty Hn).
  - pose proof (text_canonical (display_Substitution program_db (Some p)) substitution_tokens c) as Hc.
    unfold display_Solution, solution_tokens. rewrite Hc; [by writes|].
    apply text_substitution. by eapply (text_ty Hn).
Qed.

(** *** The words of an answer can be read back *)

Lemma lexed_assignments n s : Forall lexed_term (map arg_tokens s) → Forall lexed_term (assignment_tokens n s).
Proof.
  revert n. induction s as [|a s IH]; intros n Hs; [constructor|]. inversion Hs; subst.
  constructor; [|by apply IH]. intros r Hr. split; [done|]. apply lexed_nat. do 4 (split; [done|]). by apply H1.
Qed.

Lemma lexed_constraint c : names_ok → plain_constraint c → lexed_term (constraint_tokens c).
Proof.
  intros Hn [_ Hc] r Hr.
  assert (lexed_term (outlives_tokens c.(env_goal))) as Hg.
  { intros r' Hr'. destruct (env_goal c) as [a b|ty a]; cbn [outlives_tokens]; rewrite <- !app_assoc.
    - apply lexed_lifetime. do 2 (split; [done|]). by apply lexed_lifetime.
    - apply (lexed_ty Hn); [done|]. do 2 (split; [done|]). by apply lexed_lifetime. }
  apply lexed_word; [done|]. do 3 (split; [done|]). apply lexed_word; [done|]. do 2 (split; [done|]).
  apply lexed_word; [done|]. do 6 (split; [done|]). apply lexed_word; [done|]. do 2 (split; [done|]).
  change (lexed false ((outlives_tokens c.(env_goal) ++ puncts " }") ++ r)). rewrite <- app_assoc. apply Hg.
  apply lexed_puncts; [done|]. by apply lexed_weaken.
Qed.

Lemma lexed_substitution l s r : names_ok → plain_args l s → lexed false r → lexed false (substitution_tokens s ++ r).
Proof. intros Hn Hs. apply lexed_list, lexed_assignments. by eapply (lexed_ty Hn). Qed.

Lemma lexed_constrained l c r : names_ok → plain_constrained l c → lexed false r → lexed false (constrained_tokens c ++ r).
Proof.
  intros Hn [Hs Hc] Hr. unfold constrained_tokens. rewrite <- !app_assoc.
  set (cs := if decide (cconstraints c = []) then [] else _).
  assert (lexed false (cs ++ r)) as Hcs.
  { unfold cs. case_decide; [done|]. apply lexed_word; [done|]. split; [done|]. apply lexed_word; [done|]. split; [done|].
    apply lexed_list; [|done]. apply Forall_map. eapply Forall_impl; [exact Hc|]. intros ct Hct. by apply lexed_constraint. }
  assert (lexed false ((if decide (csubst c = [] ∨ cconstraints c = []) then [] else puncts ", ") ++ cs ++ r)) as Htail
    by (case_decide; [done|by apply lexed_puncts]). clearbody cs.
  destruct (decide (csubst c = [])) as [_|_]; [done|]. apply lexed_word; [done|]. split; [done|].
  by eapply lexed_substitution.
Qed.

Lemma lexed_universe u : lexed_term (universe_tokens u).
Proof.
  intros r Hr. split; [done|]. split_and!; [done..| |done].
  change ("U" +:+ pretty (counter u)) with (String "U" (pretty (counter u))).
  simpl. eapply all_chars_mono; [apply digit_word|apply digits_nat].
Qed.

Lemma lexed_canonical {T} (tokens : T → list Token) (c : Canonical T) r :
  (∀ r, lexed false r → lexed false (tokens c.(cvalue) ++ r)) → lexed false r → lexed false (canonical_tokens tokens c ++ r).
Proof.
  intros Ht Hr. unfold canonical_tokens. destruct (map kvalue (cbinders c)) as [|u l]; [by apply Ht|].
  apply lexed_word; [done|]. split; [done|].
  change (lexed false ((universe_tokens u ++ rest_tokens "," ">" (map universe_tokens l) ++ puncts " { " ++ 
    tokens c.(cvalue) ++ puncts " }") ++ r)). rewrite <- !app_assoc.
  apply lexed_universe, lexed_rest; [done..| |].
  - apply Forall_map, Forall_true. apply lexed_universe.
  - apply lexed_puncts; [done|]. by apply Ht, lexed_puncts.
Qed.

Lemma lexed_solution l sol : names_ok → plain_solution l sol → lexed false (solution_tokens sol ++ []).
Proof.
  intros Hn Hsol. destruct sol as [c|[c|c|]]; [| | |by split_and!].
  - assert (lexed false (Word "Unique" :: puncts "; " ++ canonical_tokens constrained_tokens c ++ [])) as Hc.
    { apply lexed_word; [done|]. apply lexed_puncts; [done|]. apply lexed_canonical; [|done].
      intros r. by eapply lexed_constrained. }
    by destruct c as [[[|a s] [|ct cts]] [|k ks]].
  - apply lexed_word; [done|]. do 2 (split; [done|]). apply lexed_word; [done|]. split; [done|].
    apply lexed_word; [done|]. split; [done|]. apply lexed_canonical; [|done]. intros r. by eapply lexed_substitution.
  - apply lexed_word; [done|]. do 2 (split; [done|]). apply lexed_word; [done|]. split; [done|].
    apply lexed_word; [done|]. split; [done|]. apply lexed_canonical; [|done]. intros r. by eapply lexed_substitution.
Qed.

Lemma reads_rest {A} (P : A → Prop) f c c' sep close l : c ≠ c' → Forall (reads P f) l →
  reads (Forall P) (λ l, rest_tokens (String c sep) (String c' close) (map f l)) l.
Proof.
  intros Hc. induction 1 as [|a l Ha _ IH]; intros [|a' l'] r r' Hl' Heq.
  - split; [done|]. by apply app_inv_head in Heq.
  - cbn in Heq. by simplify_eq.
  - cbn in Heq. by simplify_eq.
  - inversion Hl'; subst. cbn [map rest_tokens] in Heq. rewrite <- !app_assoc in Heq. apply app_inv_head in Heq.
    apply Ha in Heq as [-> Heq]; [|done]. by apply IH in Heq as [-> ->].
Qed.

Lemma reads_list {A} (P : A → Prop) f l : (∀ a, head_of (f a) = HeadWord "InEnvironment") → Forall (reads P f) l →
  reads (Forall P) (λ l, list_tokens (map f l)) l.
Proof.
  intros Hf Hl [|x l'] r r' Hl' Heq.
  - destruct Hl as [|a l Ha Hl]; [by simplify_eq/=|].
    pose proof (Hf a) as Hh. cbn in Heq. destruct (f a) as [|[w|ch] k]; [done| |]; cbn in Heq; by simplify_eq.
  - destruct Hl as [|a l Ha Hl].
    + pose proof (Hf x) as Hh. cbn in Heq. destruct (f x) as [|[w|ch] k]; [done| |]; cbn in Heq; by simplify_eq.
    + inversion Hl'; subst. unfold list_tokens in Heq. cbn [map] in Heq. rewrite <- !app_assoc in Heq. apply app_inv_head in Heq.
      apply Ha in Heq as [-> Heq]; [|done]. by eapply (reads_rest P) in Heq as [-> ->].
Qed.

Lemma reads_arg so a : names_ok → sort_arg so a → reads (sort_arg so) arg_tokens a.
Proof.
  intros Hn Ha. destruct so as [| |ty], a as [t|lt|c]; try done; intros [t'|lt'|c'] r r' Ha' Heq; try done.
  - by apply (reads_ty Hn) in Heq as [-> ->].
  - by apply reads_lifetime in Heq as [-> ->].
  - by apply (reads_const ty) in Heq as [-> ->].
Qed.

Lemma reads_assignments l s n : names_ok → plain_args l s →
  reads (plain_args l) (λ s, rest_tokens ", " "]" (assignment_tokens n s)) s.
Proof.
  intros Hn. revert s n. induction l as [|so l IH]; intros s n Hs x r r' Hx Heq.
  - inversion Hs; inversion Hx; subst. by apply app_inv_head in Heq.
  - apply plain_args_cons in Hs as (a & s' & -> & Ha & Hs), Hx as (b & x' & -> & Hb & Hx).
    cbn [assignment_tokens rest_tokens] in Heq. rewrite <- !app_assoc in Heq. apply (f_equal (drop 8)) in Heq.
    cbn in Heq. rewrite <- ?app_assoc in Heq. apply (reads_arg so) in Heq as [-> Heq]; [|done..].
    by apply IH in Heq as [-> ->].
Qed.

Lemma reads_substitution l s : names_ok → plain_args l s → reads (plain_args l) substitution_tokens s.
Proof.
  intros Hn Hs x r r' Hx Heq. destruct l as [|so l].
  - inversion Hs; inversion Hx; subst. by apply app_inv_head in Heq.
  - apply plain_args_cons in Hs as (a & s' & -> & Ha & Hs), Hx as (b & x' & -> & Hb & Hx).
    apply (f_equal (drop 7)) in Heq. unfold substitution_tokens in Heq. cbn in Heq. rewrite <- !app_assoc in Heq.
    apply (reads_arg so) in Heq as [-> Heq]; [|done..]. by apply (reads_assignments l) in Heq as [-> ->].
Qed.

Lemma reads_outlives c c' r r' : names_ok → (match c with CtTypeOutlives ty _ => plain ty | _ => True end) →
  (match c' with CtTypeOutlives ty _ => plain ty | _ => True end) →
  outlives_tokens c ++ r = outlives_tokens c' ++ r' → c = c' ∧ r = r'.
Proof.
  intros Hn Hc Hc' Heq.
  assert (∀ ty a r r', plain ty → ty_tokens ty ++ r ≠ lifetime_tokens a ++ r') as Hap.
  { intros ty a r1 r2 Hty He. apply (f_equal head_of) in He. rewrite head_ty in He by done.
    by destruct Hty as [| |[]| | | | | | | | | | | | | | | |]. }
  destruct c as [a b|ty a], c' as [a' b'|ty' a']; cbn [outlives_tokens] in Heq; rewrite <- !app_assoc in Heq.
  - apply reads_lifetime in Heq as [-> Heq]; [|done]. apply app_inv_head in Heq.
    by apply reads_lifetime in Heq as [-> ->].
  - symmetry in Heq. by apply Hap in Heq.
  - by apply Hap in Heq.
  - apply (reads_ty Hn) in Heq as [-> Heq]; [|done..]. apply app_inv_head in Heq.
    by apply reads_lifetime in Heq as [-> ->].
Qed.

Lemma reads_constraint c : names_ok → plain_constraint c → reads plain_constraint constraint_tokens c.
Proof.
  intros Hn [He Hc] c' r r' [He' Hc'] Heq. destruct c as [e g], c' as [e' g']. simpl in *. subst.
  apply (f_equal (drop 17)) in Heq. cbn in Heq. rewrite <- !app_assoc in Heq.
  apply reads_outlives in Heq as [-> Heq]; [|done..]. by simplify_eq.
Qed.


Lemma constraints_inj cs cs' : names_ok → Forall plain_constraint cs → Forall plain_constraint cs' →
  list_tokens (map constraint_tokens cs) = list_tokens (map constraint_tokens cs') → cs = cs'.
Proof.
  intros Hn Hcs Hcs' Heq. apply (f_equal (λ l, l ++ [])) in Heq.
  eapply (reads_list plain_constraint) in Heq as [-> _]; [done..| |done].
  eapply Forall_impl; [exact Hcs|]. intros c. by apply reads_constraint.
Qed.

Lemma plain_args_nil l s s' : plain_args l s → plain_args l s' → s = [] ↔ s' = [].
Proof. by destruct 1; inversion 1. Qed.

Lemma constrained_inj l c c' : names_ok → plain_constrained l c → plain_constrained l c' →
  constrained_tokens c = constrained_tokens c' → c = c'.
Proof.
  clear program_db.
  destruct c as [s cs], c' as [s' cs']. intros Hn [Hs Hc] [Hs' Hc'] Heq. simpl in *.
  pose proof (plain_args_nil l s s' Hs Hs') as Hnil. pose proof (constraints_inj cs cs' Hn Hc Hc') as Hcs.
  unfold constrained_tokens in Heq. cbn [csubst cconstraints] in Heq.
  assert (s = s' ∧ ((if decide (s = [] ∨ cs = []) then [] else puncts ", ") ++ (if decide (cs = []) then []
     else Word "lifetime" :: puncts " " ++ Word "constraints" :: puncts " " ++ list_tokens (map constraint_tokens cs)) =
    (if decide (s' = [] ∨ cs' = []) then [] else puncts ", ") ++ (if decide (cs' = []) then []
     else Word "lifetime" :: puncts " " ++ Word "constraints" :: puncts " " ++ list_tokens (map constraint_tokens cs')))) as [-> Ht].
  { destruct (decide (s = [])) as [H0|H0]; [pose proof (proj1 Hnil H0); by subst|].
    rewrite (decide_False (P := s' = [])) in Heq by tauto. apply (f_equal (drop 2)) in Heq. cbn in Heq.
    by apply (reads_substitution l) in Heq as [-> Heq]. }
  f_equal. destruct (decide (cs = [])) as [->|H0], (decide (cs' = [])) as [->|H0']; [done| | |].
  - exfalso. by repeat case_decide; simplify_eq/=.
  - exfalso. by repeat case_decide; simplify_eq/=.
  - apply Hcs. rewrite (decide_ext _ (s' = [] ∨ cs' = [])) in Ht by tauto. apply app_inv_head in Ht.
    by apply (f_equal (drop 4)) in Ht.
Qed.

Lemma canonical_inj {T} (tokens : T → list Token) (c c' : Canonical T) :
  head_of (tokens c.(cvalue)) ≠ HeadWord "for" → head_of (tokens c'.(cvalue)) ≠ HeadWord "for" →
  (tokens c.(cvalue) = tokens c'.(cvalue) → c.(cvalue) = c'.(cvalue)) →
  canonical_tokens tokens c = canonical_tokens tokens c' →
  c.(cvalue) = c'.(cvalue) ∧ map kvalue c.(cbinders) = map kvalue c'.(cbinders).
Proof.
  intros Hf Hf' Ht Heq. unfold canonical_tokens in Heq.
  destruct (map kvalue (cbinders c)) as [|u l], (map kvalue (cbinders c')) as [|u' l'].
  - auto.
  - exfalso. by rewrite Heq in Hf.
  - exfalso. by rewrite <- Heq in Hf'.
  - assert (∀ u, reads (λ _, True) universe_tokens u) as Hu.
    { intros [v] [v'] r r' _ He. cbn in He. by simplify_eq. }
    apply (f_equal (drop 2)) in Heq. cbn [drop puncts app] in Heq. apply Hu in Heq as [-> Heq]; [|done].
    apply (reads_rest (λ _, True)) in Heq as [-> Heq]; [|done|by apply Forall_true|by apply Forall_true].
    apply (f_equal (drop 3)) in Heq. cbn in Heq. apply app_inv_tail in Heq. auto.
Qed.

Lemma constrained_head c : head_of (constrained_tokens c) ≠ HeadWord "for".
Proof. clear program_db. unfold constrained_tokens. by repeat case_decide; try tauto. Qed.

(** [Unique] by itself is shown for the answer that says nothing. *)
Definition yes : Canonical ConstrainedSubst := mkCanonical (mkConstrainedSubst [] []) [].

Lemma unique_tokens c : solution_tokens (Unique c) =
  Word "Unique" :: if decide (c = yes) then [] else puncts "; " ++ canonical_tokens constrained_tokens c.
Proof. case_decide as Hc; [by subst|]. by destruct c as [[[|a s] [|ct cts]] [|k ks]]. Qed.
End Read.

(** What a text says of an answer: the kinds of its variables are not shown, only their universes. *)
Definition shown_canonical {T} (c : Canonical T) : Canonical T :=
  mkCanonical c.(cvalue) (map (mkWithKind VkLifetime) (map kvalue c.(cbinders))).
Definition shown (sol : Solution) : Solution :=
  match sol with
  | Unique c => Unique (shown_canonical c)
  | Ambig (Definite c) => Ambig (Definite (shown_canonical c))
  | Ambig (Suggested c) => Ambig (Suggested (shown_canonical c))
  | Ambig Unknown => Ambig Unknown
  end.

Lemma shown_canonical_eq {T} (c c' : Canonical T) :
  shown_canonical c = shown_canonical c' ↔ c.(cvalue) = c'.(cvalue) ∧ map kvalue c.(cbinders) = map kvalue c'.(cbinders).
Proof.
  unfold shown_canonical. split.
  - intros [= -> Hk]. split; [done|]. apply (f_equal (map kvalue)) in Hk. rewrite !(map_map (mkWithKind _)) in Hk. simpl in Hk. by rewrite !map_id in Hk.
  - by intros [-> ->].
Qed.

Lemma shown_canonical_tokens {T} (tokens : T → list Token) (c : Canonical T) :
  canonical_tokens tokens (shown_canonical c) = canonical_tokens tokens c.
Proof. unfold canonical_tokens, shown_canonical. simpl. rewrite (map_map (mkWithKind _)). simpl. by rewrite map_id. Qed.

Lemma shown_tokens p sol : solution_tokens p (shown sol) = solution_tokens p sol.
Proof.
  destruct sol as [c|[c|c|]]; [|by simpl; rewrite ?shown_canonical_tokens..].
  simpl shown. rewrite !unique_tokens, shown_canonical_tokens. f_equal.
  assert (shown_canonical c = yes ↔ c = yes) as Hyes; [|by rewrite (decide_ext _ _ _ _ Hyes)].
  destruct c as [v [|k ks]]; [done|]. by split; intros [=].
Qed.

Section Answers.
Context (p : Program.Program) (sg : Signature) (l : list Sort) (Hn : names_ok p).

Lemma solution_tokens_inj sol sol' : plain_solution p sg l sol → plain_solution p sg l sol' →
  solution_tokens p sol = solution_tokens p sol' → shown sol = shown sol'.
Proof.
  intros Hp Hp' Heq.
  assert (∀ c c' : Canonical Substitution, plain_args p sg l c.(cvalue) → plain_args p sg l c'.(cvalue) →
    canonical_tokens (substitution_tokens p) c = canonical_tokens (substitution_tokens p) c' →
    shown_canonical c = shown_canonical c') as Hsub.
  { intros c c' Hc Hc' He. apply shown_canonical_eq. apply (canonical_inj (substitution_tokens p)); [done..| |done].
    intros Hv. apply (f_equal (λ l, l ++ [])) in Hv. by eapply reads_substitution in Hv as [-> _]. }
  destruct sol as [c|[c|c|]], sol' as [c'|[c'|c'|]]; rewrite ?unique_tokens in Heq;
    try (cbn in Heq; repeat case_decide; by simplify_eq).
  - injection Heq as Heq. simpl. f_equal. repeat case_decide; subst; [done|done|done|].
    apply (f_equal (drop 2)), canonical_inj in Heq; [by apply shown_canonical_eq|apply constrained_head..|].
    by apply (constrained_inj p sg l).
  - apply (f_equal (drop 7)) in Heq. simpl. do 2 f_equal. by apply Hsub.
  - apply (f_equal (drop 7)) in Heq. simpl. do 2 f_equal. by apply Hsub.
Qed.
End Answers.

(** A program can be checked for [names_ok]. *)
Definition each {A} (f : N → A → bool) (m : gmap N A) : bool := forallb (λ x, f x.1 x.2) (map_to_list m).
Lemma each_spec {A} (f : N → A → bool) m i a : each f m = true → m !! i = Some a → f i a = true.
Proof.
  intros Hm Ha. apply elem_of_map_to_list, list_elem_of_In in Ha. unfold each in Hm. rewrite forallb_forall in Hm.
  by apply (Hm (i, a)).
Qed.

Definition word_ok (name : string) : bool :=
  bool_decide (name ≠ EmptyString) && all_chars word_char name && negb (starts digit_char name).
Definition kinds_ok (f : string → bool) (kinds : gmap N TypeKind) : bool :=
  each (λ i k, word_ok k.(tk_name) && f k.(tk_name) &&
    each (λ j k', bool_decide (k.(tk_name) ≠ k'.(tk_name)) || bool_decide (i = j)) kinds) kinds.
Definition assocs_ok (p : Program.Program) : bool :=
  each (λ i d, word_ok d.(assoc_name) && bool_decide (is_Some (p.(trait_kinds) !! d.(assoc_trait_id))) &&
    each (λ j _, bool_decide (trait_name p i ≠ trait_name p j) || bool_decide (assoc_ty_name p i ≠ assoc_ty_name p j) ||
      bool_decide (i = j)) p.(prog_associated_ty_data)) p.(prog_associated_ty_data).
Definition names_check (p : Program.Program) : bool :=
  let unreserved name := bool_decide (name ∉ reserved) in
  kinds_ok unreserved p.(adt_kinds) && kinds_ok unreserved p.(fn_def_kinds) &&
  kinds_ok (λ _, true) p.(opaque_ty_kinds) && each (λ _ k, word_ok k.(tk_name)) p.(trait_kinds) && assocs_ok p &&
  each (λ _ k, each (λ _ k', bool_decide (k.(tk_name) ≠ k'.(tk_name))) p.(fn_def_kinds)) p.(adt_kinds).

Lemma word_ok_spec name : word_ok name = true → name_ok name.
Proof. unfold word_ok. rewrite !andb_true_iff, bool_decide_eq_true, negb_true_iff. by intros [[? ?] ?]. Qed.

Lemma kinds_ok_name f kinds id k : kinds_ok f kinds = true → kinds !! id = Some k → name_ok k.(tk_name) ∧ f k.(tk_name) = true.
Proof.
  intros Ha Hk. apply (each_spec _ _ _ _ Ha) in Hk. rewrite !andb_true_iff in Hk. destruct Hk as [[Hk ?] _].
  split; [by apply word_ok_spec|done].
Qed.
Lemma kinds_ok_inj f kinds i j k k' : kinds_ok f kinds = true → kinds !! i = Some k → kinds !! j = Some k' →
  k.(tk_name) = k'.(tk_name) → i = j.
Proof.
  intros Ha Hk Hk' Heq. apply (each_spec _ _ _ _ Ha) in Hk. rewrite !andb_true_iff in Hk. destruct Hk as [_ Hk].
  apply (each_spec _ _ _ _ Hk) in Hk'. apply orb_true_iff in Hk' as [Hne|Hij]; by apply bool_decide_eq_true in Hne || apply bool_decide_eq_true in Hij.
Qed.

Lemma names_check_spec p : names_check p = true → names_ok p.
Proof.
  unfold names_check. rewrite !andb_true_iff. intros [[[[[Ha Hf] Ho] Ht] Has] Haf]. split.
  - intros id k Hk. apply (kinds_ok_name _ _ _ _ Ha) in Hk as [? ?%bool_decide_eq_true]. done.
  - intros id k Hk. apply (kinds_ok_name _ _ _ _ Hf) in Hk as [? ?%bool_decide_eq_true]. done.
  - intros id k Hk. by apply (kinds_ok_name _ _ _ _ Ho) in Hk as [? _].
  - intros id k Hk. apply word_ok_spec. by apply (each_spec _ _ _ _ Ht) in Hk.
  - intros id d Hd. apply (each_spec _ _ _ _ Has) in Hd. rewrite !andb_true_iff in Hd. destruct Hd as [[Hd Hs%bool_decide_eq_true] _].
    split; [by apply word_ok_spec|done].
  - intros i j k k'. by apply (kinds_ok_inj _ _ _ _ _ _ Ha).
  - intros i j k k'. by apply (kinds_ok_inj _ _ _ _ _ _ Hf).
  - intros i j k k'. by apply (kinds_ok_inj _ _ _ _ _ _ Ho).
  - intros i j k k' Hk Hk'. apply (each_spec _ _ _ _ Haf) in Hk. apply (each_spec _ _ _ _ Hk) in Hk'. by apply bool_decide_eq_true in Hk'.
  - intros i j [d Hd] [d' Hd'] Htr Hn. apply (each_spec _ _ _ _ Has) in Hd. rewrite !andb_true_iff in Hd. destruct Hd as [_ Hd].
    apply (each_spec _ _ _ _ Hd) in Hd'. rewrite !orb_true_iff, !bool_decide_eq_true in Hd'. by destruct Hd' as [[?|?]|?].
Qed.

Lemma lowered_iterator_names : names_ok lowered_iterator.
Proof. apply names_check_spec. by vm_compute. Qed.

(** [Vec<^0.0>] and a lifetime in [U1], where the lifetime outlives another. *)
Definition sample_signature : Signature := mkSignature (λ _, [SortTy]) (λ _, []) (λ _, []) (λ _, []) (λ _, []) (λ _, []).
Definition vec_of_bound (i : nat) : Ty := TyAdt 3%N [ArgTy (TyBoundVar (mkBoundVar 0 i))].
Definition sample_answer : Solution := Unique (mkCanonical
  (mkConstrainedSubst [ArgTy (TyRef Mut LtStatic (vec_of_bound 0)); ArgLifetime (LtBoundVar (mkBoundVar 0 1))]
    [mkInEnvironment [] (CtLifetimeOutlives (LtBoundVar (mkBoundVar 0 1)) LtStatic)])
  [mkWithKind (VkTy General) universe_root; mkWithKind VkLifetime (mkUniverse 1)]).
Definition sample_guess : Solution := Ambig (Definite (mkCanonical
  [ArgTy (vec_of_bound 0); ArgLifetime LtStatic] [mkWithKind (VkTy General) universe_root])).

Lemma sample_texts program_db :
  display_Solution program_db (Some lowered_iterator) sample_answer =
    Val "Unique; for<?U0,?U1> { substitution [?0 := (&'static mut Vec<^0.0>), ?1 := '^0.1], lifetime constraints [InEnvironment { environment: Env([]), goal: '^0.1: 'static }] }" ∧
  display_Solution program_db (Some lowered_iterator) sample_guess =
    Val "Ambiguous; definite substitution for<?U0> { [?0 := Vec<^0.0>, ?1 := 'static] }" ∧
  display_Solution program_db None sample_guess =
    Val "Ambiguous; definite substitution for<?U0> { [Ty(AdtId(#3)<[Ty(^0.0)]>), Lifetime('static)] }".
Proof. split_and!; by vm_compute. Qed.

(** A program set inside the scope of another is not replaced by it again. *)
Lemma nested_program_lost {E R S} p q (op : Current → outcome E R * Current) (f : Current → outcome E S) current r c :
  op (Some q) = (Val r, c) →
  set_current_program p (λ c, with_current_program f (set_current_program q op c).2) current =
  (f None, None).
Proof. intros Hop. unfold set_current_program at 1. simpl. unfold set_current_program. rewrite Hop. simpl. by destruct (f None). Qed.

(** Why [plain] leaves out what it does: the arguments of opaque aliases are not shown, nor is
    the difference of a generator and its witness, of numbers of different types, and of a type
    and a name like its text. *)
Lemma texts_shared program_db current id s s' n ty ty' :
  debug_ty program_db current (TyAlias (AliasOpaque id s)) = debug_ty program_db current (TyAlias (AliasOpaque id s')) ∧
  debug_ty program_db current (TyGenerator id s) = debug_ty program_db current (TyGeneratorWitness id s) ∧
  debug_ConstData (mkConst ty (CvConcrete n)) = debug_ConstData (mkConst ty' (CvConcrete n)) ∧
  (∀ p k, current = Some p → p.(adt_kinds) !! id = Some k → k.(tk_name) = "Bool" →
    debug_ty program_db current (TyAdt id []) = debug_ty program_db current (TyScalar ScBool)).
Proof.
  split_and!; [done..|]. intros p k -> Hk Hb. simpl. unfold debug_adt_id, debug_kind_id, Display.debug_kind.
  by rewrite Hk, Hb.
Qed.

(** C19. What an answer shows is what it is: in a program whose items have names that can be
    told apart, take two answers of one goal whose arguments are plain types (no aliases, [dyn] or
    function types, or witnesses of generators), lifetimes and constants, and whose constraints
    have no clauses.  Their texts can be written, and they have the same text exactly when they are
    the same constructor with the same universes, arguments and constraints: only
    the kinds of the variables they quantify over are not in the text. *)
Theorem answer_text_exact (program_db : Program.Program → RustIrDatabase) p sg l sol sol' : names_ok p →
  plain_solution p sg l sol → plain_solution p sg l sol' →
  (∃ s, display_Solution program_db (Some p) sol = Val s) ∧
  (display_Solution program_db (Some p) sol = display_Solution program_db (Some p) sol' ↔ shown sol = shown sol').
Proof.
  intros Hn Hp Hp'. rewrite !(text_solution program_db p sg l) by done. split; [by eexists|]. split.
  - intros [= Ht]. apply (solution_tokens_inj p sg l); [done..|].
    pose proof (lexed_solution p sg l sol Hn Hp) as Hl. pose proof (lexed_solution p sg l sol' Hn Hp') as Hl'.
    rewrite app_nil_r in Hl, Hl'. by eapply text_inj.
  - intros Hs. do 2 f_equal. by rewrite <- (shown_tokens p sol), Hs, shown_tokens.
Qed.

Lemma sample_plain : plain_solution lowered_iterator sample_signature [SortTy; SortLifetime] sample_answer ∧
  plain_solution lowered_iterator sample_signature [SortTy; SortLifetime] sample_guess.
Proof.
  assert (∀ i, plain lowered_iterator sample_signature (vec_of_bound i)) as Hvec
    by (intros i; apply plain_adt; [by apply (bool_decide_unpack _); vm_compute|]; repeat constructor).
  assert (∀ t lt, plain lowered_iterator sample_signature t →
    plain_args lowered_iterator sample_signature [SortTy; SortLifetime] [ArgTy t; ArgLifetime lt]) as Hargs
    by (intros t lt Ht; by repeat constructor).
  split; [split|by apply Hargs].
  - apply Hargs. by apply plain_ref.
  - by apply Forall_singleton.
Qed.

Lemma answer_text_exact_witness :
  let rust_ir p := program_rust_ir (program_db [] [] [] []) 3 p id in
  names_ok lowered_iterator ∧
  (∃ s, display_Solution rust_ir (Some lowered_iterator) sample_answer = Val s) ∧
  (display_Solution rust_ir (Some lowered_iterator) sample_answer =
     display_Solution rust_ir (Some lowered_iterator) sample_guess ↔ shown sample_answer = shown sample_guess).
Proof.
  split; [exact lowered_iterator_names|].
  apply (answer_text_exact _ lowered_iterator sample_signature [SortTy; SortLifetime]).
  - exact lowered_iterator_names.
  - exact (proj1 sample_plain).
  - exact (proj2 sample_plain).
Defined.
